(* ===== verification/_CoqProject ===== *)
-Q . S2P
Prelude.v
Abi.v
Text.v
SchemeUtils.v
Readiness.v
Chan.v
Shm.v
Uds.v
UdsDgram.v
UdsStream.v
Pty.v
PtyScheme.v
Ramfs.v
Netstack.v
Link.v
Router.v
Sockets.v
SocketsInv.v
SocketKinds.v
SocketKindsSpec.v
Smolnetd.v
SmolnetdInv.v
SmolnetdExamples.v
NetDriver.v
NetDriverSpec.v
NetCard.v
E1000.v
Rtl8168.v
Keymap.v
Inputd.v
InputdSpec.v
XhciPort.v
XhciTrb.v
XhciRing.v
XhciReactor.v
XhciReactorSpec.v
XhciEndpoint.v
XhciEndpointSpec.v
Block.v
LiveDisk.v
Initfs.v
InitfsScheme.v
InitfsSchemeSpec.v
Nsmgr.v
Procmgr.v
ProcmgrInv.v
ProcmgrExit.v
ProcmgrExamples.v
Init.v
InitExamples.v
Logd.v
Zerod.v
Randd.v
Audiod.v
