(* ===== verification/Prelude.v ===== *)
(** * A verification library for the EOS base system

    The program is the user-space base of a Redox-like operating system: daemons
    that serve _schemes_ (file-like name spaces) to other processes, the drivers, and
    the boot image.  A process opens a path on a scheme, and the kernel forwards every
    call on the descriptor to the daemon as a request; the daemon answers at once or
    keeps the request until it can.  Three layers are modelled.  The shared library
    [scheme-utils] keeps the descriptor tables and dispatches requests; the daemons
    [ipcd], [ptyd], [ramfs], [netstack], [logd], [randd], [zerod], [audiod] and [inputd]
    and the block, network and USB drivers implement schemes on top of it; and the boot path is
    [initfs], the image that the bootstrap process serves and reads its first programs
    from, the process and namespace managers, and [init], which starts everything else in
    the order of its dependencies.

    ** Files

    - [Prelude]: error codes, the state-and-error monad [comp], its weakest
      preconditions and their tactics ([wp_step], [wp_go]), machine integers with
      their overflow, bytes, slices, UTF-8, path and number parsing.
    - [Abi]: the constants of the [redox_syscall] crate, as a class.
    - [Text]: the string and path functions of the standard library that [init] uses.
    - [SchemeUtils]: [scheme-utils/src/lib.rs].  [HandleMap] (record [HandleMap],
      operations [hm_insert], [hm_remove], [hm_get], [hm_set], [btree_iter]) and
      [FpathWriter] ([fpath_with], [fpath_with_legacy], [push_str]).
    - [Readiness]: [scheme-utils/src/readiness_based.rs] and [blocking.rs], the request
      dispatchers, over a scheme and a socket given as parameters.
    - [Chan]: [ipcd/src/chan.rs].  [Shm]: [ipcd/src/shm.rs].
    - [Uds]: [ipcd/src/uds/mod.rs], the messages of UNIX sockets; [UdsDgram] and
      [UdsStream]: [dgram.rs] and [stream.rs].  Sockets live in a store, since handles,
      paths and tokens share them; a second borrow of a [RefCell] is a panic.
    - [Pty]: [ptyd/src/pty.rs], the line discipline of one terminal; the long body of
      [Pty::input] is a composition of stages in source order ([translate],
      [canon_stages], [signal_stages], [flow_stages], [late_stages]).
    - [PtyScheme]: the resources of [ptyd/src] (one [_read], [_write], [_events]
      definition per kind and file), the scheme ([scheme.rs]) and the timer and event
      steps of [main.rs].  Terminals live in a shared store, [heap], because several
      resources alias one terminal.
    - [Ramfs]: [ramfs/src/filesystem.rs] and [scheme.rs].
    - [Netstack]: [netstack/src/router/route_table.rs] and [port_set.rs].
    - [Link]: [netstack/src/link]: the Ethernet link with its ARP state, the loopback
      device and the device list.  [Router]: [netstack/src/router/mod.rs], which moves
      packets between [smoltcp] and the links through the route table.
    - [Sockets]: [netstack/src/scheme/socket.rs], the scheme that every protocol shares;
      [SocketsInv]: its invariant.  [SocketKinds]: [tcp.rs], [udp.rs], [icmp.rs] and [ip.rs]
      as instances of the class of protocols, one Module each; [SocketKindsSpec]: their laws
      and behaviour.  [Smolnetd]: [scheme/mod.rs], the event loop with the requests that
      wait; [SmolnetdInv] and [SmolnetdExamples]: its invariant, and runs.
    - [NetDriver]: [drivers/net/driver-network/src/lib.rs], the scheme of a network card
      over the trait [NetworkAdapter]; [NetDriverSpec]: what it serves over any adapter
      that keeps the contract [AdapterLaws].  [NetCard]: [drivers/common/src/io.rs] and
      [timeout.rs], registers, and descriptor rings.  [E1000] and [Rtl8168]: [device.rs] of
      [drivers/net/e1000d] and [rtl8168d], two cards that keep the contract.
    - [Keymap]: [drivers/inputd/src/keymap.rs].  [Inputd]: [drivers/inputd/src/main.rs], the
      virtual terminals, and the events of [lib.rs]; [InputdSpec]: their behaviour.
    - The USB host controller driver, [drivers/usb/xhcid/src].  [XhciPort]:
      [driver_interface.rs], port names, endpoint descriptors, and the requests of the endpoint
      files.  [XhciTrb]: [xhci/trb.rs] and [usb/setup.rs], the blocks that driver and
      controller exchange.  [XhciRing]: [xhci/ring.rs] and [xhci/event.rs].  [XhciReactor]:
      [xhci/irq_reactor.rs] and [execute_command], the futures that wait for events;
      [XhciReactorSpec]: what they get.  [XhciEndpoint]: transfers and the [ctl] and [data]
      files of an endpoint in [xhci/scheme.rs], with the guards of the table of ports;
      [XhciEndpointSpec]: the protocol of the files.
    - [Block]: [drivers/storage/driver-block/src/lib.rs] and
      [drivers/storage/partitionlib/src].  The trait [Disk] is the class [Disk], and
      what the scheme may rely on is the class [DiskLaws].
    - [LiveDisk]: [drivers/storage/lived/src/main.rs]; its instance [live_disk_laws]
      discharges [DiskLaws], and its examples run the theorems of [Block] on it.
    - [Initfs]: [initfs/tools/src/lib.rs] (the archiver), [initfs/src/lib.rs] (the
      reader) and [initfs/src/types.rs].  [InitfsScheme]: [bootstrap/src/initfs.rs], the
      scheme that serves the image; its Module [Tree] is the file system that the scheme
      promises, and [InitfsSchemeSpec] the simulation between them.
    - [Nsmgr]: [bootstrap/src/initnsmgr.rs], the namespaces through which every path is
      opened; its system calls are logged, and a namespace is a place that handles share.
    - [Procmgr]: [bootstrap/src/procmgr.rs], processes, groups, sessions, signals, exit and
      wait.  [step] is one request, one event of a thread or one woken request.
      [ProcmgrInv]: the invariant of its tables, panics and privileges.  [ProcmgrExit]: the
      end of a process and the loop over woken requests.  [ProcmgrExamples]: runs.
    - [Init]: [init/src] ([unit.rs], [script.rs], [service.rs], [scheduler.rs] and the boot
      sequence of [main.rs]) and [config/src/lib.rs]; [InitExamples] runs its theorems on
      a small system.  A started process is an entry of the world's log, [launch].
    - [Logd]: [logd/src/scheme.rs], with the output and kernel threads as step functions.
    - [Zerod], [Randd], [Audiod]: the schemes of [zerod/src], [randd/src/main.rs] and
      [audiod/src].

    A Rust method on [&mut self] is a computation [comp S A] on the record [S] of the
    fields of [self]; it ends in [Ok], in [Err] with the error code, or in [Panic],
    and in each case the state it leaves is kept, so that what an early return has
    already changed is visible.  [Panic] stands for a failed [unwrap], [expect] or
    [assert], an index out of range, and arithmetic overflow: the README lists overflow
    checks among the properties of release builds.  Integers are [Z] within their
    width, with each wrapping operation written out; a [BTreeMap] or [HashMap] is a
    [gmap], and iteration in key order is [btree_iter]; a slice that a call fills is
    passed in and returned.

    ** What the theorems show

    - Handle table: for every sequence of insertions and removals [HandleMap] behaves
      as an allocator that never hands out an id in use, also after its counter wraps.
    - Dispatch: a turn of the request loop, whatever requests and cancellations it
      reads, leaves each request answered exactly once or still waiting, never lost
      and never answered twice.
    - Never a panic: from a fresh [chan], [shm], [uds_dgram], [uds_stream], [pty] or
      [ramfs] scheme, namespace or process manager, no sequence of calls makes the daemon
      panic, under the conditions each theorem names; the invariants behind them (links
      between peers, reference counts, the file tree) hold in every reachable state.
    - Data: bytes written on one side of a channel, a terminal or a shared object are
      the bytes read on the other, in order; what is written to a file is read back;
      a read of a disk at any byte offset agrees with the flat array of its bytes; the
      live disk's overlay is indistinguishable from a mutable array.
    - Sockets: a stream connection is set up by connect and listen, carries what was
      written before it was accepted, is a pair of byte streams, and ends with an orderly
      end of file; a datagram with its descriptors and credentials arrives unchanged.
    - Namespaces: the manager refines a machine of capabilities, in which a handle gives
      at most the rights of the handle it came from and a namespace changes only through
      a handle that may insert or delete.
    - Processes: the group table lists exactly the members of each group; a process without
      privileges and its descendants never gain any; a child that exits is reported to the
      parent that waits for it and forgotten; the loop over woken requests ends; the status
      word of an exit is never that of a stop.
    - Structure: canonical input refines a line editor; path resolution is a walk of
      the tree, and [fpath] and resolution are inverse; route look-up picks a longest
      matching prefix; open disk handles never overlap; partition transfers that end
      inside the partition stay inside it; an MBR is parsed to its valid entries.
    - The boot image: every tree that fits is archived, accepted by the reader and read
      back unchanged; and the scheme that serves the image answers every sequence of
      requests as the tree it was made from would.
    - Boot: loading a unit loads the closure of its requirements and ends when that is
      finite; the scheduler runs every pending unit once, after the units it requires,
      and returns when the requirements have no cycle; the boot sequence runs every unit
      that is configured; a file in a later configuration directory replaces the same
      name of an earlier one.
    - Network: the Ethernet link never panics, resolves exactly while packets wait and
      for the oldest of them, sends the waiting packets in order when the answer
      arrives and drops them after three tries; the router empties its queue, and a
      routed packet leaves on the link of the longest prefix, framed for the gateway.
      Socket files, sockets and ports are kept in step by every event; a request that
      waits is answered as soon as it can be, or when its time is over.
    - Network cards: one tick answers every request that the received packets allow, in
      order, and keeps the others; [e1000d] and [rtl8168d] give each received packet once
      and in order, send what they are given, and never touch a descriptor that the card
      still owns.
    - Virtual terminals: the active terminal is open whenever one is; keys are translated
      and go to the consumers of the active terminal only, in order.
    - USB host controller: every block is read by the controller as the driver meant it; a
      ring is a queue across its wrap-arounds; an event of the controller ends the requests
      it belongs to and no other, and a command gets its own completion; the files of an
      endpoint follow one protocol whatever requests come; a transfer is cut into chained
      blocks that add up to it, and one that the controller completes returns its length.
    - Small daemons: log lines are split and labelled without losing a byte, and a new
      sink gets the last thousand lines; mixing adds samples with saturation and one
      stream at full volume passes unchanged; random-number permissions follow the mode.
    - Where the code does not do what it means to, a theorem states what it does:
      transfers that run past a partition, [unlinkat] in [ramfs] that is always
      refused, a write that truncates a shared object, ports that are never freed, unit
      cycles on which [init] spins, stale bytes in the kernel log, parents that
      wait for ever for a child that was stopped, children that are never collected, a
      command ring that breaks on its second lap, long transfers whose blocks share one
      buffer, endpoint requests that never return, and others.

    ** Bounds and fuel

    Every loop that is not structural takes fuel, and running out is [Panic] or an
    error, so a theorem that excludes those shows that the fuel is enough.  The id
    search of [hm_insert] has one turn more than there are handles ([hm_probe_total]);
    the accept loop of [chan] one more than there are waiting clients, and those of
    [UdsStream] likewise ([stream_never_panics]); path resolution
    in [ramfs] one turn per component and the way up from an inode as many as its number,
    since parents are older; [block_read] and the copy loops of the live disk and the
    archiver one turn per byte, since each turn makes progress; [read_kind] the depth
    of the tree.  [read_exact] retries
    interrupted reads without bound in the code; [mbr_partition_table] holds for any
    positive fuel.  In [Init] the loops that may really run for ever return [false] or
    [None] when their turns are spent, and the theorems say when a number of turns is
    enough and when none is.  [take_front], [recv_loop] and the router's loops have a turn per
    queued packet or frame.  [drain] of [Procmgr] returns [None] without fuel, and
    [procmgr_drain_ends] gives a number of turns that is enough; [on_send_sig] calls itself
    once ([send_sig] has depth 2, which [procmgr_never_panics] shows to be enough).  The
    receive loops of [SocketKinds] have a turn per queued datagram, and [wake_loop] of
    [Smolnetd] one per waiting request, since it answers or passes one in each turn; the
    same holds of [retry_blocked] in [NetDriver].  The walk of [InitfsScheme] has a turn per
    component and the search in a directory one per entry.  The loops of [E1000] and
    [Rtl8168] that wait for the card look at it [patience] times, and a hypothesis says
    that the card answers within them.  [next_index] of a ring turns at most twice, since the
    second turn starts at the beginning; [acknowledge] of [XhciReactor] has a turn per waiting
    request, and [transfer_blocks] one per started 64 KiB ([transfer_in_blocks]).  Theorems about whole histories bound the number of handles by the width of [usize].

    ** Parameters

    Code outside the repository is a class or a section variable: the system call
    constants ([SyscallAbi]), the structures of [redox_termios] ([RedoxTermios]),
    the addresses of [smoltcp] ([IpTypes]) and the index that a binary search returns,
    the field readers of [scroll] ([Scroll]), reading a GPT, the slices of [plain],
    the outcome of posting an event, the memory that a mapping returns, allocation
    failure, the constants of [libc] ([Libc]) and of the socket calls ([SocketCalls]), the
    system calls of the namespace manager ([kernel]) and its constants ([NsAbi]), the kernel,
    hash order, slab keys and protocol of the process manager ([Env], [ProcAbi]), random
    tokens, the clock, the files, environment, TOML parser and processes that [init] works
    with ([InitOs]), the random generator ([Rng]), the packet buffers, frames and
    headers of [smoltcp] ([PacketBuffers], [Wire], [Ipv4Wire]), its sockets and its poll
    ([Smoltcp] with [SmoltcpLaws], [SocketSets]), the constants and buffers of the socket
    protocol ([NetAbi], [SchemeIo]), the entries of a [DirentBuf], the registers of a
    card ([RegDevice]), what it does to the descriptors it owns and where DMA memory lies,
    the key codes and events of [orbclient] ([OrbKeys], [OrbClient]), the scaling of a sample,
    what the rest of the system does while [xhcid] waits ([world]), its JSON codec ([parse_req],
    [show_res]) and its buffers ([alloc_dma], [device_bytes]).
    What is assumed of them is a hypothesis of the theorem, and the
    examples at the end of each file instantiate it.

    ** Not modelled, and next

    The socket and request codec of [redox_scheme], process start-up, event queues and
    the start-up code of drivers are outside: they are system calls or hardware.  So are
    the configuration tree of [netstack], which is a set of closures over the other parts,
    the AML interpreter of [acpid] and the controllers whose drivers only program
    registers.  Of [xhcid] the tree of files of its scheme, the configuration of endpoints and
    the parsing of descriptors are left out.  Next in line, by how much state they hold: the
    queues of [nvmed] and the virtqueue of [virtio-core]. *)

(** * Prelude *)

From Stdlib Require Export ZArith Lia Ascii.
From stdpp Require Export base strings numbers pretty option sets gmap sorting list.

#[global] Open Scope Z_scope.

(** ** Error codes *)

(** The [syscall::error] codes the sources name.  Only their identity is used:
    the code never computes with an error number. *)
Inductive errno : Set :=
  | EPERM | ENOENT | EINTR | EIO | EBADF | EAGAIN | ENOMEM | EACCES | EEXIST
  | ENOTDIR | EISDIR | EINVAL | ENFILE | EPIPE | ERANGE | ENOLCK | ENOSYS
  | ENOTEMPTY | EWOULDBLOCK | EOVERFLOW | EBADFD | EOPNOTSUPP | ECANCELED
  | ESRCH | ECHILD | ENODEV | ENXIO | EXDEV | ESPIPE | ENOEXEC | ELOOP | EMSGSIZE
  | ENOPROTOOPT | EPROTO | EBADMSG | ENOTCONN | EISCONN | ECONNREFUSED | EADDRINUSE
  | EADDRNOTAVAIL | EAFNOSUPPORT | ENOBUFS | ETIMEDOUT | ESTALE | ERESTART | EOWNERDEAD
  | EOTHER.

#[global] Instance errno_eq_dec : EqDecision errno.
Proof. solve_decision. Defined.

(** ** Computations

    A Rust method with [&mut self] that returns [Result<A>] becomes a function
    on its state.  [Panic] is an unwinding panic: a failed [unwrap], an
    out-of-range slice index, or an arithmetic overflow (the fork is built with
    overflow checks in release mode).  The state is kept on every exit, so a
    partial update before an early return is visible. *)
Inductive outcome (A : Type) : Type :=
  | Ok (a : A)
  | Err (e : errno)
  | Panic.
Arguments Ok {A} _.
Arguments Err {A} _.
Arguments Panic {A}.

#[global] Instance outcome_eq_dec {A} `{EqDecision A} : EqDecision (outcome A).
Proof. solve_decision. Defined.

Definition comp (S A : Type) : Type := S → outcome A * S.

Section Monad.
Context {S : Type}.

#[global] Instance comp_ret : MRet (comp S) := λ A a s, (Ok a, s).

#[global] Instance comp_bind : MBind (comp S) := λ A B f m s,
  match m s with
  | (Ok a, s') => f a s'
  | (Err e, s') => (Err e, s')
  | (Panic, s') => (Panic, s')
  end.

Definition fail {A} (e : errno) : comp S A := λ s, (Err e, s).
Definition panic {A} : comp S A := λ s, (Panic, s).
Definition get : comp S S := λ s, (Ok s, s).
Definition gets {A} (f : S → A) : comp S A := λ s, (Ok (f s), s).
Definition put (s : S) : comp S unit := λ _, (Ok tt, s).
Definition modify (f : S → S) : comp S unit := λ s, (Ok tt, f s).

(** [ok_or(Error::new(e))?] *)
Definition ok_or {A} (e : errno) (o : option A) : comp S A :=
  match o with Some a => mret a | None => fail e end.

(** [expect(..)] and [unwrap()] on an option *)
Definition expect {A} (o : option A) : comp S A :=
  match o with Some a => mret a | None => panic end.

(** The [?] operator on a [Result] that was computed elsewhere. *)
Definition lift {A} (r : outcome A) : comp S A := λ s, (r, s).
End Monad.

(** [.unwrap()] or [.expect(..)] on the [Result] of a call. *)
Definition unwrap {S A} (m : comp S A) : comp S A := λ s,
  match m s with
  | (Err _, s') => (Panic, s')
  | res => res
  end.

(** An error is a reply, not the end of the client. *)
Definition attempt {S A} (m : comp S A) : comp S (option A) := λ s,
  match m s with
  | (Ok a, s') => (Ok (Some a), s')
  | (Err _, s') => (Ok None, s')
  | (Panic, s') => (Panic, s')
  end.

(** The [Result] of a call as a value *)
Definition result {S A} (m : comp S A) : comp S (errno + A) := λ s,
  match m s with
  | (Ok a, s') => (Ok (inr a), s')
  | (Err e, s') => (Ok (inl e), s')
  | (Panic, s') => (Panic, s')
  end.

(** [for x in l { f(x)?; }] *)
Fixpoint for_each {S A} (f : A → comp S unit) (l : list A) : comp S unit :=
  match l with
  | [] => mret tt
  | a :: l => f a;; for_each f l
  end.

(** A call on a field of the state: [self.field.method(..)]. *)
Definition zoom {S T A} (view : S → T) (upd : T → S → S) (m : comp T A) : comp S A :=
  λ s, let '(r, t) := m (view s) in (r, upd t s).

(** The weakest precondition of a computation. *)
Definition wp {S A} (m : comp S A) (Q : outcome A → S → Prop) (s : S) : Prop :=
  Q (m s).1 (m s).2.

Section WP.
Context {S : Type}.
Implicit Types s : S.

Lemma wp_ret {A} (a : A) Q s : wp (mret a) Q s ↔ Q (Ok a) s.
Proof. done. Qed.

Lemma wp_fail {A} e (Q : outcome A → S → Prop) s : wp (fail e) Q s ↔ Q (Err e) s.
Proof. done. Qed.

Lemma wp_panic {A} (Q : outcome A → S → Prop) s : wp panic Q s ↔ Q Panic s.
Proof. done. Qed.

Lemma wp_get Q s : wp get Q s ↔ Q (Ok s) s.
Proof. done. Qed.

Lemma wp_gets {A} (f : S → A) Q s : wp (gets f) Q s ↔ Q (Ok (f s)) s.
Proof. done. Qed.

Lemma wp_put s' Q s : wp (put s') Q s ↔ Q (Ok tt) s'.
Proof. done. Qed.

Lemma wp_modify f Q s : wp (modify f) Q s ↔ Q (Ok tt) (f s).
Proof. done. Qed.

Lemma wp_lift {A} (r : outcome A) Q s : wp (lift r) Q s ↔ Q r s.
Proof. done. Qed.

Lemma wp_bind {A B} (m : comp S A) (f : A → comp S B) Q s :
  wp (m ≫= f) Q s ↔
  wp m (λ r s', match r with
                | Ok a => wp (f a) Q s'
                | Err e => Q (Err e) s'
                | Panic => Q Panic s'
                end) s.
Proof. unfold wp, mbind, comp_bind. by destruct (m s) as [[] ?]. Qed.

Lemma wp_ok_or {A} e (o : option A) Q s :
  wp (ok_or e o) Q s ↔
  match o with Some a => Q (Ok a) s | None => Q (Err e) s end.
Proof. by destruct o. Qed.

Lemma wp_expect {A} (o : option A) Q s :
  wp (expect o) Q s ↔ match o with Some a => Q (Ok a) s | None => Q Panic s end.
Proof. by destruct o. Qed.

Lemma wp_unwrap {A} (m : comp S A) Q s :
  wp (unwrap m) Q s ↔
  wp m (λ r s', match r with Err _ => Q Panic s' | _ => Q r s' end) s.
Proof. unfold wp, unwrap. by destruct (m s) as [[] ?]. Qed.

Lemma wp_zoom {T A} (view : S → T) upd (m : comp T A) Q s :
  wp (zoom view upd m) Q s ↔ wp m (λ r t, Q r (upd t s)) (view s).
Proof. unfold wp, zoom. by destruct (m (view s)). Qed.

Lemma bind_ok {A B} (m : comp S A) (f : A → comp S B) s a s' :
  m s = (Ok a, s') → (m ≫= f) s = f a s'.
Proof. unfold mbind, comp_bind. by intros ->. Qed.

Lemma bind_get {B} (f : S → comp S B) s : (get ≫= f) s = f s s.
Proof. done. Qed.

Lemma bind_gets {A B} (g : S → A) (f : A → comp S B) s : (gets g ≫= f) s = f (g s) s.
Proof. done. Qed.

Lemma bind_modify {B} (g : S → S) (f : unit → comp S B) s : (modify g ≫= f) s = f tt (g s).
Proof. done. Qed.

Lemma bind_ret {A B} (a : A) (f : A → comp S B) s : (mret a ≫= f) s = f a s.
Proof. done. Qed.

Lemma wp_mono {A} (m : comp S A) (Q1 Q2 : outcome A → S → Prop) s :
  wp m Q1 s → (∀ r s', Q1 r s' → Q2 r s') → wp m Q2 s.
Proof. unfold wp. auto. Qed.

Lemma wp_eq {A} (m : comp S A) Q s r s' :
  m s = (r, s') → wp m Q s → Q r s'.
Proof. unfold wp. by intros ->. Qed.
End WP.

(** ** Automation *)

(** One symbolic-execution step on a [wp] goal.  The residual case splits keep
    their equations; equations between constructors are discharged. *)
Ltac wp_step :=
  lazymatch goal with
  | |- wp (mbind _ _) _ _ => apply wp_bind
  | |- wp (mret _) _ _ => apply wp_ret
  | |- wp (fail _) _ _ => apply wp_fail
  | |- wp panic _ _ => apply wp_panic
  | |- wp get _ _ => apply wp_get
  | |- wp (gets _) _ _ => apply wp_gets
  | |- wp (put _) _ _ => apply wp_put
  | |- wp (modify _) _ _ => apply wp_modify
  | |- wp (lift _) _ _ => apply wp_lift
  | |- wp (zoom _ _ _) _ _ => apply wp_zoom
  | |- wp (unwrap _) _ _ => apply wp_unwrap
  | |- wp (ok_or _ (Some _)) _ _ => apply wp_ok_or
  | |- wp (ok_or _ None) _ _ => apply wp_ok_or
  | |- wp (ok_or _ ?o) _ _ => apply wp_ok_or; destruct o eqn:?
  | |- wp (expect (Some _)) _ _ => apply wp_expect
  | |- wp (expect None) _ _ => apply wp_expect
  | |- wp (expect ?o) _ _ => apply wp_expect; destruct o eqn:?
  | |- wp (match ?x with _ => _ end) _ _ => destruct x eqn:?
  | |- wp (let '_ := ?x in _) _ _ => destruct x eqn:?
  end; cbv beta iota zeta.

Ltac wp_go := repeat wp_step.

(** Run a computation whose result is in a hypothesis by splitting every match
    it is stuck on. *)
Ltac run_in H :=
  unfold mbind, comp_bind, mret, comp_ret, fail, panic, get, gets, put, modify,
    ok_or, expect, lift in H;
  repeat (case_match; simplify_eq/=).

Create HintDb base_db discriminated.
Create Rewrite HintDb base_len.
#[export] Hint Rewrite @length_app @length_take @length_drop @length_replicate
  @length_cons @length_fmap @length_insert @length_map : base_len.

(** Arithmetic on list lengths. *)
Ltac len_lia := autorewrite with base_len in *; lia.

(** ** Machine integers *)

Definition usize_max : Z := 18446744073709551615.
Definition u64_max : Z := 18446744073709551615.
Definition u32_max : Z := 4294967295.
Definition u16_max : Z := 65535.

Definition is_usize (x : Z) : Prop := 0 ≤ x ≤ usize_max.
Definition is_u16 (x : Z) : Prop := 0 ≤ x ≤ u16_max.
Definition is_u8 (x : Z) : Prop := 0 ≤ x < 256.

(** [Wrapping<usize>] and [wrapping_add] *)
Definition wrap_usize (x : Z) : Z := x `mod` 18446744073709551616.
Definition wrap_u16 (x : Z) : Z := x `mod` 65536.
Definition wrap_u32 (x : Z) : Z := x `mod` 4294967296.

(** [!x] on a [usize] *)
Definition not_usize (x : Z) : Z := usize_max - x.

(** [checked_add] on [usize] *)
Definition checked_add_usize (a b : Z) : option Z :=
  if bool_decide (a + b ≤ usize_max) then Some (a + b) else None.

(** Checked [+] and [-]: an overflow panics. *)
Section Arith.
Context {S : Type}.

Definition add_usize (a b : Z) : comp S Z := expect (checked_add_usize a b).

Definition sub_usize (a b : Z) : comp S Z :=
  if bool_decide (b ≤ a) then mret (a - b) else panic.

Definition mul_usize (a b : Z) : comp S Z :=
  if bool_decide (a * b ≤ usize_max) then mret (a * b) else panic.

(** [x.next_multiple_of(p)] *)
Definition next_multiple_of (x p : Z) : comp S Z :=
  if bool_decide (p = 0) then panic
  else if bool_decide (x `mod` p = 0) then mret x
  else add_usize x (p - x `mod` p).
End Arith.

(** The value of [x.next_multiple_of(p)] when it fits. *)
Definition round_up (x p : Z) : Z := if bool_decide (x `mod` p = 0) then x else x + (p - x `mod` p).

Ltac ints :=
  unfold is_usize, is_u16, is_u8, usize_max, u64_max, u32_max, u16_max, not_usize in *;
  lia.

Lemma wp_add_usize {S} a b Q (s : S) :
  a + b ≤ usize_max → Q (Ok (a + b)) s → wp (add_usize a b) Q s.
Proof.
  intros ? HQ. unfold add_usize, checked_add_usize.
  rewrite bool_decide_eq_true_2 by done. exact HQ.
Qed.

Lemma wp_sub_usize {S} a b Q (s : S) :
  b ≤ a → Q (Ok (a - b)) s → wp (sub_usize a b) Q s.
Proof. intros ? HQ. unfold sub_usize. by rewrite bool_decide_eq_true_2. Qed.

Lemma wp_next_multiple_of {S} x p Q (s : S) :
  0 < p → round_up x p ≤ usize_max → Q (Ok (round_up x p)) s → wp (next_multiple_of x p) Q s.
Proof.
  intros Hp Hfit HQ. unfold next_multiple_of, round_up in *.
  rewrite (bool_decide_eq_false_2 (p = 0)) by lia.
  case_bool_decide; [done|]. by apply wp_add_usize.
Qed.

Lemma round_up_spec x p :
  0 < p → 0 ≤ x → x ≤ round_up x p < x + p ∧ round_up x p `mod` p = 0.
Proof.
  intros Hp Hx. unfold round_up. pose proof (Z.mod_pos_bound x p Hp).
  case_bool_decide; [lia|]. split; [lia|].
  replace (x + (p - x `mod` p)) with ((x `div` p + 1) * p)
    by (pose proof (Z.div_mod x p); nia).
  apply Z.mod_mul. lia.
Qed.

Lemma round_up_least x p y :
  0 < p → 0 ≤ x → x ≤ y → y `mod` p = 0 → round_up x p ≤ y.
Proof.
  intros Hp Hx Hxy Hy. destruct (round_up_spec x p Hp Hx) as [[_ Hlt] Hr].
  apply Z.mod_divide in Hy as [q Hq]; [|lia]. apply Z.mod_divide in Hr as [q' Hq']; [|lia].
  assert (q' ≤ q) by nia. nia.
Qed.

Lemma round_up_mono x y p : 0 < p → 0 ≤ x → x ≤ y → round_up x p ≤ round_up y p.
Proof.
  intros Hp Hx Hxy. destruct (round_up_spec y p Hp) as [? ?]; [lia|].
  apply round_up_least; lia.
Qed.

(** A flag test [x & m == m]. *)
Definition has_flag (x m : Z) : bool := bool_decide (Z.land x m = m).

(** ** Bytes and slices *)

Abbreviation bytes := (list Z).

Definition str_bytes (s : string) : bytes :=
  (λ a, Z.of_N (Ascii.N_of_ascii a)) <$> String.list_ascii_of_string s.

(** The contents of [dst] after [dst[off..off + src.len()].copy_from_slice(src)],
    when that range is inside [dst]. *)
Definition copy_at {A} (dst : list A) (off : nat) (src : list A) : list A :=
  take off dst ++ src ++ drop (off + length src) dst.

(** [v.resize(n, x)] *)
Definition vec_resize {A} (x : A) (n : nat) (v : list A) : list A :=
  take n v ++ replicate (n - length v) x.

Section Slices.
Context {A : Type}.
Implicit Types dst src : list A.

Lemma length_copy_at dst off src :
  (off + length src ≤ length dst)%nat → length (copy_at dst off src) = length dst.
Proof. intros. unfold copy_at. len_lia. Qed.

Lemma lookup_copy_at dst off src i :
  (off + length src ≤ length dst)%nat →
  copy_at dst off src !! i =
    if bool_decide (off ≤ i < off + length src)%nat then src !! (i - off)%nat
    else dst !! i.
Proof.
  intros Hlen. unfold copy_at.
  case_bool_decide as Hi.
  - rewrite lookup_app_r by len_lia.
    rewrite length_take, Nat.min_l by lia.
    by rewrite lookup_app_l by lia.
  - destruct (decide (i < off)%nat).
    + by rewrite lookup_app_l, lookup_take_lt by len_lia.
    + rewrite lookup_app_r by len_lia.
      rewrite length_take, Nat.min_l by lia.
      rewrite lookup_app_r, lookup_drop by lia. f_equal. lia.
Qed.

Lemma copy_at_nil dst off : copy_at dst off [] = dst.
Proof. unfold copy_at. cbn. by rewrite Nat.add_0_r, take_drop. Qed.

Lemma copy_at_0 dst src : copy_at dst 0 src = src ++ drop (length src) dst.
Proof. done. Qed.

Lemma copy_at_app dst off src1 src2 :
  (off + length src1 + length src2 ≤ length dst)%nat →
  copy_at (copy_at dst off src1) (off + length src1) src2 =
  copy_at dst off (src1 ++ src2).
Proof.
  intros Hlen. apply list_eq. intros i.
  rewrite !lookup_copy_at
    by (rewrite ?length_copy_at by lia; len_lia).
  rewrite length_app. repeat case_bool_decide; try lia; try done.
  - rewrite lookup_app_r by lia. f_equal. lia.
  - by rewrite lookup_app_l by lia.
Qed.

Lemma take_copy_at dst off src :
  (off + length src ≤ length dst)%nat →
  take (off + length src) (copy_at dst off src) = take off dst ++ src.
Proof.
  intros Hlen. unfold copy_at. rewrite app_assoc, take_app_le by len_lia.
  apply take_ge. len_lia.
Qed.

Lemma length_vec_resize x n (v : list A) : length (vec_resize x n v) = n.
Proof. unfold vec_resize. len_lia. Qed.

Lemma lookup_vec_resize x n (v : list A) i :
  (i < n)%nat → vec_resize x n v !! i = Some (default x (v !! i)).
Proof.
  intros Hi. unfold vec_resize. destruct (decide (i < length v)%nat) as [Hv|Hv].
  - rewrite lookup_app_l, lookup_take_lt by len_lia.
    by destruct (lookup_lt_is_Some_2 v i Hv) as [y ->].
  - rewrite lookup_app_r by len_lia.
    rewrite (lookup_ge_None_2 v i) by lia. cbn.
    apply lookup_replicate_2. len_lia.
Qed.
End Slices.
#[export] Hint Rewrite @length_vec_resize : base_len.

(** [&l[i..i + n]], when that range is inside [l] *)
Definition slice {A} (l : list A) (i n : nat) : list A := take n (drop i l).

Section Slice.
Context {A : Type}.
Implicit Types l : list A.

Lemma length_slice l i n : (i + n ≤ length l)%nat → length (slice l i n) = n.
Proof. intros. unfold slice. len_lia. Qed.

Lemma slice_slice l i n j m :
  (j + m ≤ n)%nat → slice (slice l i n) j m = slice l (i + j) m.
Proof.
  intros. unfold slice. rewrite skipn_firstn_comm, take_take, drop_drop.
  f_equal. lia.
Qed.

Lemma slice_add l i n m : slice l i (n + m) = slice l i n ++ slice l (i + n) m.
Proof. unfold slice. by rewrite <- drop_drop, take_take_drop. Qed.

Lemma slice_full l n : length l = n → slice l 0 n = l.
Proof. intros <-. unfold slice. by rewrite drop_0, firstn_all. Qed.

Lemma lookup_slice l i n k :
  slice l i n !! k = if bool_decide (k < n)%nat then l !! (i + k)%nat else None.
Proof.
  unfold slice. case_bool_decide.
  - by rewrite lookup_take_lt, lookup_drop by lia.
  - apply lookup_take_ge. lia.
Qed.
End Slice.

(** ** Little-endian integers *)

(** [to_le_bytes] of an [n]-byte integer *)
Fixpoint le_bytes (n : nat) (x : Z) : bytes :=
  match n with
  | O => []
  | S n => x `mod` 256 :: le_bytes n (x `div` 256)
  end.

(** [from_le_bytes] *)
Fixpoint le_val (l : bytes) : Z :=
  match l with
  | [] => 0
  | b :: l => b + 256 * le_val l
  end.

Lemma length_le_bytes n x : length (le_bytes n x) = n.
Proof. revert x. induction n; intros; cbn; auto. Qed.
#[export] Hint Rewrite length_le_bytes : base_len.

Lemma le_val_bytes n x : 0 ≤ x < 256 ^ Z.of_nat n → le_val (le_bytes n x) = x.
Proof.
  revert x. induction n as [|n IH]; intros x Hx; cbn [le_bytes le_val].
  - cbn in Hx. lia.
  - rewrite Nat2Z.inj_succ, Z.pow_succ_r in Hx by lia. rewrite IH.
    + pose proof (Z.div_mod x 256). lia.
    + split; [apply Z.div_pos; lia|apply Z.div_lt_upper_bound; lia].
Qed.

(** ** Text

    [String::from_utf8]-style conversions: a [&str] is its byte string. *)
Definition string_of_bytes (l : bytes) : string :=
  String.string_of_list_ascii ((λ b, Ascii.ascii_of_N (Z.to_N b)) <$> l).

Lemma string_of_str_bytes s : string_of_bytes (str_bytes s) = s.
Proof.
  unfold string_of_bytes, str_bytes. rewrite <- list_fmap_compose.
  rewrite <- (String.string_of_list_ascii_of_string s) at 2. f_equal.
  rewrite <- (list_fmap_id (String.list_ascii_of_string s)) at 2. apply list_fmap_ext.
  intros _ a _. cbn. by rewrite N2Z.id, Ascii.ascii_N_embedding.
Qed.

(** The byte-sequence grammar that [core::str::from_utf8] accepts. *)
Definition utf8_cont (b : Z) : bool := (0x80 <=? b) && (b <=? 0xBF).

Fixpoint utf8_valid (l : bytes) : bool :=
  match l with
  | [] => true
  | b0 :: l0 =>
     if b0 <=? 0x7F then utf8_valid l0 else
     match l0 with
     | [] => false
     | b1 :: l1 =>
        if (0xC2 <=? b0) && (b0 <=? 0xDF) then utf8_cont b1 && utf8_valid l1 else
        match l1 with
        | [] => false
        | b2 :: l2 =>
           if (0xE0 <=? b0) && (b0 <=? 0xEF) then
             utf8_cont b1 && utf8_cont b2 &&
             negb ((b0 =? 0xE0) && (b1 <? 0xA0)) &&
             negb ((b0 =? 0xED) && (0x9F <? b1)) && utf8_valid l2
           else
           match l2 with
           | [] => false
           | b3 :: l3 =>
              (0xF0 <=? b0) && (b0 <=? 0xF4) &&
              utf8_cont b1 && utf8_cont b2 && utf8_cont b3 &&
              negb ((b0 =? 0xF0) && (b1 <? 0x90)) &&
              negb ((b0 =? 0xF4) && (0x8F <? b1)) && utf8_valid l3
           end
        end
     end
  end.

Definition from_utf8 (l : bytes) : option string :=
  if utf8_valid l then Some (string_of_bytes l) else None.

Lemma from_utf8_str_bytes s : utf8_valid (str_bytes s) = true → from_utf8 (str_bytes s) = Some s.
Proof. intros H. unfold from_utf8. by rewrite H, string_of_str_bytes. Qed.

(** Paths as character lists. *)
Definition is_slash (a : ascii) : bool := Ascii.eqb a "/"%char.

(** [trim_start_matches('/')] *)
Fixpoint drop_slashes (l : list ascii) : list ascii :=
  match l with
  | a :: l' => if is_slash a then drop_slashes l' else l
  | [] => []
  end.

(** [split(|c| c == '/')] *)
Fixpoint split_slash (l : list ascii) : list (list ascii) :=
  match l with
  | [] => [[]]
  | a :: l =>
     if is_slash a then [] :: split_slash l
     else match split_slash l with
          | part :: parts => (a :: part) :: parts
          | [] => [[a]]
          end
  end.

(** [path.trim_matches('/')] *)
Definition trim_slashes (path : string) : list ascii :=
  reverse (drop_slashes (reverse (drop_slashes (String.list_ascii_of_string path)))).

Definition digit_value (a : ascii) : option Z :=
  let n := Z.of_N (Ascii.N_of_ascii a) in
  if bool_decide (48 ≤ n ≤ 57) then Some (n - 48) else None.

Fixpoint parse_digits (max acc : Z) (l : list ascii) : option Z :=
  match l with
  | [] => Some acc
  | a :: l =>
     match digit_value a with
     | None => None
     | Some d => if bool_decide (acc * 10 + d ≤ max) then parse_digits max (acc * 10 + d) l else None
     end
  end.

(** [str::parse] for an unsigned integer type with the given maximum: an optional plus
    sign and at least one digit *)
Definition parse_uint (max : Z) (l : list ascii) : option Z :=
  match l with
  | [] => None
  | a :: l' =>
     if Ascii.eqb a "+"%char then match l' with [] => None | _ => parse_digits max 0 l' end
     else parse_digits max 0 l
  end.

(** ** Pairs and lists *)

Lemma fst_pair {A B} (p : A * B) a : p.1 = a → p = (a, p.2).
Proof. by destruct p as [? ?]; intros [= ->]. Qed.

Lemma elem_of_snoc {A} (x y : A) l : x ∈ l ++ [y] ↔ x ∈ l ∨ x = y.
Proof. by rewrite elem_of_app, list_elem_of_singleton. Qed.

Lemma NoDup_snoc {A} (x : A) l : NoDup l → x ∉ l → NoDup (l ++ [x]).
Proof.
  intros Hnd Hx. apply NoDup_app. split_and!; [done| |apply NoDup_singleton].
  intros y Hy. rewrite list_elem_of_singleton. by intros ->.
Qed.
