(* ===== verification/Abi.v ===== *)
(** * System-call ABI

    The flag and mode constants of the [redox_syscall] crate, which is not part
    of this repository.  They are the fields of the class [SyscallAbi]; every
    definition that tests a flag takes them as an argument.  [SyscallAbiLaws]
    states what the daemons rely on about them, and [redox_abi] is an instance
    used by the witnesses. *)

From S2P Require Import Prelude.

Class SyscallAbi := {
  O_RDONLY : Z; O_WRONLY : Z; O_RDWR : Z; O_ACCMODE : Z;
  O_NONBLOCK : Z; O_CREAT : Z; O_TRUNC : Z; O_EXCL : Z;
  O_DIRECTORY : Z; O_STAT : Z; O_SYMLINK : Z; O_NOFOLLOW : Z;
  F_GETFL : Z; F_SETFL : Z;
  EVENT_READ : Z; EVENT_WRITE : Z;
  MODE_TYPE : Z; MODE_PERM : Z; MODE_DIR : Z; MODE_FILE : Z; MODE_CHR : Z; MODE_SOCK : Z;
  MODE_SYMLINK : Z;
  PROT_WRITE : Z;
  AT_REMOVEDIR : Z;
  PAGE_SIZE : Z;
}.

Class SyscallAbiLaws (abi : SyscallAbi) : Prop := {
  getfl_ne_setfl : F_GETFL ≠ F_SETFL;
  event_read_bit : Z.testbit EVENT_READ 0 = true;
  event_read_write_disjoint : Z.land EVENT_READ EVENT_WRITE = 0;
  mode_dir_type : Z.land MODE_DIR MODE_TYPE = MODE_DIR;
  mode_file_type : Z.land MODE_FILE MODE_TYPE = MODE_FILE;
  mode_dir_ne_file : MODE_DIR ≠ MODE_FILE;
  mode_dir_ne_0 : MODE_DIR ≠ 0;
  mode_file_ne_0 : MODE_FILE ≠ 0;
  page_size_pos : 0 < PAGE_SIZE;
  page_size_le : PAGE_SIZE ≤ 4096;
}.

Definition redox_abi : SyscallAbi := {|
  O_RDONLY := 0x10000; O_WRONLY := 0x20000; O_RDWR := 0x30000; O_ACCMODE := 0x30000;
  O_NONBLOCK := 0x40000; O_CREAT := 0x2000000; O_TRUNC := 0x4000000; O_EXCL := 0x8000000;
  O_DIRECTORY := 0x10000000; O_STAT := 0x20000000;
  O_SYMLINK := 0x40000000; O_NOFOLLOW := 0x80000000;
  F_GETFL := 3; F_SETFL := 4;
  EVENT_READ := 1; EVENT_WRITE := 2;
  MODE_TYPE := 0xF000; MODE_PERM := 0x0FFF; MODE_DIR := 0x4000; MODE_FILE := 0x8000;
  MODE_CHR := 0x2000; MODE_SOCK := 0xC000; MODE_SYMLINK := 0xA000;
  PROT_WRITE := 0x20000;
  AT_REMOVEDIR := 0x200;
  PAGE_SIZE := 4096;
|}.

Lemma redox_abi_laws : SyscallAbiLaws redox_abi.
Proof. by split. Qed.

(** [syscall::TimeSpec]: an [i64] and an [i32] *)
Record TimeSpec := mk_timespec { tv_sec : Z; tv_nsec : Z }.
