(* ===== verification/Text.v ===== *)
(** * Text

    The string and path functions of the Rust standard library that the sources use:
    splitting, lines, trimming, replacing, [Path::join], file names and extensions, and
    parsing of signed numbers.  A [&str] is its UTF-8 byte string. *)

From S2P Require Import Prelude.

(** [s.split_once(c)] *)
Fixpoint split_once (c : ascii) (s : string) : option (string * string) :=
  match s with
  | EmptyString => None
  | String a s' =>
     if Ascii.eqb a c then Some (EmptyString, s')
     else match split_once c s' with
          | Some (l, r) => Some (String a l, r)
          | None => None
          end
  end.

(** [s.rsplit_once(c)] *)
Fixpoint rsplit_once (c : ascii) (s : string) : option (string * string) :=
  match s with
  | EmptyString => None
  | String a s' =>
     match rsplit_once c s' with
     | Some (l, r) => Some (String a l, r)
     | None => if Ascii.eqb a c then Some (EmptyString, s') else None
     end
  end.

(** [s.split(c)] *)
Fixpoint split (c : ascii) (s : string) : list string :=
  match s with
  | EmptyString => [EmptyString]
  | String a s' =>
     if Ascii.eqb a c then EmptyString :: split c s'
     else match split c s' with
          | part :: parts => String a part :: parts
          | [] => [String a EmptyString]
          end
  end.

(** [s.starts_with(c)] *)
Definition starts_with (c : ascii) (s : string) : bool :=
  match s with String a _ => Ascii.eqb a c | EmptyString => false end.

(** [s.strip_suffix(c)], where there is one *)
Fixpoint strip_suffix (c : ascii) (s : string) : string :=
  match s with
  | EmptyString => EmptyString
  | String a EmptyString => if Ascii.eqb a c then EmptyString else s
  | String a s' => String a (strip_suffix c s')
  end.

(** [s.lines()]: a line ends at a line feed, which takes a carriage return before it
    along; text after the last line feed is a line when it is not empty *)
Fixpoint lines_of (parts : list string) : list string :=
  match parts with
  | [] => []
  | [last] => if bool_decide (last = EmptyString) then [] else [last]
  | line :: parts => strip_suffix "013"%char line :: lines_of parts
  end.

Definition lines (s : string) : list string := lines_of (split "010"%char s).

(** [s.replace(pat, to)], for a pattern that is not empty; [skip] counts the characters
    of a match that are still to be dropped *)
Fixpoint replace_from (pat to : string) (skip : nat) (s : string) : string :=
  match s with
  | EmptyString => EmptyString
  | String a s' =>
     match skip with
     | S k => replace_from pat to k s'
     | O =>
        if String.prefix pat s then to +:+ replace_from pat to (String.length pat - 1) s'
        else String a (replace_from pat to 0 s')
     end
  end.

Definition replace (pat to s : string) : string := replace_from pat to 0 s.

(** The UTF-8 encodings of the characters with the Unicode property White_Space *)
Definition white_space : list bytes :=
  [[9]; [10]; [11]; [12]; [13]; [32]; [0xC2; 0x85]; [0xC2; 0xA0]; [0xE1; 0x9A; 0x80]] ++
  ((λ k, [0xE2; 0x80; k]) <$> seqZ 0x80 11) ++
  [[0xE2; 0x80; 0xA8]; [0xE2; 0x80; 0xA9]; [0xE2; 0x80; 0xAF]; [0xE2; 0x81; 0x9F];
   [0xE3; 0x80; 0x80]].

Definition is_prefix (p l : bytes) : bool := bool_decide (take (length p) l = p).

Fixpoint trim_start (seqs : list bytes) (skip : nat) (l : bytes) : bytes :=
  match l with
  | [] => []
  | b :: l' =>
     match skip with
     | S k => trim_start seqs k l'
     | O =>
        match filter (λ p, is_prefix p l = true) seqs with
        | p :: _ => trim_start seqs (length p - 1) l'
        | [] => l
        end
     end
  end.

(** [s.trim()] *)
Definition trim (s : string) : string :=
  let l := trim_start white_space 0 (str_bytes s) in
  string_of_bytes (reverse (trim_start (reverse <$> white_space) 0 (reverse l))).

(** [Path::join] on Unix *)
Definition join (dir file : string) : string :=
  if starts_with "/"%char file then file
  else if bool_decide (dir = EmptyString) then file
  else if bool_decide (strip_suffix "/"%char dir = dir) then dir +:+ "/" +:+ file
  else dir +:+ file.

(** [Path::file_name]: the last component, unless it is [..] *)
Definition file_name (path : string) : option string :=
  let parts := filter (λ c, c ≠ EmptyString ∧ c ≠ ".") (split "/"%char path) in
  match last parts with
  | Some c => if bool_decide (c = "..") then None else Some c
  | None => None
  end.

(** [Path::extension]: what follows the last dot of the file name, unless that dot is
    its first character *)
Definition extension (path : string) : option string :=
  match file_name path with
  | None => None
  | Some name =>
     match rsplit_once "."%char name with
     | Some (before, after) => if bool_decide (before = EmptyString) then None else Some after
     | None => None
     end
  end.

(** [str::parse::<i32>]: an optional sign and at least one digit *)
Definition parse_i32 (s : string) : option Z :=
  match String.list_ascii_of_string s with
  | a :: ((_ :: _) as l') as l =>
     if Ascii.eqb a "-"%char then
       match parse_digits 2147483648 0 l' with Some n => Some (- n) | None => None end
     else if Ascii.eqb a "+"%char then parse_digits 2147483647 0 l'
     else parse_digits 2147483647 0 l
  | l => match l with [] => None | _ => parse_digits 2147483647 0 l end
  end.
