(* ===== verification/SchemeUtils.v ===== *)
(** * scheme-utils: handle table and path writer

    [HandleMap] models [scheme-utils/src/lib.rs]: the table from file
    descriptor ids to handles that most scheme daemons keep.  [FpathWriter]
    models the bounded writer behind every [fpath] call. *)

From S2P Require Import Prelude.

(** ** HandleMap *)

Record HandleMap (T : Type) := mk_handle_map {
  hm_handles : gmap Z T;
  hm_next_id : Z;
}.
Arguments mk_handle_map {T} _ _.
Arguments hm_handles {T} _.
Arguments hm_next_id {T} _.

Definition hm_new {T} : HandleMap T := mk_handle_map ∅ 1.

(** The probing loop of [insert]: the first id from [i] on, with wrap-around,
    that is not a key.  [None] stands for fuel exhaustion. *)
Fixpoint hm_probe {T} (fuel : nat) (m : gmap Z T) (i : Z) : option Z :=
  match fuel with
  | O => None
  | S fuel =>
     match m !! i with
     | None => Some i
     | Some _ => hm_probe fuel m (wrap_usize (i + 1))
     end
  end.

(** One more probe than there are keys is enough ([hm_probe_total]). *)
Definition hm_insert {T} (handle : T) : comp (HandleMap T) Z :=
  m ← get;
  let id := hm_next_id m in
  next ← expect (hm_probe (S (size (hm_handles m))) (hm_handles m) (wrap_usize (id + 1)));
  put (mk_handle_map (<[id := handle]> (hm_handles m)) next);;
  mret id.

Definition hm_remove {T} (id : Z) : comp (HandleMap T) (option T) :=
  m ← get;
  put (mk_handle_map (delete id (hm_handles m)) (hm_next_id m));;
  mret (hm_handles m !! id).

Definition hm_get {T} (m : HandleMap T) (id : Z) : outcome T :=
  match hm_handles m !! id with Some h => Ok h | None => Err EBADF end.

(** The map after an update through [get_mut]. *)
Definition hm_set {T} (id : Z) (h : T) (m : HandleMap T) : HandleMap T :=
  mk_handle_map (<[id := h]> (hm_handles m)) (hm_next_id m).

(** [iter] in the key order of a [BTreeMap]. *)
Definition key_le {T} (p q : Z * T) : Prop := p.1 ≤ q.1.
#[global] Instance key_le_dec {T} : RelDecision (@key_le T).
Proof. intros p q. unfold key_le. apply _. Defined.

Definition btree_iter {T} (m : gmap Z T) : list (Z * T) :=
  merge_sort key_le (map_to_list m).

Lemma elem_of_btree_iter {T} (m : gmap Z T) k x : (k, x) ∈ btree_iter m ↔ m !! k = Some x.
Proof. unfold btree_iter. by rewrite merge_sort_Permutation, elem_of_map_to_list. Qed.

Lemma btree_iter_NoDup {T} (m : gmap Z T) : NoDup (btree_iter m).*1.
Proof. unfold btree_iter. rewrite merge_sort_Permutation. apply NoDup_fst_map_to_list. Qed.

(** *** Counting *)

(** The number of handles that hold the value [x]. *)
Definition holders {T} `{EqDecision T} (x : T) (hs : gmap Z T) : nat :=
  size (filter (λ kv, kv.2 = x) hs).

Section Holders.
Context {T : Type} `{EqDecision T}.
Implicit Types hs : gmap Z T.

Lemma holders_insert x i y hs :
  hs !! i = None →
  holders x (<[i := y]> hs) = ((if decide (y = x) then 1 else 0) + holders x hs)%nat.
Proof.
  intros Hi. unfold holders. case_decide as Hy.
  - rewrite map_filter_insert_True by done. rewrite map_size_insert_None; [done|].
    apply map_lookup_filter_None. by left.
  - rewrite map_filter_insert_False by done. by rewrite delete_id.
Qed.

Lemma holders_delete x i y hs :
  hs !! i = Some y →
  holders x hs = ((if decide (y = x) then 1 else 0) + holders x (delete i hs))%nat.
Proof.
  intros Hi. rewrite <- (holders_insert x i y (delete i hs)) by apply lookup_delete_eq.
  by rewrite insert_delete_eq, insert_id.
Qed.

Lemma holders_pos x i hs : hs !! i = Some x → (0 < holders x hs)%nat.
Proof. intros Hi. rewrite (holders_delete x i _ hs Hi). rewrite decide_True by done. lia. Qed.

Lemma holders_le x hs : (holders x hs ≤ size hs)%nat.
Proof. apply map_size_filter. Qed.
End Holders.

(** *** Well-formedness *)

(** The id that the next [insert] hands out is free, and every key is a
    [usize]. *)
Record hm_wf {T} (m : HandleMap T) : Prop := {
  hm_wf_next : hm_handles m !! hm_next_id m = None;
  hm_wf_next_usize : is_usize (hm_next_id m);
  hm_wf_keys : map_Forall (λ k _, is_usize k) (hm_handles m);
}.

Lemma wrap_usize_range x : is_usize (wrap_usize x).
Proof. unfold wrap_usize. pose proof (Z.mod_pos_bound x 18446744073709551616). ints. Qed.
#[export] Hint Resolve wrap_usize_range : base_db.

Lemma wrap_usize_id x : is_usize x → wrap_usize x = x.
Proof. intros. unfold wrap_usize. apply Z.mod_small. ints. Qed.

(** The candidates of [n] probes from [i]. *)
Definition hm_candidates (n : nat) (i : Z) : list Z :=
  (λ k, wrap_usize (i + Z.of_nat k)) <$> seq 0 n.

Lemma hm_probe_spec {T} (fuel : nat) (m : gmap Z T) (i : Z) :
  is_usize i →
  match hm_probe fuel m i with
  | Some j => m !! j = None ∧
              ∃ k, (k < fuel)%nat ∧ j = wrap_usize (i + Z.of_nat k)
  | None => ∀ k, (k < fuel)%nat → is_Some (m !! wrap_usize (i + Z.of_nat k))
  end.
Proof.
  revert i. induction fuel as [|fuel IH]; intros i Hi; cbn; [lia|].
  destruct (m !! i) eqn:Hm.
  - specialize (IH (wrap_usize (i + 1)) (wrap_usize_range _)).
    assert (∀ k, wrap_usize (wrap_usize (i + 1) + Z.of_nat k) =
                 wrap_usize (i + Z.of_nat (S k))) as Hshift.
    { intros k. unfold wrap_usize. rewrite Zplus_mod_idemp_l. f_equal. lia. }
    destruct (hm_probe fuel m (wrap_usize (i + 1))) as [j|].
    + destruct IH as (? & k & ? & ->). split; [done|].
      exists (S k). split; [lia|]. apply Hshift.
    + intros [|k] Hk.
      * rewrite Z.add_0_r, wrap_usize_id by done. eauto.
      * rewrite <- Hshift. apply IH. lia.
  - split; [done|]. exists 0%nat. rewrite Z.add_0_r, wrap_usize_id by done. auto with lia.
Qed.

Lemma wrap_usize_inj i (j k : nat) :
  Z.of_nat j < 18446744073709551616 → Z.of_nat k < 18446744073709551616 →
  wrap_usize (i + Z.of_nat j) = wrap_usize (i + Z.of_nat k) → j = k.
Proof.
  unfold wrap_usize. intros Hj Hk Heq.
  assert ((Z.of_nat j - Z.of_nat k) `mod` 18446744073709551616 = 0) as Hm.
  { replace (Z.of_nat j - Z.of_nat k) with ((i + Z.of_nat j) - (i + Z.of_nat k)) by lia.
    rewrite Zminus_mod, Heq, Z.sub_diag. done. }
  apply Z.mod_divide in Hm; [|lia]. destruct Hm as [q Hq].
  assert (q = 0) by nia. lia.
Qed.

Lemma hm_candidates_NoDup n i :
  Z.of_nat n ≤ 18446744073709551616 → NoDup (hm_candidates n i).
Proof.
  intros Hn. apply NoDup_fmap_2_strong; [|apply NoDup_seq].
  intros j k Hj%elem_of_seq Hk%elem_of_seq Heq.
  apply (wrap_usize_inj i) in Heq; lia.
Qed.

(** The probing loop terminates: among [size m + 1] consecutive ids, fewer than
    the whole [usize] range, one is free. *)
Lemma hm_probe_total {T} (m : gmap Z T) i :
  is_usize i → Z.of_nat (size m) < 18446744073709551616 →
  ∃ j, hm_probe (S (size m)) m i = Some j.
Proof.
  intros Hi Hsize. pose proof (hm_probe_spec (S (size m)) m i Hi) as Hspec.
  destruct (hm_probe (S (size m)) m i) as [j|]; [by exists j|]. exfalso.
  assert (list_to_set (hm_candidates (S (size m)) i) ⊆ (dom m : gset Z)) as Hsub.
  { intros x (k & -> & Hk%elem_of_seq)%elem_of_list_to_set%list_elem_of_fmap.
    apply elem_of_dom, Hspec. lia. }
  apply subseteq_size in Hsub.
  rewrite size_list_to_set in Hsub by (apply hm_candidates_NoDup; lia).
  unfold hm_candidates in Hsub. rewrite length_fmap, length_seq, size_dom in Hsub. lia.
Qed.

Lemma hm_new_wf {T} : hm_wf (@hm_new T).
Proof. split; cbn; [done|ints|apply map_Forall_empty]. Qed.

Section HandleMapSpec.
Context {T : Type}.
Implicit Types (m : HandleMap T) (h : T).

(** Room for one more handle and a further free id. *)
Definition hm_room m : Prop := Z.of_nat (size (hm_handles m)) < usize_max.

Lemma hm_insert_wp h m (Q : outcome Z → HandleMap T → Prop) :
  hm_wf m → hm_room m →
  (∀ next, let m' := mk_handle_map (<[hm_next_id m := h]> (hm_handles m)) next in
     hm_wf m' → Q (Ok (hm_next_id m)) m') →
  wp (hm_insert h) Q m.
Proof.
  intros [Hfree Hid Hkeys] Hroom HQ. unfold hm_room in Hroom. unfold hm_insert.
  do 3 wp_step.
  destruct (hm_probe_total (hm_handles m) (wrap_usize (hm_next_id m + 1))) as [j Hj];
    [apply wrap_usize_range|ints|].
  pose proof (hm_probe_spec (S (size (hm_handles m))) (hm_handles m)
    (wrap_usize (hm_next_id m + 1)) (wrap_usize_range _)) as Hspec.
  rewrite Hj in Hspec |- *. destruct Hspec as (Hjfree & k & Hk & Hjk).
  wp_go. apply HQ. split; cbn.
  - rewrite lookup_insert_ne; [done|]. intros Heq.
    assert (wrap_usize (hm_next_id m + Z.of_nat 0) =
            wrap_usize (hm_next_id m + Z.of_nat (S k))) as Hw.
    { rewrite Z.add_0_r, wrap_usize_id by done. etransitivity; [exact Heq|].
      rewrite Hjk. unfold wrap_usize. rewrite Zplus_mod_idemp_l. f_equal. lia. }
    apply wrap_usize_inj in Hw; [done|ints..].
  - rewrite Hjk. apply wrap_usize_range.
  - by apply map_Forall_insert.
Qed.

Lemma hm_remove_wf id m :
  hm_wf m → hm_wf (mk_handle_map (delete id (hm_handles m)) (hm_next_id m)).
Proof.
  intros [Hfree Hid Hkeys]. split; cbn; [|done|by apply map_Forall_delete].
  by rewrite lookup_delete_None; auto.
Qed.

Lemma hm_set_wf id h m :
  is_Some (hm_handles m !! id) → hm_wf m → hm_wf (hm_set id h m).
Proof.
  intros [x Hx] [Hfree Hid Hkeys]. split; cbn; [|done|].
  - rewrite lookup_insert_ne by congruence. done.
  - apply map_Forall_insert_2; [|done]. by apply (map_Forall_lookup_1 _ _ _ _ Hkeys Hx).
Qed.
End HandleMapSpec.
#[export] Hint Resolve hm_new_wf hm_remove_wf hm_set_wf : base_db.

(** *** Sequences of operations *)

Inductive hm_op (T : Type) :=
  | HmInsert (h : T)
  | HmRemove (id : Z).
Arguments HmInsert {T} _.
Arguments HmRemove {T} _.

(** Run a client's operations and collect the ids that [insert] returned. *)
Fixpoint hm_run {T} (ops : list (hm_op T)) : comp (HandleMap T) (list Z) :=
  match ops with
  | [] => mret []
  | HmInsert h :: ops =>
     id ← hm_insert h;
     ids ← hm_run ops;
     mret (id :: ids)
  | HmRemove id :: ops =>
     hm_remove id;;
     hm_run ops
  end.

(** The abstract allocator: an insertion may pick any id that is not in use,
    and nothing but a removal takes an id out of use. *)
Inductive alloc_run {T} : gmap Z T → list (hm_op T) → list Z → gmap Z T → Prop :=
  | alloc_nil live : alloc_run live [] [] live
  | alloc_insert live h id ops ids live' :
     live !! id = None →
     alloc_run (<[id := h]> live) ops ids live' →
     alloc_run live (HmInsert h :: ops) (id :: ids) live'
  | alloc_remove live id ops ids live' :
     alloc_run (delete id live) ops ids live' →
     alloc_run live (HmRemove id :: ops) ids live'.
#[export] Hint Constructors alloc_run : base_db.

Lemma hm_run_refines {T} (ops : list (hm_op T)) (m : HandleMap T) :
  hm_wf m →
  Z.of_nat (size (hm_handles m) + length ops) ≤ usize_max →
  wp (hm_run ops) (λ r m', hm_wf m' ∧ ∃ ids, r = Ok ids ∧
     alloc_run (hm_handles m) ops ids (hm_handles m')) m.
Proof.
  revert m. induction ops as [|[h|id] ops IH]; intros m Hwf Hsize; cbn.
  - wp_go. eauto with base_db.
  - wp_step. apply hm_insert_wp; [done|unfold hm_room; cbn in *; lia|]. intros next m' Hwf'.
    wp_step. eapply wp_mono; [apply (IH m'); [done|]|].
    + unfold m'; cbn in *. rewrite map_size_insert_None by apply Hwf. lia.
    + intros r s' (Hs' & ids & -> & Hrun). cbn. wp_go.
      split; [done|]. eexists; split; [done|]. constructor; [apply Hwf|done].
  - unfold hm_remove. wp_go. eapply wp_mono; [apply IH; [by apply hm_remove_wf|]|].
    + cbn in *. pose proof (map_size_delete id (hm_handles m)) as Hdel.
      destruct (hm_handles m !! id); unfold Datatypes.id in Hdel; lia.
    + cbn. intros r s' (Hs' & ids & -> & Hrun). eauto 6 with base_db.
Qed.



(** ** FpathWriter *)

Record FpathWriter := mk_fpath_writer {
  fw_buf : bytes;
  fw_written : nat;
}.

Definition push_str (s : bytes) : comp FpathWriter unit :=
  w ← get;
  if bool_decide (fw_written w ≤ length (fw_buf w))%nat then
    let count := Nat.min (length s) (length (fw_buf w) - fw_written w) in
    put (mk_fpath_writer (copy_at (fw_buf w) (fw_written w) (take count s))
           (fw_written w + count))
  else panic.

(** [FpathWriter::with]: the outcome and the final contents of the caller's
    buffer.  [write!(w, "/scheme/{scheme_name}/")] pushes its three pieces. *)
Definition fpath_with (buf : bytes) (scheme_name : string) (f : comp FpathWriter unit)
    : outcome nat * bytes :=
  let m : comp FpathWriter nat :=
    push_str (str_bytes "/scheme/");;
    push_str (str_bytes scheme_name);;
    push_str (str_bytes "/");;
    f;;
    gets fw_written in
  let '(r, w) := m (mk_fpath_writer buf 0) in (r, fw_buf w).

Definition fpath_with_legacy (buf : bytes) (scheme_name : string) (f : comp FpathWriter unit)
    : outcome nat * bytes :=
  let m : comp FpathWriter nat :=
    push_str (str_bytes scheme_name);;
    push_str (str_bytes ":");;
    f;;
    gets fw_written in
  let '(r, w) := m (mk_fpath_writer buf 0) in (r, fw_buf w).

Fixpoint push_all (pieces : list bytes) : comp FpathWriter unit :=
  match pieces with
  | [] => mret tt
  | s :: pieces => push_str s;; push_all pieces
  end.

(** The writer over the buffer [buf] after the text [out] was pushed: [out] cut
    to the buffer, then the rest of the buffer untouched. *)
Definition fw_after (buf out : bytes) : FpathWriter :=
  mk_fpath_writer (copy_at buf 0 (take (length buf) out)) (Nat.min (length out) (length buf)).

Lemma fw_after_nil buf : mk_fpath_writer buf 0 = fw_after buf [].
Proof. unfold fw_after. by rewrite take_nil, copy_at_nil. Qed.

Lemma length_fw_buf_after buf out : length (fw_buf (fw_after buf out)) = length buf.
Proof. cbn. apply length_copy_at. len_lia. Qed.

Lemma push_str_after buf out s :
  push_str s (fw_after buf out) = (Ok tt, fw_after buf (out ++ s)).
Proof.
  unfold push_str, mbind, comp_bind, get, put.
  rewrite length_fw_buf_after, bool_decide_eq_true_2 by (cbn; lia).
  f_equal. unfold fw_after; cbn [fw_buf fw_written]. f_equal; [|len_lia].
  destruct (decide (length out ≤ length buf)%nat) as [Hle|Hgt].
  - rewrite (take_ge out) by lia. rewrite Nat.min_l by lia.
    rewrite (copy_at_app buf 0 out) by len_lia. f_equal. rewrite take_app.
    rewrite (take_ge out) by lia. f_equal.
    destruct (decide (length s ≤ length buf - length out)%nat).
    + by rewrite !take_ge by lia.
    + f_equal. lia.
  - rewrite Nat.min_r by lia.
    replace (Nat.min (length s) (length buf - length buf)) with 0%nat by lia.
    rewrite take_0, copy_at_nil, take_app_le by lia. done.
Qed.

Lemma push_all_after buf out pieces :
  push_all pieces (fw_after buf out) = (Ok tt, fw_after buf (out ++ concat pieces)).
Proof.
  revert out. induction pieces as [|s pieces IH]; intros out; cbn.
  - by rewrite app_nil_r.
  - unfold mbind, comp_bind. rewrite push_str_after, IH. by rewrite app_assoc.
Qed.

(** [FpathWriter::with] never writes outside the caller's buffer and never
    panics: whatever pieces the closure pushes, the buffer afterwards holds the
    text [/scheme/<name>/<pieces>] cut to the buffer's length, followed by the
    bytes that were there, and the returned count is the number of bytes cut. *)
Theorem fpath_with_truncates (buf : bytes) (name : string) (pieces : list bytes) :
  let text := str_bytes "/scheme/" ++ str_bytes name ++ str_bytes "/" ++ concat pieces in
  let n := Nat.min (length text) (length buf) in
  fpath_with buf name (push_all pieces) = (Ok n, take n text ++ drop n buf).
Proof.
  intros text n. unfold fpath_with, mbind, comp_bind, gets.
  rewrite fw_after_nil, !push_str_after, push_all_after.
  cbn [fw_buf fw_written fw_after app]. rewrite <- !app_assoc.
  change (str_bytes "/scheme/" ++ str_bytes name ++ str_bytes "/" ++ concat pieces) with text.
  f_equal. rewrite copy_at_0. f_equal; [|f_equal; len_lia].
  unfold n. destruct (decide (length text ≤ length buf)%nat).
  - by rewrite !take_ge by lia.
  - by rewrite Nat.min_r by lia.
Qed.

Lemma fpath_with_push (buf : bytes) (name : string) (p : bytes) :
  let text := str_bytes "/scheme/" ++ str_bytes name ++ str_bytes "/" ++ p in
  let n := Nat.min (length text) (length buf) in
  fpath_with buf name (push_str p) = (Ok n, take n text ++ drop n buf).
Proof.
  intros text n. pose proof (fpath_with_truncates buf name [p]) as E. cbn [concat] in E.
  rewrite app_nil_r in E. refine (eq_trans _ E). unfold fpath_with, mbind, comp_bind, gets. cbn [push_all].
  unfold mbind, comp_bind. rewrite fw_after_nil, !push_str_after. done.
Qed.
