(* ===== verification/Readiness.v ===== *)
(** * scheme-utils: request dispatch

    Models [scheme-utils/src/readiness_based.rs] and [blocking.rs]: the loops
    that read requests from the scheme socket, hand them to a scheme, keep the
    ones that would block and write the responses.  The [redox_scheme] crate is
    not part of this repository: its request and operation types and the calls
    into the scheme are the fields of [SchemeCrate]. *)

From S2P Require Import Prelude.

(** ** What the dispatch loops use of [redox_scheme] *)

(** A [Result] the scheme returned: a value, not an early exit. *)
Definition reply (A : Type) : Type := errno + A.

Class SchemeCrate := {
  Id : Type;
  Id_eq_dec :: EqDecision Id;
  Id_countable :: Countable Id;
  CallerCtx : Type;
  caller_id : CallerCtx → Id;
  Op : Type;
  CallReq : Type;
  SendFdReq : Type;
  RecvFdReq : Type;
  OpenResult : Type;
  (** the scheme together with its [SchemeState] *)
  Scheme : Type;
  call_caller : CallReq → CallerCtx;
  (** [CallRequest::op]: [None] is an unsupported operation *)
  call_op : CallReq → option Op;
  is_explicitly_nonblock : Op → bool;
  recvfd_caller : RecvFdReq → CallerCtx;
  recvfd_op : RecvFdReq → Op;
  on_close : Z → Scheme → Scheme;
  on_sendfd : SendFdReq → Scheme → reply Z * Scheme;
  on_recvfd : RecvFdReq → Scheme → reply OpenResult * Scheme;
}.

Inductive SchemeResponse `{SchemeCrate} :=
  | SrOpened (r : reply OpenResult)
  | SrRegular (r : reply Z)
  | SrRegularAndNotifyOnDetach (status : Z).

(** A response is addressed to the request or operation it was built from. *)
Inductive Addressee `{SchemeCrate} :=
  | ToOp (op : Op)
  | ToCall (req : CallReq)
  | ToSendFd (req : SendFdReq)
  | ToRecvFd (req : RecvFdReq).

Inductive Response `{SchemeCrate} :=
  | RespErr (e : errno) (to : Addressee)
  | RespNew (r : reply Z) (to : Addressee)
  | RespNotifyOnDetach (status : Z) (to : Addressee)
  | RespOpenDupLike (r : reply OpenResult) (to : Addressee).

(** How a request is run against a scheme: [Op::handle_sync_dont_consume], which
    updates the operation in place, and [CallRequest::handle_sync]. *)
Class SchemeHandler `{SchemeCrate} := {
  handle_sync_dont_consume :
    Op → CallerCtx → Scheme → SchemeResponse * Op * Scheme;
  handle_sync : CallReq → Scheme → Response * Scheme;
}.

Inductive RequestKind `{SchemeCrate} :=
  | RkCall (req : CallReq)
  | RkCancellation (id : Id)
  | RkOnClose (id : Z)
  | RkSendFd (req : SendFdReq)
  | RkRecvFd (req : RecvFdReq)
  | RkOther.

(** ** ReadinessBased *)

Section Readiness.
Context `{SchemeHandler}.

(** The dispatcher and the scheme it drives. *)
Record ReadinessBased := mk_readiness {
  requests_read : list RequestKind;
  responses_to_write : list Response;
  states : gmap Id (CallerCtx * Op);
  ready_queue : list Id;
  scheme : Scheme;
}.

Definition set_responses f (s : ReadinessBased) :=
  mk_readiness (requests_read s) (f (responses_to_write s)) (states s) (ready_queue s) (scheme s).
Definition set_states f (s : ReadinessBased) :=
  mk_readiness (requests_read s) (responses_to_write s) (f (states s)) (ready_queue s) (scheme s).
Definition set_ready q (s : ReadinessBased) :=
  mk_readiness (requests_read s) (responses_to_write s) (states s) q (scheme s).
Definition set_scheme sch (s : ReadinessBased) :=
  mk_readiness (requests_read s) (responses_to_write s) (states s) (ready_queue s) sch.
Definition set_requests q (s : ReadinessBased) :=
  mk_readiness q (responses_to_write s) (states s) (ready_queue s) (scheme s).

(** [self.responses_to_write.push_back(resp)] *)
Definition push_response (resp : Response) (s : ReadinessBased) : ReadinessBased :=
  set_responses (λ l, l ++ [resp]) s.

(** The [match] on the scheme's answer, shared by the two places that run an
    operation: [inl] is a finished response, [inr] the operation to park. *)
Definition classify (r : SchemeResponse) (caller : CallerCtx) (op : Op)
    : Response + (CallerCtx * Op) :=
  match r with
  | SrOpened (inl EWOULDBLOCK) =>
     if is_explicitly_nonblock op then inl (RespOpenDupLike (inl EWOULDBLOCK) (ToOp op))
     else inr (caller, op)
  | SrRegular (inl EWOULDBLOCK) =>
     if is_explicitly_nonblock op then inl (RespNew (inl EWOULDBLOCK) (ToOp op))
     else inr (caller, op)
  | SrRegular r => inl (RespNew r (ToOp op))
  | SrRegularAndNotifyOnDetach status => inl (RespNotifyOnDetach status (ToOp op))
  | SrOpened o => inl (RespOpenDupLike o (ToOp op))
  end.

(** The body of the [for request in self.requests_read.drain(..)] loop. *)
Definition process_request (req : RequestKind) (s : ReadinessBased) : ReadinessBased :=
  match req with
  | RkCancellation id =>
     match states s !! id with
     | Some (_, op) =>
        push_response (RespErr ECANCELED (ToOp op)) (set_states (delete id) s)
     | None => s
     end
  | RkOnClose id => set_scheme (on_close id (scheme s)) s
  | RkSendFd r =>
     let '(result, sch) := on_sendfd r (scheme s) in
     push_response (RespNew result (ToSendFd r)) (set_scheme sch s)
  | RkRecvFd r =>
     let '(result, sch) := on_recvfd r (scheme s) in
     let s := set_scheme sch s in
     let caller := recvfd_caller r in
     match result with
     | inl EWOULDBLOCK =>
        set_states (insert (caller_id caller) (caller, recvfd_op r)) s
     | _ => push_response (RespOpenDupLike result (ToRecvFd r)) s
     end
  | RkOther => s
  | RkCall c =>
     let caller := call_caller c in
     match call_op c with
     | None => push_response (RespErr EOPNOTSUPP (ToCall c)) s
     | Some op =>
        let '(r, op, sch) := handle_sync_dont_consume op caller (scheme s) in
        let s := set_scheme sch s in
        match classify r caller op with
        | inl resp => push_response resp s
        | inr parked => set_states (insert (caller_id caller) parked) s
        end
     end
  end.

Definition process_requests (reqs : list RequestKind) (s : ReadinessBased) : ReadinessBased :=
  foldl (λ s r, process_request r s) s reqs.

(** [socket.read_requests] appended [read] and returned [status]. *)
Definition read_and_process_requests (read : list RequestKind) (status : reply unit)
    : comp ReadinessBased unit :=
  s ← get;
  if negb (bool_decide (length (requests_read s) = 0%nat)) then panic else
  put (set_requests read s);;
  match status with
  | inr _ => if bool_decide (length read = 0%nat) then panic else mret tt
  | inl EINTR | inl EWOULDBLOCK | inl EAGAIN => mret tt
  | inl err => fail err
  end;;
  modify (λ s, process_requests (requests_read s) (set_requests [] s)).

(** [poll_request_inner] with the state removal done by [states.remove]. *)
Definition poll_request_inner (id : Id)
    : comp ReadinessBased (Response + (CallerCtx * Op)) :=
  s ← get;
  '(caller, op) ← ok_or EIO (states s !! id);
  let '(r, op, sch) := handle_sync_dont_consume op caller (scheme s) in
  put (set_scheme sch (set_states (delete id) s));;
  mret (classify r caller op).

Definition poll_request (id : Id) : comp ReadinessBased bool :=
  r ← poll_request_inner id;
  match r with
  | inr parked => modify (set_states (insert id parked));; mret false
  | inl resp => modify (push_response resp);; mret true
  end.

Fixpoint poll_queue (queue : list Id) : comp ReadinessBased unit :=
  match queue with
  | [] => mret tt
  | id :: queue =>
     r ← poll_request_inner id;
     match r with
     | inl resp => modify (push_response resp)
     | inr parked => modify (set_states (insert id parked))
     end;;
     poll_queue queue
  end.

(** [drain(..)] empties the queue on every exit. *)
Definition poll_ready_requests : comp ReadinessBased unit :=
  queue ← gets ready_queue;
  modify (set_ready []);;
  poll_queue queue.

(** [keys] is the order in which the [HashMap] yields its keys. *)
Definition poll_all_requests (keys : gmap Id (CallerCtx * Op) → list Id)
    : comp ReadinessBased unit :=
  modify (set_ready []);;
  modify (λ s, set_ready (ready_queue s ++ keys (states s)) s);;
  poll_ready_requests.

(** [socket.write_responses] left [rest] unwritten and returned [status]. *)
Definition write_responses (rest : list Response) (status : reply unit)
    : comp ReadinessBased unit :=
  modify (set_responses (λ _, rest));;
  match status with
  | inr _ => if bool_decide (length rest = 0%nat) then mret tt else panic
  | inl EINTR | inl EWOULDBLOCK | inl EAGAIN => panic
  | inl err => fail err
  end.

(** *** The event-loop turn of [ptyd]

    [scan_requests] of [ptyd/src/main.rs]; the [expect]s turn an error into a
    panic. *)
Definition scan_requests (read : list RequestKind) (status : reply unit)
    (keys : gmap Id (CallerCtx * Op) → list Id)
    (rest : list Response → list Response) (wstatus : reply unit)
    : comp ReadinessBased unit :=
  unwrap (read_and_process_requests read status);;
  unwrap (poll_all_requests keys);;
  out ← gets responses_to_write;
  unwrap (write_responses (rest out) wstatus).
End Readiness.

(** ** Blocking *)

Section Blocking.
Context `{SchemeHandler}.

Record Blocking := mk_blocking {
  b_requests_read : list RequestKind;
  b_responses : list Response;
  b_scheme : Scheme;
}.

Inductive ControlFlow := Continue | Break.

Definition b_process_request (req : RequestKind) (s : Blocking) : Blocking :=
  match req with
  | RkCall c =>
     let '(resp, sch) := handle_sync c (b_scheme s) in
     mk_blocking (b_requests_read s) (b_responses s ++ [resp]) sch
  | RkCancellation _ => s
  | RkOnClose id => mk_blocking (b_requests_read s) (b_responses s) (on_close id (b_scheme s))
  | RkSendFd r =>
     let '(result, sch) := on_sendfd r (b_scheme s) in
     mk_blocking (b_requests_read s) (b_responses s ++ [RespNew result (ToSendFd r)]) sch
  | RkRecvFd r =>
     let '(result, sch) := on_recvfd r (b_scheme s) in
     mk_blocking (b_requests_read s) (b_responses s ++ [RespOpenDupLike result (ToRecvFd r)]) sch
  | RkOther => s
  end.

Definition process_requests_nonblocking (read : list RequestKind) (status : reply unit)
    (rest : list Response → list Response) (wstatus : reply unit)
    : comp Blocking ControlFlow :=
  s ← get;
  if negb (bool_decide (length (b_requests_read s) = 0%nat)) then panic else
  if negb (bool_decide (length (b_responses s) = 0%nat)) then panic else
  put (mk_blocking read (b_responses s) (b_scheme s));;
  match status with
  | inl EINTR | inl EWOULDBLOCK | inl EAGAIN => mret Break
  | inl err => fail err
  | inr _ =>
     if bool_decide (length read = 0%nat) then panic else
     modify (λ s, foldl (λ s r, b_process_request r s)
       (mk_blocking [] (b_responses s) (b_scheme s)) (b_requests_read s));;
     modify (λ s, mk_blocking (b_requests_read s) (rest (b_responses s)) (b_scheme s));;
     left ← gets b_responses;
     match wstatus with
     | inr _ => if bool_decide (length left = 0%nat) then mret Continue else panic
     | inl EINTR | inl EWOULDBLOCK | inl EAGAIN => panic
     | inl err => fail err
     end
  end.
End Blocking.

(** ** Every request is answered or parked, once *)

(** The request id that operations and responses carry.  The crate builds an
    operation from the request it answers and keeps the id in it. *)
Class SchemeIds `{SchemeHandler} := {
  op_id : Op → Id;
  sendfd_id : SendFdReq → Id;
  call_op_id c op : call_op c = Some op → op_id op = caller_id (call_caller c);
  recvfd_op_id r : op_id (recvfd_op r) = caller_id (recvfd_caller r);
  handle_op_id op c sch r op' sch' :
    handle_sync_dont_consume op c sch = (r, op', sch') → op_id op' = op_id op;
}.

Section Owed.
Context `{SchemeIds}.

Definition addressee_id (to : Addressee) : Id :=
  match to with
  | ToOp op => op_id op
  | ToCall c => caller_id (call_caller c)
  | ToSendFd r => sendfd_id r
  | ToRecvFd r => caller_id (recvfd_caller r)
  end.

Definition response_id (r : Response) : Id :=
  match r with
  | RespErr _ to | RespNew _ to | RespNotifyOnDetach _ to | RespOpenDupLike _ to =>
     addressee_id to
  end.

(** Responses queued for [i], and whether [i] is parked. *)
Definition answered (i : Id) (rs : list Response) : nat :=
  length (filter (λ r, response_id r = i) rs).
Definition parked (i : Id) (st : gmap Id (CallerCtx * Op)) : nat :=
  match st !! i with Some _ => 1 | None => 0 end.
Definition owed (i : Id) (s : ReadinessBased) : nat :=
  answered i (responses_to_write s) + parked i (states s).

Arguments answered : simpl never.
Arguments parked : simpl never.

(** The requests of a batch that expect exactly one response. *)
Definition request_id (r : RequestKind) : option Id :=
  match r with
  | RkCall c => Some (caller_id (call_caller c))
  | RkSendFd r => Some (sendfd_id r)
  | RkRecvFd r => Some (caller_id (recvfd_caller r))
  | _ => None
  end.
Definition expected (i : Id) (reqs : list RequestKind) : nat :=
  length (filter (λ r, request_id r = Some i) reqs).

Arguments expected : simpl never.
Arguments owed : simpl never.

(** A parked operation sits under its own id. *)
Definition states_ok (st : gmap Id (CallerCtx * Op)) : Prop :=
  map_Forall (λ id p, op_id p.2 = id) st.

Lemma answered_app i rs rs' : answered i (rs ++ rs') = (answered i rs + answered i rs')%nat.
Proof. unfold answered. by rewrite list.filter_app, length_app. Qed.

Lemma answered_one i r : answered i [r] = if decide (response_id r = i) then 1%nat else 0%nat.
Proof. unfold answered. rewrite filter_cons, filter_nil. by case_decide. Qed.

Lemma owed_push i resp s :
  owed i (push_response resp s) =
  (owed i s + if decide (response_id resp = i) then 1 else 0)%nat.
Proof. unfold owed. cbn. rewrite answered_app, answered_one. lia. Qed.

Lemma owed_park i j p s :
  states s !! j = None →
  owed i (set_states (insert j p) s) = (owed i s + if decide (j = i) then 1 else 0)%nat.
Proof.
  intros Hj. unfold owed, parked. cbn. rewrite lookup_insert.
  case_decide; simplify_eq; [rewrite Hj|]; lia.
Qed.

Lemma owed_unpark i j p s :
  states s !! j = Some p →
  owed i s = (owed i (set_states (delete j) s) + if decide (j = i) then 1 else 0)%nat.
Proof.
  intros Hj. unfold owed, parked. cbn. rewrite lookup_delete.
  case_decide; simplify_eq; [rewrite Hj|]; lia.
Qed.

Lemma owed_set_scheme i sch s : owed i (set_scheme sch s) = owed i s.
Proof. done. Qed.

Lemma classify_id r caller op :
  match classify r caller op with
  | inl resp => response_id resp = op_id op
  | inr p => p = (caller, op)
  end.
Proof. destruct r as [[[]|]|[[]|]|]; cbn; try done; by destruct (is_explicitly_nonblock op). Qed.

Ltac owed_solve := repeat case_decide; simplify_eq; first [lia | congruence].

(** A batch is admissible when its ids are in flight for the first time. *)
Definition batch_ok (reqs : list RequestKind) (st : gmap Id (CallerCtx * Op)) : Prop :=
  NoDup (omap request_id reqs) ∧ ∀ i, i ∈ omap request_id reqs → st !! i = None.

Lemma process_request_owed req s :
  states_ok (states s) →
  (∀ i, request_id req = Some i → states s !! i = None) →
  let s' := process_request req s in
  states_ok (states s') ∧
  (∀ i, states s !! i = None → request_id req ≠ Some i → states s' !! i = None) ∧
  ∀ i, owed i s' = (owed i s + if decide (request_id req = Some i) then 1 else 0)%nat.
Proof.
  intros Hok Hfresh. destruct req as [c|j|j|r|r|]; cbn in Hfresh |- *.
  - destruct (call_op c) as [op|] eqn:Hop.
    2:{ split_and!; [done..|]. intros i. rewrite owed_push. cbn.
        owed_solve. }
    destruct (handle_sync_dont_consume _ _ _) as [[r op'] sch] eqn:Hh.
    apply handle_op_id in Hh. apply call_op_id in Hop. rewrite Hop in Hh.
    pose proof (classify_id r (call_caller c) op') as Hcl.
    destruct (classify r (call_caller c) op') as [resp|p].
    + split_and!; [done..|]. intros i. rewrite owed_push, owed_set_scheme, Hcl.
      owed_solve.
    + subst p. split_and!; cbn.
      * apply map_Forall_insert_2; [|done]. cbn. congruence.
      * intros i Hi Hne. rewrite lookup_insert_ne by naive_solver. done.
      * intros i. rewrite owed_park, owed_set_scheme by (apply Hfresh; done).
        owed_solve.
  - destruct (states s !! j) as [[c op]|] eqn:Hj; [|by split_and!; auto with lia].
    split_and!; cbn.
    + by apply map_Forall_delete.
    + intros i Hi _. rewrite lookup_delete_None. auto.
    + intros i. rewrite owed_push, (owed_unpark i j _ s Hj). cbn.
      pose proof (map_Forall_lookup_1 _ _ _ _ Hok Hj) as Hid. cbn in Hid. owed_solve.
  - split_and!; auto with lia.
  - destruct (on_sendfd r (scheme s)) as [result sch].
    split_and!; [done..|]. intros i. rewrite owed_push, owed_set_scheme. cbn.
    owed_solve.
  - destruct (on_recvfd r (scheme s)) as [result sch].
    assert (∀ i, owed i (push_response (RespOpenDupLike result (ToRecvFd r)) (set_scheme sch s))
      = (owed i s + if decide (Some (caller_id (recvfd_caller r)) = Some i) then 1 else 0)%nat)
      as Hpush.
    { intros i. rewrite owed_push, owed_set_scheme. cbn. owed_solve. }
    destruct result as [[]|]; try (by split_and!).
    split_and!; cbn.
    + apply map_Forall_insert_2; [apply recvfd_op_id|done].
    + intros i Hi Hne. rewrite lookup_insert_ne by naive_solver. done.
    + intros i. rewrite owed_park, owed_set_scheme by (apply Hfresh; done).
      owed_solve.
  - split_and!; auto with lia.
Qed.

Lemma expected_cons i req reqs :
  expected i (req :: reqs) =
  ((if decide (request_id req = Some i) then 1 else 0) + expected i reqs)%nat.
Proof. unfold expected. rewrite filter_cons. by case_decide. Qed.

Lemma batch_ok_cons req reqs s :
  states_ok (states s) → batch_ok (req :: reqs) (states s) →
  (∀ i, request_id req = Some i → states s !! i = None) ∧
  batch_ok reqs (states (process_request req s)).
Proof.
  intros Hok [Hnd Hfresh].
  assert (∀ i, request_id req = Some i → states s !! i = None) as Hreq.
  { intros i Hi. apply Hfresh. cbn. rewrite Hi. apply elem_of_cons. auto. }
  destruct (process_request_owed req s Hok Hreq) as (_ & Hkeep & _).
  cbn in Hnd, Hfresh. split; [done|].
  destruct (request_id req) as [j|]; cbn in Hnd, Hfresh; [|split; [done|]].
  - apply NoDup_cons in Hnd as [Hj Hnd]. split; [done|]. intros i Hi.
    apply Hkeep; [apply Hfresh; by right|]. intros [= ->]. done.
  - intros i Hi. apply Hkeep; [by apply Hfresh|done].
Qed.

Lemma process_requests_owed reqs s :
  states_ok (states s) → batch_ok reqs (states s) →
  let s' := process_requests reqs s in
  states_ok (states s') ∧ ∀ i, owed i s' = (owed i s + expected i reqs)%nat.
Proof.
  revert s. induction reqs as [|req reqs IH]; intros s Hok Hbatch; cbn.
  - split; [done|]. intros i. unfold expected. cbn. lia.
  - destruct (batch_ok_cons _ _ _ Hok Hbatch) as [Hreq Hbatch'].
    destruct (process_request_owed req s Hok Hreq) as (Hok' & _ & Howed).
    destruct (IH _ Hok' Hbatch') as [Hok'' Howed'].
    split; [done|]. intros i. unfold process_requests in Howed'.
    rewrite Howed', Howed, expected_cons. lia.
Qed.

(** *** Polling *)

(** [p] is parked because the scheme, run on it, answered that it would block. *)
Definition still_blocked (p : CallerCtx * Op) : Prop :=
  ∃ op sch r sch', handle_sync_dont_consume op p.1 sch = (r, p.2, sch') ∧
    (r = SrOpened (inl EWOULDBLOCK) ∨ r = SrRegular (inl EWOULDBLOCK)) ∧
    is_explicitly_nonblock p.2 = false.

Lemma classify_parked r caller op p :
  classify r caller op = inr p →
  p = (caller, op) ∧ is_explicitly_nonblock op = false ∧
  (r = SrOpened (inl EWOULDBLOCK) ∨ r = SrRegular (inl EWOULDBLOCK)).
Proof.
  destruct r as [[[]|]|[[]|]|]; cbn; try done;
    destruct (is_explicitly_nonblock op) eqn:?; naive_solver.
Qed.

Lemma poll_queue_owed queue s :
  NoDup queue → (∀ i, i ∈ queue → is_Some (states s !! i)) → states_ok (states s) →
  wp (poll_queue queue) (λ r s', r = Ok tt ∧ states_ok (states s') ∧
    requests_read s' = requests_read s ∧
    (∀ i, owed i s' = owed i s) ∧
    (∀ i, i ∉ queue → states s' !! i = states s !! i) ∧
    (∀ i p, i ∈ queue → states s' !! i = Some p → still_blocked p)) s.
Proof.
  revert s. induction queue as [|j queue IH]; intros s Hnd Hin Hok; cbn.
  { wp_go. split_and!; auto; set_solver. }
  apply NoDup_cons in Hnd as [Hj Hnd].
  destruct (Hin j) as [[caller op] Hst]; [by left|].
  pose proof (map_Forall_lookup_1 _ _ _ _ Hok Hst) as Hid. cbn in Hid.
  wp_step. unfold poll_request_inner. wp_step. wp_step. wp_step. rewrite Hst. wp_step.
  destruct (handle_sync_dont_consume op caller (scheme s)) as [[r op'] sch] eqn:Hh.
  pose proof (handle_op_id _ _ _ _ _ _ Hh) as Hid'.
  pose proof (classify_id r caller op') as Hcl.
  pose proof (classify_parked r caller op') as Hpk.
  do 3 wp_step.
  set (s1 := set_scheme sch (set_states (delete j) s)).
  assert (∀ i, owed i s = (owed i s1 + if decide (j = i) then 1 else 0)%nat) as Hs1.
  { intros i. rewrite (owed_unpark i j _ s Hst). done. }
  assert (∃ s2, requests_read s2 = requests_read s ∧ (∀ i, owed i s2 = owed i s) ∧ states_ok (states s2) ∧
    (∀ i, i ≠ j → states s2 !! i = states s !! i) ∧
    (∀ p, states s2 !! j = Some p → still_blocked p) ∧
    wp (match classify r caller op' with
        | inl resp => modify (push_response resp)
        | inr parked => modify (set_states (insert j parked))
        end) (λ r' s', r' = Ok tt ∧ s' = s2) s1) as (s2 & Hrq & How & Hok2 & Hne & Hjp & Hwp).
  { destruct (classify r caller op') as [resp|p] eqn:Hc.
    - exists (push_response resp s1). split_and!; cbn; [done| | |..|done].
      + intros i. rewrite owed_push, Hs1, Hcl. owed_solve.
      + by apply map_Forall_delete.
      + intros i Hi. by rewrite lookup_delete_ne.
      + intros p. by rewrite lookup_delete_eq.
    - destruct (Hpk p eq_refl) as (-> & Hnb & Hr).
      exists (set_states (insert j (caller, op')) s1). split_and!; cbn; [done| | |..|done].
      + intros i. rewrite owed_park, Hs1 by apply lookup_delete_eq. done.
      + apply map_Forall_insert_2; [cbn; congruence|by apply map_Forall_delete].
      + intros i Hi. by rewrite lookup_insert_ne, lookup_delete_ne.
      + intros p. rewrite lookup_insert_eq. intros [= <-]. by exists op, (scheme s), r, sch. }
  apply wp_bind. eapply wp_mono; [exact Hwp|]. intros r' s' [-> ->]. cbn.
  eapply wp_mono; [apply IH; [done| |done]|].
  { intros i Hi. rewrite Hne by (intros ->; done). apply Hin. by right. }
  cbn. intros r' s' (-> & Hok' & Hrq' & How' & Hout & Hblk). split_and!; [done..|congruence| | |].
  - intros i. by rewrite How', How.
  - intros i [? ?]%not_elem_of_cons. rewrite Hout, Hne by done. done.
  - intros i p [->|Hi]%elem_of_cons; [|by apply Hblk].
    rewrite Hout by done. apply Hjp.
Qed.

(** The order in which the [HashMap] yields its keys is some enumeration. *)
Definition enumerates_keys (keys : gmap Id (CallerCtx * Op) → list Id) : Prop :=
  ∀ m, keys m ≡ₚ (map_to_list m).*1.

Lemma enumerates_keys_spec keys m :
  enumerates_keys keys → NoDup (keys m) ∧ ∀ i, i ∈ keys m ↔ is_Some (m !! i).
Proof.
  intros Hk. split; [rewrite (Hk m); apply NoDup_fst_map_to_list|].
  intros i. rewrite (Hk m), list_elem_of_fmap. split.
  - intros ([j p] & -> & Hp%elem_of_map_to_list). eauto.
  - intros [p Hp]. exists (i, p). by rewrite elem_of_map_to_list.
Qed.

Lemma poll_all_requests_owed keys s :
  enumerates_keys keys → states_ok (states s) →
  wp (poll_all_requests keys) (λ r s', r = Ok tt ∧ states_ok (states s') ∧
    requests_read s' = requests_read s ∧
    (∀ i, owed i s' = owed i s) ∧ map_Forall (λ _ p, still_blocked p) (states s')) s.
Proof.
  intros Hk Hok. destruct (enumerates_keys_spec keys (states s) Hk) as [Hnd Hin].
  unfold poll_all_requests, poll_ready_requests. do 8 wp_step. cbn.
  eapply wp_mono; [apply poll_queue_owed; cbn; [done|apply Hin|done]|].
  cbn. intros r s' (-> & Hok' & Hrq & How & Hout & Hblk). split_and!; [done..|].
  intros i p Hp. destruct (decide (i ∈ keys (states s))) as [Hi|Hi]; [eauto|].
  rewrite Hout in Hp by done. destruct Hi. apply Hin. eauto.
Qed.

Lemma process_requests_read reqs s :
  requests_read (process_requests reqs s) = requests_read s.
Proof.
  revert s. induction reqs as [|req reqs IH]; intros s; cbn; [done|].
  unfold process_requests in IH. rewrite IH.
  destruct req; cbn; repeat case_match; done.
Qed.

(** C3. Conservation of requests.  One turn of the dispatch loop (read a batch,
    then poll everything that is parked) neither fails nor panics, empties the
    read buffer, and for every request id [i] the number of responses queued
    for [i] plus the number of parked operations of [i] grows by exactly the
    number of requests of the batch that carry [i]: no request is dropped and
    none is answered twice, whatever the scheme answers and in whatever order
    the hash map yields its keys.  What is parked after the turn is an operation
    the scheme, polled in this turn, answered with [EWOULDBLOCK]. *)
Theorem dispatch_conserves_requests keys read s :
  enumerates_keys keys →
  requests_read s = [] →
  read ≠ [] →
  states_ok (states s) →
  batch_ok read (states s) →
  ∃ s', (read_and_process_requests read (inr tt);; poll_all_requests keys) s = (Ok tt, s') ∧
    requests_read s' = [] ∧ states_ok (states s') ∧
    (∀ i, owed i s' = (owed i s + expected i read)%nat) ∧
    map_Forall (λ _ p, still_blocked p) (states s').
Proof.
  intros Hk Hrq Hread Hok Hbatch.
  destruct (process_requests_owed read (set_requests [] s) Hok Hbatch) as [Hok1 How1].
  set (s1 := process_requests read (set_requests [] s)) in *.
  assert (read_and_process_requests read (inr tt) s = (Ok tt, s1)) as Hrun.
  { unfold read_and_process_requests, mbind, comp_bind, get, put, modify. rewrite Hrq. cbn.
    by destruct read. }
  pose proof (poll_all_requests_owed keys s1 Hk Hok1) as Hpoll. unfold wp in Hpoll.
  unfold mbind, comp_bind. rewrite Hrun.
  destruct (poll_all_requests keys s1) as [r s']; cbn in Hpoll.
  destruct Hpoll as (-> & Hok' & Hrq' & How' & Hblk).
  exists s'. split_and!; [done| |done| |done].
  - rewrite Hrq'. apply process_requests_read.
  - intros i. by rewrite How', How1.
Qed.
End Owed.

(** *** A concrete instance for the witness: operations are numbers, and the scheme
    blocks on the odd ones. *)
Module Example.
#[local] Instance ex_crate : SchemeCrate := {|
  Id := Z; CallerCtx := Z; caller_id := λ c, c;
  Op := Z; CallReq := Z; SendFdReq := Z; RecvFdReq := Z; OpenResult := Z; Scheme := nat;
  call_caller := λ c, c; call_op := λ c, Some c; is_explicitly_nonblock := λ _, false;
  recvfd_caller := λ r, r; recvfd_op := λ r, r;
  on_close := λ _ s, s; on_sendfd := λ r s, (inr r, s); on_recvfd := λ r s, (inr r, s);
|}.
#[local] Instance ex_handler : SchemeHandler := {|
  handle_sync_dont_consume := λ op c s,
    (if Z.odd op then SrRegular (inl EWOULDBLOCK) else SrRegular (inr op), op, S s);
  handle_sync := λ c s, (RespNew (inr c) (ToCall c), s);
|}.
#[local] Program Instance ex_ids : SchemeIds := {| op_id := λ op, op; sendfd_id := λ r, r |}.
Next Obligation. by intros c op [= ->]. Qed.
Next Obligation. done. Qed.
Next Obligation. by intros op c sch r op' sch' [= _ -> _]. Qed.

Definition ex_keys (m : gmap Z (Z * Z)) : list Z := (map_to_list m).*1.
Definition ex_start : ReadinessBased := mk_readiness [] [] ∅ [] 0%nat.

Definition ex_batch : list RequestKind := [RkCall (2 : Z); RkCall (3 : Z)].

Lemma dispatch_conserves_requests_witness :
  ∃ s', (read_and_process_requests ex_batch (inr tt);; poll_all_requests ex_keys)
          ex_start = (Ok tt, s') ∧
    requests_read s' = [] ∧ states_ok (states s') ∧
    (∀ i, owed i s' = (owed i ex_start + expected i ex_batch)%nat) ∧
    map_Forall (λ _ p, still_blocked p) (states s').
Proof.
  apply dispatch_conserves_requests.
  - intros m. reflexivity.
  - reflexivity.
  - discriminate.
  - apply map_Forall_empty.
  - split; [|intros i _; apply lookup_empty].
    apply (bool_decide_unpack _). vm_compute. exact I.
Defined.
End Example.
