(* ===== verification/Chan.v ===== *)
(** * ipcd: the [chan] scheme

    Models [ipcd/src/chan.rs]: listeners, clients that wait to be accepted, and
    connected pairs of byte buffers.  [socket.write_response] belongs to
    [redox_scheme]; it is the parameter [write_response], a function of the
    history of attempts, so that it may fail at any attempt. *)

From S2P Require Import Prelude Abi SchemeUtils.

(** ** Data *)

Inductive Connection := Waiting | Open (id : Z) | Closed.

Record Client := mk_client { buffer : bytes; remote : Connection }.
Definition client_default : Client := mk_client [] Waiting.

Record Listener := mk_listener { l_path : option string; awaiting : list Z }.
Definition listener_default : Listener := mk_listener None [].

Inductive Extra :=
  | ExClient (c : Client)
  | ExListener (l : Listener)
  | ExSchemeRoot.

Record Handle := mk_handle { flags : Z; extra : Extra; path : option string }.
Definition handle_default : Handle := mk_handle 0 (ExClient client_default) None.

Definition set_extra (e : Extra) (h : Handle) : Handle := mk_handle (flags h) e (path h).

(** [Handle::accept] *)
Definition handle_accept (h : Handle) (remote : Z) : Handle :=
  mk_handle (flags h) (ExClient (mk_client [] (Open remote))) None.

(** [Handle::connect], as the updated handle *)
Definition handle_connect (h : Handle) (other : Z) : outcome Handle :=
  match extra h with
  | ExListener l => Ok (set_extra (ExListener (mk_listener (l_path l) (awaiting l ++ [other]))) h)
  | _ => Err EBADF
  end.

Definition require_listener (h : Handle) : outcome Listener :=
  match extra h with ExListener l => Ok l | _ => Err EBADF end.

Definition require_client (h : Handle) : outcome Client :=
  match extra h with ExClient c => Ok c | _ => Err EBADF end.

(** The scheme state; [posted] is the history of [post_fevent] attempts. *)
Record ChanScheme := mk_chan {
  handles : gmap Z Handle;
  listeners : gmap string Z;
  next_id : Z;
  posted : list (Z * Z);
}.

Definition chan_new : ChanScheme := mk_chan ∅ ∅ 0 [].

Definition set_handles f (s : ChanScheme) :=
  mk_chan (f (handles s)) (listeners s) (next_id s) (posted s).
Definition set_listeners f (s : ChanScheme) :=
  mk_chan (handles s) (f (listeners s)) (next_id s) (posted s).
Definition set_next_id n (s : ChanScheme) :=
  mk_chan (handles s) (listeners s) n (posted s).

Inductive OpenResult := ThisScheme (number : Z) | OrWouldBlock.

(** ** Operations *)

Section Ops.
Context `{SyscallAbi} (write_response : list (Z * Z) → Z * Z → errno + bool).

Definition post_fevent (id evs : Z) : comp ChanScheme unit :=
  s ← get;
  put (mk_chan (handles s) (listeners s) (next_id s) (posted s ++ [(id, evs)]));;
  match write_response (posted s) (id, evs) with
  | inr true => mret tt
  | inr false => fail EAGAIN
  | inl err => fail err
  end.

(** [self.next_id += 1] *)
Definition bump_next_id : comp ChanScheme unit :=
  n ← gets next_id;
  n' ← add_usize n 1;
  modify (set_next_id n').

Definition open (p : string) (fl : Z) : comp ChanScheme OpenResult :=
  new_id ← gets next_id;
  let create := has_flag fl O_CREAT in
  ls ← gets listeners;
  new ←
    (if create && bool_decide (ls !! p = None) then
       if bool_decide (p = EmptyString) then
         mret (mk_handle fl (ExListener listener_default) None)
       else
         modify (set_listeners (insert p new_id));;
         mret (mk_handle fl (ExListener (mk_listener (Some p) [])) None)
     else if create && has_flag fl O_EXCL then fail EEXIST
     else
       listener_id ← ok_or ENOENT (ls !! p);
       hs ← gets handles;
       listener ← expect (hs !! listener_id);
       listener ← lift (handle_connect listener new_id);
       modify (set_handles (insert listener_id listener));;
       post_fevent listener_id (Z.lor EVENT_READ EVENT_WRITE);;
       mret (mk_handle fl (extra handle_default) None));
  modify (set_handles (insert new_id new));;
  bump_next_id;;
  mret (ThisScheme new_id).

Definition scheme_root : comp ChanScheme Z :=
  id ← gets next_id;
  bump_next_id;;
  modify (set_handles (insert id (mk_handle 0 ExSchemeRoot None)));;
  mret id.

Definition openat (dirfd : Z) (p : string) (fl : Z) : comp ChanScheme OpenResult :=
  hs ← gets handles;
  handle ← ok_or EBADF (hs !! dirfd);
  match extra handle with
  | ExSchemeRoot => open p fl
  | _ => fail EACCES
  end.

(** The [b"listen"] loop of [dup].  Every turn that continues has taken one id
    off [awaiting], so one turn more than its length is enough. *)
Fixpoint dup_listen (fuel : nat) (id : Z) : comp ChanScheme OpenResult :=
  match fuel with
  | O => panic
  | S fuel =>
     hs ← gets handles;
     handle ← ok_or EBADF (hs !! id);
     listener ← lift (require_listener handle);
     let listener_path := l_path listener in
     match awaiting listener with
     | remote_id :: rest =>
        modify (set_handles (insert id
          (set_extra (ExListener (mk_listener (l_path listener) rest)) handle)));;
        new_id ← gets next_id;
        let new := handle_accept handle remote_id in
        hs ← gets handles;
        match hs !! remote_id with
        | None => dup_listen fuel id
        | Some rem =>
           match extra rem with
           | ExClient c =>
              modify (set_handles (insert remote_id
                (set_extra (ExClient (mk_client (buffer c) (Open new_id))) rem)))
           | ExListener _ => panic
           | ExSchemeRoot => fail EBADF
           end;;
           post_fevent remote_id EVENT_WRITE;;
           modify (set_handles (insert new_id
             (mk_handle (flags new) (extra new) listener_path)));;
           bump_next_id;;
           mret (ThisScheme new_id)
        end
     | [] =>
        if has_flag (flags handle) O_NONBLOCK then mret OrWouldBlock else fail EWOULDBLOCK
     end
  end.

Definition awaiting_len (s : ChanScheme) (id : Z) : nat :=
  match handles s !! id with
  | Some (mk_handle _ (ExListener l) _) => length (awaiting l)
  | _ => 0
  end.

Definition dup_connect (id : Z) : comp ChanScheme OpenResult :=
  new_id ← gets next_id;
  hs ← gets handles;
  handle ← ok_or EBADF (hs !! id);
  lift (require_listener handle);;
  handle ← lift (handle_connect handle new_id);
  modify (set_handles (insert id handle));;
  post_fevent id (Z.lor EVENT_READ EVENT_WRITE);;
  modify (set_handles (insert new_id handle_default));;
  bump_next_id;;
  mret (ThisScheme new_id).

(** The last arm of [dup]: name a socket. *)
Definition dup_named (id : Z) (buf : bytes) : comp ChanScheme OpenResult :=
  if bool_decide (buf = []) then fail EBADF else
  p ← ok_or EBADF (from_utf8 buf);
  hs ← gets handles;
  handle ← ok_or EBADF (hs !! id);
  if bool_decide (is_Some (path handle)) then fail EBADF else
  match extra handle with
  | ExSchemeRoot => fail EBADF
  | _ => open p (flags handle)
  end.

Definition dup (id : Z) (buf : bytes) : comp ChanScheme OpenResult :=
  if bool_decide (buf = str_bytes "listen") then
    s ← get;
    dup_listen (S (awaiting_len s id)) id
  else if bool_decide (buf = str_bytes "connect") then dup_connect id
  else dup_named id buf.

Definition write (id : Z) (buf : bytes) (fl : Z) : comp ChanScheme Z :=
  hs ← gets handles;
  handle ← ok_or EBADF (hs !! id);
  client ← lift (require_client handle);
  match remote client with
  | Open remote_id =>
     rem ← expect (hs !! remote_id);
     match extra rem with
     | ExClient c =>
        let buffer' := buffer c ++ buf in
        modify (set_handles (insert remote_id
          (set_extra (ExClient (mk_client buffer' (remote c))) rem)));;
        (if bool_decide (length buffer' = length buf)
         then post_fevent remote_id EVENT_READ else mret tt);;
        mret (Z.of_nat (length buf))
     | ExListener _ => panic
     | ExSchemeRoot => panic
     end
  | Closed => fail EPIPE
  | Waiting => if has_flag fl O_NONBLOCK then fail EAGAIN else fail EWOULDBLOCK
  end.

(** [read]: the count and the caller's buffer afterwards. *)
Definition read (id : Z) (buf : bytes) (fl : Z) : comp ChanScheme (Z * bytes) :=
  hs ← gets handles;
  handle ← ok_or EBADF (hs !! id);
  client ← lift (require_client handle);
  if negb (bool_decide (buffer client = [])) then
    let len := Nat.min (length buf) (length (buffer client)) in
    modify (set_handles (insert id
      (set_extra (ExClient (mk_client (drop len (buffer client)) (remote client))) handle)));;
    mret (Z.of_nat len, copy_at buf 0 (take len (buffer client)))
  else
    match remote client with
    | Closed => mret (0, buf)
    | _ => if has_flag fl O_NONBLOCK then fail EAGAIN else fail EWOULDBLOCK
    end.

Definition fpath (id : Z) (buf : bytes) (s : ChanScheme) : outcome nat * bytes :=
  fpath_with_legacy buf "chan"
    (handle ← ok_or EBADF (handles s !! id);
     match extra handle with
     | ExSchemeRoot => mret tt
     | _ => p ← ok_or EBADF (path handle); push_str (str_bytes p)
     end).

Definition fsync (id : Z) : comp ChanScheme unit :=
  hs ← gets handles;
  ok_or EBADF (hs !! id);;
  mret tt.

Definition on_close (id : Z) : comp ChanScheme unit :=
  hs ← gets handles;
  handle ← expect (hs !! id);
  modify (set_handles (delete id));;
  match extra handle with
  | ExClient client =>
     match remote client with
     | Open remote_id =>
        hs ← gets handles;
        rem ← expect (hs !! remote_id);
        match extra rem with
        | ExClient c =>
           modify (set_handles (insert remote_id
             (set_extra (ExClient (mk_client (buffer c) Closed)) rem)));;
           if bool_decide (buffer c = []) then
             unwrap (post_fevent remote_id EVENT_READ)
           else mret tt
        | ExListener _ => panic
        | ExSchemeRoot => panic
        end
     | _ => mret tt
     end
  | ExListener listener =>
     match l_path listener with
     | Some p => modify (set_listeners (delete p))
     | None => mret tt
     end
  | ExSchemeRoot => mret tt
  end.

Definition fcntl (id cmd arg : Z) : comp ChanScheme Z :=
  hs ← gets handles;
  handle ← ok_or EBADF (hs !! id);
  if bool_decide (cmd = F_GETFL) then mret (flags handle)
  else if bool_decide (cmd = F_SETFL) then
    modify (set_handles (insert id (mk_handle arg (extra handle) (path handle))));;
    mret 0
  else fail EINVAL.

Definition fevent (id : Z) : comp ChanScheme Z :=
  hs ← gets handles;
  handle ← ok_or EBADF (hs !! id);
  mret match extra handle with
       | ExClient c =>
          Z.lor (match remote c with Open _ => EVENT_WRITE | _ => 0 end)
                (if negb (bool_decide (buffer c = [])) ||
                    match remote c with Closed => true | _ => false end
                 then EVENT_READ else 0)
       | ExListener l =>
          if negb (bool_decide (awaiting l = [])) then Z.lor EVENT_READ EVENT_WRITE else 0
       | ExSchemeRoot => 0
       end.
End Ops.

(** ** Invariant

    Stated on what each id is, up to the contents of its buffer, the registered
    listener paths and the next id. *)
Inductive Shape :=
  | ShClient (r : Connection)
  | ShListener (l : Listener)
  | ShRoot.

Definition shape_of (h : Handle) : Shape :=
  match extra h with
  | ExClient c => ShClient (remote c)
  | ExListener l => ShListener l
  | ExSchemeRoot => ShRoot
  end.

Record chan_ok (E : gmap Z Shape) (L : gmap string Z) (n : Z) : Prop := {
  (** ids in use are below [next_id] *)
  ok_next : 0 ≤ n ≤ usize_max;
  ok_range i e : E !! i = Some e → 0 ≤ i < n;
  (** connections are mutual *)
  ok_mutual i r : E !! i = Some (ShClient (Open r)) →
    r ≠ i ∧ E !! r = Some (ShClient (Open i));
  (** the registered paths are those of the live listeners *)
  ok_listen p i : L !! p = Some i ↔ ∃ l, E !! i = Some (ShListener l) ∧ l_path l = Some p;
  (** what waits to be accepted is, while it is open, an unconnected client *)
  ok_await i l r : E !! i = Some (ShListener l) → r ∈ awaiting l →
    r < n ∧ ∀ e, E !! r = Some e → e = ShClient Waiting;
  (** and waits once *)
  ok_await_nodup i l : E !! i = Some (ShListener l) → NoDup (awaiting l);
  ok_await_disj i j l l' r :
    E !! i = Some (ShListener l) → E !! j = Some (ShListener l') →
    r ∈ awaiting l → r ∈ awaiting l' → i = j;
}.

Definition shapes (s : ChanScheme) : gmap Z Shape := shape_of <$> handles s.
Definition chan_inv (s : ChanScheme) : Prop := chan_ok (shapes s) (listeners s) (next_id s).

(** Split lookups in an updated map. *)
Ltac ins_cases :=
  repeat match goal with
  | H : <[_ := _]> _ !! _ = Some _ |- _ =>
     apply lookup_insert_Some in H as [[? ?]|[? ?]]; simplify_eq/=
  | H : delete _ _ !! _ = Some _ |- _ =>
     apply lookup_delete_Some in H as [? ?]
  end.

Lemma chan_ok_fresh E L n : chan_ok E L n → E !! n = None.
Proof. intros Hok. destruct (E !! n) eqn:Hn; [|done]. apply Hok in Hn. lia. Qed.

Lemma chan_ok_new : chan_ok ∅ ∅ 0.
Proof. split; [ints| | | | | |]; intros; try done. split; [done|]. by intros (? & ? & ?). Qed.

Section Transitions.
Context (E : gmap Z Shape) (L : gmap string Z) (n : Z).
Context (Hok : chan_ok E L n).

Let Hfresh : E !! n = None := chan_ok_fresh E L n Hok.

Definition unlinked (e : Shape) : Prop :=
  match e with
  | ShClient r => r = Waiting
  | ShListener l => awaiting l = []
  | ShRoot => True
  end.

(** A new handle that is connected to nothing and awaited by nobody; a listener
    with a path is registered under a path that was free. *)
Lemma chan_ok_add e L' :
  n < usize_max → unlinked e →
  (∀ p i, L' !! p = Some i ↔
     L !! p = Some i ∨ (i = n ∧ ∃ l, e = ShListener l ∧ l_path l = Some p)) →
  chan_ok (<[n := e]> E) L' (n + 1).
Proof.
  intros Hn He HL. split.
  - pose proof (ok_next _ _ _ Hok). lia.
  - intros i e' Hi. pose proof (ok_next _ _ _ Hok). ins_cases; [lia|].
    match goal with H : E !! _ = _ |- _ => apply (ok_range _ _ _ Hok) in H end. lia.
  - intros i r Hi. apply lookup_insert_Some in Hi as [[-> ->]|[Hne Hi]]; [done|].
    apply (ok_mutual _ _ _ Hok) in Hi as [? Hi]. by rewrite lookup_insert_ne by congruence.
  - intros p i. rewrite HL, (ok_listen _ _ _ Hok). split.
    + intros [(l & Hl & Hp)|(-> & l & -> & Hp)]; exists l.
      * rewrite lookup_insert_ne by congruence. done.
      * by rewrite lookup_insert_eq.
    + intros (l & Hl & Hp). ins_cases; eauto.
  - intros i l r Hi Hr. ins_cases; [rewrite He in Hr; set_solver|].
    destruct (ok_await _ _ _ Hok i l r) as [Hlt Haw]; [done..|]. split; [lia|].
    intros e' He'. rewrite lookup_insert_ne in He' by lia. eauto.
  - intros i l Hi. ins_cases; [rewrite He; apply NoDup_nil_2|by eapply ok_await_nodup].
  - intros i j l l' r Hi Hj Hr Hr'. ins_cases; [done| | |by eapply ok_await_disj];
      rewrite He in *; set_solver.
Qed.

Lemma chan_ok_add_plain e :
  n < usize_max → unlinked e → (∀ l, e = ShListener l → l_path l = None) →
  chan_ok (<[n := e]> E) L (n + 1).
Proof.
  intros Hn He Hp. apply chan_ok_add; [done..|]. intros p i. split; [auto|].
  intros [?|(-> & l & -> & Hl)]; [done|]. rewrite Hp in Hl by done. done.
Qed.

Lemma chan_ok_add_listener p :
  n < usize_max → L !! p = None →
  chan_ok (<[n := ShListener (mk_listener (Some p) [])]> E) (<[p := n]> L) (n + 1).
Proof.
  intros Hn Hp. apply chan_ok_add; [done..|]. intros q i.
  rewrite lookup_insert_Some. split.
  - intros [[-> ->]|[? ?]]; [right|by left]. split; [done|]. by eexists.
  - intros [Hq|(-> & l & [= <-] & [= ->])]; [right|by left]. split; [congruence|done].
Qed.

(** A listener's queue changes; nothing else does. *)
Lemma chan_ok_await i l q :
  E !! i = Some (ShListener l) → NoDup q →
  (∀ r, r ∈ q → r ∈ awaiting l) →
  chan_ok (<[i := ShListener (mk_listener (l_path l) q)]> E) L n.
Proof.
  intros Hi Hnd Hsub.
  assert (∀ j e, (∀ l, e ≠ ShListener l) →
    <[i := ShListener (mk_listener (l_path l) q)]> E !! j = Some e ↔ E !! j = Some e) as Hother.
  { intros j e Hne. rewrite lookup_insert_Some.
    split; [intros [[_ <-]|[_ ?]]; [by edestruct Hne|done]|].
    intros Hj. right. split; [congruence|done]. }
  split.
  - apply Hok.
  - intros j e Hj. ins_cases; by eapply ok_range.
  - intros j r Hj. rewrite Hother in Hj by done. rewrite Hother by done.
    by apply (ok_mutual _ _ _ Hok).
  - intros p j. rewrite (ok_listen _ _ _ Hok). split.
    + intros (l' & Hl' & Hp). destruct (decide (i = j)) as [->|].
      * exists (mk_listener (l_path l) q). rewrite lookup_insert_eq.
        split; [done|]. by simplify_eq/=.
      * exists l'. by rewrite lookup_insert_ne.
    + intros (l' & Hl' & Hp). ins_cases; eauto.
  - intros j l' r Hj Hr.
    assert (r < n ∧ ∀ e, E !! r = Some e → e = ShClient Waiting) as [Hlt Hw].
    { ins_cases; [eapply (ok_await _ _ _ Hok); eauto|by eapply (ok_await _ _ _ Hok)]. }
    split; [done|]. intros e He.
    apply lookup_insert_Some in He as [[-> <-]|[? He]]; [by apply Hw in Hi|auto].
  - intros j l' Hj. ins_cases; [done|by eapply (ok_await_nodup _ _ _ Hok)].
  - intros j k l1 l2 r Hj Hk Hr1 Hr2.
    ins_cases; try done; eapply (ok_await_disj _ _ _ Hok); eauto.
Qed.

(** A fresh client queues up at listener [i]. *)
Lemma chan_ok_enqueue i l :
  n < usize_max → E !! i = Some (ShListener l) →
  chan_ok (<[n := ShClient Waiting]>
    (<[i := ShListener (mk_listener (l_path l) (awaiting l ++ [n]))]> E)) L (n + 1).
Proof.
  intros Hn Hi. pose proof (ok_next _ _ _ Hok) as Hnn.
  pose proof (ok_range _ _ _ Hok _ _ Hi) as Hin.
  assert (∀ j, j < n → ∀ e, (∀ l, e ≠ ShListener l) →
    <[n := ShClient Waiting]> (<[i := ShListener (mk_listener (l_path l) (awaiting l ++ [n]))]> E)
      !! j = Some e ↔ E !! j = Some e) as Hother.
  { intros j Hj e Hne. rewrite lookup_insert_ne by lia. rewrite lookup_insert_Some.
    split; [intros [[_ <-]|[_ ?]]; [by edestruct Hne|done]|].
    intros He. right. split; [congruence|done]. }
  assert (∀ j l', <[n := ShClient Waiting]>
      (<[i := ShListener (mk_listener (l_path l) (awaiting l ++ [n]))]> E) !! j
      = Some (ShListener l') →
    ∃ l0, E !! j = Some (ShListener l0) ∧ l_path l' = l_path l0 ∧
      (awaiting l' = awaiting l0 ∨ j = i ∧ awaiting l' = awaiting l0 ++ [n])) as Hlis.
  { intros j l' Hj. ins_cases; eauto 6. }
  assert (∀ j l0, E !! j = Some (ShListener l0) → n ∉ awaiting l0) as Hnot.
  { intros j l0 Hj Hin'. destruct (ok_await _ _ _ Hok j l0 n); [done..|lia]. }
  split.
  - lia.
  - intros j e Hj. ins_cases; [lia..|].
    match goal with H : E !! j = Some e |- _ => apply (ok_range _ _ _ Hok) in H end. lia.
  - intros j r Hj. apply lookup_insert_Some in Hj as [[_ [=]]|[Hne Hj]].
    apply lookup_insert_Some in Hj as [[_ [=]]|[Hne' Hj]].
    apply (ok_mutual _ _ _ Hok) in Hj as [? Hj]. split; [done|]. apply Hother; [|done..].
    apply (ok_range _ _ _ Hok) in Hj. lia.
  - intros p j. rewrite (ok_listen _ _ _ Hok). split.
    + intros (l' & Hl' & Hp). rewrite lookup_insert_ne by congruence.
      destruct (decide (i = j)) as [->|].
      * eexists. rewrite lookup_insert_eq. split; [done|]. by simplify_eq/=.
      * exists l'. by rewrite lookup_insert_ne.
    + intros (l' & Hl' & Hp). apply Hlis in Hl' as (l0 & ? & ? & _). exists l0. by split; congruence.
  - intros j l' r Hj Hr. apply Hlis in Hj as (l0 & Hj & _ & Haw).
    assert (r = n ∨ r ∈ awaiting l0) as [->|Hr'].
    { destruct Haw as [Haw|[_ Haw]]; rewrite Haw in Hr; [by right|].
      apply elem_of_snoc in Hr as [?| ->]; auto. }
    + split; [lia|]. intros e. rewrite lookup_insert_eq. by intros [= <-].
    + destruct (ok_await _ _ _ Hok j l0 r) as [Hlt Hw]; [done..|]. split; [lia|].
      intros e He. rewrite lookup_insert_ne in He by lia.
      apply lookup_insert_Some in He as [[-> <-]|[? ?]]; [|auto]. by apply Hw in Hi.
  - intros j l' Hj. apply Hlis in Hj as (l0 & Hj & _ & Haw).
    pose proof (ok_await_nodup _ _ _ Hok _ _ Hj) as Hnd. specialize (Hnot _ _ Hj).
    destruct Haw as [->|[_ ->]]; [done|]. by apply NoDup_snoc.
  - intros j k l1 l2 r Hj Hk Hr1 Hr2.
    apply Hlis in Hj as (l10 & Hj & _ & Haw1). apply Hlis in Hk as (l20 & Hk & _ & Haw2).
    pose proof (Hnot _ _ Hj). pose proof (Hnot _ _ Hk).
    destruct (decide (r = n)) as [->|Hrn].
    + destruct Haw1 as [Haw1|[-> _]]; [congruence|]. destruct Haw2 as [Haw2|[-> _]]; congruence.
    + eapply (ok_await_disj _ _ _ Hok j k l10 l20 r); [done..| |];
        [destruct Haw1 as [Haw|[_ Haw]]; rewrite Haw in Hr1; [done|];
         by apply elem_of_snoc in Hr1 as [?|?]
        |destruct Haw2 as [Haw|[_ Haw]]; rewrite Haw in Hr2; [done|];
         by apply elem_of_snoc in Hr2 as [?|?]].
Qed.

(** The awaited clients of every listener are those of [E]: used when only
    clients change. *)
Lemma chan_ok_reshape E' n' :
  n ≤ n' ≤ usize_max →
  (∀ i e, E' !! i = Some e → 0 ≤ i < n') →
  (∀ i r, E' !! i = Some (ShClient (Open r)) → r ≠ i ∧ E' !! r = Some (ShClient (Open i))) →
  (∀ i l, E' !! i = Some (ShListener l) ↔ E !! i = Some (ShListener l)) →
  (∀ i l r e, E !! i = Some (ShListener l) → r ∈ awaiting l → E' !! r = Some e →
     E !! r = Some e) →
  chan_ok E' L n'.
Proof.
  intros Hn Hrange Hmut Hlis Haw. split.
  - pose proof (ok_next _ _ _ Hok). lia.
  - done.
  - done.
  - intros p i. rewrite (ok_listen _ _ _ Hok). by setoid_rewrite Hlis.
  - intros i l r Hi Hr. apply Hlis in Hi.
    destruct (ok_await _ _ _ Hok i l r) as [? Hw]; [done..|]. split; [lia|]. eauto.
  - intros i l Hi. by apply Hlis, (ok_await_nodup _ _ _ Hok) in Hi.
  - intros i j l l' r Hi Hj. rewrite Hlis in Hi, Hj. by apply (ok_await_disj _ _ _ Hok).
Qed.

Lemma chan_ok_connect r :
  n < usize_max → E !! r = Some (ShClient Waiting) →
  (∀ i l, E !! i = Some (ShListener l) → r ∉ awaiting l) →
  chan_ok (<[n := ShClient (Open r)]> (<[r := ShClient (Open n)]> E)) L (n + 1).
Proof.
  intros Hn Hr Hfree. pose proof (ok_next _ _ _ Hok).
  pose proof (ok_range _ _ _ Hok _ _ Hr). apply chan_ok_reshape; [lia|..].
  - intros i e Hi. ins_cases; [lia..|].
    match goal with H : E !! i = Some e |- _ => apply (ok_range _ _ _ Hok) in H end. lia.
  - intros i q Hi.
    apply lookup_insert_Some in Hi as [[-> [= ->]]|[? Hi]].
    { split; [lia|]. rewrite lookup_insert_ne by lia. apply lookup_insert_eq. }
    apply lookup_insert_Some in Hi as [[-> [= ->]]|[? Hi]].
    { split; [lia|]. apply lookup_insert_eq. }
    apply (ok_mutual _ _ _ Hok) in Hi as [? Hi]. split; [done|].
    rewrite !lookup_insert_ne by congruence. done.
  - intros i l. rewrite !lookup_insert_Some. split; [naive_solver|].
    intros Hi. right. split; [congruence|]. right. split; [congruence|done].
  - intros i l q e Hi Hq He. destruct (ok_await _ _ _ Hok i l q) as [? Hw]; [done..|].
    apply lookup_insert_Some in He as [[-> _]|[? He]]; [lia|].
    apply lookup_insert_Some in He as [[-> _]|[? He]]; [|done].
    by destruct (Hfree _ _ Hi).
Qed.

Lemma chan_ok_disconnect i r :
  E !! i = Some (ShClient (Open r)) →
  chan_ok (<[r := ShClient Closed]> (<[i := ShClient Closed]> E)) L n.
Proof.
  intros Hi. destruct (ok_mutual _ _ _ Hok i r Hi) as [Hne Hr].
  pose proof (ok_next _ _ _ Hok). apply chan_ok_reshape; [lia|..].
  - intros j e Hj. ins_cases; by eapply (ok_range _ _ _ Hok).
  - intros j q Hj.
    apply lookup_insert_Some in Hj as [[_ [=]]|[? Hj]].
    apply lookup_insert_Some in Hj as [[_ [=]]|[? Hj]].
    apply (ok_mutual _ _ _ Hok) in Hj as [? Hj]. split; [done|].
    rewrite !lookup_insert_ne by congruence. done.
  - intros j l. rewrite !lookup_insert_Some. split; [naive_solver|].
    intros Hj. right. split; [congruence|]. right. split; [congruence|done].
  - intros j l q e Hj Hq He. destruct (ok_await _ _ _ Hok j l q) as [? Hw]; [done..|].
    apply lookup_insert_Some in He as [[-> _]|[? He]]; [by apply Hw in Hr|].
    apply lookup_insert_Some in He as [[-> _]|[? He]]; [by apply Hw in Hi|done].
Qed.

Lemma chan_ok_delete i L' :
  (∀ j, E !! j ≠ Some (ShClient (Open i))) →
  (∀ p j, L' !! p = Some j ↔ L !! p = Some j ∧ j ≠ i) →
  chan_ok (delete i E) L' n.
Proof.
  intros Hno HL. split.
  - apply Hok.
  - intros j e Hj. ins_cases. by eapply (ok_range _ _ _ Hok).
  - intros j r Hj. ins_cases. destruct (ok_mutual _ _ _ Hok j r) as [? Hr]; [done|].
    split; [done|]. rewrite lookup_delete_ne by (intros ->; by eapply Hno). done.
  - intros p j. rewrite HL, (ok_listen _ _ _ Hok). setoid_rewrite lookup_delete_Some.
    naive_solver.
  - intros j l r Hj Hr. ins_cases. destruct (ok_await _ _ _ Hok j l r) as [? Hw]; [done..|].
    split; [done|]. intros e He. ins_cases. eauto.
  - intros j l Hj. ins_cases. by eapply (ok_await_nodup _ _ _ Hok).
  - intros j k l l' r Hj Hk. ins_cases. by eapply (ok_await_disj _ _ _ Hok).
Qed.
End Transitions.

(** ** Every operation keeps the invariant and does not panic *)

Create Rewrite HintDb chan_db.

Lemma shapes_insert i h s :
  shapes (set_handles (insert i h) s) = <[i := shape_of h]> (shapes s).
Proof. apply fmap_insert. Qed.

Lemma shapes_delete i s : shapes (set_handles (delete i) s) = delete i (shapes s).
Proof. apply fmap_delete. Qed.

Lemma shapes_lookup i h s :
  handles s !! i = Some h → shapes s !! i = Some (shape_of h).
Proof. intros Hi. unfold shapes. by rewrite lookup_fmap, Hi. Qed.
#[export] Hint Rewrite shapes_insert shapes_delete : chan_db.

(** Replacing a handle by one of the same shape. *)
Lemma shapes_same i h h' s :
  handles s !! i = Some h → shape_of h' = shape_of h →
  shapes (set_handles (insert i h') s) = shapes s.
Proof.
  intros Hi Hsh. rewrite shapes_insert, Hsh. apply insert_id. by apply shapes_lookup.
Qed.

Inductive chan_op :=
  | OpRoot
  | OpOpenat (dirfd : Z) (p : string) (fl : Z)
  | OpDup (id : Z) (buf : bytes)
  | OpWrite (id : Z) (buf : bytes) (fl : Z)
  | OpRead (id : Z) (buf : bytes) (fl : Z)
  | OpFcntl (id cmd arg : Z)
  | OpFevent (id : Z)
  | OpFsync (id : Z)
  | OpClose (id : Z).

Section Safety.
Context `{SyscallAbi} (write_response : list (Z * Z) → Z * Z → errno + bool).

(** The answer of an operation, without its value. *)
Definition chan_step (op : chan_op) : comp ChanScheme unit :=
  match op with
  | OpRoot => scheme_root;; mret tt
  | OpOpenat dirfd p fl => openat write_response dirfd p fl;; mret tt
  | OpDup id buf => dup write_response id buf;; mret tt
  | OpWrite id buf fl => write write_response id buf fl;; mret tt
  | OpRead id buf fl => read id buf fl;; mret tt
  | OpFcntl id cmd arg => fcntl id cmd arg;; mret tt
  | OpFevent id => fevent id;; mret tt
  | OpFsync id => fsync id
  | OpClose id => on_close write_response id
  end.

(** The scheme socket accepts every event. *)
Definition reliable : Prop := ∀ hist ev, write_response hist ev = inr true.

(** [OnClose] is sent for open descriptors only. *)
Definition allowed (op : chan_op) (s : ChanScheme) : Prop :=
  match op with OpClose id => is_Some (handles s !! id) | _ => True end.

Context (Hrel : reliable).

Lemma wp_post_fevent id evs (Q : outcome unit → ChanScheme → Prop) s :
  Q (Ok tt) (mk_chan (handles s) (listeners s) (next_id s) (posted s ++ [(id, evs)])) →
  wp (post_fevent write_response id evs) Q s.
Proof. intros HQ. unfold post_fevent. do 4 wp_step. rewrite Hrel. by wp_go. Qed.

Lemma wp_bump (Q : outcome unit → ChanScheme → Prop) s :
  next_id s < usize_max → Q (Ok tt) (set_next_id (next_id s + 1) s) →
  wp bump_next_id Q s.
Proof.
  intros Hn HQ. unfold bump_next_id. do 3 wp_step. apply wp_add_usize; [lia|]. by wp_go.
Qed.

(** What every operation guarantees. *)
Definition good (n : Z) {A} (r : outcome A) (s' : ChanScheme) : Prop :=
  r ≠ Panic ∧ chan_inv s' ∧ next_id s' ≤ n + 1.

Lemma chan_good_err {A} n e s : chan_inv s → next_id s = n → good n (Err e : outcome A) s.
Proof. intros ? <-. split_and!; [done..|lia]. Qed.

Lemma open_good p fl s :
  chan_inv s → next_id s < usize_max → wp (open write_response p fl) (good (next_id s)) s.
Proof.
  intros Hinv Hn. unfold open. do 5 wp_step.
  destruct (has_flag fl O_CREAT && bool_decide (listeners s !! p = None)) eqn:Hc.
  - apply andb_prop in Hc as [_ Hp%bool_decide_eq_true].
    case_bool_decide; wp_go; apply wp_bump; cbn; try done; wp_go.
    + split_and!; [done| |cbn; lia]. unfold chan_inv. cbn. rewrite fmap_insert.
      apply (chan_ok_add_plain _ _ _ Hinv); [done..|]. by intros l [= <-].
    + split_and!; [done| |cbn; lia]. unfold chan_inv. cbn. rewrite fmap_insert.
      by apply (chan_ok_add_listener _ _ _ Hinv).
  - destruct (has_flag fl O_CREAT && has_flag fl O_EXCL); wp_go.
    { by apply chan_good_err. }
    + destruct (proj1 (ok_listen _ _ _ Hinv p z) Heqo) as (l & Hl & _).
      unfold shapes in Hl. rewrite lookup_fmap, Heqo0 in Hl. cbn in Hl.
      unfold handle_connect, shape_of in *.
      destruct (extra h) as [c|l'|] eqn:He; simplify_eq/=.
      wp_go. apply wp_post_fevent. wp_go. apply wp_bump; [done|]. wp_go.
      split_and!; [done| |cbn; lia]. unfold chan_inv. cbn. rewrite !fmap_insert.
      apply (chan_ok_enqueue _ _ _ Hinv); [done|].
      apply shapes_lookup in Heqo0. by rewrite Heqo0; unfold shape_of; rewrite He.
    + destruct (proj1 (ok_listen _ _ _ Hinv p z) Heqo) as (l & Hl & _).
      unfold shapes in Hl. rewrite lookup_fmap, Heqo0 in Hl. done.
    + by apply chan_good_err.
Qed.

Lemma chan_inv_pop id h l q rest s :
  chan_inv s → handles s !! id = Some h → extra h = ExListener l →
  awaiting l = q :: rest →
  let s' := set_handles (insert id
    (set_extra (ExListener (mk_listener (l_path l) rest)) h)) s in
  chan_inv s' ∧ ∀ j l', shapes s' !! j = Some (ShListener l') → q ∉ awaiting l'.
Proof.
  intros Hinv Hh He Hq s'.
  assert (shapes s' = <[id := ShListener (mk_listener (l_path l) rest)]> (shapes s)) as Hs'
    by apply shapes_insert.
  assert (shapes s !! id = Some (ShListener l)) as Hs.
  { rewrite (shapes_lookup _ _ _ Hh). unfold shape_of. by rewrite He. }
  pose proof (ok_await_nodup _ _ _ Hinv _ _ Hs) as Hnd. rewrite Hq in Hnd.
  apply NoDup_cons in Hnd as [Hnotin Hnd].
  unfold chan_inv. rewrite Hs'. split.
  - apply (chan_ok_await _ _ _ Hinv); [done..|]. intros r Hr. rewrite Hq. by right.
  - intros j l' Hj Hin. apply lookup_insert_Some in Hj as [[-> Hj]|[Hne Hj]].
    + by simplify_eq/=.
    + apply Hne. eapply (ok_await_disj _ _ _ Hinv); [exact Hs|exact Hj| |exact Hin].
      rewrite Hq. by left.
Qed.

Lemma dup_listen_good fuel id s :
  chan_inv s → next_id s < usize_max → (awaiting_len s id < fuel)%nat →
  wp (dup_listen write_response fuel id) (good (next_id s)) s.
Proof.
  revert s. induction fuel as [|fuel IH]; intros s Hinv Hn Hfuel; [lia|]. cbn.
  wp_step. wp_step. wp_step. wp_step; [|by apply chan_good_err]. rename Heqo into Hh.
  unfold require_listener. wp_step. wp_step.
  destruct (extra h) as [c|l|] eqn:He; cbv beta iota; [by apply chan_good_err| |by apply chan_good_err].
  destruct (awaiting l) as [|q rest] eqn:Hq.
  { destruct (has_flag _ _); wp_go; [|by apply chan_good_err]. split_and!; [done..|lia]. }
  destruct (chan_inv_pop _ _ _ _ _ _ Hinv Hh He Hq) as [Hinv1 Hfree].
  do 6 wp_step. cbn [handles next_id set_handles].
  set (s1 := set_handles _ s) in *.
  match goal with |- wp (match ?x with _ => _ end) _ _ => change x with (handles s1 !! q) end.
  destruct (handles s1 !! q) as [rem|] eqn:Hrem.
  2:{ apply (IH s1); [done..|]. unfold awaiting_len in *. cbn. rewrite lookup_insert_eq.
      rewrite Hh in Hfuel. destruct h as [hf hx hp]; cbn in *. subst hx.
      rewrite Hq in Hfuel. cbn in *. lia. }
  assert (extra rem = ExClient (mk_client (match extra rem with ExClient c => buffer c | _ => [] end)
    Waiting)) as Hx.
  { apply shapes_lookup in Hrem as Hsh.
    assert (shape_of rem = ShClient Waiting) as Hw.
    { destruct (ok_await _ _ _ Hinv id l q) as [_ Hw].
      - rewrite (shapes_lookup _ _ _ Hh). unfold shape_of. by rewrite He.
      - rewrite Hq. by left.
      - apply Hw. unfold s1 in Hsh. rewrite shapes_insert in Hsh.
        apply lookup_insert_Some in Hsh as [[-> Hsh]|[? Hsh]]; [|done].
        exfalso. rewrite (shapes_lookup _ _ _ Hh) in Hw. unfold shape_of in Hw.
        rewrite He in Hw. by specialize (Hw _ eq_refl). }
    unfold shape_of in Hw. destruct (extra rem) as [[b r]| |]; by simplify_eq/=. }
  rewrite Hx. wp_step. wp_step. wp_step. apply wp_post_fevent. wp_go.
  apply wp_bump; [done|]. wp_go. split_and!; [done| |cbn; lia].
  unfold chan_inv. cbn. rewrite !fmap_insert.
  change (<[id:=shape_of _]> (shape_of <$> handles s)) with (<[id:=shape_of
    (set_extra (ExListener (mk_listener (l_path l) rest)) h)]> (shapes s)).
  rewrite <- shapes_insert. fold s1.
  apply (chan_ok_connect _ _ _ Hinv1); [done| |done].
  rewrite (shapes_lookup _ _ _ Hrem). unfold shape_of. by rewrite Hx.
Qed.

Lemma dup_connect_good id s :
  chan_inv s → next_id s < usize_max → wp (dup_connect write_response id) (good (next_id s)) s.
Proof.
  intros Hinv Hn. unfold dup_connect. do 5 wp_step. wp_step; [|by apply chan_good_err].
  rename Heqo into Hh. unfold require_listener, handle_connect.
  destruct (extra h) as [c|l|] eqn:He; wp_go; try by apply chan_good_err.
  apply wp_post_fevent. wp_go. apply wp_bump; [done|]. wp_go.
  split_and!; [done| |cbn; lia]. unfold chan_inv. cbn. rewrite !fmap_insert.
  apply (chan_ok_enqueue _ _ _ Hinv); [done|].
  rewrite (shapes_lookup _ _ _ Hh). unfold shape_of. by rewrite He.
Qed.

Lemma chan_dup_good id buf s :
  chan_inv s → next_id s < usize_max → wp (dup write_response id buf) (good (next_id s)) s.
Proof.
  intros Hinv Hn. unfold dup. repeat case_bool_decide.
  - do 2 wp_step. apply dup_listen_good; [done..|lia].
  - by apply dup_connect_good.
  - unfold dup_named. case_bool_decide; [by apply chan_good_err|].
    wp_step. wp_step; [|by apply chan_good_err]. wp_step. wp_step. wp_step.
    wp_step; [|by apply chan_good_err]. case_bool_decide; [by apply chan_good_err|].
    destruct (extra h); [by apply open_good..|by apply chan_good_err].
Qed.

(** Updating the handle [i] without changing its shape. *)
Lemma good_same {A} (a : A) i h h' s s' :
  handles s' = <[i := h']> (handles s) → listeners s' = listeners s → next_id s' = next_id s →
  chan_inv s → handles s !! i = Some h → shape_of h' = shape_of h →
  good (next_id s) (Ok a) s'.
Proof.
  intros Hh Hl Hn Hinv Hi Hsh. split_and!; [done| |lia].
  unfold chan_inv, shapes. rewrite Hh, Hl, Hn.
  change (shape_of <$> <[i := h']> (handles s)) with (shapes (set_handles (insert i h') s)).
  by rewrite (shapes_same _ h).
Qed.

(** The other end of a connection is there. *)
Lemma chan_inv_remote id h c r s :
  chan_inv s → handles s !! id = Some h → extra h = ExClient c → remote c = Open r →
  ∃ h' c', r ≠ id ∧ handles s !! r = Some h' ∧ extra h' = ExClient c' ∧ remote c' = Open id.
Proof.
  intros Hinv Hh He Hr. destruct (ok_mutual _ _ _ Hinv id r) as [Hne Hmut].
  { rewrite (shapes_lookup _ _ _ Hh). unfold shape_of. by rewrite He, Hr. }
  apply lookup_fmap_Some in Hmut as (h' & Hsh & Hh'). unfold shape_of in Hsh.
  destruct (extra h') as [c'| |] eqn:He'; simplify_eq/=. eauto 8.
Qed.

Lemma chan_write_good id buf fl s :
  chan_inv s → wp (write write_response id buf fl) (good (next_id s)) s.
Proof.
  intros Hinv. unfold write. do 3 wp_step. wp_step; [|by apply chan_good_err]. rename Heqo into Hh.
  unfold require_client.
  destruct (extra h) as [c|l|] eqn:He; wp_step; wp_step; try by apply chan_good_err.
  destruct (remote c) as [|r|] eqn:Hr;
    [by destruct (has_flag _ _); apply chan_good_err| |by apply chan_good_err].
  destruct (chan_inv_remote _ _ _ _ _ Hinv Hh He Hr) as (h' & c' & _ & Hh' & He' & Hr').
  wp_step. rewrite Hh'. wp_step. rewrite He'. wp_step. wp_step. wp_step.
  assert (∀ post, good (next_id s) (Ok (Z.of_nat (length buf)))
    (mk_chan (<[r := set_extra (ExClient (mk_client (buffer c' ++ buf) (remote c'))) h']>
       (handles s)) (listeners s) (next_id s) post)) as Hgood.
  { intros post. eapply (good_same _ r h'); try done. unfold shape_of. cbn. by rewrite He'. }
  case_bool_decide; [apply wp_post_fevent|]; wp_go; apply Hgood.
Qed.

Lemma chan_read_good id buf fl s : chan_inv s → wp (read id buf fl) (good (next_id s)) s.
Proof.
  intros Hinv. unfold read. do 3 wp_step. wp_step; [|by apply chan_good_err]. rename Heqo into Hh.
  unfold require_client.
  destruct (extra h) as [c|l|] eqn:He; wp_step; wp_step; try by apply chan_good_err.
  destruct (negb _).
  - wp_go. eapply (good_same _ id h); try done. unfold shape_of. cbn. by rewrite He.
  - destruct (remote c); wp_go; try case_match; try by apply chan_good_err.
    split_and!; [done..|lia].
Qed.

Lemma chan_on_close_good id s :
  chan_inv s → is_Some (handles s !! id) → wp (on_close write_response id) (good (next_id s)) s.
Proof.
  intros Hinv [h Hh]. unfold on_close. do 3 wp_step. rewrite Hh. do 3 wp_step.
  pose proof (shapes_lookup _ _ _ Hh) as Hs. unfold shape_of in Hs.
  assert (∀ L', match extra h with ExClient c => ∀ r, remote c ≠ Open r | _ => True end →
    (∀ p j, L' !! p = Some j ↔ listeners s !! p = Some j ∧ j ≠ id) →
    chan_ok (delete id (shapes s)) L' (next_id s)) as Hdel.
  { intros L' Hnc HL. apply (chan_ok_delete _ _ _ Hinv); [|done]. intros j Hj.
    apply (ok_mutual _ _ _ Hinv) in Hj as [_ Hj]. rewrite Hs in Hj.
    destruct (extra h); simplify_eq/=. by eapply Hnc. }
  assert (match extra h with ExListener _ => False | _ => True end →
    ∀ p j, listeners s !! p = Some j ↔ listeners s !! p = Some j ∧ j ≠ id) as HL.
  { intros Hnl p j. split; [|naive_solver]. intros Hj. split; [done|]. intros ->.
    apply (ok_listen _ _ _ Hinv) in Hj as (l & Hl & _). rewrite Hs in Hl.
    by destruct (extra h). }
  destruct (extra h) as [c|l|] eqn:He.
  - destruct (remote c) as [|r|] eqn:Hr; cbn in Hs.
    + wp_go. split_and!; [done| |cbn; lia]. unfold chan_inv. rewrite shapes_delete. cbn.
      apply Hdel; [congruence|auto].
    + destruct (chan_inv_remote _ _ _ _ _ Hinv Hh He Hr) as (h' & c' & Hne & Hh' & He' & Hr').
      wp_step. wp_step. wp_step. cbn. rewrite lookup_delete_ne by done. rewrite Hh'. wp_step.
      rewrite He'. wp_step. wp_step.
      set (h1 := set_extra (ExClient (mk_client (buffer c') Closed)) h').
      assert (∀ post, good (next_id s) (Ok tt) (mk_chan (<[r := h1]> (delete id (handles s)))
        (listeners s) (next_id s) post)) as Hgood.
      { intros post. split_and!; [done| |cbn; lia]. unfold chan_inv, shapes. cbn.
        rewrite fmap_insert, fmap_delete.
        replace (<[r := shape_of h1]> (delete id (shape_of <$> handles s))) with
          (delete id (<[r := ShClient Closed]> (<[id := ShClient Closed]> (shapes s)))).
        2:{ rewrite delete_insert_ne by done. rewrite delete_insert_eq. done. }
        pose proof (chan_ok_disconnect _ _ _ Hinv _ _ Hs) as Hdis.
        apply (chan_ok_delete _ _ _ Hdis); [|auto].
        intros j Hj. apply (ok_mutual _ _ _ Hdis) in Hj as [_ Hj].
        rewrite lookup_insert_ne, lookup_insert_eq in Hj by done. done. }
      case_bool_decide; [|wp_go; apply Hgood].
      wp_step. apply wp_post_fevent. apply Hgood.
    + wp_go. split_and!; [done| |cbn; lia]. unfold chan_inv. rewrite shapes_delete. cbn.
      apply Hdel; [congruence|auto].
  - assert (∀ p, l_path l = Some p ↔ listeners s !! p = Some id) as Hlp.
    { intros p. rewrite (ok_listen _ _ _ Hinv), Hs. naive_solver. }
    destruct (l_path l) as [p|] eqn:Hp; wp_go; (split_and!; [done| |cbn; lia]);
      unfold chan_inv, shapes; cbn; rewrite fmap_delete; apply Hdel; try done.
    + intros q j. rewrite lookup_delete_Some. specialize (Hlp p) as Hp1.
      split.
      * intros [Hne Hj]. split; [done|]. intros ->. apply Hlp in Hj. congruence.
      * intros [Hj Hne]. split; [|done]. intros ->. naive_solver.
    + intros q j. split; [|naive_solver]. intros Hj. split; [done|]. intros ->.
      apply Hlp in Hj. done.
  - wp_go. split_and!; [done| |cbn; lia]. unfold chan_inv. rewrite shapes_delete. cbn.
    apply Hdel; auto.
Qed.

Lemma chan_step_good op s :
  chan_inv s → next_id s < usize_max → allowed op s → wp (chan_step op) (good (next_id s)) s.
Proof.
  intros Hinv Hn Hal.
  assert (∀ A (m : comp ChanScheme A), wp m (good (next_id s)) s →
    wp (m;; mret tt) (good (next_id s)) s) as Hseq.
  { intros A m Hm. wp_step. eapply wp_mono; [exact Hm|].
    intros [a|e|] s' (? & ? & ?); cbn; [wp_go; by split_and!|by split_and!|done]. }
  destruct op; cbn [chan_step]; [apply Hseq..| |by apply chan_on_close_good].
  - unfold scheme_root. do 3 wp_step. apply wp_bump; [done|]. wp_go.
    split_and!; [done| |cbn; lia]. unfold chan_inv, shapes. cbn. rewrite fmap_insert.
    by apply (chan_ok_add_plain _ _ _ Hinv).
  - unfold openat. do 3 wp_step. wp_step; [|by apply chan_good_err].
    destruct (extra h); [by apply chan_good_err..|by apply open_good].
  - by apply chan_dup_good.
  - by apply chan_write_good.
  - by apply chan_read_good.
  - unfold fcntl. do 3 wp_step. wp_step; [|by apply chan_good_err]. repeat case_bool_decide; wp_go.
    + split_and!; [done..|lia].
    + by eapply (good_same _ id h).
    + by apply chan_good_err.
  - unfold fevent. do 3 wp_step. wp_step; [|by apply chan_good_err]. wp_go. split_and!; [done..|lia].
  - unfold fsync. do 3 wp_step. wp_step; [|by apply chan_good_err].
    wp_go. split_and!; [done..|lia].
Qed.

(** States after [k] requests. *)
Inductive reachable : nat → ChanScheme → Prop :=
  | reach_init : reachable 0 chan_new
  | reach_step k s op r s' :
     reachable k s → allowed op s → chan_step op s = (r, s') → reachable (S k) s'.

Lemma reachable_inv k s :
  reachable k s → Z.of_nat k ≤ usize_max → chan_inv s ∧ next_id s ≤ Z.of_nat k.
Proof.
  induction 1 as [|k s op r s' _ IH Hal Hstep]; intros Hk.
  - split; [apply chan_ok_new|done].
  - destruct IH as [Hinv Hn]; [lia|].
    pose proof (wp_eq _ _ _ _ _ Hstep (chan_step_good op s Hinv ltac:(lia) Hal)) as (_ & ? & ?).
    split; [done|lia].
Qed.
End Safety.

(** C8. Safety of the channel scheme.  As long as the scheme socket accepts the
    events, fewer than 2^64 requests in any order never make the daemon panic:
    the [unwrap] on the remote end of a connection, "orphan listener left over",
    "newly created handle can't possibly be a listener" and the other [panic!]s
    are unreachable, and every connection stays mutual. *)
Theorem chan_never_panics `{SyscallAbi} write_response k s op :
  reliable write_response →
  reachable write_response k s → Z.of_nat k < usize_max → allowed op s →
  (chan_step write_response op s).1 ≠ Panic ∧ chan_inv s.
Proof.
  intros Hrel Hreach Hk Hal. destruct (reachable_inv _ Hrel _ _ Hreach) as [Hinv Hn]; [lia|].
  split; [|done]. apply (chan_step_good _ Hrel op s Hinv); [lia|done].
Qed.

Definition socket_ok (hist : list (Z * Z)) (ev : Z * Z) : errno + bool := inr true.

Definition one_root : ChanScheme := (chan_step (H := redox_abi) socket_ok OpRoot chan_new).2.

Lemma chan_never_panics_witness :
  (chan_step (H := redox_abi) socket_ok (OpOpenat 0 "x" 0x2000000) one_root).1 ≠ Panic ∧
  chan_inv one_root.
Proof.
  apply (chan_never_panics (H := redox_abi) socket_ok 1 one_root (OpOpenat 0 "x" 0x2000000)).
  - intros hist ev. reflexivity.
  - eapply (reach_step socket_ok 0 chan_new OpRoot); [constructor|exact I|reflexivity].
  - reflexivity.
  - exact I.
Defined.

(** ** The byte stream of a connection *)

(** [a] and [b] are connected and [buf] is what [b] has not read yet. *)
Definition connected (a b : Z) (buf : bytes) (s : ChanScheme) : Prop :=
  ∃ ha ca hb cb, a ≠ b ∧
    handles s !! a = Some ha ∧ extra ha = ExClient ca ∧ remote ca = Open b ∧
    handles s !! b = Some hb ∧ extra hb = ExClient cb ∧ remote cb = Open a ∧ buffer cb = buf.

(** [b] is a client whose peer is gone, with [buf] left to read. *)
Definition half_closed (b : Z) (buf : bytes) (s : ChanScheme) : Prop :=
  ∃ hb cb, handles s !! b = Some hb ∧ extra hb = ExClient cb ∧
    remote cb = Closed ∧ buffer cb = buf.

Inductive stream_op := SWrite (data : bytes) | SRead (n : nat).

Section Stream.
Context `{SyscallAbi} (write_response : list (Z * Z) → Z * Z → errno + bool).

(** Writes at [a] and reads at [b]: the bytes accepted and the bytes delivered. *)
Fixpoint stream_run (a b : Z) (ops : list stream_op) : comp ChanScheme (bytes * bytes) :=
  match ops with
  | [] => mret ([], [])
  | SWrite data :: ops =>
     n ← write write_response a data 0;
     '(w, r) ← stream_run a b ops;
     mret (take (Z.to_nat n) data ++ w, r)
  | SRead n :: ops =>
     got ← attempt (read b (replicate n 0) 0);
     '(w, r) ← stream_run a b ops;
     mret (w, match got with Some (k, out) => take (Z.to_nat k) out | None => [] end ++ r)
  end.

Context (Hrel : reliable write_response).

Lemma write_connected a b buf data fl s :
  connected a b buf s →
  wp (write write_response a data fl)
    (λ r s', r = Ok (Z.of_nat (length data)) ∧ connected a b (buf ++ data) s') s.
Proof.
  intros (ha & ca & hb & cb & Hab & Ha & Hea & Hra & Hb & Heb & Hrb & Hbuf).
  unfold write. do 3 wp_step. rewrite Ha. wp_step. unfold require_client. rewrite Hea.
  wp_step. wp_step. rewrite Hra. wp_step. rewrite Hb. wp_step. rewrite Heb. do 3 wp_step.
  assert (∀ post, connected a b (buf ++ data) (mk_chan
    (<[b := set_extra (ExClient (mk_client (buffer cb ++ data) (remote cb))) hb]> (handles s))
    (listeners s) (next_id s) post)) as Hcon.
  { intros post. exists ha, ca. eexists _, _. cbn. split_and!; [done| |done..| | | |].
    - by rewrite lookup_insert_ne.
    - apply lookup_insert_eq.
    - done.
    - done.
    - cbn. by rewrite Hbuf. }
  case_bool_decide; [apply (wp_post_fevent _ Hrel)|]; wp_go; (split; [done|apply Hcon]).
Qed.

Lemma read_client b hb cb out fl s :
  handles s !! b = Some hb → extra hb = ExClient cb → buffer cb ≠ [] →
  let k := Nat.min (length out) (length (buffer cb)) in
  read b out fl s =
    (Ok (Z.of_nat k, copy_at out 0 (take k (buffer cb))),
     set_handles (insert b
       (set_extra (ExClient (mk_client (drop k (buffer cb)) (remote cb))) hb)) s).
Proof.
  intros Hb Heb Hne k. unfold read, mbind, comp_bind, gets, lift, ok_or, require_client.
  rewrite Hb. unfold mret, comp_ret. rewrite Heb. by rewrite bool_decide_eq_false_2.
Qed.

Lemma read_connected a b buf n s :
  connected a b buf s →
  wp (attempt (read b (replicate n 0) 0)) (λ r s', ∃ got, r = Ok got ∧
    let out := match got with Some (k, out) => take (Z.to_nat k) out | None => [] end in
    ∃ rest, out ++ rest = buf ∧ connected a b rest s') s.
Proof.
  intros (ha & ca & hb & cb & Hab & Ha & Hea & Hra & Hb & Heb & Hrb & Hbuf).
  unfold wp, attempt. destruct (decide (buffer cb = [])) as [Hnil|Hne].
  - unfold read, mbind, comp_bind, gets, lift, ok_or, require_client, mret, comp_ret, fail.
    rewrite Hb. unfold mret, comp_ret. rewrite Heb, Hnil, Hrb. cbn.
    exists None. destruct (has_flag 0 O_NONBLOCK); cbn; (split; [done|]); exists buf; (split; [done|]);
      by exists ha, ca, hb, cb.
  - rewrite (read_client b hb cb) by done. cbn. eexists (Some _). split; [done|].
    rewrite length_replicate. set (k := Nat.min n (length (buffer cb))).
    exists (drop k (buffer cb)). split.
    + rewrite Nat2Z.id. unfold copy_at. cbn. rewrite take_0, app_nil_l, take_app_le by (rewrite length_take; unfold k; lia).
      by rewrite take_take, Nat.min_id, take_drop.
    + exists ha, ca. eexists _, _. cbn. split_and!; [done| |done..| | | |].
      * by rewrite lookup_insert_ne.
      * apply lookup_insert_eq.
      * done.
      * done.
      * done.
Qed.

Lemma stream_run_fifo a b ops buf s :
  connected a b buf s →
  wp (stream_run a b ops) (λ r s', ∃ w rd rest, r = Ok (w, rd) ∧
    w = concat (omap (λ o, match o with SWrite d => Some d | SRead _ => None end) ops) ∧
    rd ++ rest = buf ++ w ∧ connected a b rest s') s.
Proof.
  revert buf s. induction ops as [|[data|n] ops IH]; intros buf s Hcon; cbn [stream_run].
  - wp_go. exists [], [], buf. by rewrite app_nil_r.
  - wp_step. eapply wp_mono; [by apply write_connected|]. cbn.
    intros r s' [-> Hcon']. wp_step. eapply wp_mono; [by apply IH|]. cbn.
    intros r s'' (w & rd & rest & -> & -> & Heq & Hcon''). wp_go.
    rewrite Nat2Z.id, take_ge by lia. eexists _, rd, rest. split_and!; [done..| |done].
    by rewrite Heq, app_assoc.
  - wp_step. eapply wp_mono; [by apply read_connected|]. cbn.
    intros r s' (got & -> & rest & <- & Hcon'). wp_step. eapply wp_mono; [by apply IH|]. cbn.
    intros r s'' (w & rd & rest' & -> & -> & Heq & Hcon''). wp_go.
    eexists _, _, rest'. split_and!; [done..| |done].
    by rewrite <- !app_assoc, Heq.
Qed.

Lemma close_connected a b buf s :
  connected a b buf s →
  wp (on_close write_response a)
    (λ r s', r = Ok tt ∧ handles s' !! a = None ∧ half_closed b buf s') s.
Proof.
  intros (ha & ca & hb & cb & Hab & Ha & Hea & Hra & Hb & Heb & Hrb & Hbuf).
  unfold on_close. do 3 wp_step. rewrite Ha. do 3 wp_step. rewrite Hea, Hra.
  wp_step. wp_step. cbn. wp_step. rewrite lookup_delete_ne by done. rewrite Hb. wp_step.
  rewrite Heb. wp_step. wp_step.
  case_bool_decide; [wp_step; apply (wp_post_fevent _ Hrel)|wp_go];
    (split_and!; [done|cbn; by rewrite lookup_insert_ne, lookup_delete_eq|]);
    (eexists _, _; split_and!; [apply lookup_insert_eq|reflexivity|reflexivity|done]).
Qed.

Lemma half_closed_write b buf data fl s :
  half_closed b buf s → write write_response b data fl s = (Err EPIPE, s).
Proof.
  intros (hb & cb & Hb & Heb & Hrb & Hbuf).
  unfold write, mbind, comp_bind, gets, lift, ok_or, require_client, mret, comp_ret, fail.
  rewrite Hb. unfold mret, comp_ret. by rewrite Heb, Hrb.
Qed.

Lemma half_closed_read b buf out fl s :
  half_closed b buf s →
  let k := Nat.min (length out) (length buf) in
  ∃ s', read b out fl s = (Ok (Z.of_nat k, copy_at out 0 (take k buf)), s') ∧
    half_closed b (drop k buf) s'.
Proof.
  intros (hb & cb & Hb & Heb & Hrb & <-) k.
  destruct (decide (buffer cb = [])) as [Hnil|Hne].
  - exists s. split; [|exists hb, cb; split_and!; [done..|by rewrite Hnil, drop_nil]].
    unfold read, mbind, comp_bind, gets, lift, ok_or, require_client, mret, comp_ret, fail.
    rewrite Hb. unfold mret, comp_ret. rewrite Heb, Hrb. unfold k. rewrite Hnil. cbn [length].
    by rewrite Nat.min_0_r, take_0, copy_at_nil.
  - eexists. rewrite (read_client b hb cb) by done. split; [done|].
    eexists _, _. cbn. split_and!; [apply lookup_insert_eq|done..].
Qed.
End Stream.

(** A connection is a FIFO byte stream.  For any interleaving of writes at one
    end and reads of any size at the other, every write is accepted in full, and
    the bytes delivered followed by the bytes still buffered are the bytes that
    were buffered at the start followed by the bytes written: nothing is lost,
    duplicated or reordered. *)
Theorem chan_fifo `{SyscallAbi} write_response a b buf s ops :
  reliable write_response → connected a b buf s →
  ∃ written delivered rest s',
    stream_run write_response a b ops s = (Ok (written, delivered), s') ∧
    written = concat (omap (λ o, match o with SWrite d => Some d | SRead _ => None end) ops) ∧
    delivered ++ rest = buf ++ written ∧ connected a b rest s'.
Proof.
  intros Hrel Hcon. pose proof (stream_run_fifo _ Hrel _ _ ops _ _ Hcon) as Hrun.
  unfold wp in Hrun. destruct (stream_run write_response a b ops s) as [r s'].
  cbn in Hrun. destruct Hrun as (w & rd & rest & -> & ? & ? & ?). eauto 8.
Qed.

(** End of file.  When one end of a connection closes, the other end can read
    what is buffered, in order and in pieces of any size; once it is drained every
    read returns 0 bytes, and every write fails with [EPIPE]. *)
Theorem chan_close_eof `{SyscallAbi} write_response a b buf s :
  reliable write_response → connected a b buf s →
  ∃ s1, on_close write_response a s = (Ok tt, s1) ∧ handles s1 !! a = None ∧
    (∀ data fl, write write_response b data fl s1 = (Err EPIPE, s1)) ∧
    (∀ out fl, let k := Nat.min (length out) (length buf) in
       ∃ s2, read b out fl s1 = (Ok (Z.of_nat k, copy_at out 0 (take k buf)), s2) ∧
         half_closed b (drop k buf) s2 ∧
         ((length buf ≤ length out)%nat → ∀ out', ∃ s3, read b out' fl s2 = (Ok (0, out'), s3))).
Proof.
  intros Hrel Hcon. pose proof (close_connected _ Hrel _ _ _ _ Hcon) as Hc. unfold wp in Hc.
  destruct (on_close write_response a s) as [r s1]. cbn in Hc. destruct Hc as (-> & Ha & Hhalf).
  exists s1. split_and!; [done..| |].
  - intros data fl. by eapply half_closed_write.
  - intros out fl k. destruct (half_closed_read b buf out fl s1 Hhalf) as (s2 & Hread & Hhalf2).
    exists s2. split_and!; [done..|]. intros Hle out'.
    fold k in Hhalf2. rewrite drop_ge in Hhalf2 by (unfold k; lia).
    destruct (half_closed_read b [] out' fl s2 Hhalf2) as (s3 & Hread3 & _). exists s3.
    cbn [length] in Hread3. by rewrite Nat.min_0_r, take_0, copy_at_nil in Hread3.
Qed.

(** Clients 1 and 2, connected, with three bytes for 2 to read. *)
Definition pair_state : ChanScheme := mk_chan
  {[ 1 := mk_handle 0 (ExClient (mk_client [] (Open 2))) None;
     2 := mk_handle 0 (ExClient (mk_client [7; 8; 9] (Open 1))) None ]} ∅ 3 [].

Lemma pair_connected : connected 1 2 [7; 8; 9] pair_state.
Proof. eexists _, _, _, _. by split_and!. Qed.

Lemma chan_fifo_witness :
  ∃ written delivered rest s',
    stream_run (H := redox_abi) socket_ok 1 2 [SRead 2; SWrite [4; 5]; SRead 8] pair_state
      = (Ok (written, delivered), s') ∧
    written = concat (omap (λ o, match o with SWrite d => Some d | SRead _ => None end)
      [SRead 2; SWrite [4; 5]; SRead 8]) ∧
    delivered ++ rest = [7; 8; 9] ++ written ∧ connected 1 2 rest s'.
Proof.
  apply (chan_fifo (H := redox_abi) socket_ok 1 2 [7; 8; 9] pair_state).
  - intros hist ev. reflexivity.
  - apply pair_connected.
Defined.

Lemma chan_close_eof_witness :
  ∃ s1, on_close (H := redox_abi) socket_ok 1 pair_state = (Ok tt, s1) ∧ handles s1 !! 1 = None.
Proof.
  destruct (chan_close_eof (H := redox_abi) socket_ok 1 2 [7; 8; 9] pair_state)
    as (s1 & H1 & H2 & _).
  - intros hist ev. reflexivity.
  - apply pair_connected.
  - exists s1. split; [exact H1|exact H2].
Defined.

(** ** A failed event breaks the invariant *)

(** The socket refuses the first event and accepts the others. *)
Definition socket_fails_once (hist : list (Z * Z)) (ev : Z * Z) : errno + bool :=
  match hist with [] => inr false | _ => inr true end.

Fixpoint chan_run `{SyscallAbi} write_response (ops : list chan_op) : comp ChanScheme unit :=
  match ops with
  | [] => mret tt
  | op :: ops => attempt (chan_step write_response op);; chan_run write_response ops
  end.

(** The safety theorem needs the socket to be reliable: [open] queues the id of
    the new client before it posts the event, and an error of the post returns
    without giving up that id.  After a single refused event the id is handed
    out again, to a listener, and accepting the queued connection reaches
    the "newly created handle can't possibly be a listener" panic. *)
Theorem chan_failed_event_panics :
  (chan_run (H := redox_abi) socket_fails_once
     [OpRoot; OpOpenat 0 "x" 0x2000000; OpOpenat 0 "x" 0; OpOpenat 0 "y" 0x2000000;
      OpDup 1 (str_bytes "listen")] chan_new).1 = Panic.
Proof. vm_compute. reflexivity. Qed.
