(* ===== verification/Shm.v ===== *)
(** * ipcd: the [shm] scheme

    Models [ipcd/src/shm.rs]: named shared-memory objects with a reference count
    and the growable mapping behind each of them.  The [fmap] and [mremap] system
    calls are parameters; what is relied on about them is that a new mapping
    reads as zeros and that a remapped one keeps its bytes and is extended with
    zeros, which is how [g_mem] changes below.  An access of the [unsafe] copies
    outside the mapping is undefined behaviour and is modelled as [Panic]. *)

From S2P Require Import Prelude Abi SchemeUtils.

(** ** MmapGuard *)

(** [g_mem] is the mapped memory at [base]. *)
Record MmapGuard := mk_guard { g_base : Z; g_len : Z; g_mem : bytes }.

Definition guard_new : MmapGuard := mk_guard 0 0 [].

Section Guard.
Context `{SyscallAbi}.
(** [fmap(size)] and [mremap(base, old_size, new_size)], the new base address *)
Context (sys_fmap : Z → errno + Z) (sys_mremap : Z → Z → Z → errno + Z).

Definition total_capacity : comp MmapGuard Z :=
  len ← gets g_len;
  next_multiple_of len PAGE_SIZE.

(** [needed.div_ceil(PAGE_SIZE)] *)
Definition div_ceil (x p : Z) : Z :=
  if bool_decide (x `mod` p = 0) then x `div` p else x `div` p + 1.

Definition grow_to (new_len : Z) : comp MmapGuard unit :=
  cap ← total_capacity;
  if bool_decide (new_len ≤ cap) then
    modify (λ g, mk_guard (g_base g) new_len (g_mem g))
  else
    needed ← sub_usize new_len cap;
    let page_count := div_ceil needed PAGE_SIZE in
    alloc_size ← mul_usize page_count PAGE_SIZE;
    g ← get;
    '(new_base, mem) ←
      (if bool_decide (g_base g = 0) then
         match sys_fmap alloc_size with
         | inl e => fail e
         | inr b => mret (b, replicate (Z.to_nat alloc_size) 0)
         end
       else
         old_size ← next_multiple_of (g_len g) PAGE_SIZE;
         new_size ← next_multiple_of new_len PAGE_SIZE;
         match sys_mremap (g_base g) old_size new_size with
         | inl e => fail e
         | inr b => mret (b, vec_resize 0 (Z.to_nat new_size) (take (Z.to_nat old_size) (g_mem g)))
         end);
    put (mk_guard new_base new_len mem).

Definition guard_mmap (offset size : Z) : comp MmapGuard Z :=
  total_size ← add_usize offset size;
  len ← gets g_len;
  cap ← next_multiple_of len PAGE_SIZE;
  if bool_decide (cap < total_size) then fail ERANGE
  else if bool_decide (size = 0) then mret 0
  else
    base ← gets g_base;
    add_usize base offset.

(** [read]: the count and the caller's buffer afterwards. *)
Definition guard_read (offset : Z) (buf : bytes) : comp MmapGuard (Z * bytes) :=
  g ← get;
  if bool_decide (g_len g ≤ offset) then mret (0, buf)
  else
    let to_read := Z.min (g_len g - offset) (Z.of_nat (length buf)) in
    let n := Z.to_nat to_read in
    let off := Z.to_nat offset in
    if bool_decide (off + n ≤ length (g_mem g))%nat then
      mret (to_read, copy_at buf 0 (take n (drop off (g_mem g))))
    else panic.

Definition guard_write (offset : Z) (buf : bytes) : comp MmapGuard Z :=
  end_ ← ok_or ERANGE (checked_add_usize offset (Z.of_nat (length buf)));
  grow_to end_;;
  g ← get;
  avail ← sub_usize (g_len g) offset;
  let to_write := Z.min avail (Z.of_nat (length buf)) in
  let n := Z.to_nat to_write in
  let off := Z.to_nat offset in
  if bool_decide (off + n ≤ length (g_mem g))%nat then
    put (mk_guard (g_base g) (g_len g) (copy_at (g_mem g) off (take n buf)));;
    mret to_write
  else panic.

(** *** Memory safety *)

(** Every byte below the rounded length is mapped, and nothing is mapped before
    the first allocation. *)
Record guard_ok (g : MmapGuard) : Prop := {
  guard_len : 0 ≤ g_len g ≤ usize_max;
  guard_mapped : round_up (g_len g) PAGE_SIZE ≤ Z.of_nat (length (g_mem g));
  guard_mem : Z.of_nat (length (g_mem g)) ≤ usize_max;
  guard_null : g_base g = 0 → g_len g = 0;
  guard_addr : 0 ≤ g_base g ∧ g_base g + Z.of_nat (length (g_mem g)) ≤ usize_max;
}.

(** A mapping does not start at address 0 and lies inside the address space. *)
Definition syscalls_sane : Prop :=
  (∀ size b, sys_fmap size = inr b → 0 < b ∧ b + size ≤ usize_max) ∧
  (∀ base old new b, sys_mremap base old new = inr b → 0 < b ∧ b + new ≤ usize_max).

Context (Hpage : 0 < PAGE_SIZE).

Lemma guard_ok_round g : guard_ok g → round_up (g_len g) PAGE_SIZE ≤ usize_max.
Proof. intros [? ? ? ? ?]. lia. Qed.

Lemma div_ceil_mul x p : 0 < p → 0 ≤ x → div_ceil x p * p = round_up x p.
Proof.
  intros Hp Hx. unfold div_ceil, round_up. pose proof (Z.div_mod x p).
  case_bool_decide; nia.
Qed.

Lemma round_up_multiple x p : 0 < p → x `mod` p = 0 → round_up x p = x.
Proof. intros ? Hm. unfold round_up. by rewrite bool_decide_eq_true_2. Qed.

Lemma round_up_sub x y p :
  0 < p → y `mod` p = 0 → round_up (x - y) p = round_up x p - y.
Proof.
  intros Hp Hy. unfold round_up.
  assert ((x - y) `mod` p = x `mod` p) as ->.
  { rewrite Zminus_mod, Hy, Z.sub_0_r. apply Z.mod_mod. lia. }
  case_bool_decide; lia.
Qed.

(** What [grow_to] guarantees when the rounded size fits in the address space:
    it fails only if the system call does, and otherwise sets the length and
    keeps the bytes below both lengths. *)
Lemma grow_to_wp new_len g (Q : outcome unit → MmapGuard → Prop) :
  guard_ok g → 0 ≤ new_len → round_up new_len PAGE_SIZE ≤ usize_max →
  syscalls_sane →
  (∀ e, Q (Err e) g) →
  (∀ g', guard_ok g' → g_len g' = new_len →
     (∀ i : nat, Z.of_nat i < g_len g → Z.of_nat i < new_len → g_mem g' !! i = g_mem g !! i) →
     Q (Ok tt) g') →
  wp (grow_to new_len) Q g.
Proof.
  intros Hg Hlen Hfit [Hfmap Hremap] HErr HOk.
  destruct (round_up_spec (g_len g) PAGE_SIZE) as [Hcap Hcapm]; [done|apply Hg|].
  destruct (round_up_spec new_len PAGE_SIZE) as [Hncap Hncapm]; [done..|].
  pose proof (guard_ok_round g Hg) as Hround. pose proof (guard_mapped g Hg) as Hmapped.
  pose proof (guard_len g Hg) as Hglen.
  unfold grow_to, total_capacity. do 3 wp_step.
  apply wp_next_multiple_of; [done..|]. case_bool_decide as Hle.
  { wp_go. apply HOk; cbn; [|done..]. split; cbn; [lia| |apply Hg| |apply Hg].
    - etrans; [|exact Hmapped]. apply round_up_least; lia.
    - intros Hb. apply (guard_null g Hg) in Hb. rewrite Hb in Hle.
      rewrite round_up_multiple in Hle by done. lia. }
  wp_step. apply wp_sub_usize; [lia|].
  assert (div_ceil (new_len - round_up (g_len g) PAGE_SIZE) PAGE_SIZE * PAGE_SIZE =
    round_up new_len PAGE_SIZE - round_up (g_len g) PAGE_SIZE) as Halloc.
  { rewrite div_ceil_mul, round_up_sub by lia. done. }
  wp_step. unfold mul_usize. rewrite Halloc. rewrite bool_decide_eq_true_2 by lia.
  do 4 wp_step. case_bool_decide as Hnull.
  - assert (g_len g = 0) as Hz by by apply Hg.
    rewrite Hz in *. rewrite (round_up_multiple 0) in * by done.
    rewrite Z.sub_0_r. destruct (sys_fmap _) as [e|b] eqn:Hb; wp_go; [apply HErr|].
    apply HOk; cbn; [|done|lia]. split; cbn.
    + lia.
    + rewrite length_replicate. lia.
    + rewrite length_replicate. lia.
    + intros ->. apply Hfmap in Hb. lia.
    + rewrite length_replicate. apply Hfmap in Hb. lia.
  - wp_step. apply wp_next_multiple_of; [done..|]. wp_step.
    apply wp_next_multiple_of; [done..|].
    destruct (sys_mremap _ _ _) as [e|b] eqn:Hb; wp_go; [apply HErr|].
    apply HOk; cbn; [|done|].
    + apply Hremap in Hb. split; cbn; rewrite ?length_vec_resize; lia.
    + intros i Hi Hi'. rewrite lookup_vec_resize by lia. rewrite lookup_take_lt by lia.
      destruct (lookup_lt_is_Some_2 (g_mem g) i) as [x Hx]; [lia|]. by rewrite Hx.
Qed.

Lemma guard_read_wp offset buf g :
  guard_ok g → 0 ≤ offset →
  let n := Z.to_nat (Z.min (g_len g - offset) (Z.of_nat (length buf))) in
  guard_read offset buf g =
    (Ok (Z.of_nat n, copy_at buf 0 (take n (drop (Z.to_nat offset) (g_mem g)))), g).
Proof.
  intros Hg Hoff n. destruct (round_up_spec (g_len g) PAGE_SIZE) as [Hcap _]; [done|apply Hg|].
  pose proof (guard_mapped g Hg). pose proof (guard_len g Hg).
  unfold guard_read, mbind, comp_bind, get. case_bool_decide.
  - unfold n. replace (Z.to_nat _) with 0%nat by lia. by rewrite take_0, copy_at_nil.
  - rewrite bool_decide_eq_true_2 by (unfold n; lia). unfold mret, comp_ret.
    repeat f_equal. unfold n. lia.
Qed.

(** A write that fits the address space either fails in the system call and
    changes nothing, or stores all of [buf] at [offset]. *)
Lemma guard_write_wp offset buf g (Q : outcome Z → MmapGuard → Prop) :
  guard_ok g → 0 ≤ offset → round_up (offset + Z.of_nat (length buf)) PAGE_SIZE ≤ usize_max →
  syscalls_sane →
  (∀ e, Q (Err e) g) →
  (∀ g' mem, guard_ok g' → g_len g' = offset + Z.of_nat (length buf) →
     g_mem g' = copy_at mem (Z.to_nat offset) buf →
     (Z.to_nat offset + length buf ≤ length mem)%nat →
     (∀ i : nat, Z.of_nat i < g_len g → Z.of_nat i < g_len g' → mem !! i = g_mem g !! i) →
     Q (Ok (Z.of_nat (length buf))) g') →
  wp (guard_write offset buf) Q g.
Proof.
  intros Hg Hoff Hfit Hsane HErr HOk.
  destruct (round_up_spec (offset + Z.of_nat (length buf)) PAGE_SIZE) as [Hend _]; [lia..|].
  unfold guard_write, checked_add_usize. rewrite bool_decide_eq_true_2 by lia.
  wp_step. wp_step. wp_step. apply grow_to_wp; [done|lia|done|done|done|].
  intros g' Hg' Hlen' Hmem'. wp_step. wp_step. wp_step. apply wp_sub_usize; [lia|].
  destruct (round_up_spec (g_len g') PAGE_SIZE) as [Hcap' _]; [done|apply Hg'|].
  pose proof (guard_mapped g' Hg').
  replace (Z.min (g_len g' - offset) (Z.of_nat (length buf))) with (Z.of_nat (length buf)) by lia.
  rewrite Nat2Z.id, take_ge by lia. rewrite bool_decide_eq_true_2 by lia. wp_go.
  assert (length (copy_at (g_mem g') (Z.to_nat offset) buf) = length (g_mem g')) as Hcopy.
  { apply length_copy_at. lia. }
  apply (HOk _ (g_mem g')); cbn; [|done|done|lia|by rewrite Hlen' in *].
  destruct Hg'. split; cbn; rewrite ?Hcopy; done.
Qed.
End Guard.

(** ** ShmScheme *)

Inductive Handle := HShm (path : string) | HSchemeRoot.

#[global] Instance handle_eq_dec : EqDecision Handle.
Proof. solve_decision. Defined.

Definition as_shm (h : Handle) : outcome string :=
  match h with HShm p => Ok p | HSchemeRoot => Err EBADF end.

Record ShmHandle := mk_shm_handle { buffer : MmapGuard; refs : Z; unlinked : bool }.
Record ShmScheme := mk_shm { maps : gmap string ShmHandle; handles : HandleMap Handle }.

Definition shm_new : ShmScheme := mk_shm ∅ hm_new.

Definition set_maps f (s : ShmScheme) := mk_shm (f (maps s)) (handles s).
Definition set_handles h (s : ShmScheme) := mk_shm (maps s) h.
Definition set_buffer g (e : ShmHandle) := mk_shm_handle g (refs e) (unlinked e).

Section Scheme.
Context `{SyscallAbi}.
Context (sys_fmap : Z → errno + Z) (sys_mremap : Z → Z → Z → errno + Z).

Definition shm_at_removedir : Z := 0x200.

Definition scheme_root : comp ShmScheme Z :=
  zoom handles set_handles (hm_insert HSchemeRoot).

Definition openat (dirfd : Z) (path : string) (fl : Z) : comp ShmScheme Z :=
  hs ← gets handles;
  h ← lift (hm_get hs dirfd);
  match h with
  | HShm _ => fail EACCES
  | HSchemeRoot =>
     ms ← gets maps;
     entry ←
       match ms !! path with
       | Some e =>
          if negb (Z.land fl O_EXCL =? 0) && negb (Z.land fl O_CREAT =? 0)
          then fail EEXIST else mret e
       | None =>
          if Z.land fl O_CREAT =? 0 then fail ENOENT
          else
            let e := mk_shm_handle guard_new 0 false in
            modify (set_maps (insert path e));; mret e
       end;
     refs' ← add_usize (refs entry) 1;
     modify (set_maps (insert path (mk_shm_handle (buffer entry) refs' (unlinked entry))));;
     zoom handles set_handles (hm_insert (HShm path))
  end.

Definition on_close (id : Z) : comp ShmScheme unit :=
  removed ← zoom handles set_handles (hm_remove id);
  h ← expect removed;
  match h with
  | HSchemeRoot => mret tt
  | HShm path =>
     ms ← gets maps;
     entry ← expect (ms !! path);
     refs' ← sub_usize (refs entry) 1;
     modify (set_maps (insert path (mk_shm_handle (buffer entry) refs' (unlinked entry))));;
     if bool_decide (refs' = 0) && unlinked entry then modify (set_maps (delete path))
     else mret tt
  end.

Definition unlinkat (dirfd : Z) (path : string) (fl : Z) : comp ShmScheme unit :=
  hs ← gets handles;
  h ← lift (hm_get hs dirfd);
  match h with
  | HShm _ => fail EACCES
  | HSchemeRoot =>
     if has_flag fl shm_at_removedir then fail ENOTDIR else
     ms ← gets maps;
     entry ← ok_or ENOENT (ms !! path);
     modify (set_maps (insert path (mk_shm_handle (buffer entry) (refs entry) true)));;
     if bool_decide (refs entry = 0) then modify (set_maps (delete path)) else mret tt
  end.

(** The object behind a descriptor: [handles.get(id).and_then(Handle::as_shm)?]
    followed by [maps.get_mut(path).expect(..)]. *)
Definition with_object {A} (id : Z) (m : comp MmapGuard A) : comp ShmScheme A :=
  hs ← gets handles;
  h ← lift (hm_get hs id);
  path ← lift (as_shm h);
  ms ← gets maps;
  entry ← expect (ms !! path);
  zoom (λ _, buffer entry) (λ g, set_maps (insert path (set_buffer g entry))) m.

Definition fsize (id : Z) : comp ShmScheme Z := with_object id (gets g_len).

(** [st_mode] and [st_size]; the other fields keep their defaults. *)
Definition fstat (id : Z) : comp ShmScheme (Z * Z) :=
  size ← with_object id (gets g_len);
  mret (MODE_FILE, size).

Definition ftruncate (id len : Z) : comp ShmScheme unit :=
  with_object id (grow_to sys_fmap sys_mremap len).

Definition mmap_prep (id offset size : Z) : comp ShmScheme Z :=
  with_object id (guard_mmap offset size).

Definition read (id : Z) (buf : bytes) (offset : Z) : comp ShmScheme (Z * bytes) :=
  with_object id (guard_read offset buf).

Definition write (id : Z) (buf : bytes) (offset : Z) : comp ShmScheme Z :=
  with_object id (guard_write sys_fmap sys_mremap offset buf).

Definition fpath (id : Z) (buf : bytes) (s : ShmScheme) : outcome nat * bytes :=
  fpath_with buf "shm"
    (h ← lift (hm_get (handles s) id);
     p ← lift (as_shm h);
     push_str (str_bytes p)).
End Scheme.

(** ** Reference counts *)

(** The number of open descriptors of the object [p]. *)
Abbreviation open_count p := (holders (HShm p)).

Section Safety.
Context `{SyscallAbi}.
Context (sys_fmap : Z → errno + Z) (sys_mremap : Z → Z → Z → errno + Z).
Context (Hpage : 0 < PAGE_SIZE) (Hsane : syscalls_sane sys_fmap sys_mremap).

(** The count of an entry is the number of open descriptors of its path, an
    unlinked entry is still open somewhere, and an open path has an entry. *)
Definition entry_ok (hs : gmap Z Handle) (p : string) (o : option ShmHandle) : Prop :=
  match o with
  | Some e => refs e = Z.of_nat (open_count p hs) ∧
              (unlinked e = true → 0 < refs e) ∧ guard_ok (buffer e)
  | None => open_count p hs = 0%nat
  end.

Record shm_inv (s : ShmScheme) : Prop := {
  shm_handles : hm_wf (handles s);
  shm_entries p : entry_ok (hm_handles (handles s)) p (maps s !! p);
}.

Lemma guard_new_ok : guard_ok guard_new.
Proof.
  split; cbn; [ints| |ints|done|ints].
  rewrite round_up_multiple by (rewrite ?Z.mod_0_l; lia). lia.
Qed.

Lemma shm_new_inv : shm_inv shm_new.
Proof. split; [apply hm_new_wf|]. intros p. cbn. done. Qed.

Definition safe {A} (r : outcome A) (s' : ShmScheme) : Prop := r ≠ Panic ∧ shm_inv s'.

Lemma safe_err {A} e s : shm_inv s → safe (Err e : outcome A) s.
Proof. done. Qed.

(** Replace one entry. *)
Lemma shm_inv_entry p o s :
  shm_inv s → entry_ok (hm_handles (handles s)) p o →
  shm_inv (mk_shm (partial_alter (λ _, o) p (maps s)) (handles s)).
Proof.
  intros [Hwf Hent] Ho. split; [done|]. intros q. cbn.
  destruct (decide (p = q)) as [->|].
  - by rewrite lookup_partial_alter_eq.
  - by rewrite lookup_partial_alter_ne.
Qed.

Lemma with_object_safe {A} id (m : comp MmapGuard A) s :
  shm_inv s →
  (∀ g, guard_ok g → wp m (λ r g', r ≠ Panic ∧ guard_ok g') g) →
  wp (with_object id m) safe s.
Proof.
  intros Hinv Hm. unfold with_object. do 4 wp_step. unfold hm_get.
  destruct (hm_handles (handles s) !! id) as [h|] eqn:Hh; [|by apply safe_err].
  wp_step. wp_step. destruct h as [p|]; cbn [as_shm]; [|by apply safe_err].
  wp_step. wp_step. wp_step. pose proof (shm_entries s Hinv p) as He.
  destruct (maps s !! p) as [e|] eqn:Hp.
  2:{ cbn in He. apply holders_pos in Hh. lia. }
  wp_step. wp_step. destruct He as (Hrefs & Hun & Hg).
  eapply wp_mono; [by apply Hm|]. intros r g' [Hr Hg']. split; [done|].
  by apply (shm_inv_entry p (Some (set_buffer g' e))).
Qed.

Inductive shm_op :=
  | OpRoot
  | OpOpenat (dirfd : Z) (path : string) (fl : Z)
  | OpUnlinkat (dirfd : Z) (path : string) (fl : Z)
  | OpFtruncate (id len : Z)
  | OpMmapPrep (id offset size : Z)
  | OpRead (id : Z) (buf : bytes) (offset : Z)
  | OpWrite (id : Z) (buf : bytes) (offset : Z)
  | OpFstat (id : Z)
  | OpClose (id : Z).

Definition shm_step (op : shm_op) : comp ShmScheme unit :=
  match op with
  | OpRoot => scheme_root;; mret tt
  | OpOpenat dirfd path fl => openat dirfd path fl;; mret tt
  | OpUnlinkat dirfd path fl => unlinkat dirfd path fl
  | OpFtruncate id len => ftruncate sys_fmap sys_mremap id len
  | OpMmapPrep id offset size => mmap_prep id offset size;; mret tt
  | OpRead id buf offset => read id buf offset;; mret tt
  | OpWrite id buf offset => write sys_fmap sys_mremap id buf offset;; mret tt
  | OpFstat id => fstat id;; mret tt
  | OpClose id => on_close id
  end.

(** The requests whose sizes fit: offsets are unsigned, the end of the accessed
    range rounded to a page is a [usize], and only open descriptors are closed. *)
Definition shm_allowed (op : shm_op) (s : ShmScheme) : Prop :=
  match op with
  | OpFtruncate _ len => 0 ≤ len ∧ round_up len PAGE_SIZE ≤ usize_max
  | OpMmapPrep _ offset size => 0 ≤ offset ∧ 0 ≤ size ∧ offset + size ≤ usize_max
  | OpRead _ _ offset => 0 ≤ offset
  | OpWrite _ buf offset =>
     0 ≤ offset ∧ round_up (offset + Z.of_nat (length buf)) PAGE_SIZE ≤ usize_max
  | OpClose id => is_Some (hm_handles (handles s) !! id)
  | _ => True
  end.

Lemma shm_insert_wp h s (Q : outcome Z → ShmScheme → Prop) :
  hm_wf (handles s) → hm_room (handles s) →
  (∀ next, let hm := mk_handle_map
      (<[hm_next_id (handles s) := h]> (hm_handles (handles s))) next in
    hm_wf hm → Q (Ok (hm_next_id (handles s))) (mk_shm (maps s) hm)) →
  wp (zoom handles set_handles (hm_insert h)) Q s.
Proof. intros Hwf Hroom HQ. wp_step. by apply hm_insert_wp. Qed.

Lemma openat_safe dirfd path fl s :
  shm_inv s → hm_room (handles s) → wp (openat dirfd path fl) safe s.
Proof.
  intros Hinv Hroom. pose proof (shm_handles s Hinv) as Hwf.
  pose proof (shm_entries s Hinv path) as He. unfold hm_room in Hroom.
  unfold openat. do 4 wp_step. unfold hm_get.
  destruct (hm_handles (handles s) !! dirfd) as [[p|]|]; [by apply safe_err| |by apply safe_err].
  pose proof (holders_le (HShm path) (hm_handles (handles s))) as Hle.
  (* opening an entry [e] that is in step with the current descriptors *)
  assert (∀ e s', entry_ok (hm_handles (handles s)) path (Some e) → handles s' = handles s →
    (∀ q, q ≠ path → maps s' !! q = maps s !! q) →
    wp (refs' ← add_usize (refs e) 1;
        modify (set_maps (insert path (mk_shm_handle (buffer e) refs' (unlinked e))));;
        zoom handles set_handles (hm_insert (HShm path))) safe s') as Hopen.
  { intros e s' (Hrefs & Hun & Hg) Hs' HM. wp_step. apply wp_add_usize; [lia|]. wp_step. wp_step.
    apply shm_insert_wp; cbn; rewrite Hs'; [done|done|]. intros next Hwf'. split; [done|].
    split; [done|]. intros q. cbn. destruct (decide (q = path)) as [->|Hq].
    - rewrite lookup_insert_eq. split_and!; cbn; [|lia|done].
      rewrite holders_insert by apply Hwf. rewrite decide_True by done. lia.
    - rewrite lookup_insert_ne, HM by done. pose proof (shm_entries s Hinv q) as Hent.
      unfold entry_ok. rewrite holders_insert by apply Hwf.
      rewrite decide_False by congruence. exact Hent. }
  wp_step. wp_step. wp_step. destruct (maps s !! path) as [e|] eqn:Hp.
  - destruct (negb _ && negb _); [by apply safe_err|]. wp_step.
    by apply (Hopen e).
  - destruct (Z.land fl O_CREAT =? 0); [by apply safe_err|]. wp_step. wp_step. wp_step.
    apply Hopen; cbn; [|done|].
    + split_and!; cbn; [|done|apply guard_new_ok]. cbn in He. lia.
    + intros q Hq. by rewrite lookup_insert_ne.
Qed.

Lemma on_close_safe id s :
  shm_inv s → is_Some (hm_handles (handles s) !! id) → wp (on_close id) safe s.
Proof.
  intros Hinv [h Hh]. pose proof (shm_handles s Hinv) as Hwf.
  unfold on_close, hm_remove. do 6 wp_step. cbn. rewrite Hh. wp_step.
  pose proof (hm_remove_wf id _ Hwf) as Hwf'.
  assert (∀ q, h ≠ HShm q → entry_ok (delete id (hm_handles (handles s))) q (maps s !! q)) as Hoth.
  { intros q Hq. pose proof (shm_entries s Hinv q) as He. unfold entry_ok in *.
    rewrite (holders_delete (HShm q) id h _ Hh), decide_False in He by done. exact He. }
  destruct h as [p|].
  2:{ wp_go. split; [done|]. split; [done|]. intros q. by apply Hoth. }
  pose proof (shm_entries s Hinv p) as He.
  wp_step. wp_step. cbn. wp_step. destruct (maps s !! p) as [e|] eqn:Hp.
  2:{ cbn in He. apply holders_pos in Hh. lia. }
  destruct He as (Hrefs & Hun & Hg).
  rewrite (holders_delete (HShm p) id _ _ Hh), decide_True in Hrefs by done.
  wp_step. wp_step. apply wp_sub_usize; [lia|]. wp_step. wp_step. cbn.
  destruct (bool_decide (refs e - 1 = 0) && unlinked e) eqn:Hlast; wp_go;
    (split; [done|]); (split; [done|]); intros q; cbn;
    (destruct (decide (p = q)) as [<-|Hq];
      [|rewrite ?lookup_delete_ne, ?lookup_insert_ne by done; apply Hoth; congruence]).
  - rewrite lookup_delete_eq. apply andb_prop in Hlast as [Hz%bool_decide_eq_true _]. cbn. lia.
  - rewrite lookup_insert_eq. split_and!; cbn; [lia| |done].
    intros Hu. rewrite Hu in Hlast. apply andb_false_iff in Hlast as [Hz|?]; [|done].
    apply bool_decide_eq_false in Hz. lia.
Qed.

Lemma unlinkat_safe dirfd path fl s : shm_inv s → wp (unlinkat dirfd path fl) safe s.
Proof.
  intros Hinv. unfold unlinkat. do 4 wp_step. unfold hm_get.
  destruct (hm_handles (handles s) !! dirfd) as [[p|]|]; [by apply safe_err| |by apply safe_err].
  destruct (has_flag _ _); [by apply safe_err|]. do 3 wp_step.
  pose proof (shm_entries s Hinv path) as He.
  destruct (maps s !! path) as [e|] eqn:Hp; [|by apply safe_err]. wp_step.
  destruct He as (Hrefs & Hun & Hg). wp_step. wp_step.
  case_bool_decide as Hz; wp_go; (split; [done|]).
  - unfold set_maps; cbn. rewrite delete_insert_eq.
    apply (shm_inv_entry path None); [done|]. cbn. lia.
  - apply (shm_inv_entry path (Some _)); [done|]. split_and!; cbn; [done| |done]. lia.
Qed.

Lemma guard_mmap_safe offset size g :
  guard_ok g → 0 ≤ offset → 0 ≤ size → offset + size ≤ usize_max →
  wp (guard_mmap offset size) (λ r g', r ≠ Panic ∧ guard_ok g' ∧ g' = g ∧
    ∀ a, r = Ok a → size ≠ 0 →
      a = g_base g + offset ∧ offset + size ≤ Z.of_nat (length (g_mem g))) g.
Proof.
  intros Hg Hoff Hsize Hfit. pose proof (guard_addr g Hg) as Haddr.
  pose proof (guard_mapped g Hg) as Hmapped.
  unfold guard_mmap. wp_step. apply wp_add_usize; [lia|]. do 3 wp_step.
  apply wp_next_multiple_of; [done|by apply guard_ok_round|].
  repeat case_bool_decide; wp_go; [by split_and!|by split_and!|].
  apply wp_add_usize; [lia|]. split_and!; [done..|]. intros a [= <-] _. lia.
Qed.

Lemma shm_step_safe op s :
  shm_inv s → hm_room (handles s) → shm_allowed op s → wp (shm_step op) safe s.
Proof.
  intros Hinv Hroom Hal.
  assert (∀ A (m : comp ShmScheme A), wp m safe s → wp (m;; mret tt) safe s) as Hseq.
  { intros A m Hm. wp_step. eapply wp_mono; [exact Hm|].
    intros [a|e|] s' [? ?]; cbn; [by wp_go|done|done]. }
  destruct op; cbn [shm_step] in *; try (apply Hseq).
  - apply shm_insert_wp; [apply Hinv|done|]. cbn. intros next Hwf'. split; [done|].
    split; [done|]. intros q. pose proof (shm_entries s Hinv q) as He. unfold entry_ok in *.
    cbn. rewrite holders_insert by apply Hinv. rewrite decide_False by done. exact He.
  - by apply openat_safe.
  - by apply unlinkat_safe.
  - destruct Hal. apply with_object_safe; [done|]. intros g Hg.
    by apply grow_to_wp.
  - destruct Hal as (? & ? & ?). apply with_object_safe; [done|]. intros g Hg.
    eapply wp_mono; [by apply guard_mmap_safe|]. cbn. intros r g' (? & ? & _). done.
  - apply with_object_safe; [done|]. intros g Hg. unfold wp.
    by rewrite guard_read_wp.
  - destruct Hal. apply with_object_safe; [done|]. intros g Hg.
    by apply guard_write_wp.
  - unfold fstat. wp_step. eapply wp_mono; [apply with_object_safe; [done|]|].
    + intros g Hg. by wp_go.
    + intros [a|e|] s' [? ?]; cbn; [by wp_go|done|done].
  - by apply on_close_safe.
Qed.
End Safety.

(** ** Properties *)

Section Reachable.
Context `{SyscallAbi} (sys_fmap : Z → errno + Z) (sys_mremap : Z → Z → Z → errno + Z).

(** States after any sequence of admissible requests. *)
Inductive shm_reachable : ShmScheme → Prop :=
  | shm_reach_init : shm_reachable shm_new
  | shm_reach_step s op r s' :
     shm_reachable s → hm_room (handles s) → shm_allowed op s →
     shm_step sys_fmap sys_mremap op s = (r, s') → shm_reachable s'.
End Reachable.

(** C9. Safety of the shared-memory scheme.  In every reachable state the count of
    an object is the number of its open descriptors, an unlinked object is kept
    exactly while it is open, and the mapping covers the object; the next request
    whose sizes fit the address space does not panic ("handle pointing to
    nothing", the reference-count arithmetic, the fresh-id search) and its raw
    memory copies stay inside the mapping. *)
Theorem shm_never_panics `{SyscallAbi} sys_fmap sys_mremap s op :
  0 < PAGE_SIZE → syscalls_sane sys_fmap sys_mremap →
  shm_reachable sys_fmap sys_mremap s → hm_room (handles s) → shm_allowed op s →
  shm_inv s ∧ (shm_step sys_fmap sys_mremap op s).1 ≠ Panic.
Proof.
  intros Hpage Hsane Hreach Hroom Hal.
  assert (shm_inv s) as Hinv.
  { clear Hroom Hal op. induction Hreach as [|s op r s' _ IH Hroom Hal Hstep].
    - apply shm_new_inv.
    - apply (wp_eq _ safe _ _ _ Hstep). by apply shm_step_safe. }
  split; [done|]. apply (shm_step_safe _ _ Hpage Hsane op s Hinv Hroom Hal).
Qed.

Definition fmap_ok (size : Z) : errno + Z :=
  if bool_decide (size ≤ 1048576) then inr 4096 else inl ENOMEM.
Definition mremap_ok (base old new : Z) : errno + Z :=
  if bool_decide (new ≤ 1048576) then inr 4096 else inl ENOMEM.

Lemma syscalls_ok_sane : syscalls_sane fmap_ok mremap_ok.
Proof. split; [intros size b|intros base old new b]; unfold fmap_ok, mremap_ok;
  case_bool_decide; intros [= <-]; ints. Qed.

Definition shm_root : ShmScheme := (shm_step (H := redox_abi) fmap_ok mremap_ok OpRoot shm_new).2.

Lemma shm_never_panics_witness :
  shm_inv (H := redox_abi) shm_root ∧
  (shm_step (H := redox_abi) fmap_ok mremap_ok (OpOpenat 1 "obj" 0x2000000) shm_root).1 ≠ Panic.
Proof.
  apply (shm_never_panics (H := redox_abi)).
  - reflexivity.
  - apply syscalls_ok_sane.
  - apply (shm_reach_step (H := redox_abi) _ _ shm_new OpRoot (Ok tt));
      [constructor|vm_compute; reflexivity|exact I|vm_compute; reflexivity].
  - vm_compute. reflexivity.
  - exact I.
Defined.

(** [with_object] on an open descriptor of [p]. *)
Lemma with_object_open `{SyscallAbi} {A} id p e (m : comp MmapGuard A) s :
  hm_handles (handles s) !! id = Some (HShm p) → maps s !! p = Some e →
  with_object id m s =
    let '(r, g) := m (buffer e) in (r, set_maps (insert p (set_buffer g e)) s).
Proof.
  intros Hid Hp. unfold with_object, mbind, comp_bind, gets, lift, hm_get, expect.
  rewrite Hid. cbn. rewrite Hp. done.
Qed.

Lemma set_buffer_same p e s :
  maps s !! p = Some e → set_maps (insert p (set_buffer (buffer e) e)) s = s.
Proof.
  intros Hp. destruct s as [M hs], e as [b r u]. unfold set_maps, set_buffer. cbn in *.
  by rewrite insert_id.
Qed.

(** The object behind [p] after a successful write. *)
Lemma shm_write_object `{SyscallAbi} sys_fmap sys_mremap id p buf off s n s' :
  0 < PAGE_SIZE → syscalls_sane sys_fmap sys_mremap → shm_inv s →
  hm_handles (handles s) !! id = Some (HShm p) → 0 ≤ off →
  round_up (off + Z.of_nat (length buf)) PAGE_SIZE ≤ usize_max →
  write sys_fmap sys_mremap id buf off s = (Ok n, s') →
  n = Z.of_nat (length buf) ∧ hm_handles (handles s') = hm_handles (handles s) ∧
  ∃ e, maps s' !! p = Some e ∧ guard_ok (buffer e) ∧
    g_len (buffer e) = off + Z.of_nat (length buf) ∧
    take (length buf) (drop (Z.to_nat off) (g_mem (buffer e))) = buf.
Proof.
  intros Hpage Hsane Hinv Hid Hoff Hfit Hwrite. pose proof (shm_entries s Hinv p) as He.
  destruct (maps s !! p) as [e|] eqn:Hp; [|cbn in He; apply holders_pos in Hid; lia].
  destruct He as (_ & _ & Hg). unfold write in Hwrite.
  rewrite (with_object_open id p e) in Hwrite by done.
  destruct (guard_write sys_fmap sys_mremap off buf (buffer e)) as [r g'] eqn:Hw.
  simplify_eq/=. revert Hw. intros Hw.
  pose proof (guard_write_wp sys_fmap sys_mremap Hpage off buf (buffer e)
    (λ r g', r = Ok n → n = Z.of_nat (length buf) ∧ guard_ok g' ∧
       g_len g' = off + Z.of_nat (length buf) ∧
       take (length buf) (drop (Z.to_nat off) (g_mem g')) = buf) Hg Hoff Hfit Hsane) as Hwp.
  unfold wp in Hwp. rewrite Hw in Hwp. destruct Hwp as (-> & Hg' & Hlen & Hmem); [done| |done|].
  - intros g2 mem Hg2 Hlen Hmem Hin _ [= <-]. split_and!; [done..|]. rewrite Hmem.
    unfold copy_at. rewrite drop_app_length' by len_lia. apply take_app_length.
  - split_and!; [done..|]. exists (set_buffer g' e). by rewrite lookup_insert_eq.
Qed.

(** Shared memory is shared.  Bytes written through one descriptor of an object
    are what every descriptor of the same object reads at that offset. *)
Theorem shm_write_read_shared `{SyscallAbi} sys_fmap sys_mremap id id' p buf off s n s' out :
  0 < PAGE_SIZE → syscalls_sane sys_fmap sys_mremap → shm_inv s →
  hm_handles (handles s) !! id = Some (HShm p) →
  hm_handles (handles s) !! id' = Some (HShm p) →
  0 ≤ off → round_up (off + Z.of_nat (length buf)) PAGE_SIZE ≤ usize_max →
  write sys_fmap sys_mremap id buf off s = (Ok n, s') →
  length out = length buf →
  n = Z.of_nat (length buf) ∧ read id' out off s' = (Ok (n, buf), s').
Proof.
  intros Hpage Hsane Hinv Hid Hid' Hoff Hfit Hwrite Hout.
  destruct (shm_write_object _ _ _ _ _ _ _ _ _ Hpage Hsane Hinv Hid Hoff Hfit Hwrite)
    as (-> & Hhs & e & Hp & Hg & Hlen & Hmem).
  split; [done|]. unfold read. rewrite (with_object_open id' p e) by congruence.
  rewrite guard_read_wp by done. cbn. rewrite set_buffer_same by done.
  rewrite Hlen, Hout. replace (Z.min _ _) with (Z.of_nat (length buf)) by lia.
  rewrite Nat2Z.id, Hmem. unfold copy_at. cbn. rewrite drop_ge, app_nil_r by lia. done.
Qed.

(** Two descriptors of one object. *)
Definition shm_run (ops : list shm_op) : ShmScheme :=
  foldl (λ s op, (shm_step (H := redox_abi) fmap_ok mremap_ok op s).2) shm_new ops.

Lemma shm_run_snoc ops op :
  shm_inv (H := redox_abi) (shm_run ops) → hm_room (handles (shm_run ops)) →
  shm_allowed (H := redox_abi) op (shm_run ops) →
  shm_inv (H := redox_abi) (shm_run (ops ++ [op])).
Proof.
  intros Hinv Hroom Hal. unfold shm_run. rewrite foldl_app. cbn.
  by apply (shm_step_safe (H := redox_abi) fmap_ok mremap_ok eq_refl syscalls_ok_sane).
Qed.

Definition two_fds : list shm_op :=
  [OpRoot; OpOpenat 1 "obj" 0x2000000; OpOpenat 1 "obj" 0; OpWrite 2 [1; 2; 3; 4; 5] 0].

Lemma two_fds_inv : shm_inv (H := redox_abi) (shm_run two_fds).
Proof.
  apply (shm_run_snoc (take 3 two_fds));
    [apply (shm_run_snoc (take 2 two_fds));
      [apply (shm_run_snoc (take 1 two_fds));
        [apply (shm_run_snoc []); [apply shm_new_inv|done|exact I]|done|exact I]|done|exact I]|done|].
  split; apply (bool_decide_unpack _); vm_compute; exact I.
Qed.

Lemma shm_write_read_shared_witness :
  ∃ s', write (H := redox_abi) fmap_ok mremap_ok 2 [7; 8] 1 (shm_run two_fds) = (Ok 2, s') ∧
        read 3 [0; 0] 1 s' = (Ok (2, [7; 8]), s').
Proof.
  eexists. split; [by vm_compute|].
  refine (proj2 (shm_write_read_shared (H := redox_abi) fmap_ok mremap_ok 2 3 "obj" [7; 8] 1
    (shm_run two_fds) 2 _ [0; 0] eq_refl syscalls_ok_sane two_fds_inv _ _ _ _ _ eq_refl)).
  all: try (apply (bool_decide_unpack _); vm_compute; exact I).
  by vm_compute.
Defined.

(** Every successful write sets the size of the object to the end of the written
    range, also when the object was longer: [grow_to] assigns the new length without
    comparing it to the old one.  A write inside an object cuts off what follows it. *)
Theorem shm_write_sets_size `{SyscallAbi} sys_fmap sys_mremap id p buf off s n s' :
  0 < PAGE_SIZE → syscalls_sane sys_fmap sys_mremap → shm_inv s →
  hm_handles (handles s) !! id = Some (HShm p) →
  0 ≤ off → round_up (off + Z.of_nat (length buf)) PAGE_SIZE ≤ usize_max →
  write sys_fmap sys_mremap id buf off s = (Ok n, s') →
  fsize id s' = (Ok (off + Z.of_nat (length buf)), s').
Proof.
  intros Hpage Hsane Hinv Hid Hoff Hfit Hwrite.
  destruct (shm_write_object _ _ _ _ _ _ _ _ _ Hpage Hsane Hinv Hid Hoff Hfit Hwrite)
    as (-> & Hhs & e & Hp & Hg & Hlen & Hmem).
  unfold fsize. rewrite (with_object_open id p e) by congruence. cbn.
  rewrite set_buffer_same by done. by rewrite Hlen.
Qed.

(** Five bytes were written; a write of two at offset 1 leaves three. *)
Lemma shm_write_sets_size_witness :
  ∃ s', fsize 2 (shm_run two_fds) = (Ok 5, shm_run two_fds) ∧
        write (H := redox_abi) fmap_ok mremap_ok 2 [7; 8] 1 (shm_run two_fds) = (Ok 2, s') ∧
        fsize 2 s' = (Ok 3, s').
Proof.
  eexists. split; [by vm_compute|]. split; [by vm_compute|].
  refine (shm_write_sets_size (H := redox_abi) fmap_ok mremap_ok 2 "obj" [7; 8] 1
    (shm_run two_fds) 2 _ eq_refl syscalls_ok_sane two_fds_inv _ _ _ _).
  all: try (apply (bool_decide_unpack _); vm_compute; exact I).
  by vm_compute.
Defined.

(** A length whose rounded size does not fit in [usize] is not rejected with an
    error: [grow_to] panics, so one [ftruncate] request takes the daemon down. *)
Theorem shm_grow_overflow_panics `{SyscallAbi} sys_fmap sys_mremap g len :
  0 < PAGE_SIZE → guard_ok g → 0 ≤ len ≤ usize_max → usize_max < round_up len PAGE_SIZE →
  (grow_to sys_fmap sys_mremap len g).1 = Panic.
Proof.
  intros Hpage Hg Hlen Hbig. pose proof (guard_ok_round g Hg) as Hround.
  destruct (round_up_spec (g_len g) PAGE_SIZE) as [Hcap Hcapm]; [done|apply Hg|].
  assert (wp (grow_to sys_fmap sys_mremap len) (λ r _, r = Panic) g) as Hwp; [|exact Hwp].
  unfold grow_to, total_capacity. do 3 wp_step. apply wp_next_multiple_of; [done..|].
  rewrite bool_decide_eq_false_2.
  2:{ intros Hle. assert (round_up len PAGE_SIZE ≤ round_up (g_len g) PAGE_SIZE); [|lia].
      apply round_up_least; [done|lia|done|done]. }
  destruct (Z_le_gt_dec (round_up (g_len g) PAGE_SIZE) len) as [Hle|Hgt].
  2:{ pose proof (round_up_least len PAGE_SIZE (round_up (g_len g) PAGE_SIZE)). lia. }
  wp_step. apply wp_sub_usize; [lia|]. wp_step. unfold mul_usize.
  rewrite div_ceil_mul, round_up_sub by lia. case_bool_decide; [|done].
  do 4 wp_step. case_bool_decide as Hnull.
  - rewrite (guard_null g Hg Hnull) in *. rewrite (round_up_multiple 0) in * by done. lia.
  - wp_step. apply wp_next_multiple_of; [done..|]. wp_step.
    unfold next_multiple_of. rewrite bool_decide_eq_false_2 by lia.
    unfold round_up in Hbig. case_bool_decide; [lia|].
    unfold add_usize, checked_add_usize. by rewrite bool_decide_eq_false_2 by lia.
Qed.

Lemma shm_grow_overflow_panics_witness :
  (grow_to (H := redox_abi) fmap_ok mremap_ok usize_max guard_new).1 = Panic.
Proof.
  apply (shm_grow_overflow_panics (H := redox_abi)).
  - reflexivity.
  - apply guard_new_ok. reflexivity.
  - ints.
  - apply (bool_decide_unpack _). vm_compute. exact I.
Defined.
