(* ===== verification/Uds.v ===== *)
(** * ipcd: messages of the UNIX-socket schemes

    [ipcd/src/uds/mod.rs]: the packets that wait in a socket, the format in which a
    [sendmsg] request carries payload and ancillary data, and [MsgWriter], which writes the
    answer to [recvmsg] into the caller's buffer.  The constants of [libc] are the class
    [Libc]; the answer of [get_proc_credentials] is an argument of the call that asks. *)

From S2P Require Import Prelude SchemeUtils.

(** ** Constants *)

Class Libc := {
  SOL_SOCKET : Z; SCM_RIGHTS : Z;
  SO_PASSCRED : Z; SO_DOMAIN : Z; SO_PEERCRED : Z; SO_SNDBUF : Z;
  AF_UNIX : Z; MSG_DONTWAIT : Z;
}.

Definition SCM_CREDENTIALS : Z := 2.
Definition MAX_DGRAM_MSG_LEN : Z := 65536.
Definition MIN_RECV_MSG_LEN : nat := 16.
Definition CMSG_HEADER_LEN_IN_STREAM : nat := 16.

Definition is_i32 (x : Z) : Prop := -2147483648 ≤ x < 2147483648.

Class LibcLaws (L : Libc) : Prop := {
  sol_socket_i32 : is_i32 SOL_SOCKET;
  scm_rights_i32 : is_i32 SCM_RIGHTS;
  scm_rights_ne_creds : SCM_RIGHTS ≠ SCM_CREDENTIALS;
}.

Definition linux_libc : Libc := {|
  SOL_SOCKET := 1; SCM_RIGHTS := 1; SO_PASSCRED := 16; SO_DOMAIN := 39; SO_PEERCRED := 17;
  SO_SNDBUF := 7; AF_UNIX := 1; MSG_DONTWAIT := 64;
|}.

Lemma linux_libc_laws : LibcLaws linux_libc.
Proof. by split. Qed.

(** [libredox::protocol::SocketCall]; [OtherCall] stands for the verbs the schemes refuse *)
Inductive SocketCall : Set :=
  | Bind | Connect | SetSockOpt | GetSockOpt | SendMsg | RecvMsg | Unbind | GetToken
  | GetPeerName | OtherCall.

(** [SocketCall::try_from_raw] *)
Class SocketCalls := { socket_call_of_raw : Z → option SocketCall }.

Definition demo_calls : SocketCalls := {|
  socket_call_of_raw r :=
    [Bind; Connect; SetSockOpt; GetSockOpt; SendMsg; RecvMsg; Unbind; GetToken; GetPeerName;
     OtherCall] !! Z.to_nat r
|}.

(** [redox_scheme::CallerCtx] *)
Record CallerCtx := mk_ctx { ctx_pid : Z; ctx_uid : Z; ctx_gid : Z }.

(** ** Data *)

Record Credential := mk_cred { c_pid : Z; c_uid : Z; c_gid : Z }.

Record AncillaryData := mk_ancillary { cred : Credential; num_fds : Z; a_name : option string }.

(** [AncillaryData::new] *)
Definition ancillary_new (c : Credential) (name : option string) : AncillaryData := mk_ancillary c 0 name.

Record DataPacket := mk_packet {
  payload : bytes;
  ancillary_data : AncillaryData;
  read_offset : nat;
  ancillary_taken : bool
}.

(** [DataPacket::new] *)
Definition packet_new (p : bytes) (a : AncillaryData) : DataPacket := mk_packet p a 0 false.

(** The handles of both schemes; a socket is named by its place in the store, since several
    handles may share it *)
Inductive Handle : Set := HSocket (place : Z) | HSchemeRoot.

Inductive OpenResult : Type :=
  | ThisScheme (number : Z)
  | OtherScheme (fd : Z)
  | OtherSchemeMultiple (n : Z)
  | WouldBlock.

(** Popping [n] descriptors, [drop_fds]: whether all were there, and what is left *)
Definition pop_fds (n : Z) (fds : list Z) : bool * list Z :=
  (bool_decide (n ≤ Z.of_nat (length fds)), drop (Z.to_nat n) fds).

(** ** Reading requests *)

(** [read_num] for an unsigned type of [size] bytes *)
Definition read_num (size : nat) (buffer : bytes) : outcome Z :=
  if bool_decide (size ≤ length buffer)%nat then Ok (le_val (take size buffer)) else Err EINVAL.

(** The value of an [i32] from its bits, [as i32] *)
Definition as_i32 (x : Z) : Z :=
  let x := wrap_u32 x in if bool_decide (x < 2147483648) then x else x - 4294967296.

Definition read_i32 (buffer : bytes) : outcome Z :=
  match read_num 4 buffer with Ok x => Ok (as_i32 x) | Err e => Err e | Panic => Panic end.

(** [x.to_le_bytes()] for an [i32] *)
Definition i32_bytes (x : Z) : bytes := le_bytes 4 (wrap_u32 x).

Record AncillaryDataHeader := mk_cmsg { level : Z; c_type : Z; data_len : Z }.

(** [AncillaryDataHeader::from_stream] *)
Definition cmsg_from_stream (stream : bytes) : outcome (option AncillaryDataHeader) :=
  if bool_decide (length stream < CMSG_HEADER_LEN_IN_STREAM)%nat then Ok None
  else
    match read_i32 stream, read_i32 (drop 4 stream), read_num 8 (drop 8 stream) with
    | Ok l, Ok t, Ok n => Ok (Some (mk_cmsg l t n))
    | Err e, _, _ | _, Err e, _ | _, _, Err e => Err e
    | _, _, _ => Panic
    end.

Section Messages.
Context {L : Libc}.

(** The loop of [DataPacket::from_stream]: [rest] is [stream[cursor..]], and the result is
    the number of descriptors announced.  A turn takes the 16 bytes of a header, so that
    one turn per byte is enough. *)
Fixpoint cmsg_loop (fuel : nat) (cursor : Z) (rest : bytes) (fds : Z) : outcome Z :=
  match cmsg_from_stream rest with
  | Ok None => Ok fds
  | Ok (Some h) =>
     match fuel with
     | O => Panic
     | S fuel =>
        let cursor := cursor + Z.of_nat CMSG_HEADER_LEN_IN_STREAM in
        let rest := drop CMSG_HEADER_LEN_IN_STREAM rest in
        if bool_decide (usize_max < cursor + data_len h) then Panic
        else if bool_decide (Z.of_nat (length rest) < data_len h) then Err EINVAL
        else
          let data_stream := take (Z.to_nat (data_len h)) rest in
          let next := cmsg_loop fuel (cursor + data_len h) (drop (Z.to_nat (data_len h)) rest) in
          if bool_decide (level h = SOL_SOCKET) && bool_decide (c_type h = SCM_RIGHTS) then
            match read_num 8 data_stream with
            | Ok n => if bool_decide (usize_max < fds + n) then Panic else next (fds + n)
            | Err e => Err e
            | Panic => Panic
            end
          else if bool_decide (level h = SOL_SOCKET) && bool_decide (c_type h = SCM_CREDENTIALS) then next fds
          else Err EOPNOTSUPP
     end
  | Err e => Err e
  | Panic => Panic
  end.

(** [DataPacket::from_stream] *)
Definition packet_from_stream (stream : bytes) (name : option string) (c : Credential) :
    outcome DataPacket :=
  match read_num 8 stream with
  | Ok payload_len =>
     if bool_decide (usize_max < 8 + payload_len) then Panic
     else
       let rest := drop 8 stream in
       if bool_decide (Z.of_nat (length rest) < payload_len) then Err EINVAL
       else
         let p := take (Z.to_nat payload_len) rest in
         match cmsg_loop (length stream) (8 + payload_len) (drop (Z.to_nat payload_len) rest) 0 with
         | Ok fds => Ok (packet_new p (mk_ancillary c fds name))
         | Err e => Err e
         | Panic => Panic
         end
  | Err e => Err e
  | Panic => Panic
  end.

(** [get_uid_gid_from_pid]; [meta] is the buffer that [get_proc_credentials] fills, [None]
    when it fails *)
Definition get_uid_gid_from_pid (meta : option bytes) : outcome (Z * Z * Z) :=
  match meta with
  | None => Err EINVAL
  | Some buffer =>
     if bool_decide (24 ≤ length buffer)%nat then
       match read_num 4 buffer, read_num 4 (drop 12 buffer), read_num 4 (drop 24 buffer) with
       | Ok pid, Ok uid, Ok gid => Ok (pid, uid, gid)
       | Err e, _, _ | _, Err e, _ | _, _, Err e => Err e
       | _, _, _ => Panic
       end
     else Panic
  end.

(** [read_msghdr_info]: the prepared sizes, and the stream with its first 24 bytes cleared *)
Definition read_msghdr_info (stream : bytes) : outcome (Z * Z * Z) * bytes :=
  if bool_decide (length stream < 24)%nat then (Err EINVAL, stream)
  else
    (Ok (le_val (take 8 stream), le_val (slice stream 8 8), le_val (slice stream 16 8)),
     copy_at stream 0 (replicate 24 0)).

(** [path_buf_to_str] *)
Definition path_buf_to_str (path_buf : bytes) : outcome string :=
  match from_utf8 path_buf with
  | Some EmptyString => Err EINVAL
  | Some s => Ok s
  | None => Err EINVAL
  end.

(** ** Writing answers *)

Record MsgWriter := mk_writer { buffer : bytes; written_len : nat }.

Definition writer_new (b : bytes) : MsgWriter := mk_writer b 0.

(** [self.buffer[self.written_len..]...copy_from_slice(data)], and past it *)
Definition put_bytes (data : bytes) (w : MsgWriter) : MsgWriter :=
  mk_writer (copy_at (buffer w) (written_len w) data) (written_len w + length data).

(** [write_name]; [name_write_fn] fills a buffer and returns how much it wrote *)
Definition write_name (name : option string) (name_buf_size : Z)
    (name_write_fn : string → bytes → outcome nat * bytes) : comp MsgWriter unit :=
  w ← get;
  let len := length (buffer w) in
  if bool_decide (len < written_len w + 8)%nat then put (mk_writer (buffer w) len)
  else
    match name with
    | Some name =>
       let copy_len := Z.to_nat (Z.min name_buf_size (Z.of_nat (len - written_len w - 8))) in
       let '(r, dst) := name_write_fn name (slice (buffer w) (written_len w + 8) copy_len) in
       modify (λ w, mk_writer (copy_at (buffer w) (written_len w + 8) dst) (written_len w));;
       name_len ← lift r;
       modify (λ w, mk_writer (copy_at (buffer w) (written_len w) (le_bytes 8 (Z.of_nat name_len)))
                      (written_len w + 8 + name_len))
    | None => put (mk_writer (buffer w) (written_len w + 8))
    end.

(** [write_payload] *)
Definition write_payload (payload : bytes) (full_len : nat) (iov_size : Z) : comp MsgWriter nat :=
  w ← get;
  let len := length (buffer w) in
  if bool_decide (len < written_len w + 8)%nat then
    put (mk_writer (buffer w) len);; mret 0%nat
  else
    modify (put_bytes (le_bytes 8 (Z.of_nat full_len)));;
    w ← get;
    let copy_len := Z.to_nat (Z.min iov_size (Z.of_nat full_len)) in
    if bool_decide (len < written_len w + copy_len)%nat then
      put (mk_writer (buffer w) len);; mret 0%nat
    else if bool_decide (length payload < copy_len)%nat then panic
    else
      modify (put_bytes (take copy_len payload));;
      mret copy_len.

(** [write_cmsg] *)
Definition write_cmsg (lvl ty : Z) (data : bytes) : comp MsgWriter bool :=
  w ← get;
  let len := length (buffer w) in
  if bool_decide (len < written_len w)%nat then mret false
  else
    let remaining := (len - written_len w)%nat in
    let incomplete (w : MsgWriter) :=
      mk_writer (copy_at (buffer w) (written_len w) (replicate remaining 1)) len in
    if bool_decide (remaining < CMSG_HEADER_LEN_IN_STREAM)%nat then
      modify incomplete;; mret false
    else
      let header := i32_bytes lvl ++ i32_bytes ty ++ le_bytes 8 (Z.of_nat (length data)) in
      if bool_decide (remaining < CMSG_HEADER_LEN_IN_STREAM + length data)%nat then
        modify (λ w, mk_writer (copy_at (buffer w) (written_len w) header) (written_len w));;
        modify incomplete;; mret false
      else
        modify (put_bytes (header ++ data));; mret true.

(** [write_rights] *)
Definition write_rights (n : Z) : comp MsgWriter bool :=
  if bool_decide (n = 0) then mret true else write_cmsg SOL_SOCKET SCM_RIGHTS (le_bytes 8 n).

(** [write_credentials] *)
Definition write_credentials (c : Credential) : comp MsgWriter bool :=
  write_cmsg SOL_SOCKET SCM_CREDENTIALS (i32_bytes (c_pid c) ++ i32_bytes (c_uid c) ++ i32_bytes (c_gid c)).
End Messages.

(** A computation of the writer inside a call of the scheme *)
Definition on_writer {S A} (m : comp MsgWriter A) (w : MsgWriter) : comp S (A * MsgWriter) := λ s,
  match m w with
  | (Ok a, w') => (Ok (a, w'), s)
  | (Err e, _) => (Err e, s)
  | (Panic, _) => (Panic, s)
  end.

(** ** Lemmas *)

Lemma insert_is_Some {A} (m : gmap Z A) l l' k : is_Some (m !! l) → is_Some (<[l' := k]> m !! l).
Proof. intros H. rewrite lookup_insert. by case_decide. Qed.

Lemma insert_new_is_Some {A} (m : gmap Z A) l k : is_Some (<[l := k]> m !! l).
Proof. rewrite lookup_insert_eq. by eexists. Qed.

Lemma read_num_le size x rest :
  0 ≤ x < 256 ^ Z.of_nat size → read_num size (le_bytes size x ++ rest) = Ok x.
Proof.
  intros Hx. unfold read_num. rewrite bool_decide_eq_true_2 by len_lia.
  by rewrite take_app_length', le_val_bytes by by rewrite ?length_le_bytes.
Qed.

Lemma read_num_no_panic size b : read_num size b ≠ Panic.
Proof. unfold read_num. by case_bool_decide. Qed.

Lemma read_i32_no_panic b : read_i32 b ≠ Panic.
Proof. unfold read_i32, read_num. by case_bool_decide. Qed.

Lemma path_no_panic b : path_buf_to_str b ≠ Panic.
Proof. unfold path_buf_to_str. by repeat case_match. Qed.

Create HintDb no_panic.
#[export] Hint Resolve read_num_no_panic read_i32_no_panic path_no_panic : no_panic.

Lemma as_i32_id x : is_i32 x → as_i32 x = x.
Proof.
  intros Hx. unfold as_i32, wrap_u32, is_i32 in *. destruct (decide (0 ≤ x)).
  - rewrite Z.mod_small by lia. by rewrite bool_decide_eq_true_2 by lia.
  - rewrite <- (Z.mod_add x 1) by lia. rewrite Z.mod_small by lia.
    rewrite bool_decide_eq_false_2 by lia. lia.
Qed.

Lemma wrap_u32_range x : 0 ≤ wrap_u32 x < 4294967296.
Proof. apply Z.mod_pos_bound. lia. Qed.

Lemma as_i32_wrap x : as_i32 (wrap_u32 x) = as_i32 x.
Proof. unfold as_i32, wrap_u32. by rewrite Z.mod_mod by lia. Qed.

Lemma length_i32_bytes x : length (i32_bytes x) = 4%nat.
Proof. apply length_le_bytes. Qed.
#[export] Hint Rewrite length_i32_bytes : base_len.

Lemma read_i32_bytes x rest : is_i32 x → read_i32 (i32_bytes x ++ rest) = Ok x.
Proof.
  intros Hx. unfold read_i32, i32_bytes. rewrite read_num_le by (cbn; apply wrap_u32_range).
  by rewrite as_i32_wrap, as_i32_id.
Qed.

Section Format.
Context {L : Libc} {LL : LibcLaws L}.

(** The format of a [sendmsg] request that announces [n] descriptors *)
Definition cmsg_bytes (lvl ty : Z) (data : bytes) : bytes :=
  i32_bytes lvl ++ i32_bytes ty ++ le_bytes 8 (Z.of_nat (length data)) ++ data.

Definition rights_bytes (n : Z) : bytes :=
  if bool_decide (n = 0) then [] else cmsg_bytes SOL_SOCKET SCM_RIGHTS (le_bytes 8 n).

Definition creds_bytes (c : Credential) : bytes :=
  cmsg_bytes SOL_SOCKET SCM_CREDENTIALS (i32_bytes (c_pid c) ++ i32_bytes (c_uid c) ++ i32_bytes (c_gid c)).

Definition message_bytes (p : bytes) (n : Z) : bytes :=
  le_bytes 8 (Z.of_nat (length p)) ++ p ++ rights_bytes n.

Lemma length_cmsg_bytes lvl ty data : length (cmsg_bytes lvl ty data) = (16 + length data)%nat.
Proof. unfold cmsg_bytes. len_lia. Qed.

Lemma cmsg_from_bytes lvl ty data rest :
  is_i32 lvl → is_i32 ty → Z.of_nat (length data) ≤ usize_max →
  cmsg_from_stream (cmsg_bytes lvl ty data ++ rest) = Ok (Some (mk_cmsg lvl ty (Z.of_nat (length data)))).
Proof.
  intros Hl Ht Hd. unfold cmsg_from_stream, CMSG_HEADER_LEN_IN_STREAM.
  rewrite bool_decide_eq_false_2 by (rewrite length_app, length_cmsg_bytes; lia).
  unfold cmsg_bytes. rewrite <- !app_assoc. rewrite read_i32_bytes by done.
  rewrite drop_app_length' by by rewrite length_i32_bytes. rewrite read_i32_bytes by done.
  rewrite (drop_app_ge _ _ 8) by by rewrite length_i32_bytes; lia.
  rewrite length_i32_bytes. cbn [Nat.sub]. rewrite drop_app_length' by by rewrite length_i32_bytes.
  rewrite read_num_le; [done|]. cbn. ints.
Qed.

Lemma cmsg_loop_end fuel cursor fds : cmsg_loop fuel cursor [] fds = Ok fds.
Proof. by destruct fuel. Qed.

Lemma cmsg_loop_rights fuel cursor n :
  0 ≤ n ≤ usize_max → 0 ≤ cursor → cursor + 24 ≤ usize_max →
  (length (rights_bytes n) ≤ fuel)%nat → cmsg_loop fuel cursor (rights_bytes n) 0 = Ok n.
Proof.
  intros Hn Hc Hu Hf. unfold rights_bytes in *. case_bool_decide as Hz.
  { subst. by rewrite cmsg_loop_end. }
  rewrite length_cmsg_bytes, length_le_bytes in Hf. destruct fuel as [|fuel]; [lia|].
  assert (E := cmsg_from_bytes SOL_SOCKET SCM_RIGHTS (le_bytes 8 n) [] sol_socket_i32 scm_rights_i32).
  rewrite app_nil_r, length_le_bytes in E. specialize (E ltac:(done)).
  cbn [cmsg_loop]. rewrite E. cbv zeta. cbn [data_len level c_type].
  assert (Ed : drop CMSG_HEADER_LEN_IN_STREAM (cmsg_bytes SOL_SOCKET SCM_RIGHTS (le_bytes 8 n)) = le_bytes 8 n).
  { unfold cmsg_bytes. rewrite !app_assoc. apply drop_app_length'. by rewrite !length_app, !length_i32_bytes, length_le_bytes. }
  rewrite Ed, length_le_bytes. unfold CMSG_HEADER_LEN_IN_STREAM.
  rewrite bool_decide_eq_false_2 by lia. rewrite bool_decide_eq_false_2 by lia.
  rewrite !bool_decide_eq_true_2 by done. cbn [andb]. rewrite Nat2Z.id.
  rewrite take_ge, drop_ge by by rewrite length_le_bytes.
  rewrite <- (app_nil_r (le_bytes 8 n)), read_num_le by (cbn; ints).
  rewrite bool_decide_eq_false_2 by lia. apply cmsg_loop_end.
Qed.

Lemma packet_from_message p n name c :
  0 ≤ n ≤ usize_max → Z.of_nat (length p) + 64 ≤ usize_max →
  packet_from_stream (message_bytes p n) name c = Ok (packet_new p (mk_ancillary c n name)).
Proof.
  intros Hn Hp. unfold packet_from_stream, message_bytes. rewrite read_num_le by (cbn; ints).
  rewrite bool_decide_eq_false_2 by lia. rewrite drop_app_length' by by rewrite length_le_bytes.
  rewrite bool_decide_eq_false_2 by len_lia. rewrite Nat2Z.id, take_app_length, drop_app_length.
  rewrite cmsg_loop_rights; [done|done|lia|lia|]. len_lia.
Qed.

(** ** The writer *)

(** The writer over [buf] after [out] was written *)
Definition wrote (buf out : bytes) : MsgWriter := mk_writer (out ++ drop (length out) buf) (length out).

Lemma put_bytes_wrote buf out data :
  (length out + length data ≤ length buf)%nat → put_bytes data (wrote buf out) = wrote buf (out ++ data).
Proof.
  intros Hl. unfold put_bytes, wrote, copy_at. cbn [buffer written_len].
  rewrite take_app_length, length_app, drop_app_add', drop_drop by lia.
  by rewrite <- app_assoc.
Qed.

Lemma length_wrote buf out :
  (length out ≤ length buf)%nat → length (buffer (wrote buf out)) = length buf.
Proof. intros. unfold wrote. cbn. len_lia. Qed.

Lemma write_payload_fits buf out p iov :
  (length out + 8 + length p ≤ length buf)%nat → 0 ≤ iov →
  write_payload p (length p) iov (wrote buf out) =
    (let n := Z.to_nat (Z.min iov (Z.of_nat (length p))) in
     (Ok n, wrote buf (out ++ le_bytes 8 (Z.of_nat (length p)) ++ take n p))).
Proof.
  intros Hl Hi. cbv zeta. unfold write_payload. rewrite bind_get, length_wrote by lia.
  cbn [written_len wrote]. rewrite bool_decide_eq_false_2 by lia.
  rewrite bind_modify, bind_get. change (mk_writer (out ++ drop (length out) buf) (length out)) with (wrote buf out).
  rewrite put_bytes_wrote by len_lia. cbn [written_len wrote].
  rewrite bool_decide_eq_false_2 by len_lia. rewrite bool_decide_eq_false_2 by lia.
  rewrite bind_modify. change (mk_writer ((out ++ le_bytes 8 (Z.of_nat (length p))) ++ _) _) with
    (wrote buf (out ++ le_bytes 8 (Z.of_nat (length p)))).
  rewrite put_bytes_wrote by len_lia. by rewrite <- app_assoc.
Qed.

Lemma write_cmsg_fits buf out lvl ty data :
  (length out + 16 + length data ≤ length buf)%nat →
  write_cmsg lvl ty data (wrote buf out) = (Ok true, wrote buf (out ++ cmsg_bytes lvl ty data)).
Proof.
  intros Hl. unfold write_cmsg, CMSG_HEADER_LEN_IN_STREAM. rewrite bind_get, length_wrote by lia.
  cbn [written_len wrote]. rewrite !bool_decide_eq_false_2 by lia. rewrite bind_modify.
  change (mk_writer (out ++ drop (length out) buf) (length out)) with (wrote buf out).
  rewrite put_bytes_wrote by len_lia. unfold cmsg_bytes. by rewrite <- !app_assoc.
Qed.

Lemma write_rights_fits buf out n :
  (length out + length (rights_bytes n) ≤ length buf)%nat →
  write_rights n (wrote buf out) = (Ok true, wrote buf (out ++ rights_bytes n)).
Proof.
  unfold write_rights, rights_bytes. case_bool_decide; intros Hl.
  - by rewrite app_nil_r.
  - apply write_cmsg_fits. rewrite length_cmsg_bytes in Hl. lia.
Qed.

Lemma write_credentials_fits buf out c :
  (length out + length (creds_bytes c) ≤ length buf)%nat →
  write_credentials c (wrote buf out) = (Ok true, wrote buf (out ++ creds_bytes c)).
Proof.
  unfold write_credentials, creds_bytes. rewrite length_cmsg_bytes. intros Hl.
  apply write_cmsg_fits. lia.
Qed.

(** *** The writer never panics *)

Definition calm {A} (m : comp MsgWriter A) : Prop := ∀ w, (m w).1 ≠ Panic.

Lemma calm_bind {A B} (m : comp MsgWriter A) (f : A → comp MsgWriter B) :
  calm m → (∀ a, calm (f a)) → calm (m ≫= f).
Proof.
  intros Hm Hf w. specialize (Hm w). unfold mbind, comp_bind. destruct (m w) as [[a|e|] w']; [apply Hf|done|done].
Qed.

Lemma calm_write_name scheme name size :
  calm (write_name name size (λ n b, fpath_with b scheme (push_str (str_bytes n)))).
Proof.
  intros w. unfold write_name. rewrite bind_get. case_bool_decide; [done|].
  destruct name as [name|]; [|done]. rewrite fpath_with_push. done.
Qed.

Lemma calm_write_payload p iov : calm (write_payload p (length p) iov).
Proof.
  intros w. unfold write_payload. rewrite bind_get. case_bool_decide; [done|].
  rewrite bind_modify, bind_get. case_bool_decide; [done|]. rewrite bool_decide_eq_false_2 by lia. done.
Qed.

Lemma calm_write_cmsg lvl ty data : calm (write_cmsg lvl ty data).
Proof. intros w. unfold write_cmsg. rewrite bind_get. by repeat case_bool_decide. Qed.

Lemma calm_write_rights n : calm (write_rights n).
Proof. unfold write_rights. case_bool_decide; [done|apply calm_write_cmsg]. Qed.

Lemma wp_on_writer {S A} (m : comp MsgWriter A) w (Q : outcome (A * MsgWriter) → S → Prop) s :
  calm m → (∀ a w', Q (Ok (a, w')) s) → (∀ e, Q (Err e) s) → wp (on_writer m w) Q s.
Proof.
  intros Hm Ho He. specialize (Hm w). unfold wp, on_writer. destruct (m w) as [[a|e|] w']; [apply Ho|apply He|done].
Qed.

(** The name as it is written: its length, then the text that fits *)
Definition name_bytes (scheme : string) (name : option string) (size : nat) : bytes :=
  match name with
  | None => replicate 8 0
  | Some name =>
     let text := str_bytes "/scheme/" ++ str_bytes scheme ++ str_bytes "/" ++ str_bytes name in
     le_bytes 8 (Z.of_nat (Nat.min (length text) size)) ++ take size text
  end.

Lemma write_name_fits scheme buf name size :
  (8 ≤ length buf)%nat → take 8 buf = replicate 8 0 → 0 ≤ size →
  write_name name size (λ n b, fpath_with b scheme (push_str (str_bytes n))) (writer_new buf) =
    (Ok tt, wrote buf (name_bytes scheme name (Z.to_nat (Z.min size (Z.of_nat (length buf - 8)))))).
Proof.
  intros Hl Hz Hs. unfold write_name, writer_new. rewrite bind_get. cbn [buffer written_len].
  rewrite bool_decide_eq_false_2 by lia. destruct name as [name|]; cbn [name_bytes Nat.add]; cycle 1.
  { unfold put, wrote. rewrite length_replicate. do 2 f_equal. rewrite <- Hz. by rewrite take_drop. }
  rewrite Nat.sub_0_r. set (c := Z.to_nat (Z.min size (Z.of_nat (length buf - 8)))).
  rewrite fpath_with_push. set (text := str_bytes "/scheme/" ++ _).
  assert (Hc : length (slice buf 8 c) = c) by (apply length_slice; lia). rewrite Hc.
  rewrite bind_modify. unfold mbind, comp_bind, lift, modify. cbn [buffer written_len].
  unfold wrote. set (m := Nat.min (length text) c).
  assert (Hm : take c text = take m text).
  { unfold m. destruct (decide (length text ≤ c)%nat); [by rewrite !take_ge by lia|]. by rewrite Nat.min_r by lia. }
  rewrite Hm. rewrite length_app, length_le_bytes, (length_take text). replace (Nat.min m (length text)) with m by lia.
  do 2 f_equal. rewrite copy_at_0, length_le_bytes, <- app_assoc. f_equal.
  unfold copy_at at 1. rewrite drop_app_length' by len_lia. rewrite <- app_assoc. f_equal.
  rewrite length_app, length_take, length_drop, Hc.
  replace (0 + 8 + (Nat.min m (length text) + (c - m)))%nat with (8 + c)%nat by lia.
  rewrite <- (drop_drop buf c 8), <- (drop_drop buf m 8). unfold slice.
  rewrite <- (take_drop c (drop 8 buf)) at 3. rewrite drop_app_le; [done|]. len_lia.
Qed.

Lemma on_writer_ok {S A} (s : S) (m : comp MsgWriter A) w a w' :
  m w = (Ok a, w') → on_writer m w s = (Ok (a, w'), s).
Proof. unfold on_writer. by intros ->. Qed.

Lemma length_name_bytes scheme name size : (length (name_bytes scheme name size) ≤ 8 + size)%nat.
Proof. unfold name_bytes. destruct name; len_lia. Qed.

Lemma length_rights_bytes n : (length (rights_bytes n) ≤ 24)%nat.
Proof. unfold rights_bytes. case_bool_decide; [cbn; lia|]. rewrite length_cmsg_bytes, length_le_bytes. lia. Qed.

Lemma msghdr_eq size iov ctl rest :
  is_usize size → is_usize iov → is_usize ctl →
  read_msghdr_info (le_bytes 8 size ++ le_bytes 8 iov ++ le_bytes 8 ctl ++ rest) =
    (Ok (size, iov, ctl), replicate 24 0 ++ rest).
Proof.
  intros Hs Hi Hc. unfold read_msghdr_info. rewrite bool_decide_eq_false_2 by len_lia.
  unfold slice. rewrite take_app_length' by by rewrite length_le_bytes.
  rewrite (drop_app_length' _ _ 8) by by rewrite length_le_bytes.
  rewrite take_app_length' by by rewrite length_le_bytes.
  rewrite (app_assoc (le_bytes 8 size)), (drop_app_length' _ _ 16) by len_lia.
  rewrite take_app_length' by by rewrite length_le_bytes.
  by rewrite !le_val_bytes by (cbn; ints).
Qed.

End Format.
