(* ===== verification/UdsDgram.v ===== *)
(** * ipcd: the [uds_dgram] scheme

    [ipcd/src/uds/dgram.rs]: datagram sockets.  A socket is behind [Rc<RefCell<_>>] and is
    reached through handles, through the path it is bound to and through the token issued
    when it was bound; it lives in the store [sockets] at the place of its primary id, which
    is never given out twice.  No function borrows a socket that is still borrowed mutably,
    so that the [RefCell]s never fail.

    The random number that becomes a token, the answer of [get_proc_credentials], the
    descriptors that [obtain_fd] gives and whether [move_fd] succeeds are arguments of the
    calls; [write_response] may fail at any attempt, as in [Chan]. *)

From S2P Require Import Prelude Abi SchemeUtils Uds.

(** ** State *)

Inductive State : Set := Unbound | Bound | Closed.

#[global] Instance dgram_state_eq_dec : EqDecision State.
Proof. solve_decision. Defined.

Record Socket := mk_socket {
  primary_id : Z;
  path : option string;
  state : State;
  peer : option Z;
  messages : list DataPacket;
  options : gset Z;
  fds : list Z;
  flags : Z;
  issued_token : option Z
}.

(** [Socket::default()], with its primary id *)
Definition socket_default (id : Z) : Socket := mk_socket id None Unbound None [] ∅ [] 0 None.

Definition set_path p k := mk_socket (primary_id k) p (state k) (peer k) (messages k) (options k) (fds k) (flags k) (issued_token k).
Definition set_state x k := mk_socket (primary_id k) (path k) x (peer k) (messages k) (options k) (fds k) (flags k) (issued_token k).
Definition set_peer x k := mk_socket (primary_id k) (path k) (state k) x (messages k) (options k) (fds k) (flags k) (issued_token k).
Definition set_messages x k := mk_socket (primary_id k) (path k) (state k) (peer k) x (options k) (fds k) (flags k) (issued_token k).
Definition set_options x k := mk_socket (primary_id k) (path k) (state k) (peer k) (messages k) x (fds k) (flags k) (issued_token k).
Definition set_fds x k := mk_socket (primary_id k) (path k) (state k) (peer k) (messages k) (options k) x (flags k) (issued_token k).
Definition set_flags x k := mk_socket (primary_id k) (path k) (state k) (peer k) (messages k) (options k) (fds k) x (issued_token k).
Definition set_token x k := mk_socket (primary_id k) (path k) (state k) (peer k) (messages k) (options k) (fds k) (flags k) x.

Record UdsDgramScheme := mk_dgram {
  handles : gmap Z Handle;
  sockets : gmap Z Socket;
  next_id : Z;
  socket_paths : gmap string Z;
  socket_tokens : gmap Z Z;
  posted : list (Z * Z)
}.

Definition dgram_new : UdsDgramScheme := mk_dgram ∅ ∅ 0 ∅ ∅ [].

Definition set_handles f s := mk_dgram (f (handles s)) (sockets s) (next_id s) (socket_paths s) (socket_tokens s) (posted s).
Definition set_sockets f s := mk_dgram (handles s) (f (sockets s)) (next_id s) (socket_paths s) (socket_tokens s) (posted s).
Definition set_next_id n s := mk_dgram (handles s) (sockets s) n (socket_paths s) (socket_tokens s) (posted s).
Definition set_paths f s := mk_dgram (handles s) (sockets s) (next_id s) (f (socket_paths s)) (socket_tokens s) (posted s).
Definition set_tokens f s := mk_dgram (handles s) (sockets s) (next_id s) (socket_paths s) (f (socket_tokens s)) (posted s).
Definition log_post e s := mk_dgram (handles s) (sockets s) (next_id s) (socket_paths s) (socket_tokens s) (posted s ++ [e]).

(** ** Operations *)

(** [fpath_inner] *)
Definition fpath_inner (path : string) (buf : bytes) : outcome nat * bytes :=
  fpath_with buf "uds_dgram" (push_str (str_bytes path)).

Section Ops.
Context {SA : SyscallAbi} {L : Libc} {SC : SocketCalls}.
Variable write_response : list (Z * Z) → Z * Z → errno + bool.

Definition post_fevent (id evs : Z) : comp UdsDgramScheme unit :=
  s ← get;
  put (log_post (id, evs) s);;
  match write_response (posted s) (id, evs) with
  | inr true => mret tt
  | inr false => fail EAGAIN
  | inl err => fail err
  end.

(** [get_socket], as the place of the socket *)
Definition get_socket (id : Z) : comp UdsDgramScheme Z :=
  s ← get;
  match handles s !! id with
  | Some (HSocket l) => mret l
  | _ => fail EBADF
  end.

(** [rc.borrow()] *)
Definition borrow (l : Z) : comp UdsDgramScheme Socket :=
  s ← get;
  expect (sockets s !! l).

(** An assignment through [rc.borrow_mut()] *)
Definition update (l : Z) (f : Socket → Socket) : comp UdsDgramScheme unit :=
  k ← borrow l;
  modify (set_sockets <[l := f k]>).

Definition bump_next_id : comp UdsDgramScheme unit :=
  s ← get;
  n ← add_usize (next_id s) 1;
  modify (set_next_id n).

(** [Rc::new(RefCell::new(new))] under the next id *)
Definition insert_new (k : Socket) : comp UdsDgramScheme unit :=
  modify (set_sockets <[primary_id k := k]>);;
  modify (set_handles <[primary_id k := HSocket (primary_id k)]>);;
  bump_next_id.

(** [get_connected_peer] *)
Definition get_connected_peer (id : Z) : comp UdsDgramScheme (Z * Z) :=
  l ← get_socket id;
  socket ← borrow l;
  remote_id ← ok_or ENOTCONN (peer socket);
  s ← get;
  match handles s !! remote_id with
  | Some (HSocket r) =>
     remote ← borrow r;
     if bool_decide (state remote = Closed) then fail ECONNREFUSED else mret (remote_id, r)
  | _ => fail EPIPE
  end.

(** [handle_unnamed_socket] *)
Definition handle_unnamed_socket (fl : Z) : comp UdsDgramScheme Z :=
  s ← get;
  insert_new (set_flags fl (socket_default (next_id s)));;
  mret (next_id s).

(** [handle_bind]; [token] is the next number of the random generator *)
Definition handle_bind (id : Z) (path_buf : bytes) (token : Z) : comp UdsDgramScheme Z :=
  p ← lift (path_buf_to_str path_buf);
  s ← get;
  if bool_decide (is_Some (socket_paths s !! p)) then fail EADDRINUSE
  else
    l ← get_socket id;
    socket ← borrow l;
    if bool_decide (state socket = Unbound) then
      update l (λ k, set_token (Some token) (set_state Bound (set_path (Some p) k)));;
      modify (set_paths <[p := l]>);;
      modify (set_tokens <[token := l]>);;
      mret 0
    else fail EINVAL.

(** [handle_connect] *)
Definition handle_connect (id : Z) (token_buf : bytes) : comp UdsDgramScheme Z :=
  token ← lift (read_num 8 token_buf);
  s ← get;
  target ← ok_or ECONNREFUSED (socket_tokens s !! token);
  target_socket ← borrow target;
  target_socket_token ← ok_or ECONNREFUSED (issued_token target_socket);
  if bool_decide (target_socket_token = token) then
    let target_id := primary_id target_socket in
    l ← get_socket id;
    update l (set_peer (Some target_id));;
    mret 0
  else fail EACCES.

(** [handle_setsockopt] *)
Definition handle_setsockopt (id option : Z) (value_slice : bytes) : comp UdsDgramScheme Z :=
  l ← get_socket id;
  if bool_decide (option = SO_PASSCRED) then
    value ← lift (read_i32 value_slice);
    update l (λ k, set_options (if bool_decide (value = 0) then options k ∖ {[SO_PASSCRED]}
                                else options k ∪ {[SO_PASSCRED]}) k);;
    mret (Z.of_nat (length value_slice))
  else fail ENOPROTOOPT.

(** [handle_getsockopt]: the count and the payload afterwards *)
Definition handle_getsockopt (option : Z) (payload : bytes) : comp UdsDgramScheme (Z * bytes) :=
  if bool_decide (option = SO_DOMAIN) then
    if bool_decide (length payload < 4)%nat then fail ENOBUFS
    else mret (4, copy_at (replicate (length payload) 0) 0 (i32_bytes AF_UNIX))
  else fail ENOPROTOOPT.

(** [sendmsg_inner] on the socket at [r] *)
Definition sendmsg_inner (r : Z) (name : option string) (msg_stream : bytes) (meta : option bytes) :
    comp UdsDgramScheme Z :=
  if bool_decide (msg_stream = []) then fail EINVAL
  else
    ids ← lift (get_uid_gid_from_pid meta);
    let '(pid, uid, gid) := ids in
    message ← lift (packet_from_stream msg_stream name (mk_cred (as_i32 pid) (as_i32 uid) (as_i32 gid)));
    update r (λ k, set_messages (messages k ++ [message]) k);;
    mret (Z.of_nat (length (payload message))).

(** [handle_sendmsg] *)
Definition handle_sendmsg (id : Z) (msg_stream : bytes) (meta : option bytes) : comp UdsDgramScheme Z :=
  if bool_decide (msg_stream = []) then fail EINVAL
  else
    l ← get_socket id;
    socket ← borrow l;
    remote ← get_connected_peer id;
    bytes_written ← sendmsg_inner remote.2 (path socket) msg_stream meta;
    post_fevent remote.1 EVENT_READ;;
    mret bytes_written.

(** [drop_fds] *)
Definition drop_fds (l n : Z) : comp UdsDgramScheme unit :=
  k ← borrow l;
  let '(all, rest) := pop_fds n (fds k) in
  update l (set_fds rest);;
  if all then mret tt else fail EINVAL.

(** The options loop of [serialize_to_stream] *)
Fixpoint write_options (opts : list Z) (c : Credential) : comp MsgWriter unit :=
  match opts with
  | [] => mret tt
  | option :: opts =>
     if bool_decide (option = SO_PASSCRED) then
       result ← write_credentials c;
       if (result : bool) then write_options opts c else mret tt
     else fail EOPNOTSUPP
  end.

(** [DataPacket::serialize_to_stream]: the length written and the stream afterwards; the
    set of options is iterated in some order *)
Definition serialize_to_stream (message : DataPacket) (stream : bytes) (l : Z)
    (name_buf_size iov_size : Z) : comp UdsDgramScheme (Z * bytes) :=
  let a := ancillary_data message in
  head ← on_writer
    (write_name (a_name a) name_buf_size fpath_inner;;
     write_payload (payload message) (length (payload message)) iov_size;;
     write_rights (num_fds a)) (writer_new stream);
  (if head.1 : bool then mret tt else drop_fds l (num_fds a));;
  k ← borrow l;
  done ← on_writer (write_options (elements (options k)) (cred a)) head.2;
  mret (Z.of_nat (written_len done.2), buffer done.2).

(** [recvmsg_inner] *)
Definition recvmsg_inner (l : Z) (message : DataPacket) (msg_stream : bytes) :
    comp UdsDgramScheme (Z * bytes) :=
  let '(sizes, msg_stream) := read_msghdr_info msg_stream in
  sizes ← lift sizes;
  let '(prepared_name_len, prepared_whole_iov_size, _) := sizes in
  serialize_to_stream message msg_stream l prepared_name_len prepared_whole_iov_size.

(** [handle_recvmsg] *)
Definition handle_recvmsg (id : Z) (msg_stream : bytes) : comp UdsDgramScheme (Z * bytes) :=
  l ← get_socket id;
  socket ← borrow l;
  match messages socket with
  | message :: rest =>
     update l (set_messages rest);;
     recvmsg_inner l message msg_stream
  | [] => if has_flag (flags socket) O_NONBLOCK then fail EAGAIN else fail EWOULDBLOCK
  end.

(** [handle_unbind] *)
Definition handle_unbind (id : Z) : comp UdsDgramScheme Z :=
  l ← get_socket id;
  socket ← borrow l;
  if bool_decide (state socket = Bound) then
    update l (λ k, set_path None (set_state Unbound k));;
    match path socket with
    | Some p => modify (set_paths (delete p))
    | None => mret tt
    end;;
    mret 0
  else fail EINVAL.

(** [handle_get_token] *)
Definition handle_get_token (id : Z) (payload : bytes) : comp UdsDgramScheme (Z * bytes) :=
  l ← get_socket id;
  socket ← borrow l;
  token ← ok_or EINVAL (issued_token socket);
  if bool_decide (length payload < 8)%nat then fail ENOBUFS
  else mret (8, copy_at payload 0 (le_bytes 8 token)).

(** [handle_get_peer_name] *)
Definition handle_get_peer_name (id : Z) (payload : bytes) : comp UdsDgramScheme (Z * bytes) :=
  remote ← get_connected_peer id;
  socket ← borrow remote.2;
  let '(r, payload) := fpath_inner (default EmptyString (path socket)) payload in
  n ← lift r;
  mret (Z.of_nat n, payload).

(** [handle_connect_socketpair] *)
Definition handle_connect_socketpair (id : Z) : comp UdsDgramScheme OpenResult :=
  s ← get;
  let new_id := next_id s in
  l ← get_socket id;
  socket ← borrow l;
  if bool_decide (state socket = Closed) then fail ECONNREFUSED
  else
    update l (set_peer (Some new_id));;
    post_fevent id (Z.lor EVENT_READ EVENT_WRITE);;
    insert_new (set_peer (Some id) (socket_default new_id));;
    mret (ThisScheme new_id).

(** [handle_recvfd] *)
Definition handle_recvfd (id : Z) : comp UdsDgramScheme OpenResult :=
  l ← get_socket id;
  socket ← borrow l;
  match fds socket with
  | fd :: rest => update l (set_fds rest);; mret (OtherScheme fd)
  | [] => fail EWOULDBLOCK
  end.

(** [handle_listen]: another id for the same socket *)
Definition handle_listen (id : Z) : comp UdsDgramScheme OpenResult :=
  l ← get_socket id;
  s ← get;
  modify (set_handles <[next_id s := HSocket l]>);;
  bump_next_id;;
  mret (ThisScheme (next_id s)).

(** [write], [write_inner] *)
Definition write (id : Z) (buf : bytes) (ctx : CallerCtx) : comp UdsDgramScheme Z :=
  if bool_decide (MAX_DGRAM_MSG_LEN < Z.of_nat (length buf)) then fail EMSGSIZE
  else
    l ← get_socket id;
    socket ← borrow l;
    if bool_decide (state socket = Closed) then fail EPIPE
    else
      remote ← get_connected_peer id;
      let message := packet_new buf (ancillary_new
        (mk_cred (as_i32 (ctx_pid ctx)) (as_i32 (ctx_uid ctx)) (as_i32 (ctx_gid ctx))) (path socket)) in
      update remote.2 (λ k, set_messages (messages k ++ [message]) k);;
      post_fevent remote.1 EVENT_READ;;
      mret (Z.of_nat (length buf)).

(** [read], [read_inner]: the count and the buffer afterwards *)
Definition read (id : Z) (buf : bytes) (fl : Z) : comp UdsDgramScheme (Z * bytes) :=
  l ← get_socket id;
  socket ← borrow l;
  match messages socket with
  | message :: rest =>
     update l (set_messages rest);;
     let copy_len := Nat.min (length buf) (length (payload message)) in
     mret (Z.of_nat copy_len, copy_at buf 0 (take copy_len (payload message)))
  | [] => if has_flag fl O_NONBLOCK then fail EAGAIN else fail EWOULDBLOCK
  end.

(** [on_sendfd], [sendfd_inner]; [obtained] is what [obtain_fd] answers *)
Definition on_sendfd (id num_fds : Z) (obtained : errno + list Z) : comp UdsDgramScheme Z :=
  if bool_decide (num_fds = 0) then mret 0
  else
    match obtained with
    | inl e => fail e
    | inr new_fds =>
       remote ← get_connected_peer id;
       update remote.2 (λ k, set_fds (fds k ++ new_fds) k);;
       post_fevent remote.1 EVENT_READ;;
       mret (Z.of_nat (length new_fds))
    end.

(** [on_recvfd], [recvfd_inner]; [moved] tells whether [move_fd] succeeds *)
Definition on_recvfd (id num_fds : Z) (moved : bool) : comp UdsDgramScheme OpenResult :=
  if bool_decide (num_fds = 0) then mret (OtherSchemeMultiple 0)
  else
    l ← get_socket id;
    socket ← borrow l;
    if bool_decide (Z.of_nat (length (fds socket)) < num_fds) then
      if has_flag (flags socket) O_NONBLOCK then mret WouldBlock else fail EWOULDBLOCK
    else
      update l (set_fds (drop (Z.to_nat num_fds) (fds socket)));;
      if moved then mret (OtherSchemeMultiple num_fds) else fail EPROTO.

(** [scheme_root] *)
Definition scheme_root : comp UdsDgramScheme Z :=
  s ← get;
  modify (set_handles <[next_id s := HSchemeRoot]>);;
  bump_next_id;;
  mret (next_id s).

(** [openat] *)
Definition openat (fd : Z) (p : string) (fl fcntl_flags : Z) : comp UdsDgramScheme OpenResult :=
  s ← get;
  match handles s !! fd with
  | None => fail EBADF
  | Some (HSocket _) => fail EACCES
  | Some HSchemeRoot =>
     let fl := Z.lor fl fcntl_flags in
     if bool_decide (p = EmptyString) then
       if has_flag fl O_CREAT then
         new_id ← handle_unnamed_socket fl;
         mret (ThisScheme new_id)
       else fail EINVAL
     else fail EINVAL
  end.

(** [call], [call_inner]; [token] and [meta] are the answers of the random generator and of
    [get_proc_credentials], should the verb ask for them *)
Definition call (id : Z) (payload : bytes) (metadata : list Z) (token : Z) (meta : option bytes) :
    comp UdsDgramScheme (Z * bytes) :=
  let keep (m : comp UdsDgramScheme Z) := n ← m; mret (n, payload) in
  raw ← expect (metadata !! 0%nat);
  verb ← ok_or EINVAL (socket_call_of_raw raw);
  match verb with
  | Bind => keep (handle_bind id payload token)
  | Connect => keep (handle_connect id payload)
  | SetSockOpt => option ← expect (metadata !! 1%nat); keep (handle_setsockopt id (as_i32 option) payload)
  | GetSockOpt => option ← expect (metadata !! 1%nat); handle_getsockopt (as_i32 option) payload
  | SendMsg => keep (handle_sendmsg id payload meta)
  | RecvMsg => handle_recvmsg id payload
  | Unbind => keep (handle_unbind id)
  | GetToken => handle_get_token id payload
  | GetPeerName => handle_get_peer_name id payload
  | OtherCall => fail EOPNOTSUPP
  end.

(** [dup] *)
Definition dup (id : Z) (buf : bytes) : comp UdsDgramScheme OpenResult :=
  if bool_decide (buf = str_bytes "connect") then handle_connect_socketpair id
  else if bool_decide (buf = str_bytes "recvfd") then handle_recvfd id
  else if bool_decide (buf = str_bytes "listen") then handle_listen id
  else fail EINVAL.

(** [fpath] *)
Definition fpath (id : Z) (buf : bytes) : comp UdsDgramScheme (Z * bytes) :=
  s ← get;
  handle ← ok_or EBADF (handles s !! id);
  p ← match handle with
      | HSchemeRoot => mret EmptyString
      | HSocket l => socket ← borrow l; mret (default EmptyString (path socket))
      end;
  let '(r, buf) := fpath_inner p buf in
  n ← lift r;
  mret (Z.of_nat n, buf).

(** [fsync] *)
Definition fsync (id : Z) : comp UdsDgramScheme unit := get_socket id;; mret tt.

(** [on_close] *)
Definition on_close (id : Z) : comp UdsDgramScheme unit :=
  s ← get;
  modify (set_handles (delete id));;
  match handles s !! id with
  | Some (HSocket l) =>
     socket ← borrow l;
     if bool_decide (primary_id socket = id) then
       update l (λ k, set_path None (set_peer None (set_state Closed k)));;
       match path socket with Some p => modify (set_paths (delete p)) | None => mret tt end;;
       match issued_token socket with Some t => modify (set_tokens (delete t)) | None => mret tt end
     else mret tt
  | _ => mret tt
  end.

(** [fcntl] *)
Definition fcntl (id cmd arg : Z) : comp UdsDgramScheme Z :=
  l ← get_socket id;
  socket ← borrow l;
  if bool_decide (cmd = F_GETFL) then mret (flags socket)
  else if bool_decide (cmd = F_SETFL) then update l (set_flags arg);; mret 0
  else fail EINVAL.

(** [fevent] *)
Definition fevent (id fl : Z) : comp UdsDgramScheme Z :=
  l ← get_socket id;
  socket ← borrow l;
  mret (Z.lor (if has_flag fl EVENT_READ && negb (bool_decide (length (messages socket) = 0%nat)) then EVENT_READ else 0)
              (if has_flag fl EVENT_WRITE && bool_decide (is_Some (peer socket)) then EVENT_WRITE else 0)).

(** [fstat]: the mode *)
Definition fstat (id : Z) : comp UdsDgramScheme Z := get_socket id;; mret MODE_SOCK.
End Ops.

(** ** Messages *)

Section Messages.
Context {SA : SyscallAbi} {L : Libc} {LL : LibcLaws L}.
Variable write_response : list (Z * Z) → Z * Z → errno + bool.
Implicit Types s : UdsDgramScheme.

Lemma get_socket_eq s id l : handles s !! id = Some (HSocket l) → get_socket id s = (Ok l, s).
Proof. intros H. unfold get_socket. by rewrite bind_get, H. Qed.

Lemma borrow_eq s l k : sockets s !! l = Some k → borrow l s = (Ok k, s).
Proof. intros H. unfold borrow. by rewrite bind_get, H. Qed.

Lemma update_eq s l k f : sockets s !! l = Some k → update l f s = (Ok tt, set_sockets <[l := f k]> s).
Proof. intros H. unfold update. by rewrite (bind_ok _ _ _ _ _ (borrow_eq s l k H)). Qed.

Lemma get_connected_peer_eq s id l k b r kr :
  handles s !! id = Some (HSocket l) → sockets s !! l = Some k → peer k = Some b →
  handles s !! b = Some (HSocket r) → sockets s !! r = Some kr → state kr ≠ Closed →
  get_connected_peer id s = (Ok (b, r), s).
Proof.
  intros Hh Hk Hp Hb Hr Hc. unfold get_connected_peer.
  rewrite (bind_ok _ _ _ _ _ (get_socket_eq s id l Hh)), (bind_ok _ _ _ _ _ (borrow_eq s l k Hk)).
  rewrite Hp. cbn [ok_or]. rewrite bind_ret, bind_get, Hb.
  rewrite (bind_ok _ _ _ _ _ (borrow_eq s r kr Hr)). by rewrite bool_decide_eq_false_2.
Qed.

Lemma post_fevent_ok s id evs :
  write_response (posted s) (id, evs) = inr true →
  post_fevent write_response id evs s = (Ok tt, log_post (id, evs) s).
Proof. intros H. unfold post_fevent, mbind, comp_bind, get, put. by rewrite H. Qed.

Definition option_bytes (opts : gset Z) (c : Credential) : bytes :=
  if bool_decide (SO_PASSCRED ∈ opts) then creds_bytes c else [].

Lemma write_options_fits opts c buf out :
  opts ⊆ {[SO_PASSCRED]} → (length out + length (option_bytes opts c) ≤ length buf)%nat →
  write_options (elements opts) c (wrote buf out) = (Ok tt, wrote buf (out ++ option_bytes opts c)).
Proof.
  intros Hsub. unfold option_bytes. case_bool_decide as Hin; intros Hl.
  - replace opts with ({[SO_PASSCRED]} : gset Z) by set_solver. rewrite elements_singleton.
    cbn [write_options]. rewrite bool_decide_eq_true_2 by done.
    rewrite (bind_ok _ _ _ _ _ (write_credentials_fits buf out c Hl)). done.
  - replace opts with (∅ : gset Z) by set_solver. rewrite elements_empty. by rewrite app_nil_r.
Qed.

(** What [recvmsg] writes for a message *)
Definition answer (k : Socket) (m : DataPacket) (size iov : nat) : bytes :=
  name_bytes "uds_dgram" (a_name (ancillary_data m)) size ++
  le_bytes 8 (Z.of_nat (length (payload m))) ++ take iov (payload m) ++
  rights_bytes (num_fds (ancillary_data m)) ++ option_bytes (options k) (cred (ancillary_data m)).

Lemma length_option_bytes opts c : (length (option_bytes opts c) ≤ 28)%nat.
Proof.
  unfold option_bytes, creds_bytes. case_bool_decide; [|cbn; lia]. rewrite length_cmsg_bytes. len_lia.
Qed.

Lemma serialize_fits s l k m buf size iov :
  sockets s !! l = Some k → options k ⊆ {[SO_PASSCRED]} →
  take 8 buf = replicate 8 0 → 0 ≤ size → 0 ≤ iov →
  Z.of_nat (length (payload m)) + size + 100 ≤ Z.of_nat (length buf) →
  serialize_to_stream m buf l size iov s =
    (let out := answer k m (Z.to_nat size) (Z.to_nat (Z.min iov (Z.of_nat (length (payload m))))) in
     (Ok (Z.of_nat (length out), out ++ drop (length out) buf), s)).
Proof.
  intros Hk Ho Hz Hs Hi Hl. cbv zeta. unfold serialize_to_stream.
  pose proof (length_name_bytes "uds_dgram" (a_name (ancillary_data m)) (Z.to_nat size)).
  pose proof (length_rights_bytes (num_fds (ancillary_data m))).
  pose proof (length_option_bytes (options k) (cred (ancillary_data m))).
  erewrite bind_ok; cycle 1.
  { apply on_writer_ok. erewrite bind_ok; [|apply write_name_fits; [lia|done|done]].
    rewrite Z.min_l by lia. erewrite bind_ok; [|apply write_payload_fits; lia].
    apply write_rights_fits. len_lia. }
  cbn [fst snd]. rewrite bind_ret. rewrite (bind_ok _ _ _ _ _ (borrow_eq s l k Hk)).
  erewrite bind_ok; [|apply on_writer_ok, write_options_fits; [done|len_lia]].
  cbn [snd wrote written_len buffer]. unfold answer. rewrite <- !app_assoc. done.
Qed.

(** Socket [a] at [la] is connected to the open socket [b] at [lb] *)
Record connected s (a b la lb : Z) (ka kb : Socket) : Prop := {
  conn_a : handles s !! a = Some (HSocket la);
  conn_ka : sockets s !! la = Some ka;
  conn_peer : peer ka = Some b;
  conn_b : handles s !! b = Some (HSocket lb);
  conn_kb : sockets s !! lb = Some kb;
  conn_open : state kb ≠ Closed;
}.

Lemma connected_peer s a b la lb ka kb :
  connected s a b la lb ka kb → get_connected_peer a s = (Ok (b, lb), s).
Proof. intros []. by eapply get_connected_peer_eq. Qed.

(** [kb] with one more message *)
Definition deliver (m : DataPacket) (k : Socket) : Socket := set_messages (messages k ++ [m]) k.

Lemma handle_sendmsg_eq s a b la lb ka kb p n meta pid uid gid :
  connected s a b la lb ka kb → get_uid_gid_from_pid meta = Ok (pid, uid, gid) →
  0 ≤ n ≤ usize_max → Z.of_nat (length p) + 64 ≤ usize_max →
  write_response (posted s) (b, EVENT_READ) = inr true →
  let m := packet_new p (mk_ancillary (mk_cred (as_i32 pid) (as_i32 uid) (as_i32 gid)) n (path ka)) in
  handle_sendmsg write_response a (message_bytes p n) meta s =
    (Ok (Z.of_nat (length p)), log_post (b, EVENT_READ) (set_sockets <[lb := deliver m kb]> s)).
Proof.
  intros Hc Hid Hn Hp Hw m. assert (Hne : message_bytes p n ≠ []).
  { unfold message_bytes. by destruct p. }
  unfold handle_sendmsg. rewrite bool_decide_eq_false_2 by done.
  rewrite (bind_ok _ _ _ _ _ (get_socket_eq s a la (conn_a _ _ _ _ _ _ _ Hc))).
  rewrite (bind_ok _ _ _ _ _ (borrow_eq s la ka (conn_ka _ _ _ _ _ _ _ Hc))).
  rewrite (bind_ok _ _ _ _ _ (connected_peer _ _ _ _ _ _ _ Hc)). cbn [fst snd].
  erewrite bind_ok; cycle 1.
  { unfold sendmsg_inner. rewrite bool_decide_eq_false_2 by done.
    rewrite (bind_ok _ _ _ (pid, uid, gid) s) by (unfold lift; by rewrite Hid).
    rewrite (bind_ok _ _ _ m s) by (unfold lift; by rewrite packet_from_message).
    erewrite bind_ok; [|apply update_eq, (conn_kb _ _ _ _ _ _ _ Hc)]. reflexivity. }
  erewrite bind_ok; [|by apply post_fevent_ok]. done.
Qed.

Lemma handle_recvmsg_eq s b lb kb m rest size iov ctl tail :
  handles s !! b = Some (HSocket lb) → sockets s !! lb = Some kb → messages kb = m :: rest →
  options kb ⊆ {[SO_PASSCRED]} → is_usize size → is_usize iov → is_usize ctl →
  Z.of_nat (length (payload m)) + size + 100 ≤ Z.of_nat (length tail) →
  let out := answer kb m (Z.to_nat size) (Z.to_nat (Z.min iov (Z.of_nat (length (payload m))))) in
  handle_recvmsg b (le_bytes 8 size ++ le_bytes 8 iov ++ le_bytes 8 ctl ++ tail) s =
    (Ok (Z.of_nat (length out), out ++ drop (length out) (replicate 24 0 ++ tail)),
     set_sockets <[lb := set_messages rest kb]> s).
Proof.
  intros Hb Hk Hm Ho Hs Hi Hc Hl out. unfold handle_recvmsg.
  rewrite (bind_ok _ _ _ _ _ (get_socket_eq s b lb Hb)), (bind_ok _ _ _ _ _ (borrow_eq s lb kb Hk)), Hm.
  erewrite bind_ok; [|by apply update_eq]. unfold recvmsg_inner. rewrite msghdr_eq by done.
  rewrite (bind_ok _ _ _ (size, iov, ctl) (set_sockets <[lb := set_messages rest kb]> s)) by done.
  rewrite (serialize_fits _ lb (set_messages rest kb)); [done|..|ints|ints|len_lia].
  - apply lookup_insert_eq.
  - done.
  - done.
Qed.

(** C35. A datagram arrives as it was sent: between connected sockets, [recvmsg] with room
    enough returns the sender's path, the whole payload cut to the size asked for, the
    number of descriptors announced, and the credentials of the sender when the receiver
    asked for them; nothing else in the scheme changes. *)
Theorem dgram_message_roundtrip s a b la lb ka kb p n meta pid uid gid size iov ctl tail :
  connected s a b la lb ka kb → messages kb = [] → options kb ⊆ {[SO_PASSCRED]} →
  get_uid_gid_from_pid meta = Ok (pid, uid, gid) →
  0 ≤ n ≤ usize_max → Z.of_nat (length p) + 64 ≤ usize_max →
  write_response (posted s) (b, EVENT_READ) = inr true →
  is_usize size → is_usize iov → is_usize ctl →
  Z.of_nat (length p) + size + 100 ≤ Z.of_nat (length tail) →
  let out :=
    name_bytes "uds_dgram" (path ka) (Z.to_nat size) ++
    le_bytes 8 (Z.of_nat (length p)) ++ take (Z.to_nat (Z.min iov (Z.of_nat (length p)))) p ++
    rights_bytes n ++
    option_bytes (options kb) (mk_cred (as_i32 pid) (as_i32 uid) (as_i32 gid)) in
  ∃ s1, handle_sendmsg write_response a (message_bytes p n) meta s = (Ok (Z.of_nat (length p)), s1) ∧
    handle_recvmsg b (le_bytes 8 size ++ le_bytes 8 iov ++ le_bytes 8 ctl ++ tail) s1 =
      (Ok (Z.of_nat (length out), out ++ drop (length out) (replicate 24 0 ++ tail)),
       log_post (b, EVENT_READ) s).
Proof.
  intros Hc Hm Ho Hid Hn Hp Hw Hs Hi Hctl Hl out. eexists. split; [by eapply handle_sendmsg_eq|].
  erewrite handle_recvmsg_eq; cycle 1.
  - exact (conn_b _ _ _ _ _ _ _ Hc).
  - apply lookup_insert_eq.
  - cbn. rewrite Hm. reflexivity.
  - exact Ho.
  - done.
  - done.
  - done.
  - exact Hl.
  - cbn [options set_messages deliver]. f_equal. unfold log_post, set_sockets. cbn.
    f_equal. rewrite insert_insert_eq. rewrite <- (insert_id (sockets s) lb kb) at 2.
    + f_equal. rewrite <- Hm. by destruct kb.
    + exact (conn_kb _ _ _ _ _ _ _ Hc).
Qed.

(** *** Order *)

(** What the two ends do: [a] writes and [b] reads *)
Inductive dg_op : Type :=
  | OpWrite (buf : bytes) (ctx : CallerCtx)
  | OpRead (n : nat) (fl : Z).

(** The data of the reads that succeed, each with the size of the reader's buffer *)
Fixpoint dg_run (a b : Z) (ops : list dg_op) : comp UdsDgramScheme (list (nat * bytes)) :=
  match ops with
  | [] => mret []
  | OpWrite buf ctx :: ops =>
     attempt (write write_response a buf ctx);;
     dg_run a b ops
  | OpRead n fl :: ops =>
     r ← attempt (read b (replicate n 0) fl);
     outs ← dg_run a b ops;
     mret match r with
          | Some (c, buf) => (n, take (Z.to_nat c) buf) :: outs
          | None => outs
          end
  end.

(** The datagrams that are small enough to be accepted *)
Definition sent (ops : list dg_op) : list bytes :=
  omap (λ op, match op with
              | OpWrite buf _ => if bool_decide (Z.of_nat (length buf) ≤ MAX_DGRAM_MSG_LEN) then Some buf else None
              | OpRead _ _ => None
              end) ops.

(** [a] at [la] is open and connected to [b] at [lb], where [q] waits *)
Definition pipe s (a b la lb : Z) (q : list bytes) : Prop :=
  ∃ ka kb, connected s a b la lb ka kb ∧ state ka ≠ Closed ∧ payload <$> messages kb = q.

Lemma pipe_update s a b la lb q kb ms :
  pipe s a b la lb q → sockets s !! lb = Some kb →
  pipe (set_sockets <[lb := set_messages ms kb]> s) a b la lb (payload <$> ms).
Proof.
  intros (ka & kb' & [Ha Hka Hp Hb Hkb Ho] & Hs & _) Hk.
  assert (kb' = kb) as -> by congruence.
  destruct (decide (la = lb)) as [->|Hne].
  - assert (ka = kb) as -> by congruence. exists (set_messages ms kb), (set_messages ms kb).
    split_and!; [|done|done]. by split; try apply lookup_insert_eq.
  - exists ka, (set_messages ms kb). split_and!; [|done|done].
    split; cbn; try done; [by rewrite lookup_insert_ne|by apply lookup_insert_eq].
Qed.

Lemma pipe_post s a b la lb q e : pipe s a b la lb q → pipe (log_post e s) a b la lb q.
Proof. intros (ka & kb & [] & Hs & Hq). exists ka, kb. by split; [split|]. Qed.

Lemma pipe_write s a b la lb q buf ctx :
  pipe s a b la lb q → ∃ r s', attempt (write write_response a buf ctx) s = (Ok r, s') ∧
    pipe s' a b la lb (q ++ if bool_decide (Z.of_nat (length buf) ≤ MAX_DGRAM_MSG_LEN) then [buf] else []).
Proof.
  intros Hpipe. destruct (Hpipe) as (ka & kb & Hc & Hs & Hq). unfold attempt, write.
  case_bool_decide as Hlen.
  - rewrite bool_decide_eq_false_2 by lia. exists None, s. by rewrite app_nil_r.
  - rewrite bool_decide_eq_true_2 by lia.
    rewrite (bind_ok _ _ _ _ _ (get_socket_eq s a la (conn_a _ _ _ _ _ _ _ Hc))).
    rewrite (bind_ok _ _ _ _ _ (borrow_eq s la ka (conn_ka _ _ _ _ _ _ _ Hc))).
    rewrite bool_decide_eq_false_2 by done.
    rewrite (bind_ok _ _ _ _ _ (connected_peer _ _ _ _ _ _ _ Hc)). cbn [fst snd].
    erewrite bind_ok; [|apply update_eq, (conn_kb _ _ _ _ _ _ _ Hc)].
    eassert (Hp' := pipe_post _ _ _ _ _ _ (b, EVENT_READ)
      (pipe_update s a b la lb q kb (messages kb ++ [_]) Hpipe (conn_kb _ _ _ _ _ _ _ Hc))).
    rewrite fmap_app, Hq in Hp'. unfold post_fevent, mbind, comp_bind, get, put. cbn [posted set_sockets].
    destruct (write_response (posted s) (b, EVENT_READ)) as [e|[]]; eexists _, _; (split; [reflexivity|exact Hp']).
Qed.

Lemma pipe_read s a b la lb q n fl :
  pipe s a b la lb q → ∃ s',
    attempt (read b (replicate n 0) fl) s =
      (Ok match q with
          | m :: _ => let c := Nat.min n (length m) in
                      Some (Z.of_nat c, copy_at (replicate n 0) 0 (take c m))
          | [] => None
          end, s') ∧ pipe s' a b la lb (tail q).
Proof.
  intros Hpipe. destruct (Hpipe) as (ka & kb & Hc & Hs & Hq). unfold attempt, read.
  rewrite (bind_ok _ _ _ _ _ (get_socket_eq s b lb (conn_b _ _ _ _ _ _ _ Hc))).
  rewrite (bind_ok _ _ _ _ _ (borrow_eq s lb kb (conn_kb _ _ _ _ _ _ _ Hc))).
  destruct (messages kb) as [|m rest] eqn:Em; subst q; cbn [fmap list_fmap tail].
  - by destruct (has_flag fl O_NONBLOCK); eexists.
  - erewrite bind_ok; [|apply update_eq, (conn_kb _ _ _ _ _ _ _ Hc)]. eexists.
    split; [by rewrite length_replicate|]. apply (pipe_update s a b la lb _ kb rest Hpipe), (conn_kb _ _ _ _ _ _ _ Hc).
Qed.

(** Datagrams arrive in the order they were written and keep their boundaries: however
    writes at one end and reads at the other interleave, each successful read takes exactly
    one waiting datagram and returns it cut to the reader's buffer, and what was written is
    what was taken followed by what still waits, also when the event could not be posted. *)
Theorem dgram_fifo s a b la lb q ops :
  pipe s a b la lb q → ∃ outs s' taken q', dg_run a b ops s = (Ok outs, s') ∧
    pipe s' a b la lb q' ∧ q ++ sent ops = taken ++ q' ∧
    Forall2 (λ out m, out.2 = take out.1 m) outs taken.
Proof.
  revert s q. induction ops as [|[buf ctx|n fl] ops IH]; intros s q Hp; cbn [dg_run].
  - exists [], s, [], q. cbn. by rewrite app_nil_r.
  - destruct (pipe_write s a b la lb q buf ctx Hp) as (r & s1 & E & Hp1).
    rewrite (bind_ok _ _ _ _ _ E). destruct (IH s1 _ Hp1) as (outs & s' & taken & q' & E' & Hp' & Hq & Ho).
    exists outs, s', taken, q'. split_and!; try done. rewrite <- Hq, <- app_assoc. f_equal.
    cbn. by case_bool_decide.
  - destruct (pipe_read s a b la lb q n fl Hp) as (s1 & E & Hp1).
    rewrite (bind_ok _ _ _ _ _ E). destruct (IH s1 _ Hp1) as (outs & s' & taken & q' & E' & Hp' & Hq & Ho).
    rewrite (bind_ok _ _ _ _ _ E'). destruct q as [|m q]; cbn [tail] in *.
    + by exists outs, s', taken, q'.
    + eexists _, s', (m :: taken), q'. split_and!; [reflexivity|done|by cbn; f_equal|].
      constructor; [|done]. cbn [fst snd]. rewrite Nat2Z.id, copy_at_0. rewrite take_app_le by len_lia.
      rewrite take_take. destruct (decide (length m ≤ n)%nat); [by rewrite !take_ge by lia|]. f_equal. lia.
Qed.
End Messages.

(** ** Panics *)

Section Safety.
Context {SA : SyscallAbi} {L : Libc} {SC : SocketCalls}.
Variable write_response : list (Z * Z) → Z * Z → errno + bool.
Implicit Types s : UdsDgramScheme.

(** Every handle and every token leads to a socket *)
Record dgram_wf s : Prop := {
  wf_handles : ∀ id l, handles s !! id = Some (HSocket l) → is_Some (sockets s !! l);
  wf_tokens : ∀ t l, socket_tokens s !! t = Some l → is_Some (sockets s !! l);
}.

(** What each call guarantees *)
Definition fine {A} (n : Z) (r : outcome A) s : Prop := r ≠ Panic ∧ dgram_wf s ∧ next_id s ≤ n + 1.

Lemma wf_set_sockets s l k : dgram_wf s → dgram_wf (set_sockets <[l := k]> s).
Proof.
  intros Hwf. split; cbn; intros x l' Hl'; rewrite lookup_insert; case_decide; try done;
    [by eapply wf_handles|by eapply wf_tokens].
Qed.

Lemma wf_log_post s e : dgram_wf s → dgram_wf (log_post e s).
Proof. intros []. by split. Qed.

Lemma wf_set_paths s f : dgram_wf s → dgram_wf (set_paths f s).
Proof. intros []. by split. Qed.

Lemma wf_set_next_id s n : dgram_wf s → dgram_wf (set_next_id n s).
Proof. intros []. by split. Qed.

Lemma wf_insert_token s t l : is_Some (sockets s !! l) → dgram_wf s → dgram_wf (set_tokens <[t := l]> s).
Proof.
  intros Hl []. split; cbn; [done|]. intros t' l' [[_ <-]|[_ H]]%lookup_insert_Some; [done|eauto].
Qed.

Lemma wf_delete_token s t : dgram_wf s → dgram_wf (set_tokens (delete t) s).
Proof. intros []. split; cbn; [done|]. intros t' l' [_ H]%lookup_delete_Some. eauto. Qed.

Lemma wf_insert_handle s id l :
  is_Some (sockets s !! l) → dgram_wf s → dgram_wf (set_handles <[id := HSocket l]> s).
Proof.
  intros Hl []. split; cbn; [|done]. intros id' l' [[_ [= <-]]|[_ H]]%lookup_insert_Some; [done|eauto].
Qed.

Lemma wf_insert_root s id : dgram_wf s → dgram_wf (set_handles <[id := HSchemeRoot]> s).
Proof. intros []. split; cbn; [|done]. intros id' l' [[_ [=]]|[_ H]]%lookup_insert_Some. eauto. Qed.

Lemma wf_delete_handle s id : dgram_wf s → dgram_wf (set_handles (delete id) s).
Proof. intros []. split; cbn; [|done]. intros id' l' [_ H]%lookup_delete_Some. eauto. Qed.

Create HintDb dgram.
#[local] Hint Resolve wf_set_sockets wf_log_post wf_set_paths wf_set_next_id wf_insert_token
  wf_delete_token wf_insert_handle wf_insert_root wf_delete_handle insert_is_Some insert_new_is_Some : dgram.
#[local] Hint Extern 1 (is_Some (sockets _ !! _)) => progress cbn [sockets set_sockets set_paths set_tokens
  set_handles set_next_id log_post] : dgram.

Lemma wp_get_socket s id Q :
  dgram_wf s →
  (∀ l, handles s !! id = Some (HSocket l) → is_Some (sockets s !! l) → Q (Ok l) s) →
  Q (Err EBADF) s → wp (get_socket id) Q s.
Proof.
  intros Hwf Ho He. unfold get_socket. wp_go; try done. apply Ho; [done|]. by eapply wf_handles.
Qed.

Lemma wp_borrow s l Q :
  is_Some (sockets s !! l) → (∀ k, sockets s !! l = Some k → Q (Ok k) s) → wp (borrow l) Q s.
Proof. intros [k Hk] HQ. unfold borrow. wp_go; [by apply HQ|congruence]. Qed.

Lemma wp_update s l f Q :
  is_Some (sockets s !! l) → (∀ k, Q (Ok tt) (set_sockets <[l := f k]> s)) → wp (update l f) Q s.
Proof. intros Hl HQ. unfold update. wp_step. apply wp_borrow; [done|]. intros k _. wp_go. apply HQ. Qed.

Lemma wp_post s id evs Q :
  (∀ r, r ≠ Panic → Q r (log_post (id, evs) s)) → wp (post_fevent write_response id evs) Q s.
Proof. intros HQ. unfold post_fevent. wp_go; by apply HQ. Qed.

Lemma dg_wp_bump s Q :
  next_id s < usize_max → Q (Ok tt) (set_next_id (next_id s + 1) s) → wp bump_next_id Q s.
Proof. intros Hn HQ. unfold bump_next_id. wp_go. apply wp_add_usize; [lia|]. wp_go. exact HQ. Qed.

Lemma wp_peer s id Q :
  dgram_wf s → (∀ b r, is_Some (sockets s !! r) → Q (Ok (b, r)) s) → (∀ e, Q (Err e) s) →
  wp (get_connected_peer id) Q s.
Proof.
  intros Hwf Ho He. unfold get_connected_peer. wp_step. apply wp_get_socket; [done| |apply He].
  intros l Hl Hs. cbv beta iota. wp_step. apply wp_borrow; [done|]. intros k Hk. cbv beta iota.
  wp_go; try apply He. apply wp_borrow; [by eapply wf_handles|]. intros kr _. cbv beta iota.
  wp_go; [apply He|]. apply Ho. by eapply wf_handles.
Qed.

(** One step of a call; what is left are the post conditions *)
Ltac dg_step :=
  lazymatch goal with
  | |- wp (get_socket _) _ _ => apply wp_get_socket; [eauto with dgram|intros ? ? ?|]; cbv beta iota
  | |- wp (borrow _) _ _ => apply wp_borrow; [eauto with dgram|intros ? ?]; cbv beta iota
  | |- wp (update _ _) _ _ => apply wp_update; [cbn; eauto with dgram|intros ?]; cbv beta iota
  | |- wp (post_fevent _ _ _) _ _ => apply wp_post; intros [?|?|] ?; [..|done]; cbv beta iota
  | |- wp bump_next_id _ _ => apply dg_wp_bump; [done|]; cbv beta iota
  | |- wp (get_connected_peer _) _ _ =>
     apply wp_peer; [eauto with dgram|intros ? ? ?|intros ?]; cbv beta iota
  | |- match ?r with _ => _ end =>
     let E := fresh "E" in
     assert (r ≠ Panic) by auto with no_panic; destruct r eqn:E; [| |done]; clear E
  | |- fine _ _ _ => split_and!; [done|eauto 8 with dgram|cbn; lia]
  | |- _ => wp_step
  end.
Ltac dg_go := repeat dg_step.

Lemma handle_bind_fine s id p token :
  dgram_wf s → wp (handle_bind id p token) (fine (next_id s)) s.
Proof. intros Hwf. unfold handle_bind. dg_go. Qed.

Lemma handle_connect_fine s id b : dgram_wf s → wp (handle_connect id b) (fine (next_id s)) s.
Proof.
  intros Hwf. unfold handle_connect. dg_go; try by eapply wf_tokens.
Qed.

Lemma handle_setsockopt_fine s id o b : dgram_wf s → wp (handle_setsockopt id o b) (fine (next_id s)) s.
Proof. intros Hwf. unfold handle_setsockopt. dg_go. Qed.

Lemma calm_write_options opts c : calm (write_options opts c).
Proof.
  induction opts as [|o opts IH]; cbn [write_options]; [done|]. case_bool_decide; [|done].
  apply calm_bind; [apply calm_write_cmsg|]. by intros [].
Qed.

Lemma handle_getsockopt_fine s o b : dgram_wf s → wp (handle_getsockopt o b) (fine (next_id s)) s.
Proof. intros Hwf. unfold handle_getsockopt. dg_go. Qed.

Lemma handle_sendmsg_fine s id b meta :
  dgram_wf s → get_uid_gid_from_pid meta ≠ Panic → (∀ name c, packet_from_stream b name c ≠ Panic) →
  wp (handle_sendmsg write_response id b meta) (fine (next_id s)) s.
Proof. intros Hwf Hm Hb. unfold handle_sendmsg, sendmsg_inner. dg_go. Qed.

Lemma serialize_fine s n m b l size iov :
  dgram_wf s → next_id s ≤ n + 1 → is_Some (sockets s !! l) →
  wp (serialize_to_stream m b l size iov) (fine n) s.
Proof.
  intros Hwf Hn Hl. unfold serialize_to_stream, drop_fds, pop_fds.
  wp_step. apply wp_on_writer; [|intros fits w|intros e; dg_go].
  { repeat (apply calm_bind; [|intros _]); [apply calm_write_name|apply calm_write_payload|apply calm_write_rights]. }
  cbv beta iota. cbn [fst snd]. dg_go; apply wp_on_writer; intros; try apply calm_write_options; dg_go.
Qed.

Lemma handle_recvmsg_fine s id b : dgram_wf s → wp (handle_recvmsg id b) (fine (next_id s)) s.
Proof.
  intros Hwf. unfold handle_recvmsg. dg_go. unfold recvmsg_inner, read_msghdr_info.
  case_bool_decide; [dg_go|]. cbv zeta. do 2 wp_step. apply serialize_fine; cbn; eauto with dgram; lia.
Qed.

Lemma handle_unbind_fine s id : dgram_wf s → wp (handle_unbind id) (fine (next_id s)) s.
Proof. intros Hwf. unfold handle_unbind. dg_go. Qed.

Lemma handle_get_token_fine s id b : dgram_wf s → wp (handle_get_token id b) (fine (next_id s)) s.
Proof. intros Hwf. unfold handle_get_token. dg_go. Qed.

Lemma handle_get_peer_name_fine s id b : dgram_wf s → wp (handle_get_peer_name id b) (fine (next_id s)) s.
Proof.
  intros Hwf. unfold handle_get_peer_name, fpath_inner. dg_go. rewrite fpath_with_push in Heqp.
  injection Heqp as <- <-. dg_go.
Qed.

Lemma dup_fine s id b :
  dgram_wf s → next_id s < usize_max → wp (dup write_response id b) (fine (next_id s)) s.
Proof.
  intros Hwf Hn. unfold dup, handle_connect_socketpair, handle_recvfd, handle_listen, insert_new. dg_go.
Qed.

Lemma write_fine s id b ctx : dgram_wf s → wp (write write_response id b ctx) (fine (next_id s)) s.
Proof. intros Hwf. unfold write. dg_go. Qed.

Lemma read_fine s id b fl : dgram_wf s → wp (read id b fl) (fine (next_id s)) s.
Proof. intros Hwf. unfold read. dg_go. Qed.

Lemma on_sendfd_fine s id n o : dgram_wf s → wp (on_sendfd write_response id n o) (fine (next_id s)) s.
Proof. intros Hwf. unfold on_sendfd. dg_go. Qed.

Lemma on_recvfd_fine s id n m : dgram_wf s → wp (on_recvfd id n m) (fine (next_id s)) s.
Proof. intros Hwf. unfold on_recvfd. dg_go. Qed.

Lemma scheme_root_fine s : dgram_wf s → next_id s < usize_max → wp scheme_root (fine (next_id s)) s.
Proof. intros Hwf Hn. unfold scheme_root. dg_go. Qed.

Lemma openat_fine s fd p fl fc :
  dgram_wf s → next_id s < usize_max → wp (openat fd p fl fc) (fine (next_id s)) s.
Proof. intros Hwf Hn. unfold openat, handle_unnamed_socket, insert_new. dg_go. Qed.

Lemma on_close_fine s id :
  dgram_wf s → wp (on_close id) (λ r s', r = Ok tt ∧ dgram_wf s' ∧ next_id s' ≤ next_id s + 1) s.
Proof.
  intros Hwf. unfold on_close. wp_go; [|split_and!; [done|eauto with dgram|cbn; lia]..].
  apply wp_borrow; [cbn; by eapply (wf_handles s)|]. intros k Hk. cbv beta iota.
  destruct (bool_decide _); [|wp_go; split_and!; [done|eauto with dgram|cbn; lia]].
  wp_step. apply wp_update; [cbn; by eapply (wf_handles s)|]. intros k'. cbv beta iota.
  wp_go; split_and!; [done|eauto with dgram|cbn; lia|done|eauto with dgram|cbn; lia|
    done|eauto with dgram|cbn; lia|done|eauto with dgram|cbn; lia].
Qed.

Lemma fcntl_fine s id cmd arg : dgram_wf s → wp (fcntl id cmd arg) (fine (next_id s)) s.
Proof. intros Hwf. unfold fcntl. dg_go. Qed.

Lemma call_fine s id b md token meta :
  dgram_wf s → (2 ≤ length md)%nat → get_uid_gid_from_pid meta ≠ Panic →
  (∀ name c, packet_from_stream b name c ≠ Panic) →
  wp (call write_response id b md token meta) (fine (next_id s)) s.
Proof.
  intros Hwf Hmd Hm Hb. destruct md as [|raw [|opt md]]; [cbn in Hmd; lia..|].
  assert (Hkeep : ∀ m : comp UdsDgramScheme Z,
    wp m (fine (next_id s)) s → wp (n ← m; mret (n, b)) (fine (next_id s)) s).
  { intros m H. wp_step. eapply wp_mono; [exact H|]. intros [n|e|] s' (? & ? & ?); by try split_and!. }
  unfold call. cbn [lookup list_lookup]. do 2 wp_step. cbv zeta. wp_step.
  destruct (socket_call_of_raw raw) as [verb|]; [|dg_go]. wp_step.
  destruct verb; cbn [expect]; try (wp_step; wp_step); try apply Hkeep.
  - by apply handle_bind_fine.
  - by apply handle_connect_fine.
  - by apply handle_setsockopt_fine.
  - by apply handle_getsockopt_fine.
  - by apply handle_sendmsg_fine.
  - by apply handle_recvmsg_fine.
  - by apply handle_unbind_fine.
  - by apply handle_get_token_fine.
  - by apply handle_get_peer_name_fine.
  - dg_go.
Qed.

(** The calls of the scheme that change its state *)
Inductive request : Type :=
  | QRoot
  | QOpen (fd : Z) (p : string) (fl fc : Z)
  | QCall (id : Z) (b : bytes) (md : list Z) (token : Z) (meta : option bytes)
  | QDup (id : Z) (b : bytes)
  | QWrite (id : Z) (b : bytes) (ctx : CallerCtx)
  | QRead (id : Z) (b : bytes) (fl : Z)
  | QSendFd (id n : Z) (o : errno + list Z)
  | QRecvFd (id n : Z) (m : bool)
  | QFcntl (id cmd arg : Z)
  | QClose (id : Z).

Definition serve (q : request) : comp UdsDgramScheme unit :=
  match q with
  | QRoot => attempt scheme_root;; mret tt
  | QOpen fd p fl fc => attempt (openat fd p fl fc);; mret tt
  | QCall id b md token meta => attempt (call write_response id b md token meta);; mret tt
  | QDup id b => attempt (dup write_response id b);; mret tt
  | QWrite id b ctx => attempt (write write_response id b ctx);; mret tt
  | QRead id b fl => attempt (read id b fl);; mret tt
  | QSendFd id n o => attempt (on_sendfd write_response id n o);; mret tt
  | QRecvFd id n m => attempt (on_recvfd id n m);; mret tt
  | QFcntl id cmd arg => attempt (fcntl id cmd arg);; mret tt
  | QClose id => on_close id
  end.

Fixpoint run (qs : list request) : comp UdsDgramScheme unit :=
  match qs with
  | [] => mret tt
  | q :: qs => serve q;; run qs
  end.

(** The metadata of a call has both words, the answer about the caller is complete and the
    lengths in a message do not overflow *)
Definition request_ok (q : request) : Prop :=
  match q with
  | QCall _ b md _ meta =>
     (2 ≤ length md)%nat ∧ get_uid_gid_from_pid meta ≠ Panic ∧
     ∀ name c, packet_from_stream b name c ≠ Panic
  | _ => True
  end.

Lemma fine_attempt {A} s n (m : comp UdsDgramScheme A) :
  wp m (fine n) s → wp (attempt m;; mret tt) (λ r s', r = Ok tt ∧ dgram_wf s' ∧ next_id s' ≤ n + 1) s.
Proof.
  unfold wp, attempt, mbind, comp_bind. by destruct (m s) as [[a|e|] s']; intros (Hr & Hwf & Hn); cbn in *.
Qed.

Lemma serve_fine s q :
  dgram_wf s → next_id s < usize_max → request_ok q →
  wp (serve q) (λ r s', r = Ok tt ∧ dgram_wf s' ∧ next_id s' ≤ next_id s + 1) s.
Proof.
  intros Hwf Hn Hq. destruct q; cbn [serve]; try apply fine_attempt.
  - by apply scheme_root_fine.
  - by apply openat_fine.
  - destruct Hq as (? & ? & ?). by apply call_fine.
  - by apply dup_fine.
  - by apply write_fine.
  - by apply read_fine.
  - by apply on_sendfd_fine.
  - by apply on_recvfd_fine.
  - by apply fcntl_fine.
  - by apply on_close_fine.
Qed.

(** No sequence of calls makes the datagram scheme panic, whatever tokens are drawn and
    whether or not events can be posted, as long as calls carry their two words of metadata
    and the lengths inside messages do not overflow. *)
Theorem dgram_never_panics qs :
  Forall request_ok qs → Z.of_nat (length qs) < usize_max → (run qs dgram_new).1 = Ok tt.
Proof.
  assert (Hrun : ∀ s, dgram_wf s → Forall request_ok qs → next_id s + Z.of_nat (length qs) ≤ usize_max →
    (run qs s).1 = Ok tt).
  { induction qs as [|q qs IH]; intros s Hwf Hqs Hn; [done|]. apply Forall_cons in Hqs as [Hq Hqs].
    cbn [run]. rewrite length_cons in Hn. destruct (serve_fine s q Hwf) as (E & Hwf' & Hn'); [lia|done|].
    destruct (serve q s) as [r s1] eqn:Es. cbn in E, Hn', Hwf'. subst r.
    rewrite (bind_ok _ _ _ _ _ Es). apply IH; [done|done|lia]. }
  intros Hqs Hn. apply Hrun; [by split|done|]. cbn. lia.
Qed.

(** *** Calls that do panic *)

(** A call without metadata panics: the verb is read by index. *)
Lemma dgram_no_metadata_panics s id b token meta :
  call write_response id b [] token meta s = (Panic, s).
Proof. done. Qed.

(** A message whose payload length is close to the largest [usize] makes the datagram
    scheme panic, although the length of the request is known: the end of the payload is
    computed before it is compared, and overflows. *)
Theorem dgram_length_overflow_panics s a b la lb ka kb len rest meta pid uid gid :
  connected s a b la lb ka kb → get_uid_gid_from_pid meta = Ok (pid, uid, gid) →
  is_usize len → usize_max < 8 + len →
  (handle_sendmsg write_response a (le_bytes 8 len ++ rest) meta s).1 = Panic.
Proof.
  intros Hc Hid Hlen Hover. unfold handle_sendmsg. rewrite bool_decide_eq_false_2 by done.
  rewrite (bind_ok _ _ _ _ _ (get_socket_eq s a la (conn_a _ _ _ _ _ _ _ Hc))).
  rewrite (bind_ok _ _ _ _ _ (borrow_eq s la ka (conn_ka _ _ _ _ _ _ _ Hc))).
  rewrite (bind_ok _ _ _ _ _ (connected_peer _ _ _ _ _ _ _ Hc)).
  assert (Hp : ∀ c, packet_from_stream (le_bytes 8 len ++ rest) (path ka) c = Panic).
  { intros c. unfold packet_from_stream. rewrite read_num_le by (cbn; ints).
    by rewrite bool_decide_eq_true_2. }
  unfold sendmsg_inner, mbind, comp_bind. rewrite bool_decide_eq_false_2 by done.
  unfold lift. rewrite Hid. cbv beta iota. by rewrite Hp.
Qed.
End Safety.

(** ** Examples *)

Definition demo_response (history : list (Z * Z)) (e : Z * Z) : errno + bool := inr true.

Section Examples.
#[local] Existing Instance redox_abi.
#[local] Existing Instance linux_libc.
#[local] Existing Instance linux_libc_laws.
#[local] Existing Instance demo_calls.

(** A socket pair of which one end is bound to a path and the other asks for credentials *)
Definition demo_requests : list request :=
  [QRoot; QOpen 0 EmptyString O_CREAT 0; QDup 1 (str_bytes "connect");
   QCall 1 (str_bytes "a") [0; 0] 77 None; QCall 2 (i32_bytes 1) [2; 16] 0 None].

Definition demo_pair : UdsDgramScheme := (run demo_response demo_requests dgram_new).2.

Definition demo_end1 : Socket := mk_socket 1 (Some "a"%string) Bound (Some 2) [] ∅ [] O_CREAT (Some 77).
Definition demo_end2 : Socket := mk_socket 2 None Unbound (Some 1) [] {[16]} [] 0 None.

Lemma demo_connected : connected demo_pair 1 2 1 2 demo_end1 demo_end2.
Proof. split; first [vm_compute; reflexivity | discriminate]. Qed.

(** [pid] 9, [uid] 1, [gid] 2 *)
Definition demo_meta : option bytes :=
  Some (le_bytes 4 9 ++ replicate 8 0 ++ le_bytes 4 1 ++ replicate 8 0 ++ le_bytes 4 2 ++ replicate 8 0).

Lemma dgram_message_roundtrip_witness :
  let out :=
    name_bytes "uds_dgram" (Some "a"%string) 30 ++ le_bytes 8 2 ++ [5; 6] ++ rights_bytes 1 ++
    option_bytes {[16]} (mk_cred 9 1 2) in
  ∃ s1, handle_sendmsg demo_response 1 (message_bytes [5; 6] 1) demo_meta demo_pair = (Ok 2, s1) ∧
    handle_recvmsg 2 (le_bytes 8 30 ++ le_bytes 8 4 ++ le_bytes 8 0 ++ replicate 150 0) s1 =
      (Ok (Z.of_nat (length out), out ++ drop (length out) (replicate 24 0 ++ replicate 150 0)),
       log_post (2, EVENT_READ) demo_pair).
Proof.
  apply (dgram_message_roundtrip demo_response demo_pair 1 2 1 2 demo_end1 demo_end2 [5; 6] 1 demo_meta
    9 1 2 30 4 0 (replicate 150 0) demo_connected);
    first [reflexivity | set_solver | split; vm_compute; discriminate | vm_compute; discriminate].
Defined.

Lemma dgram_fifo_witness :
  ∃ outs s' taken q',
    dg_run demo_response 1 2 [OpWrite [1; 2; 3] (mk_ctx 0 0 0); OpWrite [4] (mk_ctx 0 0 0); OpRead 2 0]
      demo_pair = (Ok outs, s') ∧
    pipe s' 1 2 1 2 q' ∧ [] ++ [[1; 2; 3]; [4]] = taken ++ q' ∧
    Forall2 (λ out m, out.2 = take out.1 m) outs taken.
Proof.
  apply (dgram_fifo demo_response demo_pair 1 2 1 2 []
    [OpWrite [1; 2; 3] (mk_ctx 0 0 0); OpWrite [4] (mk_ctx 0 0 0); OpRead 2 0]).
  exists demo_end1, demo_end2. split; [apply demo_connected|]. split; [discriminate|reflexivity].
Defined.

Lemma dgram_never_panics_witness : (run demo_response demo_requests dgram_new).1 = Ok tt.
Proof.
  apply dgram_never_panics; [|reflexivity].
  repeat (apply Forall_cons_2;
    [first [exact I | split_and!; [cbn; lia|discriminate|intros name c; vm_compute; discriminate]]|]).
  apply Forall_nil_2.
Defined.

Lemma dgram_length_overflow_panics_witness :
  (handle_sendmsg demo_response 1 (le_bytes 8 usize_max ++ [1]) demo_meta demo_pair).1 = Panic.
Proof.
  apply (dgram_length_overflow_panics demo_response demo_pair 1 2 1 2 demo_end1 demo_end2 usize_max [1]
    demo_meta 9 1 2 demo_connected); first [reflexivity | split; vm_compute; discriminate].
Defined.
End Examples.
