(* ===== verification/UdsStream.v ===== *)
(** * ipcd: the [uds_stream] scheme

    [ipcd/src/uds/stream.rs]: stream sockets with their three phases of connecting.  As in
    [UdsDgram], sockets live in a store and handles, paths and tokens name their place; here
    every socket has one handle, and some functions borrow two sockets at a time, so that
    borrowing the same one twice, which makes a [RefCell] panic, is written out.

    The random number that becomes a token, the answer of [get_proc_credentials], the
    descriptors that [obtain_fd] gives and whether [move_fd] succeeds are arguments of the
    calls; [write_response] may fail at any attempt. *)

From S2P Require Import Prelude Abi SchemeUtils Uds.

(** ** State *)

Inductive State : Set := Unbound | Bound | Listening | Connecting | Accepted | Established | Closed.

#[global] Instance stream_state_eq_dec : EqDecision State.
Proof. solve_decision. Defined.

Record Connection := mk_conn {
  peer : Z;
  packets : list DataPacket;
  fds : list Z;
  is_peer_shutdown : bool
}.

(** [Connection::new] *)
Definition conn_new (peer : Z) : Connection := mk_conn peer [] [] false.

Definition set_conn_peer x c := mk_conn x (packets c) (fds c) (is_peer_shutdown c).
Definition set_packets x c := mk_conn (peer c) x (fds c) (is_peer_shutdown c).
Definition set_fds x c := mk_conn (peer c) (packets c) x (is_peer_shutdown c).
Definition set_shutdown x c := mk_conn (peer c) (packets c) (fds c) x.

Record Socket := mk_socket {
  primary_id : Z;
  path : option string;
  options : gset Z;
  flags : Z;
  state : State;
  awaiting : list Z;
  connection : option Connection;
  issued_token : option Z;
  ucred : Credential
}.

(** [Socket::new] *)
Definition socket_new (id : Z) (path : option string) (state : State) (options : gset Z) (flags : Z)
    (connection : option Connection) (ctx : CallerCtx) : Socket :=
  mk_socket id path options flags state [] connection None
    (mk_cred (as_i32 (ctx_pid ctx)) (ctx_uid ctx) (ctx_gid ctx)).

Definition set_path x k := mk_socket (primary_id k) x (options k) (flags k) (state k) (awaiting k) (connection k) (issued_token k) (ucred k).
Definition set_options x k := mk_socket (primary_id k) (path k) x (flags k) (state k) (awaiting k) (connection k) (issued_token k) (ucred k).
Definition set_flags x k := mk_socket (primary_id k) (path k) (options k) x (state k) (awaiting k) (connection k) (issued_token k) (ucred k).
Definition set_state x k := mk_socket (primary_id k) (path k) (options k) (flags k) x (awaiting k) (connection k) (issued_token k) (ucred k).
Definition set_awaiting x k := mk_socket (primary_id k) (path k) (options k) (flags k) (state k) x (connection k) (issued_token k) (ucred k).
Definition set_connection x k := mk_socket (primary_id k) (path k) (options k) (flags k) (state k) (awaiting k) x (issued_token k) (ucred k).
Definition set_token x k := mk_socket (primary_id k) (path k) (options k) (flags k) (state k) (awaiting k) (connection k) x (ucred k).

Record UdsStreamScheme := mk_stream {
  handles : gmap Z Handle;
  sockets : gmap Z Socket;
  next_id : Z;
  socket_paths : gmap string Z;
  socket_tokens : gmap Z Z;
  posted : list (Z * Z)
}.

Definition stream_new : UdsStreamScheme := mk_stream ∅ ∅ 0 ∅ ∅ [].

Definition set_handles f s := mk_stream (f (handles s)) (sockets s) (next_id s) (socket_paths s) (socket_tokens s) (posted s).
Definition set_sockets f s := mk_stream (handles s) (f (sockets s)) (next_id s) (socket_paths s) (socket_tokens s) (posted s).
Definition set_next_id n s := mk_stream (handles s) (sockets s) n (socket_paths s) (socket_tokens s) (posted s).
Definition set_paths f s := mk_stream (handles s) (sockets s) (next_id s) (f (socket_paths s)) (socket_tokens s) (posted s).
Definition set_tokens f s := mk_stream (handles s) (sockets s) (next_id s) (socket_paths s) (f (socket_tokens s)) (posted s).
Definition log_post e s := mk_stream (handles s) (sockets s) (next_id s) (socket_paths s) (socket_tokens s) (posted s ++ [e]).

(** ** Connections *)

(** [can_read] *)
Definition can_read (c : Connection) : bool :=
  negb (bool_decide (length (packets c) = 0%nat)) || negb (bool_decide (fds c = [])) || is_peer_shutdown c.

(** The copying loop of [read_inner], with [room] bytes left in the buffer: the packets
    left and the bytes copied.  A packet that is not read to its end has filled the buffer,
    and the loop ends there. *)
Fixpoint read_packets (room : nat) (ps : list DataPacket) : outcome (list DataPacket * bytes) :=
  match ps with
  | [] => Ok ([], [])
  | p :: rest =>
     if bool_decide (room = 0%nat) then Ok (ps, [])
     else if bool_decide (length (payload p) < read_offset p)%nat then Panic
     else
       let rem := drop (read_offset p) (payload p) in
       let copied_len := Nat.min (length rem) room in
       if bool_decide (copied_len = 0%nat) then Ok (ps, [])
       else
         let offset := (read_offset p + copied_len)%nat in
         let taken := bool_decide (read_offset p = 0%nat) || ancillary_taken p in
         if bool_decide (length (payload p) ≤ offset)%nat then
           match read_packets (room - copied_len) rest with
           | Ok (ps', data) => Ok (ps', take copied_len rem ++ data)
           | Err e => Err e
           | Panic => Panic
           end
         else Ok (mk_packet (payload p) (ancillary_data p) offset taken :: rest, take copied_len rem)
  end.

(** The copying loop of [serialize_to_msgstream], which also collects the ancillary data of
    the packets it starts and the first name among them *)
Fixpoint gather (room : nat) (ps : list DataPacket) (name : option string) :
    outcome (list DataPacket * bytes * option string * list AncillaryData) :=
  match ps with
  | [] => Ok ([], [], name, [])
  | p :: rest =>
     if bool_decide (room = 0%nat) then Ok (ps, [], name, [])
     else if bool_decide (length (payload p) < read_offset p)%nat then Panic
     else
       let rem := drop (read_offset p) (payload p) in
       let copied_len := Nat.min (length rem) room in
       if bool_decide (copied_len = 0%nat) then Ok (ps, [], name, [])
       else
         let a := ancillary_data p in
         let a' := match name with
                   | None => mk_ancillary (cred a) (num_fds a) None
                   | Some _ => a
                   end in
         let '(name', anc, a'') :=
           if ancillary_taken p then (name, [], a)
           else (match name with None => a_name a | Some _ => name end, [a'], a') in
         let offset := (read_offset p + copied_len)%nat in
         if bool_decide (length (payload p) ≤ offset)%nat then
           match gather (room - copied_len) rest name' with
           | Ok (ps', data, name'', anc') => Ok (ps', take copied_len rem ++ data, name'', anc ++ anc')
           | Err e => Err e
           | Panic => Panic
           end
         else Ok (mk_packet (payload p) a'' offset true :: rest, take copied_len rem, name', anc)
  end.

(** [fpath_inner] *)
Definition fpath_inner (path : string) (buf : bytes) : outcome nat * bytes :=
  fpath_with buf "uds_stream" (push_str (str_bytes path)).

(** [Vec::with_capacity]: more than [isize::MAX] bytes panic *)
Definition with_capacity (n : Z) : outcome unit :=
  if bool_decide (n ≤ 9223372036854775807) then Ok tt else Panic.

(** The sum of the descriptors announced; an overflow panics *)
Fixpoint sum_fds (total : Z) (anc : list AncillaryData) : outcome Z :=
  match anc with
  | [] => Ok total
  | a :: anc => if bool_decide (usize_max < total + num_fds a) then Panic else sum_fds (total + num_fds a) anc
  end.

Section Writer.
Context {L : Libc}.

(** [write_credentials] for every packet, until one does not fit *)
Fixpoint write_all_credentials (anc : list AncillaryData) : comp MsgWriter bool :=
  match anc with
  | [] => mret true
  | a :: anc =>
     ok ← write_credentials (cred a);
     if (ok : bool) then write_all_credentials anc else mret false
  end.

Fixpoint write_options (opts : list Z) (anc : list AncillaryData) : comp MsgWriter unit :=
  match opts with
  | [] => mret tt
  | option :: opts =>
     if bool_decide (option = SO_PASSCRED) then
       result ← write_all_credentials anc;
       if (result : bool) then write_options opts anc else mret tt
     else fail EOPNOTSUPP
  end.

(** [Connection::serialize_to_msgstream]: the length written and the stream afterwards *)
Definition serialize_to_msgstream (stream : bytes) (name_buf_size iov_size : Z) (opts : gset Z) :
    comp Connection (Z * bytes) :=
  lift (with_capacity iov_size);;
  c ← get;
  r ← lift (gather (Z.to_nat iov_size) (packets c) None);
  let '(ps, data, name, anc) := r in
  modify (set_packets ps);;
  head ← on_writer
    (write_name name name_buf_size fpath_inner;;
     write_payload data (length data) iov_size) (writer_new stream);
  n ← lift (sum_fds 0 anc);
  rights ← on_writer (write_rights n) head.2;
  (if rights.1 : bool then mret tt
   else
     c ← get;
     let '(all, rest) := pop_fds n (fds c) in
     modify (set_fds rest);;
     if (all : bool) then mret tt else fail EPROTO);;
  done ← on_writer (write_options (elements opts) anc) rights.2;
  mret (Z.of_nat (written_len done.2), buffer done.2).
End Writer.

(** ** Sockets *)

Section Ops.
Context {SA : SyscallAbi} {L : Libc} {SC : SocketCalls}.
Variable write_response : list (Z * Z) → Z * Z → errno + bool.

(** [MsgFlags::nonblock] *)
Definition msg_nonblock (msg_flags : Z) : bool := has_flag msg_flags MSG_DONTWAIT.

(** [events] *)
Definition events (k : Socket) : Z :=
  Z.lor
    match connection k with
    | Some c => Z.lor (if can_read c then EVENT_READ else 0) EVENT_WRITE
    | None => 0
    end
    match state k with
    | Listening => if bool_decide (awaiting k = []) then 0 else EVENT_READ
    | Closed => EVENT_READ
    | _ => 0
    end.

Definition is_listening (k : Socket) : bool := bool_decide (state k = Listening).

(** [accept] *)
Definition accept (k : Socket) (primary_id awaiting_client_id : Z) (ctx : CallerCtx) : outcome Socket :=
  if is_listening k then
    Ok (socket_new primary_id (path k) Established (options k) (flags k)
          (Some (conn_new awaiting_client_id)) ctx)
  else Err EINVAL.

(** [establish] on the client, with the new socket: both afterwards *)
Definition establish (client new_socket : Socket) (listener : Z) : outcome Socket * Socket :=
  if bool_decide (state client = Connecting) then
    let client := set_state Accepted client in
    match connection client with
    | Some conn =>
       if bool_decide (peer conn = listener) then
         let client' := set_connection (Some (set_packets [] (set_conn_peer (primary_id new_socket) conn))) client in
         match connection new_socket with
         | Some new_conn =>
            (Ok (set_connection (Some (set_packets (packets new_conn ++ packets conn) new_conn)) new_socket), client')
         | None =>
            (Ok new_socket, set_connection (Some (set_conn_peer (primary_id new_socket) conn)) client)
         end
       else (Err EAGAIN, client)
    | None => (Err EAGAIN, client)
    end
  else (Err EINVAL, client).

(** [connect_unchecked] on the listener and the other socket *)
Definition connect_unchecked (k other : Socket) : Socket * Socket :=
  (set_awaiting (awaiting k ++ [primary_id other]) k,
   set_connection (Some (conn_new (primary_id k))) (set_state Connecting other)).

(** [connect] *)
Definition connect (k other : Socket) : outcome (Socket * Socket) :=
  match state k with
  | Unbound | Bound =>
     if has_flag (flags other) O_NONBLOCK then Ok (connect_unchecked k other) else Err EWOULDBLOCK
  | Listening => Ok (connect_unchecked k other)
  | _ => Err ECONNREFUSED
  end.

(** [require_connection] *)
Definition require_connection (k : Socket) : outcome Connection :=
  match connection k with Some c => Ok c | None => Err EPROTO end.

(** [require_connected_connection] *)
Definition require_connected_connection (k : Socket) (msg_flags : Z) : outcome Connection :=
  match state k with
  | Established | Accepted => require_connection k
  | Connecting => if has_flag (flags k) O_NONBLOCK || msg_nonblock msg_flags then Err EAGAIN else Err EWOULDBLOCK
  | Closed => Err EPIPE
  | _ => Err ENOTCONN
  end.

(** [start_listening] *)
Definition start_listening (k : Socket) : outcome Socket :=
  match state k with
  | Unbound | Bound => Ok (set_state Listening k)
  | _ => Err EINVAL
  end.

(** ** The scheme *)

Definition post_fevent (id evs : Z) : comp UdsStreamScheme unit :=
  s ← get;
  put (log_post (id, evs) s);;
  match write_response (posted s) (id, evs) with
  | inr true => mret tt
  | inr false => fail EAGAIN
  | inl err => fail err
  end.

Definition get_socket (id : Z) : comp UdsStreamScheme Z :=
  s ← get;
  match handles s !! id with
  | Some (HSocket l) => mret l
  | _ => fail EBADF
  end.

Definition borrow (l : Z) : comp UdsStreamScheme Socket :=
  s ← get;
  expect (sockets s !! l).

Definition store (l : Z) (k : Socket) : comp UdsStreamScheme unit := modify (set_sockets <[l := k]>).

(** A second [borrow] or [borrow_mut] of the socket at [l] while [held] is borrowed mutably *)
Definition borrow_with (held l : Z) : comp UdsStreamScheme Socket :=
  if bool_decide (held = l) then panic else borrow l.

Definition bump_next_id : comp UdsStreamScheme unit :=
  s ← get;
  n ← add_usize (next_id s) 1;
  modify (set_next_id n).

(** [insert_socket] with a new [Rc] *)
Definition insert_socket (k : Socket) : comp UdsStreamScheme unit :=
  modify (set_sockets <[primary_id k := k]>);;
  modify (set_handles <[primary_id k := HSocket (primary_id k)]>).

(** [get_connected_peer] *)
Definition get_connected_peer (id : Z) : comp UdsStreamScheme (Z * Z) :=
  l ← get_socket id;
  socket ← borrow l;
  c ← lift (require_connection socket);
  let remote_id := peer c in
  s ← get;
  match handles s !! remote_id with
  | Some (HSocket r) =>
     remote ← borrow_with l r;
     if bool_decide (state remote = Closed) then fail ECONNREFUSED else mret (remote_id, r)
  | _ => fail EPIPE
  end.

(** [handle_unnamed_socket] *)
Definition handle_unnamed_socket (fl : Z) (ctx : CallerCtx) : comp UdsStreamScheme Z :=
  s ← get;
  insert_socket (socket_new (next_id s) None Unbound ∅ fl None ctx);;
  bump_next_id;;
  mret (next_id s).

(** [handle_bind] *)
Definition handle_bind (id : Z) (path_buf : bytes) (token : Z) : comp UdsStreamScheme Z :=
  p ← lift (path_buf_to_str path_buf);
  s ← get;
  if bool_decide (is_Some (socket_paths s !! p)) then fail EADDRINUSE
  else
    l ← get_socket id;
    socket ← borrow l;
    if bool_decide (state socket = Unbound) then
      let socket := set_token (Some token) (set_state Bound (set_path (Some p) socket)) in
      store l socket;;
      socket ← lift (start_listening socket);
      store l socket;;
      modify (set_paths <[p := l]>);;
      modify (set_tokens <[token := l]>);;
      mret 0
    else fail EINVAL.

(** [handle_connect] *)
Definition handle_connect (id : Z) (token_buf : bytes) : comp UdsStreamScheme Z :=
  token ← lift (read_num 8 token_buf);
  s ← get;
  listener_rc ← ok_or ECONNREFUSED (socket_tokens s !! token);
  client_rc ← get_socket id;
  client ← borrow client_rc;
  listener ← borrow_with client_rc listener_rc;
  let listener_id := primary_id listener in
  let connecting_res := if has_flag (flags client) O_NONBLOCK then EAGAIN else EWOULDBLOCK in
  let phase2 :=
    both ← lift (connect listener client);
    store listener_rc both.1;;
    store client_rc both.2;;
    post_fevent listener_id (Z.lor EVENT_READ EVENT_WRITE);;
    fail connecting_res in
  match state client with
  | Connecting =>
     if bool_decide (peer <$> connection client = Some listener_id) then fail connecting_res else phase2
  | Established => fail EISCONN
  | Accepted => store client_rc (set_state Established client);; mret 0
  | _ => phase2
  end.

(** [handle_setsockopt] *)
Definition handle_setsockopt (id option : Z) (value_slice : bytes) : comp UdsStreamScheme Z :=
  l ← get_socket id;
  socket ← borrow l;
  if bool_decide (option = SO_PASSCRED) then
    value ← lift (read_i32 value_slice);
    store l (set_options (if bool_decide (value = 0) then options socket ∖ {[SO_PASSCRED]}
                          else options socket ∪ {[SO_PASSCRED]}) socket);;
    mret (Z.of_nat (length value_slice))
  else if bool_decide (option = SO_SNDBUF) then mret 0
  else fail ENOPROTOOPT.

(** The closure [write_value] of [handle_getsockopt] *)
Definition write_value (payload value : bytes) : comp UdsStreamScheme (Z * bytes) :=
  if bool_decide (length payload < length value)%nat then fail ENOBUFS
  else mret (Z.of_nat (length value), copy_at (replicate (length payload) 0) 0 value).

(** [handle_getsockopt] *)
Definition handle_getsockopt (id option : Z) (payload : bytes) : comp UdsStreamScheme (Z * bytes) :=
  if bool_decide (option = SO_DOMAIN) then write_value payload (i32_bytes AF_UNIX)
  else if bool_decide (option = SO_PEERCRED) then
    r ← get_connected_peer id;
    remote ← borrow r.2;
    let u := ucred remote in
    write_value payload (i32_bytes (c_pid u) ++ i32_bytes (c_uid u) ++ i32_bytes (c_gid u))
  else if bool_decide (option = SO_SNDBUF) then write_value payload (i32_bytes 212992)
  else fail ENOPROTOOPT.

(** A connection of the socket at [l] is assigned *)
Definition store_connection (l : Z) (c : Connection) : comp UdsStreamScheme unit :=
  k ← borrow l;
  store l (set_connection (Some c) k).

(** [handle_sendmsg] *)
Definition handle_sendmsg (id msg_flags : Z) (msg_stream : bytes) (meta : option bytes) :
    comp UdsStreamScheme Z :=
  if bool_decide (msg_stream = []) then fail EINVAL
  else
    l ← get_socket id;
    me ← borrow l;
    remote ← get_connected_peer id;
    socket ← borrow remote.2;
    c ← lift (require_connected_connection socket msg_flags);
    ids ← lift (get_uid_gid_from_pid meta);
    let '(pid, uid, gid) := ids in
    packet ← lift (packet_from_stream msg_stream (path me)
      (mk_cred (as_i32 pid) (as_i32 uid) (as_i32 gid)));
    if bool_decide (length (payload packet) = 0%nat) then mret 0
    else
      store_connection remote.2 (set_packets (packets c ++ [packet]) c);;
      post_fevent remote.1 EVENT_READ;;
      mret (Z.of_nat (length (payload packet))).

(** [write_eof] *)
Definition write_eof (buffer : bytes) : comp UdsStreamScheme (Z * bytes) :=
  if bool_decide (length buffer < MIN_RECV_MSG_LEN)%nat then fail EINVAL
  else mret (Z.of_nat MIN_RECV_MSG_LEN, copy_at buffer 0 (replicate MIN_RECV_MSG_LEN 0)).

(** [recvmsg_inner], with [Socket::serialize_to_msgstream] *)
Definition recvmsg_inner (l msg_flags : Z) (msg_stream : bytes) : comp UdsStreamScheme (Z * bytes) :=
  let '(sizes, msg_stream) := read_msghdr_info msg_stream in
  sizes ← lift sizes;
  let '(prepared_name_len, prepared_whole_iov_size, _) := sizes in
  socket ← borrow l;
  c ← lift (require_connected_connection socket msg_flags);
  let '(r, c) := serialize_to_msgstream msg_stream prepared_name_len prepared_whole_iov_size
                   (options socket) c in
  store_connection l c;;
  lift r.

(** [handle_recvmsg] *)
Definition handle_recvmsg (id msg_flags : Z) (msg_stream : bytes) : comp UdsStreamScheme (Z * bytes) :=
  l ← get_socket id;
  socket ← borrow l;
  match state socket with
  | Established | Accepted =>
     c ← lift (require_connection socket);
     match packets c with
     | [] =>
        if is_peer_shutdown c then write_eof msg_stream
        else if has_flag (flags socket) O_NONBLOCK || msg_nonblock msg_flags then fail EAGAIN
        else fail EWOULDBLOCK
     | _ :: _ => recvmsg_inner l msg_flags msg_stream
     end
  | Closed => write_eof msg_stream
  | Listening => fail EOPNOTSUPP
  | _ => fail ENOTCONN
  end.

(** [handle_unbind] *)
Definition handle_unbind (id : Z) : comp UdsStreamScheme Z :=
  l ← get_socket id;
  socket ← borrow l;
  if bool_decide (state socket = Bound) then
    store l (set_path None (set_state Unbound socket));;
    match path socket with
    | Some p => modify (set_paths (delete p))
    | None => mret tt
    end;;
    mret 0
  else fail EINVAL.

(** [handle_get_token] *)
Definition handle_get_token (id : Z) (payload : bytes) : comp UdsStreamScheme (Z * bytes) :=
  l ← get_socket id;
  socket ← borrow l;
  token ← ok_or EINVAL (issued_token socket);
  if bool_decide (length payload < 8)%nat then fail ENOBUFS
  else mret (8, copy_at payload 0 (le_bytes 8 token)).

(** [handle_get_peer_name] *)
Definition handle_get_peer_name (id : Z) (payload : bytes) : comp UdsStreamScheme (Z * bytes) :=
  remote ← get_connected_peer id;
  socket ← borrow remote.2;
  let '(r, payload) := fpath_inner (default EmptyString (path socket)) payload in
  n ← lift r;
  mret (Z.of_nat n, payload).

(** [accept_connection], with the listener at [l] borrowed *)
Definition accept_connection (l client_id : Z) (ctx : CallerCtx) :
    comp UdsStreamScheme (option OpenResult) :=
  s ← get;
  match handles s !! client_id with
  | Some (HSocket client_rc) =>
     let new_id := next_id s in
     listener_socket ← borrow l;
     new ← lift (accept listener_socket new_id client_id ctx);
     client_socket ← borrow_with l client_rc;
     let '(new, client_socket) := establish client_socket new (primary_id listener_socket) in
     store client_rc client_socket;;
     new ← lift new;
     bump_next_id;;
     insert_socket new;;
     post_fevent client_id (Z.lor EVENT_READ EVENT_WRITE);;
     mret (Some (ThisScheme new_id))
  | _ => mret None
  end.

(** [Err(Error { errno: EAGAIN }) => continue] *)
Definition or_again {A} (m next : comp UdsStreamScheme A) : comp UdsStreamScheme A := λ s,
  match m s with
  | (Err EAGAIN, s') => next s'
  | res => res
  end.

(** The loop of [handle_accept]; a turn takes one id off [awaiting], so that one turn more
    than there are ids is enough *)
Fixpoint accept_loop (fuel : nat) (l : Z) (ctx : CallerCtx) : comp UdsStreamScheme (option OpenResult) :=
  socket ← borrow l;
  match awaiting socket with
  | [] => if has_flag (flags socket) O_NONBLOCK then fail EAGAIN else fail EWOULDBLOCK
  | client_id :: rest =>
     match fuel with
     | O => panic
     | S fuel =>
        store l (set_awaiting rest socket);;
        or_again (accept_connection l client_id ctx) (accept_loop fuel l ctx)
     end
  end.

(** [handle_accept] *)
Definition handle_accept (l : Z) (ctx : CallerCtx) : comp UdsStreamScheme (option OpenResult) :=
  socket ← borrow l;
  if is_listening socket then accept_loop (length (awaiting socket)) l ctx else fail EINVAL.

(** [handle_start_listening] *)
Definition handle_start_listening (l : Z) : comp UdsStreamScheme unit :=
  socket ← borrow l;
  socket ← lift (start_listening socket);
  store l socket;;
  match path socket with
  | Some p =>
     s ← get;
     match socket_paths s !! p with
     | Some l' => if bool_decide (l' = l) then modify (set_paths <[p := l]>) else fail EADDRINUSE
     | None => modify (set_paths <[p := l]>)
     end
  | None => mret tt
  end.

(** The loop of [handle_listen]: at most one turn starts to listen, and every other turn
    that continues takes an id off [awaiting] *)
Fixpoint listen_loop (fuel : nat) (id : Z) (ctx : CallerCtx) : comp UdsStreamScheme OpenResult :=
  match fuel with
  | O => panic
  | S fuel =>
     l ← get_socket id;
     socket ← borrow l;
     if is_listening socket then
       r ← handle_accept l ctx;
       match r with
       | Some result => mret result
       | None => listen_loop fuel id ctx
       end
     else
       handle_start_listening l;;
       listen_loop fuel id ctx
  end.

(** [handle_listen] *)
Definition handle_listen (id : Z) (ctx : CallerCtx) : comp UdsStreamScheme OpenResult :=
  l ← get_socket id;
  socket ← borrow l;
  listen_loop (2 + length (awaiting socket)) id ctx.

(** [handle_connect_socketpair] *)
Definition handle_connect_socketpair (id : Z) (ctx : CallerCtx) : comp UdsStreamScheme OpenResult :=
  s ← get;
  let new_id := next_id s in
  l ← get_socket id;
  socket ← borrow l;
  let new := socket_new new_id None Unbound ∅ (flags socket) None ctx in
  if bool_decide (state socket = Closed) then fail EPIPE
  else
    let '(socket, new) := connect_unchecked socket new in
    store l socket;;
    post_fevent id (Z.lor EVENT_READ EVENT_WRITE);;
    insert_socket new;;
    bump_next_id;;
    mret (ThisScheme new_id).

(** [handle_recvfd] *)
Definition handle_recvfd (id : Z) : comp UdsStreamScheme OpenResult :=
  l ← get_socket id;
  socket ← borrow l;
  match state socket with
  | Established | Accepted =>
     c ← lift (require_connected_connection socket 0);
     match fds c with
     | fd :: rest => store_connection l (set_fds rest c);; mret (OtherScheme fd)
     | [] => fail EWOULDBLOCK
     end
  | Closed => fail EPIPE
  | Listening => fail EOPNOTSUPP
  | _ => fail ENOTCONN
  end.

(** [write_inner] *)
Definition write_inner (sender_id receiver_id : Z) (buf : bytes) (ctx : CallerCtx) :
    comp UdsStreamScheme Z :=
  r ← get_socket receiver_id;
  receiver ← borrow r;
  target ←
    (if is_listening receiver then
       l ← get_socket sender_id;
       sender ← borrow_with r l;
       c ← lift (require_connection sender);
       mret (l, c)
     else
       c ← lift (require_connected_connection receiver 0);
       mret (r, c));
  let '(l, c) := target in
  (if bool_decide (buf = []) then mret tt
   else
     let a := ancillary_new (mk_cred (as_i32 (ctx_pid ctx)) (as_i32 (ctx_uid ctx)) (as_i32 (ctx_gid ctx)))
                (path receiver) in
     store_connection l (set_packets (packets c ++ [packet_new buf a]) c));;
  post_fevent receiver_id EVENT_READ;;
  mret (Z.of_nat (length buf)).

(** [write] *)
Definition write (id : Z) (buf : bytes) (ctx : CallerCtx) : comp UdsStreamScheme Z :=
  remote ← get_connected_peer id;
  write_inner id remote.1 buf ctx.

(** [on_sendfd], [sendfd_inner] *)
Definition on_sendfd (id : Z) (obtained : errno + list Z) : comp UdsStreamScheme Z :=
  remote ← get_connected_peer id;
  match obtained with
  | inl e => fail e
  | inr new_fds =>
     r ← get_socket remote.1;
     receiver ← borrow r;
     c ← lift (require_connected_connection receiver 0);
     store_connection r (set_fds (fds c ++ new_fds) c);;
     post_fevent remote.1 EVENT_READ;;
     mret (Z.of_nat (length new_fds))
  end.

(** [on_recvfd], [recvfd_inner] *)
Definition on_recvfd (id num_fds : Z) (moved : bool) : comp UdsStreamScheme OpenResult :=
  l ← get_socket id;
  socket ← borrow l;
  if bool_decide (num_fds = 0) then mret (OtherSchemeMultiple 0)
  else
    match state socket with
    | Established | Accepted =>
       c ← lift (require_connected_connection socket 0);
       if bool_decide (Z.of_nat (length (fds c)) < num_fds) then
         if is_peer_shutdown c then mret (OtherSchemeMultiple 0)
         else if has_flag (flags socket) O_NONBLOCK then fail EAGAIN
         else mret WouldBlock
       else
         store_connection l (set_fds (drop (Z.to_nat num_fds) (fds c)) c);;
         if moved then mret (OtherSchemeMultiple num_fds) else fail EPROTO
    | Closed => fail EPIPE
    | Listening => fail EOPNOTSUPP
    | _ => fail ENOTCONN
    end.

(** [read_inner]: the count and the buffer afterwards *)
Definition read_inner (l : Z) (c : Connection) (buf : bytes) (fl : Z) : comp UdsStreamScheme (Z * bytes) :=
  r ← lift (read_packets (length buf) (packets c));
  let '(ps, data) := r in
  store_connection l (set_packets ps c);;
  if bool_decide (0 < length data)%nat then mret (Z.of_nat (length data), copy_at buf 0 data)
  else if is_peer_shutdown c then mret (0, buf)
  else if has_flag fl O_NONBLOCK then fail EAGAIN
  else fail EWOULDBLOCK.

(** [read] *)
Definition read (id : Z) (buf : bytes) (fl : Z) : comp UdsStreamScheme (Z * bytes) :=
  l ← get_socket id;
  socket ← borrow l;
  match state socket with
  | Established | Accepted | Connecting =>
     c ← lift (require_connected_connection socket 0);
     read_inner l c buf fl
  | Closed => mret (0, buf)
  | Listening => fail EOPNOTSUPP
  | _ => fail ENOTCONN
  end.

(** The loop of [handle_listening_closure] over the waiting clients, with the listener at [l]
    borrowed *)
Fixpoint close_clients (l : Z) (ids : list Z) : comp UdsStreamScheme unit :=
  match ids with
  | [] => mret tt
  | client_id :: ids =>
     s ← get;
     match handles s !! client_id with
     | Some (HSocket r) =>
        client ← borrow_with l r;
        store r (set_state Closed client);;
        attempt (post_fevent client_id EVENT_READ);;
        mret tt
     | _ => mret tt
     end;;
     close_clients l ids
  end.

(** [handle_listening_closure] *)
Definition handle_listening_closure (l : Z) : comp UdsStreamScheme unit :=
  socket ← borrow l;
  match path socket with Some p => modify (set_paths (delete p)) | None => mret tt end;;
  match issued_token socket with Some t => modify (set_tokens (delete t)) | None => mret tt end;;
  close_clients l (awaiting socket).

(** The end of [handle_other_closure] *)
Definition closure_end (l : Z) : comp UdsStreamScheme unit :=
  socket ← borrow l;
  match path socket with Some p => modify (set_paths (delete p)) | None => mret tt end;;
  match issued_token socket with Some t => modify (set_tokens (delete t)) | None => mret tt end;;
  store l (set_state Closed (set_path None socket)).

(** [handle_other_closure] *)
Definition handle_other_closure (l : Z) : comp UdsStreamScheme unit :=
  socket ← borrow l;
  match state socket with
  | Established | Accepted =>
     match connection socket with
     | None => mret tt
     | Some c =>
        s ← get;
        match handles s !! peer c with
        | Some (HSocket r) =>
           remote ← borrow_with l r;
           match connection remote with
           | None => mret tt
           | Some rc =>
              store r (set_connection (Some (set_shutdown true rc)) remote);;
              attempt (post_fevent (primary_id remote) EVENT_READ);;
              closure_end l
           end
        | _ => mret tt
        end
     end
  | _ => closure_end l
  end.

(** [on_close] *)
Definition on_close (id : Z) : comp UdsStreamScheme unit :=
  s ← get;
  modify (set_handles (delete id));;
  match handles s !! id with
  | Some (HSocket l) =>
     socket ← borrow l;
     if is_listening socket then handle_listening_closure l else handle_other_closure l
  | _ => mret tt
  end.

(** [scheme_root] *)
Definition scheme_root : comp UdsStreamScheme Z :=
  s ← get;
  modify (set_handles <[next_id s := HSchemeRoot]>);;
  bump_next_id;;
  mret (next_id s).

(** [openat] *)
Definition openat (fd : Z) (p : string) (fl fcntl_flags : Z) (ctx : CallerCtx) :
    comp UdsStreamScheme OpenResult :=
  s ← get;
  match handles s !! fd with
  | None => fail EBADF
  | Some (HSocket _) => fail EACCES
  | Some HSchemeRoot =>
     let fl := Z.lor fl fcntl_flags in
     if bool_decide (p = EmptyString) then
       if has_flag fl O_CREAT then
         new_id ← handle_unnamed_socket fl ctx;
         mret (ThisScheme new_id)
       else fail EINVAL
     else fail EINVAL
  end.

(** [call], [call_inner] *)
Definition call (id : Z) (payload : bytes) (metadata : list Z) (token : Z) (meta : option bytes) :
    comp UdsStreamScheme (Z * bytes) :=
  let keep (m : comp UdsStreamScheme Z) := n ← m; mret (n, payload) in
  let msg_flags := match metadata !! 1%nat with Some x => as_i32 x | None => 0 end in
  raw ← ok_or EINVAL (metadata !! 0%nat);
  verb ← ok_or EINVAL (socket_call_of_raw raw);
  match verb with
  | Bind => keep (handle_bind id payload token)
  | Connect => keep (handle_connect id payload)
  | SetSockOpt =>
     option ← ok_or EINVAL (metadata !! 1%nat);
     keep (handle_setsockopt id (as_i32 option) payload)
  | GetSockOpt =>
     option ← ok_or EINVAL (metadata !! 1%nat);
     handle_getsockopt id (as_i32 option) payload
  | SendMsg => keep (handle_sendmsg id msg_flags payload meta)
  | RecvMsg => handle_recvmsg id msg_flags payload
  | Unbind => keep (handle_unbind id)
  | GetToken => handle_get_token id payload
  | GetPeerName => handle_get_peer_name id payload
  | OtherCall => fail EOPNOTSUPP
  end.

(** [dup] *)
Definition dup (id : Z) (buf : bytes) (ctx : CallerCtx) : comp UdsStreamScheme OpenResult :=
  if bool_decide (buf = str_bytes "listen") then handle_listen id ctx
  else if bool_decide (buf = str_bytes "connect") then handle_connect_socketpair id ctx
  else if bool_decide (buf = str_bytes "recvfd") then handle_recvfd id
  else fail EINVAL.

(** [fpath] *)
Definition fpath (id : Z) (buf : bytes) : comp UdsStreamScheme (Z * bytes) :=
  s ← get;
  handle ← ok_or EBADF (handles s !! id);
  p ← match handle with
      | HSchemeRoot => mret EmptyString
      | HSocket l => socket ← borrow l; mret (default EmptyString (path socket))
      end;
  let '(r, buf) := fpath_inner p buf in
  n ← lift r;
  mret (Z.of_nat n, buf).

(** [fsync] *)
Definition fsync (id : Z) : comp UdsStreamScheme unit := get_socket id;; mret tt.

(** [fcntl] *)
Definition fcntl (id cmd arg : Z) : comp UdsStreamScheme Z :=
  l ← get_socket id;
  socket ← borrow l;
  if bool_decide (cmd = F_GETFL) then mret (flags socket)
  else if bool_decide (cmd = F_SETFL) then store l (set_flags arg socket);; mret 0
  else fail EINVAL.

(** [fevent] *)
Definition fevent (id fl : Z) : comp UdsStreamScheme Z :=
  l ← get_socket id;
  socket ← borrow l;
  mret (Z.land (events socket) fl).

(** [fstat]: the mode *)
Definition fstat (id : Z) : comp UdsStreamScheme Z := get_socket id;; mret MODE_SOCK.
End Ops.

(** ** Packets *)

(** A packet that waits has something left to read *)
Definition packet_ok (p : DataPacket) : Prop := (read_offset p < length (payload p))%nat.

(** The bytes that wait *)
Definition unread (ps : list DataPacket) : bytes :=
  concat ((λ p, drop (read_offset p) (payload p)) <$> ps).

Lemma unread_cons p ps : unread (p :: ps) = drop (read_offset p) (payload p) ++ unread ps.
Proof. done. Qed.

Lemma unread_snoc ps p : unread (ps ++ [p]) = unread ps ++ drop (read_offset p) (payload p).
Proof. unfold unread. rewrite fmap_app, concat_app. cbn. by rewrite app_nil_r. Qed.

Lemma read_packets_spec ps : ∀ room, Forall packet_ok ps →
  ∃ ps', read_packets room ps = Ok (ps', take room (unread ps)) ∧
    unread ps' = drop room (unread ps) ∧ Forall packet_ok ps'.
Proof.
  induction ps as [|p ps IH]; intros room Hok; cbn [read_packets].
  { exists []. unfold unread. cbn. by rewrite take_nil, drop_nil. }
  apply Forall_cons in Hok as Hpps. destruct Hpps as [Hp Hps]. unfold packet_ok in Hp.
  case_bool_decide as Hr; [subst; by exists (p :: ps)|].
  rewrite bool_decide_eq_false_2 by lia. set (rem := drop (read_offset p) (payload p)).
  assert (Hrem : length rem = (length (payload p) - read_offset p)%nat) by apply length_drop.
  rewrite bool_decide_eq_false_2 by lia. rewrite unread_cons. fold rem.
  case_bool_decide as Hall.
  - assert (Hmin : Nat.min (length rem) room = length rem) by lia. rewrite Hmin.
    destruct (IH (room - length rem)%nat Hps) as (ps' & E & Hu & Ho). rewrite E.
    exists ps'. rewrite take_app, drop_app, (take_ge rem) by lia.
    rewrite (take_ge rem room) by lia. rewrite (drop_ge rem room) by lia. done.
  - rewrite Nat.min_r by lia. eexists. split; [by rewrite take_app_le by lia|]. split.
    + rewrite unread_cons. cbn [read_offset payload]. rewrite drop_app_le by lia. f_equal.
      unfold rem. by rewrite drop_drop.
    + constructor; [|done]. unfold packet_ok. cbn [read_offset payload]. lia.
Qed.

(** ** Connected sockets *)

Section Streams.
Context {SA : SyscallAbi} {L : Libc} {SC : SocketCalls}.
Variable write_response : list (Z * Z) → Z * Z → errno + bool.
Implicit Types s : UdsStreamScheme.

Lemma st_get_socket s id l : handles s !! id = Some (HSocket l) → get_socket id s = (Ok l, s).
Proof. intros H. unfold get_socket. by rewrite bind_get, H. Qed.

Lemma st_borrow s l k : sockets s !! l = Some k → borrow l s = (Ok k, s).
Proof. intros H. unfold borrow. by rewrite bind_get, H. Qed.

Lemma st_borrow_with s held l k :
  sockets s !! l = Some k → held ≠ l → borrow_with held l s = (Ok k, s).
Proof. intros H Hne. unfold borrow_with. rewrite bool_decide_eq_false_2 by done. by apply st_borrow. Qed.

Lemma st_store_connection s l k c :
  sockets s !! l = Some k →
  store_connection l c s = (Ok tt, set_sockets <[l := set_connection (Some c) k]> s).
Proof. intros H. unfold store_connection. by rewrite (bind_ok _ _ _ _ _ (st_borrow s l k H)). Qed.

(** An end of a connection: the socket at [l] is open under [id] and talks to [remote], with
    [q] waiting to be read *)
Record endpoint s (id l remote : Z) (q : bytes) (k : Socket) (c : Connection) : Prop := {
  ep_handle : handles s !! id = Some (HSocket l);
  ep_socket : sockets s !! l = Some k;
  ep_state : state k = Established ∨ state k = Accepted;
  ep_conn : connection k = Some c;
  ep_peer : peer c = remote;
  ep_unread : unread (packets c) = q;
  ep_packets : Forall packet_ok (packets c);
}.

(** Two ends that talk to each other *)
Definition duplex s (a la b lb : Z) (qa qb : bytes) : Prop :=
  la ≠ lb ∧ (∃ k c, endpoint s a la b qa k c) ∧ (∃ k c, endpoint s b lb a qb k c).

Lemma duplex_sym s a la b lb qa qb : duplex s a la b lb qa qb → duplex s b lb a la qb qa.
Proof. intros (Hne & Ha & Hb). by split. Qed.

Lemma duplex_post s a la b lb qa qb e : duplex s a la b lb qa qb → duplex (log_post e s) a la b lb qa qb.
Proof.
  intros (Hne & (ka & ca & []) & (kb & cb & [])).
  split; [done|]. split; eexists _, _; by split.
Qed.

(** The packets of one end change *)
Lemma duplex_packets s a la b lb qa qb kb cb ps :
  duplex s a la b lb qa qb → endpoint s b lb a qb kb cb → Forall packet_ok ps →
  duplex (set_sockets <[lb := set_connection (Some (set_packets ps cb)) kb]> s) a la b lb qa (unread ps).
Proof.
  intros (Hne & (ka & ca & [Ha1 Ha2 Ha3 Ha4 Ha5 Ha6 Ha7]) & _) [Hb1 Hb2 Hb3 Hb4 Hb5 Hb6 Hb7] Hps. split; [done|]. split.
  - exists ka, ca. split; try done. cbn. by rewrite lookup_insert_ne.
  - exists (set_connection (Some (set_packets ps cb)) kb), (set_packets ps cb).
    split; try done. cbn. apply lookup_insert_eq.
Qed.

Lemma duplex_push s a la b lb qa qb kb cb buf anc :
  duplex s a la b lb qa qb → endpoint s b lb a qb kb cb → buf ≠ [] →
  duplex (set_sockets <[lb := set_connection (Some (set_packets (packets cb ++ [packet_new buf anc]) cb)) kb]> s)
    a la b lb qa (qb ++ buf).
Proof.
  intros Hd Hb Hbuf. pose proof (ep_unread _ _ _ _ _ _ _ Hb) as <-.
  replace (unread (packets cb) ++ buf) with (unread (packets cb ++ [packet_new buf anc])) by apply unread_snoc.
  eapply duplex_packets; [exact Hd|exact Hb|]. apply Forall_app_2; [by eapply ep_packets|].
  apply Forall_singleton. unfold packet_ok. cbn. destruct buf; [done|cbn; lia].
Qed.

Lemma st_connected_peer s a la b lb qa qb :
  duplex s a la b lb qa qb → get_connected_peer a s = (Ok (b, lb), s).
Proof.
  intros (Hne & (ka & ca & [Ha1 Ha2 Ha3 Ha4 Ha5 Ha6 Ha7]) & (kb & cb & [Hb1 Hb2 Hb3 Hb4 Hb5 Hb6 Hb7])).
  unfold get_connected_peer. rewrite (bind_ok _ _ _ _ _ (st_get_socket s a la Ha1)).
  rewrite (bind_ok _ _ _ _ _ (st_borrow s la ka Ha2)).
  rewrite (bind_ok _ _ _ ca s) by (unfold lift, require_connection; by rewrite Ha4).
  rewrite bind_get, Ha5, Hb1. rewrite (bind_ok _ _ _ _ _ (st_borrow_with s la lb kb Hb2 Hne)).
  rewrite bool_decide_eq_false_2; [done|]. destruct Hb3 as [-> | ->]; done.
Qed.

Lemma connected_conn k c fl :
  state k = Established ∨ state k = Accepted → connection k = Some c →
  require_connected_connection k fl = Ok c.
Proof. intros [E|E] Hc; unfold require_connected_connection, require_connection; by rewrite E, Hc. Qed.

Lemma not_listening k : state k = Established ∨ state k = Accepted → is_listening k = false.
Proof. intros [E|E]; unfold is_listening; by rewrite E. Qed.

Lemma duplex_write s a la b lb qa qb buf ctx :
  duplex s a la b lb qa qb → ∃ r s', attempt (write write_response a buf ctx) s = (Ok r, s') ∧
    duplex s' a la b lb qa (qb ++ buf).
Proof.
  intros Hd. destruct (Hd) as (Hne & _ & (kb & cb & Hb)). pose proof Hb as [Hb1 Hb2 Hb3 Hb4 Hb5 Hb6 Hb7].
  unfold attempt, write. rewrite (bind_ok _ _ _ _ _ (st_connected_peer _ _ _ _ _ _ _ Hd)). cbn [fst].
  unfold write_inner. rewrite (bind_ok _ _ _ _ _ (st_get_socket s b lb Hb1)).
  rewrite (bind_ok _ _ _ _ _ (st_borrow s lb kb Hb2)). rewrite not_listening by done.
  rewrite (bind_ok _ _ _ (lb, cb) s) by (rewrite connected_conn with (c := cb) by done; done).
  assert (Hdone : ∀ s1, duplex s1 a la b lb qa (qb ++ buf) →
    ∃ r s', (match (post_fevent write_response b EVENT_READ;; mret (Z.of_nat (length buf))) s1 with
             | (Ok a0, s'0) => (Ok (Some a0), s'0) | (Err _, s'0) => (Ok None, s'0) | (Panic, s'0) => (Panic, s'0)
             end) = (Ok r, s') ∧ duplex s' a la b lb qa (qb ++ buf)).
  { intros s1 H1. apply (duplex_post _ _ _ _ _ _ _ (b, EVENT_READ)) in H1.
    unfold post_fevent, mbind, comp_bind, get, put.
    destruct (write_response (posted s1) (b, EVENT_READ)) as [e|[]]; eexists _, _; (split; [reflexivity|exact H1]). }
  case_bool_decide as Hbuf.
  - subst buf. rewrite bind_ret. apply Hdone. by rewrite app_nil_r.
  - erewrite bind_ok; [|by apply st_store_connection]. apply Hdone.
    by apply (duplex_push s a la b lb qa qb).
Qed.

Lemma duplex_read s a la b lb qa qb n fl :
  duplex s a la b lb qa qb → ∃ s',
    duplex s' a la b lb qa (drop n qb) ∧
    ((take n qb ≠ [] ∧ read b (replicate n 0) fl s =
       (Ok (Z.of_nat (length (take n qb)), copy_at (replicate n 0) 0 (take n qb)), s')) ∨
     (take n qb = [] ∧ ∃ r, read b (replicate n 0) fl s = (r, s') ∧ r ≠ Panic ∧
        ∀ c d, r = Ok (c, d) → c = 0)).
Proof.
  intros Hd. destruct (Hd) as (Hne & _ & (kb & cb & Hb)). pose proof Hb as [Hb1 Hb2 Hb3 Hb4 Hb5 Hb6 Hb7].
  destruct (read_packets_spec (packets cb) n Hb7) as (ps & E & Hu & Hps). rewrite Hb6 in E, Hu.
  assert (Hread : read b (replicate n 0) fl s = read_inner lb cb (replicate n 0) fl s).
  { unfold read. rewrite (bind_ok _ _ _ _ _ (st_get_socket s b lb Hb1)), (bind_ok _ _ _ _ _ (st_borrow s lb kb Hb2)).
    destruct Hb3 as [Es|Es]; rewrite Es; (rewrite (bind_ok _ _ _ cb s); [done|]);
      rewrite connected_conn with (c := cb) by auto; done. }
  rewrite Hread. unfold read_inner. rewrite length_replicate.
  rewrite (bind_ok _ _ _ (ps, take n qb) s) by (unfold lift; by rewrite E).
  erewrite bind_ok; [|by apply st_store_connection]. eexists. split.
  { rewrite <- Hu. by eapply duplex_packets. }
  case_bool_decide as Hl.
  - left. split; [|done]. intros Hnil. rewrite Hnil in Hl. cbn in Hl. lia.
  - right. split; [by destruct (take n qb); [|cbn in Hl; lia]|].
    destruct (is_peer_shutdown cb); [|by destruct (has_flag fl O_NONBLOCK); eexists].
    eexists. split; [reflexivity|]. split; [done|]. by intros c d [= <- _].
Qed.

(** What the two ends do; [true] is the first one *)
Inductive st_op : Type :=
  | StWrite (side : bool) (buf : bytes) (ctx : CallerCtx)
  | StRead (side : bool) (n : nat) (fl : Z).

(** The data of the reads that succeed, with the end that read it *)
Fixpoint st_run (a b : Z) (ops : list st_op) : comp UdsStreamScheme (list (bool * bytes)) :=
  match ops with
  | [] => mret []
  | StWrite side buf ctx :: ops =>
     attempt (write write_response (if side then a else b) buf ctx);;
     st_run a b ops
  | StRead side n fl :: ops =>
     r ← attempt (read (if side then a else b) (replicate n 0) fl);
     outs ← st_run a b ops;
     mret match r with
          | Some (c, buf) => (side, take (Z.to_nat c) buf) :: outs
          | None => outs
          end
  end.

(** The bytes written by one end, and the bytes read by one end *)
Definition st_sent (side : bool) (ops : list st_op) : bytes :=
  concat ((λ op, match op with
                 | StWrite sd buf _ => if Bool.eqb sd side then buf else []
                 | StRead _ _ _ => []
                 end) <$> ops).

Definition st_got (side : bool) (outs : list (bool * bytes)) : bytes :=
  concat ((λ o, if Bool.eqb o.1 side then o.2 else []) <$> outs).

Lemma duplex_read_attempt s a la b lb qa qb n fl :
  duplex s a la b lb qa qb → ∃ r s', attempt (read b (replicate n 0) fl) s = (Ok r, s') ∧
    duplex s' a la b lb qa (drop n qb) ∧
    match r with Some (c, buf) => take (Z.to_nat c) buf = take n qb | None => take n qb = [] end.
Proof.
  intros Hd. destruct (duplex_read s a la b lb qa qb n fl Hd) as (s' & Hd' & [[Hne E]|[Hnil (r & E & Hr & Hz)]]);
    unfold attempt; rewrite E.
  - eexists _, s'. split; [reflexivity|]. split; [done|]. rewrite Nat2Z.id, copy_at_0.
    by rewrite take_app_length.
  - destruct r as [[c d]|e|]; [|by eexists _, s'|done]. eexists _, s'. split; [reflexivity|]. split; [done|].
    rewrite (Hz c d eq_refl), Hnil. done.
Qed.

(** C34. A connected pair is two byte streams: however the two ends interleave writes and
    reads of any sizes, the bytes that one end reads are the bytes that the other wrote, in
    order and without loss, and the rest still waits, also when an event could not be
    posted. *)
Theorem stream_fifo s a la b lb qa qb ops :
  duplex s a la b lb qa qb → ∃ outs s' qa' qb', st_run a b ops s = (Ok outs, s') ∧
    duplex s' a la b lb qa' qb' ∧
    qb ++ st_sent true ops = st_got false outs ++ qb' ∧
    qa ++ st_sent false ops = st_got true outs ++ qa'.
Proof.
  revert s qa qb. induction ops as [|[[] buf ctx|[] n fl] ops IH]; intros s qa qb Hd; cbn [st_run].
  - exists [], s, qa, qb. cbn. by rewrite !app_nil_r.
  - destruct (duplex_write s a la b lb qa qb buf ctx Hd) as (r & s1 & E & Hd1).
    rewrite (bind_ok _ _ _ _ _ E). destruct (IH s1 _ _ Hd1) as (outs & s' & qa' & qb' & E' & Hd' & Hb & Ha).
    exists outs, s', qa', qb'. split_and!; try done. by rewrite <- Hb, <- app_assoc.
  - apply duplex_sym in Hd. destruct (duplex_write s b lb a la qb qa buf ctx Hd) as (r & s1 & E & Hd1%duplex_sym).
    rewrite (bind_ok _ _ _ _ _ E). destruct (IH s1 _ _ Hd1) as (outs & s' & qa' & qb' & E' & Hd' & Hb & Ha).
    exists outs, s', qa', qb'. split_and!; try done. by rewrite <- Ha, <- app_assoc.
  - apply duplex_sym in Hd. destruct (duplex_read_attempt s b lb a la qb qa n fl Hd) as (r & s1 & E & Hd1%duplex_sym & Hr).
    rewrite (bind_ok _ _ _ _ _ E). destruct (IH s1 _ _ Hd1) as (outs & s' & qa' & qb' & E' & Hd' & Hb & Ha).
    rewrite (bind_ok _ _ _ _ _ E'). eexists _, s', qa', qb'. split_and!; [reflexivity|done|..].
    + destruct r as [[c d]|]; exact Hb.
    + rewrite <- (take_drop n qa) at 1. rewrite <- app_assoc. cbn [st_sent fmap list_fmap concat app].
      destruct r as [[c d]|]; [|by rewrite Hr]. cbn. rewrite Hr, <- app_assoc. by f_equal.
  - destruct (duplex_read_attempt s a la b lb qa qb n fl Hd) as (r & s1 & E & Hd1 & Hr).
    rewrite (bind_ok _ _ _ _ _ E). destruct (IH s1 _ _ Hd1) as (outs & s' & qa' & qb' & E' & Hd' & Hb & Ha).
    rewrite (bind_ok _ _ _ _ _ E'). eexists _, s', qa', qb'. split_and!; [reflexivity|done|..].
    + rewrite <- (take_drop n qb) at 1. rewrite <- app_assoc. cbn [st_sent fmap list_fmap concat app].
      destruct r as [[c d]|]; [|by rewrite Hr]. cbn. rewrite Hr, <- app_assoc. by f_equal.
    + destruct r as [[c d]|]; exact Ha.
Qed.

(** *** Connecting *)

(** The client [c] at [lc] waits to be accepted by the listener [a] at [la], and has written
    [q] already *)
Record connecting s (a la c lc : Z) (q : bytes) (ka kc : Socket) (cc : Connection) : Prop := {
  cn_ne : la ≠ lc;
  cn_listener : handles s !! a = Some (HSocket la);
  cn_ka : sockets s !! la = Some ka;
  cn_listening : state ka = Listening;
  cn_awaiting : awaiting ka = [c];
  cn_primary : primary_id ka = a;
  cn_client : handles s !! c = Some (HSocket lc);
  cn_kc : sockets s !! lc = Some kc;
  cn_state : state kc = Connecting;
  cn_conn : connection kc = Some cc;
  cn_peer : peer cc = a;
  cn_unread : unread (packets cc) = q;
  cn_packets : Forall packet_ok (packets cc);
}.

Definition pending s a la c lc q : Prop := ∃ ka kc cc, connecting s a la c lc q ka kc cc.

(** Every event can be posted *)
Hypothesis posts : ∀ history e, write_response history e = inr true.

Lemma st_post s id evs : post_fevent write_response id evs s = (Ok tt, log_post (id, evs) s).
Proof. unfold post_fevent, mbind, comp_bind, get, put. by rewrite posts. Qed.

Lemma st_connect s a la c lc t ka kc :
  la ≠ lc → handles s !! a = Some (HSocket la) → sockets s !! la = Some ka →
  state ka = Listening → awaiting ka = [] → primary_id ka = a → socket_tokens s !! t = Some la →
  handles s !! c = Some (HSocket lc) → sockets s !! lc = Some kc → state kc = Unbound →
  primary_id kc = c → is_usize t →
  ∃ s1, handle_connect write_response c (le_bytes 8 t) s =
      (Err (if has_flag (flags kc) O_NONBLOCK then EAGAIN else EWOULDBLOCK), s1) ∧
    pending s1 a la c lc [] ∧ next_id s1 = next_id s.
Proof.
  intros Hne Ha Hka Hl Haw Hpa Ht Hc Hkc Hu Hpc Hr. unfold handle_connect.
  rewrite (bind_ok _ _ _ t s); [|unfold lift; rewrite <- (app_nil_r (le_bytes 8 t)), read_num_le; [done|cbn; ints]].
  rewrite bind_get, Ht. cbn [ok_or]. rewrite bind_ret. rewrite (bind_ok _ _ _ _ _ (st_get_socket s c lc Hc)).
  rewrite (bind_ok _ _ _ _ _ (st_borrow s lc kc Hkc)).
  rewrite (bind_ok _ _ _ _ _ (st_borrow_with s lc la ka Hka (not_eq_sym Hne))). rewrite Hu.
  unfold connect. rewrite Hl. unfold connect_unchecked, store, lift, modify, mbind, comp_bind. cbn [fst snd].
  rewrite st_post. eexists. split; [reflexivity|]. split; [|done].
  exists (set_awaiting [c] ka), (set_connection (Some (conn_new a)) (set_state Connecting kc)), (conn_new a).
  rewrite Haw, Hpc, Hpa. split; cbn; try done.
  - by rewrite lookup_insert_ne, lookup_insert_eq.
  - by apply lookup_insert_eq.
Qed.

Lemma st_park s a la c lc q buf ctx :
  pending s a la c lc q → ∃ s', write write_response c buf ctx s = (Ok (Z.of_nat (length buf)), s') ∧
    pending s' a la c lc (q ++ buf) ∧ next_id s' = next_id s.
Proof.
  intros (ka & kc & cc & [Hne Ha Hka Hl Haw Hpa Hc Hkc Hs Hcc Hp Hu Hok]). unfold write.
  erewrite bind_ok; cycle 1.
  { unfold get_connected_peer. rewrite (bind_ok _ _ _ _ _ (st_get_socket s c lc Hc)).
    rewrite (bind_ok _ _ _ _ _ (st_borrow s lc kc Hkc)).
    rewrite (bind_ok _ _ _ cc s) by (unfold lift, require_connection; by rewrite Hcc).
    rewrite bind_get, Hp, Ha. rewrite (bind_ok _ _ _ _ _ (st_borrow_with s lc la ka Hka (not_eq_sym Hne))).
    rewrite Hl. rewrite bool_decide_eq_false_2 by done. reflexivity. }
  cbn [fst]. unfold write_inner. rewrite (bind_ok _ _ _ _ _ (st_get_socket s a la Ha)).
  rewrite (bind_ok _ _ _ _ _ (st_borrow s la ka Hka)). unfold is_listening. rewrite Hl.
  rewrite (bool_decide_eq_true_2 (Listening = Listening)) by done.
  rewrite (bind_ok _ _ _ (lc, cc) s); cycle 1.
  { rewrite (bind_ok _ _ _ _ _ (st_get_socket s c lc Hc)), (bind_ok _ _ _ _ _ (st_borrow_with s la lc kc Hkc Hne)).
    rewrite (bind_ok _ _ _ cc s) by (unfold lift, require_connection; by rewrite Hcc). done. }
  case_bool_decide as Hb.
  - subst buf. rewrite bind_ret. rewrite (bind_ok _ _ _ _ _ (st_post s a EVENT_READ)). eexists.
    split; [reflexivity|]. split; [|done]. exists ka, kc, cc. rewrite app_nil_r. by split.
  - erewrite bind_ok; [|by apply st_store_connection]. erewrite bind_ok; [|apply st_post]. eexists.
    split; [reflexivity|]. split; [|done].
    match goal with |- context [set_packets ?ps cc] =>
      exists ka, (set_connection (Some (set_packets ps cc)) kc), (set_packets ps cc) end.
    split; cbn -[unread]; try done.
    + by rewrite lookup_insert_ne.
    + apply lookup_insert_eq.
    + rewrite unread_snoc, Hu. done.
    + apply Forall_app_2; [done|]. apply Forall_singleton. unfold packet_ok. cbn. destruct buf; [done|cbn; lia].
Qed.

Lemma st_bump s : next_id s < usize_max → bump_next_id s = (Ok tt, set_next_id (next_id s + 1) s).
Proof.
  intros Hn. unfold bump_next_id, add_usize, checked_add_usize. rewrite bind_get.
  by rewrite bool_decide_eq_true_2 by lia.
Qed.

(** The listener takes the client that waits *)
Lemma st_accept_connection s a la c lc q ka kc cc ctx :
  la ≠ lc → sockets s !! la = Some ka → state ka = Listening → primary_id ka = a →
  handles s !! c = Some (HSocket lc) → sockets s !! lc = Some kc → state kc = Connecting →
  connection kc = Some cc → peer cc = a → unread (packets cc) = q → Forall packet_ok (packets cc) →
  next_id s < usize_max → c ≠ next_id s → lc ≠ next_id s →
  ∃ s', accept_connection write_response la c ctx s = (Ok (Some (ThisScheme (next_id s))), s') ∧
    duplex s' c lc (next_id s) (next_id s) [] q.
Proof.
  intros Hne Hka Hl Hpa Hc Hkc Hs Hcc Hp Hu Hok Hn Hfc Hfl. set (n := next_id s).
  set (new := socket_new n (path ka) Established (options ka) (flags ka) (Some (conn_new c)) ctx).
  unfold accept_connection. rewrite bind_get, Hc. rewrite (bind_ok _ _ _ _ _ (st_borrow s la ka Hka)). fold n.
  rewrite (bind_ok _ _ _ new s); cycle 1.
  { unfold lift, accept, is_listening. rewrite Hl. by rewrite bool_decide_eq_true_2. }
  rewrite (bind_ok _ _ _ _ _ (st_borrow_with s la lc kc Hkc Hne)).
  unfold establish. rewrite Hs, bool_decide_eq_true_2 by done. cbn [connection set_state].
  rewrite Hcc, Hp, Hpa, bool_decide_eq_true_2 by done. cbn [connection new socket_new].
  unfold store, lift. rewrite bind_modify. erewrite bind_ok; [|reflexivity].
  erewrite bind_ok; [|by apply st_bump]. unfold insert_socket. erewrite bind_ok; [|reflexivity].
  erewrite bind_ok; [|apply st_post]. eexists. split; [reflexivity|]. apply duplex_post.
  split; [done|]. split.
  - eexists _, _. split; cbn; [by rewrite lookup_insert_ne|by rewrite lookup_insert_ne, lookup_insert_eq|..];
      try done; by right.
  - eexists _, _. split; cbn; [apply lookup_insert_eq|apply lookup_insert_eq|by left|reflexivity|..]; try done.
Qed.

Lemma st_accept s a la c lc q ctx :
  pending s a la c lc q → next_id s < usize_max → c ≠ next_id s → lc ≠ next_id s →
  ∃ s', dup write_response a (str_bytes "listen") ctx s = (Ok (ThisScheme (next_id s)), s') ∧
    duplex s' c lc (next_id s) (next_id s) [] q.
Proof.
  intros (ka & kc & cc & [Hne Ha Hka Hl Haw Hpa Hc Hkc Hs Hcc Hp Hu Hok]) Hn Hfc Hfl.
  assert (Hlis : is_listening ka = true) by (unfold is_listening; by rewrite Hl).
  set (s1 := set_sockets <[la := set_awaiting [] ka]> s).
  destruct (st_accept_connection s1 a la c lc q (set_awaiting [] ka) kc cc ctx) as (s' & E & Hd); try done;
    [apply lookup_insert_eq|by cbn; rewrite lookup_insert_ne|].
  exists s'. split; [|done].
  unfold dup. rewrite bool_decide_eq_true_2 by done. unfold handle_listen.
  rewrite (bind_ok _ _ _ _ _ (st_get_socket s a la Ha)), (bind_ok _ _ _ _ _ (st_borrow s la ka Hka)).
  rewrite Haw. cbn [length Nat.add listen_loop].
  rewrite (bind_ok _ _ _ _ _ (st_get_socket s a la Ha)), (bind_ok _ _ _ _ _ (st_borrow s la ka Hka)).
  rewrite Hlis. rewrite (bind_ok _ _ _ (Some (ThisScheme (next_id s))) s'); [done|].
  unfold handle_accept. rewrite (bind_ok _ _ _ _ _ (st_borrow s la ka Hka)), Hlis, Haw. cbn [length accept_loop].
  rewrite (bind_ok _ _ _ _ _ (st_borrow s la ka Hka)), Haw.
  unfold store at 1. rewrite bind_modify. unfold or_again.
  fold s1. by rewrite E.
Qed.

(** The writes of one end, each of them whole *)
Fixpoint write_all (id : Z) (bufs : list bytes) (ctx : CallerCtx) : comp UdsStreamScheme unit :=
  match bufs with
  | [] => mret tt
  | buf :: bufs =>
     n ← write write_response id buf ctx;
     (if bool_decide (n = Z.of_nat (length buf)) then mret tt else fail EIO);;
     write_all id bufs ctx
  end.

Lemma st_park_all s a la c lc q bufs ctx :
  pending s a la c lc q → ∃ s', write_all c bufs ctx s = (Ok tt, s') ∧
    pending s' a la c lc (q ++ concat bufs) ∧ next_id s' = next_id s.
Proof.
  revert s q. induction bufs as [|buf bufs IH]; intros s q Hp; cbn [write_all concat].
  { exists s. by rewrite app_nil_r. }
  destruct (st_park s a la c lc q buf ctx Hp) as (s1 & E & Hp1 & Hn1).
  rewrite (bind_ok _ _ _ _ _ E), bool_decide_eq_true_2, bind_ret by done.
  destruct (IH s1 _ Hp1) as (s' & E' & Hp' & Hn'). exists s'. rewrite <- app_assoc in Hp'.
  split_and!; try done. by rewrite Hn'.
Qed.


(** *** Closing *)

Lemma st_try_post s id evs :
  ∃ r, attempt (post_fevent write_response id evs) s = (Ok r, log_post (id, evs) s).
Proof.
  unfold attempt, post_fevent, mbind, comp_bind, get, put.
  destruct (write_response (posted s) (id, evs)) as [e|[]]; eauto.
Qed.

(** The end [b] of a connection that the other end [a] has closed *)
Definition hung_up s (a b lb : Z) (q : bytes) : Prop :=
  handles s !! a = None ∧ ∃ k c, endpoint s b lb a q k c ∧ is_peer_shutdown c = true.

Lemma hung_up_frame s s' a b lb q :
  hung_up s a b lb q → handles s' = handles s → sockets s' !! lb = sockets s !! lb →
  hung_up s' a b lb q.
Proof.
  intros [Ha (k & c & [] & Hsh)] Eh Es. split; [by rewrite Eh|]. exists k, c. split; [|done].
  split; try done; by rewrite ?Eh, ?Es.
Qed.

Lemma st_closure_end s a b la lb q :
  hung_up s a b lb q → la ≠ lb → is_Some (sockets s !! la) →
  ∃ s', closure_end la s = (Ok tt, s') ∧ hung_up s' a b lb q.
Proof.
  intros Hh Hne [k Hk]. unfold closure_end. rewrite (bind_ok _ _ _ _ _ (st_borrow s la k Hk)).
  destruct (path k), (issued_token k); unfold store; rewrite ?bind_modify, ?bind_ret, ?bind_modify;
    (eexists; split; [reflexivity|]);
    (eapply hung_up_frame; [exact Hh|done|]); cbn; by rewrite lookup_insert_ne.
Qed.

Lemma st_on_close s a la b lb qa qb :
  duplex s a la b lb qa qb → ∃ s', on_close write_response a s = (Ok tt, s') ∧ hung_up s' a b lb qb.
Proof.
  intros (Hne & (ka & ca & [Ha1 Ha2 Ha3 Ha4 Ha5 Ha6 Ha7]) & (kb & cb & [Hb1 Hb2 Hb3 Hb4 Hb5 Hb6 Hb7])).
  assert (Hab : a ≠ b) by (intros ->; congruence).
  set (s1 := set_handles (delete a) s).
  assert (Hb1' : handles s1 !! b = Some (HSocket lb)) by (cbn; by rewrite lookup_delete_ne).
  unfold on_close. rewrite bind_get, bind_modify, Ha1. rewrite (bind_ok _ _ _ _ _ (st_borrow s1 la ka Ha2)).
  rewrite not_listening by done. unfold handle_other_closure. rewrite (bind_ok _ _ _ _ _ (st_borrow s1 la ka Ha2)).
  replace (match state ka with Established | Accepted => _ | _ => _ end) with
    (match connection ka with
     | None => mret tt
     | Some c => s ← get; match handles s !! peer c with
        | Some (HSocket r) =>
           remote ← borrow_with la r;
           match connection remote with
           | None => mret tt
           | Some rc =>
              store r (set_connection (Some (set_shutdown true rc)) remote);;
              attempt (post_fevent write_response (primary_id remote) EVENT_READ);;
              closure_end la
           end
        | _ => mret tt end end) by (destruct Ha3 as [-> | ->]; done).
  rewrite Ha4, bind_get, Ha5, Hb1'. rewrite (bind_ok _ _ _ _ _ (st_borrow_with s1 la lb kb Hb2 Hne)), Hb4.
  unfold store. rewrite bind_modify. edestruct st_try_post as [r Hr]. rewrite (bind_ok _ _ _ _ _ Hr).
  apply st_closure_end with (b := b) (lb := lb); [|done|].
  - split; [apply lookup_delete_eq|]. eexists _, _. split; [split|]; [exact Hb1'|apply lookup_insert_eq|..]; try done.
  - cbn. rewrite lookup_insert_ne by done. by exists ka.
Qed.

Lemma hung_up_read s a b lb q n fl :
  hung_up s a b lb q → ∃ s',
    read b (replicate n 0) fl s =
      (Ok (Z.of_nat (length (take n q)), copy_at (replicate n 0) 0 (take n q)), s') ∧
    hung_up s' a b lb (drop n q).
Proof.
  intros [Ha (kb & cb & [Hb1 Hb2 Hb3 Hb4 Hb5 Hb6 Hb7] & Hsh)].
  destruct (read_packets_spec (packets cb) n Hb7) as (ps & E & Hu & Hps). rewrite Hb6 in E, Hu.
  assert (Hread : read b (replicate n 0) fl s = read_inner lb cb (replicate n 0) fl s).
  { unfold read. rewrite (bind_ok _ _ _ _ _ (st_get_socket s b lb Hb1)), (bind_ok _ _ _ _ _ (st_borrow s lb kb Hb2)).
    destruct Hb3 as [Es|Es]; rewrite Es; (rewrite (bind_ok _ _ _ cb s); [done|]);
      rewrite connected_conn with (c := cb) by auto; done. }
  rewrite Hread. unfold read_inner. rewrite length_replicate.
  rewrite (bind_ok _ _ _ (ps, take n q) s) by (unfold lift; by rewrite E).
  erewrite bind_ok; [|by apply st_store_connection].
  exists (set_sockets <[lb := set_connection (Some (set_packets ps cb)) kb]> s). split; cycle 1.
  { split; [done|]. exists (set_connection (Some (set_packets ps cb)) kb), (set_packets ps cb).
    split; [|done]. split; try done. apply lookup_insert_eq. }
  case_bool_decide as Hl; [done|]. rewrite Hsh.
  destruct (take n q); [|cbn in Hl; lia]. by rewrite copy_at_nil.
Qed.

Lemma hung_up_write s a b lb q buf ctx :
  hung_up s a b lb q → write write_response b buf ctx s = (Err EPIPE, s).
Proof.
  intros [Ha (kb & cb & [Hb1 Hb2 Hb3 Hb4 Hb5 Hb6 Hb7] & Hsh)]. unfold write.
  assert (E : get_connected_peer b s = (Err EPIPE, s)).
  { unfold get_connected_peer. rewrite (bind_ok _ _ _ _ _ (st_get_socket s b lb Hb1)).
    rewrite (bind_ok _ _ _ _ _ (st_borrow s lb kb Hb2)).
    rewrite (bind_ok _ _ _ cb s) by (unfold lift, require_connection; by rewrite Hb4).
    by rewrite bind_get, Hb5, Ha. }
  unfold mbind, comp_bind. by rewrite E.
Qed.

(** The data of a sequence of reads of the given sizes *)
Fixpoint read_all (id : Z) (sizes : list nat) (fl : Z) : comp UdsStreamScheme (list bytes) :=
  match sizes with
  | [] => mret []
  | n :: sizes =>
     r ← read id (replicate n 0) fl;
     outs ← read_all id sizes fl;
     mret (take (Z.to_nat r.1) r.2 :: outs)
  end.

(** Successive pieces of [q] *)
Fixpoint pieces (q : bytes) (sizes : list nat) : list bytes :=
  match sizes with
  | [] => []
  | n :: sizes => take n q :: pieces (drop n q) sizes
  end.

(** Closing one end of a connection is an orderly end of the stream for the other: its
    reads, of any sizes and whatever their flags, first return all the bytes that wait, in
    order, and from then on succeed with no bytes; and each of its writes fails with EPIPE. *)
Theorem stream_close_eof s a la b lb qa qb :
  duplex s a la b lb qa qb → ∃ s', on_close write_response a s = (Ok tt, s') ∧
    ∀ sizes fl, ∃ s'', read_all b sizes fl s' = (Ok (pieces qb sizes), s'') ∧
      ∀ buf ctx, write write_response b buf ctx s'' = (Err EPIPE, s'').
Proof.
  intros Hd. destruct (st_on_close s a la b lb qa qb Hd) as (s' & E & Hh). exists s'. split; [done|].
  intros sizes fl. clear E Hd. revert s' qb Hh. induction sizes as [|n sizes IH]; intros s' qb Hh.
  { exists s'. split; [done|]. intros. by eapply hung_up_write. }
  cbn [read_all pieces]. destruct (hung_up_read s' a b lb qb n fl Hh) as (s1 & E & H1).
  destruct (IH s1 _ H1) as (s2 & E2 & H2). exists s2. split; [|done].
  rewrite (bind_ok _ _ _ _ _ E), (bind_ok _ _ _ _ _ E2). cbn [fst snd].
  by rewrite Nat2Z.id, copy_at_0, take_app_length.
Qed.

End Streams.

(** ** Panics *)

Section Safety.
Context {SA : SyscallAbi} {L : Libc} {SC : SocketCalls}.
Variable write_response : list (Z * Z) → Z * Z → errno + bool.
Implicit Types s : UdsStreamScheme.

(** A connection of the socket [l] goes elsewhere, and what waits in it can be read *)
Definition connection_wf (l : Z) (c : Connection) : Prop := peer c ≠ l ∧ Forall packet_ok (packets c).

(** A socket at [l] is older than the id [n], and does not wait for itself *)
Record socket_wf (n l : Z) (k : Socket) : Prop := {
  sw_primary : primary_id k = l;
  sw_old : l < n;
  sw_awaiting : l ∉ awaiting k;
  sw_connection : ∀ c, connection k = Some c → connection_wf l c;
}.

(** The handle of a socket has the number of the socket, and tokens lead to sockets *)
Record stream_wf s : Prop := {
  wf_handles : ∀ id l, handles s !! id = Some (HSocket l) → l = id ∧ is_Some (sockets s !! l);
  wf_tokens : ∀ t l, socket_tokens s !! t = Some l → is_Some (sockets s !! l);
  wf_sockets : ∀ l k, sockets s !! l = Some k → socket_wf (next_id s) l k;
}.

Lemma socket_wf_mono n m l k : n ≤ m → socket_wf n l k → socket_wf m l k.
Proof. intros Hnm []. split; try done. lia. Qed.

Lemma swf_path n l k x : socket_wf n l k → socket_wf n l (set_path x k).
Proof. intros []. by split. Qed.
Lemma swf_options n l k x : socket_wf n l k → socket_wf n l (set_options x k).
Proof. intros []. by split. Qed.
Lemma swf_flags n l k x : socket_wf n l k → socket_wf n l (set_flags x k).
Proof. intros []. by split. Qed.
Lemma swf_state n l k x : socket_wf n l k → socket_wf n l (set_state x k).
Proof. intros []. by split. Qed.
Lemma swf_token n l k x : socket_wf n l k → socket_wf n l (set_token x k).
Proof. intros []. by split. Qed.
Lemma swf_awaiting n l k x : l ∉ x → socket_wf n l k → socket_wf n l (set_awaiting x k).
Proof. intros Hx []. by split. Qed.
Lemma swf_connection n l k c : connection_wf l c → socket_wf n l k → socket_wf n l (set_connection (Some c) k).
Proof. intros Hc []. split; try done. by intros ? [= <-]. Qed.
Lemma swf_new n l path st opts fl c ctx :
  l < n → (∀ c', c = Some c' → connection_wf l c') → socket_wf n l (socket_new l path st opts fl c ctx).
Proof. intros Hl Hc. split; try done. cbn. set_solver. Qed.

Lemma cwf_new l b : b ≠ l → connection_wf l (conn_new b).
Proof. by split. Qed.
Lemma cwf_packets l c ps : Forall packet_ok ps → connection_wf l c → connection_wf l (set_packets ps c).
Proof. intros Hps []. by split. Qed.
Lemma cwf_fds l c x : connection_wf l c → connection_wf l (set_fds x c).
Proof. intros []. by split. Qed.
Lemma cwf_shutdown l c x : connection_wf l c → connection_wf l (set_shutdown x c).
Proof. intros []. by split. Qed.
Lemma cwf_peer l c x : x ≠ l → connection_wf l c → connection_wf l (set_conn_peer x c).
Proof. intros Hx []. by split. Qed.
Lemma cwf_snoc l c p : packet_ok p → connection_wf l c → connection_wf l (set_packets (packets c ++ [p]) c).
Proof. intros Hp [Hc Hps]. split; [done|]. apply Forall_app_2; [done|]. by apply Forall_singleton. Qed.

Lemma wf_store s l k : socket_wf (next_id s) l k → stream_wf s → stream_wf (set_sockets <[l := k]> s).
Proof.
  intros Hk []. split; cbn.
  - intros id l' H. rewrite lookup_insert. destruct (wf_handles0 _ _ H) as [-> ?]. by case_decide.
  - intros t l' H. rewrite lookup_insert. apply wf_tokens0 in H. by case_decide.
  - intros l' k' [[<- <-]|[_ H]]%lookup_insert_Some; [done|eauto].
Qed.
Lemma st_wf_log_post s e : stream_wf s → stream_wf (log_post e s).
Proof. intros []. by split. Qed.
Lemma st_wf_set_paths s f : stream_wf s → stream_wf (set_paths f s).
Proof. intros []. by split. Qed.
Lemma st_wf_insert_token s t l : is_Some (sockets s !! l) → stream_wf s → stream_wf (set_tokens <[t := l]> s).
Proof. intros Hl []. split; cbn; [done| |done]. intros t' l' [[_ <-]|[_ H]]%lookup_insert_Some; [done|eauto]. Qed.
Lemma st_wf_delete_token s t : stream_wf s → stream_wf (set_tokens (delete t) s).
Proof. intros []. split; cbn; [done| |done]. intros t' l' [_ H]%lookup_delete_Some. eauto. Qed.
Lemma st_wf_delete_handle s id : stream_wf s → stream_wf (set_handles (delete id) s).
Proof. intros []. split; cbn; [|done|done]. intros id' l' [_ H]%lookup_delete_Some. eauto. Qed.
Lemma st_wf_insert_root s id : stream_wf s → stream_wf (set_handles <[id := HSchemeRoot]> s).
Proof. intros []. split; cbn; [|done|done]. intros id' l' [[_ [=]]|[_ H]]%lookup_insert_Some. eauto. Qed.
Lemma st_wf_set_next_id s n : next_id s ≤ n → stream_wf s → stream_wf (set_next_id n s).
Proof. intros Hn []. split; cbn; [done|done|]. intros. eapply socket_wf_mono; eauto. Qed.

(** A new socket takes the next id *)
Lemma wf_fresh s k :
  socket_wf (next_id s + 1) (next_id s) k → stream_wf s →
  stream_wf (set_next_id (next_id s + 1)
    (set_handles <[next_id s := HSocket (next_id s)]> (set_sockets <[next_id s := k]> s))).
Proof.
  intros Hk []. split; cbn.
  - intros id l [[<- [= <-]]|[_ H]]%lookup_insert_Some; rewrite lookup_insert.
    + by rewrite decide_True.
    + destruct (wf_handles0 _ _ H) as [-> ?]. split; [done|]. by case_decide.
  - intros t l H. rewrite lookup_insert. apply wf_tokens0 in H. by case_decide.
  - intros l k' [[<- <-]|[_ H]]%lookup_insert_Some; [done|]. eapply socket_wf_mono; [|eauto]. lia.
Qed.

(** What each call guarantees *)
Definition fine {A} (r : outcome A) s : Prop := r ≠ Panic ∧ stream_wf s.

(** *** Steps of the calls *)

Lemma st_wp_get_socket s id Q :
  stream_wf s → (handles s !! id = Some (HSocket id) → is_Some (sockets s !! id) → Q (Ok id) s) →
  Q (Err EBADF) s → wp (get_socket id) Q s.
Proof.
  intros Hwf Ho He. unfold get_socket. wp_go; try done.
  destruct (wf_handles s Hwf id place) as [-> ?]; [done|]. by apply Ho.
Qed.

Lemma st_wp_borrow s l Q :
  stream_wf s → is_Some (sockets s !! l) →
  (∀ k, sockets s !! l = Some k → socket_wf (next_id s) l k → Q (Ok k) s) → wp (borrow l) Q s.
Proof. intros Hwf [k Hk] HQ. unfold borrow. wp_go; [|congruence]. apply HQ; [done|]. by eapply wf_sockets. Qed.

Lemma wp_borrow_with s held l Q :
  held ≠ l → stream_wf s → is_Some (sockets s !! l) →
  (∀ k, sockets s !! l = Some k → socket_wf (next_id s) l k → Q (Ok k) s) → wp (borrow_with held l) Q s.
Proof. intros Hne. unfold borrow_with. rewrite bool_decide_eq_false_2 by done. apply st_wp_borrow. Qed.

Lemma wp_store s l k Q : Q (Ok tt) (set_sockets <[l := k]> s) → wp (store l k) Q s.
Proof. intros HQ. unfold store. by wp_go. Qed.

Lemma wp_store_connection s l c Q :
  stream_wf s → is_Some (sockets s !! l) → connection_wf l c →
  (∀ k, stream_wf (set_sockets <[l := k]> s) → Q (Ok tt) (set_sockets <[l := k]> s)) →
  wp (store_connection l c) Q s.
Proof.
  intros Hwf Hl Hc HQ. unfold store_connection. wp_step. apply st_wp_borrow; [done|done|]. intros k Hk Hsk.
  apply wp_store. apply HQ. apply wf_store; [|done]. by apply swf_connection.
Qed.

Lemma st_wp_post s id evs Q :
  (∀ r, r ≠ Panic → Q r (log_post (id, evs) s)) → wp (post_fevent write_response id evs) Q s.
Proof. intros HQ. unfold post_fevent. wp_go; by apply HQ. Qed.

Lemma wp_try_post s id evs Q :
  (∀ r, Q (Ok r) (log_post (id, evs) s)) → wp (attempt (post_fevent write_response id evs)) Q s.
Proof. intros HQ. edestruct st_try_post as [r Hr]. unfold wp. rewrite Hr. apply HQ. Qed.

Lemma st_wp_bump s Q :
  next_id s < usize_max → Q (Ok tt) (set_next_id (next_id s + 1) s) → wp bump_next_id Q s.
Proof. intros Hn HQ. unfold bump_next_id. wp_go. apply wp_add_usize; [lia|]. wp_go. exact HQ. Qed.

Lemma wp_require s n l k Q :
  socket_wf n l k → (∀ c, connection k = Some c → connection_wf l c → Q (Ok c) s) → (∀ e, Q (Err e) s) →
  wp (lift (require_connection k)) Q s.
Proof.
  intros Hk Ho He. wp_step. unfold require_connection. destruct (connection k) as [c|] eqn:E; [|apply He].
  apply Ho; [done|]. by eapply sw_connection.
Qed.

Lemma wp_require_connected s n l k fl Q :
  socket_wf n l k → (∀ c, connection k = Some c → connection_wf l c → Q (Ok c) s) → (∀ e, Q (Err e) s) →
  wp (lift (require_connected_connection k fl)) Q s.
Proof.
  intros Hk Ho He. pose proof (wp_require s n l k Q Hk Ho He) as H. wp_step. unfold wp, lift in H.
  unfold require_connected_connection. destruct (state k); try apply He; [destruct (_ || _); apply He|done|done].
Qed.

Lemma st_wp_peer s id Q :
  stream_wf s → (∀ b, id ≠ b → handles s !! b = Some (HSocket b) → is_Some (sockets s !! b) → Q (Ok (b, b)) s) →
  (∀ e, Q (Err e) s) → wp (get_connected_peer id) Q s.
Proof.
  intros Hwf Ho He. unfold get_connected_peer. wp_step. apply st_wp_get_socket; [done| |apply He].
  intros Hid Hs. cbv beta iota. wp_step. apply st_wp_borrow; [done|done|]. intros k Hk Hsk. cbv beta iota.
  wp_step. eapply wp_require; [exact Hsk| |apply He]. intros c Hc [Hp _]. cbv beta iota zeta. wp_step. wp_step.
  destruct (handles s !! peer c) as [[r|]|] eqn:Er; [|apply He..].
  destruct (wf_handles s Hwf _ _ Er) as [-> Hr].
  wp_step. apply wp_borrow_with; [by apply not_eq_sym|done|done|]. intros kr _ _. cbv beta iota.
  wp_go; [apply He|]. by apply Ho; [apply not_eq_sym|..].
Qed.

Lemma wp_start_listening s k Q :
  Q (Ok (set_state Listening k)) s → Q (Err EINVAL) s → wp (lift (start_listening k)) Q s.
Proof. intros Ho He. wp_step. unfold start_listening. by destruct (state k). Qed.

Create HintDb stream.
#[local] Hint Resolve swf_path swf_options swf_flags swf_state swf_token swf_awaiting swf_connection swf_new
  cwf_new cwf_packets cwf_fds cwf_shutdown cwf_peer cwf_snoc insert_is_Some insert_new_is_Some : stream.

Ltac st_simpl := cbn [sockets handles next_id socket_tokens set_sockets set_paths set_tokens set_handles
  set_next_id log_post] in *.

(** The state after a call is well formed *)
Ltac st_wf :=
  repeat first [assumption | lazymatch goal with
  | |- stream_wf (log_post _ _) => apply st_wf_log_post
  | |- stream_wf (set_paths _ _) => apply st_wf_set_paths
  | |- stream_wf (set_tokens (delete _) _) => apply st_wf_delete_token
  | |- stream_wf (set_tokens <[_ := _]> _) => apply st_wf_insert_token; [st_simpl; eauto with stream|]
  | |- stream_wf (set_handles (delete _) _) => apply st_wf_delete_handle
  | |- stream_wf (set_handles <[_ := HSchemeRoot]> _) => apply st_wf_insert_root
  | |- stream_wf (set_sockets <[_ := _]> _) => apply wf_store; [st_simpl; eauto with stream|]
  end].

(** One step of a call; what is left are the conditions of the steps *)
Ltac st_step :=
  lazymatch goal with
  | |- wp (get_socket _) _ _ => apply st_wp_get_socket; [st_wf|intros ? ?|]; cbv beta iota
  | |- wp (borrow _) _ _ => apply st_wp_borrow; [st_wf|st_simpl; eauto with stream|intros ? ? ?]; cbv beta iota
  | |- wp (borrow_with _ _) _ _ =>
     apply wp_borrow_with; [|st_wf|st_simpl; eauto with stream|intros ? ? ?]; cbv beta iota
  | |- wp (store _ _) _ _ => apply wp_store; cbv beta iota
  | |- wp (store_connection _ _) _ _ =>
     apply wp_store_connection; [st_wf|st_simpl; eauto with stream|eauto with stream|intros ? ?]; cbv beta iota
  | |- wp (post_fevent _ _ _) _ _ => apply st_wp_post; intros [?|?|] ?; [..|done]; cbv beta iota
  | |- wp (attempt (post_fevent _ _ _)) _ _ => apply wp_try_post; intros ?; cbv beta iota
  | |- wp bump_next_id _ _ => apply st_wp_bump; [st_simpl; lia|]; cbv beta iota
  | |- wp (get_connected_peer _) _ _ =>
     apply st_wp_peer; [st_wf|intros ? ? ? ?|intros ?]; cbv beta iota; cbn [fst snd]
  | |- wp (lift (require_connection _)) _ _ => eapply wp_require; [eassumption|intros ? ? ?|intros ?]; cbv beta iota
  | |- wp (lift (require_connected_connection _ _)) _ _ =>
     eapply wp_require_connected; [eassumption|intros ? ? ?|intros ?]; cbv beta iota
  | |- wp (lift (start_listening _)) _ _ => apply wp_start_listening; cbv beta iota
  | |- match ?r with _ => _ end =>
     let E := fresh "E" in
     assert (r ≠ Panic) by auto with no_panic; destruct r eqn:E; [| |done]
  | |- fine _ _ => split; [done|st_wf]
  | |- _ => wp_step
  end.
Ltac st_go := repeat st_step.

Lemma st_handle_bind_fine s id p token : stream_wf s → wp (handle_bind id p token) fine s.
Proof. intros Hwf. unfold handle_bind. st_go. Qed.

Lemma st_handle_setsockopt_fine s id o b : stream_wf s → wp (handle_setsockopt id o b) fine s.
Proof. intros Hwf. unfold handle_setsockopt. st_go. Qed.

Lemma st_handle_getsockopt_fine s id o b : stream_wf s → wp (handle_getsockopt id o b) fine s.
Proof. intros Hwf. unfold handle_getsockopt, write_value. st_go. Qed.

Lemma st_handle_unbind_fine s id : stream_wf s → wp (handle_unbind id) fine s.
Proof. intros Hwf. unfold handle_unbind. st_go. Qed.

Lemma st_handle_get_token_fine s id b : stream_wf s → wp (handle_get_token id b) fine s.
Proof. intros Hwf. unfold handle_get_token. st_go. Qed.

Lemma st_handle_get_peer_name_fine s id b : stream_wf s → wp (handle_get_peer_name id b) fine s.
Proof.
  intros Hwf. unfold handle_get_peer_name, fpath_inner. st_go. rewrite fpath_with_push in Heqp.
  injection Heqp as <- <-. st_go.
Qed.

Lemma st_fcntl_fine s id cmd arg : stream_wf s → wp (fcntl id cmd arg) fine s.
Proof. intros Hwf. unfold fcntl. st_go. Qed.

Lemma st_on_recvfd_fine s id n m : stream_wf s → wp (on_recvfd id n m) fine s.
Proof. intros Hwf. unfold on_recvfd. st_go. Qed.

Lemma st_on_sendfd_fine s id o : stream_wf s → wp (on_sendfd write_response id o) fine s.
Proof. intros Hwf. unfold on_sendfd. st_go. Qed.

Lemma st_scheme_root_fine s : stream_wf s → next_id s < usize_max → wp scheme_root fine s.
Proof. intros Hwf Hn. unfold scheme_root. st_go. apply st_wf_set_next_id; [st_simpl; lia|st_wf]. Qed.

Lemma st_openat_fine s fd p fl fc ctx :
  stream_wf s → next_id s < usize_max → wp (openat fd p fl fc ctx) fine s.
Proof.
  intros Hwf Hn. unfold openat, handle_unnamed_socket, insert_socket. st_go.
  apply (wf_fresh s (socket_new (next_id s) None Unbound ∅ (Z.lor fl fc) None ctx)); [|done]. apply swf_new; [lia|done].
Qed.

Lemma read_packets_fine room ps : Forall packet_ok ps →
  match read_packets room ps with Ok (ps', _) => Forall packet_ok ps' | Err _ => True | Panic => False end.
Proof. intros H. by destruct (read_packets_spec ps room H) as (ps' & -> & _ & ?). Qed.

Lemma st_read_fine s id b fl : stream_wf s → wp (read id b fl) fine s.
Proof.
  intros Hwf. unfold read, read_inner.
  st_go; pose proof (read_packets_fine (length b) (packets c)) as Hr; destruct H4 as [H4 H5]; specialize (Hr H5);
    destruct (read_packets (length b) (packets c)) as [[ps data]|e|]; try done; st_go; try by split.
Qed.

Lemma packet_new_ok b a : b ≠ [] → packet_ok (packet_new b a).
Proof. intros Hb. unfold packet_ok. destruct b; [done|cbn; lia]. Qed.

Lemma packet_from_stream_ok b name c p :
  packet_from_stream b name c = Ok p → payload p ≠ [] → packet_ok p.
Proof.
  intros H. unfold packet_from_stream in H. repeat case_match; try done. injection H as <-. apply packet_new_ok.
Qed.
#[local] Hint Resolve packet_new_ok : stream.

Lemma st_write_fine s id b ctx : stream_wf s → wp (write write_response id b ctx) fine s.
Proof.
  intros Hwf. unfold write, write_inner. st_go; try done;
    (apply cwf_snoc; [|done]); apply packet_new_ok; by case_bool_decide.
Qed.

Lemma st_handle_sendmsg_fine s id fl b meta :
  stream_wf s → get_uid_gid_from_pid meta ≠ Panic → (∀ name c, packet_from_stream b name c ≠ Panic) →
  wp (handle_sendmsg write_response id fl b meta) fine s.
Proof.
  intros Hwf Hm Hb. unfold handle_sendmsg. st_go. apply cwf_snoc; [|done].
  eapply packet_from_stream_ok; [done|]. intros Hp. rewrite Hp in *. by case_bool_decide.
Qed.

(** The descriptors announced by the packets that wait can be counted *)
Definition fds_sane (ps : list DataPacket) : Prop :=
  Forall (λ p, 0 ≤ num_fds (ancillary_data p)) ps ∧
  foldr Z.add 0 ((λ p, num_fds (ancillary_data p)) <$> ps) ≤ usize_max.

Lemma sum_fds_fine total anc :
  Forall (λ a, 0 ≤ num_fds a) anc → total + foldr Z.add 0 (num_fds <$> anc) ≤ usize_max →
  sum_fds total anc ≠ Panic.
Proof.
  revert total. induction anc as [|a anc IH]; intros total Hp Hs; [done|]. apply Forall_cons in Hp as [Ha Hp].
  assert (0 ≤ foldr Z.add 0 (num_fds <$> anc)) by (clear -Hp; induction Hp; cbn; lia).
  cbn in *. rewrite bool_decide_eq_false_2 by lia. apply IH; [done|lia].
Qed.

Lemma gather_fine ps room name :
  Forall packet_ok ps → Forall (λ p, 0 ≤ num_fds (ancillary_data p)) ps →
  ∃ ps' data name' anc, gather room ps name = Ok (ps', data, name', anc) ∧ Forall packet_ok ps' ∧
    Forall (λ a, 0 ≤ num_fds a) anc ∧
    foldr Z.add 0 (num_fds <$> anc) ≤ foldr Z.add 0 ((λ p, num_fds (ancillary_data p)) <$> ps).
Proof.
  intros Hps. revert room name. induction Hps as [|p ps Hp Hps IH]; intros room name Hn; cbn [gather].
  { by eexists _, _, _, _. }
  apply Forall_cons in Hn as [Hnp Hn]. unfold packet_ok in Hp.
  assert (0 ≤ foldr Z.add 0 ((λ p, num_fds (ancillary_data p)) <$> ps)) by (clear -Hn; induction Hn; cbn; lia).
  case_bool_decide; [eexists _, _, _, _; split_and!; [done|by constructor|done|cbn; lia]|].
  rewrite bool_decide_eq_false_2 by lia. rewrite length_drop.
  rewrite bool_decide_eq_false_2 by lia.
  assert (Hnum : ∀ nm, num_fds (match name with None => mk_ancillary (cred (ancillary_data p))
    (num_fds (ancillary_data p)) nm | Some _ => ancillary_data p end) = num_fds (ancillary_data p))
    by by destruct name.
  assert (Hpart : ∀ a x, (x < length (payload p))%nat → Forall packet_ok (mk_packet (payload p) a x true :: ps))
    by (intros a x Hx; by constructor).
  destruct (ancillary_taken p); cbv beta iota zeta; case_bool_decide.
  - destruct (IH (room - (length (payload p) - read_offset p) `min` room)%nat name Hn)
      as (ps' & data & name' & anc & -> & ? & ? & ?).
    eexists _, _, _, _. split_and!; [reflexivity|done|done|cbn; lia].
  - eexists _, _, _, _. split_and!; [reflexivity|apply Hpart; lia|done|cbn; lia].
  - edestruct IH as (ps' & data & name' & anc & -> & ? & ? & ?); [done|].
    eexists _, _, _, _. split_and!; [reflexivity|done| |cbn; rewrite Hnum; lia].
    constructor; [by rewrite Hnum|done].
  - eexists _, _, _, _. split_and!; [reflexivity|apply Hpart; lia| |cbn; rewrite Hnum; lia].
    constructor; [by rewrite Hnum|done].
Qed.

Lemma calm_credentials anc : calm (write_all_credentials anc).
Proof.
  induction anc as [|a anc IH]; cbn [write_all_credentials]; [done|].
  apply calm_bind; [apply calm_write_cmsg|]. by intros [].
Qed.

Lemma calm_stream_options opts anc : calm (write_options opts anc).
Proof.
  induction opts as [|o opts IH]; cbn [write_options]; [done|]. case_bool_decide; [|done].
  apply calm_bind; [apply calm_credentials|]. by intros [].
Qed.

Lemma st_serialize_fine l c b size iov opts :
  connection_wf l c → fds_sane (packets c) → iov ≤ 9223372036854775807 →
  wp (serialize_to_msgstream b size iov opts) (λ r c', r ≠ Panic ∧ connection_wf l c') c.
Proof.
  intros Hc [Hn Hs] Hi. unfold serialize_to_msgstream, with_capacity. rewrite bool_decide_eq_true_2 by done.
  destruct (gather_fine (packets c) (Z.to_nat iov) None) as (ps & data & name & anc & E & Hps & Hanc & Hsum);
    [by apply Hc|done|].
  wp_go. rewrite E. wp_go. apply wp_on_writer; [|intros a w|intros e; by split; [|apply cwf_packets]].
  { apply calm_bind; [apply calm_write_name|intros _; apply calm_write_payload]. }
  cbv beta iota. wp_step. wp_step. assert (Hno : sum_fds 0 anc ≠ Panic) by (apply sum_fds_fine; [done|lia]).
  assert (Hc' : connection_wf l (set_packets ps c)) by by apply cwf_packets.
  destruct (sum_fds 0 anc) as [n|e|]; [|by split|done].
  wp_step. apply wp_on_writer; [apply calm_write_rights|intros ok w'|intros e; by split]. cbv beta iota.
  assert (Hend : ∀ c1, connection_wf l c1 → wp (done ← on_writer (write_options (elements opts) anc) w';
    mret (Z.of_nat (written_len done.2), buffer done.2)) (λ r c', r ≠ Panic ∧ connection_wf l c') c1).
  { intros c1 Hc1. wp_step. apply wp_on_writer; [apply calm_stream_options|intros; wp_go; by split|intros; by split]. }
  cbn [fst snd]. unfold pop_fds.
  repeat lazymatch goal with |- wp (mbind _ (on_writer _ _)) _ _ => fail | _ => wp_step end;
    [by apply Hend|by apply Hend, cwf_fds|by split; [|apply cwf_fds]].
Qed.

(** The sizes that a receiver announces, and the packets that it will get *)
Definition recv_sane (b : bytes) (id : Z) s : Prop :=
  (∀ size iov ctl, (read_msghdr_info b).1 = Ok (size, iov, ctl) → iov ≤ 9223372036854775807) ∧
  (∀ k c, sockets s !! id = Some k → connection k = Some c → fds_sane (packets c)).

Lemma recvmsg_inner_fine s id fl b :
  stream_wf s → is_Some (sockets s !! id) → recv_sane b id s → wp (recvmsg_inner id fl b) fine s.
Proof.
  intros Hwf Hid [Hi Hs]. unfold recvmsg_inner. destruct (read_msghdr_info b) as [o b'] eqn:Eo. cbn [fst] in Hi.
  assert (Ho : o ≠ Panic) by (unfold read_msghdr_info in Eo; case_bool_decide; by injection Eo as <- _).
  wp_step. wp_step. destruct o as [[[size iov] ctl]|e|]; [|by split|done]. specialize (Hi _ _ _ eq_refl).
  do 4 st_step; [|st_go]. destruct (st_serialize_fine id c b' size iov (options k)) as [Hr Hc]; [done|by eauto|done|].
  destruct (serialize_to_msgstream b' size iov (options k) c) as [r c']. cbn [fst snd] in Hr, Hc. st_go.
Qed.

Lemma st_handle_recvmsg_fine s id fl b :
  stream_wf s → recv_sane b id s → wp (handle_recvmsg id fl b) fine s.
Proof.
  intros Hwf Hs. unfold handle_recvmsg, write_eof.
  repeat lazymatch goal with |- wp (recvmsg_inner _ _ _) _ _ => by apply recvmsg_inner_fine | _ => st_step end.
Qed.

Lemma connect_unchecked_wf n l l' k other :
  l ≠ l' → socket_wf n l k → socket_wf n l' other →
  socket_wf n l (connect_unchecked k other).1 ∧ socket_wf n l' (connect_unchecked k other).2.
Proof.
  intros Hne Hk Ho. split.
  - apply swf_awaiting; [|done]. rewrite (sw_primary _ _ _ Ho). apply not_elem_of_app.
    split; [apply Hk|]. by rewrite list_elem_of_singleton.
  - rewrite <- (sw_primary _ _ _ Hk) in Hne. by apply swf_connection, swf_state; [apply cwf_new|].
Qed.

Lemma wp_connect s n l l' k other Q :
  l ≠ l' → socket_wf n l k → socket_wf n l' other →
  (∀ both, socket_wf n l both.1 → socket_wf n l' both.2 → Q (Ok both) s) → (∀ e, Q (Err e) s) →
  wp (lift (connect k other)) Q s.
Proof.
  intros Hne Hk Ho HQ He. destruct (connect_unchecked_wf n l l' k other Hne Hk Ho) as [H1 H2].
  wp_step. unfold connect. destruct (state k); try destruct (has_flag _ _); try apply He; by apply HQ.
Qed.

Lemma st_handle_connect_fine s id b :
  stream_wf s → (∀ t, read_num 8 b = Ok t → socket_tokens s !! t ≠ Some id) →
  wp (handle_connect write_response id b) fine s.
Proof.
  intros Hwf Hself. unfold handle_connect.
  wp_step. wp_step. assert (Hnp : read_num 8 b ≠ Panic) by auto with no_panic.
  destruct (read_num 8 b) as [t|e|]; [|by split|done]. specialize (Hself t eq_refl).
  do 3 wp_step. destruct (socket_tokens s !! t) as [l|] eqn:Et; wp_step; [|by split].
  assert (Hne : id ≠ l) by congruence. pose proof (wf_tokens s Hwf t l Et) as Hl.
  wp_step. st_step; [|st_go]. wp_step. st_step. wp_step. st_step; [done|]. cbv zeta.
  assert (Hphase : wp (both ← lift (connect k0 k); store l both.1;; store id both.2;;
    post_fevent write_response (primary_id k0) (Z.lor EVENT_READ EVENT_WRITE);;
    fail (A := Z) (if has_flag (flags k) O_NONBLOCK then EAGAIN else EWOULDBLOCK)) fine s).
  { wp_step. apply (wp_connect s (next_id s) l id); [done..|intros both ? ?|intros e; st_go]. st_go. }
  destruct (state k); try done; [case_bool_decide; [st_go|done]|st_go..].
Qed.

(** *** Accepting *)

Lemma establish_fine n c a kc new :
  socket_wf n c kc → socket_wf (n + 1) n new →
  socket_wf n c (establish kc new a).2 ∧
  match (establish kc new a).1 with Ok k => socket_wf (n + 1) n k | Err _ => True | Panic => False end.
Proof.
  intros Hc Hn. pose proof (swf_state _ _ _ Accepted Hc) as Hs. pose proof (sw_old _ _ _ Hc) as Hold.
  unfold establish. case_bool_decide; [|done].
  destruct (connection (set_state Accepted kc)) as [conn|] eqn:Ec; [|done].
  pose proof (sw_connection _ _ _ Hs _ Ec) as Hcw. case_bool_decide; [|done].
  assert (Hp : connection_wf c (set_conn_peer (primary_id new) conn))
    by (apply cwf_peer; [rewrite (sw_primary _ _ _ Hn); lia|done]).
  destruct (connection new) as [nc|] eqn:En; cbn [fst snd]; split.
  - by apply swf_connection; [apply cwf_packets|].
  - pose proof (sw_connection _ _ _ Hn _ En) as Hnw. apply swf_connection; [|done]. apply cwf_packets; [|done].
    apply Forall_app_2; [apply Hnw|apply Hcw].
  - by apply swf_connection.
  - done.
Qed.
Lemma accept_connection_fine s l c ctx k :
  stream_wf s → sockets s !! l = Some k → c ≠ l → next_id s < usize_max →
  wp (accept_connection write_response l c ctx)
    (λ r s', fine r s' ∧ handles s' !! l = handles s !! l ∧ sockets s' !! l = Some k ∧
             next_id s ≤ next_id s' ≤ next_id s + 1) s.
Proof.
  intros Hwf Hk Hne Hn. unfold accept_connection, accept. wp_step. wp_step.
  destruct (handles s !! c) as [[r|]|] eqn:Ec; [|wp_go; by split_and!; [split| | |lia..]..].
  destruct (wf_handles s Hwf _ _ Ec) as [-> Hc].
  assert (Hln : l < next_id s) by (eapply sw_old; by eapply wf_sockets).
  wp_step. apply st_wp_borrow; [done|by exists k|]. intros k' Hk' Hsk. rewrite Hk in Hk'. injection Hk' as <-.
  cbv beta iota. wp_step. wp_step. destruct (is_listening k); [|by split_and!; [split| | |lia..]].
  wp_step. apply wp_borrow_with; [by apply not_eq_sym|done|done|]. intros kc Hkc Hskc. cbv beta iota.
  pose proof (sw_old _ _ _ Hskc) as Hcn.
  set (new := socket_new _ _ _ _ _ _ _).
  destruct (establish_fine (next_id s) c (primary_id k) kc new Hskc) as [Hkc' Hnew].
  { apply swf_new; [lia|]. intros ? [= <-]. apply cwf_new. lia. }
  destruct (establish kc new (primary_id k)) as [r kc']. cbn [fst snd] in Hkc', Hnew.
  wp_step. apply wp_store. wp_step. wp_step.
  destruct r as [new'|e|]; [|split_and!; [split; [done|by apply wf_store]|done|by cbn; rewrite lookup_insert_ne|cbn; lia..]|done].
  unfold insert_socket. wp_step. apply st_wp_bump; [done|]. rewrite (sw_primary _ _ _ Hnew). wp_go.
  apply st_wp_post. intros r Hr.
  assert (Hfin : ∀ A (r : outcome A), r ≠ Panic → fine r (log_post (c, Z.lor EVENT_READ EVENT_WRITE)
    (set_next_id (next_id s + 1) (set_handles <[next_id s := HSocket (next_id s)]>
      (set_sockets <[next_id s := new']> (set_sockets <[c := kc']> s)))))).
  { intros A r' Hr'. split; [done|]. apply st_wf_log_post, (wf_fresh (set_sockets <[c := kc']> s)); [done|].
    by apply wf_store. }
  destruct r; [| |done]; wp_go; (split_and!; [by apply Hfin|cbn; rewrite lookup_insert_ne by lia; done|
    cbn; by rewrite !lookup_insert_ne by lia|cbn; lia..]).
Qed.

Lemma accept_loop_fine fuel s l ctx k :
  stream_wf s → sockets s !! l = Some k → (length (awaiting k) ≤ fuel)%nat →
  next_id s + Z.of_nat (length (awaiting k)) ≤ usize_max →
  wp (accept_loop write_response fuel l ctx) (λ r s', fine r s' ∧ (r = Ok None →
    ∃ k', sockets s' !! l = Some k' ∧ state k' = state k ∧ (length (awaiting k') < length (awaiting k))%nat ∧
          next_id s' + Z.of_nat (length (awaiting k')) ≤ usize_max)) s.
Proof.
  revert s k. induction fuel as [|fuel IH]; intros s k Hwf Hk Hf Hn; cbn [accept_loop]; wp_step;
    (apply st_wp_borrow; [done|by exists k|]); intros k' Hk' Hsk; rewrite Hk in Hk'; injection Hk' as <-; cbv beta iota;
    destruct (awaiting k) as [|c rest] eqn:Ea; try (wp_go; by split); [cbn in Hf; lia|].
  cbn [length] in *. pose proof (sw_awaiting _ _ _ Hsk) as Hl. rewrite Ea in Hl.
  assert (Hsk' : socket_wf (next_id s) l (set_awaiting rest k)) by (apply swf_awaiting; [set_solver|done]).
  wp_step. apply wp_store. cbv beta iota. set (s1 := set_sockets _ s).
  destruct (accept_connection_fine s1 l c ctx (set_awaiting rest k)) as (Hfine & Hh & Hk1 & Hn1 & Hn2);
    [by apply wf_store|apply lookup_insert_eq|set_solver|cbn; lia|].
  unfold wp, or_again. destruct (accept_connection write_response l c ctx s1) as [r s2] eqn:E.
  cbn [fst snd] in *. change (next_id s1) with (next_id s) in *.
  assert (r = Err EAGAIN ∨ r ≠ Err EAGAIN) as [-> |Hr] by (destruct r as [|[]|]; auto).
  - destruct Hfine as [_ Hwf2]. destruct (IH s2 (set_awaiting rest k)) as [Hf2 Hnone]; [done|done|cbn; lia|cbn; lia|].
    split; [done|]. intros H0. destruct (Hnone H0) as (k2 & ? & ? & ? & ?). exists k2. split_and!; try done. cbn in *; lia.
  - replace (match r with Ok _ => _ | _ => _ end) with (r, s2) by (destruct r as [|[]|]; done). cbn [fst snd].
    split; [done|]. intros _. exists (set_awaiting rest k). split_and!; try done; cbn; lia.
Qed.

Lemma listen_loop_fine fuel s id ctx :
  stream_wf s → (1 ≤ fuel)%nat →
  (∀ k, sockets s !! id = Some k → ((if is_listening k then 1 else 2) + length (awaiting k) ≤ fuel)%nat ∧
        next_id s + Z.of_nat (length (awaiting k)) ≤ usize_max) →
  wp (listen_loop write_response fuel id ctx) fine s.
Proof.
  revert s. induction fuel as [|fuel IH]; intros s Hwf Hf Hk; [lia|]. cbn [listen_loop].
  wp_step. st_step; [|st_go]. wp_step. apply st_wp_borrow; [done|done|]. intros k Hks Hsk. cbv beta iota.
  destruct (Hk k Hks) as [Hfuel Hn]. destruct (is_listening k) eqn:El.
  - wp_step. unfold handle_accept. wp_step. apply st_wp_borrow; [done|done|]. intros k1 Hk1 _.
    rewrite Hks in Hk1. injection Hk1 as <-. cbv beta iota. rewrite El.
    eapply wp_mono; [eapply accept_loop_fine; [done|done|lia|done]|]. intros r s' [[Hr Hwf'] Hnone].
    destruct r as [[res|]|e|]; [by split| |by split|done].
    destruct (Hnone eq_refl) as (k' & Hk' & Hst & Hlt & Hn'). apply IH; [done|lia|].
    intros k2 Hk2. rewrite Hk' in Hk2. injection Hk2 as <-. unfold is_listening in *. rewrite Hst, El. lia.
  - assert (Hgo : ∀ f, wp (listen_loop write_response fuel id ctx) fine
      (set_paths f (set_sockets <[id := set_state Listening k]> s))).
    { intros f. apply IH; [st_wf|lia|]. cbn. rewrite lookup_insert_eq. intros k2 [= <-].
      replace (is_listening _) with true by done. cbn. lia. }
    unfold handle_start_listening. wp_step. wp_step. apply st_wp_borrow; [done|done|]. intros k1 Hk1 _.
    rewrite Hks in Hk1. injection Hk1 as <-. cbv beta iota. wp_step. apply wp_start_listening; [|by split]. cbv beta iota.
    wp_step. apply wp_store. cbv beta iota.
    destruct (path (set_state Listening k)); [|wp_step; apply (Hgo (λ p, p))].
    wp_step. wp_step. destruct (socket_paths _ !! _); [case_bool_decide|]; wp_go; try apply Hgo.
    split; [done|st_wf].
Qed.

Lemma st_dup_fine s id b ctx :
  stream_wf s → next_id s < usize_max →
  (∀ k, sockets s !! id = Some k → next_id s + Z.of_nat (length (awaiting k)) ≤ usize_max) →
  wp (dup write_response id b ctx) fine s.
Proof.
  intros Hwf Hn Hw. unfold dup. case_bool_decide; [|case_bool_decide; [|case_bool_decide; [|st_go]]].
  - unfold handle_listen. wp_step. st_step; [|st_go]. wp_step. st_step.
    apply listen_loop_fine; [done|lia|]. intros k' Hk'. simplify_eq. split; [destruct (is_listening _); lia|eauto].
  - unfold handle_connect_socketpair, insert_socket. wp_step. wp_step. wp_step. st_step; [|st_go]. wp_step. st_step.
    pose proof (sw_old _ _ _ H4) as Hold. set (new := socket_new _ _ _ _ _ _ _).
    destruct (bool_decide _); [st_go|].
    destruct (connect_unchecked_wf (next_id s + 1) id (next_id s) k new) as [Hk' Hnew];
      [lia|eapply socket_wf_mono; [|done]; lia|apply swf_new; [lia|done]|].
    destruct (connect_unchecked k new) as [k' new'] eqn:E. cbn [fst snd] in Hk', Hnew.
    assert (Hk2 : socket_wf (next_id s) id k') by (destruct Hk'; split; done || lia).
    wp_step. apply wp_store. wp_step. apply st_wp_post. intros [?|?|] ?; [|st_go|done]. cbv beta iota.
    rewrite (sw_primary _ _ _ Hnew). wp_go. apply st_wp_bump; [done|]. wp_go. split; [done|].
    apply (wf_fresh (log_post _ (set_sockets <[id := k']> s))); [done|]. st_wf.
  - unfold handle_recvfd. st_go.
Qed.

Lemma close_clients_fine l ids s :
  stream_wf s → handles s !! l = None →
  wp (close_clients write_response l ids) (λ r s', r = Ok tt ∧ stream_wf s') s.
Proof.
  revert s. induction ids as [|c ids IH]; intros s Hwf Hl; cbn [close_clients]; [wp_go; by split|].
  do 3 wp_step. destruct (handles s !! c) as [[r|]|] eqn:Ec; [|wp_step; by apply IH..].
  destruct (wf_handles s Hwf _ _ Ec) as [-> Hr]. wp_step. st_step; [congruence|]. wp_step. apply wp_store. cbv beta iota.
  wp_step. apply wp_try_post. intros ?. cbv beta iota. wp_step. apply IH; [st_wf|done].
Qed.

Lemma closure_end_fine s l : stream_wf s → is_Some (sockets s !! l) → wp (closure_end l) fine s.
Proof. intros Hwf Hl. unfold closure_end. st_go. Qed.

Lemma other_closure_fine s l :
  stream_wf s → is_Some (sockets s !! l) → wp (handle_other_closure write_response l) fine s.
Proof.
  intros Hwf Hl. pose proof (closure_end_fine s l Hwf Hl) as Hend. unfold handle_other_closure.
  wp_step. st_step. destruct (state k); try exact Hend;
    (destruct (connection k) as [c|] eqn:Ec; [|st_go]; wp_step; wp_step;
     destruct (handles s !! peer c) as [[r|]|] eqn:Er; [|st_go..];
     destruct (wf_handles s Hwf _ _ Er) as [-> Hr]; destruct (sw_connection _ _ _ H0 _ Ec) as [Hp _];
     wp_step; apply wp_borrow_with; [by apply not_eq_sym|done|done|]; intros kr Hkr Hskr; cbv beta iota;
     destruct (connection kr) as [rc|] eqn:Erc; [|st_go]; wp_step; apply wp_store; cbv beta iota;
     wp_step; apply wp_try_post; intros ?; cbv beta iota; pose proof (sw_connection _ _ _ Hskr _ Erc);
     apply closure_end_fine; [st_wf|cbn; eauto with stream]).
Qed.

Lemma st_on_close_fine s id : stream_wf s → wp (on_close write_response id) fine s.
Proof.
  intros Hwf. unfold on_close. do 4 wp_step.
  destruct (handles s !! id) as [[l|]|] eqn:El; [|st_go..].
  destruct (wf_handles s Hwf _ _ El) as [-> Hl]. wp_step. st_step.
  destruct (is_listening k).
  - unfold handle_listening_closure.
    assert (Hend : ∀ s' ids, stream_wf s' → handles s' = delete id (handles s) →
      wp (close_clients write_response id ids) fine s').
    { intros s' ids Hs' Hh. eapply wp_mono; [apply close_clients_fine; [done|by rewrite Hh, lookup_delete_eq]|].
      intros r s'' [-> ?]. by split. }
    st_go; apply Hend; (reflexivity || st_wf).
  - apply other_closure_fine; [st_wf|done].
Qed.

(** The calls of the scheme that change its state *)
Inductive request : Type :=
  | QRoot
  | QOpen (fd : Z) (p : string) (fl fc : Z) (ctx : CallerCtx)
  | QCall (id : Z) (b : bytes) (md : list Z) (token : Z) (meta : option bytes)
  | QDup (id : Z) (b : bytes) (ctx : CallerCtx)
  | QWrite (id : Z) (b : bytes) (ctx : CallerCtx)
  | QRead (id : Z) (b : bytes) (fl : Z)
  | QSendFd (id : Z) (o : errno + list Z)
  | QRecvFd (id n : Z) (m : bool)
  | QFcntl (id cmd arg : Z)
  | QClose (id : Z).

Definition serve (q : request) : comp UdsStreamScheme unit :=
  match q with
  | QRoot => attempt scheme_root;; mret tt
  | QOpen fd p fl fc ctx => attempt (openat fd p fl fc ctx);; mret tt
  | QCall id b md token meta => attempt (call write_response id b md token meta);; mret tt
  | QDup id b ctx => attempt (dup write_response id b ctx);; mret tt
  | QWrite id b ctx => attempt (write write_response id b ctx);; mret tt
  | QRead id b fl => attempt (read id b fl);; mret tt
  | QSendFd id o => attempt (on_sendfd write_response id o);; mret tt
  | QRecvFd id n m => attempt (on_recvfd id n m);; mret tt
  | QFcntl id cmd arg => attempt (fcntl id cmd arg);; mret tt
  | QClose id => attempt (on_close write_response id);; mret tt
  end.

Fixpoint run (qs : list request) : comp UdsStreamScheme unit :=
  match qs with
  | [] => mret tt
  | q :: qs => serve q;; run qs
  end.

(** What a request must not do: connect a socket to itself, announce sizes that overflow,
    or use up the ids *)
Definition request_ok s (q : request) : Prop :=
  next_id s < usize_max ∧
  match q with
  | QCall id b md _ meta =>
     get_uid_gid_from_pid meta ≠ Panic ∧ (∀ name c, packet_from_stream b name c ≠ Panic) ∧
     recv_sane b id s ∧ (∀ t, read_num 8 b = Ok t → socket_tokens s !! t ≠ Some id)
  | QDup id _ _ => ∀ k, sockets s !! id = Some k → next_id s + Z.of_nat (length (awaiting k)) ≤ usize_max
  | _ => True
  end.

Fixpoint requests_ok s (qs : list request) : Prop :=
  match qs with
  | [] => True
  | q :: qs => request_ok s q ∧ requests_ok (serve q s).2 qs
  end.

Lemma st_call_fine s id b md token meta :
  stream_wf s → request_ok s (QCall id b md token meta) → wp (call write_response id b md token meta) fine s.
Proof.
  intros Hwf (_ & Hm & Hb & Hr & Hself).
  assert (Hkeep : ∀ m : comp UdsStreamScheme Z, wp m fine s → wp (n ← m; mret (n, b)) fine s).
  { intros m H. wp_step. eapply wp_mono; [exact H|]. intros [n|e|] s' [? ?]; by try split. }
  unfold call. cbv zeta. wp_step. destruct (md !! 0%nat) as [raw|]; wp_step; [|st_go].
  wp_step. destruct (socket_call_of_raw raw) as [verb|]; wp_step; [|st_go].
  destruct verb; try apply Hkeep.
  - by apply st_handle_bind_fine.
  - by apply st_handle_connect_fine.
  - wp_step. destruct (md !! 1%nat); wp_step; [|st_go]. apply Hkeep. by apply st_handle_setsockopt_fine.
  - wp_step. destruct (md !! 1%nat); wp_step; [|st_go]. by apply st_handle_getsockopt_fine.
  - by apply st_handle_sendmsg_fine.
  - by apply st_handle_recvmsg_fine.
  - by apply st_handle_unbind_fine.
  - by apply st_handle_get_token_fine.
  - by apply st_handle_get_peer_name_fine.
  - st_go.
Qed.

Lemma st_fine_attempt {A} s (m : comp UdsStreamScheme A) :
  wp m fine s → wp (attempt m;; mret tt) (λ r s', r = Ok tt ∧ stream_wf s') s.
Proof. unfold wp, attempt, mbind, comp_bind. by destruct (m s) as [[a|e|] s']; intros (Hr & Hwf); cbn in *. Qed.

Lemma st_serve_fine s q :
  stream_wf s → request_ok s q → wp (serve q) (λ r s', r = Ok tt ∧ stream_wf s') s.
Proof.
  intros Hwf Hq. pose proof (proj1 Hq) as Hn. destruct q; cbn [serve]; apply st_fine_attempt.
  - by apply st_scheme_root_fine.
  - by apply st_openat_fine.
  - by apply st_call_fine.
  - by apply st_dup_fine; [..|apply Hq].
  - by apply st_write_fine.
  - by apply st_read_fine.
  - by apply st_on_sendfd_fine.
  - by apply st_on_recvfd_fine.
  - by apply st_fcntl_fine.
  - by apply st_on_close_fine.
Qed.


(** A socket that connects to its own token makes the scheme panic: the listener and the
    client are one [RefCell], which is borrowed mutably while it is borrowed. *)
Theorem stream_self_connect_panics s id l k t :
  handles s !! id = Some (HSocket l) → sockets s !! l = Some k → socket_tokens s !! t = Some l → is_usize t →
  handle_connect write_response id (le_bytes 8 t) s = (Panic, s).
Proof.
  intros Hid Hk Ht Hr. unfold handle_connect.
  rewrite (bind_ok _ _ _ t s); [|unfold lift; rewrite <- (app_nil_r (le_bytes 8 t)), read_num_le; [done|cbn; ints]].
  rewrite bind_get, Ht. cbn [ok_or]. rewrite bind_ret. rewrite (bind_ok _ _ _ _ _ (st_get_socket s id l Hid)).
  rewrite (bind_ok _ _ _ _ _ (st_borrow s l k Hk)). unfold borrow_with, mbind, comp_bind.
  by rewrite bool_decide_eq_true_2.
Qed.
End Safety.

(** ** Examples *)

Section Examples.
#[local] Existing Instance redox_abi.
#[local] Existing Instance linux_libc.
#[local] Existing Instance demo_calls.

Definition all_posted (history : list (Z * Z)) (e : Z * Z) : errno + bool := inr true.

Definition demo_ctx : CallerCtx := mk_ctx 7 1 2.

(** A socket bound to a path, which listens, and one that is not bound *)
Definition demo_setup : list request :=
  [QRoot; QOpen 0 EmptyString O_CREAT 0 demo_ctx; QCall 1 (str_bytes "a") [0; 0] 77 None;
   QOpen 0 EmptyString O_CREAT 0 demo_ctx].

Definition demo_listener : UdsStreamScheme := (run all_posted demo_setup stream_new).2.

Definition demo_ka : Socket :=
  mk_socket 1 (Some "a"%string) ∅ O_CREAT Listening [] None (Some 77) (mk_cred 7 1 2).
Definition demo_kc : Socket := mk_socket 2 None ∅ O_CREAT Unbound [] None None (mk_cred 7 1 2).


(** The client is accepted *)
Definition demo_requests : list request :=
  demo_setup ++ [QCall 2 (le_bytes 8 77) [1; 0] 0 None; QDup 1 (str_bytes "listen") demo_ctx].

Definition demo_pair : UdsStreamScheme := (run all_posted demo_requests stream_new).2.

Definition demo_end2 : Socket :=
  mk_socket 2 None ∅ O_CREAT Accepted [] (Some (conn_new 3)) None (mk_cred 7 1 2).
Definition demo_end3 : Socket :=
  mk_socket 3 (Some "a"%string) ∅ O_CREAT Established [] (Some (conn_new 2)) None (mk_cred 7 1 2).

Lemma demo_duplex : duplex demo_pair 2 2 3 3 [] [].
Proof.
  split; [discriminate|]. split; [exists demo_end2, (conn_new 3)|exists demo_end3, (conn_new 2)];
    (split; [vm_compute; reflexivity|vm_compute; reflexivity| |reflexivity|reflexivity|reflexivity|constructor]);
    [by right|by left].
Qed.

Lemma stream_fifo_witness :
  let ops := [StWrite true [1; 2; 3] demo_ctx; StWrite false [9] demo_ctx; StRead false 2 0;
              StRead true 5 0; StRead false 5 0] in
  ∃ outs s' qa' qb', st_run all_posted 2 3 ops demo_pair = (Ok outs, s') ∧
    duplex s' 2 2 3 3 qa' qb' ∧
    [] ++ [1; 2; 3] = st_got false outs ++ qb' ∧ [] ++ [9] = st_got true outs ++ qa'.
Proof.
  exact (stream_fifo all_posted demo_pair 2 2 3 3 [] []
    [StWrite true [1; 2; 3] demo_ctx; StWrite false [9] demo_ctx; StRead false 2 0;
     StRead true 5 0; StRead false 5 0] demo_duplex).
Defined.

Lemma stream_close_eof_witness :
  ∃ s', on_close all_posted 3 demo_pair = (Ok tt, s') ∧
    ∀ sizes fl, ∃ s'', read_all 2 sizes fl s' = (Ok (pieces [] sizes), s'') ∧
      ∀ buf ctx, write all_posted 2 buf ctx s'' = (Err EPIPE, s'').
Proof. exact (stream_close_eof all_posted demo_pair 3 3 2 2 [] [] (duplex_sym _ _ _ _ _ _ _ demo_duplex)). Defined.

Lemma recv_sane_unconnected b id s e :
  (read_msghdr_info b).1 = Err e → connection <$> sockets s !! id = Some None → recv_sane b id s.
Proof.
  intros Hb Hs. split; [intros ? ? ? H; congruence|]. intros k c Hk Hc. rewrite Hk in Hs. cbn in Hs. congruence.
Qed.


Lemma stream_self_connect_panics_witness :
  handle_connect all_posted 1 (le_bytes 8 77) demo_listener = (Panic, demo_listener).
Proof.
  apply (stream_self_connect_panics all_posted demo_listener 1 1 demo_ka 77).
  - vm_compute; reflexivity.
  - vm_compute; reflexivity.
  - vm_compute; reflexivity.
  - split; vm_compute; discriminate.
Defined.

(** Closing a socket that was accepted takes the path of the listener, which is still open,
    out of the table: another socket can then be bound to it. *)
Lemma stream_accepted_close_frees_path :
  socket_paths demo_pair !! "a"%string = Some 1 ∧ handles demo_pair !! 1 = Some (HSocket 1) ∧
  let s' := (on_close all_posted 3 demo_pair).2 in
  socket_paths s' !! "a"%string = None ∧ state <$> sockets s' !! 1 = Some Listening.
Proof. vm_compute. done. Qed.
End Examples.
