(* ===== verification/Pty.v ===== *)
(** * ptyd: the line discipline

    Models [ptyd/src/pty.rs]: input translation, canonical editing, echo, signal
    characters, output processing and the VMIN/VTIME timers of a pseudo terminal. *)

From S2P Require Import Prelude SchemeUtils.

(** ** The [redox_termios] crate

    The structures and constants are parameters.  [Termios] and [Winsize] are
    plain data viewed as byte slices by [Deref] and [DerefMut]. *)
Class RedoxTermios := {
  Termios : Type;
  Winsize : Type;
  termios_default : Termios;
  winsize_default : Winsize;
  c_iflag : Termios → Z;
  c_oflag : Termios → Z;
  c_lflag : Termios → Z;
  c_cc : Termios → Z → Z;
  termios_bytes : Termios → bytes;
  termios_of_bytes : bytes → Termios;
  winsize_bytes : Winsize → bytes;
  winsize_of_bytes : bytes → Winsize;
  INLCR : Z; IGNCR : Z; ICRNL : Z; IXON : Z;
  OPOST : Z; ONLCR : Z;
  ECHO : Z; ECHOE : Z; ECHONL : Z; ICANON : Z; ISIG : Z; IEXTEN : Z;
  VEOF : Z; VEOL : Z; VEOL2 : Z; VERASE : Z; VWERASE : Z; VKILL : Z; VREPRINT : Z;
  VINTR : Z; VQUIT : Z; VSUSP : Z; VSTART : Z; VSTOP : Z; VLNEXT : Z; VDISCARD : Z;
  VMIN : Z; VTIME : Z;
}.

(** The two structures have a fixed size, and writing their bytes and reading them
    back are inverse to each other. *)
Class RedoxTermiosLaws (rt : RedoxTermios) : Prop := {
  termios_roundtrip t : termios_of_bytes (termios_bytes t) = t;
  termios_bytes_of t l :
    length l = length (termios_bytes t) → termios_bytes (termios_of_bytes l) = l;
  winsize_roundtrip w : winsize_of_bytes (winsize_bytes w) = w;
  winsize_bytes_of w l :
    length l = length (winsize_bytes w) → winsize_bytes (winsize_of_bytes l) = l;
  c_cc_u8 t i : is_u8 (c_cc t i);
}.

Section Pty.
Context `{RedoxTermios}.

Inductive Signal := SIGINT | SIGQUIT | SIGTSTP.

(** [signals] is the log of the [kill] calls: target and signal. *)
Record Pty := mk_pty {
  id : Z;
  pgrp : Z;
  locked : bool;
  termios : Termios;
  winsize : Winsize;
  cooked : bytes;
  miso : list bytes;
  mosi : list bytes;
  timeout_count : Z;
  timeout_character : option Z;
  signals : list (Z * Signal);
}.

Definition pty_new (n : Z) : Pty :=
  mk_pty n 0 true termios_default winsize_default [] [] [] 0 None [].

Definition set_pgrp v (p : Pty) := mk_pty (id p) v (locked p) (termios p) (winsize p)
  (cooked p) (miso p) (mosi p) (timeout_count p) (timeout_character p) (signals p).
Definition set_locked v (p : Pty) := mk_pty (id p) (pgrp p) v (termios p) (winsize p)
  (cooked p) (miso p) (mosi p) (timeout_count p) (timeout_character p) (signals p).
Definition set_termios v (p : Pty) := mk_pty (id p) (pgrp p) (locked p) v (winsize p)
  (cooked p) (miso p) (mosi p) (timeout_count p) (timeout_character p) (signals p).
Definition set_winsize v (p : Pty) := mk_pty (id p) (pgrp p) (locked p) (termios p) v
  (cooked p) (miso p) (mosi p) (timeout_count p) (timeout_character p) (signals p).
Definition set_cooked v (p : Pty) := mk_pty (id p) (pgrp p) (locked p) (termios p) (winsize p)
  v (miso p) (mosi p) (timeout_count p) (timeout_character p) (signals p).
Definition set_miso v (p : Pty) := mk_pty (id p) (pgrp p) (locked p) (termios p) (winsize p)
  (cooked p) v (mosi p) (timeout_count p) (timeout_character p) (signals p).
Definition set_mosi v (p : Pty) := mk_pty (id p) (pgrp p) (locked p) (termios p) (winsize p)
  (cooked p) (miso p) v (timeout_count p) (timeout_character p) (signals p).
Definition set_timeout_count v (p : Pty) := mk_pty (id p) (pgrp p) (locked p) (termios p)
  (winsize p) (cooked p) (miso p) (mosi p) v (timeout_character p) (signals p).
Definition set_timeout_character v (p : Pty) := mk_pty (id p) (pgrp p) (locked p) (termios p)
  (winsize p) (cooked p) (miso p) (mosi p) (timeout_count p) v (signals p).
Definition set_signals v (p : Pty) := mk_pty (id p) (pgrp p) (locked p) (termios p) (winsize p)
  (cooked p) (miso p) (mosi p) (timeout_count p) (timeout_character p) v.

Definition NL : Z := 10.
Definition CR : Z := 13.

(** [Display] of a [usize], through [write!(w, "{}", self.id)]. *)
Definition pty_path (buf : bytes) (p : Pty) : outcome nat * bytes :=
  fpath_with buf "pty" (push_str (str_bytes (pretty (id p)))).

(** ** Output *)

(** The loop of [output]. *)
Definition output_post (t : Termios) (buf : bytes) : bytes :=
  flat_map (λ b, if has_flag (c_oflag t) OPOST && has_flag (c_oflag t) ONLCR && (b =? NL)
                 then [CR; b] else [b]) buf.

Definition output (buf : bytes) (p : Pty) : Pty :=
  set_miso (miso p ++ [0 :: output_post (termios p) buf]) p.

(** ** Timers *)

(** [self.mosi.push_back(self.cooked.clone()); self.cooked.clear();] *)
Definition flush (p : Pty) : Pty := set_cooked [] (set_mosi (mosi p ++ [cooked p]) p).

(** [count >= start.wrapping_add(vtime)] on [u64] *)
Definition expired (p : Pty) (start vtime : Z) : bool :=
  wrap_usize (start + vtime) <=? timeout_count p.

Definition update (p : Pty) : Pty :=
  let icanon := has_flag (c_lflag (termios p)) ICANON in
  let vmin := c_cc (termios p) VMIN in
  let vtime := c_cc (termios p) VTIME in
  if icanon then p
  else if vtime =? 0 then
    if vmin =? 0 then
      if bool_decide (mosi p = []) then flush p else p
    else
      if vmin <=? Z.of_nat (length (cooked p)) then flush p else p
  else if vmin =? 0 then
    if negb (bool_decide (cooked p = [])) then flush p
    else match timeout_character p with
         | Some start =>
            if expired p start vtime then
              let p := set_timeout_character None p in
              if bool_decide (mosi p = []) then flush p else p
            else p
         | None => set_timeout_character (Some (timeout_count p)) p
         end
  else
    if vmin <=? Z.of_nat (length (cooked p)) then flush p
    else if negb (bool_decide (cooked p = [])) then
      match timeout_character p with
      | Some start =>
         if expired p start vtime then flush (set_timeout_character None p) else p
      | None => p
      end
    else p.

Definition timeout (count : Z) (p : Pty) : Pty :=
  if bool_decide (timeout_count p ≠ count) then update (set_timeout_count count p) else p.

(** ** Input *)

Definition is_cc (t : Termios) (b i : Z) : bool := negb (b =? 0) && (b =? c_cc t i).
Definition is_vdisable (t : Termios) (i : Z) : bool := c_cc t i =? 0.

(** A step of the loop body: the current byte, 0 once it is consumed, and the
    terminal. *)
Definition stage : Type := Z * Pty → Z * Pty.

Definition translate (t : Termios) (b : Z) : Z :=
  if b =? NL then if has_flag (c_iflag t) INLCR then CR else b
  else if b =? CR then
    if has_flag (c_iflag t) IGNCR then 0
    else if has_flag (c_iflag t) ICRNL then NL else b
  else b.

(** [self.cooked.push(b)] and hand the line over. *)
Definition end_line (b : Z) (p : Pty) : Pty := flush (set_cooked (cooked p ++ [b]) p).

(** [if cond { body; b = 0; }] *)
Definition consume (cond : Z → bool) (body : Z → Pty → Pty) : stage := λ '(b, p),
  if cond b then (0, body b p) else (b, p).

Definition echo_if (c : bool) (buf : bytes) (p : Pty) : Pty := if c then output buf p else p.

(** [self.cooked.pop()], with its echo *)
Definition erase (echoe : bool) (p : Pty) : Pty :=
  match reverse (cooked p) with
  | [] => p
  | _ :: rest => echo_if echoe [8; 32; 8] (set_cooked (reverse rest) p)
  end.

(** [if icanon { .. }] *)
Definition canon_stages (t : Termios) : stage := λ bp,
  let lfl := c_lflag t in
  let echo := has_flag lfl ECHO in
  let bp := consume (λ b, b =? NL)
    (λ b p, end_line b (echo_if (echo || has_flag lfl ECHONL) [b] p)) bp in
  let bp := consume (λ b, is_cc t b VEOF) (λ _, flush) bp in
  let bp := consume (λ b, is_cc t b VEOL) (λ b p, end_line b (echo_if echo [b] p)) bp in
  let bp := consume (λ b, is_cc t b VEOL2) (λ b p, end_line b (echo_if echo [b] p)) bp in
  let bp := consume (λ b, is_cc t b VERASE && negb (is_vdisable t VERASE))
    (λ _, erase (has_flag lfl ECHOE)) bp in
  let bp := consume (λ b, is_cc t b VWERASE && has_flag lfl IEXTEN) (λ _ p, p) bp in
  let bp := consume (λ b, is_cc t b VKILL) (λ _ p, p) bp in
  consume (λ b, is_cc t b VREPRINT && has_flag lfl IEXTEN) (λ _ p, p) bp.

(** [kill(-(self.pgrp as isize) as usize, sig)], when there is a process group.
    [pgrp] holds a [u32], so the negation does not overflow. *)
Definition signal (sig : Signal) (p : Pty) : Pty :=
  if bool_decide (pgrp p ≠ 0) then
    set_signals (signals p ++ [(wrap_usize (- pgrp p), sig)]) p
  else p.

(** [if isig { .. }] *)
Definition signal_stages (t : Termios) : stage := λ bp,
  let on i sig := consume (λ b, is_cc t b i && negb (is_vdisable t i)) (λ _, signal sig) in
  on VSUSP SIGTSTP (on VQUIT SIGQUIT (on VINTR SIGINT bp)).

(** [if ixon { .. }] *)
Definition flow_stages (t : Termios) : stage := λ bp,
  consume (λ b, is_cc t b VSTOP) (λ _ p, p) (consume (λ b, is_cc t b VSTART) (λ _ p, p) bp).

(** Everything after the link settings. *)
Definition late_stages (t : Termios) : stage := λ bp,
  let lfl := c_lflag t in
  let bp := if has_flag lfl ISIG then signal_stages t bp else bp in
  let bp := if has_flag lfl IXON then flow_stages t bp else bp in
  let bp := consume (λ b, is_cc t b VLNEXT && has_flag lfl IEXTEN) (λ _ p, p) bp in
  consume (λ b, is_cc t b VDISCARD && has_flag lfl IEXTEN) (λ _ p, p) bp.

Definition input_byte (t : Termios) (byte : Z) (p : Pty) : Pty :=
  let lfl := c_lflag t in
  let bp := (translate t byte, p) in
  let bp := if has_flag lfl ICANON then canon_stages t bp else bp in
  let '(b, p) := late_stages t bp in
  if negb (b =? 0) then
    let p := echo_if (has_flag lfl ECHO) [b] p in
    let p := set_timeout_character (Some (timeout_count p)) p in
    set_cooked (cooked p ++ [b]) p
  else p.

Definition input (buf : bytes) (p : Pty) : Pty :=
  let t := termios p in
  update (foldl (λ p b, input_byte t b p) p buf).

(** ** The line editor

    What a byte means, as one decision list, and what it does to the terminal.
    This is the specification of the loop of [input], whose body reaches the same
    decision by clearing [b] in a chain of tests. *)

Inductive key := KLine (b : Z) | KEof | KErase | KSignal (sig : Signal) | KIgnore | KChar (b : Z).

(** Line editing takes precedence over the signal characters, which take precedence
    over flow control and the extended characters. *)
Definition canon_key (t : Termios) (b : Z) : option key :=
  let on := has_flag (c_lflag t) in
  let cc i := b =? c_cc t i in
  if b =? NL then Some (KLine b)
  else if cc VEOF then Some KEof
  else if cc VEOL || cc VEOL2 then Some (KLine b)
  else if cc VERASE then Some KErase
  else if cc VKILL || on IEXTEN && (cc VWERASE || cc VREPRINT) then Some KIgnore
  else None.

Definition signal_key (t : Termios) (b : Z) : option key :=
  if b =? c_cc t VINTR then Some (KSignal SIGINT)
  else if b =? c_cc t VQUIT then Some (KSignal SIGQUIT)
  else if b =? c_cc t VSUSP then Some (KSignal SIGTSTP)
  else None.

Definition late_key (t : Termios) (b : Z) : option key :=
  let on := has_flag (c_lflag t) in
  let cc i := b =? c_cc t i in
  match (if on ISIG then signal_key t b else None) with
  | Some k => Some k
  | None =>
     if on IXON && (cc VSTART || cc VSTOP) || on IEXTEN && (cc VLNEXT || cc VDISCARD)
     then Some KIgnore else None
  end.

Definition key_of (t : Termios) (byte : Z) : key :=
  let b := translate t byte in
  if b =? 0 then KIgnore else
  match (if has_flag (c_lflag t) ICANON then canon_key t b else None) with
  | Some k => k
  | None => default (KChar b) (late_key t b)
  end.

(** Complete lines, the line being edited, and the signals sent. *)
Record editor := mk_editor { lines : list bytes; current : bytes; sent : list (Z * Signal) }.

Definition editor_of (p : Pty) : editor := mk_editor (mosi p) (cooked p) (signals p).

Definition press (pg : Z) (e : editor) (k : key) : editor :=
  match k with
  | KLine b => mk_editor (lines e ++ [current e ++ [b]]) [] (sent e)
  | KEof => mk_editor (lines e ++ [current e]) [] (sent e)
  | KErase => mk_editor (lines e) (removelast (current e)) (sent e)
  | KSignal sig =>
     mk_editor (lines e) (current e)
       (if bool_decide (pg = 0) then sent e else sent e ++ [(wrap_usize (- pg), sig)])
  | KIgnore => e
  | KChar b => mk_editor (lines e) (current e ++ [b]) (sent e)
  end.

(** Parts of the terminal that the input loop leaves alone. *)
Definition config (p : Pty) := (id p, pgrp p, locked p, termios p, winsize p, timeout_count p).

Lemma echo_if_frame c buf p :
  editor_of (echo_if c buf p) = editor_of p ∧ config (echo_if c buf p) = config p ∧
  timeout_character (echo_if c buf p) = timeout_character p.
Proof. by destruct c. Qed.

Lemma removelast_reverse {A} (l : list A) :
  removelast l = match reverse l with [] => [] | _ :: rest => reverse rest end.
Proof.
  destruct l as [|x l _] using rev_ind; [done|].
  by rewrite removelast_last, reverse_snoc, reverse_involutive.
Qed.

Lemma erase_editor c p :
  editor_of (erase c p) = press (pgrp p) (editor_of p) KErase ∧ config (erase c p) = config p ∧
  timeout_character (erase c p) = timeout_character p.
Proof.
  unfold erase, press. cbn. rewrite removelast_reverse.
  destruct (reverse (cooked p)) as [|x rest] eqn:Hr.
  - split_and!; [|done..]. apply (f_equal reverse) in Hr. rewrite reverse_involutive in Hr.
    unfold editor_of. cbn. by rewrite Hr.
  - destruct (echo_if_frame c [8; 32; 8] (set_cooked (reverse rest) p)) as (-> & -> & ->). done.
Qed.

Lemma consume_cleared cond body p : cond 0 = false → consume cond body (0, p) = (0, p).
Proof. unfold consume. by intros ->. Qed.

(** While the byte is not consumed, a test for a control character is a comparison. *)
Lemma is_cc_live t b i : (b =? 0) = false → is_cc t b i = (b =? c_cc t i).
Proof. unfold is_cc. by intros ->. Qed.

Lemma is_cc_enabled t b i :
  (b =? 0) = false → is_cc t b i && negb (is_vdisable t i) = (b =? c_cc t i).
Proof.
  intros Hb. rewrite is_cc_live by done. unfold is_vdisable.
  destruct (b =? c_cc t i) eqn:Hc; [|done]. apply Z.eqb_eq in Hc. by rewrite <- Hc, Hb.
Qed.

Definition is_char (k : key) : bool := match k with KChar _ => true | _ => false end.

(** The stages act on a live byte as one decision, and not at all on a consumed one. *)
Definition decided (bp bp' : Z * Pty) (k : option key) : Prop :=
  match k with
  | None => bp' = bp
  | Some k => bp'.1 = 0 ∧ is_char k = false ∧ editor_of bp'.2 = press (pgrp bp.2) (editor_of bp.2) k ∧
              config bp'.2 = config bp.2 ∧ timeout_character bp'.2 = timeout_character bp.2
  end.

Lemma end_line_decided b c buf p p' :
  p' = end_line b (echo_if c buf p) → decided (b, p) (0, p') (Some (KLine b)).
Proof.
  intros ->. destruct (echo_if_frame c buf p) as (He & Hc & Ht).
  unfold editor_of, config in He, Hc. simplify_eq/=.
  split_and!; [done|done|..]; unfold end_line, flush, press, editor_of, config; cbn; congruence.
Qed.

Lemma canon_stages_consumed t p : canon_stages t (0, p) = (0, p).
Proof. unfold canon_stages. by rewrite !consume_cleared. Qed.

Lemma consume_hit cond body b p : cond b = true → consume cond body (b, p) = (0, body b p).
Proof. unfold consume. by intros ->. Qed.

Lemma consume_miss cond body b p : cond b = false → consume cond body (b, p) = (b, p).
Proof. unfold consume. by intros ->. Qed.

(** Evaluate a boolean test from the equations in the context. *)
Ltac simpl_bools :=
  repeat match goal with
         | Hx : ?x = true |- context [?x] => rewrite Hx
         | Hx : ?x = false |- context [?x] => rewrite Hx
         end; cbn [orb andb negb].

(** Run the innermost [consume] on a live byte, whose test is known, and then the
    remaining ones when it was consumed. *)
Ltac next_stage :=
  match goal with
  | |- context [consume ?c ?f (?b, ?p)] =>
     first
       [ rewrite (consume_miss c f b p)
           by (cbv beta; rewrite ?is_cc_enabled, ?is_cc_live by done; simpl_bools; done)
       | rewrite (consume_hit c f b p)
           by (cbv beta; rewrite ?is_cc_enabled, ?is_cc_live by done; simpl_bools; done);
         repeat rewrite consume_cleared by done ]
  | _ => idtac
  end; cbn [orb andb negb].

Lemma canon_stages_decided t b p :
  (b =? 0) = false → decided (b, p) (canon_stages t (b, p)) (canon_key t b).
Proof.
  intros Hb. unfold canon_stages, canon_key. cbv zeta.
  pose proof (is_cc_live t b) as Hlive. pose proof (is_cc_enabled t b) as Hen.
  destruct (b =? NL) eqn:?; next_stage; [eapply end_line_decided; done|].
  destruct (b =? c_cc t VEOF) eqn:?; next_stage; [done|].
  destruct (b =? c_cc t VEOL) eqn:?; next_stage; [eapply end_line_decided; done|].
  destruct (b =? c_cc t VEOL2) eqn:?; next_stage; [eapply end_line_decided; done|].
  destruct (b =? c_cc t VERASE) eqn:?; next_stage.
  { by destruct (erase_editor (has_flag (c_lflag t) ECHOE) p) as (? & ? & ?). }
  destruct (has_flag (c_lflag t) IEXTEN) eqn:?, (b =? c_cc t VWERASE) eqn:?; next_stage;
    destruct (b =? c_cc t VKILL) eqn:?; next_stage;
    destruct (b =? c_cc t VREPRINT) eqn:?; next_stage; done.
Qed.

Lemma signal_decided sig b p : decided (b, p) (0, signal sig p) (Some (KSignal sig)).
Proof. unfold decided, signal, press. cbn. repeat case_bool_decide; done. Qed.

Lemma signal_stages_decided t b p :
  (b =? 0) = false → decided (b, p) (signal_stages t (b, p)) (signal_key t b).
Proof.
  intros Hb. unfold signal_stages, signal_key. cbv zeta.
  destruct (b =? c_cc t VINTR) eqn:?; next_stage; [apply signal_decided|].
  destruct (b =? c_cc t VQUIT) eqn:?; next_stage; [apply signal_decided|].
  destruct (b =? c_cc t VSUSP) eqn:?; next_stage; [apply signal_decided|done].
Qed.

Lemma late_stages_consumed t p : late_stages t (0, p) = (0, p).
Proof.
  unfold late_stages, signal_stages, flow_stages. cbv zeta.
  destruct (has_flag _ ISIG), (has_flag _ IXON); by rewrite !consume_cleared.
Qed.

Lemma late_tests_decided t b p :
  (b =? 0) = false →
  decided (b, p)
    (let lfl := c_lflag t in
     let bp := if has_flag lfl IXON then flow_stages t (b, p) else (b, p) in
     let bp := consume (λ b, is_cc t b VLNEXT && has_flag lfl IEXTEN) (λ _ p, p) bp in
     consume (λ b, is_cc t b VDISCARD && has_flag lfl IEXTEN) (λ _ p, p) bp)
    (if has_flag (c_lflag t) IXON && ((b =? c_cc t VSTART) || (b =? c_cc t VSTOP))
        || has_flag (c_lflag t) IEXTEN && ((b =? c_cc t VLNEXT) || (b =? c_cc t VDISCARD))
     then Some KIgnore else None).
Proof.
  intros Hb. cbv zeta. unfold flow_stages.
  destruct (has_flag (c_lflag t) IXON) eqn:?, (has_flag (c_lflag t) IEXTEN) eqn:?,
    (b =? c_cc t VSTART) eqn:?, (b =? c_cc t VSTOP) eqn:?,
    (b =? c_cc t VLNEXT) eqn:?, (b =? c_cc t VDISCARD) eqn:?;
    repeat next_stage; done.
Qed.

Lemma late_stages_decided t b p :
  (b =? 0) = false → decided (b, p) (late_stages t (b, p)) (late_key t b).
Proof.
  intros Hb. unfold late_stages, late_key. cbv zeta.
  pose proof (signal_stages_decided t b p Hb) as Hsig.
  destruct (has_flag (c_lflag t) ISIG); [destruct (signal_key t b)|].
  - destruct (signal_stages t (b, p)) as [b' p'], Hsig as (Hb' & Hp'). cbn in Hb'. subst b'.
    unfold flow_stages. destruct (has_flag _ IXON); by rewrite !consume_cleared.
  - cbn in Hsig. rewrite Hsig. clear Hsig. by apply late_tests_decided.
  - by apply late_tests_decided.
Qed.

(** The loop body does what the decision list says, and restarts the timer after an
    ordinary byte. *)
Lemma input_byte_press t byte p :
  editor_of (input_byte t byte p) = press (pgrp p) (editor_of p) (key_of t byte) ∧
  config (input_byte t byte p) = config p ∧
  timeout_character (input_byte t byte p) =
    if is_char (key_of t byte) then Some (timeout_count p) else timeout_character p.
Proof.
  unfold input_byte, key_of. cbv zeta. set (b := translate t byte).
  destruct (b =? 0) eqn:Hb.
  { apply Z.eqb_eq in Hb. rewrite Hb, canon_stages_consumed.
    replace (if has_flag _ ICANON then _ else _) with (0, p) by by case_match.
    by rewrite late_stages_consumed. }
  pose proof (canon_stages_decided t b p Hb) as Hcanon.
  destruct (has_flag (c_lflag t) ICANON); [destruct (canon_key t b) as [k|]|].
  1:{ destruct (canon_stages t (b, p)) as [b' p'], Hcanon as (Hz & Hk & Hp). cbn in Hz. subst b'.
      rewrite late_stages_consumed, Hk. exact Hp. }
  1: cbn in Hcanon; rewrite Hcanon; clear Hcanon.
  all: pose proof (late_stages_decided t b p Hb) as Hlate; destruct (late_key t b) as [k|].
  1, 3: destruct (late_stages t (b, p)) as [b' p'], Hlate as (Hz & Hk & Hp); cbn in Hz; subst b';
    cbn -[is_char press]; rewrite Hk; exact Hp.
  all: cbn in Hlate; rewrite Hlate, Hb; cbn [negb];
    destruct (echo_if_frame (has_flag (c_lflag t) ECHO) [b] p) as (He & Hc & _);
    unfold editor_of, config in *; simplify_eq/=; split_and!; congruence.
Qed.

(** ** What is buffered *)

(** Every byte on its way to the subordinate side, in order. *)
Definition pending (p : Pty) : bytes := concat (mosi p) ++ cooked p.

(** A terminal with unread input has its timer running. *)
Definition timer_ok (p : Pty) : Prop := cooked p ≠ [] → is_Some (timeout_character p).

Lemma flush_pending p : pending (flush p) = pending p.
Proof. unfold pending, flush. cbn. by rewrite concat_app, app_nil_r, concat_cons, app_nil_r. Qed.

Lemma update_pending p : pending (update p) = pending p.
Proof. unfold update. repeat case_match; by rewrite ?flush_pending. Qed.

Lemma flush_timer p : timer_ok (flush p).
Proof. by intros []. Qed.

Lemma update_timer p : timer_ok p → timer_ok (update p).
Proof.
  intros Ht. unfold update. repeat case_match; try (exact Ht || apply flush_timer || by intros _).
  intros Hne. by match goal with
    Hx : negb _ = false |- _ => apply negb_false_iff, bool_decide_eq_true_1 in Hx end.
Qed.

Lemma input_byte_timer t byte p : timer_ok p → timer_ok (input_byte t byte p).
Proof.
  destruct (input_byte_press t byte p) as (He & _ & Ht). intros Hp.
  apply (f_equal current) in He. unfold timer_ok. rewrite Ht. cbn in He. rewrite He.
  destruct (key_of t byte); cbn; [by intros []|by intros []| |exact Hp|exact Hp|done].
  intros Hl. apply Hp. intros Hnil. by rewrite Hnil in Hl.
Qed.

Lemma input_loop t buf p :
  let p' := foldl (λ p b, input_byte t b p) p buf in
  editor_of p' = foldl (λ e b, press (pgrp p) e (key_of t b)) (editor_of p) buf ∧
  config p' = config p ∧ (timer_ok p → timer_ok p').
Proof.
  revert p. induction buf as [|b buf IH]; intros p; [done|]. cbn.
  destruct (input_byte_press t b p) as (He & Hc & _).
  destruct (IH (input_byte t b p)) as (-> & -> & Htimer). rewrite He.
  assert (pgrp (input_byte t b p) = pgrp p) as -> by (unfold config in Hc; congruence).
  split_and!; [done..|]. eauto using input_byte_timer.
Qed.

Lemma update_canonical p : has_flag (c_lflag (termios p)) ICANON = true → update p = p.
Proof. unfold update. by intros ->. Qed.

(** ** Properties *)

(** C7. Canonical mode is a line editor.  Whatever bytes arrive, the complete lines
    handed over, the line being edited and the signals sent are those of the abstract
    editor fed with the keys of the decision list: each byte means exactly one key,
    also when several control characters are bound to the same byte. *)
Theorem pty_canonical_refines_editor buf p :
  has_flag (c_lflag (termios p)) ICANON = true →
  editor_of (input buf p) =
    foldl (press (pgrp p)) (editor_of p) (key_of (termios p) <$> buf) ∧
  config (input buf p) = config p.
Proof.
  intros Hcanon. unfold input. cbv zeta.
  destruct (input_loop (termios p) buf p) as (He & Hc & _).
  rewrite update_canonical by (unfold config in Hc; simplify_eq/=; congruence).
  split; [|done]. rewrite He. clear He Hc. generalize (editor_of p).
  by induction buf; intros e; cbn.
Qed.

(** Signal, flow-control and extended processing and line editing are off. *)
Definition raw_mode (t : Termios) : Prop :=
  has_flag (c_lflag t) ICANON = false ∧ has_flag (c_lflag t) ISIG = false ∧
  has_flag (c_lflag t) IXON = false ∧ has_flag (c_lflag t) IEXTEN = false.

Lemma raw_input_pending buf p :
  raw_mode (termios p) →
  pending (input buf p) = pending p ++ filter (λ b, b ≠ 0) (translate (termios p) <$> buf).
Proof.
  intros (Hcanon & Hsig & Hxon & Hext). unfold input. cbv zeta. rewrite update_pending.
  destruct (input_loop (termios p) buf p) as (He & _ & _).
  assert (∀ q, pending q = concat (lines (editor_of q)) ++ current (editor_of q)) as Hpend by done.
  rewrite !Hpend, He. clear He. generalize (editor_of p) as e.
  induction buf as [|b buf IH]; intros e; cbn; [by rewrite app_nil_r|].
  rewrite IH. unfold key_of, late_key. rewrite Hcanon, Hsig, Hxon, Hext. cbn.
  destruct (Z.eqb_spec (translate (termios p) b) 0); case_decide; try done.
  cbn. by rewrite <- !app_assoc.
Qed.

(** VMIN and VTIME.  In non-canonical mode with a running inter-byte timer, a tick
    hands the buffered bytes over exactly when enough of them have arrived or the timer
    has expired, and never loses any of them. *)
Theorem pty_timer_delivers p start count :
  has_flag (c_lflag (termios p)) ICANON = false →
  c_cc (termios p) VTIME ≠ 0 →
  cooked p ≠ [] → timeout_character p = Some start → count ≠ timeout_count p →
  let p' := timeout count p in
  (cooked p' = [] ↔
     c_cc (termios p) VMIN ≤ Z.of_nat (length (cooked p)) ∨
     wrap_usize (start + c_cc (termios p) VTIME) ≤ count) ∧
  pending p' = pending p.
Proof.
  intros Hcanon Hvtime Hne Hstart Hcount. unfold timeout.
  rewrite bool_decide_eq_true_2 by auto. split; [|by rewrite update_pending].
  unfold update, expired. cbn. rewrite Hcanon, Hstart.
  rewrite (proj2 (Z.eqb_neq _ _) Hvtime).
  rewrite (bool_decide_eq_false_2 (cooked p = [])) by done. cbn.
  destruct (Z.eqb_spec (c_cc (termios p) VMIN) 0) as [->|]; cbn; [split; [lia|done]|].
  repeat case_match; cbn; split; intros; try done; lia.
Qed.

(** ** Frames used by the scheme *)

Lemma update_config p : config (update p) = config p.
Proof. unfold update. by repeat case_match. Qed.

Lemma update_miso p : miso (update p) = miso p.
Proof. unfold update. by repeat case_match. Qed.

Lemma input_config buf p : config (input buf p) = config p.
Proof.
  unfold input. cbv zeta. rewrite update_config.
  by destruct (input_loop (termios p) buf p) as (_ & -> & _).
Qed.

Lemma input_timer buf p : timer_ok p → timer_ok (input buf p).
Proof. intros Hp. apply update_timer. by apply (input_loop (termios p) buf p). Qed.

(** Every packet on its way to the control side starts with a tag byte. *)
Definition tagged (p : Pty) : Prop := Forall (λ packet, packet ≠ []) (miso p).

Lemma echo_if_tagged c buf p : tagged p → tagged (echo_if c buf p).
Proof.
  destruct c; [|done]. unfold tagged. cbn. intros Hp. apply Forall_app_2; [done|].
  by constructor.
Qed.

Lemma flush_tagged p : tagged p → tagged (flush p).
Proof. done. Qed.

Lemma end_line_tagged b p : tagged p → tagged (end_line b p).
Proof. done. Qed.

Lemma consume_tagged cond body bp :
  tagged bp.2 → (∀ b p, tagged p → tagged (body b p)) → tagged (consume cond body bp).2.
Proof. destruct bp as [b p]. unfold consume. destruct (cond b); cbn; auto. Qed.

Lemma erase_tagged c p : tagged p → tagged (erase c p).
Proof. unfold erase. case_match; [done|]. intros Hp. by apply echo_if_tagged. Qed.

Lemma signal_tagged sig p : tagged p → tagged (signal sig p).
Proof. unfold signal. by case_match. Qed.

Lemma input_byte_tagged t byte p : tagged p → tagged (input_byte t byte p).
Proof.
  intros Hp. unfold input_byte, canon_stages, late_stages, signal_stages, flow_stages.
  cbv zeta. match goal with |- tagged (let '(_, _) := ?bp in _) => set (q := bp) end.
  assert (tagged q.2) as Hq.
  { subst q. repeat (apply consume_tagged || case_match; intros); cbn;
      eauto using erase_tagged, signal_tagged, echo_if_tagged, flush_tagged, end_line_tagged. }
  destruct q as [b q]. cbn in Hq. destruct (negb (b =? 0)); [|done].
  by apply echo_if_tagged.
Qed.

Lemma input_tagged buf p : tagged p → tagged (input buf p).
Proof.
  unfold input. cbv zeta. generalize (termios p) as t. intros t. unfold tagged at 2.
  rewrite update_miso. fold (tagged (foldl (λ p b, input_byte t b p) p buf)).
  revert p. induction buf; intros p Hp; cbn; auto using input_byte_tagged.
Qed.

Lemma timeout_timer count p : timer_ok p → timer_ok (timeout count p).
Proof. intros Hp. unfold timeout. case_bool_decide; [by apply update_timer|done]. Qed.
End Pty.

(** ** A concrete terminal

    An instance of the crate with the structures kept as their bytes: four 32-bit
    flag words and the control characters of a [Termios]. *)

Definition word_at (l : bytes) (i : nat) : Z :=
  nth i l 0 + 256 * nth (i + 1) l 0 + 65536 * nth (i + 2) l 0 + 16777216 * nth (i + 3) l 0.

Definition word_bytes (x : Z) : bytes :=
  [x `mod` 256; (x `div` 256) `mod` 256; (x `div` 65536) `mod` 256; (x `div` 16777216) `mod` 256].

(** Canonical mode with echo, signals and extended characters; output with ONLCR. *)
Definition demo_cooked : bytes :=
  word_bytes 0x100 ++ word_bytes 5 ++ word_bytes 0 ++ word_bytes 0x801B ++
  [4; 0; 0; 127; 23; 21; 18; 0; 3; 28; 26; 0; 17; 19; 22; 15; 1; 0].

(** Raw mode with VMIN 4 and VTIME 1. *)
Definition demo_raw : bytes :=
  word_bytes 0 ++ word_bytes 0 ++ word_bytes 0 ++ word_bytes 0 ++
  [4; 0; 0; 127; 23; 21; 18; 0; 3; 28; 26; 0; 17; 19; 22; 15; 4; 1].

Definition demo_termios : RedoxTermios := {|
  Termios := bytes;
  Winsize := bytes;
  termios_default := demo_cooked;
  winsize_default := [0; 0; 0; 0];
  c_iflag t := word_at t 0;
  c_oflag t := word_at t 4;
  c_lflag t := word_at t 12;
  c_cc t i := nth (16 + Z.to_nat i) t 0 `mod` 256;
  termios_bytes t := t;
  termios_of_bytes t := t;
  winsize_bytes w := w;
  winsize_of_bytes w := w;
  INLCR := 0x40; IGNCR := 0x80; ICRNL := 0x100; IXON := 0x400;
  OPOST := 1; ONLCR := 4;
  ECHO := 0x8; ECHOE := 0x10; ECHONL := 0x40; ICANON := 0x2; ISIG := 0x1; IEXTEN := 0x8000;
  VEOF := 0; VEOL := 1; VEOL2 := 2; VERASE := 3; VWERASE := 4; VKILL := 5; VREPRINT := 6;
  VINTR := 8; VQUIT := 9; VSUSP := 10; VSTART := 12; VSTOP := 13; VLNEXT := 14; VDISCARD := 15;
  VMIN := 16; VTIME := 17;
|}.

Lemma demo_termios_laws : RedoxTermiosLaws demo_termios.
Proof. split; try done. intros t i. unfold is_u8. cbn. apply Z.mod_pos_bound. lia. Qed.

(** "ab", erase, "c", newline: the line "ac". *)
Lemma pty_canonical_refines_editor_witness :
  let p := pty_new (H := demo_termios) 7 in
  mosi (input [97; 98; 127; 99; 10] p) = [[97; 99; 10]] ∧
  editor_of (input [97; 98; 127; 99; 10] p) =
    foldl (press (pgrp p)) (editor_of p) (key_of (termios p) <$> [97; 98; 127; 99; 10]).
Proof.
  split; [by vm_compute|].
  apply (pty_canonical_refines_editor (H := demo_termios)). by vm_compute.
Defined.

(** Two of four bytes, the first tick after the timeout delivers them. *)
Definition demo_waiting : Pty (H := demo_termios) :=
  input (H := demo_termios) [65; 66] (set_termios (H := demo_termios) demo_raw (pty_new 7)).

Lemma pty_timer_delivers_witness :
  cooked demo_waiting = [65; 66] ∧
  (cooked (timeout (H := demo_termios) 1 demo_waiting) = [] ↔
   4 ≤ Z.of_nat (length (cooked demo_waiting)) ∨ wrap_usize (0 + 1) ≤ 1).
Proof.
  split; [by vm_compute|].
  refine (proj1 (pty_timer_delivers (H := demo_termios) demo_waiting 0 1 _ _ _ _ _));
    by vm_compute.
Defined.
