(* ===== verification/PtyScheme.v ===== *)
(** * ptyd: resources and scheme

    Models the seven kinds of resources of [ptyd/src] ([controlterm.rs],
    [subterm.rs], [pgrp.rs], [termios.rs], [winsize.rs], [ptlock.rs],
    [ptname.rs]), the scheme that hands them out ([scheme.rs]) and the timer and
    event steps of [main.rs].

    A [Pty] lives in an [Rc<RefCell<Pty>>] that only its control terminal owns; all
    other resources hold a [Weak].  The shared cells are the store [heap], keyed by
    the id the terminal was created with; [upgrade()] is a lookup in it, and
    closing the control terminal frees the cell. *)

From S2P Require Import Prelude Abi SchemeUtils Pty.

Section PtyScheme.
Context `{SyscallAbi} `{RedoxTermios}.

(** ** State *)

Inductive Resource :=
  | PtyControlTerm (pty flags : Z) (notified_read notified_write : bool)
  | PtySubTerm (pty flags : Z) (notified_read notified_write : bool)
  | PtyPgrp (pty flags : Z)
  | PtyTermios (pty flags : Z)
  | PtyWinsize (pty flags : Z)
  | PtyLock (pty flags : Z)
  | PtsName (pty flags : Z).

Inductive Handle := HResource (res : Resource) | HSchemeRoot.

Record PtyScheme := mk_ptys {
  next_id : Z;
  handles : gmap Z Handle;
  heap : gmap Z Pty;
}.

Definition ptys_new : PtyScheme := mk_ptys 0 ∅ ∅.

Definition set_handles f (s : PtyScheme) := mk_ptys (next_id s) (f (handles s)) (heap s).
Definition set_heap f (s : PtyScheme) := mk_ptys (next_id s) (handles s) (f (heap s)).

(** [pty()] and [flags()] of the trait [Resource] *)
Definition res_pty (r : Resource) : Z :=
  match r with
  | PtyControlTerm l _ _ _ | PtySubTerm l _ _ _ | PtyPgrp l _ | PtyTermios l _
  | PtyWinsize l _ | PtyLock l _ | PtsName l _ => l
  end.

Definition res_flags (r : Resource) : Z :=
  match r with
  | PtyControlTerm _ f _ _ | PtySubTerm _ f _ _ | PtyPgrp _ f | PtyTermios _ f
  | PtyWinsize _ f | PtyLock _ f | PtsName _ f => f
  end.

Definition set_res_flags (f : Z) (r : Resource) : Resource :=
  match r with
  | PtyControlTerm l _ nr nw => PtyControlTerm l f nr nw
  | PtySubTerm l _ nr nw => PtySubTerm l f nr nw
  | PtyPgrp l _ => PtyPgrp l f
  | PtyTermios l _ => PtyTermios l f
  | PtyWinsize l _ => PtyWinsize l f
  | PtyLock l _ => PtyLock l f
  | PtsName l _ => PtsName l f
  end.

Definition is_control (r : Resource) : bool :=
  match r with PtyControlTerm _ _ _ _ => true | _ => false end.

(** ** Small helpers of the methods *)

(** [while i < dst.len() && i < src.len() { dst[i] = src[i]; i += 1 }]: the final
    [i] and [dst]. *)
Fixpoint copy_loop (dst src : bytes) : Z * bytes :=
  match dst, src with
  | _ :: dst, b :: src => let '(i, dst) := copy_loop dst src in (i + 1, b :: dst)
  | _, _ => (0, dst)
  end.

(** [u32::to_ne_bytes] and [u32::from_ne_bytes] on a little-endian target *)
Definition u32_to_bytes (x : Z) : bytes :=
  [x `mod` 256; (x `div` 256) `mod` 256; (x `div` 65536) `mod` 256; (x `div` 16777216) `mod` 256].

Definition u32_of_bytes (l : bytes) : option Z :=
  match l with
  | b0 :: b1 :: b2 :: b3 :: _ => Some (b0 + 256 * b1 + 65536 * b2 + 16777216 * b3)
  | _ => None
  end.

(** [*buf.get_mut(..4)? = x.to_ne_bytes()] *)
Definition put_u32 (buf : bytes) (x : Z) : option bytes :=
  match buf with
  | _ :: _ :: _ :: _ :: rest => Some (u32_to_bytes (wrap_u32 x) ++ rest)
  | _ => None
  end.

Definition set_resource (h : Z) (r : Resource) : comp PtyScheme unit :=
  modify (set_handles (insert h (HResource r))).

(** [self.pty.borrow()] of the control terminal *)
Definition strong (l : Z) : comp PtyScheme Pty :=
  ptys ← gets heap; expect (ptys !! l).

Definition set_pty (l : Z) (p : Pty) : comp PtyScheme unit := modify (set_heap (insert l p)).

(** [if let Some(pty_lock) = self.pty.upgrade() { k } else { dead }] *)
Definition upgrade {A} (l : Z) (k : Pty → comp PtyScheme A) (dead : comp PtyScheme A) :
    comp PtyScheme A :=
  ptys ← gets heap;
  match ptys !! l with Some p => k p | None => dead end.

(** [Rc::weak_count(&self.pty)] *)
Definition holds_weak (l : Z) (h : Handle) : bool :=
  match h with
  | HResource r => (res_pty r =? l) && negb (is_control r)
  | HSchemeRoot => false
  end.

Definition weak_count (l : Z) (s : PtyScheme) : nat :=
  length (filter (λ kh, holds_weak l kh.2 = true) (map_to_list (handles s))).

(** ** The methods of [Resource] *)

(** [path] *)
Definition res_path (r : Resource) (buf : bytes) (s : PtyScheme) : outcome nat * bytes :=
  match r with
  | PtyControlTerm _ _ _ _ => fpath_with buf "pty" (push_str (str_bytes "ptmx"))
  | _ =>
     match heap s !! res_pty r with
     | Some p => pty_path buf p
     | None => (Err EPIPE, buf)
     end
  end.

(** [read] returns the count and the caller's buffer afterwards. *)

(** [PtyControlTerm::read] *)
Definition control_term_read (h : Z) (buf : bytes) (l : Z) (fl : Z) (nw : bool) : comp PtyScheme (Z * bytes) :=
  set_resource h (PtyControlTerm l fl false nw);;
  p ← strong l;
  match miso p with
  | packet :: rest =>
     let '(i, buf) := copy_loop buf packet in
     let rest :=
       if bool_decide (i < Z.of_nat (length packet))
       then (hd 0 packet :: drop (Z.to_nat i) packet) :: rest else rest in
     set_pty l (set_miso rest p);;
     mret (i, buf)
  | [] =>
     s ← get;
     if has_flag fl O_NONBLOCK || bool_decide (weak_count l s = 0%nat) then fail EAGAIN
     else fail EWOULDBLOCK
  end.

(** [PtySubTerm::read] *)
Definition sub_term_read (h : Z) (buf : bytes) (l : Z) (fl : Z) (nw : bool) : comp PtyScheme (Z * bytes) :=
  set_resource h (PtySubTerm l fl false nw);;
  upgrade l (λ p,
    let p := update p in
    match mosi p with
    | packet :: rest =>
       let '(i, buf) := copy_loop buf packet in
       let rest :=
         if bool_decide (i < Z.of_nat (length packet))
         then drop (Z.to_nat i) packet :: rest else rest in
       set_pty l (set_mosi rest p);;
       mret (i, buf)
    | [] =>
       set_pty l p;;
       if has_flag fl O_NONBLOCK then fail EAGAIN else fail EWOULDBLOCK
    end) (mret (0, buf)).

(** [PtyPgrp::read] *)
Definition pgrp_read (buf : bytes) (l : Z) : comp PtyScheme (Z * bytes) :=
  upgrade l (λ p, buf ← ok_or EBADF (put_u32 buf (pgrp p)); mret (4, buf)) (mret (0, buf)).

(** [PtyTermios::read] *)
Definition termios_read (buf : bytes) (l : Z) : comp PtyScheme (Z * bytes) :=
  upgrade l (λ p, mret (copy_loop buf (termios_bytes (termios p)))) (mret (0, buf)).

(** [PtyWinsize::read] *)
Definition winsize_read (buf : bytes) (l : Z) : comp PtyScheme (Z * bytes) :=
  upgrade l (λ p, mret (copy_loop buf (winsize_bytes (winsize p)))) (mret (0, buf)).

(** [PtyLock::read] *)
Definition lock_read (buf : bytes) (l : Z) : comp PtyScheme (Z * bytes) :=
  upgrade l (λ p, buf ← ok_or EBADF (put_u32 buf (if locked p then 1 else 0)); mret (4, buf))
    (mret (0, buf)).

(** [PtsName::read] *)
Definition ptsname_read (buf : bytes) (l : Z) : comp PtyScheme (Z * bytes) :=
  upgrade l (λ p,
    if locked p then fail EIO
    else buf ← ok_or EBADF (put_u32 buf (id p)); mret (4, buf)) (fail EPIPE).

Definition res_read (h : Z) (r : Resource) (buf : bytes) : comp PtyScheme (Z * bytes) :=
  match r with
  | PtyControlTerm l fl _ nw => control_term_read h buf l fl nw
  | PtySubTerm l fl _ nw => sub_term_read h buf l fl nw
  | PtyPgrp l _ => pgrp_read buf l
  | PtyTermios l _ => termios_read buf l
  | PtyWinsize l _ => winsize_read buf l
  | PtyLock l _ => lock_read buf l
  | PtsName l _ => ptsname_read buf l
  end.

(** [PtyControlTerm::write] *)
Definition control_term_write (buf : bytes) (l : Z) : comp PtyScheme Z :=
  p ← strong l;
  if bool_decide (64 ≤ length (mosi p))%nat then fail EWOULDBLOCK
  else set_pty l (input buf p);; mret (Z.of_nat (length buf)).

(** [PtySubTerm::write] *)
Definition sub_term_write (buf : bytes) (l : Z) : comp PtyScheme Z :=
  upgrade l (λ p,
    if bool_decide (64 ≤ length (miso p))%nat then fail EWOULDBLOCK
    else set_pty l (output buf p);; mret (Z.of_nat (length buf))) (fail EPIPE).

(** [PtyPgrp::write] *)
Definition pgrp_write (buf : bytes) (l : Z) : comp PtyScheme Z :=
  upgrade l (λ p,
    new_pgrp ← ok_or EBADF (u32_of_bytes buf);
    set_pty l (set_pgrp new_pgrp p);; mret 4) (fail EPIPE).

(** [PtyTermios::write] *)
Definition termios_write (buf : bytes) (l : Z) : comp PtyScheme Z :=
  upgrade l (λ p,
    let '(i, t) := copy_loop (termios_bytes (termios p)) buf in
    set_pty l (set_termios (termios_of_bytes t) p);; mret i) (fail EPIPE).

(** [PtyWinsize::write] *)
Definition winsize_write (buf : bytes) (l : Z) : comp PtyScheme Z :=
  upgrade l (λ p,
    let '(i, w) := copy_loop (winsize_bytes (winsize p)) buf in
    set_pty l (set_winsize (winsize_of_bytes w) p);; mret i) (fail EPIPE).

(** [PtyLock::write] *)
Definition lock_write (buf : bytes) (l : Z) : comp PtyScheme Z :=
  upgrade l (λ p,
    lock_val ← ok_or EBADF (u32_of_bytes buf);
    set_pty l (set_locked (negb (lock_val =? 0)) p);; mret 4) (mret 0).

Definition res_write (r : Resource) (buf : bytes) : comp PtyScheme Z :=
  match r with
  | PtyControlTerm l _ _ _ => control_term_write buf l
  | PtySubTerm l _ _ _ => sub_term_write buf l
  | PtyPgrp l _ => pgrp_write buf l
  | PtyTermios l _ => termios_write buf l
  | PtyWinsize l _ => winsize_write buf l
  | PtyLock l _ => lock_write buf l
  | PtsName _ _ => fail EBADF
  end.

(** [PtySubTerm::sync] *)
Definition sub_term_sync (l : Z) : comp PtyScheme unit :=
  upgrade l (λ p, set_pty l (set_miso (miso p ++ [[1]]) p)) (fail EPIPE).

Definition res_sync (r : Resource) : comp PtyScheme unit :=
  match r with
  | PtySubTerm l _ _ _ => sub_term_sync l
  | _ => mret tt
  end.

Definition res_fcntl (h : Z) (r : Resource) (cmd arg : Z) : comp PtyScheme Z :=
  if bool_decide (cmd = F_GETFL) then mret (res_flags r)
  else if bool_decide (cmd = F_SETFL) then
    set_resource h
      (set_res_flags (Z.lor (Z.land (res_flags r) O_ACCMODE) (Z.land arg (not_usize O_ACCMODE))) r);;
    mret 0
  else fail EINVAL.

(** The notification part that the two terminals share: whether there is something
    to read, the two flags, and the events with the new flags. *)
Definition notify (readable : option bool) (nr nw : bool) : Z * bool * bool :=
  let '(ev, nr) :=
    match readable with
    | Some true => if nr then (0, nr) else (EVENT_READ, true)
    | Some false => (0, false)
    | None => (0, nr)
    end in
  if nw then (ev, nr, nw) else (Z.lor ev EVENT_WRITE, nr, true).

(** [PtyControlTerm::events] *)
Definition control_term_events (h : Z) (l : Z) (fl : Z) (nr : bool) (nw : bool) : comp PtyScheme Z :=
  p ← strong l;
  let '(ev, nr, nw) := notify (Some (negb (bool_decide (miso p = [])))) nr nw in
  set_resource h (PtyControlTerm l fl nr nw);; mret ev.

(** [PtySubTerm::events] *)
Definition sub_term_events (h : Z) (l : Z) (fl : Z) (nr : bool) (nw : bool) : comp PtyScheme Z :=
  ptys ← gets heap;
  let readable := (λ p, negb (bool_decide (mosi p = []))) <$> (ptys !! l) in
  let '(ev, nr, nw) := notify readable nr nw in
  set_resource h (PtySubTerm l fl nr nw);; mret ev.

Definition res_events (h : Z) (r : Resource) : comp PtyScheme Z :=
  match r with
  | PtyControlTerm l fl nr nw => control_term_events h l fl nr nw
  | PtySubTerm l fl nr nw => sub_term_events h l fl nr nw
  | _ => mret 0
  end.

Definition res_fevent (h : Z) (r : Resource) : comp PtyScheme Z :=
  match r with
  | PtyControlTerm l fl _ _ => res_events h (PtyControlTerm l fl false false)
  | PtySubTerm l fl _ _ => res_events h (PtySubTerm l fl false false)
  | _ => fail EBADF
  end.

Definition res_timeout (r : Resource) (count : Z) : comp PtyScheme unit :=
  match r with
  | PtyControlTerm l _ _ _ => p ← strong l; set_pty l (timeout count p)
  | _ => mret tt
  end.

(** ** The scheme *)

(** [path.parse::<usize>()] *)
Definition parse_usize : list ascii → option Z := parse_uint usize_max.

(** [let id = self.next_id; self.next_id += 1;] *)
Definition fresh_id : comp PtyScheme Z :=
  n ← gets next_id;
  n' ← add_usize n 1;
  modify (λ s, mk_ptys n' (handles s) (heap s));;
  mret n.

Definition get_resource_mut (h : Z) : comp PtyScheme Resource :=
  hs ← gets handles;
  handle ← ok_or EBADF (hs !! h);
  match handle with HResource r => mret r | HSchemeRoot => fail EBADF end.

Definition scheme_root : comp PtyScheme Z :=
  n ← fresh_id;
  modify (set_handles (insert n HSchemeRoot));;
  mret n.

Definition openat (dirfd : Z) (path : string) (fl fcntl_flags : Z) : comp PtyScheme Z :=
  hs ← gets handles;
  dir ← ok_or EBADF (hs !! dirfd);
  match dir with
  | HResource _ => fail EACCES
  | HSchemeRoot =>
     let path := trim_slashes path in
     n ← fresh_id;
     if bool_decide (path = []) then fail ENOENT
     else if bool_decide (path = String.list_ascii_of_string "ptmx") then
       set_pty n (pty_new n);;
       set_resource n (PtyControlTerm n fl false false);;
       mret n
     else
       control_term_id ← ok_or EINVAL (parse_usize path);
       hs ← gets handles;
       handle ← ok_or ENOENT (hs !! control_term_id);
       match handle with
       | HSchemeRoot => fail ENOENT
       | HResource res =>
          set_resource n (PtySubTerm (res_pty res) (Z.lor fl fcntl_flags) false false);;
          mret n
       end
  end.

(** The resource that [dup] creates for a name. *)
Definition dup_resource (old : Resource) (buf : bytes) : option Resource :=
  let named name := bool_decide (buf = str_bytes name) in
  if named "pgrp" then Some (PtyPgrp (res_pty old) (res_flags old))
  else if named "termios" then Some (PtyTermios (res_pty old) (res_flags old))
  else if named "winsize" then Some (PtyWinsize (res_pty old) (res_flags old))
  else if named "ptlock" then Some (PtyLock (res_pty old) (res_flags old))
  else if named "ptsname" then Some (PtsName (res_pty old) (res_flags old))
  else None.

Definition dup (old_id : Z) (buf : bytes) : comp PtyScheme Z :=
  old ← get_resource_mut old_id;
  res ← ok_or EINVAL (dup_resource old buf);
  n ← fresh_id;
  set_resource n res;;
  mret n.

Definition read (h : Z) (buf : bytes) : comp PtyScheme (Z * bytes) :=
  r ← get_resource_mut h; res_read h r buf.

Definition write (h : Z) (buf : bytes) : comp PtyScheme Z :=
  r ← get_resource_mut h; res_write r buf.

Definition fcntl (h cmd arg : Z) : comp PtyScheme Z :=
  r ← get_resource_mut h; res_fcntl h r cmd arg.

Definition fevent (h : Z) : comp PtyScheme Z :=
  r ← get_resource_mut h; res_fevent h r.

Definition fpath (h : Z) (buf : bytes) (s : PtyScheme) : outcome nat * bytes :=
  match (get_resource_mut h s).1 with
  | Ok r => res_path r buf s
  | Err e => (Err e, buf)
  | Panic => (Panic, buf)
  end.

(** [st_mode], with the permissions [0o666]; the other fields keep their defaults. *)
Definition fstat (h : Z) : comp PtyScheme Z :=
  get_resource_mut h;; mret (Z.lor MODE_CHR 438).

Definition fsync (h : Z) : comp PtyScheme unit :=
  r ← get_resource_mut h; res_sync r.

(** Dropping a control terminal drops the only strong reference to its [Pty]. *)
Definition on_close (h : Z) : comp PtyScheme unit :=
  hs ← gets handles;
  modify (set_handles (delete h));;
  match hs !! h with
  | Some (HResource (PtyControlTerm l _ _ _)) => modify (set_heap (delete l))
  | _ => mret tt
  end.

(** ** [main.rs] *)

(** The [EventSource::Time] arm, up to polling the blocked requests: every resource
    in handle order gets the new count. *)
Fixpoint timeout_all (count : Z) (hs : list (Z * Handle)) : comp PtyScheme unit :=
  match hs with
  | [] => mret tt
  | (_, HResource r) :: hs => res_timeout r count;; timeout_all count hs
  | (_, HSchemeRoot) :: hs => timeout_all count hs
  end.

Definition tick (timeout_count : Z) : comp PtyScheme Z :=
  let count := wrap_usize (timeout_count + 1) in
  hs ← gets handles;
  timeout_all count (btree_iter hs);;
  mret count.

(** [issue_events]: the posted events in order.  A [write_response] that fails with an
    error panics. *)
Fixpoint issue_all (write_response : Z * Z → errno + bool) (hs : list (Z * Handle)) :
    comp PtyScheme (list (Z * Z)) :=
  match hs with
  | [] => mret []
  | (h, HResource r) :: hs =>
     ev ← res_events h r;
     if ev =? 0 then issue_all write_response hs
     else match write_response (h, ev) with
          | inl _ => panic
          | inr _ => posted ← issue_all write_response hs; mret ((h, ev) :: posted)
          end
  | (_, HSchemeRoot) :: hs => issue_all write_response hs
  end.

Definition issue_events (write_response : Z * Z → errno + bool) : comp PtyScheme (list (Z * Z)) :=
  hs ← gets handles;
  issue_all write_response (btree_iter hs).
End PtyScheme.

(** ** The 100 ms timer of [main.rs] *)

(** The carry loop of [timeout].  [tv_nsec] is an [i32], so after the addition it is
    below three seconds and three turns are enough. *)
Fixpoint carry (fuel : nat) (t : TimeSpec) : option TimeSpec :=
  match fuel with
  | O => None
  | S fuel =>
     if 1000000000 <=? tv_nsec t
     then carry fuel (mk_timespec (tv_sec t + 1) (tv_nsec t - 1000000000))
     else Some t
  end.

(** The time written back to the time scheme; [None] is an overflow of the [i32]. *)
Definition next_timeout (now : TimeSpec) : option TimeSpec :=
  if bool_decide (tv_nsec now + 100000000 ≤ 2147483647)
  then carry 4 (mk_timespec (tv_sec now) (tv_nsec now + 100000000))
  else None.

(** ** Invariant *)

Section Safety.
Context `{SyscallAbi} `{RedoxTermios}.

(** A live terminal: its id is its place in the store, the process group is a [u32],
    unread input has its timer running, and every output packet has its tag byte. *)
Record pty_ok (l : Z) (p : Pty) : Prop := {
  pty_ok_id : id p = l;
  pty_ok_pgrp : 0 ≤ pgrp p ≤ u32_max;
  pty_ok_timer : timer_ok p;
  pty_ok_tags : tagged p;
}.

(** The cells of the store are exactly the terminals whose control side is open, and
    no id was handed out twice. *)
Record ptys_inv (s : PtyScheme) : Prop := {
  ptys_next : 0 ≤ next_id s;
  ptys_ids h x : handles s !! h = Some x → 0 ≤ h < next_id s;
  ptys_weak h r : handles s !! h = Some (HResource r) → 0 ≤ res_pty r < next_id s;
  ptys_control h l fl nr nw :
    handles s !! h = Some (HResource (PtyControlTerm l fl nr nw)) →
    l = h ∧ is_Some (heap s !! h);
  ptys_heap l p :
    heap s !! l = Some p →
    pty_ok l p ∧ ∃ fl nr nw, handles s !! l = Some (HResource (PtyControlTerm l fl nr nw));
}.

Definition good {A} (r : outcome A) (s' : PtyScheme) : Prop := r ≠ Panic ∧ ptys_inv s'.

Lemma pty_good_err {A} e s : ptys_inv s → good (Err e : outcome A) s.
Proof. done. Qed.

Lemma pty_good_ok {A} (a : A) s : ptys_inv s → good (Ok a) s.
Proof. done. Qed.

Lemma ptys_new_inv : ptys_inv ptys_new.
Proof. split; cbn; [done|intros *; by rewrite lookup_empty..]. Qed.

Lemma pty_new_ok n : pty_ok n (pty_new n).
Proof. split; cbn; [done|ints|by intros []|constructor]. Qed.

(** The same resource with other flags. *)
Definition same_cell (r r' : Resource) : Prop :=
  res_pty r' = res_pty r ∧ is_control r' = is_control r.

Lemma inv_set_resource h r r' s :
  ptys_inv s → handles s !! h = Some (HResource r) → same_cell r r' →
  ptys_inv (set_handles (insert h (HResource r')) s).
Proof.
  intros [Hnn Hids Hweak Hctl Hheap] Hh [Hpty Hcon]. split; cbn; [done|..].
  - intros h' x [[<- _]|[_ ?]]%lookup_insert_Some; eauto.
  - intros h' r0 [[<- [= <-]]|[_ ?]]%lookup_insert_Some; eauto. rewrite Hpty. eauto.
  - intros h' l fl nr nw [[<- [= ->]]|[_ ?]]%lookup_insert_Some; eauto.
    destruct r; try done. cbn in *. subst. eauto.
  - intros l p Hl. destruct (Hheap l p Hl) as [Hok (fl & nr & nw & Hc)]. split; [done|].
    destruct (decide (h = l)) as [->|Hne]; [|rewrite lookup_insert_ne by done; eauto].
    rewrite lookup_insert_eq. simplify_eq. destruct r'; try done. cbn in *. subst. eauto.
Qed.

Lemma inv_set_pty l p p' s :
  ptys_inv s → heap s !! l = Some p → pty_ok l p' → ptys_inv (set_heap (insert l p') s).
Proof.
  intros [Hnn Hids Hweak Hctl Hheap] Hl Hok. split; cbn; [done..| |].
  - intros h l0 fl nr nw Hh. destruct (Hctl _ _ _ _ _ Hh) as [-> Hsome]. split; [done|].
    by apply lookup_insert_is_Some'; right.
  - intros l0 q [[<- <-]|[_ Hq]]%lookup_insert_Some; [|eauto].
    split; [done|]. by apply (Hheap l p).
Qed.

Lemma wp_upgrade {A} l (k : Pty → comp PtyScheme A) dead Q s :
  wp (upgrade l k dead) Q s ↔
  match heap s !! l with Some p => wp (k p) Q s | None => wp dead Q s end.
Proof.
  unfold upgrade. rewrite wp_bind. unfold wp at 1, gets. cbn.
  by destruct (heap s !! l).
Qed.

(** An operation that only changes the cell of a resource. *)
Lemma upgrade_good {A} l (k : Pty → comp PtyScheme A) dead s :
  ptys_inv s → wp dead good s →
  (∀ p, heap s !! l = Some p → pty_ok l p → wp (k p) good s) →
  wp (upgrade l k dead) good s.
Proof.
  intros Hinv Hdead Hk. apply wp_upgrade. destruct (heap s !! l) as [p|] eqn:Hl; [|done].
  apply Hk; [done|]. by apply (ptys_heap s Hinv).
Qed.

Lemma set_pty_good {A} l p p' (a : A) s :
  ptys_inv s → heap s !! l = Some p → pty_ok l p' →
  wp (set_pty l p';; mret a) good s.
Proof. intros. unfold set_pty. wp_go. apply pty_good_ok. by eapply inv_set_pty. Qed.

Lemma config_ok l p p' :
  pty_ok l p → config p' = config p → timer_ok p' → tagged p' → pty_ok l p'.
Proof.
  intros [Hid Hpg _ _] Hc Ht Htag. unfold config in Hc. simplify_eq.
  split; [congruence| |done|done]. congruence.
Qed.

Lemma update_ok l p : pty_ok l p → pty_ok l (update p).
Proof.
  intros Hp. apply (config_ok l p); [done|apply update_config|apply update_timer, Hp|].
  unfold tagged. rewrite update_miso. apply Hp.
Qed.

Lemma input_ok l buf p : pty_ok l p → pty_ok l (input buf p).
Proof.
  intros Hp. apply (config_ok l p);
    [done|apply input_config|apply input_timer, Hp|apply input_tagged, Hp].
Qed.

Lemma timeout_ok l count p : pty_ok l p → pty_ok l (timeout count p).
Proof.
  intros [? ? ? ?]. unfold timeout. case_bool_decide; [|done]. apply update_ok. by split.
Qed.

Lemma copy_loop_spec dst src :
  let n := Nat.min (length dst) (length src) in
  copy_loop dst src = (Z.of_nat n, take n src ++ drop n dst).
Proof.
  revert src. induction dst as [|x dst IH]; intros [|y src]; [done..|]. cbn.
  rewrite IH. by rewrite Nat2Z.inj_succ.
Qed.

Lemma u32_of_bytes_range l x : Forall is_u8 l → u32_of_bytes l = Some x → 0 ≤ x ≤ u32_max.
Proof.
  intros Hl. unfold u32_of_bytes. repeat case_match; intros [= <-].
  repeat match goal with Hx : Forall _ (_ :: _) |- _ => apply Forall_cons in Hx as [? Hx] end. ints.
Qed.

(** A packet that is not read to its end keeps its tag. *)
Lemma miso_tail_ok l p packet rest (i : Z) :
  pty_ok l p → miso p = packet :: rest →
  pty_ok l (set_miso (if bool_decide (i < Z.of_nat (length packet))
    then (hd 0 packet :: drop (Z.to_nat i) packet) :: rest else rest) p).
Proof.
  intros [? ? ? Htag] Hm. split; [done..|]. unfold tagged in *. rewrite Hm in Htag.
  apply Forall_cons in Htag as [_ Hrest]. cbn. case_bool_decide; [by constructor|done].
Qed.

Lemma wp_strong l p Q s : heap s !! l = Some p → Q (Ok p) s → wp (strong l) Q s.
Proof. intros Hl HQ. unfold strong. wp_step. wp_step. rewrite Hl. by wp_step. Qed.

Lemma res_read_good h r buf s :
  ptys_inv s → handles s !! h = Some (HResource r) → wp (res_read h r buf) good s.
Proof.
  intros Hinv Hh.
  assert (∀ r', same_cell r r' → ptys_inv (set_handles (insert h (HResource r')) s)) as Hset
    by eauto using inv_set_resource.
  destruct r; unfold res_read, control_term_read, sub_term_read, pgrp_read, termios_read, winsize_read, lock_read, ptsname_read.
  - destruct (ptys_control s Hinv _ _ _ _ _ Hh) as [-> [p Hp]].
    unfold set_resource. do 3 wp_step. apply (wp_strong _ p); [done|].
    pose proof (Hset (PtyControlTerm h flags false notified_write) (conj eq_refl eq_refl)) as Hinv'.
    destruct (miso p) as [|packet rest] eqn:Hm.
    + do 2 wp_step. destruct (_ || _); by apply pty_good_err.
    + destruct (copy_loop buf packet) as [i buf'].
      eapply set_pty_good; [done|done|]. apply miso_tail_ok; [|done]. by apply (ptys_heap s Hinv).
  - unfold set_resource. do 2 wp_step.
    apply upgrade_good; [by apply Hset|apply pty_good_ok; by apply Hset|]. cbn. intros p Hp Hok.
    destruct (mosi (update p)) as [|packet rest].
    + wp_step. unfold set_pty. wp_step.
      assert (ptys_inv (set_heap (insert pty (update p))
        (set_handles (insert h (HResource (PtySubTerm pty flags false notified_write))) s))).
      { eapply inv_set_pty; [by apply Hset|done|by apply update_ok]. }
      case_match; by apply pty_good_err.
    + destruct (copy_loop buf packet) as [i buf']. eapply set_pty_good; [by apply Hset|done|].
      destruct (update_ok _ _ Hok). by split.
  - apply upgrade_good; [done|by apply pty_good_ok|]. intros p Hp Hok. by wp_go.
  - apply upgrade_good; [done|by apply pty_good_ok|]. intros p Hp Hok. by wp_go.
  - apply upgrade_good; [done|by apply pty_good_ok|]. intros p Hp Hok. by wp_go.
  - apply upgrade_good; [done|by apply pty_good_ok|]. intros p Hp Hok. by wp_go.
  - apply upgrade_good; [done|by apply pty_good_err|]. intros p Hp Hok. by wp_go.
Qed.

Lemma res_write_good h r buf s :
  ptys_inv s → handles s !! h = Some (HResource r) → Forall is_u8 buf →
  wp (res_write r buf) good s.
Proof.
  intros Hinv Hh Hbuf. destruct r; unfold res_write, control_term_write, sub_term_write, pgrp_write, termios_write, winsize_write, lock_write.
  - destruct (ptys_control s Hinv _ _ _ _ _ Hh) as [-> [p Hp]].
    wp_step. apply (wp_strong _ p); [done|]. case_bool_decide; [by apply pty_good_err|].
    eapply set_pty_good; [done|done|]. apply input_ok. by apply (ptys_heap s Hinv).
  - apply upgrade_good; [done|by apply pty_good_err|]. intros p Hp [? ? ? ?].
    case_bool_decide; [by apply pty_good_err|]. eapply set_pty_good; [done|done|]. split; [done..|].
    unfold output, tagged. cbn. apply Forall_app_2; [done|by constructor].
  - apply upgrade_good; [done|by apply pty_good_err|]. intros p Hp [? ? ? ?].
    wp_step. wp_step; [|by apply pty_good_err]. eapply set_pty_good; [done|done|].
    split; [done|by eapply u32_of_bytes_range|done|done].
  - apply upgrade_good; [done|by apply pty_good_err|]. intros p Hp [? ? ? ?].
    destruct (copy_loop _ buf). eapply set_pty_good; [done|done|]. by split.
  - apply upgrade_good; [done|by apply pty_good_err|]. intros p Hp [? ? ? ?].
    destruct (copy_loop _ buf). eapply set_pty_good; [done|done|]. by split.
  - apply upgrade_good; [done|by apply pty_good_ok|]. intros p Hp [? ? ? ?].
    wp_step. wp_step; [|by apply pty_good_err]. eapply set_pty_good; [done|done|]. by split.
  - by apply pty_good_err.
Qed.

Lemma set_resource_good {A} h r r' (a : A) s :
  ptys_inv s → handles s !! h = Some (HResource r) → same_cell r r' →
  wp (set_resource h r';; mret a) good s.
Proof. intros. unfold set_resource. wp_go. apply pty_good_ok. by eapply inv_set_resource. Qed.

Lemma res_sync_good r s : ptys_inv s → wp (res_sync r) good s.
Proof.
  intros Hinv. destruct r; try by apply pty_good_ok. unfold res_sync, sub_term_sync.
  apply upgrade_good; [done|by apply pty_good_err|]. intros p Hp [? ? ? ?]. apply pty_good_ok.
  eapply inv_set_pty; [done|done|]. split; [done..|]. apply Forall_app_2; [done|by constructor].
Qed.

Lemma res_fcntl_good h r cmd arg s :
  ptys_inv s → handles s !! h = Some (HResource r) → wp (res_fcntl h r cmd arg) good s.
Proof.
  intros Hinv Hh. unfold res_fcntl. case_bool_decide; [by apply pty_good_ok|].
  case_bool_decide; [|by apply pty_good_err]. eapply set_resource_good; [done..|]. by destruct r.
Qed.

(** The only handle that [events] touches is its own. *)
Lemma res_events_wp h r0 r s (Q : outcome Z → PtyScheme → Prop) :
  ptys_inv s → handles s !! h = Some (HResource r0) → same_cell r0 r →
  (∀ ev s', ptys_inv s' → next_id s' = next_id s → (∀ h', h' ≠ h → handles s' !! h' = handles s !! h') →
     Q (Ok ev) s') →
  wp (res_events h r) Q s.
Proof.
  intros Hinv Hh [Hpty Hcon] HQ.
  assert (∀ ev r', same_cell r0 r' → wp (set_resource h r';; mret ev) Q s) as Hset.
  { intros ev r' Hr'. unfold set_resource. wp_go. apply HQ; [by eapply inv_set_resource|done|].
    intros h' Hne. cbn. by rewrite lookup_insert_ne. }
  destruct r; unfold res_events, control_term_events, sub_term_events; try by apply HQ.
  - destruct r0; try done. cbn in Hpty. subst.
    destruct (ptys_control s Hinv _ _ _ _ _ Hh) as [-> [p Hp]].
    wp_step. apply (wp_strong _ p); [done|]. destruct (notify _ _ _) as [[ev nr] nw]. by apply Hset.
  - do 2 wp_step. destruct (notify _ _ _) as [[ev nr] nw]. by apply Hset.
Qed.

Lemma res_fevent_good h r s :
  ptys_inv s → handles s !! h = Some (HResource r) → wp (res_fevent h r) good s.
Proof.
  intros Hinv Hh. destruct r; try by apply pty_good_err; unfold res_fevent.
  all: eapply res_events_wp; [done|done|done|]; intros; by apply pty_good_ok.
Qed.

Lemma timeout_all_good count hs s :
  ptys_inv s → (∀ h x, (h, x) ∈ hs → handles s !! h = Some x) →
  wp (timeout_all count hs) (λ r s', r = Ok tt ∧ ptys_inv s') s.
Proof.
  revert s. induction hs as [|[h [r|]] hs IH]; intros s Hinv Hin; cbn [timeout_all]; [done| |].
  2:{ apply IH; [done|]. intros; apply Hin; by right. }
  assert (handles s !! h = Some (HResource r)) as Hh by (apply Hin; by left).
  wp_step. destruct r; unfold res_timeout; wp_step; try (apply IH; [done|]; intros; apply Hin; by right).
  destruct (ptys_control s Hinv _ _ _ _ _ Hh) as [-> [p Hp]].
  apply (wp_strong _ p); [done|]. apply wp_modify. apply IH.
  - eapply inv_set_pty; [done|done|]. apply timeout_ok. by apply (ptys_heap s Hinv).
  - cbn. intros; apply Hin; by right.
Qed.

Lemma issue_all_good write_response hs s :
  (∀ ev, ∃ b, write_response ev = inr b) → NoDup hs.*1 →
  ptys_inv s → (∀ h x, (h, x) ∈ hs → handles s !! h = Some x) →
  wp (issue_all write_response hs) good s.
Proof.
  intros Hsock. revert s. induction hs as [|[h [r|]] hs IH]; intros s Hnd Hinv Hin;
    cbn [issue_all]; [by apply pty_good_ok| |].
  2:{ apply NoDup_cons in Hnd as [_ Hnd]. apply IH; [done|done|]. intros; apply Hin; by right. }
  apply NoDup_cons in Hnd as [Hnotin Hnd].
  wp_step. eapply (res_events_wp h r r); [done|by apply Hin; left|done|].
  intros ev s' Hinv' _ Hframe.
  assert (wp (issue_all write_response hs) good s') as Hrest.
  { apply IH; [done|done|]. intros h' x Hx. rewrite Hframe; [apply Hin; by right|].
    intros ->. apply Hnotin. by apply (list_elem_of_fmap_2 fst hs (h, x)). }
  case_match; [done|]. destruct (Hsock (h, ev)) as [b ->]. wp_step.
  eapply wp_mono; [exact Hrest|]. intros [posted|e|] s'' [? ?]; [by wp_go|done|done].
Qed.

Definition bumped (s : PtyScheme) : PtyScheme := mk_ptys (next_id s + 1) (handles s) (heap s).

Lemma inv_bumped s : ptys_inv s → ptys_inv (bumped s).
Proof.
  intros [Hnn Hids Hweak Hctl Hheap]. split; cbn; [lia| | |done|done].
  - intros h x Hx%Hids. lia.
  - intros h r Hr%Hweak. lia.
Qed.

Lemma wp_fresh_id s Q :
  next_id s < usize_max → Q (Ok (next_id s)) (bumped s) → wp fresh_id Q s.
Proof.
  intros Hroom HQ. unfold fresh_id. do 3 wp_step. apply wp_add_usize; [lia|]. by wp_go.
Qed.

Lemma ptys_fresh s : ptys_inv s → handles s !! next_id s = None ∧ heap s !! next_id s = None.
Proof.
  intros Hinv. assert (handles s !! next_id s = None) as Hnone.
  { apply eq_None_not_Some. intros [x Hx%(ptys_ids s Hinv)]. lia. }
  split; [done|]. apply eq_None_not_Some.
  intros [p (_ & fl & nr & nw & Hc)%(ptys_heap s Hinv)]. congruence.
Qed.

(** A new handle that is not a control terminal. *)
Lemma inv_add_handle x s :
  ptys_inv s →
  match x with
  | HSchemeRoot => True
  | HResource r => is_control r = false ∧ 0 ≤ res_pty r < next_id s
  end →
  ptys_inv (set_handles (insert (next_id s) x) (bumped s)).
Proof.
  intros Hinv Hx. destruct (ptys_fresh s Hinv) as [Hnh Hnheap].
  destruct (inv_bumped s Hinv) as [Hnn' Hids Hweak Hctl Hheap].
  pose proof (ptys_next s Hinv) as Hnn. split; cbn in *; [lia|..].
  - intros h y [[<- _]|[_ ?]]%lookup_insert_Some; eauto. lia.
  - intros h r [[<- ->]|[_ ?]]%lookup_insert_Some; eauto. lia.
  - intros h l fl nr nw [[<- ->]|[_ ?]]%lookup_insert_Some; [|by eauto]. by destruct Hx.
  - intros l p Hl. destruct (Hheap l p Hl) as [? Hc]. split; [done|].
    rewrite lookup_insert_ne; [done|]. intros <-. congruence.
Qed.

(** A new control terminal with its cell. *)
Lemma inv_add_control fl s :
  ptys_inv s →
  ptys_inv (set_handles (insert (next_id s) (HResource (PtyControlTerm (next_id s) fl false false)))
    (set_heap (insert (next_id s) (pty_new (next_id s))) (bumped s))).
Proof.
  intros Hinv. destruct (inv_bumped s Hinv) as [Hnn' Hids Hweak Hctl Hheap].
  pose proof (ptys_next s Hinv) as Hnn. split; cbn in *; [lia|..].
  - intros h y [[<- _]|[_ ?]]%lookup_insert_Some; eauto. lia.
  - intros h r [[<- [= <-]]|[_ ?]]%lookup_insert_Some; eauto. cbn. lia.
  - intros h l fl' nr nw [[<- [= <- _ _ _]]|[Hne Hh]]%lookup_insert_Some.
    + split; [done|]. rewrite lookup_insert_eq. eauto.
    + rewrite lookup_insert_ne by done. eauto.
  - intros l p [[<- <-]|[Hne Hl]]%lookup_insert_Some.
    + split; [apply pty_new_ok|]. rewrite lookup_insert_eq. eauto.
    + rewrite lookup_insert_ne by done. eauto.
Qed.

Lemma inv_close h s : ptys_inv s → wp (on_close h) (λ r s', r = Ok tt ∧ ptys_inv s') s.
Proof.
  intros [Hnn Hids Hweak Hctl Hheap]. unfold on_close. do 4 wp_step.
  assert (∀ l p, l ≠ h → heap s !! l = Some p →
    pty_ok l p ∧ ∃ fl nr nw,
      delete h (handles s) !! l = Some (HResource (PtyControlTerm l fl nr nw))) as Hother.
  { intros l p Hne Hl. rewrite lookup_delete_ne by done. eauto. }
  destruct (handles s !! h) as [[[l fl nr nw| | | | | |]|]|] eqn:Hh; wp_go; (split; [done|]).
  1:{ destruct (Hctl _ _ _ _ _ Hh) as [-> _]. split; cbn; [done|..].
      - intros h' x [_ ?]%lookup_delete_Some. eauto.
      - intros h' r [_ ?]%lookup_delete_Some. eauto.
      - intros h' l fl' nr' nw' [Hne ?]%lookup_delete_Some. rewrite lookup_delete_ne by done. eauto.
      - intros l p [Hne Hl]%lookup_delete_Some. eauto. }
  all: split; cbn; [done|..].
  all: try (intros h' x [_ ?]%lookup_delete_Some; by eauto).
  all: try (intros h' l0 fl' nr' nw' [_ ?]%lookup_delete_Some; by eauto).
  all: intros l p Hl; apply Hother; [|done]; intros ->;
    destruct (Hheap _ _ Hl) as (_ & ? & ? & ? & Hc); congruence.
Qed.

Lemma get_resource_good {A} h (k : Resource → comp PtyScheme A) s :
  ptys_inv s →
  (∀ r, handles s !! h = Some (HResource r) → wp (k r) good s) →
  wp (r ← get_resource_mut h; k r) good s.
Proof.
  intros Hinv Hk. unfold get_resource_mut. do 4 wp_step.
  destruct (handles s !! h) as [[r|]|]; wp_go; [|by apply pty_good_err..]. by apply Hk.
Qed.

Lemma pty_openat_good dirfd path fl ffl s :
  ptys_inv s → next_id s < usize_max → wp (openat dirfd path fl ffl) good s.
Proof.
  intros Hinv Hroom. unfold openat. do 3 wp_step.
  destruct (handles s !! dirfd) as [[r|]|]; wp_step; try by apply pty_good_err.
  wp_step. apply wp_fresh_id; [done|]. pose proof (inv_bumped s Hinv) as Hb.
  case_bool_decide; [by apply pty_good_err|]. case_bool_decide.
  { unfold set_pty, set_resource. wp_go. apply pty_good_ok. by apply inv_add_control. }
  wp_step. wp_step; [|by apply pty_good_err]. do 3 wp_step. cbn.
  destruct (handles s !! _) as [[r|]|] eqn:Hr; wp_step; try by apply pty_good_err.
  unfold set_resource. wp_go. apply pty_good_ok. apply (inv_add_handle (HResource _)); [done|].
  split; [done|]. apply (ptys_weak s Hinv _ _ Hr).
Qed.

Lemma pty_dup_good old buf s :
  ptys_inv s → next_id s < usize_max → wp (dup old buf) good s.
Proof.
  intros Hinv Hroom. unfold dup. apply get_resource_good; [done|]. intros r Hr.
  wp_step. destruct (dup_resource r buf) as [r'|] eqn:Hd; wp_step; [|by apply pty_good_err].
  wp_step. apply wp_fresh_id; [done|]. unfold set_resource. wp_go. apply pty_good_ok.
  apply (inv_add_handle (HResource r')); [done|]. pose proof (ptys_weak s Hinv _ _ Hr).
  unfold dup_resource in Hd. repeat case_bool_decide; by simplify_eq/=.
Qed.
End Safety.

(** ** Requests *)

Inductive pty_op :=
  | OpRoot
  | OpOpenat (dirfd : Z) (path : string) (fl fcntl_flags : Z)
  | OpDup (old_id : Z) (buf : bytes)
  | OpRead (h : Z) (buf : bytes)
  | OpWrite (h : Z) (buf : bytes)
  | OpFcntl (h cmd arg : Z)
  | OpFevent (h : Z)
  | OpFsync (h : Z)
  | OpClose (h : Z)
  | OpTick (timeout_count : Z)
  | OpIssue.

Section Run.
Context `{SyscallAbi} `{RedoxTermios} (write_response : Z * Z → errno + bool).

Definition pty_step (op : pty_op) : comp PtyScheme unit :=
  match op with
  | OpRoot => scheme_root;; mret tt
  | OpOpenat dirfd path fl ffl => openat dirfd path fl ffl;; mret tt
  | OpDup old buf => dup old buf;; mret tt
  | OpRead h buf => read h buf;; mret tt
  | OpWrite h buf => write h buf;; mret tt
  | OpFcntl h cmd arg => fcntl h cmd arg;; mret tt
  | OpFevent h => fevent h;; mret tt
  | OpFsync h => fsync h
  | OpClose h => on_close h
  | OpTick count => tick count;; mret tt
  | OpIssue => issue_events write_response;; mret tt
  end.

(** What is written is bytes. *)
Definition op_ok (op : pty_op) : Prop :=
  match op with OpWrite _ buf => Forall is_u8 buf | _ => True end.

Lemma pty_step_good op s :
  (∀ ev, ∃ b, write_response ev = inr b) →
  ptys_inv s → next_id s < usize_max → op_ok op → wp (pty_step op) good s.
Proof.
  intros Hsock Hinv Hroom Hop.
  assert (∀ A (m : comp PtyScheme A), wp m good s → wp (m;; mret tt) good s) as Hseq.
  { intros A m Hm. wp_step. eapply wp_mono; [exact Hm|].
    intros [a|e|] s' [? ?]; cbn; [by wp_go|done|done]. }
  destruct op; cbn [pty_step]; try apply Hseq.
  - unfold scheme_root. wp_step. apply wp_fresh_id; [done|]. wp_go. apply pty_good_ok. by apply inv_add_handle.
  - by apply pty_openat_good.
  - by apply pty_dup_good.
  - apply get_resource_good; [done|]. intros r Hr. by apply res_read_good.
  - apply get_resource_good; [done|]. intros r Hr. by eapply res_write_good.
  - apply get_resource_good; [done|]. intros r Hr. by apply res_fcntl_good.
  - apply get_resource_good; [done|]. intros r Hr. by apply res_fevent_good.
  - apply get_resource_good; [done|]. intros r Hr. by apply res_sync_good.
  - eapply wp_mono; [by apply inv_close|]. intros r s' [-> ?]. by apply pty_good_ok.
  - unfold tick. do 3 wp_step. eapply wp_mono; [apply timeout_all_good; [done|]|].
    + intros h x. apply elem_of_btree_iter.
    + intros r s' [-> ?]. by apply pty_good_ok.
  - unfold issue_events. do 2 wp_step. apply issue_all_good; [done|apply btree_iter_NoDup|done|].
    intros h x. apply elem_of_btree_iter.
Qed.

(** States after any sequence of requests, timer ticks and event rounds. *)
Inductive pty_reachable : PtyScheme → Prop :=
  | pty_reach_init : pty_reachable ptys_new
  | pty_reach_step s op r s' :
     pty_reachable s → next_id s < usize_max → op_ok op →
     pty_step op s = (r, s') → pty_reachable s'.
End Run.

(** ** Properties *)

(** C40. Safety of the terminal scheme.  In every reachable state each open control
    terminal owns exactly one live [Pty] and every live [Pty] has its control terminal,
    unread input has its timer running, and no request, tick or event round panics as
    long as the socket accepts events and ids last; in particular a weak reference can
    never reach another terminal than the one it was made for. *)
Theorem pty_never_panics `{SyscallAbi} `{RedoxTermios} write_response s op :
  (∀ ev, ∃ b, write_response ev = inr b) →
  pty_reachable write_response s → next_id s < usize_max → op_ok op →
  ptys_inv s ∧ (pty_step write_response op s).1 ≠ Panic.
Proof.
  intros Hsock Hreach Hroom Hop.
  assert (ptys_inv s) as Hinv.
  { clear Hroom Hop op. induction Hreach as [|s op r s' _ IH Hroom Hop Hstep].
    - apply ptys_new_inv.
    - apply (wp_eq _ good _ _ _ Hstep). by apply pty_step_good. }
  split; [done|]. apply (pty_step_good write_response op s Hsock Hinv Hroom Hop).
Qed.

(** *** The byte stream from the control to the subordinate side *)

Section Stream.
Context `{SyscallAbi} `{RedoxTermios}.

Inductive term_op := MWrite (data : bytes) | SRead (n : nat).

(** Writes on the control terminal [c] and reads on the subordinate terminal [t]: the
    bytes accepted and the bytes delivered. *)
Fixpoint term_run (c t : Z) (ops : list term_op) : comp PtyScheme (bytes * bytes) :=
  match ops with
  | [] => mret ([], [])
  | MWrite data :: ops =>
     n ← attempt (write c data);
     '(w, r) ← term_run c t ops;
     mret (match n with Some n => take (Z.to_nat n) data | None => [] end ++ w, r)
  | SRead n :: ops =>
     got ← attempt (read t (replicate n 0));
     '(w, r) ← term_run c t ops;
     mret (w, match got with Some (k, out) => take (Z.to_nat k) out | None => [] end ++ r)
  end.

(** [c] is the control terminal of [p] and [t] a subordinate one. *)
Definition linked (c t : Z) (p : Pty) (s : PtyScheme) : Prop :=
  (∃ fl nr nw, handles s !! c = Some (HResource (PtyControlTerm c fl nr nw))) ∧
  (∃ fl nr nw, handles s !! t = Some (HResource (PtySubTerm c fl nr nw))) ∧
  heap s !! c = Some p.

Lemma get_resource_run {A} h r (k : Resource → comp PtyScheme A) s :
  handles s !! h = Some (HResource r) → (r ← get_resource_mut h; k r) s = k r s.
Proof.
  intros Hh. unfold get_resource_mut, gets, ok_or, mbind, comp_bind. by rewrite Hh.
Qed.

Lemma linked_set_pty c t p p' s :
  linked c t p s → linked c t p' (set_heap (insert c p') s).
Proof. intros (? & ? & ?). split_and!; [done..|]. apply lookup_insert_eq. Qed.

Lemma write_control_run c t p data s :
  linked c t p s →
  attempt (write c data) s =
    if bool_decide (64 ≤ length (mosi p))%nat then (Ok None, s)
    else (Ok (Some (Z.of_nat (length data))), set_heap (insert c (input data p)) s).
Proof.
  intros ((fl & nr & nw & Hc) & _ & Hp). unfold attempt, write.
  rewrite (get_resource_run _ _ _ _ Hc). unfold res_write, control_term_write, sub_term_write, pgrp_write, termios_write, winsize_write, lock_write, strong, gets, mbind, comp_bind.
  rewrite Hp. cbn. by case_bool_decide.
Qed.

Lemma read_sub_run c t p buf s :
  linked c t p s →
  ∃ got s' p', attempt (read t buf) s = (Ok got, s') ∧ linked c t p' s' ∧ config p' = config p ∧
    pending p =
      match got with Some (k, out) => take (Z.to_nat k) out | None => [] end ++ pending p'.
Proof.
  intros (Hc & (fl & nr & nw & Ht) & Hp).
  set (s1 := set_handles (insert t (HResource (PtySubTerm c fl false nw))) s).
  assert (linked c t p s1) as Hl1.
  { destruct Hc as (flc & nrc & nwc & Hc). split_and!; [|eexists _, _, _; apply lookup_insert_eq|done].
    eexists _, _, _. cbn. rewrite lookup_insert_ne; [done|]. intros ->. congruence. }
  unfold attempt, read. rewrite (get_resource_run _ _ _ _ Ht).
  unfold res_read, control_term_read, sub_term_read, pgrp_read, termios_read, winsize_read, lock_read, ptsname_read, set_resource, upgrade, modify, gets, mbind, comp_bind. cbn [heap set_handles].
  rewrite Hp. rewrite <- (update_pending p). pose proof (update_config p) as Hconf.
  destruct (mosi (update p)) as [|packet rest] eqn:Hm.
  - exists None, (set_heap (insert c (update p)) s1), (update p).
    split; [by destruct (has_flag fl O_NONBLOCK)|]. by eauto using linked_set_pty.
  - rewrite copy_loop_spec. set (n := Nat.min (length buf) (length packet)).
    eexists (Some _), _, _. split; [done|]. split; [by eapply linked_set_pty|]. split; [done|].
    rewrite Nat2Z.id, take_app_le, take_take, Nat.min_id by len_lia.
    unfold pending. rewrite Hm. cbn. case_bool_decide; cbn.
    + by rewrite <- (app_assoc (drop n packet)), (app_assoc (take n packet)), take_drop, app_assoc.
    + rewrite (take_ge packet) by lia. by rewrite app_assoc.
Qed.

(** Input is a FIFO.  For any interleaving of writes at the control terminal and
    reads at the subordinate one, in raw mode, the bytes delivered followed by the bytes
    still pending are the bytes that were pending followed by the translated bytes
    accepted.  NUL bytes are not delivered (nor carriage returns under IGNCR), since
    0 also marks a consumed byte. *)
Theorem pty_input_fifo c t ops p s :
  linked c t p s → raw_mode (termios p) →
  ∃ w r s' p', term_run c t ops s = (Ok (w, r), s') ∧ linked c t p' s' ∧ config p' = config p ∧
    r ++ pending p' =
      pending p ++ filter (λ b, b ≠ 0) (translate (termios p) <$> w).
Proof.
  revert p s. induction ops as [|[data|n] ops IH]; intros p s Hl Hraw; cbn [term_run].
  - exists [], [], s, p. by rewrite app_nil_r.
  - unfold mbind, comp_bind. rewrite (write_control_run c t p) by done.
    case_bool_decide.
    + destruct (IH p s Hl Hraw) as (w & r & s' & p' & -> & ? & ? & Heq). by exists w, r, s', p'.
    + pose proof (input_config data p) as Hc.
      assert (termios (input data p) = termios p) as Ht by (unfold config in Hc; congruence).
      destruct (IH (input data p) (set_heap (insert c (input data p)) s))
        as (w & r & s' & p' & -> & ? & Hc' & Heq); [by eapply linked_set_pty|by rewrite Ht|].
      exists (data ++ w), r, s', p'.
      rewrite Nat2Z.id, take_ge by lia. split_and!; [done|done|congruence|].
      rewrite Heq, Ht, raw_input_pending by done. by rewrite fmap_app, list.filter_app, app_assoc.
  - destruct (read_sub_run c t p (replicate n 0) s Hl) as (got & s1 & p1 & Hrun & Hl1 & Hc1 & Hp).
    unfold mbind, comp_bind. rewrite Hrun.
    assert (termios p1 = termios p) as Ht by (unfold config in Hc1; congruence).
    destruct (IH p1 s1 Hl1) as (w & r & s' & p' & -> & ? & Hc' & Heq); [by rewrite Ht|].
    eexists w, _, s', p'. split_and!; [done|done|congruence|].
    by rewrite <- app_assoc, Heq, Hp, Ht, app_assoc.
Qed.

(** *** The byte stream from the subordinate to the control side *)

Inductive out_op := SWrite (data : bytes) | MRead (n : nat).

(** The payload of the packets under way. *)
Definition outgoing (p : Pty) : bytes := concat (tail <$> miso p).

(** Writes on [t] and reads on [c], which deliver a tag byte and a payload. *)
Fixpoint out_run (c t : Z) (ops : list out_op) : comp PtyScheme (bytes * bytes) :=
  match ops with
  | [] => mret ([], [])
  | SWrite data :: ops =>
     n ← attempt (write t data);
     '(w, r) ← out_run c t ops;
     mret (match n with Some n => take (Z.to_nat n) data | None => [] end ++ w, r)
  | MRead n :: ops =>
     got ← attempt (read c (replicate n 0));
     '(w, r) ← out_run c t ops;
     mret (w, match got with Some (k, out) => tail (take (Z.to_nat k) out) | None => [] end ++ r)
  end.

Lemma write_sub_run c t p data s :
  linked c t p s →
  attempt (write t data) s =
    if bool_decide (64 ≤ length (miso p))%nat then (Ok None, s)
    else (Ok (Some (Z.of_nat (length data))), set_heap (insert c (output data p)) s).
Proof.
  intros (_ & (fl & nr & nw & Ht) & Hp). unfold attempt, write.
  rewrite (get_resource_run _ _ _ _ Ht). unfold res_write, control_term_write, sub_term_write, pgrp_write, termios_write, winsize_write, lock_write, upgrade, gets, mbind, comp_bind.
  rewrite Hp. cbn. by case_bool_decide.
Qed.

Lemma output_outgoing data p : outgoing (output data p) = outgoing p ++ output_post (termios p) data.
Proof. unfold outgoing, output. cbn. rewrite fmap_app, concat_app; cbn; rewrite app_nil_r. done. Qed.

Lemma output_tagged data p : tagged p → tagged (output data p).
Proof. apply (echo_if_tagged true). Qed.

(** One read of the control terminal: the first packet, or what fits of it. *)
Definition control_read (buf : bytes) (p : Pty) (got : option (Z * bytes)) (p' : Pty) : Prop :=
  match miso p with
  | [] => got = None ∧ p' = p
  | packet :: rest =>
     let n := Nat.min (length buf) (length packet) in
     got = Some (Z.of_nat n, take n packet ++ drop n buf) ∧
     miso p' = if bool_decide (n < length packet)%nat
               then (hd 0 packet :: drop n packet) :: rest else rest
  end.

Lemma read_control_run c t p buf s :
  linked c t p s →
  ∃ got s' p', attempt (read c buf) s = (Ok got, s') ∧ linked c t p' s' ∧ config p' = config p ∧
    control_read buf p got p'.
Proof.
  intros ((fl & nr & nw & Hc) & Ht & Hp).
  set (s1 := set_handles (insert c (HResource (PtyControlTerm c fl false nw))) s).
  assert (linked c t p s1) as Hl1.
  { destruct Ht as (flt & nrt & nwt & Ht). split_and!; [eexists _, _, _; apply lookup_insert_eq| |done].
    eexists _, _, _. cbn. rewrite lookup_insert_ne; [done|]. intros ->. congruence. }
  unfold attempt, read. rewrite (get_resource_run _ _ _ _ Hc).
  unfold res_read, control_term_read, sub_term_read, pgrp_read, termios_read, winsize_read, lock_read, ptsname_read, set_resource, strong, modify, gets, get, expect, mbind, comp_bind.
  cbn [heap set_handles]. rewrite Hp. cbn [mret comp_ret].
  unfold control_read. destruct (miso p) as [|packet rest] eqn:Hm.
  - exists None, s1, p. split; [|done]. fold s1. by destruct (_ || _).
  - rewrite copy_loop_spec. set (n := Nat.min (length buf) (length packet)).
    eexists (Some _), _, _. split; [done|]. split; [by eapply linked_set_pty|]. split; [done|].
    split; [done|]. cbn. rewrite Nat2Z.id.
    repeat case_bool_decide; try done; lia.
Qed.

(** A buffer of at least two bytes makes progress and cuts a packet correctly. *)
Lemma control_read_payload buf p got p1 :
  (2 ≤ length buf)%nat → tagged p → control_read buf p got p1 →
  tagged p1 ∧
  outgoing p = match got with Some (k, out) => tail (take (Z.to_nat k) out) | None => [] end
               ++ outgoing p1.
Proof.
  intros Hbuf Htag. unfold control_read, tagged, outgoing in *.
  destruct (miso p) as [|packet rest] eqn:Hm; [intros [-> ->]; by rewrite Hm|].
  apply Forall_cons in Htag as [Hne Hrest]. destruct packet as [|tag data]; [done|].
  set (n := Nat.min (length buf) (length (tag :: data))).
  assert (n = S (pred n)) as Hn by (subst n; cbn; lia).
  assert (n ≤ length (tag :: data))%nat as Hle by lia.
  intros [-> ->]. rewrite Nat2Z.id, take_app_le, take_take, Nat.min_id by (rewrite length_take; lia).
  rewrite Hn. cbn. case_bool_decide as Hlt; (split; [try done; by constructor|]); cbn.
  - by rewrite app_assoc, take_drop.
  - by rewrite take_ge by lia.
Qed.

(** Output is a FIFO.  For any interleaving of writes at the subordinate terminal
    and reads of at least two bytes at the control terminal, the payload delivered
    followed by the payload under way is the payload that was under way followed by the
    post-processed bytes accepted, however the packets are cut. *)
Theorem pty_output_fifo c t ops p s :
  linked c t p s → tagged p → Forall (λ op, match op with MRead n => (2 ≤ n)%nat | _ => True end) ops →
  ∃ w r s' p', out_run c t ops s = (Ok (w, r), s') ∧ linked c t p' s' ∧
    r ++ outgoing p' = outgoing p ++ output_post (termios p) w.
Proof.
  revert p s. induction ops as [|[data|n] ops IH]; intros p s Hl Htag Hops; cbn [out_run].
  - exists [], [], s, p. by rewrite app_nil_r.
  - apply Forall_cons in Hops as [_ Hops].
    unfold mbind, comp_bind. rewrite (write_sub_run c t p) by done. case_bool_decide.
    + destruct (IH p s Hl Htag Hops) as (w & r & s' & p' & -> & ? & Heq). by exists w, r, s', p'.
    + destruct (IH (output data p) (set_heap (insert c (output data p)) s))
        as (w & r & s' & p' & -> & ? & Heq);
        [by eapply linked_set_pty|by apply output_tagged|done|].
      exists (data ++ w), r, s', p'. rewrite Nat2Z.id, take_ge by lia. split_and!; [done|done|].
      rewrite Heq, output_outgoing. cbn. rewrite <- app_assoc. f_equal.
      unfold output_post. by rewrite flat_map_app.
  - apply Forall_cons in Hops as [Hn Hops].
    destruct (read_control_run c t p (replicate n 0) s Hl) as (got & s1 & p1 & Hrun & Hl1 & Hc1 & Hp).
    unfold mbind, comp_bind. rewrite Hrun.
    assert (termios p1 = termios p) as Ht by (unfold config in Hc1; congruence).
    assert (tagged p1 ∧ outgoing p = match got with Some (k, out) => tail (take (Z.to_nat k) out)
      | None => [] end ++ outgoing p1) as [Htag1 Hout].
    { by apply (control_read_payload (replicate n 0)); [rewrite length_replicate|..]. }
    destruct (IH p1 s1 Hl1 Htag1 Hops) as (w & r & s' & p' & -> & ? & Heq).
    eexists w, _, s', p'. split_and!; [done|done|].
    by rewrite <- app_assoc, Heq, Hout, Ht, app_assoc.
Qed.

(** A read with an empty buffer corrupts the output stream: the packet that did
    not fit is put back with its tag byte in front of a packet that still has it, so
    the tag is later delivered as data. *)
Theorem pty_empty_read_corrupts c t p s tag data rest :
  linked c t p s → miso p = (tag :: data) :: rest →
  ∃ s' p', attempt (read c []) s = (Ok (Some (0, [])), s') ∧ linked c t p' s' ∧
    outgoing p' = tag :: outgoing p.
Proof.
  intros Hl Hm. destruct (read_control_run c t p [] s Hl) as (got & s' & p' & Hrun & Hl' & _ & Hread).
  exists s', p'. unfold control_read in Hread. rewrite Hm in Hread. destruct Hread as [-> Hm'].
  split_and!; [exact Hrun|done|]. unfold outgoing. by rewrite Hm', Hm.
Qed.

(** Closing the control terminal hangs up: every subordinate terminal then reads
    end of file and cannot write. *)
Theorem pty_hangup c t p s buf :
  linked c t p s →
  let s' := (on_close c s).2 in
  (read t buf s').1 = Ok (0, buf) ∧ write t buf s' = (Err EPIPE, s').
Proof.
  intros ((fl & nr & nw & Hc) & (fl' & nr' & nw' & Ht) & Hp).
  unfold on_close, gets, modify, mbind, comp_bind. rewrite Hc. cbv zeta. cbn [fst snd].
  assert (∀ s0, handles s0 = delete c (handles s) →
    handles s0 !! t = Some (HResource (PtySubTerm c fl' nr' nw'))) as Ht'.
  { intros s0 ->. rewrite lookup_delete_ne; [done|]. intros ->. congruence. }
  unfold read, write. split; (erewrite get_resource_run by by apply Ht');
    cbn; unfold sub_term_read, sub_term_write, upgrade, set_resource, gets, modify, mbind, comp_bind;
    cbn;
    by rewrite lookup_delete_eq.
Qed.

Lemma u32_roundtrip l x :
  Forall is_u8 l → length l = 4%nat → u32_of_bytes l = Some x →
  put_u32 (replicate 4 0) x = Some l.
Proof.
  intros Hl Hlen. destruct l as [|b0 [|b1 [|b2 [|b3 []]]]]; try done. cbn. intros [= <-].
  repeat match goal with Hx : Forall _ (_ :: _) |- _ => apply Forall_cons in Hx as [? Hx] end.
  unfold is_u8, wrap_u32, u32_to_bytes in *.
  repeat f_equal; Z.to_euclidean_division_equations; lia.
Qed.

(** Settings read back as written: a full [termios] or [winsize] structure, and the
    process group, through any descriptor of the same terminal. *)
Theorem pty_settings_roundtrip `{!RedoxTermiosLaws _} l fl fl' h buf p s :
  heap s !! l = Some p →
  (length buf = length (termios_bytes (termios p)) →
     let s' := (res_write (PtyTermios l fl) buf s).2 in
     (res_read h (PtyTermios l fl') (replicate (length buf) 0) s').1 = Ok (Z.of_nat (length buf), buf)) ∧
  (length buf = length (winsize_bytes (winsize p)) →
     let s' := (res_write (PtyWinsize l fl) buf s).2 in
     (res_read h (PtyWinsize l fl') (replicate (length buf) 0) s').1 = Ok (Z.of_nat (length buf), buf)) ∧
  (length buf = 4%nat → Forall is_u8 buf →
     let s' := (res_write (PtyPgrp l fl) buf s).2 in
     (res_read h (PtyPgrp l fl') (replicate 4 0) s').1 = Ok (4, buf)).
Proof.
  intros Hp. unfold res_write, control_term_write, sub_term_write, pgrp_write, termios_write, winsize_write, lock_write, res_read, control_term_read, sub_term_read, pgrp_read, termios_read, winsize_read, lock_read, ptsname_read, upgrade, gets, set_pty, modify, mbind, comp_bind.
  split_and!; intros Hlen; [| |intros Hu8]; cbv zeta; rewrite Hp.
  1, 2: rewrite copy_loop_spec, Hlen, Nat.min_id, <- Hlen, firstn_all,
    drop_ge, app_nil_r by lia; cbn; rewrite lookup_insert_eq; cbn;
    erewrite ?termios_bytes_of, ?winsize_bytes_of by done;
    by rewrite copy_loop_spec, length_replicate, Nat.min_id, firstn_all, drop_ge, app_nil_r by len_lia.
  destruct (u32_of_bytes buf) as [x|] eqn:Hx.
  - cbn -[put_u32 replicate]. rewrite lookup_insert_eq. cbn [pgrp set_pgrp].
    by erewrite u32_roundtrip by done.
  - by destruct buf as [|? [|? [|? [|? []]]]].
Qed.
End Stream.

(** The timer is re-armed 100 ms ahead: for a normalised current time the carry loop
    ends, and the new time is normalised and exactly 10^8 ns later. *)
Theorem pty_timer_rearm now :
  0 ≤ tv_nsec now < 1000000000 →
  ∃ next, next_timeout now = Some next ∧ 0 ≤ tv_nsec next < 1000000000 ∧
    tv_sec next * 1000000000 + tv_nsec next =
    tv_sec now * 1000000000 + tv_nsec now + 100000000.
Proof.
  intros Hn. unfold next_timeout. rewrite bool_decide_eq_true_2 by lia.
  cbn [carry tv_nsec tv_sec]. destruct (Z.leb_spec 1000000000 (tv_nsec now + 100000000)).
  - cbn [tv_nsec tv_sec].
    destruct (Z.leb_spec 1000000000 (tv_nsec now + 100000000 - 1000000000)); [lia|].
    eexists; split; [done|]; cbn; lia.
  - eexists; split; [done|]; cbn; lia.
Qed.

(** *** Witnesses *)

Section Demo.
#[local] Existing Instance redox_abi.
#[local] Existing Instance demo_termios.

Definition socket_ok (ev : Z * Z) : errno + bool := inr true.

Definition demo_run (ops : list pty_op) : PtyScheme :=
  foldl (λ s op, (pty_step socket_ok op s).2) ptys_new ops.

(** A root handle, a control terminal, a subordinate one, and raw mode. *)
Definition demo_ops : list pty_op :=
  [OpRoot; OpOpenat 0 "ptmx" 0 0; OpOpenat 0 "/1" 0 0; OpDup 1 (str_bytes "termios");
   OpWrite 3 demo_raw].

Definition demo : PtyScheme := demo_run demo_ops.
Definition demo_pty : Pty := set_termios demo_raw (pty_new 1).

Lemma demo_linked : linked 1 2 demo_pty demo.
Proof.
  split_and!; [do 3 eexists; by vm_compute|do 3 eexists; by vm_compute|by vm_compute].
Qed.
Lemma pty_never_panics_witness :
  ptys_inv (demo_run [OpRoot]) ∧
  (pty_step socket_ok (OpOpenat 0 "ptmx" 0 0)
     (demo_run [OpRoot])).1 ≠ Panic.
Proof.
  apply (pty_never_panics).
  - intros ev. by exists true.
  - apply (pty_reach_step _ ptys_new OpRoot (Ok tt));
      [constructor|vm_compute; reflexivity|exact I|vm_compute; reflexivity].
  - vm_compute. reflexivity.
  - exact I.
Defined.

(** Five bytes, one of them NUL, in two writes and two short reads. *)
Lemma pty_input_fifo_witness :
  ∃ w r s' p', term_run 1 2
    [MWrite [65; 66; 0]; MWrite [67; 68]; SRead 3; SRead 5] demo = (Ok (w, r), s') ∧
    linked 1 2 p' s' ∧
    config p' = config demo_pty ∧
    r ++ pending p' = pending demo_pty ++ filter (λ b, b ≠ 0) (translate demo_raw <$> w).
Proof.
  apply (pty_input_fifo); [apply demo_linked|by vm_compute].
Defined.

Lemma pty_output_fifo_witness :
  ∃ w r s' p', out_run 1 2
    [SWrite [65; 10; 66]; MRead 2; MRead 16] demo = (Ok (w, r), s') ∧
    linked 1 2 p' s' ∧
    r ++ outgoing p' = outgoing demo_pty ++ output_post demo_raw w.
Proof.
  apply (pty_output_fifo); [apply demo_linked|constructor|].
  repeat constructor; lia.
Defined.

Lemma pty_empty_read_corrupts_witness :
  let p := output [65; 66] demo_pty in
  ∃ s' p', attempt (read 1 [])
      (set_heap (insert 1 p) demo) = (Ok (Some (0, [])), s') ∧
    linked 1 2 p' s' ∧ outgoing p' = 0 :: outgoing p.
Proof.
  apply (pty_empty_read_corrupts 1 2 _ _ 0 [65; 66] []).
  - eapply linked_set_pty, demo_linked.
  - by vm_compute.
Defined.

Lemma pty_hangup_witness :
  let s' := (on_close 1 demo).2 in
  (read 2 [9; 9] s').1 = Ok (0, [9; 9]) ∧
  write 2 [9; 9] s' = (Err EPIPE, s').
Proof. apply (pty_hangup 1 2 demo_pty), demo_linked. Defined.

Lemma pty_settings_roundtrip_witness :
  let s' := (res_write (PtyPgrp 1 0) [210; 4; 0; 0] demo).2 in
  (res_read 9 (PtyPgrp 1 0) (replicate 4 0) s').1 =
    Ok (4, [210; 4; 0; 0]).
Proof.
  apply (pty_settings_roundtrip (RedoxTermiosLaws0 := demo_termios_laws) 1 0 0 9 [210; 4; 0; 0] demo_pty demo).
  - apply demo_linked.
  - done.
  - repeat constructor; lia.
Defined.

Lemma pty_timer_rearm_witness :
  ∃ next, next_timeout (mk_timespec 5 950000000) = Some next ∧ 0 ≤ tv_nsec next < 1000000000 ∧
    tv_sec next * 1000000000 + tv_nsec next = 5 * 1000000000 + 950000000 + 100000000.
Proof. apply (pty_timer_rearm (mk_timespec 5 950000000)). cbn. lia. Defined.
End Demo.
