(* ===== verification/Ramfs.v ===== *)
(** * ramfs

    Models the in-memory filesystem: [ramfs/src/filesystem.rs] (inodes and path
    resolution) and [ramfs/src/scheme.rs] (the scheme operations). *)

From S2P Require Import Prelude Abi SchemeUtils.

(** ** Data *)

Inductive FileData :=
  | FileBytes (bytes : bytes)
  | Directory (dentries : list (string * Z)).

(** [IndexMap<String, Inode>]: entries in insertion order. *)
Fixpoint dir_get (d : list (string * Z)) (name : string) : option Z :=
  match d with
  | [] => None
  | (n, i) :: d => if bool_decide (n = name) then Some i else dir_get d name
  end.

(** [insert]: an existing key keeps its place. *)
Fixpoint dir_insert (d : list (string * Z)) (name : string) (inode : Z) : list (string * Z) :=
  match d with
  | [] => [(name, inode)]
  | (n, i) :: d =>
     if bool_decide (n = name) then (n, inode) :: d else (n, i) :: dir_insert d name inode
  end.

(** [shift_remove] *)
Fixpoint dir_shift_remove (d : list (string * Z)) (name : string) : list (string * Z) :=
  match d with
  | [] => []
  | (n, i) :: d => if bool_decide (n = name) then d else (n, i) :: dir_shift_remove d name
  end.

(** [dir.iter().find(|(_, inode)| inode.0 == i)] *)
Fixpoint dir_name_of (d : list (string * Z)) (inode : Z) : option string :=
  match d with
  | [] => None
  | (n, i) :: d => if bool_decide (i = inode) then Some n else dir_name_of d inode
  end.

Record File := mk_file {
  mode : Z;
  uid : Z;
  gid : Z;
  nlink : Z;
  parent : Z;
  open_handles : Z;
  atime : TimeSpec;
  ctime : TimeSpec;
  mtime : TimeSpec;
  data : FileData;
}.

Definition set_mode v (f : File) := mk_file v (uid f) (gid f) (nlink f) (parent f)
  (open_handles f) (atime f) (ctime f) (mtime f) (data f).
Definition set_owner u g (f : File) := mk_file (mode f) u g (nlink f) (parent f)
  (open_handles f) (atime f) (ctime f) (mtime f) (data f).
Definition set_nlink v (f : File) := mk_file (mode f) (uid f) (gid f) v (parent f)
  (open_handles f) (atime f) (ctime f) (mtime f) (data f).
Definition set_open_handles v (f : File) := mk_file (mode f) (uid f) (gid f) (nlink f) (parent f)
  v (atime f) (ctime f) (mtime f) (data f).
Definition set_times a m (f : File) := mk_file (mode f) (uid f) (gid f) (nlink f) (parent f)
  (open_handles f) a (ctime f) m (data f).
Definition set_data v (f : File) := mk_file (mode f) (uid f) (gid f) (nlink f) (parent f)
  (open_handles f) (atime f) (ctime f) (mtime f) v.

Definition data_size (d : FileData) : Z :=
  match d with FileBytes b => Z.of_nat (length b) | Directory _ => 0 end.

Record Filesystem := mk_fs { files : gmap Z File; last_inode_number : Z }.

Definition ROOT_INODE : Z := 1.
Definition DEFAULT_BLOCK_SIZE : Z := 4096.

Record Scheme := mk_scheme {
  scheme_name : string;
  filesystem : Filesystem;
  handles : HandleMap Z;
}.

Definition set_files f (s : Scheme) := mk_scheme (scheme_name s)
  (mk_fs (f (files (filesystem s))) (last_inode_number (filesystem s))) (handles s).
Definition set_last_inode n (s : Scheme) := mk_scheme (scheme_name s)
  (mk_fs (files (filesystem s)) n) (handles s).
Definition set_handles h (s : Scheme) := mk_scheme (scheme_name s) (filesystem s) h.
Definition get_file (i : Z) (s : Scheme) : option File := files (filesystem s) !! i.
Definition put_file (i : Z) (f : File) : comp Scheme unit := modify (set_files (insert i f)).

(** [current_time], from what [duration_since(UNIX_EPOCH)] returned: a duration in
    seconds and nanoseconds after or before the epoch *)
Definition current_time (since_epoch : (Z * Z) + (Z * Z)) : TimeSpec :=
  match since_epoch with
  | inl (secs, nanos) =>
     mk_timespec (if secs <=? 9223372036854775807 then secs else 9223372036854775807)
                 (if nanos <=? 2147483647 then nanos else 2147483647)
  | inr (secs, nanos) =>
     mk_timespec (if secs <=? 9223372036854775807 then secs else -9223372036854775808)
                 (if nanos <=? 2147483647 then nanos else -2147483648)
  end.

Section Ramfs.
Context `{SyscallAbi}.

Definition create_root_inode (now : TimeSpec) : File :=
  mk_file (Z.lor MODE_DIR 493) 0 0 1 ROOT_INODE 0 now now now (Directory []).

Definition scheme_new (name : string) (now : TimeSpec) : Scheme :=
  mk_scheme name (mk_fs {[ROOT_INODE := create_root_inode now]} ROOT_INODE) hm_new.

Definition next_inode_number : comp Scheme Z :=
  last ← gets (λ s, last_inode_number (filesystem s));
  next ← ok_or ENFILE (checked_add_usize last 1);
  modify (set_last_inode next);;
  mret next.

(** ** Permissions *)

Definition current_perm (file : File) (u g : Z) : Z :=
  let perm := Z.land (mode file) MODE_PERM in
  if u =? 0 then 7
  else if u =? uid file then Z.shiftr (Z.land perm 448) 6
  else if g =? gid file then Z.shiftr (Z.land perm 56) 3
  else Z.land perm 7.

Definition check_permissions {S} (fl single_mode : Z) : comp S unit :=
  if bool_decide (Z.land fl O_ACCMODE = O_RDONLY) && (Z.land single_mode 4 =? 0) then fail EACCES
  else if bool_decide (Z.land fl O_ACCMODE = O_WRONLY) && (Z.land single_mode 2 =? 0) then fail EACCES
  else if bool_decide (Z.land fl O_ACCMODE = O_RDWR) && negb (Z.land single_mode 6 =? 6) then fail EACCES
  else mret tt.

(** ** Path resolution *)

Definition is_dot (part : string) : bool := bool_decide (part = ".") || bool_decide (part = "..").

(** The loop of [resolve_generic], with the components as the [Vec] it edits. *)
Fixpoint resolve_loop (fuel : nat) (fs : gmap Z File) (u g : Z)
    (parts : list string) (i : nat) (current_inode : Z) (current_file : File) : outcome Z :=
  match fuel with
  | O => Panic
  | S fuel =>
     match parts !! i with
     | None => Ok current_inode
     | Some part =>
        match data current_file with
        | FileBytes _ => Err ENOENT
        | Directory dentries =>
           if Z.land (current_perm current_file u g) 1 =? 0 then Err EACCES else
           let parts := if is_dot part then delete i parts else parts in
           match parts !! i with
           | None => Panic
           | Some part =>
              let '(parts, i) :=
                if bool_decide (part = "..") && bool_decide (0 < i)%nat
                then (delete (i - 1)%nat parts, (i - 1)%nat) else (parts, i) in
              match parts !! i with
              | None => Panic
              | Some part =>
                 match dir_get dentries part with
                 | None => Err ENOENT
                 | Some inode =>
                    match fs !! inode with
                    | None => Err EIO
                    | Some file => resolve_loop fuel fs u g parts (S i) inode file
                    end
                 end
              end
           end
        end
     end
  end.

(** Every turn shortens what is left of [parts] from [i] on. *)
Definition resolve_generic (fs : gmap Z File) (parts : list string) (u g : Z) : outcome Z :=
  match fs !! ROOT_INODE with
  | None => Err ENOENT
  | Some root => resolve_loop (S (length parts)) fs u g parts 0 ROOT_INODE root
  end.

(** [path_components_iter(path.trim_start_matches('/'))] *)
Definition path_components (path : string) : list string :=
  String.string_of_list_ascii <$>
    filter (λ part, part ≠ []) (split_slash (drop_slashes (String.list_ascii_of_string path))).

(** [parts.pop()] when there is one *)
Definition split_last {A} (l : list A) : list A * option A :=
  match reverse l with
  | [] => ([], None)
  | x :: rest => (reverse rest, Some x)
  end.

Definition resolve (path : string) (u g : Z) : comp Scheme Z :=
  fs ← gets (λ s, files (filesystem s));
  lift (resolve_generic fs (path_components path) u g).

Definition resolve_except_last (path : string) (u g : Z) : comp Scheme (Z * option string) :=
  fs ← gets (λ s, files (filesystem s));
  let '(parts, last) := split_last (path_components path) in
  inode ← lift (resolve_generic fs parts u g);
  mret (inode, last).

(** ** The scheme *)

Definition scheme_root : comp Scheme Z :=
  zoom handles set_handles (hm_insert ROOT_INODE).

(** [self.handles.get(fd)?.as_inode()?] *)
Definition inode_of (fd : Z) : comp Scheme Z :=
  hs ← gets handles;
  lift (hm_get hs fd).

Definition remove_dentry (path : string) (u g : Z) (directory : bool) : comp Scheme unit :=
  '(parent_dir_inode, name) ← resolve_except_last path u g;
  name_to_delete ← ok_or EINVAL name;
  o ← gets (get_file parent_dir_inode);
  par ← ok_or EIO o;
  if Z.land (current_perm par u g) 2 =? 0 then fail EACCES else
  match data par with
  | FileBytes _ => fail ENOTDIR
  | Directory dentries =>
     entry_inode ← ok_or ENOENT (dir_get dentries name_to_delete);
     put_file parent_dir_inode
       (set_data (Directory (dir_shift_remove dentries name_to_delete)) par);;
     entry ← gets (get_file entry_inode);
     match entry with
     | Some (mk_file _ _ _ _ _ _ _ _ _ (Directory sub)) =>
        if negb directory then fail EISDIR
        else if negb (bool_decide (sub = [])) then fail ENOTEMPTY
        else
          o ← gets (get_file parent_dir_inode);
          par ← ok_or EIO o;
          n ← sub_usize (nlink par) 1;
          put_file parent_dir_inode (set_nlink n par)
     | _ => mret tt
     end;;
     o ← gets (get_file entry_inode);
     info ← ok_or EIO o;
     links ←
       match data info with
       | FileBytes _ => if directory then fail EISDIR else sub_usize (nlink info) 1
       | Directory _ => if negb directory then fail ENOTDIR else sub_usize (nlink info) 2
       end;
     put_file entry_inode (set_nlink links info);;
     if bool_decide (links = 0) && bool_decide (open_handles info = 0)
     then modify (set_files (delete entry_inode)) else mret tt
  end.

Definition open_existing (path : string) (fl u g : Z) : comp Scheme Z :=
  inode ← resolve path u g;
  o ← gets (get_file inode);
  file ← ok_or EIO o;
  let is_dir := bool_decide (Z.land (mode file) MODE_TYPE = MODE_DIR) in
  if (Z.land fl O_STAT =? 0) && negb (Z.land fl O_DIRECTORY =? 0) && negb is_dir then fail ENOTDIR
  else if (Z.land fl O_STAT =? 0) && (Z.land fl O_DIRECTORY =? 0) && is_dir then fail EISDIR
  else
    check_permissions fl (current_perm file u g);;
    let opened_as_write := bool_decide (Z.land fl O_ACCMODE = O_WRONLY) ||
                           bool_decide (Z.land fl O_ACCMODE = O_RDWR) in
    file ←
      (if has_flag fl O_TRUNC && opened_as_write then
         match data file with
         | Directory _ => fail EBADFD
         | FileBytes _ => mret (set_data (FileBytes []) file)
         end
       else mret file);
    n ← add_usize (open_handles file) 1;
    put_file inode (set_open_handles n file);;
    mret inode.

(** The inode that [openat] creates: a directory or a file, by the mode bits of the
    flags. *)
Definition new_inode (fl u g parent_dir_inode : Z) (now : TimeSpec) : comp Scheme File :=
  let mode := Z.land fl 65535 in
  if negb (Z.land fl O_DIRECTORY =? 0) then
    let mode := if Z.land mode MODE_TYPE =? 0 then Z.lor mode MODE_DIR else mode in
    if negb (bool_decide (Z.land mode MODE_TYPE = MODE_DIR)) then fail EINVAL
    else mret (mk_file mode u g 2 parent_dir_inode 1 now now now (Directory []))
  else
    let mode := if Z.land mode MODE_TYPE =? 0 then Z.lor mode MODE_FILE else mode in
    if bool_decide (Z.land mode MODE_TYPE = MODE_DIR) then fail EINVAL
    else mret (mk_file mode u g 1 parent_dir_inode 1 now now now (FileBytes [])).

(** The creating branch of [openat]. *)
Definition create (path : string) (fl u g : Z) (now : TimeSpec) : comp Scheme Z :=
  if negb (Z.land fl O_STAT =? 0) then fail EINVAL else
  '(parent_dir_inode, name) ← resolve_except_last path u g;
  new_name ← ok_or EINVAL name;
  new_inode_number ← next_inode_number;
  file ← new_inode fl u g parent_dir_inode now;
  check_permissions fl (current_perm file u g);;
  put_file new_inode_number file;;
  o ← gets (get_file parent_dir_inode);
  par ← ok_or EIO o;
  match data par with
  | FileBytes _ => fail EIO
  | Directory entries =>
     put_file parent_dir_inode
       (set_data (Directory (dir_insert entries new_name new_inode_number)) par)
  end;;
  mret new_inode_number.

Definition is_ok {A} (r : outcome A) : bool := match r with Ok _ => true | _ => false end.

(** [self.filesystem.resolve(path, 0, 0).is_ok()], which unwinds if [resolve] does *)
Definition path_exists (path : string) : comp Scheme bool := λ s,
  match resolve path 0 0 s with
  | (Panic, s') => (Panic, s')
  | (r, s') => (Ok (is_ok r), s')
  end.

Definition openat (dirfd : Z) (path : string) (fl fcntl_flags u g : Z) (now : TimeSpec) :
    comp Scheme Z :=
  dir ← inode_of dirfd;
  if negb (dir =? ROOT_INODE) then fail EACCES else
  ex ← path_exists path;
  let creat := negb (Z.land fl O_CREAT =? 0) in
  if creat && negb (Z.land fl O_EXCL =? 0) && ex then fail EEXIST else
  inode ←
    (if creat && ex then open_existing path fl u g
     else if creat then create path fl u g now
     else open_existing path (Z.lor fl fcntl_flags) u g);
  zoom handles set_handles (hm_insert inode).

(** [!inode != ROOT_INODE]: the negation is bitwise. *)
Definition unlinkat (dirfd : Z) (path : string) (fl u g : Z) : comp Scheme unit :=
  dir ← inode_of dirfd;
  if negb (not_usize dir =? ROOT_INODE) then fail EACCES
  else remove_dentry path u g (has_flag fl AT_REMOVEDIR).

(** [self.filesystem.files.get_mut(&inode).ok_or(Error::new(EBADFD))?] *)
Definition file_of (inode : Z) : comp Scheme File :=
  o ← gets (get_file inode);
  ok_or EBADFD o.

(** [read]: the count and the caller's buffer afterwards.  [usize::try_from] cannot
    fail where [usize] has 64 bits. *)
Definition read (fd : Z) (buf : bytes) (offset fcntl_flags : Z) : comp Scheme (Z * bytes) :=
  inode ← inode_of fd;
  file ← file_of inode;
  let acc := Z.land fcntl_flags O_ACCMODE in
  if negb (bool_decide (acc = O_RDONLY) || bool_decide (acc = O_RDWR)) then fail EBADF else
  match data file with
  | FileBytes b =>
     if bool_decide (Z.land (mode file) MODE_TYPE = MODE_DIR) then fail EBADFD else
     let src_bytes := drop (Z.to_nat offset) b in
     let n := Nat.min (length src_bytes) (length buf) in
     mret (Z.of_nat n, copy_at buf 0 (take n src_bytes))
  | Directory _ => fail EISDIR
  end.

(** [getdents]: [entry] is [DirentBuf::entry], given inode, name and the next opaque
    id. *)
Fixpoint push_entries {B} (entry : B → Z → string → Z → errno + B) (buf : B)
    (ents : list (string * Z)) (i : Z) : errno + B :=
  match ents with
  | [] => inr buf
  | (name, inode) :: ents =>
     match entry buf inode name (i + 1) with
     | inl e => inl e
     | inr buf => push_entries entry buf ents (i + 1)
     end
  end.

Definition getdents {B} (entry : B → Z → string → Z → errno + B) (fd : Z) (buf : B)
    (opaque_offset : Z) : comp Scheme B :=
  inode ← inode_of fd;
  file ← file_of inode;
  match data file with
  | FileBytes _ => fail ENOTDIR
  | Directory dir =>
     match push_entries entry buf (drop (Z.to_nat opaque_offset) dir) opaque_offset with
     | inl e => fail e
     | inr buf => mret buf
     end
  end.

Section Alloc.
(** Whether [try_reserve] of that many more bytes succeeds. *)
Context (try_reserve : Z → bool).

(** [write].  [bytes[offset..][..buf.len()]] panics when it is out of range. *)
Definition write (fd : Z) (buf : bytes) (offset : Z) : comp Scheme Z :=
  inode ← inode_of fd;
  file ← file_of inode;
  match data file with
  | Directory _ => fail EISDIR
  | FileBytes b =>
     if bool_decide (Z.land (mode file) MODE_TYPE = MODE_DIR) then fail EBADFD else
     end_off ← ok_or EOVERFLOW (checked_add_usize offset (Z.of_nat (length buf)));
     b ←
       (if bool_decide (Z.of_nat (length b) < end_off) then
          if try_reserve (end_off - Z.of_nat (length b))
          then mret (vec_resize 0 (Z.to_nat end_off) b) else fail ENOMEM
        else mret b);
     if bool_decide (Z.to_nat offset + length buf ≤ length b)%nat then
       put_file inode (set_data (FileBytes (copy_at b (Z.to_nat offset) buf)) file);;
       mret (Z.of_nat (length buf))
     else panic
  end.

Definition ftruncate (fd size : Z) : comp Scheme unit :=
  inode ← inode_of fd;
  file ← file_of inode;
  if bool_decide (Z.land (mode file) MODE_TYPE = MODE_DIR) then fail EISDIR else
  match data file with
  | Directory _ => fail EBADFD
  | FileBytes b =>
     if bool_decide (Z.of_nat (length b) < size) then
       if try_reserve (size - Z.of_nat (length b))
       then put_file inode (set_data (FileBytes (vec_resize 0 (Z.to_nat size) b)) file)
       else fail ENOMEM
     else put_file inode (set_data (FileBytes (vec_resize 0 (Z.to_nat size) b)) file)
  end.
End Alloc.

Definition fchmod (fd m : Z) : comp Scheme unit :=
  inode ← inode_of fd;
  file ← file_of inode;
  put_file inode (set_mode (Z.lor m (Z.land (mode file) MODE_TYPE)) file).

(** The descriptor is used as an inode number. *)
Definition fchown (inode u g : Z) : comp Scheme unit :=
  file ← file_of inode;
  put_file inode (set_owner u g file).

Definition fcntl (inode cmd arg : Z) : comp Scheme Z := mret 0.
Definition fevent (inode fl : Z) : comp Scheme Z := fail ENOSYS.
Definition mmap_prep (inode offset size fl : Z) : comp Scheme Z := fail ENOSYS.
Definition frename (inode : Z) (path : string) : comp Scheme Z := fail ENOSYS.
Definition fsync (inode : Z) : comp Scheme unit := mret tt.

(** The loop that [fpath] and [relpathat] share: the names from [inode] up to [stop]
    or the root, innermost first.  A parent has a smaller number than its children. *)
Fixpoint climb (fuel : nat) (fs : gmap Z File) (stop inode : Z) (info : File) :
    outcome (list string) :=
  if (inode =? stop) || (inode =? ROOT_INODE) then Ok []
  else match fuel with
  | O => Panic
  | S fuel =>
     match fs !! parent info with
     | None => Err EBADFD
     | Some parent_info =>
        match data parent_info with
        | FileBytes _ => Err EBADFD
        | Directory dir =>
           match dir_name_of dir inode with
           | None => Err ENOENT
           | Some name =>
              match climb fuel fs stop (parent info) parent_info with
              | Ok chain => Ok (name :: chain)
              | r => r
              end
           end
        end
     end
  end.

(** The pieces in the order they are pushed. *)
Definition path_pieces (names : list string) : list bytes :=
  match names with
  | [] => []
  | n :: names => str_bytes n :: concat ((λ m, [str_bytes "/"; str_bytes m]) <$> names)
  end.

Definition fpath (fd : Z) (buf : bytes) (s : Scheme) : outcome nat * bytes :=
  let fs := files (filesystem s) in
  fpath_with buf (scheme_name s)
    (inode ← lift (hm_get (handles s) fd);
     info ← ok_or EBADFD (fs !! inode);
     chain ← lift (climb (Z.to_nat inode) fs ROOT_INODE inode info);
     push_all (path_pieces (reverse chain))).

(** The last loop of [relpathat]: components with separators into a bounded buffer. *)
Fixpoint put_components (names : list string) (first : bool) (path : bytes) (offset : nat) :
    outcome nat * bytes :=
  match names with
  | [] => (Ok offset, path)
  | n :: names =>
     if negb first && bool_decide (length path ≤ offset)%nat then (Err ERANGE, path) else
     let path := if first then path else copy_at path offset (str_bytes "/") in
     let offset := if first then offset else S offset in
     if bool_decide (length path < offset + length (str_bytes n))%nat then (Err ERANGE, path)
     else put_components names false (copy_at path offset (str_bytes n))
            (offset + length (str_bytes n))
  end.

Definition relpathat (dir_id fd : Z) (path : bytes) (s : Scheme) : outcome nat * bytes :=
  let fs := files (filesystem s) in
  match hm_get (handles s) dir_id, hm_get (handles s) fd with
  | Ok dir_inode, Ok inode =>
     match fs !! inode with
     | None => (Err EBADFD, path)
     | Some info =>
        match climb (Z.to_nat inode) fs dir_inode inode info with
        | Ok chain => put_components (reverse chain) true path 0
        | Err e => (Err e, path)
        | Panic => (Panic, path)
        end
     end
  | Err e, _ => (Err e, path)
  | _, _ => (Err EBADF, path)
  end.

Record Stat := mk_stat {
  st_mode : Z; st_uid : Z; st_gid : Z; st_ino : Z; st_nlink : Z; st_dev : Z;
  st_size : Z; st_blksize : Z; st_blocks : Z;
  st_atime : Z; st_atime_nsec : Z; st_ctime : Z; st_ctime_nsec : Z; st_mtime : Z; st_mtime_nsec : Z;
}.

(** [try_into] of a signed number into an unsigned one *)
Definition nonneg (x : Z) : comp Scheme Z := if x <? 0 then fail EOVERFLOW else mret x.

(** [fstat]; [memory_statvfs] is the block size that [fstatvfs] on the memory scheme
    reports. *)
Definition fstat (memory_statvfs : errno + Z) (fd : Z) : comp Scheme Stat :=
  inode ← inode_of fd;
  let block_size := match memory_statvfs with inr b => b | inl _ => DEFAULT_BLOCK_SIZE end in
  file ← file_of inode;
  let size := data_size (data file) in
  links ← (if bool_decide (nlink file ≤ u32_max) then mret (nlink file) else fail EOVERFLOW);
  blocks ← next_multiple_of size block_size;
  a ← nonneg (tv_sec (atime file)); an ← nonneg (tv_nsec (atime file));
  c ← nonneg (tv_sec (ctime file)); cn ← nonneg (tv_nsec (ctime file));
  m ← nonneg (tv_sec (mtime file)); mn ← nonneg (tv_nsec (mtime file));
  mret (mk_stat (mode file) (uid file) (gid file) inode links 0 size block_size blocks
          a an c cn m mn).

Definition futimens (fd : Z) (times : list TimeSpec) : comp Scheme unit :=
  inode ← inode_of fd;
  file ← file_of inode;
  new_atime ← ok_or EINVAL (times !! 0%nat);
  new_mtime ← ok_or EINVAL (times !! 1%nat);
  put_file inode (set_times new_atime new_mtime file).

(** [read_u32] *)
Definition read_u32 (buffer : bytes) (offset : nat) : option Z :=
  match take 4 (drop offset buffer) with
  | [b0; b1; b2; b3] => Some (b0 + 256 * b1 + 65536 * b2 + 16777216 * b3)
  | _ => None
  end.

(** [get_uid_gid_from_pid]; [credentials] is the buffer that [get_proc_credentials]
    fills for a process *)
Definition get_uid_gid_from_pid (credentials : Z → errno + bytes) (pid : Z) :
    comp Scheme (Z * Z * Z) :=
  buffer ← match credentials pid with inl _ => fail EINVAL | inr b => mret b end;
  pid ← ok_or EINVAL (read_u32 buffer 0);
  u ← ok_or EINVAL (read_u32 buffer 12);
  g ← ok_or EINVAL (read_u32 buffer 24);
  mret (pid, u, g).

Inductive StdFsCallKind := SfcFchown | SfcOther.

Definition std_fs_call (credentials : Z → errno + bytes) (id : Z) (kind : StdFsCallKind)
    (arg1 ctx_pid ctx_uid ctx_gid : Z) : comp Scheme Z :=
  match kind with
  | SfcFchown =>
     let new_uid := wrap_u32 arg1 in
     let new_gid := wrap_u32 (Z.shiftr arg1 32) in
     '(_, u, g) ← get_uid_gid_from_pid credentials ctx_pid;
     if negb (u =? 0) && (negb (u =? ctx_uid) || negb (g =? ctx_gid)) then fail EPERM
     else fchown id new_uid new_gid;; mret 0
  | SfcOther => fail EOPNOTSUPP
  end.

Definition on_close (fd : Z) : comp Scheme unit :=
  removed ← zoom handles set_handles (hm_remove fd);
  match removed with
  | None => mret tt
  | Some inode =>
     o ← gets (get_file inode);
     match o with
     | None => mret tt
     | Some info =>
        n ← sub_usize (open_handles info) 1;
        put_file inode (set_open_handles n info);;
        if bool_decide (nlink info = 0) && bool_decide (n = 0)
        then modify (set_files (delete inode)) else mret tt
     end
  end.
End Ramfs.

(** ** Path resolution terminates *)

Section Resolve.
Context `{SyscallAbi} (fs : gmap Z File) (u g : Z).

(** What is left to resolve shrinks in every turn. *)
Lemma resolve_loop_step n fuel parts i inode file :
  (length parts - i < n)%nat → (n ≤ fuel)%nat →
  (∀ parts' i' inode' file', (length parts' - i' < pred n)%nat →
     resolve_loop (pred n) fs u g parts' i' inode' file' =
     resolve_loop (pred fuel) fs u g parts' i' inode' file') →
  resolve_loop n fs u g parts i inode file = resolve_loop fuel fs u g parts i inode file.
Proof.
  intros Hn Hfuel IH. destruct n as [|n], fuel as [|fuel]; [lia..|]. cbn [resolve_loop pred] in *.
  destruct (parts !! i) as [part|] eqn:Hpart; [|done].
  destruct (data file) as [|dentries]; [done|].
  destruct (Z.land _ 1 =? 0); [done|].
  apply lookup_lt_Some in Hpart as Hi.
  set (parts1 := if is_dot part then delete i parts else parts).
  assert (length parts1 = length parts - (if is_dot part then 1 else 0))%nat as Hlen1.
  { subst parts1. destruct (is_dot part); [by rewrite length_delete by done|lia]. }
  destruct (parts1 !! i) as [part1|] eqn:Hpart1; [|done].
  destruct (bool_decide (part1 = "..") && bool_decide (0 < i)%nat) eqn:Hdd.
  - apply andb_prop in Hdd as [Hdd Hpos]. apply bool_decide_eq_true in Hdd, Hpos. subst part1.
    (* a second [..] can only be there because a dot component was removed *)
    destruct (is_dot part) eqn:Hdot.
    2:{ subst parts1. by simplify_eq. }
    destruct (delete (i - 1)%nat parts1 !! (i - 1)%nat); [|done].
    repeat case_match; try done. apply IH.
    rewrite length_delete; [lia|]. apply lookup_lt_is_Some. apply lookup_lt_Some in Hpart1. lia.
  - rewrite Hpart1. repeat case_match; try done. all: apply IH; lia.
Qed.

Lemma resolve_loop_fuel n fuel parts i inode file :
  (length parts - i < n)%nat → (n ≤ fuel)%nat →
  resolve_loop n fs u g parts i inode file = resolve_loop fuel fs u g parts i inode file.
Proof.
  revert fuel parts i inode file. induction n as [|n IH]; intros fuel parts i inode file Hn Hfuel; [lia|].
  apply resolve_loop_step; [done|done|]. cbn. intros. apply IH; [done|lia].
Qed.

(** ** Resolution of paths without dot components *)

(** The textbook walk: each component is looked up in a directory that the caller may
    search. *)
Fixpoint walk (inode : Z) (parts : list string) : outcome Z :=
  match parts with
  | [] => Ok inode
  | part :: parts =>
     match fs !! inode with
     | None => Err EIO
     | Some file =>
        match data file with
        | FileBytes _ => Err ENOENT
        | Directory dentries =>
           if Z.land (current_perm file u g) 1 =? 0 then Err EACCES else
           match dir_get dentries part with
           | None => Err ENOENT
           | Some inode =>
              match fs !! inode with None => Err EIO | Some _ => walk inode parts end
           end
        end
     end
  end.

Definition plain (parts : list string) : Prop := Forall (λ part, is_dot part = false) parts.

Lemma resolve_loop_plain fuel parts i inode file :
  plain parts → fs !! inode = Some file → (length parts - i < fuel)%nat →
  resolve_loop fuel fs u g parts i inode file = walk inode (drop i parts).
Proof.
  intros Hplain. revert i inode file. induction fuel as [|fuel IH]; intros i inode file Hfile Hfuel; [lia|].
  cbn [resolve_loop]. destruct (parts !! i) as [part|] eqn:Hpart.
  2:{ apply lookup_ge_None in Hpart. by rewrite drop_ge. }
  rewrite (drop_S _ part) by done. cbn [walk]. rewrite Hfile.
  destruct (data file) as [|dentries]; [done|]. destruct (Z.land _ 1 =? 0); [done|].
  assert (is_dot part = false) as Hdot by (by eapply (Forall_lookup_1 _ _ _ _ Hplain)).
  rewrite Hdot, Hpart.
  assert (bool_decide (part = "..") = false) as ->.
  { unfold is_dot in Hdot. by apply orb_false_iff in Hdot as [_ ?]. }
  cbn [andb]. rewrite Hpart. destruct (dir_get dentries part) as [next|]; [|done].
  destruct (fs !! next) as [file'|] eqn:Hnext; [|done].
  apply IH; [done|]. apply lookup_lt_Some in Hpart. lia.
Qed.

Lemma resolve_generic_plain parts :
  plain parts → is_Some (fs !! ROOT_INODE) → resolve_generic fs parts u g = walk ROOT_INODE parts.
Proof.
  intros Hplain [root Hroot]. unfold resolve_generic. rewrite Hroot.
  rewrite (resolve_loop_plain _ parts 0 ROOT_INODE root) by (done || lia). done.
Qed.

Lemma walk_not_panic inode parts : walk inode parts ≠ Panic.
Proof. revert inode. induction parts; intros inode; cbn; repeat case_match; auto. Qed.

Lemma walk_app inode parts1 parts2 :
  walk inode (parts1 ++ parts2) =
    match walk inode parts1 with Ok i => walk i parts2 | Err e => Err e | Panic => Panic end.
Proof. revert inode. induction parts1; intros inode; cbn; [done|]. repeat (case_match; try done); congruence. Qed.

(** A walk that succeeds ends at an inode that exists. *)
Lemma walk_exists inode parts i :
  is_Some (fs !! inode) → walk inode parts = Ok i → is_Some (fs !! i).
Proof.
  revert inode. induction parts as [|part parts IH]; intros inode Hin; cbn.
  - by intros [= <-].
  - repeat case_match; try done. intros Hw. eapply IH; [|done]. eauto.
Qed.
End Resolve.

(** ** The tree *)

(** A file as the tree sees it: its parent and, for a directory, its entries. *)
Definition shape (f : File) : Z * option (list (string * Z)) :=
  (parent f, match data f with Directory d => Some d | FileBytes _ => None end).

Record tree_ok (T : gmap Z (Z * option (list (string * Z)))) (last : Z) : Prop := {
  t_root : ∃ q d, T !! ROOT_INODE = Some (q, Some d);
  t_range i n : T !! i = Some n → 1 ≤ i ≤ last;
  t_parent i q o : T !! i = Some (q, o) → i ≠ ROOT_INODE → 1 ≤ q < i;
  t_names d q ents : T !! d = Some (q, Some ents) → NoDup ents.*1;
  t_entry d q ents n i :
    T !! d = Some (q, Some ents) → (n, i) ∈ ents → i ≠ ROOT_INODE ∧ ∃ o, T !! i = Some (d, o);
}.

(** Inodes that a path leads to. *)
Inductive in_tree (T : gmap Z (Z * option (list (string * Z)))) : Z → Prop :=
  | in_tree_root : in_tree T ROOT_INODE
  | in_tree_child d q ents n i :
     in_tree T d → T !! d = Some (q, Some ents) → (n, i) ∈ ents → in_tree T i.

Section Dir.
Implicit Types d : list (string * Z).

Lemma dir_get_elem d n i : dir_get d n = Some i → (n, i) ∈ d.
Proof.
  induction d as [|[m j] d IH]; cbn; [done|]. case_bool_decide; [intros [= ->]; subst; left|].
  intros. right. auto.
Qed.

Lemma dir_get_of_elem d n i : NoDup d.*1 → (n, i) ∈ d → dir_get d n = Some i.
Proof.
  induction d as [|[m j] d IH]; cbn; [by intros _ ?%elem_of_nil|].
  intros [Hm Hnd]%NoDup_cons [[= -> ->]|Hin]%elem_of_cons.
  - by rewrite bool_decide_eq_true_2.
  - rewrite bool_decide_eq_false_2; [auto|]. intros ->. apply Hm.
    by apply (list_elem_of_fmap_2 fst d (n, i)).
Qed.

Lemma dir_get_None d n : dir_get d n = None ↔ n ∉ d.*1.
Proof.
  induction d as [|[m j] d IH]; cbn; [set_solver|].
  case_bool_decide; subst; [set_solver|]. rewrite IH. set_solver.
Qed.

Lemma dir_insert_new d n i : dir_get d n = None → dir_insert d n i = d ++ [(n, i)].
Proof.
  induction d as [|[m j] d IH]; cbn; [done|]. case_bool_decide; [done|]. intros. by rewrite IH.
Qed.

Lemma dir_name_of_elem d n i : (n, i) ∈ d → ∃ m, dir_name_of d i = Some m ∧ (m, i) ∈ d.
Proof.
  induction d as [|[m j] d IH]; cbn; [by intros ?%elem_of_nil|].
  case_bool_decide as Hj; [intros _; subst; eexists; split; [done|left]|].
  intros [[= -> ->]|Hin]%elem_of_cons; [done|]. destruct (IH Hin) as (k & ? & ?).
  exists k. split; [done|by right].
Qed.
End Dir.

Lemma in_tree_exists T last i : tree_ok T last → in_tree T i → is_Some (T !! i).
Proof.
  intros HT Hi. destruct Hi as [|d q ents n i Hd Hents Hin].
  - destruct (t_root T last HT) as (q & d & ->). eauto.
  - destruct (t_entry T last HT _ _ _ _ _ Hents Hin) as (_ & o & ->). eauto.
Qed.

Section Climb.
Context `{SyscallAbi} (fs : gmap Z File) (last : Z) (Hfs : tree_ok (shape <$> fs) last).

Lemma shape_lookup i q o :
  (shape <$> fs) !! i = Some (q, o) → ∃ f, fs !! i = Some f ∧ shape f = (q, o).
Proof. rewrite lookup_fmap, fmap_Some. intros (f & ? & ?). eauto. Qed.

Lemma shape_dir f q ents : shape f = (q, Some ents) → data f = Directory ents.
Proof. unfold shape. destruct (data f); congruence. Qed.

(** From an inode in the tree the climb to the root succeeds, within as many turns as
    the inode number, and the names it collects lead root back to the inode. *)
Lemma climb_in_tree fuel g i f :
  in_tree (shape <$> fs) i → fs !! i = Some f → (Z.to_nat i ≤ fuel)%nat →
  ∃ chain, climb fuel fs ROOT_INODE i f = Ok chain ∧ walk fs 0 g ROOT_INODE (reverse chain) = Ok i.
Proof.
  revert i f. induction fuel as [|fuel IH]; intros i f Hin Hf Hfuel.
  { assert (1 ≤ i); [|lia]. apply (t_range _ _ Hfs i (shape f)). by rewrite lookup_fmap, Hf. }
  cbn [climb]. destruct (Z.eqb_spec i ROOT_INODE) as [->|Hne]; [by exists []|]. cbn [orb].
  destruct Hin as [|d q ents n i Hd Hents Hin]; [done|].
  destruct (t_entry _ _ Hfs _ _ _ _ _ Hents Hin) as (_ & o & Hi).
  pose proof (t_parent _ _ Hfs _ _ _ Hi Hne) as Hlt.
  rewrite lookup_fmap, Hf in Hi. injection Hi as Hpar _. rewrite Hpar.
  pose proof (t_names _ _ Hfs _ _ _ Hents) as Hnd.
  destruct (shape_lookup _ _ _ Hents) as (p & Hp & Hsh). apply shape_dir in Hsh as Hdata.
  rewrite Hp, Hdata. destruct (dir_name_of_elem _ _ _ Hin) as (m & -> & Hm).
  destruct (IH d p Hd Hp) as (chain & -> & Hw); [lia|].
  exists (m :: chain). split; [done|]. rewrite reverse_cons, walk_app, Hw. cbn.
  rewrite Hp, Hdata. cbn. rewrite (dir_get_of_elem _ _ _ Hnd Hm), Hf. done.
Qed.

(** A walk from the root stays in the tree. *)
Lemma walk_in_tree u g i parts j :
  in_tree (shape <$> fs) i → walk fs u g i parts = Ok j → in_tree (shape <$> fs) j.
Proof.
  revert i. induction parts as [|part parts IH]; intros i Hi; cbn; [by intros [= <-]|].
  destruct (fs !! i) as [f|] eqn:Hf; [|done]. destruct (data f) as [|ents] eqn:Hd; [done|].
  destruct (Z.land _ 1 =? 0); [done|]. destruct (dir_get ents part) as [k|] eqn:Hget; [|done].
  destruct (fs !! k); [|done]. apply IH.
  eapply (in_tree_child _ i (parent f) ents part); [done| |by apply dir_get_elem].
  rewrite lookup_fmap, Hf. cbn. unfold shape. by rewrite Hd.
Qed.
End Climb.

(** *** Growing the tree *)

Section Grow.
Context (T : gmap Z (Z * option (list (string * Z)))) (last : Z) (HT : tree_ok T last).
Context (p : Z) (o : option (list (string * Z))) (Hempty : o = None ∨ o = Some []).

(** A new inode that no entry names yet. *)
Lemma tree_ok_fresh : is_Some (T !! p) → tree_ok (<[last + 1 := (p, o)]> T) (last + 1).
Proof.
  intros [x Hp]. pose proof (t_range _ _ HT p x Hp) as Hrange.
  assert (∀ i x, T !! i = Some x → i ≠ last + 1) as Hold.
  { intros i y Hy. apply (t_range _ _ HT) in Hy. lia. }
  split.
  - destruct (t_root _ _ HT) as (q & d & Hr). exists q, d. rewrite lookup_insert_ne; [done|].
    intros Heq. by apply (Hold _ _ Hr).
  - intros i n [[<- _]|[_ Hi]]%lookup_insert_Some; [lia|]. apply (t_range _ _ HT) in Hi. lia.
  - intros i q o' [[<- [= <- <-]]|[_ Hi]]%lookup_insert_Some ?; [lia|]. by eapply (t_parent _ _ HT).
  - intros d q ents [[_ [= <- ->]]|[_ Hd]]%lookup_insert_Some; [|by eapply (t_names _ _ HT)].
    destruct Hempty; simplify_eq. constructor.
  - intros d q ents n i [[_ [= <- ->]]|[_ Hd]]%lookup_insert_Some Hin.
    + destruct Hempty; simplify_eq. by apply elem_of_nil in Hin.
    + destruct (t_entry _ _ HT _ _ _ _ _ Hd Hin) as (? & o' & Ho'). split; [done|].
      exists o'. rewrite lookup_insert_ne; [done|]. intros Heq. by apply (Hold _ _ Ho').
Qed.

Context (q : Z) (ents : list (string * Z)) (name : string).
Context (Hdir : T !! p = Some (q, Some ents)) (Hname : dir_get ents name = None).

Let T' := <[p := (q, Some (dir_insert ents name (last + 1)))]> (<[last + 1 := (p, o)]> T).

Lemma grow_ne : last + 1 ≠ p.
Proof. apply (t_range _ _ HT) in Hdir. lia. Qed.

(** The same inode with an entry in its parent. *)
Lemma tree_ok_create : tree_ok T' (last + 1).
Proof.
  pose proof grow_ne as Hne. pose proof (t_range _ _ HT _ _ Hdir) as Hrange.
  destruct (tree_ok_fresh (mk_is_Some _ _ Hdir)) as [Hroot Hran Hpar Hnam Hent].
  assert (<[last + 1 := (p, o)]> T !! p = Some (q, Some ents)) as Hp
    by by rewrite lookup_insert_ne.
  subst T'. rewrite dir_insert_new by done. split.
  - destruct Hroot as (q0 & d & Hr). destruct (decide (p = ROOT_INODE)) as [->|Hp1].
    + rewrite lookup_insert_eq. eauto.
    + rewrite lookup_insert_ne by done. eauto.
  - intros i n [[<- _]|[_ Hi]]%lookup_insert_Some; eauto.
  - intros i q0 o' [[<- [= <- <-]]|[_ Hi]]%lookup_insert_Some ?; eauto.
  - intros d q0 ents0 [[<- [= <- <-]]|[_ Hd]]%lookup_insert_Some; [|by eauto].
    rewrite fmap_app. cbn. apply NoDup_snoc; [by eauto|]. by apply dir_get_None.
  - intros d q0 ents0 n i Hd Hin.
    assert (i ≠ ROOT_INODE ∧ ∃ o', <[last + 1 := (p, o)]> T !! i = Some (d, o')) as [Hi (o' & Ho')].
    { apply lookup_insert_Some in Hd as [[<- [= <- <-]]|[_ Hd]]; [|by eauto].
      apply elem_of_snoc in Hin as [Hin|[= -> ->]]; [by eauto|].
      split; [unfold ROOT_INODE; lia|]. exists o. apply lookup_insert_eq. }
    split; [done|]. destruct (decide (i = p)) as [->|Hip].
    + rewrite lookup_insert_eq. simplify_eq. eauto.
    + rewrite lookup_insert_ne by done. eauto.
Qed.

Lemma in_tree_fresh i : in_tree T i → in_tree (<[last + 1 := (p, o)]> T) i.
Proof.
  induction 1 as [|d q0 ents0 n i _ IH Hd Hin]; [constructor|].
  eapply in_tree_child; [done| |done]. rewrite lookup_insert_ne; [done|].
  apply (t_range _ _ HT) in Hd. lia.
Qed.

Lemma in_tree_create i : in_tree T i → in_tree T' i.
Proof.
  pose proof grow_ne. intros Hi. apply in_tree_fresh in Hi.
  induction Hi as [|d q0 ents0 n i _ IH Hd Hin]; [constructor|]. subst T'.
  destruct (decide (d = p)) as [->|Hdp].
  - rewrite lookup_insert_ne in Hd by done. simplify_eq.
    eapply in_tree_child; [done|apply lookup_insert_eq|].
    rewrite dir_insert_new by done. apply elem_of_snoc. eauto.
  - eapply in_tree_child; [done|by rewrite lookup_insert_ne|done].
Qed.

Lemma in_tree_new : in_tree T p → in_tree T' (last + 1).
Proof.
  intros Hp. eapply (in_tree_child _ p); [by apply in_tree_create|apply lookup_insert_eq|].
  rewrite dir_insert_new by done. apply elem_of_snoc. eauto.
Qed.
End Grow.

(** ** The invariant of the scheme *)

Section Safety.
Context `{SyscallAbi}.

Definition tree (s : Scheme) : gmap Z (Z * option (list (string * Z))) :=
  shape <$> files (filesystem s).

(** An inode is linked, and counts its open descriptors [n]: the descriptors that
    [scheme_root] hands out are not counted, and creating a file below a regular file
    leaves one count without a descriptor. *)
Record counts_ok (n : nat) (i : Z) (f : File) : Prop := {
  counts_nlink : 1 ≤ nlink f;
  counts_open : i ≠ ROOT_INODE → Z.of_nat n ≤ open_handles f;
  counts_bound : 0 ≤ open_handles f ≤ Z.of_nat n + 1;
}.

(** [extra i] descriptors of [i] are counted already but not yet in the table, which is
    so while a file is being opened. *)
Record ramfs_inv_ext (extra : Z → nat) (s : Scheme) : Prop := {
  r_handles : hm_wf (handles s);
  r_tree : tree_ok (tree s) (last_inode_number (filesystem s));
  r_last : last_inode_number (filesystem s) ≤ usize_max;
  r_open fd i : hm_handles (handles s) !! fd = Some i → in_tree (tree s) i;
  r_counts i f :
    files (filesystem s) !! i = Some f →
    counts_ok (holders i (hm_handles (handles s)) + extra i) i f;
}.

Definition none : Z → nat := λ _, 0%nat.
Definition one (i : Z) : Z → nat := λ j, if decide (j = i) then 1%nat else 0%nat.
Definition ramfs_inv : Scheme → Prop := ramfs_inv_ext none.

Definition good {A} (r : outcome A) (s' : Scheme) : Prop := r ≠ Panic ∧ ramfs_inv s'.

Lemma ramfs_good_err {A} e s : ramfs_inv s → good (Err e : outcome A) s.
Proof. done. Qed.

Lemma ramfs_good_ok {A} (a : A) s : ramfs_inv s → good (Ok a) s.
Proof. done. Qed.

Lemma ramfs_new_inv name now : ramfs_inv (scheme_new name now).
Proof.
  assert (∀ i x, tree (scheme_new name now) !! i = Some x → i = ROOT_INODE ∧ x = (ROOT_INODE, Some []))
    as Honly.
  { intros i x. unfold tree. cbn. rewrite lookup_fmap, fmap_Some.
    intros (f & [<- <-]%lookup_singleton_Some & ->). done. }
  split; cbn.
  - apply hm_new_wf.
  - split.
    + by exists ROOT_INODE, [].
    + intros i n [-> _]%Honly. done.
    + intros i q o [-> _]%Honly. done.
    + intros d q ents [_ [= -> ->]]%Honly. constructor.
    + intros d q ents n i [_ [= -> ->]]%Honly Hin. by apply elem_of_nil in Hin.
  - unfold ROOT_INODE. ints.
  - done.
  - intros i f [<- <-]%lookup_singleton_Some. split; [done|by intros []|done].
Qed.

(** An inode is replaced by one of the same shape. *)
Lemma inv_put extra i f f' s :
  ramfs_inv s → files (filesystem s) !! i = Some f → shape f' = shape f →
  (∀ j, j ≠ i → extra j = 0%nat) →
  counts_ok (holders i (hm_handles (handles s)) + extra i) i f' →
  ramfs_inv_ext extra (set_files (insert i f') s).
Proof.
  intros [Hh HT Hl Ho Hc] Hf Hsh Hextra Hc'.
  assert (tree (set_files (insert i f') s) = tree s) as Htree.
  { unfold tree. cbn. rewrite fmap_insert, Hsh. apply insert_id. by rewrite lookup_fmap, Hf. }
  split; rewrite ?Htree; [done..|]. cbn. intros j g [[<- <-]|[Hne ?]]%lookup_insert_Some; [done|].
  rewrite Hextra by done. by apply Hc.
Qed.

Lemma put_good {A} i f f' (a : A) s :
  ramfs_inv s → files (filesystem s) !! i = Some f → shape f' = shape f →
  nlink f' = nlink f → open_handles f' = open_handles f → wp (put_file i f';; mret a) good s.
Proof.
  intros Hinv Hf Hsh Hn Ho. unfold put_file. wp_go. apply ramfs_good_ok. eapply inv_put; [done..|].
  destruct (r_counts none s Hinv _ _ Hf). split; rewrite ?Hn, ?Ho; done.
Qed.

Lemma put_good_tt i f f' s :
  ramfs_inv s → files (filesystem s) !! i = Some f → shape f' = shape f →
  nlink f' = nlink f → open_handles f' = open_handles f → wp (put_file i f') good s.
Proof. exact (put_good i f f' tt s). Qed.

(** The prefix of the descriptor operations. *)
Lemma inode_of_good {A} fd (k : Z → comp Scheme A) s :
  ramfs_inv s →
  (∀ i, hm_handles (handles s) !! fd = Some i → in_tree (tree s) i → wp (k i) good s) →
  wp (i ← inode_of fd; k i) good s.
Proof.
  intros Hinv Hk. unfold inode_of, hm_get. do 4 wp_step.
  destruct (hm_handles (handles s) !! fd) as [i|] eqn:Hfd; [|by apply ramfs_good_err].
  apply Hk; [done|]. by eapply r_open.
Qed.

Lemma file_of_good {A} i (k : File → comp Scheme A) s :
  ramfs_inv s → (∀ f, files (filesystem s) !! i = Some f → wp (k f) good s) →
  wp (f ← file_of i; k f) good s.
Proof.
  intros Hinv Hk. unfold file_of, get_file. do 3 wp_step.
  destruct (files (filesystem s) !! i) as [f|]; wp_step; [by apply Hk|by apply ramfs_good_err].
Qed.

(** *** Operations on a descriptor *)

Lemma ramfs_read_good fd buf off ffl s : ramfs_inv s → wp (read fd buf off ffl) good s.
Proof.
  intros Hinv. unfold read. apply inode_of_good; [done|]. intros i _ _.
  apply file_of_good; [done|]. intros f Hf. repeat case_match; by (apply ramfs_good_err || apply ramfs_good_ok).
Qed.

Lemma ramfs_write_good try_reserve fd buf off s :
  ramfs_inv s → 0 ≤ off → wp (write try_reserve fd buf off) good s.
Proof.
  intros Hinv Hoff. unfold write. apply inode_of_good; [done|]. intros i _ _.
  apply file_of_good; [done|]. intros f Hf. destruct (data f) as [b|d] eqn:Hd; [|by apply ramfs_good_err].
  case_bool_decide; [by apply ramfs_good_err|]. unfold checked_add_usize.
  case_bool_decide; [|by apply ramfs_good_err]. do 2 wp_step.
  assert (∀ b', Z.to_nat off + length buf ≤ length b' → wp
    (if bool_decide (Z.to_nat off + length buf ≤ length b')%nat then
       put_file i (set_data (FileBytes (copy_at b' (Z.to_nat off) buf)) f);;
       mret (Z.of_nat (length buf))
     else panic) good s)%nat as Hput.
  { intros b' Hb'. rewrite bool_decide_eq_true_2 by done. eapply put_good; [done..| |done|done].
    unfold shape. by rewrite Hd. }
  wp_step. case_bool_decide.
  - case_match; [|by apply ramfs_good_err]. wp_step. apply Hput. rewrite length_vec_resize. lia.
  - wp_step. apply Hput. lia.
Qed.

Lemma ftruncate_good try_reserve fd size s : ramfs_inv s → wp (ftruncate try_reserve fd size) good s.
Proof.
  intros Hinv. unfold ftruncate. apply inode_of_good; [done|]. intros i _ _.
  apply file_of_good; [done|]. intros f Hf. case_bool_decide; [by apply ramfs_good_err|].
  destruct (data f) as [b|d] eqn:Hd; [|by apply ramfs_good_err].
  assert (wp (put_file i (set_data (FileBytes (vec_resize 0 (Z.to_nat size) b)) f)) good s).
  { eapply put_good_tt; [done..| |done|done]. unfold shape. by rewrite Hd. }
  repeat case_match; [done|by apply ramfs_good_err|done].
Qed.

Lemma fchmod_good fd m s : ramfs_inv s → wp (fchmod fd m) good s.
Proof.
  intros Hinv. unfold fchmod. apply inode_of_good; [done|]. intros i _ _.
  apply file_of_good; [done|]. intros f Hf. by eapply put_good_tt.
Qed.

Lemma fchown_good i u g s : ramfs_inv s → wp (fchown i u g) good s.
Proof.
  intros Hinv. unfold fchown. apply file_of_good; [done|]. intros f Hf. by eapply put_good_tt.
Qed.

Lemma futimens_good fd times s : ramfs_inv s → wp (futimens fd times) good s.
Proof.
  intros Hinv. unfold futimens. apply inode_of_good; [done|]. intros i _ _.
  apply file_of_good; [done|]. intros f Hf. wp_step. wp_step; [|by apply ramfs_good_err].
  wp_step. wp_step; [|by apply ramfs_good_err]. by eapply put_good_tt.
Qed.

(** [unlinkat] refuses every descriptor: the complement of an inode number is the root
    inode only for the number [usize::MAX - 1]. *)
Lemma unlinkat_refuses dirfd path fl u g s :
  ramfs_inv s → last_inode_number (filesystem s) < usize_max - 1 →
  (unlinkat dirfd path fl u g s) =
    (match hm_handles (handles s) !! dirfd with Some _ => Err EACCES | None => Err EBADF end, s).
Proof.
  intros Hinv Hlast. unfold unlinkat, inode_of, hm_get, gets, lift, mbind, comp_bind.
  destruct (hm_handles (handles s) !! dirfd) as [i|] eqn:Hi; [|done].
  apply (r_open _ s Hinv) in Hi. destruct (in_tree_exists _ _ _ (r_tree _ s Hinv) Hi) as [x Hx].
  apply (t_range _ _ (r_tree _ s Hinv)) in Hx. unfold not_usize, ROOT_INODE.
  by rewrite (proj2 (Z.eqb_neq _ _)) by lia.
Qed.

(** *** Descriptors *)

(** A new descriptor of an inode whose count was already raised. *)
Lemma insert_handle_good i s :
  ramfs_inv_ext (one i) s → in_tree (tree s) i → hm_room (handles s) →
  wp (zoom handles set_handles (hm_insert i)) good s.
Proof.
  intros [Hh HT Hl Ho Hc] Hi Hroom. wp_step. apply hm_insert_wp; [done|done|].
  intros next hm Hwf. apply ramfs_good_ok. split; cbn; [done|done|done| |].
  - intros fd j [[<- <-]|[_ ?]]%lookup_insert_Some; eauto.
  - intros j f Hj. rewrite holders_insert by apply Hh. destruct (Hc j f Hj) as [? ? ?].
    unfold one, none in *. split; [done|..]; repeat case_decide; subst; try done; lia.
Qed.

Lemma scheme_root_good s : ramfs_inv s → hm_room (handles s) → wp scheme_root good s.
Proof.
  intros [Hh HT Hl Ho Hc] Hroom. unfold scheme_root. wp_step. apply hm_insert_wp; [done|done|].
  intros next hm Hwf. apply ramfs_good_ok. split; cbn; [done|done|done| |].
  - intros fd j [[<- <-]|[_ ?]]%lookup_insert_Some; [constructor|eauto].
  - intros j f Hj. rewrite holders_insert by apply Hh. destruct (Hc j f Hj) as [? ? ?].
    unfold none in *. split; [done|..]; repeat case_decide; subst; try done; lia.
Qed.

(** Closing any descriptor but one of the root directory. *)
Lemma ramfs_on_close_good fd s :
  ramfs_inv s → hm_handles (handles s) !! fd ≠ Some ROOT_INODE → wp (on_close fd) good s.
Proof.
  intros Hinv Hne. pose proof Hinv as [Hh HT Hl Ho Hc]. unfold on_close, hm_remove. do 5 wp_step.
  pose proof (hm_remove_wf fd _ Hh) as Hwf. cbn.
  set (hs := delete fd (hm_handles (handles s))) in *.
  assert (∀ j f, hm_handles (handles s) !! fd ≠ Some j → files (filesystem s) !! j = Some f →
    counts_ok (holders j hs + none j) j f) as Hother.
  { intros j f Hj Hf. destruct (Hc j f Hf) as [? ? ?]. subst hs.
    destruct (hm_handles (handles s) !! fd) as [k|] eqn:Hk; [|by rewrite delete_id].
    by rewrite (holders_delete j fd k _ Hk), decide_False in * by congruence. }
  assert (∀ fd' j, hs !! fd' = Some j → in_tree (tree s) j) as Ho'.
  { intros fd' j [_ ?]%lookup_delete_Some. eauto. }
  destruct (hm_handles (handles s) !! fd) as [i|] eqn:Hi.
  2:{ wp_go. apply ramfs_good_ok. split; cbn; [done..|]. intros j f. by apply Hother. }
  unfold get_file. do 2 wp_step. cbn. destruct (files (filesystem s) !! i) as [f|] eqn:Hf.
  2:{ wp_go. apply ramfs_good_ok. split; cbn; [done..|]. intros j g Hg. apply Hother; [|done]. congruence. }
  destruct (Hc i f Hf) as [Hn Hopen Hbound].
  rewrite (holders_delete i fd i _ Hi), decide_True in Hopen, Hbound by done. fold hs in Hopen, Hbound.
  assert (i ≠ ROOT_INODE) as Hroot by congruence. specialize (Hopen Hroot). unfold none in *.
  wp_step. apply wp_sub_usize; [lia|]. unfold put_file. do 2 wp_step.
  rewrite (bool_decide_eq_false_2 (nlink f = 0)) by lia. cbn. apply ramfs_good_ok.
  set (f' := set_open_handles (open_handles f - 1) f).
  assert (shape <$> <[i := f']> (files (filesystem s)) = tree s) as Htree.
  { rewrite fmap_insert. apply insert_id. unfold tree. by rewrite lookup_fmap, Hf. }
  split; unfold tree; cbn; rewrite ?Htree; [done..|].
  intros j g [[<- <-]|[Hij Hg]]%lookup_insert_Some; [|apply Hother; congruence].
  split; cbn; unfold none; lia.
Qed.

(** *** Opening *)

Lemma check_permissions_wp {S} fl m (Q : outcome unit → S → Prop) s :
  Q (Ok tt) s → Q (Err EACCES) s → wp (check_permissions fl m) Q s.
Proof. intros. unfold check_permissions. by repeat case_match. Qed.

(** Two ids are left, one of them for the count of an inode. *)
Definition ramfs_room (s : Scheme) : Prop :=
  Z.of_nat (size (hm_handles (handles s))) + 1 < usize_max.

Lemma ramfs_room_hm s : ramfs_room s → hm_room (handles s).
Proof. unfold ramfs_room, hm_room. lia. Qed.

(** The outcome of the part of [openat] that finds or makes the inode. *)
Definition opened (hs : HandleMap Z) (r : outcome Z) (s' : Scheme) : Prop :=
  handles s' = hs ∧
  match r with
  | Ok i => ramfs_inv_ext (one i) s' ∧ in_tree (tree s') i
  | Err _ => ramfs_inv s'
  | Panic => False
  end.

Lemma resolve_plain path u g s :
  ramfs_inv s → plain (path_components path) →
  resolve path u g s = (walk (files (filesystem s)) u g ROOT_INODE (path_components path), s).
Proof.
  intros Hinv Hplain. unfold resolve, gets, lift, mbind, comp_bind.
  rewrite resolve_generic_plain; [done|done|].
  destruct (t_root _ _ (r_tree _ s Hinv)) as (q & d & Hr). unfold tree in Hr.
  rewrite lookup_fmap in Hr. by eapply fmap_is_Some, mk_is_Some.
Qed.

Lemma open_existing_good path fl u g s :
  ramfs_inv s → ramfs_room s → plain (path_components path) →
  wp (open_existing path fl u g) (opened (handles s)) s.
Proof.
  intros Hinv Hroom Hplain. unfold open_existing. wp_step. unfold wp at 1.
  rewrite resolve_plain by done. cbn [fst snd].
  destruct (walk _ _ _ _ _) as [i|e|] eqn:Hw; [|done|by apply walk_not_panic in Hw].
  assert (in_tree (tree s) i) as Hi by (eapply walk_in_tree; [|done]; constructor).
  unfold get_file. do 3 wp_step. destruct (files (filesystem s) !! i) as [f|] eqn:Hf; wp_step; [|done].
  destruct (_ && _ && _); [done|]. destruct (_ && _ && _); [done|].
  wp_step. apply check_permissions_wp; [|done].
  destruct (r_counts _ s Hinv i f Hf) as [Hn Hopen Hbound].
  pose proof (holders_le i (hm_handles (handles s))) as Hle. unfold ramfs_room, none in *.
  assert (∀ f', shape f' = shape f → nlink f' = nlink f → open_handles f' = open_handles f →
    wp (n ← add_usize (open_handles f') 1; put_file i (set_open_handles n f');; mret i)
       (opened (handles s)) s) as Hput.
  { intros f' Hsh Hn' Ho'. wp_step. apply wp_add_usize; [lia|]. unfold put_file. wp_go.
    split; [done|].
    assert (ramfs_inv_ext (one i) (set_files (insert i (set_open_handles (open_handles f' + 1) f')) s)).
    { eapply inv_put; [done|done|done| |].
      - intros j Hj. unfold one. by rewrite decide_False.
      - unfold one. rewrite decide_True by done. split; cbn; lia. }
    split; [done|]. unfold tree. cbn. rewrite fmap_insert.
    replace (shape (set_open_handles (open_handles f' + 1) f')) with (shape f') by done.
    rewrite Hsh, insert_id; [done|]. by rewrite lookup_fmap, Hf. }
  destruct (_ && _); [|by apply Hput]. destruct (data f) as [b|d] eqn:Hd; [|done].
  wp_step. wp_step. apply Hput; [|done|done]. unfold shape. by rewrite Hd.
Qed.

Lemma split_last_spec {A} (l : list A) :
  match split_last l with
  | (l', Some x) => l = l' ++ [x]
  | (l', None) => l = [] ∧ l' = []
  end.
Proof.
  unfold split_last. destruct l as [|x l _] using rev_ind; [done|].
  by rewrite reverse_snoc, reverse_involutive.
Qed.

(** Root may search every directory, so it finds what anyone else finds. *)
Lemma walk_root fs u g g' i parts j : walk fs u g i parts = Ok j → walk fs 0 g' i parts = Ok j.
Proof.
  revert i. induction parts as [|part parts IH]; intros i; cbn; [done|].
  repeat case_match; done || auto.
Qed.

(** The two ways in which [create] changes the store. *)
Lemma create_file_inv p q ents name f fp s :
  ramfs_inv s → last_inode_number (filesystem s) < usize_max →
  files (filesystem s) !! p = Some fp → shape fp = (q, Some ents) → dir_get ents name = None →
  in_tree (tree s) p →
  parent f = p → 1 ≤ nlink f → open_handles f = 1 → (shape f).2 = None ∨ (shape f).2 = Some [] →
  let n := last_inode_number (filesystem s) + 1 in
  let s' := set_files (λ fs, <[p := set_data (Directory (dir_insert ents name n)) fp]> (<[n := f]> fs))
              (set_last_inode n s) in
  ramfs_inv_ext (one n) s' ∧ in_tree (tree s') n.
Proof.
  intros [Hh HT Hl Ho Hc] Hroom Hp Hsh Hname Hin Hpar Hlinks Hopen Hempty n s'.
  assert (tree s !! p = Some (q, Some ents)) as Hdir.
  { unfold tree. by rewrite lookup_fmap, Hp, <- Hsh. }
  assert (tree s' = <[p := (q, Some (dir_insert ents name n))]> (<[n := (p, (shape f).2)]> (tree s)))
    as Htree.
  { unfold tree. cbn. rewrite !fmap_insert. unfold shape at 1. cbn.
    unfold shape in Hsh. injection Hsh as -> _. by rewrite <- Hpar. }
  assert (∀ i, in_tree (tree s) i → i ≠ n) as Hold.
  { intros i Hi. destruct (in_tree_exists _ _ _ HT Hi) as [x Hx%(t_range _ _ HT)]. lia. }
  split.
  2:{ rewrite Htree. by apply (in_tree_new _ _ HT). }
  split; rewrite ?Htree; cbn; [done|by apply tree_ok_create|lia| |].
  - intros fd i Hi. by apply in_tree_create; eauto.
  - assert (holders n (hm_handles (handles s)) = 0)%nat as Hz.
    { apply map_size_empty_iff, map_empty. intros fd. apply map_lookup_filter_None. right.
      intros i Hi Heq. by apply (Hold i); eauto. }
    intros i g [[<- <-]|[Hip [[<- <-]|[Hin' Hi]]%lookup_insert_Some]]%lookup_insert_Some;
      unfold one.
    + rewrite decide_False by by apply Hold. destruct (Hc p fp Hp). by split.
    + rewrite decide_True, Hz by done. split; cbn; lia.
    + rewrite decide_False by done. by apply Hc.
Qed.

(** An inode number is used up even when the file is not created. *)
Lemma inv_bump s :
  ramfs_inv s → last_inode_number (filesystem s) < usize_max →
  ramfs_inv (set_last_inode (last_inode_number (filesystem s) + 1) s).
Proof.
  intros [Hh HT Hl Ho Hc] Hroom. split; cbn; [done| |lia|done|done].
  destruct HT as [? Hran ? ? ?]. split; [done| |done..]. intros i n Hi. apply Hran in Hi. lia.
Qed.

(** Below a regular file the new inode stays without a name. *)
Lemma create_orphan_inv p f fp s :
  ramfs_inv s → last_inode_number (filesystem s) < usize_max →
  files (filesystem s) !! p = Some fp → in_tree (tree s) p →
  parent f = p → 1 ≤ nlink f → open_handles f = 1 → (shape f).2 = None ∨ (shape f).2 = Some [] →
  let n := last_inode_number (filesystem s) + 1 in
  ramfs_inv (set_files (insert n f) (set_last_inode n s)).
Proof.
  intros [Hh HT Hl Ho Hc] Hroom Hp Hin Hpar Hlinks Hopen Hempty n.
  assert (is_Some (tree s !! p)) as Hsome by (unfold tree; rewrite lookup_fmap, Hp; eauto).
  assert (shape <$> <[n := f]> (files (filesystem s)) = <[n := (p, (shape f).2)]> (tree s)) as Htree.
  { rewrite fmap_insert. by rewrite <- Hpar. }
  split; unfold tree; cbn; rewrite ?Htree; [done|by apply tree_ok_fresh|lia| |].
  - intros fd i Hi. by apply in_tree_fresh; eauto.
  - assert (holders n (hm_handles (handles s)) = 0)%nat as Hz.
    { apply map_size_empty_iff, map_empty. intros fd. apply map_lookup_filter_None. right.
      intros i Hi Heq. cbn in Heq. apply Ho in Hi.
      destruct (in_tree_exists _ _ _ HT Hi) as [x Hx%(t_range _ _ HT)]. lia. }
    intros i g [[<- <-]|[_ Hi]]%lookup_insert_Some; [|by apply Hc].
    rewrite Hz. unfold none. split; cbn; lia.
Qed.

Lemma entry_exists s d f ents n i :
  ramfs_inv s → files (filesystem s) !! d = Some f → data f = Directory ents → (n, i) ∈ ents →
  is_Some (files (filesystem s) !! i).
Proof.
  intros Hinv Hf Hd Hin.
  destruct (t_entry _ _ (r_tree _ s Hinv) d (parent f) ents n i) as (_ & o & Ho); [|done|].
  - unfold tree. rewrite lookup_fmap, Hf. cbn. unfold shape. by rewrite Hd.
  - unfold tree in Ho. rewrite lookup_fmap in Ho. by eapply fmap_is_Some, mk_is_Some.
Qed.

Lemma walk_entry fs u g i f ents name j :
  fs !! i = Some f → data f = Directory ents → dir_get ents name = Some j → is_Some (fs !! j) →
  Z.land (current_perm f u g) 1 ≠ 0 → walk fs u g i [name] = Ok j.
Proof.
  intros Hf Hd Hj [fj Hfj] Hperm. cbn. rewrite Hf, Hd, Hj, Hfj.
  by rewrite (proj2 (Z.eqb_neq _ _) Hperm).
Qed.

Lemma wp_next_inode s Q :
  last_inode_number (filesystem s) < usize_max →
  (let n := last_inode_number (filesystem s) + 1 in Q (Ok n) (set_last_inode n s)) →
  wp next_inode_number Q s.
Proof.
  intros Hlast HQ. unfold next_inode_number. do 3 wp_step. unfold checked_add_usize.
  rewrite bool_decide_eq_true_2 by lia. by wp_go.
Qed.

(** What a successful [create] did: the parent is a directory without the name, and
    the new inode [f] is entered into it. *)
Definition created (path : string) (u g : Z) (f : File) (s s' : Scheme) : Prop :=
  ∃ parts name p fp ents,
    path_components path = parts ++ [name] ∧
    walk (files (filesystem s)) u g ROOT_INODE parts = Ok p ∧
    files (filesystem s) !! p = Some fp ∧ data fp = Directory ents ∧ dir_get ents name = None ∧
    parent f = p ∧
    let n := last_inode_number (filesystem s) + 1 in
    s' = set_files (λ fs, <[p := set_data (Directory (dir_insert ents name n)) fp]> (<[n := f]> fs))
           (set_last_inode n s).

(** An inode as [openat] makes it. *)
Definition fresh_file (u g : Z) (f : File) : Prop :=
  uid f = u ∧ gid f = g ∧ (nlink f = 1 ∨ nlink f = 2) ∧ open_handles f = 1 ∧
  (data f = FileBytes [] ∨ data f = Directory []).

Lemma fresh_file_shape u g f : fresh_file u g f → (shape f).2 = None ∨ (shape f).2 = Some [].
Proof. intros (_ & _ & _ & _ & [Hd|Hd]); unfold shape; rewrite Hd; auto. Qed.

Lemma new_inode_wp fl u g p now (Q : outcome File → Scheme → Prop) s :
  (∀ f, parent f = p → fresh_file u g f → Q (Ok f) s) →
  Q (Err EINVAL) s → wp (new_inode fl u g p now) Q s.
Proof.
  intros HOk HErr. unfold new_inode.
  repeat case_match; try apply HErr; (apply HOk; [done|]); split_and!; cbn; auto.
Qed.

Lemma create_wp path fl u g now s (Q : outcome Z → Scheme → Prop) :
  ramfs_inv s → last_inode_number (filesystem s) < usize_max → plain (path_components path) →
  (∀ i, walk (files (filesystem s)) 0 0 ROOT_INODE (path_components path) ≠ Ok i) →
  (∀ e s', handles s' = handles s → ramfs_inv s' → Q (Err e) s') →
  (∀ f s', fresh_file u g f → created path u g f s s' →
     Q (Ok (last_inode_number (filesystem s) + 1)) s') →
  wp (create path fl u g now) Q s.
Proof.
  intros Hinv Hlast Hplain Hnew HErr HOk. pose proof (inv_bump s Hinv Hlast) as Hbump.
  unfold create. case_match; [by apply HErr|]. unfold resolve_except_last. do 3 wp_step.
  pose proof (split_last_spec (path_components path)) as Hsplit.
  destruct (split_last (path_components path)) as [parts last].
  assert (plain parts) as Hparts.
  { destruct last; [|destruct Hsplit as [_ ->]; constructor].
    unfold plain in Hplain. rewrite Hsplit in Hplain. by apply Forall_app in Hplain as [? _]. }
  destruct (t_root _ _ (r_tree _ s Hinv)) as (q0 & d0 & Hr). unfold tree in Hr.
  rewrite lookup_fmap in Hr. apply mk_is_Some, fmap_is_Some in Hr.
  do 2 wp_step. rewrite resolve_generic_plain by done.
  destruct (walk _ _ _ _ parts) as [p|e|] eqn:Hw; [|by apply HErr|by apply walk_not_panic in Hw].
  do 2 wp_step. destruct last as [name|]; wp_step; [|by apply HErr].
  pose proof (walk_in_tree _ _ _ _ _ _ (in_tree_root _) Hw) as Hp.
  destruct (walk_exists _ _ _ _ _ _ Hr Hw) as [fp Hfp].
  wp_step. apply wp_next_inode; [done|]. cbv zeta. wp_step. apply new_inode_wp; [|by apply HErr].
  intros f Hpar Hfresh. wp_step. apply check_permissions_wp; [|by apply HErr].
  assert (p ≠ last_inode_number (filesystem s) + 1) as Hne.
  { destruct (in_tree_exists _ _ _ (r_tree _ s Hinv) Hp) as [x Hx%(t_range _ _ (r_tree _ s Hinv))]. lia. }
  unfold put_file, get_file. do 4 wp_step. cbn. rewrite lookup_insert_ne, Hfp by done. do 2 wp_step.
  destruct (data fp) as [b|ents] eqn:Hd.
  - apply HErr; [done|]. pose proof (fresh_file_shape _ _ _ Hfresh).
    destruct Hfresh as (_ & _ & ? & ? & _). eapply (create_orphan_inv p); try done. lia.
  - wp_go. apply (HOk f); [done|]. exists parts, name, p, fp, ents. split_and!; try done.
    apply eq_None_not_Some. intros [j Hj]. apply (Hnew j).
    rewrite Hsplit, walk_app, (walk_root _ _ _ 0 _ _ _ Hw). eapply walk_entry; [done..| |done].
    apply (entry_exists s p fp ents name); [done..|]. by apply dir_get_elem.
Qed.

Lemma create_good path fl u g now s :
  ramfs_inv s → last_inode_number (filesystem s) < usize_max → plain (path_components path) →
  (∀ i, walk (files (filesystem s)) 0 0 ROOT_INODE (path_components path) ≠ Ok i) →
  wp (create path fl u g now) (opened (handles s)) s.
Proof.
  intros Hinv Hlast Hplain Hnew. apply create_wp; [done..|].
  intros f s' Hfresh (parts & name & p & fp & ents & _ & Hw & Hfp & Hd & Hget & Hpar & ->).
  split; [done|]. pose proof (fresh_file_shape _ _ _ Hfresh).
  destruct Hfresh as (_ & _ & ? & ? & _).
  apply (create_file_inv p (parent fp) ents name f fp); try done; [| |lia].
  - unfold shape. by rewrite Hd.
  - by apply (walk_in_tree _ _ _ _ _ _ (in_tree_root _) Hw).
Qed.

Lemma path_exists_plain path s :
  ramfs_inv s → plain (path_components path) →
  path_exists path s =
    (Ok (is_ok (walk (files (filesystem s)) 0 0 ROOT_INODE (path_components path))), s).
Proof.
  intros Hinv Hplain. unfold path_exists. rewrite resolve_plain by done.
  pose proof (walk_not_panic (files (filesystem s)) 0 0 ROOT_INODE (path_components path)).
  by destruct (walk _ _ _ _ _).
Qed.

Lemma ramfs_openat_good dirfd path fl ffl u g now s :
  ramfs_inv s → ramfs_room s → last_inode_number (filesystem s) < usize_max →
  plain (path_components path) → wp (openat dirfd path fl ffl u g now) good s.
Proof.
  intros Hinv Hroom Hlast Hplain. unfold openat. apply inode_of_good; [done|]. intros dir _ _.
  case_match; [by apply ramfs_good_err|]. wp_step. unfold wp at 1.
  rewrite path_exists_plain by done. cbn [fst snd].
  assert (∀ m, wp m (opened (handles s)) s →
    wp (i ← m; zoom handles set_handles (hm_insert i)) good s) as Hopen.
  { intros m Hm. wp_step. eapply wp_mono; [exact Hm|]. intros [i|e|] s' [Hs' Hi]; [|done|done].
    destruct Hi. apply insert_handle_good; [done|done|]. rewrite Hs'. by apply ramfs_room_hm. }
  destruct (walk _ 0 0 _ _) as [i|e|] eqn:Hw; cbn [is_ok]; cbv zeta;
    rewrite ?andb_false_r, ?andb_true_r.
  - case_match; [by apply ramfs_good_err|]. apply Hopen. repeat case_match; by apply open_existing_good.
  - apply Hopen. case_match; [|by apply open_existing_good].
    apply create_good; [done..|]. by rewrite Hw.
  - by apply walk_not_panic in Hw.
Qed.
End Safety.

(** ** Requests *)

Inductive fs_op :=
  | FRoot
  | FOpenat (dirfd : Z) (path : string) (fl fcntl_flags u g : Z) (now : TimeSpec)
  | FUnlinkat (dirfd : Z) (path : string) (fl u g : Z)
  | FRead (fd : Z) (buf : bytes) (offset fcntl_flags : Z)
  | FWrite (fd : Z) (buf : bytes) (offset : Z)
  | FTruncate (fd size : Z)
  | FChmod (fd m : Z)
  | FUtimens (fd : Z) (times : list TimeSpec)
  | FStdFs (id : Z) (kind : StdFsCallKind) (arg1 pid u g : Z)
  | FClose (fd : Z).

Section Run.
Context `{SyscallAbi} (try_reserve : Z → bool) (credentials : Z → errno + bytes).

Definition fs_step (op : fs_op) : comp Scheme unit :=
  match op with
  | FRoot => scheme_root;; mret tt
  | FOpenat dirfd path fl ffl u g now => openat dirfd path fl ffl u g now;; mret tt
  | FUnlinkat dirfd path fl u g => unlinkat dirfd path fl u g
  | FRead fd buf off ffl => read fd buf off ffl;; mret tt
  | FWrite fd buf off => write try_reserve fd buf off;; mret tt
  | FTruncate fd size => ftruncate try_reserve fd size
  | FChmod fd m => fchmod fd m
  | FUtimens fd times => futimens fd times
  | FStdFs id kind arg1 pid u g => std_fs_call credentials id kind arg1 pid u g;; mret tt
  | FClose fd => on_close fd
  end.

(** Paths without dot components, unsigned offsets, and no closing of a descriptor of
    the root directory. *)
Definition fs_allowed (op : fs_op) (s : Scheme) : Prop :=
  match op with
  | FOpenat _ path _ _ _ _ _ => plain (path_components path)
  | FWrite _ _ off => 0 ≤ off
  | FClose fd => hm_handles (handles s) !! fd ≠ Some ROOT_INODE
  | _ => True
  end.

(** Descriptors and inode numbers are left. *)
Definition fs_room (s : Scheme) : Prop :=
  ramfs_room s ∧ last_inode_number (filesystem s) < usize_max - 1.

Lemma fs_step_good op s :
  ramfs_inv s → fs_room s → fs_allowed op s → wp (fs_step op) good s.
Proof.
  intros Hinv [Hroom Hlast] Hal.
  assert (∀ A (m : comp Scheme A), wp m good s → wp (m;; mret tt) good s) as Hseq.
  { intros A m Hm. wp_step. eapply wp_mono; [exact Hm|].
    intros [a|e|] s' [? ?]; cbn; [by wp_go|done|done]. }
  destruct op; cbn [fs_step] in *; try apply Hseq.
  - by apply scheme_root_good; [|apply ramfs_room_hm].
  - by apply ramfs_openat_good; [| |lia|].
  - unfold wp. rewrite unlinkat_refuses by done. by case_match.
  - by apply ramfs_read_good.
  - by apply ramfs_write_good.
  - by apply ftruncate_good.
  - by apply fchmod_good.
  - by apply futimens_good.
  - destruct kind; [|by apply ramfs_good_err]. unfold std_fs_call, get_uid_gid_from_pid.
    wp_go; try by apply ramfs_good_err. eapply wp_mono; [by apply fchown_good|].
    intros [a|e|] s' [? ?]; cbn; [by wp_go|done|done].
  - by apply ramfs_on_close_good.
Qed.

(** States after any sequence of such requests. *)
Inductive fs_reachable (name : string) (now : TimeSpec) : Scheme → Prop :=
  | fs_reach_init : fs_reachable name now (scheme_new name now)
  | fs_reach_step s op r s' :
     fs_reachable name now s → fs_room s → fs_allowed op s → fs_step op s = (r, s') →
     fs_reachable name now s'.

Lemma fs_reachable_inv name now s : fs_reachable name now s → ramfs_inv s.
Proof.
  induction 1 as [|s op r s' _ IH Hroom Hal Hstep]; [apply ramfs_new_inv|].
  apply (wp_eq _ good _ _ _ Hstep). by apply fs_step_good.
Qed.
End Run.

(** ** Properties *)

(** C4. Safety of the filesystem.  In every state reached by requests with dot-free
    paths, without closing a root descriptor, the inodes form a tree below the root
    (every entry names an existing inode whose parent is that directory, parents have
    smaller numbers, names in a directory are distinct), every descriptor refers to an
    inode of the tree, open counts cover the descriptors, and the next such request does
    not panic. *)
Theorem ramfs_never_panics `{SyscallAbi} try_reserve credentials name now s op :
  fs_reachable try_reserve credentials name now s → fs_room s → fs_allowed op s →
  ramfs_inv s ∧ (fs_step try_reserve credentials op s).1 ≠ Panic.
Proof.
  intros Hreach Hroom Hal. apply fs_reachable_inv in Hreach as Hinv.
  split; [done|]. apply (fs_step_good try_reserve credentials op s Hinv Hroom Hal).
Qed.

(** [fpath] is sound: for every open descriptor it succeeds, and the names it writes
    lead back to the descriptor's inode. *)
Theorem ramfs_fpath_resolves `{SyscallAbi} s fd i g buf :
  ramfs_inv s → hm_handles (handles s) !! fd = Some i →
  ∃ names, walk (files (filesystem s)) 0 g ROOT_INODE names = Ok i ∧
    fpath fd buf s = fpath_with buf (scheme_name s) (push_all (path_pieces names)).
Proof.
  intros Hinv Hfd. pose proof (r_open _ s Hinv _ _ Hfd) as Hin.
  destruct (in_tree_exists _ _ _ (r_tree _ s Hinv) Hin) as [x Hx].
  unfold tree in Hx. rewrite lookup_fmap, fmap_Some in Hx. destruct Hx as (f & Hf & _).
  destruct (climb_in_tree _ _ (r_tree _ s Hinv) (Z.to_nat i) g i f Hin Hf) as (chain & Hc & Hw); [lia|].
  exists (reverse chain). split; [done|]. unfold fpath, hm_get. rewrite Hfd.
  unfold fpath_with, lift, ok_or, mbind, comp_bind. rewrite Hf. cbn [mret comp_ret].
  unfold mret, comp_ret. by rewrite Hc.
Qed.

(** Path resolution terminates, and on paths without dot components it is the
    textbook walk; more turns never change its result. *)
Theorem ramfs_resolve_is_walk `{SyscallAbi} fs parts u g root :
  fs !! ROOT_INODE = Some root →
  (∀ fuel, (length parts < fuel)%nat →
     resolve_loop fuel fs u g parts 0 ROOT_INODE root = resolve_generic fs parts u g) ∧
  (plain parts → resolve_generic fs parts u g = walk fs u g ROOT_INODE parts).
Proof.
  intros Hroot. split.
  - intros fuel Hfuel. unfold resolve_generic. rewrite Hroot. symmetry.
    apply resolve_loop_fuel; lia.
  - intros Hplain. apply resolve_generic_plain; eauto.
Qed.

(** *** Data *)

(** The bytes of a file after [buf] is written at [off]: a gap is filled with zeros. *)
Definition written (b : bytes) (off : nat) (buf : bytes) (b' : bytes) : Prop :=
  length b' = Nat.max (length b) (off + length buf) ∧
  ∀ k, (k < length b')%nat →
    b' !! k = if bool_decide (off ≤ k < off + length buf)%nat then buf !! (k - off)%nat
              else Some (default 0 (b !! k)).

Lemma write_run `{SyscallAbi} try_reserve fd buf off s n s' :
  0 ≤ off → write try_reserve fd buf off s = (Ok n, s') →
  ∃ i f b b', hm_handles (handles s) !! fd = Some i ∧ files (filesystem s) !! i = Some f ∧
    data f = FileBytes b ∧ Z.land (mode f) MODE_TYPE ≠ MODE_DIR ∧
    n = Z.of_nat (length buf) ∧ written b (Z.to_nat off) buf b' ∧
    s' = set_files (insert i (set_data (FileBytes b') f)) s.
Proof.
  intros Hoff. unfold write, inode_of, hm_get, file_of, get_file, gets, lift, mbind, comp_bind.
  destruct (hm_handles (handles s) !! fd) as [i|]; [|done].
  destruct (files (filesystem s) !! i) as [f|] eqn:Hf; [|done]. cbn.
  destruct (data f) as [b|] eqn:Hd; [|done]. case_bool_decide; [done|]. unfold checked_add_usize.
  case_bool_decide; [|done]. cbn.
  assert (∀ b1, length b1 = Nat.max (length b) (Z.to_nat off + length buf) →
    (∀ k, (k < length b1)%nat → b1 !! k = Some (default 0 (b !! k))) →
    written b (Z.to_nat off) buf (copy_at b1 (Z.to_nat off) buf)) as Hwr.
  { intros b1 Hlen Hb1. split; [by rewrite length_copy_at by lia|].
    intros k Hk. rewrite length_copy_at in Hk by lia. rewrite lookup_copy_at by lia.
    case_bool_decide; [done|]. by apply Hb1. }
  case_bool_decide; [destruct (try_reserve _); [|done]|]; cbn;
    case_bool_decide; try done; intros [= <- <-]; eexists i, f, b, _; split_and!; try done; apply Hwr.
  - rewrite length_vec_resize. lia.
  - intros k Hk. rewrite length_vec_resize in Hk. by apply lookup_vec_resize.
  - lia.
  - intros k Hk. destruct (lookup_lt_is_Some_2 b k Hk) as [x ->]. done.
Qed.

(** Writes.  A write that succeeds stores the whole buffer at its offset, keeps every
    other byte, fills a gap with zeros, and leaves all other inodes alone; every readable
    descriptor of the same file then reads the buffer back. *)
Theorem ramfs_write_read `{SyscallAbi} try_reserve fd fd' buf out off ffl s n s' :
  0 ≤ off → length out = length buf →
  Z.land ffl O_ACCMODE = O_RDONLY ∨ Z.land ffl O_ACCMODE = O_RDWR →
  hm_handles (handles s) !! fd' = hm_handles (handles s) !! fd →
  write try_reserve fd buf off s = (Ok n, s') →
  n = Z.of_nat (length buf) ∧ read fd' out off ffl s' = (Ok (n, buf), s') ∧
  ∃ i b b', hm_handles (handles s) !! fd = Some i ∧
    data <$> files (filesystem s) !! i = Some (FileBytes b) ∧
    data <$> files (filesystem s') !! i = Some (FileBytes b') ∧
    written b (Z.to_nat off) buf b' ∧
    (∀ j, j ≠ i → files (filesystem s') !! j = files (filesystem s) !! j).
Proof.
  intros Hoff Hout Hacc Hfd' Hw.
  destruct (write_run _ _ _ _ _ _ _ Hoff Hw) as (i & f & b & b' & Hi & Hf & Hd & Hm & -> & Hb' & ->).
  split; [done|]. split.
  - unfold read, inode_of, hm_get, file_of, get_file, gets, lift, mbind, comp_bind. cbn.
    rewrite Hfd', Hi, lookup_insert_eq. cbn.
    rewrite (bool_decide_eq_false_2 (Z.land (mode f) MODE_TYPE = MODE_DIR)) by done.
    assert (negb (bool_decide (Z.land ffl O_ACCMODE = O_RDONLY) ||
      bool_decide (Z.land ffl O_ACCMODE = O_RDWR)) = false) as ->.
    { apply negb_false_iff, orb_true_iff. destruct Hacc; [left|right]; by apply bool_decide_eq_true. }
    destruct Hb' as [Hlen Hlook]. rewrite length_drop, Hout, Nat.min_r by lia.
    assert (take (length buf) (drop (Z.to_nat off) b') = buf) as ->.
    { apply list_eq. intros k. destruct (decide (k < length buf)%nat) as [Hk|Hk].
      - rewrite lookup_take_lt, lookup_drop, Hlook by lia. rewrite bool_decide_eq_true_2 by lia.
        f_equal. lia.
      - rewrite !lookup_ge_None_2; [done|lia|len_lia]. }
    rewrite copy_at_0, drop_ge, app_nil_r by lia. done.
  - exists i, b, b'. cbn. rewrite Hf, lookup_insert_eq. cbn. rewrite Hd. split_and!; try done.
    intros j Hj. by rewrite lookup_insert_ne.
Qed.

(** *** Creation *)

Lemma dir_get_insert ents name n part j :
  dir_get ents name = None → dir_get ents part = Some j →
  dir_get (dir_insert ents name n) part = Some j.
Proof.
  intros Hnone. rewrite dir_insert_new by done. induction ents as [|[m k] ents IH]; cbn; [done|].
  cbn in Hnone. repeat case_bool_decide; try done. by apply IH.
Qed.

Lemma dir_get_inserted ents name n :
  dir_get ents name = None → dir_get (dir_insert ents name n) name = Some n.
Proof.
  intros Hnone. rewrite dir_insert_new by done. induction ents as [|[m k] ents IH]; cbn in *.
  - by rewrite bool_decide_eq_true_2.
  - case_bool_decide; [done|]. by apply IH.
Qed.

(** Whatever could be resolved before a file is created resolves to the same inode. *)
Lemma walk_created `{SyscallAbi} path u g f s s' u' g' i parts j :
  ramfs_inv s → created path u g f s s' →
  walk (files (filesystem s)) u' g' i parts = Ok j → walk (files (filesystem s')) u' g' i parts = Ok j.
Proof.
  intros Hinv (parts0 & name & p & fp & ents & _ & _ & Hfp & Hd & Hget & _ & ->).
  set (n := last_inode_number (filesystem s) + 1).
  assert (∀ k fk, files (filesystem s) !! k = Some fk → k ≠ n) as Hold.
  { intros k fk Hk. assert (tree s !! k = Some (shape fk)) as Hk'
      by (unfold tree; by rewrite lookup_fmap, Hk).
    apply (t_range _ _ (r_tree _ s Hinv)) in Hk'. lia. }
  revert i. induction parts as [|part parts IH]; intros i; cbn; [done|].
  destruct (files (filesystem s) !! i) as [fi|] eqn:Hi; [|done].
  destruct (data fi) as [|d] eqn:Hdi; [done|].
  destruct (Z.land (current_perm fi u' g') 1 =? 0) eqn:Hperm; [done|].
  destruct (dir_get d part) as [k|] eqn:Hk; [|done].
  destruct (files (filesystem s) !! k) as [fk|] eqn:Hfk; [|done]. intros Hw. cbn in IH.
  assert (∃ fi' d', (<[p:=set_data (Directory (dir_insert ents name n)) fp]>
      (<[n:=f]> (files (filesystem s)))) !! i = Some fi' ∧ data fi' = Directory d' ∧
      current_perm fi' u' g' = current_perm fi u' g' ∧ dir_get d' part = Some k)
    as (fi' & d' & -> & -> & -> & Hk').
  { destruct (decide (i = p)) as [->|Hip].
    - simplify_eq. rewrite lookup_insert_eq. eexists _, _. split_and!; [done|done|done|].
      apply dir_get_insert; congruence.
    - rewrite !lookup_insert_ne by eauto using not_eq_sym. eauto 10. }
  rewrite Hperm, Hk'.
  assert (is_Some ((<[p:=set_data (Directory (dir_insert ents name n)) fp]>
      (<[n:=f]> (files (filesystem s)))) !! k)) as [? ->]; [|by apply IH].
  apply lookup_insert_is_Some'. right. apply lookup_insert_is_Some'. right. eauto.
Qed.

(** The new inode is where the path says. *)
Lemma created_new `{SyscallAbi} path u g f s s' :
  ramfs_inv s → created path u g f s s' →
  let n := last_inode_number (filesystem s) + 1 in
  files (filesystem s) !! n = None ∧ files (filesystem s') !! n = Some f ∧
  walk (files (filesystem s')) 0 0 ROOT_INODE (path_components path) = Ok n.
Proof.
  intros Hinv Hcr n. pose proof Hcr as (parts & name & p & fp & ents & Hpath & Hw & Hfp & Hd & Hget & Hpar & Hs').
  assert (files (filesystem s) !! n = None) as Hnone.
  { apply eq_None_not_Some. intros [x Hx]. assert (tree s !! n = Some (shape x)) as Hk
      by (unfold tree; by rewrite lookup_fmap, Hx).
    apply (t_range _ _ (r_tree _ s Hinv)) in Hk. lia. }
  assert (n ≠ p) as Hne by congruence.
  assert (files (filesystem s') !! n = Some f) as Hn.
  { rewrite Hs'. cbn. fold n. by rewrite lookup_insert_ne, lookup_insert_eq. }
  split_and!; [done|done|]. rewrite Hpath, walk_app.
  rewrite (walk_created path u g f s s' 0 0 ROOT_INODE parts p Hinv Hcr) by (by eapply walk_root).
  eapply walk_entry; [| | |by rewrite Hn|done].
  - rewrite Hs'. cbn. apply lookup_insert_eq.
  - done.
  - by apply dir_get_inserted.
Qed.

(** Creation.  A new path that [openat] creates resolves to a new empty inode owned
    by the caller, the descriptor refers to it, and every path that resolved before still
    resolves to the same inode for every user. *)
Theorem ramfs_create_resolves `{SyscallAbi} dirfd path fl ffl u g now s id s' :
  ramfs_inv s → fs_room s → plain (path_components path) → Z.land fl O_CREAT ≠ 0 →
  is_ok (walk (files (filesystem s)) 0 0 ROOT_INODE (path_components path)) = false →
  openat dirfd path fl ffl u g now s = (Ok id, s') →
  let fs' := files (filesystem s') in
  ∃ n f, files (filesystem s) !! n = None ∧ fs' !! n = Some f ∧ fresh_file u g f ∧
    hm_handles (handles s') !! id = Some n ∧
    walk fs' 0 0 ROOT_INODE (path_components path) = Ok n ∧
    ∀ u' g' parts j, walk (files (filesystem s)) u' g' ROOT_INODE parts = Ok j →
      walk fs' u' g' ROOT_INODE parts = Ok j.
Proof.
  intros Hinv [Hroom Hlast] Hplain Hcreat Hnew Hopen. revert Hopen.
  cut (wp (openat dirfd path fl ffl u g now) (λ r s', r = Ok id →
    ∃ n f, files (filesystem s) !! n = None ∧ files (filesystem s') !! n = Some f ∧
      fresh_file u g f ∧ hm_handles (handles s') !! id = Some n ∧
      walk (files (filesystem s')) 0 0 ROOT_INODE (path_components path) = Ok n ∧
      ∀ u' g' parts j, walk (files (filesystem s)) u' g' ROOT_INODE parts = Ok j →
        walk (files (filesystem s')) u' g' ROOT_INODE parts = Ok j) s).
  { intros Hwp Hopen. by apply (wp_eq _ _ _ _ _ Hopen Hwp). }
  unfold openat, inode_of, hm_get. do 4 wp_step.
  destruct (hm_handles (handles s) !! dirfd) as [dir|]; [|done].
  case_match; [done|]. wp_step. unfold wp at 1. rewrite path_exists_plain by done. cbn [fst snd].
  rewrite Hnew, !andb_false_r. cbv zeta. rewrite (proj2 (Z.eqb_neq _ _) Hcreat). cbn [negb].
  wp_step. apply create_wp; [done|lia|done|by intros i Hi; rewrite Hi in Hnew|done|].
  intros f s1 Hfresh Hcr. wp_step.
  assert (handles s1 = handles s) as Hh.
  { by destruct Hcr as (? & ? & ? & ? & ? & _ & _ & _ & _ & _ & _ & ->). }
  set (n := last_inode_number (filesystem s) + 1). rewrite Hh.
  apply hm_insert_wp; [apply (r_handles _ s Hinv)|by apply ramfs_room_hm|].
  intros next hm Hwf [= <-]. exists n, f. cbn. rewrite lookup_insert_eq.
  destruct (created_new _ _ _ _ _ _ Hinv Hcr) as (Hnone & Hf & Hpath).
  split_and!; try done. intros u' g' parts j. by eapply walk_created.
Qed.

(** *** Where the code does not do what it means to *)

(** Nothing can be removed: [unlinkat] compares the bitwise complement of the
    directory's inode number with the root inode, so that in every reachable state it
    answers EACCES for an open descriptor and leaves the filesystem as it is. *)
Theorem ramfs_unlink_refused `{SyscallAbi} try_reserve credentials name now s dirfd path fl u g :
  fs_reachable try_reserve credentials name now s →
  last_inode_number (filesystem s) < usize_max - 1 →
  unlinkat dirfd path fl u g s =
    (Err (if decide (is_Some (hm_handles (handles s) !! dirfd)) then EACCES else EBADF), s).
Proof.
  intros Hreach%fs_reachable_inv Hlast. rewrite unlinkat_refuses by done.
  by case_decide as Hfd; [destruct Hfd as [x ->]|apply eq_None_not_Some in Hfd as ->].
Qed.

(** Dot components.  Opening a path that ends in [.] panics, because the component
    after the removed one is taken without looking; and [..] does not lead to the parent:
    [a/../b] resolves like [a/b]. *)
Theorem ramfs_dot_components `{SyscallAbi} s dirfd fl ffl u g now a b :
  ramfs_inv s → hm_handles (handles s) !! dirfd = Some ROOT_INODE →
  is_dot a = false → is_dot b = false →
  (openat dirfd "." fl ffl u g now s).1 = Panic ∧
  resolve_generic (files (filesystem s)) [a; ".."; b] u g =
    walk (files (filesystem s)) u g ROOT_INODE [a; b].
Proof.
  intros Hinv Hfd Ha Hb. destruct (t_root _ _ (r_tree _ s Hinv)) as (q & d & Hr).
  unfold tree in Hr. apply shape_lookup in Hr as (root & Hroot & Hsh). apply shape_dir in Hsh as Hd.
  assert (∀ c, is_dot c = false → bool_decide (c = "..") = false) as Hdd.
  { intros c Hc. unfold is_dot in Hc. by apply orb_false_iff in Hc as [_ ?]. }
  split.
  - unfold openat, inode_of, hm_get, gets, lift, mbind, comp_bind. rewrite Hfd. cbn.
    unfold path_exists, resolve, gets, lift, mbind, comp_bind, resolve_generic. rewrite Hroot. cbn.
    by rewrite Hd.
  - unfold resolve_generic. rewrite Hroot. cbn [length resolve_loop lookup list_lookup].
    cbn [walk]. rewrite Hroot, Hd, Ha. destruct (_ =? 0); [done|]. cbn.
    rewrite (Hdd a) by done. cbn. destruct (dir_get d a) as [i|]; [|done].
    destruct (files (filesystem s) !! i) as [f|]; [|done]. destruct (data f) as [|ents]; [done|].
    destruct (_ =? 0); [done|]. change (is_dot "..") with true. cbn. rewrite (Hdd b) by done. cbn.
    destruct (dir_get ents b) as [j|]; [|done]. by destruct (files (filesystem s) !! j).
Qed.

(** The descriptor of [scheme_root] is not counted, so closing it on a fresh
    filesystem underflows the count of the root inode. *)
Theorem ramfs_close_root_panics `{SyscallAbi} name now :
  let '(r, s) := scheme_root (scheme_new name now) in
  r = Ok 1 ∧ (on_close 1 s).1 = Panic.
Proof. done. Qed.

(** *** Witnesses *)

Section Demo.
#[local] Existing Instance redox_abi.

Definition demo_now : TimeSpec := mk_timespec 7 0.
Definition demo_alloc (n : Z) : bool := n <=? 65536.
Definition demo_creds (pid : Z) : errno + bytes := inl ENOENT.

Definition fs_run (ops : list fs_op) : Scheme :=
  foldl (λ s op, (fs_step demo_alloc demo_creds op s).2) (scheme_new "ram" demo_now) ops.

(** Create the directory [d] and in it the file [f], opened read-write, and write. *)
Definition demo_ops : list fs_op :=
  [FRoot; FOpenat 1 "/d" (0x12000000 + 0x30000 + 493) 0 0 0 demo_now;
   FOpenat 1 "/d/f" (0x2000000 + 0x30000 + 420) 0 0 0 demo_now;
   FOpenat 1 "d/f" 0x30000 0 0 0 demo_now;
   FWrite 3 [1; 2; 3] 2].

Lemma fs_run_snoc ops op :
  fs_reachable demo_alloc demo_creds "ram" demo_now (fs_run ops) → fs_room (fs_run ops) →
  fs_allowed op (fs_run ops) →
  fs_reachable demo_alloc demo_creds "ram" demo_now (fs_run (ops ++ [op])).
Proof.
  intros Hr Hroom Hal. unfold fs_run. rewrite foldl_app. cbn.
  by eapply (fs_reach_step demo_alloc demo_creds _ _ _ op); [..|apply surjective_pairing].
Qed.

Lemma demo_reachable : fs_reachable demo_alloc demo_creds "ram" demo_now (fs_run demo_ops).
Proof.
  change demo_ops with ((((([] ++ [FRoot]) ++ [FOpenat 1 "/d" (0x12000000 + 0x30000 + 493) 0 0 0 demo_now]) ++
    [FOpenat 1 "/d/f" (0x2000000 + 0x30000 + 420) 0 0 0 demo_now]) ++
    [FOpenat 1 "d/f" 0x30000 0 0 0 demo_now]) ++ [FWrite 3 [1; 2; 3] 2]).
  do 5 (apply fs_run_snoc; [|split; by vm_compute|
    cbn [fs_allowed]; unfold plain; first [exact I|apply (bool_decide_unpack _); vm_compute; exact I]]).
  constructor.
Qed.

Lemma demo_inv : ramfs_inv (fs_run demo_ops).
Proof. eapply fs_reachable_inv, demo_reachable. Qed.

Lemma ramfs_never_panics_witness :
  ramfs_inv (fs_run demo_ops) ∧ (fs_step demo_alloc demo_creds (FClose 3) (fs_run demo_ops)).1 ≠ Panic.
Proof.
  apply (ramfs_never_panics demo_alloc demo_creds "ram" demo_now).
  - apply demo_reachable.
  - split; by vm_compute.
  - by vm_compute.
Defined.

Lemma ramfs_fpath_resolves_witness :
  ∃ names, walk (files (filesystem (fs_run demo_ops))) 0 0 ROOT_INODE names = Ok 3 ∧
    fpath 4 (replicate 20 0) (fs_run demo_ops) =
      fpath_with (replicate 20 0) "ram" (push_all (path_pieces names)).
Proof.
  apply (ramfs_fpath_resolves (fs_run demo_ops) 4 3); [apply demo_inv|by vm_compute].
Defined.

Lemma ramfs_resolve_is_walk_witness :
  resolve_generic (files (filesystem (fs_run demo_ops))) ["d"; "f"] 0 0 =
    walk (files (filesystem (fs_run demo_ops))) 0 0 ROOT_INODE ["d"; "f"].
Proof.
  eapply (ramfs_resolve_is_walk _ ["d"; "f"] 0 0); [by vm_compute|].
  by repeat constructor.
Defined.

(** The file holds two zeros and the bytes 1, 2, 3; the gap before offset 7 is filled. *)
Lemma ramfs_write_read_witness :
  ∃ s', write demo_alloc 3 [9; 8] 7 (fs_run demo_ops) = (Ok 2, s') ∧
    read 4 [0; 0] 7 0x10000 s' = (Ok (2, [9; 8]), s') ∧
    data <$> files (filesystem s') !! 3 = Some (FileBytes [0; 0; 1; 2; 3; 0; 0; 9; 8]).
Proof.
  eexists. split; [by vm_compute|]. split; [|by vm_compute].
  refine (proj1 (proj2 (ramfs_write_read demo_alloc 3 4 [9; 8] [0; 0] 7 0x10000
    (fs_run demo_ops) 2 _ _ eq_refl (or_introl eq_refl) _ _))).
  - lia.
  - by vm_compute.
  - by vm_compute.
Defined.

Lemma ramfs_create_resolves_witness :
  ∃ id s', openat 1 "d/g" (0x2000000 + 0x30000 + 420) 0 5 6 demo_now (fs_run demo_ops) = (Ok id, s') ∧
    ∃ n f, files (filesystem (fs_run demo_ops)) !! n = None ∧ files (filesystem s') !! n = Some f ∧
      fresh_file 5 6 f ∧ hm_handles (handles s') !! id = Some n ∧
      walk (files (filesystem s')) 0 0 ROOT_INODE (path_components "d/g") = Ok n ∧
      ∀ u' g' parts j, walk (files (filesystem (fs_run demo_ops))) u' g' ROOT_INODE parts = Ok j →
        walk (files (filesystem s')) u' g' ROOT_INODE parts = Ok j.
Proof.
  eexists _, _. split; [by vm_compute|].
  refine (ramfs_create_resolves 1 "d/g" (0x2000000 + 0x30000 + 420) 0 5 6 demo_now
    (fs_run demo_ops) _ _ demo_inv _ _ _ _ _).
  - split; by vm_compute.
  - unfold plain. apply (bool_decide_unpack _). vm_compute. exact I.
  - by vm_compute.
  - by vm_compute.
  - by vm_compute.
Defined.

Lemma ramfs_unlink_refused_witness :
  unlinkat 1 "d/f" 0 0 0 (fs_run demo_ops) = (Err EACCES, fs_run demo_ops).
Proof.
  refine (eq_trans (ramfs_unlink_refused demo_alloc demo_creds "ram" demo_now
    (fs_run demo_ops) 1 "d/f" 0 0 0 demo_reachable _) _).
  - by vm_compute.
  - by vm_compute.
Defined.

Lemma ramfs_dot_components_witness :
  (openat 1 "." 0x10000 0 0 0 demo_now (fs_run demo_ops)).1 = Panic ∧
  resolve_generic (files (filesystem (fs_run demo_ops))) ["d"; ".."; "f"] 0 0 =
    walk (files (filesystem (fs_run demo_ops))) 0 0 ROOT_INODE ["d"; "f"].
Proof.
  apply (ramfs_dot_components (fs_run demo_ops) 1); [apply demo_inv|by vm_compute|done|done].
Defined.
End Demo.
