(* ===== verification/Netstack.v ===== *)
(** * netstack: routing table and port allocator

    Models [netstack/src/router/route_table.rs] and [netstack/src/port_set.rs]. *)

From S2P Require Import Prelude.

(** ** Routing table *)

(** What the table uses of the address types of [smoltcp]. *)
Class IpTypes := {
  IpAddress : Type;
  IpCidr : Type;
  ip_eq_dec :: EqDecision IpAddress;
  cidr_eq_dec :: EqDecision IpCidr;
  prefix_len : IpCidr → Z;
  contains_addr : IpCidr → IpAddress → bool;
}.

Section Routes.
Context `{IpTypes}.

Record Rule := mk_rule {
  rule_filter : IpCidr;
  via : option IpAddress;
  dev : string;
  src : IpAddress;
}.

Definition rule_len (r : Rule) : Z := prefix_len (rule_filter r).

(** [RouteTable]: the [rules] *)
Definition RouteTable : Type := list Rule.

(** [iter().rev().find(..)] *)
Definition lookup_rule (rules : RouteTable) (dst : IpAddress) : option Rule :=
  find (λ rule, contains_addr (rule_filter rule) dst) (reverse rules).

Definition lookup_src_addr (rules : RouteTable) (dst : IpAddress) : option IpAddress :=
  rule ← lookup_rule rules dst; Some (src rule).

Definition lookup_gateway (rules : RouteTable) (dst : IpAddress) : option IpAddress :=
  rule ← lookup_rule rules dst; via rule.

Definition lookup_device (rules : RouteTable) (dst : IpAddress) : option string :=
  rule ← lookup_rule rules dst; Some (dev rule).

(** The index, found or not, that [binary_search_by_key] returns; among equal keys the
    standard library leaves open which one. *)
Definition insert_rule (binary_search : list Z → Z → nat) (new_rule : Rule) (rules : RouteTable) :
    RouteTable :=
  let i := binary_search (rule_len <$> rules) (rule_len new_rule) in
  take i rules ++ new_rule :: drop i rules.

(** [retain(|rule| rule.filter != filter)] *)
Definition remove_rule (f : IpCidr) (rules : RouteTable) : RouteTable :=
  filter (λ rule, rule_filter rule ≠ f) rules.

Definition change_src (old_src new_src : IpAddress) (rules : RouteTable) : RouteTable :=
  (λ rule, if decide (src rule = old_src) then mk_rule (rule_filter rule) (via rule) (dev rule) new_src
           else rule) <$> rules.

(** *** Longest prefix match *)

(** The contract of [binary_search_by_key] on a sorted slice: everything before the index
    is at most the key, everything from it on is at least the key. *)
Definition search_spec (search : list Z → Z → nat) : Prop :=
  ∀ keys key, StronglySorted Z.le keys →
    (search keys key ≤ length keys)%nat ∧
    Forall (λ k, k ≤ key) (take (search keys key) keys) ∧
    Forall (λ k, key ≤ k) (drop (search keys key) keys).

Definition routes_ok (rules : RouteTable) : Prop := StronglySorted Z.le (rule_len <$> rules).

Inductive route_op := RInsert (rule : Rule) | RRemove (f : IpCidr) | RChangeSrc (a b : IpAddress).

Definition route_step (search : list Z → Z → nat) (rules : RouteTable) (op : route_op) : RouteTable :=
  match op with
  | RInsert rule => insert_rule search rule rules
  | RRemove f => remove_rule f rules
  | RChangeSrc a b => change_src a b rules
  end.

Lemma insert_rule_ok search rule rules :
  search_spec search → routes_ok rules → routes_ok (insert_rule search rule rules).
Proof.
  intros Hsearch Hs. unfold routes_ok, insert_rule in *.
  destruct (Hsearch _ (rule_len rule) Hs) as (_ & Hle & Hge).
  set (i := search _ _) in *. rewrite <- (take_drop i (rule_len <$> rules)) in Hs.
  apply StronglySorted_app in Hs as (Hlr & Ht & Hd).
  rewrite fmap_app, fmap_cons, fmap_take, fmap_drop.
  rewrite Forall_forall in Hle, Hge. apply StronglySorted_app. split_and!; [|done|].
  - intros x y Hx [->|Hy]%elem_of_cons; [by apply Hle|by apply Hlr].
  - apply StronglySorted_cons. split; [|done]. by apply Forall_forall.
Qed.

Lemma remove_rule_ok f rules : routes_ok rules → routes_ok (remove_rule f rules).
Proof.
  unfold routes_ok, remove_rule. induction rules as [|r rules IH]; cbn; [done|].
  intros Hs. apply StronglySorted_inv in Hs as [Hs Hr]. case_decide; [|auto].
  cbn. constructor; [auto|]. rewrite Forall_fmap in *. apply Forall_forall. intros x [_ Hx]%list_elem_of_filter.
  by eapply Forall_forall in Hr.
Qed.

Lemma change_src_lens a b rules : rule_len <$> change_src a b rules = rule_len <$> rules.
Proof.
  unfold change_src. rewrite <- list_fmap_compose. apply list_fmap_ext. intros i r _. cbn.
  by case_decide.
Qed.

Lemma route_steps_ok search ops rules :
  search_spec search → routes_ok rules → routes_ok (foldl (route_step search) rules ops).
Proof.
  intros Hsearch. revert rules. induction ops as [|[r|f|a b] ops IH]; intros rules Hs; cbn; auto.
  - apply IH. by apply insert_rule_ok.
  - apply IH. by apply remove_rule_ok.
  - apply IH. unfold routes_ok. by rewrite change_src_lens.
Qed.

Lemma lookup_rule_spec rules dst :
  routes_ok rules →
  match lookup_rule rules dst with
  | Some r => r ∈ rules ∧ contains_addr (rule_filter r) dst = true ∧
      ∀ r', r' ∈ rules → contains_addr (rule_filter r') dst = true → rule_len r' ≤ rule_len r
  | None => ∀ r', r' ∈ rules → contains_addr (rule_filter r') dst = false
  end.
Proof.
  unfold routes_ok, lookup_rule. induction rules as [|r rules IH] using rev_ind; intros Hs.
  - intros r' Hr'. by apply elem_of_nil in Hr'.
  - rewrite fmap_app in Hs. rewrite reverse_snoc. cbn.
    apply StronglySorted_app in Hs as (Hlr & Hs & _).
    assert (∀ x, x ∈ rules → rule_len x ≤ rule_len r) as Hle.
    { intros x Hx. apply Hlr; [by apply list_elem_of_fmap_2|left]. }
    destruct (contains_addr (rule_filter r) dst) eqn:Hr.
    + split_and!; [set_solver|done|]. intros r' [?| ->]%elem_of_snoc _; [by apply Hle|done].
    + specialize (IH Hs). destruct (find _ _) as [r0|].
      * destruct IH as (? & ? & Hmax). split_and!; [set_solver|done|].
        intros r' [?| ->]%elem_of_snoc ?; [by apply Hmax|congruence].
      * intros r' [?| ->]%elem_of_snoc; auto.
Qed.
End Routes.

(** Longest prefix match.  However rules are inserted, removed and re-sourced, a
    lookup finds a rule whose network contains the destination whenever there is one, and
    no other matching rule has a longer prefix; the claim holds for every binary search
    that meets the contract of the standard library. *)
Theorem route_longest_prefix `{IpTypes} search ops dst :
  search_spec search →
  let rules := foldl (route_step search) [] ops in
  match lookup_rule rules dst with
  | Some r => r ∈ rules ∧ contains_addr (rule_filter r) dst = true ∧
      ∀ r', r' ∈ rules → contains_addr (rule_filter r') dst = true → rule_len r' ≤ rule_len r
  | None => ∀ r', r' ∈ rules → contains_addr (rule_filter r') dst = false
  end.
Proof. intros Hsearch rules. apply lookup_rule_spec, route_steps_ok; [done|constructor]. Qed.

(** A binary search that meets the contract: halve the interval [base, base + size) down
    to one element and compare it. *)
Fixpoint bisect (fuel : nat) (keys : list Z) (key : Z) (base size : nat) : nat :=
  match fuel with
  | O => base
  | S fuel =>
     if bool_decide (size ≤ 1)%nat then base
     else
       let half := Nat.div2 size in
       let mid := (base + half)%nat in
       if nth mid keys 0 <=? key then bisect fuel keys key mid (size - half)
       else bisect fuel keys key base (size - half)
  end.

Definition binary_search (keys : list Z) (key : Z) : nat :=
  match keys with
  | [] => 0
  | _ =>
     let i := bisect (length keys) keys key 0 (length keys) in
     if nth i keys 0 <? key then S i else i
  end.

Lemma sorted_nth keys i j :
  StronglySorted Z.le keys → (i ≤ j < length keys)%nat → nth i keys 0 ≤ nth j keys 0.
Proof.
  intros Hs [Hij Hj]. destruct (decide (i = j)) as [->|Hne]; [done|].
  rewrite <- (take_drop j keys) in Hs. apply StronglySorted_app in Hs as (Hlr & _ & _).
  destruct (lookup_lt_is_Some_2 keys i) as [x Hx]; [lia|].
  destruct (lookup_lt_is_Some_2 keys j) as [y Hy]; [lia|].
  rewrite (nth_lookup_Some _ _ _ _ Hx), (nth_lookup_Some _ _ _ _ Hy). apply Hlr.
  - apply (list_elem_of_lookup_2 _ i). by rewrite lookup_take_lt by lia.
  - apply (list_elem_of_lookup_2 _ 0%nat). by rewrite lookup_drop, Nat.add_0_r.
Qed.

(** Everything before the interval is at most the key, everything after it more. *)
Lemma bisect_spec fuel keys key base size :
  StronglySorted Z.le keys → (size ≤ fuel)%nat → (1 ≤ size)%nat → (base + size ≤ length keys)%nat →
  (∀ i, (i < base)%nat → nth i keys 0 ≤ key) →
  (∀ i, (base + size ≤ i < length keys)%nat → key < nth i keys 0) →
  let r := bisect fuel keys key base size in
  (r < length keys)%nat ∧ (∀ i, (i < r)%nat → nth i keys 0 ≤ key) ∧
  (∀ i, (r < i < length keys)%nat → key < nth i keys 0).
Proof.
  intros Hs. revert base size. induction fuel as [|fuel IH]; intros base size Hfuel Hsize Hlen Hlo Hhi;
    cbn; [lia|].
  case_bool_decide.
  { split_and!; [lia|done|]. intros i Hi. apply Hhi. lia. }
  pose proof (Nat.div2_div size). pose proof (Nat.div_mod_eq size 2).
  pose proof (Nat.mod_upper_bound size 2). destruct (Z.leb_spec (nth (base + Nat.div2 size) keys 0) key).
  - apply IH; [lia..| |].
    + intros i Hi. pose proof (sorted_nth keys i (base + Nat.div2 size) Hs). lia.
    + intros i Hi. apply Hhi. lia.
  - apply IH; [lia|lia|lia|done|].
    intros i Hi. pose proof (sorted_nth keys (base + Nat.div2 size) i Hs). lia.
Qed.

Lemma binary_search_spec : search_spec binary_search.
Proof.
  intros keys key Hs. unfold binary_search. destruct keys as [|k0 keys'] eqn:Hk; [done|].
  rewrite <- Hk in *. assert (1 ≤ length keys)%nat by (subst; cbn; lia).
  destruct (bisect_spec (length keys) keys key 0 (length keys)) as (Hr & Hlo & Hhi); [done|lia..|].
  set (r := bisect _ _ _ _ _) in *.
  assert (∀ P n, (∀ i, (i < n)%nat → (i < length keys)%nat → P (nth i keys 0)) → Forall P (take n keys))
    as Htake.
  { intros P n HP. apply Forall_lookup. intros i x Hx. apply lookup_take_Some in Hx as [Hx Hi].
    rewrite <- (nth_lookup_Some _ _ 0 _ Hx). apply HP; [done|]. by eapply lookup_lt_Some. }
  assert (∀ P n, (∀ i, (n ≤ i < length keys)%nat → P (nth i keys 0)) → Forall P (drop n keys)) as Hdrop.
  { intros P n HP. apply Forall_lookup. intros i x Hx. rewrite lookup_drop in Hx.
    rewrite <- (nth_lookup_Some _ _ 0 _ Hx). apply HP. apply lookup_lt_Some in Hx. lia. }
  destruct (Z.ltb_spec (nth r keys 0) key).
  - split_and!; [lia| |].
    + apply Htake. intros i Hi _. destruct (decide (i = r)) as [->|]; [lia|]. apply Hlo. lia.
    + apply Hdrop. intros i Hi. assert (key < nth i keys 0); [|lia]. apply Hhi. lia.
  - split_and!; [lia| |].
    + apply Htake. intros i Hi _. by apply Hlo.
    + apply Hdrop. intros i Hi. destruct (decide (i = r)) as [->|]; [done|].
      assert (key < nth i keys 0); [|lia]. apply Hhi. lia.
Qed.

(** Addresses and networks as numbers, a network being a base and a prefix length of a
    32-bit address. *)
Definition demo_ip : IpTypes := {|
  IpAddress := Z;
  IpCidr := Z * Z;
  prefix_len c := c.2;
  contains_addr c a := Z.shiftr a (32 - c.2) =? Z.shiftr c.1 (32 - c.2);
|}.

(** The default route, 10.0.0.0/8 and 10.1.0.0/16: the last one wins for 10.1.2.3. *)
Definition demo_rule (base len : Z) (d : string) : Rule (H := demo_ip) :=
  mk_rule (H := demo_ip) (base, len) None d 0.

Definition demo_routes : list (route_op (H := demo_ip)) :=
  [RInsert (demo_rule 0x0A010000 16 "eth1"); RInsert (demo_rule 0 0 "wan");
   RInsert (demo_rule 0x0A000000 8 "eth0")].

Lemma route_longest_prefix_witness :
  let rules := foldl (route_step (H := demo_ip) binary_search) [] demo_routes in
  lookup_device (H := demo_ip) rules 0x0A010203 = Some "eth1" ∧
  lookup_device (H := demo_ip) rules 0x0A020304 = Some "eth0" ∧
  match lookup_rule (H := demo_ip) rules 0x0A010203 with
  | Some r => r ∈ rules ∧ contains_addr (IpTypes := demo_ip) (rule_filter r) 0x0A010203 = true ∧
      ∀ r', r' ∈ rules → contains_addr (IpTypes := demo_ip) (rule_filter r') 0x0A010203 = true →
        rule_len r' ≤ rule_len r
  | None => ∀ r', r' ∈ rules → contains_addr (IpTypes := demo_ip) (rule_filter r') 0x0A010203 = false
  end.
Proof.
  split; [by vm_compute|]. split; [by vm_compute|].
  apply (route_longest_prefix (H := demo_ip)), binary_search_spec.
Defined.

(** ** Port allocator *)

Record PortSet := mk_port_set {
  from : Z;
  range : Z;
  next : Z;
  ports : gmap Z Z;
}.

Definition set_ports f (s : PortSet) := mk_port_set (from s) (range s) (next s) (f (ports s)).
Definition set_next n (s : PortSet) := mk_port_set (from s) (range s) n (ports s).

(** Checked [+] and [-] on [u16] *)
Definition add_u16 {S} (a b : Z) : comp S Z :=
  if bool_decide (a + b ≤ u16_max) then mret (a + b) else panic.

Definition port_set_new (lo hi : Z) : outcome (option PortSet) :=
  if bool_decide (hi < lo) then Ok None
  else if bool_decide (hi - lo + 1 ≤ u16_max) then Ok (Some (mk_port_set lo (hi - lo + 1) 0 ∅))
  else Panic.

(** The loop of [get_port]; there are 65536 keys. *)
Fixpoint find_port (fuel : nat) : comp PortSet Z :=
  match fuel with
  | O => panic
  | S fuel =>
     s ← get;
     match ports s !! next s with
     | None =>
        modify (set_ports (insert (next s) 1));;
        port ← add_u16 (from s) (next s);
        modify (set_next (wrap_u16 (next s + 1)));;
        mret port
     | Some _ =>
        modify (set_next (wrap_u16 (next s + 1)));;
        find_port fuel
     end
  end.

Definition get_port : comp PortSet (option Z) :=
  s ← get;
  if bool_decide (range s ≤ Z.of_nat (size (ports s))) then mret None
  else p ← find_port (Z.to_nat 65536); mret (Some p).

Definition claim_port (port : Z) : comp PortSet bool :=
  s ← get;
  match ports s !! port with
  | None => modify (set_ports (insert port 1));; mret true
  | Some _ => mret false
  end.

Definition acquire_port (port : Z) : comp PortSet unit :=
  s ← get;
  n ← add_usize (default 0 (ports s !! port)) 1;
  modify (set_ports (insert port n)).

Definition release_port (port : Z) : comp PortSet unit :=
  s ← get;
  match ports s !! port with
  | None => mret tt
  | Some n =>
     n ← sub_usize n 1;
     if bool_decide (n = 0) then modify (set_ports (delete port))
     else modify (set_ports (insert port n))
  end.

(** A socket on an ephemeral port that is opened and closed again. *)
Definition open_close : comp PortSet (option Z) :=
  p ← get_port;
  match p with
  | Some port => release_port port;; mret (Some port)
  | None => mret None
  end.

Fixpoint repeat_open_close (n : nat) : comp PortSet (list (option Z)) :=
  match n with
  | O => mret []
  | S n =>
     p ← open_close;
     ps ← repeat_open_close n;
     mret (p :: ps)
  end.

(** After [k] ports the first [k] offsets are taken. *)
Record handed_out (k : nat) (lo r : Z) (s : PortSet) : Prop := {
  ho_from : from s = lo;
  ho_range : range s = r;
  ho_next : next s = Z.of_nat k;
  ho_size : size (ports s) = k;
  ho_keys i : is_Some (ports s !! i) ↔ 0 ≤ i < Z.of_nat k;
}.

Lemma get_port_step k lo r s :
  0 < lo → lo + r ≤ 65536 → handed_out k lo r s → Z.of_nat k < r →
  ∃ s', get_port s = (Ok (Some (lo + Z.of_nat k)), s') ∧ handed_out (S k) lo r s'.
Proof.
  intros Hlo Hhi [Hf Hr Hn Hs Hk] Hlt. destruct s as [f r' n m]. cbn in *. subst f r' n.
  assert (m !! Z.of_nat k = None) as Hfree.
  { apply eq_None_not_Some. rewrite Hk. lia. }
  exists (mk_port_set lo r (Z.of_nat (S k)) (<[Z.of_nat k := 1]> m)). split.
  - unfold get_port, get, mbind, comp_bind. cbn [range ports]. rewrite Hs.
    rewrite bool_decide_eq_false_2 by lia.
    replace (Z.to_nat 65536) with (S (Z.to_nat 65535)) by lia.
    cbn [find_port]. unfold get, modify, mbind, comp_bind, add_u16.
    cbn [ports next from]. rewrite Hfree, bool_decide_eq_true_2 by (unfold u16_max; lia).
    unfold mret, comp_ret, set_ports, set_next. cbn [ports next from range].
    unfold wrap_u16. rewrite Z.mod_small by lia. repeat f_equal. lia.
  - split; cbn; [done|done|done| |].
    + rewrite map_size_insert_None by done. lia.
    + intros i. destruct (decide (i = Z.of_nat k)) as [->|Hne].
      * rewrite lookup_insert_eq. split; [lia|eauto].
      * rewrite lookup_insert_ne by done. rewrite Hk. lia.
Qed.

(** A port above all offsets is not in the table. *)
Lemma handed_out_absent k lo r s port :
  handed_out k lo r s → Z.of_nat k ≤ port → ports s !! port = None.
Proof. intros Hs Hp. apply eq_None_not_Some. rewrite (ho_keys _ _ _ _ Hs). lia. Qed.

Lemma open_close_step k lo r s :
  r ≤ lo → lo + r ≤ 65536 → handed_out k lo r s → Z.of_nat k < r →
  ∃ s', open_close s = (Ok (Some (lo + Z.of_nat k)), s') ∧ handed_out (S k) lo r s'.
Proof.
  intros Hlo Hhi Hs Hlt. destruct (get_port_step k lo r s) as (s' & Hget & Hs'); [lia|done..|].
  exists s'. split; [|done]. unfold open_close, mbind, comp_bind. rewrite Hget.
  unfold release_port, get, mbind, comp_bind.
  by rewrite (handed_out_absent _ _ _ _ (lo + Z.of_nat k) Hs') by lia.
Qed.

Lemma repeat_open_close_spec n k lo r s :
  r ≤ lo → lo + r ≤ 65536 → handed_out k lo r s → Z.of_nat (n + k) ≤ r →
  ∃ s', repeat_open_close n s = (Ok ((λ i, Some (lo + Z.of_nat i)) <$> seq k n), s') ∧
    handed_out (n + k) lo r s'.
Proof.
  revert k s. induction n as [|n IH]; intros k s Hlo Hhi Hs Hle; [by exists s|].
  destruct (open_close_step k lo r s Hlo Hhi Hs) as (s1 & Hrun & Hs1); [lia|].
  destruct (IH (S k) s1 Hlo Hhi Hs1) as (s2 & Hrun2 & Hs2); [lia|].
  exists s2. cbn [repeat_open_close]. unfold mbind, comp_bind. rewrite Hrun, Hrun2.
  split; [done|]. by replace (S n + k)%nat with (n + S k)%nat by lia.
Qed.

Lemma port_set_new_spec lo hi s :
  0 ≤ lo ≤ hi → port_set_new lo hi = Ok (Some s) → handed_out 0 lo (hi - lo + 1) s.
Proof.
  intros Hlo. unfold port_set_new. rewrite bool_decide_eq_false_2 by lia. case_bool_decide; [|done].
  intros [= <-]. split; cbn; [done..|]. intros i. rewrite lookup_empty. split; [by intros [? ?]|lia].
Qed.

(** Ephemeral ports run out for good.  [get_port] records the offset of a port while
    [release_port] forgets the port itself, so a port is lost when its socket closes: in a
    set such as 49152..65535 opening and closing one socket after another hands out each
    port once, in order, and then never again. *)
Theorem port_set_exhausts lo hi s :
  0 ≤ lo ≤ hi → hi ≤ u16_max → hi - lo + 1 ≤ lo →
  port_set_new lo hi = Ok (Some s) →
  let n := Z.to_nat (hi - lo + 1) in
  ∃ s', repeat_open_close n s = (Ok ((λ i, Some (lo + Z.of_nat i)) <$> seq 0 n), s') ∧
    get_port s' = (Ok None, s').
Proof.
  intros Hlo Hhi Hr Hnew n. unfold u16_max in Hhi.
  destruct (repeat_open_close_spec n 0 lo (hi - lo + 1) s) as (s' & Hrun & Hs');
    [lia|lia|by apply port_set_new_spec|lia|].
  exists s'. split; [done|]. unfold get_port, get, mbind, comp_bind.
  rewrite (ho_range _ _ _ _ Hs'), (ho_size _ _ _ _ Hs'). by rewrite bool_decide_eq_true_2 by lia.
Qed.

Lemma port_set_exhausts_witness :
  ∃ s', repeat_open_close 3 (mk_port_set 10 3 0 ∅) = (Ok [Some 10; Some 11; Some 12], s') ∧
    get_port s' = (Ok None, s').
Proof. apply (port_set_exhausts 10 12); [lia|unfold u16_max; lia|lia|reflexivity]. Defined.

(** The two ways of keying collide: after [k + 1] ephemeral sockets were opened and
    closed the unrelated port [k] is refused, and a port that [get_port] has just handed
    out can be claimed by someone else. *)
Theorem port_set_keys_collide lo hi s k :
  0 ≤ lo ≤ hi → hi ≤ u16_max → hi - lo + 1 ≤ lo → Z.of_nat (S k) < hi - lo + 1 →
  port_set_new lo hi = Ok (Some s) →
  ∃ ps s' port s'', repeat_open_close (S k) s = (Ok ps, s') ∧
    claim_port (Z.of_nat k) s' = (Ok false, s') ∧
    get_port s' = (Ok (Some port), s'') ∧ (claim_port port s'').1 = Ok true.
Proof.
  intros Hlo Hhi Hr Hk Hnew. unfold u16_max in Hhi.
  destruct (repeat_open_close_spec (S k) 0 lo (hi - lo + 1) s) as (s' & Hrun & Hs');
    [lia|lia|by apply port_set_new_spec|lia|].
  destruct (get_port_step (S k + 0) lo (hi - lo + 1) s') as (s'' & Hget & Hs''); [lia|lia|done|lia|].
  eexists _, s', _, s''. split_and!; [done| |done|].
  - unfold claim_port, get, mbind, comp_bind.
    destruct (proj2 (ho_keys _ _ _ _ Hs' (Z.of_nat k))) as [x ->]; [lia|done].
  - unfold claim_port, get, mbind, comp_bind.
    by rewrite (handed_out_absent _ _ _ _ (lo + Z.of_nat (S k + 0)) Hs'') by lia.
Qed.

(** After 81 connections port 80 cannot be bound any more. *)
Lemma port_set_keys_collide_witness :
  ∃ ps s' port s'', repeat_open_close 81 (mk_port_set 49152 16384 0 ∅) = (Ok ps, s') ∧
    claim_port 80 s' = (Ok false, s') ∧
    get_port s' = (Ok (Some port), s'') ∧ (claim_port port s'').1 = Ok true.
Proof.
  apply (port_set_keys_collide 49152 65535 _ 80); [lia|unfold u16_max; lia|lia|lia|reflexivity].
Defined.
