(* ===== verification/Link.v ===== *)
(** * netstack: link devices

    [netstack/src/link]: the Ethernet link with its neighbour cache and ARP state machine
    ([ethernet.rs]), the loopback device ([loopback.rs]) and the device list ([mod.rs]).

    A packet for a neighbour whose hardware address is not known waits in
    [waiting_packets]; at most one address is being asked for at a time, that of the
    oldest waiting packet, and it is asked for three times before its packets are dropped.

    The network file is the list [net_in] of the results that reading it will give and
    the list [net_out] of the frames written to it.  Packet buffers, addresses and wire
    formats belong to [smoltcp]: the classes [PacketBuffers] and [Wire].  In this build
    every address is an IPv4 address. *)

From S2P Require Import Prelude Netstack.

(** ** smoltcp *)

(** [smoltcp::storage::PacketBuffer]: a bounded queue of packets with a header.
    [pb_enqueue] reserves a slot and copies the packet into it. *)
Class PacketBuffers := {
  packet_buffer : Type → Type;
  pb_new {H} : nat → nat → packet_buffer H;
  pb_contents {H} : packet_buffer H → list (H * bytes);
  pb_enqueue {H} : H → bytes → packet_buffer H → option (packet_buffer H);
  pb_dequeue {H} : packet_buffer H → option ((H * bytes) * packet_buffer H);
  pb_peek {H} : packet_buffer H → option (H * bytes);
  pb_is_empty {H} : packet_buffer H → bool;
  pb_is_full {H} : packet_buffer H → bool;
}.

(** Its documentation: packets come out in the order they went in, and a failed operation
    changes nothing. *)
Class PacketBufferLaws (PB : PacketBuffers) : Prop := {
  pb_new_empty {H} n m : pb_contents (pb_new n m : packet_buffer H) = [];
  pb_enqueue_some {H} h p (b b' : packet_buffer H) :
    pb_enqueue h p b = Some b' → pb_contents b' = pb_contents b ++ [(h, p)];
  pb_dequeue_none {H} (b : packet_buffer H) : pb_dequeue b = None ↔ pb_contents b = [];
  pb_dequeue_some {H} x (b b' : packet_buffer H) :
    pb_dequeue b = Some (x, b') → pb_contents b = x :: pb_contents b';
  pb_peek_head {H} (b : packet_buffer H) : pb_peek b = head (pb_contents b);
  pb_is_empty_spec {H} (b : packet_buffer H) : pb_is_empty b = bool_decide (length (pb_contents b) = 0%nat);
}.

(** [EthernetProtocol], as far as the link tells its values apart *)
Inductive EthernetProtocol : Set := ProtoIpv4 | ProtoArp | ProtoOther.

Inductive ArpOperation : Set := Request | Reply | Unknown.

#[global] Instance arp_operation_eq_dec : EqDecision ArpOperation.
Proof. solve_decision. Defined.

Record ArpRepr (Mac Ip : Type) := mk_arp {
  operation : ArpOperation;
  source_hardware_addr : Mac;
  source_protocol_addr : Ip;
  target_hardware_addr : Mac;
  target_protocol_addr : Ip;
}.
Arguments mk_arp {_ _} _ _ _ _ _.
Arguments operation {_ _} _.
Arguments source_hardware_addr {_ _} _.
Arguments source_protocol_addr {_ _} _.
Arguments target_hardware_addr {_ _} _.
Arguments target_protocol_addr {_ _} _.

(** [smoltcp::wire] *)
Class Wire (IP : IpTypes) := {
  EthernetAddress : Type;
  mac_eq_dec :: EqDecision EthernetAddress;
  ip_countable :: Countable IpAddress;
  BROADCAST : EthernetAddress;
  EMPTY_MAC : EthernetAddress;
  mac_is_broadcast : EthernetAddress → bool;
  mac_is_unicast : EthernetAddress → bool;
  ip_is_broadcast : IpAddress → bool;
  ip_is_multicast : IpAddress → bool;
  ip_is_unspecified : IpAddress → bool;
  cidr_address : IpCidr → IpAddress;
  cidr_broadcast : IpCidr → option IpAddress;
  (** [EthernetRepr::emit] with the payload behind it *)
  eth_emit : EthernetAddress → EthernetAddress → EthernetProtocol → bytes → bytes;
  (** [EthernetRepr::parse]: the destination and the type *)
  eth_parse : bytes → option (EthernetAddress * EthernetProtocol);
  eth_payload : bytes → bytes;
  arp_emit : ArpRepr EthernetAddress IpAddress → bytes;
  (** [ArpPacket::new_checked] and [ArpRepr::parse]; [None] also for anything that is
      not Ethernet and IPv4 *)
  arp_parse : bytes → option (ArpRepr EthernetAddress IpAddress);
}.

Section Link.
Context `{IP : IpTypes} `{W : !Wire IP} `{PB : PacketBuffers}.

(** [Instant]: microseconds *)
Definition Instant : Type := Z.

Record Neighbor := mk_neighbor {
  n_hardware_address : EthernetAddress;
  expires_at : Instant;
}.

Inductive ArpState : Type :=
  | Discovered
  | Discovering (target : IpAddress) (tries : Z) (silent_until : Instant).

(** The result of a [read]: would block, another error, or a frame *)
Inductive read_result : Type := WouldBlock | ReadError | Frame (data : bytes).

Record EthernetLink := mk_ethernet {
  e_name : string;
  neighbor_cache : gmap IpAddress Neighbor;
  arp_state : ArpState;
  waiting_packets : packet_buffer IpAddress;
  input_buffer : bytes;
  net_in : list read_result;
  net_out : list bytes;
  hardware_address : option EthernetAddress;
  ip_address : option IpCidr;
}.

Definition MAX_WAITING_PACKET_COUNT : nat := 10.
Definition MTU : nat := 1500.
Definition NEIGHBOR_LIVE_TIME : Z := 60000000.
Definition ARP_SILENCE_TIME : Z := 1000000.

Definition set_cache f (e : EthernetLink) := mk_ethernet (e_name e) (f (neighbor_cache e)) (arp_state e)
  (waiting_packets e) (input_buffer e) (net_in e) (net_out e) (hardware_address e) (ip_address e).
Definition set_arp a (e : EthernetLink) := mk_ethernet (e_name e) (neighbor_cache e) a
  (waiting_packets e) (input_buffer e) (net_in e) (net_out e) (hardware_address e) (ip_address e).
Definition set_waiting w (e : EthernetLink) := mk_ethernet (e_name e) (neighbor_cache e) (arp_state e)
  w (input_buffer e) (net_in e) (net_out e) (hardware_address e) (ip_address e).
Definition set_input b (e : EthernetLink) := mk_ethernet (e_name e) (neighbor_cache e) (arp_state e)
  (waiting_packets e) b (net_in e) (net_out e) (hardware_address e) (ip_address e).
Definition set_net_in l (e : EthernetLink) := mk_ethernet (e_name e) (neighbor_cache e) (arp_state e)
  (waiting_packets e) (input_buffer e) l (net_out e) (hardware_address e) (ip_address e).
Definition push_out f (e : EthernetLink) := mk_ethernet (e_name e) (neighbor_cache e) (arp_state e)
  (waiting_packets e) (input_buffer e) (net_in e) (net_out e ++ [f]) (hardware_address e) (ip_address e).
Definition set_hardware h (e : EthernetLink) := mk_ethernet (e_name e) (neighbor_cache e) (arp_state e)
  (waiting_packets e) (input_buffer e) (net_in e) (net_out e) h (ip_address e).
Definition set_ip i (e : EthernetLink) := mk_ethernet (e_name e) (neighbor_cache e) (arp_state e)
  (waiting_packets e) (input_buffer e) (net_in e) (net_out e) (hardware_address e) i.

Definition ethernet_new (name : string) (network_file : list read_result) : EthernetLink :=
  mk_ethernet name ∅ Discovered (pb_new MAX_WAITING_PACKET_COUNT (MTU * MAX_WAITING_PACKET_COUNT))
    (replicate MTU 0) network_file [] None None.

(** [send_to] *)
Definition send_to (dst : EthernetAddress) (payload : bytes) (proto : EthernetProtocol) :
    comp EthernetLink unit :=
  e ← get;
  match hardware_address e with
  | None => mret tt
  | Some hw => put (push_out (eth_emit hw dst proto payload) e)
  end.

(** The loops that take the packets for [ip] off the front of the queue; [each] is done
    with a packet taken, and [next] when another address comes first.  One turn per
    waiting packet is enough fuel. *)
Fixpoint take_front (fuel : nat) (ip : IpAddress) (each : bytes → comp EthernetLink unit)
    (next : IpAddress → comp EthernetLink unit) (waiting : packet_buffer IpAddress) :
    comp EthernetLink (packet_buffer IpAddress) :=
  match pb_peek waiting with
  | None => modify (set_arp Discovered);; mret waiting
  | Some (dst, _) =>
     if bool_decide (dst = ip) then
       match fuel with
       | O => panic
       | S fuel =>
          match pb_dequeue waiting with
          | None => panic
          | Some ((_, packet), waiting) => each packet;; take_front fuel ip each next waiting
          end
       end
     else
       modify (set_arp (Discovering dst 0 0));;
       next dst;;
       mret waiting
  end.

(** [drop_waiting_packets]; [send_arp] is the call it makes *)
Definition drop_waiting_packets (send_arp : comp EthernetLink unit) (ip : IpAddress) :
    comp EthernetLink unit :=
  e ← get;
  let waiting := waiting_packets e in
  waiting ← take_front (length (pb_contents waiting)) ip (λ _, mret tt)
              (λ _, mret tt) waiting;
  modify (set_waiting waiting);;
  e ← get;
  match arp_state e with
  | Discovered => mret tt
  | Discovering _ _ _ => send_arp
  end.

(** [send_arp] and [drop_waiting_packets] call each other; the second [send_arp] starts
    from no tries, so that two levels are enough *)
Fixpoint send_arp_depth (fuel : nat) (now : Instant) : comp EthernetLink unit :=
  e ← get;
  match hardware_address e, ip_address e with
  | Some hw, Some ip =>
     match arp_state e with
     | Discovered => mret tt
     | Discovering target tries silent_until =>
        if bool_decide (now < silent_until) then mret tt
        else if bool_decide (3 ≤ tries) then
          match fuel with
          | O => panic
          | S fuel => drop_waiting_packets (send_arp_depth fuel now) target
          end
        else
          modify (set_arp (Discovering target (tries + 1) (now + ARP_SILENCE_TIME)));;
          send_to BROADCAST
            (arp_emit (mk_arp Request hw (cidr_address ip) BROADCAST target)) ProtoArp
     end
  | _, _ => mret tt
  end.

Definition send_arp (now : Instant) : comp EthernetLink unit := send_arp_depth 1 now.

(** [check_waiting_packets]; while it runs, [waiting_packets] is an empty buffer *)
Definition check_waiting_packets (ip : IpAddress) (mac : EthernetAddress) (now : Instant) :
    comp EthernetLink unit :=
  e ← get;
  let waiting := waiting_packets e in
  modify (set_waiting (pb_new 0 0));;
  waiting ← take_front (length (pb_contents waiting)) ip
              (λ packet, send_to mac packet ProtoIpv4) (λ _, send_arp now) waiting;
  modify (set_waiting waiting).

(** [handle_missing_neighbor] *)
Definition handle_missing_neighbor (next_hop : IpAddress) (packet : bytes) (now : Instant) :
    comp EthernetLink unit :=
  e ← get;
  match pb_enqueue next_hop packet (waiting_packets e) with
  | None => mret tt
  | Some waiting =>
     modify (set_waiting waiting);;
     match arp_state e with
     | Discovered =>
        modify (set_arp (Discovering next_hop 0 0));;
        send_arp now
     | Discovering _ _ _ => mret tt
     end
  end.

(** The early returns of [process_arp]: the packet is for this machine, is a request or a
    reply, comes from a single host and asks for, or answers to, our address *)
Definition arp_accepted (hw : EthernetAddress) (ip : IpCidr) (repr : ArpRepr EthernetAddress IpAddress) :
    bool :=
  let target := target_hardware_addr repr in
  let is_unicast_mac := negb (bool_decide (target = EMPTY_MAC)) && negb (mac_is_broadcast target) in
  negb (is_unicast_mac && negb (bool_decide (hw = target))) &&
  negb (bool_decide (operation repr = Unknown)) &&
  negb (negb (mac_is_unicast (source_hardware_addr repr)) ||
        ip_is_broadcast (source_protocol_addr repr) ||
        ip_is_multicast (source_protocol_addr repr) ||
        ip_is_unspecified (source_protocol_addr repr)) &&
  bool_decide (cidr_address ip = target_protocol_addr repr).

(** [process_arp] *)
Definition process_arp (packet : bytes) (now : Instant) : comp EthernetLink unit :=
  e ← get;
  match hardware_address e, ip_address e with
  | Some hw, Some ip =>
     match arp_parse packet with
     | None => mret tt
     | Some repr =>
        if arp_accepted hw ip repr then
          modify (set_cache (<[source_protocol_addr repr :=
            mk_neighbor (source_hardware_addr repr) (now + NEIGHBOR_LIVE_TIME)]>));;
          (if bool_decide (operation repr = Request) then
             send_to (source_hardware_addr repr)
               (arp_emit (mk_arp Reply hw (cidr_address ip)
                            (source_hardware_addr repr) (source_protocol_addr repr))) ProtoArp
           else mret tt);;
          check_waiting_packets (source_protocol_addr repr) (source_hardware_addr repr) now
        else mret tt
     end
  | _, _ => mret tt
  end.

(** [LinkDevice::send] *)
Definition eth_send (next_hop : IpAddress) (packet : bytes) (now : Instant) : comp EthernetLink unit :=
  e ← get;
  let local_broadcast :=
    match ip_address e with
    | Some cidr => bool_decide (cidr_broadcast cidr = Some next_hop)
    | None => false
    end in
  if local_broadcast || ip_is_broadcast next_hop then send_to BROADCAST packet ProtoIpv4
  else
    match neighbor_cache e !! next_hop with
    | None => handle_missing_neighbor next_hop packet now
    | Some n =>
       if bool_decide (expires_at n < now) then
         modify (set_cache (delete next_hop));;
         handle_missing_neighbor next_hop packet now
       else send_to (n_hardware_address n) packet ProtoIpv4
    end.

(** The loop of [LinkDevice::recv]; a file that has no more results would block.  The
    buffer keeps what an earlier, longer frame left behind the new one. *)
Fixpoint recv_loop (hw : EthernetAddress) (now : Instant) (input : list read_result)
    (buffer : bytes) : comp EthernetLink (option bytes) :=
  match input with
  | [] | WouldBlock :: _ =>
     modify (set_net_in (tail input));;
     send_arp now;;
     modify (set_input buffer);;
     mret None
  | ReadError :: input =>
     modify (set_net_in input);;
     modify (set_input buffer);;
     mret None
  | Frame data :: input =>
     modify (set_net_in input);;
     let buffer := copy_at buffer 0 (take (length buffer) data) in
     match eth_parse buffer with
     | None => recv_loop hw now input buffer
     | Some (dst, ethertype) =>
        if negb (mac_is_broadcast dst) && negb (bool_decide (dst = EMPTY_MAC)) &&
           negb (bool_decide (dst = hw))
        then recv_loop hw now input buffer
        else
          match ethertype with
          | ProtoIpv4 => modify (set_input buffer);; mret (Some (eth_payload buffer))
          | ProtoArp => process_arp (eth_payload buffer) now;; recv_loop hw now input buffer
          | ProtoOther => recv_loop hw now input buffer
          end
     end
  end.

Definition eth_recv (now : Instant) : comp EthernetLink (option bytes) :=
  e ← get;
  match hardware_address e with
  | None => mret None
  | Some hw =>
     modify (set_input []);;
     recv_loop hw now (net_in e) (input_buffer e)
  end.
End Link.

(** ** The ARP state machine *)

Section Ethernet.
Context `{IP : IpTypes} `{W : !Wire IP} `{PB : PacketBuffers} `{PBL : !PacketBufferLaws PB}.
Implicit Types (e : EthernetLink) (w : packet_buffer IpAddress).

(** The packets that wait, oldest first *)
Definition waiting e : list (IpAddress * bytes) := pb_contents (waiting_packets e).

(** The packets for [ip] at the front of a queue, and the rest *)
Fixpoint front (ip : IpAddress) (l : list (IpAddress * bytes)) : list bytes :=
  match l with
  | (dst, p) :: l => if bool_decide (dst = ip) then p :: front ip l else []
  | [] => []
  end.

Fixpoint behind (ip : IpAddress) (l : list (IpAddress * bytes)) : list (IpAddress * bytes) :=
  match l with
  | (dst, p) :: l' => if bool_decide (dst = ip) then behind ip l' else l
  | [] => []
  end.

(** Address resolution is idle exactly when nothing waits, and otherwise asks for the
    address of the oldest packet. *)
Definition arp_matches (a : ArpState) (l : list (IpAddress * bytes)) : Prop :=
  match a with
  | Discovered => l = []
  | Discovering target tries _ => 0 ≤ tries ≤ 3 ∧ ∃ p l', l = (target, p) :: l'
  end.

(** The state for a queue of which no address has been asked for *)
Definition fresh_arp (l : list (IpAddress * bytes)) : ArpState :=
  match l with [] => Discovered | (dst, _) :: _ => Discovering dst 0 0 end.

Lemma fresh_arp_matches l : arp_matches (fresh_arp l) l.
Proof. destruct l as [|[dst p] l]; cbn; [done|]. split; [lia|eauto]. Qed.

(** Sending, as a function *)
Definition sent (dst : EthernetAddress) (proto : EthernetProtocol) e (payload : bytes) : EthernetLink :=
  match hardware_address e with
  | None => e
  | Some hw => push_out (eth_emit hw dst proto payload) e
  end.

Lemma send_to_eq dst payload proto e : send_to dst payload proto e = (Ok tt, sent dst proto e payload).
Proof. unfold send_to, sent. rewrite bind_get. by destruct (hardware_address e). Qed.

Lemma take_front_eq ip each next (f : EthernetLink → bytes → EthernetLink) (g : EthernetLink → EthernetLink) :
  (∀ p e, each p e = (Ok tt, f e p)) → (∀ d e, arp_state e = Discovering d 0 0 → next d e = (Ok tt, g e)) →
  ∀ fuel w e, (length (pb_contents w) ≤ fuel)%nat →
  ∃ w', pb_contents w' = behind ip (pb_contents w) ∧
    take_front fuel ip each next w e =
      (Ok w', let e' := set_arp (fresh_arp (behind ip (pb_contents w)))
                          (foldl f e (front ip (pb_contents w))) in
              match behind ip (pb_contents w) with [] => e' | _ => g e' end).
Proof.
  intros Heach Hnext. induction fuel as [|fuel IH]; intros w e Hf.
  - exists w. destruct (pb_contents w) as [|x l] eqn:Hw; [|cbn in Hf; lia].
    cbn [take_front]. rewrite pb_peek_head, Hw. done.
  - cbn [take_front]. rewrite pb_peek_head. destruct (pb_contents w) as [|[dst p] l] eqn:Hw.
    { exists w. done. }
    cbn [head front behind]. case_bool_decide as Hd.
    + destruct (pb_dequeue w) as [[[h p'] w']|] eqn:Hdq; cycle 1.
      { apply pb_dequeue_none in Hdq. congruence. }
      apply pb_dequeue_some in Hdq. rewrite Hw in Hdq. injection Hdq as <- <- Hl.
      destruct (IH w' (f e p)) as (w2 & Hc & E); [rewrite <- Hl; cbn in Hf; lia|].
      exists w2. rewrite Hl in *. split; [done|].
      rewrite (bind_ok _ _ _ _ _ (Heach p e)), E. done.
    + exists w. rewrite Hw. split; [done|].
      rewrite bind_modify, (bind_ok _ _ _ _ _ (Hnext dst (set_arp (Discovering dst 0 0) e) eq_refl)). done.
Qed.

Lemma set_arp_id e : set_arp (arp_state e) e = e.
Proof. by destruct e. Qed.

(** A request, when one is due and the last has not been the third *)
Definition asked (now : Instant) e : EthernetLink :=
  match hardware_address e, ip_address e, arp_state e with
  | Some hw, Some ip, Discovering target tries silent_until =>
     if bool_decide (silent_until ≤ now) && bool_decide (tries < 3) then
       push_out (eth_emit hw BROADCAST ProtoArp
                   (arp_emit (mk_arp Request hw (cidr_address ip) BROADCAST target)))
         (set_arp (Discovering target (tries + 1) (now + ARP_SILENCE_TIME)) e)
     else e
  | _, _, _ => e
  end.

Definition gives_up (now : Instant) e : bool :=
  match hardware_address e, ip_address e, arp_state e with
  | Some _, Some _, Discovering _ tries silent_until =>
     bool_decide (silent_until ≤ now) && bool_decide (3 ≤ tries)
  | _, _, _ => false
  end.

Lemma send_arp_depth_asked fuel now e :
  gives_up now e = false → send_arp_depth fuel now e = (Ok tt, asked now e).
Proof.
  unfold gives_up, asked. intros Hg. destruct fuel; cbn [send_arp_depth]; rewrite bind_get;
    destruct (hardware_address e) as [hw|] eqn:Hh; try done;
    destruct (ip_address e) as [ip|] eqn:Hi; try done;
    destruct (arp_state e) as [|target tries silent] eqn:Ha; try done;
    repeat case_bool_decide; try lia; try done;
    rewrite bind_modify, send_to_eq; unfold sent; cbn; by rewrite Hh.
Qed.

(** Dropping the packets of an address that does not answer, then asking for the next *)
Definition dropped (now : Instant) (target : IpAddress) w e : EthernetLink :=
  asked now (set_waiting w (set_arp (fresh_arp (behind target (waiting e))) e)).

Lemma send_arp_eq now e :
  ∃ w, (gives_up now e = true → ∀ target tries silent, arp_state e = Discovering target tries silent →
          pb_contents w = behind target (waiting e)) ∧
    send_arp now e =
      (Ok tt, match arp_state e with
              | Discovering target _ _ => if gives_up now e then dropped now target w e else asked now e
              | Discovered => asked now e
              end).
Proof.
  destruct (gives_up now e) eqn:Hg; cycle 1.
  { exists (waiting_packets e). split; [done|]. unfold send_arp.
    rewrite send_arp_depth_asked by done. by destruct (arp_state e). }
  pose proof Hg as Hg'. unfold gives_up in Hg'.
  destruct (hardware_address e) as [hw|] eqn:Hh; [|done].
  destruct (ip_address e) as [ip|] eqn:Hi; [|done].
  destruct (arp_state e) as [|target tries silent] eqn:Ha; [done|].
  apply andb_true_iff in Hg' as [Hs%bool_decide_eq_true Ht%bool_decide_eq_true].
  destruct (take_front_eq target (λ _, mret tt : comp EthernetLink unit)
    (λ _, mret tt : comp EthernetLink unit) (λ e _, e) id
    (λ _ _, eq_refl) (λ _ _ _, eq_refl) (length (waiting e)) (waiting_packets e) e) as (w & Hw & E); [done|].
  assert (∀ l : list bytes, foldl (λ (e : EthernetLink) (_ : bytes), e) e l = e) as Hfold
    by (induction l; done).
  exists w. split; [intros _ t' tr' s' [= -> _ _]; exact Hw|].
  unfold send_arp. cbn [send_arp_depth]. rewrite bind_get, Hh, Hi, Ha.
  rewrite (bool_decide_eq_false_2 (now < silent)), (bool_decide_eq_true_2 (3 ≤ tries)) by lia.
  unfold drop_waiting_packets. rewrite bind_get. fold (waiting e).
  rewrite (bind_ok _ _ _ _ _ E), bind_modify, bind_get, Hfold. unfold dropped. fold (waiting e).
  change (pb_contents (waiting_packets e)) with (waiting e).
  destruct (behind target (waiting e)) as [|[d p] l]; cbn [fresh_arp set_waiting arp_state set_arp].
  - unfold asked. cbn. by rewrite Hh, Hi.
  - apply (send_arp_depth_asked 0). unfold gives_up. cbn. rewrite Hh, Hi. by rewrite andb_false_r.
Qed.

(** *** The invariant *)

Definition eth_inv e : Prop := arp_matches (arp_state e) (waiting e).

Lemma asked_waiting now e : waiting (asked now e) = waiting e.
Proof. unfold asked. repeat case_match; done. Qed.

Lemma asked_inv now e : eth_inv e → eth_inv (asked now e).
Proof.
  unfold eth_inv. rewrite asked_waiting. unfold asked. intros H.
  destruct (hardware_address e); [|done]. destruct (ip_address e); [|done].
  destruct (arp_state e) as [|target tries silent] eqn:Ha; [by rewrite Ha|].
  destruct (_ && _) eqn:Hb; [|by rewrite Ha]. cbn.
  apply andb_true_iff in Hb as [_ Ht%bool_decide_eq_true].
  destruct H as [? ?]. split; [lia|done].
Qed.

Lemma send_arp_inv now e : eth_inv e → ∃ e', send_arp now e = (Ok tt, e') ∧ eth_inv e'.
Proof.
  intros H. destruct (send_arp_eq now e) as (w & Hw & E). eexists. split; [exact E|].
  destruct (arp_state e) as [|target tries silent] eqn:Ha; [by apply asked_inv|].
  destruct (gives_up now e); [|by apply asked_inv].
  apply asked_inv. unfold eth_inv, waiting. cbn. rewrite (Hw eq_refl target tries silent eq_refl).
  apply fresh_arp_matches.
Qed.

Lemma sent_fold mac proto payloads : ∀ e,
  let e' := foldl (sent mac proto) e payloads in
  arp_state e' = arp_state e ∧ waiting_packets e' = waiting_packets e ∧
  hardware_address e' = hardware_address e ∧ ip_address e' = ip_address e ∧
  neighbor_cache e' = neighbor_cache e ∧
  net_out e' = net_out e ++
    match hardware_address e with
    | Some hw => eth_emit hw mac proto <$> payloads
    | None => []
    end.
Proof.
  cbv zeta. induction payloads as [|p payloads IH]; intros e; cbn [foldl].
  { split_and!; try done. destruct (hardware_address e); by rewrite app_nil_r. }
  destruct (IH (sent mac proto e p)) as (-> & -> & -> & -> & -> & ->).
  unfold sent. destruct (hardware_address e) eqn:Hh; cbn; rewrite ?Hh; [|done].
  split_and!; try done. by rewrite <- app_assoc.
Qed.

Lemma check_waiting_eq ip mac now e :
  ∃ w, pb_contents w = behind ip (waiting e) ∧
    check_waiting_packets ip mac now e =
      (Ok tt, set_waiting w
        (let e' := set_arp (fresh_arp (behind ip (waiting e)))
           (foldl (sent mac ProtoIpv4) (set_waiting (pb_new 0 0) e) (front ip (waiting e))) in
         match behind ip (waiting e) with [] => e' | _ => asked now e' end)).
Proof.
  destruct (take_front_eq ip (λ p, send_to mac p ProtoIpv4) (λ _, send_arp now)
    (sent mac ProtoIpv4) (asked now)) with (fuel := length (waiting e)) (w := waiting_packets e)
    (e := set_waiting (pb_new 0 0) e) as (w & Hw & E).
  - intros p e'. apply send_to_eq.
  - intros d e' Ha. apply send_arp_depth_asked. unfold gives_up. rewrite Ha.
    destruct (hardware_address e'), (ip_address e'); try done. by rewrite andb_false_r.
  - done.
  - exists w. split; [done|]. unfold check_waiting_packets. rewrite bind_get, bind_modify.
    rewrite (bind_ok _ _ _ _ _ E). done.
Qed.

Lemma check_waiting_inv ip mac now e :
  ∃ e', check_waiting_packets ip mac now e = (Ok tt, e') ∧ eth_inv e'.
Proof.
  destruct (check_waiting_eq ip mac now e) as (w & Hw & E). eexists. split; [exact E|].
  unfold eth_inv.
  change (arp_matches (arp_state (set_waiting w
    match behind ip (waiting e) with
    | [] => set_arp (fresh_arp (behind ip (waiting e)))
              (foldl (sent mac ProtoIpv4) (set_waiting (pb_new 0 0) e) (front ip (waiting e)))
    | _ => asked now (set_arp (fresh_arp (behind ip (waiting e)))
              (foldl (sent mac ProtoIpv4) (set_waiting (pb_new 0 0) e) (front ip (waiting e))))
    end)) (pb_contents w)). rewrite Hw.
  destruct (behind ip (waiting e)) as [|[d p] l] eqn:Hb; cbv zeta; [exact eq_refl|].
  assert (∀ e0, arp_state e0 = Discovering d 0 0 → arp_matches (arp_state (asked now e0)) ((d, p) :: l)) as Hm.
  { intros e0 Ha. unfold asked. rewrite Ha. repeat case_match; cbn; rewrite ?Ha; (split; [lia|eauto]). }
  by apply Hm.
Qed.

Lemma handle_missing_inv next_hop packet now e :
  eth_inv e → ∃ e', handle_missing_neighbor next_hop packet now e = (Ok tt, e') ∧ eth_inv e'.
Proof.
  intros H. unfold handle_missing_neighbor. rewrite bind_get.
  destruct (pb_enqueue next_hop packet (waiting_packets e)) as [w|] eqn:Hw; [|by exists e].
  apply pb_enqueue_some in Hw. rewrite bind_modify. unfold eth_inv in H.
  destruct (arp_state e) as [|target tries silent] eqn:Ha.
  - rewrite bind_modify. apply send_arp_inv. unfold eth_inv, waiting. cbn. rewrite Hw.
    cbn in H. unfold waiting in H. rewrite H. cbn. split; [lia|eauto].
  - eexists. split; [done|]. unfold eth_inv, waiting. cbn. rewrite Ha. destruct H as [? (p & l & Hl)].
    split; [done|]. rewrite Hw. unfold waiting in Hl. rewrite Hl. cbn. eauto.
Qed.

Lemma eth_send_inv next_hop packet now e :
  eth_inv e → ∃ e', eth_send next_hop packet now e = (Ok tt, e') ∧ eth_inv e'.
Proof.
  intros H. unfold eth_send. rewrite bind_get.
  assert (∀ dst, ∃ e', send_to dst packet ProtoIpv4 e = (Ok tt, e') ∧ eth_inv e') as Hsend.
  { intros dst. rewrite send_to_eq. eexists. split; [done|]. unfold sent. by destruct (hardware_address e). }
  destruct (_ || _); [apply Hsend|].
  destruct (neighbor_cache e !! next_hop) as [n|]; [|by apply handle_missing_inv].
  case_bool_decide; [|apply Hsend]. rewrite bind_modify. by apply handle_missing_inv.
Qed.

Lemma process_arp_inv packet now e :
  eth_inv e → ∃ e', process_arp packet now e = (Ok tt, e') ∧ eth_inv e'.
Proof.
  intros H. unfold process_arp. rewrite bind_get.
  destruct (hardware_address e) as [hw|]; [|by exists e].
  destruct (ip_address e) as [ip|]; [|by exists e].
  destruct (arp_parse packet) as [repr|]; [|by exists e].
  destruct (arp_accepted hw ip repr); [|by exists e]. rewrite bind_modify.
  case_bool_decide.
  - rewrite (bind_ok _ _ _ _ _ (send_to_eq _ _ _ _)). apply check_waiting_inv.
  - rewrite bind_ret. apply check_waiting_inv.
Qed.

Lemma recv_loop_inv hw now : ∀ input buffer e,
  eth_inv e → ∃ r e', recv_loop hw now input buffer e = (Ok r, e') ∧ eth_inv e'.
Proof.
  assert (∀ buffer input e, eth_inv e → ∃ r e',
    (modify (set_net_in input);; send_arp now;; modify (set_input buffer);; mret (@None bytes)) e =
      (Ok r, e') ∧ eth_inv e') as Hblock.
  { intros buffer input e H. rewrite bind_modify.
    destruct (send_arp_inv now (set_net_in input e)) as (e1 & E & H1); [done|].
    rewrite (bind_ok _ _ _ _ _ E). eexists _, _. split; [done|]. exact H1. }
  induction input as [|x input IH]; intros buffer e H; cbn [recv_loop]; [by apply Hblock|].
  destruct x as [| |data]; [by apply Hblock|by eexists _, _|].
  rewrite bind_modify. destruct (eth_parse _) as [[dst ty]|]; [|by apply IH].
  destruct (_ && _); [by apply IH|]. destruct ty; [by eexists _, _| |by apply IH].
  destruct (process_arp_inv (eth_payload (copy_at buffer 0 (take (length buffer) data))) now
    (set_net_in input e)) as (e1 & E & H1); [done|].
  rewrite (bind_ok _ _ _ _ _ E). by apply IH.
Qed.

(** What happens to a link: packets to send, polls, configuration, and frames arriving *)
Inductive eth_op : Type :=
  | ESend (next_hop : IpAddress) (packet : bytes) (now : Instant)
  | ERecv (now : Instant)
  | ESetMac (addr : EthernetAddress)
  | ESetIp (addr : IpCidr)
  | EArrive (input : list read_result).

Definition eth_step (op : eth_op) : comp EthernetLink unit :=
  match op with
  | ESend next_hop packet now => eth_send next_hop packet now
  | ERecv now => eth_recv now;; mret tt
  | ESetMac addr => modify (set_hardware (Some addr))
  | ESetIp addr => modify (set_ip (Some addr))
  | EArrive input => modify (λ e, set_net_in (net_in e ++ input) e)
  end.

Fixpoint eth_run (ops : list eth_op) : comp EthernetLink unit :=
  match ops with
  | [] => mret tt
  | op :: ops => eth_step op;; eth_run ops
  end.

Lemma eth_step_inv op e : eth_inv e → ∃ e', eth_step op e = (Ok tt, e') ∧ eth_inv e'.
Proof.
  intros H. destruct op; cbn [eth_step]; [by apply eth_send_inv| |by eexists..].
  unfold eth_recv, mbind, comp_bind, get. destruct (hardware_address e) as [hw|]; [|by exists e].
  unfold modify. destruct (recv_loop_inv hw now (net_in e) (input_buffer e) (set_input [] e))
    as (r & e' & -> & H'); [done|]. by exists e'.
Qed.

Lemma eth_run_inv ops : ∀ e, eth_inv e → ∃ e', eth_run ops e = (Ok tt, e') ∧ eth_inv e'.
Proof.
  induction ops as [|op ops IH]; intros e H; cbn [eth_run]; [by exists e|].
  destruct (eth_step_inv op e H) as (e1 & E & H1). rewrite (bind_ok _ _ _ _ _ E). by apply IH.
Qed.

(** C6. The ARP state machine: whatever packets are sent and whatever frames arrive, the
    link never panics; address resolution is idle exactly when no packet waits, and
    otherwise it asks for the address of the oldest waiting packet, at most three times. *)
Theorem ethernet_arp_invariant name input ops :
  ∃ e, eth_run ops (ethernet_new name input) = (Ok tt, e) ∧
    match arp_state e with
    | Discovered => waiting e = []
    | Discovering target tries _ => 0 ≤ tries ≤ 3 ∧ ∃ p l, waiting e = (target, p) :: l
    end.
Proof.
  destruct (eth_run_inv ops (ethernet_new name input)) as (e & E & H).
  { unfold eth_inv, waiting. cbn. apply pb_new_empty. }
  by exists e.
Qed.

(** *** Answers *)

Lemma front_behind ip l : l = ((λ p, (ip, p)) <$> front ip l) ++ behind ip l.
Proof.
  induction l as [|[dst p] l IH]; [done|]. cbn. case_bool_decide as Hd; [|done].
  subst. cbn. by rewrite <- IH.
Qed.

Lemma behind_head ip l : head (behind ip l).*1 ≠ Some ip.
Proof.
  induction l as [|[dst p] l IH]; [done|]. cbn. case_bool_decide; [exact IH|]. cbn. congruence.
Qed.

(** The frame that asks for [target] *)
Definition request (hw : EthernetAddress) (ip : IpCidr) (target : IpAddress) : bytes :=
  eth_emit hw BROADCAST ProtoArp (arp_emit (mk_arp Request hw (cidr_address ip) BROADCAST target)).

(** The frame that answers [repr] *)
Definition reply (hw : EthernetAddress) (ip : IpCidr) (repr : ArpRepr EthernetAddress IpAddress) : bytes :=
  eth_emit hw (source_hardware_addr repr) ProtoArp
    (arp_emit (mk_arp Reply hw (cidr_address ip) (source_hardware_addr repr) (source_protocol_addr repr))).

Lemma asked_due hw ip target tries silent now e :
  hardware_address e = Some hw → ip_address e = Some ip →
  arp_state e = Discovering target tries silent → silent ≤ now → tries < 3 →
  asked now e = push_out (request hw ip target)
    (set_arp (Discovering target (tries + 1) (now + ARP_SILENCE_TIME)) e).
Proof.
  intros Hh Hi Ha Hs Ht. unfold asked. rewrite Hh, Hi, Ha.
  by rewrite !bool_decide_eq_true_2.
Qed.

(** The state and the frames after the queue has moved on to [rest] *)
Definition next_arp (now : Instant) (rest : list (IpAddress * bytes)) : ArpState :=
  match rest with
  | [] => Discovered
  | (dst, _) :: _ => Discovering dst 1 (now + ARP_SILENCE_TIME)
  end.

Definition next_request hw ip (rest : list (IpAddress * bytes)) : list bytes :=
  match rest with [] => [] | (dst, _) :: _ => [request hw ip dst] end.

Lemma check_waiting_flush a mac now e hw ip :
  hardware_address e = Some hw → ip_address e = Some ip → 0 ≤ now →
  ∃ e', check_waiting_packets a mac now e = (Ok tt, e') ∧
    waiting e' = behind a (waiting e) ∧
    arp_state e' = next_arp now (behind a (waiting e)) ∧
    neighbor_cache e' = neighbor_cache e ∧
    net_out e' = net_out e ++ (eth_emit hw mac ProtoIpv4 <$> front a (waiting e)) ++
      next_request hw ip (behind a (waiting e)).
Proof.
  intros Hh Hi Hnow. destruct (check_waiting_eq a mac now e) as (w & Hw & E).
  eexists. split; [exact E|]. clear E.
  destruct (sent_fold mac ProtoIpv4 (front a (waiting e)) (set_waiting (pb_new 0 0) e))
    as (F1 & F2 & F3 & F4 & F5 & F6).
  cbn [set_waiting hardware_address ip_address neighbor_cache net_out arp_state] in F3, F4, F5, F6.
  rewrite Hh in F3, F6. rewrite Hi in F4. revert F3 F4 F5 F6. clear F1 F2.
  generalize (foldl (sent mac ProtoIpv4) (set_waiting (pb_new 0 0) e) (front a (waiting e))).
  intros e1 F3 F4 F5 F6. destruct (behind a (waiting e)) as [|[d p] l] eqn:Hb; cbv zeta; cbn [fresh_arp].
  - split_and!; [exact Hw|done|exact F5|]. cbn. by rewrite F6, app_nil_r.
  - rewrite (asked_due hw ip d 0 0 now) by done. split_and!; [exact Hw|done|exact F5|].
    cbn. rewrite F6. by rewrite <- app_assoc.
Qed.

(** An answer lets the queue go: when an ARP packet from a neighbour is accepted, the
    neighbour is remembered for a minute, the packets at the front of the queue that wait
    for it are sent to its hardware address in the order in which they were given, and
    the link asks for the address of the next packet at once; a request is answered
    first. *)
Theorem ethernet_answer_flushes e packet now hw ip repr :
  hardware_address e = Some hw → ip_address e = Some ip → 0 ≤ now →
  arp_parse packet = Some repr → arp_accepted hw ip repr = true →
  let a := source_protocol_addr repr in
  let mac := source_hardware_addr repr in
  ∃ e' mine rest, process_arp packet now e = (Ok tt, e') ∧
    waiting e = ((λ p, (a, p)) <$> mine) ++ rest ∧ head rest.*1 ≠ Some a ∧
    waiting e' = rest ∧ arp_state e' = next_arp now rest ∧
    neighbor_cache e' !! a = Some (mk_neighbor mac (now + NEIGHBOR_LIVE_TIME)) ∧
    net_out e' = net_out e ++ (if bool_decide (operation repr = Request) then [reply hw ip repr] else []) ++
      (eth_emit hw mac ProtoIpv4 <$> mine) ++ next_request hw ip rest.
Proof.
  intros Hh Hi Hnow Hp Hacc a mac. unfold process_arp. rewrite bind_get, Hh, Hi, Hp, Hacc, bind_modify.
  set (e1 := set_cache _ e).
  assert (∃ e2, ((if bool_decide (operation repr = Request)
      then send_to mac (arp_emit (mk_arp Reply hw (cidr_address ip) mac a)) ProtoArp
      else mret tt) e1 = (Ok tt, e2)) ∧ hardware_address e2 = Some hw ∧ ip_address e2 = Some ip ∧
      waiting e2 = waiting e ∧ neighbor_cache e2 = neighbor_cache e1 ∧
      net_out e2 = net_out e ++ (if bool_decide (operation repr = Request) then [reply hw ip repr] else []))
    as (e2 & E & H1 & H2 & H3 & H4 & H5).
  { case_bool_decide.
    - rewrite send_to_eq. unfold sent. cbn. rewrite Hh. by eexists.
    - exists e1. cbn. by rewrite app_nil_r. }
  rewrite (bind_ok _ _ _ _ _ E).
  destruct (check_waiting_flush a mac now e2 hw ip H1 H2 Hnow) as (e3 & E3 & W3 & A3 & N3 & O3).
  exists e3, (front a (waiting e)), (behind a (waiting e)). rewrite H3 in *.
  split_and!; [exact E3|apply front_behind| |done|done| |].
  - apply behind_head.
  - rewrite N3, H4. cbn. apply lookup_insert_eq.
  - rewrite O3, H5. by rewrite <- !app_assoc.
Qed.

(** Traffic from others keeps a dead neighbour alive: an accepted ARP packet from any
    host other than the one being asked for sets the count of tries back and repeats the
    request at once, whatever the count was and however short ago the last request went
    out, so that the packets for a host that does not answer are not given up while other
    hosts talk to us. *)
Theorem ethernet_unrelated_arp_restarts e packet now hw ip repr target p l :
  hardware_address e = Some hw → ip_address e = Some ip → 0 ≤ now →
  arp_parse packet = Some repr → arp_accepted hw ip repr = true → operation repr = Reply →
  waiting e = (target, p) :: l → source_protocol_addr repr ≠ target →
  ∃ e', process_arp packet now e = (Ok tt, e') ∧ waiting e' = waiting e ∧
    arp_state e' = Discovering target 1 (now + ARP_SILENCE_TIME) ∧
    net_out e' = net_out e ++ [request hw ip target].
Proof.
  intros Hh Hi Hnow Hp Hacc Hop Hw Hne.
  unfold process_arp. rewrite bind_get, Hh, Hi, Hp, Hacc, bind_modify.
  rewrite (bool_decide_eq_false_2 (operation repr = Request)), bind_ret by congruence.
  set (e1 := set_cache _ e).
  destruct (check_waiting_flush (source_protocol_addr repr) (source_hardware_addr repr) now e1 hw ip Hh Hi Hnow)
    as (e3 & E3 & W3 & A3 & N3 & O3).
  change (waiting e1) with (waiting e) in *. change (net_out e1) with (net_out e) in O3.
  exists e3. split; [exact E3|]. rewrite W3, A3, O3, Hw. cbn.
  rewrite !(bool_decide_eq_false_2 (target = _)) by congruence. done.
Qed.

(** *** Giving up *)

Lemma recv_blocked now e :
  hardware_address e ≠ None → net_in e = [] →
  eth_recv now e =
    (match send_arp now (set_net_in [] (set_input [] e)) with
     | (Ok _, e') => (Ok None, set_input (input_buffer e) e')
     | (Err x, e') => (Err x, e')
     | (Panic, e') => (Panic, e')
     end).
Proof.
  intros Hh Hn. unfold eth_recv. rewrite bind_get. destruct (hardware_address e); [|done].
  rewrite bind_modify, Hn. cbn [recv_loop tail]. rewrite bind_modify.
  unfold mbind, comp_bind. destruct (send_arp _ _) as [[]]; done.
Qed.

Lemma poll_asks now e hw ip target tries silent :
  hardware_address e = Some hw → ip_address e = Some ip → net_in e = [] →
  arp_state e = Discovering target tries silent → silent ≤ now → tries < 3 →
  ∃ e', eth_step (ERecv now) e = (Ok tt, e') ∧
    hardware_address e' = Some hw ∧ ip_address e' = Some ip ∧ net_in e' = [] ∧
    arp_state e' = Discovering target (tries + 1) (now + ARP_SILENCE_TIME) ∧
    waiting e' = waiting e ∧ net_out e' = net_out e ++ [request hw ip target].
Proof.
  intros Hh Hi Hn Ha Hs Ht. cbn [eth_step]. unfold mbind, comp_bind.
  rewrite recv_blocked by (done || congruence). unfold send_arp.
  rewrite send_arp_depth_asked; cycle 1.
  { unfold gives_up. cbn. rewrite Hh, Hi, Ha. rewrite (bool_decide_eq_false_2 (3 ≤ tries)) by lia.
    by rewrite andb_false_r. }
  rewrite (asked_due hw ip target tries silent) by done. eexists. split; [done|]. done.
Qed.

Lemma poll_gives_up now e hw ip target tries silent :
  hardware_address e = Some hw → ip_address e = Some ip → net_in e = [] →
  arp_state e = Discovering target tries silent → silent ≤ now → 3 ≤ tries → 0 ≤ now →
  ∃ e', eth_step (ERecv now) e = (Ok tt, e') ∧
    waiting e' = behind target (waiting e) ∧
    arp_state e' = next_arp now (behind target (waiting e)) ∧
    net_out e' = net_out e ++ next_request hw ip (behind target (waiting e)).
Proof.
  intros Hh Hi Hn Ha Hs Ht Hnow. cbn [eth_step]. unfold mbind, comp_bind.
  rewrite recv_blocked by (done || congruence).
  destruct (send_arp_eq now (set_net_in [] (set_input [] e))) as (w & Hw & ->).
  assert (gives_up now (set_net_in [] (set_input [] e)) = true) as Hg.
  { unfold gives_up. cbn. rewrite Hh, Hi, Ha. by rewrite !bool_decide_eq_true_2. }
  specialize (Hw Hg target tries silent Ha). cbn [arp_state set_net_in set_input]. rewrite Ha, Hg.
  eexists. split; [done|]. unfold dropped.
  change (waiting (set_net_in [] (set_input [] e))) with (waiting e) in *.
  destruct (behind target (waiting e)) as [|[d p] l]; cbn [fresh_arp].
  - unfold asked. cbn. rewrite Hh, Hi. cbn. split_and!; [exact Hw|done|by rewrite app_nil_r].
  - rewrite (asked_due hw ip d 0 0 now) by done. split_and!; [exact Hw|done|done].
Qed.

(** Giving up: when a neighbour that has been asked once does not answer, polls a
    second apart ask two more times, three in all, and the next one drops the packets at
    the front of the queue that wait for it, keeps all others, and asks for the address of
    the next. *)
Theorem ethernet_gives_up e hw ip target silent t1 t2 t3 :
  hardware_address e = Some hw → ip_address e = Some ip → net_in e = [] →
  arp_state e = Discovering target 1 silent →
  0 ≤ t1 → silent ≤ t1 → t1 + ARP_SILENCE_TIME ≤ t2 → t2 + ARP_SILENCE_TIME ≤ t3 →
  ∃ e', eth_run [ERecv t1; ERecv t2; ERecv t3] e = (Ok tt, e') ∧
    waiting e' = behind target (waiting e) ∧
    arp_state e' = next_arp t3 (behind target (waiting e)) ∧
    net_out e' = net_out e ++ [request hw ip target; request hw ip target] ++
      next_request hw ip (behind target (waiting e)).
Proof.
  unfold ARP_SILENCE_TIME. intros Hh Hi Hn Ha H0 H1 H2 H3.
  destruct (poll_asks t1 e hw ip target 1 silent) as (e1 & E1 & Hh1 & Hi1 & Hn1 & Ha1 & Hw1 & Ho1); [done..|lia|].
  destruct (poll_asks t2 e1 hw ip target 2 (t1 + ARP_SILENCE_TIME))
    as (e2 & E2 & Hh2 & Hi2 & Hn2 & Ha2 & Hw2 & Ho2); [done..|].
  destruct (poll_gives_up t3 e2 hw ip target 3 (t2 + ARP_SILENCE_TIME))
    as (e3 & E3 & Hw3 & Ha3 & Ho3); [done..|lia|].
  exists e3. cbn [eth_run]. rewrite (bind_ok _ _ _ _ _ E1), (bind_ok _ _ _ _ _ E2), (bind_ok _ _ _ _ _ E3).
  split; [done|]. rewrite Hw3, Ha3, Ho3, Hw2, Hw1, Ho2, Ho1. split_and!; [done..|].
  by rewrite <- !app_assoc.
Qed.
End Ethernet.

(** ** Loopback *)

Section Loopback.
Context `{PB : PacketBuffers}.

Definition SOCKET_BUFFER_SIZE : nat := 128.

Record LoopbackDevice := mk_loopback {
  lo_name : string;
  lo_buffer : packet_buffer unit;
}.

Definition loopback_default : LoopbackDevice :=
  mk_loopback "loopback" (pb_new SOCKET_BUFFER_SIZE (1500 * SOCKET_BUFFER_SIZE)).

Definition lo_send (packet : bytes) (d : LoopbackDevice) : LoopbackDevice :=
  match pb_enqueue tt packet (lo_buffer d) with
  | None => d
  | Some b => mk_loopback (lo_name d) b
  end.

Definition lo_recv (d : LoopbackDevice) : option bytes * LoopbackDevice :=
  match pb_dequeue (lo_buffer d) with
  | None => (None, d)
  | Some ((_, buf), b) => (Some buf, mk_loopback (lo_name d) b)
  end.

Definition lo_can_recv (d : LoopbackDevice) : bool := negb (pb_is_empty (lo_buffer d)).
End Loopback.

(** ** The device list *)

Section Devices.
Context `{IP : IpTypes} `{W : !Wire IP} `{PB : PacketBuffers}.

(** The two implementations of [LinkDevice] *)
Inductive LinkDevice : Type :=
  | Ethernet (link : EthernetLink)
  | Loopback (dev : LoopbackDevice).

Definition dev_name (d : LinkDevice) : string :=
  match d with Ethernet e => e_name e | Loopback l => lo_name l end.

(** [send] and [recv] of the trait object *)
Definition dev_send (next_hop : IpAddress) (packet : bytes) (now : Instant) : comp LinkDevice unit := λ d,
  match d with
  | Ethernet e => let '(r, e') := eth_send next_hop packet now e in (r, Ethernet e')
  | Loopback l => (Ok tt, Loopback (lo_send packet l))
  end.

Definition dev_recv (now : Instant) : comp LinkDevice (option bytes) := λ d,
  match d with
  | Ethernet e => let '(r, e') := eth_recv now e in (r, Ethernet e')
  | Loopback l => let '(p, l') := lo_recv l in (Ok p, Loopback l')
  end.

Definition dev_can_recv (d : LinkDevice) : bool :=
  match d with Ethernet _ => false | Loopback l => lo_can_recv l end.

Definition mac_address (d : LinkDevice) : option EthernetAddress :=
  match d with Ethernet e => hardware_address e | Loopback _ => None end.

Definition DeviceList : Type := list LinkDevice.

(** [DeviceList::get] *)
Definition dev_get (name : string) (devices : DeviceList) : option LinkDevice :=
  find (λ d, bool_decide (dev_name d = name)) devices.

(** [DeviceList::get_mut]: the call [m] on the first device of that name; [None] when there
    is none *)
Fixpoint dev_get_mut {A} (name : string) (m : comp LinkDevice A) (devices : DeviceList) :
    option (outcome A * DeviceList) :=
  match devices with
  | [] => None
  | d :: devices =>
     if bool_decide (dev_name d = name) then
       let '(r, d') := m d in Some (r, d' :: devices)
     else
       match dev_get_mut name m devices with
       | Some (r, devices') => Some (r, d :: devices')
       | None => None
       end
  end.
End Devices.

(** ** Examples *)

(** A packet buffer: its number of slots, its number of bytes, and its packets *)
Definition demo_pb : PacketBuffers := {|
  packet_buffer H := (nat * nat * list (H * bytes))%type;
  pb_new H n m := (n, m, []);
  pb_contents H b := b.2;
  pb_enqueue H h p b :=
    if bool_decide (length b.2 < b.1.1)%nat &&
       bool_decide (sum_list_with (λ x, length x.2) b.2 + length p ≤ b.1.2)%nat
    then Some (b.1, b.2 ++ [(h, p)]) else None;
  pb_dequeue H b := match b.2 with x :: l => Some (x, (b.1, l)) | [] => None end;
  pb_peek H b := head b.2;
  pb_is_empty H b := bool_decide (length b.2 = 0%nat);
  pb_is_full H b := bool_decide (b.1.1 ≤ length b.2)%nat;
|}.

Lemma demo_pb_laws : PacketBufferLaws demo_pb.
Proof.
  split; cbn; intros; try done.
  - by case_match; simplify_eq/=.
  - by destruct b as [? []].
  - by destruct b as [? []]; simplify_eq/=.
Qed.

(** Addresses as numbers; a frame is its source, destination and type, then the payload *)
Definition demo_proto (n : Z) : EthernetProtocol :=
  if n =? 4 then ProtoIpv4 else if n =? 1 then ProtoArp else ProtoOther.

Definition demo_ip_countable : Countable (IpAddress (IpTypes := demo_ip)) := Z_countable.

Definition demo_wire : Wire demo_ip := {|
  EthernetAddress := Z;
  mac_eq_dec := Z.eq_dec;
  ip_countable := demo_ip_countable;
  BROADCAST := 255;
  EMPTY_MAC := 0;
  mac_is_broadcast := Z.eqb 255;
  mac_is_unicast m := negb (m =? 255) && negb (m =? 0);
  ip_is_broadcast := Z.eqb 0xFFFFFFFF;
  ip_is_multicast a := Z.shiftr a 28 =? 14;
  ip_is_unspecified := Z.eqb 0;
  cidr_address c := c.1;
  cidr_broadcast c := Some (Z.lor c.1 (2 ^ (32 - c.2) - 1));
  eth_emit src dst p payload :=
    [src; dst; match p with ProtoIpv4 => 4 | ProtoArp => 1 | ProtoOther => 0 end] ++ payload;
  eth_parse f := match f with _ :: dst :: p :: _ => Some (dst, demo_proto p) | _ => None end;
  eth_payload f := drop 3 f;
  arp_emit r := [match operation r with Request => 1 | Reply => 2 | Unknown => 3 end;
    source_hardware_addr r; source_protocol_addr r; target_hardware_addr r; target_protocol_addr r];
  arp_parse p := match p with
    | op :: sh :: sp :: th :: tp :: _ =>
       Some (mk_arp (if op =? 1 then Request else if op =? 2 then Reply else Unknown) sh sp th tp)
    | _ => None
    end;
|}.

Section Examples.
#[local] Existing Instance demo_ip.
#[local] Existing Instance demo_pb.
#[local] Existing Instance demo_pb_laws.
#[local] Existing Instance demo_wire.

(** 10.0.0.2/24 with two packets for 10.0.0.7 and one for 10.0.0.8, after one request *)
Definition demo_eth : EthernetLink :=
  (eth_run [ESetMac 2; ESetIp (0x0A000002, 24); ESend 0x0A000007 [11] 0; ESend 0x0A000007 [12] 0;
            ESend 0x0A000008 [13] 0] (ethernet_new "eth0" [])).2.

Lemma ethernet_arp_invariant_witness :
  ∃ e, eth_run [ESetMac 2; ESetIp (0x0A000002, 24); ESend 0x0A000007 [11] 0; ERecv 5]
         (ethernet_new "eth0" []) = (Ok tt, e) ∧
    match arp_state e with
    | Discovered => waiting e = []
    | Discovering target tries _ => 0 ≤ tries ≤ 3 ∧ ∃ p l, waiting e = (target, p) :: l
    end.
Proof. apply (ethernet_arp_invariant "eth0" []). Defined.

Lemma ethernet_answer_flushes_witness :
  ∃ e' mine rest, process_arp [2; 7; 0x0A000007; 2; 0x0A000002] 5 demo_eth = (Ok tt, e') ∧
    waiting demo_eth = ((λ p, (0x0A000007, p)) <$> mine) ++ rest ∧ head rest.*1 ≠ Some 0x0A000007 ∧
    waiting e' = rest ∧ arp_state e' = next_arp 5 rest ∧
    neighbor_cache e' !! 0x0A000007 = Some (mk_neighbor 7 (5 + NEIGHBOR_LIVE_TIME)) ∧
    net_out e' = net_out demo_eth ++ [] ++ (eth_emit 2 7 ProtoIpv4 <$> mine) ++
      next_request 2 (0x0A000002, 24) rest.
Proof.
  apply (ethernet_answer_flushes demo_eth [2; 7; 0x0A000007; 2; 0x0A000002] 5 2 (0x0A000002, 24)
    (mk_arp Reply 7 0x0A000007 2 0x0A000002)); first [vm_compute; reflexivity|lia].
Defined.

(** An answer from 10.0.0.9, which nobody asked for *)
Lemma ethernet_unrelated_arp_restarts_witness :
  ∃ e', process_arp [2; 9; 0x0A000009; 2; 0x0A000002] 5 demo_eth = (Ok tt, e') ∧
    waiting e' = waiting demo_eth ∧
    arp_state e' = Discovering 0x0A000007 1 (5 + ARP_SILENCE_TIME) ∧
    net_out e' = net_out demo_eth ++ [request 2 (0x0A000002, 24) 0x0A000007].
Proof.
  apply (ethernet_unrelated_arp_restarts demo_eth [2; 9; 0x0A000009; 2; 0x0A000002] 5 2 (0x0A000002, 24)
    (mk_arp Reply 9 0x0A000009 2 0x0A000002) 0x0A000007 [11] [(0x0A000007, [12]); (0x0A000008, [13])]);
    first [vm_compute; reflexivity|lia|done].
Defined.

Lemma ethernet_gives_up_witness :
  ∃ e', eth_run [ERecv 1000000; ERecv 2000000; ERecv 3000000] demo_eth = (Ok tt, e') ∧
    waiting e' = behind 0x0A000007 (waiting demo_eth) ∧
    arp_state e' = next_arp 3000000 (behind 0x0A000007 (waiting demo_eth)) ∧
    net_out e' = net_out demo_eth ++
      [request 2 (0x0A000002, 24) 0x0A000007; request 2 (0x0A000002, 24) 0x0A000007] ++
      next_request 2 (0x0A000002, 24) (behind 0x0A000007 (waiting demo_eth)).
Proof.
  apply (ethernet_gives_up demo_eth 2 (0x0A000002, 24) 0x0A000007 1000000);
    first [vm_compute; reflexivity|unfold ARP_SILENCE_TIME; lia].
Defined.
End Examples.
