(* ===== verification/Router.v ===== *)
(** * netstack: router

    [netstack/src/router/mod.rs]: the device that the TCP/IP stack of [smoltcp] sees.
    [dispatch] takes the packets the stack has queued, picks the route with the table of
    [Netstack] and hands them to the link devices of [Link]; [poll] collects what the
    devices received.  Reading and patching IPv4 headers belongs to [smoltcp]: the class
    [Ipv4Wire]. *)

From S2P Require Import Prelude Netstack Link.

(** [smoltcp::wire::Ipv4Packet] *)
Class Ipv4Wire (IP : IpTypes) := {
  ipv4_new_checked : bytes → bool;
  ipv4_src_addr : bytes → IpAddress;
  ipv4_dst_addr : bytes → IpAddress;
  ipv4_set_src_addr : IpAddress → bytes → bytes;
  ipv4_fill_checksum : bytes → bytes;
}.

Section Router.
Context `{IP : IpTypes} `{W : !Wire IP} `{V4 : !Ipv4Wire IP} `{PB : PacketBuffers}.

Definition ROUTER_MTU : nat := 1486.

Record Router := mk_router {
  rx_buffer : packet_buffer unit;
  tx_buffer : packet_buffer unit;
  devices : DeviceList;
  route_table : RouteTable;
}.

Definition router_new (devices : DeviceList) (route_table : RouteTable) : Router :=
  mk_router (pb_new SOCKET_BUFFER_SIZE (ROUTER_MTU * SOCKET_BUFFER_SIZE))
    (pb_new SOCKET_BUFFER_SIZE (ROUTER_MTU * SOCKET_BUFFER_SIZE)) devices route_table.

Definition set_rx b (r : Router) := mk_router b (tx_buffer r) (devices r) (route_table r).
Definition set_tx b (r : Router) := mk_router (rx_buffer r) b (devices r) (route_table r).
Definition set_devices d (r : Router) := mk_router (rx_buffer r) (tx_buffer r) d (route_table r).

(** [Router::can_recv] *)
Definition can_recv (r : Router) : bool := existsb dev_can_recv (devices r).

(** At most this many packets can come out of a device before it has none *)
Definition dev_load (d : LinkDevice) : nat :=
  match d with Ethernet e => length (net_in e) | Loopback l => length (pb_contents (lo_buffer l)) end.

(** The inner loop of [Router::poll] *)
Fixpoint poll_dev (fuel : nat) (now : Instant) : comp (packet_buffer unit * LinkDevice) unit := λ '(rx, d),
  if pb_is_full rx then (Ok tt, (rx, d))
  else
    match dev_recv now d with
    | (Ok None, d') => (Ok tt, (rx, d'))
    | (Ok (Some buf), d') =>
       match pb_enqueue tt buf rx with
       | None => (Panic, (rx, d'))
       | Some rx' => match fuel with
                     | O => (Panic, (rx', d'))
                     | S fuel => poll_dev fuel now (rx', d')
                     end
       end
    | (Err e, d') => (Err e, (rx, d'))
    | (Panic, d') => (Panic, (rx, d'))
    end.

Fixpoint poll_devices (now : Instant) (ds : DeviceList) : comp (packet_buffer unit) DeviceList := λ rx,
  match ds with
  | [] => (Ok [], rx)
  | d :: ds' =>
     if pb_is_full rx then (Ok ds, rx)
     else
       match poll_dev (dev_load d) now (rx, d) with
       | (Ok _, (rx', d')) =>
          match poll_devices now ds' rx' with
          | (Ok ds'', rx'') => (Ok (d' :: ds''), rx'')
          | (Err e, rx'') => (Err e, rx'')
          | (Panic, rx'') => (Panic, rx'')
          end
       | (Err e, (rx', _)) => (Err e, rx')
       | (Panic, (rx', _)) => (Panic, rx')
       end
  end.

(** [Router::poll] *)
Definition poll (now : Instant) : comp Router unit :=
  r ← get;
  ds ← zoom rx_buffer set_rx (poll_devices now (devices r));
  modify (set_devices ds).

(** [dev.send] on every device *)
Fixpoint send_all (dst : IpAddress) (buf : bytes) (now : Instant) (ds : DeviceList) : outcome DeviceList :=
  match ds with
  | [] => Ok []
  | d :: ds =>
     match dev_send dst buf now d with
     | (Ok _, d') => match send_all dst buf now ds with
                     | Ok ds' => Ok (d' :: ds')
                     | Err e => Err e
                     | Panic => Panic
                     end
     | (Err e, _) => Err e
     | (Panic, _) => Panic
     end
  end.

(** One packet of [Router::dispatch] *)
Definition dispatch_one (packet : bytes) (now : Instant) : comp Router unit :=
  if ipv4_new_checked packet then
    let dst_addr := ipv4_dst_addr packet in
    if ip_is_broadcast dst_addr then
      r ← get;
      ds ← lift (send_all dst_addr packet now (devices r));
      modify (set_devices ds)
    else
      r ← get;
      match lookup_rule (route_table r) dst_addr with
      | None => mret tt
      | Some rule =>
         let next_hop := default dst_addr (via rule) in
         let packet :=
           if bool_decide (src rule = ipv4_src_addr packet) then packet
           else ipv4_fill_checksum (ipv4_set_src_addr (src rule) packet) in
         match dev_get_mut (dev rule) (dev_send next_hop packet now) (devices r) with
         | None => mret tt
         | Some (Ok _, ds) => modify (set_devices ds)
         | Some (Err e, _) => fail e
         | Some (Panic, _) => panic
         end
      end
  else mret tt.

(** The loop of [Router::dispatch]; one turn per queued packet is enough fuel *)
Fixpoint dispatch_loop (fuel : nat) (now : Instant) : comp Router unit :=
  r ← get;
  match pb_dequeue (tx_buffer r) with
  | None => mret tt
  | Some ((_, packet), tx) =>
     match fuel with
     | O => panic
     | S fuel => modify (set_tx tx);; dispatch_one packet now;; dispatch_loop fuel now
     end
  end.

Definition dispatch (now : Instant) : comp Router unit :=
  r ← get;
  dispatch_loop (length (pb_contents (tx_buffer r))) now.

(** [Device::receive] and [Device::transmit]: whether a token is given *)
Definition receive (r : Router) : bool :=
  negb (pb_is_empty (rx_buffer r) || pb_is_full (tx_buffer r)).

Definition transmit (r : Router) : bool := negb (pb_is_full (tx_buffer r)).

(** [TxToken::consume]: the stack writes one packet *)
Definition tx_consume (packet : bytes) : comp Router unit :=
  r ← get;
  match pb_enqueue tt packet (tx_buffer r) with
  | None => panic
  | Some tx => put (set_tx tx r)
  end.

(** [RxToken::consume]: the stack takes one packet *)
Definition rx_consume : comp Router bytes :=
  r ← get;
  match pb_dequeue (rx_buffer r) with
  | None => panic
  | Some ((_, buf), rx) => put (set_rx rx r);; mret buf
  end.
End Router.

(** ** Dispatch *)

Section Dispatch.
Context `{IP : IpTypes} `{W : !Wire IP} `{V4 : !Ipv4Wire IP} `{PB : PacketBuffers} `{PBL : !PacketBufferLaws PB}.
Implicit Types (r : Router) (ds : DeviceList).

Definition dev_inv (d : LinkDevice) : Prop :=
  match d with Ethernet e => eth_inv e | Loopback _ => True end.

Lemma dev_send_ok dst packet now d :
  dev_inv d → ∃ d', dev_send dst packet now d = (Ok tt, d') ∧ dev_inv d'.
Proof.
  intros Hd. destruct d as [e|l]; cbn; [|by eexists].
  destruct (eth_send_inv dst packet now e Hd) as (e' & -> & He). by eexists.
Qed.

Lemma send_all_ok dst packet now ds :
  Forall dev_inv ds → ∃ ds', send_all dst packet now ds = Ok ds' ∧ Forall dev_inv ds'.
Proof.
  induction 1 as [|d ds Hd _ (ds' & IH & Hds)]; [by exists []|]. cbn.
  destruct (dev_send_ok dst packet now d Hd) as (d' & -> & Hd'). rewrite IH. eauto.
Qed.

Lemma dev_get_mut_ok name dst packet now ds :
  Forall dev_inv ds →
  match dev_get_mut name (dev_send dst packet now) ds with
  | None => True
  | Some (res, ds') => res = Ok tt ∧ Forall dev_inv ds'
  end.
Proof.
  induction 1 as [|d ds Hd Hds IH]; [done|]. cbn. case_bool_decide.
  - destruct (dev_send_ok dst packet now d Hd) as (d' & -> & Hd'). split; [done|]. by constructor.
  - destruct (dev_get_mut name _ ds) as [[res ds']|]; [|done]. destruct IH as [-> ?].
    split; [done|]. by constructor.
Qed.

Lemma dispatch_one_ok packet now r :
  Forall dev_inv (devices r) →
  ∃ ds, dispatch_one packet now r = (Ok tt, set_devices ds r) ∧ Forall dev_inv ds.
Proof.
  intros Hd. assert (set_devices (devices r) r = r) as Hid by (by destruct r).
  unfold dispatch_one. destruct (ipv4_new_checked packet); [|exists (devices r); by rewrite Hid].
  destruct (ip_is_broadcast _).
  { rewrite bind_get. destruct (send_all_ok (ipv4_dst_addr packet) packet now _ Hd) as (ds & E & Hds).
    exists ds. unfold lift, mbind, comp_bind. by rewrite E. }
  rewrite bind_get. destruct (lookup_rule _ _) as [rule|]; [|exists (devices r); by rewrite Hid].
  match goal with |- context [dev_get_mut ?n (dev_send ?h ?p now) _] =>
    pose proof (dev_get_mut_ok n h p now _ Hd) as Hm end.
  destruct (dev_get_mut _ _ _) as [[res ds]|]; [|exists (devices r); by rewrite Hid].
  destruct Hm as [-> Hds]. by exists ds.
Qed.

Lemma dispatch_loop_ok now : ∀ fuel r,
  (length (pb_contents (tx_buffer r)) ≤ fuel)%nat → Forall dev_inv (devices r) →
  ∃ r', dispatch_loop fuel now r = (Ok tt, r') ∧ pb_contents (tx_buffer r') = [] ∧
    Forall dev_inv (devices r') ∧ rx_buffer r' = rx_buffer r ∧ route_table r' = route_table r.
Proof.
  induction fuel as [|fuel IH]; intros r Hf Hd; cbn [dispatch_loop]; rewrite bind_get;
    (destruct (pb_dequeue (tx_buffer r)) as [[[[] packet] tx]|] eqn:E;
      [apply pb_dequeue_some in E; rewrite E in Hf; cbn in Hf
      |exists r; apply pb_dequeue_none in E; done]); [lia|].
  rewrite bind_modify.
  destruct (dispatch_one_ok packet now (set_tx tx r) Hd) as (ds & E1 & Hds).
  rewrite (bind_ok _ _ _ _ _ E1). destruct (IH (set_devices ds (set_tx tx r))) as (r' & E2 & ?);
    [cbn; lia|done|]. by exists r'.
Qed.

(** Dispatch always drains the transmit queue: from any state whose links satisfy the
    ARP invariant it returns without a panic, with the queue empty, the invariant kept, and
    the receive queue and the routes unchanged. *)
Theorem router_dispatch_drains r now :
  Forall dev_inv (devices r) →
  ∃ r', dispatch now r = (Ok tt, r') ∧ pb_contents (tx_buffer r') = [] ∧
    Forall dev_inv (devices r') ∧ rx_buffer r' = rx_buffer r ∧ route_table r' = route_table r.
Proof. intros Hd. unfold dispatch. rewrite bind_get. by apply dispatch_loop_ok. Qed.

(** The packet as it leaves: with the source address of the route *)
Definition outgoing (rule : Rule) (packet : bytes) : bytes :=
  if bool_decide (src rule = ipv4_src_addr packet) then packet
  else ipv4_fill_checksum (ipv4_set_src_addr (src rule) packet).

Lemma dev_get_mut_first name (m : comp LinkDevice unit) ds1 d ds2 :
  Forall (λ d', dev_name d' ≠ name) ds1 → dev_name d = name →
  dev_get_mut name m (ds1 ++ d :: ds2) = Some ((m d).1, ds1 ++ (m d).2 :: ds2).
Proof.
  intros H1 H2. induction H1 as [|d' ds1 Hd' _ IH]; cbn.
  - rewrite bool_decide_eq_true_2 by done. by destruct (m d).
  - rewrite bool_decide_eq_false_2 by done. by rewrite IH.
Qed.

Lemma dispatch_single r packet now rule ds1 d ds2 :
  pb_contents (tx_buffer r) = [(tt, packet)] →
  ipv4_new_checked packet = true → ip_is_broadcast (ipv4_dst_addr packet) = false →
  lookup_rule (route_table r) (ipv4_dst_addr packet) = Some rule →
  devices r = ds1 ++ d :: ds2 → Forall (λ d', dev_name d' ≠ dev rule) ds1 → dev_name d = dev rule →
  ∀ d', dev_send (default (ipv4_dst_addr packet) (via rule)) (outgoing rule packet) now d = (Ok tt, d') →
  ∃ r', dispatch now r = (Ok tt, r') ∧ pb_contents (tx_buffer r') = [] ∧
    devices r' = ds1 ++ d' :: ds2 ∧ rx_buffer r' = rx_buffer r ∧ route_table r' = route_table r.
Proof.
  intros Htx Hc Hb Hl Hds H1 Hn d' Hs. unfold dispatch. rewrite bind_get, Htx.
  cbn [length dispatch_loop]. rewrite bind_get.
  destruct (pb_dequeue (tx_buffer r)) as [[[[] p] tx]|] eqn:E;
    [|apply pb_dequeue_none in E; congruence].
  apply pb_dequeue_some in E. rewrite Htx in E. injection E as <- Htx'. rewrite bind_modify.
  assert (dispatch_one packet now (set_tx tx r) =
    (Ok tt, set_devices (ds1 ++ d' :: ds2) (set_tx tx r))) as E1.
  { unfold dispatch_one. rewrite Hc, Hb, bind_get. cbn [route_table set_tx devices]. rewrite Hl, Hds.
    fold (outgoing rule packet). rewrite dev_get_mut_first by done. by rewrite Hs. }
  rewrite (bind_ok _ _ _ _ _ E1), bind_get. cbn [tx_buffer set_devices set_tx].
  assert (pb_dequeue tx = None) as -> by (by apply pb_dequeue_none).
  by eexists.
Qed.

(** C37. From the stack to the wire: a packet whose route leads to an Ethernet link, and
    whose next hop, the gateway of the route or else the destination, is a known and not
    expired neighbour, leaves in one frame to that neighbour's hardware address, with its
    source address set to that of the route; no other device and no other queue is
    touched. *)
Theorem router_sends_to_neighbour r packet now rule ds1 e ds2 hw n :
  let hop := default (ipv4_dst_addr packet) (via rule) in
  pb_contents (tx_buffer r) = [(tt, packet)] →
  ipv4_new_checked packet = true → ip_is_broadcast (ipv4_dst_addr packet) = false →
  lookup_rule (route_table r) (ipv4_dst_addr packet) = Some rule →
  devices r = ds1 ++ Ethernet e :: ds2 → Forall (λ d', dev_name d' ≠ dev rule) ds1 → e_name e = dev rule →
  hardware_address e = Some hw → neighbor_cache e !! hop = Some n → now ≤ expires_at n →
  ip_is_broadcast hop = false →
  (∀ cidr, ip_address e = Some cidr → cidr_broadcast cidr ≠ Some hop) →
  ∃ r', dispatch now r = (Ok tt, r') ∧ pb_contents (tx_buffer r') = [] ∧
    devices r' = ds1 ++
      Ethernet (push_out (eth_emit hw (n_hardware_address n) ProtoIpv4 (outgoing rule packet)) e) :: ds2 ∧
    rx_buffer r' = rx_buffer r ∧ route_table r' = route_table r.
Proof.
  intros hop Htx Hc Hb Hl Hds H1 Hn Hhw Hnb Hexp Hhb Hlb.
  eapply (dispatch_single r packet now rule ds1 (Ethernet e) ds2); try done.
  cbn [dev_send]. unfold eth_send, mbind, comp_bind, get. fold hop.
  assert (match ip_address e with
          | Some cidr => bool_decide (cidr_broadcast cidr = Some hop)
          | None => false
          end = false) as ->.
  { destruct (ip_address e) as [cidr|] eqn:Hi; [|done]. apply bool_decide_eq_false_2. by apply Hlb. }
  rewrite Hhb, Hnb. cbn [orb]. rewrite bool_decide_eq_false_2 by lia.
  rewrite send_to_eq. unfold sent. by rewrite Hhw.
Qed.

(** Loopback: a packet that is routed to the loopback device is what the stack
    receives after the next poll, with the source address of the route. *)
Theorem router_loopback_roundtrip r packet now now' rule l lo rx :
  pb_contents (tx_buffer r) = [(tt, packet)] →
  ipv4_new_checked packet = true → ip_is_broadcast (ipv4_dst_addr packet) = false →
  lookup_rule (route_table r) (ipv4_dst_addr packet) = Some rule →
  devices r = [Loopback l] → lo_name l = dev rule →
  pb_contents (lo_buffer l) = [] → pb_contents (rx_buffer r) = [] → pb_is_full (rx_buffer r) = false →
  pb_enqueue tt (outgoing rule packet) (lo_buffer l) = Some lo →
  pb_enqueue tt (outgoing rule packet) (rx_buffer r) = Some rx →
  ∃ r', (dispatch now;; poll now';; rx_consume) r = (Ok (outgoing rule packet), r') ∧
    pb_contents (rx_buffer r') = [] ∧ pb_contents (tx_buffer r') = [].
Proof.
  intros Htx Hc Hb Hl Hds Hn Hlo Hrx Hfull Henq Henqrx.
  destruct (dispatch_single r packet now rule [] (Loopback l) [] Htx Hc Hb Hl Hds)
    with (Loopback (mk_loopback (lo_name l) lo)) as (r1 & E1 & T1 & D1 & R1 & _); [by constructor|done| |].
  { cbn. unfold lo_send. by rewrite Henq. }
  rewrite (bind_ok _ _ _ _ _ E1). cbn in D1.
  apply pb_enqueue_some in Henq as Hlo'. rewrite Hlo in Hlo'. cbn in Hlo'.
  apply pb_enqueue_some in Henqrx as Hrx'. rewrite Hrx in Hrx'. cbn in Hrx'.
  destruct (pb_dequeue lo) as [[[[] p] lo2]|] eqn:Edq; [|apply pb_dequeue_none in Edq; congruence].
  apply pb_dequeue_some in Edq as Hlo2. rewrite Hlo' in Hlo2. injection Hlo2 as <- Hlo2.
  assert (poll_devices now' (devices r1) (rx_buffer r1) =
    (Ok [Loopback (mk_loopback (lo_name l) lo2)], rx)) as Ep.
  { rewrite D1, R1. cbn [poll_devices]. rewrite Hfull. cbn [dev_load lo_buffer]. rewrite Hlo'.
    cbn [length poll_dev]. rewrite Hfull. cbn [dev_recv]. unfold lo_recv. cbn [lo_buffer]. rewrite Edq.
    rewrite Henqrx. cbn [lo_name lo_buffer poll_dev].
    destruct (pb_is_full rx); [done|]. unfold dev_recv, lo_recv. cbn [lo_buffer].
    assert (pb_dequeue lo2 = None) as -> by (by apply pb_dequeue_none). done. }
  assert (poll now' r1 = (Ok tt, set_devices [Loopback (mk_loopback (lo_name l) lo2)] (set_rx rx r1))) as E2.
  { unfold poll. rewrite bind_get. unfold zoom, mbind, comp_bind. rewrite Ep. done. }
  rewrite (bind_ok _ _ _ _ _ E2). unfold rx_consume. rewrite bind_get.
  cbn [rx_buffer set_devices set_rx].
  destruct (pb_dequeue rx) as [[[[] p] rx2]|] eqn:Erx; [|apply pb_dequeue_none in Erx; congruence].
  apply pb_dequeue_some in Erx. rewrite Hrx' in Erx. injection Erx as <- Hrx2.
  eexists. split; [done|]. cbn. done.
Qed.
End Dispatch.

(** ** Examples *)

(** A packet is its source and its destination, then data. *)
Definition demo_v4 : Ipv4Wire demo_ip := {|
  ipv4_new_checked p := bool_decide (2 ≤ length p)%nat;
  ipv4_src_addr p := nth 0 p 0 : IpAddress (IpTypes := demo_ip);
  ipv4_dst_addr p := nth 1 p 0 : IpAddress (IpTypes := demo_ip);
  ipv4_set_src_addr a p := (a : Z) :: tail p;
  ipv4_fill_checksum p := p;
|}.

Section Examples.
#[local] Existing Instance demo_ip.
#[local] Existing Instance demo_pb.
#[local] Existing Instance demo_pb_laws.
#[local] Existing Instance demo_wire.
#[local] Existing Instance demo_v4.

(** A gateway 10.0.0.1 on eth0, known as hardware address 1 *)
Definition demo_gateway : Rule := mk_rule ((0, 0) : IpCidr) (Some (0x0A000001 : IpAddress)) "eth0" (0x0A000002 : IpAddress).
Definition demo_local : Rule := mk_rule ((0x7F000000, 8) : IpCidr) None "loopback" (0x7F000001 : IpAddress).

Definition demo_neighbor : Neighbor := mk_neighbor (1 : EthernetAddress) NEIGHBOR_LIVE_TIME.

Definition demo_link : EthernetLink :=
  mk_ethernet "eth0" {[(0x0A000001 : IpAddress) := demo_neighbor]} Discovered (pb_new 2 100) [] [] []
    (Some (2 : EthernetAddress)) (Some ((0x0A000002, 24) : IpCidr)).

Definition demo_router (ds : DeviceList) (packet : bytes) : Router :=
  (tx_consume packet (mk_router (pb_new 4 100) (pb_new 4 100) ds [demo_gateway; demo_local])).2.

Definition demo_out : Router := demo_router [Ethernet demo_link] [0; 0x08080808; 5].

Lemma router_dispatch_drains_witness :
  ∃ r', dispatch 7 demo_out = (Ok tt, r') ∧
    pb_contents (tx_buffer r') = [] ∧ Forall dev_inv (devices r') ∧
    rx_buffer r' = rx_buffer demo_out ∧ route_table r' = route_table demo_out.
Proof.
  apply (router_dispatch_drains demo_out 7).
  constructor; [|constructor]. vm_compute. reflexivity.
Defined.

(** A packet for 8.8.8.8 goes to the gateway. *)
Lemma router_sends_to_neighbour_witness :
  ∃ r', dispatch 7 demo_out = (Ok tt, r') ∧
    pb_contents (tx_buffer r') = [] ∧
    devices r' = [] ++
      Ethernet (push_out (eth_emit 2 (n_hardware_address demo_neighbor) ProtoIpv4
                            (outgoing demo_gateway [0; 0x08080808; 5])) demo_link) :: [] ∧
    rx_buffer r' = rx_buffer demo_out ∧ route_table r' = route_table demo_out.
Proof.
  apply (router_sends_to_neighbour demo_out [0; 0x08080808; 5] 7 demo_gateway [] demo_link [] 2
    demo_neighbor).
  - reflexivity.
  - vm_compute. reflexivity.
  - vm_compute. reflexivity.
  - vm_compute. reflexivity.
  - reflexivity.
  - constructor.
  - vm_compute. reflexivity.
  - vm_compute. reflexivity.
  - vm_compute. reflexivity.
  - vm_compute. done.
  - vm_compute. reflexivity.
  - intros cidr H. vm_compute in H. injection H as <-. vm_compute. done.
Defined.

Definition demo_lo : LoopbackDevice := mk_loopback "loopback" (pb_new 4 100).

Definition demo_self : Router :=
  mk_router (pb_new 4 100) (4%nat, 100%nat, [(tt, [0x7F000001; 0x7F000009; 6])]) [Loopback demo_lo]
    [demo_gateway; demo_local].

Lemma router_loopback_roundtrip_witness :
  ∃ r', (dispatch 7;; poll 8;; rx_consume) demo_self =
      (Ok (outgoing demo_local [0x7F000001; 0x7F000009; 6]), r') ∧
    pb_contents (rx_buffer r') = [] ∧ pb_contents (tx_buffer r') = [].
Proof.
  eapply (router_loopback_roundtrip demo_self [0x7F000001; 0x7F000009; 6] 7 8 demo_local demo_lo);
    vm_compute; reflexivity.
Defined.
End Examples.
