(* ===== verification/Sockets.v ===== *)
(** * netstack: the socket schemes

    Models [netstack/src/scheme/socket.rs]: the scheme that [ip:], [udp:], [tcp:] and
    [icmp:] are instances of.  The trait [SchemeSocket] is a class; its four
    implementations are in [SocketKinds].  The set of sockets and the interface belong to
    [smoltcp], which is not part of this repository: the set is a finite map in which the
    handle of a new socket is chosen by a parameter, and reading or removing a handle that
    is not in the set panics, as that crate documents. *)

From S2P Require Import Prelude Abi SchemeUtils Netstack.

(** ** Files *)

Record NullFile := mk_null_file {
  nf_flags : Z;
  nf_uid : Z;
  nf_gid : Z;
  nf_read_enabled : bool;
  nf_write_enabled : bool;
}.

Record SocketFile (D : Type) := mk_socket_file {
  flags : Z;
  data : D;
  events : Z;
  socket_handle : Z;
  read_notified : bool;
  write_notified : bool;
  read_timeout : option TimeSpec;
  write_timeout : option TimeSpec;
  read_enabled : bool;
  write_enabled : bool;
}.
Arguments mk_socket_file {D}.
Arguments flags {D} _.
Arguments data {D} _.
Arguments events {D} _.
Arguments socket_handle {D} _.
Arguments read_notified {D} _.
Arguments write_notified {D} _.
Arguments read_timeout {D} _.
Arguments write_timeout {D} _.
Arguments read_enabled {D} _.
Arguments write_enabled {D} _.

Definition clone_with_data {D} (d : D) (f : SocketFile D) : SocketFile D := {|
  flags := flags f;
  events := events f;
  read_notified := false;
  write_notified := false;
  read_timeout := read_timeout f;
  write_timeout := write_timeout f;
  socket_handle := socket_handle f;
  read_enabled := read_enabled f;
  write_enabled := write_enabled f;
  data := d;
|}.

Definition new_with_data {D} (h : Z) (d : D) : SocketFile D := {|
  flags := 0;
  events := 0;
  read_notified := false;
  write_notified := false;
  read_timeout := None;
  write_timeout := None;
  read_enabled := true;
  write_enabled := true;
  socket_handle := h;
  data := d;
|}.

Inductive Setting (T : Type) := HopLimit | ReadTimeout | WriteTimeout | Other (t : T).
Arguments HopLimit {T}.
Arguments ReadTimeout {T}.
Arguments WriteTimeout {T}.
Arguments Other {T} _.

Record SettingFile (T : Type) := mk_setting_file {
  st_fd : Z;
  st_socket_handle : Z;
  st_setting : Setting T;
}.
Arguments mk_setting_file {T}.
Arguments st_fd {T} _.
Arguments st_socket_handle {T} _.
Arguments st_setting {T} _.

Inductive SchemeFile (D T : Type) :=
  | FSetting (f : SettingFile T)
  | FSocket (f : SocketFile D).
Arguments FSetting {D T} _.
Arguments FSocket {D T} _.

Definition file_socket {D T} (f : SchemeFile D T) : Z :=
  match f with FSocket f => socket_handle f | FSetting f => st_socket_handle f end.

(** The file, and the socket and data that replace those of the file it was made from *)
Definition DupResult (D T : Type) : Type := option (SchemeFile D T * option (Z * D)).

Inductive Handle (D T : Type) :=
  | SchemeRoot
  | Null (f : NullFile)
  | File (f : SchemeFile D T).
Arguments SchemeRoot {D T}.
Arguments Null {D T} _.
Arguments File {D T} _.

(** ** The sockets of [smoltcp] *)

Class SocketSets := {
  AnySocket : Type;
  Iface : Type;
  (** the handle that [SocketSet::add] returns *)
  add_handle : gmap Z AnySocket → Z;
}.

(** [add] never returns the handle of another socket of the set. *)
Class SocketSetLaws (SS : SocketSets) : Prop := {
  add_handle_fresh set : set !! add_handle set = None;
}.

(** What the schemes share: [socket_set], and the [Context] *)
Record Shared `{SocketSets} `{IpTypes} := mk_shared {
  socket_set : gmap Z AnySocket;
  iface : Iface;
  route_table : RouteTable;
}.

Definition set_socket_set `{SocketSets} `{IpTypes} f (sh : Shared) : Shared :=
  {| sh with socket_set := f (socket_set sh) |}.

(** [SocketSet::add] *)
Definition add_socket `{SocketSets} `{IpTypes} (x : AnySocket) : comp Shared Z :=
  sh ← get;
  let h := add_handle (socket_set sh) in
  modify (set_socket_set <[h := x]>);;
  mret h.

(** [SocketSet::remove] *)
Definition remove_socket `{SocketSets} `{IpTypes} (h : Z) : comp Shared unit :=
  sh ← get;
  match socket_set sh !! h with
  | Some _ => modify (set_socket_set (delete h))
  | None => panic
  end.

(** ** The trait [SchemeSocket]

    A method that gets [&mut [u8]] returns what it wrote with its result.  [downcast] is
    what [SocketSet::get::<SocketT>] does with a socket of another kind. *)
Class SchemeSocket `{SocketSets} `{IpTypes} := {
  SocketT : Type;
  SchemeDataT : Type;
  DataT : Type;
  SettingT : Type;
  downcast : AnySocket → option SocketT;
  upcast : SocketT → AnySocket;
  downcast_upcast x : downcast (upcast x) = Some x;
  new_scheme_data : outcome SchemeDataT;
  can_send : SocketT → bool;
  can_recv : DataT → comp SocketT bool;
  may_recv : SocketT → bool;
  hop_limit : SocketT → Z;
  set_hop_limit : Z → SocketT → SocketT;
  get_setting : SocketFile DataT → SettingT → bytes → outcome (Z * bytes);
  set_setting : SettingT → bytes → comp (SocketFile DataT) Z;
  new_socket : string → Z → comp (Shared * SchemeDataT) (Z * DataT);
  close_file : SocketT → SchemeFile DataT SettingT → comp SchemeDataT unit;
  write_buf : bytes → comp (SocketT * SocketFile DataT) Z;
  read_buf : bytes → comp (SocketT * SocketFile DataT) (Z * bytes);
  fpath_file : SocketT → SchemeFile DataT SettingT → bytes → outcome (Z * bytes);
  dup_file : string →
    comp (Shared * SchemeFile DataT SettingT * SchemeDataT) (DupResult DataT SettingT);
  handle_get_peer_name : SocketT → SchemeFile DataT SettingT → bytes → outcome (Z * bytes);
  handle_shutdown : Z → comp (SocketT * SchemeFile DataT SettingT) Z;
  handle_recvmsg : bytes → Z → comp (SocketT * SchemeFile DataT SettingT) (Z * bytes);
  get_sock_opt : SocketT → SchemeFile DataT SettingT → Z → bytes → outcome (Z * bytes);
}.

(** The default [get_sock_opt] of the trait *)
Definition default_get_sock_opt {X F} (_ : X) (_ : F) (_ : Z) (_ : bytes) : outcome (Z * bytes) :=
  Err ENOPROTOOPT.

(** [libredox::protocol::SocketCall]; [NcOther] stands for the verbs the scheme refuses *)
Inductive NetCall : Set := NcSetSockOpt | NcGetSockOpt | NcGetPeerName | NcRecvMsg | NcShutdown | NcOther.

(** What the scheme uses of [libredox] and [syscall]: [SocketCall::try_from_raw],
    [MSG_DONTWAIT], and the bytes of a [TimeSpec] *)
Class NetAbi := {
  net_call_of_raw : Z → option NetCall;
  msg_dontwait : Z;
  timespec_size : nat;
  timespec_bytes : TimeSpec → bytes;
  timespec_of_bytes : bytes → TimeSpec;
}.

Definition SO_SNDBUF : Z := 7.
Definition SO_RCVBUF : Z := 8.

(** [Router::MTU], [Smolnetd::SOCKET_BUFFER_SIZE] *)
Definition MTU : Z := 1486.
Definition SOCKET_BUFFER_SIZE : Z := 128.

(** [val.to_ne_bytes()] of an [i32] into the start of a buffer *)
Definition put_i32 (v : Z) (buf : bytes) : outcome (Z * bytes) :=
  if bool_decide (length buf < 4)%nat then Err EINVAL else Ok (4, copy_at buf 0 (le_bytes 4 v)).

(** ** Time *)

Definition i64_max : Z := 9223372036854775807.
Definition i32_max : Z := 2147483647.

(** Checked [+] on [i64] and [i32] *)
Definition add_i64 {S} (a b : Z) : comp S Z :=
  if bool_decide (- i64_max - 1 ≤ a + b ≤ i64_max) then mret (a + b) else panic.
Definition add_i32 {S} (a b : Z) : comp S Z :=
  if bool_decide (- i32_max - 1 ≤ a + b ≤ i32_max) then mret (a + b) else panic.

Definition add_time {S} (a b : TimeSpec) : comp S TimeSpec :=
  secs ← add_i64 (tv_sec a) (tv_sec b);
  nsecs ← add_i32 (tv_nsec a) (tv_nsec b);
  secs ← add_i64 secs (Z.quot nsecs 1000000000);
  mret (mk_timespec secs (Z.rem nsecs 1000000000)).

(** ** Operations

    [redox_scheme::scheme::Op], one constructor for each method that the scheme has, with
    the caller's buffer. *)
Inductive Op :=
  | OpOpenat (fd : Z) (path : string) (fl : Z)
  | OpCall (fd : Z) (payload : bytes) (metadata : list Z)
  | OpWrite (fd : Z) (buf : bytes)
  | OpRead (fd : Z) (buf : bytes)
  | OpDup (fd : Z) (buf : bytes)
  | OpFevent (fd ev : Z)
  | OpFsync (fd : Z)
  | OpFpath (fd : Z) (buf : bytes)
  | OpFcntl (fd cmd arg : Z).

(** [Op::file_id] *)
Definition file_id (op : Op) : Z :=
  match op with
  | OpOpenat fd _ _ | OpCall fd _ _ | OpWrite fd _ | OpRead fd _ | OpDup fd _
  | OpFevent fd _ | OpFsync fd | OpFpath fd _ | OpFcntl fd _ _ => fd
  end.

Record CallerCtx := mk_caller { uid : Z; gid : Z }.

(** ** The scheme *)

Section Scheme.
Context {SA : SyscallAbi} {NA : NetAbi} {SS : SocketSets} {IP : IpTypes} {SK : SchemeSocket}.

Record SocketScheme := mk_socket_scheme {
  handles : HandleMap (Handle DataT SettingT);
  ref_counts : gmap Z Z;
  shared : Shared;
  scheme_data : SchemeDataT;
}.

Definition set_handles f (s : SocketScheme) := {| s with handles := f (handles s) |}.
Definition set_ref_counts f (s : SocketScheme) := {| s with ref_counts := f (ref_counts s) |}.
Definition on_shared {A} : comp Shared A → comp SocketScheme A :=
  zoom shared (λ sh s, {| s with shared := sh |}).
Definition on_data {A} : comp SchemeDataT A → comp SocketScheme A :=
  zoom scheme_data (λ d s, {| s with scheme_data := d |}).

(** [socket_set.get::<SocketT>(h)] *)
Definition get_socket (h : Z) : comp Shared SocketT :=
  sh ← get;
  expect (socket_set sh !! h ≫= downcast).

(** The write through [socket_set.get_mut::<SocketT>(h)] *)
Definition put_socket (h : Z) (x : SocketT) : comp Shared unit :=
  modify (set_socket_set <[h := upcast x]>).

(** A method that gets the socket, and the file through [handles.get_mut(fd)] *)
Definition with_file {A} (fd : Z) (file : SchemeFile DataT SettingT)
    (m : comp (SocketT * SchemeFile DataT SettingT) A) : comp SocketScheme A :=
  x ← on_shared (get_socket (file_socket file));
  let '(r, (x', file')) := m (x, file) in
  on_shared (put_socket (file_socket file) x');;
  modify (set_handles (hm_set fd (File file')));;
  lift r.

Definition would_block {A} (r : outcome A) : bool :=
  match r with Err EWOULDBLOCK | Err EAGAIN => true | _ => false end.

(** The socket branch of [read] and [write]: [clear] resets the flag of the event *)
Definition socket_io {A} (fd : Z) (file : SocketFile DataT)
    (m : comp (SocketT * SocketFile DataT) A) (clear : SocketFile DataT → SocketFile DataT) :
    comp SocketScheme A :=
  x ← on_shared (get_socket (socket_handle file));
  let '(ret, (x', file')) := m (x, file) in
  on_shared (put_socket (socket_handle file) x');;
  modify (set_handles (hm_set fd (File (FSocket (if would_block ret then file' else clear file')))));;
  lift ret.

(** [SchemeFile::events]: what to report, and the file with its flags updated *)
Definition file_events (file : SchemeFile DataT SettingT) : comp Shared (Z * SchemeFile DataT SettingT) :=
  match file with
  | FSetting _ => mret (0, file)
  | FSocket f =>
     x ← get_socket (socket_handle f);
     let '(r, x') :=
       (if has_flag (events f) EVENT_READ then can_recv (data f) else mret false) x in
     readable ← lift r;
     put_socket (socket_handle f) x';;
     let read_ready := has_flag (events f) EVENT_READ && (readable || negb (may_recv x')) in
     let write_ready := has_flag (events f) EVENT_WRITE && can_send x' in
     let revents := Z.lor (if read_ready && negb (read_notified f) then EVENT_READ else 0)
                          (if write_ready && negb (write_notified f) then EVENT_WRITE else 0) in
     mret (revents, FSocket {| f with read_notified := read_ready; write_notified := write_ready |})
  end.

(** [get_setting] *)
Definition scheme_get_setting (fd : Z) (setting : Setting SettingT) (buf : bytes) :
    comp SocketScheme (Z * bytes) :=
  s ← get;
  handle ← lift (hm_get (handles s) fd);
  match handle with
  | File (FSocket file) =>
     let timeout t :=
       match t with
       | None => mret (0, buf)
       | Some t =>
          if bool_decide (length buf < timespec_size)%nat then mret (0, buf)
          else mret (Z.of_nat timespec_size, copy_at buf 0 (timespec_bytes t))
       end in
     match setting with
     | Other setting => lift (get_setting file setting buf)
     | HopLimit =>
        match buf with
        | [] => fail EIO
        | _ :: rest =>
           x ← on_shared (get_socket (socket_handle file));
           mret (1, hop_limit x :: rest)
        end
     | ReadTimeout => timeout (read_timeout file)
     | WriteTimeout => timeout (write_timeout file)
     end
  | _ => fail EBADF
  end.

(** [update_setting] *)
Definition update_setting (fd : Z) (setting : Setting SettingT) (buf : bytes) : comp SocketScheme Z :=
  s ← get;
  handle ← lift (hm_get (handles s) fd);
  match handle with
  | File (FSocket file) =>
     let put_file file := modify (set_handles (hm_set fd (File (FSocket file)))) in
     let '(timeout, count) :=
       if bool_decide (length buf < timespec_size)%nat then (None, 0)
       else (Some (timespec_of_bytes (take timespec_size buf)), Z.of_nat timespec_size) in
     match setting with
     | ReadTimeout => put_file {| file with read_timeout := timeout |};; mret count
     | WriteTimeout => put_file {| file with write_timeout := timeout |};; mret count
     | HopLimit =>
        match buf with
        | [] => fail EIO
        | limit :: _ =>
           x ← on_shared (get_socket (socket_handle file));
           on_shared (put_socket (socket_handle file) (set_hop_limit limit x));;
           mret 1
        end
     | Other setting =>
        let '(r, file') := set_setting setting buf file in
        put_file file';;
        lift r
     end
  | _ => fail EBADF
  end.

(** The branches of [handle_shutdown] on a [NullFile] *)
Definition shutdown_null (how : Z) (f : NullFile) : option NullFile :=
  if how =? 0 then Some {| f with nf_read_enabled := false |}
  else if how =? 1 then Some {| f with nf_write_enabled := false |}
  else if how =? 2 then Some {| f with nf_read_enabled := false; nf_write_enabled := false |}
  else None.

(** [call], [call_inner] *)
Definition call (fd : Z) (payload : bytes) (metadata : list Z) : comp SocketScheme (Z * bytes) :=
  raw ← expect (metadata !! 0%nat);
  verb ← ok_or EINVAL (net_call_of_raw raw);
  match verb with
  | NcSetSockOpt => mret (0, payload)
  | NcGetSockOpt =>
     s ← get;
     handle ← lift (hm_get (handles s) fd);
     match handle with
     | File file =>
        x ← on_shared (get_socket (file_socket file));
        name ← expect (metadata !! 1%nat);
        lift (get_sock_opt x file name payload)
     | Null _ =>
        name ← expect (metadata !! 1%nat);
        if bool_decide (name = SO_RCVBUF ∨ name = SO_SNDBUF)
        then lift (put_i32 (MTU * SOCKET_BUFFER_SIZE) payload)
        else fail EINVAL
     | SchemeRoot => fail EBADF
     end
  | NcGetPeerName =>
     s ← get;
     handle ← lift (hm_get (handles s) fd);
     match handle with
     | File file =>
        x ← on_shared (get_socket (file_socket file));
        lift (handle_get_peer_name x file payload)
     | _ => fail EBADF
     end
  | NcRecvMsg =>
     fl ← expect (metadata !! 1%nat);
     s ← get;
     handle ← lift (hm_get (handles s) fd);
     match handle with
     | File file => with_file fd file (handle_recvmsg payload fl)
     | Null _ => fail EINVAL
     | SchemeRoot => fail EBADF
     end
  | NcShutdown =>
     how ← expect (metadata !! 1%nat);
     s ← get;
     handle ← lift (hm_get (handles s) fd);
     match handle with
     | File file => n ← with_file fd file (handle_shutdown how); mret (n, payload)
     | Null f =>
        f' ← ok_or EINVAL (shutdown_null how f);
        modify (set_handles (hm_set fd (Null f')));;
        mret (0, payload)
     | SchemeRoot => fail EBADF
     end
  | NcOther => fail EOPNOTSUPP
  end.

Definition insert_handle (h : Handle DataT SettingT) : comp SocketScheme Z :=
  zoom handles (λ hs s, {| s with handles := hs |}) (hm_insert h).

(** [open_inner] *)
Definition open_inner (path : string) (fl uid gid : Z) (rd wr : bool) : comp SocketScheme Z :=
  if bool_decide (path = EmptyString) then
    insert_handle (Null (mk_null_file fl uid gid rd wr))
  else
    '(h, d) ← zoom (λ s, (shared s, scheme_data s))
                (λ '(sh, sd) s, {| s with shared := sh; scheme_data := sd |})
                (new_socket path uid);
    modify (set_ref_counts <[h := 1]>);;
    insert_handle (File (FSocket {|
      flags := fl; events := 0; socket_handle := h; read_notified := false;
      write_notified := false; write_timeout := None; read_timeout := None;
      read_enabled := rd; write_enabled := wr; data := d |})).

Definition scheme_root : comp SocketScheme Z := insert_handle SchemeRoot.

(** [SocketScheme::new], without the registration *)
Definition scheme_new (sh : Shared) : outcome SocketScheme :=
  match new_scheme_data with
  | Ok d =>
     match scheme_root (mk_socket_scheme hm_new ∅ sh d) with
     | (Ok _, s) => Ok s
     | (Err e, _) => Err e
     | (Panic, _) => Panic
     end
  | Err e => Err e
  | Panic => Panic
  end.

Definition openat (fd : Z) (path : string) (fl uid gid : Z) : comp SocketScheme Z :=
  s ← get;
  handle ← lift (hm_get (handles s) fd);
  match handle with
  | SchemeRoot => open_inner path fl uid gid true true
  | _ => fail EACCES
  end.

(** The reference that [on_close] gives up: whether it was the last one *)
Definition drop_ref (h : Z) : comp SocketScheme bool :=
  s ← get;
  match ref_counts s !! h with
  | None => mret true
  | Some n =>
     if bool_decide (n = 0) then modify (set_ref_counts (delete h));; mret true
     else
       n ← sub_usize n 1;
       if bool_decide (n = 0) then modify (set_ref_counts (delete h));; mret true
       else modify (set_ref_counts <[h := n]>);; mret false
  end.

Definition on_close (fd : Z) : comp SocketScheme unit :=
  handle ← zoom handles (λ hs s, {| s with handles := hs |}) (hm_remove fd);
  match handle with
  | Some (File file) =>
     let h := file_socket file in
     x ← on_shared (get_socket h);
     attempt (on_data (close_file x file));;
     last ← drop_ref h;
     if (last : bool) then on_shared (remove_socket h) else mret tt
  | _ => mret tt
  end.

Definition write (fd : Z) (buf : bytes) : comp SocketScheme Z :=
  s ← get;
  handle ← lift (hm_get (handles s) fd);
  match handle with
  | File (FSetting f) => update_setting (st_fd f) (st_setting f) buf
  | File (FSocket file) =>
     socket_io fd file (write_buf buf) (λ f, {| f with write_notified := false |})
  | _ => fail EBADF
  end.

Definition read (fd : Z) (buf : bytes) : comp SocketScheme (Z * bytes) :=
  s ← get;
  handle ← lift (hm_get (handles s) fd);
  match handle with
  | File (FSetting f) => scheme_get_setting (st_fd f) (st_setting f) buf
  | File (FSocket file) =>
     socket_io fd file (read_buf buf) (λ f, {| f with read_notified := false |})
  | _ => fail EBADF
  end.

(** [ref_counts.entry(h).or_insert(0) += 1] *)
Definition add_ref (h : Z) : comp SocketScheme unit :=
  s ← get;
  n ← add_usize (default 0 (ref_counts s !! h)) 1;
  modify (set_ref_counts <[h := n]>).

(** [SocketT::dup] on the file of [fd] *)
Definition dup_socket (fd : Z) (file : SchemeFile DataT SettingT) (path : string) :
    comp SocketScheme (DupResult DataT SettingT * SchemeFile DataT SettingT) :=
  s ← get;
  let '(r, (sh, file', d)) := dup_file path (shared s, file, scheme_data s) in
  put {| s with handles := hm_set fd (File file') (handles s); shared := sh; scheme_data := d |};;
  r ← lift r;
  mret (r, file').

Definition dup (fd : Z) (buf : bytes) : comp SocketScheme Z :=
  path ← ok_or EINVAL (from_utf8 buf);
  s ← get;
  handle ← lift (hm_get (handles s) fd);
  match handle with
  | SchemeRoot => fail EBADF
  | Null f =>
     open_inner path (nf_flags f) (nf_uid f) (nf_gid f) (nf_read_enabled f) (nf_write_enabled f)
  | File file =>
     let setting x := mret (FSetting (mk_setting_file fd (file_socket file) x), None, file) in
     '(new_handle, update_with, file) ←
       (if bool_decide (path = "hop_limit"%string) then setting HopLimit
        else if bool_decide (path = "read_timeout"%string) then setting ReadTimeout
        else if bool_decide (path = "write_timeout"%string) then setting WriteTimeout
        else
          '(r, file) ← dup_socket fd file path;
          r ← ok_or EWOULDBLOCK r;
          mret (r, file));
     match update_with, file with
     | Some (h, d), FSocket f =>
        modify (set_ref_counts (λ m, <[socket_handle f := Z.max 0 (default 0 (m !! socket_handle f) - 1)]> m));;
        add_ref (file_socket new_handle);;
        modify (set_handles (hm_set fd (File (FSocket {| f with socket_handle := h; data := d |}))))
     | _, _ => mret tt
     end;;
     add_ref (file_socket new_handle);;
     insert_handle (File new_handle)
  end.

Definition fevent (fd ev : Z) : comp SocketScheme Z :=
  s ← get;
  handle ← lift (hm_get (handles s) fd);
  match handle with
  | File (FSocket f) =>
     '(revents, file) ← on_shared (file_events
        (FSocket {| f with events := ev; read_notified := false; write_notified := false |}));
     modify (set_handles (hm_set fd (File file)));;
     mret revents
  | _ => fail EBADF
  end.

Definition fsync (fd : Z) : comp SocketScheme unit :=
  s ← get;
  lift (hm_get (handles s) fd);;
  mret tt.

Definition fpath (fd : Z) (buf : bytes) : comp SocketScheme (Z * bytes) :=
  s ← get;
  handle ← lift (hm_get (handles s) fd);
  match handle with
  | File file =>
     x ← on_shared (get_socket (file_socket file));
     lift (fpath_file x file buf)
  | _ => fail EBADF
  end.

Definition fcntl (fd cmd arg : Z) : comp SocketScheme Z :=
  s ← get;
  handle ← lift (hm_get (handles s) fd);
  let new_flags := Z.land arg (not_usize O_ACCMODE) in
  match handle with
  | File (FSocket f) =>
     if bool_decide (cmd = F_GETFL) then mret (flags f)
     else if bool_decide (cmd = F_SETFL) then
       modify (set_handles (hm_set fd (File (FSocket {| f with flags := new_flags |}))));; mret 0
     else fail EINVAL
  | Null f =>
     if bool_decide (cmd = F_GETFL) then mret (nf_flags f)
     else if bool_decide (cmd = F_SETFL) then
       modify (set_handles (hm_set fd (Null {| f with nf_flags := new_flags |})));; mret 0
     else fail EINVAL
  | _ => fail EBADF
  end.

(** The method an operation calls: the number and the buffer of its answer *)
Definition run_op (op : Op) (ctx : CallerCtx) : comp SocketScheme (Z * bytes) :=
  let num (m : comp SocketScheme Z) : comp SocketScheme (Z * bytes) := n ← m; mret (n, []) in
  match op with
  | OpOpenat fd path fl => num (openat fd path fl (uid ctx) (gid ctx))
  | OpCall fd payload metadata => call fd payload metadata
  | OpWrite fd buf => num (write fd buf)
  | OpRead fd buf => read fd buf
  | OpDup fd buf => num (dup fd buf)
  | OpFevent fd ev => num (fevent fd ev)
  | OpFsync fd => fsync fd;; mret (0, [])
  | OpFpath fd buf => fpath fd buf
  | OpFcntl fd cmd arg => num (fcntl fd cmd arg)
  end.

(** [handle_block]: until when an operation that blocks is to wait.  [clock] is the answer
    of [clock_gettime]. *)
Definition handle_block (clock : outcome TimeSpec) (op : Op) : comp SocketScheme (option TimeSpec) :=
  s ← get;
  handle ← lift (hm_get (handles s) (file_id op));
  match handle with
  | File (FSocket f) =>
     match (match op with
            | OpRead _ _ => write_timeout f
            | OpWrite _ _ => read_timeout f
            | _ => None
            end) with
     | Some timeout =>
        cur_time ← lift clock;
        t ← add_time timeout cur_time;
        mret (Some t)
     | None => mret None
     end
  | _ => fail EBADF
  end.
End Scheme.
