(* ===== verification/SocketsInv.v ===== *)
(** * netstack: every open file has its socket

    An invariant of [Sockets]: [ref_counts] counts the open files of each socket, and the
    socket of an open file is in the set, with the right type.  It is proved against the
    interface [SocketLaws], which all four kinds of sockets have, and [NoAccept], which [tcp:]
    has not: there a file can change its socket. *)

From S2P Require Import Prelude Abi SchemeUtils Netstack Sockets.

(** ** What an operation does unless it panics *)

Definition moves {S} (R : S → S → Prop) (s : S) {A} (r : outcome A) (s' : S) : Prop :=
  match r with Panic => True | _ => R s s' end.

Section Moves.
Context {S : Type} (R : S → S → Prop).

Lemma moves_weaken (R' : S → S → Prop) {A} (m : comp S A) s0 s :
  wp m (moves R s) s → (∀ s', R s s' → R' s0 s') → wp m (moves R' s0) s.
Proof. intros H HR. eapply wp_mono; [exact H|]. intros [] s'; cbn; auto. Qed.

Lemma moves_then {A B} (m : comp S A) (f : A → comp S B) (Q : outcome B → S → Prop) s :
  wp m (moves R s) s → (∀ e s', R s s' → Q (Err e) s') → (∀ s', Q Panic s') →
  (∀ a s', R s s' → wp (f a) Q s') → wp (m ≫= f) Q s.
Proof. intros H He Hp Hf. apply wp_bind. eapply wp_mono; [exact H|]. intros [] s'; cbn; auto. Qed.

Context `{!PreOrder R}.

Lemma moves_bind {A B} (m : comp S A) (f : A → comp S B) s :
  wp m (moves R s) s → (∀ a s', R s s' → wp (f a) (moves R s') s') → wp (m ≫= f) (moves R s) s.
Proof.
  intros Hm Hf. eapply moves_then; [exact Hm|done|done|]. intros a s' HR.
  eapply wp_mono; [by apply Hf|]. intros [] s''; cbn; [by etrans..|done].
Qed.

Lemma moves_ret {A} (a : A) s : wp (mret a) (moves R s) s.
Proof. cbn. reflexivity. Qed.
Lemma moves_fail {A} e s : wp (fail (A := A) e) (moves R s) s.
Proof. cbn. reflexivity. Qed.
Lemma moves_lift {A} (r : outcome A) s : wp (lift r) (moves R s) s.
Proof. destruct r; cbn; [reflexivity..|done]. Qed.
Lemma moves_ok_or {A} e (o : option A) s : wp (ok_or e o) (moves R s) s.
Proof. destruct o; cbn; reflexivity. Qed.
Lemma moves_expect {A} (o : option A) s : wp (expect o) (moves R s) s.
Proof. destruct o; cbn; [reflexivity|done]. Qed.
Lemma moves_get {B} (f : S → comp S B) s : wp (f s) (moves R s) s → wp (get ≫= f) (moves R s) s.
Proof. done. Qed.

Lemma moves_for_each {A} (f : A → comp S unit) l s :
  (∀ a s', a ∈ l → R s s' → wp (f a) (moves R s') s') → wp (for_each f l) (moves R s) s.
Proof.
  revert s. induction l as [|a l IH]; intros s H; [apply moves_ret|]. cbn [for_each].
  apply moves_bind; [apply H; [left|reflexivity]|]. intros _ s' HR. apply IH.
  intros b s'' Hb HR'. apply H; [by right|by etrans].
Qed.

Lemma moves_result {A} (m : comp S A) s : wp m (moves R s) s → wp (result m) (moves R s) s.
Proof. unfold wp, result. by destruct (m s) as [[] ?]. Qed.

Lemma moves_attempt {A} (m : comp S A) s : wp m (moves R s) s → wp (attempt m) (moves R s) s.
Proof. unfold wp, attempt. by destruct (m s) as [[] ?]. Qed.
End Moves.

(** ** The invariant *)

Section Inv.
Context {SA : SyscallAbi} {NA : NetAbi} {SS : SocketSets} {IP : IpTypes} {SK : SchemeSocket}.

(** The socket that a handle names *)
Definition named (h : Handle DataT SettingT) : option Z :=
  match h with File f => Some (file_socket f) | _ => None end.

Definition names (s : SocketScheme) : gmap Z (option Z) := named <$> hm_handles (handles s).

(** The number of open files of a socket *)
Definition refs (s : SocketScheme) (h : Z) : nat := holders (Some h) (names s).

Definition live (set : gmap Z AnySocket) (h : Z) : Prop := is_Some (set !! h ≫= downcast).

Definition count (n : nat) : option Z := match n with O => None | _ => Some (Z.of_nat n) end.

Record scheme_ok (s : SocketScheme) : Prop := mk_scheme_ok {
  ok_handles : hm_wf (handles s);
  ok_counts h : ref_counts s !! h = count (refs s h);
  ok_live fd h : names s !! fd = Some (Some h) → live (socket_set (shared s)) h;
}.

(** Only sockets of this kind change, and they stay of this kind *)
Definition set_rel (set set' : gmap Z AnySocket) : Prop :=
  ∀ h, set' !! h = set !! h ∨ live set h ∧ live set' h.

(** Sockets of other kinds stay *)
Definition foreign_kept (set set' : gmap Z AnySocket) : Prop :=
  ∀ h a, set !! h = Some a → downcast a = None → set' !! h = Some a.

(** An operation that opens and closes nothing *)
Record quiet (s s' : SocketScheme) : Prop := mk_quiet {
  quiet_names : names s' = names s;
  quiet_next : hm_next_id (handles s') = hm_next_id (handles s);
  quiet_counts : ref_counts s' = ref_counts s;
  quiet_set : set_rel (socket_set (shared s)) (socket_set (shared s'));
}.

#[global] Instance set_rel_preorder : PreOrder set_rel.
Proof.
  split.
  - intros set h. by left.
  - intros s1 s2 s3 H1 H2 h. destruct (H1 h) as [E1|[L1 L1']], (H2 h) as [E2|[L2 L2']].
    + left. congruence.
    + right. split; [|done]. unfold live in *. by rewrite <- E1.
    + right. split; [done|]. unfold live in *. by rewrite E2.
    + by right.
Qed.

#[global] Instance foreign_kept_preorder : PreOrder foreign_kept.
Proof. split; [by intros set h a|]. intros s1 s2 s3 H1 H2 h a Ha Hd. apply H2; [by apply H1|done]. Qed.

#[global] Instance quiet_preorder : PreOrder quiet.
Proof. split; [by intros s; split|]. intros s1 s2 s3 [] []. split; by etrans. Qed.

Lemma set_rel_live set set' h : set_rel set set' → live set h → live set' h.
Proof. intros H L. destruct (H h) as [E|[_ L']]; [|done]. unfold live. by rewrite E. Qed.

Lemma set_rel_foreign set set' : set_rel set set' → foreign_kept set set'.
Proof.
  intros H h a Ha Hd. destruct (H h) as [->|[L _]]; [done|].
  unfold live in L. rewrite Ha in L. cbn in L. rewrite Hd in L. by destruct L.
Qed.

Lemma lookup_names s fd : names s !! fd = named <$> hm_handles (handles s) !! fd.
Proof. apply lookup_fmap. Qed.

Lemma names_wf s s' :
  names s' = names s → hm_next_id (handles s') = hm_next_id (handles s) →
  hm_wf (handles s) → hm_wf (handles s').
Proof.
  intros Hn Hx [H1 H2 H3].
  assert (∀ fd, is_Some (hm_handles (handles s') !! fd) ↔ is_Some (hm_handles (handles s) !! fd)) as Hd.
  { intros fd. rewrite <- !(fmap_is_Some named), <- !lookup_names. by rewrite Hn. }
  split; [|by rewrite Hx|].
  - rewrite Hx. apply eq_None_not_Some. rewrite Hd. by apply eq_None_not_Some.
  - intros fd x Hfd. destruct (proj1 (Hd fd)) as [y Hy]; [by exists x|]. by apply (H3 fd y).
Qed.

Lemma quiet_ok s s' : quiet s s' → scheme_ok s → scheme_ok s'.
Proof.
  intros [Hn Hx Hc Hs] [H1 H2 H3]. split.
  - by eapply names_wf.
  - intros h. unfold refs. by rewrite Hc, Hn.
  - intros fd h. rewrite Hn. intros Hfd. eapply set_rel_live; [done|by eapply H3].
Qed.

Lemma live_put set h x : live (<[h := upcast x]> set) h.
Proof. unfold live. rewrite lookup_insert_eq. cbn. rewrite downcast_upcast. by eexists. Qed.

Lemma set_rel_put set h x : live set h → set_rel set (<[h := upcast x]> set).
Proof.
  intros L h'. destruct (decide (h' = h)) as [->|]; [|left; by rewrite lookup_insert_ne].
  right. split; [done|apply live_put].
Qed.

Lemma names_put s fd file file' :
  hm_handles (handles s) !! fd = Some (File file) → file_socket file' = file_socket file →
  names (set_handles (hm_set fd (File file')) s) = names s.
Proof.
  intros Hfd E. unfold names. cbn. rewrite fmap_insert. apply insert_id. rewrite lookup_fmap, Hfd. cbn. by rewrite E.
Qed.

Lemma quiet_put_file s fd file file' :
  hm_handles (handles s) !! fd = Some (File file) → file_socket file' = file_socket file →
  quiet s (set_handles (hm_set fd (File file')) s).
Proof. intros Hfd E. split; [by eapply names_put|done|done|done]. Qed.

Lemma quiet_put_null s fd f f' :
  hm_handles (handles s) !! fd = Some (Null f) → quiet s (set_handles (hm_set fd (Null f')) s).
Proof.
  intros Hfd. split; [|done|done|done]. unfold names. cbn. rewrite fmap_insert. apply insert_id.
  by rewrite lookup_fmap, Hfd.
Qed.

Lemma quiet_socket s h x : live (socket_set (shared s)) h →
  wp (on_shared (put_socket h x)) (moves quiet s) s.
Proof. intros L. split; [done|done|done|]. by apply set_rel_put. Qed.

(** ** Rules for the common steps *)

Lemma moves_handle (R : SocketScheme → SocketScheme → Prop) `{!PreOrder R} {B} fd
    (f : Handle DataT SettingT → comp SocketScheme B) s :
  (∀ h, hm_handles (handles s) !! fd = Some h → wp (f h) (moves R s) s) →
  wp (lift (hm_get (handles s) fd) ≫= f) (moves R s) s.
Proof.
  intros Hf. apply wp_bind. unfold hm_get. destruct (_ !! fd) as [h|]; cbn; [by apply Hf|reflexivity].
Qed.

Lemma wp_socket {B} h (f : SocketT → comp SocketScheme B) (Q : outcome B → SocketScheme → Prop) s :
  (∀ s', Q Panic s') →
  (∀ x, live (socket_set (shared s)) h → wp (f x) Q s) → wp (on_shared (get_socket h) ≫= f) Q s.
Proof.
  intros Hp Hf. apply wp_bind. unfold on_shared. wp_step. unfold get_socket. wp_go; destruct s; cbn in *; [|by apply Hp].
  apply Hf. by eexists.
Qed.

Lemma moves_socket (R : SocketScheme → SocketScheme → Prop) {B} h (f : SocketT → comp SocketScheme B) s :
  (∀ x, live (socket_set (shared s)) h → wp (f x) (moves R s) s) → wp (on_shared (get_socket h) ≫= f) (moves R s) s.
Proof. intros Hf. by apply wp_socket. Qed.
End Inv.

(** ** The interface *)

(** What the scheme relies on about a kind of sockets: a new socket gets a handle of its own,
    and no method but [dup] gives a file another socket. *)
Class SocketLaws `{SocketSets} `{IpTypes} (SK : SchemeSocket) : Prop := {
  law_new_socket path u sh d :
    match new_socket path u (sh, d) with
    | (Ok (h, _), (sh', _)) =>
       socket_set sh !! h = None ∧ live (socket_set sh') h ∧
       ∀ h', h' ≠ h → socket_set sh' !! h' = socket_set sh !! h'
    | (Err _, (sh', _)) => socket_set sh ⊆ socket_set sh'
    | (Panic, _) => True
    end;
  law_dup path sh file d :
    match dup_file path (sh, file, d) with
    | (Panic, _) => True
    | (_, (sh', file', _)) => socket_set sh ⊆ socket_set sh' ∧ file_socket file' = file_socket file
    end;
  law_write buf x f :
    match write_buf buf (x, f) with
    | (Panic, _) => True
    | (_, (_, f')) => socket_handle f' = socket_handle f
    end;
  law_read buf x f :
    match read_buf buf (x, f) with
    | (Panic, _) => True
    | (_, (_, f')) => socket_handle f' = socket_handle f
    end;
  law_set_setting t buf f :
    match set_setting t buf f with
    | (Panic, _) => True
    | (_, f') => socket_handle f' = socket_handle f
    end;
  law_shutdown how x f :
    match handle_shutdown how (x, f) with
    | (Panic, _) => True
    | (_, (_, f')) => file_socket f' = file_socket f
    end;
  law_recvmsg buf fl x f :
    match handle_recvmsg buf fl (x, f) with
    | (Panic, _) => True
    | (_, (_, f')) => file_socket f' = file_socket f
    end;
}.

(** [dup] makes a second file for the same socket. *)
Class NoAccept `{SocketSets} `{IpTypes} (SK : SchemeSocket) : Prop := {
  law_no_accept path st f u st' :
    dup_file path st = (Ok (Some (f, u)), st') → u = None ∧ file_socket f = file_socket st.1.2;
}.

Section Quiet.
Context {SA : SyscallAbi} {NA : NetAbi} {SS : SocketSets} {IP : IpTypes} {SK : SchemeSocket} {SL : SocketLaws SK}.
Abbreviation Quiet s := (moves quiet s).

Definition put_at (h : Z) (x : SocketT) (s : SocketScheme) : SocketScheme :=
  {| s with shared := set_socket_set <[h := upcast x]> (shared s) |}.

Lemma wp_put_socket {B} h x (f : unit → comp SocketScheme B) Q s :
  wp (f tt) Q (put_at h x s) → wp (on_shared (put_socket h x) ≫= f) Q s.
Proof. done. Qed.

Lemma quiet_put_at s h x : live (socket_set (shared s)) h → quiet s (put_at h x s).
Proof. intros L. split; [done..|]. by apply set_rel_put. Qed.

Lemma quiet_update s fd file file' h x :
  hm_handles (handles s) !! fd = Some (File file) → file_socket file' = file_socket file →
  live (socket_set (shared s)) h →
  quiet s (set_handles (hm_set fd (File file')) (put_at h x s)).
Proof. intros Hfd E L. etrans; [by apply quiet_put_at|]. by eapply quiet_put_file. Qed.

Lemma with_file_quiet {A} fd file (m : comp (SocketT * SchemeFile DataT SettingT) A) s :
  hm_handles (handles s) !! fd = Some (File file) →
  (∀ x, match m (x, file) with (Panic, _) => True | (_, (_, f')) => file_socket f' = file_socket file end) →
  wp (with_file fd file m) (Quiet s) s.
Proof.
  intros Hfd Hm. unfold with_file. apply moves_socket. intros x L. specialize (Hm x).
  destruct (m (x, file)) as [r [x' f']]. apply wp_put_socket, wp_bind, wp_modify, wp_lift.
  destruct r; [..|done]; by eapply quiet_update.
Qed.

Lemma socket_io_quiet {A} fd file (m : comp (SocketT * SocketFile DataT) A) clear s :
  hm_handles (handles s) !! fd = Some (File (FSocket file)) →
  (∀ f, socket_handle (clear f) = socket_handle f) →
  (∀ x, match m (x, file) with (Panic, _) => True | (_, (_, f')) => socket_handle f' = socket_handle file end) →
  wp (socket_io fd file m clear) (Quiet s) s.
Proof.
  intros Hfd Hc Hm. unfold socket_io. apply moves_socket. intros x L. specialize (Hm x).
  destruct (m (x, file)) as [r [x' f']]. apply wp_put_socket, wp_bind, wp_modify, wp_lift.
  destruct r as [|e|]; [..|done]; (eapply quiet_update; [exact Hfd| |done]); cbn [file_socket];
    destruct (would_block _); by rewrite ?Hc.
Qed.

(** The events of a file: its socket may change, its name does not *)
Lemma file_events_rel file sh :
  match file_events file sh with
  | (Panic, _) => True
  | (Ok (_, file'), sh') => set_rel (socket_set sh) (socket_set sh') ∧ file_socket file' = file_socket file
  | (Err _, sh') => set_rel (socket_set sh) (socket_set sh')
  end.
Proof.
  destruct file as [f|f]; cbn; [done|]. unfold get_socket, mbind, comp_bind, get, expect.
  destruct (option_bind _ _ downcast _) as [x|] eqn:Hx; [|done]. cbn.
  destruct ((if has_flag (events f) EVENT_READ then can_recv (data f) else mret false) x) as [[b| |] x']; cbn; [|done..].
  split; [|done]. apply set_rel_put. by exists x.
Qed.

Lemma fevent_quiet fd ev s : wp (fevent fd ev) (Quiet s) s.
Proof.
  unfold fevent. apply moves_get, moves_handle; [apply _|]. intros [|?|[?|f]] Hfd; [apply (moves_fail _)..|].
  apply wp_bind. unfold on_shared. wp_step. unfold wp.
  pose proof (file_events_rel (FSocket {| f with events := ev; read_notified := false; write_notified := false |}) (shared s)) as H.
  destruct (file_events _ _) as [[[rev file']| |] sh'].
  - destruct H as [Hs Hn]. split; [|done|done|done]. by apply (names_put s fd (FSocket f) file' Hfd).
  - by split.
  - done.
Qed.

Lemma get_setting_quiet fd setting buf s : wp (scheme_get_setting fd setting buf) (Quiet s) s.
Proof.
  unfold scheme_get_setting. apply moves_get, moves_handle; [apply _|]. intros [|?|[?|f]] Hfd; [apply (moves_fail _)..|].
  destruct setting; [destruct buf; [apply (moves_fail _)|apply moves_socket; intros x _; apply (moves_ret _)]| | |apply (moves_lift _)].
  all: repeat case_match; apply (moves_ret _).
Qed.

Lemma update_setting_quiet fd setting buf s : wp (update_setting fd setting buf) (Quiet s) s.
Proof.
  unfold update_setting. apply moves_get, moves_handle; [apply _|]. intros [|?|[?|f]] Hfd; [apply (moves_fail _)..|].
  destruct (if bool_decide _ then _ else _) as [t n]. destruct setting as [| | |t'].
  - destruct buf; [apply (moves_fail _)|]. apply moves_socket. intros x L. apply wp_put_socket, wp_ret. by apply quiet_put_at.
  - apply wp_bind, wp_modify, wp_ret. by eapply quiet_put_file.
  - apply wp_bind, wp_modify, wp_ret. by eapply quiet_put_file.
  - pose proof (law_set_setting t' buf f) as H. destruct (set_setting t' buf f) as [r f'].
    apply wp_bind, wp_modify, wp_lift. destruct r; [..|done]; by eapply quiet_put_file.
Qed.

Lemma write_quiet fd buf s : wp (write fd buf) (Quiet s) s.
Proof.
  unfold write. apply moves_get, moves_handle; [apply _|]. intros [|?|[?|f]] Hfd; [apply (moves_fail _)..| |].
  - apply update_setting_quiet.
  - apply socket_io_quiet; [done|done|]. intros x. apply law_write.
Qed.

Lemma read_quiet fd buf s : wp (read fd buf) (Quiet s) s.
Proof.
  unfold read. apply moves_get, moves_handle; [apply _|]. intros [|?|[?|f]] Hfd; [apply (moves_fail _)..| |].
  - apply get_setting_quiet.
  - apply socket_io_quiet; [done|done|]. intros x. apply law_read.
Qed.

Lemma fpath_quiet fd buf s : wp (fpath fd buf) (Quiet s) s.
Proof.
  unfold fpath. apply moves_get, moves_handle; [apply _|]. intros [|?|f] Hfd; [apply (moves_fail _)..|].
  apply moves_socket. intros x _. apply (moves_lift _).
Qed.

Lemma fcntl_quiet fd cmd arg s : wp (fcntl fd cmd arg) (Quiet s) s.
Proof.
  unfold fcntl. apply moves_get, moves_handle; [apply _|]. intros [|f|[?|f]] Hfd; [apply (moves_fail _)| |apply (moves_fail _)|].
  all: case_bool_decide; [apply (moves_ret _)|]; case_bool_decide; [|apply (moves_fail _)]; apply wp_bind, wp_modify, wp_ret.
  - by eapply quiet_put_null.
  - by eapply quiet_put_file.
Qed.

Lemma call_quiet fd payload metadata s : wp (call fd payload metadata) (Quiet s) s.
Proof.
  unfold call. apply (moves_bind _); [apply (moves_expect _)|]. intros raw s1 _. clear s.
  apply (moves_bind _); [apply (moves_ok_or _)|]. intros verb s _. clear s1.
  destruct verb; [apply (moves_ret _)|apply moves_get, moves_handle; [apply _|]..| | |apply (moves_fail _)].
  - intros [|f|f] Hfd; [apply (moves_fail _)| |].
    + apply (moves_bind _); [apply (moves_expect _)|]. intros name s1 _. case_bool_decide; [apply (moves_lift _)|apply (moves_fail _)].
    + apply moves_socket. intros x _. apply (moves_bind _); [apply (moves_expect _)|]. intros name s1 _. apply (moves_lift _).
  - intros [|f|f] Hfd; [apply (moves_fail _)..|]. apply moves_socket. intros x _. apply (moves_lift _).
  - apply wp_bind. wp_step; [|done]. apply moves_get, moves_handle; [apply _|]. intros [|f|f] Hfd; [apply (moves_fail _)..|].
    apply with_file_quiet; [done|]. intros x. apply law_recvmsg.
  - apply wp_bind. wp_step; [|done]. apply moves_get, moves_handle; [apply _|]. intros [|f|f] Hfd; [apply (moves_fail _)| |].
    + apply wp_bind. wp_step; [|by cbn]. apply wp_bind, wp_modify, wp_ret. by eapply quiet_put_null.
    + apply (moves_bind _); [|intros n s1 _; apply (moves_ret _)].
      apply with_file_quiet; [done|]. intros x. apply law_shutdown.
Qed.
End Quiet.

(** ** Opening and closing *)

Section Open.
Context {SA : SyscallAbi} {NA : NetAbi} {SS : SocketSets} {IP : IpTypes} {SK : SchemeSocket} {SL : SocketLaws SK}.

Definition open_handles (s : SocketScheme) : Z := Z.of_nat (size (hm_handles (handles s))).

(** The invariant, with a bound on the number of open handles *)
Definition inv (n : Z) (s : SocketScheme) : Prop := scheme_ok s ∧ open_handles s ≤ n.

Definition ends_in (P : SocketScheme → Prop) {A} (r : outcome A) (s' : SocketScheme) : Prop :=
  match r with Panic => True | _ => P s' end.

Lemma quiet_open_handles s s' : quiet s s' → open_handles s' = open_handles s.
Proof.
  intros [Hn _ _ _]. unfold open_handles. f_equal.
  transitivity (size (names s')); [|rewrite Hn]; unfold names; by rewrite map_size_fmap.
Qed.

Lemma quiet_inv n s s' : quiet s s' → inv n s → inv n s'.
Proof. intros Q [Hok Hn]. split; [by eapply quiet_ok|]. by rewrite (quiet_open_handles _ _ Q). Qed.

Lemma live_mono set set' h : set ⊆ set' → live set h → live set' h.
Proof.
  intros Hs [x Hx]. apply bind_Some in Hx as (a & Ha & Hx). exists x.
  by rewrite (lookup_weaken _ _ _ _ Ha Hs).
Qed.

Lemma foreign_kept_mono set set' : set ⊆ set' → foreign_kept set set'.
Proof. intros Hs h a Ha _. by eapply lookup_weaken. Qed.

(** More sockets in the set, other data *)
Lemma ok_more s hs sh d :
  scheme_ok s → names (mk_socket_scheme hs (ref_counts s) sh d) = names s →
  hm_next_id hs = hm_next_id (handles s) → socket_set (shared s) ⊆ socket_set sh →
  scheme_ok (mk_socket_scheme hs (ref_counts s) sh d).
Proof.
  intros [H1 H2 H3] Hn Hx Hs. split; cbn.
  - by apply (names_wf s (mk_socket_scheme hs (ref_counts s) sh d)).
  - intros h. rewrite H2. unfold refs. by rewrite Hn.
  - intros fd h. rewrite Hn. intros Hfd. eapply live_mono; [done|by eapply H3].
Qed.

Lemma refs_pos s fd h : names s !! fd = Some (Some h) → (0 < refs s h)%nat.
Proof. apply holders_pos. Qed.

Lemma refs_zero s h : scheme_ok s → ¬ live (socket_set (shared s)) h → refs s h = 0%nat.
Proof.
  intros [_ _ H3] Hl. unfold refs, holders. apply map_size_empty_iff, map_empty. intros fd.
  apply map_lookup_filter_None. right. cbn. intros o Hfd E. apply Hl, (H3 fd). by rewrite <- E.
Qed.

Lemma insert_handle_wp hd s (Q : outcome Z → SocketScheme → Prop) :
  hm_wf (handles s) → hm_room (handles s) →
  (∀ next, let m := mk_handle_map (<[hm_next_id (handles s) := hd]> (hm_handles (handles s))) next in
     hm_wf m → Q (Ok (hm_next_id (handles s))) {| s with handles := m |}) →
  wp (insert_handle hd) Q s.
Proof. intros H1 H2 HQ. unfold insert_handle. wp_step. by apply hm_insert_wp. Qed.

Lemma open_handles_insert (s : SocketScheme) hd next rc sh d : hm_wf (handles s) →
  open_handles (mk_socket_scheme (mk_handle_map (<[hm_next_id (handles s) := hd]> (hm_handles (handles s))) next) rc sh d)
  = open_handles s + 1.
Proof. intros [H1 _ _]. unfold open_handles. cbn. rewrite map_size_insert_None by done. lia. Qed.

Lemma refs_insert (s : SocketScheme) hd next rc sh d h : hm_wf (handles s) →
  refs (mk_socket_scheme (mk_handle_map (<[hm_next_id (handles s) := hd]> (hm_handles (handles s))) next) rc sh d) h
  = ((if decide (named hd = Some h) then 1 else 0) + refs s h)%nat.
Proof.
  intros [H1 _ _]. unfold refs, names. cbn. rewrite fmap_insert. apply holders_insert.
  by rewrite lookup_fmap, H1.
Qed.

Lemma names_insert (s : SocketScheme) hd next rc sh d :
  names (mk_socket_scheme (mk_handle_map (<[hm_next_id (handles s) := hd]> (hm_handles (handles s))) next) rc sh d)
  = <[hm_next_id (handles s) := named hd]> (names s).
Proof. unfold names. cbn. by rewrite fmap_insert. Qed.

(** A handle that names no socket *)
Lemma insert_unnamed_inv n hd s :
  inv n s → n < usize_max → named hd = None → wp (insert_handle hd) (ends_in (inv (n + 1))) s.
Proof.
  intros [Hok Hn] Hmax Hhd. pose proof Hok as [H1 H2 H3]. apply insert_handle_wp; [done|unfold hm_room, open_handles in *; lia|].
  intros next m Hm. split; [|unfold m; destruct s; rewrite open_handles_insert by done; lia]. split; [done| |].
  - intros h. unfold m. destruct s. rewrite refs_insert by done. rewrite Hhd. cbn. apply H2.
  - intros fd h. unfold m. destruct s. rewrite names_insert, Hhd. rewrite lookup_insert_Some. intros [[_ ?]|[_ Hfd]]; [done|].
    by eapply H3.
Qed.

(** A second file for a socket, which takes a reference *)
Lemma insert_file_inv n file s :
  inv n s → n < usize_max → live (socket_set (shared s)) (file_socket file) →
  wp (add_ref (file_socket file);; insert_handle (File file)) (ends_in (inv (n + 1))) s.
Proof.
  intros [Hok Hn] Hmax L. pose proof Hok as [H1 H2 H3]. set (h := file_socket file) in *. unfold add_ref. wp_step. wp_step. wp_step.
  unfold add_usize. wp_step. wp_step; [|done]. apply wp_modify. cbv beta iota.
  destruct s as [hs rc sh d]. cbn in *. apply insert_handle_wp; cbn; [done|unfold hm_room, open_handles in *; cbn in *; lia|].
  intros next Hm. split; [|rewrite (open_handles_insert (mk_socket_scheme hs rc sh d)) by done; lia]. split; cbn; [done| |].
  - intros h'. rewrite (refs_insert (mk_socket_scheme hs rc sh d)) by done. cbn. fold h.
    unfold checked_add_usize in Heqo. case_bool_decide; simplify_eq. destruct (decide (h' = h)) as [->|Hne].
    + rewrite lookup_insert_eq, decide_True by done. rewrite H2. destruct (refs _ h); cbn; f_equal; lia.
    + rewrite lookup_insert_ne, decide_False by congruence. apply H2.
  - intros fd h'. unfold names. cbn. rewrite fmap_insert, lookup_insert_Some. cbn. fold h.
    intros [[_ [= <-]]|[_ Hfd]]; [done|]. by eapply H3.
Qed.

Lemma inv_weaken n n' s : inv n s → n ≤ n' → inv n' s.
Proof. intros [? ?] ?. split; [done|lia]. Qed.

Lemma ends_in_mono (P P' : SocketScheme → Prop) {A} (m : comp SocketScheme A) s :
  wp m (ends_in P) s → (∀ s', P s' → P' s') → wp m (ends_in P') s.
Proof. intros H HP. eapply wp_mono; [exact H|]. intros [] s'; cbn; auto. Qed.

Lemma quiet_ends_in n {A} (m : comp SocketScheme A) s :
  wp m (moves quiet s) s → inv n s → wp m (ends_in (inv (n + 1))) s.
Proof.
  intros H Hi. eapply wp_mono; [exact H|].
  intros [] s'; cbn; [| |done]; intros Q; (eapply inv_weaken; [by eapply quiet_inv|lia]).
Qed.

(** The file of a socket that was not there *)
Lemma insert_new_inv n h f s s1 :
  inv n s → n < usize_max → file_socket f = h →
  socket_set (shared s) !! h = None → live (socket_set (shared s1)) h →
  (∀ h', h' ≠ h → socket_set (shared s1) !! h' = socket_set (shared s) !! h') →
  handles s1 = handles s → ref_counts s1 = <[h := 1]> (ref_counts s) →
  wp (insert_handle (File f)) (ends_in (inv (n + 1))) s1.
Proof.
  intros [Hok Hn] Hmax Hf Hnone L Hother Hh Hr. pose proof Hok as [H1 H2 H3].
  assert (refs s h = 0%nat) as H0. { apply refs_zero; [done|]. unfold live. rewrite Hnone. by intros [? ?]. }
  destruct s as [hs rc sh d], s1 as [hs1 rc1 sh1 d1]. cbn in *. subst hs1 rc1.
  apply insert_handle_wp; cbn; [done|unfold hm_room, open_handles in *; cbn in *; lia|].
  intros next Hm. split; [|rewrite (open_handles_insert (mk_socket_scheme hs rc sh d)) by done; lia]. split; cbn; [done| |].
  - intros h'. rewrite (refs_insert (mk_socket_scheme hs rc sh d)) by done. cbn. rewrite Hf. destruct (decide (h' = h)) as [->|Hne].
    + by rewrite lookup_insert_eq, decide_True, H0 by done.
    + rewrite lookup_insert_ne, decide_False by congruence. apply H2.
  - intros fd h'. unfold names. cbn. rewrite fmap_insert, lookup_insert_Some. cbn. rewrite Hf.
    intros [[_ [= <-]]|[_ Hfd]]; [done|]. pose proof (H3 fd h' Hfd) as L'. unfold live in *. rewrite Hother; [done|].
    intros ->. rewrite Hnone in L'. by destruct L'.
Qed.

Lemma open_inner_inv n path fl u g rd wr s :
  inv n s → n < usize_max → wp (open_inner path fl u g rd wr) (ends_in (inv (n + 1))) s.
Proof.
  intros Hi Hmax. unfold open_inner. case_bool_decide; [by apply insert_unnamed_inv|].
  apply wp_bind, wp_zoom. unfold wp at 1. pose proof (law_new_socket path u (shared s) (scheme_data s)) as H0.
  destruct (new_socket path u (shared s, scheme_data s)) as [[[h d]|e|] [sh' sd']]; cbn; [| |done].
  - destruct H0 as (Hnone & L & Hother). apply wp_bind, wp_modify. by eapply (insert_new_inv n h _ s).
  - destruct Hi as [Hok Hn]. destruct s as [hs rc sh sd]. split; [|unfold open_handles in *; cbn in *; lia].
    by apply (ok_more (mk_socket_scheme hs rc sh sd)).
Qed.

Lemma openat_inv n fd path fl u g s :
  inv n s → n < usize_max → wp (openat fd path fl u g) (ends_in (inv (n + 1))) s.
Proof.
  intros Hi Hmax. assert (inv (n + 1) s) by (eapply inv_weaken; [done|lia]).
  unfold openat. apply wp_bind, wp_get. apply wp_bind, wp_lift. unfold hm_get.
  destruct (_ !! fd) as [[]|]; [by apply open_inner_inv|done..].
Qed.

(** ** [dup] *)

Context {NoAcc : NoAccept SK}.

Lemma dup_socket_inv n fd file path s :
  inv n s → hm_handles (handles s) !! fd = Some (File file) →
  wp (dup_socket fd file path) (λ r s', match r with
    | Ok (o, file') => inv n s' ∧
       match o with Some (f, u) => u = None ∧ live (socket_set (shared s')) (file_socket f) | None => True end
    | Err _ => inv n s'
    | Panic => True
    end) s.
Proof.
  intros [Hok Hn] Hfd. unfold dup_socket. apply wp_bind, wp_get.
  pose proof (law_dup path (shared s) file (scheme_data s)) as Hd.
  pose proof (law_no_accept path (shared s, file, scheme_data s)) as Hacc.
  destruct (dup_file path _) as [r [[sh' file'] d']]. apply wp_bind, wp_put, wp_bind, wp_lift.
  destruct s as [hs rc sh d]. cbn in *.
  assert (r ≠ Panic → inv n (mk_socket_scheme (hm_set fd (File file') hs) rc sh' d')) as Hi.
  { intros Hr. assert (socket_set sh ⊆ socket_set sh' ∧ file_socket file' = file_socket file) as [Hs Hf] by (by destruct r).
    assert (names (mk_socket_scheme (hm_set fd (File file') hs) rc sh' d') = names (mk_socket_scheme hs rc sh d)) as Hnames
      by (by eapply (names_put (mk_socket_scheme hs rc sh d))).
    split; [by apply (ok_more (mk_socket_scheme hs rc sh d))|].
    transitivity (open_handles (mk_socket_scheme hs rc sh d)); [|done]. apply Z.eq_le_incl. unfold open_handles. f_equal.
    transitivity (size (names (mk_socket_scheme (hm_set fd (File file') hs) rc sh' d'))); [|rewrite Hnames];
      unfold names; cbn; by rewrite map_size_fmap. }
  destruct r as [[[f u]|]|e|]; cbn; [|by split; [apply Hi|]|by apply Hi|done].
  split; [by apply Hi|]. destruct (Hacc _ _ _ eq_refl) as [-> ->]. split; [done|].
  apply (live_mono (socket_set sh)); [by destruct Hd|]. apply (ok_live _ Hok fd). by rewrite lookup_names; cbn; rewrite Hfd.
Qed.

Lemma dup_inv n fd buf s : inv n s → n < usize_max → wp (dup fd buf) (ends_in (inv (n + 1))) s.
Proof.
  intros Hi Hmax. assert (inv (n + 1) s) as Hi' by (eapply inv_weaken; [done|lia]).
  unfold dup. apply wp_bind. wp_step; [|done]. apply wp_bind, wp_get, wp_bind, wp_lift. unfold hm_get.
  destruct (_ !! fd) as [[|f|file]|] eqn:Hfd; [done|by apply open_inner_inv| |done].
  assert (live (socket_set (shared s)) (file_socket file)) as L.
  { destruct Hi as [Hok _]. apply (ok_live _ Hok fd). by rewrite lookup_names, Hfd. }
  apply wp_bind. case_bool_decide; [by apply insert_file_inv|]. case_bool_decide; [by apply insert_file_inv|].
  case_bool_decide; [by apply insert_file_inv|].
  apply wp_bind. eapply wp_mono; [by apply (dup_socket_inv n)|].
  intros [[o file']|e|] s'; [|intros ?; apply (inv_weaken n); [done|lia]|done].
  intros [Hi1 Ho]. apply wp_bind, wp_ok_or. destruct o as [[f u]|]; [|apply (inv_weaken n); [done|lia]].
  apply wp_ret. destruct Ho as [-> L']. cbn. by apply insert_file_inv.
Qed.

(** ** [on_close] *)

Lemma names_delete (s : SocketScheme) fd rc sh d :
  names (mk_socket_scheme (mk_handle_map (delete fd (hm_handles (handles s))) (hm_next_id (handles s))) rc sh d)
  = delete fd (names s).
Proof. unfold names. cbn. by rewrite fmap_delete. Qed.

Lemma refs_delete (s : SocketScheme) fd rc sh d o h :
  names s !! fd = Some o →
  refs s h = ((if decide (o = Some h) then 1 else 0) +
    refs (mk_socket_scheme (mk_handle_map (delete fd (hm_handles (handles s))) (hm_next_id (handles s))) rc sh d) h)%nat.
Proof. intros Hfd. unfold refs at 2. rewrite names_delete. by apply holders_delete. Qed.

(** What [drop_ref] does to an exact count *)
Lemma drop_ref_count h n s :
  ref_counts s !! h = count (S n) →
  drop_ref h s = (Ok (bool_decide (n = 0%nat)),
    set_ref_counts (if bool_decide (n = 0%nat) then delete h else <[h := Z.of_nat n]>) s).
Proof.
  intros Hc. unfold drop_ref. rewrite bind_get, Hc. cbn [count]. rewrite bool_decide_eq_false_2 by lia.
  unfold sub_usize. destruct n as [|n].
  - rewrite bool_decide_eq_true_2 by lia. done.
  - rewrite (bool_decide_eq_false_2 (S n = 0%nat)) by lia.
    replace (Z.of_nat (S (S n)) - 1) with (Z.of_nat (S n)) by lia. cbn.
    rewrite ?bool_decide_eq_true_2, ?bool_decide_eq_false_2 by lia. done.
Qed.

(** The state after the file [fd] of the socket [h] is closed; [n] other files are left *)
Definition closed (fd h : Z) (n : nat) (d : SchemeDataT) (s : SocketScheme) : SocketScheme :=
  let sh := shared s in
  mk_socket_scheme (mk_handle_map (delete fd (hm_handles (handles s))) (hm_next_id (handles s)))
    ((if bool_decide (n = 0%nat) then delete h else <[h := Z.of_nat n]>) (ref_counts s))
    (if bool_decide (n = 0%nat) then set_socket_set (delete h) sh else sh) d.

Lemma hm_remove_eq {T} fd (m : HandleMap T) :
  hm_remove fd m = (Ok (hm_handles m !! fd), mk_handle_map (delete fd (hm_handles m)) (hm_next_id m)).
Proof. done. Qed.

Lemma on_close_eq fd file s x r d n :
  hm_handles (handles s) !! fd = Some (File file) →
  socket_set (shared s) !! file_socket file ≫= downcast = Some x →
  close_file x file (scheme_data s) = (r, d) →
  ref_counts s !! file_socket file = count (S n) →
  (on_close fd s).1 = (match r with Panic => Panic | _ => Ok tt end) ∧
  (r ≠ Panic → (on_close fd s).2 = closed fd (file_socket file) n d s).
Proof.
  intros Hfd Hx Hr Hc. destruct s as [hs rc sh sd]. cbn in *. set (h := file_socket file) in *. unfold on_close, closed.
  set (hs' := mk_handle_map (delete fd (hm_handles hs)) (hm_next_id hs)).
  rewrite (bind_ok _ _ _ (Some (File file)) (mk_socket_scheme hs' rc sh sd))
    by (unfold zoom; rewrite hm_remove_eq; by rewrite <- Hfd).
  fold h. rewrite (bind_ok _ _ _ x (mk_socket_scheme hs' rc sh sd))
    by (unfold on_shared, zoom, get_socket; rewrite bind_get; cbn [shared socket_set]; by rewrite Hx).
  destruct (decide (r = Panic)) as [->|Hnp].
  { unfold mbind, comp_bind, attempt, on_data, zoom. cbn [scheme_data]. by rewrite Hr. }
  rewrite (bind_ok _ _ _ (match r with Ok a => Some a | _ => None end) (mk_socket_scheme hs' rc sh d))
    by (unfold attempt, on_data, zoom; cbn [scheme_data]; rewrite Hr; by destruct r).
  rewrite (bind_ok _ _ _ _ _ (drop_ref_count h n (mk_socket_scheme hs' rc sh d) Hc)).
  apply bind_Some in Hx as (a & Ha & _). cbn. destruct (bool_decide (n = 0%nat)); [|by destruct r].
  unfold on_shared, zoom, remove_socket. rewrite bind_get. cbn. rewrite Ha. by destruct r.
Qed.

Lemma closed_ok fd h n d s :
  scheme_ok s → names s !! fd = Some (Some h) → refs s h = S n → scheme_ok (closed fd h n d s).
Proof.
  intros [H1 H2 H3] Hfd Hn.
  assert (∀ h', refs s h' = ((if decide (Some h = Some h') then 1 else 0) + refs (closed fd h n d s) h')%nat) as Hrefs.
  { intros h'. by apply refs_delete. }
  split.
  - by apply hm_remove_wf.
  - intros h'. cbn. specialize (Hrefs h'). destruct (decide (h' = h)) as [->|Hne].
    + rewrite decide_True in Hrefs by done. replace (refs (closed fd h n d s) h) with n by lia.
      case_bool_decide; [subst; by rewrite lookup_delete_eq|]. rewrite lookup_insert_eq. by destruct n.
    + rewrite decide_False in Hrefs by congruence. cbn in Hrefs. rewrite <- Hrefs, <- H2.
      case_bool_decide; [by rewrite lookup_delete_ne|by rewrite lookup_insert_ne].
  - intros fd' h' Hfd'. assert (Hr := Hrefs h'). assert (0 < refs (closed fd h n d s) h')%nat as Hpos by (by eapply refs_pos).
    assert (live (socket_set (shared s)) h') as L.
    { unfold closed in Hfd'. rewrite names_delete in Hfd'. apply lookup_delete_Some in Hfd' as [_ Hfd']. by eapply H3. }
    cbn. case_bool_decide as Hz; [|done]. unfold live. cbn. destruct (decide (h' = h)) as [->|Hne].
    + rewrite decide_True in Hr by done. lia.
    + by rewrite lookup_delete_ne.
Qed.

(** Closing a handle that names no socket *)
Lemma on_close_unnamed fd s :
  (∀ h, names s !! fd ≠ Some (Some h)) →
  on_close fd s = (Ok tt, {| s with handles := mk_handle_map (delete fd (hm_handles (handles s))) (hm_next_id (handles s)) |}).
Proof.
  intros Hfd. unfold on_close. erewrite bind_ok; [|unfold zoom; rewrite hm_remove_eq; reflexivity].
  specialize (λ h, Hfd h). setoid_rewrite lookup_names in Hfd.
  destruct (hm_handles (handles s) !! fd) as [[| |file]|]; [done|done| |done]. by destruct (Hfd (file_socket file)).
Qed.

Lemma unnamed_ok fd s hs :
  scheme_ok s → (∀ h, names s !! fd ≠ Some (Some h)) →
  hs = mk_handle_map (delete fd (hm_handles (handles s))) (hm_next_id (handles s)) →
  scheme_ok {| s with handles := hs |}.
Proof.
  intros [H1 H2 H3] Hfd ->. destruct s as [hs rc sh d]. cbn in *. split; cbn.
  - by apply hm_remove_wf.
  - intros h. rewrite H2. f_equal. destruct (names (mk_socket_scheme hs rc sh d) !! fd) as [o|] eqn:Ho.
    + rewrite (refs_delete _ fd rc sh d o h Ho). rewrite decide_False; [done|]. intros ->. by apply (Hfd h).
    + unfold refs. rewrite (names_delete (mk_socket_scheme hs rc sh d)). by rewrite delete_id.
  - intros fd' h Hfd'. unfold names in Hfd'. cbn in Hfd'. rewrite fmap_delete in Hfd'.
    apply lookup_delete_Some in Hfd' as [_ Hfd']. by eapply H3.
Qed.

Lemma open_handles_delete (s : SocketScheme) fd rc sh d :
  open_handles (mk_socket_scheme (mk_handle_map (delete fd (hm_handles (handles s))) (hm_next_id (handles s))) rc sh d)
  ≤ open_handles s.
Proof. unfold open_handles. cbn. apply inj_le, map_subseteq_size, delete_subseteq. Qed.

Lemma on_close_inv n fd s : inv n s → wp (on_close fd) (ends_in (inv n)) s.
Proof.
  intros [Hok Hn]. unfold wp. destruct (names s !! fd) as [[h|]|] eqn:Hname.
  1: {
    assert (∃ file, hm_handles (handles s) !! fd = Some (File file) ∧ file_socket file = h) as (file & Hfd & <-).
    { rewrite lookup_names in Hname. destruct (_ !! fd) as [[]|]; naive_solver. }
    destruct (ok_live _ Hok _ _ Hname) as [x Hx]. pose proof (refs_pos _ _ _ Hname) as Hpos.
    destruct (refs s (file_socket file)) as [|k] eqn:Hk; [lia|].
    destruct (close_file x file (scheme_data s)) as [r d] eqn:Hr.
    destruct (on_close_eq fd file s x r d k Hfd Hx Hr) as [E1 E2]; [by rewrite (ok_counts _ Hok), Hk|].
    rewrite E1. destruct r as [a|e|]; [..|done]; cbn; rewrite E2 by done.
    all: split; [by apply closed_ok|]; etrans; [apply open_handles_delete|done]. }
  all: rewrite on_close_unnamed by (intros h'; by rewrite Hname); split; [by eapply unnamed_ok; [|intros h'; rewrite Hname|]|].
  all: etrans; [apply open_handles_delete|done].
Qed.

Lemma ends_in_bind n {A B} (m : comp SocketScheme A) (f : A → comp SocketScheme B) s :
  wp m (ends_in (inv n)) s → (∀ a s', wp (f a) (moves quiet s') s') → wp (m ≫= f) (ends_in (inv n)) s.
Proof.
  intros Hm Hf. apply wp_bind. eapply wp_mono; [exact Hm|]. intros [a|e|] s' Hi; [|done..].
  eapply wp_mono; [apply Hf|]. intros [] s''; cbn; [| |done]; intros Q; by eapply quiet_inv.
Qed.

Lemma run_op_inv n op ctx s : inv n s → n < usize_max → wp (run_op op ctx) (ends_in (inv (n + 1))) s.
Proof.
  intros Hi Hmax. destruct op; cbn [run_op].
  1: apply ends_in_bind; [by apply openat_inv|intros a s'; apply (moves_ret _)].
  2: apply ends_in_bind; [apply quiet_ends_in; [apply write_quiet|done]|intros a s'; apply (moves_ret _)].
  3: apply ends_in_bind; [by apply dup_inv|intros a s'; apply (moves_ret _)].
  all: apply quiet_ends_in; [|done].
  - apply call_quiet.
  - apply read_quiet.
  - apply (moves_bind _); [apply fevent_quiet|intros a s' _; apply (moves_ret _)].
  - unfold fsync. apply (moves_bind _); [|intros a s' _; apply (moves_ret _)]. apply moves_get, moves_handle; [apply _|].
    intros ? _. apply (moves_ret _).
  - apply fpath_quiet.
  - apply (moves_bind _); [apply fcntl_quiet|intros a s' _; apply (moves_ret _)].
Qed.
End Open.

(** ** Sockets of other kinds

    No operation touches them, also where the counts are wrong. *)

Section Foreign.
Context {SA : SyscallAbi} {NA : NetAbi} {SS : SocketSets} {IP : IpTypes} {SK : SchemeSocket} {SL : SocketLaws SK}.

Definition spares (s s' : SocketScheme) : Prop := foreign_kept (socket_set (shared s)) (socket_set (shared s')).
Definition same_set (s s' : SocketScheme) : Prop := socket_set (shared s') = socket_set (shared s).

#[local] Instance spares_preorder : PreOrder spares.
Proof. split; [by intros s h a|]. intros s1 s2 s3 H1 H2. unfold spares in *. by etrans. Qed.
#[local] Instance same_set_preorder : PreOrder same_set.
Proof. split; [done|]. intros s1 s2 s3 H1 H2. unfold same_set in *. by etrans. Qed.

Lemma quiet_spares {A} (m : comp SocketScheme A) s : wp m (moves quiet s) s → wp m (moves spares s) s.
Proof. intros H. eapply moves_weaken; [exact H|]. intros s' []. by apply set_rel_foreign. Qed.

Lemma same_set_spares {A} (m : comp SocketScheme A) s : wp m (moves same_set s) s → wp m (moves spares s) s.
Proof. intros H. eapply moves_weaken; [exact H|]. intros s' E. unfold spares. by rewrite E. Qed.

Lemma drop_ref_same h s : wp (drop_ref h) (moves same_set s) s.
Proof. unfold drop_ref, sub_usize. wp_go; done. Qed.

Lemma add_ref_same h s : wp (add_ref h) (moves same_set s) s.
Proof. unfold add_ref, add_usize. wp_go; done. Qed.

Lemma insert_handle_same hd s : wp (insert_handle hd) (moves same_set s) s.
Proof. unfold insert_handle, hm_insert. wp_go; done. Qed.

Lemma moves_from {A} (m : comp SocketScheme A) s s1 :
  spares s s1 → wp m (moves spares s1) s1 → wp m (moves spares s) s1.
Proof. intros H Hm. eapply moves_weaken; [exact Hm|]. intros s' H'. by etrans. Qed.

Lemma remove_spares h s : live (socket_set (shared s)) h → wp (on_shared (remove_socket h)) (moves spares s) s.
Proof.
  intros L. unfold on_shared, remove_socket. wp_go; [|done]. intros h' a' Ha Hd. cbn.
  rewrite lookup_delete_ne; [done|]. intros ->. unfold live in L. rewrite Ha in L. cbn in L. rewrite Hd in L. by destruct L.
Qed.

Lemma on_close_spares fd s : wp (on_close fd) (moves spares s) s.
Proof.
  unfold on_close. apply wp_bind, wp_zoom. unfold wp at 1. rewrite hm_remove_eq. cbn [fst snd].
  eapply moves_from; [by intros h a|]. destruct (_ !! fd) as [[| |file]|]; [apply (moves_ret _)..| |apply (moves_ret _)].
  apply moves_socket. intros x L. eapply (moves_then same_set); [|intros e s' E|done|intros _ s2 E2].
  { apply moves_attempt. unfold on_data. wp_step. unfold wp. by destruct (close_file _ _ _) as [[] ?]. }
  { unfold spares. cbn in E |- *. by rewrite E. }
  eapply moves_from; [unfold spares; by rewrite E2|].
  eapply (moves_then same_set); [apply drop_ref_same|intros e s' E; unfold spares; cbn; by rewrite E|done|].
  intros b s3 E3. eapply moves_from; [unfold spares; by rewrite E3|]. destruct b; [|apply (moves_ret _)].
  apply remove_spares. by rewrite E3, E2.
Qed.

Lemma open_inner_spares path fl u g rd wr s : wp (open_inner path fl u g rd wr) (moves spares s) s.
Proof.
  unfold open_inner. case_bool_decide; [apply same_set_spares, insert_handle_same|].
  apply wp_bind, wp_zoom. unfold wp at 1. pose proof (law_new_socket path u (shared s) (scheme_data s)) as H0.
  destruct (new_socket path u (shared s, scheme_data s)) as [[[h d]|e|] [sh' sd']]; cbn; [| |done].
  - destruct H0 as (Hnone & _ & Hother). apply wp_bind, wp_modify. eapply moves_from; [|apply same_set_spares, insert_handle_same].
    intros h' a Ha _. cbn. rewrite Hother; [done|]. intros ->. congruence.
  - by apply foreign_kept_mono.
Qed.

Lemma dup_socket_spares fd file path s : wp (dup_socket fd file path) (moves spares s) s.
Proof.
  unfold dup_socket. apply wp_bind, wp_get. pose proof (law_dup path (shared s) file (scheme_data s)) as Hd.
  destruct (dup_file path _) as [r [[sh' file'] d']]. apply wp_bind, wp_put, wp_bind, wp_lift.
  destruct r; [..|done]; destruct Hd as [Hd _]; exact (foreign_kept_mono _ _ Hd).
Qed.

Lemma dup_spares fd buf s : wp (dup fd buf) (moves spares s) s.
Proof.
  unfold dup. apply (moves_bind _); [apply (moves_ok_or _)|]. intros path s1 _. apply moves_get, moves_handle; [apply _|].
  intros [|f|file] _; [apply (moves_fail _)|apply open_inner_spares|]. apply (moves_bind _).
  { do 3 (case_bool_decide; [apply (moves_ret _)|]). apply (moves_bind _); [apply dup_socket_spares|].
    intros [r file'] s2 _. apply (moves_bind _); [apply (moves_ok_or _)|]. intros ? s3 _. apply (moves_ret _). }
  intros [[new_handle update] file'] s2 _. apply (moves_bind _).
  { destruct update as [[h d]|]; [destruct file' as [f|f]|]; [apply (moves_ret _)| |apply (moves_ret _)].
    apply wp_bind, wp_modify. eapply moves_from; [by intros h' a|].
    apply (moves_bind _); [apply same_set_spares, add_ref_same|]. intros _ s3 _. apply wp_modify. by intros h' a. }
  intros _ s3 _. apply (moves_bind _); [apply same_set_spares, add_ref_same|]. intros _ s4 _.
  apply same_set_spares, insert_handle_same.
Qed.

Lemma run_op_spares op ctx s : wp (run_op op ctx) (moves spares s) s.
Proof.
  destruct op; cbn [run_op].
  - apply (moves_bind _); [|intros a s' _; apply (moves_ret _)]. unfold openat. apply moves_get, moves_handle; [apply _|].
    intros [] _; [apply open_inner_spares|apply (moves_fail _)..].
  - apply quiet_spares, call_quiet.
  - apply (moves_bind _); [apply quiet_spares, write_quiet|intros a s' _; apply (moves_ret _)].
  - apply quiet_spares, read_quiet.
  - apply (moves_bind _); [apply dup_spares|intros a s' _; apply (moves_ret _)].
  - apply (moves_bind _); [apply quiet_spares, fevent_quiet|intros a s' _; apply (moves_ret _)].
  - apply (moves_bind _); [|intros a s' _; apply (moves_ret _)]. unfold fsync. apply moves_get, moves_handle; [apply _|].
    intros ? _. apply (moves_ret _).
  - apply quiet_spares, fpath_quiet.
  - apply (moves_bind _); [apply quiet_spares, fcntl_quiet|intros a s' _; apply (moves_ret _)].
Qed.
End Foreign.
