(* ===== verification/SocketKinds.v ===== *)
(** * netstack: [tcp:], [udp:], [icmp:] and [ip:]

    Models [netstack/src/scheme/tcp.rs], [udp.rs], [icmp.rs] and [ip.rs], the four
    implementations of [SchemeSocket], and [parse_endpoint] of [scheme/mod.rs].  The sockets
    themselves are those of [smoltcp]: the class [Smoltcp] lists the calls that are made on
    them, and [SmoltcpLaws] what that crate documents of these calls. *)

From S2P Require Import Prelude Abi Text SchemeUtils Netstack Sockets.

(** ** Addresses *)

(** [core::net::Ipv4Addr] *)
Record Ipv4Address := mk_ipv4 { octet0 : Z; octet1 : Z; octet2 : Z; octet3 : Z }.

#[global] Instance ipv4_eq_dec : EqDecision Ipv4Address.
Proof. solve_decision. Defined.

(** A decimal number of one to three digits, without leading zeros, up to 255 *)
Definition parse_octet (s : string) : option Z :=
  let l := String.list_ascii_of_string s in
  if bool_decide (1 ≤ length l ≤ 3)%nat
  then match l with
       | a :: _ :: _ => if Ascii.eqb a "0"%char then None else parse_digits 255 0 l
       | _ => parse_digits 255 0 l
       end
  else None.

(** [Ipv4Addr::from_str] *)
Definition parse_ipv4 (s : string) : option Ipv4Address :=
  match split "."%char s with
  | [a; b; c; d] =>
     a ← parse_octet a; b ← parse_octet b; c ← parse_octet c; d ← parse_octet d;
     Some (mk_ipv4 a b c d)
  | _ => None
  end.

Definition ipv4_unspecified : Ipv4Address := mk_ipv4 0 0 0 0.
Definition ipv4_broadcast : Ipv4Address := mk_ipv4 255 255 255 255.

Record IpEndpoint `{IpTypes} := mk_endpoint { ep_addr : IpAddress; ep_port : Z }.
Record IpListenEndpoint `{IpTypes} := mk_listen { le_addr : option IpAddress; le_port : Z }.

Arguments mk_endpoint {_} _ _.
Arguments mk_listen {_} _ _.

#[global] Instance endpoint_eq_dec `{IpTypes} : EqDecision IpEndpoint.
Proof. solve_decision. Defined.

Inductive IcmpRepr := EchoReply (seq_no : Z) (payload : bytes) | OtherRepr.

(** ** What is used of [smoltcp] *)

Class Smoltcp {IP : IpTypes} := {
  Ipv4 : Ipv4Address → IpAddress;
  as_ipv4 : IpAddress → option Ipv4Address;
  is_unspecified : IpAddress → bool;
  addr_from_str : string → option IpAddress;
  is_specified : IpListenEndpoint → bool;
  show_addr : IpAddress → string;
  show_endpoint : IpEndpoint → string;
  show_listen : IpListenEndpoint → string;
  NetIface : Type;

  (** [smoltcp::socket::udp]; [udp_rx] are the received datagrams *)
  UdpSocket : Type;
  udp_new : Z → Z → UdpSocket;
  udp_rx : UdpSocket → list (bytes * IpEndpoint);
  udp_can_send : UdpSocket → bool;
  udp_can_recv : UdpSocket → bool;
  udp_peek : UdpSocket → option IpEndpoint;
  udp_recv : UdpSocket → UdpSocket;
  udp_recv_slice : nat → UdpSocket → option (bytes * IpEndpoint) * UdpSocket;
  udp_send_slice : bytes → IpEndpoint → UdpSocket → option UdpSocket;
  udp_bind : IpListenEndpoint → UdpSocket → option UdpSocket;
  udp_endpoint : UdpSocket → IpListenEndpoint;
  udp_hop_limit : UdpSocket → option Z;
  udp_set_hop_limit : Z → UdpSocket → UdpSocket;
  udp_recv_capacity : UdpSocket → Z;
  udp_send_capacity : UdpSocket → Z;

  (** [smoltcp::socket::tcp] *)
  TcpSocket : Type;
  tcp_new : Z → Z → TcpSocket;
  tcp_can_send : TcpSocket → bool;
  tcp_can_recv : TcpSocket → bool;
  tcp_may_recv : TcpSocket → bool;
  tcp_is_active : TcpSocket → bool;
  tcp_local_endpoint : TcpSocket → option IpEndpoint;
  tcp_remote_endpoint : TcpSocket → option IpEndpoint;
  tcp_listen : IpListenEndpoint → TcpSocket → option TcpSocket;
  tcp_connect : NetIface → IpEndpoint → IpListenEndpoint → TcpSocket → option (TcpSocket * NetIface);
  tcp_send_slice : bytes → TcpSocket → option (nat * TcpSocket);
  tcp_recv_slice : nat → TcpSocket → option (bytes * TcpSocket);
  tcp_close : TcpSocket → TcpSocket;
  tcp_hop_limit : TcpSocket → option Z;
  tcp_set_hop_limit : Z → TcpSocket → TcpSocket;
  tcp_recv_capacity : TcpSocket → Z;
  tcp_send_capacity : TcpSocket → Z;

  (** [smoltcp::socket::icmp] and the representation of its packets *)
  IcmpSocket : Type;
  icmp_new : Z → Z → IcmpSocket;
  icmp_rx : IcmpSocket → list bytes;
  icmp_can_send : IcmpSocket → bool;
  icmp_can_recv : IcmpSocket → bool;
  icmp_recv : IcmpSocket → option (bytes * IcmpSocket);
  icmp_send : bytes → IpAddress → IcmpSocket → option IcmpSocket;
  icmp_bind_ident : Z → IcmpSocket → option IcmpSocket;
  icmp_bind_udp : Z → IcmpSocket → option IcmpSocket;
  icmp_hop_limit : IcmpSocket → option Z;
  icmp_set_hop_limit : Z → IcmpSocket → IcmpSocket;
  icmp_emit_echo : Z → Z → bytes → bytes;
  icmp_parse : bytes → option IcmpRepr;

  (** [smoltcp::socket::raw] *)
  RawSocket : Type;
  raw_new : Z → Z → Z → RawSocket;
  raw_rx : RawSocket → list bytes;
  raw_can_send : RawSocket → bool;
  raw_can_recv : RawSocket → bool;
  raw_recv_slice : nat → RawSocket → option bytes * RawSocket;
  raw_send_slice : bytes → RawSocket → option RawSocket;
  raw_protocol : RawSocket → string;
}.

(** A socket keeps what it received in order; [recv] takes the first one. *)
Class SmoltcpLaws `(SM : Smoltcp) : Prop := {
  udp_can_recv_rx x : udp_can_recv x = bool_decide (udp_rx x ≠ []);
  udp_peek_rx x : udp_peek x = snd <$> head (udp_rx x);
  udp_recv_rx x : udp_rx (udp_recv x) = tail (udp_rx x);
  icmp_can_recv_rx x : icmp_can_recv x = bool_decide (icmp_rx x ≠ []);
  icmp_recv_none x : icmp_recv x = None ↔ icmp_rx x = [];
  icmp_recv_some x p x' : icmp_recv x = Some (p, x') → icmp_rx x = p :: icmp_rx x';
  is_specified_addr e : is_specified e = true → is_Some (le_addr e);
}.

(** The socket enum of the set *)
Inductive SmolSocket `{Smoltcp} :=
  | STcp (x : TcpSocket)
  | SUdp (x : UdpSocket)
  | SIcmp (x : IcmpSocket)
  | SRaw (x : RawSocket).

(** How [SocketSet::add] chooses its handle *)
Class HandleChoice `{Smoltcp} := { choose_handle : gmap Z SmolSocket → Z }.

#[global] Instance smol_sets `{HandleChoice} : SocketSets := {|
  AnySocket := SmolSocket;
  Iface := NetIface;
  add_handle := choose_handle;
|}.

(** ** Definitions the schemes share *)

Section Shared.
Context {SA : SyscallAbi} {NA : NetAbi} {IP : IpTypes} {SM : Smoltcp} {HC : HandleChoice}.

(** [parse_endpoint] *)
Definition parse_endpoint (socket : string) : IpListenEndpoint :=
  let parts := split ":"%char socket in
  let host :=
    match parse_ipv4 (default EmptyString (parts !! 0%nat)) with
    | Some a => if bool_decide (a = ipv4_unspecified) then None else Some (Ipv4 a)
    | None => None
    end in
  let port := default 0 (parse_uint 65535 (String.list_ascii_of_string (default EmptyString (parts !! 1%nat)))) in
  mk_listen host port.

(** The two endpoints of a path [remote/local] *)
Definition path_endpoints (path : string) : IpListenEndpoint * IpListenEndpoint :=
  let parts := split "/"%char path in
  (parse_endpoint (default EmptyString (parts !! 0%nat)), parse_endpoint (default EmptyString (parts !! 1%nat))).

Definition on_set {A} : comp Shared A → comp (Shared * PortSet) A := zoom fst (λ sh s, (sh, s.2)).
Definition on_ports {A} : comp PortSet A → comp (Shared * PortSet) A := zoom snd (λ p s, (s.1, p)).

(** The local port of a new socket: a free one, or the one that was asked for *)
Definition local_port (port : Z) : comp (Shared * PortSet) Z :=
  if bool_decide (port = 0) then
    p ← on_ports get_port;
    ok_or EINVAL p
  else
    free ← on_ports (claim_port port);
    if (free : bool) then mret port else fail EADDRINUSE.

Definition blocked {S A} (nonblock : bool) : comp S A :=
  if nonblock then fail EAGAIN else fail EWOULDBLOCK.

(** [handle_shutdown], with what the socket does when its sending side is closed *)
Definition shutdown_file {X D T} (close : X → X) (how : Z) : comp (X * SchemeFile D T) Z :=
  '(x, file) ← get;
  match file with
  | FSocket f =>
     if how =? 0 then put (x, FSocket {| f with read_enabled := false |});; mret 0
     else if how =? 1 then put (close x, FSocket {| f with write_enabled := false |});; mret 0
     else if how =? 2 then
       put (close x, FSocket {| f with read_enabled := false; write_enabled := false |});; mret 0
     else fail EINVAL
  | FSetting _ => fail EBADF
  end.

Definition sock_opt (recv_capacity send_capacity : Z) (name : Z) (buf : bytes) : outcome (Z * bytes) :=
  if name =? SO_RCVBUF then put_i32 (recv_capacity `mod` 4294967296) buf
  else if name =? SO_SNDBUF then put_i32 (send_capacity `mod` 4294967296) buf
  else Err ENOPROTOOPT.

(** The result and the buffer of [FpathWriter::with] *)
Definition fpath_result (r : outcome nat * bytes) : outcome (Z * bytes) :=
  match r with
  | (Ok n, buf) => Ok (Z.of_nat n, buf)
  | (Err e, _) => Err e
  | (Panic, _) => Panic
  end.

Definition push_string (s : string) : comp FpathWriter unit := push_str (str_bytes s).
Definition show_port (port : Z) : string := pretty port.

(** [how[off..off + n].copy_from_slice(b)] *)
Definition write_at {S} (how : bytes) (off : nat) (b : bytes) : comp S bytes :=
  if bool_decide (off + length b ≤ length how)%nat then mret (copy_at how off b) else panic.

(** The three sizes at the start of a [recvmsg] buffer *)
Definition recvmsg_sizes {S} (how : bytes) : comp S (Z * Z * Z) :=
  if bool_decide (24 ≤ length how)%nat
  then mret (le_val (slice how 0 8), le_val (slice how 8 8), le_val (slice how 16 8))
  else panic.

(** Whether the buffer holds what is asked for; the sum is checked *)
Definition recvmsg_fits {S} (how : bytes) (name_len iov_size controllen : Z) : comp S bool :=
  n ← add_usize 24 name_len;
  n ← add_usize n controllen;
  n ← add_usize n iov_size;
  mret (bool_decide (n ≤ Z.of_nat (length how))).
End Shared.

(** ** [udp:] *)

Module Udp.
Section Udp.
Context {SA : SyscallAbi} {NA : NetAbi} {IP : IpTypes} {SM : Smoltcp} {HC : HandleChoice}.
Abbreviation UdpFile := (SocketFile IpListenEndpoint).
Abbreviation UdpSchemeFile := (SchemeFile IpListenEndpoint unit).

Definition new_scheme_data : outcome PortSet :=
  match port_set_new 49152 65535 with
  | Ok (Some p) => Ok p
  | _ => Panic
  end.

Definition is_broadcast (a : IpAddress) : bool :=
  match as_ipv4 a with Some ip => bool_decide (ip = ipv4_broadcast) | None => false end.

(** Whether a datagram from [source] is for a socket connected to [peer] *)
Definition from_peer (peer : IpListenEndpoint) (addr : IpAddress) (source : IpEndpoint) : bool :=
  is_broadcast addr || is_unspecified addr ||
  negb (bool_decide (ep_addr source ≠ addr ∨ ep_port source ≠ le_port peer)).

(** The loop of [can_recv]: it takes out what is not from the peer *)
Fixpoint recv_loop (fuel : nat) (peer : IpListenEndpoint) : comp UdpSocket bool :=
  match fuel with
  | O => panic
  | S fuel =>
     x ← get;
     if negb (udp_can_recv x) then mret false
     else if negb (is_specified peer) then mret true
     else
       match udp_peek x with
       | Some source =>
          addr ← expect (le_addr peer);
          if from_peer peer addr source then mret true
          else
            modify udp_recv;;
            recv_loop fuel peer
       | None => mret false
       end
  end.

(** One turn for each datagram, and one more ([udp_can_recv_spec]) *)
Definition can_recv (peer : IpListenEndpoint) : comp UdpSocket bool :=
  x ← get;
  recv_loop (S (length (udp_rx x))) peer.

Definition new_udp : UdpSocket := udp_new SOCKET_BUFFER_SIZE (MTU * SOCKET_BUFFER_SIZE).

(** The address a connected socket is bound to *)
Definition local_addr (routes : RouteTable) (remote : IpAddress) (local : option IpAddress) : option IpAddress :=
  match local with
  | Some addr => if is_unspecified addr then Some addr else lookup_src_addr routes remote
  | None => lookup_src_addr routes remote
  end.

Definition new_socket (path : string) (uid : Z) : comp (Shared * PortSet) (Z * IpListenEndpoint) :=
  let '(remote, local) := path_endpoints path in
  if bool_decide (0 < le_port local ∧ le_port local ≤ 1024 ∧ uid ≠ 0) then fail EACCES
  else
    port ← local_port (le_port local);
    h ← on_set (add_socket (SUdp new_udp : AnySocket));
    s ← get;
    addr ← (if is_specified remote then
              r ← expect (le_addr remote);
              mret (local_addr (route_table s.1) r (le_addr local))
            else mret (le_addr local));
    x ← expect (udp_bind (mk_listen addr port) new_udp);
    on_set (modify (set_socket_set <[h := SUdp x : AnySocket]>));;
    mret (h, remote).

Definition close_file (x : UdpSocket) (file : UdpSchemeFile) : comp PortSet unit :=
  match file with
  | FSocket _ => release_port (le_port (udp_endpoint x))
  | FSetting _ => mret tt
  end.

Definition write_buf (buf : bytes) : comp (UdpSocket * UdpFile) Z :=
  '(x, file) ← get;
  if negb (is_specified (data file)) then fail EADDRNOTAVAIL
  else if negb (write_enabled file) then fail EPIPE
  else if udp_can_send x then
    addr ← expect (le_addr (data file));
    x' ← expect (udp_send_slice buf (mk_endpoint addr (le_port (data file))) x);
    put (x', file);;
    mret (Z.of_nat (length buf))
  else blocked (has_flag (flags file) O_NONBLOCK).

Definition read_buf (buf : bytes) : comp (UdpSocket * UdpFile) (Z * bytes) :=
  '(x, file) ← get;
  if negb (read_enabled file) then mret (0, buf)
  else
    ready ← zoom fst (λ x s, (x, s.2)) (can_recv (data file));
    if (ready : bool) then
      '(x, file) ← get;
      let '(r, x') := udp_recv_slice (length buf) x in
      put (x', file);;
      '(payload, _) ← expect r;
      mret (Z.of_nat (length payload), copy_at buf 0 payload)
    else blocked (has_flag (flags file) O_NONBLOCK).

Definition dup_file (path : string) :
    comp (Shared * UdpSchemeFile * PortSet) (DupResult IpListenEndpoint unit) :=
  '(sh, file, _) ← get;
  if bool_decide (path = "listen"%string) then fail EAFNOSUPPORT
  else
    let remote := if bool_decide (path = "disconnect"%string) then mk_listen None 0 else parse_endpoint path in
    let new_file := match file with
                    | FSocket f => clone_with_data remote f
                    | FSetting f => new_with_data (st_socket_handle f) remote
                    end in
    match socket_set sh !! file_socket file with
    | Some (SUdp x) =>
       zoom snd (λ p s, (s.1, p)) (acquire_port (le_port (udp_endpoint x)));;
       mret (Some (FSocket new_file, None))
    | _ => panic
    end.

Definition push_listen (e : IpListenEndpoint) : comp FpathWriter unit :=
  if is_specified e then push_string (show_listen e)
  else push_string "0.0.0.0:";; push_string (show_port (le_port e)).

Definition fpath_file (x : UdpSocket) (file : UdpSchemeFile) (buf : bytes) : outcome (Z * bytes) :=
  fpath_result (fpath_with buf "udp" (
    (match file with
     | FSocket f => push_listen (data f)
     | FSetting _ => push_string "0.0.0.0:0"
     end);;
    push_string "/";;
    push_listen (udp_endpoint x))).

Definition handle_recvmsg (how : bytes) (fl : Z) : comp (UdpSocket * UdpSchemeFile) (Z * bytes) :=
  '(x, file) ← get;
  match file with
  | FSetting _ => fail EBADF
  | FSocket f =>
     if negb (read_enabled f) then mret (0, how)
     else
       ready ← zoom fst (λ x s, (x, s.2)) (can_recv (data f));
       if (ready : bool) then
         '(name_len, iov_size, controllen) ← recvmsg_sizes how;
         fits ← recvmsg_fits how name_len iov_size controllen;
         if negb fits then fail EINVAL
         else
           '(x, file) ← get;
           let '(r, x') := udp_recv_slice (Z.to_nat iov_size) x in
           put (x', file);;
           '(payload, source) ← expect r;
           let address :=
             if bool_decide (0 < name_len)
             then str_bytes ("/scheme/udp/" ++ show_addr (ep_addr source) ++ ":" ++ show_port (ep_port source))
             else [] in
           how ← write_at how 0 (le_bytes 8 (Z.of_nat (length address)));
           how ← write_at how 8 address;
           let payload_len_index := (length address + 8)%nat in
           how ← write_at how payload_len_index (le_bytes 8 (Z.of_nat (length payload)));
           how ← write_at how (payload_len_index + 8) payload;
           mret (Z.of_nat (payload_len_index + 8 + length payload), how)
       else blocked (has_flag (flags f) O_NONBLOCK || bool_decide (Z.land fl msg_dontwait ≠ 0))
  end.

Definition handle_get_peer_name (x : UdpSocket) (file : UdpSchemeFile) (buf : bytes) : outcome (Z * bytes) :=
  match file with
  | FSocket f =>
     if bool_decide (is_Some (le_addr (data f)) ∨ le_port (data f) ≠ 0) then fpath_file x file buf
     else Err ENOTCONN
  | FSetting _ => Err EBADF
  end.

Definition udp_socket : SchemeSocket := {|
  SocketT := UdpSocket;
  SchemeDataT := PortSet;
  DataT := IpListenEndpoint;
  SettingT := unit;
  downcast := λ x : AnySocket, match x with SUdp x => Some x | _ => None end;
  upcast := λ x, SUdp x;
  downcast_upcast x := eq_refl;
  Sockets.new_scheme_data := new_scheme_data;
  can_send := udp_can_send;
  Sockets.can_recv := can_recv;
  may_recv _ := true;
  hop_limit x := default 64 (udp_hop_limit x);
  set_hop_limit := udp_set_hop_limit;
  get_setting _ _ buf := Ok (0, buf);
  set_setting _ _ := mret 0;
  Sockets.new_socket := new_socket;
  Sockets.close_file := close_file;
  Sockets.write_buf := write_buf;
  Sockets.read_buf := read_buf;
  Sockets.fpath_file := fpath_file;
  Sockets.dup_file := dup_file;
  Sockets.handle_get_peer_name := handle_get_peer_name;
  handle_shutdown := shutdown_file id;
  Sockets.handle_recvmsg := handle_recvmsg;
  get_sock_opt x _ := sock_opt (udp_recv_capacity x) (udp_send_capacity x);
|}.
End Udp.
End Udp.

(** ** [tcp:] *)

Module Tcp.
Section Tcp.
Context {SA : SyscallAbi} {NA : NetAbi} {IP : IpTypes} {SM : Smoltcp} {HC : HandleChoice}.
Abbreviation TcpFile := (SocketFile (option IpListenEndpoint)).
Abbreviation TcpSchemeFile := (SchemeFile (option IpListenEndpoint) unit).

Definition new_scheme_data : outcome PortSet :=
  match port_set_new 49152 65535 with
  | Ok (Some p) => Ok p
  | _ => Panic
  end.

Definition new_tcp : TcpSocket := tcp_new 65535 65535.

(** The address a connection is made from *)
Definition local_addr (routes : RouteTable) (remote : IpAddress) (local : option IpAddress) : option IpAddress :=
  match local with
  | Some addr => if is_unspecified addr then lookup_src_addr routes remote else Some addr
  | None => lookup_src_addr routes remote
  end.

(** A path with a remote endpoint connects, one without listens *)
Definition new_socket (path : string) (uid : Z) :
    comp (Shared * PortSet) (Z * option IpListenEndpoint) :=
  let '(remote, local) := path_endpoints path in
  if bool_decide (0 < le_port local ∧ le_port local ≤ 1024 ∧ uid ≠ 0) then fail EACCES
  else
    port ← local_port (le_port local);
    h ← on_set (add_socket (STcp new_tcp : AnySocket));
    sh ← on_set get;
    let put_tcp x := on_set (modify (set_socket_set <[h := STcp x : AnySocket]>)) in
    if is_specified remote then
      r ← expect (le_addr remote);
      let addr := local_addr (route_table sh) r (le_addr local) in
      '(x, i) ← expect (tcp_connect (iface sh) (mk_endpoint r (le_port remote)) (mk_listen addr port) new_tcp);
      put_tcp x;;
      on_set (modify (λ sh : Shared, {| sh with iface := i |}));;
      mret (h, None)
    else
      let listen := mk_listen (le_addr local) port in
      x ← expect (tcp_listen listen new_tcp);
      put_tcp x;;
      mret (h, Some listen).

Definition close_file (x : TcpSocket) (file : TcpSchemeFile) : comp PortSet unit :=
  match file with
  | FSocket f =>
     match tcp_local_endpoint x, data f with
     | Some endpoint, _ => release_port (ep_port endpoint)
     | None, Some endpoint => release_port (le_port endpoint)
     | None, None => mret tt
     end
  | FSetting _ => mret tt
  end.

Definition write_buf (buf : bytes) : comp (TcpSocket * TcpFile) Z :=
  '(x, file) ← get;
  if negb (write_enabled file) then fail EPIPE
  else if negb (tcp_is_active x) then fail ENOTCONN
  else if tcp_can_send x then
    '(_, x') ← expect (tcp_send_slice buf x);
    put (x', file);;
    mret (Z.of_nat (length buf))
  else blocked (has_flag (flags file) O_NONBLOCK).

Definition read_buf (buf : bytes) : comp (TcpSocket * TcpFile) (Z * bytes) :=
  '(x, file) ← get;
  if negb (read_enabled file) then mret (0, buf)
  else if negb (tcp_is_active x) then fail ENOTCONN
  else if tcp_can_recv x then
    '(payload, x') ← expect (tcp_recv_slice (length buf) x);
    put (x', file);;
    mret (Z.of_nat (length payload), copy_at buf 0 payload)
  else if negb (tcp_may_recv x) then mret (0, buf)
  else blocked (has_flag (flags file) O_NONBLOCK).

(** The branch ["listen"] of [dup]: the file of the connection, and a new listening socket
    for the file that was asked *)
Definition accept (f : TcpFile) (x : TcpSocket) :
    comp (Shared * TcpSchemeFile * PortSet) (DupResult (option IpListenEndpoint) unit) :=
  listen ← ok_or EINVAL (data f);
  if negb (tcp_is_active x) then
    if has_flag (flags f) O_NONBLOCK then fail EAGAIN else mret None
  else
    new_h ← zoom (λ s, s.1.1) (λ sh s, (sh, s.1.2, s.2)) (add_socket (STcp new_tcp : AnySocket));
    listening ← expect (tcp_listen listen new_tcp);
    zoom (λ s, s.1.1) (λ sh s, (sh, s.1.2, s.2)) (modify (set_socket_set <[new_h := STcp listening : AnySocket]>));;
    endpoint ← expect (tcp_local_endpoint x);
    zoom snd (λ p s, (s.1, p)) (acquire_port (ep_port endpoint));;
    mret (Some (FSocket (clone_with_data None f), Some (new_h, Some listen))).

Definition dup_file (path : string) :
    comp (Shared * TcpSchemeFile * PortSet) (DupResult (option IpListenEndpoint) unit) :=
  '(sh, file, _) ← get;
  match socket_set sh !! file_socket file with
  | Some (STcp x) =>
     if bool_decide (path = "listen"%string) then
       match file with FSocket f => accept f x | FSetting _ => fail EBADF end
     else
       let new_file := match file with
                       | FSocket f => clone_with_data (data f) f
                       | FSetting f => new_with_data (st_socket_handle f) None
                       end in
       match tcp_local_endpoint x with
       | Some endpoint => zoom snd (λ p s, (s.1, p)) (acquire_port (ep_port endpoint))
       | None => mret tt
       end;;
       mret (Some (FSocket new_file, None))
  | _ => panic
  end.

Definition fpath_file (x : TcpSocket) (file : TcpSchemeFile) (buf : bytes) : outcome (Z * bytes) :=
  fpath_result (fpath_with buf "tcp" (
    push_string (match tcp_remote_endpoint x with Some e => show_endpoint e | None => "0.0.0.0:0" end);;
    push_string "/";;
    match tcp_local_endpoint x, file with
    | Some e, _ => push_string (show_endpoint e)
    | None, FSocket (mk_socket_file _ (Some e) _ _ _ _ _ _ _ _) =>
       if is_specified e then push_string (show_listen e)
       else push_string "0.0.0.0:";; push_string (show_port (le_port e))
    | _, _ => push_string "0.0.0.0:0"
    end)).

Definition handle_recvmsg (how : bytes) (fl : Z) : comp (TcpSocket * TcpSchemeFile) (Z * bytes) :=
  '(x, file) ← get;
  match file with
  | FSetting _ => fail EBADF
  | FSocket f =>
     if negb (read_enabled f) then mret (0, how)
     else if tcp_can_recv x then
       '(name_len, iov_size, controllen) ← recvmsg_sizes how;
       fits ← recvmsg_fits how name_len iov_size controllen;
       if negb fits then fail EINVAL
       else
         let address := str_bytes (match tcp_remote_endpoint x with
                                   | Some e => "/scheme/tcp/" ++ show_addr (ep_addr e) ++ ":" ++ show_port (ep_port e)
                                   | None => "/scheme/tcp/0.0.0.0:0"
                                   end) in
         let iov := Z.to_nat iov_size in
         let start := (length address + 16)%nat in
         how ← write_at how 0 (le_bytes 8 (Z.of_nat (length address)));
         how ← write_at how 8 address;
         if bool_decide (start + iov ≤ length how)%nat then
           '(payload, x') ← expect (tcp_recv_slice iov x);
           put (x', file);;
           how ← write_at how start payload;
           how ← write_at how (length address + 8) (le_bytes 8 (Z.of_nat (length payload)));
           mret (Z.of_nat (start + iov), how)
         else panic
     else blocked (has_flag (flags f) O_NONBLOCK || bool_decide (Z.land fl msg_dontwait ≠ 0))
  end.

Definition tcp_socket : SchemeSocket := {|
  SocketT := TcpSocket;
  SchemeDataT := PortSet;
  DataT := option IpListenEndpoint;
  SettingT := unit;
  downcast := λ x : AnySocket, match x with STcp x => Some x | _ => None end;
  upcast := λ x, STcp x;
  downcast_upcast x := eq_refl;
  Sockets.new_scheme_data := new_scheme_data;
  can_send := tcp_can_send;
  can_recv _ := gets tcp_can_recv;
  may_recv := tcp_may_recv;
  hop_limit x := default 64 (tcp_hop_limit x);
  set_hop_limit := tcp_set_hop_limit;
  get_setting _ _ buf := Ok (0, buf);
  set_setting _ _ := mret 0;
  Sockets.new_socket := new_socket;
  Sockets.close_file := close_file;
  Sockets.write_buf := write_buf;
  Sockets.read_buf := read_buf;
  Sockets.fpath_file := fpath_file;
  Sockets.dup_file := dup_file;
  handle_get_peer_name := fpath_file;
  handle_shutdown := shutdown_file tcp_close;
  Sockets.handle_recvmsg := handle_recvmsg;
  get_sock_opt x _ := sock_opt (tcp_recv_capacity x) (tcp_send_capacity x);
|}.
End Tcp.
End Tcp.

(** ** [icmp:] *)

Module Icmp.
Section Icmp.
Context {SA : SyscallAbi} {NA : NetAbi} {IP : IpTypes} {SM : Smoltcp} {HC : HandleChoice}.

Inductive IcmpSocketType : Set := Echo | Udp.

Record IcmpData := mk_icmp_data {
  socket_type : IcmpSocketType;
  ip : IpAddress;
  ident : Z;
}.
Abbreviation IcmpFile := (SocketFile IcmpData).
Abbreviation IcmpSchemeFile := (SchemeFile IcmpData unit).

Definition new_scheme_data : outcome PortSet :=
  match port_set_new 1 65535 with
  | Ok (Some p) => Ok p
  | _ => Panic
  end.

Definition new_icmp : IcmpSocket := icmp_new SOCKET_BUFFER_SIZE (MTU * SOCKET_BUFFER_SIZE).

(** The branches ["echo"] and ["udp"] differ in what the socket is bound to *)
Definition new_icmp_socket (ty : IcmpSocketType) (bind : Z → IcmpSocket → option IcmpSocket)
    (addr : option string) : comp (Shared * PortSet) (Z * IcmpData) :=
  addr ← ok_or EINVAL addr;
  a ← ok_or EINVAL (addr_from_str addr);
  h ← on_set (add_socket (SIcmp new_icmp : AnySocket));
  i ← on_ports get_port;
  i ← ok_or EINVAL i;
  x ← ok_or EINVAL (bind i new_icmp);
  on_set (modify (set_socket_set <[h := SIcmp x : AnySocket]>));;
  mret (h, mk_icmp_data ty a i).

Definition new_socket (path : string) (uid : Z) : comp (Shared * PortSet) (Z * IcmpData) :=
  let parts := split "/"%char path in
  method ← ok_or EINVAL (parts !! 0%nat);
  if bool_decide (method = "echo"%string) then new_icmp_socket Echo icmp_bind_ident (parts !! 1%nat)
  else if bool_decide (method = "udp"%string) then new_icmp_socket Udp icmp_bind_udp (parts !! 1%nat)
  else fail EINVAL.

Definition close_file (x : IcmpSocket) (file : IcmpSchemeFile) : comp PortSet unit :=
  match file with
  | FSocket f => release_port (ident (data f))
  | FSetting _ => mret tt
  end.

(** An echo request: a sequence number in network order, then the payload *)
Definition write_buf (buf : bytes) : comp (IcmpSocket * IcmpFile) Z :=
  '(x, file) ← get;
  if negb (write_enabled file) then fail EPIPE
  else if icmp_can_send x then
    match socket_type (data file) with
    | Echo =>
       match buf with
       | hi :: lo :: payload =>
          x' ← ok_or EINVAL (icmp_send (icmp_emit_echo (ident (data file)) (256 * hi + lo) payload) (ip (data file)) x);
          put (x', file);;
          mret (Z.of_nat (length buf))
       | _ => fail EINVAL
       end
    | Udp => fail EINVAL
    end
  else blocked (has_flag (flags file) O_NONBLOCK).

(** The loop of [read_buf]: what is not an echo reply is dropped *)
Fixpoint read_loop (fuel : nat) (buf : bytes) : comp (IcmpSocket * IcmpFile) (Z * bytes) :=
  '(x, file) ← get;
  if icmp_can_recv x then
    match fuel with
    | O => panic
    | S fuel =>
       '(payload, x') ← expect (icmp_recv x);
       put (x', file);;
       repr ← expect (icmp_parse payload);
       match repr with
       | EchoReply seq_no d =>
          if bool_decide (length buf < 2 + length d)%nat then fail EINVAL
          else mret (Z.of_nat (2 + length d),
                     copy_at (copy_at buf 0 [seq_no `div` 256; seq_no `mod` 256]) 2 d)
       | OtherRepr => read_loop fuel buf
       end
    end
  else blocked (has_flag (flags file) O_NONBLOCK).

(** One turn for each packet ([icmp_read_spec]) *)
Definition read_buf (buf : bytes) : comp (IcmpSocket * IcmpFile) (Z * bytes) :=
  '(x, file) ← get;
  if negb (read_enabled file) then mret (0, buf)
  else read_loop (length (icmp_rx x)) buf.

Definition fpath_file (x : IcmpSocket) (file : IcmpSchemeFile) (buf : bytes) : outcome (Z * bytes) :=
  fpath_result (fpath_with buf "icmp" (
    match file with
    | FSocket f =>
       push_string (match socket_type (data f) with Echo => "echo/" | Udp => "udp/" end);;
       push_string (show_addr (ip (data f)))
    | FSetting _ => fail EBADF
    end)).

Definition icmp_socket : SchemeSocket := {|
  SocketT := IcmpSocket;
  SchemeDataT := PortSet;
  DataT := IcmpData;
  SettingT := unit;
  downcast := λ x : AnySocket, match x with SIcmp x => Some x | _ => None end;
  upcast := λ x, SIcmp x;
  downcast_upcast x := eq_refl;
  Sockets.new_scheme_data := new_scheme_data;
  can_send := icmp_can_send;
  can_recv _ := gets icmp_can_recv;
  may_recv _ := true;
  hop_limit x := default 64 (icmp_hop_limit x);
  set_hop_limit := icmp_set_hop_limit;
  get_setting _ _ buf := Ok (0, buf);
  set_setting _ _ := mret 0;
  Sockets.new_socket := new_socket;
  Sockets.close_file := close_file;
  Sockets.write_buf := write_buf;
  Sockets.read_buf := read_buf;
  Sockets.fpath_file := fpath_file;
  dup_file _ := fail EBADF;
  handle_get_peer_name := fpath_file;
  handle_shutdown := shutdown_file id;
  handle_recvmsg _ _ := fail EOPNOTSUPP;
  get_sock_opt := default_get_sock_opt;
|}.
End Icmp.
End Icmp.

(** ** [ip:] *)

Module Ip.
Section Ip.
Context {SA : SyscallAbi} {NA : NetAbi} {IP : IpTypes} {SM : Smoltcp} {HC : HandleChoice}.

Definition hex_value (a : ascii) : option Z :=
  let n := Z.of_N (Ascii.N_of_ascii a) in
  if bool_decide (48 ≤ n ≤ 57) then Some (n - 48)
  else if bool_decide (97 ≤ n ≤ 102) then Some (n - 87)
  else if bool_decide (65 ≤ n ≤ 70) then Some (n - 55)
  else None.

Fixpoint parse_hex (max acc : Z) (l : list ascii) : option Z :=
  match l with
  | [] => Some acc
  | a :: l =>
     d ← hex_value a;
     if bool_decide (acc * 16 + d ≤ max) then parse_hex max (acc * 16 + d) l else None
  end.

(** [u8::from_str_radix(path, 16)] *)
Definition parse_proto (path : string) : option Z :=
  match String.list_ascii_of_string path with
  | [] => None
  | a :: l =>
     if Ascii.eqb a "+"%char then match l with [] => None | _ => parse_hex 255 0 l end
     else parse_hex 255 0 (a :: l)
  end.

Definition new_socket (path : string) (uid : Z) : comp (Shared * unit) (Z * unit) :=
  if bool_decide (uid ≠ 0) then fail EACCES
  else
    proto ← ok_or ENOENT (parse_proto path);
    h ← zoom fst (λ sh s, (sh, s.2))
          (add_socket (SRaw (raw_new proto SOCKET_BUFFER_SIZE (MTU * SOCKET_BUFFER_SIZE)) : AnySocket));
    mret (h, tt).

Definition write_buf (buf : bytes) : comp (RawSocket * SocketFile unit) Z :=
  '(x, file) ← get;
  if negb (write_enabled file) then fail EPIPE
  else if raw_can_send x then
    x' ← expect (raw_send_slice buf x);
    put (x', file);;
    mret (Z.of_nat (length buf))
  else blocked (has_flag (flags file) O_NONBLOCK).

Definition read_buf (buf : bytes) : comp (RawSocket * SocketFile unit) (Z * bytes) :=
  '(x, file) ← get;
  if negb (read_enabled file) then mret (0, buf)
  else if raw_can_recv x then
    let '(r, x') := raw_recv_slice (length buf) x in
    put (x', file);;
    payload ← expect r;
    mret (Z.of_nat (length payload), copy_at buf 0 payload)
  else blocked (has_flag (flags file) O_NONBLOCK).

Definition fpath_file (x : RawSocket) (file : SchemeFile unit unit) (buf : bytes) : outcome (Z * bytes) :=
  fpath_result (fpath_with buf "ip" (push_string (raw_protocol x))).

Definition ip_socket : SchemeSocket := {|
  SocketT := RawSocket;
  SchemeDataT := unit;
  DataT := unit;
  SettingT := unit;
  downcast := λ x : AnySocket, match x with SRaw x => Some x | _ => None end;
  upcast := λ x, SRaw x;
  downcast_upcast x := eq_refl;
  new_scheme_data := Ok tt;
  can_send := raw_can_send;
  can_recv _ := gets raw_can_recv;
  may_recv _ := true;
  hop_limit _ := 0;
  set_hop_limit _ x := x;
  get_setting _ _ buf := Ok (0, buf);
  set_setting _ _ := mret 0;
  Sockets.new_socket := new_socket;
  close_file _ _ := mret tt;
  Sockets.write_buf := write_buf;
  Sockets.read_buf := read_buf;
  Sockets.fpath_file := fpath_file;
  dup_file _ := fail EBADF;
  handle_get_peer_name := fpath_file;
  handle_shutdown := shutdown_file id;
  handle_recvmsg _ _ := fail EOPNOTSUPP;
  get_sock_opt := default_get_sock_opt;
|}.
End Ip.
End Ip.
