(* ===== verification/SocketKindsSpec.v ===== *)
(** * netstack: what the kinds of sockets do

    Theorems about single operations of [SocketKinds]: which datagrams a connected [udp:]
    socket sees, the echo replies that an [icmp:] socket reads, what is bound by whom, and
    where [tcp:] and [udp:] answer differently from what they did, or panic. *)

From S2P Require Import Prelude Abi Text SchemeUtils Netstack Sockets SocketKinds.

Section Udp.
Context {SA : SyscallAbi} {NA : NetAbi} {IP : IpTypes} {SM : Smoltcp} {SML : SmoltcpLaws SM} {HC : HandleChoice}.

(** The datagrams a file connected to [peer] may read *)
Definition wanted (peer : IpListenEndpoint) (d : bytes * IpEndpoint) : bool :=
  match le_addr peer with Some addr => Udp.from_peer peer addr d.2 | None => true end.

(** What is left of the queue: up to the first datagram from the peer *)
Fixpoint skip (peer : IpListenEndpoint) (rx : list (bytes * IpEndpoint)) : list (bytes * IpEndpoint) :=
  match rx with
  | [] => []
  | d :: rx' => if wanted peer d then rx else skip peer rx'
  end.

Lemma recv_loop_spec fuel peer x :
  (length (udp_rx x) < fuel)%nat → is_specified peer = true →
  ∃ x', Udp.recv_loop fuel peer x = (Ok (bool_decide (skip peer (udp_rx x) ≠ [])), x') ∧
    udp_rx x' = skip peer (udp_rx x).
Proof.
  revert x. induction fuel as [|fuel IH]; intros x Hf Hs; [lia|]. cbn [Udp.recv_loop]. rewrite bind_get.
  rewrite udp_can_recv_rx, udp_peek_rx. destruct (udp_rx x) as [|d rx] eqn:Hrx; cbn [skip].
  { exists x. by rewrite Hrx. }
  rewrite bool_decide_eq_true_2 by done. rewrite Hs. cbn [negb head fmap option_fmap option_map].
  destruct (is_specified_addr _ Hs) as [addr Ha]. unfold wanted. rewrite Ha. cbn [expect]. rewrite bind_ret.
  destruct (Udp.from_peer peer addr d.2); [exists x; by rewrite Hrx|].
  rewrite bind_modify. assert (udp_rx (udp_recv x) = rx) as Htail by (by rewrite udp_recv_rx, Hrx).
  destruct (IH (udp_recv x)) as (x' & E & Hx'); [rewrite Htail; cbn in Hf; lia|done|]. exists x'. rewrite Htail in *. by split.
Qed.

(** On a connected socket [can_recv] takes out the datagrams in front
    that are from somebody else and keeps the rest in order: none from the peer is lost, the
    next one to be read is from the peer, and the answer tells whether there is one.  The
    loop ends after a turn for each datagram. *)
Theorem udp_can_recv_filters peer x :
  is_specified peer = true →
  ∃ x' dropped, Udp.can_recv peer x = (Ok (bool_decide (Exists (λ d, wanted peer d = true) (udp_rx x))), x') ∧
    udp_rx x = dropped ++ udp_rx x' ∧ Forall (λ d, wanted peer d = false) dropped ∧
    (∀ d, head (udp_rx x') = Some d → wanted peer d = true).
Proof.
  intros Hs. unfold Udp.can_recv. rewrite bind_get.
  destruct (recv_loop_spec (S (length (udp_rx x))) peer x) as (x' & E & Hx'); [lia|done|].
  assert (∃ dropped, udp_rx x = dropped ++ skip peer (udp_rx x) ∧ Forall (λ d, wanted peer d = false) dropped ∧
    (∀ d, head (skip peer (udp_rx x)) = Some d → wanted peer d = true) ∧
    (skip peer (udp_rx x) ≠ [] ↔ Exists (λ d, wanted peer d = true) (udp_rx x))) as (dropped & H1 & H2 & H3 & H4).
  { clear. induction (udp_rx x) as [|d rx (dropped & H1 & H2 & H3 & H4)]; cbn [skip].
    { exists []. split_and!; [done..|]. by rewrite Exists_nil. }
    destruct (wanted peer d) eqn:Hd.
    - exists []. split_and!; [done|done|by intros d' [= <-]|]. split; [intros _; by left|done].
    - exists (d :: dropped). split_and!; [cbn; by f_equal|by constructor|done|]. rewrite H4.
      split; [by right|]. inversion 1; [congruence|done]. }
  exists x', dropped. rewrite E, Hx'. split_and!; [|done..]. do 2 f_equal. by apply bool_decide_ext.
Qed.
End Udp.

(** ** Echo replies *)

Section Icmp.
Context {SA : SyscallAbi} {NA : NetAbi} {IP : IpTypes} {SM : Smoltcp} {SML : SmoltcpLaws SM} {HC : HandleChoice}.

(** The first echo reply, and what is behind it *)
Fixpoint first_reply (rx : list bytes) : option (Z * bytes * list bytes) :=
  match rx with
  | [] => None
  | p :: rx => match icmp_parse p with
               | Some (EchoReply seq_no d) => Some (seq_no, d, rx)
               | _ => first_reply rx
               end
  end.

(** Reading an [icmp:] socket skips what is not an echo reply and
    returns the first reply, with its sequence number in network order in front, if the
    buffer holds it; else the reply is gone and the read fails.  Without a reply everything
    was skipped and the read blocks.  The loop ends after a turn for each packet. *)
Theorem icmp_read_reply buf x f :
  read_enabled f = true → Forall (λ p, is_Some (icmp_parse p)) (icmp_rx x) →
  ∃ r x', Icmp.read_buf buf (x, f) = (r, (x', f)) ∧
    match first_reply (icmp_rx x) with
    | Some (seq_no, d, rest) =>
       icmp_rx x' = rest ∧
       if bool_decide (length buf < 2 + length d)%nat then r = Err EINVAL
       else r = Ok (Z.of_nat (2 + length d), [seq_no `div` 256; seq_no `mod` 256] ++ d ++ drop (2 + length d) buf)
    | None => icmp_rx x' = [] ∧ r = Err (if has_flag (flags f) O_NONBLOCK then EAGAIN else EWOULDBLOCK)
    end.
Proof.
  intros Hr Hp. unfold Icmp.read_buf. rewrite bind_get, Hr. cbn [negb].
  remember (icmp_rx x) as rx eqn:Hrx. revert x Hrx. induction rx as [|p rx IH]; intros x Hrx; cbn [length Icmp.read_loop first_reply].
  - exists (Err (if has_flag (flags f) O_NONBLOCK then EAGAIN else EWOULDBLOCK)), x. rewrite bind_get, icmp_can_recv_rx, <- Hrx.
    rewrite bool_decide_eq_false_2 by (by intros []). unfold blocked. by destruct (has_flag _ _).
  - rewrite bind_get, icmp_can_recv_rx, <- Hrx, bool_decide_eq_true_2 by done.
    destruct (icmp_recv x) as [[p' x1]|] eqn:Hx1; [|apply icmp_recv_none in Hx1; congruence].
    apply icmp_recv_some in Hx1. rewrite <- Hrx in Hx1. injection Hx1 as <- Hrx1.
    apply Forall_cons in Hp as [[rep Hrep] Hp]. cbn [expect]. rewrite bind_ret. unfold put. rewrite (bind_ok _ _ _ tt (x1, f)) by done.
    rewrite Hrep. cbn [expect]. rewrite bind_ret. destruct rep as [seq_no d|]; [|by apply IH].
    case_bool_decide as Hl; [by exists (Err EINVAL), x1|].
    eexists _, x1. split; [done|]. split; [done|]. do 2 f_equal.
    set (head := [_; _]). change 2%nat with (0 + length head)%nat at 1.
    rewrite copy_at_app by (cbn; lia). rewrite copy_at_0, <- app_assoc. done.
Qed.
End Icmp.

(** ** Answers of [tcp:] *)

Section Tcp.
Context {SA : SyscallAbi} {NA : NetAbi} {IP : IpTypes} {SM : Smoltcp} {HC : HandleChoice}.

(** A write to a connected [tcp:] socket reports the whole buffer as
    written, whatever number of bytes the socket took: the rest is lost, and the client is
    not told. *)
Theorem tcp_write_overreports buf x f n x' :
  write_enabled f = true → tcp_is_active x = true → tcp_can_send x = true → tcp_send_slice buf x = Some (n, x') →
  Tcp.write_buf buf (x, f) = (Ok (Z.of_nat (length buf)), (x', f)).
Proof. intros H1 H2 H3 H4. unfold Tcp.write_buf. rewrite bind_get, H1, H2. cbn [negb]. by rewrite H3, H4. Qed.

Lemma str_bytes_app a b : str_bytes (a +:+ b) = str_bytes a ++ str_bytes b.
Proof. unfold str_bytes. rewrite <- fmap_app. f_equal. induction a as [|c a IH]; [done|]. cbv [String.append] in *. cbn. by f_equal. Qed.

(** The text of an address is in front of the payload *)
Lemma remote_name_length x :
  (12 ≤ length (str_bytes (match tcp_remote_endpoint x with
    | Some e => "/scheme/tcp/" ++ show_addr (ep_addr e) ++ ":" ++ show_port (ep_port e)
    | None => "/scheme/tcp/0.0.0.0:0" end)))%nat.
Proof. destruct (tcp_remote_endpoint x); [rewrite str_bytes_app, length_app|]; cbn; lia. Qed.

Lemma recvmsg_fits_data {S} how iov (s : S) :
  0 ≤ iov → length how = (24 + Z.to_nat iov)%nat → iov + 24 ≤ usize_max → recvmsg_fits how 0 iov 0 s = (Ok true, s).
Proof.
  intros H0 Hlen Hmax. unfold recvmsg_fits, add_usize, checked_add_usize.
  do 2 (rewrite bool_decide_eq_true_2 by ints; cbn [expect]; rewrite bind_ret).
  rewrite bool_decide_eq_true_2 by lia. cbn [expect]. rewrite bind_ret. by rewrite bool_decide_eq_true_2 by lia.
Qed.

(** A [recvmsg] on [tcp:] that asks for data only, with a buffer of the
    size that the scheme checks for, panics as soon as there is data: the address of the
    peer is put in front even if no room was asked for it. *)
Theorem tcp_recvmsg_panics x f how iov fl :
  read_enabled f = true → tcp_can_recv x = true → 0 ≤ iov →
  length how = (24 + Z.to_nat iov)%nat → iov + 24 ≤ usize_max →
  le_val (slice how 0 8) = 0 → le_val (slice how 8 8) = iov → le_val (slice how 16 8) = 0 →
  (Tcp.handle_recvmsg how fl (x, FSocket f)).1 = Panic.
Proof.
  intros H1 H2 H0 Hlen Hmax E1 E2 E3. unfold Tcp.handle_recvmsg. rewrite bind_get, H1. cbn [negb]. rewrite H2.
  unfold recvmsg_sizes. rewrite bool_decide_eq_true_2 by lia. rewrite bind_ret, E1, E2, E3.
  rewrite (bind_ok _ _ _ _ _ (recvmsg_fits_data how iov _ H0 Hlen Hmax)). cbn [negb].
  pose proof (remote_name_length x) as Hname. set (address := str_bytes _) in *. unfold write_at.
  rewrite bool_decide_eq_true_2 by (rewrite Hlen; cbn; lia). rewrite bind_ret.
  rewrite length_copy_at by (rewrite Hlen; cbn; lia). case_bool_decide as Ha; [|done]. rewrite bind_ret.
  rewrite length_copy_at by (rewrite length_copy_at; rewrite ?Hlen; cbn; lia).
  rewrite length_copy_at by (rewrite Hlen; cbn; lia). by rewrite bool_decide_eq_false_2 by (rewrite Hlen; lia).
Qed.

(** What [SocketT::dup] hands back *)
Lemma accept_result sh f p listen :
  data f = Some listen →
  wp (Tcp.dup_file "listen") (λ r st, match r with
    | Ok (Some (new, update)) =>
       st.1.2 = FSocket f ∧ new = FSocket (clone_with_data None f) ∧
       update = Some (add_handle (socket_set sh), Some listen)
    | _ => True
    end) (sh, FSocket f, p).
Proof.
  intros Hd. unfold Tcp.dup_file, Tcp.accept, acquire_port, add_usize. apply wp_bind, wp_get. cbn [file_socket].
  destruct (socket_set sh !! socket_handle f) as [[x|x|x|x]|]; [|done..]. rewrite bool_decide_eq_true_2 by done.
  rewrite Hd. unfold add_socket. wp_go; done.
Qed.

Abbreviation TcpScheme := (SocketScheme (SK := Tcp.tcp_socket)).

(** The socket that an open file names *)
Definition socket_of (s : TcpScheme) (fd : Z) : option Z :=
  match hm_handles (handles s) !! fd with Some (File f) => Some (file_socket f) | _ => None end.

(** The counts after the file [fd] of the socket [h] has accepted as [id] *)
Record accepted (fd h h' : Z) (s : TcpScheme) (id : Z) (s' : TcpScheme) : Prop := mk_accepted {
  accepted_old : ref_counts s' !! h = Some (Z.max 0 (default 0 (ref_counts s !! h) - 1) + 2);
  accepted_new : h' ≠ h → ref_counts s' !! h' = ref_counts s !! h';
  accepted_file : socket_of s' id = Some h;
  accepted_listener : socket_of s' fd = Some h';
}.

Lemma add_ref_wp h (s : TcpScheme) (Q : outcome unit → TcpScheme → Prop) :
  Q (Ok tt) (set_ref_counts <[h := default 0 (ref_counts s !! h) + 1]> s) → (∀ s', Q Panic s') → wp (add_ref h) Q s.
Proof. intros H1 H2. unfold add_ref, add_usize, checked_add_usize. apply wp_bind, wp_get. case_bool_decide; [exact H1|apply H2]. Qed.

Lemma accept_wp fd (f : SocketFile (DataT (SchemeSocket := Tcp.tcp_socket))) listen (s : TcpScheme) :
  hm_wf (handles s) → hm_handles (handles s) !! fd = Some (File (FSocket f)) → data f = Some listen →
  wp (dup fd (str_bytes "listen")) (λ r s', match r with
    | Ok id => accepted fd (socket_handle f) (add_handle (socket_set (shared s))) s id s'
    | _ => True end) s.
Proof.
  intros Hwf Hfd Hd. unfold dup. change (from_utf8 (str_bytes "listen")) with (Some "listen"%string). cbn [ok_or].
  apply wp_bind, wp_ret, wp_bind, wp_get, wp_bind, wp_lift. unfold hm_get. rewrite Hfd.
  apply wp_bind. change (bool_decide ("listen"%string = _)) with false. cbv beta iota zeta.
  unfold dup_socket. apply wp_bind, wp_bind, wp_get. pose proof (accept_result (shared s) f (scheme_data s) listen Hd) as Hacc.
  unfold wp in Hacc. change (dup_file "listen") with (Tcp.dup_file "listen").
  destruct (Tcp.dup_file "listen" _) as [r [[sh' file'] d']]. apply wp_bind, wp_put, wp_bind, wp_lift.
  destruct r as [[[new update]|]| |]; [|done..]. cbn in Hacc. destruct Hacc as (-> & -> & ->).
  apply wp_ret, wp_bind, wp_ok_or, wp_ret. cbn [file_socket clone_with_data socket_handle].
  apply wp_bind, wp_bind, wp_modify, wp_bind. apply add_ref_wp; [|done]. apply wp_modify, wp_bind.
  apply add_ref_wp; [|done]. unfold insert_handle, hm_insert. wp_go; [|done].
  destruct Hwf as [Hfree _ _]. assert (fd ≠ hm_next_id (handles s)) as Hne by congruence.
  split; cbn; rewrite ?insert_insert_eq, ?lookup_insert_eq; cbn.
  - f_equal. lia.
  - intros Hh. by rewrite !lookup_insert_ne by done.
  - unfold socket_of. cbn. by rewrite lookup_insert_eq.
  - unfold socket_of. cbn. by rewrite lookup_insert_ne, lookup_insert_eq by done.
Qed.

(** Accepting a connection gives the new file the socket of the
    listening file, and the listening file a new one.  The connection is counted twice and
    the new listening socket not at all: one reference too many, and one too few. *)
Theorem tcp_accept_counts fd (f : SocketFile (DataT (SchemeSocket := Tcp.tcp_socket))) listen s id s' :
  hm_wf (handles s) → hm_handles (handles s) !! fd = Some (File (FSocket f)) → data f = Some listen →
  dup fd (str_bytes "listen") s = (Ok id, s') →
  let h := socket_handle f in
  let h' := add_handle (socket_set (shared s)) in
  socket_of s' id = Some h ∧ ref_counts s' !! h = Some (Z.max 0 (default 0 (ref_counts s !! h) - 1) + 2) ∧
  socket_of s' fd = Some h' ∧ (h' ≠ h → ref_counts s' !! h' = ref_counts s !! h').
Proof.
  intros Hwf Hfd Hd E. pose proof (wp_eq _ _ _ _ _ E (accept_wp fd f listen s Hwf Hfd Hd)) as [H1 H2 H3 H4]. by split_and!.
Qed.
End Tcp.

(** ** Time limits *)

(** A read waits without a limit if only the read timeout was set: [handle_block] takes the
    limit of the other direction. *)
Lemma read_timeout_unused {SA : SyscallAbi} {NA : NetAbi} {SS : SocketSets} {IP : IpTypes} {SK : SchemeSocket}
    clock fd buf f (s : SocketScheme) :
  hm_handles (handles s) !! fd = Some (File (FSocket f)) → write_timeout f = None →
  handle_block clock (OpRead fd buf) s = (Ok None, s).
Proof. intros Hfd Hw. unfold handle_block. rewrite bind_get. unfold hm_get. cbn [file_id]. rewrite Hfd. unfold mbind, comp_bind, lift. by rewrite Hw. Qed.
