(* ===== verification/Smolnetd.v ===== *)
(** * netstack: requests that wait, and the daemon

    Models [netstack/src/scheme/mod.rs]: [SchemeWrapper], which runs the requests of one
    socket scheme, keeps the ones that block and retries them, and [Smolnetd], which drives
    the four schemes, the router and the TCP/IP stack over one set of sockets. *)

From S2P Require Import Prelude Abi SchemeUtils Netstack Link Router Sockets SocketKinds.

(** ** Waiting requests *)

Record WaitHandle := mk_wait_handle {
  until : option TimeSpec;
  cancelling : bool;
  req_id : Z;
  packet : Op;
  caller : CallerCtx;
}.

(** What the kernel hands to [next_request]: an operation, one that the scheme does not
    have, a closed file, a cancelled request, or something else *)
Inductive Incoming :=
  | InCall (id : Z) (op : Op) (ctx : CallerCtx)
  | InUnsupported (id : Z)
  | InOnClose (fd : Z)
  | InCancellation (id : Z)
  | InOther.

(** [Vec::swap_remove] *)
Definition swap_remove {A} (i : nat) (l : list A) : list A :=
  match last l with
  | Some x => take (length l - 1) (<[i := x]> l)
  | None => []
  end.

Definition timespec_lt (a b : TimeSpec) : bool :=
  bool_decide (tv_sec a < tv_sec b ∨ tv_sec a = tv_sec b ∧ tv_nsec a < tv_nsec b).

Definition expired (now : TimeSpec) (h : WaitHandle) : bool :=
  match until h with Some t => timespec_lt t now | None => false end.

(** What is used of [redox_scheme]: whether a request refuses to wait, and the errors of
    the writes to the scheme socket, by their number *)
Class SchemeIo := {
  is_explicitly_nonblock : Op → bool;
  write_error : nat → option errno;
}.

Section Wrapper.
Context {SA : SyscallAbi} {NA : NetAbi} {SS : SocketSets} {IP : IpTypes} {SK : SchemeSocket} {IO : SchemeIo}.

(** [sent] and [posted] are what was written to the scheme socket: the answers and the
    events *)
Record SchemeWrapper := mk_wrapper {
  scheme : SocketScheme;
  wait_queue : list WaitHandle;
  sent : list (Z * (errno + Z * bytes));
  posted : list (Z * Z);
}.

Definition on_scheme {A} : comp SocketScheme A → comp SchemeWrapper A :=
  zoom scheme (λ x w, {| w with scheme := x |}).

Definition set_queue f (w : SchemeWrapper) := {| w with wait_queue := f (wait_queue w) |}.

(** One write to the scheme socket *)
Definition to_socket (log : SchemeWrapper → SchemeWrapper) : comp SchemeWrapper unit :=
  w ← get;
  match write_error (length (sent w) + length (posted w)) with
  | Some e => fail e
  | None => modify log
  end.

Definition write_response (id : Z) (r : errno + Z * bytes) : comp SchemeWrapper unit :=
  to_socket (λ w, {| w with sent := sent w ++ [(id, r)] |}).

Definition post_fevent (fd ev : Z) : comp SchemeWrapper unit :=
  to_socket (λ w, {| w with posted := posted w ++ [(fd, ev)] |}).

(** Whether an answer means that the request is to wait *)
Definition blocks (op : Op) (r : errno + Z * bytes) : bool :=
  match r with inl EWOULDBLOCK => negb (is_explicitly_nonblock op) | _ => false end.

Definition cancel (id : Z) (q : list WaitHandle) : list WaitHandle :=
  match list_find (λ h, req_id h = id) q with
  | Some (i, h) => <[i := {| h with cancelling := true |}]> q
  | None => q
  end.

(** One turn of the loop of [on_scheme_event] *)
Definition on_request (clock : outcome TimeSpec) (r : Incoming) : comp SchemeWrapper unit :=
  match r with
  | InOnClose fd => on_scheme (on_close fd)
  | InCancellation id => modify (set_queue (cancel id))
  | InOther => mret tt
  | InUnsupported id => write_response id (inl EOPNOTSUPP)
  | InCall id op ctx =>
     r ← result (on_scheme (run_op op ctx));
     if blocks op r then
       b ← result (on_scheme (handle_block clock op));
       match b with
       | inr timeout => modify (set_queue (λ q, q ++ [mk_wait_handle timeout false id op ctx]))
       | inl err => write_response id (inl err);; fail err
       end
     else write_response id r
  end.

(** [on_scheme_event]: the requests that are there, and how [next_request] then ends *)
Definition on_scheme_event (clock : outcome TimeSpec) (requests : list Incoming) (stop : option errno) :
    comp SchemeWrapper (option unit) :=
  for_each (on_request clock) requests;;
  match stop with
  | None => mret (Some tt)
  | Some EWOULDBLOCK | Some EAGAIN => mret None
  | Some e => fail e
  end.

(** The first loop of [notify_sockets]: the events of one file *)
Definition notify_file (fd : Z) : comp SchemeWrapper unit :=
  w ← get;
  match hm_handles (handles (scheme w)) !! fd with
  | Some (File file) =>
     '(ev, file') ← on_scheme (on_shared (file_events file));
     on_scheme (modify (set_handles (hm_set fd (File file'))));;
     if bool_decide (0 < ev) then post_fevent fd ev else mret tt
  | _ => mret tt
  end.

(** The second loop: every waiting request is tried again *)
Fixpoint wake_loop (fuel : nat) (now : TimeSpec) (i : nat) : comp SchemeWrapper unit :=
  w ← get;
  match wait_queue w !! i with
  | None => mret tt
  | Some h =>
     match fuel with
     | O => panic
     | S fuel =>
        let answer r :=
          modify (set_queue (swap_remove i));;
          write_response (req_id h) r;;
          wake_loop fuel now i in
        r ← result (on_scheme (run_op (packet h) (caller h)));
        if blocks (packet h) r then
          if cancelling h then answer (inl ECANCELED)
          else if expired now h then answer (inl ETIMEDOUT)
          else wake_loop fuel now (S i)
        else answer r
     end
  end.

Definition notify_sockets (clock : outcome TimeSpec) : comp SchemeWrapper unit :=
  now ← lift clock;
  w ← get;
  for_each notify_file (btree_iter (hm_handles (handles (scheme w)))).*1;;
  wake_loop (length (wait_queue w)) now 0.
End Wrapper.

(** ** Smolnetd *)

(** Durations are in microseconds *)
Definition MAX_DURATION : Z := u64_max.
Definition MIN_DURATION : Z := 0.
Definition MIN_CHECK_TIMEOUT : Z := 10000.
Definition MAX_CHECK_TIMEOUT : Z := 500000.

(** [Interface::poll] and [Interface::poll_delay] *)
Class Stack {IP : IpTypes} {W : Wire IP} {V4 : Ipv4Wire IP} {PB : PacketBuffers} {SM : Smoltcp} := {
  stack_poll : Instant → NetIface * Router * gmap Z SmolSocket → NetIface * Router * gmap Z SmolSocket;
  poll_delay : Instant → NetIface → gmap Z SmolSocket → option Z;
}.

Section Smolnetd.
Context {SA : SyscallAbi} {NA : NetAbi} {IP : IpTypes} {W : Wire IP} {V4 : Ipv4Wire IP} {PB : PacketBuffers}
  {SM : Smoltcp} {HC : HandleChoice} {IO : SchemeIo} {ST : Stack}.

Record Smolnetd := mk_smolnetd {
  net : Shared;
  router_device : Router;
  ip_scheme : SchemeWrapper (SK := Ip.ip_socket);
  udp_scheme : SchemeWrapper (SK := Udp.udp_socket);
  tcp_scheme : SchemeWrapper (SK := Tcp.tcp_socket);
  icmp_scheme : SchemeWrapper (SK := Icmp.icmp_socket);
}.

(** [SchemeWrapper::new] *)
Definition wrapper_new {SK : SchemeSocket} (sh : Shared) : outcome SchemeWrapper :=
  match scheme_new sh with
  | Ok sc => Ok (mk_wrapper sc [] [] [])
  | Err e => Err e
  | Panic => Panic
  end.

(** [Smolnetd::new], with the interface, the routes and the devices it sets up: there is no
    socket yet *)
Definition smolnetd_new (i : NetIface) (routes : RouteTable) (devices : DeviceList) : comp unit Smolnetd :=
  let sh : Shared := {| socket_set := ∅; iface := i : Iface; Sockets.route_table := routes |} in
  ip ← lift (wrapper_new sh);
  udp ← lift (wrapper_new sh);
  tcp ← lift (wrapper_new sh);
  icmp ← lift (wrapper_new sh);
  mret (mk_smolnetd sh (router_new devices routes) ip udp tcp icmp).

(** A scheme over the sockets that all of them share *)
Definition load {SK : SchemeSocket} (sh : Shared) (w : SchemeWrapper) : SchemeWrapper :=
  let sc := scheme w in {| w with scheme := {| sc with shared := sh |} |}.

Definition on_ip {A} : comp SchemeWrapper A → comp Smolnetd A :=
  zoom (λ s, load (net s) (ip_scheme s)) (λ w s, {| s with net := shared (scheme w); ip_scheme := w |}).
Definition on_udp {A} : comp SchemeWrapper A → comp Smolnetd A :=
  zoom (λ s, load (net s) (udp_scheme s)) (λ w s, {| s with net := shared (scheme w); udp_scheme := w |}).
Definition on_tcp {A} : comp SchemeWrapper A → comp Smolnetd A :=
  zoom (λ s, load (net s) (tcp_scheme s)) (λ w s, {| s with net := shared (scheme w); tcp_scheme := w |}).
Definition on_icmp {A} : comp SchemeWrapper A → comp Smolnetd A :=
  zoom (λ s, load (net s) (icmp_scheme s)) (λ w s, {| s with net := shared (scheme w); icmp_scheme := w |}).

(** [Smolnetd::notify_sockets] *)
Definition notify_all (clock : outcome TimeSpec) : comp Smolnetd unit :=
  on_ip (notify_sockets clock);;
  on_udp (notify_sockets clock);;
  on_tcp (notify_sockets clock);;
  on_icmp (notify_sockets clock).

(** The router works with the table that the schemes share *)
Definition on_router {A} (m : comp Router A) : comp Smolnetd A :=
  zoom (λ s, let r := router_device s in mk_router (rx_buffer r) (tx_buffer r) (devices r) (Sockets.route_table (net s)))
       (λ r s, {| s with router_device := r |}) m.

Definition run_stack (t : Instant) : comp Smolnetd unit :=
  modify (λ s,
    let sh := net s in
    let '(i, r, set) := stack_poll t (iface sh, router_device s, socket_set sh) in
    {| s with router_device := r; net := {| sh with iface := i; socket_set := set |} |}).

(** The loop of [poll]; [instants] are the times at which its turns begin *)
Fixpoint poll_loop (iter_limit : nat) (instants : nat → Instant) : comp Smolnetd Z :=
  match iter_limit with
  | O => mret MIN_DURATION
  | S iter_limit' =>
     let t := instants iter_limit in
     on_router (Router.poll t);;
     run_stack t;;
     on_router (dispatch t);;
     s ← get;
     if Router.can_recv (router_device s) then poll_loop iter_limit' instants
     else
       match poll_delay t (iface (net s)) (socket_set (net s)) with
       | Some delay =>
          if bool_decide (delay = 0) then poll_loop iter_limit' instants
          else mret (Z.min MAX_DURATION delay)
       | None => mret MAX_DURATION
       end
  end.

Definition poll (clock : outcome TimeSpec) (instants : nat → Instant) : comp Smolnetd Z :=
  timeout ← poll_loop 10 instants;
  notify_all clock;;
  mret (Z.min (Z.max MIN_CHECK_TIMEOUT timeout) MAX_CHECK_TIMEOUT).

Definition mul_i64 {S} (a b : Z) : comp S Z :=
  if bool_decide (- i64_max - 1 ≤ a * b ≤ i64_max) then mret (a * b) else panic.

(** The time that [schedule_time_event] writes, from the one it reads *)
Definition next_time_event {S} (time : TimeSpec) (timeout : Z) : comp S TimeSpec :=
  sec_ms ← mul_i64 (tv_sec time) 1000;
  time_ms ← add_i64 sec_ms (Z.quot (tv_nsec time) 1000000);
  time_ms ← add_i64 time_ms (timeout `div` 1000);
  mret (mk_timespec (Z.quot time_ms 1000) (Z.rem time_ms 1000 * 1000000)).

(** [schedule_time_event]: [read] and [written] are the answers of the time file *)
Definition schedule_time_event {S} (read : outcome (nat * TimeSpec)) (written : outcome unit) (timeout : Z) :
    comp S TimeSpec :=
  '(n, time) ← lift read;
  if bool_decide (n < timespec_size)%nat then fail EBADF
  else
    t ← next_time_event time timeout;
    lift written;;
    mret t.

(** What happens to the daemon, with what the system answers while it is handled *)
Record Answers := mk_answers {
  clock : outcome TimeSpec;
  instants : nat → Instant;
  stop : option errno;
  time_read : outcome (nat * TimeSpec);
  time_written : outcome unit;
}.

Inductive Event :=
  | Network
  | Time
  | IpScheme (requests : list Incoming)
  | UdpScheme (requests : list Incoming)
  | TcpScheme (requests : list Incoming)
  | IcmpScheme (requests : list Incoming).

(** The handlers [on_network_scheme_event], [on_time_event], [on_ip_scheme_event] and so on *)
Definition on_event (a : Answers) (e : Event) : comp Smolnetd unit :=
  let poll := poll (clock a) (instants a) in
  match e with
  | Network => poll;; mret tt
  | Time =>
     timeout ← poll;
     schedule_time_event (time_read a) (time_written a) timeout;;
     poll;;
     mret tt
  | IpScheme rs => on_ip (on_scheme_event (clock a) rs (stop a));; poll;; mret tt
  | UdpScheme rs => on_udp (on_scheme_event (clock a) rs (stop a));; poll;; mret tt
  | TcpScheme rs => on_tcp (on_scheme_event (clock a) rs (stop a));; poll;; mret tt
  | IcmpScheme rs => on_icmp (on_scheme_event (clock a) rs (stop a));; poll;; mret tt
  end.
End Smolnetd.
