(* ===== verification/SmolnetdInv.v ===== *)
(** * netstack: the four schemes share one set of sockets

    The kinds of [SocketKinds] have the interface of [SocketsInv], and the invariant of that
    file holds for [ip:], [udp:] and [icmp:] in every state of [Smolnetd] that can be reached,
    whatever [tcp:] does.  What waits in a scheme is answered once. *)

From S2P Require Import Prelude Abi SchemeUtils Netstack Link Router Sockets SocketsInv SocketKinds Smolnetd.

(** ** The kinds have the interface *)

Section Laws.
Context {SA : SyscallAbi} {NA : NetAbi} {IP : IpTypes} {SM : Smoltcp} {HC : HandleChoice}.
Context {HL : SocketSetLaws smol_sets}.

(** What [law_new_socket] says *)
Definition new_ok {D T : Type} (lives : AnySocket → Prop) (st : Shared * D) (r : outcome (Z * T)) (st' : Shared * D) : Prop :=
  match r with
  | Ok (h, _) =>
     socket_set st.1 !! h = None ∧ (∃ a, socket_set st'.1 !! h = Some a ∧ lives a) ∧
     ∀ h', h' ≠ h → socket_set st'.1 !! h' = socket_set st.1 !! h'
  | Err _ => socket_set st.1 ⊆ socket_set st'.1
  | Panic => True
  end.

Lemma wp_ports {A} (m : comp PortSet A) (Q : outcome A → Shared * PortSet → Prop) st :
  (∀ r p, Q r (st.1, p)) → wp (on_ports m) Q st.
Proof. intros HQ. unfold on_ports. wp_step. unfold wp. apply HQ. Qed.

Lemma local_port_set port st :
  wp (local_port port) (λ r st', st'.1 = st.1) st.
Proof.
  unfold local_port. case_bool_decide; apply wp_bind, wp_ports; intros [o| |] p; [|done|done| |done|done].
  - by wp_go.
  - destruct o; by wp_go.
Qed.

(** A new socket that is added and then replaced by itself in another state *)
Lemma new_ok_insert {D T} (lives : AnySocket → Prop) (a b : AnySocket) sh sh' (d d' : D) (t : T) :
  lives b → socket_set sh' = <[add_handle (socket_set sh) := b]> (<[add_handle (socket_set sh) := a]> (socket_set sh)) →
  new_ok lives (sh, d) (Ok (add_handle (socket_set sh), t)) (sh', d').
Proof.
  intros Hb E. cbn. rewrite E. split; [exact (add_handle_fresh (socket_set sh))|]. split; [exists b; by rewrite lookup_insert_eq|].
  intros h' Hne. by rewrite !lookup_insert_ne.
Qed.

Lemma subset_add (sh : Shared) (a : AnySocket) :
  socket_set sh ⊆ <[add_handle (socket_set sh) := a]> (socket_set sh).
Proof. apply insert_subseteq, add_handle_fresh. Qed.

Lemma udp_new_socket path u sh d :
  wp (Udp.new_socket path u) (new_ok (λ a, match a with SUdp _ => True | _ => False end) (sh, d)) (sh, d).
Proof.
  unfold Udp.new_socket. destruct (path_endpoints path) as [remote local]. case_bool_decide; [by cbn|].
  apply wp_bind. eapply wp_mono; [apply local_port_set|]. intros [port|e|] [sh1 p]; cbn; [intros ->|by intros ->|done].
  apply wp_bind. unfold on_set, add_socket. wp_go; try done.
  all: by eapply (new_ok_insert _ _ _ sh); [|reflexivity].
Qed.

Lemma tcp_new_socket path u sh d :
  wp (Tcp.new_socket path u) (new_ok (λ a, match a with STcp _ => True | _ => False end) (sh, d)) (sh, d).
Proof.
  unfold Tcp.new_socket. destruct (path_endpoints path) as [remote local]. case_bool_decide; [by cbn|].
  apply wp_bind. eapply wp_mono; [apply local_port_set|]. intros [port|e|] [sh1 p]; cbn; [intros ->|by intros ->|done].
  apply wp_bind. unfold on_set, add_socket. wp_go; try done.
  all: by eapply (new_ok_insert _ _ _ sh); [|reflexivity].
Qed.

Lemma icmp_new_socket path u sh d :
  wp (Icmp.new_socket path u) (new_ok (λ a, match a with SIcmp _ => True | _ => False end) (sh, d)) (sh, d).
Proof.
  unfold Icmp.new_socket. apply wp_bind. wp_step; [|by cbn].
  assert (∀ ty bind addr, wp (Icmp.new_icmp_socket ty bind addr)
    (new_ok (λ a, match a with SIcmp _ => True | _ => False end) (sh, d)) (sh, d)) as H.
  { intros ty bind addr. unfold Icmp.new_icmp_socket. apply wp_bind. wp_step; [|by cbn]. apply wp_bind. wp_step; [|by cbn].
    apply wp_bind. unfold on_set, add_socket. do 4 wp_step. apply wp_ret. cbv beta iota. apply wp_bind, wp_ports.
    intros [o|e|] p; cbn; [|apply subset_add|done].
    apply wp_bind. wp_step; [|apply subset_add]. apply wp_bind. wp_step; [|apply subset_add]. wp_go.
    by eapply (new_ok_insert _ _ _ sh); [|reflexivity]. }
  case_bool_decide; [apply H|]. case_bool_decide; [apply H|by cbn].
Qed.

(** The file is left as it was *)
Definition keeps_file {X F A} (f : F) (r : outcome A) (st : X * F) : Prop := r = Panic ∨ st.2 = f.

Lemma wp_zoom_fst {X F A} (m : comp X A) (Q : outcome A → X * F → Prop) st :
  (∀ r x, Q r (x, st.2)) → wp (zoom fst (λ x s, (x, s.2)) m) Q st.
Proof. intros HQ. wp_step. unfold wp. apply HQ. Qed.

Ltac keeps := repeat (wp_step; try (by left); try (by right)).

Lemma udp_write_keeps buf x f : wp (Udp.write_buf buf) (keeps_file f) (x, f).
Proof. unfold Udp.write_buf, blocked. keeps. Qed.

Lemma udp_read_keeps buf x f : wp (Udp.read_buf buf) (keeps_file f) (x, f).
Proof.
  unfold Udp.read_buf, blocked. do 2 wp_step. wp_step; [by wp_step; right|]. apply wp_bind, wp_zoom_fst.
  intros [b|e|] x1; [|by right|by left]. keeps.
Qed.

Lemma udp_recvmsg_keeps how fl x f : wp (Udp.handle_recvmsg how fl) (keeps_file f) (x, f).
Proof.
  unfold Udp.handle_recvmsg, blocked, recvmsg_sizes, recvmsg_fits, add_usize, write_at. do 2 wp_step. wp_step; [by wp_step; right|].
  wp_step; [by wp_step; right|]. apply wp_bind, wp_zoom_fst. intros [b|e|] x1; [|by right|by left]. keeps.
Qed.

Lemma tcp_write_keeps buf x f : wp (Tcp.write_buf buf) (keeps_file f) (x, f).
Proof. unfold Tcp.write_buf, blocked. keeps. Qed.

Lemma tcp_read_keeps buf x f : wp (Tcp.read_buf buf) (keeps_file f) (x, f).
Proof. unfold Tcp.read_buf, blocked. keeps. Qed.

Lemma tcp_recvmsg_keeps how fl x f : wp (Tcp.handle_recvmsg how fl) (keeps_file f) (x, f).
Proof. unfold Tcp.handle_recvmsg, blocked, recvmsg_sizes, recvmsg_fits, add_usize, write_at. keeps. Qed.

Lemma icmp_write_keeps buf x f : wp (Icmp.write_buf buf) (keeps_file f) (x, f).
Proof. unfold Icmp.write_buf, blocked. keeps. Qed.

Lemma icmp_read_keeps buf x f : wp (Icmp.read_buf buf) (keeps_file f) (x, f).
Proof.
  unfold Icmp.read_buf. do 2 wp_step. wp_step; [by wp_step; right|]. generalize (length (icmp_rx x)) as fuel.
  intros fuel. revert x. induction fuel as [|fuel IH]; intros x; cbn [Icmp.read_loop]; unfold blocked; keeps. apply IH.
Qed.

Lemma ip_write_keeps buf x f : wp (Ip.write_buf buf) (keeps_file f) (x, f).
Proof. unfold Ip.write_buf, blocked. keeps. Qed.

Lemma ip_read_keeps buf x f : wp (Ip.read_buf buf) (keeps_file f) (x, f).
Proof. unfold Ip.read_buf, blocked. keeps. Qed.

Lemma shutdown_keeps {X D T} (close : X → X) how x (f : SchemeFile D T) :
  match shutdown_file close how (x, f) with
  | (Panic, _) => True
  | (_, (_, f')) => file_socket f' = file_socket f
  end.
Proof.
  unfold shutdown_file. rewrite bind_get. destruct f; [done|].
  destruct (how =? 0); [done|]. destruct (how =? 1); [done|]. by destruct (how =? 2).
Qed.

(** From a [wp] to the form of the laws *)
Lemma law_new {SK : SchemeSocket} lives path u sh d :
  wp (new_socket path u) (new_ok lives (sh, d)) (sh, d) → (∀ a, lives a → is_Some (downcast a)) →
  match new_socket path u (sh, d) with
  | (Ok (h, _), (sh', _)) =>
     socket_set sh !! h = None ∧ live (socket_set sh') h ∧
     ∀ h', h' ≠ h → socket_set sh' !! h' = socket_set sh !! h'
  | (Err _, (sh', _)) => socket_set sh ⊆ socket_set sh'
  | (Panic, _) => True
  end.
Proof.
  unfold wp. destruct (new_socket path u (sh, d)) as [[[h t]| |] [sh' d']]; cbn; [|done..].
  intros (H1 & (a & Ha & La) & H3) Hl. split_and!; [done| |done].
  destruct (Hl a La) as [x Hx]. exists x. apply bind_Some. by exists a.
Qed.

Lemma law_keeps {X D A} (m : comp (X * SocketFile D) A) x f :
  wp m (keeps_file f) (x, f) →
  match m (x, f) with (Panic, _) => True | (_, (_, f')) => socket_handle f' = socket_handle f end.
Proof. unfold wp. destruct (m (x, f)) as [[] [x' f']]; cbn; intros [H|H]; by simplify_eq. Qed.

Lemma law_keeps_file {X D T A} (m : comp (X * SchemeFile D T) A) x f :
  wp m (keeps_file f) (x, f) →
  match m (x, f) with (Panic, _) => True | (_, (_, f')) => file_socket f' = file_socket f end.
Proof. unfold wp. destruct (m (x, f)) as [[] [x' f']]; cbn; intros [H|H]; by simplify_eq. Qed.

(** [dup_file]: sockets are only added, and the file stays as it is *)
Definition dup_ok {F P A} (st : Shared * F * P) (r : outcome A) (st' : Shared * F * P) : Prop :=
  r = Panic ∨ socket_set st.1.1 ⊆ socket_set st'.1.1 ∧ st'.1.2 = st.1.2.

Lemma udp_dup_ok path st : wp (Udp.dup_file path) (dup_ok st) st.
Proof.
  destruct st as [[sh file] p]. unfold Udp.dup_file, acquire_port, add_usize.
  repeat (wp_step; try (by left); try (by right)).
Qed.

Lemma tcp_dup_ok path st : wp (Tcp.dup_file path) (dup_ok st) st.
Proof.
  destruct st as [[sh file] p]. unfold Tcp.dup_file, Tcp.accept, add_socket, acquire_port, add_usize.
  repeat (wp_step; try (by left); try (by right)).
  all: right; cbn; (split; [|done]); rewrite ?insert_insert_eq; apply subset_add.
Qed.

Lemma law_dup_ok {SK : SchemeSocket} path sh file d :
  wp (dup_file path) (dup_ok (sh, file, d)) (sh, file, d) →
  match dup_file path (sh, file, d) with
  | (Panic, _) => True
  | (_, (sh', file', _)) => socket_set sh ⊆ socket_set sh' ∧ file_socket file' = file_socket file
  end.
Proof. unfold wp. destruct (dup_file _ _) as [[] [[sh' f'] d']]; cbn; intros [H|[H1 H2]]; by simplify_eq/=. Qed.

#[global] Instance udp_laws : SocketLaws Udp.udp_socket.
Proof.
  split.
  - intros. eapply (law_new (SK := Udp.udp_socket)); [apply udp_new_socket|]. intros [] []; by eexists.
  - intros. apply (law_dup_ok (SK := Udp.udp_socket)), udp_dup_ok.
  - intros. apply law_keeps, udp_write_keeps.
  - intros. apply law_keeps, udp_read_keeps.
  - done.
  - intros. apply shutdown_keeps.
  - intros. apply law_keeps_file, udp_recvmsg_keeps.
Qed.

#[global] Instance tcp_laws : SocketLaws Tcp.tcp_socket.
Proof.
  split.
  - intros. eapply (law_new (SK := Tcp.tcp_socket)); [apply tcp_new_socket|]. intros [] []; by eexists.
  - intros. apply (law_dup_ok (SK := Tcp.tcp_socket)), tcp_dup_ok.
  - intros. apply law_keeps, tcp_write_keeps.
  - intros. apply law_keeps, tcp_read_keeps.
  - done.
  - intros. apply shutdown_keeps.
  - intros. apply law_keeps_file, tcp_recvmsg_keeps.
Qed.

#[global] Instance icmp_laws : SocketLaws Icmp.icmp_socket.
Proof.
  split.
  - intros. eapply (law_new (SK := Icmp.icmp_socket)); [apply icmp_new_socket|]. intros [] []; by eexists.
  - done.
  - intros. apply law_keeps, icmp_write_keeps.
  - intros. apply law_keeps, icmp_read_keeps.
  - done.
  - intros. apply shutdown_keeps.
  - done.
Qed.

Lemma ip_new_socket path u sh d :
  wp (Ip.new_socket path u) (new_ok (λ a, match a with SRaw _ => True | _ => False end) (sh, d)) (sh, d).
Proof.
  unfold Ip.new_socket. case_bool_decide; [by cbn|]. apply wp_bind. wp_step; [|by cbn]. unfold add_socket. wp_go.
  eapply (new_ok_insert _ (SRaw (raw_new 0 0 0)) (SRaw _) sh); [done|]. cbn. by rewrite insert_insert_eq.
Qed.

#[global] Instance ip_laws : SocketLaws Ip.ip_socket.
Proof.
  split.
  - intros. eapply (law_new (SK := Ip.ip_socket)); [apply ip_new_socket|]. intros [] []; by eexists.
  - done.
  - intros. apply law_keeps, ip_write_keeps.
  - intros. apply law_keeps, ip_read_keeps.
  - done.
  - intros. apply shutdown_keeps.
  - done.
Qed.

#[global] Instance udp_no_accept : NoAccept Udp.udp_socket.
Proof.
  split. intros path [[sh file] d] f u st'. cbn. intros H.
  assert (wp (Udp.dup_file path) (λ r _, match r with
    | Ok (Some (f, u)) => u = None ∧ file_socket f = file_socket file | _ => True end) (sh, file, d)) as Hwp.
  { unfold Udp.dup_file, acquire_port, add_usize. wp_go; try done; cbn; by destruct file. }
  exact (wp_eq _ _ _ _ _ H Hwp).
Qed.

#[global] Instance icmp_no_accept : NoAccept Icmp.icmp_socket.
Proof. by split. Qed.

#[global] Instance ip_no_accept : NoAccept Ip.ip_socket.
Proof. by split. Qed.
End Laws.

(** ** Requests of one scheme *)

Section Wrapper.
Context {SA : SyscallAbi} {NA : NetAbi} {SS : SocketSets} {IP : IpTypes} {SK : SchemeSocket} {SL : SocketLaws SK} {IO : SchemeIo}.

(** A property of the scheme that its operations keep; the number bounds the open handles *)
Record kept (P : Z → SocketScheme → Prop) : Prop := mk_kept {
  kept_le n n' s : P n s → n ≤ n' → P n' s;
  kept_quiet n s s' : P n s → quiet s s' → P n s';
  kept_run_op n op ctx s : P n s → n < usize_max → wp (run_op op ctx) (ends_in (P (n + 1))) s;
  kept_on_close n fd s : P n s → wp (on_close fd) (ends_in (P n)) s;
}.

Lemma inv_kept `{!NoAccept SK} : kept inv.
Proof.
  split.
  - apply inv_weaken.
  - intros n s s' Hi Q. by eapply quiet_inv.
  - apply run_op_inv.
  - apply on_close_inv.
Qed.

Lemma spares_kept s0 : kept (λ _, spares s0).
Proof.
  assert (∀ A (m : comp SocketScheme A) s, spares s0 s → wp m (moves spares s) s → wp m (ends_in (spares s0)) s) as H.
  { intros A m s Hs Hm. eapply wp_mono; [exact Hm|]. intros [] s'; cbn; [| |done]; intros Hs'; unfold spares in *; by etrans. }
  split; [done| | |].
  - intros _ s s' Hs []. unfold spares in *. etrans; [done|by apply set_rel_foreign].
  - intros n op ctx s Hs _. apply H; [done|apply run_op_spares].
  - intros n fd s Hs. apply H; [done|apply on_close_spares].
Qed.

Context (P : Z → SocketScheme → Prop) (KP : kept P).

(** The property holds of the scheme, unless there was a panic *)
Definition stays (n : Z) {A} (r : outcome A) (w : SchemeWrapper) : Prop :=
  match r with Panic => True | _ => P n (scheme w) end.

Lemma stays_le n n' {A} (m : comp SchemeWrapper A) w : wp m (stays n) w → n ≤ n' → wp m (stays n') w.
Proof. intros H Hn. eapply wp_mono; [exact H|]. intros [] w'; cbn; [| |done]; intros; by eapply (kept_le P KP). Qed.

Lemma stays_bind n n' {A B} (m : comp SchemeWrapper A) (f : A → comp SchemeWrapper B) w :
  n ≤ n' → wp m (stays n) w → (∀ a w', P n (scheme w') → wp (f a) (stays n') w') → wp (m ≫= f) (stays n') w.
Proof.
  intros Hn Hm Hf. apply wp_bind. eapply wp_mono; [exact Hm|]. intros [a|e|] w'; cbn; [by apply Hf| |done].
  intros. by eapply (kept_le P KP).
Qed.

Lemma stays_ret n {A} (a : A) w : P n (scheme w) → wp (mret a) (stays n) w.
Proof. done. Qed.

Lemma to_socket_stays n log w :
  P n (scheme w) → (∀ w', scheme (log w') = scheme w') → wp (to_socket log) (stays n) w.
Proof. intros HP Hlog. unfold to_socket. wp_go; [done|]. cbn. by rewrite Hlog. Qed.

Lemma write_response_stays n id r w : P n (scheme w) → wp (write_response id r) (stays n) w.
Proof. intros HP. by apply to_socket_stays. Qed.

Lemma run_op_stays n op ctx w :
  P n (scheme w) → n < usize_max → wp (result (on_scheme (run_op op ctx))) (stays (n + 1)) w.
Proof.
  intros HP Hn. unfold wp, result, on_scheme, zoom. pose proof (kept_run_op P KP n op ctx _ HP Hn) as H.
  unfold wp in H. by destruct (run_op op ctx (scheme w)) as [[] ?].
Qed.

Lemma handle_block_same clock op s : wp (handle_block clock op) (λ _ s', s' = s) s.
Proof.
  unfold handle_block, add_time, add_i64, add_i32. apply wp_bind, wp_get, wp_bind, wp_lift.
  destruct (hm_get _ _) as [[| |[?|f]]| |]; [done..| |done|done].
  destruct (match op with OpRead _ _ => _ | _ => _ end) as [t|]; [|done].
  apply wp_bind, wp_lift. destruct clock; [|done..]. wp_go; done.
Qed.

Lemma handle_block_stays n clock op w :
  P n (scheme w) → wp (result (on_scheme (handle_block clock op))) (stays n) w.
Proof.
  intros HP. unfold wp, result, on_scheme, zoom. pose proof (handle_block_same clock op (scheme w)) as E.
  unfold wp in E. destruct (handle_block clock op (scheme w)) as [[] s']; cbn in *; subst; done.
Qed.

Lemma on_request_stays n clock r w :
  P n (scheme w) → n < usize_max → wp (on_request clock r) (stays (n + 1)) w.
Proof.
  intros HP Hn. assert (P (n + 1) (scheme w)) as HP' by (eapply (kept_le P KP); [exact HP|lia]).
  destruct r as [id op ctx|id|fd|id|]; cbn [on_request].
  - eapply (stays_bind (n + 1)); [lia|by apply run_op_stays|]. intros r w1 HP1.
    destruct (blocks op r); [|by apply write_response_stays].
    eapply (stays_bind (n + 1)); [lia|by apply handle_block_stays|]. intros [e|t] w2 HP2; [|done].
    eapply (stays_bind (n + 1)); [lia|by apply write_response_stays|]. done.
  - by apply write_response_stays.
  - apply (stays_le n); [|lia]. unfold on_scheme. wp_step. eapply wp_mono; [by apply (kept_on_close P KP n)|].
    by intros [] s'.
  - done.
  - done.
Qed.

Lemma on_requests_stays rs n clock w :
  P n (scheme w) → n + Z.of_nat (length rs) ≤ usize_max →
  wp (for_each (on_request clock) rs) (stays (n + Z.of_nat (length rs))) w.
Proof.
  revert n w. induction rs as [|r rs IH]; intros n w HP Hn; cbn [for_each length] in *.
  { eapply stays_le; [by apply (stays_ret n)|lia]. }
  eapply (stays_bind (n + 1)); [lia|apply on_request_stays; [done|lia]|]. intros _ w' HP'.
  eapply stays_le; [apply (IH (n + 1)); [done|lia]|lia].
Qed.

Lemma on_scheme_event_stays n clock rs stop w :
  P n (scheme w) → n + Z.of_nat (length rs) ≤ usize_max →
  wp (on_scheme_event clock rs stop) (stays (n + Z.of_nat (length rs))) w.
Proof.
  intros HP Hn. unfold on_scheme_event. eapply (stays_bind (n + Z.of_nat (length rs))); [lia|by apply on_requests_stays|].
  intros _ w' HP'. by destruct stop as [[]|].
Qed.

Lemma events_quiet s fd file sh' file' :
  hm_handles (handles s) !! fd = Some (File file) → set_rel (socket_set (shared s)) (socket_set sh') →
  file_socket file' = file_socket file →
  quiet s (set_handles (hm_set fd (File file')) {| s with shared := sh' |}).
Proof. intros Hfd Hs Hf. split; [|done|done|done]. by apply (names_put s fd file file'). Qed.

Lemma notify_file_stays n fd w : P n (scheme w) → wp (notify_file fd) (stays n) w.
Proof.
  intros HP. unfold notify_file. apply wp_bind, wp_get. destruct (_ !! fd) as [[| |file]|] eqn:Hfd; [done..| |done].
  apply wp_bind. unfold on_scheme at 1, on_shared. do 2 wp_step. unfold wp at 1.
  pose proof (file_events_rel file (shared (scheme w))) as H.
  destruct (file_events file (shared (scheme w))) as [[[ev file']|e|] sh']; [| |done].
  - destruct H as [Hs Hf]. apply wp_bind. unfold on_scheme. do 2 wp_step.
    match goal with |- wp _ _ ?w1 => assert (P n (scheme w1)) as HP' end.
    { eapply (kept_quiet P KP); [exact HP|]. by apply (events_quiet (scheme w) fd file). }
    case_bool_decide; [by apply to_socket_stays|done].
  - cbn. eapply (kept_quiet P KP); [exact HP|]. by split.
Qed.

Lemma notify_files_stays n fds w : P n (scheme w) → wp (for_each notify_file fds) (stays n) w.
Proof.
  revert w. induction fds as [|fd fds IH]; intros w HP; cbn [for_each]; [done|].
  eapply (stays_bind n); [lia|by apply notify_file_stays|]. intros _ w'. apply IH.
Qed.

Lemma wake_loop_stays fuel now i n w :
  P n (scheme w) → n + Z.of_nat fuel ≤ usize_max → wp (wake_loop fuel now i) (stays (n + Z.of_nat fuel)) w.
Proof.
  revert i n w. induction fuel as [|fuel IH]; intros i n w HP Hn; cbn [wake_loop]; apply wp_bind, wp_get.
  { destruct (wait_queue w !! i); [done|]. eapply stays_le; [by apply (stays_ret n)|lia]. }
  destruct (wait_queue w !! i) as [h|]; [|eapply stays_le; [by apply (stays_ret n)|lia]].
  eapply (stays_bind (n + 1)); [lia|apply run_op_stays; [done|lia]|]. intros r w1 HP1.
  assert (∀ r i', wp (modify (set_queue (swap_remove i));; write_response (req_id h) r;; wake_loop fuel now i')
    (stays (n + Z.of_nat (S fuel))) w1) as Hans.
  { intros r' i'. apply wp_bind, wp_modify. eapply (stays_bind (n + 1)); [lia|by apply write_response_stays|].
    intros _ w2 HP2. eapply stays_le; [apply (IH i' (n + 1)); [done|lia]|lia]. }
  destruct (blocks _ r); [|apply Hans]. destruct (cancelling h); [apply Hans|]. destruct (expired now h); [apply Hans|].
  eapply stays_le; [apply (IH _ (n + 1)); [done|lia]|lia].
Qed.

Lemma notify_sockets_stays n clock w :
  P n (scheme w) → n + Z.of_nat (length (wait_queue w)) ≤ usize_max →
  wp (notify_sockets clock) (stays (n + Z.of_nat (length (wait_queue w)))) w.
Proof.
  intros HP Hn. unfold notify_sockets. apply wp_bind, wp_lift. assert (n ≤ n + Z.of_nat (length (wait_queue w))) by lia.
  destruct clock as [now| |]; [|by eapply (kept_le P KP)|done]. apply wp_bind, wp_get.
  eapply (stays_bind n); [lia|by apply notify_files_stays|]. intros _ w' HP'. by apply wake_loop_stays.
Qed.
End Wrapper.

(** ** Requests that wait *)

Section Waiting.
Context {SA : SyscallAbi} {NA : NetAbi} {SS : SocketSets} {IP : IpTypes} {SK : SchemeSocket} {IO : SchemeIo}.

Lemma swap_remove_perm {A} i (l : list A) x : l !! i = Some x → l ≡ₚ x :: swap_remove i l.
Proof.
  intros Hi. unfold swap_remove. induction l as [|y l' _] using rev_ind; [done|].
  rewrite last_snoc, length_app. cbn [length]. replace (length l' + 1 - 1)%nat with (length l') by lia.
  apply lookup_app_Some in Hi as [Hi|[Hle Hi]].
  - rewrite insert_app_l by (by eapply lookup_lt_Some). rewrite take_app_length' by (by rewrite length_insert).
    rewrite <- Permutation_cons_append. rewrite <- (take_drop_middle _ _ _ Hi) at 1.
    rewrite (insert_take_drop l' i y) by (by eapply lookup_lt_Some). rewrite <- !Permutation_middle. apply perm_swap.
  - apply list_lookup_singleton_Some in Hi as [Hi ->]. rewrite insert_app_r_alt by lia.
    rewrite take_app_length. by rewrite <- Permutation_cons_append.
Qed.

Lemma take_swap_remove {A} i (l : list A) x : l !! i = Some x → take i (swap_remove i l) = take i l.
Proof.
  intros Hi. apply lookup_lt_Some in Hi as Hlt. unfold swap_remove. destruct (last l) as [y|] eqn:Hy; [|by apply last_None in Hy; subst].
  rewrite take_take, Nat.min_l by lia. apply take_insert_ge. lia.
Qed.

Lemma length_swap_remove {A} i (l : list A) x : l !! i = Some x → S (length (swap_remove i l)) = length l.
Proof. intros Hi. by rewrite (swap_remove_perm _ _ _ Hi) at 2. Qed.

(** What the scheme answers a request that is tried *)
Definition tried (h : WaitHandle) (r : errno + Z * bytes) : Prop :=
  ∃ s, match (run_op (packet h) (caller h) s).1 with
       | Ok a => r = inr a
       | Err e => r = inl e
       | Panic => False
       end.

(** A request is answered with what the scheme says, or because it was cancelled or its time
    is over while it blocks *)
Definition answer_ok (now : TimeSpec) (h : WaitHandle) (p : Z * (errno + Z * bytes)) : Prop :=
  p.1 = req_id h ∧
  (tried h p.2 ∧ blocks (packet h) p.2 = false ∨
   p.2 = inl ECANCELED ∧ cancelling h = true ∨
   p.2 = inl ETIMEDOUT ∧ expired now h = true).

Definition patient (now : TimeSpec) (h : WaitHandle) : Prop := cancelling h = false ∧ expired now h = false.

Record woken (now : TimeSpec) (i : nat) (w : SchemeWrapper) (r : outcome unit) (w' : SchemeWrapper)
    (answered lost : list WaitHandle) (new : list (Z * (errno + Z * bytes))) : Prop := mk_woken {
  woken_queue : wait_queue w ≡ₚ answered ++ lost ++ wait_queue w';
  woken_sent : sent w' = sent w ++ new;
  woken_answers : Forall2 (answer_ok now) answered new;
  woken_take : take i (wait_queue w') = take i (wait_queue w);
  woken_patient : r = Ok tt → Forall (patient now) (drop i (wait_queue w'));
  woken_lost : match r with Ok _ => lost = [] | _ => (length lost ≤ 1)%nat end;
}.

Definition wake_post (now : TimeSpec) (i : nat) (w : SchemeWrapper) (r : outcome unit) (w' : SchemeWrapper) : Prop :=
  match r with
  | Panic => ∃ h s, h ∈ wait_queue w ∧ (run_op (packet h) (caller h) s).1 = Panic
  | _ => ∃ answered lost new, woken now i w r w' answered lost new
  end.

Lemma woken_nothing now i w : wait_queue w !! i = None → woken now i w (Ok tt) w [] [] [].
Proof. intros Hi. split; [done|by rewrite app_nil_r|constructor|done| |done]. intros _. by rewrite drop_ge by (by apply lookup_ge_None). Qed.

(** A request before the place [i] leaves the others there *)
Lemma woken_answer now i h w w1 w2 r w' a lost new p :
  wait_queue w !! i = Some h → answer_ok now h p →
  wait_queue w1 = wait_queue w → sent w1 = sent w →
  wait_queue w2 = swap_remove i (wait_queue w) → sent w2 = sent w1 ++ [p] →
  woken now i w2 r w' a lost new → woken now i w r w' (h :: a) lost (p :: new).
Proof.
  intros Hi Hp Eq1 Es1 Eq2 Es2 [Hq Hs Ha Ht Hpat Hl]. split; [| | | |done|done].
  - rewrite (swap_remove_perm _ _ _ Hi), <- Eq2, Hq. done.
  - rewrite Hs, Es2, Es1. by rewrite <- app_assoc.
  - by constructor.
  - rewrite Ht, Eq2. by eapply take_swap_remove.
Qed.

Lemma woken_keep now i h w w1 r w' a lost new :
  wait_queue w !! i = Some h → patient now h → wait_queue w1 = wait_queue w → sent w1 = sent w →
  woken now (S i) w1 r w' a lost new → woken now i w r w' a lost new.
Proof.
  intros Hi Hp Eq Es [Hq Hs Ha Ht Hpat Hl]. rewrite Eq in *. rewrite Es in *. split; [done|done|done| | |done].
  - assert (∀ l : list WaitHandle, take i l = take i (take (S i) l)) as E by (intros l; rewrite take_take; f_equal; lia).
    by rewrite (E (wait_queue w')), (E (wait_queue w)), Ht.
  - intros ->. assert (wait_queue w' !! i = Some h) as Hi'.
    { rewrite <- (lookup_take_lt _ (S i)) by lia. rewrite Ht. by rewrite lookup_take_lt by lia. }
    rewrite (drop_S _ _ _ Hi'). constructor; [done|by apply Hpat].
Qed.

Lemma wake_answer (next : comp SchemeWrapper unit) now i h w w1 r :
  wait_queue w !! i = Some h → answer_ok now h (req_id h, r) →
  wait_queue w1 = wait_queue w → sent w1 = sent w →
  (∀ w2, wait_queue w2 = swap_remove i (wait_queue w) → wp next (wake_post now i w2) w2) →
  wp (modify (set_queue (swap_remove i));; write_response (req_id h) r;; next) (wake_post now i w) w1.
Proof.
  intros Hi Hr Eq Es Hnext. apply wp_bind, wp_modify, wp_bind. unfold write_response, to_socket.
  apply wp_bind, wp_get. destruct (write_error _) as [e|].
  - exists [], [h], []. split; cbn; rewrite ?Eq, ?Es; [by apply swap_remove_perm|by rewrite app_nil_r|constructor| |done|lia].
    by eapply take_swap_remove.
  - apply wp_modify. eapply wp_mono; [apply Hnext; cbn; by rewrite Eq|].
    intros [[]|e|] w' Hw'; cbn in Hw' |- *.
    1-2: destruct Hw' as (a & lost & new & Hw'); exists (h :: a), lost, ((req_id h, r) :: new);
      (eapply (woken_answer now i h w w1 _ _ _ _ _ _ _ Hi Hr Eq Es); [| |exact Hw']); cbn; by rewrite ?Eq.
    destruct Hw' as (h' & s2 & Hh' & Hp). exists h', s2. split; [|done].
    rewrite (swap_remove_perm _ _ _ Hi). right. cbn in Hh'. by rewrite Eq in Hh'.
Qed.

Lemma wake_keep (next : comp SchemeWrapper unit) now i h w w1 :
  wait_queue w !! i = Some h → patient now h → wait_queue w1 = wait_queue w → sent w1 = sent w →
  wp next (wake_post now (S i) w1) w1 → wp next (wake_post now i w) w1.
Proof.
  intros Hi Hp Eq Es Hnext. eapply wp_mono; [exact Hnext|]. intros [[]|e|] w' Hw'; cbn in Hw' |- *.
  1-2: destruct Hw' as (a & lost & new & Hw'); exists a, lost, new; by eapply (woken_keep now i h w w1).
  by rewrite Eq in Hw'.
Qed.

Lemma wake_loop_spec fuel now i w :
  (length (wait_queue w) ≤ fuel + i)%nat → wp (wake_loop fuel now i) (wake_post now i w) w.
Proof.
  revert i w. induction fuel as [|fuel IH]; intros i w Hf; cbn [wake_loop]; apply wp_bind, wp_get.
  { assert (wait_queue w !! i = None) as Hi by (apply lookup_ge_None; lia). rewrite Hi. exists [], [], []. by apply woken_nothing. }
  destruct (wait_queue w !! i) as [h|] eqn:Hi; [|exists [], [], []; by apply woken_nothing].
  apply lookup_lt_Some in Hi as Hlt. pose proof (length_swap_remove _ _ _ Hi) as Hlen.
  apply wp_bind. unfold wp at 1, result, on_scheme, zoom.
  destruct (run_op (packet h) (caller h) (scheme w)) as [ro s'] eqn:Hro.
  assert (∀ r, tried h r → wp
    (let answer r :=
       modify (set_queue (swap_remove i));; write_response (req_id h) r;; wake_loop fuel now i in
     if blocks (packet h) r then
       if cancelling h then answer (inl ECANCELED)
       else if expired now h then answer (inl ETIMEDOUT)
       else wake_loop fuel now (S i)
     else answer r) (wake_post now i w) {| w with scheme := s' |}) as Hrun.
  { intros r Hr. cbv zeta. assert (∀ w2, wait_queue w2 = swap_remove i (wait_queue w) →
      wp (wake_loop fuel now i) (wake_post now i w2) w2) as Hnext by (intros w2 E; apply IH; rewrite E; lia).
    destruct (blocks (packet h) r) eqn:Hb; [|apply (wake_answer _ now i h w); [done|split; [done|by left]|done..]].
    destruct (cancelling h) eqn:Hc; [apply (wake_answer _ now i h w); [done|split; [done|by right; left]|done..]|].
    destruct (expired now h) eqn:He; [apply (wake_answer _ now i h w); [done|split; [done|by right; right]|done..]|].
    apply (wake_keep _ now i h); [done..|]. apply IH. cbn. lia. }
  destruct ro as [a|e|].
  - apply (Hrun (inr a)). exists (scheme w). by rewrite Hro.
  - apply (Hrun (inl e)). exists (scheme w). by rewrite Hro.
  - exists h, (scheme w). split; [by eapply list_elem_of_lookup_2|by rewrite Hro].
Qed.

(** The first loop touches neither the queue nor the answers *)
Lemma notify_file_queue fd w :
  wp (notify_file fd) (λ _ w', wait_queue w' = wait_queue w ∧ sent w' = sent w) w.
Proof.
  unfold notify_file, on_scheme, on_shared, post_fevent, to_socket. apply wp_bind, wp_get. destruct (_ !! fd) as [[| |file]|]; [done..| |done].
  apply wp_bind. do 2 wp_step. unfold wp at 1. destruct (file_events _ _) as [[[ev f']| |] sh']; [|done..].
  cbn [fst snd]. wp_go; done.
Qed.

Lemma notify_files_queue fds w :
  wp (for_each notify_file fds) (λ _ w', wait_queue w' = wait_queue w ∧ sent w' = sent w) w.
Proof.
  revert w. induction fds as [|fd fds IH]; intros w; cbn [for_each]; [done|].
  apply wp_bind. eapply wp_mono; [apply notify_file_queue|]. intros [] w' [E1 E2]; [|done..].
  eapply wp_mono; [apply IH|]. intros r w'' [E3 E4]. split; by etrans.
Qed.
End Waiting.

(** ** The daemon *)

(** The length of the queue of a scheme *)
Section QueueLength.
Context {SA : SyscallAbi} {NA : NetAbi} {SS : SocketSets} {IP : IpTypes} {SK : SchemeSocket} {IO : SchemeIo}.

Definition waiting (w : SchemeWrapper) : Z := Z.of_nat (length (wait_queue w)).

Definition short (q : Z) {A} (r : outcome A) (w : SchemeWrapper) : Prop :=
  match r with Panic => True | _ => waiting w ≤ q end.

Lemma length_cancel id q : length (cancel id q) = length q.
Proof. unfold cancel. destruct (list_find _ q) as [[i h]|]; [apply length_insert|done]. Qed.

Lemma to_socket_short q log w :
  waiting w ≤ q → (∀ w', wait_queue (log w') = wait_queue w') → wp (to_socket log) (short q) w.
Proof. intros Hq Hlog. unfold to_socket. wp_go; [done|]. unfold short, waiting in *. by rewrite Hlog. Qed.

Lemma on_scheme_short q {A} (m : comp SocketScheme A) w : waiting w ≤ q → wp (on_scheme m) (short q) w.
Proof. intros Hq. unfold on_scheme. wp_step. unfold wp. by destruct (m (scheme w)) as [[] ?]. Qed.

Lemma short_result q {A} (m : comp SchemeWrapper A) w : wp m (short q) w → wp (result m) (short q) w.
Proof. unfold wp, result. by destruct (m w) as [[] ?]. Qed.

Lemma short_bind q {A B} (m : comp SchemeWrapper A) (f : A → comp SchemeWrapper B) w :
  wp m (short q) w → (∀ a w', waiting w' ≤ q → wp (f a) (short q) w') → wp (m ≫= f) (short q) w.
Proof. intros Hm Hf. apply wp_bind. eapply wp_mono; [exact Hm|]. intros [] w'; cbn; auto. Qed.

Lemma on_request_short clock r w : wp (on_request clock r) (short (waiting w + 1)) w.
Proof.
  assert (waiting w ≤ waiting w + 1) as Hle by lia. destruct r as [id op ctx|id|fd|id|]; cbn [on_request].
  - apply wp_bind. eapply wp_mono; [apply short_result, (on_scheme_short (waiting w)); lia|].
    intros [r|e|] w1 H1; cbn in H1; [|cbn; lia|done].
    destruct (blocks op r); [|apply to_socket_short; [lia|done]].
    apply wp_bind. eapply wp_mono; [apply short_result, (on_scheme_short (waiting w)); lia|].
    intros [[e|t]|e|] w2 H2; cbn in H2; [| |cbn; lia|done].
    + apply short_bind; [apply to_socket_short; [lia|done]|]. done.
    + apply wp_modify. unfold short, waiting in *. cbn. rewrite length_app. cbn. lia.
  - apply to_socket_short; [lia|done].
  - apply on_scheme_short. lia.
  - apply wp_modify. unfold short, waiting. cbn. rewrite length_cancel. lia.
  - cbn. lia.
Qed.

Lemma on_scheme_event_short clock rs stop w :
  wp (on_scheme_event clock rs stop) (short (waiting w + Z.of_nat (length rs))) w.
Proof.
  unfold on_scheme_event. apply wp_bind. eapply wp_mono with (Q1 := short (waiting w + Z.of_nat (length rs))).
  - revert w. induction rs as [|r rs IH]; intros w; cbn [for_each length]; [cbn; lia|].
    apply wp_bind. eapply wp_mono; [apply on_request_short|]. intros [[]|e|] w1 H1; cbn in H1 |- *; [|lia|done].
    eapply wp_mono; [apply IH|]. intros [] w2; cbn; [lia|lia|done].
  - intros [] w1; cbn; [|done..]. by destruct stop as [[]|].
Qed.

Lemma notify_sockets_short clock w : wp (notify_sockets clock) (short (waiting w)) w.
Proof.
  unfold notify_sockets. apply wp_bind, wp_lift. destruct clock as [now| |]; [|by cbn|done].
  apply wp_bind, wp_get, wp_bind. eapply wp_mono; [apply notify_files_queue|].
  intros [[]|e|] w1 [E1 _]; [|cbn; unfold waiting; by rewrite E1|done].
  eapply wp_mono; [apply wake_loop_spec; rewrite E1; lia|].
  intros [[]|e|] w2; cbn; [..|done].
  all: intros (a & lost & new & [Hq _ _ _ _ _]); unfold waiting; rewrite <- E1, Hq, !length_app; lia.
Qed.
End QueueLength.

Section Daemon.
Context {SA : SyscallAbi} {NA : NetAbi} {IP : IpTypes} {W : Wire IP} {V4 : Ipv4Wire IP} {PB : PacketBuffers}
  {SM : Smoltcp} {HC : HandleChoice} {HL : SocketSetLaws smol_sets} {IO : SchemeIo} {ST : Stack}.

Inductive SocketKind : Set := KTcp | KUdp | KIcmp | KRaw.

Definition kind (x : SmolSocket) : SocketKind :=
  match x with STcp _ => KTcp | SUdp _ => KUdp | SIcmp _ => KIcmp | SRaw _ => KRaw end.

(** The sockets of a scheme are the ones of a kind *)
Definition of_kind (SK : SchemeSocket) (k : SocketKind) : Prop :=
  ∀ a : SmolSocket, is_Some (downcast (SchemeSocket := SK) a) ↔ kind a = k.

Lemma ip_kind : of_kind Ip.ip_socket KRaw.
Proof. intros []; cbn; split; (done || by intros [? ?] || by eexists). Qed.
Lemma udp_kind : of_kind Udp.udp_socket KUdp.
Proof. intros []; cbn; split; (done || by intros [? ?] || by eexists). Qed.
Lemma tcp_kind : of_kind Tcp.tcp_socket KTcp.
Proof. intros []; cbn; split; (done || by intros [? ?] || by eexists). Qed.
Lemma icmp_kind : of_kind Icmp.icmp_socket KIcmp.
Proof. intros []; cbn; split; (done || by intros [? ?] || by eexists). Qed.

(** The stack neither adds nor removes sockets, and a socket stays of its kind *)
Definition stack_ok : Prop :=
  ∀ t i r set h, kind <$> (stack_poll t (i, r, set)).2 !! h = kind <$> set !! h.

(** A scheme of the daemon, with the bounds on its handles and its queue *)
Definition part_ok {SK : SchemeSocket} (n q : Z) (sh : Shared) (w : SchemeWrapper) : Prop :=
  inv n (scheme (load sh w)) ∧ waiting w ≤ q.

Lemma part_le {SK : SchemeSocket} n q n' q' sh w : part_ok n q sh w → n ≤ n' → q ≤ q' → part_ok n' q' sh w.
Proof. intros [Hi Hq] Hn Hq'. split; [by eapply inv_weaken|lia]. Qed.

(** The sockets of this scheme are still there *)
Lemma part_live {SK : SchemeSocket} n q sh sh' w :
  part_ok n q sh w → (∀ h, live (socket_set sh) h → live (socket_set sh') h) → part_ok n q sh' w.
Proof.
  intros [[[H1 H2 H3] Hn] Hq] Hl. split; [|done]. split; [|done]. split; [done|done|].
  intros fd h Hfd. apply Hl. by apply (H3 fd).
Qed.

Lemma kind_live (SK : SchemeSocket) k (set : gmap Z AnySocket) h :
  of_kind SK k → live set h ↔ (kind : AnySocket → SocketKind) <$> set !! h = Some k.
Proof.
  intros Hk. unfold live. destruct (set !! h) as [a|]; cbn; [|split; [by intros [? ?]|done]].
  rewrite (Hk a). split; [by intros ->|by intros [= ->]].
Qed.

Lemma foreign_live (SK SK' : SchemeSocket) k k' (set set' : gmap Z AnySocket) h :
  of_kind SK k → of_kind SK' k' → k ≠ k' → foreign_kept (SK := SK') set set' →
  live (SK := SK) set h → live (SK := SK) set' h.
Proof.
  intros Hk Hk' Hne Hf L. apply (kind_live SK k _ _ Hk) in L. apply (kind_live SK k _ _ Hk).
  destruct (set !! h) as [a|] eqn:Ha; [|done]. cbn in L. rewrite (Hf h a Ha); [done|].
  apply eq_None_not_Some. rewrite (Hk' a). congruence.
Qed.

Definition smol_ok (n q : Z) (s : Smolnetd) : Prop :=
  part_ok n q (net s) (ip_scheme s) ∧ part_ok n q (net s) (udp_scheme s) ∧ part_ok n q (net s) (icmp_scheme s).

Definition ends_ok (n q : Z) {A} (r : outcome A) (s : Smolnetd) : Prop :=
  match r with Panic => True | _ => smol_ok n q s end.

(** What a run of one scheme does to the others *)
Definition run_spares {SK : SchemeSocket} {A} (m : comp SchemeWrapper A) (w : SchemeWrapper) : Prop :=
  wp m (stays (λ _, spares (scheme w)) 0) w.

(** A run of one scheme that keeps its invariant *)
Record run_ok {SK : SchemeSocket} {A} (n q : Z) (m : comp SchemeWrapper A) (w : SchemeWrapper) : Prop := mk_run_ok {
  run_inv : wp m (stays inv n) w;
  run_short : wp m (short q) w;
  run_foreign : run_spares m w;
}.

Lemma part_run {SK : SchemeSocket} {A} n q (m : comp SchemeWrapper A) w r w' :
  run_ok n q m w → m w = (r, w') → r ≠ Panic → part_ok n q (shared (scheme w')) w'.
Proof.
  intros [H1 H2 _] E Hr. apply (wp_eq _ _ _ _ _ E) in H1. apply (wp_eq _ _ _ _ _ E) in H2.
  destruct w' as [[] ? ? ?]. by destruct r.
Qed.

Lemma part_other (SK SK' : SchemeSocket) k k' {A} n q n' q' (m : comp SchemeWrapper A) (w : SchemeWrapper (SK := SK')) r w'
    (v : SchemeWrapper (SK := SK)) :
  of_kind SK k → of_kind SK' k' → k ≠ k' → run_spares m w → m w = (r, w') → r ≠ Panic →
  part_ok n q (shared (scheme w)) v → n ≤ n' → q ≤ q' → part_ok n' q' (shared (scheme w')) v.
Proof.
  intros Hk Hk' Hne Hm E Hr Hv Hn Hq. apply (part_le n q); [|done..].
  apply (wp_eq _ _ _ _ _ E) in Hm. eapply part_live; [exact Hv|].
  intros h. apply (foreign_live SK SK' k k'); [done..|]. by destruct r.
Qed.

Lemma ends_ok_intro n q {A} (r : outcome A) s : (r ≠ Panic → smol_ok n q s) → ends_ok n q r s.
Proof. destruct r; cbn; auto. Qed.

Lemma on_ip_ok {A} n q n' q' (m : comp SchemeWrapper A) s :
  smol_ok n q s → n ≤ n' → q ≤ q' → run_ok n' q' m (load (net s) (ip_scheme s)) → wp (on_ip m) (ends_ok n' q') s.
Proof.
  intros (H1 & H2 & H3) Hn Hq Hm. unfold on_ip. wp_step. unfold wp.
  destruct (m (load (net s) (ip_scheme s))) as [r w'] eqn:E. apply ends_ok_intro. intros Hr.
  split_and!; [by eapply part_run| |]; cbn.
  - eapply (part_other _ _ KUdp KRaw); [apply udp_kind|apply ip_kind|done|by apply Hm|done..].
  - eapply (part_other _ _ KIcmp KRaw); [apply icmp_kind|apply ip_kind|done|by apply Hm|done..].
Qed.

Lemma on_udp_ok {A} n q n' q' (m : comp SchemeWrapper A) s :
  smol_ok n q s → n ≤ n' → q ≤ q' → run_ok n' q' m (load (net s) (udp_scheme s)) → wp (on_udp m) (ends_ok n' q') s.
Proof.
  intros (H1 & H2 & H3) Hn Hq Hm. unfold on_udp. wp_step. unfold wp.
  destruct (m (load (net s) (udp_scheme s))) as [r w'] eqn:E. apply ends_ok_intro. intros Hr.
  split_and!; [|by eapply part_run|]; cbn.
  - eapply (part_other _ _ KRaw KUdp); [apply ip_kind|apply udp_kind|done|by apply Hm|done..].
  - eapply (part_other _ _ KIcmp KUdp); [apply icmp_kind|apply udp_kind|done|by apply Hm|done..].
Qed.

Lemma on_icmp_ok {A} n q n' q' (m : comp SchemeWrapper A) s :
  smol_ok n q s → n ≤ n' → q ≤ q' → run_ok n' q' m (load (net s) (icmp_scheme s)) → wp (on_icmp m) (ends_ok n' q') s.
Proof.
  intros (H1 & H2 & H3) Hn Hq Hm. unfold on_icmp. wp_step. unfold wp.
  destruct (m (load (net s) (icmp_scheme s))) as [r w'] eqn:E. apply ends_ok_intro. intros Hr.
  split_and!; [| |by eapply part_run]; cbn.
  - eapply (part_other _ _ KRaw KIcmp); [apply ip_kind|apply icmp_kind|done|by apply Hm|done..].
  - eapply (part_other _ _ KUdp KIcmp); [apply udp_kind|apply icmp_kind|done|by apply Hm|done..].
Qed.

(** Whatever [tcp:] does, it spares the sockets of the other schemes *)
Lemma on_tcp_ok {A} n q (m : comp SchemeWrapper A) s :
  smol_ok n q s → run_spares m (load (net s) (tcp_scheme s)) → wp (on_tcp m) (ends_ok n q) s.
Proof.
  intros (H1 & H2 & H3) Hm. unfold on_tcp. wp_step. unfold wp.
  destruct (m (load (net s) (tcp_scheme s))) as [r w'] eqn:E. apply ends_ok_intro. intros Hr. split_and!; cbn.
  - eapply (part_other _ _ KRaw KTcp); [apply ip_kind|apply tcp_kind|done|exact Hm|done..].
  - eapply (part_other _ _ KUdp KTcp); [apply udp_kind|apply tcp_kind|done|exact Hm|done..].
  - eapply (part_other _ _ KIcmp KTcp); [apply icmp_kind|apply tcp_kind|done|exact Hm|done..].
Qed.
End Daemon.

(** The two entry points of a scheme are such runs *)
Section Runs.
Context {SA : SyscallAbi} {NA : NetAbi} {IP : IpTypes} {SM : Smoltcp} {HC : HandleChoice} {IO : SchemeIo}.
Context {SK : SchemeSocket} {SL : SocketLaws SK}.

Lemma event_spares clock rs stop w : run_spares (on_scheme_event clock rs stop) w.
Proof.
  eapply wp_mono; [apply (on_scheme_event_stays _ (spares_kept (scheme w)) (- Z.of_nat (length rs))); [by intros h a|ints]|].
  by intros [] w'.
Qed.

Lemma notify_spares clock w : run_spares (notify_sockets clock) w.
Proof.
  eapply wp_mono; [apply (notify_sockets_stays _ (spares_kept (scheme w)) (- waiting w)); [by intros h a|]|by intros [] w'].
  unfold waiting. ints.
Qed.

Context {NoAcc : NoAccept SK}.

Lemma event_run_ok n q clock rs stop sh w :
  part_ok n q sh w → n + Z.of_nat (length rs) ≤ usize_max →
  run_ok (n + Z.of_nat (length rs)) (q + Z.of_nat (length rs)) (on_scheme_event clock rs stop) (load sh w).
Proof.
  intros [Hi Hq] Hn. split.
  - by apply (on_scheme_event_stays _ inv_kept).
  - eapply wp_mono; [apply on_scheme_event_short|]. change (waiting (load sh w)) with (waiting w).
    intros [] w'; cbn; [lia|lia|done].
  - apply event_spares.
Qed.

Lemma notify_run_ok n q clock sh w :
  part_ok n q sh w → n + q ≤ usize_max → run_ok (n + q) q (notify_sockets clock) (load sh w).
Proof.
  intros [Hi Hq] Hn. split.
  - apply (stays_le _ inv_kept (n + waiting w)); [|lia]. apply (notify_sockets_stays _ inv_kept); [done|].
    unfold waiting in Hq. cbn. lia.
  - eapply wp_mono; [apply notify_sockets_short|]. change (waiting (load sh w)) with (waiting w).
    intros [] w'; cbn; [lia|lia|done].
  - apply notify_spares.
Qed.
End Runs.

Section Reach.
Context {SA : SyscallAbi} {NA : NetAbi} {IP : IpTypes} {W : Wire IP} {V4 : Ipv4Wire IP} {PB : PacketBuffers}
  {SM : Smoltcp} {HC : HandleChoice} {HL : SocketSetLaws smol_sets} {IO : SchemeIo} {ST : Stack}.

Lemma ends_ok_bind n q n' q' {A B} (m : comp Smolnetd A) (f : A → comp Smolnetd B) s :
  n ≤ n' → q ≤ q' → wp m (ends_ok n q) s → (∀ a s', smol_ok n q s' → wp (f a) (ends_ok n' q') s') →
  wp (m ≫= f) (ends_ok n' q') s.
Proof.
  intros Hn Hq Hm Hf. apply wp_bind. eapply wp_mono; [exact Hm|]. intros [a|e|] s'; cbn; [apply Hf| |done].
  intros (H1 & H2 & H3). split_and!; by eapply part_le.
Qed.

Lemma notify_all_ok n q clock s :
  smol_ok n q s → 0 ≤ q → n + 3 * q ≤ usize_max → wp (notify_all clock) (ends_ok (n + 3 * q) q) s.
Proof.
  intros Hs H0 Hn. unfold notify_all.
  apply (ends_ok_bind (n + q) q); [lia|lia| |].
  { apply (on_ip_ok n q); [done|lia|lia|]. apply notify_run_ok; [apply Hs|lia]. }
  intros _ s1 H1. apply (ends_ok_bind (n + q + q) q); [lia|lia| |].
  { apply (on_udp_ok (n + q) q); [done|lia|lia|]. apply notify_run_ok; [apply H1|lia]. }
  intros _ s2 H2. apply (ends_ok_bind (n + q + q) q); [lia|lia| |].
  { apply on_tcp_ok; [done|]. apply notify_spares. }
  intros _ s3 H3. replace (n + 3 * q) with (n + q + q + q) by lia.
  apply (on_icmp_ok (n + q + q) q); [done|lia|lia|]. apply notify_run_ok; [apply H3|lia].
Qed.

Lemma on_router_ok n q {A} (m : comp Router A) s : smol_ok n q s → wp (on_router m) (ends_ok n q) s.
Proof. intros Hs. unfold on_router. wp_step. unfold wp. by apply ends_ok_intro. Qed.

Context (Hstack : stack_ok).

Lemma run_stack_ok n q t s : smol_ok n q s → wp (run_stack t) (ends_ok n q) s.
Proof.
  intros (H1 & H2 & H3). unfold run_stack. apply wp_modify.
  pose proof (Hstack t (iface (net s)) (router_device s) (socket_set (net s))) as Hk.
  destruct (stack_poll t _) as [[i r] set]. cbn in Hk.
  split_and!; cbn; (eapply part_live; [done|]); intros h L; cbn.
  - apply (kind_live _ _ _ _ ip_kind) in L. apply (kind_live _ _ _ _ ip_kind). etrans; [exact (Hk h)|exact L].
  - apply (kind_live _ _ _ _ udp_kind) in L. apply (kind_live _ _ _ _ udp_kind). etrans; [exact (Hk h)|exact L].
  - apply (kind_live _ _ _ _ icmp_kind) in L. apply (kind_live _ _ _ _ icmp_kind). etrans; [exact (Hk h)|exact L].
Qed.

Lemma poll_loop_ok n q k instants s : smol_ok n q s → wp (poll_loop k instants) (ends_ok n q) s.
Proof.
  revert s. induction k as [|k IH]; intros s Hs; cbn [poll_loop]; [done|].
  apply (ends_ok_bind n q); [lia..|by apply on_router_ok|]. intros _ s1 H1.
  apply (ends_ok_bind n q); [lia..|by apply run_stack_ok|]. intros _ s2 H2.
  apply (ends_ok_bind n q); [lia..|by apply on_router_ok|]. intros _ s3 H3.
  apply wp_bind, wp_get. destruct (Router.can_recv _); [by apply IH|]. destruct (poll_delay _ _ _) as [d|]; [|done].
  case_bool_decide; [by apply IH|done].
Qed.

Lemma poll_ok n q clock instants s :
  smol_ok n q s → 0 ≤ q → n + 3 * q ≤ usize_max → wp (poll clock instants) (ends_ok (n + 3 * q) q) s.
Proof.
  intros Hs H0 Hn. unfold poll. apply (ends_ok_bind n q); [lia..|by apply poll_loop_ok|]. intros t s1 H1.
  apply (ends_ok_bind (n + 3 * q) q); [lia..|by apply notify_all_ok|]. done.
Qed.

Lemma schedule_same {S} rd wr timeout (s : S) : wp (schedule_time_event rd wr timeout) (λ _ s', s' = s) s.
Proof.
  unfold schedule_time_event, next_time_event, mul_i64, add_i64. apply wp_bind, wp_lift. destruct rd as [[n t]| |]; [|done..].
  case_bool_decide; [done|]. wp_go; try done. by destruct wr.
Qed.

Definition requests (e : Event) : list Incoming :=
  match e with Network | Time => [] | IpScheme rs | UdpScheme rs | TcpScheme rs | IcmpScheme rs => rs end.

Lemma on_event_ok n q a e s :
  let k := Z.of_nat (length (requests e)) in
  smol_ok n q s → 0 ≤ q → n + 6 * (q + k) ≤ usize_max → wp (on_event a e) (ends_ok (n + 6 * (q + k)) (q + k)) s.
Proof.
  intros k Hs H0 Hn.
  assert (∀ s' n' q', smol_ok n' q' s' → n' ≤ n + k → 0 ≤ q' ≤ q + k →
    wp (poll (clock a) (instants a);; mret tt) (ends_ok (n + 6 * (q + k)) (q + k)) s') as Hpoll.
  { intros s' n' q' H' Hn' Hq'. apply (ends_ok_bind (n + k + 3 * (q + k)) (q + k)); [lia..| |].
    - apply poll_ok; [|lia..]. destruct H' as (H1 & H2 & H3). split_and!; eapply part_le; (done || lia).
    - intros _ s'' (H1 & H2 & H3). split_and!; eapply part_le; (done || lia). }
  destruct e as [| |rs|rs|rs|rs]; cbn [on_event requests length] in *.
  - apply (Hpoll s n q); [done|lia..].
  - apply (ends_ok_bind (n + 3 * q) q); [lia..|apply poll_ok; [done|lia..]|]. intros t s1 H1.
    apply wp_bind. eapply wp_mono with (Q1 := λ r s', s' = s1).
    { apply schedule_same. }
    intros [t'|e|] s2 ->; [|destruct H1 as (?&?&?); split_and!; eapply part_le; (done || lia)|done].
    apply (ends_ok_bind (n + 3 * q + 3 * q) q); [lia..|apply poll_ok; [done|lia..]|].
    intros _ s3 (?&?&?). split_and!; eapply part_le; (done || lia).
  - apply (ends_ok_bind (n + k) (q + k)); [lia..| |intros _ s1 H1; apply (Hpoll s1 (n + k) (q + k)); [done|lia..]].
    apply (on_ip_ok n q); [done|lia..|]. apply event_run_ok; [apply Hs|lia].
  - apply (ends_ok_bind (n + k) (q + k)); [lia..| |intros _ s1 H1; apply (Hpoll s1 (n + k) (q + k)); [done|lia..]].
    apply (on_udp_ok n q); [done|lia..|]. apply event_run_ok; [apply Hs|lia].
  - apply (ends_ok_bind n q); [lia..| |intros _ s1 H1; apply (Hpoll s1 n q); [done|lia..]].
    apply on_tcp_ok; [done|apply event_spares].
  - apply (ends_ok_bind (n + k) (q + k)); [lia..| |intros _ s1 H1; apply (Hpoll s1 (n + k) (q + k)); [done|lia..]].
    apply (on_icmp_ok n q); [done|lia..|]. apply event_run_ok; [apply Hs|lia].
Qed.

(** Few enough open files, waiting requests and new requests *)
Definition few (x : Z) : Prop := x ≤ 2 ^ 59.

Definition part_few {SK : SchemeSocket} (w : SchemeWrapper) : Prop :=
  few (open_handles (scheme w)) ∧ few (waiting w).

Definition fits (e : Event) (s : Smolnetd) : Prop :=
  part_few (ip_scheme s) ∧ part_few (udp_scheme s) ∧ part_few (icmp_scheme s) ∧ few (Z.of_nat (length (requests e))).

(** The states of the daemon: it starts, and handles one event after the other.  A handler
    that fails is logged by the main loop, which goes on. *)
Inductive smol_reachable : Smolnetd → Prop :=
  | reach_new i routes devices s :
      smolnetd_new i routes devices tt = (Ok s, tt) → smol_reachable s
  | reach_event a e s r s' :
      smol_reachable s → fits e s → on_event a e s = (r, s') → r ≠ Panic → smol_reachable s'.

Definition all_ok (s : Smolnetd) : Prop :=
  scheme_ok (scheme (load (net s) (ip_scheme s))) ∧
  scheme_ok (scheme (load (net s) (udp_scheme s))) ∧
  scheme_ok (scheme (load (net s) (icmp_scheme s))).

Lemma smol_ok_all n q s : smol_ok n q s → all_ok s.
Proof. intros ([[? ?] ?] & [[? ?] ?] & [[? ?] ?]). by split_and!. Qed.

Lemma all_ok_few s e : all_ok s → fits e s → smol_ok (2 ^ 59) (2 ^ 59) s.
Proof. intros (H1 & H2 & H3) ([F1 G1] & [F2 G2] & [F3 G3] & _). split; [|split]; (split; [by split|done]). Qed.

Lemma wrapper_new_ok {SK : SchemeSocket} sh w : wrapper_new sh = Ok w → scheme_ok (scheme (load sh w)).
Proof.
  unfold wrapper_new, scheme_new. destruct new_scheme_data as [d| |]; [|done..].
  assert (scheme_ok (mk_socket_scheme hm_new ∅ sh d)) as H0.
  { split; [apply hm_new_wf| |]; cbn.
    - intros h. rewrite lookup_empty. unfold refs, holders, names. cbn. by rewrite fmap_empty, map_filter_empty, map_size_empty.
    - intros fd h. unfold names. cbn. by rewrite fmap_empty, lookup_empty. }
  unfold scheme_root. intros H. assert (wp (insert_handle SchemeRoot) (λ r s', r ≠ Panic → scheme_ok s' ∧ shared s' = sh)
    (mk_socket_scheme hm_new ∅ sh d)) as Hwp.
  { apply insert_handle_wp; cbn; [apply hm_new_wf|by vm_compute|]. intros next Hm _. destruct H0 as [H1 H2 H3].
    split; [|done]. split; [done| |].
    - intros h. rewrite (refs_insert (mk_socket_scheme hm_new ∅ sh d)) by apply hm_new_wf. apply H2.
    - intros fd h. unfold names. cbn. rewrite fmap_insert, lookup_insert_Some. intros [[_ ?]|[_ Hfd]]; [done|].
      rewrite fmap_empty, lookup_empty in Hfd. done. }
  unfold wp in Hwp. destruct (insert_handle SchemeRoot _) as [[] s']; [|done..]. injection H as <-. cbn.
  destruct Hwp as [Hok <-]; [done|]. by destruct s'.
Qed.

Lemma smolnetd_new_ok i routes devices s : smolnetd_new i routes devices tt = (Ok s, tt) → all_ok s.
Proof.
  unfold smolnetd_new. cbv zeta. set (sh := {| socket_set := ∅ |}).
  destruct (wrapper_new (SK := Ip.ip_socket) sh) as [w1| |] eqn:E1; [|done..].
  destruct (wrapper_new (SK := Udp.udp_socket) sh) as [w2| |] eqn:E2; [|done..].
  destruct (wrapper_new (SK := Tcp.tcp_socket) sh) as [w3| |] eqn:E3; [|done..].
  destruct (wrapper_new (SK := Icmp.icmp_socket) sh) as [w4| |] eqn:E4; [|done..].
  intros [= <-]. split_and!; by apply wrapper_new_ok.
Qed.

(** C16. In every state of the daemon, whatever its clients asked for, an open
    file of [ip:], [udp:] or [icmp:] has its socket in the set that the schemes share, of the
    right type, and the reference counts are the numbers of open files.  Nothing that happens
    in [tcp:] changes that. *)
Theorem netstack_sockets_kept s : smol_reachable s → all_ok s.
Proof.
  induction 1 as [i routes devices s E|a e s r s' _ IH Hf E Hr]; [by eapply smolnetd_new_ok|].
  assert (few (Z.of_nat (length (requests e)))) as Hk by apply Hf.
  pose proof (on_event_ok (2 ^ 59) (2 ^ 59) a e s (all_ok_few s e IH Hf)) as H. unfold few in Hk. cbv zeta in H.
  apply (wp_eq _ _ _ _ _ E) in H; [by destruct r; [eapply smol_ok_all..|]|lia|unfold usize_max; lia].
Qed.
End Reach.

Section WaitTheorem.
Context {SA : SyscallAbi} {NA : NetAbi} {SS : SocketSets} {IP : IpTypes} {SK : SchemeSocket} {IO : SchemeIo}.

End WaitTheorem.
