(* ===== verification/SmolnetdExamples.v ===== *)
(** * netstack: runs of the daemon

    A small implementation of the sockets of [smoltcp] that has the properties assumed of
    them, runs of the daemon over it, and a run in which [tcp:] brings the daemon down. *)

From S2P Require Import Prelude Abi SchemeUtils Netstack Link Router Sockets SocketsInv SocketKinds SocketKindsSpec Smolnetd SmolnetdInv.

(** ** Sockets *)

#[local] Existing Instance demo_ip.

(** The abbreviation of the address type of the examples *)
Abbreviation DemoIp := (IpAddress (IpTypes := demo_ip)).

Inductive demo_tcp :=
  | TIdle
  | TListen (e : IpListenEndpoint)
  | TActive (local remote : IpEndpoint) (rx : bytes).

Record demo_udp := mk_demo_udp { du_local : IpListenEndpoint; du_rx : list (bytes * IpEndpoint); du_cap : Z }.

Definition demo_ipv4 (a : Ipv4Address) : DemoIp := ((octet0 a * 256 + octet1 a) * 256 + octet2 a) * 256 + octet3 a.

Definition demo_smoltcp : Smoltcp := {|
  Ipv4 := demo_ipv4;
  as_ipv4 := λ a : DemoIp, Some (mk_ipv4 (a `div` 16777216) ((a `div` 65536) `mod` 256) ((a `div` 256) `mod` 256) (a `mod` 256));
  is_unspecified := λ a : DemoIp, a =? 0;
  addr_from_str := λ s, demo_ipv4 <$> parse_ipv4 s;
  is_specified := λ e, match le_addr e with Some _ => negb (le_port e =? 0) | None => false end;
  show_addr := λ a : DemoIp, pretty a;
  show_endpoint := λ e, (pretty (ep_addr e : Z) ++ ":" ++ pretty (ep_port e))%string;
  show_listen := λ e, (pretty (default 0 (le_addr e) : Z) ++ ":" ++ pretty (le_port e))%string;
  NetIface := unit;
  UdpSocket := demo_udp;
  udp_new := λ _ cap, mk_demo_udp (mk_listen None 0) [] cap;
  udp_rx := du_rx;
  udp_can_send := λ _, true;
  udp_can_recv := λ x, bool_decide (du_rx x ≠ []);
  udp_peek := λ x, snd <$> head (du_rx x);
  udp_recv := λ x, {| x with du_rx := tail (du_rx x) |};
  udp_recv_slice := λ n x,
    match du_rx x with
    | [] => (None, x)
    | (b, e) :: rx => (Some (take n b, e), {| x with du_rx := rx |})
    end;
  udp_send_slice := λ b _ x, if bool_decide (Z.of_nat (length b) ≤ du_cap x) then Some x else None;
  udp_bind := λ e x, if le_port e =? 0 then None else Some {| x with du_local := e |};
  udp_endpoint := du_local;
  udp_hop_limit := λ _, None;
  udp_set_hop_limit := λ _ x, x;
  udp_recv_capacity := du_cap;
  udp_send_capacity := du_cap;
  TcpSocket := demo_tcp;
  tcp_new := λ _ _, TIdle;
  tcp_can_send := λ x, match x with TActive _ _ _ => true | _ => false end;
  tcp_can_recv := λ x, match x with TActive _ _ (_ :: _) => true | _ => false end;
  tcp_may_recv := λ x, match x with TActive _ _ _ => true | _ => false end;
  tcp_is_active := λ x, match x with TActive _ _ _ => true | _ => false end;
  tcp_local_endpoint := λ x, match x with TActive l _ _ => Some l | _ => None end;
  tcp_remote_endpoint := λ x, match x with TActive _ r _ => Some r | _ => None end;
  tcp_listen := λ e x, if le_port e =? 0 then None else Some (TListen e);
  tcp_connect := λ i r l x, Some (TActive (mk_endpoint (default (0 : DemoIp) (le_addr l)) (le_port l)) r [], i);
  tcp_send_slice := λ b x, Some (Nat.min 4 (length b), x);
  tcp_recv_slice := λ n x,
    match x with TActive l r rx => Some (take n rx, TActive l r (drop n rx)) | _ => None end;
  tcp_close := λ _, TIdle;
  tcp_hop_limit := λ _, None;
  tcp_set_hop_limit := λ _ x, x;
  tcp_recv_capacity := λ _, 65535;
  tcp_send_capacity := λ _, 65535;
  IcmpSocket := list bytes;
  icmp_new := λ _ _, [];
  icmp_rx := λ x, x;
  icmp_can_send := λ _, true;
  icmp_can_recv := λ x, bool_decide (x ≠ []);
  icmp_recv := λ x, match x with p :: x => Some (p, x) | [] => None end;
  icmp_send := λ _ _ x, Some x;
  icmp_bind_ident := λ _ x, Some x;
  icmp_bind_udp := λ _ x, Some x;
  icmp_hop_limit := λ _, None;
  icmp_set_hop_limit := λ _ x, x;
  icmp_emit_echo := λ id seq d, [8; id; seq] ++ d;
  icmp_parse := λ p, match p with 0 :: _ :: seq :: d => Some (EchoReply seq d) | _ => Some OtherRepr end;
  RawSocket := Z * list bytes;
  raw_new := λ proto _ _, (proto, []);
  raw_rx := λ x, x.2;
  raw_can_send := λ _, true;
  raw_can_recv := λ x, bool_decide (x.2 ≠ []);
  raw_recv_slice := λ n x, match x.2 with p :: rx => (Some (take n p), (x.1, rx)) | [] => (None, x) end;
  raw_send_slice := λ _ x, Some x;
  raw_protocol := λ x, pretty x.1;
|}.
#[local] Existing Instance demo_smoltcp.

Lemma demo_smoltcp_laws : SmoltcpLaws demo_smoltcp.
Proof.
  split; try done.
  - by intros [].
  - by intros [|p x] ? ? [= -> ->].
  - by intros [[a|] port].
Qed.

(** The handle behind the greatest one *)
Definition demo_choice : HandleChoice := {| choose_handle := λ set, map_fold (λ k _ m, Z.max (k + 1) m) 0 set |}.
#[local] Existing Instance demo_choice.

Lemma demo_choice_fresh : SocketSetLaws smol_sets.
Proof.
  split. intros set. cbn.
  enough (∀ k, is_Some (set !! k) → k < map_fold (λ k _ m, Z.max (k + 1) m) 0 set) as H.
  { apply eq_None_not_Some. intros Hs. exact (Z.lt_irrefl _ (H _ Hs)). }
  apply (map_fold_weak_ind (λ r m, ∀ k, is_Some (m !! k) → k < r)).
  - intros k [? Hk]. by rewrite lookup_empty in Hk.
  - intros i x m r _ IH k [y Hk]. apply lookup_insert_Some in Hk as [[-> _]|[_ Hk]]; [lia|].
    assert (k < r) by (apply IH; by eexists). lia.
Qed.
#[local] Existing Instance demo_choice_fresh.

(** ** The daemon *)

#[local] Existing Instance redox_abi.
#[local] Existing Instance demo_wire.
#[local] Existing Instance demo_v4.
#[local] Existing Instance demo_pb.

Definition demo_net_abi : NetAbi := {|
  net_call_of_raw := λ x,
    if x =? 3 then Some NcSetSockOpt else if x =? 4 then Some NcGetSockOpt else if x =? 8 then Some NcRecvMsg
    else if x =? 9 then Some NcShutdown else if x <? 16 then Some NcOther else None;
  msg_dontwait := 64;
  timespec_size := 12;
  timespec_bytes := λ t, le_bytes 8 (tv_sec t) ++ le_bytes 4 (tv_nsec t);
  timespec_of_bytes := λ b, mk_timespec (le_val (take 8 b)) (le_val (drop 8 b));
|}.
#[local] Existing Instance demo_net_abi.

Definition demo_io : SchemeIo := {| is_explicitly_nonblock := λ _, false; write_error := λ _, None |}.
#[local] Existing Instance demo_io.

(** At the time 7 every listening socket gets a connection with some data *)
Definition connect (x : SmolSocket) : SmolSocket :=
  match x with
  | STcp (TListen e) =>
     STcp (TActive (mk_endpoint (0x0A000002 : DemoIp) (le_port e)) (mk_endpoint (0x0A000007 : DemoIp) 1234) [1; 2; 3; 4; 5])
  | _ => x
  end.

Definition demo_stack : Stack := {|
  stack_poll := λ t st, if t =? 7 then (st.1, connect <$> st.2) else st;
  poll_delay := λ _ _ _, None;
|}.
#[local] Existing Instance demo_stack.

Lemma demo_stack_ok : stack_ok.
Proof.
  intros t i r set h. cbn. destruct (t =? 7); [|done]. cbn. rewrite lookup_fmap.
  destruct (set !! h) as [[[| |]| | |]|]; done.
Qed.

Definition ex_answers : Answers :=
  mk_answers (Ok (mk_timespec 5 0)) (λ _, 7) (Some EAGAIN) (Ok (12%nat, mk_timespec 5 0)) (Ok tt).

Definition ex_root : CallerCtx := mk_caller 0 0.

(** None of the events panics, and all of them fit *)
Definition ex_small {SK : SchemeSocket} (w : SchemeWrapper) : bool :=
  bool_decide (few (open_handles (scheme w))) && bool_decide (few (waiting w)).

Definition ex_fits (e : Event) (s : Smolnetd) : bool :=
  ex_small (ip_scheme s) && ex_small (udp_scheme s) && ex_small (icmp_scheme s) &&
  bool_decide (few (Z.of_nat (length (requests e)))).

Fixpoint ex_go (es : list Event) (s : Smolnetd) : option Smolnetd :=
  match es with
  | [] => Some s
  | e :: es =>
     if ex_fits e s then match on_event ex_answers e s with (Panic, _) => None | (_, s') => ex_go es s' end
     else None
  end.

Definition ex_iface : NetIface (Smoltcp := demo_smoltcp) := tt.

(** The state after some events *)
Definition ex_run (es : list Event) : option Smolnetd :=
  match smolnetd_new ex_iface [] [] tt with (Ok s, tt) => ex_go es s | _ => None end.

Lemma ex_go_reachable es s s' : smol_reachable s → ex_go es s = Some s' → smol_reachable s'.
Proof.
  revert s. induction es as [|e es IH]; intros s Hs; cbn [ex_go]; [by intros [= <-]|].
  destruct (ex_fits e s) eqn:Hf; [|done].
  assert (fits e s) as Hfits.
  { unfold ex_fits, ex_small in Hf. rewrite !andb_true_iff, !bool_decide_eq_true in Hf. unfold fits, part_few. tauto. }
  destruct (on_event ex_answers e s) as [r s1] eqn:E. intros Hgo.
  assert (r ≠ Panic ∧ ex_go es s1 = Some s') as [Hr Hgo'] by (by destruct r).
  apply (IH s1); [|done]. by eapply reach_event.
Qed.

Lemma smol_run_reachable es s : ex_run es = Some s → smol_reachable s.
Proof.
  unfold ex_run. destruct (smolnetd_new ex_iface [] [] tt) as [[s0| |] []] eqn:E; [|done..]. apply ex_go_reachable. by eapply reach_new.
Qed.

Definition ex_call (id : Z) (op : Op) : Incoming := InCall id op ex_root.

(** A [udp:] socket with two files, an echo socket, a raw socket; one file is closed again *)
Definition ex_opens : list Event :=
  [UdpScheme [ex_call 1 (OpOpenat 1 "10.0.0.7:53/0.0.0.0:5353" 0); ex_call 2 (OpDup 2 (str_bytes "10.0.0.8:53")); ex_call 3 (OpRead 2 [0; 0])];
   IcmpScheme [ex_call 4 (OpOpenat 1 "echo/10.0.0.7" 0)];
   IpScheme [ex_call 5 (OpOpenat 1 "11" 0)];
   Time; UdpScheme [InOnClose 2]; Network].

Lemma netstack_sockets_kept_witness :
  match ex_run ex_opens with Some s => all_ok s | None => False end.
Proof.
  assert (match ex_run ex_opens with Some _ => true | None => false end = true) as H by (vm_compute; reflexivity).
  destruct (ex_run ex_opens) as [s|] eqn:E; [|discriminate H].
  exact (netstack_sockets_kept demo_stack_ok s (smol_run_reachable _ _ E)).
Defined.

(** ** Single operations *)

Definition ex_peer : IpListenEndpoint := mk_listen (Some (0x0A000007 : DemoIp)) 53.
Definition ex_other : IpEndpoint := mk_endpoint (0x0A000009 : DemoIp) 53.
Definition ex_from : IpEndpoint := mk_endpoint (0x0A000007 : DemoIp) 53.
Definition ex_udp : UdpSocket := mk_demo_udp (mk_listen None 5353) [([1], ex_other); ([2], ex_from); ([3], ex_other)] 100.

Lemma udp_can_recv_filters_witness :
  ∃ x' dropped, Udp.can_recv ex_peer ex_udp = (Ok true, x') ∧
    udp_rx ex_udp = dropped ++ udp_rx x' ∧ Forall (λ d, wanted ex_peer d = false) dropped ∧
    (∀ d, head (udp_rx x') = Some d → wanted ex_peer d = true).
Proof. exact (udp_can_recv_filters (SML := demo_smoltcp_laws) ex_peer ex_udp eq_refl). Defined.

Definition ex_icmp_file : SocketFile Icmp.IcmpData := new_with_data 0 (Icmp.mk_icmp_data Icmp.Echo (0x0A000007 : DemoIp) 1).
Definition ex_icmp : IcmpSocket := [[3; 1]; [0; 1; 258; 70; 71]; [3; 2]].

Lemma icmp_read_reply_witness :
  ∃ r x', Icmp.read_buf [0; 0; 0; 0; 9] (ex_icmp, ex_icmp_file) = (r, (x', ex_icmp_file)) ∧
    icmp_rx x' = [[3; 2]] ∧ r = Ok (4, [1; 2; 70; 71; 9]).
Proof.
  refine (icmp_read_reply (SML := demo_smoltcp_laws) [0; 0; 0; 0; 9] ex_icmp ex_icmp_file eq_refl _).
  repeat constructor; eexists; reflexivity.
Defined.

Definition ex_active : TcpSocket := TActive ex_from ex_other [1; 2; 3].
Definition ex_tcp_file : SocketFile (option IpListenEndpoint) := new_with_data 0 None.

(** Six bytes are written, four are taken. *)
Lemma tcp_write_overreports_witness :
  tcp_send_slice [1; 2; 3; 4; 5; 6] ex_active = Some (4%nat, ex_active) ∧
  Tcp.write_buf [1; 2; 3; 4; 5; 6] (ex_active, ex_tcp_file) = (Ok 6, (ex_active, ex_tcp_file)).
Proof.
  split; [reflexivity|].
  exact (tcp_write_overreports [1; 2; 3; 4; 5; 6] ex_active ex_tcp_file 4 ex_active eq_refl eq_refl eq_refl eq_refl).
Defined.

(** A client that asks for three bytes and no address *)
Lemma tcp_recvmsg_panics_witness :
  (Tcp.handle_recvmsg (le_bytes 8 0 ++ le_bytes 8 3 ++ le_bytes 8 0 ++ [0; 0; 0]) 0 (ex_active, FSocket ex_tcp_file)).1 = Panic.
Proof.
  apply (tcp_recvmsg_panics ex_active ex_tcp_file _ 3 0); [reflexivity|reflexivity|lia|reflexivity|unfold usize_max; lia|reflexivity..].
Defined.

(** ** Accepting connections *)

(** A listening socket on port 8080, and its first connection *)
Definition ex_listen : list Event := [TcpScheme [ex_call 1 (OpOpenat 1 "/0.0.0.0:8080" 0)]].

(** The listening file, its connection, then: the connection is closed; or the listening file
    is duplicated, and the copy closed *)
Definition ex_accept : list Event := ex_listen ++ [TcpScheme [ex_call 2 (OpDup 2 (str_bytes "listen"))]].
Definition ex_hangup : list Event := ex_accept ++ [TcpScheme [InOnClose 3]].
Definition ex_copy : list Event := ex_accept ++ [TcpScheme [ex_call 3 (OpDup 2 (str_bytes "copy"))]].

Definition ex_tcp (es : list Event) : option (list (Z * Z) * list Z * list (Z * (errno + Z))) :=
  (λ s, (map_to_list (ref_counts (scheme (tcp_scheme s))), (map_to_list (socket_set (net s))).*1,
         (λ '(id, r), (id, match r with inl e => inl e | inr (n, _) => inr n end)) <$> sent (tcp_scheme s))) <$> ex_run es.

Definition panics {A} (r : outcome A) : bool := match r with Panic => true | _ => false end.

(** A client that accepts a connection on [tcp:], duplicates the
    listening file and closes the copy stops the network stack: the count of the new
    listening socket starts at the copy, so closing the copy removes the socket of the file
    that is still open, and looking at its events panics. *)
Theorem tcp_copy_panics :
  match ex_run ex_copy with
  | Some s => panics (on_event ex_answers (TcpScheme [InOnClose 4]) s).1
  | None => false
  end = true.
Proof. vm_compute. reflexivity. Qed.

(** The socket of a connection that was accepted and closed stays in the set for ever, with
    a count of one: the handle 0, which no file names any more. *)
Theorem tcp_connection_leaks :
  ex_tcp ex_hangup = Some ([(0, 1)], [1; 0], [(1, inr 2); (2, inr 3)]) ∧
  match ex_run ex_hangup with
  | Some s => bool_decide (refs (scheme (tcp_scheme s)) 0 = 0%nat)
  | None => false
  end = true.
Proof. split; vm_compute; reflexivity. Qed.

Definition ex_listening : SocketFile (DataT (SchemeSocket := Tcp.tcp_socket)) := new_with_data 0 (Some (mk_listen None 8080)).

Definition ex_tcp_scheme : SocketScheme (SK := Tcp.tcp_socket) :=
  mk_socket_scheme (SK := Tcp.tcp_socket) (mk_handle_map {[ 2 := File (FSocket ex_listening) ]} 3) {[ 0 := 1 ]}
    {| socket_set := {[ 0 := STcp ex_active : AnySocket ]}; iface := ex_iface : Iface; Sockets.route_table := [] |}
    (mk_port_set 49152 16384 0 {[ 8080 := 1 ]} : SchemeDataT (SchemeSocket := Tcp.tcp_socket)).

Lemma tcp_accept_counts_witness :
  match dup 2 (str_bytes "listen") ex_tcp_scheme with
  | (Ok id, s') => socket_of s' id = Some 0 ∧ ref_counts s' !! 0 = Some 2 ∧ socket_of s' 2 = Some 1 ∧ ref_counts s' !! 1 = None
  | _ => False
  end.
Proof.
  destruct (dup 2 (str_bytes "listen") ex_tcp_scheme) as [[id| |] s'] eqn:E;
    [|assert ((dup 2 (str_bytes "listen") ex_tcp_scheme).1 = Ok 3) as H by (vm_compute; reflexivity); rewrite E in H; discriminate H..].
  destruct (tcp_accept_counts 2 ex_listening (mk_listen None 8080) ex_tcp_scheme id s') as (H1 & H2 & H3 & H4); [|reflexivity|reflexivity|exact E|].
  - split; [reflexivity|split; discriminate|]. apply map_Forall_singleton. split; discriminate.
  - split; [exact H1|]. split; [exact H2|]. split; [exact H3|]. apply H4. discriminate.
Defined.
