(* ===== verification/NetDriver.v ===== *)
(** * driver-network

    Models [drivers/net/driver-network/src/lib.rs], the scheme every network driver
    serves: raw packets through [Data] handles, the hardware address through [Mac].
    The driver itself is an instance of the class [NetworkAdapter], the trait of the same
    name.  A read that finds no packet is kept in [blocked] and tried again by the next
    [tick]; a cancellation takes it out.

    A request is the operation with its request id; the requests the socket has when
    [tick] runs are a list.  Writing a response to the socket succeeds: the responses are
    the list [out].  What [Op::is_explicitly_nonblock] of the [redox_scheme] crate says of
    an operation is a parameter.  The operations that the scheme leaves to the crate's
    defaults are not requests here.

    The contract of an adapter is [AdapterLaws]: a queue of packets, of which a read takes
    the first. *)

From S2P Require Import Prelude Abi SchemeUtils.

(** [trait NetworkAdapter]; a read gives the count and the buffer *)
Class NetworkAdapter (A : Type) := {
  mac_address : comp A bytes;
  available_for_read : comp A Z;
  read_packet : bytes → comp A (option Z * bytes);
  write_packet : bytes → comp A Z;
}.

Inductive Handle := Data | Mac | SchemeRoot.

Inductive Op :=
  | OpOpenat (fd : Z) (path : string) (uid : Z)
  | OpRead (id : Z) (buf : bytes) (offset : Z) (fcntl_flags : Z)
  | OpWrite (id : Z) (buf : bytes)
  | OpFevent (id : Z)
  | OpFpath (id : Z) (buf : bytes)
  | OpFstat (id : Z)
  | OpFsync (id : Z).

Inductive Reply :=
  | Opened (id : Z) (positioned : bool)
  | ReadDone (n : Z) (buf : bytes)
  | Written (n : Z)
  | Events (flags : Z)
  | Path (n : Z) (buf : bytes)
  | Stated (st_mode : Z) (st_size : option Z)
  | Synced.

(** [RequestKind]: a call whose operation the crate knows or does not, a close, a
    cancellation, or anything else *)
Inductive Request :=
  | Call (req_id : Z) (op : option Op)
  | OnClose (id : Z)
  | Cancellation (req_id : Z)
  | OtherKind.

Inductive Response :=
  | Answer (req_id : Z) (r : errno + Reply)
  | PostFevent (id : Z) (flags : Z).

Section Driver.
Context {abi : SyscallAbi} {A : Type} {NA : NetworkAdapter A}.
Context (is_explicitly_nonblock : Op → bool).

(** [NetworkSchemeInner] *)
Record Inner := mk_inner {
  adapter : A;
  scheme_name : string;
  handles : HandleMap Handle;
}.

(** [NetworkScheme] *)
Record NetworkScheme := mk_network_scheme {
  scheme : Inner;
  blocked : list (Z * Op);
  out : list Response;
}.

Definition set_adapter a (s : Inner) := mk_inner a (scheme_name s) (handles s).
Definition set_handles h (s : Inner) := mk_inner (adapter s) (scheme_name s) h.
Definition on_adapter {B} (m : comp A B) : comp Inner B := zoom adapter set_adapter m.
Definition on_handles {B} (m : comp (HandleMap Handle) B) : comp Inner B := zoom handles set_handles m.

Definition set_scheme i (s : NetworkScheme) := mk_network_scheme i (blocked s) (out s).
Definition set_blocked l (s : NetworkScheme) := mk_network_scheme (scheme s) l (out s).

(** [socket.write_response] *)
Definition write_response (r : Response) : comp NetworkScheme unit :=
  modify (λ s, mk_network_scheme (scheme s) (blocked s) (out s ++ [r])).

(** *** [NetworkSchemeInner] *)

Definition scheme_root : comp Inner Z := on_handles (hm_insert SchemeRoot).

Definition handle_of (id : Z) : comp Inner Handle :=
  s ← get;
  lift (hm_get (handles s) id).

Definition openat (fd : Z) (path : string) (uid : Z) : comp Inner (Z * bool) :=
  h ← handle_of fd;
  match h with
  | SchemeRoot =>
     if bool_decide (uid ≠ 0) then fail EACCES else
     '(handle, positioned) ←
       (if bool_decide (path = EmptyString) then mret (Data, false)
        else if bool_decide (path = "mac"%string) then mret (Mac, true)
        else fail EINVAL);
     id ← on_handles (hm_insert handle);
     mret (id, positioned)
  | _ => fail EACCES
  end.

Definition read (id : Z) (buf : bytes) (offset fcntl_flags : Z) : comp Inner (Z * bytes) :=
  h ← handle_of id;
  match h with
  | Mac =>
     mac ← on_adapter mac_address;
     if bool_decide (Z.of_nat (length mac) < offset) then panic else
     let data := drop (Z.to_nat offset) mac in
     let i := Nat.min (length buf) (length data) in
     mret (Z.of_nat i, copy_at buf 0 (take i data))
  | Data =>
     '(count, buf) ← on_adapter (read_packet buf);
     match count with
     | Some count => mret (count, buf)
     | None =>
        if bool_decide (Z.land fcntl_flags O_NONBLOCK ≠ 0) then fail EAGAIN else fail EWOULDBLOCK
     end
  | SchemeRoot => fail EBADF
  end.

Definition write (id : Z) (buf : bytes) : comp Inner Z :=
  h ← handle_of id;
  match h with
  | Data => on_adapter (write_packet buf)
  | Mac => fail EINVAL
  | SchemeRoot => fail EBADF
  end.

Definition fevent (id : Z) : comp Inner Z := handle_of id;; mret 0.

Definition fpath (id : Z) (buf : bytes) : comp Inner (Z * bytes) := λ s,
  let body : comp FpathWriter unit :=
    h ← lift (hm_get (handles s) id);
    push_str (str_bytes match h with Mac => "mac" | _ => EmptyString end) in
  let '(r, buf) := fpath_with buf (scheme_name s) body in
  (match r with Ok n => Ok (Z.of_nat n, buf) | Err e => Err e | Panic => Panic end, s).

(** [fstat]: the mode, and the size where it is set *)
Definition fstat (id : Z) : comp Inner (Z * option Z) :=
  h ← handle_of id;
  match h with
  | Data => mret (Z.lor MODE_FILE 448, None)
  | Mac => mret (Z.lor MODE_FILE 256, Some 6)
  | SchemeRoot => fail EBADF
  end.

Definition fsync (id : Z) : comp Inner unit := handle_of id;; mret tt.

Definition on_close (id : Z) : comp Inner unit := on_handles (hm_remove id);; mret tt.

(** [Op::handle_sync_dont_consume]: the call of the operation *)
Definition handle_op (op : Op) : comp Inner Reply :=
  match op with
  | OpOpenat fd path uid => '(id, p) ← openat fd path uid; mret (Opened id p)
  | OpRead id buf offset flags => '(n, buf) ← read id buf offset flags; mret (ReadDone n buf)
  | OpWrite id buf => n ← write id buf; mret (Written n)
  | OpFevent id => f ← fevent id; mret (Events f)
  | OpFpath id buf => '(n, buf) ← fpath id buf; mret (Path n buf)
  | OpFstat id => '(m, sz) ← fstat id; mret (Stated m sz)
  | OpFsync id => fsync id;; mret Synced
  end.

Definition on_scheme {B} (m : comp Inner B) : comp NetworkScheme B := zoom scheme set_scheme m.

(** Whether the request has to wait *)
Definition would_block (op : Op) (r : errno + Reply) : bool :=
  match r with inl EWOULDBLOCK => negb (is_explicitly_nonblock op) | _ => false end.

(** *** [NetworkScheme::tick] *)

(** The loop over the blocked requests: those before [i] have been tried and wait on.
    Each turn answers one of the rest or passes it, so their number bounds the turns. *)
Fixpoint retry_blocked (turns : nat) (i : nat) : comp NetworkScheme unit :=
  s ← get;
  match blocked s !! i with
  | None => mret tt
  | Some (req_id, op) =>
     match turns with
     | O => panic
     | S turns =>
        res ← result (on_scheme (handle_op op));
        if would_block op res then retry_blocked turns (S i)
        else
          modify (λ s, set_blocked (delete i (blocked s)) s);;
          write_response (Answer req_id res);;
          retry_blocked turns i
     end
  end.

(** The position of a blocked request *)
Fixpoint position (req_id : Z) (l : list (Z * Op)) : option nat :=
  match l with
  | [] => None
  | (id, _) :: l => if bool_decide (id = req_id) then Some 0%nat else S <$> position req_id l
  end.

Definition handle_request (r : Request) : comp NetworkScheme unit :=
  match r with
  | OnClose id => on_scheme (on_close id)
  | Cancellation req_id =>
     s ← get;
     match position req_id (blocked s) with
     | Some i =>
        modify (set_blocked (delete i (blocked s)));;
        write_response (Answer req_id (inl EINTR))
     | None => mret tt
     end
  | OtherKind => mret tt
  | Call req_id None => write_response (Answer req_id (inl EOPNOTSUPP))
  | Call req_id (Some op) =>
     res ← result (on_scheme (handle_op op));
     if would_block op res then modify (λ s, set_blocked (blocked s ++ [(req_id, op)]) s)
     else write_response (Answer req_id res)
  end.

Definition notify : comp NetworkScheme unit :=
  available ← on_scheme (on_adapter available_for_read);
  if bool_decide (0 < available) then
    s ← get;
    for_each (λ p, write_response (PostFevent p.1 EVENT_READ)) (btree_iter (hm_handles (handles (scheme s))))
  else mret tt.

Definition tick (requests : list Request) : comp NetworkScheme unit :=
  s ← get;
  retry_blocked (length (blocked s)) 0;;
  for_each handle_request requests;;
  notify.

(** [NetworkScheme::new], with the scheme root that registration asks for *)
Definition network_scheme_new (a : A) (name : string) : outcome NetworkScheme :=
  if bool_decide (String.prefix "network" name = true) then
    match scheme_root (mk_inner a name hm_new) with
    | (Ok _, i) => Ok (mk_network_scheme i [] [])
    | _ => Panic
    end
  else Panic.
End Driver.
