(* ===== verification/NetDriverSpec.v ===== *)
(** * driver-network: what a tick does

    Over any adapter that satisfies [AdapterLaws], a tick answers every request once or
    keeps it, hands the queued packets to readers in the order of arrival, one reader
    each, and leaves no reader waiting while there is a packet. *)

From S2P Require Import Prelude Abi SchemeUtils NetDriver.

(** The contract of an adapter: when it is [ready] its state stands for a queue of
    received packets, [pending].  Reading takes the first; nothing else changes the
    queue. *)
Class AdapterView (A : Type) := {
  ready : A → Prop;
  pending : A → list bytes;
}.

Class AdapterLaws (A : Type) {NA : NetworkAdapter A} {view : AdapterView A} : Prop := {
  mac_law a : ready a → ∃ m a', mac_address a = (Ok m, a') ∧ length m = 6%nat ∧ ready a' ∧
    pending a' = pending a;
  avail_law a : ready a → ∃ n a', available_for_read a = (Ok n, a') ∧ ready a' ∧
    pending a' = pending a;
  read_law a buf : ready a → ∃ a',
    read_packet buf a = (Ok match pending a with
      | [] => (None, buf)
      | p :: _ => let n := Nat.min (length buf) (length p) in
                  (Some (Z.of_nat n), copy_at buf 0 (take n p))
      end, a') ∧ ready a' ∧ pending a' = tail (pending a);
  write_law a buf : ready a → ∃ r a', write_packet buf a = (r, a') ∧ r ≠ Panic ∧
    r ≠ Err EWOULDBLOCK ∧ ready a' ∧ pending a' = pending a;
}.

(** The ids of the requests answered *)
Definition answered (l : list Response) : list Z :=
  omap (λ r, match r with Answer id _ => Some id | PostFevent _ _ => None end) l.

(** The ids of the calls among the requests *)
Definition call_ids (l : list Request) : list Z :=
  omap (λ r, match r with Call id _ => Some id | _ => None end) l.

Definition request_ops (l : list Request) : list Op :=
  omap (λ r, match r with Call _ op => op | _ => None end) l.

(** The answer carries the packet, as much of it as the buffer takes. *)
Definition delivers (p : bytes) (r : Response) : Prop :=
  ∃ id buf, let n := Nat.min (length buf) (length p) in
    r = Answer id (inr (ReadDone (Z.of_nat n) (copy_at buf 0 (take n p)))).

(** Each packet is in an answer of its own, in order. *)
Definition served (taken : list bytes) (new : list Response) : Prop :=
  ∃ rs, rs `sublist_of` new ∧ Forall2 delivers taken rs.

Lemma served_nil new : served [] new.
Proof. exists []. split; [apply sublist_nil_l|constructor]. Qed.

Lemma served_app t1 t2 n1 n2 : served t1 n1 → served t2 n2 → served (t1 ++ t2) (n1 ++ n2).
Proof.
  intros (r1 & Hs1 & H1) (r2 & Hs2 & H2). exists (r1 ++ r2).
  split; [by apply sublist_app|by apply Forall2_app].
Qed.

Section Spec.
Context {abi : SyscallAbi} {A : Type} {NA : NetworkAdapter A} {view : AdapterView A} {laws : AdapterLaws A}.
Context (nonblock : Op → bool).
Implicit Types (s : NetworkScheme (A:=A)) (i : Inner (A:=A)).

Definition inner_ok i : Prop := ready (adapter i) ∧ hm_wf (handles i).
Definition queue s : list bytes := pending (adapter (scheme s)).
Definition table i : gmap Z Handle := hm_handles (handles i).

(** A read of the hardware address from past its end *)
Definition overrun (op : Op) i : Prop :=
  ∃ id buf off fl, op = OpRead id buf off fl ∧ 6 < off ∧ table i !! id = Some Mac.

(** The effect of an operation on the queue *)
Definition effect (r : outcome Reply) (q q' : list bytes) : Prop :=
  q' = q ∨ ∃ p buf, q = p :: q' ∧ let n := Nat.min (length buf) (length p) in
    r = Ok (ReadDone (Z.of_nat n) (copy_at buf 0 (take n p))).

Record op_post (op : Op) i (r : outcome Reply) i' : Prop := {
  op_ok : inner_ok i';
  op_size : (size (table i') ≤ size (table i) + 1)%nat;
  op_effect : effect r (pending (adapter i)) (pending (adapter i'));
  op_waits : r = Err EWOULDBLOCK → pending (adapter i') = [];
}.

Definition op_result (op : Op) i (r : outcome Reply) i' : Prop :=
  match r with Panic => overrun op i' | _ => op_post op i r i' end.

Lemma op_same op i r : inner_ok i → r ≠ Panic → r ≠ Err EWOULDBLOCK → op_result op i r i.
Proof.
  intros Hi Hp Hw. destruct r; cbn; try done; split; try done; try lia; by left.
Qed.

Lemma op_adapter op i a' r :
  inner_ok i → ready a' → effect r (pending (adapter i)) (pending a') →
  (r = Err EWOULDBLOCK → pending a' = []) → op_post op i r (set_adapter a' i).
Proof. intros [_ Hwf] Hr He Hw. split; [done| |done|done]. change (table _) with (table i). lia. Qed.

Lemma read_result id buf off fl i :
  inner_ok i → wp (handle_op (OpRead id buf off fl)) (op_result (OpRead id buf off fl) i) i.
Proof.
  intros Hi. pose proof Hi as [Hr Hwf]. cbn [handle_op]. unfold read, handle_of, hm_get. do 5 wp_step.
  destruct (hm_handles (handles i) !! id) as [[]|] eqn:Hh.
  - unfold on_adapter. do 2 wp_step. destruct (read_law (adapter i) buf Hr) as (a' & Hrun & Hr' & Hq).
    unfold wp at 1. rewrite Hrun. cbn [fst snd].
    destruct (pending (adapter i)) as [|p ps] eqn:Hp; cbn in Hq.
    + case_bool_decide; wp_step; apply op_adapter; rewrite ?Hp; auto; by left.
    + wp_go. apply op_adapter; auto; [|done]. right. rewrite Hp, Hq. by exists p, buf.
  - unfold on_adapter. do 2 wp_step. destruct (mac_law (adapter i) Hr) as (m & a' & Hrun & Hm & Hr' & Hq).
    unfold wp at 1. rewrite Hrun. cbn [fst snd]. case_bool_decide; wp_go.
    + exists id, buf, off, fl. split_and!; [done|lia|done].
    + apply op_adapter; auto; [by left|done].
  - wp_go. by apply op_same.
  - wp_go. by apply op_same.
Qed.

Lemma openat_result fd path uid i :
  inner_ok i → Z.of_nat (size (table i)) < usize_max →
  wp (handle_op (OpOpenat fd path uid)) (op_result (OpOpenat fd path uid) i) i.
Proof.
  intros Hi Hroom. pose proof Hi as [Hr Hwf]. cbn [handle_op]. unfold openat, handle_of, hm_get. do 5 wp_step.
  destruct (hm_handles (handles i) !! fd) as [[]|] eqn:Hh; wp_go; try by apply op_same.
  all: case_bool_decide; wp_go; try by apply op_same.
  all: unfold on_handles; wp_step; apply hm_insert_wp; [done|done|]; intros next m' Hm'; wp_go.
  all: split; [done| |by left|done].
  all: change (table (set_handles m' i)) with (hm_handles m'); subst m'; cbn; rewrite map_size_insert; case_match; unfold table; cbn; lia.
Qed.

Lemma fpath_outcome id buf i :
  (∃ n b, fpath id buf i = (Ok (n, b), i)) ∨ fpath id buf i = (Err EBADF, i).
Proof.
  unfold fpath, hm_get. destruct (hm_handles (handles i) !! id) as [h|].
  - left. pose proof (fpath_with_push buf (scheme_name i)
      (str_bytes match h with Mac => "mac" | _ => EmptyString end)) as Hf. cbv zeta in Hf.
    do 2 eexists. match type of Hf with ?l = _ => match goal with |- (let '(_, _) := ?x in _) = _ =>
      change x with l end end. rewrite Hf. reflexivity.
  - right. unfold fpath_with, mbind, comp_bind. by rewrite fw_after_nil, !push_str_after.
Qed.

Lemma op_result_spec op i :
  inner_ok i → Z.of_nat (size (table i)) < usize_max → wp (handle_op op) (op_result op i) i.
Proof.
  intros Hi Hroom. pose proof Hi as [Hr Hwf].
  destruct op as [fd path uid|id buf off fl|id buf|id|id buf|id|id];
    [by apply openat_result|by apply read_result|..]; cbn [handle_op].
  - unfold write, handle_of, hm_get. do 5 wp_step.
    destruct (hm_handles (handles i) !! id) as [[]|]; wp_go; try by apply op_same.
    unfold on_adapter. wp_step. destruct (write_law (adapter i) buf Hr) as (r & a' & Hrun & Hp & Hw & Hr' & Hq).
    unfold wp at 1. rewrite Hrun. cbn [fst snd].
    destruct r; wp_go; [apply op_adapter|apply op_adapter|done]; auto; try (by left); congruence.
  - unfold fevent, handle_of, hm_get. wp_go. destruct (hm_handles (handles i) !! id) as [[]|]; wp_go; by apply op_same.
  - wp_step. unfold wp at 1. destruct (fpath_outcome id buf i) as [(n & b & ->)| ->]; cbn [fst snd]; wp_go;
    by apply op_same.
  - unfold fstat, handle_of, hm_get. wp_go. destruct (hm_handles (handles i) !! id) as [[]|]; wp_go; by apply op_same.
  - unfold fsync, handle_of, hm_get. wp_go. destruct (hm_handles (handles i) !! id) as [[]|]; wp_go; by apply op_same.
Qed.

(** *** Sequences of requests *)

(** From [s] to [s'], with [asked] the ids of the calls that came in: every request is
    answered or waits, and the packets taken are in the answers. *)
Record goes (n : nat) (asked : list Z) s s' : Prop := {
  go_ok : inner_ok (scheme s');
  go_size : (size (table (scheme s')) ≤ size (table (scheme s)) + n)%nat;
  go_log : ∃ new taken, out s' = out s ++ new ∧ queue s = taken ++ queue s' ∧ served taken new ∧
    (blocked s).*1 ++ asked ≡ₚ answered new ++ (blocked s').*1;
}.

Lemma goes_refl s : inner_ok (scheme s) → goes 0 [] s s.
Proof.
  intros Hs. split; [done|lia|]. exists [], []. rewrite !app_nil_r. split_and!; try done.
  apply served_nil.
Qed.

Lemma goes_trans n1 n2 a1 a2 s1 s2 s3 :
  goes n1 a1 s1 s2 → goes n2 a2 s2 s3 → goes (n1 + n2) (a1 ++ a2) s1 s3.
Proof.
  intros [Ho1 Hs1 (new1 & t1 & Hout1 & Hq1 & Hd1 & Hp1)] [Ho2 Hs2 (new2 & t2 & Hout2 & Hq2 & Hd2 & Hp2)].
  split; [done|lia|]. exists (new1 ++ new2), (t1 ++ t2). split_and!.
  - by rewrite Hout2, Hout1, app_assoc.
  - by rewrite Hq1, Hq2, app_assoc.
  - by apply served_app.
  - unfold answered. rewrite omap_app. fold (answered new1) (answered new2).
    rewrite app_assoc, Hp1, <- !app_assoc, <- Hp2. done.
Qed.

Lemma goes_le n n' asked s s' : (n ≤ n')%nat → goes n asked s s' → goes n' asked s s'.
Proof. intros Hn [? ? ?]. split; [done|lia|done]. Qed.

Lemma goes_queue n asked s s' : goes n asked s s' → queue s = [] → queue s' = [].
Proof.
  intros [_ _ (new & t & _ & Hq & _)] He. rewrite He in Hq. by apply eq_sym, app_nil in Hq as [_ ->].
Qed.

(** The run of a computation ends well, or in a read past the end of the address. *)
Definition runs {B} (ops : list Op) (m : comp (NetworkScheme (A:=A)) B) (Q : B → NetworkScheme → Prop) s : Prop :=
  wp m (λ r s', match r with
    | Ok x => Q x s'
    | Err _ => False
    | Panic => ∃ op, op ∈ ops ∧ overrun op (scheme s')
    end) s.

Lemma runs_bind {B C} ops (m : comp NetworkScheme B) (f : B → comp NetworkScheme C) Q s :
  runs ops m (λ x s', runs ops (f x) Q s') s → runs ops (m ≫= f) Q s.
Proof. unfold runs. intros Hm. apply wp_bind. eapply wp_mono; [exact Hm|]. by intros [x|e|] s'. Qed.

Lemma runs_mono {B} ops ops' (m : comp NetworkScheme B) (Q Q' : B → NetworkScheme → Prop) s :
  runs ops m Q s → ops ⊆ ops' → (∀ x s', Q x s' → Q' x s') → runs ops' m Q' s.
Proof.
  unfold runs. intros Hm Hops HQ. eapply wp_mono; [exact Hm|]. intros [x|e|] s'; [auto|done|].
  intros (op & Hop & Ho). eauto.
Qed.

Definition as_outcome {B} (r : errno + B) : outcome B := match r with inl e => Err e | inr x => Ok x end.

Lemma runs_op op ops s :
  inner_ok (scheme s) → Z.of_nat (size (table (scheme s))) < usize_max → op ∈ ops →
  runs ops (result (on_scheme (handle_op op))) (λ res s', ∃ i',
    s' = set_scheme i' s ∧ op_post op (scheme s) (as_outcome res) i') s.
Proof.
  intros Hi Hroom Hop. pose proof (op_result_spec op (scheme s) Hi Hroom) as Hw.
  unfold runs, wp, result, on_scheme, zoom in *. destruct (handle_op op (scheme s)) as [[x|e|] i'];
    cbn in *; [by exists i'|by exists i'|by exists op].
Qed.

(** An operation was answered: the request leaves the blocked ones or came in. *)
Lemma goes_answer op id res s i' bl asked :
  op_post op (scheme s) (as_outcome res) i' → (blocked s).*1 ++ asked ≡ₚ id :: bl.*1 →
  goes 1 asked s (mk_network_scheme i' bl (out s ++ [Answer id res])).
Proof.
  intros [Hi Hsz He Hw] Hp. split; [done|done|]. exists [Answer id res]. unfold queue. cbn.
  destruct He as [He|(p & buf & He & Hres)].
  - exists []. split_and!; [done|done|apply served_nil|done].
  - exists [p]. split_and!; [done|done| |done]. exists [Answer id res]. split; [done|].
    constructor; [|constructor]. exists id, buf. destruct res; cbn in Hres; simplify_eq. done.
Qed.

(** An operation has to wait. *)
Lemma goes_wait op res s i' bl asked :
  op_post op (scheme s) (as_outcome res) i' → would_block nonblock op res = true →
  (blocked s).*1 ++ asked ≡ₚ bl.*1 →
  goes 1 asked s (mk_network_scheme i' bl (out s)) ∧ pending (adapter i') = [].
Proof.
  intros [Hi Hsz He Hw] Hb Hp. destruct res as [[]|]; try done. split; [|by apply Hw].
  split; [done|done|]. exists [], []. unfold queue. cbn. rewrite app_nil_r.
  split_and!; [done| |apply served_nil|done]. by destruct He as [|(? & ? & _ & ?)].
Qed.

Lemma delete_ids (bl : list (Z * Op)) j id op :
  bl !! j = Some (id, op) → bl.*1 ≡ₚ id :: (delete j bl).*1.
Proof.
  intros Hj. change (id :: (delete j bl).*1) with (((id, op) :: delete j bl).*1).
  apply fmap_Permutation. by apply delete_Permutation.
Qed.

(** Readers that wait wait for a packet that is not there. *)
Definition waits s : Prop := blocked s ≠ [] → queue s = [].

Lemma retry_runs ops turns j s :
  inner_ok (scheme s) → Z.of_nat (size (table (scheme s)) + turns) ≤ usize_max →
  (length (blocked s) ≤ j + turns)%nat → (blocked s).*2 ⊆ ops →
  ((0 < j)%nat → queue s = []) →
  runs ops (retry_blocked nonblock turns j) (λ _ s', goes turns [] s s' ∧ waits s') s.
Proof.
  revert j s. induction turns as [|turns IH]; intros j s Hs Hroom Hlen Hops Hj; cbn [retry_blocked];
    unfold runs; do 2 wp_step.
  - rewrite lookup_ge_None_2 by lia. wp_step. split; [by apply goes_refl|].
    intros Hne. apply Hj. destruct (blocked s); [done|]. cbn in *. lia.
  - destruct (blocked s !! j) as [[id op]|] eqn:Hlk.
    2: { wp_step. split; [apply (goes_le 0); [lia|by apply goes_refl]|]. intros Hne. apply lookup_ge_None_1 in Hlk. apply Hj.
         destruct (blocked s); [done|]. cbn in *. lia. }
    apply runs_bind. eapply runs_mono; [apply (runs_op op ops s Hs); [lia|]|done|].
    { apply Hops, list_elem_of_fmap. exists (id, op). split; [done|]. by eapply list_elem_of_lookup_2. }
    intros res s1 (i' & -> & Hpost). destruct (would_block nonblock op res) eqn:Hb.
    + destruct (goes_wait op res s i' (blocked s) [] Hpost Hb) as [Hgo Hq]; [by rewrite app_nil_r|].
      pose proof (op_size _ _ _ _ Hpost).
      eapply runs_mono; [apply (IH (S j) (set_scheme i' s)); cbn; try done; [apply Hpost|lia|lia]|done|].
      intros _ s2 [Hg2 Hw]. split; [|done]. by apply (goes_trans 1 turns [] [] s _ s2 Hgo).
    + unfold write_response. do 2 (apply runs_bind; unfold runs at 1; wp_step).
      set (s2 := mk_network_scheme i' (delete j (blocked s)) (out s ++ [Answer id res])).
      assert (goes 1 [] s s2) as Hgo.
      { eapply goes_answer; [exact Hpost|]. rewrite app_nil_r. by eapply delete_ids. }
      pose proof (op_size _ _ _ _ Hpost). apply lookup_lt_Some in Hlk as Hl.
      assert (length (blocked s2) = length (blocked s) - 1)%nat as Hd
        by (cbn; rewrite length_delete; [done|by eexists]).
      assert ((blocked s2).*2 ⊆ ops) as Hops2.
      { etransitivity; [|exact Hops]. intros x (p & -> & Hp)%list_elem_of_fmap.
        apply list_elem_of_fmap. exists p. split; [done|].
        rewrite (delete_Permutation _ _ _ Hlk). by right. }
      eapply runs_mono; [apply (IH j s2); [apply Hpost|cbn; lia|lia|done|]|done|].
      * intros Hj0. by eapply goes_queue, Hj.
      * intros _ s3 [Hg2 Hw]. split; [|done]. by apply (goes_trans 1 turns [] [] s s2 s3).
Qed.

Lemma position_lookup id l j : position id l = Some j → ∃ op, l !! j = Some (id, op).
Proof.
  revert j. induction l as [|[id' op'] l IH]; intros j; cbn; [done|]. case_bool_decide as Hid.
  - intros [= <-]. subst. by exists op'.
  - intros (j' & Hj & ->)%fmap_Some. by apply IH.
Qed.

Lemma request_runs ops r s :
  inner_ok (scheme s) → Z.of_nat (size (table (scheme s))) < usize_max → waits s →
  request_ops [r] ⊆ ops →
  runs ops (handle_request nonblock r) (λ _ s', goes 1 (call_ids [r]) s s' ∧ waits s') s.
Proof.
  intros Hs Hroom Hw Hops. destruct r as [id [op|]|id|id|]; cbn [handle_request call_ids omap list_omap].
  - apply runs_bind. eapply runs_mono; [apply (runs_op op ops s Hs Hroom)|done|].
    { apply Hops. left. }
    intros res s1 (i' & -> & Hpost). destruct (would_block nonblock op res) eqn:Hb; unfold runs, write_response.
    + wp_step. destruct (goes_wait op res s i' (blocked s ++ [(id, op)]) [id] Hpost Hb) as [Hgo Hq];
        [by rewrite fmap_app|]. split; [done|]. by intros _.
    + wp_step. assert (goes 1 [id] s (mk_network_scheme i' (blocked s) (out s ++ [Answer id res]))) as Hgo.
      { eapply goes_answer; [exact Hpost|]. by rewrite Permutation_app_comm. }
      split; [done|]. intros Hne. by eapply goes_queue, Hw.
  - unfold runs, write_response. wp_step. split; [|done]. split; [done|cbn; lia|]. exists [Answer id (inl EOPNOTSUPP)], [].
    split_and!; [done|done|apply served_nil|]. by rewrite Permutation_app_comm.
  - unfold runs, on_scheme. wp_step. unfold on_close, on_handles, hm_remove. wp_go.
    split; [|done]. destruct Hs as [Hr Hwf]. split; cbn.
    + split; [done|]. by apply hm_remove_wf.
    + unfold table. cbn. pose proof (map_size_delete id (hm_handles (handles (scheme s)))) as Hsz. cbn in *.
      rewrite Hsz. case_match; cbn; lia.
    + exists [], []. rewrite !app_nil_r. split_and!; try done. apply served_nil.
  - unfold runs. do 2 wp_step. destruct (position id (blocked s)) as [j|] eqn:Hpos; [|wp_step; split; [|done]].
    + destruct (position_lookup _ _ _ Hpos) as [op Hj]. wp_step. wp_step. unfold write_response. wp_step.
      split.
      * split; [done|cbn; lia|]. exists [Answer id (inl EINTR)], []. split_and!; [done|done|apply served_nil|].
        rewrite app_nil_r. by eapply delete_ids.
      * intros Hne. apply Hw. intros He. cbn in Hne. by rewrite He in Hj.
    + apply (goes_le 0); [lia|by apply goes_refl].
  - unfold runs. wp_step. split; [|done]. apply (goes_le 0); [lia|by apply goes_refl].
Qed.

Lemma requests_runs ops rs s :
  inner_ok (scheme s) → Z.of_nat (size (table (scheme s)) + length rs) ≤ usize_max → waits s →
  request_ops rs ⊆ ops →
  runs ops (for_each (handle_request nonblock) rs)
    (λ _ s', goes (length rs) (call_ids rs) s s' ∧ waits s') s.
Proof.
  revert s. induction rs as [|r rs IH]; intros s Hs Hroom Hw Hops; cbn [for_each length].
  - unfold runs. wp_step. split; [by apply goes_refl|done].
  - change (r :: rs) with ([r] ++ rs) in Hops. unfold request_ops in Hops. rewrite omap_app in Hops.
    apply runs_bind. eapply runs_mono; [apply (request_runs ops r s Hs); [cbn in Hroom; lia|done|]|done|].
    { set_solver. }
    intros _ s1 [Hg Hw1]. pose proof (go_size _ _ _ _ Hg). cbn [length] in Hroom.
    eapply runs_mono; [apply (IH s1); [apply Hg|lia|done|set_solver]|done|].
    intros _ s2 [Hg2 Hw2]. split; [|done].
    change (r :: rs) with ([r] ++ rs). unfold call_ids. rewrite omap_app.
    by apply (goes_trans 1 (length rs) _ _ s s1 s2).
Qed.

Lemma post_all_runs ops (l : list (Z * Handle)) s :
  inner_ok (scheme s) → waits s →
  runs ops (for_each (λ p, write_response (PostFevent p.1 EVENT_READ)) l)
    (λ _ s', goes 0 [] s s' ∧ waits s') s.
Proof.
  revert s. induction l as [|p l IH]; intros s Hs Hw; cbn [for_each]; unfold runs; wp_step.
  - split; [by apply goes_refl|done].
  - unfold write_response at 1. wp_step.
    set (s1 := mk_network_scheme (scheme s) (blocked s) (out s ++ [PostFevent p.1 EVENT_READ])).
    assert (goes 0 [] s s1) as Hg.
    { split; [done|cbn; lia|]. exists [PostFevent p.1 EVENT_READ], []. rewrite !app_nil_r.
      split_and!; try done. apply served_nil. }
    eapply runs_mono; [by apply (IH s1)|done|]. intros _ s2 [Hg2 Hw2].
    split; [by apply (goes_trans 0 0 [] [] s s1 s2)|done].
Qed.

Lemma notify_runs ops s :
  inner_ok (scheme s) → waits s → runs ops notify (λ _ s', goes 0 [] s s' ∧ waits s') s.
Proof.
  intros [Hr Hwf] Hw. destruct (avail_law _ Hr) as (n & a' & Hrun & Hr' & Hq).
  set (s1 := set_scheme (set_adapter a' (scheme s)) s).
  assert (goes 0 [] s s1) as Hg.
  { split; [done|cbn; unfold table; cbn; lia|]. exists [], []. rewrite !app_nil_r. unfold queue. cbn. rewrite Hq.
    split_and!; try done. apply served_nil. }
  assert (waits s1) as Hw1 by (intros Hne; eapply goes_queue; [exact Hg|by apply Hw]).
  unfold notify. apply runs_bind. unfold runs at 1, on_scheme, on_adapter. do 2 wp_step.
  unfold wp. rewrite Hrun. cbn [fst snd]. fold s1. case_bool_decide; [|by unfold runs; wp_step].
  unfold runs. do 2 wp_step. eapply wp_mono; [apply (post_all_runs ops _ s1); [done|done]|].
  intros [x|e|] s2; [|done|done]. intros [Hg2 Hw2]. split; [by apply (goes_trans 0 0 [] [] s s1 s2)|done].
Qed.

Lemma tick_runs reqs s :
  inner_ok (scheme s) →
  Z.of_nat (size (table (scheme s)) + length (blocked s) + length reqs) ≤ usize_max →
  runs ((blocked s).*2 ++ request_ops reqs) (tick nonblock reqs)
    (λ _ s', goes (length (blocked s) + length reqs) (call_ids reqs) s s' ∧ waits s') s.
Proof.
  intros Hs Hroom. unfold tick, runs. do 2 wp_step. apply runs_bind.
  eapply runs_mono; [apply (retry_runs (blocked s).*2 (length (blocked s)) 0 s Hs); try lia; done|set_solver|].
  intros _ s1 [Hg1 Hw1]. pose proof (go_size _ _ _ _ Hg1). apply runs_bind.
  eapply runs_mono; [apply (requests_runs (request_ops reqs) reqs s1); [apply Hg1|lia|done|done]|set_solver|].
  intros _ s2 [Hg2 Hw2].
  eapply runs_mono; [apply (notify_runs [] s2); [apply Hg2|done]|set_solver|].
  intros _ s3 [Hg3 Hw3]. split; [|done].
  pose proof (goes_trans _ _ _ _ _ _ _ Hg1 (goes_trans _ _ _ _ _ _ _ Hg2 Hg3)) as Hg.
  rewrite app_nil_r, app_nil_l, Nat.add_0_r in Hg. exact Hg.
Qed.
End Spec.


Section Example.
#[local] Existing Instance redox_abi.

(** An adapter that is its queue *)
Definition demo_adapter : NetworkAdapter (list bytes) := {|
  mac_address := mret [2; 0; 0; 0; 0; 1];
  available_for_read := gets (λ q, Z.of_nat (length q));
  read_packet buf := λ q, match q with
    | [] => (Ok (None, buf), [])
    | p :: q => let n := Nat.min (length buf) (length p) in (Ok (Some (Z.of_nat n), copy_at buf 0 (take n p)), q)
    end;
  write_packet buf := mret (Z.of_nat (length buf));
|}.
#[local] Existing Instance demo_adapter.

Definition demo_view : AdapterView (list bytes) := {| ready _ := True; pending q := q |}.
#[local] Existing Instance demo_view.

Lemma demo_laws : AdapterLaws (list bytes).
Proof.
  split; cbn.
  - intros q _. by do 2 eexists.
  - intros q _. by do 2 eexists.
  - intros q buf _. by destruct q; eexists.
  - intros q buf _. by do 2 eexists.
Qed.

Definition demo_scheme : NetworkScheme :=
  mk_network_scheme (mk_inner [[1; 2; 3]; [4]] "network.demo"
    (mk_handle_map {[ 1 := SchemeRoot; 2 := Data; 3 := Mac ]} 4)) [(7, OpRead 2 [0; 0] 0 0)] [].

Definition demo_calls : list Request :=
  [Call 8 (Some (OpRead 2 [0; 0] 0 0)); Call 9 (Some (OpRead 2 [0] 0 0)); Call 10 (Some (OpRead 3 [0; 0] 4 0));
   Cancellation 9; Call 11 (Some (OpRead 2 [0] 0 0))].

End Example.
