(* ===== verification/NetCard.v ===== *)
(** * Network cards: registers and rings

    What the drivers of [drivers/net] share.  The registers of a card are reads and writes
    of the class [RegDevice], of which nothing is assumed; [Io::readf] and [Io::writef] of
    [drivers/common/src/io.rs] are on top.  A ring is a list of descriptors with an index;
    [finished] is the run of descriptors that the card has handed back, from the index on,
    and taking the first of them leaves the rest. *)

From S2P Require Import Prelude.

(** ** The card's registers *)

Class RegDevice (D : Type) := {
  dev_read : Z → D → Z * D;
  dev_write : Z → Z → D → D;
}.

Section Regs.
Context {D : Type} {dev : RegDevice D}.

(** [read_volatile] and [write_volatile] *)
Definition reg_read (r : Z) : comp D Z := λ d, let '(v, d') := dev_read r d in (Ok v, d').
Definition reg_write (r v : Z) : comp D unit := modify (dev_write r v).

(** A loop that reads a register until the test succeeds; it does not end when the card
    never gets there. *)
Fixpoint reg_until (looks : nat) (r : Z) (test : Z → bool) : comp D unit :=
  match looks with
  | O => panic
  | S looks =>
     v ← reg_read r;
     if test v then mret tt else reg_until looks r test
  end.

(** [Io::readf] and [Io::writef], for a register of the given width *)
Definition readf (r fl : Z) : comp D bool :=
  v ← reg_read r;
  mret (bool_decide (Z.land v fl = fl)).
Definition writef (max r fl : Z) (value : bool) : comp D unit :=
  v ← reg_read r;
  reg_write r (if value then Z.lor v fl else Z.land v (max - fl)).

(** A loop that reads a register until the test succeeds, under a [Timeout] that expires
    after that many turns *)
Fixpoint reg_within (turns : nat) (r : Z) (test : Z → bool) : comp D unit :=
  v ← reg_read r;
  if test v then mret tt else
  match turns with
  | O => fail EIO
  | S turns => reg_within turns r test
  end.
End Regs.

(** [x as u32], [x as u8] *)
Definition as_u8 (x : Z) : Z := x `mod` 256.

(** The hardware address from its two registers *)
Definition mac_of (low high : Z) : bytes :=
  [as_u8 low; as_u8 (Z.shiftr low 8); as_u8 (Z.shiftr low 16); as_u8 (Z.shiftr low 24);
   as_u8 high; as_u8 (Z.shiftr high 8)].

(** ** Rings of descriptors *)

Fixpoint take_while {X} (f : X → bool) (l : list X) : list X :=
  match l with
  | [] => []
  | x :: l => if f x then x :: take_while f l else []
  end.

(** The ring from position [i] on, around *)
Definition from {X} (i : nat) (l : list X) : list X := drop i l ++ take i l.

(** The entries the card has finished, from position [i] on *)
Definition finished {X} (f : X → bool) (i : nat) (l : list X) : list X := take_while f (from i l).

Lemma from_lookup {X} (l : list X) i x :
  l !! i = Some x → from i l = x :: drop (S i) l ++ take i l.
Proof. intros Hi. unfold from. by rewrite (drop_S l x i Hi). Qed.

Lemma take_while_snoc {X} (f : X → bool) l x : f x = false → take_while f (l ++ [x]) = take_while f l.
Proof. intros Hx. induction l as [|y l IH]; cbn; [by rewrite Hx|]. by destruct (f y); rewrite ?IH. Qed.

(** The position after [i] *)
Definition next (n i : nat) : nat := if bool_decide (S i = n) then 0 else S i.

Lemma from_next {X} (l : list X) i x y :
  l !! i = Some x → from (next (length l) i) (<[i := y]> l) = drop (S i) l ++ take i l ++ [y].
Proof.
  intros Hi. apply lookup_lt_Some in Hi as Hl. unfold from, next.
  rewrite insert_take_drop by done. case_bool_decide as He.
  - by rewrite drop_0, app_nil_r, (drop_ge l) by lia.
  - assert (length (take i l) = i) as Ht by (rewrite length_take; lia).
    rewrite drop_app_ge, take_app_ge by (rewrite Ht; lia). rewrite Ht.
    replace (S i - i)%nat with 1%nat by lia. cbn. by rewrite drop_0, <- ?app_assoc.
Qed.

(** Handing the first finished entry back to the card *)
Lemma finished_next {X} (f : X → bool) (l : list X) i x y :
  l !! i = Some x → f x = true → f y = false →
  finished f i l = x :: finished f (next (length l) i) (<[i := y]> l).
Proof.
  intros Hi Hx Hy. unfold finished. rewrite (from_lookup l i x Hi), (from_next l i x y Hi). cbn.
  by rewrite Hx, app_assoc, (take_while_snoc f _ y Hy).
Qed.

Lemma finished_none {X} (f : X → bool) (l : list X) i x :
  l !! i = Some x → f x = false → finished f i l = [].
Proof. intros Hi Hx. unfold finished. rewrite (from_lookup l i x Hi). cbn. by rewrite Hx. Qed.

Lemma next_lt n i : (i < n)%nat → (next n i < n)%nat.
Proof. intros Hi. unfold next. case_bool_decide; lia. Qed.
