(* ===== verification/E1000.v ===== *)
(** * e1000d

    The [NetworkAdapter] of [drivers/net/e1000d/src/device.rs], for the Intel 8254x, and
    that it keeps the contract that [NetDriverSpec] asks of an adapter.

    The memory the card shares with the driver, descriptors and buffers, is in the
    driver's record: between two calls of the adapter the card may have changed it in any
    way that [wf] allows; while the driver spins on a descriptor the card's work on the
    transmit ring is the parameter [hw].  A loop that waits for the card is given
    [patience] looks; the hypotheses say how many are enough.  Physical addresses of DMA
    memory are parameters. *)

From S2P Require Import Prelude NetDriver NetDriverSpec NetCard.

Definition CTRL : Z := 0x00.
Definition CTRL_LRST : Z := Z.shiftl 1 3.
Definition CTRL_ASDE : Z := Z.shiftl 1 5.
Definition CTRL_SLU : Z := Z.shiftl 1 6.
Definition CTRL_ILOS : Z := Z.shiftl 1 7.
Definition CTRL_RST : Z := Z.shiftl 1 26.
Definition CTRL_VME : Z := Z.shiftl 1 30.
Definition CTRL_PHY_RST : Z := Z.shiftl 1 31.
Definition STATUS : Z := 0x08.
Definition FCAL : Z := 0x28.
Definition FCAH : Z := 0x2C.
Definition FCT : Z := 0x30.
Definition FCTTV : Z := 0x170.
Definition ICR : Z := 0xC0.
Definition IMS : Z := 0xD0.
Definition IMS_RXSEQ : Z := Z.shiftl 1 3.
Definition IMS_RXDMT : Z := Z.shiftl 1 4.
Definition IMS_RX : Z := Z.shiftl 1 6.
Definition IMS_RXT : Z := Z.shiftl 1 7.
Definition RCTL : Z := 0x100.
Definition RCTL_EN : Z := Z.shiftl 1 1.
Definition RCTL_UPE : Z := Z.shiftl 1 3.
Definition RCTL_LPE : Z := Z.shiftl 1 5.
Definition RCTL_LBM : Z := Z.lor (Z.shiftl 1 6) (Z.shiftl 1 7).
Definition RCTL_BAM : Z := Z.shiftl 1 15.
Definition RCTL_BSIZE1 : Z := Z.shiftl 1 16.
Definition RCTL_BSIZE2 : Z := Z.shiftl 1 17.
Definition RCTL_BSEX : Z := Z.shiftl 1 25.
Definition RCTL_SECRC : Z := Z.shiftl 1 26.
Definition RDBAL : Z := 0x2800.
Definition RDBAH : Z := 0x2804.
Definition RDLEN : Z := 0x2808.
Definition RDH : Z := 0x2810.
Definition RDT : Z := 0x2818.
Definition RAL0 : Z := 0x5400.
Definition RAH0 : Z := 0x5404.
Definition RD_DD : Z := 1.
Definition TCTL : Z := 0x400.
Definition TCTL_EN : Z := Z.shiftl 1 1.
Definition TCTL_PSP : Z := Z.shiftl 1 3.
Definition TDBAL : Z := 0x3800.
Definition TDBAH : Z := 0x3804.
Definition TDLEN : Z := 0x3808.
Definition TDH : Z := 0x3810.
Definition TDT : Z := 0x3818.
Definition TD_CMD_EOP : Z := 1.
Definition TD_CMD_IFCS : Z := Z.shiftl 1 1.
Definition TD_CMD_RS : Z := Z.shiftl 1 3.

(** Receive and transmit descriptors *)
Record Rd := mk_rd {
  rd_buffer : Z; rd_length : Z; rd_checksum : Z; rd_status : Z; rd_error : Z; rd_special : Z;
}.
Record Td := mk_td {
  td_buffer : Z; td_length : Z; td_cso : Z; td_command : Z; td_status : Z; td_css : Z; td_special : Z;
}.

Definition wrap_ring (index ring_size : Z) : Z := Z.land (index + 1) (ring_size - 1).

Section Driver.
Context {D : Type} {dev : RegDevice D}.
(** The card's work on the transmit ring between two looks, and the looks a loop gets *)
Context (hw : list Td → list Td) (patience : nat).
(** Physical addresses: of the buffers, and of the rings *)
Context (rx_physical tx_physical : nat → Z) (rx_ring_physical tx_ring_physical : Z).

Record Intel8254x := mk_intel8254x {
  regs : D;
  mac : bytes;
  receive_buffer : list bytes;
  receive_ring : list Rd;
  receive_index : Z;
  transmit_buffer : list bytes;
  transmit_ring : list Td;
  transmit_ring_free : Z;
  transmit_index : Z;
  transmit_clean_index : Z;
}.

Definition set_regs d (s : Intel8254x) := mk_intel8254x d (mac s) (receive_buffer s) (receive_ring s)
  (receive_index s) (transmit_buffer s) (transmit_ring s) (transmit_ring_free s) (transmit_index s)
  (transmit_clean_index s).
Definition set_mac m (s : Intel8254x) := mk_intel8254x (regs s) m (receive_buffer s) (receive_ring s)
  (receive_index s) (transmit_buffer s) (transmit_ring s) (transmit_ring_free s) (transmit_index s)
  (transmit_clean_index s).
Definition set_receive ring i (s : Intel8254x) := mk_intel8254x (regs s) (mac s) (receive_buffer s) ring
  i (transmit_buffer s) (transmit_ring s) (transmit_ring_free s) (transmit_index s)
  (transmit_clean_index s).
Definition set_transmit bufs ring free i clean (s : Intel8254x) := mk_intel8254x (regs s) (mac s)
  (receive_buffer s) (receive_ring s) (receive_index s) bufs ring free i clean.

Definition on_regs {A} (m : comp D A) : comp Intel8254x A := zoom regs set_regs m.

(** [read_reg]; [write_reg] reads the register back; [flag] *)
Definition read_reg (register : Z) : comp Intel8254x Z := on_regs (reg_read register).
Definition write_reg (register data : Z) : comp Intel8254x Z :=
  on_regs (reg_write register data);;
  on_regs (reg_read register).
Definition flag (register fl : Z) (value : bool) : comp Intel8254x unit :=
  v ← read_reg register;
  (if value then write_reg register (Z.lor v fl) else write_reg register (Z.land v (u32_max - fl)));;
  mret tt.

Definition irq : comp Intel8254x bool :=
  icr ← read_reg ICR;
  mret (negb (icr =? 0)).

Definition rd_done (d : Rd) : bool := bool_decide (Z.land (rd_status d) RD_DD = RD_DD).

Definition mac_address : comp Intel8254x bytes := gets mac.

(** The descriptor behind a raw pointer into the ring *)
Definition rx_desc : comp Intel8254x Rd :=
  s ← get;
  expect (receive_ring s !! Z.to_nat (receive_index s)).

Definition available_for_read : comp Intel8254x Z :=
  desc ← rx_desc;
  mret (if rd_done desc then rd_length desc else 0).

Definition read_packet (buf : bytes) : comp Intel8254x (option Z * bytes) :=
  desc ← rx_desc;
  if rd_done desc then
    s ← get;
    let i := Z.to_nat (receive_index s) in
    let desc := mk_rd (rd_buffer desc) (rd_length desc) (rd_checksum desc) 0 (rd_error desc) (rd_special desc) in
    put (set_receive (<[i := desc]> (receive_ring s)) (receive_index s) s);;
    whole ← expect (receive_buffer s !! i);
    if bool_decide (Z.of_nat (length whole) < rd_length desc) then panic else
    let data := take (Z.to_nat (rd_length desc)) whole in
    let n := Nat.min (length buf) (length data) in
    write_reg RDT (receive_index s);;
    modify (λ s, set_receive (receive_ring s)
      (wrap_ring (receive_index s) (Z.of_nat (length (receive_ring s)))) s);;
    mret (Some (Z.of_nat n), copy_at buf 0 (take n data))
  else mret (None, buf).

(** The loop of [write_packet] that takes back the descriptors the card is done with *)
Fixpoint reclaim (looks : nat) : comp Intel8254x unit :=
  match looks with
  | O => panic
  | S looks =>
     modify (λ s, set_transmit (transmit_buffer s) (hw (transmit_ring s)) (transmit_ring_free s)
       (transmit_index s) (transmit_clean_index s) s);;
     s ← get;
     desc ← expect (transmit_ring s !! Z.to_nat (transmit_clean_index s));
     let len := Z.of_nat (length (transmit_ring s)) in
     if bool_decide (td_status desc ≠ 0) then
       put (set_transmit (transmit_buffer s) (transmit_ring s) (transmit_ring_free s + 1)
         (transmit_index s) (wrap_ring (transmit_clean_index s) len) s);;
       if bool_decide (len ≤ transmit_ring_free s + 1) then mret tt else reclaim looks
     else if bool_decide (0 < transmit_ring_free s) then mret tt
     else if bool_decide (len ≤ transmit_ring_free s) then mret tt else reclaim looks
  end.

Definition write_packet (buf : bytes) : comp Intel8254x Z :=
  s ← get;
  (if bool_decide (transmit_ring_free s = 0) then reclaim patience else mret tt);;
  s ← get;
  let t := Z.to_nat (transmit_index s) in
  desc ← expect (transmit_ring s !! t);
  data ← expect (transmit_buffer s !! t);
  let i := Nat.min (length buf) (length data) in
  let desc := mk_td (td_buffer desc) (Z.min (Z.of_nat (length buf)) (Z.of_nat (length data) - 1))
    0 (Z.lor (Z.lor TD_CMD_EOP TD_CMD_IFCS) TD_CMD_RS) 0 0 0 in
  free ← sub_usize (transmit_ring_free s) 1;
  put (set_transmit (<[t := copy_at data 0 (take i buf)]> (transmit_buffer s))
    (<[t := desc]> (transmit_ring s)) free
    (wrap_ring (transmit_index s) (Z.of_nat (length (transmit_ring s)))) (transmit_clean_index s) s);;
  s ← get;
  write_reg TDT (transmit_index s);;
  mret (Z.of_nat i).

Definition set_rd_buffer (b : Z) (d : Rd) : Rd :=
  mk_rd b (rd_length d) (rd_checksum d) (rd_status d) (rd_error d) (rd_special d).
Definition set_td_buffer (b : Z) (d : Td) : Td :=
  mk_td b (td_length d) (td_cso d) (td_command d) (td_status d) (td_css d) (td_special d).

Definition init : comp Intel8254x unit :=
  flag CTRL CTRL_RST true;;
  on_regs (reg_until patience CTRL (λ v, negb (bool_decide (Z.land v CTRL_RST = CTRL_RST))));;
  flag CTRL (Z.lor CTRL_ASDE CTRL_SLU) true;;
  flag CTRL (Z.lor (Z.lor CTRL_LRST CTRL_PHY_RST) CTRL_ILOS) false;;
  write_reg FCAH 0;;
  write_reg FCAL 0;;
  write_reg FCT 0;;
  write_reg FCTTV 0;;
  flag CTRL CTRL_VME false;;
  mac_low ← read_reg RAL0;
  mac_high ← read_reg RAH0;
  modify (set_mac (mac_of mac_low mac_high));;
  modify (λ s, set_receive (imap (λ i d, set_rd_buffer (rx_physical i) d) (receive_ring s)) (receive_index s) s);;
  write_reg RDBAH (wrap_u32 (Z.shiftr rx_ring_physical 32));;
  write_reg RDBAL (wrap_u32 rx_ring_physical);;
  s ← get;
  write_reg RDLEN (Z.of_nat (length (receive_ring s)) * 16);;
  write_reg RDH 0;;
  write_reg RDT (Z.of_nat (length (receive_ring s)) - 1);;
  modify (λ s, set_transmit (transmit_buffer s)
    (imap (λ i d, set_td_buffer (tx_physical i) d) (transmit_ring s)) (transmit_ring_free s)
    (transmit_index s) (transmit_clean_index s) s);;
  write_reg TDBAH (wrap_u32 (Z.shiftr tx_ring_physical 32));;
  write_reg TDBAL (wrap_u32 tx_ring_physical);;
  s ← get;
  write_reg TDLEN (Z.of_nat (length (transmit_ring s)) * 16);;
  write_reg TDH 0;;
  write_reg TDT 0;;
  write_reg IMS (Z.lor (Z.lor (Z.lor IMS_RXT IMS_RX) IMS_RXDMT) IMS_RXSEQ);;
  flag RCTL RCTL_EN true;;
  flag RCTL RCTL_UPE true;;
  flag RCTL RCTL_LPE true;;
  flag RCTL RCTL_LBM false;;
  flag RCTL RCTL_BAM true;;
  flag RCTL RCTL_BSIZE1 true;;
  flag RCTL RCTL_BSIZE2 false;;
  flag RCTL RCTL_BSEX true;;
  flag RCTL RCTL_SECRC true;;
  flag TCTL TCTL_EN true;;
  flag TCTL TCTL_PSP true;;
  on_regs (reg_until patience STATUS (λ v, bool_decide (Z.land v 2 = 2))).

Definition zero_rd : Rd := mk_rd 0 0 0 0 0 0.
Definition zero_td : Td := mk_td 0 0 0 0 0 0 0.

(** [Intel8254x::new] once the DMA memory is allocated, zeroed *)
Definition new (d : D) : outcome Intel8254x :=
  let buffers := replicate 16 (replicate (Z.to_nat 16384) 0) in
  match init (mk_intel8254x d [0; 0; 0; 0; 0; 0] buffers (replicate 16 zero_rd) 0 buffers
               (replicate 16 zero_td) 16 0 0) with
  | (Ok _, s) => Ok s
  | (Err e, _) => Err e
  | (Panic, _) => Panic
  end.

Definition adapter : NetworkAdapter Intel8254x := {|
  NetDriver.mac_address := mac_address;
  NetDriver.available_for_read := available_for_read;
  NetDriver.read_packet := read_packet;
  NetDriver.write_packet := write_packet;
|}.

(** *** The queue in the receive ring *)

(** The driver's indices are within the rings, the card reports lengths within the
    buffers, and the descriptors that are not free are those from [transmit_clean_index]
    up to [transmit_index]. *)
Record wf (s : Intel8254x) : Prop := {
  wf_rx_ring : length (receive_ring s) = 16%nat;
  wf_rx_buffer : length (receive_buffer s) = 16%nat;
  wf_rx_size : Forall (λ b, length b = Z.to_nat 16384) (receive_buffer s);
  wf_rx_index : 0 ≤ receive_index s < 16;
  wf_rx_length : Forall (λ d, 0 ≤ rd_length d ≤ 16384) (receive_ring s);
  wf_mac : length (mac s) = 6%nat;
  wf_tx_ring : length (transmit_ring s) = 16%nat;
  wf_tx_buffer : length (transmit_buffer s) = 16%nat;
  wf_tx_size : Forall (λ b, length b = Z.to_nat 16384) (transmit_buffer s);
  wf_free : 0 ≤ transmit_ring_free s ≤ 16;
  wf_tx_index : 0 ≤ transmit_index s < 16;
  wf_clean : 0 ≤ transmit_clean_index s < 16;
  wf_in_flight : (transmit_clean_index s + (16 - transmit_ring_free s)) `mod` 16 = transmit_index s;
}.

Definition packet (p : Rd * bytes) : bytes := take (Z.to_nat (rd_length p.1)) p.2.

Definition view : AdapterView Intel8254x := {|
  ready := wf;
  pending s := packet <$> finished (λ p, rd_done p.1) (Z.to_nat (receive_index s))
                 (zip (receive_ring s) (receive_buffer s));
|}.

(** The card keeps the rings' sizes, and is done with a descriptor soon enough. *)
Hypothesis hw_length : ∀ ring, length (hw ring) = length ring.
Hypothesis hw_sends : ∀ ring i, length ring = 16%nat → (i < 16)%nat →
  ∃ n d, (n + 16 < patience)%nat ∧ Nat.iter (S n) hw ring !! i = Some d ∧ td_status d ≠ 0.

Lemma wrap_ring_mod i : wrap_ring i 16 = (i + 1) `mod` 16.
Proof. unfold wrap_ring. change (16 - 1) with (Z.ones 4). by rewrite Z.land_ones. Qed.

Lemma wrap_ring_next i : 0 ≤ i < 16 → Z.to_nat (wrap_ring i 16) = next 16 (Z.to_nat i).
Proof.
  intros Hi. rewrite wrap_ring_mod. unfold next. case_bool_decide.
  - by replace i with 15 by lia.
  - rewrite Z.mod_small by lia. lia.
Qed.

Lemma wrap_ring_range i : 0 ≤ wrap_ring i 16 < 16.
Proof. rewrite wrap_ring_mod. apply Z.mod_pos_bound. lia. Qed.

(** Register accesses change the registers only. *)
Lemma write_reg_run r v s : ∃ x d, write_reg r v s = (Ok x, set_regs d s).
Proof.
  unfold write_reg, on_regs, reg_write, reg_read, zoom, modify, mbind, comp_bind.
  cbn [set_regs regs]. destruct (dev_read r (dev_write r v (regs s))) as [x d]. by exists x, d.
Qed.

Lemma ring_entry s i : wf s → (i < 16)%nat →
  ∃ d b, receive_ring s !! i = Some d ∧ receive_buffer s !! i = Some b ∧
    zip (receive_ring s) (receive_buffer s) !! i = Some (d, b) ∧
    length b = Z.to_nat 16384 ∧ 0 ≤ rd_length d ≤ 16384.
Proof.
  intros [] Hi.
  destruct (lookup_lt_is_Some_2 (receive_ring s) i) as [d Hd]; [lia|].
  destruct (lookup_lt_is_Some_2 (receive_buffer s) i) as [b Hb]; [lia|].
  exists d, b. split_and!; [done|done| | | |].
  - by rewrite lookup_zip_with, Hd, Hb.
  - by apply (Forall_lookup_1 _ _ _ _ wf_rx_size0 Hb).
  - by apply (Forall_lookup_1 _ _ _ _ wf_rx_length0 Hd).
  - by apply (Forall_lookup_1 _ _ _ _ wf_rx_length0 Hd).
Qed.

Lemma rx_desc_run s : wf s → ∃ d b,
  rx_desc s = (Ok d, s) ∧ receive_ring s !! Z.to_nat (receive_index s) = Some d ∧
  receive_buffer s !! Z.to_nat (receive_index s) = Some b ∧
  zip (receive_ring s) (receive_buffer s) !! Z.to_nat (receive_index s) = Some (d, b) ∧
  length b = Z.to_nat 16384 ∧ 0 ≤ rd_length d ≤ 16384.
Proof.
  intros Hs. pose proof (wf_rx_index s Hs). destruct (ring_entry s (Z.to_nat (receive_index s)) Hs)
    as (d & b & Hd & Hb & Hrest); [lia|]. exists d, b.
  split; [|done]. unfold rx_desc. rewrite bind_get, Hd. done.
Qed.

#[local] Existing Instance adapter.
#[local] Existing Instance view.

Lemma e1000_avail s : wf s → ∃ n s', available_for_read s = (Ok n, s') ∧ wf s' ∧ pending s' = pending s.
Proof.
  intros Hs. destruct (rx_desc_run s Hs) as (d & b & Hrun & _). unfold available_for_read.
  rewrite (bind_ok _ _ _ _ _ Hrun). by do 2 eexists.
Qed.

(** Clearing the status of the descriptor and moving on takes the first packet. *)
Lemma rx_advance s d b d' :
  wf s → receive_ring s !! Z.to_nat (receive_index s) = Some d →
  receive_buffer s !! Z.to_nat (receive_index s) = Some b → rd_done d = true →
  rd_done d' = false → rd_length d' = rd_length d → ∀ r,
  let s' := set_receive (<[Z.to_nat (receive_index s) := d']> (receive_ring s))
    (wrap_ring (receive_index s) 16) (set_regs r s) in
  wf s' ∧ pending s = packet (d, b) :: pending s'.
Proof.
  intros Hs Hd Hb Hdone Hdone' Hlen r s'. pose proof (wf_rx_index s Hs) as Hi. split.
  - destruct Hs. split; cbn; try done.
    + by rewrite length_insert.
    + apply wrap_ring_range.
    + apply Forall_insert; [done|]. rewrite Hlen. by apply (Forall_lookup_1 _ _ _ _ wf_rx_length0 Hd).
  - cbn. rewrite wrap_ring_next by done.
    rewrite <- (list_insert_id (receive_buffer s) (Z.to_nat (receive_index s)) b Hb) at 2.
    rewrite <- insert_zip_with.
    erewrite (finished_next _ (zip (receive_ring s) (receive_buffer s)) _ (d, b) (d', b));
      [|by rewrite lookup_zip_with, Hd, Hb|done|done].
    rewrite length_zip_with, (wf_rx_ring s Hs), (wf_rx_buffer s Hs). done.
Qed.

Lemma e1000_read s buf : wf s → ∃ s',
  read_packet buf s = (Ok match pending s with
    | [] => (None, buf)
    | p :: _ => let n := Nat.min (length buf) (length p) in
                (Some (Z.of_nat n), copy_at buf 0 (take n p))
    end, s') ∧ wf s' ∧ pending s' = tail (pending s).
Proof.
  intros Hs. destruct (rx_desc_run s Hs) as (d & b & Hrun & Hd & Hb & Hz & Hlb & Hld).
  unfold read_packet. rewrite (bind_ok _ _ _ _ _ Hrun). destruct (rd_done d) eqn:Hdone.
  - set (d' := mk_rd (rd_buffer d) (rd_length d) (rd_checksum d) 0 (rd_error d) (rd_special d)).
    set (s1 := set_receive (<[Z.to_nat (receive_index s) := d']> (receive_ring s)) (receive_index s) s).
    destruct (write_reg_run RDT (receive_index s) s1) as (x & r & Hw).
    destruct (rx_advance s d b d' Hs Hd Hb Hdone eq_refl eq_refl r) as [Hwf Hp]. rewrite Hp.
    eexists. split; [|split; [exact Hwf|done]].
    rewrite bind_get. erewrite bind_ok by done. rewrite Hb. erewrite bind_ok by done.
    rewrite bool_decide_eq_false_2 by (cbn; lia). fold d' s1. rewrite (bind_ok _ _ _ _ _ Hw).
    rewrite bind_modify. cbn [receive_ring receive_index set_receive set_regs s1].
    rewrite length_insert, (wf_rx_ring s Hs). done.
  - exists s. cbn. rewrite (finished_none _ _ _ (d, b) Hz Hdone). done.
Qed.

(** *** Sending *)

(** The receive side is as it was. *)
Definition same_rx (s s' : Intel8254x) : Prop :=
  receive_ring s' = receive_ring s ∧ receive_buffer s' = receive_buffer s ∧ receive_index s' = receive_index s.

Lemma same_rx_pending s s' : same_rx s s' → pending s' = pending s.
Proof. intros (H1 & H2 & H3). cbn. by rewrite H1, H2, H3. Qed.

Definition looked (s : Intel8254x) : Intel8254x :=
  set_transmit (transmit_buffer s) (hw (transmit_ring s)) (transmit_ring_free s)
    (transmit_index s) (transmit_clean_index s) s.
Definition took_back (s : Intel8254x) : Intel8254x :=
  set_transmit (transmit_buffer s) (transmit_ring s) (transmit_ring_free s + 1)
    (transmit_index s) (wrap_ring (transmit_clean_index s) 16) s.

Lemma looked_wf s : wf s → wf (looked s).
Proof using hw_length. intros []. split; cbn; rewrite ?hw_length; done. Qed.

Lemma took_back_wf s : wf s → transmit_ring_free s < 16 → wf (took_back s).
Proof.
  intros [] Hf. split; cbn; try done; [lia|apply wrap_ring_range|].
  rewrite wrap_ring_mod, Zplus_mod_idemp_l. rewrite <- wf_in_flight0. f_equal. lia.
Qed.

(** One look of the loop, at the descriptor after the card's work *)
Lemma reclaim_look looks s d :
  wf s → hw (transmit_ring s) !! Z.to_nat (transmit_clean_index s) = Some d →
  reclaim (S looks) s =
    if bool_decide (td_status d ≠ 0) then
      if bool_decide (16 ≤ transmit_ring_free s + 1) then (Ok tt, took_back (looked s))
      else reclaim looks (took_back (looked s))
    else if bool_decide (0 < transmit_ring_free s) then (Ok tt, looked s)
    else reclaim looks (looked s).
Proof using hw_length.
  intros Hs Hd. cbn [reclaim]. rewrite bind_modify. fold (looked s). rewrite bind_get.
  cbn [transmit_ring transmit_clean_index transmit_ring_free looked set_transmit]. rewrite Hd. erewrite bind_ok by done.
  rewrite hw_length, (wf_tx_ring s Hs). change (Z.of_nat 16) with 16. pose proof (wf_free s Hs).
  case_bool_decide; [|case_bool_decide; [done|]].
  - unfold mbind, comp_bind, put. by case_bool_decide.
  - by rewrite bool_decide_eq_false_2 by (cbn in *; lia).
Qed.

Lemma hw_desc s : wf s → ∃ d, hw (transmit_ring s) !! Z.to_nat (transmit_clean_index s) = Some d.
Proof using hw_length.
  intros []. apply lookup_lt_is_Some_2. rewrite hw_length. lia.
Qed.

(** What the loop leaves: some descriptor is free. *)
Definition reclaimed (s s' : Intel8254x) : Prop :=
  wf s' ∧ 1 ≤ transmit_ring_free s' ∧ same_rx s s' ∧ transmit_index s' = transmit_index s ∧
  transmit_buffer s' = transmit_buffer s.

Lemma reclaim_more looks s :
  wf s → 1 ≤ transmit_ring_free s → transmit_ring_free s < 16 → 16 - transmit_ring_free s < Z.of_nat looks →
  ∃ s', reclaim looks s = (Ok tt, s') ∧ reclaimed s s'.
Proof using hw_length.
  revert s. induction looks as [|looks IH]; intros s Hs Hf1 Hf2 Hl; [lia|].
  destruct (hw_desc s Hs) as [d Hd]. rewrite (reclaim_look looks s d Hs Hd).
  pose proof (looked_wf s Hs) as Hlk. pose proof (took_back_wf (looked s) Hlk Hf2) as Htb.
  case_bool_decide; [case_bool_decide|rewrite bool_decide_eq_true_2 by lia].
  - eexists. split; [done|]. by split_and!; [|cbn; lia|..].
  - destruct (IH (took_back (looked s)) Htb) as (s' & Hrun & Hw & Hf & (R1 & R2 & R3) & Ht & Hb);
      [cbn in *; lia..|]. exists s'. by split_and!.
  - eexists. split; [done|]. by split_and!.
Qed.

Lemma reclaim_first n looks s d :
  wf s → transmit_ring_free s = 0 → (n + 16 < looks)%nat →
  Nat.iter (S n) hw (transmit_ring s) !! Z.to_nat (transmit_clean_index s) = Some d → td_status d ≠ 0 →
  ∃ s', reclaim looks s = (Ok tt, s') ∧ reclaimed s s'.
Proof using hw_length.
  revert looks s. induction n as [|n IH]; intros looks s Hs Hf Hl Hd Hst.
  all: destruct looks as [|looks]; [lia|]; destruct (hw_desc s Hs) as [d0 Hd0];
    rewrite (reclaim_look looks s d0 Hs Hd0); pose proof (looked_wf s Hs) as Hlk;
    pose proof (took_back_wf (looked s) Hlk ltac:(cbn; lia)) as Htb; rewrite Hf.
  all: destruct (reclaim_more looks (took_back (looked s)) Htb) as (s' & Hrun & Hw & Hf' & (R1 & R2 & R3) & Ht & Hb);
    [cbn; lia|cbn; lia|cbn; lia|].
  - cbn in Hd. rewrite Hd0 in Hd. simplify_eq. rewrite bool_decide_eq_true_2 by done.
    exists s'. by split_and!.
  - case_bool_decide; [exists s'; by split_and!|]. cbn [bool_decide].
    destruct (IH looks (looked s) Hlk) as (s2 & Hrun2 & Hw2 & Hf2 & (Q1 & Q2 & Q3) & Ht2 & Hb2); [done|lia| |done|].
    + rewrite <- Hd. cbn [looked set_transmit transmit_ring transmit_clean_index].
      by rewrite <- Nat.iter_succ_r.
    + exists s2. by split_and!.
Qed.

(** The descriptors the card may still be reading *)
Definition in_flight (s : Intel8254x) (i : Z) : Prop :=
  ∃ k, 0 ≤ k < 16 - transmit_ring_free s ∧ i = (transmit_clean_index s + k) `mod` 16.

Lemma free_not_in_flight s : wf s → 1 ≤ transmit_ring_free s → ¬ in_flight s (transmit_index s).
Proof.
  intros [] Hf (k & Hk & He). rewrite <- wf_in_flight0 in He.
  pose proof (Z.div_mod (transmit_clean_index s + (16 - transmit_ring_free s)) 16).
  pose proof (Z.div_mod (transmit_clean_index s + k) 16). lia.
Qed.

(** What [write_packet] does once a descriptor is free: the packet goes into the
    descriptor at [transmit_index]. *)
Record sent (buf : bytes) (s s' : Intel8254x) : Prop := {
  sent_wf : wf s';
  sent_rx : same_rx s s';
  sent_free : transmit_ring_free s' = transmit_ring_free s - 1;
  sent_desc : ∃ desc data, transmit_ring s' !! Z.to_nat (transmit_index s) = Some desc ∧
    transmit_buffer s' !! Z.to_nat (transmit_index s) = Some data ∧
    td_length desc = Z.min (Z.of_nat (length buf)) 16383 ∧ td_status desc = 0 ∧
    take (Z.to_nat (td_length desc)) data = take (Z.to_nat (td_length desc)) buf;
}.

Lemma take_copy_buf (b0 buf : bytes) (n l : nat) :
  (l ≤ n)%nat → (n ≤ length buf)%nat → take l (copy_at b0 0 (take n buf)) = take l buf.
Proof.
  intros Hl Hn. rewrite copy_at_0, take_app_le by (rewrite length_take; lia).
  rewrite take_take. f_equal. lia.
Qed.

Lemma sent_after buf s r d0 b0 :
  wf s → 1 ≤ transmit_ring_free s → let t := Z.to_nat (transmit_index s) in
  transmit_ring s !! t = Some d0 → transmit_buffer s !! t = Some b0 → length b0 = Z.to_nat 16384 →
  let i := Nat.min (length buf) (length b0) in
  sent buf s (set_regs r (set_transmit (<[t := copy_at b0 0 (take i buf)]> (transmit_buffer s))
    (<[t := mk_td (td_buffer d0) (Z.min (Z.of_nat (length buf)) (Z.of_nat (length b0) - 1)) 0
        (Z.lor (Z.lor TD_CMD_EOP TD_CMD_IFCS) TD_CMD_RS) 0 0 0]> (transmit_ring s))
    (transmit_ring_free s - 1) (wrap_ring (transmit_index s) (Z.of_nat (length (transmit_ring s))))
    (transmit_clean_index s) s)).
Proof.
  intros Hs Hf t Hd Hb Hlen i. pose proof (wf_tx_index s Hs) as Hti.
  assert (t < 16)%nat as Ht by (unfold t; lia).
  assert (length (copy_at b0 0 (take i buf)) = length b0) as Hcopy
    by (apply length_copy_at; rewrite length_take; lia).
  rewrite (wf_tx_ring s Hs). change (Z.of_nat 16) with 16. split; [|done|done|].
  - destruct Hs. split; cbn; rewrite ?length_insert; try done; [|lia|apply wrap_ring_range|].
    + apply Forall_insert; [done|]. by rewrite Hcopy.
    + rewrite wrap_ring_mod, <- wf_in_flight0, Zplus_mod_idemp_l. f_equal. lia.
  - cbn. do 2 eexists. split_and!.
    + apply list_lookup_insert_eq. rewrite (wf_tx_ring s Hs). done.
    + apply list_lookup_insert_eq. rewrite (wf_tx_buffer s Hs). done.
    + cbn. rewrite Hlen. lia.
    + done.
    + cbn. apply take_copy_buf; lia.
Qed.

Lemma e1000_reclaims s : wf s → ∃ s1,
  (if bool_decide (transmit_ring_free s = 0) then reclaim patience else mret tt) s = (Ok tt, s1) ∧
  reclaimed s s1 ∧ (1 ≤ transmit_ring_free s → s1 = s).
Proof using hw_length hw_sends.
  intros Hs. pose proof (wf_free s Hs) as Hfree. case_bool_decide as Hz.
  - destruct (hw_sends (transmit_ring s) (Z.to_nat (transmit_clean_index s))) as (n & d & Hn & Hd & Hst);
      [apply Hs|pose proof (wf_clean s Hs); lia|].
    destruct (reclaim_first n patience s d Hs Hz Hn Hd Hst) as (s1 & Hrun & Hr). exists s1.
    split_and!; [done|apply Hr..|lia].
  - exists s. split; [done|]. split; [|done]. by split_and!; [|lia|..].
Qed.

Lemma e1000_write s buf : wf s → ∃ s1 s',
  reclaimed s s1 ∧ (1 ≤ transmit_ring_free s → s1 = s) ∧ sent buf s1 s' ∧
  write_packet buf s = (Ok (Z.of_nat (Nat.min (length buf) (Z.to_nat 16384))), s').
Proof using hw_length hw_sends.
  intros Hs. destruct (e1000_reclaims s Hs) as (s1 & Hrun & Hrec & Hkeep).
  pose proof Hrec as (Hw1 & Hf1 & _). pose proof (wf_tx_index s1 Hw1) as Hi.
  destruct (lookup_lt_is_Some_2 (transmit_ring s1) (Z.to_nat (transmit_index s1))) as [d0 Hd0];
    [rewrite (wf_tx_ring s1 Hw1); lia|].
  destruct (lookup_lt_is_Some_2 (transmit_buffer s1) (Z.to_nat (transmit_index s1))) as [b0 Hb0];
    [rewrite (wf_tx_buffer s1 Hw1); lia|].
  pose proof (Forall_lookup_1 _ _ _ _ (wf_tx_size s1 Hw1) Hb0) as Hlen. cbn beta in Hlen.
  unfold write_packet. rewrite bind_get, (bind_ok _ _ _ _ _ Hrun), bind_get, Hd0.
  erewrite bind_ok by done. rewrite Hb0. erewrite bind_ok by done.
  unfold sub_usize. rewrite bool_decide_eq_true_2 by lia. rewrite bind_ret.
  erewrite bind_ok by done. rewrite bind_get.
  match goal with |- context [(write_reg TDT ?v ≫= _) ?st] =>
    destruct (write_reg_run TDT v st) as (x & r & Hw) end.
  rewrite (bind_ok _ _ _ _ _ Hw). eexists s1, _. split; [done|]. split; [done|].
  split; [exact (sent_after buf s1 r d0 b0 Hw1 Hf1 Hd0 Hb0 Hlen)|]. by rewrite Hlen.
Qed.

Lemma e1000_laws : AdapterLaws Intel8254x.
Proof using hw_length hw_sends.
  split; cbn [ready NetDriver.mac_address NetDriver.available_for_read NetDriver.read_packet
    NetDriver.write_packet adapter view].
  - intros s Hs. exists (mac s), s. split_and!; [done|apply Hs|done|done].
  - exact e1000_avail.
  - exact (λ s buf, e1000_read s buf).
  - intros s buf Hs. destruct (e1000_write s buf Hs) as (s1 & s' & Hrec & _ & Hsent & Hrun).
    do 2 eexists. split; [exact Hrun|]. split_and!; [done|done|apply Hsent|].
    rewrite (same_rx_pending _ _ (sent_rx _ _ _ Hsent)). apply same_rx_pending, Hrec.
Qed.

(** *** Start-up *)

(** The card comes out of reset, and its link comes up, while the driver looks. *)
Hypothesis card_resets : ∀ d, ∃ d',
  reg_until patience CTRL (λ v, negb (bool_decide (Z.land v CTRL_RST = CTRL_RST))) d = (Ok tt, d').
Hypothesis link_comes_up : ∀ d, ∃ d', reg_until patience STATUS (λ v, bool_decide (Z.land v 2 = 2)) d = (Ok tt, d').

(** A computation on the registers that succeeds *)
Definition quiet {A} (m : comp Intel8254x A) : Prop := ∀ s, ∃ x d, m s = (Ok x, set_regs d s).

Lemma quiet_write r v : quiet (write_reg r v).
Proof. intros s. apply write_reg_run. Qed.

Lemma quiet_read r : quiet (read_reg r).
Proof.
  intros s. unfold read_reg, on_regs, reg_read, zoom. destruct (dev_read r (regs s)) as [x d]. by exists x, d.
Qed.

Lemma quiet_flag r fl v : quiet (flag r fl v).
Proof.
  intros s. destruct (quiet_read r s) as (x & d & Hx). unfold flag. rewrite (bind_ok _ _ _ _ _ Hx).
  destruct v; [destruct (write_reg_run r (Z.lor x fl) (set_regs d s)) as (y & d' & Hy)|
    destruct (write_reg_run r (Z.land x (u32_max - fl)) (set_regs d s)) as (y & d' & Hy)];
    rewrite (bind_ok _ _ _ _ _ Hy); by exists tt, d'.
Qed.

Lemma quiet_until r test : (∀ d, ∃ d', reg_until patience r test d = (Ok tt, d')) →
  quiet (on_regs (reg_until patience r test)).
Proof. intros Hd s. unfold on_regs, zoom. destruct (Hd (regs s)) as [d' ->]. by exists tt, d'. Qed.

Lemma wp_quiet {A} (m : comp Intel8254x A) (Q : outcome A → Intel8254x → Prop) s :
  quiet m → (∀ x d, Q (Ok x) (set_regs d s)) → wp m Q s.
Proof. intros Hm HQ. unfold wp. destruct (Hm s) as (x & d & ->). apply HQ. Qed.

(** The state after [init], up to the registers *)
Definition initialised (m : bytes) (s : Intel8254x) : Intel8254x :=
  set_transmit (transmit_buffer s) (imap (λ i d, set_td_buffer (tx_physical i) d) (transmit_ring s))
    (transmit_ring_free s) (transmit_index s) (transmit_clean_index s)
    (set_receive (imap (λ i d, set_rd_buffer (rx_physical i) d) (receive_ring s)) (receive_index s) (set_mac m s)).

Ltac quiet_step := wp_step; apply wp_quiet;
  [first [apply quiet_flag | apply quiet_write | apply quiet_read |
          apply quiet_until; [exact card_resets || exact link_comes_up]]|intros ? ?; cbv beta iota zeta].

Lemma init_run s : ∃ low high d, init s = (Ok tt, set_regs d (initialised (mac_of low high) s)).
Proof using card_resets link_comes_up.
  assert (wp init (λ r s', ∃ low high d, r = Ok tt ∧ s' = set_regs d (initialised (mac_of low high) s)) s) as Hw.
  { unfold init. do 11 quiet_step. do 2 wp_step. do 2 wp_step. do 2 quiet_step. do 2 wp_step. do 3 quiet_step.
    do 2 wp_step. do 2 quiet_step. do 2 wp_step. do 15 quiet_step.
    apply wp_quiet; [by apply quiet_until|]. intros [] dz. by do 3 eexists. }
  unfold wp in Hw. destruct (init s) as [r s']. cbn in Hw. destruct Hw as (low & high & d & -> & ->).
  by exists low, high, d.
Qed.

(** A new driver is ready, has no packet, and has told the card where the buffers are. *)
Lemma new_run d : ∃ s, new d = Ok s ∧ wf s ∧ pending s = [] ∧
  (∀ i x, receive_ring s !! i = Some x → rd_buffer x = rx_physical i) ∧
  (∀ i x, transmit_ring s !! i = Some x → td_buffer x = tx_physical i).
Proof using card_resets link_comes_up.
  unfold new. match goal with |- context [init ?s0] => set (st := s0) end.
  destruct (init_run st) as (low & high & d' & ->). eexists. split; [done|]. split_and!.
  - split; cbn; try done; try lia; rewrite ?length_imap; try done.
    + repeat (apply Forall_cons; split; [apply length_replicate|]). constructor.
    + repeat (apply Forall_cons; split; [cbn; lia|]). constructor.
    + repeat (apply Forall_cons; split; [apply length_replicate|]). constructor.
  - cbn. done.
  - intros i x Hx. cbn [receive_ring set_regs initialised set_transmit set_receive] in Hx.
    rewrite list_lookup_imap in Hx. apply fmap_Some in Hx as (y & _ & ->). done.
  - intros i x Hx. cbn [transmit_ring set_regs initialised set_transmit] in Hx.
    rewrite list_lookup_imap in Hx. apply fmap_Some in Hx as (y & _ & ->). done.
Qed.
End Driver.

(** C20. The e1000 driver is a queue of packets: over a card that keeps the ring sizes and
    finishes sending in time, its adapter keeps the contract, with the queue read off the
    receive ring: a read returns the packet of the first finished descriptor, cut to the
    buffer, and hands that descriptor back, and nothing else changes the queue.  A packet
    to send goes, with its length, into a descriptor that is not in flight: when none is
    free the driver first waits for one. *)
Theorem e1000_keeps_contract {D : Type} {dev : RegDevice D} (hw : list Td → list Td) (patience : nat) :
  (∀ ring, length (hw ring) = length ring) →
  (∀ ring i, length ring = 16%nat → (i < 16)%nat →
    ∃ n d, (n + 16 < patience)%nat ∧ Nat.iter (S n) hw ring !! i = Some d ∧ td_status d ≠ 0) →
  AdapterLaws Intel8254x (NA := adapter hw patience) (view := view) ∧
  ∀ s buf, wf s → ∃ s1 s', reclaimed s s1 ∧ ¬ in_flight s1 (transmit_index s1) ∧ sent buf s1 s' ∧
    write_packet hw patience buf s = (Ok (Z.of_nat (Nat.min (length buf) (Z.to_nat 16384))), s').
Proof.
  intros Hlen Hsends. split; [by apply e1000_laws|]. intros s buf Hs.
  destruct (e1000_write hw patience Hlen Hsends s buf Hs) as (s1 & s' & Hrec & _ & Hsent & Hrun).
  exists s1, s'. split_and!; [apply Hrec..| |done|done].
  destruct Hrec as (Hw1 & Hf1 & _). by apply free_not_in_flight.
Qed.

Section Example.
(** A card with no registers that sends at once *)
Definition demo_regs : RegDevice unit := {| dev_read _ d := (0, d); dev_write _ _ d := d |}.
Definition demo_hw (ring : list Td) : list Td :=
  (λ d, mk_td (td_buffer d) (td_length d) (td_cso d) (td_command d) 1 (td_css d) (td_special d)) <$> ring.

Lemma e1000_keeps_contract_witness :
  AdapterLaws Intel8254x (NA := adapter (dev := demo_regs) demo_hw 17) (view := view) ∧
  (demo_hw [zero_td]) !! 0%nat = Some (mk_td 0 0 0 0 1 0 0).
Proof.
  split; [|done].
  destruct (e1000_keeps_contract (dev := demo_regs) demo_hw 17) as [Hlaws _].
  - intros ring. unfold demo_hw. apply length_fmap.
  - intros ring i Hl Hi. destruct (lookup_lt_is_Some_2 ring i) as [d Hd]; [lia|].
    exists 0%nat. eexists. split_and!; [lia|cbn; unfold demo_hw; by rewrite list_lookup_fmap, Hd|done].
  - exact Hlaws.
Defined.
End Example.
