(* ===== verification/Rtl8168.v ===== *)
(** * rtl8168d

    The [NetworkAdapter] of [drivers/net/rtl8168d/src/device.rs], for the Realtek 8168, and
    that it keeps the contract that [NetDriverSpec] asks of an adapter.

    A descriptor belongs to the card while its [OWN] bit is set.  As in [E1000], the memory
    shared with the card is in the driver's record, the card's work on the transmit ring
    while the driver spins is the parameter [hw], a loop that waits for the card is given
    [patience] looks, and physical addresses are parameters.  The loops that copy a packet
    byte by byte are copies of lists; a byte past the end of the DMA buffer is a panic. *)

From S2P Require Import Prelude NetDriver NetDriverSpec NetCard.

Definition OWN : Z := Z.shiftl 1 31.
Definition EOR : Z := Z.shiftl 1 30.
Definition FS : Z := Z.shiftl 1 29.
Definition LS : Z := Z.shiftl 1 28.

(** The offsets of the fields of [Regs] that the driver uses *)
Definition MAC0 : Z := 0x00.
Definition MAC1 : Z := 0x04.
Definition TNPDS0 : Z := 0x20.
Definition TNPDS1 : Z := 0x24.
Definition THPDS0 : Z := 0x28.
Definition THPDS1 : Z := 0x2C.
Definition CMD : Z := 0x37.
Definition TPPOLL : Z := 0x38.
Definition IMR : Z := 0x3C.
Definition ISR : Z := 0x3E.
Definition TCR : Z := 0x40.
Definition RCR : Z := 0x44.
Definition CMD_9346 : Z := 0x50.
Definition TIMER_INT : Z := 0x58.
Definition RMS : Z := 0xDA.
Definition RDSAR0 : Z := 0xE4.
Definition RDSAR1 : Z := 0xE8.
Definition MTPS : Z := 0xEC.

(** [Rd] and [Td]: the same fields *)
Record Desc := mk_desc { ctrl : Z; vlan : Z; buffer_low : Z; buffer_high : Z }.

Definition set_ctrl v (d : Desc) := mk_desc v (vlan d) (buffer_low d) (buffer_high d).
Definition set_buffer p (d : Desc) := mk_desc (ctrl d) (vlan d) (wrap_u32 p) (wrap_u32 (Z.shiftr p 32)).

(** [ctrl.readf(OWN)] *)
Definition owned (d : Desc) : bool := bool_decide (Z.land (ctrl d) OWN = OWN).

Section Driver.
Context {D : Type} {dev : RegDevice D}.
Context (hw : list Desc → list Desc) (patience : nat).
Context (rx_physical tx_physical : nat → Z) (rx_ring_physical tx_ring_physical tx_h_physical tx_ring_h_physical : Z).

Record Rtl8168 := mk_rtl8168 {
  regs : D;
  receive_buffer : list bytes;
  receive_ring : list Desc;
  receive_i : Z;
  transmit_buffer : list bytes;
  transmit_ring : list Desc;
  transmit_i : Z;
  transmit_ring_h : list Desc;
  mac : bytes;
}.

Definition set_regs d (s : Rtl8168) := mk_rtl8168 d (receive_buffer s) (receive_ring s) (receive_i s)
  (transmit_buffer s) (transmit_ring s) (transmit_i s) (transmit_ring_h s) (mac s).
Definition set_receive ring i (s : Rtl8168) := mk_rtl8168 (regs s) (receive_buffer s) ring i
  (transmit_buffer s) (transmit_ring s) (transmit_i s) (transmit_ring_h s) (mac s).
Definition set_transmit bufs ring i (s : Rtl8168) := mk_rtl8168 (regs s) (receive_buffer s) (receive_ring s)
  (receive_i s) bufs ring i (transmit_ring_h s) (mac s).
Definition set_ring_h ring (s : Rtl8168) := mk_rtl8168 (regs s) (receive_buffer s) (receive_ring s)
  (receive_i s) (transmit_buffer s) (transmit_ring s) (transmit_i s) ring (mac s).
Definition set_mac m (s : Rtl8168) := mk_rtl8168 (regs s) (receive_buffer s) (receive_ring s)
  (receive_i s) (transmit_buffer s) (transmit_ring s) (transmit_i s) (transmit_ring_h s) m.

Definition on_regs {A} (m : comp D A) : comp Rtl8168 A := zoom regs set_regs m.

Definition mac_address : comp Rtl8168 bytes := gets mac.

(** The index, back at the start once it is past the end *)
Definition wrapped (i : Z) (ring : list Desc) : Z := if bool_decide (Z.of_nat (length ring) ≤ i) then 0 else i.

Definition next_read : comp Rtl8168 Z :=
  s ← get;
  rd ← expect (receive_ring s !! Z.to_nat (wrapped (receive_i s) (receive_ring s)));
  mret (if owned rd then 0 else Z.land (ctrl rd) 0x3FFF).

Definition read_packet (buf : bytes) : comp Rtl8168 (option Z * bytes) :=
  modify (λ s, set_receive (receive_ring s) (wrapped (receive_i s) (receive_ring s)) s);;
  s ← get;
  let r := Z.to_nat (receive_i s) in
  rd ← expect (receive_ring s !! r);
  if owned rd then mret (None, buf) else
  let rd_len := Z.land (ctrl rd) 0x3FFF in
  data ← expect (receive_buffer s !! r);
  let n := Nat.min (length buf) (Z.to_nat rd_len) in
  if bool_decide (length data < n)%nat then panic else
  let eor := Z.land (ctrl rd) EOR in
  put (set_receive (<[r := set_ctrl (Z.lor (Z.lor OWN eor) (wrap_u32 (Z.of_nat (length data)))) rd]> (receive_ring s))
    (receive_i s + 1) s);;
  mret (Some (Z.of_nat n), copy_at buf 0 (take n data)).

(** The loop of [write_packet] up to a descriptor that the driver owns *)
Fixpoint wait_own (looks : nat) : comp Rtl8168 Desc :=
  match looks with
  | O => panic
  | S looks =>
     modify (λ s, set_transmit (transmit_buffer s) (hw (transmit_ring s))
       (wrapped (transmit_i s) (transmit_ring s)) s);;
     s ← get;
     td ← expect (transmit_ring s !! Z.to_nat (transmit_i s));
     if owned td then wait_own looks else mret td
  end.

Definition write_packet (buf : bytes) : comp Rtl8168 Z :=
  td ← wait_own patience;
  s ← get;
  let t := Z.to_nat (transmit_i s) in
  data ← expect (transmit_buffer s !! t);
  if bool_decide (length data < length buf)%nat then fail EMSGSIZE else
  let i := length buf in
  let eor := Z.land (ctrl td) EOR in
  put (set_transmit (<[t := copy_at data 0 buf]> (transmit_buffer s))
    (<[t := set_ctrl (Z.lor (Z.lor (Z.lor (Z.lor OWN eor) FS) LS) (wrap_u32 (Z.of_nat i))) td]> (transmit_ring s))
    (transmit_i s) s);;
  on_regs (writef 255 TPPOLL (Z.shiftl 1 6) true);;
  on_regs (reg_until patience TPPOLL (λ v, negb (bool_decide (Z.land v (Z.shiftl 1 6) = Z.shiftl 1 6))));;
  modify (λ s, set_transmit (transmit_buffer s) (transmit_ring s) (transmit_i s + 1) s);;
  mret (Z.of_nat i).

(** [irq]: read and clear the interrupt status *)
Definition irq : comp Rtl8168 bool :=
  isr ← on_regs (reg_read ISR);
  on_regs (reg_write ISR isr);;
  imr ← on_regs (reg_read IMR);
  mret (negb (Z.land isr imr =? 0)).

(** [ring.last_mut()] with [ctrl.writef(EOR, true)] *)
Definition mark_last (ring : list Desc) : list Desc :=
  alter (λ d, set_ctrl (Z.lor (ctrl d) EOR) d) (length ring - 1)%nat ring.

Definition init : comp Rtl8168 unit :=
  mac_low ← on_regs (reg_read MAC0);
  mac_high ← on_regs (reg_read MAC1);
  modify (set_mac (mac_of mac_low mac_high));;
  on_regs (writef 255 CMD (Z.shiftl 1 4) true);;
  on_regs (reg_within patience CMD (λ v, negb (bool_decide (Z.land v (Z.shiftl 1 4) = Z.shiftl 1 4))));;
  modify (λ s, set_receive (imap (λ i d, set_ctrl (Z.lor OWN 0x1FF8) (set_buffer (rx_physical i) d))
    (receive_ring s)) (receive_i s) s);;
  modify (λ s, set_receive (mark_last (receive_ring s)) (receive_i s) s);;
  modify (λ s, set_transmit (transmit_buffer s)
    (imap (λ i d, set_buffer (tx_physical i) d) (transmit_ring s)) (transmit_i s) s);;
  modify (λ s, set_transmit (transmit_buffer s) (mark_last (transmit_ring s)) (transmit_i s) s);;
  modify (λ s, set_ring_h (imap (λ _ d, set_buffer tx_h_physical d) (transmit_ring_h s)) s);;
  modify (λ s, set_ring_h (mark_last (transmit_ring_h s)) s);;
  on_regs (reg_write CMD_9346 (Z.lor (Z.shiftl 1 7) (Z.shiftl 1 6)));;
  on_regs (writef 255 CMD (Z.lor (Z.shiftl 1 3) (Z.shiftl 1 2)) true);;
  on_regs (reg_write RMS 0x1FF8);;
  on_regs (reg_write MTPS 0x3B);;
  on_regs (reg_write TNPDS0 (wrap_u32 tx_ring_physical));;
  on_regs (reg_write TNPDS1 (wrap_u32 (Z.shiftr tx_ring_physical 32)));;
  on_regs (reg_write THPDS0 (wrap_u32 tx_ring_h_physical));;
  on_regs (reg_write THPDS1 (wrap_u32 (Z.shiftr tx_ring_h_physical 32)));;
  on_regs (reg_write RDSAR0 (wrap_u32 rx_ring_physical));;
  on_regs (reg_write RDSAR1 (wrap_u32 (Z.shiftr rx_ring_physical 32)));;
  on_regs (reg_write TIMER_INT 0);;
  isr ← on_regs (reg_read ISR);
  on_regs (reg_write ISR isr);;
  on_regs (reg_write IMR 0xC0FF);;
  on_regs (reg_write TCR (Z.lor (Z.shiftl 3 24) (Z.shiftl 7 8)));;
  on_regs (reg_write RCR 0xE70E);;
  on_regs (reg_write CMD_9346 0).

Definition zero_desc : Desc := mk_desc 0 0 0 0.

(** [Rtl8168::new] once the DMA memory is allocated, zeroed *)
Definition new (d : D) : outcome Rtl8168 :=
  match init (mk_rtl8168 d (replicate 64 (replicate (Z.to_nat 0x1FF8) 0)) (replicate 64 zero_desc) 0
               (replicate 16 (replicate (Z.to_nat 7552) 0)) (replicate 16 zero_desc) 0 [zero_desc]
               [0; 0; 0; 0; 0; 0]) with
  | (Ok _, s) => Ok s
  | (Err e, _) => Err e
  | (Panic, _) => Panic
  end.

Definition adapter : NetworkAdapter Rtl8168 := {|
  NetDriver.mac_address := mac_address;
  NetDriver.available_for_read := next_read;
  NetDriver.read_packet := read_packet;
  NetDriver.write_packet := write_packet;
|}.

(** ** The queue in the receive ring *)

(** The last descriptor of a ring, and no other, has the end-of-ring mark. *)
Definition marked (ring : list Desc) : Prop :=
  ∀ i d, ring !! i = Some d → Z.testbit (ctrl d) 30 = bool_decide (S i = length ring).

Record wf (s : Rtl8168) : Prop := {
  wf_rx_ring : length (receive_ring s) = 64%nat;
  wf_rx_buffer : length (receive_buffer s) = 64%nat;
  wf_rx_size : Forall (λ b, length b = Z.to_nat 0x1FF8) (receive_buffer s);
  wf_rx_i : 0 ≤ receive_i s ≤ 64;
  wf_rx_length : Forall (λ d, owned d = false → Z.land (ctrl d) 0x3FFF ≤ 0x1FF8) (receive_ring s);
  wf_rx_mark : marked (receive_ring s);
  wf_mac : length (mac s) = 6%nat;
  wf_tx_ring : length (transmit_ring s) = 16%nat;
  wf_tx_buffer : length (transmit_buffer s) = 16%nat;
  wf_tx_size : Forall (λ b, length b = Z.to_nat 7552) (transmit_buffer s);
  wf_tx_i : 0 ≤ transmit_i s ≤ 16;
  wf_tx_mark : marked (transmit_ring s);
}.

Definition packet (p : Desc * bytes) : bytes := take (Z.to_nat (Z.land (ctrl p.1) 0x3FFF)) p.2.

Definition rx_at (s : Rtl8168) : nat := Z.to_nat (wrapped (receive_i s) (receive_ring s)).

Definition view : AdapterView Rtl8168 := {|
  ready := wf;
  pending s := packet <$> finished (λ p, negb (owned p.1)) (rx_at s) (zip (receive_ring s) (receive_buffer s));
|}.

(** The card keeps the ring's size and its end mark, hands a descriptor back soon enough,
    and takes note of a poll request. *)
Hypothesis hw_length : ∀ ring, length (hw ring) = length ring.
Hypothesis hw_marked : ∀ ring, marked ring → marked (hw ring).
Hypothesis hw_sends : ∀ ring i, length ring = 16%nat → (i < 16)%nat →
  ∃ n d, (n < patience)%nat ∧ Nat.iter (S n) hw ring !! i = Some d ∧ owned d = false.
Hypothesis card_polls : ∀ d, ∃ d',
  reg_until patience TPPOLL (λ v, negb (bool_decide (Z.land v (Z.shiftl 1 6) = Z.shiftl 1 6))) d = (Ok tt, d').

#[local] Existing Instance adapter.
#[local] Existing Instance view.

(** *** Control words *)

Lemma owned_lor x y z w : owned (mk_desc (Z.lor (Z.lor OWN x) y) z w 0) = true.
Proof.
  unfold owned. apply bool_decide_eq_true. cbn. apply Z.bits_inj'. intros n Hn.
  rewrite Z.land_spec, !Z.lor_spec. by destruct (Z.testbit OWN n); rewrite ?andb_false_r.
Qed.

Lemma owned_set_ctrl v d : owned (set_ctrl v d) = owned (mk_desc v 0 0 0).
Proof. done. Qed.

Lemma small_bit30 x : 0 ≤ x < 2 ^ 30 → Z.testbit x 30 = false.
Proof.
  intros Hx. destruct (decide (x = 0)) as [->|]; [done|].
  apply Z.bits_above_log2; [lia|]. apply Z.log2_lt_pow2; lia.
Qed.

Lemma mark_kept c y : 0 ≤ y < 2 ^ 30 →
  Z.testbit (Z.lor (Z.lor OWN (Z.land c EOR)) y) 30 = Z.testbit c 30.
Proof.
  intros Hy. rewrite !Z.lor_spec, Z.land_spec, (small_bit30 y Hy).
  change (Z.testbit OWN 30) with false. change (Z.testbit EOR 30) with true.
  by rewrite andb_true_r, orb_false_r.
Qed.

Lemma marked_insert ring i d d' :
  marked ring → ring !! i = Some d → Z.testbit (ctrl d') 30 = Z.testbit (ctrl d) 30 →
  marked (<[i := d']> ring).
Proof.
  intros Hm Hd Hb j x Hx. rewrite length_insert. apply list_lookup_insert_Some in Hx as [(-> & <- & _)|[_ Hx]].
  - rewrite Hb. by apply Hm.
  - by apply Hm.
Qed.

(** *** Receiving *)

Lemma rx_at_lt s : wf s → (rx_at s < 64)%nat.
Proof. intros []. unfold rx_at, wrapped. rewrite wf_rx_ring0. case_bool_decide; lia. Qed.

Lemma rx_entry s : wf s → ∃ d b,
  receive_ring s !! rx_at s = Some d ∧ receive_buffer s !! rx_at s = Some b ∧
  zip (receive_ring s) (receive_buffer s) !! rx_at s = Some (d, b) ∧ length b = Z.to_nat 0x1FF8.
Proof.
  intros Hs. pose proof (rx_at_lt s Hs) as Hi.
  destruct (lookup_lt_is_Some_2 (receive_ring s) (rx_at s)) as [d Hd]; [rewrite (wf_rx_ring s Hs); lia|].
  destruct (lookup_lt_is_Some_2 (receive_buffer s) (rx_at s)) as [b Hb]; [rewrite (wf_rx_buffer s Hs); lia|].
  exists d, b. split_and!; [done|done|by rewrite lookup_zip_with, Hd, Hb|].
  by apply (Forall_lookup_1 _ _ _ _ (wf_rx_size s Hs) Hb).
Qed.

Lemma rtl8168_avail s : wf s → ∃ n s', next_read s = (Ok n, s') ∧ wf s' ∧ pending s' = pending s.
Proof.
  intros Hs. destruct (rx_entry s Hs) as (d & b & Hd & _). unfold next_read. rewrite bind_get.
  fold (rx_at s). rewrite Hd. by do 2 eexists.
Qed.

(** Giving the descriptor back to the card and moving on takes the first packet. *)
Lemma rtl_rx_advance s d b :
  wf s → receive_ring s !! rx_at s = Some d → receive_buffer s !! rx_at s = Some b →
  owned d = false → length b = Z.to_nat 0x1FF8 →
  let s' := set_receive (<[rx_at s := set_ctrl (Z.lor (Z.lor OWN (Z.land (ctrl d) EOR))
      (wrap_u32 (Z.of_nat (length b)))) d]> (receive_ring s)) (Z.of_nat (rx_at s) + 1) s in
  wf s' ∧ pending s = packet (d, b) :: pending s'.
Proof.
  intros Hs Hd Hb Hown Hlen s'. pose proof (rx_at_lt s Hs) as Hi.
  set (d' := set_ctrl (Z.lor (Z.lor OWN (Z.land (ctrl d) EOR)) (wrap_u32 (Z.of_nat (length b)))) d) in *.
  assert (owned d' = true) as Hown' by (unfold d'; rewrite owned_set_ctrl; apply owned_lor).
  assert (rx_at s' = next 64 (rx_at s)) as Hat.
  { unfold rx_at at 1, wrapped. cbn. rewrite length_insert, (wf_rx_ring s Hs). unfold next.
    repeat case_bool_decide; lia. }
  split.
  - destruct Hs. split; cbn; try done; [by rewrite length_insert|lia| |].
    + apply Forall_insert; [done|]. rewrite Hown'. done.
    + eapply marked_insert; [done|exact Hd|]. cbn. apply mark_kept. rewrite Hlen. done.
  - cbn. rewrite Hat. rewrite <- (list_insert_id (receive_buffer s) (rx_at s) b Hb) at 2.
    rewrite <- insert_zip_with.
    rewrite (finished_next _ (zip (receive_ring s) (receive_buffer s)) _ (d, b) (d', b));
      [|by rewrite lookup_zip_with, Hd, Hb|cbn; by rewrite Hown|cbn; by rewrite Hown'].
    rewrite length_zip_with, (wf_rx_ring s Hs), (wf_rx_buffer s Hs). done.
Qed.

Lemma rx_wrap s : wf s →
  let s' := set_receive (receive_ring s) (wrapped (receive_i s) (receive_ring s)) s in
  wf s' ∧ pending s' = pending s ∧ rx_at s' = rx_at s ∧ Z.to_nat (receive_i s') = rx_at s ∧
  0 ≤ receive_i s'.
Proof.
  intros Hs s'. assert (rx_at s' = rx_at s) as Hat.
  { unfold rx_at, wrapped. cbn. unfold wrapped. repeat case_bool_decide; lia. }
  split_and!; [|cbn; by rewrite Hat|done|done|].
  - destruct Hs. split; cbn; try done. unfold wrapped. case_bool_decide; lia.
  - destruct Hs. cbn. unfold wrapped. case_bool_decide; lia.
Qed.

Lemma rtl8168_read s buf : wf s → ∃ s',
  read_packet buf s = (Ok match pending s with
    | [] => (None, buf)
    | p :: _ => let n := Nat.min (length buf) (length p) in
                (Some (Z.of_nat n), copy_at buf 0 (take n p))
    end, s') ∧ wf s' ∧ pending s' = tail (pending s).
Proof.
  intros Hs0. destruct (rx_wrap s Hs0) as (Hs & Hpend & _ & Hi & Hpos). rewrite <- Hpend.
  unfold read_packet. rewrite bind_modify, bind_get.
  set (s1 := set_receive (receive_ring s) (wrapped (receive_i s) (receive_ring s)) s) in *.
  assert (Z.to_nat (receive_i s1) = rx_at s1) as Hat1.
  { destruct (rx_wrap s Hs0) as (_ & _ & Heq & _). fold s1 in Heq. by rewrite Heq. }
  destruct (rx_entry s1 Hs) as (d & b & Hd & Hb & Hz & Hlen). rewrite Hat1, Hd. erewrite bind_ok by done.
  destruct (owned d) eqn:Hown.
  - exists s1. split; [|split; [done|]]; cbn; by rewrite (finished_none _ _ _ (d, b) Hz) by (cbn; by rewrite Hown).
  - destruct (rtl_rx_advance s1 d b Hs Hd Hb Hown Hlen) as [Hwf Hp]. rewrite Hp, Hb. erewrite bind_ok by done.
    pose proof (Forall_lookup_1 _ _ _ _ (wf_rx_length s1 Hs) Hd Hown) as Hrl.
    rewrite bool_decide_eq_false_2 by lia.
    assert (length (packet (d, b)) = Z.to_nat (Z.land (ctrl d) 0x3FFF)) as Hpl
      by (unfold packet; cbn [fst snd]; rewrite length_take; lia).
    eexists. split; [|split; [exact Hwf|done]]. rewrite Hpl.
    erewrite bind_ok by done. replace (receive_i s1) with (Z.of_nat (rx_at s1)) by lia.
    unfold mret, comp_ret. do 4 f_equal. unfold packet. cbn [fst snd]. rewrite take_take. f_equal. lia.
Qed.

(** *** Sending *)

Definition same_rx (s s' : Rtl8168) : Prop :=
  receive_ring s' = receive_ring s ∧ receive_buffer s' = receive_buffer s ∧ receive_i s' = receive_i s.

Lemma rtl_same_rx_pending s s' : same_rx s s' → pending s' = pending s.
Proof. intros (H1 & H2 & H3). cbn. unfold rx_at. by rewrite H1, H2, H3. Qed.

(** The state after [k] looks at the transmit ring *)
Definition looked (k : nat) (s : Rtl8168) : Rtl8168 :=
  set_transmit (transmit_buffer s) (Nat.iter k hw (transmit_ring s)) (wrapped (transmit_i s) (transmit_ring s)) s.

Lemma iter_length k ring : length (Nat.iter k hw ring) = length ring.
Proof using hw_length. induction k as [|k IH]; [done|]. by rewrite Nat.iter_succ, hw_length. Qed.

Lemma iter_marked k ring : marked ring → marked (Nat.iter k hw ring).
Proof using hw_marked. intros Hm. induction k as [|k IH]; [done|]. rewrite Nat.iter_succ. by apply hw_marked. Qed.

Lemma rtl_looked_wf k s : wf s → wf (looked k s).
Proof using hw_length hw_marked.
  intros []. split; cbn; try done; rewrite ?iter_length; [done| |by apply iter_marked].
  unfold wrapped. rewrite wf_tx_ring0. case_bool_decide; lia.
Qed.

Lemma tx_at_lt s : wf s → 0 ≤ wrapped (transmit_i s) (transmit_ring s) < 16.
Proof. intros []. unfold wrapped. rewrite wf_tx_ring0. case_bool_decide; lia. Qed.

Lemma looked_at s : wf s →
  wrapped (transmit_i (looked 1 s)) (transmit_ring (looked 1 s)) = wrapped (transmit_i s) (transmit_ring s).
Proof using hw_length.
  intros Hs. pose proof (tx_at_lt s Hs). unfold wrapped at 1.
  rewrite bool_decide_eq_false_2; [done|]. cbn [looked set_transmit transmit_ring transmit_i].
  rewrite iter_length, (wf_tx_ring s Hs). lia.
Qed.

Lemma looked_S k s : wf s → looked k (looked 1 s) = looked (S k) s.
Proof using hw_length.
  intros Hs. unfold looked at 1. rewrite (looked_at s Hs). unfold looked.
  cbn [set_transmit transmit_buffer transmit_ring]. by rewrite (Nat.iter_succ_r k).
Qed.

Lemma wait_own_run n looks s d :
  wf s → (n < looks)%nat →
  Nat.iter (S n) hw (transmit_ring s) !! Z.to_nat (wrapped (transmit_i s) (transmit_ring s)) = Some d →
  owned d = false →
  ∃ k td, wait_own looks s = (Ok td, looked (S k) s) ∧ owned td = false ∧
    transmit_ring (looked (S k) s) !! Z.to_nat (transmit_i (looked (S k) s)) = Some td.
Proof using hw_length hw_marked.
  revert looks s. induction n as [|n IH]; intros looks s Hs Hl Hd Hown.
  all: destruct looks as [|looks]; [lia|]; cbn [wait_own]; rewrite bind_modify, bind_get;
    change (set_transmit _ (hw (transmit_ring s)) _ s) with (looked 1 s).
  - cbn in Hd. cbn [transmit_ring transmit_i looked set_transmit Nat.iter nat_rect]. rewrite Hd.
    erewrite bind_ok by done. rewrite Hown. exists 0%nat, d. split_and!; [done|done|]. cbn. done.
  - pose proof (tx_at_lt s Hs) as Ht.
    destruct (lookup_lt_is_Some_2 (transmit_ring (looked 1 s)) (Z.to_nat (transmit_i (looked 1 s)))) as [d0 Hd0].
    { cbn. rewrite hw_length, (wf_tx_ring s Hs). lia. }
    rewrite Hd0. erewrite bind_ok by done. destruct (owned d0) eqn:Ho; [|by exists 0%nat, d0].
    destruct (IH looks (looked 1 s) (rtl_looked_wf 1 s Hs)) as (k & td & Hrun & Htd & Hlk); [lia| |done|].
    { rewrite (looked_at s Hs), <- Hd. cbn [looked set_transmit transmit_ring].
      by rewrite (Nat.iter_succ_r (S n)). }
    exists (S k), td. rewrite (looked_S (S k) s Hs) in *. done.
Qed.

(** The packet is in the descriptor that the driver owned, which is the card's now. *)
Definition sent (buf : bytes) (s' : Rtl8168) : Prop :=
  ∃ t td data, transmit_i s' = Z.of_nat t + 1 ∧ transmit_ring s' !! t = Some td ∧
    transmit_buffer s' !! t = Some data ∧ owned td = true ∧
    ctrl td = Z.lor (Z.lor (Z.lor (Z.lor OWN (Z.land (ctrl td) EOR)) FS) LS) (Z.of_nat (length buf)) ∧
    take (length buf) data = buf.

Lemma writef_run max r fl v s : ∃ d, on_regs (writef max r fl v) s = (Ok tt, set_regs d s).
Proof.
  unfold on_regs, zoom, writef, reg_read, reg_write, modify, mbind, comp_bind.
  destruct (dev_read r (regs s)) as [x d]. by eexists.
Qed.

Lemma poll_run s : ∃ d, on_regs (reg_until patience TPPOLL
    (λ v, negb (bool_decide (Z.land v (Z.shiftl 1 6) = Z.shiftl 1 6)))) s = (Ok tt, set_regs d s).
Proof using card_polls. unfold on_regs, zoom. destruct (card_polls (regs s)) as [d' ->]. by exists d'. Qed.

Definition tx_ctrl (td : Desc) (n : nat) : Z :=
  Z.lor (Z.lor (Z.lor (Z.lor OWN (Z.land (ctrl td) EOR)) FS) LS) (wrap_u32 (Z.of_nat n)).

Lemma tx_ctrl_owned td n : owned (set_ctrl (tx_ctrl td n) td) = true.
Proof.
  unfold tx_ctrl. rewrite owned_set_ctrl. rewrite <- (Z.lor_assoc OWN), <- (Z.lor_assoc OWN). apply owned_lor.
Qed.

Lemma tx_ctrl_bits td n (m : Z) : (n ≤ Z.to_nat 7552)%nat → 28 ≤ m →
  Z.testbit (tx_ctrl td n) m = Z.testbit (Z.lor (Z.lor (Z.lor OWN (Z.land (ctrl td) EOR)) FS) LS) m.
Proof.
  intros Hn Hm. unfold tx_ctrl. rewrite Z.lor_spec.
  assert (Z.testbit (wrap_u32 (Z.of_nat n)) m = false) as ->; [|by rewrite orb_false_r].
  unfold wrap_u32. rewrite Z.mod_small by lia. destruct (decide (n = 0%nat)) as [->|]; [by rewrite Z.testbit_0_l|].
  apply Z.bits_above_log2; [lia|]. apply Z.log2_lt_pow2; [lia|].
  apply Z.lt_le_trans with (2 ^ 28); [lia|]. apply Z.pow_le_mono_r; lia.
Qed.

Lemma tx_ctrl_mark td n : (n ≤ Z.to_nat 7552)%nat → Z.testbit (tx_ctrl td n) 30 = Z.testbit (ctrl td) 30.
Proof.
  intros Hn. rewrite (tx_ctrl_bits td n 30 Hn) by lia. rewrite !Z.lor_spec, Z.land_spec.
  change (Z.testbit OWN 30) with false. change (Z.testbit FS 30) with false.
  change (Z.testbit LS 30) with false. change (Z.testbit EOR 30) with true.
  by rewrite !orb_false_r, andb_true_r.
Qed.

Lemma tx_ctrl_eor td n : (n ≤ Z.to_nat 7552)%nat → Z.land (tx_ctrl td n) EOR = Z.land (ctrl td) EOR.
Proof.
  intros Hn. apply Z.bits_inj'. intros m Hm. rewrite !Z.land_spec. destruct (decide (m = 30)) as [->|Hne].
  - by rewrite tx_ctrl_mark.
  - assert (Z.testbit EOR m = false) as ->; [|by rewrite !andb_false_r].
    unfold EOR. rewrite Z.shiftl_spec by lia. destruct (decide (m < 30)); [by rewrite Z.testbit_neg_r by lia|].
    replace (m - 30) with (Z.succ (m - 31)) by lia. change 1 with (2 * 0 + 1).
    rewrite Z.testbit_odd_succ by lia. apply Z.testbit_0_l.
Qed.

(** The state after a packet went into the descriptor at [transmit_i] *)
Definition tx_done (buf : bytes) (s : Rtl8168) (td : Desc) (b : bytes) (d : D) : Rtl8168 :=
  let t := Z.to_nat (transmit_i s) in
  set_transmit (<[t := copy_at b 0 buf]> (transmit_buffer s))
    (<[t := set_ctrl (tx_ctrl td (length buf)) td]> (transmit_ring s)) (transmit_i s + 1) (set_regs d s).

Section Sent.
Context (buf : bytes) (s : Rtl8168) (td : Desc) (b : bytes) (d : D).
Hypothesis Hs : wf s.
Hypothesis Hi : 0 ≤ transmit_i s < 16.
Hypothesis Htd : transmit_ring s !! Z.to_nat (transmit_i s) = Some td.
Hypothesis Hlen : length b = Z.to_nat 7552.
Hypothesis Hbuf : (length buf ≤ Z.to_nat 7552)%nat.

Lemma tx_done_wf : wf (tx_done buf s td b d).
Proof using Hs Hi Htd Hlen Hbuf.
  destruct Hs. split; cbn; rewrite ?length_insert; try done; [|lia|].
  - apply Forall_insert; [done|]. rewrite length_copy_at by (cbn; lia). done.
  - eapply marked_insert; [done|exact Htd|].
    by apply tx_ctrl_mark.
Qed.

Lemma tx_done_sent : sent buf (tx_done buf s td b d).
Proof using Hs Hi Hlen Hbuf.
  exists (Z.to_nat (transmit_i s)), (set_ctrl (tx_ctrl td (length buf)) td), (copy_at b 0 buf). split_and!.
  - cbn. lia.
  - apply list_lookup_insert_eq. rewrite (wf_tx_ring s Hs). lia.
  - apply list_lookup_insert_eq. rewrite (wf_tx_buffer s Hs). lia.
  - apply tx_ctrl_owned.
  - cbn. rewrite (tx_ctrl_eor td (length buf) Hbuf). unfold tx_ctrl at 1, wrap_u32.
    by rewrite Z.mod_small by lia.
  - by rewrite copy_at_0, take_app_length.
Qed.
End Sent.

Lemma rtl8168_write s buf : wf s → ∃ r s', write_packet buf s = (r, s') ∧ wf s' ∧ same_rx s s' ∧
  if bool_decide (length buf ≤ Z.to_nat 7552)%nat then r = Ok (Z.of_nat (length buf)) ∧ sent buf s'
  else r = Err EMSGSIZE.
Proof using hw_length hw_marked hw_sends card_polls.
  intros Hs. pose proof (tx_at_lt s Hs) as Hti.
  destruct (hw_sends (transmit_ring s) (Z.to_nat (wrapped (transmit_i s) (transmit_ring s)))
    (wf_tx_ring s Hs) ltac:(lia)) as (n & d & Hn & Hd & Hown).
  destruct (wait_own_run n patience s d Hs Hn Hd Hown) as (k & td & Hrun & Htd & Hlk).
  pose proof (rtl_looked_wf (S k) s Hs) as Hs1.
  assert (same_rx s (looked (S k) s)) as Hrx by done.
  assert (0 ≤ transmit_i (looked (S k) s) < 16) as Hi by done. revert Hrun Hlk Hs1 Hrx Hi.
  generalize (looked (S k) s). intros s1 Hrun Hlk Hs1 Hrx Hi.
  unfold write_packet. rewrite (bind_ok _ _ _ _ _ Hrun), bind_get. set (t := Z.to_nat (transmit_i s1)) in *.
  destruct (lookup_lt_is_Some_2 (transmit_buffer s1) t) as [b Hb]; [rewrite (wf_tx_buffer s1 Hs1); lia|].
  pose proof (Forall_lookup_1 _ _ _ _ (wf_tx_size s1 Hs1) Hb) as Hlen. cbn beta in Hlen.
  rewrite Hb. erewrite bind_ok by done. case_bool_decide as Hbig.
  { rewrite bool_decide_eq_false_2 by lia. by do 2 eexists. }
  rewrite bool_decide_eq_true_2 by lia. erewrite bind_ok by done.
  fold (tx_ctrl td (length buf)). set (s2 := set_transmit _ _ (transmit_i s1) s1).
  destruct (writef_run 255 TPPOLL (Z.shiftl 1 6) true s2) as [d1 Hw]. rewrite (bind_ok _ _ _ _ _ Hw).
  destruct (poll_run (set_regs d1 s2)) as [d2 Hp]. rewrite (bind_ok _ _ _ _ _ Hp), bind_modify.
  exists (Ok (Z.of_nat (length buf))), (tx_done buf s1 td b d2). split; [done|].
  split_and!; [by apply tx_done_wf; [..|lia]|apply Hrx..|done|by apply tx_done_sent; [..|lia]].
Qed.

Lemma rtl8168_laws : AdapterLaws Rtl8168.
Proof using hw_length hw_marked hw_sends card_polls.
  split; cbn [ready NetDriver.mac_address NetDriver.available_for_read NetDriver.read_packet
    NetDriver.write_packet adapter view].
  - intros s Hs. exists (mac s), s. split_and!; [done|apply Hs|done|done].
  - exact rtl8168_avail.
  - exact (λ s buf, rtl8168_read s buf).
  - intros s buf Hs. destruct (rtl8168_write s buf Hs) as (r & s' & Hrun & Hwf & Hrx & Hr).
    do 2 eexists. split; [exact Hrun|].
    case_bool_decide; [destruct Hr as [-> _]|subst r]; split_and!; try done; by apply rtl_same_rx_pending.
Qed.

(** *** Start-up *)

Definition quiet {A} (m : comp Rtl8168 A) : Prop := ∀ s, ∃ x d, m s = (Ok x, set_regs d s).

Lemma rtl_quiet_write r v : quiet (on_regs (reg_write r v)).
Proof. intros s. by do 2 eexists. Qed.

Lemma rtl_quiet_read r : quiet (on_regs (reg_read r)).
Proof. intros s. unfold on_regs, reg_read, zoom. destruct (dev_read r (regs s)) as [x d]. by exists x, d. Qed.

Lemma quiet_writef max r fl v : quiet (on_regs (writef max r fl v)).
Proof. intros s. exists tt. apply writef_run. Qed.

Lemma rtl_wp_quiet {A} (m : comp Rtl8168 A) (Q : outcome A → Rtl8168 → Prop) s :
  quiet m → (∀ x d, Q (Ok x) (set_regs d s)) → wp m Q s.
Proof. intros Hm HQ. unfold wp. destruct (Hm s) as (x & d & ->). apply HQ. Qed.

Lemma within_run turns r test (d : D) :
  ∃ d', reg_within turns r test d = (Ok tt, d') ∨ reg_within turns r test d = (Err EIO, d').
Proof.
  revert d. induction turns as [|turns IH]; intros d; cbn [reg_within]; unfold mbind, comp_bind, reg_read;
    destruct (dev_read r d) as [v d']; destruct (test v); eauto.
Qed.

Lemma wp_within turns r test (Q : outcome unit → Rtl8168 → Prop) s :
  (∀ d, Q (Ok tt) (set_regs d s)) → (∀ d, Q (Err EIO) (set_regs d s)) →
  wp (on_regs (reg_within turns r test)) Q s.
Proof.
  intros H1 H2. unfold wp, on_regs, zoom. destruct (within_run turns r test (regs s)) as [d' [-> | ->]]; cbn; auto.
Qed.

Definition initialised (m : bytes) (s : Rtl8168) : Rtl8168 :=
  mk_rtl8168 (regs s) (receive_buffer s)
    (mark_last (imap (λ i d, set_ctrl (Z.lor OWN 0x1FF8) (set_buffer (rx_physical i) d)) (receive_ring s)))
    (receive_i s) (transmit_buffer s)
    (mark_last (imap (λ i d, set_buffer (tx_physical i) d) (transmit_ring s))) (transmit_i s)
    (mark_last (imap (λ _ d, set_buffer tx_h_physical d) (transmit_ring_h s))) m.

Ltac quiet_step := wp_step; apply rtl_wp_quiet;
  [first [apply quiet_writef | apply rtl_quiet_write | apply rtl_quiet_read]|intros ? ?; cbv beta iota zeta].

Lemma rtl_init_run s : wp init (λ r s', r = Err EIO ∨
  r = Ok tt ∧ ∃ low high d, s' = set_regs d (initialised (mac_of low high) s)) s.
Proof.
  unfold init. do 2 quiet_step. do 2 wp_step. quiet_step. wp_step. apply wp_within; [|by left].
  intros d2. cbv beta iota zeta. do 12 wp_step. do 16 quiet_step.
  apply rtl_wp_quiet; [apply rtl_quiet_write|]. intros [] dz. right. split; [done|]. by do 3 eexists.
Qed.

Lemma mark_last_marked ring :
  Forall (λ d, Z.testbit (ctrl d) 30 = false) ring → marked (mark_last ring).
Proof.
  intros Hf i d Hd. unfold mark_last in *. rewrite length_alter.
  rewrite list_lookup_alter in Hd. case_decide as Hi.
  - apply fmap_Some in Hd as (d0 & Hd0 & ->). apply lookup_lt_Some in Hd0. cbn [ctrl set_ctrl].
    rewrite Z.lor_spec. change (Z.testbit EOR 30) with true. rewrite orb_true_r.
    symmetry. apply bool_decide_eq_true. lia.
  - rewrite (Forall_lookup_1 _ _ _ _ Hf Hd). symmetry. apply bool_decide_eq_false.
    apply lookup_lt_Some in Hd. lia.
Qed.

(** The driver starts, or reports that the card did not reset. *)
Lemma rtl_new_run d : new d = Err EIO ∨ ∃ s, new d = Ok s ∧ wf s ∧ pending s = [].
Proof.
  unfold new. match goal with |- context [init ?s0] => set (st := s0) end.
  pose proof (rtl_init_run st) as Hw. unfold wp in Hw. destruct (init st) as [r s']. cbn in Hw.
  destruct Hw as [->|(-> & low & high & d' & ->)]; [by left|]. right. eexists. split; [done|]. split.
  - split; try done.
    + repeat (apply Forall_cons; split; [apply length_replicate|]). constructor.
    + repeat (apply Forall_cons; split; [by vm_compute|]). constructor.
    + apply mark_last_marked. repeat (apply Forall_cons; split; [by vm_compute|]). constructor.
    + repeat (apply Forall_cons; split; [apply length_replicate|]). constructor.
    + apply mark_last_marked. repeat (apply Forall_cons; split; [by vm_compute|]). constructor.
  - by vm_compute.
Qed.
End Driver.

(** The rtl8168 driver is a queue of packets: over a card that keeps the ring's size and end
    mark, hands descriptors back and notices polls, its adapter keeps the contract; a packet
    that fits goes, whole, into the next descriptor of the transmit ring, and one that does
    not is refused. *)
Lemma rtl8168_keeps_contract {D : Type} {dev : RegDevice D} (hw : list Desc → list Desc) (patience : nat) :
  (∀ ring, length (hw ring) = length ring) →
  (∀ ring, marked ring → marked (hw ring)) →
  (∀ ring i, length ring = 16%nat → (i < 16)%nat →
    ∃ n d, (n < patience)%nat ∧ Nat.iter (S n) hw ring !! i = Some d ∧ owned d = false) →
  (∀ d, ∃ d', reg_until patience TPPOLL
    (λ v, negb (bool_decide (Z.land v (Z.shiftl 1 6) = Z.shiftl 1 6))) d = (Ok tt, d')) →
  AdapterLaws Rtl8168 (NA := adapter hw patience) (view := view) ∧
  ∀ s buf, wf s → ∃ r s', write_packet hw patience buf s = (r, s') ∧ wf s' ∧ same_rx s s' ∧
    if bool_decide (length buf ≤ Z.to_nat 7552)%nat then r = Ok (Z.of_nat (length buf)) ∧ sent buf s'
    else r = Err EMSGSIZE.
Proof. intros Hl Hm Hs Hp. split; [by apply rtl8168_laws|]. intros s buf Hs'. by apply rtl8168_write. Qed.
