(* ===== verification/Keymap.v ===== *)
(** * inputd: keyboard layouts

    The layouts of [drivers/inputd/src/keymap.rs]: a table from scancodes to the plain and
    the shifted character, as Unicode code points.  The scancodes are constants of the
    [orbclient] crate, the fields of the class [OrbKeys]; [OrbKeysLaws] says that they
    differ. *)

From S2P Require Import Prelude.

Class OrbKeys := {
  K_ESC : Z; K_1 : Z; K_2 : Z; K_3 : Z; K_4 : Z; K_5 : Z; K_6 : Z; K_7 : Z; K_8 : Z; K_9 : Z;
  K_0 : Z; K_MINUS : Z; K_EQUALS : Z; K_BKSP : Z; K_TAB : Z; K_Q : Z; K_W : Z; K_E : Z; K_R : Z;
  K_T : Z; K_Y : Z; K_U : Z; K_I : Z; K_O : Z; K_P : Z; K_BRACE_OPEN : Z; K_BRACE_CLOSE : Z;
  K_ENTER : Z; K_CTRL : Z; K_A : Z; K_S : Z; K_D : Z; K_F : Z; K_G : Z; K_H : Z; K_J : Z;
  K_K : Z; K_L : Z; K_SEMICOLON : Z; K_QUOTE : Z; K_TICK : Z; K_BACKSLASH : Z; K_Z : Z; K_X : Z;
  K_C : Z; K_V : Z; K_B : Z; K_N : Z; K_M : Z; K_COMMA : Z; K_PERIOD : Z; K_SLASH : Z;
  K_SPACE : Z;
  K_F1 : Z; K_F10 : Z; K_F11 : Z; K_F12 : Z;
  K_SUPER : Z; K_LEFT_SHIFT : Z; K_RIGHT_SHIFT : Z;
}.

(** The keys that have a character *)
Definition char_keys `{OrbKeys} : list Z :=
  [K_ESC; K_1; K_2; K_3; K_4; K_5; K_6; K_7; K_8; K_9; K_0; K_MINUS; K_EQUALS; K_BKSP; K_TAB;
   K_Q; K_W; K_E; K_R; K_T; K_Y; K_U; K_I; K_O; K_P; K_BRACE_OPEN; K_BRACE_CLOSE; K_ENTER;
   K_CTRL; K_A; K_S; K_D; K_F; K_G; K_H; K_J; K_K; K_L; K_SEMICOLON; K_QUOTE; K_TICK;
   K_BACKSLASH; K_Z; K_X; K_C; K_V; K_B; K_N; K_M; K_COMMA; K_PERIOD; K_SLASH; K_SPACE].

Class OrbKeysLaws (orb : OrbKeys) : Prop := {
  char_keys_distinct : NoDup char_keys;
  uk_backslash_new : 0x56 ∉ char_keys;
}.

Section Tables.
Context {orb : OrbKeys}.

Definition keymap_US : list (Z * (Z * Z)) :=
  [(K_ESC, (27, 27)); (K_1, (49, 33)); (K_2, (50, 64)); (K_3, (51, 35)); (K_4, (52, 36));
   (K_5, (53, 37)); (K_6, (54, 94)); (K_7, (55, 38)); (K_8, (56, 42)); (K_9, (57, 40));
   (K_0, (48, 41)); (K_MINUS, (45, 95)); (K_EQUALS, (61, 43)); (K_BKSP, (127, 127));
   (K_TAB, (9, 9)); (K_Q, (113, 81)); (K_W, (119, 87)); (K_E, (101, 69)); (K_R, (114, 82));
   (K_T, (116, 84)); (K_Y, (121, 89)); (K_U, (117, 85)); (K_I, (105, 73)); (K_O, (111, 79));
   (K_P, (112, 80)); (K_BRACE_OPEN, (91, 123)); (K_BRACE_CLOSE, (93, 125));
   (K_ENTER, (10, 10)); (K_CTRL, (0, 0)); (K_A, (97, 65)); (K_S, (115, 83)); (K_D, (100, 68));
   (K_F, (102, 70)); (K_G, (103, 71)); (K_H, (104, 72)); (K_J, (106, 74)); (K_K, (107, 75));
   (K_L, (108, 76)); (K_SEMICOLON, (59, 58)); (K_QUOTE, (39, 34)); (K_TICK, (96, 126));
   (K_BACKSLASH, (92, 124)); (K_Z, (122, 90)); (K_X, (120, 88)); (K_C, (99, 67));
   (K_V, (118, 86)); (K_B, (98, 66)); (K_N, (110, 78)); (K_M, (109, 77)); (K_COMMA, (44, 60));
   (K_PERIOD, (46, 62)); (K_SLASH, (47, 63)); (K_SPACE, (32, 32))].

Definition keymap_GB : list (Z * (Z * Z)) :=
  [(K_ESC, (27, 27)); (K_1, (49, 33)); (K_2, (50, 34)); (K_3, (51, 163)); (K_4, (52, 36));
   (K_5, (53, 37)); (K_6, (54, 94)); (K_7, (55, 38)); (K_8, (56, 42)); (K_9, (57, 40));
   (K_0, (48, 41)); (K_MINUS, (45, 95)); (K_EQUALS, (61, 43)); (K_BKSP, (127, 127));
   (K_TAB, (9, 9)); (K_Q, (113, 81)); (K_W, (119, 87)); (K_E, (101, 69)); (K_R, (114, 82));
   (K_T, (116, 84)); (K_Y, (121, 89)); (K_U, (117, 85)); (K_I, (105, 73)); (K_O, (111, 79));
   (K_P, (112, 80)); (K_BRACE_OPEN, (91, 123)); (K_BRACE_CLOSE, (93, 125));
   (K_ENTER, (10, 10)); (K_CTRL, (0, 0)); (K_A, (97, 65)); (K_S, (115, 83)); (K_D, (100, 68));
   (K_F, (102, 70)); (K_G, (103, 71)); (K_H, (104, 72)); (K_J, (106, 74)); (K_K, (107, 75));
   (K_L, (108, 76)); (K_SEMICOLON, (59, 58)); (K_QUOTE, (39, 64)); (K_TICK, (96, 172));
   (K_BACKSLASH, (35, 126)); (K_Z, (122, 90)); (K_X, (120, 88)); (K_C, (99, 67));
   (K_V, (118, 86)); (K_B, (98, 66)); (K_N, (110, 78)); (K_M, (109, 77)); (K_COMMA, (44, 60));
   (K_PERIOD, (46, 62)); (K_SLASH, (47, 63)); (K_SPACE, (32, 32)); (0x56, (92, 124))].

Definition keymap_DVORAK : list (Z * (Z * Z)) :=
  [(K_ESC, (27, 27)); (K_1, (49, 33)); (K_2, (50, 64)); (K_3, (51, 35)); (K_4, (52, 36));
   (K_5, (53, 37)); (K_6, (54, 94)); (K_7, (55, 38)); (K_8, (56, 42)); (K_9, (57, 40));
   (K_0, (48, 41)); (K_MINUS, (91, 123)); (K_EQUALS, (93, 125)); (K_BKSP, (127, 127));
   (K_TAB, (9, 9)); (K_Q, (39, 34)); (K_W, (44, 60)); (K_E, (46, 62)); (K_R, (112, 80));
   (K_T, (121, 89)); (K_Y, (102, 70)); (K_U, (103, 71)); (K_I, (99, 67)); (K_O, (114, 82));
   (K_P, (108, 76)); (K_BRACE_OPEN, (47, 63)); (K_BRACE_CLOSE, (61, 43)); (K_ENTER, (10, 10));
   (K_CTRL, (0, 0)); (K_A, (97, 65)); (K_S, (111, 79)); (K_D, (101, 69)); (K_F, (117, 85));
   (K_G, (105, 73)); (K_H, (100, 68)); (K_J, (104, 72)); (K_K, (116, 84)); (K_L, (110, 78));
   (K_SEMICOLON, (115, 83)); (K_QUOTE, (45, 95)); (K_TICK, (96, 126));
   (K_BACKSLASH, (92, 124)); (K_Z, (59, 58)); (K_X, (113, 81)); (K_C, (106, 74));
   (K_V, (107, 75)); (K_B, (120, 88)); (K_N, (98, 66)); (K_M, (109, 77));
   (K_COMMA, (119, 87)); (K_PERIOD, (118, 86)); (K_SLASH, (122, 90)); (K_SPACE, (32, 32))].

Definition keymap_AZERTY : list (Z * (Z * Z)) :=
  [(K_ESC, (27, 27)); (K_1, (38, 49)); (K_2, (233, 50)); (K_3, (34, 51)); (K_4, (39, 52));
   (K_5, (40, 53)); (K_6, (124, 54)); (K_7, (232, 55)); (K_8, (95, 56)); (K_9, (231, 57));
   (K_0, (224, 48)); (K_MINUS, (41, 176)); (K_EQUALS, (61, 43)); (K_BKSP, (127, 127));
   (K_TAB, (9, 9)); (K_Q, (97, 65)); (K_W, (122, 90)); (K_E, (101, 69)); (K_R, (114, 82));
   (K_T, (116, 84)); (K_Y, (121, 89)); (K_U, (117, 85)); (K_I, (105, 73)); (K_O, (111, 79));
   (K_P, (112, 80)); (K_BRACE_OPEN, (94, 168)); (K_BRACE_CLOSE, (36, 163));
   (K_ENTER, (10, 10)); (K_CTRL, (0, 0)); (K_A, (113, 81)); (K_S, (115, 83));
   (K_D, (100, 68)); (K_F, (102, 70)); (K_G, (103, 71)); (K_H, (104, 72)); (K_J, (106, 74));
   (K_K, (107, 75)); (K_L, (108, 76)); (K_SEMICOLON, (109, 77)); (K_QUOTE, (249, 37));
   (K_TICK, (42, 181)); (K_BACKSLASH, (234, 202)); (K_Z, (119, 87)); (K_X, (120, 88));
   (K_C, (99, 67)); (K_V, (118, 86)); (K_B, (98, 66)); (K_N, (110, 78)); (K_M, (44, 63));
   (K_COMMA, (59, 46)); (K_PERIOD, (58, 47)); (K_SLASH, (33, 167)); (K_SPACE, (32, 32))].

Definition keymap_BEPO : list (Z * (Z * Z)) :=
  [(K_ESC, (27, 27)); (K_1, (34, 49)); (K_2, (171, 50)); (K_3, (187, 51)); (K_4, (40, 52));
   (K_5, (41, 53)); (K_6, (64, 54)); (K_7, (43, 55)); (K_8, (45, 56)); (K_9, (47, 57));
   (K_0, (42, 48)); (K_MINUS, (61, 176)); (K_EQUALS, (37, 96)); (K_BKSP, (127, 127));
   (K_TAB, (9, 9)); (K_Q, (98, 66)); (K_W, (233, 201)); (K_E, (112, 80)); (K_R, (111, 79));
   (K_T, (232, 200)); (K_Y, (94, 33)); (K_U, (118, 86)); (K_I, (100, 68)); (K_O, (108, 76));
   (K_P, (106, 74)); (K_BRACE_OPEN, (122, 90)); (K_BRACE_CLOSE, (119, 87));
   (K_ENTER, (10, 10)); (K_CTRL, (0, 0)); (K_A, (97, 65)); (K_S, (117, 85)); (K_D, (105, 73));
   (K_F, (101, 69)); (K_G, (44, 59)); (K_H, (99, 67)); (K_J, (116, 84)); (K_K, (115, 83));
   (K_L, (114, 82)); (K_SEMICOLON, (110, 78)); (K_QUOTE, (109, 77)); (K_TICK, (231, 199));
   (K_BACKSLASH, (234, 202)); (K_Z, (224, 192)); (K_X, (121, 89)); (K_C, (120, 88));
   (K_V, (46, 58)); (K_B, (107, 75)); (K_N, (39, 63)); (K_M, (113, 81)); (K_COMMA, (103, 71));
   (K_PERIOD, (104, 72)); (K_SLASH, (102, 70)); (K_SPACE, (32, 32))].

Definition keymap_IT : list (Z * (Z * Z)) :=
  [(K_ESC, (27, 27)); (K_1, (49, 33)); (K_2, (50, 34)); (K_3, (51, 163)); (K_4, (52, 36));
   (K_5, (53, 37)); (K_6, (54, 38)); (K_7, (55, 47)); (K_8, (56, 40)); (K_9, (57, 41));
   (K_0, (48, 61)); (K_MINUS, (63, 39)); (K_EQUALS, (236, 94)); (K_BKSP, (127, 127));
   (K_TAB, (9, 9)); (K_Q, (113, 81)); (K_W, (119, 87)); (K_E, (101, 69)); (K_R, (114, 82));
   (K_T, (116, 84)); (K_Y, (121, 89)); (K_U, (117, 85)); (K_I, (105, 73)); (K_O, (111, 79));
   (K_P, (112, 80)); (K_BRACE_OPEN, (232, 233)); (K_BRACE_CLOSE, (43, 42));
   (K_ENTER, (10, 10)); (K_CTRL, (32, 32)); (K_A, (97, 65)); (K_S, (115, 83));
   (K_D, (100, 68)); (K_F, (102, 70)); (K_G, (103, 71)); (K_H, (104, 72)); (K_J, (106, 74));
   (K_K, (107, 75)); (K_L, (108, 76)); (K_SEMICOLON, (242, 231)); (K_QUOTE, (224, 176));
   (K_TICK, (249, 167)); (K_BACKSLASH, (60, 62)); (K_Z, (122, 90)); (K_X, (120, 88));
   (K_C, (99, 67)); (K_V, (118, 86)); (K_B, (98, 66)); (K_N, (110, 78)); (K_M, (109, 77));
   (K_COMMA, (44, 59)); (K_PERIOD, (46, 58)); (K_SLASH, (45, 95)); (K_SPACE, (32, 32))].

(** [enum KeymapKind], as a [usize] and back *)
Inductive KeymapKind := US | GB | Dvorak | Azerty | Bepo | IT.

#[global] Instance keymap_kind_eq_dec : EqDecision KeymapKind.
Proof. solve_decision. Defined.

Definition kind_as_usize (k : KeymapKind) : Z :=
  match k with US => 0 | GB => 1 | Dvorak => 2 | Azerty => 3 | Bepo => 4 | IT => 5 end.

Definition kind_from_usize (value : Z) : KeymapKind :=
  if bool_decide (kind_as_usize IT < value) then US else
  match value with 1 => GB | 2 => Dvorak | 3 => Azerty | 4 => Bepo | 5 => IT | _ => US end.

(** [FromStr] and [Display] *)
Definition kind_from_str (s : string) : option KeymapKind :=
  if bool_decide (s = "dvorak"%string) then Some Dvorak
  else if bool_decide (s = "us"%string) then Some US
  else if bool_decide (s = "gb"%string) then Some GB
  else if bool_decide (s = "azerty"%string) then Some Azerty
  else if bool_decide (s = "bepo"%string) then Some Bepo
  else if bool_decide (s = "it"%string) then Some IT
  else None.

Definition kind_show (k : KeymapKind) : string :=
  match k with
  | US => "us" | GB => "gb" | Dvorak => "dvorak" | Azerty => "azerty" | Bepo => "bepo" | IT => "it"
  end.

Record KeymapData := mk_keymap_data { keymap_hash : gmap Z (Z * Z); kind : KeymapKind }.

(** [HashMap::from]: of two entries with a key the later one stays *)
Definition hash_from (l : list (Z * (Z * Z))) : gmap Z (Z * Z) :=
  foldl (λ m p, <[p.1 := p.2]> m) ∅ l.

Definition keymap_table (k : KeymapKind) : list (Z * (Z * Z)) :=
  match k with
  | US => keymap_US | GB => keymap_GB | Dvorak => keymap_DVORAK
  | Azerty => keymap_AZERTY | Bepo => keymap_BEPO | IT => keymap_IT
  end.

Definition keymap_new (k : KeymapKind) : KeymapData := mk_keymap_data (hash_from (keymap_table k)) k.

Definition get_char (d : KeymapData) (scancode : Z) (shift : bool) : Z :=
  match keymap_hash d !! scancode with
  | Some (plain, shifted) => if shift then shifted else plain
  | None => 0
  end.

(** ** Lookups *)

Lemma hash_from_keep (l : list (Z * (Z * Z))) (m : gmap Z (Z * Z)) k :
  k ∉ l.*1 → foldl (λ m p, <[p.1 := p.2]> m) m l !! k = m !! k.
Proof.
  revert m. induction l as [|[k' c'] l IH]; intros m Hk; cbn in *; [done|].
  rewrite IH by set_solver. apply lookup_insert_ne. set_solver.
Qed.

Lemma hash_from_spec (l : list (Z * (Z * Z))) (m : gmap Z (Z * Z)) k c :
  NoDup l.*1 → (k, c) ∈ l → foldl (λ m p, <[p.1 := p.2]> m) m l !! k = Some c.
Proof.
  revert m. induction l as [|[k' c'] l IH]; intros m Hnd Hin; cbn in *; [set_solver|].
  apply NoDup_cons in Hnd as [Hk' Hnd]. apply elem_of_cons in Hin as [[= -> ->]|Hin].
  - rewrite hash_from_keep by done. apply lookup_insert_eq.
  - by apply IH.
Qed.

Lemma kind_usize_roundtrip k : kind_from_usize (kind_as_usize k) = k.
Proof. by destruct k. Qed.

Lemma kind_str_roundtrip k : kind_from_str (kind_show k) = Some k.
Proof. by destruct k. Qed.

(** Every layout has every key of the US keyboard, and the British one a key more. *)
Lemma keymap_keys k : (keymap_table k).*1 = if bool_decide (k = GB) then char_keys ++ [0x56] else char_keys.
Proof. destruct k; reflexivity. Qed.

(** A key types what the table of the layout says. *)
Lemma get_char_spec (laws : OrbKeysLaws orb) k scancode plain shifted shift :
  (scancode, (plain, shifted)) ∈ keymap_table k →
  get_char (keymap_new k) scancode shift = if shift then shifted else plain.
Proof.
  intros Hin. unfold get_char, keymap_new, hash_from. cbn [keymap_hash].
  rewrite (hash_from_spec _ _ _ (plain, shifted)); [done| |done]. rewrite keymap_keys.
  case_bool_decide; [|apply char_keys_distinct]. apply NoDup_snoc; [apply char_keys_distinct|].
  apply uk_backslash_new.
Qed.
End Tables.
