(* ===== verification/Inputd.v ===== *)
(** * inputd

    Models [drivers/inputd/src/main.rs]: the scheme that takes the events of all input
    devices (producers), gives them to the consumer of the active virtual terminal (VT),
    and tells the display drivers which VT is active.

    The event type and its reading as a key event belong to the [orbclient] crate: the
    class [OrbClient].  The daemon's loop takes the requests of one read of the socket, as
    a list; the notifications it posts are the list it returns.  A cancellation changes
    nothing and is not a request here; nor are the calls the scheme leaves to the crate's
    defaults. *)

From S2P Require Import Prelude Abi Text SchemeUtils Keymap.

Record KeyEvent := mk_key_event { character : Z; scancode : Z; pressed : bool }.

(** [orbclient::Event]: its size, its bytes, and [to_option] where it is a key event *)
Class OrbClient := {
  Event : Type;
  event_size : nat;
  event_of : bytes → Event;
  event_bytes : Event → bytes;
  to_key : Event → option KeyEvent;
  to_event : KeyEvent → Event;
}.

Class OrbClientLaws (oc : OrbClient) : Prop := {
  event_size_pos : (0 < event_size)%nat;
  event_bytes_length e : length (event_bytes e) = event_size;
}.

(** [VtEvent], always of kind [Activate], as its sixteen bytes *)
Record VtEvent := mk_vt_event { ve_vt : Z }.
Definition vt_event_size : nat := 16.
Definition vt_event_bytes (e : VtEvent) : bytes := le_bytes 8 0 ++ le_bytes 8 (ve_vt e).

Record Consumer := mk_consumer {
  c_events : Z; c_pending : bytes; needs_handoff : bool; c_notified : bool; vt : Z;
}.
Record DisplayH := mk_display {
  d_events : Z; d_pending : list VtEvent; d_notified : bool; device : string; is_earlyfb : bool;
}.

Inductive Handle :=
  | Producer
  | HConsumer (c : Consumer)
  | HDisplay (d : DisplayH)
  | Control
  | SchemeRoot.

(** [BTreeSet::last] *)
Definition set_last (X : gset Z) : option Z :=
  match elements X with
  | [] => None
  | x :: l => Some (foldr Z.max x l)
  end.

Section Inputd.
Context {abi : SyscallAbi} {orb : OrbKeys} {oc : OrbClient}.

Record InputScheme := mk_input_scheme {
  handles : HandleMap Handle;
  next_vt_id : Z;
  display : option string;
  vts : gset Z;
  super_key : bool;
  active_vt : option Z;
  active_keymap : KeymapData;
  lshift : bool;
  rshift : bool;
  has_new_events : bool;
}.

Definition input_new : InputScheme :=
  mk_input_scheme hm_new 2 None ∅ false None (keymap_new US) false false false.

Definition on_handles {A} (m : comp (HandleMap Handle) A) : comp InputScheme A :=
  zoom handles (λ h s, {| s with handles := h |}) m.

(** [for handle in self.handles.values_mut()] *)
Definition each_handle (f : Handle → Handle) (s : InputScheme) : InputScheme :=
  {| s with handles := mk_handle_map (f <$> hm_handles (handles s)) (hm_next_id (handles s)) |}.

Definition handle_of (id : Z) : comp InputScheme Handle :=
  s ← get;
  lift (hm_get (handles s) id).

Definition set_handle (id : Z) (h : Handle) : comp InputScheme unit :=
  modify (λ s, {| s with handles := hm_set id h (handles s) |}).

(** The VT event for the display driver in charge *)
Definition activate (disp : option string) (new_active : Z) (h : Handle) : Handle :=
  match h with
  | HDisplay d =>
     if bool_decide (disp = Some (device d)) then
       HDisplay {| d with d_pending := d_pending d ++ [mk_vt_event new_active]; d_notified := false |}
     else h
  | h => h
  end.

Definition switch_vt (new_active : Z) : comp InputScheme unit :=
  s ← get;
  if bool_decide (active_vt s = Some new_active) then mret tt else
  if bool_decide (new_active ∉ vts s) then mret tt else
  modify (each_handle (activate (display s) new_active));;
  modify (λ s, {| s with active_vt := Some new_active |}).

Definition switch_keymap (new_active : Z) : comp InputScheme unit :=
  s ← get;
  if bool_decide (new_active = kind_as_usize (kind (active_keymap s))) then mret tt else
  modify (λ s, {| s with active_keymap := keymap_new (kind_from_usize new_active) |}).

Definition scheme_root : comp InputScheme Z := on_handles (hm_insert SchemeRoot).

Definition new_consumer (v : Z) : Handle := HConsumer (mk_consumer 0 [] false false v).

(** A handoff to another graphics driver *)
Definition ask_handoff (h : Handle) : Handle :=
  match h with
  | HConsumer c => HConsumer {| c with needs_handoff := true; c_notified := false |}
  | h => h
  end.

Definition not_late_display (h : Handle) : bool :=
  match h with HDisplay d => is_earlyfb d | _ => true end.

Definition open_display (early : bool) (name : string) : comp InputScheme Handle :=
  s ← get;
  let handoff :=
    if early then bool_decide (display s = None)
    else forallb (λ p, not_late_display p.2) (map_to_list (hm_handles (handles s))) in
  (if handoff then
     modify (λ s, {| s with has_new_events := true; display := Some name |});;
     modify (each_handle ask_handoff)
   else mret tt);;
  s ← get;
  mret (HDisplay (mk_display 0 (match active_vt s with Some v => [mk_vt_event v] | None => [] end)
    false name early)).

Definition open_consumer : comp InputScheme Handle :=
  s ← get;
  let v := next_vt_id s in
  put {| s with next_vt_id := wrap_usize (v + 1); vts := vts s ∪ {[ v ]} |};;
  s ← get;
  (if bool_decide (active_vt s = None) then switch_vt v else mret tt);;
  mret (new_consumer v).

Definition open_bootlog : comp InputScheme Handle :=
  s ← get;
  put {| s with vts := vts s ∪ {[ 1 ]} |};;
  if bool_decide (1 ∈ vts s) then fail EEXIST else
  switch_vt 1;;
  mret (new_consumer 1).

Definition openat (dirfd : Z) (path : string) : comp InputScheme Z :=
  h ← handle_of dirfd;
  match h with
  | SchemeRoot =>
     let parts := split "/"%char path in
     command ← ok_or EINVAL (parts !! 0%nat);
     handle_ty ←
       (if bool_decide (command = "producer"%string) then mret Producer
        else if bool_decide (command = "consumer"%string) then open_consumer
        else if bool_decide (command = "consumer_bootlog"%string) then open_bootlog
        else if bool_decide (command = "handle"%string) || bool_decide (command = "handle_early"%string) then
          name ← ok_or EINVAL (parts !! 1%nat);
          open_display (bool_decide (command = "handle_early"%string)) name
        else if bool_decide (command = "control"%string) then mret Control
        else fail EINVAL);
     on_handles (hm_insert handle_ty)
  | _ => fail EACCES
  end.

Definition fpath (id : Z) (buf : bytes) : comp InputScheme (Z * bytes) :=
  s ← get;
  name ← ok_or EINVAL (display s);
  let body : comp FpathWriter unit :=
    h ← lift (hm_get (handles s) id);
    match h with
    | HConsumer c => push_str (str_bytes (pretty (vt c)))
    | _ => fail EINVAL
    end in
  let '(r, buf) := fpath_with buf name body in
  n ← lift r;
  mret (Z.of_nat n, buf).

Definition read (id : Z) (buf : bytes) : comp InputScheme (Z * bytes) :=
  h ← handle_of id;
  match h with
  | HConsumer c =>
     if needs_handoff c then
       set_handle id (HConsumer {| c with needs_handoff := false |});;
       fail ESTALE
     else
       let copy := Nat.min (length (c_pending c)) (length buf) in
       set_handle id (HConsumer {| c with c_pending := drop copy (c_pending c) |});;
       mret (Z.of_nat copy, copy_at buf 0 (take copy (c_pending c)))
  | HDisplay d =>
     if bool_decide (length buf `mod` vt_event_size = 0)%nat then
       let copy := Nat.min (length (d_pending d)) (length buf `div` vt_event_size) in
       set_handle id (HDisplay {| d with d_pending := drop copy (d_pending d) |});;
       mret (Z.of_nat (copy * vt_event_size),
             copy_at buf 0 (concat (vt_event_bytes <$> take copy (d_pending d))))
     else fail EINVAL
  | Producer | Control => fail EINVAL
  | SchemeRoot => fail EBADF
  end.

(** The match on a key's scancode: the VT to switch to, if any, and the event with the
    character of the active layout *)
Definition process_key (e : Event) (key : KeyEvent) : comp InputScheme Event :=
  s ← get;
  let sc := scancode key in
  if (K_F1 <=? sc) && (sc <=? K_F10) && super_key s then
    f ← sub_usize sc 0x3A;
    switch_vt f;;
    mret e
  else if (sc =? K_F11) && super_key s then switch_vt 11;; mret e
  else if (sc =? K_F12) && super_key s then switch_vt 12;; mret e
  else if sc =? K_SUPER then put {| s with super_key := pressed key |};; mret e
  else if sc =? K_LEFT_SHIFT then put {| s with lshift := pressed key |};; mret e
  else if sc =? K_RIGHT_SHIFT then put {| s with rshift := pressed key |};; mret e
  else
    let shift := lshift s || rshift s in
    mret (to_event (mk_key_event (get_char (active_keymap s) sc shift) sc (pressed key))).

(** The loop over the events of a write *)
Fixpoint process_events (es : list Event) : comp InputScheme (list Event) :=
  match es with
  | [] => mret []
  | e :: es =>
     e ← match to_key e with Some key => process_key e key | None => mret e end;
     es ← process_events es;
     mret (e :: es)
  end.

(** [slice::from_raw_parts] of the bytes as events *)
Definition events_of (buf : bytes) : list Event :=
  (λ i : nat, event_of (slice buf (i * event_size) event_size)) <$> seq 0 (length buf `div` event_size).

(** What the consumer of the active VT receives *)
Definition deliver (active : Z) (buf : bytes) (h : Handle) : Handle :=
  match h with
  | HConsumer c =>
     if bool_decide (vt c = active) then HConsumer {| c with c_pending := c_pending c ++ buf; c_notified := false |}
     else h
  | h => h
  end.

Definition write_control (buf : bytes) : comp InputScheme Z :=
  if bool_decide (length buf ≠ 16%nat) then fail EINVAL else
  let k := le_val (take 8 buf) in
  let data := le_val (drop 8 buf) in
  (if k =? 1 then switch_vt data else if k =? 2 then switch_keymap data else mret tt);;
  mret (Z.of_nat (length buf)).

Definition write_producer (id : Z) (buf : bytes) : comp InputScheme Z :=
  if bool_decide (length buf = 1%nat) && bool_decide (0xf4 < hd 0 buf) then mret 1 else
  es ← process_events (events_of buf);
  h ← handle_of id;
  match h with
  | Producer =>
     let buf := concat (event_bytes <$> es) in
     s ← get;
     match active_vt s with
     | Some v => put (each_handle (deliver v buf) s)
     | None => mret tt
     end;;
     mret (Z.of_nat (length buf))
  | _ => panic
  end.

Definition write (id : Z) (buf : bytes) : comp InputScheme Z :=
  modify (λ s, {| s with has_new_events := true |});;
  h ← handle_of id;
  match h with
  | Control => write_control buf
  | HConsumer _ | HDisplay _ => fail EINVAL
  | Producer => write_producer id buf
  | SchemeRoot => fail EBADF
  end.

Definition fevent (id flags : Z) : comp InputScheme Z :=
  h ← handle_of id;
  match h with
  | HConsumer c => set_handle id (HConsumer {| c with c_events := flags; c_notified := false |});; mret 0
  | HDisplay d => set_handle id (HDisplay {| d with d_events := flags; d_notified := false |});; mret 0
  | Producer | Control => fail EINVAL
  | SchemeRoot => fail EBADF
  end.

Definition on_close (id : Z) : comp InputScheme unit :=
  o ← on_handles (hm_remove id);
  h ← expect o;
  match h with
  | HConsumer c =>
     modify (λ s, {| s with vts := vts s ∖ {[ vt c ]} |});;
     s ← get;
     if bool_decide (active_vt s = Some (vt c)) then
       match set_last (vts s) with
       | Some new_vt => switch_vt new_vt
       | None => modify (λ s, {| s with active_vt := None |})
       end
     else mret tt
  | _ => mret tt
  end.

(** ** The daemon *)

Inductive Request :=
  | Openat (dirfd : Z) (path : string)
  | Fpath (id : Z) (buf : bytes)
  | Read (id : Z) (buf : bytes)
  | Write (id : Z) (buf : bytes)
  | Fevent (id flags : Z)
  | OnClose (id : Z).

Inductive Reply :=
  | Opened (fd : Z)
  | Bytes (n : Z) (buf : bytes)
  | Written (n : Z)
  | Events (flags : Z)
  | Closed.

Definition handle_request (r : Request) : comp InputScheme Reply :=
  match r with
  | Openat dirfd path => fd ← openat dirfd path; mret (Opened fd)
  | Fpath id buf => '(n, buf) ← fpath id buf; mret (Bytes n buf)
  | Read id buf => '(n, buf) ← read id buf; mret (Bytes n buf)
  | Write id buf => n ← write id buf; mret (Written n)
  | Fevent id flags => f ← fevent id flags; mret (Events f)
  | OnClose id => on_close id;; mret Closed
  end.

Fixpoint process_requests (rs : list Request) : comp InputScheme (list (errno + Reply)) :=
  match rs with
  | [] => mret []
  | r :: rs =>
     a ← result (handle_request r);
     l ← process_requests rs;
     mret (a :: l)
  end.

(** Whether the handle is told that there is something to read *)
Definition wants_notice (h : Handle) : bool :=
  match h with
  | HConsumer c =>
     (needs_handoff c || negb (bool_decide (c_pending c = []))) && negb (c_notified c) &&
     has_flag (c_events c) EVENT_READ
  | HDisplay d =>
     negb (bool_decide (d_pending d = [])) && negb (d_notified d) && has_flag (d_events d) EVENT_READ
  | _ => false
  end.

Definition mark_notified (h : Handle) : Handle :=
  if wants_notice h then
    match h with
    | HConsumer c => HConsumer {| c with c_notified := true |}
    | HDisplay d => HDisplay {| d with d_notified := true |}
    | h => h
    end
  else h.

(** One turn of the loop of [daemon]: the answers, and the ids that are notified *)
Definition daemon_turn (rs : list Request) : comp InputScheme (list (errno + Reply) * list Z) :=
  modify (λ s, {| s with has_new_events := false |});;
  answers ← process_requests rs;
  s ← get;
  if has_new_events s then
    put (each_handle mark_notified s);;
    mret (answers, (filter (λ p, wants_notice p.2 = true) (btree_iter (hm_handles (handles s)))).*1)
  else mret (answers, []).
End Inputd.
