(* ===== verification/InputdSpec.v ===== *)
(** * inputd: one terminal is active, and its consumer gets the keys

    Over every sequence of requests the active VT is that of one open consumer, or there
    is no consumer; the events a producer writes go, whole and in order, to that consumer
    and to no other.  A display driver is not told of a terminal that became active
    because a consumer was opened or closed. *)

From S2P Require Import Prelude Abi Text SchemeUtils Keymap Inputd.

Lemma foldr_max_in (x : Z) l : foldr Z.max x l = x ∨ foldr Z.max x l ∈ l.
Proof.
  induction l as [|y l IH]; cbn; [by left|].
  destruct (Z.max_spec y (foldr Z.max x l)) as [[_ ->]|[_ ->]]; [|right; left].
  destruct IH as [->|IH]; [by left|right; by right].
Qed.

Lemma set_last_spec (X : gset Z) : match set_last X with None => X = ∅ | Some v => v ∈ X end.
Proof.
  unfold set_last. destruct (elements X) as [|x l] eqn:He.
  - apply leibniz_equiv, elements_empty_inv. done.
  - apply elem_of_elements. rewrite He. destruct (foldr_max_in x l) as [->|H]; [left|by right].
Qed.

Section Spec.
Context {abi : SyscallAbi} {orb : OrbKeys} {oc : OrbClient} {laws : OrbClientLaws oc}.
(** The function keys follow code 0x3A. *)
Hypothesis f1_code : 0x3A ≤ K_F1.
Implicit Types s : InputScheme.

Definition table s : gmap Z Handle := hm_handles (handles s).

(** The VT of a handle, and the VTs that are open *)
Definition vt_of (h : Handle) : option Z := match h with HConsumer c => Some (vt c) | _ => None end.
Definition consumers s : gmap Z Z := omap vt_of (table s).

Record inv s : Prop := {
  iv_wf : hm_wf (handles s);
  iv_vts v : v ∈ vts s ↔ ∃ id, consumers s !! id = Some v;
  iv_one id id' v : consumers s !! id = Some v → consumers s !! id' = Some v → id = id';
  iv_active : match active_vt s with None => vts s = ∅ | Some v => v ∈ vts s end;
  iv_next : 2 ≤ next_vt_id s;
  iv_below v : v ∈ vts s → v < next_vt_id s;
}.

Lemma consumers_each f s :
  (∀ h, vt_of (f h) = vt_of h) → consumers (each_handle f s) = consumers s.
Proof.
  intros Hf. apply map_eq. intros id. unfold consumers, table, each_handle. cbn.
  rewrite !lookup_omap, lookup_fmap. destruct (hm_handles (handles s) !! id); cbn; [|done]. by rewrite Hf.
Qed.

Lemma each_wf (f : Handle → Handle) (m : HandleMap Handle) : hm_wf m → hm_wf (mk_handle_map (f <$> hm_handles m) (hm_next_id m)).
Proof.
  intros [Hf Hi Hk]. split; cbn; [by rewrite lookup_fmap, Hf|done|].
  intros id h. rewrite lookup_fmap. intros (h0 & Hh & _)%fmap_Some. by apply (Hk id h0).
Qed.

(** States that differ in what the invariant does not look at *)
Lemma inv_same s s' :
  inv s → hm_wf (handles s') → consumers s' = consumers s → vts s' = vts s → active_vt s' = active_vt s →
  next_vt_id s' = next_vt_id s → inv s'.
Proof.
  intros [] Hw Hc Hv Ha Hn. split; [done|..]; rewrite ?Hc, ?Hv, ?Ha, ?Hn; done.
Qed.

Lemma activate_vt_of disp v h : vt_of (activate disp v h) = vt_of h.
Proof. destruct h; cbn; try done. by case_bool_decide. Qed.

(** The effect of switching: the handles keep their VTs. *)
Record kept s s' : Prop := {
  kp_wf : hm_wf (handles s) → hm_wf (handles s');
  kp_consumers : consumers s' = consumers s;
  kp_vts : vts s' = vts s;
  kp_next : next_vt_id s' = next_vt_id s;
  kp_size : size (table s') = size (table s);
}.

Lemma kept_refl s : kept s s.
Proof. by split. Qed.

Lemma kept_trans s1 s2 s3 : kept s1 s2 → kept s2 s3 → kept s1 s3.
Proof. intros [] []. split; [auto|congruence..]. Qed.

Lemma kept_each f s : (∀ h, vt_of (f h) = vt_of h) → kept s (each_handle f s).
Proof.
  intros Hf. split; [apply each_wf|by apply consumers_each|done|done|]. unfold table. cbn. apply map_size_fmap.
Qed.

Lemma kept_inv s s' :
  inv s → kept s s' → match active_vt s' with None => vts s = ∅ | Some v => v ∈ vts s end → inv s'.
Proof.
  intros [] [] Ha. split; [auto|..]; rewrite ?kp_consumers0, ?kp_vts0, ?kp_next0; done.
Qed.

Lemma switch_vt_spec v s :
  wp (switch_vt v) (λ r s', r = Ok tt ∧ kept s s' ∧
    active_vt s' = if bool_decide (v ∈ vts s) then Some v else active_vt s) s.
Proof.
  unfold switch_vt. do 2 wp_step. case_bool_decide as Ha.
  { wp_step. split_and!; [done|apply kept_refl|]. by case_bool_decide. }
  case_bool_decide as Hv.
  { wp_step. split_and!; [done|apply kept_refl|]. by rewrite bool_decide_eq_false_2. }
  do 2 wp_step. rewrite bool_decide_eq_true_2 by (destruct (decide (v ∈ vts s)); tauto).
  split_and!; [done| |done]. apply (kept_trans _ (each_handle (activate (display s) v) s)); [apply kept_each, activate_vt_of|]. by split.
Qed.

Lemma switch_vt_inv v s : inv s → wp (switch_vt v) (λ r s', r = Ok tt ∧ inv s' ∧ kept s s') s.
Proof.
  intros Hs. eapply wp_mono; [apply switch_vt_spec|]. intros r s' (-> & Hk & Ha). split_and!; [done| |done].
  eapply kept_inv; [done|done|]. rewrite Ha. case_bool_decide; [done|]. apply Hs.
Qed.

(** *** Reads, subscriptions, notifications *)

Lemma kept_set id h h' s :
  table s !! id = Some h → vt_of h' = vt_of h →
  kept s {| s with handles := hm_set id h' (handles s) |}.
Proof.
  intros Hh Hv. split; [|..|done|done|].
  - cbn. intros Hw. apply hm_set_wf; [by eexists|done].
  - apply map_eq. intros j. unfold consumers, table. cbn. rewrite !lookup_omap.
    destruct (decide (j = id)) as [->|Hne]; [|by rewrite lookup_insert_ne].
    rewrite lookup_insert_eq. unfold table in Hh. rewrite Hh. done.
  - unfold table. cbn. unfold table in Hh. rewrite map_size_insert_Some; [done|by eexists].
Qed.

(** A computation that keeps terminals and consumers, and the active terminal *)
Definition calm {A} (m : comp InputScheme A) : Prop :=
  ∀ s, wp m (λ r s', r ≠ Panic ∧ kept s s' ∧ active_vt s' = active_vt s) s.

Ltac calm_done := split_and!; [done|apply kept_refl|done].

Lemma calm_read id buf : calm (read id buf).
Proof.
  intros s. unfold read, handle_of, hm_get. do 4 wp_step. fold (table s).
  destruct (table s !! id) as [[|c|d| |]|] eqn:Hh; wp_go; try calm_done.
  all: unfold set_handle; wp_go; split_and!; [done|by eapply kept_set|done].
Qed.

Lemma calm_fevent id flags : calm (fevent id flags).
Proof.
  intros s. unfold fevent, handle_of, hm_get. do 4 wp_step. fold (table s).
  destruct (table s !! id) as [[|c|d| |]|] eqn:Hh; wp_go; try calm_done.
  all: unfold set_handle; wp_go; split_and!; [done|by eapply kept_set|done].
Qed.

Lemma calm_fpath id buf : calm (fpath id buf).
Proof.
  intros s. unfold fpath, hm_get. do 3 wp_step. wp_step; [|calm_done].
  destruct (fpath_with _ _ _) as [r b] eqn:Hf. cbv beta iota zeta. wp_step. wp_step.
  assert (r ≠ Panic) as Hr.
  { intros ->. revert Hf. unfold fpath_with, mbind, comp_bind. rewrite fw_after_nil, !push_str_after.
    destruct (hm_handles (handles s) !! id) as [[]|]; cbn; try done. by rewrite push_str_after. }
  destruct r; [wp_step|..]; calm_done.
Qed.

(** *** Events *)

(** Only displays changed. *)
Definition same_but_displays s s' : Prop :=
  ∀ id, match table s !! id with
        | Some (HDisplay _) => ∃ d, table s' !! id = Some (HDisplay d)
        | o => table s' !! id = o
        end.

Lemma same_refl s : same_but_displays s s.
Proof. intros id. destruct (table s !! id) as [[]|]; eauto. Qed.

Lemma same_trans s1 s2 s3 : same_but_displays s1 s2 → same_but_displays s2 s3 → same_but_displays s1 s3.
Proof.
  intros H12 H23 id. specialize (H12 id). specialize (H23 id).
  destruct (table s1 !! id) as [[]|]; try (rewrite H12 in H23; exact H23).
  destruct H12 as [d2 H12]. by rewrite H12 in H23.
Qed.

Lemma switch_vt_same v s : wp (switch_vt v) (λ _ s', same_but_displays s s' ∧ active_keymap s' = active_keymap s ∧
  has_new_events s' = has_new_events s) s.
Proof.
  unfold switch_vt. do 2 wp_step. case_bool_decide; [wp_step; split; [apply same_refl|done]|].
  case_bool_decide; wp_go; (split; [|done]); [apply same_refl|]. intros id. unfold table. cbn.
  rewrite lookup_fmap. destruct (hm_handles (handles s) !! id) as [[]|]; cbn; try done. case_bool_decide; eauto.
Qed.

(** What an event becomes: itself, or the key with its character in the layout *)
Definition typed_as (km : KeymapData) (e e' : Event) : Prop :=
  match to_key e with
  | None => e' = e
  | Some key => e' = e ∨ ∃ shift, e' = to_event (mk_key_event (get_char km (scancode key) shift)
                                         (scancode key) (pressed key))
  end.

Record events_post s s' : Prop := {
  ev_inv : inv s';
  ev_kept : kept s s';
  ev_same : same_but_displays s s';
  ev_keymap : active_keymap s' = active_keymap s;
}.

Lemma events_post_trans s1 s2 s3 : events_post s1 s2 → events_post s2 s3 → events_post s1 s3.
Proof.
  intros [] []. split; [done|by eapply kept_trans|by eapply same_trans|congruence].
Qed.

Lemma switch_vt_events v s : inv s → wp (switch_vt v) (λ r s', r = Ok tt ∧ events_post s s') s.
Proof.
  intros Hs. pose proof (switch_vt_inv v s Hs) as H1. pose proof (switch_vt_same v s) as H2.
  unfold wp in *. destruct H1 as (H & Hi & Hk), H2 as (Hm & Hkm & _). by split_and!.
Qed.

Lemma process_key_spec e key s :
  inv s → to_key e = Some key →
  wp (process_key e key) (λ r s', ∃ e', r = Ok e' ∧ typed_as (active_keymap s) e e' ∧ events_post s s') s.
Proof using f1_code.
  intros Hs Hk. assert (typed_as (active_keymap s) e e) as Ht by (unfold typed_as; rewrite Hk; by left).
  assert (∀ f : InputScheme, consumers f = consumers s → table f = table s → handles f = handles s →
    vts f = vts s → next_vt_id f = next_vt_id s → active_vt f = active_vt s →
    active_keymap f = active_keymap s → events_post s f) as Hput.
  { intros f Hc Ht' Hh Hv Hn Ha Hm. split; [|by split; rewrite ?Hh, ?Ht'| |done].
    - eapply inv_same; try done. rewrite Hh. apply Hs.
    - intros id. rewrite Ht'. apply same_refl. }
  unfold process_key. do 2 wp_step.
  destruct ((K_F1 <=? scancode key) && (scancode key <=? K_F10) && super_key s) eqn:Hf.
  { wp_step. apply wp_sub_usize; [lia|]. wp_step.
    eapply wp_mono; [by apply switch_vt_events|]. intros r s' [-> Hp]. wp_step. by exists e. }
  destruct ((scancode key =? K_F11) && super_key s).
  { wp_step. eapply wp_mono; [by apply switch_vt_events|]. intros r s' [-> Hp]. wp_step. by exists e. }
  destruct ((scancode key =? K_F12) && super_key s).
  { wp_step. eapply wp_mono; [by apply switch_vt_events|]. intros r s' [-> Hp]. wp_step. by exists e. }
  repeat (match goal with |- wp (if ?b then _ else _) _ _ => destruct b end;
    [wp_go; exists e; split_and!; [done|done|by apply Hput]|]).
  wp_step. eexists. split_and!; [done| |by apply Hput]. unfold typed_as. rewrite Hk. right. by eexists.
Qed.

Lemma process_events_spec es s :
  inv s → wp (process_events es) (λ r s', ∃ es', r = Ok es' ∧ Forall2 (typed_as (active_keymap s)) es es' ∧
    events_post s s') s.
Proof using f1_code.
  revert s. induction es as [|e es IH]; intros s Hs; cbn [process_events].
  { wp_step. exists []. split_and!; [done|done|]. split; [done|apply kept_refl|apply same_refl|done]. }
  wp_step.
  assert (wp match to_key e with Some key => process_key e key | None => mret e end
    (λ r s', ∃ e', r = Ok e' ∧ typed_as (active_keymap s) e e' ∧ events_post s s') s) as He.
  { destruct (to_key e) eqn:Hk; [by apply process_key_spec|]. wp_step. exists e.
    split_and!; [done|unfold typed_as; by rewrite Hk|]. split; [done|apply kept_refl|apply same_refl|done]. }
  eapply wp_mono; [exact He|]. intros r s1 (e' & -> & Ht & Hp). wp_step.
  eapply wp_mono; [apply IH, Hp|]. intros r s2 (es' & -> & Hes & Hp2). wp_step.
  exists (e' :: es'). split_and!; [done| |by eapply events_post_trans].
  constructor; [done|]. by rewrite (ev_keymap _ _ Hp) in Hes.
Qed.

Lemma deliver_vt_of v buf h : vt_of (deliver v buf h) = vt_of h.
Proof. destruct h; cbn; try done. by case_bool_decide. Qed.

(** The consumer of the active terminal has the bytes at the end of its queue; the others
    are as they were. *)
Definition delivered (b : bytes) s s' : Prop :=
  ∀ id c, table s !! id = Some (HConsumer c) → table s' !! id = Some (HConsumer
    (if bool_decide (active_vt s' = Some (vt c))
     then {| c with c_pending := c_pending c ++ b; c_notified := false |} else c)).

Lemma write_producer_spec id buf s :
  inv s → table s !! id = Some Producer →
  bool_decide (length buf = 1%nat) && bool_decide (0xf4 < hd 0 buf) = false →
  wp (write_producer id buf) (λ r s', ∃ es, Forall2 (typed_as (active_keymap s)) (events_of buf) es ∧
    r = Ok (Z.of_nat (length es * event_size)) ∧ inv s' ∧ kept s s' ∧
    delivered (concat (event_bytes <$> es)) s s') s.
Proof using f1_code laws.
  intros Hs Hid Hone. unfold write_producer. rewrite Hone. wp_step.
  eapply wp_mono; [by apply process_events_spec|]. intros r s1 (es & -> & Hes & [Hi Hk Hsame Hkm]).
  unfold handle_of, hm_get. do 4 wp_step. fold (table s1).
  pose proof (Hsame id) as Hp. rewrite Hid in Hp. rewrite Hp. do 2 wp_step.
  assert (length (concat (event_bytes <$> es)) = (length es * event_size)%nat) as Hlen.
  { clear -laws. induction es as [|e es IH]; cbn; [done|]. rewrite length_app, IH, event_bytes_length. lia. }
  assert (∀ j c, table s !! j = Some (HConsumer c) → table s1 !! j = Some (HConsumer c)) as Hcons.
  { intros j c Hj. pose proof (Hsame j) as Hp'. by rewrite Hj in Hp'. }
  destruct (active_vt s1) as [v|] eqn:Hv.
  - do 3 wp_step. exists es. pose proof (kept_each (deliver v (concat (event_bytes <$> es))) s1 (deliver_vt_of _ _)) as Hke.
    split_and!; [done|by rewrite Hlen| |by eapply kept_trans|].
    + eapply kept_inv; [exact Hi|done|]. cbn. apply Hi.
    + intros j c Hj. unfold table at 1. cbn. rewrite lookup_fmap. fold (table s1). rewrite (Hcons j c Hj). cbn.
      rewrite Hv. by repeat case_bool_decide; simplify_eq.
  - do 3 wp_step. exists es. split_and!; [done|by rewrite Hlen|done|done|].
    intros j c Hj. rewrite Hv. by apply Hcons.
Qed.

Lemma write_control_spec buf s : inv s → wp (write_control buf) (λ r s', r ≠ Panic ∧ inv s' ∧ kept s s') s.
Proof.
  intros Hs. unfold write_control. case_bool_decide; [wp_step; split_and!; [done|done|apply kept_refl]|].
  wp_step. case_match; [|case_match].
  - eapply wp_mono; [by apply switch_vt_inv|]. intros r s' (-> & Hi & Hk). wp_step. done.
  - unfold switch_keymap. wp_step. wp_step. case_bool_decide; wp_go.
    + split_and!; [done|done|apply kept_refl].
    + split_and!; [done|by eapply inv_same; [exact Hs|apply Hs|..]|by split].
  - wp_go. split_and!; [done|done|apply kept_refl].
Qed.

Lemma write_spec id buf s : inv s → wp (write id buf) (λ r s', r ≠ Panic ∧ inv s' ∧ kept s s') s.
Proof using f1_code laws.
  intros Hs. set (s1 := {| s with has_new_events := true |}).
  assert (inv s1) as Hs1 by by eapply inv_same; [exact Hs|apply Hs|..].
  assert (kept s s1) as Hk1 by by split.
  cut (wp (h ← handle_of id; match h with
    | Control => write_control buf | HConsumer _ | HDisplay _ => fail EINVAL
    | Producer => write_producer id buf | SchemeRoot => fail EBADF end)
    (λ r s', r ≠ Panic ∧ inv s' ∧ kept s1 s') s1).
  { intros Hw. unfold write. wp_step. wp_step. eapply wp_mono; [exact Hw|]. intros r s' (? & ? & ?).
    split_and!; [done|done|by eapply kept_trans]. }
  unfold handle_of, hm_get. do 4 wp_step. fold (table s1). destruct (table s1 !! id) as [[]|] eqn:Hh; wp_go;
    try (split_and!; [done|done|apply kept_refl]).
  - destruct (bool_decide (length buf = 1%nat) && bool_decide (0xf4 < hd 0 buf)) eqn:Hone.
    + unfold write_producer. rewrite Hone. wp_step. split_and!; [done|done|apply kept_refl].
    + eapply wp_mono; [by apply write_producer_spec|]. intros r s' (es & _ & -> & Hi & Hk & _). done.
  - by apply write_control_spec.
Qed.

(** *** Opening and closing *)

(** What [hm_insert] needs to make the invariant hold again *)
Record openable (h : Handle) s : Prop := {
  op_wf : hm_wf (handles s);
  op_vts v : v ∈ vts s ↔ (∃ id, consumers s !! id = Some v) ∨ vt_of h = Some v;
  op_new id v : consumers s !! id = Some v → vt_of h ≠ Some v;
  op_one id id' v : consumers s !! id = Some v → consumers s !! id' = Some v → id = id';
  op_active : match active_vt s with None => vts s = ∅ | Some v => v ∈ vts s end;
  op_next : 2 ≤ next_vt_id s;
  op_below v : v ∈ vts s → v < next_vt_id s;
}.

Lemma insert_inv h s (Q : outcome Z → InputScheme → Prop) :
  openable h s → Z.of_nat (size (table s)) < usize_max →
  (∀ fd s', inv s' → next_vt_id s' = next_vt_id s → (size (table s') ≤ size (table s) + 1)%nat →
     Q (Ok fd) s') →
  wp (on_handles (hm_insert h)) Q s.
Proof.
  intros [] Hroom HQ. unfold on_handles. wp_step. apply hm_insert_wp; [done|done|]. intros n m' Hw'.
  apply HQ; [|done|]. 2: { unfold table, m'. cbn. rewrite map_size_insert. destruct (hm_handles (handles s) !! _); cbn; lia. }
  set (fd := hm_next_id (handles s)) in *.
  assert (table s !! fd = None) as Hfresh by apply op_wf0.
  set (s' := {| s with handles := m' |}).
  assert (∀ id, consumers s' !! id = if bool_decide (id = fd) then vt_of h else consumers s !! id) as Hc.
  { intros id. unfold consumers, table, s', m'. cbn. rewrite !lookup_omap.
    case_bool_decide; [subst; by rewrite lookup_insert_eq|by rewrite lookup_insert_ne]. }
  assert (consumers s !! fd = None) as Hcf by (unfold consumers; by rewrite lookup_omap, Hfresh).
  split; cbn; [done| | |done|done|done].
  - intros v. rewrite op_vts0. split.
    + intros [[id Hid]|Hv]; [exists id|exists fd]; rewrite Hc; case_bool_decide; congruence.
    + intros [id Hid]. rewrite Hc in Hid. case_bool_decide; [by right|left; by exists id].
  - intros id id' v. rewrite !Hc. repeat case_bool_decide; subst; try done; intros H1 H2.
    + by destruct (op_new0 id' v H2).
    + by destruct (op_new0 id v H1).
    + by eapply op_one0.
Qed.

Lemma openable_none h s : inv s → vt_of h = None → openable h s.
Proof.
  intros [] Hh. split; try done.
  - intros v. rewrite iv_vts0, Hh. split; [by left|by intros [|]].
  - intros id v _. by rewrite Hh.
Qed.

Lemma openable_new v s s' :
  inv s → (∀ w, w ∈ vts s → w ≠ v) → hm_wf (handles s') → consumers s' = consumers s →
  vts s' = vts s ∪ {[ v ]} → active_vt s' ≠ None → (∀ w, active_vt s' = Some w → w ∈ vts s') →
  next_vt_id s ≤ next_vt_id s' → v < next_vt_id s' → openable (new_consumer v) s'.
Proof.
  intros [] Hv Hw Hc Hvts Ha1 Ha2 Hn Hvn. split; [done|..]; rewrite ?Hc.
  - intros w. rewrite Hvts, elem_of_union, elem_of_singleton, iv_vts0. cbn. naive_solver.
  - intros id w Hw' [= Heq]. subst. by apply (Hv w); [apply iv_vts0; by exists id|].
  - done.
  - destruct (active_vt s'); [by apply Ha2|done].
  - lia.
  - intros w. rewrite Hvts, elem_of_union, elem_of_singleton. intros [Hin| ->]; [|lia].
    specialize (iv_below0 w Hin). lia.
Qed.

(** The effect of a request on the invariant, with the growth of the counters *)
Record good s s' : Prop := {
  gd_inv : inv s';
  gd_next : next_vt_id s' ≤ next_vt_id s + 1;
  gd_size : (size (table s') ≤ size (table s) + 1)%nat;
}.

Lemma good_kept s s' : inv s' → kept s s' → good s s'.
Proof. intros Hi []. split; [done|lia|lia]. Qed.

(** An open that made a handle *)
Lemma open_finish h s s1 :
  openable h s1 → next_vt_id s1 ≤ next_vt_id s + 1 → size (table s1) = size (table s) →
  Z.of_nat (size (table s)) < usize_max →
  wp (on_handles (hm_insert h)) (λ r s', r ≠ Panic ∧ good s s') s1.
Proof.
  intros Ho Hn Hs Hroom. apply insert_inv; [done|by rewrite Hs|]. intros fd s' Hi Hn' Hs'.
  split; [done|]. split; [done|lia|lia].
Qed.

Lemma open_consumer_spec s :
  inv s → next_vt_id s < usize_max →
  wp open_consumer (λ r s', ∃ h, r = Ok h ∧ openable h s' ∧ next_vt_id s' = next_vt_id s + 1 ∧
    size (table s') = size (table s)) s.
Proof.
  intros Hs Hmax. unfold open_consumer. do 4 wp_step.
  pose proof (iv_next s Hs) as Hn. assert (wrap_usize (next_vt_id s + 1) = next_vt_id s + 1) as Hw
    by (apply wrap_usize_id; unfold is_usize; lia). rewrite Hw.
  set (s1 := {| s with next_vt_id := next_vt_id s + 1; vts := vts s ∪ {[next_vt_id s]} |}).
  assert (∀ w, w ∈ vts s → w ≠ next_vt_id s) as Hnew.
  { intros w Hw' ->. specialize (iv_below s Hs _ Hw'). lia. }
  do 3 wp_step. cbn [active_vt]. case_bool_decide as Ha.
  - eapply wp_mono; [apply switch_vt_spec|]. intros r s2 (-> & [] & Ha2).
    rewrite bool_decide_eq_true_2 in Ha2 by (cbn; set_solver). wp_step.
    eexists. split; [done|]. split_and!; [|done|done].
    eapply (openable_new _ s); try done; [by apply kp_wf0, Hs|congruence| |rewrite kp_next0; cbn; lia..].
    intros w. rewrite Ha2, kp_vts0. intros [= <-]. cbn. set_solver.
  - wp_go. eexists. split; [done|]. split_and!; [|done|done].
    eapply (openable_new _ s); try done; [apply Hs| |cbn; lia..].
    intros w Hw'. cbn in *. pose proof (iv_active s Hs) as Hact. rewrite Hw' in Hact. set_solver.
Qed.

Lemma open_bootlog_spec s :
  inv s → wp open_bootlog (λ r s', match r with
    | Ok h => openable h s' ∧ next_vt_id s' = next_vt_id s ∧ size (table s') = size (table s)
    | Err _ => good s s' | Panic => False end) s.
Proof.
  intros Hs. unfold open_bootlog. do 4 wp_step.
  set (s1 := {| s with vts := vts s ∪ {[1]} |}). case_bool_decide as H1.
  - wp_step. split; [|cbn; lia|cbn; unfold table; cbn; lia].
    assert (vts s1 = vts s) as Hv by (cbn; set_solver). by eapply inv_same; [exact Hs|apply Hs|..].
  - wp_step. eapply wp_mono; [apply switch_vt_spec|]. intros r s2 (-> & [] & Ha2).
    rewrite bool_decide_eq_true_2 in Ha2 by (cbn; set_solver). wp_step. split_and!; [|done|done].
    pose proof (iv_next s Hs).
    eapply (openable_new _ s); try done; [|by apply kp_wf0, Hs|congruence| |rewrite kp_next0; cbn; lia..].
    + intros w Hw ->. done.
    + intros w. rewrite Ha2, kp_vts0. intros [= <-]. cbn. set_solver.
Qed.

Lemma open_display_spec early name s :
  inv s → wp (open_display early name) (λ r s', ∃ d, r = Ok (HDisplay d) ∧ inv s' ∧ kept s s') s.
Proof.
  intros Hs. unfold open_display. do 3 wp_step. case_match.
  - do 6 wp_step. eexists. split; [done|]. set (s1 := {| s with has_new_events := true; display := Some name |}).
    assert (kept s s1) as H1 by by split.
    assert (kept s1 (each_handle ask_handoff s1)) as H2 by (apply kept_each; by intros []).
    pose proof (kept_trans _ _ _ H1 H2) as Hk. split; [|done]. eapply kept_inv; [exact Hs|done|apply Hs].
  - do 4 wp_step. eexists. split; [done|]. split; [done|apply kept_refl].
Qed.

Lemma openat_spec dirfd path s :
  inv s → next_vt_id s < usize_max → Z.of_nat (size (table s)) < usize_max →
  wp (openat dirfd path) (λ r s', r ≠ Panic ∧ good s s') s.
Proof.
  intros Hs Hmax Hroom. assert (good s s) as Hrefl by (apply good_kept; [done|apply kept_refl]).
  unfold openat, handle_of, hm_get. do 4 wp_step. fold (table s).
  destruct (table s !! dirfd) as [[]|]; try (wp_step; done); [|done].
  do 2 wp_step; [|done]. wp_step.
  repeat (match goal with |- wp (if ?b then _ else _) _ _ => destruct b end).
  - wp_step. apply open_finish; [by apply openable_none|lia|done|done].
  - eapply wp_mono; [by apply open_consumer_spec|]. intros r s1 (h & -> & Ho & Hn & Hsz).
    apply open_finish; [done|lia|done|done].
  - eapply wp_mono; [by apply open_bootlog_spec|]. intros [h|e|] s1; [|done|done]. intros (Ho & Hn & Hsz).
    apply open_finish; [done|lia|done|done].
  - do 2 wp_step; [|done]. eapply wp_mono; [by apply open_display_spec|].
    intros r s2 (d & -> & Hi & []). apply open_finish; [by apply openable_none|lia|done|done].
  - wp_step. apply open_finish; [by apply openable_none|lia|done|done].
  - wp_step. done.
Qed.

(** A consumer that goes away takes its terminal with it. *)
Lemma remove_consumer s id c :
  inv s → table s !! id = Some (HConsumer c) →
  let s1 := {| s with handles := mk_handle_map (delete id (table s)) (hm_next_id (handles s));
                      vts := vts s ∖ {[ vt c ]} |} in
  ∀ s', kept s1 s' → match active_vt s' with None => vts s1 = ∅ | Some v => v ∈ vts s1 end → inv s'.
Proof.
  intros [] Hid s1 s' [] Ha.
  assert (consumers s !! id = Some (vt c)) as Hcid by (unfold consumers; by rewrite lookup_omap, Hid).
  assert (∀ j, consumers s1 !! j = if bool_decide (j = id) then None else consumers s !! j) as Hc.
  { intros j. unfold consumers, table, s1. cbn. rewrite !lookup_omap. case_bool_decide; subst;
      [by rewrite lookup_delete_eq|by rewrite lookup_delete_ne]. }
  split; rewrite ?kp_consumers0, ?kp_vts0, ?kp_next0; [apply kp_wf0, hm_remove_wf, iv_wf0| | |done|done|].
  - intros v. cbn. rewrite elem_of_difference, elem_of_singleton, iv_vts0. split.
    + intros [[j Hj] Hne]. exists j. rewrite Hc. case_bool_decide; [congruence|done].
    + intros [j Hj]. rewrite Hc in Hj. case_bool_decide; [done|]. split; [by exists j|].
      intros ->. by rewrite (iv_one0 j id (vt c)) in *.
  - intros j j' v. rewrite !Hc. repeat case_bool_decide; try done. apply iv_one0.
  - intros v. cbn. rewrite elem_of_difference. intros [Hv _]. by apply iv_below0.
Qed.

Lemma remove_other s id h :
  inv s → table s !! id = Some h → vt_of h = None →
  inv {| s with handles := mk_handle_map (delete id (table s)) (hm_next_id (handles s)) |}.
Proof.
  intros Hs Hid Hv. eapply inv_same; [exact Hs|apply hm_remove_wf, Hs| |done|done|done].
  apply map_eq. intros j. unfold consumers, table. cbn. rewrite !lookup_omap.
  destruct (decide (j = id)) as [->|]; [|by rewrite lookup_delete_ne].
  unfold table in Hid. by rewrite lookup_delete_eq, Hid.
Qed.

Lemma on_close_spec id s :
  inv s → wp (on_close id) (λ r s', match r with
    | Panic => table s !! id = None ∧ table s' !! id = None | Ok _ => good s s' | Err _ => False end) s.
Proof.
  intros Hs. unfold on_close, on_handles, hm_remove. do 5 wp_step. fold (table s).
  assert (size (delete id (table s)) ≤ size (table s))%nat as Hsz.
  { rewrite map_size_delete. destruct (table s !! id); cbn; lia. }
  destruct (table s !! id) as [h|] eqn:Hid; do 3 wp_step.
  2: { split; [done|]. unfold table. cbn. apply lookup_delete_eq. }
  destruct h as [|c|d| |].
  2: { do 4 wp_step.
       pose proof (remove_consumer s id c Hs Hid) as Hrem. cbv zeta in Hrem.
       set (s1 := {| s with handles := mk_handle_map (delete id (table s)) (hm_next_id (handles s));
                            vts := vts s ∖ {[ vt c ]} |}) in *.
       assert (∀ s', inv s' → kept s1 s' → good s s') as Hgood.
       { intros s' Hi []. split; [done|rewrite kp_next0; cbn; lia|]. rewrite kp_size0.
         change (table s1) with (delete id (table s)). lia. }
       wp_step. cbn [active_vt vts s1]. case_bool_decide as Ha.
       - pose proof (set_last_spec (vts s ∖ {[vt c]})) as Hl. destruct (set_last _) as [v|].
         + eapply wp_mono; [apply switch_vt_spec|]. intros r s2 (-> & Hk & Ha2).
           rewrite bool_decide_eq_true_2 in Ha2 by done. apply Hgood; [|done]. apply (Hrem s2 Hk). by rewrite Ha2.
         + wp_step. apply Hgood; [apply Hrem; [by split|done]|by split].
       - wp_step. apply Hgood; [|apply kept_refl]. apply Hrem; [apply kept_refl|]. cbn.
         pose proof (iv_active s Hs) as Hact. destruct (active_vt s) as [v|]; set_solver. }
  all: wp_step; split; [by eapply remove_other|cbn; lia|exact (Nat.le_trans _ _ _ Hsz (Nat.le_add_r _ 1))].
Qed.

(** *** Sequences of requests *)

Lemma request_spec r s :
  inv s → next_vt_id s < usize_max → Z.of_nat (size (table s)) < usize_max →
  wp (handle_request r) (λ x s', match x with
    | Panic => ∃ id, r = OnClose id ∧ table s' !! id = None | _ => good s s' end) s.
Proof using f1_code laws.
  intros Hs Hmax Hroom.
  assert (∀ A (m : comp InputScheme A) (f : A → comp InputScheme Reply),
    wp m (λ x s', x ≠ Panic ∧ good s s') s → (∀ a s', wp (f a) (λ x s'', s'' = s' ∧ x ≠ Panic) s') →
    wp (m ≫= f) (λ x s', match x with
      | Panic => ∃ id, r = OnClose id ∧ table s' !! id = None | _ => good s s' end) s) as Hgo.
  { intros A m f Hm Hf. wp_step. eapply wp_mono; [exact Hm|]. intros [a|e|] s' [Hp Hg]; [|done|done].
    eapply wp_mono; [apply Hf|]. intros [x|e|] s'' [-> Hx]; done. }
  assert (∀ A (m : comp InputScheme A), calm m → wp m (λ x s', x ≠ Panic ∧ good s s') s) as Hcalm.
  { intros A m Hm. eapply wp_mono; [apply Hm|]. intros x s' (Hx & Hk & Ha). split; [done|].
    apply good_kept; [|done]. eapply kept_inv; [done|done|]. rewrite Ha. apply Hs. }
  destruct r as [dirfd path|id buf|id buf|id buf|id flags|id]; cbn [handle_request].
  - apply Hgo; [by apply openat_spec|]. intros fd s'. by wp_step.
  - apply Hgo; [apply Hcalm, calm_fpath|]. intros [n b] s'. by wp_step.
  - apply Hgo; [apply Hcalm, calm_read|]. intros [n b] s'. by wp_step.
  - apply Hgo; [|intros n s'; by wp_step]. eapply wp_mono; [by apply write_spec|].
    intros x s' (Hx & Hi & Hk). split; [done|by apply good_kept].
  - apply Hgo; [apply Hcalm, calm_fevent|]. intros n s'. by wp_step.
  - wp_step. eapply wp_mono; [by apply on_close_spec|]. intros [[]|e|] s'; [|done|].
    + intros Hg. by wp_step.
    + intros [_ Hn]. by exists id.
Qed.

Lemma requests_spec rs s :
  inv s → next_vt_id s + Z.of_nat (length rs) ≤ usize_max →
  Z.of_nat (size (table s) + length rs) ≤ usize_max →
  wp (process_requests rs) (λ x s', match x with
    | Ok l => length l = length rs ∧ inv s'
    | Err _ => False
    | Panic => ∃ id, OnClose id ∈ rs ∧ table s' !! id = None end) s.
Proof using f1_code laws.
  revert s. induction rs as [|r rs IH]; intros s Hs Hn Hz; cbn [process_requests length] in *; [by wp_step|].
  wp_step. pose proof (request_spec r s Hs ltac:(lia) ltac:(lia)) as Hr.
  unfold wp in Hr. unfold wp at 1, result. destruct (handle_request r s) as [[x|e|] s1]; cbn in Hr |- *.
  3: { destruct Hr as (id & -> & Hid). exists id. split; [left|done]. }
  all: destruct Hr as [Hi Hn1 Hz1]; wp_step; (eapply wp_mono; [apply (IH s1 Hi); lia|]);
    intros [l|e'|] s2; [|done|by intros (id & Hin & Hid); exists id; split; [right|]].
  all: intros [Hl Hi2]; wp_step; cbn; by rewrite Hl.
Qed.
End Spec.

(** The state after start-up: the scheme root is the only handle. *)
Definition input_start {orb : OrbKeys} : InputScheme :=
  {| input_new with handles := mk_handle_map {[ 1 := SchemeRoot ]} 2 |}.

Lemma input_start_inv {orb : OrbKeys} : inv input_start.
Proof.
  assert (∀ id v, consumers input_start !! id = Some v → False) as Hnone.
  { intros id v. unfold consumers, table. cbn. rewrite lookup_omap.
    destruct (decide (id = 1)) as [->|]; [by rewrite lookup_singleton_eq|by rewrite lookup_singleton_ne]. }
  split.
  - split; cbn; [done|done|]. by apply map_Forall_singleton.
  - intros v. split; [cbn; set_solver|]. by intros [id Hid%Hnone].
  - by intros id id' v Hid%Hnone.
  - done.
  - done.
  - cbn. set_solver.
Qed.

(** C21. One terminal is active: whatever requests inputd served since its start, the
    active VT is that of one open consumer, the only one that has it, and there is no
    active VT exactly when no consumer is open.  Serving fails in one case only, the
    closing of an id that is not open. *)
Theorem inputd_active_terminal {abi : SyscallAbi} {orb : OrbKeys} {oc : OrbClient} {laws : OrbClientLaws oc}
    (rs : list Request) :
  0x3A ≤ K_F1 → Z.of_nat (length rs) + 2 ≤ usize_max →
  let '(x, s) := process_requests rs input_start in
  match x with
  | Ok answers => length answers = length rs ∧
     match active_vt s with
     | Some v => ∃ id c, table s !! id = Some (HConsumer c) ∧ vt c = v ∧
         ∀ id' c', table s !! id' = Some (HConsumer c') → vt c' = v → id' = id
     | None => ∀ id c, table s !! id ≠ Some (HConsumer c)
     end
  | Err _ => False
  | Panic => ∃ id, OnClose id ∈ rs ∧ table s !! id = None
  end.
Proof.
  intros Hf1 Hlen. pose proof (requests_spec Hf1 rs input_start input_start_inv) as Hr.
  assert (size (table input_start) = 1%nat) as Hsz by apply map_size_singleton. rewrite Hsz in Hr.
  specialize (Hr ltac:(cbn; lia) ltac:(lia)).
  unfold wp in Hr. destruct (process_requests rs input_start) as [x s]. cbn in Hr. destruct x as [answers|e|]; [|done|done].
  destruct Hr as [Hl Hi]. split; [done|]. pose proof (iv_active s Hi) as Ha.
  assert (∀ id c, table s !! id = Some (HConsumer c) → consumers s !! id = Some (vt c)) as Hc
    by (intros id c Hid; unfold consumers; by rewrite lookup_omap, Hid).
  destruct (active_vt s) as [v|].
  - apply (iv_vts s Hi) in Ha as [id Hid]. pose proof Hid as Hid'. unfold consumers in Hid'.
    rewrite lookup_omap in Hid'. destruct (table s !! id) as [[|c|d| |]|] eqn:Ht; cbn in Hid'; try done.
    injection Hid' as Hv. exists id, c. split_and!; [done|done|]. intros id' c' Ht' Hv'.
    eapply (iv_one s Hi _ _ v); [|exact Hid]. rewrite <- Hv'. by apply Hc.
  - intros id c Hid. assert (vt c ∈ vts s) by (apply (iv_vts s Hi); exists id; by apply Hc). set_solver.
Qed.

(** C22. The keys go to the active terminal: the events a producer writes are, each as it
    was or with the character its key has in the active layout, appended in order to what
    the consumer of the active terminal has to read; the other consumers get nothing, and
    the write reports the size of the events. *)
Theorem inputd_delivers {abi : SyscallAbi} {orb : OrbKeys} {oc : OrbClient} {laws : OrbClientLaws oc}
    (s : InputScheme) (id : Z) (buf : bytes) :
  0x3A ≤ K_F1 → inv s → table s !! id = Some Producer → length buf ≠ 1%nat →
  ∃ es s', write id buf s = (Ok (Z.of_nat (length es * event_size)), s') ∧
    Forall2 (typed_as (active_keymap s)) (events_of buf) es ∧
    ∀ j c, table s !! j = Some (HConsumer c) → table s' !! j = Some (HConsumer
      (if bool_decide (active_vt s' = Some (vt c))
       then {| c with c_pending := c_pending c ++ concat (event_bytes <$> es); c_notified := false |}
       else c)).
Proof.
  intros Hf1 Hs Hid Hlen. set (s1 := {| s with has_new_events := true |}).
  assert (inv s1) as Hs1 by by eapply inv_same; [exact Hs|apply Hs|..].
  assert (table s1 !! id = Some Producer) as Hid1 by done.
  pose proof (write_producer_spec Hf1 id buf s1 Hs1 Hid1) as Hw.
  rewrite bool_decide_eq_false_2 in Hw by done. specialize (Hw eq_refl). unfold wp in Hw.
  destruct (write_producer id buf s1) as [r s'] eqn:Hrun. cbn in Hw.
  destruct Hw as (es & Hes & -> & Hi & Hk & Hd). exists es, s'. split_and!; [|done|exact Hd].
  unfold write. rewrite bind_modify. fold s1. unfold handle_of, mbind, comp_bind, get, lift, hm_get.
  unfold table in Hid1. rewrite Hid1. done.
Qed.

Section Example.
#[local] Existing Instance redox_abi.

(** The scancodes of [orbclient] *)
Definition demo_keys : OrbKeys := {|
  K_ESC := 1; K_1 := 2; K_2 := 3; K_3 := 4; K_4 := 5; K_5 := 6; K_6 := 7; K_7 := 8; K_8 := 9; K_9 := 10;
  K_0 := 11; K_MINUS := 12; K_EQUALS := 13; K_BKSP := 14; K_TAB := 15; K_Q := 16; K_W := 17; K_E := 18;
  K_R := 19; K_T := 20; K_Y := 21; K_U := 22; K_I := 23; K_O := 24; K_P := 25; K_BRACE_OPEN := 26;
  K_BRACE_CLOSE := 27; K_ENTER := 28; K_CTRL := 29; K_A := 30; K_S := 31; K_D := 32; K_F := 33; K_G := 34;
  K_H := 35; K_J := 36; K_K := 37; K_L := 38; K_SEMICOLON := 39; K_QUOTE := 40; K_TICK := 41;
  K_LEFT_SHIFT := 42; K_BACKSLASH := 43; K_Z := 44; K_X := 45; K_C := 46; K_V := 47; K_B := 48; K_N := 49;
  K_M := 50; K_COMMA := 51; K_PERIOD := 52; K_SLASH := 53; K_RIGHT_SHIFT := 54; K_SPACE := 57;
  K_F1 := 59; K_F10 := 68; K_F11 := 87; K_F12 := 88; K_SUPER := 91;
|}.
#[local] Existing Instance demo_keys.

(** Events of three bytes: character, scancode, pressed; every event is a key event. *)
Definition demo_orbclient : OrbClient := {|
  Event := Z * Z * Z;
  event_size := 3;
  event_of b := match b with [c; k; p] => (c, k, p) | _ => (0, 0, 0) end;
  event_bytes e := [e.1.1; e.1.2; e.2];
  to_key e := Some (mk_key_event e.1.1 e.1.2 (negb (e.2 =? 0)));
  to_event k := (character k, scancode k, if pressed k then 1 else 0);
|}.
#[local] Existing Instance demo_orbclient.

Lemma demo_orbclient_laws : OrbClientLaws demo_orbclient.
Proof. by split; [cbn; lia|]. Qed.

(** A producer, two consumers, and Super+F3 pressed between two letters *)
Definition demo_opens : list Request :=
  [Openat 1 "producer"; Openat 1 "consumer"; Openat 1 "consumer";
   Write 2 [0; 91; 1; 0; 61; 1; 0; 91; 0; 0; 42; 1; 0; 30; 1]].

Lemma inputd_active_terminal_witness :
  let '(x, s) := process_requests demo_opens input_start in
  x = Ok [inr (Opened 2); inr (Opened 3); inr (Opened 4); inr (Written 15)] ∧ active_vt s = Some 3 ∧
  ∃ id c, table s !! id = Some (HConsumer c) ∧ vt c = 3 ∧
    ∀ id' c', table s !! id' = Some (HConsumer c') → vt c' = 3 → id' = id.
Proof.
  pose proof (inputd_active_terminal (orb := demo_keys) (laws := demo_orbclient_laws) demo_opens ltac:(cbn; lia)
    ltac:(vm_compute; discriminate)) as H.
  assert ((process_requests demo_opens input_start).1 =
    Ok [inr (Opened 2); inr (Opened 3); inr (Opened 4); inr (Written 15)]) as Hx by by vm_compute.
  assert (active_vt (process_requests demo_opens input_start).2 = Some 3) as Ha by by vm_compute.
  destruct (process_requests demo_opens input_start) as [x s]. cbn [fst snd] in *.
  subst x. rewrite Ha in H. destruct H as [_ H]. by split_and!.
Defined.

(** The state before the letters are typed *)
Definition demo_state : InputScheme :=
  (process_requests [Openat 1 "producer"; Openat 1 "consumer"; Openat 1 "consumer"] input_start).2.

Lemma demo_state_inv : inv demo_state.
Proof.
  pose proof (requests_spec (orb := demo_keys) (laws := demo_orbclient_laws) ltac:(cbn; lia)
    [Openat 1 "producer"; Openat 1 "consumer"; Openat 1 "consumer"] input_start input_start_inv
    ltac:(vm_compute; discriminate) ltac:(vm_compute; discriminate)) as H.
  unfold wp in H. assert ((process_requests [Openat 1 "producer"; Openat 1 "consumer"; Openat 1 "consumer"]
    input_start).1 = Ok [inr (Opened 2); inr (Opened 3); inr (Opened 4)]) as Hx by by vm_compute.
  rewrite Hx in H. apply H.
Qed.

(** Shift and A: the first terminal gets a capital letter, the second nothing. *)
Lemma inputd_delivers_witness :
  ∃ (es : list Event) s', write 2 [0; 42; 1; 0; 30; 1] demo_state = (Ok (Z.of_nat (length es * event_size)), s') ∧
    table s' !! 3 = Some (HConsumer (mk_consumer 0 [0; 42; 1; 65; 30; 1] false false 2)) ∧
    table s' !! 4 = Some (new_consumer 3).
Proof.
  destruct (inputd_delivers (orb := demo_keys) (laws := demo_orbclient_laws) demo_state 2 [0; 42; 1; 0; 30; 1])
    as (es & s' & Hrun & _ & Hd); [cbn; lia|exact demo_state_inv|by vm_compute|done|].
  exists es, s'. split; [done|].
  assert (active_vt (write 2 [0; 42; 1; 0; 30; 1] demo_state).2 = Some 2) as Ha by by vm_compute.
  assert (table (write 2 [0; 42; 1; 0; 30; 1] demo_state).2 !! 3 =
    Some (HConsumer (mk_consumer 0 [0; 42; 1; 65; 30; 1] false false 2))) as H3 by by vm_compute.
  rewrite Hrun in Ha, H3. cbn [snd] in Ha, H3. split; [done|].
  rewrite (Hd 4 (mk_consumer 0 [] false false 3)) by by vm_compute. by rewrite Ha.
Defined.

(** A display driver misses a switch: a driver that has subscribed to its handle is
    not notified when the first consumer is opened, although that makes a terminal active
    and queues the event for it; it learns of the terminal when something is written. *)
Theorem inputd_activation_unannounced :
  let turns := (r1 ← daemon_turn [Openat 1 "handle/gpu"; Fevent 2 EVENT_READ];
                r2 ← daemon_turn [Openat 1 "consumer"];
                mret (r1.2, r2.2)) : comp InputScheme (list Z * list Z) in
  let '(r, s) := turns input_start in
  r = Ok ([], []) ∧ active_vt s = Some 2 ∧
  table s !! 2 = Some (HDisplay (mk_display EVENT_READ [mk_vt_event 2] false "gpu" false)) ∧
  option_map wants_notice (table s !! 2) = Some true.
Proof. by vm_compute. Qed.
End Example.
