(* ===== verification/XhciPort.v ===== *)
(** * The driver interface of [xhcid]

    [drivers/usb/xhcid/src/driver_interface.rs]: the names of ports, which are a port of the
    root hub and a route through further hubs, the descriptors of a device, and the messages
    that a driver and [xhcid] exchange over the files of an endpoint.  Fields of descriptors
    that nothing modelled here reads are left out. *)

From S2P Require Import Prelude Text.

(** ** Ports *)

Record PortId := mk_port_id { root_hub_port_num : Z; route_string : Z }.
#[global] Instance port_id_eq_dec : EqDecision PortId.
Proof. solve_decision. Defined.
#[global] Instance port_id_countable : Countable PortId.
Proof.
  apply (inj_countable' (λ p, (root_hub_port_num p, route_string p)) (λ p, mk_port_id p.1 p.2)).
  by intros [].
Defined.

(** [PortId::root_hub_port_index] *)
Definition root_hub_port_index {S} (p : PortId) : comp S Z :=
  if bool_decide (root_hub_port_num p = 0) then panic else mret (root_hub_port_num p - 1).

(** The loop of [hub_depth]; 32 bits are gone after eight turns. *)
Fixpoint depth_loop (turns : nat) (route : Z) : nat :=
  match turns with
  | O => 0
  | S turns => if bool_decide (route = 0) then 0 else S (depth_loop turns (Z.shiftr route 4))
  end.
Definition hub_depth (p : PortId) : nat := depth_loop 8 (route_string p).

(** [None] is an error with a text. *)
Definition child (p : PortId) (value : Z) : option PortId :=
  let depth := hub_depth p in
  if bool_decide (5 ≤ depth)%nat then None
  else if bool_decide (Z.land value 0xF0 ≠ 0) then None
  else Some (mk_port_id (root_hub_port_num p)
    (Z.lor (route_string p) (wrap_u32 (Z.shiftl value (Z.of_nat (depth * 4)))))).

Definition parent (p : PortId) : option (PortId * Z) :=
  match hub_depth p with
  | O => None
  | S parent_depth =>
     let parent_shift := Z.of_nat (parent_depth * 4) in
     let parent_mask := Z.shiftl 0xF parent_shift in
     Some (mk_port_id (root_hub_port_num p) (Z.land (route_string p) (u32_max - parent_mask)),
       Z.shiftr (Z.land (route_string p) parent_mask) parent_shift)
  end.

(** [Display] *)
Fixpoint show_route (turns : nat) (route : Z) : string :=
  match turns with
  | O => EmptyString
  | S turns =>
     if bool_decide (route = 0) then EmptyString
     else "." +:+ pretty (Z.land route 0xF) +:+ show_route turns (Z.shiftr route 4)
  end.
Definition show_port (p : PortId) : string := pretty (root_hub_port_num p) +:+ show_route 8 (route_string p).

(** [FromStr]; the index of a part is counted from the root *)
Fixpoint parse_route (depth : nat) (parts : list string) (route : Z) : option Z :=
  match parts with
  | [] => Some route
  | part :: parts =>
     value ← parse_uint 255 (String.list_ascii_of_string part);
     if bool_decide (value = 0) then None
     else if bool_decide (5 ≤ depth)%nat then None
     else if bool_decide (Z.land value 0xF0 ≠ 0) then None
     else parse_route (S depth) parts (Z.lor route (Z.shiftl value (Z.of_nat (depth * 4))))
  end.
Definition parse_port (s : string) : option PortId :=
  match split "."%char s with
  | [] => Some (mk_port_id 0 0)
  | part :: parts =>
     root ← parse_uint 255 (String.list_ascii_of_string part);
     if bool_decide (root = 0) then None
     else route ← parse_route 0 parts 0; Some (mk_port_id root route)
  end.

(** ** Descriptors *)

Inductive EndpDirection := DirOut | DirIn | Bidirectional.
#[global] Instance endp_direction_eq_dec : EqDecision EndpDirection.
Proof. solve_decision. Defined.

Inductive EndpointTy := Ctrl | Isoch | Bulk | Interrupt.
#[global] Instance endpoint_ty_eq_dec : EqDecision EndpointTy.
Proof. solve_decision. Defined.

Record SuperSpeedCmp := mk_ssc { ssc_max_burst : Z; ssc_attributes : Z; ssc_bytes_per_interval : Z }.
Record EndpDesc := mk_endp_desc {
  ed_address : Z;
  ed_attributes : Z;
  ed_max_packet_size : Z;
  ed_interval : Z;
  ed_ssc : option SuperSpeedCmp;
  ed_sspc : option Z; (* bytes per interval *)
}.

Definition endp_ty (d : EndpDesc) : EndpointTy :=
  match Z.land (ed_attributes d) 3 with 0 => Ctrl | 1 => Isoch | 2 => Bulk | _ => Interrupt end.
Definition is_control (d : EndpDesc) : bool := bool_decide (endp_ty d = Ctrl).
Definition is_interrupt (d : EndpDesc) : bool := bool_decide (endp_ty d = Interrupt).
Definition is_bulk (d : EndpDesc) : bool := bool_decide (endp_ty d = Bulk).
Definition is_isoch (d : EndpDesc) : bool := bool_decide (endp_ty d = Isoch).

Definition endp_direction (d : EndpDesc) : EndpDirection :=
  if is_control d then Bidirectional
  else if bool_decide (Z.land (ed_address d) 0x80 ≠ 0) then DirIn else DirOut.

Definition xhci_ep_type (d : EndpDesc) : option Z :=
  match endp_direction d with
  | DirOut => if is_isoch d then Some 1 else if is_bulk d then Some 2 else if is_interrupt d then Some 3 else None
  | Bidirectional => if is_control d then Some 4 else None
  | DirIn => if is_isoch d then Some 5 else if is_bulk d then Some 6 else if is_interrupt d then Some 7 else None
  end.

Definition log_max_streams (d : EndpDesc) : option Z :=
  ssc ← ed_ssc d;
  if is_bulk d then
    let raw := Z.land (ssc_attributes ssc) 0x1F in
    if bool_decide (raw = 0) then None else Some raw
  else None.

Definition is_superspeedplus (d : EndpDesc) : bool := bool_decide (is_Some (ed_sspc d)).
Definition isoch_mult (d : EndpDesc) (lec : bool) : Z :=
  if negb lec && is_isoch d then
    if is_superspeedplus d then 0
    else match ed_ssc d with Some ssc => Z.land (ssc_attributes ssc) 3 | None => 0 end
  else 0.
Definition max_burst (d : EndpDesc) : Z :=
  match ed_ssc d with Some ssc => ssc_max_burst ssc | None => 0 end.

Record IfDesc := mk_if_desc { if_number : Z; if_alternate : Z; if_endpoints : list EndpDesc }.
Record ConfDesc := mk_conf_desc { configuration_value : Z; interface_descs : list IfDesc }.
Record DevDesc := mk_dev_desc { config_descs : list ConfDesc }.

(** ** The files of an endpoint *)

Inductive XhciEndpCtlDirection := CtlOut | CtlIn | CtlNoData.
#[global] Instance ctl_direction_eq_dec : EqDecision XhciEndpCtlDirection.
Proof. solve_decision. Defined.

Inductive XhciEndpCtlReq :=
  | ReqTransfer (direction : XhciEndpCtlDirection) (count : Z)
  | ReqReset (no_clear_feature : bool)
  | ReqStatus.

Inductive EndpointStatus := StDisabled | StEnabled | StHalted | StStopped | StError.
#[global] Instance endpoint_status_eq_dec : EqDecision EndpointStatus.
Proof. solve_decision. Defined.

Inductive PortTransferStatusKind := KSuccess | KShortPacket | KStalled | KUnknown.
#[global] Instance status_kind_eq_dec : EqDecision PortTransferStatusKind.
Proof. solve_decision. Defined.

Record PortTransferStatus := mk_transfer_status { ts_kind : PortTransferStatusKind; ts_bytes : Z }.

Inductive XhciEndpCtlRes :=
  | ResStatus (s : EndpointStatus)
  | ResTransferResult (s : PortTransferStatus)
  | ResPending
  | ResIdle.

(** [EndpIfState] of [xhci/scheme.rs] *)
Inductive EndpIfState :=
  | IfInit
  | WaitingForDataPipe (direction : XhciEndpCtlDirection) (bytes_transferred bytes_to_transfer : Z)
  | WaitingForStatus
  | WaitingForTransferResult (status : PortTransferStatus).

(** ** Names of ports *)

(** The route through the given ports *)
Fixpoint route_of (l : list Z) : Z :=
  match l with [] => 0 | v :: l => v + 16 * route_of l end.
Definition nibble (v : Z) : bool := (1 <=? v) && (v <=? 15).

Lemma lor_shiftl a b n : 0 ≤ n → 0 ≤ a < 2 ^ n → Z.lor a (Z.shiftl b n) = a + b * 2 ^ n.
Proof.
  intros Hn Ha. assert (Z.land a (Z.shiftl b n) = 0) as Hl.
  { apply Z.bits_inj_0. intros i. rewrite Z.land_spec. destruct (Z.lt_ge_cases i n).
    - rewrite Z.shiftl_spec_low by done. apply andb_false_r.
    - destruct (decide (a = 0)) as [->|]; [by rewrite Z.bits_0|].
      rewrite (Z.bits_above_log2 a i); [done|lia|].
      apply Z.lt_le_trans with n; [|done]. apply Z.log2_lt_pow2; lia. }
  rewrite <- (Z.lxor_lor _ _ Hl), <- (Z.add_nocarry_lxor _ _ Hl), Z.shiftl_mul_pow2 by done. done.
Qed.

Lemma nibble_spec v : nibble v = true ↔ 1 ≤ v ≤ 15.
Proof. unfold nibble. rewrite andb_true_iff, !Z.leb_le. done. Qed.

Lemma nibble_high v : nibble v = true → Z.land v 0xF0 = 0.
Proof.
  rewrite nibble_spec. intros Hv.
  assert (forallb (λ v, Z.land v 0xF0 =? 0) (Z.of_nat <$> seq 0 16) = true) as Hall by reflexivity.
  rewrite forallb_forall in Hall. apply Z.eqb_eq, Hall, list_elem_of_In, list_elem_of_fmap.
  exists (Z.to_nat v). split; [lia|]. apply elem_of_seq. lia.
Qed.

Lemma route_bound l : forallb nibble l = true → 0 ≤ route_of l < 16 ^ Z.of_nat (length l).
Proof.
  induction l as [|v l IH]; cbn [forallb route_of length]; [done|].
  rewrite andb_true_iff, nibble_spec. intros [Hv Hl]. specialize (IH Hl).
  rewrite Nat2Z.inj_succ, Z.pow_succ_r by lia. lia.
Qed.

Lemma route_positive v l : forallb nibble (v :: l) = true → 1 ≤ route_of (v :: l).
Proof.
  cbn [forallb route_of]. rewrite andb_true_iff, nibble_spec. intros [Hv Hl%route_bound]. lia.
Qed.

Lemma route_head v l : forallb nibble (v :: l) = true →
  Z.land (route_of (v :: l)) 0xF = v ∧ Z.shiftr (route_of (v :: l)) 4 = route_of l.
Proof.
  cbn [forallb route_of]. rewrite andb_true_iff, nibble_spec. intros [Hv Hl].
  change 0xF with (Z.ones 4). rewrite Z.land_ones, Z.shiftr_div_pow2 by lia. change (2 ^ 4) with 16.
  rewrite (Z.mul_comm 16). split.
  - rewrite Z_mod_plus_full. apply Z.mod_small. lia.
  - rewrite Z.div_add, Z.div_small by lia. lia.
Qed.

Lemma depth_of_route turns l : forallb nibble l = true → (length l ≤ turns)%nat → depth_loop turns (route_of l) = length l.
Proof.
  revert turns. induction l as [|v l IH]; intros [|turns] Hl Ht; cbn [length] in *; try lia; try done.
  cbn [depth_loop]. rewrite bool_decide_eq_false_2 by (pose proof (route_positive v l Hl); lia).
  destruct (route_head v l Hl) as [_ ->]. f_equal. apply IH; [|lia].
  cbn [forallb] in Hl. by apply andb_true_iff in Hl as [_ ?].
Qed.

(** A port behind [l] hubs *)
Definition port_at (root : Z) (l : list Z) : PortId := mk_port_id root (route_of l).

Lemma route_snoc l v : route_of (l ++ [v]) = route_of l + v * 16 ^ Z.of_nat (length l).
Proof.
  induction l as [|w l IH]; cbn [route_of app length]; [lia|]. rewrite IH, Nat2Z.inj_succ, Z.pow_succ_r by lia. lia.
Qed.

Lemma pow16 n : 16 ^ Z.of_nat n = 2 ^ Z.of_nat (n * 4).
Proof. rewrite Nat2Z.inj_mul, Z.mul_comm, Z.pow_mul_r by lia. done. Qed.

Lemma child_run root l v :
  forallb nibble l = true → (length l < 5)%nat → nibble v = true →
  child (port_at root l) v = Some (port_at root (l ++ [v])).
Proof.
  intros Hl Hlen Hv. unfold child, hub_depth, port_at. cbn [route_string root_hub_port_num].
  rewrite depth_of_route by (done || lia). rewrite bool_decide_eq_false_2 by lia.
  pose proof (proj1 (nibble_spec v) Hv) as Hr. pose proof (route_bound l Hl) as Hb.
  rewrite bool_decide_eq_false_2.
  2: { intros Hn. by apply Hn, nibble_high. }
  assert (wrap_u32 (Z.shiftl v (Z.of_nat (length l * 4))) = Z.shiftl v (Z.of_nat (length l * 4))) as ->.
  { unfold wrap_u32. apply Z.mod_small. rewrite Z.shiftl_mul_pow2, <- pow16 by lia.
    assert (16 ^ Z.of_nat (length l) ≤ 16 ^ 4) by (apply Z.pow_le_mono_r; lia).
    change (16 ^ 4) with 65536 in *. split; [|nia]. apply Z.mul_nonneg_nonneg; lia. }
  rewrite lor_shiftl, <- pow16, route_snoc; [done|lia|]. by rewrite <- pow16.
Qed.

Lemma clear_nibble a v k :
  0 ≤ k → 0 ≤ a < 2 ^ k → 0 ≤ v ≤ 15 → Z.ldiff (Z.lor a (Z.shiftl v k)) (Z.shiftl 0xF k) = a.
Proof.
  intros Hk Ha Hv. apply Z.bits_inj'. intros i Hi. rewrite Z.ldiff_spec, Z.lor_spec.
  destruct (Z.lt_ge_cases i k).
  - rewrite !Z.shiftl_spec_low by done. by rewrite orb_false_r, andb_true_r.
  - rewrite !Z.shiftl_spec by done.
    assert (Z.testbit a i = false) as ->.
    { destruct (decide (a = 0)) as [->|]; [apply Z.bits_0|]. apply Z.bits_above_log2; [lia|].
      apply Z.lt_le_trans with k; [|done]. apply Z.log2_lt_pow2; lia. }
    assert (v = Z.land v (Z.ones 4)) as ->.
    { rewrite Z.land_ones by lia. symmetry. apply Z.mod_small. change (2 ^ 4) with 16. lia. }
    rewrite Z.land_spec. change (Z.ones 4) with 0xF. cbn [orb]. by destruct (Z.testbit v _), (Z.testbit 0xF _).
Qed.

Lemma not_mask n r :
  (n ≤ 4)%nat → 0 ≤ r ≤ u32_max →
  Z.land r (u32_max - Z.shiftl 0xF (Z.of_nat (n * 4))) = Z.ldiff r (Z.shiftl 0xF (Z.of_nat (n * 4))).
Proof.
  intros Hn Hr. change u32_max with (Z.ones 32) in *.
  assert (Z.ldiff (Z.shiftl 0xF (Z.of_nat (n * 4))) (Z.ones 32) = 0) as Hd
    by (do 5 (destruct n as [|n]; [reflexivity|]); lia).
  rewrite (Z.sub_nocarry_ldiff _ _ Hd). apply Z.bits_inj'. intros i Hi.
  rewrite Z.land_spec, !Z.ldiff_spec, andb_assoc. f_equal. rewrite <- Z.land_spec, Z.land_ones by lia.
  f_equal. apply Z.mod_small. change (Z.ones 32) with (2 ^ 32 - 1) in Hr. lia.
Qed.

Lemma parent_run root l v :
  forallb nibble l = true → (length l < 5)%nat → nibble v = true →
  parent (port_at root (l ++ [v])) = Some (port_at root l, v).
Proof.
  intros Hl Hlen Hv. pose proof (route_bound l Hl) as Hb. pose proof (proj1 (nibble_spec v) Hv) as Hr.
  assert (forallb nibble (l ++ [v]) = true) as Hlv by by rewrite forallb_app, Hl; cbn; rewrite Hv.
  pose proof (route_bound (l ++ [v]) Hlv) as Hbv. rewrite length_app in Hbv. cbn [length] in Hbv.
  unfold parent, hub_depth, port_at. cbn [route_string root_hub_port_num].
  rewrite depth_of_route by (done || (rewrite length_app; cbn; lia)).
  rewrite length_app, Nat.add_1_r.
  assert (16 ^ Z.of_nat (length l + 1) ≤ 16 ^ 5) by (apply Z.pow_le_mono_r; lia). change (16 ^ 5) with 1048576 in *.
  rewrite not_mask by (unfold u32_max; lia).
  assert (route_of (l ++ [v]) = Z.lor (route_of l) (Z.shiftl v (Z.of_nat (length l * 4)))) as ->.
  { rewrite lor_shiftl, <- pow16, route_snoc; [done|lia|]. by rewrite <- pow16. }
  rewrite pow16 in Hb. rewrite clear_nibble by lia. do 3 f_equal.
  rewrite Z.shiftr_land, Z.shiftr_lor, !Z.shiftr_shiftl_l, !Z.sub_diag, !Z.shiftl_0_r by lia.
  rewrite (Z.shiftr_div_pow2 (route_of l)), Z.div_small, Z.lor_0_l by lia.
  change 0xF with (Z.ones 4). rewrite Z.land_ones by lia. apply Z.mod_small. change (2 ^ 4) with 16. lia.
Qed.

(** Numbers below 256 are printed without a point and parsed back. *)
Definition number_ok (v : Z) : bool :=
  bool_decide (parse_uint 255 (String.list_ascii_of_string (pretty v)) = Some v) &&
  forallb (λ a, negb (Ascii.eqb a "."%char)) (String.list_ascii_of_string (pretty v)).

Lemma numbers_ok v : 0 ≤ v ≤ 255 → number_ok v = true.
Proof.
  intros Hv. assert (forallb number_ok (Z.of_nat <$> seq 0 256) = true) as Hall by (vm_compute; reflexivity).
  rewrite forallb_forall in Hall. apply Hall. apply list_elem_of_In, list_elem_of_fmap.
  exists (Z.to_nat v). split; [lia|]. apply elem_of_seq. lia.
Qed.

Lemma split_plain s rest :
  forallb (λ a, negb (Ascii.eqb a "."%char)) (String.list_ascii_of_string s) = true →
  split "."%char (s +:+ String "."%char rest) = s :: split "."%char rest ∧ split "."%char s = [s].
Proof.
  induction s as [|a s IH]; intros Hs; [done|]. cbn in Hs. apply andb_true_iff in Hs as [Ha Hs].
  destruct (IH Hs) as [IH1 IH2]. apply negb_true_iff in Ha.
  change (String a s +:+ String "."%char rest) with (String a (s +:+ String "."%char rest)).
  cbn [split]. by rewrite Ha, IH1, IH2.
Qed.

Fixpoint dotted (l : list Z) : string :=
  match l with [] => EmptyString | v :: l => "." +:+ pretty v +:+ dotted l end.

Lemma show_route_run turns l :
  forallb nibble l = true → (length l ≤ turns)%nat → show_route turns (route_of l) = dotted l.
Proof.
  revert turns. induction l as [|v l IH]; intros [|turns] Hl Ht; cbn [length] in *; try lia; try done.
  cbn [show_route dotted]. rewrite bool_decide_eq_false_2 by (pose proof (route_positive v l Hl); lia).
  destruct (route_head v l Hl) as [-> ->]. rewrite IH; [done| |lia].
  cbn [forallb] in Hl. by apply andb_true_iff in Hl as [_ ?].
Qed.

Lemma append_empty s : s +:+ EmptyString = s.
Proof.
  induction s as [|a s IH]; [done|].
  change (String a s +:+ EmptyString) with (String a (s +:+ EmptyString)). by rewrite IH.
Qed.

Lemma split_dotted x l :
  0 ≤ x ≤ 255 → forallb nibble l = true → split "."%char (pretty x +:+ dotted l) = pretty x :: (pretty <$> l).
Proof.
  revert x. induction l as [|v l IH]; intros x Hx Hl;
    pose proof (numbers_ok x Hx) as Hn; unfold number_ok in Hn; apply andb_true_iff in Hn as [_ Hn].
  - cbn [dotted fmap list_fmap]. rewrite append_empty. by apply (split_plain (pretty x) EmptyString).
  - cbn [forallb] in Hl. apply andb_true_iff in Hl as [Hv Hl]. apply nibble_spec in Hv. cbn [dotted].
    destruct (split_plain (pretty x) (pretty v +:+ dotted l) Hn) as [E _].
    change ("." +:+ pretty v +:+ dotted l) with (String "."%char (pretty v +:+ dotted l)).
    rewrite E, IH by (done || lia). done.
Qed.

Lemma parse_route_run d l acc :
  forallb nibble l = true → (d + length l ≤ 5)%nat → 0 ≤ acc < 16 ^ Z.of_nat d →
  parse_route d (pretty <$> l) acc = Some (acc + 16 ^ Z.of_nat d * route_of l).
Proof.
  revert d acc. induction l as [|v l IH]; intros d acc Hl Hd Ha; cbn [fmap list_fmap parse_route].
  - cbn. f_equal. lia.
  - cbn [forallb length] in *. apply andb_true_iff in Hl as [Hv Hl]. apply nibble_spec in Hv as Hr.
    pose proof (numbers_ok v) as Hn. unfold number_ok in Hn. rewrite andb_true_iff, bool_decide_eq_true in Hn.
    destruct Hn as [-> _]; [lia|]. cbn [mbind option_bind].
    rewrite (nibble_high v Hv), !bool_decide_eq_false_2 by (lia || naive_solver).
    rewrite lor_shiftl, <- pow16 by (lia || by rewrite <- pow16). rewrite IH; [|done|lia|].
    + cbn [route_of]. rewrite Nat2Z.inj_succ, Z.pow_succ_r by lia. f_equal. lia.
    + rewrite Nat2Z.inj_succ, Z.pow_succ_r by lia. nia.
Qed.

(** The name of a port says exactly where it is: a port of the root hub and up to five
    ports of further hubs are printed to a text from which the same port is parsed; and
    going to a port of the hub there and back to its parent gives the hub and the number of
    the port. *)
Theorem port_names root l :
  1 ≤ root ≤ 255 → forallb nibble l = true → (length l ≤ 5)%nat →
  parse_port (show_port (port_at root l)) = Some (port_at root l) ∧
  ∀ v, nibble v = true → (length l < 5)%nat →
    ∃ c, child (port_at root l) v = Some c ∧ parent c = Some (port_at root l, v) ∧
      parse_port (show_port c) = Some c.
Proof.
  intros Hr Hl Hlen.
  assert (∀ l, forallb nibble l = true → (length l ≤ 5)%nat →
    parse_port (show_port (port_at root l)) = Some (port_at root l)) as Hrt.
  { clear l Hl Hlen. intros l Hl Hlen. unfold show_port, parse_port, port_at. cbn [root_hub_port_num route_string].
    rewrite show_route_run, split_dotted by (done || lia).
    pose proof (numbers_ok root) as Hn. unfold number_ok in Hn. rewrite andb_true_iff, bool_decide_eq_true in Hn.
    destruct Hn as [-> _]; [lia|]. cbn [mbind option_bind]. rewrite bool_decide_eq_false_2 by lia.
    rewrite parse_route_run by (done || lia). cbn. do 2 f_equal. lia. }
  split; [by apply Hrt|]. intros v Hv Hlt. exists (port_at root (l ++ [v])).
  split; [by apply child_run|]. split; [by apply parent_run|].
  apply Hrt; [by rewrite forallb_app, Hl; cbn; rewrite Hv|]. rewrite length_app. cbn. lia.
Qed.

Lemma port_names_witness : parse_port (show_port (port_at 3 [2; 15])) = Some (mk_port_id 3 0xF2).
Proof. exact (proj1 (port_names 3 [2; 15] ltac:(lia) eq_refl ltac:(cbn; lia))). Defined.
