(* ===== verification/XhciTrb.v ===== *)
(** * The transfer request blocks of an xHCI controller

    [drivers/usb/xhcid/src/xhci/trb.rs]: the four words that the driver and the controller
    exchange over the rings.  Each method that fills a block is a computation on the block;
    an [assert] that fails is a panic.  [decode] reads a block back field by field, at the
    places that the interface standard gives the fields, and the round trip shows that no
    field spills into another.  Also the set-up packets of [usb/setup.rs]. *)

From S2P Require Import Prelude.

(** ** Fields of a word *)

(** The [n] bits of [x] from bit [k] on *)
Definition bits (x k n : Z) : Z := Z.land (Z.shiftr x k) (Z.ones n).

Lemma bits_lor a b k n : bits (Z.lor a b) k n = Z.lor (bits a k n) (bits b k n).
Proof. unfold bits. by rewrite Z.shiftr_lor, Z.land_lor_distr_l. Qed.

(** ** Types and completion codes *)

Inductive TrbType :=
  | TReserved | TNormal | TSetupStage | TDataStage | TStatusStage | TIsoch | TLink
  | TEventData | TNoOp | TEnableSlot | TDisableSlot | TAddressDevice | TConfigureEndpoint
  | TEvaluateContext | TResetEndpoint | TStopEndpoint | TSetTrDequeuePointer | TResetDevice
  | TForceEvent | TNegotiateBandwidth | TSetLatencyToleranceValue | TGetPortBandwidth
  | TForceHeader | TNoOpCmd | TGetExtendedProperty | TSetExtendedProperty | TRsv26 | TRsv27
  | TRsv28 | TRsv29 | TRsv30 | TRsv31 | TTransfer | TCommandCompletion | TPortStatusChange
  | TBandwidthRequest | TDoorbell | THostController | TDeviceNotification | TMfindexWrap.

Inductive TrbCompletionCode :=
  | CInvalid | CSuccess | CDataBuffer | CBabbleDetected | CUsbTransaction | CTrb | CStall
  | CResource | CBandwidth | CNoSlotsAvailable | CInvalidStreamType | CSlotNotEnabled
  | CEndpointNotEnabled | CShortPacket | CRingUnderrun | CRingOverrun | CVfEventRingFull
  | CParameter | CBandwidthOverrun | CContextState | CNoPingResponse | CEventRingFull
  | CIncompatibleDevice | CMissedService | CCommandRingStopped | CCommandAborted | CStopped
  | CStoppedLengthInvalid | CStoppedShortPacket | CMaxExitLatencyTooLarge | CRsv30
  | CIsochBuffer | CEventLost | CUndefined | CInvalidStreamId | CSecondaryBandwidth
  | CSplitTransaction.

(** [as u8] *)
Definition type_u8 (t : TrbType) : Z :=
  match t with
  | TReserved => 0 | TNormal => 1 | TSetupStage => 2 | TDataStage => 3 | TStatusStage => 4
  | TIsoch => 5 | TLink => 6 | TEventData => 7 | TNoOp => 8 | TEnableSlot => 9
  | TDisableSlot => 10 | TAddressDevice => 11 | TConfigureEndpoint => 12
  | TEvaluateContext => 13 | TResetEndpoint => 14 | TStopEndpoint => 15
  | TSetTrDequeuePointer => 16 | TResetDevice => 17 | TForceEvent => 18
  | TNegotiateBandwidth => 19 | TSetLatencyToleranceValue => 20 | TGetPortBandwidth => 21
  | TForceHeader => 22 | TNoOpCmd => 23 | TGetExtendedProperty => 24
  | TSetExtendedProperty => 25 | TRsv26 => 26 | TRsv27 => 27 | TRsv28 => 28 | TRsv29 => 29
  | TRsv30 => 30 | TRsv31 => 31 | TTransfer => 32 | TCommandCompletion => 33
  | TPortStatusChange => 34 | TBandwidthRequest => 35 | TDoorbell => 36
  | THostController => 37 | TDeviceNotification => 38 | TMfindexWrap => 39
  end.

Definition code_u8 (c : TrbCompletionCode) : Z :=
  match c with
  | CInvalid => 0 | CSuccess => 1 | CDataBuffer => 2 | CBabbleDetected => 3
  | CUsbTransaction => 4 | CTrb => 5 | CStall => 6 | CResource => 7 | CBandwidth => 8
  | CNoSlotsAvailable => 9 | CInvalidStreamType => 10 | CSlotNotEnabled => 11
  | CEndpointNotEnabled => 12 | CShortPacket => 13 | CRingUnderrun => 14 | CRingOverrun => 15
  | CVfEventRingFull => 16 | CParameter => 17 | CBandwidthOverrun => 18 | CContextState => 19
  | CNoPingResponse => 20 | CEventRingFull => 21 | CIncompatibleDevice => 22
  | CMissedService => 23 | CCommandRingStopped => 24 | CCommandAborted => 25 | CStopped => 26
  | CStoppedLengthInvalid => 27 | CStoppedShortPacket => 28 | CMaxExitLatencyTooLarge => 29
  | CRsv30 => 30 | CIsochBuffer => 31 | CEventLost => 32 | CUndefined => 33
  | CInvalidStreamId => 34 | CSecondaryBandwidth => 35 | CSplitTransaction => 36
  end.

(** [TransferKind] and [StreamContextType] *)
Inductive TransferKind := KNoData | KReserved | KOut | KIn.
Definition kind_u32 (k : TransferKind) : Z :=
  match k with KNoData => 0 | KReserved => 1 | KOut => 2 | KIn => 3 end.

Inductive StreamContextType :=
  | SecondaryRing | PrimaryRing | PrimarySsa8 | PrimarySsa16 | PrimarySsa32 | PrimarySsa64
  | PrimarySsa128 | PrimarySsa256.
Definition sct_u64 (t : StreamContextType) : Z :=
  match t with
  | SecondaryRing => 0 | PrimaryRing => 1 | PrimarySsa8 => 2 | PrimarySsa16 => 3
  | PrimarySsa32 => 4 | PrimarySsa64 => 5 | PrimarySsa128 => 6 | PrimarySsa256 => 7
  end.

#[global] Instance transfer_kind_eq_dec : EqDecision TransferKind.
Proof. solve_decision. Defined.

(** ** Set-up packets *)

Record Setup := mk_setup { s_kind : Z; s_request : Z; s_value : Z; s_index : Z; s_length : Z }.

(** The packed structure as one little-endian word *)
Definition setup_u64 (s : Setup) : Z :=
  Z.lor (s_kind s) (Z.lor (Z.shiftl (s_request s) 8) (Z.lor (Z.shiftl (s_value s) 16)
    (Z.lor (Z.shiftl (s_index s) 32) (Z.shiftl (s_length s) 48)))).

(** [Setup::req_ty], [Setup::req_recipient], [Setup::is_allowed_from_api] *)
Definition req_ty (s : Setup) : Z := Z.shiftr (Z.land (s_kind s) 0x60) 5.
Definition req_recipient (s : Setup) : Z := Z.shiftr (Z.land (s_kind s) 0x1F) 0.
Definition device_to_host (s : Setup) : bool := negb (Z.land (s_kind s) 0x80 =? 0).
Definition is_allowed_from_api (s : Setup) : bool := (req_ty s =? 1) || (req_ty s =? 2).

Definition setup_get_status := mk_setup 0x80 0x00 0 0 2.
Definition setup_clear_feature (feature : Z) := mk_setup 0 0x01 feature 0 0.
Definition setup_set_feature (feature : Z) := mk_setup 0 0x03 feature 0 0.
Definition setup_set_address (address : Z) := mk_setup 0 0x05 address 0 0.
Definition setup_get_descriptor (kind index language length : Z) :=
  mk_setup 0x80 0x06 (Z.lor (Z.shiftl kind 8) index) language length.
Definition setup_set_descriptor (kind index language length : Z) :=
  mk_setup 0 0x07 (Z.lor (Z.shiftl kind 8) index) language length.
Definition setup_get_configuration := mk_setup 0x80 0x08 0 0 1.
Definition setup_set_configuration (value : Z) := mk_setup 0 0x09 value 0 0.
Definition setup_set_interface (interface alternate_setting : Z) :=
  mk_setup 1 0x0B alternate_setting interface 0.

(** ** A block *)

Record Trb := mk_trb { data_low : Z; data_high : Z; status : Z; control : Z }.

#[global] Instance trb_eq_dec : EqDecision Trb.
Proof. solve_decision. Defined.

Definition zero_trb : Trb := mk_trb 0 0 0 0.

(** [x << k] on 32 bits, and a flag as a number *)
Definition shl32 (x k : Z) : Z := wrap_u32 (Z.shiftl x k).
Definition u32_of (b : bool) : Z := Z.b2z b.
Definition lors (l : list Z) : Z := foldr Z.lor 0 l.

(** *** What the driver reads *)

Definition read_data (t : Trb) : Z := Z.lor (data_low t) (Z.shiftl (data_high t) 32).
Definition completion_code (t : Trb) : Z := Z.shiftr (status t) 24 `mod` 256.
Definition completion_param (t : Trb) : Z := Z.land (status t) 0x00FFFFFF.
Definition is_code (c : TrbCompletionCode) (t : Trb) : bool := completion_code t =? code_u8 c.

Definition has_completion_trb_pointer (t : Trb) : bool :=
  if is_code CRingUnderrun t || is_code CRingOverrun t then false
  else negb (is_code CVfEventRingFull t).

Definition completion_trb_pointer (t : Trb) : option Z :=
  if has_completion_trb_pointer t then Some (read_data t) else None.
Definition transfer_event_trb_pointer (t : Trb) : option Z :=
  if has_completion_trb_pointer t then Some (read_data t) else None.
Definition port_status_change_port_id (t : Trb) : option Z :=
  if has_completion_trb_pointer t then Some (Z.land (Z.shiftr (read_data t) 24) 0xFF) else None.

Definition event_slot (t : Trb) : Z := Z.shiftr (control t) 24 `mod` 256.
Definition transfer_length (t : Trb) : Z := Z.land (status t) 0x00FFFFFF.
Definition event_data_bit (t : Trb) : bool := has_flag (control t) 4.
Definition event_data (t : Trb) : option Z := if event_data_bit t then Some (read_data t) else None.
Definition endpoint_id (t : Trb) : Z := Z.shiftr (Z.land (control t) 0x001F0000) 16.
Definition trb_type (t : Trb) : Z := Z.shiftr (Z.land (control t) 0x0000FC00) 10.
Definition cycle (t : Trb) : bool := has_flag (control t) 1.
Definition is_type (ty : TrbType) (t : Trb) : bool := trb_type t =? type_u8 ty.

Definition is_command_trb (t : Trb) : bool :=
  existsb (λ ty, is_type ty t)
    [TNoOpCmd; TEnableSlot; TDisableSlot; TAddressDevice; TConfigureEndpoint; TEvaluateContext;
     TResetEndpoint; TStopEndpoint; TSetTrDequeuePointer; TResetDevice; TForceEvent;
     TNegotiateBandwidth; TSetLatencyToleranceValue; TGetPortBandwidth; TForceHeader;
     TGetExtendedProperty; TSetExtendedProperty].
Definition is_transfer_trb (t : Trb) : bool :=
  existsb (λ ty, is_type ty t) [TNormal; TSetupStage; TDataStage; TStatusStage; TIsoch; TNoOp].

(** *** What the driver writes *)

Definition set (data st ctl : Z) : comp Trb unit :=
  put (mk_trb (wrap_u32 data) (wrap_u32 (Z.shiftr data 32)) st ctl).

Definition ty32 (t : TrbType) : Z := Z.shiftl (type_u8 t) 10.
Definition require (b : bool) : comp Trb unit := if b then mret tt else panic.
Definition aligned16 (p : Z) : bool := Z.land p 0xFFFFFFFFFFFFFFF0 =? p.
Definition fits5 (x : Z) : bool := Z.land x 0x1F =? x.

Definition reserved (c : bool) : comp Trb unit := set 0 0 (lors [ty32 TReserved; u32_of c]).

Definition link (address : Z) (toggle c : bool) : comp Trb unit :=
  set address 0 (lors [ty32 TLink; shl32 (u32_of toggle) 1; u32_of c]).

Definition no_op_cmd (c : bool) : comp Trb unit := set 0 0 (lors [ty32 TNoOpCmd; u32_of c]).

Definition enable_slot (slot_type : Z) (c : bool) : comp Trb unit :=
  set 0 0 (lors [shl32 (Z.land slot_type 0x1F) 16; ty32 TEnableSlot; u32_of c]).

Definition disable_slot (slot : Z) (c : bool) : comp Trb unit :=
  set 0 0 (lors [shl32 slot 24; ty32 TDisableSlot; u32_of c]).

Definition address_device (slot_id input_ctx_ptr : Z) (bsr c : bool) : comp Trb unit :=
  require (aligned16 input_ctx_ptr);;
  set input_ctx_ptr 0 (lors [shl32 slot_id 24; ty32 TAddressDevice; shl32 (u32_of bsr) 9; u32_of c]).

Definition configure_endpoint (slot_id input_ctx_ptr : Z) (c : bool) : comp Trb unit :=
  require (aligned16 input_ctx_ptr);;
  set input_ctx_ptr 0 (lors [shl32 slot_id 24; ty32 TConfigureEndpoint; u32_of c]).

Definition evaluate_context (slot_id input_ctx_ptr : Z) (bsr c : bool) : comp Trb unit :=
  require (aligned16 input_ctx_ptr);;
  set input_ctx_ptr 0 (lors [shl32 slot_id 24; ty32 TEvaluateContext; shl32 (u32_of bsr) 9; u32_of c]).

Definition reset_endpoint (slot_id endp_num_xhc : Z) (tsp c : bool) : comp Trb unit :=
  require (fits5 endp_num_xhc);;
  set 0 0 (lors [shl32 slot_id 24; shl32 endp_num_xhc 16; ty32 TResetEndpoint; shl32 (u32_of tsp) 9;
                 u32_of c]).

Definition set_tr_deque_ptr (deque_ptr : Z) (c : bool) (sct : StreamContextType)
    (stream_id endp_num_xhc slot : Z) : comp Trb unit :=
  require (Z.land deque_ptr 0xFFFFFFFFFFFFFFF1 =? deque_ptr);;
  require (fits5 endp_num_xhc);;
  set (Z.lor deque_ptr (Z.shiftl (sct_u64 sct) 1)) (shl32 stream_id 16)
    (lors [shl32 slot 24; shl32 endp_num_xhc 16; ty32 TSetTrDequeuePointer; u32_of c]).

Definition stop_endpoint (slot_id endp_num_xhc : Z) (suspend c : bool) : comp Trb unit :=
  require (fits5 endp_num_xhc);;
  set 0 0 (lors [shl32 slot_id 24; shl32 (u32_of suspend) 23; shl32 endp_num_xhc 16;
                 ty32 TStopEndpoint; u32_of c]).

Definition reset_device (slot_id : Z) (c : bool) : comp Trb unit :=
  set 0 0 (lors [shl32 slot_id 24; ty32 TResetDevice; u32_of c]).

Definition transfer_no_op (interrupter : Z) (ent ch ioc c : bool) : comp Trb unit :=
  set 0 (shl32 interrupter 22)
    (lors [ty32 TNoOp; shl32 (u32_of ioc) 5; shl32 (u32_of ch) 4; shl32 (u32_of ent) 1; u32_of c]).

Definition setup (s : Setup) (transfer : TransferKind) (c : bool) : comp Trb unit :=
  set (setup_u64 s) 8 (lors [shl32 (kind_u32 transfer) 16; ty32 TSetupStage; Z.shiftl 1 6; u32_of c]).

Definition data (buffer length : Z) (input c : bool) : comp Trb unit :=
  set buffer length (lors [shl32 (u32_of input) 16; ty32 TDataStage; u32_of c]).

Definition status_stage (interrupter : Z) (input ioc ch ent c : bool) : comp Trb unit :=
  set 0 (shl32 interrupter 22)
    (lors [shl32 (u32_of input) 16; ty32 TStatusStage; shl32 (u32_of ioc) 5; shl32 (u32_of ch) 4;
           shl32 (u32_of ent) 1; u32_of c]).

Definition normal (buffer len : Z) (c : bool) (estimated_td_size interrupter : Z)
    (ent isp chain ioc idt bei : bool) : comp Trb unit :=
  require (fits5 estimated_td_size);;
  set buffer (lors [len; shl32 estimated_td_size 17; shl32 interrupter 22])
    (lors [u32_of c; shl32 (u32_of ent) 1; shl32 (u32_of isp) 2; shl32 (u32_of chain) 4;
           shl32 (u32_of ioc) 5; shl32 (u32_of idt) 6; shl32 (u32_of bei) 9; ty32 TNormal]).

(** ** Blocks with their fields *)

(** The blocks that the driver makes *)
Inductive Block :=
  | BReserved | BLink (address : Z) (toggle : bool) | BNoOpCmd | BEnableSlot (slot_type : Z)
  | BDisableSlot (slot : Z) | BAddressDevice (slot ptr : Z) (bsr : bool)
  | BConfigureEndpoint (slot ptr : Z) | BEvaluateContext (slot ptr : Z) (bsr : bool)
  | BResetEndpoint (slot endp : Z) (tsp : bool)
  | BSetTrDequeue (ptr : Z) (dcs : bool) (sct : Z) (stream endp slot : Z)
  | BStopEndpoint (slot endp : Z) (suspend : bool) | BResetDevice (slot : Z)
  | BNoOp (interrupter : Z) (ent ch ioc : bool) | BSetup (s : Setup) (transfer : Z)
  | BData (buffer length : Z) (input : bool) | BStatus (interrupter : Z) (input ioc ch ent : bool)
  | BNormal (buffer len td_size interrupter : Z) (ent isp chain ioc idt bei : bool).

(** How the driver makes them *)
Definition sct_of (n : Z) : StreamContextType :=
  match n with
  | 1 => PrimaryRing | 2 => PrimarySsa8 | 3 => PrimarySsa16 | 4 => PrimarySsa32
  | 5 => PrimarySsa64 | 6 => PrimarySsa128 | 7 => PrimarySsa256 | _ => SecondaryRing
  end.
Definition kind_of (n : Z) : TransferKind :=
  match n with 1 => KReserved | 2 => KOut | 3 => KIn | _ => KNoData end.

Definition fill (b : Block) (c : bool) : comp Trb unit :=
  match b with
  | BReserved => reserved c
  | BLink address toggle => link address toggle c
  | BNoOpCmd => no_op_cmd c
  | BEnableSlot slot_type => enable_slot slot_type c
  | BDisableSlot slot => disable_slot slot c
  | BAddressDevice slot ptr bsr => address_device slot ptr bsr c
  | BConfigureEndpoint slot ptr => configure_endpoint slot ptr c
  | BEvaluateContext slot ptr bsr => evaluate_context slot ptr bsr c
  | BResetEndpoint slot endp tsp => reset_endpoint slot endp tsp c
  | BSetTrDequeue ptr dcs sct stream endp slot =>
     set_tr_deque_ptr (Z.lor (Z.shiftl ptr 4) (u32_of dcs)) c (sct_of sct) stream endp slot
  | BStopEndpoint slot endp suspend => stop_endpoint slot endp suspend c
  | BResetDevice slot => reset_device slot c
  | BNoOp interrupter ent ch ioc => transfer_no_op interrupter ent ch ioc c
  | BSetup s transfer => setup s (kind_of transfer) c
  | BData buffer length input => data buffer length input c
  | BStatus interrupter input ioc ch ent => status_stage interrupter input ioc ch ent c
  | BNormal buffer len td interrupter ent isp chain ioc idt bei =>
     normal buffer len c td interrupter ent isp chain ioc idt bei
  end.

(** The widths of the fields *)
Definition below (n x : Z) : bool := (0 <=? x) && (x <? 2 ^ n).
Definition setup_ok (s : Setup) : bool :=
  below 8 (s_kind s) && below 8 (s_request s) && below 16 (s_value s) && below 16 (s_index s)
  && below 16 (s_length s).

Definition block_ok (b : Block) : bool :=
  match b with
  | BReserved | BNoOpCmd => true
  | BLink address _ => below 64 address
  | BEnableSlot slot_type => below 5 slot_type
  | BDisableSlot slot | BResetDevice slot => below 8 slot
  | BAddressDevice slot ptr _ | BConfigureEndpoint slot ptr | BEvaluateContext slot ptr _ =>
     below 8 slot && below 64 ptr && aligned16 ptr
  | BResetEndpoint slot endp _ | BStopEndpoint slot endp _ => below 8 slot && below 5 endp
  | BSetTrDequeue ptr _ sct stream endp slot =>
     below 60 ptr && below 3 sct && below 16 stream && below 5 endp && below 8 slot
  | BNoOp interrupter _ _ _ => below 8 interrupter
  | BSetup s transfer => setup_ok s && below 2 transfer
  | BData buffer length _ => below 64 buffer && below 16 length
  | BStatus interrupter _ _ _ _ => below 10 interrupter
  | BNormal buffer len td interrupter _ _ _ _ _ _ =>
     below 64 buffer && below 17 len && below 5 td && below 8 interrupter
  end.

(** How the controller reads them *)
Definition flag_at (x k : Z) : bool := bits x k 1 =? 1.

Definition decode_as (ty : Z) (t : Trb) : option Block :=
  let d := read_data t in
  let st := status t in
  let ctl := control t in
  let slot := event_slot t in
  let endp := endpoint_id t in
  match ty with
  | 0 => Some BReserved
  | 1 => Some (BNormal d (bits st 0 17) (bits st 17 5) (bits st 22 10) (flag_at ctl 1) (flag_at ctl 2)
                 (flag_at ctl 4) (flag_at ctl 5) (flag_at ctl 6) (flag_at ctl 9))
  | 2 => Some (BSetup (mk_setup (bits d 0 8) (bits d 8 8) (bits d 16 16) (bits d 32 16) (bits d 48 16))
                 (bits ctl 16 2))
  | 3 => Some (BData d (bits st 0 17) (flag_at ctl 16))
  | 4 => Some (BStatus (bits st 22 10) (flag_at ctl 16) (flag_at ctl 5) (flag_at ctl 4) (flag_at ctl 1))
  | 6 => Some (BLink d (flag_at ctl 1))
  | 8 => Some (BNoOp (bits st 22 10) (flag_at ctl 1) (flag_at ctl 4) (flag_at ctl 5))
  | 9 => Some (BEnableSlot (bits ctl 16 5))
  | 10 => Some (BDisableSlot slot)
  | 11 => Some (BAddressDevice slot d (flag_at ctl 9))
  | 12 => Some (BConfigureEndpoint slot d)
  | 13 => Some (BEvaluateContext slot d (flag_at ctl 9))
  | 14 => Some (BResetEndpoint slot endp (flag_at ctl 9))
  | 15 => Some (BStopEndpoint slot endp (flag_at ctl 23))
  | 16 => Some (BSetTrDequeue (bits d 4 60) (flag_at d 0) (bits d 1 3) (bits st 16 16) endp slot)
  | 17 => Some (BResetDevice slot)
  | 23 => Some BNoOpCmd
  | _ => None
  end.

Definition decode (t : Trb) : option (Block * bool) :=
  b ← decode_as (trb_type t) t; Some (b, cycle t).

(** ** The round trip *)

Lemma bits_same v k n : 0 ≤ k → 0 ≤ v < 2 ^ n → bits (Z.shiftl v k) k n = v.
Proof.
  intros Hk Hv. assert (0 ≤ n) by (destruct (Z.le_gt_cases 0 n); [done|rewrite Z.pow_neg_r in Hv; lia]).
  unfold bits. rewrite Z.shiftr_shiftl_l, Z.sub_diag, Z.shiftl_0_r, Z.land_ones by lia.
  by apply Z.mod_small.
Qed.

Lemma bits_same_0 v n : 0 ≤ v < 2 ^ n → bits v 0 n = v.
Proof. rewrite <- (Z.shiftl_0_r v) at 2. by apply bits_same. Qed.

Lemma bits_above v j k n : 0 ≤ k → 0 ≤ n → k + n ≤ j → bits (Z.shiftl v j) k n = 0.
Proof.
  intros ???. apply Z.bits_inj_0. intros i. unfold bits. rewrite Z.land_spec.
  destruct (Z.le_gt_cases 0 i); [|by rewrite Z.testbit_neg_r].
  destruct (Z.le_gt_cases n i); [rewrite Z.ones_spec_high by lia; apply andb_false_r|].
  rewrite Z.shiftr_spec, Z.shiftl_spec, Z.testbit_neg_r by lia. done.
Qed.

Lemma bits_below v j k n : 0 ≤ j ≤ k → 0 ≤ v < 2 ^ (k - j) → bits (Z.shiftl v j) k n = 0.
Proof.
  intros ??. unfold bits.
  replace (Z.shiftr (Z.shiftl v j) k) with 0; [apply Z.land_0_l|].
  symmetry. rewrite Z.shiftr_shiftl_r, Z.shiftr_div_pow2 by lia. by apply Z.div_small.
Qed.

Lemma bits_below_0 v k n : 0 ≤ k → 0 ≤ v < 2 ^ k → bits v k n = 0.
Proof.
  intros ??. rewrite <- (Z.shiftl_0_r v). apply bits_below; [lia|]. by rewrite Z.sub_0_r.
Qed.

Lemma bits_0 k n : bits 0 k n = 0.
Proof. unfold bits. by rewrite Z.shiftr_0_l, Z.land_0_l. Qed.

Lemma shl32_small x k : 0 ≤ k ≤ 32 → 0 ≤ x < 2 ^ (32 - k) → shl32 x k = Z.shiftl x k.
Proof.
  intros Hk Hx. unfold shl32, wrap_u32. rewrite Z.shiftl_mul_pow2 by lia. apply Z.mod_small.
  change 4294967296 with (2 ^ 32). replace (2 ^ 32) with (2 ^ (32 - k) * 2 ^ k); [nia|].
  rewrite <- Z.pow_add_r by lia. f_equal. lia.
Qed.

Lemma trb_type_bits t : trb_type t = bits (control t) 10 6.
Proof. unfold trb_type, bits. by rewrite Z.shiftr_land. Qed.
Lemma endpoint_id_bits t : endpoint_id t = bits (control t) 16 5.
Proof. unfold endpoint_id, bits. by rewrite Z.shiftr_land. Qed.
Lemma event_slot_bits t : event_slot t = bits (control t) 24 8.
Proof. unfold event_slot, bits. by rewrite Z.land_ones. Qed.
Lemma cycle_bits t : cycle t = flag_at (control t) 0.
Proof.
  unfold cycle, has_flag, flag_at, bits. rewrite Z.shiftr_0_r. change (Z.ones 1) with 1.
  case_bool_decide; symmetry; [by apply Z.eqb_eq|by apply Z.eqb_neq].
Qed.

Lemma read_data_set d : below 64 d = true → Z.lor (wrap_u32 d) (Z.shiftl (wrap_u32 (Z.shiftr d 32)) 32) = d.
Proof.
  unfold below. rewrite andb_true_iff, Z.leb_le, Z.ltb_lt. intros Hd.
  change wrap_u32 with (λ x, x `mod` 2 ^ 32). cbn beta.
  apply Z.bits_inj'. intros i Hi. rewrite Z.lor_spec, Z.shiftl_spec by done.
  destruct (Z.lt_ge_cases i 32).
  - by rewrite Z.mod_pow2_bits_low, (Z.testbit_neg_r _ (i - 32)), orb_false_r by lia.
  - rewrite Z.mod_pow2_bits_high by lia. cbn [orb].
    rewrite (Z.mod_small (Z.shiftr d 32)).
    + rewrite Z.shiftr_spec by lia. f_equal. lia.
    + rewrite Z.shiftr_div_pow2 by lia. split; [apply Z.div_pos; lia|].
      apply Z.div_lt_upper_bound; [lia|]. change (2 ^ 32 * 2 ^ 32) with (2 ^ 64). lia.
Qed.

Lemma below_spec n x : below n x = true ↔ 0 ≤ x < 2 ^ n.
Proof. unfold below. rewrite andb_true_iff, Z.leb_le, Z.ltb_lt. done. Qed.

Lemma fits5_below x : below 5 x = true → fits5 x = true.
Proof.
  rewrite below_spec. intros Hx. unfold fits5. apply Z.eqb_eq.
  change 0x1F with (Z.ones 5). rewrite Z.land_ones by lia. by apply Z.mod_small.
Qed.

Lemma land_fits5 x : below 5 x = true → Z.land x 0x1F = x.
Proof. intros Hx. apply Z.eqb_eq, fits5_below, Hx. Qed.

Lemma deque_ptr_mask p dcs :
  below 60 p = true →
  (Z.land (Z.lor (Z.shiftl p 4) (u32_of dcs)) 0xFFFFFFFFFFFFFFF1 =? Z.lor (Z.shiftl p 4) (u32_of dcs)) = true.
Proof.
  rewrite below_spec. intros Hp. apply Z.eqb_eq. rewrite Z.land_lor_distr_l. f_equal; [|by destruct dcs].
  change 0xFFFFFFFFFFFFFFF1 with (Z.lor (Z.shiftl (Z.ones 60) 4) 1).
  rewrite Z.land_lor_distr_r, <- Z.shiftl_land, Z.land_ones, Z.mod_small by lia.
  change 1 with (Z.ones 1) at 1. rewrite Z.land_ones, Z.shiftl_mul_pow2 by lia.
  replace ((p * 2 ^ 4) `mod` 2 ^ 1) with 0; [apply Z.lor_0_r|].
  change (2 ^ 4) with (8 * 2 ^ 1). by rewrite Z.mul_assoc, Z.mod_mul.
Qed.

Lemma flag_at_u32 b : (u32_of b =? 1) = b.
Proof. by destruct b. Qed.
Lemma sct_of_u64 n : below 3 n = true → sct_u64 (sct_of n) = n.
Proof.
  rewrite below_spec. change (2 ^ 3) with 8. intros Hn.
  assert (n = 0 ∨ n = 1 ∨ n = 2 ∨ n = 3 ∨ n = 4 ∨ n = 5 ∨ n = 6 ∨ n = 7) as Hc by lia. naive_solver.
Qed.
Lemma kind_of_u32 n : below 2 n = true → kind_u32 (kind_of n) = n.
Proof.
  rewrite below_spec. change (2 ^ 2) with 4. intros Hn.
  assert (n = 0 ∨ n = 1 ∨ n = 2 ∨ n = 3) as Hc by lia. naive_solver.
Qed.

Lemma u32_of_range b : 0 ≤ u32_of b < 2.
Proof. by destruct b. Qed.

(** The range of a field that is shifted into its place *)
Ltac field_range :=
  repeat match goal with |- context [u32_of ?b] => pose proof (u32_of_range b); generalize dependent (u32_of b); intros end;
  cbn [type_u8]; cbn; lia.

(** Reading one field out of a word that is the union of several *)
Ltac field1 := match goal with
  | |- context [bits (Z.shiftl ?v ?k) ?k ?n] => rewrite (bits_same v k n) by field_range
  | |- context [bits (Z.shiftl ?v ?j) ?k ?n] =>
     first [rewrite (bits_above v j k n) by lia | rewrite (bits_below v j k n) by field_range]
  | |- context [bits ?v 0 ?n] => rewrite (bits_same_0 v n) by field_range
  | |- context [bits ?v ?k ?n] => rewrite (bits_below_0 v k n) by field_range
  end.
Ltac field := rewrite ?bits_lor, ?bits_0; repeat field1; rewrite ?Z.lor_0_l, ?Z.lor_0_r.

Lemma below_lor n a b : 0 ≤ n → below n a = true → below n b = true → below n (Z.lor a b) = true.
Proof.
  rewrite !below_spec. intros Hn Ha Hb.
  assert (Z.lor a b = Z.lor a b `mod` 2 ^ n) as ->.
  { rewrite <- Z.land_ones, Z.land_lor_distr_l, !Z.land_ones, !Z.mod_small by done. done. }
  apply Z.mod_pos_bound. lia.
Qed.

Lemma below_shiftl n k v : 0 ≤ k ≤ n → below (n - k) v = true → below n (Z.shiftl v k) = true.
Proof.
  rewrite !below_spec. intros Hk Hv. rewrite Z.shiftl_mul_pow2 by lia.
  replace (2 ^ n) with (2 ^ (n - k) * 2 ^ k); [nia|]. rewrite <- Z.pow_add_r by lia. f_equal. lia.
Qed.

Lemma below_mono m n v : m ≤ n → below m v = true → below n v = true.
Proof. rewrite !below_spec. intros ? [??]. split; [done|]. eapply Z.lt_le_trans; [done|]. by apply Z.pow_le_mono_r. Qed.

Lemma below_setup s : setup_ok s = true → below 64 (setup_u64 s) = true.
Proof.
  unfold setup_ok. rewrite !andb_true_iff. intros [[[[]]]].
  repeat apply below_lor; try done;
    first [by apply (below_mono 8) | apply below_shiftl; [lia|]; (by apply (below_mono 8)) || by apply (below_mono 16)].
Qed.

Lemma below_deque p dcs sct :
  below 60 p = true → below 3 sct = true →
  below 64 (Z.lor (Z.lor (Z.shiftl p 4) (u32_of dcs)) (Z.shiftl sct 1)) = true.
Proof.
  intros. repeat apply below_lor; try done; [by apply below_shiftl|by destruct dcs|].
  apply below_shiftl; [lia|]. by apply (below_mono 3).
Qed.

Lemma require_bind {A} b (k : unit → comp Trb A) t : b = true → (require b ≫= k) t = k tt t.
Proof. intros ->. done. Qed.

(** The data of a block *)
Lemma read_data_mk d st ctl :
  below 64 d = true → read_data (mk_trb (wrap_u32 d) (wrap_u32 (Z.shiftr d 32)) st ctl) = d.
Proof. apply read_data_set. Qed.

Ltac fields := unfold flag_at, lors, ty32; cbn [foldr];
  rewrite ?shl32_small by field_range; field; rewrite ?flag_at_u32; cbn [type_u8].

Ltac ranges := repeat match goal with
  | H : ?a && ?b = true |- _ => apply andb_true_iff in H as [??]
  | H : below _ ?x = true |- _ =>
     lazymatch goal with
     | H' : 0 ≤ x < _ |- _ => fail
     | _ => let H' := fresh in pose proof (proj1 (below_spec _ _) H) as H'; cbn in H'
     end
  | H : setup_ok ?s = true |- _ =>
     lazymatch goal with
     | H' : 0 ≤ s_kind s < _ |- _ => fail
     | _ => let H' := fresh in pose proof H as H'; unfold setup_ok in H'
     end
  end.

(** First the type and the cycle bit, then the fields of that type *)
Ltac read_fields := unfold decode; rewrite trb_type_bits, cycle_bits; cbn [control]; fields;
  cbn [decode_as mbind option_bind]; rewrite ?endpoint_id_bits, ?event_slot_bits; cbn [status control];
  rewrite ?read_data_mk by (done || by apply below_setup || by apply below_deque);
  unfold setup_u64; fields.

Lemma fill_decodes b c t :
  block_ok b = true → ∃ t', fill b c t = (Ok tt, t') ∧ decode t' = Some (b, c).
Proof.
  intros Hb. destruct b; cbn [fill block_ok] in *; ranges.
  all: unfold reserved, link, no_op_cmd, enable_slot, disable_slot, address_device, configure_endpoint,
    evaluate_context, reset_endpoint, set_tr_deque_ptr, stop_endpoint, reset_device, transfer_no_op,
    setup, data, status_stage, normal.
  all: rewrite ?require_bind by first [done | by apply fits5_below | by apply deque_ptr_mask].
  all: rewrite ?sct_of_u64, ?kind_of_u32, ?land_fits5 by done; eexists; (split; [reflexivity|]).
  all: read_fields; by try destruct s.
Qed.

(** The type of a block *)
Definition block_type (b : Block) : TrbType :=
  match b with
  | BReserved => TReserved | BLink _ _ => TLink | BNoOpCmd => TNoOpCmd | BEnableSlot _ => TEnableSlot
  | BDisableSlot _ => TDisableSlot | BAddressDevice _ _ _ => TAddressDevice
  | BConfigureEndpoint _ _ => TConfigureEndpoint | BEvaluateContext _ _ _ => TEvaluateContext
  | BResetEndpoint _ _ _ => TResetEndpoint | BSetTrDequeue _ _ _ _ _ _ => TSetTrDequeuePointer
  | BStopEndpoint _ _ _ => TStopEndpoint | BResetDevice _ => TResetDevice | BNoOp _ _ _ _ => TNoOp
  | BSetup _ _ => TSetupStage | BData _ _ _ => TDataStage | BStatus _ _ _ _ _ => TStatusStage
  | BNormal _ _ _ _ _ _ _ _ _ _ => TNormal
  end.

Definition is_command (b : Block) : bool :=
  match b with
  | BNoOpCmd | BEnableSlot _ | BDisableSlot _ | BAddressDevice _ _ _ | BConfigureEndpoint _ _
  | BEvaluateContext _ _ _ | BResetEndpoint _ _ _ | BSetTrDequeue _ _ _ _ _ _ | BStopEndpoint _ _ _
  | BResetDevice _ => true
  | _ => false
  end.
Definition is_transfer (b : Block) : bool :=
  match b with
  | BNoOp _ _ _ _ | BSetup _ _ | BData _ _ _ | BStatus _ _ _ _ _ | BNormal _ _ _ _ _ _ _ _ _ _ => true
  | _ => false
  end.

Lemma decode_parts t b c : decode t = Some (b, c) → trb_type t = type_u8 (block_type b) ∧ cycle t = c.
Proof.
  unfold decode. generalize (trb_type t). intros ty Hd. destruct (decode_as ty t) as [b'|] eqn:Hb; [|done].
  cbn in Hd. injection Hd as -> <-. split; [|done]. revert Hb. unfold decode_as.
  repeat case_match; intros [= <-]; done.
Qed.

Lemma decode_class t b c :
  decode t = Some (b, c) → is_command_trb t = is_command b ∧ is_transfer_trb t = is_transfer b.
Proof.
  intros [Ht _]%decode_parts. unfold is_command_trb, is_transfer_trb, is_type. rewrite Ht. by destruct b.
Qed.

(** C28. Every block that the driver makes is read back by the controller as it was meant:
    within the widths of its fields, filling a block, whatever it held before, succeeds, and
    the type, the flags, the numbers and the pointer at the places that the interface
    standard gives them are those that were asked for, together with the cycle bit; and the
    driver itself takes exactly the commands for commands and the transfers for transfers. *)
Theorem trb_roundtrip b c t :
  block_ok b = true →
  ∃ t', fill b c t = (Ok tt, t') ∧ decode t' = Some (b, c) ∧ cycle t' = c ∧
    is_command_trb t' = is_command b ∧ is_transfer_trb t' = is_transfer b.
Proof.
  intros (t' & Hf & Hd)%(fill_decodes b c t). exists t'. split_and!; try done.
  - by apply decode_parts in Hd as [_ ?].
  - by apply decode_class in Hd as [? _].
  - by apply decode_class in Hd as [_ ?].
Qed.

Lemma trb_roundtrip_witness :
  decode (fill (BNormal 0x12345678000 65536 31 0 false true false true false false) true zero_trb).2 =
  Some (BNormal 0x12345678000 65536 31 0 false true false true false false, true).
Proof.
  destruct (trb_roundtrip (BNormal 0x12345678000 65536 31 0 false true false true false false) true zero_trb
    eq_refl) as (t' & Hf & Hd & _).
  rewrite Hf. exact Hd.
Defined.
