(* ===== verification/XhciRing.v ===== *)
(** * The rings of an xHCI controller

    [drivers/usb/xhcid/src/xhci/ring.rs] and [event.rs]: a ring is a piece of memory that
    driver and controller share, with the index and the cycle bit of the side that the
    driver has.  An index is a [nat], since it is below the length of the ring.  A reference
    to a block is its index.  The specification is a queue of blocks, and the controller of
    the interface standard, which follows the cycle bits, is the other side. *)

From S2P Require Import Prelude XhciTrb.

Record Ring := mk_ring {
  r_link : bool;
  trbs : list Trb;
  physical : Z;
  r_i : nat;
  r_cycle : bool;
}.

Definition set_trbs l (r : Ring) := mk_ring (r_link r) l (physical r) (r_i r) (r_cycle r).
Definition set_i i (r : Ring) := mk_ring (r_link r) (trbs r) (physical r) i (r_cycle r).
Definition set_cycle c (r : Ring) := mk_ring (r_link r) (trbs r) (physical r) (r_i r) c.

(** [Ring::new]; the memory is zeroed and lies at [phys] *)
Definition ring_new (phys : Z) (length : nat) (lnk : bool) : Ring :=
  mk_ring lnk (replicate length zero_trb) phys 0 lnk.

(** [size_of::<Trb>()] *)
Definition trb_size : Z := 16.

Definition register (r : Ring) : Z :=
  Z.lor (physical r + trb_size * Z.of_nat (r_i r)) (u32_of (r_cycle r)).

(** Access to [trbs[i]] *)
Definition on_trb {A} (i : nat) (m : comp Trb A) : comp Ring A :=
  r ← get;
  t ← expect (trbs r !! i);
  let '(a, t') := m t in
  put (set_trbs (<[i := t']> (trbs r)) r);;
  lift a.

(** The loop of [next_index]; a second turn starts at the beginning of the ring, so that it
    is the last one of a ring with more than one entry. *)
Fixpoint next_index_loop (turns : nat) : comp Ring nat :=
  match turns with
  | O => panic
  | S turns =>
     r ← get;
     let i := r_i r in
     if bool_decide (length (trbs r) ≤ S i)%nat then
       modify (set_i 0);;
       if r_link r then
         on_trb i (link (physical r) true (r_cycle r));;
         modify (set_cycle (negb (r_cycle r)));;
         next_index_loop turns
       else mret i
     else
       modify (set_i (S i));;
       mret i
  end.
Definition next_index : comp Ring nat := next_index_loop 2.

(** [Ring::next], as the index of the block and the cycle bit *)
Definition next : comp Ring (nat * bool) :=
  i ← next_index;
  r ← get;
  mret (i, r_cycle r).

(** How the driver puts a block on a ring: the next index, and the block written through it *)
Definition enqueue (f : bool → comp Trb unit) : comp Ring nat :=
  '(i, c) ← next;
  on_trb i (f c);;
  mret i.

(** [Ring::iter]: the ring from the current index on, around, as long as asked *)
Fixpoint iter_from (n i : nat) (r : Ring) : list Trb :=
  match n with
  | O => []
  | S n =>
     match trbs r !! i with
     | Some t => t :: iter_from n (S i `mod` length (trbs r)) r
     | None => []
     end
  end.

Definition address_mask (ac64 : bool) : Z := if ac64 then 0xFFFFFFFFFFFFFFFF else 0xFFFFFFFF.

Definition phys_addr_to_index (ac64 : bool) (paddr : Z) (r : Ring) : outcome (option nat) :=
  let base := Z.land (physical r) (address_mask ac64) in
  if bool_decide (paddr < base) then Ok None else
  let offset := paddr - base in
  if bool_decide (offset `mod` trb_size ≠ 0) then Panic else
  let index := offset `div` trb_size in
  Ok (if bool_decide (Z.of_nat (length (trbs r)) < index) then None else Some (Z.to_nat index)).

(** [phys_addr_to_entry], [phys_addr_to_entry_ref] and [phys_addr_to_entry_mut]: the entry at
    an address, as its index and its content *)
Definition phys_addr_to_entry (ac64 : bool) (paddr : Z) (r : Ring) : outcome (option (nat * Trb)) :=
  match phys_addr_to_index ac64 paddr r with
  | Ok (Some i) => match trbs r !! i with Some t => Ok (Some (i, t)) | None => Panic end
  | Ok None => Ok None
  | Err e => Err e
  | Panic => Panic
  end.

Definition trb_phys_ptr (ac64 : bool) (i : nat) (r : Ring) : outcome Z :=
  if bool_decide (length (trbs r) < i)%nat then Panic else
  let ptr := Z.land (physical r) (address_mask ac64) + trb_size * Z.of_nat i in
  if bool_decide (ptr ≤ u64_max) then Ok ptr else Panic.

(** ** The event ring *)

Record EventRingSte := mk_ste { address_low : Z; address_high : Z; ste_size : Z }.
Record EventRing := mk_event_ring { ste : list EventRingSte; ste_physical : Z; e_ring : Ring }.

Definition event_ring_new (phys ste_phys : Z) : EventRing :=
  let r := ring_new phys 256 false in
  mk_event_ring [mk_ste (wrap_u32 phys) (wrap_u32 (Z.shiftr phys 32)) (wrap_u16 (Z.of_nat (length (trbs r))))]
    ste_phys r.

Definition erdp (e : EventRing) : Z := Z.land (register (e_ring e)) 0xFFFFFFFFFFFFFFF0.
Definition erstba (e : EventRing) : Z := ste_physical e.

(** ** The controller's side of a transfer or command ring

    The controller has a dequeue index and a consumer cycle state.  A block belongs to it
    when its cycle bit is the cycle state; a link block sends it to the address in it, and
    toggles the cycle state when it says so. *)
Record Consumer := mk_consumer { deq : nat; ccs : bool }.

Fixpoint fetch (turns : nat) (r : Ring) (c : Consumer) : option Trb * Consumer :=
  match turns, trbs r !! deq c with
  | S turns, Some t =>
     if Bool.eqb (cycle t) (ccs c) then
       match decode t with
       | Some (BLink address toggle, _) =>
          fetch turns r (mk_consumer (Z.to_nat ((address - physical r) `div` trb_size)) (xorb toggle (ccs c)))
       | _ => (Some t, mk_consumer (S (deq c)) (ccs c))
       end
     else (None, c)
  | _, _ => (None, c)
  end.

(** What the driver and the controller do, and what the queue does *)
Inductive RingOp :=
  | Enqueue (b : Block)
  | Fetch
  | Complete (i : nat). (* the driver has seen the completion of entry [i] of the command ring *)

Fixpoint ring_run (ops : list RingOp) (r : Ring) (c : Consumer) : option (list (option Block)) :=
  match ops with
  | [] => Some []
  | Enqueue b :: ops =>
     match enqueue (fill b) r with
     | (Ok _, r) => ring_run ops r c
     | _ => None
     end
  | Fetch :: ops =>
     let '(o, c) := fetch 2 r c in
     out ← ring_run ops r c;
     Some ((t ← o; p ← decode t; Some p.1) :: out)
  | Complete i :: ops =>
     match on_trb i (reserved false) r with
     | (Ok _, r) => ring_run ops r c
     | _ => None
     end
  end.

(** A queue that never holds more than [cap] blocks *)
Fixpoint queue_run (cap : nat) (ops : list RingOp) (q : list Block) : option (list (option Block)) :=
  match ops with
  | [] => Some []
  | Enqueue b :: ops => if bool_decide (length q < cap)%nat then queue_run cap ops (q ++ [b]) else None
  | Fetch :: ops =>
     out ← queue_run cap ops (tail q);
     Some (head q :: out)
  | Complete _ :: ops => queue_run cap ops q
  end.

(** Blocks that the driver puts on a ring: well-formed, and not links.  Entries of a transfer
    ring stay as they are when they complete. *)
Definition op_ok (o : RingOp) : bool :=
  match o with
  | Enqueue (BLink _ _) => false
  | Enqueue b => block_ok b
  | Fetch => true
  | Complete _ => false
  end.

(** The controller starts where the register tells it to *)
Definition attach (r : Ring) : Consumer :=
  mk_consumer (Z.to_nat ((Z.land (register r) 0xFFFFFFFFFFFFFFF0 - physical r) `div` trb_size))
    (Z.odd (register r)).

(** ** Positions

    With [N] usable entries, the entry number [k] ever put on the ring goes to position
    [k mod N] with the cycle bit of its lap; after [k] entries an index is [place k]. *)
Section Positions.
Context (N : nat) (HN : (1 ≤ N)%nat).

Definition place (k : nat) : nat := match k with O => O | S k => S (k `mod` N) end.
Definition lap (k : nat) : nat := (pred k `div` N)%nat.
Definition bit_of (k : nat) : bool := Nat.even (k `div` N).

Lemma place_le k : (place k ≤ N)%nat.
Proof using HN. destruct k as [|k]; cbn; [lia|]. pose proof (Nat.mod_upper_bound k N). lia. Qed.

Lemma place_low k : (place k < N)%nat → (k `mod` N = place k ∧ k `div` N = lap k)%nat.
Proof using HN.
  destruct k as [|k]; unfold lap; cbn [place pred]; [rewrite Nat.Div0.mod_0_l, Nat.Div0.div_0_l by lia; done|].
  intros Hk. pose proof (Nat.div_mod_eq k N) as Hd.
  assert (S k = N * (k `div` N) + S (k `mod` N))%nat as Hs by lia.
  split; symmetry; [eapply Nat.mod_unique; eauto|eapply Nat.div_unique; eauto].
Qed.

Lemma place_high k : place k = N → (k `mod` N = 0 ∧ k `div` N = S (lap k))%nat.
Proof using HN.
  destruct k as [|k]; unfold lap; cbn [place pred]; [lia|].
  intros Hk. pose proof (Nat.div_mod_eq k N) as Hd.
  assert (S k = N * S (k `div` N) + 0)%nat as Hs by nia.
  split; symmetry; [eapply Nat.mod_unique; [|exact Hs]; lia|eapply Nat.div_unique; [|exact Hs]; lia].
Qed.

(** Two entries less than a lap apart have different positions *)
Lemma mod_apart k l : (k < l → l < k + N → k `mod` N ≠ l `mod` N)%nat.
Proof using HN.
  intros Hkl Hl He. pose proof (Nat.div_mod_eq k N). pose proof (Nat.div_mod_eq l N).
  assert (k `div` N < l `div` N)%nat by nia. nia.
Qed.

Lemma bit_next k : bit_of (k + N) = negb (bit_of k).
Proof using HN.
  unfold bit_of. replace (k + N)%nat with (k + 1 * N)%nat by lia.
  rewrite Nat.div_add, Nat.add_1_r, Nat.even_succ, Nat.negb_even by lia. done.
Qed.
Lemma mod_next k : ((k + N) `mod` N = k `mod` N)%nat.
Proof using HN. replace (k + N)%nat with (k + 1 * N)%nat by lia. by rewrite Nat.Div0.mod_add. Qed.

Lemma lap_mono k l : (k ≤ l → lap k ≤ lap l)%nat.
Proof using HN. intros. unfold lap. apply Nat.Div0.div_le_mono. lia. Qed.
Lemma lap_window d e : (d ≤ e → e ≤ d + N → lap e ≤ S (lap d))%nat.
Proof using HN.
  intros. unfold lap. replace (S (pred d `div` N)) with ((pred d + 1 * N) `div` N)%nat.
  - apply Nat.Div0.div_le_mono. lia.
  - rewrite Nat.div_add by lia. lia.
Qed.
Lemma lap_high d e : place e = N → (e < d + N → lap e ≤ lap d)%nat.
Proof using HN.
  intros [Hm Hd]%place_high He. pose proof (Nat.div_mod_eq e N) as Heq.
  unfold lap at 2. apply Nat.div_le_lower_bound; nia.
Qed.
End Positions.

(** ** The ring is a queue *)
Section Queue.
Context (N : nat) (HN : (1 ≤ N)%nat) (phys : Z) (Hphys : below 64 phys = true).
Abbreviation place := (place N).
Abbreviation lap := (lap N).
Abbreviation bit_of := (bit_of N).

(** The block that entry [k] with content [b] is *)
Definition block_at (k : nat) (b : Block) (t : Trb) : Prop :=
  decode t = Some (b, bit_of k) ∧ cycle t = bit_of k.
Definition link_with (c : bool) (t : Trb) : Prop := decode t = Some (BLink phys true, c) ∧ cycle t = c.

(** The queue [q] holds the entries [d], ..., [d + length q - 1]. *)
Record queued (d : nat) (q : list Block) (r : Ring) (c : Consumer) : Prop := {
  q_link : r_link r = true;
  q_phys : physical r = phys;
  q_len : length (trbs r) = S N;
  q_cap : (length q ≤ N)%nat;
  q_i : r_i r = place (d + length q);
  q_cycle : r_cycle r = Nat.even (lap (d + length q));
  q_deq : deq c = place d;
  q_ccs : ccs c = Nat.even (lap d);
  q_full : ∀ j b, q !! j = Some b → ∃ t, trbs r !! ((d + j) `mod` N)%nat = Some t ∧ block_at (d + j) b t;
  q_stale : ∀ k, (d + length q ≤ k < d + N)%nat →
    ∃ t, trbs r !! (k `mod` N)%nat = Some t ∧ cycle t = negb (bit_of k);
  q_end : ∃ t, trbs r !! N = Some t ∧
    if bool_decide (lap d < lap (d + length q))%nat then link_with (Nat.even (lap d)) t
    else cycle t = negb (Nat.even (lap d));
}.

Lemma link_made c t : ∃ t', link phys true c t = (Ok tt, t') ∧ link_with c t'.
Proof using Hphys.
  destruct (fill_decodes (BLink phys true) c t Hphys) as (t' & Hf & Hd).
  exists t'. split; [done|]. split; [done|]. by apply decode_parts in Hd as [_ ?].
Qed.

Lemma on_trb_run {A} i (m : comp Trb A) r t a t' :
  trbs r !! i = Some t → m t = (Ok a, t') → on_trb i m r = (Ok a, set_trbs (<[i := t']> (trbs r)) r).
Proof.
  intros Hi Hm. unfold on_trb, mbind, comp_bind, get. cbn. rewrite Hi. cbn.
  by rewrite Hm.
Qed.

Lemma next_low r : length (trbs r) = S N → (r_i r < N)%nat → next r = (Ok (r_i r, r_cycle r), set_i (S (r_i r)) r).
Proof.
  intros Hlen Hi. unfold next, next_index, next_index_loop, mbind, comp_bind, get. rewrite Hlen.
  by rewrite bool_decide_eq_false_2 by lia.
Qed.

Lemma next_high r t t' :
  length (trbs r) = S N → r_i r = N → r_link r = true → trbs r !! N = Some t →
  link (physical r) true (r_cycle r) t = (Ok tt, t') →
  next r = (Ok (0%nat, negb (r_cycle r)),
    mk_ring (r_link r) (<[N := t']> (trbs r)) (physical r) 1 (negb (r_cycle r))).
Proof using HN.
  intros Hlen Hi Hl Ht Hf. unfold next, next_index, next_index_loop, mbind, comp_bind, get, modify.
  rewrite Hlen, Hi, Hl, bool_decide_eq_true_2 by lia.
  rewrite (on_trb_run N _ (set_i 0 r) t tt t') by first [exact Ht | exact Hf]. cbn.
  rewrite length_insert, Hlen, bool_decide_eq_false_2 by lia. cbn. unfold set_i. cbn. by rewrite Hl.
Qed.

(** The next index, with the link written when the end of the ring is reached *)
Lemma next_run d q r c (e := (d + length q)%nat) :
  queued d q r c → (length q < N)%nat →
  ∃ r', next r = (Ok (e `mod` N, bit_of e)%nat, r') ∧
    r_link r' = true ∧ physical r' = phys ∧ length (trbs r') = S N ∧
    r_i r' = S (e `mod` N) ∧ r_cycle r' = bit_of e ∧
    (∀ s, (s < N)%nat → trbs r' !! s = trbs r !! s) ∧
    ∃ t, trbs r' !! N = Some t ∧
      if bool_decide (lap d < lap (S e))%nat then link_with (Nat.even (lap d)) t
      else cycle t = negb (Nat.even (lap d)).
Proof using HN Hphys.
  intros [Hl Hp Hlen _ Hi Hc _ _ _ _ (t & Ht & Hend)] Hq.
  assert (d ≤ e ∧ e < d + N)%nat as [Hde Heq] by (unfold e; lia).
  fold e in Hi, Hc, Hend. clearbody e.
  pose proof (place_le N HN e) as He. change (lap (S e)) with (e `div` N)%nat.
  destruct (decide (place e = N)) as [Hpe|Hpe].
  - destruct (place_high N HN e Hpe) as [Hm Hd].
    destruct (link_made (r_cycle r) t) as (t' & Hf & Hlw).
    assert (lap d = lap e) as Hlap.
    { apply Nat.le_antisymm; [by apply lap_mono|by apply lap_high]. }
    eexists. rewrite (next_high r t t') by (done || by rewrite ?Hi, ?Hp). rewrite Hm. cbn [trbs].
    unfold XhciRing.bit_of. rewrite Hd, Hc, Nat.even_succ, <- Nat.negb_even.
    split; [done|]. split_and!; cbn [trbs]; rewrite ?length_insert; try done.
    + intros s Hs. by rewrite list_lookup_insert_ne by lia.
    + exists t'. rewrite list_lookup_insert_eq by lia. split; [done|].
      rewrite bool_decide_eq_true_2 by lia. by rewrite Hlap, <- Hc.
  - destruct (place_low N HN e) as [Hm Hd]; [lia|].
    eexists. rewrite (next_low r) by (done || lia). unfold XhciRing.bit_of. rewrite Hm, Hd, Hi, Hc.
    split; [done|]. split_and!; try done. by exists t.
Qed.

(** Putting a block on the ring is putting it at the end of the queue. *)
Lemma enqueue_queued d q r c b :
  queued d q r c → (length q < N)%nat → block_ok b = true →
  ∃ i r', enqueue (fill b) r = (Ok i, r') ∧ queued d (q ++ [b]) r' c.
Proof using HN Hphys.
  intros Hr Hq Hb. destruct (next_run d q r c Hr Hq) as (r1 & Hn & Hl & Hp & Hlen & Hi & Hc & Hs & Hend).
  set (e := (d + length q)%nat) in *.
  destruct Hr as [_ _ _ _ _ _ Hd Hccs Hfull Hstale _].
  destruct (Hstale e) as (t0 & Ht0 & _); [lia|].
  assert (e `mod` N < N)%nat as Hm by (apply Nat.mod_upper_bound; lia).
  destruct (fill_decodes b (bit_of e) t0 Hb) as (t1 & Hf & Hdec).
  assert (on_trb (e `mod` N)%nat (fill b (bit_of e)) r1 =
    (Ok tt, set_trbs (<[(e `mod` N)%nat := t1]> (trbs r1)) r1)) as Ho.
  { apply (on_trb_run _ _ _ t0); [|done]. by rewrite Hs. }
  exists (e `mod` N)%nat, (set_trbs (<[(e `mod` N)%nat := t1]> (trbs r1)) r1). split.
  { unfold enqueue, mbind, comp_bind. rewrite Hn. unfold mbind, comp_bind. by rewrite Ho. }
  assert (d + length (q ++ [b]) = S e)%nat as He by (rewrite length_app; cbn; unfold e; lia).
  split; cbn [r_link physical trbs r_i r_cycle set_trbs]; rewrite ?He, ?length_insert; try done.
  - rewrite length_app. cbn. lia.
  - intros j b' Hj. destruct (decide (j = length q)) as [->|Hne].
    + rewrite list_lookup_middle in Hj by done. injection Hj as <-. exists t1. fold e.
      rewrite list_lookup_insert_eq by lia. split; [done|]. split; [done|]. by apply decode_parts in Hdec as [_ ?].
    + assert (j < length q)%nat as Hjl by (apply lookup_lt_Some in Hj; rewrite length_app in Hj; cbn in Hj; lia).
      rewrite lookup_app_l in Hj by done. destruct (Hfull j b' Hj) as (t & Ht & Hbt). exists t.
      assert ((d + j) `mod` N < N)%nat by (apply Nat.mod_upper_bound; lia).
      rewrite list_lookup_insert_ne, Hs by (done || apply not_eq_sym, mod_apart; unfold e; lia). done.
  - intros k Hk. destruct (Hstale k) as (t & Ht & Hct); [unfold e in *; lia|]. exists t.
    assert (k `mod` N < N)%nat by (apply Nat.mod_upper_bound; lia).
    rewrite list_lookup_insert_ne, Hs by (done || (apply mod_apart; unfold e in *; lia)). done.
  - destruct Hend as (t & Ht & Hend). exists t. by rewrite list_lookup_insert_ne by lia.
Qed.

(** Fetching from an empty queue *)
Lemma fetch_empty d r c : queued d [] r c → fetch 2 r c = (None, c).
Proof using HN.
  intros [_ _ _ _ _ _ Hd Hccs _ Hstale (t & Ht & Hend)]. cbn [length] in *. rewrite Nat.add_0_r in *.
  pose proof (place_le N HN d) as Hle. cbn [fetch]. rewrite Hd, Hccs.
  destruct (decide (place d = N)) as [Hp|Hp].
  - rewrite Hp, Ht. rewrite bool_decide_eq_false_2 in Hend by lia. rewrite Hend. by destruct (Nat.even _).
  - destruct (place_low N HN d) as [Hm Hdiv]; [lia|]. destruct (Hstale d) as (t1 & Ht1 & Hc1); [lia|].
    rewrite Hm in Ht1. rewrite Ht1, Hc1. unfold XhciRing.bit_of. rewrite Hdiv. by destruct (Nat.even _).
Qed.

Definition not_link (b : Block) : bool := match b with BLink _ _ => false | _ => true end.

Lemma fetch_at turns r c t b :
  trbs r !! deq c = Some t → decode t = Some (b, ccs c) → not_link b = true →
  fetch (S turns) r c = (Some t, mk_consumer (S (deq c)) (ccs c)).
Proof.
  intros Ht Hd Hb. cbn [fetch]. rewrite Ht. pose proof (decode_parts _ _ _ Hd) as [_ ->].
  rewrite eqb_reflx, Hd. by destruct b.
Qed.

Lemma fetch_link turns r c t cy :
  trbs r !! deq c = Some t → physical r = phys → link_with cy t → ccs c = cy →
  fetch (S turns) r c = fetch turns r (mk_consumer 0 (negb cy)).
Proof.
  intros Ht Hp [Hd Hc] Hcc. cbn [fetch]. rewrite Ht, Hc, Hcc, eqb_reflx, Hd, Hp, Z.sub_diag. done.
Qed.

(** The controller gets the first block of the queue. *)
Lemma fetch_queued d b q r c :
  queued d (b :: q) r c → not_link b = true →
  ∃ t c', fetch 2 r c = (Some t, c') ∧ decode t = Some (b, bit_of d) ∧ queued (S d) q r c'.
Proof using HN.
  intros [Hl Hp Hlen Hcap Hi Hc Hd Hccs Hfull Hstale (t & Ht & Hend)] Hb. cbn [length] in *.
  destruct (Hfull 0%nat b eq_refl) as (t1 & Ht1 & Hdec & _). rewrite Nat.add_0_r in Ht1, Hdec.
  pose proof (place_le N HN d) as Hle.
  exists t1, (mk_consumer (S (d `mod` N)) (bit_of d)). split_and!; [|done|].
  - destruct (decide (place d = N)) as [Hpl|Hpl].
    + destruct (place_high N HN d Hpl) as [Hm Hdiv].
      assert (lap d < lap (d + S (length q)))%nat as Hlt.
      { eapply Nat.lt_le_trans; [apply Nat.lt_succ_diag_r|]. rewrite <- Hdiv. apply (lap_mono N HN (S d)). lia. }
      rewrite bool_decide_eq_true_2 in Hend by done.
      rewrite (fetch_link 1 r c t (Nat.even (lap d))) by (done || by rewrite Hd, Hpl).
      assert (negb (Nat.even (lap d)) = bit_of d) as Hbit.
      { unfold XhciRing.bit_of. by rewrite Hdiv, Nat.even_succ, <- Nat.negb_even. }
      rewrite Hm in Ht1. rewrite (fetch_at 0 r _ t1 b); cbn [deq ccs]; rewrite ?Hm, ?Hbit; done.
    + destruct (place_low N HN d) as [Hm Hdiv]; [lia|]. rewrite Hm in Ht1.
      assert (ccs c = bit_of d) as Hcc by (unfold XhciRing.bit_of; by rewrite Hccs, Hdiv).
      rewrite (fetch_at 1 r c t1 b); rewrite ?Hd, ?Hcc, ?Hm; done.
  - rewrite Nat.add_succ_r in *. split; rewrite ?Nat.add_succ_l; try done; [lia|..].
    + intros j b' Hj. destruct (Hfull (S j) b' Hj) as (t2 & Ht2 & Hb2).
      exists t2. by rewrite Nat.add_succ_r in Ht2, Hb2.
    + intros k Hk. destruct (decide (k = d + N)%nat) as [->|Hne].
      * exists t1. rewrite mod_next, bit_next, negb_involutive by done. split; [done|].
        by apply decode_parts in Hdec as [_ ?].
      * apply Hstale. lia.
    + exists t. split; [done|]. assert (lap (S d) = d `div` N)%nat as -> by done.
      destruct (decide (place d = N)) as [Hpl|Hpl].
      * destruct (place_high N HN d Hpl) as [Hm Hdiv]. rewrite Hdiv.
        pose proof (lap_window N HN d (S (d + length q))) as Hw.
        pose proof (lap_mono N HN (S d) (S (d + length q))) as Hmo.
        assert (lap (S d) = S (lap d)) as Hs by exact Hdiv.
        rewrite bool_decide_eq_true_2 in Hend by lia. rewrite bool_decide_eq_false_2 by lia.
        destruct Hend as [_ ->]. by rewrite Nat.even_succ, <- Nat.negb_even, negb_involutive.
      * destruct (place_low N HN d) as [_ ->]; [lia|]. done.
Qed.
End Queue.

Lemma queued_run N phys ops : (1 ≤ N)%nat → below 64 phys = true → ∀ d q r c,
  queued N phys d q r c → forallb not_link q = true → forallb op_ok ops = true →
  is_Some (queue_run N ops q) → ring_run ops r c = queue_run N ops q.
Proof.
  intros HN Hphys. induction ops as [|[b| |] ops IH]; intros d q r c Hr Hq Hops Hrun; [done|..];
    cbn [ring_run queue_run forallb] in *; apply andb_true_iff in Hops as [Ho Hops]; [..|done].
  - case_bool_decide as Hl; [|by destruct Hrun].
    assert (block_ok b = true ∧ not_link b = true) as [Hb Hnl] by by destruct b.
    destruct (enqueue_queued N HN phys Hphys d q r c b Hr Hl Hb) as (i & r' & -> & Hr').
    apply (IH d); try done. rewrite forallb_app, Hq. cbn. by rewrite Hnl.
  - destruct q as [|b q]; cbn [tail head] in *.
    + rewrite (fetch_empty N HN phys d r c Hr). rewrite (IH d [] r c); try done.
      destruct (queue_run N ops []); [done|by destruct Hrun].
    + cbn [forallb] in Hq. apply andb_true_iff in Hq as [Hb Hq].
      destruct (fetch_queued N HN phys d b q r c Hr Hb) as (t & c' & -> & Hd & Hr').
      rewrite (IH (S d) q r c'); try done; [|destruct (queue_run N ops q); [done|by destruct Hrun]].
      destruct (queue_run N ops q); [|done]. cbn. by rewrite Hd.
Qed.

Lemma attach_new phys n : aligned16 phys = true → below 64 phys = true → attach (ring_new phys n true) = mk_consumer 0 true.
Proof.
  intros Ha Hb. unfold attach, register, ring_new. cbn [physical r_i r_cycle].
  unfold aligned16 in Ha. apply Z.eqb_eq in Ha. rewrite Z.mul_0_r, Z.add_0_r, Z.land_lor_distr_l, Ha.
  change (Z.land (u32_of true) 0xFFFFFFFFFFFFFFF0) with 0. rewrite Z.lor_0_r, Z.sub_diag.
  rewrite <- Z.bit0_odd, Z.lor_spec. cbn. by rewrite orb_true_r.
Qed.

Lemma lap_0 N : lap N 0 = 0%nat.
Proof. unfold lap. cbn [pred]. apply Nat.Div0.div_0_l. Qed.

Lemma queued_new N phys : (1 ≤ N)%nat → queued N phys 0 [] (ring_new phys (S N) true) (mk_consumer 0 true).
Proof.
  intros HN. split; cbn [ring_new r_link physical trbs r_i r_cycle deq ccs length]; try done.
  - apply length_replicate.
  - lia.
  - change (0 + 0)%nat with 0%nat. by rewrite lap_0.
  - by rewrite lap_0.
  - intros k Hk. exists zero_trb. rewrite lookup_replicate_2 by (pose proof (Nat.mod_upper_bound k N); lia).
    split; [done|]. unfold bit_of. by rewrite Nat.div_small by lia.
  - exists zero_trb. rewrite lookup_replicate_2 by lia. split; [done|].
    change (0 + 0)%nat with 0%nat. by rewrite lap_0.
Qed.

(** C23. A command or transfer ring is a queue: for every sequence of blocks that the driver
    puts on the ring and of fetches of the controller in which at most as many blocks wait
    as the ring has entries beside its link, each fetch gives the oldest block that was not
    fetched yet, with all its fields, and nothing when there is none; the driver finds the
    next entry in at most two turns of its loop.  So the link at the end, written just
    before the driver passes it, and the cycle bits, which change in every lap, tell the
    controller exactly which entries are its own. *)
Theorem ring_refines_queue N phys ops :
  (1 ≤ N)%nat → below 64 phys = true → aligned16 phys = true → forallb op_ok ops = true →
  is_Some (queue_run N ops []) →
  let r := ring_new phys (S N) true in ring_run ops r (attach r) = queue_run N ops [].
Proof.
  intros HN Hphys Ha Hops Hrun r. unfold r. rewrite attach_new by done.
  by apply (queued_run N phys ops HN Hphys 0 []); [apply queued_new|..].
Qed.

Definition demo_ops : list RingOp :=
  [Fetch; Enqueue BNoOpCmd; Enqueue (BEnableSlot 3); Fetch; Fetch; Fetch; Enqueue (BResetDevice 7);
   Enqueue (BDisableSlot 9); Enqueue BNoOpCmd; Fetch; Enqueue (BAddressDevice 1 4096 true); Fetch; Fetch; Fetch].

Lemma ring_refines_queue_witness :
  ring_run demo_ops (ring_new 65536 4 true) (attach (ring_new 65536 4 true)) = queue_run 3 demo_ops [].
Proof.
  apply (ring_refines_queue 3 65536 demo_ops); [lia|reflexivity|reflexivity|reflexivity|].
  eexists. vm_compute. reflexivity.
Defined.

(** Putting a block on any ring of the driver *)
Lemma enqueue_run N r b :
  (1 ≤ N)%nat → length (trbs r) = S N → r_link r = true → (r_i r ≤ N)%nat → below 64 (physical r) = true →
  block_ok b = true →
  ∃ i t r', enqueue (fill b) r = (Ok i, r') ∧ trbs r' !! i = Some t ∧ decode t = Some (b, r_cycle r') ∧
    (i < N)%nat ∧ physical r' = physical r ∧ length (trbs r') = length (trbs r) ∧ r_link r' = true ∧
    r_i r' = S i.
Proof.
  intros HN Hlen Hl Hi Hp Hb.
  assert (∃ i r1, next r = (Ok (i, r_cycle r1), r1) ∧ (i < N)%nat ∧ physical r1 = physical r ∧
    length (trbs r1) = S N ∧ r_link r1 = true ∧ r_i r1 = S i) as (i & r1 & Hn & Hi1 & Hp1 & Hl1 & Hk1 & Hx1).
  { destruct (decide (r_i r = N)) as [He|He].
    - destruct (lookup_lt_is_Some_2 (trbs r) N) as [t Ht]; [lia|].
      destruct (link_made (physical r) Hp (r_cycle r) t) as (t' & Hf & _).
      exists 0%nat, (mk_ring (r_link r) (<[N := t']> (trbs r)) (physical r) 1 (negb (r_cycle r))).
      rewrite (next_high N HN r t t') by done. cbn [r_cycle trbs physical r_link r_i].
      rewrite length_insert. split_and!; [done|lia|done..].
    - exists (r_i r), (set_i (S (r_i r)) r). rewrite (next_low N) by (done || lia). split_and!; [done|lia|done..]. }
  destruct (lookup_lt_is_Some_2 (trbs r1) i) as [t0 Ht0]; [lia|].
  destruct (fill_decodes b (r_cycle r1) t0 Hb) as (t & Hf & Hd).
  exists i, t, (set_trbs (<[i := t]> (trbs r1)) r1). split.
  - unfold enqueue, mbind, comp_bind. rewrite Hn. unfold mbind, comp_bind.
    by rewrite (on_trb_run i _ r1 t0 tt t) by done.
  - cbn. rewrite length_insert, list_lookup_insert_eq by lia. split_and!; try done. congruence.
Qed.

(** ** Addresses of entries *)

Lemma phys_index_roundtrip ac64 r i p :
  trb_phys_ptr ac64 i r = Ok p → phys_addr_to_index ac64 p r = Ok (Some i).
Proof.
  unfold trb_phys_ptr, phys_addr_to_index, trb_size. set (base := Z.land _ _).
  case_bool_decide as Hi; [done|]. case_bool_decide as Hp; [|done]. intros [= <-].
  rewrite bool_decide_eq_false_2 by lia.
  replace (base + 16 * Z.of_nat i - base) with (Z.of_nat i * 16) by lia.
  rewrite Z.mod_mul, Z.div_mul, bool_decide_eq_false_2, bool_decide_eq_false_2 by lia. by rewrite Nat2Z.id.
Qed.

Lemma phys_entry_roundtrip ac64 r i p t :
  trb_phys_ptr ac64 i r = Ok p → trbs r !! i = Some t → phys_addr_to_entry ac64 p r = Ok (Some (i, t)).
Proof. intros Hp Ht. unfold phys_addr_to_entry. by rewrite (phys_index_roundtrip ac64 r i p Hp), Ht. Qed.

(** The address just behind the ring passes the check of the bounds, and the access panics. *)
Lemma phys_addr_end_panics ac64 r p :
  trb_phys_ptr ac64 (length (trbs r)) r = Ok p → phys_addr_to_entry ac64 p r = Panic.
Proof.
  intros Hp. unfold phys_addr_to_entry. rewrite (phys_index_roundtrip ac64 r _ p Hp).
  by rewrite lookup_ge_None_2.
Qed.

(** ** The command ring after its first lap *)
Section Commands.
Context (N : nat) (HN : (2 ≤ N)%nat) (phys : Z) (Hphys : below 64 phys = true).
Context (b : Block) (Hb : block_ok b = true) (Hbl : not_link b = true).

Definition round (i : nat) : list RingOp := [Enqueue b; Fetch; Complete i].

(** In the first lap completed entries are as they were at the start. *)
Definition lap_one (k : nat) : Ring := mk_ring true (replicate (S N) zero_trb) phys k true.

Lemma reserved_zero t : reserved false t = (Ok tt, zero_trb).
Proof. done. Qed.

Lemma enqueue_low k : (k < N)%nat → ∃ t, decode t = Some (b, true) ∧
  enqueue (fill b) (lap_one k) = (Ok k, set_trbs (<[k := t]> (replicate (S N) zero_trb)) (lap_one (S k))).
Proof using HN Hb.
  intros Hk. destruct (fill_decodes b true zero_trb Hb) as (t & Hf & Hd). exists t. split; [done|].
  unfold enqueue, mbind, comp_bind. rewrite (next_low N) by (cbn [lap_one trbs r_i]; rewrite ?length_replicate; lia).
  cbn [lap_one r_i r_cycle]. unfold mbind, comp_bind.
  rewrite (on_trb_run k (fill b true) _ zero_trb tt t); [done| |done]. apply lookup_replicate_2. lia.
Qed.

Lemma round_run k ops : (k < N)%nat →
  ring_run (round k ++ ops) (lap_one k) (mk_consumer k true) =
  cons (Some b) <$> ring_run ops (lap_one (S k)) (mk_consumer (S k) true).
Proof using HN Hb Hbl.
  intros Hk. destruct (enqueue_low k Hk) as (t & Hd & He). cbn [round app ring_run]. rewrite He.
  assert (<[k := t]> (replicate (S N) zero_trb) !! k = Some t) as Hl
    by (apply list_lookup_insert_eq; rewrite length_replicate; lia).
  rewrite (fetch_at 1 _ (mk_consumer k true) t b) by done. cbn [deq ccs].
  rewrite (on_trb_run k (reserved false) _ t tt zero_trb) by done. cbn [trbs set_trbs].
  rewrite list_insert_insert_eq, list_insert_id by (apply lookup_replicate_2; lia).
  assert (set_trbs (replicate (S N) zero_trb) (set_trbs (<[k:=t]> (replicate (S N) zero_trb)) (lap_one (S k)))
    = lap_one (S k)) as -> by done.
  by destruct (ring_run ops _ _); cbn; rewrite ?Hd.
Qed.

Lemma rounds_run n k ops : (k + n ≤ N)%nat →
  ring_run (concat (round <$> seq k n) ++ ops) (lap_one k) (mk_consumer k true) =
  app (replicate n (Some b)) <$> ring_run ops (lap_one (k + n)) (mk_consumer (k + n) true).
Proof using HN Hb Hbl.
  revert k. induction n as [|n IH]; intros k Hk; cbn [seq fmap list_fmap concat replicate].
  - rewrite Nat.add_0_r. cbn [app]. by destruct (ring_run ops _ _).
  - rewrite <- app_assoc, round_run, IH, Nat.add_succ_r, Nat.add_succ_l by lia.
    by destruct (ring_run ops _ _).
Qed.

(** The second lap: the first command is fetched through the link, and then the controller
    runs through entries that it takes for its own. *)
Section SecondLap.
Context (l : list Trb) (t1 lk : Trb).
Context (Hlen : length l = S N) (Hl1 : l !! N = Some lk) (Hlk : cycle lk = true).
Context (Hz : ∀ j, (1 ≤ j < N)%nat → l !! j = Some zero_trb).

Lemma drain_run n i ops : (1 ≤ i)%nat → (i + n = N)%nat →
  ring_run (replicate n Fetch ++ ops) (mk_ring true l phys 1 false) (mk_consumer i false) =
  app (replicate n (Some BReserved)) <$> ring_run ops (mk_ring true l phys 1 false) (mk_consumer N false).
Proof using Hz.
  clear Hlen HN. revert i. induction n as [|n IH]; intros i Hi Hn; cbn [replicate app].
  - rewrite Nat.add_0_r in Hn. subst i. by destruct (ring_run ops _ _).
  - cbn [ring_run]. rewrite (fetch_at 1 _ (mk_consumer i false) zero_trb BReserved) by (done || (cbn [trbs deq]; apply Hz; lia)).
    cbn [deq ccs]. rewrite (IH (S i)) by lia. by destruct (ring_run ops _ _).
Qed.

Lemma stuck_run b2 : block_ok b2 = true →
  ring_run [Fetch; Enqueue b2; Fetch] (mk_ring true l phys 1 false) (mk_consumer N false) = Some [None; None].
Proof using HN Hlen Hl1 Hlk Hz.
  intros Hb2. destruct (fill_decodes b2 false zero_trb Hb2) as (t2 & Hf & _).
  cbn [ring_run fetch deq trbs]. rewrite Hl1, Hlk. cbn [Bool.eqb ccs].
  assert (enqueue (fill b2) (mk_ring true l phys 1 false) =
    (Ok 1%nat, mk_ring true (<[1%nat := t2]> l) phys 2 false)) as ->.
  { unfold enqueue, mbind, comp_bind. rewrite (next_low N) by (cbn [trbs r_i]; lia).
    cbn [r_i r_cycle]. unfold mbind, comp_bind.
    by rewrite (on_trb_run 1 (fill b2 false) _ zero_trb tt t2) by (done || (cbn [trbs deq]; apply Hz; lia)). }
  cbn [fetch trbs deq ccs]. rewrite list_lookup_insert_ne, Hl1 by lia. by rewrite Hlk.
Qed.
End SecondLap.
End Commands.

(** C30. The command ring does not survive its first lap.  A completed command is overwritten
    with a reserved block whose cycle bit is clear, and in the second lap a clear bit means
    that the block belongs to the controller: after [N] commands on a ring of [N] entries
    and a link have been completed, the next command is still fetched, but then the
    controller takes the remaining [N - 1] cleared entries for commands, ends up at the link
    with the cycle bit of the first lap, and a further command is not fetched at all. *)
Theorem command_ring_stalls N phys b b1 b2 :
  (2 ≤ N)%nat → below 64 phys = true → aligned16 phys = true →
  forallb (λ b, block_ok b && not_link b) [b; b1; b2] = true →
  let r := ring_new phys (S N) true in
  ring_run (concat (round b <$> seq 0 N) ++ [Enqueue b1; Fetch] ++ replicate (N - 1) Fetch ++
      [Fetch; Enqueue b2; Fetch]) r (attach r) =
  Some (replicate N (Some b) ++ [Some b1] ++ replicate (N - 1) (Some BReserved) ++ [None; None]).
Proof.
  intros HN Hphys Ha Hbs r. cbn [forallb] in Hbs. rewrite !andb_true_iff in Hbs.
  destruct Hbs as ([Hb Hbl] & [Hb1 Hbl1] & [Hb2 _] & _).
  unfold r. rewrite attach_new by done. change (ring_new phys (S N) true) with (lap_one N phys 0).
  rewrite (rounds_run N HN phys b Hb Hbl) by lia. rewrite Nat.add_0_l.
  destruct (link_made phys Hphys true zero_trb) as (lk & Hlk & [Hld Hlc]).
  destruct (fill_decodes b1 false zero_trb Hb1) as (t1 & Hf & Hd).
  set (l := <[0%nat := t1]> (<[N := lk]> (replicate (S N) zero_trb))).
  assert (enqueue (fill b1) (lap_one N phys N) = (Ok 0%nat, mk_ring true l phys 1 false)) as He.
  { unfold enqueue, mbind, comp_bind.
    rewrite (next_high N ltac:(lia) (lap_one N phys N) zero_trb lk)
      by (done || (cbn [trbs lap_one]; (apply length_replicate || (apply lookup_replicate_2; lia)))).
    unfold mbind, comp_bind. cbn [lap_one r_cycle negb trbs physical r_link].
    rewrite (on_trb_run 0 (fill b1 false) _ zero_trb tt t1); [done| |done].
    cbn [trbs]. rewrite list_lookup_insert_ne by lia. apply lookup_replicate_2. lia. }
  assert (l !! 0%nat = Some t1) as H0
    by (apply list_lookup_insert_eq; rewrite length_insert, length_replicate; lia).
  assert (l !! N = Some lk) as HlN.
  { unfold l. rewrite list_lookup_insert_ne by lia. apply list_lookup_insert_eq. rewrite length_replicate. lia. }
  cbn [app ring_run]. rewrite He.
  rewrite (fetch_link phys 1 _ (mk_consumer N true) lk true) by done. cbn [negb].
  rewrite (fetch_at 0 _ (mk_consumer 0 false) t1 b1) by done. cbn [deq ccs].
  assert (∀ j, (1 ≤ j < N)%nat → l !! j = Some zero_trb) as Hz.
  { intros j Hj. unfold l. rewrite !list_lookup_insert_ne by lia. apply lookup_replicate_2. lia. }
  rewrite (drain_run N phys l Hz (N - 1) 1) by lia.
  rewrite (stuck_run N HN phys l lk) by (done || unfold l; rewrite ?length_insert, ?length_replicate; done).
  cbn. by rewrite Hd.
Qed.

Lemma command_ring_stalls_witness :
  let r := ring_new 65536 256 true in
  ring_run (concat (round BNoOpCmd <$> seq 0 255) ++ [Enqueue (BEnableSlot 0); Fetch] ++ replicate 254 Fetch ++
      [Fetch; Enqueue (BDisableSlot 1); Fetch]) r (attach r) =
  Some (replicate 255 (Some BNoOpCmd) ++ [Some (BEnableSlot 0)] ++ replicate 254 (Some BReserved) ++ [None; None]).
Proof.
  exact (command_ring_stalls 255 65536 BNoOpCmd (BEnableSlot 0) (BDisableSlot 1) ltac:(lia) eq_refl eq_refl eq_refl).
Defined.
