(* ===== verification/XhciReactor.v ===== *)
(** * The interrupt reactor of [xhcid]

    [drivers/usb/xhcid/src/xhci/irq_reactor.rs], and [execute_command] of [scheme.rs].  A
    future that waits for an event is an entry of a table: its message cell, which the
    reactor and the future share, its doorbell and whether it is finished.  A [State] that
    the future sends to the reactor names it by its number, which stands for the waker and
    the cell.  Registers that are only written are logs. *)

From S2P Require Import Prelude XhciPort XhciTrb XhciRing.

Record RingId := mk_ring_id { ri_port : PortId; ri_endpoint : Z; ri_stream : Z }.
Definition default_control_pipe (p : PortId) : RingId := mk_ring_id p 0 0.

Inductive StateKind :=
  | CommandCompletion (phys_ptr : Z)
  | Transfer (first_phys_ptr last_phys_ptr : Z) (ring_id : RingId)
  | Other (ty : TrbType).

Definition kind_trb_type (k : StateKind) : TrbType :=
  match k with CommandCompletion _ => TCommandCompletion | Transfer _ _ _ => TTransfer | Other ty => ty end.

Record State := mk_state { st_future : Z; st_kind : StateKind; is_isoch_or_vf : bool }.
Record NextEventTrb := mk_next_event { event_trb : Trb; src_trb : option Trb }.

(** [EventTrbFuture]; the number is the waker of the last poll *)
Record Future := mk_future {
  f_kind : StateKind;
  f_isoch : bool;
  f_doorbell : option (nat * Z);
  f_message : option NextEventTrb;
  f_finished : bool;
}.

Inductive RingOrStreams := ORing (r : Ring) | OStreams (rings : gmap Z Ring).

Record EndpointState := mk_endpoint { es_transfer : RingOrStreams; es_if : EndpIfState }.

Record PortState := mk_port_state {
  ps_slot : Z;
  ps_cfg_idx : option Z;
  ps_dev_desc : option DevDesc;
  ps_endpoints : gmap Z EndpointState;
}.

Record Hci := mk_hci {
  cmd : Ring;
  port_states : gmap PortId PortState;
  n_ports : Z;
  primary_event_ring : EventRing;
  event_trb_index : nat;
  irq_channel : list State;
  states : list State;
  futures : gmap Z Future;
  next_future : Z;
  woken : list Z;
  enumeration : list PortId;
  cleared_csc : list Z;
  erdp_writes : list Z;
  doorbells : list (nat * Z);
}.

Definition finish (st : State) (message : option NextEventTrb) : comp Hci unit :=
  modify (λ s, {| s with
    futures := alter (λ f, {| f with f_message := message |}) (st_future st) (futures s);
    woken := woken s ++ [st_future st] |}).

Section Reactor.
Context (ac64 : bool).

(** [Xhci::with_ring] and [Xhci::get_transfer_trb] *)
Definition with_ring (id : RingId) (s : Hci) : option Ring :=
  slot ← port_states s !! ri_port id;
  ep ← ps_endpoints slot !! ri_endpoint id;
  match es_transfer ep with
  | ORing r => Some r
  | OStreams rings => rings !! ri_stream id
  end.

Definition get_transfer_trb (paddr : Z) (id : RingId) : comp Hci (option Trb) :=
  s ← get;
  match with_ring id s with
  | Some r => e ← lift (phys_addr_to_entry ac64 paddr r); mret (snd <$> e)
  | None => mret None
  end.

Definition remove_state (i : nat) : comp Hci unit :=
  modify (λ s, {| s with states := delete i (states s) |}).

(** *** [acknowledge_failed_transfer_trbs] *)

Fixpoint failed_loop (turns index : nat) (trb : Trb) : comp Hci unit :=
  match turns with
  | O => panic
  | S turns =>
     s ← get;
     st ← expect (states s !! index);
     if negb (is_isoch_or_vf st) then
       if bool_decide (length (states s) ≤ S index)%nat then mret tt
       else failed_loop turns (S index) trb
     else
       remove_state index;;
       finish st (Some (mk_next_event trb None));;
       failed_loop turns index trb
  end.
Definition acknowledge_failed_transfer_trbs (trb : Trb) : comp Hci unit :=
  s ← get;
  failed_loop (S (length (states s))) 0 trb.

(** *** [acknowledge] *)

(** Whether the block at an address belongs to a transfer; the ring may have wrapped *)
Definition transfer_matches (first last ptr : Z) : bool :=
  if bool_decide (first ≤ last) then bool_decide (first ≤ ptr) && bool_decide (ptr ≤ last)
  else bool_decide (first ≤ ptr) || bool_decide (ptr ≤ last).

(** The command whose completion is reported: it is read and cleared *)
Definition take_command (ptr : Z) : comp Hci (option Trb) :=
  s ← get;
  e ← lift (phys_addr_to_entry ac64 ptr (cmd s));
  match e with
  | Some (i, t) =>
     zoom cmd (λ r s, {| s with cmd := r |}) (on_trb i (reserved false));;
     mret (Some t)
  | None => mret None
  end.

Inductive Verdict := Done | Again | Next.

Definition ack_command (ptr : Z) (index : nat) (st : State) (trb : Trb) : comp Hci Verdict :=
  if bool_decide (completion_trb_pointer trb = Some ptr) then
    remove_state index;;
    o ← take_command ptr;
    match o with
    | Some command_trb => finish st (Some (mk_next_event trb (Some command_trb)));; mret Done
    | None => mret Again
    end
  else mret Next.

Definition ack_dead (id : RingId) (index : nat) (st : State) (trb : Trb) : comp Hci Verdict :=
  s ← get;
  match with_ring id s with
  | None => remove_state index;; finish st (Some (mk_next_event trb None));; mret Again
  | Some _ => mret Next
  end.

Definition ack_transfer (first last : Z) (id : RingId) (index : nat) (st : State) (trb : Trb) :
    comp Hci Verdict :=
  if is_type TTransfer trb then
    match transfer_event_trb_pointer trb with
    | Some ptr =>
       if transfer_matches first last ptr then
         src ← get_transfer_trb ptr id;
         remove_state index;;
         finish st (Some (mk_next_event trb src));;
         mret Done
       else ack_dead id index st trb
    | None => acknowledge_failed_transfer_trbs trb;; mret Done
    end
  else ack_dead id index st trb.

Definition ack_state (index : nat) (st : State) (trb : Trb) : comp Hci Verdict :=
  match st_kind st with
  | CommandCompletion ptr =>
     if is_type TCommandCompletion trb then ack_command ptr index st trb else mret Next
  | Transfer first last id => ack_transfer first last id index st trb
  | Other ty =>
     if is_type ty trb then remove_state index;; finish st None;; mret Done else mret Next
  end.

(** Each turn passes a state or removes it. *)
Fixpoint acknowledge_loop (turns index : nat) (trb : Trb) : comp Hci unit :=
  s ← get;
  match states s !! index with
  | None => mret tt
  | Some st =>
     match turns with
     | O => panic
     | S turns =>
        v ← ack_state index st trb;
        match v with
        | Done => mret tt
        | Again => acknowledge_loop turns index trb
        | Next => acknowledge_loop turns (S index) trb
        end
     end
  end.
Definition acknowledge (trb : Trb) : comp Hci unit :=
  s ← get;
  acknowledge_loop (length (states s)) 0 trb.

(** *** One event *)

Definition handle_requests : comp Hci unit :=
  modify (λ s, {| s with states := states s ++ irq_channel s; irq_channel := [] |}).

Definition handle_port_status_change (trb : Trb) : comp Hci unit :=
  match port_status_change_port_id trb with
  | Some num =>
     let port_id := mk_port_id num 0 in
     modify (λ s, {| s with enumeration := enumeration s ++ [port_id] |});;
     i ← root_hub_port_index port_id;
     s ← get;
     if bool_decide (n_ports s ≤ i) then mret tt
     else modify (λ s, {| s with cleared_csc := cleared_csc s ++ [i] |})
  | None => mret tt
  end.

Definition update_erdp : comp Hci unit :=
  s ← get;
  let dequeue_pointer := Z.land (erdp (primary_event_ring s)) 0xFFFFFFFFFFFFFFFE in
  if bool_decide (Z.land dequeue_pointer 0xFFFFFFFFFFFFFFF0 = dequeue_pointer) then
    modify (λ s, {| s with erdp_writes := erdp_writes s ++ [dequeue_pointer] |})
  else panic.

Definition check_event_ring_full (t : Trb) : bool := is_type THostController t && is_code CEventRingFull t.

Definition on_event_ring {A} (m : comp Ring A) : comp Hci A :=
  zoom (λ s, e_ring (primary_event_ring s))
    (λ r s, {| s with primary_event_ring :=
      mk_event_ring (ste (primary_event_ring s)) (ste_physical (primary_event_ring s)) r |}) m.

Definition next_event_index : comp Hci unit :=
  i ← on_event_ring next_index;
  modify (λ s, {| s with event_trb_index := i |}).

(** One turn of the loops of [run_polling] and [run_with_irq_file]: whether there was an event
    and it was handled *)
Definition event_turn : comp Hci bool :=
  s ← get;
  t ← expect (trbs (e_ring (primary_event_ring s)) !! event_trb_index s);
  if is_code CInvalid t then mret false
  else if check_event_ring_full t then mret false
  else
    handle_requests;;
    (if is_type TPortStatusChange t then handle_port_status_change t else acknowledge t);;
    on_event_ring (on_trb (event_trb_index s) (reserved false));;
    update_erdp;;
    next_event_index;;
    mret true.

(** The inner loop of [run_with_irq_file], for as many events as there may be *)
Fixpoint event_loop (turns : nat) : comp Hci unit :=
  match turns with
  | O => mret tt
  | S turns => b ← event_turn; if b : bool then event_loop turns else mret tt
  end.

(** ** Futures *)

Definition new_future (k : StateKind) (isoch : bool) (doorbell : option (nat * Z)) : comp Hci Z :=
  s ← get;
  let f := next_future s in
  put {| s with futures := <[f := mk_future k isoch doorbell None false]> (futures s); next_future := f + 1 |};;
  mret f.

Definition poll (f : Z) : comp Hci (option NextEventTrb) :=
  s ← get;
  fut ← expect (futures s !! f);
  if f_finished fut then panic else
  match f_message fut with
  | Some message =>
     put {| s with futures := <[f := {| fut with f_message := None; f_finished := true |}]> (futures s) |};;
     mret (Some message)
  | None =>
     put {| s with
       irq_channel := irq_channel s ++ [mk_state f (f_kind fut) (f_isoch fut)];
       futures := <[f := {| fut with f_doorbell := None |}]> (futures s);
       doorbells := doorbells s ++ match f_doorbell fut with Some d => [d] | None => [] end |};;
     mret None
  end.

Definition next_transfer_event_trb (id : RingId) (r : Ring) (first last : nat) (doorbell : nat * Z) :
    comp Hci Z :=
  last_trb ← expect (trbs r !! last);
  if negb (is_transfer_trb last_trb) then panic else
  first_phys_ptr ← lift (trb_phys_ptr ac64 first r);
  last_phys_ptr ← lift (trb_phys_ptr ac64 last r);
  new_future (Transfer first_phys_ptr last_phys_ptr id) (is_type TIsoch last_trb) (Some doorbell).

Definition next_command_completion_event_trb (r : Ring) (i : nat) (doorbell : nat * Z) : comp Hci Z :=
  trb ← expect (trbs r !! i);
  phys_ptr ← lift (trb_phys_ptr ac64 i r);
  if negb (is_command_trb trb) then panic else
  new_future (CommandCompletion phys_ptr) false (Some doorbell).

Definition next_misc_event_trb (ty : TrbType) : comp Hci Z :=
  if existsb (λ t, type_u8 t =? type_u8 ty)
       [TPortStatusChange; TBandwidthRequest; TDoorbell; THostController; TDeviceNotification; TMfindexWrap]
  then new_future (Other ty) false None
  else panic.

(** [execute_command] up to the point where it waits: the command is on the ring and the
    future has been polled for the first time *)
Definition execute_command (f : bool → comp Trb unit) : comp Hci Z :=
  i ← zoom cmd (λ r s, {| s with cmd := r |}) (enqueue f);
  s ← get;
  fut ← next_command_completion_event_trb (cmd s) i (0%nat, 0);
  poll fut;;
  mret fut.

(** and from there on *)
Definition command_result (fut : Z) : comp Hci (option (Trb * Trb)) :=
  o ← poll fut;
  match o with
  | Some m =>
     command_trb ← expect (src_trb m);
     if is_type TCommandCompletion (event_trb m) then mret (Some (event_trb m, command_trb)) else panic
  | None => mret None
  end.
End Reactor.
