(* ===== verification/XhciReactorSpec.v ===== *)
(** * What the interrupt reactor of [xhcid] promises

    Every event wakes only futures that it belongs to, or whose ring is gone; no waiting
    future is lost or woken twice; and a command is answered with its own completion. *)

From S2P Require Import Prelude XhciPort XhciTrb XhciRing XhciReactor.

Definition done_with (d : State * option NextEventTrb) (m : gmap Z Future) : gmap Z Future :=
  alter (λ f, {| f with f_message := d.2 |}) (st_future d.1) m.

Definition same_entries (r r' : Ring) : Prop :=
  physical r' = physical r ∧ length (trbs r') = length (trbs r).

(** The futures of [done] were given their messages and woken, in that order, and all else
    is as it was, but for cleared commands. *)
Record finished_by (done : list (State * option NextEventTrb)) (s s' : Hci) : Prop := {
  fb_states : states s ≡ₚ done.*1 ++ states s';
  fb_order : states s' `sublist_of` states s;
  fb_futures : futures s' = foldl (λ m d, done_with d m) (futures s) done;
  fb_woken : woken s' = woken s ++ ((λ d, st_future d.1) <$> done);
  fb_cmd : same_entries (cmd s) (cmd s');
  fb_port_states : port_states s' = port_states s;
  fb_ring : primary_event_ring s' = primary_event_ring s;
  fb_index : event_trb_index s' = event_trb_index s;
  fb_channel : irq_channel s' = irq_channel s;
  fb_next : next_future s' = next_future s;
  fb_ports : n_ports s' = n_ports s;
}.

Lemma finished_by_nil s : finished_by [] s s.
Proof. split; try done. by rewrite app_nil_r. Qed.

Lemma finished_by_app d1 d2 s1 s2 s3 :
  finished_by d1 s1 s2 → finished_by d2 s2 s3 → finished_by (d1 ++ d2) s1 s3.
Proof.
  intros [A1 A2 A3 A4 [A5 A5'] A6 A7 A8 A9 A10 A11] [B1 B2 B3 B4 [B5 B5'] B6 B7 B8 B9 B10 B11].
  split; try congruence; try (split; congruence).
  - rewrite A1, B1, fmap_app. by rewrite app_assoc.
  - by etrans.
  - by rewrite B3, A3, foldl_app.
  - by rewrite B4, A4, fmap_app, app_assoc.
Qed.

(** One state taken out and finished *)
Definition took (i : nat) (st : State) (m : option NextEventTrb) (s : Hci) : Hci :=
  {| s with
     states := delete i (states s);
     futures := done_with (st, m) (futures s);
     woken := woken s ++ [st_future st] |}.

Lemma took_finished i st m s : states s !! i = Some st → finished_by [(st, m)] s (took i st m s).
Proof.
  intros Hi. split; try done; cbn.
  - by apply delete_Permutation.
  - apply sublist_delete.
Qed.

Section Acknowledge.
Context (ac64 : bool).

(** The commands that are waited for are entries of the command ring. *)
Definition entry_ok (r : Ring) (ptr : Z) : Prop := ∃ i t, phys_addr_to_entry ac64 ptr r = Ok (Some (i, t)).
Definition waiting_ok (s : Hci) : Prop := ∀ st ptr,
  st ∈ states s ++ irq_channel s → st_kind st = CommandCompletion ptr → entry_ok (cmd s) ptr.

(** What an event says is sound: a transfer event has a pointer, and that pointer does not
    point into the middle of an entry or behind the last one. *)
Definition event_ok (t : Trb) (s : Hci) : Prop :=
  is_type TTransfer t = true → ∃ ptr, transfer_event_trb_pointer t = Some ptr ∧
    ∀ id r, with_ring id s = Some r → ∃ o, phys_addr_to_entry ac64 ptr r = Ok o.

(** Why a future may be woken by an event, and with what message *)
Definition answers (t : Trb) (s : Hci) (d : State * option NextEventTrb) : Prop :=
  match st_kind d.1 with
  | CommandCompletion ptr =>
     is_type TCommandCompletion t = true ∧ completion_trb_pointer t = Some ptr ∧
     ∃ c, d.2 = Some (mk_next_event t (Some c))
  | Transfer first last id =>
     (is_type TTransfer t = true ∧
      ∃ ptr src, transfer_event_trb_pointer t = Some ptr ∧ transfer_matches first last ptr = true ∧
        d.2 = Some (mk_next_event t src)) ∨
     (with_ring id s = None ∧ d.2 = Some (mk_next_event t None))
  | Other ty => is_type ty t = true ∧ d.2 = None
  end.

Lemma same_entries_index r r' ptr :
  same_entries r r' → phys_addr_to_index ac64 ptr r' = phys_addr_to_index ac64 ptr r.
Proof. intros [Hp Hl]. unfold phys_addr_to_index. by rewrite Hp, Hl. Qed.

Lemma same_entries_ok r r' ptr : same_entries r r' → entry_ok r ptr → entry_ok r' ptr.
Proof.
  intros Hs (i & t & He). unfold entry_ok, phys_addr_to_entry in *.
  rewrite (same_entries_index r r') by done.
  destruct (phys_addr_to_index ac64 ptr r) as [[j|]|e|]; try done.
  destruct (trbs r !! j) as [t'|] eqn:Ht; [|done]. apply lookup_lt_Some in Ht.
  destruct Hs as [_ Hl]. rewrite <- Hl in Ht. apply lookup_lt_is_Some in Ht as [t2 Ht2].
  exists j, t2. by rewrite Ht2.
Qed.

Lemma finished_waiting done s s' : finished_by done s s' → waiting_ok s → waiting_ok s'.
Proof.
  intros Hf Hw st ptr Hst Hk. destruct Hf as [_ Ho _ _ Hc _ _ _ Hch _ _].
  apply (same_entries_ok (cmd s)); [done|]. apply (Hw st); [|done].
  rewrite Hch in Hst. apply elem_of_app in Hst as [Hst|Hst]; apply elem_of_app; [left|by right].
  by eapply elem_of_sublist.
Qed.

(** Reading and clearing a command *)
Lemma take_command_run ptr s i t :
  phys_addr_to_entry ac64 ptr (cmd s) = Ok (Some (i, t)) →
  take_command ac64 ptr s =
    (Ok (Some t), {| s with cmd := set_trbs (<[i := zero_trb]> (trbs (cmd s))) (cmd s) |}).
Proof.
  intros He. unfold take_command. rewrite bind_get. unfold mbind, comp_bind, lift at 1. rewrite He.
  assert (trbs (cmd s) !! i = Some t) as Hi.
  { unfold phys_addr_to_entry in He. repeat case_match; congruence. }
  unfold zoom. by rewrite (on_trb_run i (reserved false) (cmd s) t tt zero_trb) by done.
Qed.

Lemma finish_run i st m s :
  (remove_state i;; finish st m) s = (Ok tt, took i st m s).
Proof. done. Qed.

(** The cleared command ring has the same entries. *)
Lemma cleared_same r i : same_entries r (set_trbs (<[i := zero_trb]> (trbs r)) r).
Proof. split; [done|]. cbn. apply length_insert. Qed.

(** One state and one event: nothing, or the state is finished with the event *)
Lemma ack_state_spec i st t s :
  states s !! i = Some st → waiting_ok s → event_ok t s →
  ∃ v s', ack_state ac64 i st t s = (Ok v, s') ∧
    match v with
    | Next => s' = s
    | Again | Done => ∃ m, answers t s (st, m) ∧ finished_by [(st, m)] s s' ∧ states s' = delete i (states s)
    end.
Proof.
  intros Hi Hw He. unfold ack_state. destruct (st_kind st) as [ptr|first last id|ty] eqn:Hk.
  - destruct (is_type TCommandCompletion t) eqn:Ht; [|by exists Next, s].
    unfold ack_command. case_bool_decide as Hp; [|by exists Next, s].
    destruct (Hw st ptr) as (j & c & Hc); [apply elem_of_app; left; by eapply list_elem_of_lookup_2|done|].
    pose (m := Some (mk_next_event t (Some c))).
    exists Done, {| (took i st m s) with cmd := set_trbs (<[j := zero_trb]> (trbs (cmd s))) (cmd s) |}. split.
    + unfold remove_state. rewrite bind_modify. unfold mbind at 1, comp_bind at 1.
      rewrite (take_command_run ptr _ j c) by done. done.
    + exists m. split; [by unfold answers; cbn [fst snd]; rewrite Hk; eauto|]. split; [|done].
      destruct (took_finished i st m s Hi). split; try done. apply cleared_same.
  - unfold ack_transfer.
    assert (∃ v s', ack_dead id i st t s = (Ok v, s') ∧
      match v with
      | Next => s' = s
      | _ => ∃ m, answers t s (st, m) ∧ finished_by [(st, m)] s s' ∧ states s' = delete i (states s)
      end) as Hdead.
    { unfold ack_dead. rewrite bind_get. destruct (with_ring id s) eqn:Hr; [by exists Next, s|].
      exists Again, (took i st (Some (mk_next_event t None)) s). split; [reflexivity|].
      exists (Some (mk_next_event t None)). split; [|by split; [apply took_finished|]].
      unfold answers. cbn [fst snd]. rewrite Hk. by right. }
    destruct (is_type TTransfer t) eqn:Ht; [|done].
    destruct (He Ht) as (ptr & Hp & Hrings). rewrite Hp.
    destruct (transfer_matches first last ptr) eqn:Hm; [|done]. clear Hdead.
    assert (∃ src, get_transfer_trb ac64 ptr id s = (Ok src, s)) as [src Hsrc].
    { unfold get_transfer_trb. rewrite bind_get. destruct (with_ring id s) as [r|] eqn:Hr; [|by eexists].
      destruct (Hrings id r Hr) as [o Ho]. unfold mbind, comp_bind, lift. rewrite Ho. by eexists. }
    exists Done, (took i st (Some (mk_next_event t src)) s). split.
    + unfold mbind at 1, comp_bind at 1. by rewrite Hsrc.
    + exists (Some (mk_next_event t src)). split; [|by split; [apply took_finished|]].
      unfold answers. cbn [fst snd]. rewrite Hk. left. eauto 8.
  - destruct (is_type ty t) eqn:Ht; [|by exists Next, s].
    exists Done, (took i st None s). split; [done|]. exists None.
    split; [|by split; [apply took_finished|]]. unfold answers. cbn [fst snd]. by rewrite Hk.
Qed.

Lemma event_ok_same t s s' : port_states s' = port_states s → event_ok t s → event_ok t s'.
Proof.
  intros Hs He Ht. destruct (He Ht) as (ptr & Hp & Hr). exists ptr. split; [done|].
  intros id r Hw. apply (Hr id). unfold with_ring in *. by rewrite Hs in Hw.
Qed.
Lemma answers_same t s s' d : port_states s' = port_states s → answers t s' d → answers t s d.
Proof. intros Hs. unfold answers, with_ring. by rewrite Hs. Qed.

Lemma ack_loop_spec t turns i s :
  waiting_ok s → event_ok t s → (length (states s) ≤ turns + i)%nat →
  ∃ done s', acknowledge_loop ac64 turns i t s = (Ok tt, s') ∧
    finished_by done s s' ∧ Forall (answers t s) done.
Proof.
  revert i s. induction turns as [|turns IH]; intros i s Hw He Hn; cbn [acknowledge_loop]; rewrite bind_get.
  all: destruct (states s !! i) as [st|] eqn:Hi;
    [|exists [], s; split; [done|]; split; [apply finished_by_nil|done]].
  - apply lookup_lt_Some in Hi. lia.
  - destruct (ack_state_spec i st t s Hi Hw He) as (v & s1 & Ha & Hv).
    unfold mbind at 1, comp_bind at 1. rewrite Ha. destruct v.
    + destruct Hv as (m & Hans & Hf & Hs). exists [(st, m)], s1.
      split; [done|]. split; [done|]. by apply Forall_singleton.
    + destruct Hv as (m & Hans & Hf & Hs).
      destruct (IH i s1) as (done & s2 & Hl & Hf2 & Hd).
      { by eapply finished_waiting. }
      { by eapply event_ok_same; [apply Hf|]. }
      { rewrite Hs, length_delete by eauto. apply lookup_lt_Some in Hi. lia. }
      exists ((st, m) :: done), s2. split; [done|]. split.
      * by apply (finished_by_app [(st, m)] done s s1 s2).
      * constructor; [done|]. eapply Forall_impl; [done|]. intros d. apply answers_same, Hf.
    + subst s1. destruct (IH (S i) s Hw He ltac:(lia)) as (done & s2 & Hl & Hf2 & Hd). by exists done, s2.
Qed.

Lemma acknowledge_spec t s :
  waiting_ok s → event_ok t s →
  ∃ done s', acknowledge ac64 t s = (Ok tt, s') ∧ finished_by done s s' ∧ Forall (answers t s) done.
Proof. intros. unfold acknowledge. rewrite bind_get. apply ack_loop_spec; [done..|lia]. Qed.
End Acknowledge.

(** ** One event *)

(** The event ring: the entry to look at next is the one before the index of the ring. *)
Record ering_ok (s : Hci) : Prop := {
  er_link : r_link (e_ring (primary_event_ring s)) = false;
  er_cycle : r_cycle (e_ring (primary_event_ring s)) = false;
  er_aligned : physical (e_ring (primary_event_ring s)) `mod` 16 = 0;
  er_fits : 0 ≤ physical (e_ring (primary_event_ring s)) ≤
    u64_max - 16 * Z.of_nat (length (trbs (e_ring (primary_event_ring s))));
  er_index : (event_trb_index s < length (trbs (e_ring (primary_event_ring s))))%nat;
  er_next : r_i (e_ring (primary_event_ring s)) =
    (S (event_trb_index s) `mod` length (trbs (e_ring (primary_event_ring s))))%nat;
}.

Definition event_at (s : Hci) : option Trb := trbs (e_ring (primary_event_ring s)) !! event_trb_index s.

Lemma mask_aligned x : 0 ≤ x ≤ u64_max → x `mod` 16 = 0 → Z.land x 0xFFFFFFFFFFFFFFF0 = x.
Proof.
  unfold u64_max. intros Hx Hm. change 0xFFFFFFFFFFFFFFF0 with (Z.shiftl (Z.ones 60) 4).
  assert (x = Z.shiftl (x `div` 16) 4) as Hs.
  { rewrite Z.shiftl_mul_pow2 by lia. change (2 ^ 4) with 16. pose proof (Z.div_mod x 16). lia. }
  rewrite Hs at 1. rewrite <- Z.shiftl_land, Z.land_ones, Z.mod_small; [done| |lia].
  change (2 ^ 60) with 1152921504606846976. split; [apply Z.div_pos; lia|]. apply Z.div_lt_upper_bound; lia.
Qed.

Lemma mask_twice x :
  let p := Z.land (Z.land x 0xFFFFFFFFFFFFFFF0) 0xFFFFFFFFFFFFFFFE in
  Z.land p 0xFFFFFFFFFFFFFFF0 = p ∧ p = Z.land x 0xFFFFFFFFFFFFFFF0.
Proof. cbn. rewrite <- !Z.land_assoc. by split. Qed.

(** The next entry to look at, and where the ring stands then *)
Lemma event_ring_next r :
  r_link r = false → (r_i r < length (trbs r))%nat →
  next_index r = (Ok (r_i r), set_i (S (r_i r) `mod` length (trbs r))%nat r).
Proof.
  intros Hl Hi. unfold next_index, next_index_loop. rewrite bind_get, Hl. case_bool_decide as Hb.
  - assert (S (r_i r) = length (trbs r)) as -> by lia. by rewrite Nat.Div0.mod_same.
  - by rewrite Nat.mod_small by lia.
Qed.

(** What follows the handling of an event: its entry is cleared, the controller is told where
    the driver is, and the driver looks at the next entry. *)
Definition step_ring (s : Hci) : Hci :=
  let e := primary_event_ring s in
  let n := length (trbs (e_ring e)) in
  let i := (S (event_trb_index s) `mod` n)%nat in
  {| s with
     primary_event_ring := mk_event_ring (ste e) (ste_physical e)
       (set_i (S i `mod` n)%nat (set_trbs (<[event_trb_index s := zero_trb]> (trbs (e_ring e))) (e_ring e)));
     event_trb_index := i;
     erdp_writes := erdp_writes s ++ [physical (e_ring e) + 16 * Z.of_nat i] |}.

Lemma step_ring_run s t :
  ering_ok s → event_at s = Some t →
  (on_event_ring (on_trb (event_trb_index s) (reserved false));; update_erdp;; next_event_index;; mret true) s
    = (Ok true, step_ring s).
Proof.
  intros [Hl Hc Ha Hf Hi Hn] Ht. unfold mbind at 1, comp_bind at 1, on_event_ring at 1, zoom.
  rewrite (on_trb_run _ (reserved false) _ t tt zero_trb) by done.
  unfold update_erdp. unfold mbind at 1, comp_bind at 1. rewrite bind_get.
  unfold erdp. cbn [primary_event_ring e_ring set_trbs].
  destruct (mask_twice (register (set_trbs (<[event_trb_index s:=zero_trb]> (trbs (e_ring (primary_event_ring s))))
    (e_ring (primary_event_ring s))))) as [Hm1 Hm2].
  rewrite bool_decide_eq_true_2 by exact Hm1. rewrite Hm2.
  assert (S (event_trb_index s) `mod` length (trbs (e_ring (primary_event_ring s))) <
    length (trbs (e_ring (primary_event_ring s))))%nat as Hlt by (apply Nat.mod_upper_bound; lia).
  assert (Z.land (register (set_trbs (<[event_trb_index s:=zero_trb]> (trbs (e_ring (primary_event_ring s))))
    (e_ring (primary_event_ring s)))) 0xFFFFFFFFFFFFFFF0 = physical (e_ring (primary_event_ring s)) +
      16 * Z.of_nat (S (event_trb_index s) `mod` length (trbs (e_ring (primary_event_ring s))))) as ->.
  { unfold register, trb_size. cbn [physical r_i r_cycle set_trbs]. rewrite Hc, Hn. cbn [u32_of Z.b2z].
    rewrite Z.lor_0_r. apply mask_aligned; [lia|]. by rewrite (Z.mul_comm 16), Z_mod_plus_full. }
  unfold modify, next_event_index, mbind, comp_bind, on_event_ring, zoom. cbn [primary_event_ring e_ring].
  rewrite event_ring_next by (cbn; rewrite ?length_insert, ?Hn; done).
  unfold step_ring. cbn. rewrite length_insert, Hn. done.
Qed.

(** The requests taken in *)
Definition requested (s : Hci) : Hci := {| s with states := states s ++ irq_channel s; irq_channel := [] |}.

Lemma requested_waiting ac64 s : waiting_ok ac64 s → waiting_ok ac64 (requested s).
Proof. intros Hw st ptr. cbn. rewrite app_nil_r. apply Hw. Qed.

Lemma port_change_run t s :
  port_status_change_port_id t ≠ Some 0 →
  ∃ s', handle_port_status_change t s = (Ok tt, s') ∧ finished_by [] s s' ∧
    enumeration s' = enumeration s ++
      match port_status_change_port_id t with Some num => [mk_port_id num 0] | None => [] end.
Proof.
  intros Hp. unfold handle_port_status_change. destruct (port_status_change_port_id t) as [num|].
  - unfold root_hub_port_index, mbind, comp_bind, modify, get. cbn [root_hub_port_num].
    rewrite bool_decide_eq_false_2 by congruence. unfold mret, comp_ret.
    case_bool_decide; eexists; (split; [reflexivity|]); (split; [|done]); split; try done; by rewrite app_nil_r.
  - exists s. rewrite app_nil_r. split; [done|]. split; [apply finished_by_nil|done].
Qed.

Lemma step_ring_ok s : ering_ok s → ering_ok (step_ring s).
Proof.
  intros [Hl Hc Ha Hf Hi Hn]. split; cbn; rewrite ?length_insert; try done.
  apply Nat.mod_upper_bound. lia.
Qed.

(** What the reactor does with an event *)
Definition dispatch (ac64 : bool) (t : Trb) : comp Hci unit :=
  if is_type TPortStatusChange t then handle_port_status_change t else acknowledge ac64 t.

Lemma event_turn_run ac64 s t s1 :
  ering_ok s → event_at s = Some t → is_code CInvalid t = false → check_event_ring_full t = false →
  dispatch ac64 t (requested s) = (Ok tt, s1) →
  primary_event_ring s1 = primary_event_ring s → event_trb_index s1 = event_trb_index s →
  event_turn ac64 s = (Ok true, step_ring s1).
Proof.
  intros Hr Ht Hc Hfull Hd He Hx. unfold event_turn. rewrite bind_get. unfold event_at in Ht.
  rewrite Ht. unfold expect. rewrite bind_ret, Hc, Hfull.
  unfold handle_requests. rewrite bind_modify. fold (requested s). unfold mbind at 1, comp_bind at 1.
  change (if is_type TPortStatusChange t then handle_port_status_change t else acknowledge ac64 t)
    with (dispatch ac64 t). rewrite Hd, <- Hx.
  apply (step_ring_run s1 t); [|unfold event_at; by rewrite He, Hx].
  destruct Hr. split; by rewrite ?He, ?Hx.
Qed.


(** ** A command and its completion *)
Section Command.
Context (ac64 : bool).

(** Whether a waiting future takes the completion of the command at [p] *)
Definition claims (p : Z) (st : State) : Prop :=
  match st_kind st with
  | CommandCompletion q => q = p
  | Other ty => ty = TCommandCompletion
  | Transfer _ _ _ => False
  end.

Definition completion_of (p : Z) (e : Trb) : Prop :=
  is_type TCommandCompletion e = true ∧ completion_trb_pointer e = Some p.

Lemma type_injective ty1 ty2 t : is_type ty1 t = true → is_type ty2 t = true → ty1 = ty2.
Proof.
  unfold is_type. rewrite !Z.eqb_eq. intros -> He. by destruct ty1, ty2.
Qed.

(** A state that does not claim the completion is passed, or its ring is gone. *)
Lemma ack_passed p e i st s :
  completion_of p e → states s !! i = Some st → ¬ claims p st →
  ∃ v s', ack_state ac64 i st e s = (Ok v, s') ∧
    ((v = Next ∧ s' = s) ∨ (v = Again ∧ s' = took i st (Some (mk_next_event e None)) s)).
Proof.
  intros [Ht Hp] Hi Hn. unfold ack_state, claims in *. destruct (st_kind st) as [q|first last id|ty] eqn:Hk.
  - rewrite Ht. unfold ack_command. rewrite bool_decide_eq_false_2 by congruence. eauto 6.
  - unfold ack_transfer. destruct (is_type TTransfer e) eqn:Htr.
    { by pose proof (type_injective _ _ _ Ht Htr). }
    unfold ack_dead. rewrite bind_get. destruct (with_ring id s); [by eauto 6|].
    do 2 eexists. split; [reflexivity|]. by right.
  - destruct (is_type ty e) eqn:Hty; [|by eauto 6]. by pose proof (type_injective _ _ _ Ht Hty).
Qed.

Lemma ack_loop_command p e st c j turns kept pre post s :
  completion_of p e → phys_addr_to_entry ac64 p (cmd s) = Ok (Some (j, c)) →
  states s = kept ++ pre ++ st :: post → st_kind st = CommandCompletion p → Forall (λ st, ¬ claims p st) pre →
  (length pre < turns)%nat →
  ∃ ds s', acknowledge_loop ac64 turns (length kept) e s = (Ok tt, s') ∧
    finished_by (ds ++ [(st, Some (mk_next_event e (Some c)))]) s s' ∧ Forall (λ d, d.1 ∈ pre) ds.
Proof.
  intros He Hc. revert kept s Hc turns. induction pre as [|st1 pre IH]; intros kept s Hc [|turns] Hs Hk Hpre Hlt;
    cbn [length app] in *; try lia; cbn [acknowledge_loop]; rewrite bind_get, Hs.
  - rewrite list_lookup_middle by done. exists [].
    exists (let s1 := took (length kept) st (Some (mk_next_event e (Some c))) s in
      {| s1 with cmd := set_trbs (<[j := zero_trb]> (trbs (cmd s))) (cmd s) |}).
    destruct He as [Ht Hp]. split; [|split; [|done]].
    + unfold mbind at 1, comp_bind at 1. unfold ack_state, ack_command. rewrite Hk, Ht.
      rewrite bool_decide_eq_true_2 by done. unfold remove_state. rewrite bind_modify.
      unfold mbind at 1, comp_bind at 1. by rewrite (take_command_run ac64 p _ j c) by done.
    + cbn [app]. destruct (took_finished (length kept) st (Some (mk_next_event e (Some c))) s)
        as [F1 F2 F3 F4 F5 F6 F7 F8 F9 F10 F11]; [by rewrite Hs, list_lookup_middle|].
      split; try done. apply cleared_same.
  - inversion Hpre as [|?? Hn Hpre']; subst. rewrite list_lookup_middle by done.
    destruct (ack_passed p e (length kept) st1 s He) as (v & s1 & Ha & [[-> ->]|[-> ->]]); [|done|..].
    { by rewrite Hs, list_lookup_middle. }
    + destruct (IH (kept ++ [st1]) s Hc turns) as (ds & s' & Hl & Hf & Hd); [|done..|lia|].
      { by rewrite Hs, <- app_assoc. }
      exists ds, s'. split; [|split; [done|]].
      * unfold mbind at 1, comp_bind at 1. rewrite Ha. rewrite length_app, Nat.add_1_r in Hl. exact Hl.
      * eapply Forall_impl; [done|]. intros d Hin. by right.
    + set (m := Some (mk_next_event e None)) in *. set (s1 := took (length kept) st1 m s) in *.
      assert (states s !! length kept = Some st1) as Hl1 by by rewrite Hs, list_lookup_middle.
      destruct (IH kept s1 Hc turns) as (ds & s' & Hl & Hf & Hd); [|done..|lia|].
      { cbn. by rewrite Hs, delete_middle. }
      exists ((st1, m) :: ds), s'. split; [|split].
      * unfold mbind at 1, comp_bind at 1. by rewrite Ha.
      * apply (finished_by_app [(st1, m)] _ s s1 s'); [by apply took_finished|done].
      * constructor; [by left|]. eapply Forall_impl; [done|]. intros d Hin. by right.
Qed.

Lemma done_other f ds (m : gmap Z Future) :
  Forall (λ d, st_future d.1 ≠ f) ds → foldl (λ m d, done_with d m) m ds !! f = m !! f.
Proof.
  revert m. induction ds as [|d ds IH]; intros m Hd; [done|]. inversion Hd; subst. cbn.
  rewrite IH by done. unfold done_with. by rewrite lookup_alter_ne.
Qed.

(** The command [b] is in the entry at [p] and the future [f] waits for its completion, as
    the only one. *)
Record pending (f p : Z) (b : Block) (s : Hci) : Prop := {
  pd_wait : ∃ pre post, states s ++ irq_channel s = pre ++ mk_state f (CommandCompletion p) false :: post ∧
    Forall (λ st, st_future st ≠ f ∧ ¬ claims p st) pre;
  pd_future : ∃ fut, futures s !! f = Some fut ∧ f_message fut = None ∧ f_finished fut = false;
  pd_entry : ∃ i t c, phys_addr_to_entry ac64 p (cmd s) = Ok (Some (i, t)) ∧ decode t = Some (b, c);
}.

Lemma completion_delivered f p b s e :
  pending f p b s → ering_ok s → event_at s = Some e → completion_of p e → is_code CInvalid e = false →
  ∃ s1 s2 t c, event_turn ac64 s = (Ok true, s1) ∧
    command_result f s1 = (Ok (Some (e, t)), s2) ∧ decode t = Some (b, c).
Proof.
  intros [(pre & post & Hs & Hpre) (fut & Hfut & Hm & Hfin) (i & t & c & He & Hd)] Hr Hev Hc Hinv.
  set (st := mk_state f (CommandCompletion p) false) in *.
  destruct (ack_loop_command p e st t i (length (states (requested s))) [] pre post (requested s))
    as (ds & s1 & Ha & Hf & Hds); try done.
  { eapply Forall_impl; [done|]. by intros ? [_ ?]. }
  { cbn. rewrite Hs, length_app. cbn. lia. }
  assert (is_type TPortStatusChange e = false) as Hpsc.
  { destruct (is_type TPortStatusChange e) eqn:Hx; [|done]. by pose proof (type_injective _ _ _ (proj1 Hc) Hx). }
  assert (check_event_ring_full e = false) as Hfull.
  { unfold check_event_ring_full. destruct (is_type THostController e) eqn:Hx; [|done].
    by pose proof (type_injective _ _ _ (proj1 Hc) Hx). }
  assert (event_turn ac64 s = (Ok true, step_ring s1)) as Het.
  { apply (event_turn_run ac64 s e s1); try done; [|apply Hf..].
    unfold dispatch. rewrite Hpsc. unfold acknowledge. by rewrite bind_get. }
  assert (futures s1 !! f = Some {| fut with f_message := Some (mk_next_event e (Some t)) |}) as Hres.
  { rewrite (fb_futures _ _ _ Hf), foldl_app. cbn [foldl]. unfold done_with at 1. cbn [fst snd st_future].
    rewrite lookup_alter_eq, done_other; [by cbn; rewrite Hfut|].
    rewrite Forall_forall in Hpre. rewrite Forall_forall in Hds. apply Forall_forall. intros d Hin. by apply Hpre, Hds. }
  exists (step_ring s1). eexists. exists t, c. split; [done|]. split; [|done].
  unfold command_result, poll. unfold mbind at 1, comp_bind at 1. rewrite bind_get.
  cbn [futures step_ring]. rewrite Hres. unfold expect. rewrite bind_ret. cbn [f_finished f_message].
  rewrite Hfin. unfold put. unfold mbind at 1, comp_bind at 1. unfold mret, comp_ret.
  cbn [src_trb event_trb]. destruct Hc as [-> _]. reflexivity.
Qed.

(** The command ring as the driver makes it and leaves it *)
Record cmd_ok (s : Hci) : Prop := {
  cmd_link : r_link (cmd s) = true;
  cmd_len : (2 ≤ length (trbs (cmd s)))%nat;
  cmd_i : (r_i (cmd s) < length (trbs (cmd s)))%nat;
  cmd_below : below 64 (physical (cmd s)) = true;
  cmd_fits : Z.land (physical (cmd s)) (address_mask ac64) + 16 * Z.of_nat (length (trbs (cmd s))) ≤ u64_max;
}.

Definition fresh (s : Hci) : Prop := Forall (λ st, st_future st ≠ next_future s) (states s ++ irq_channel s).

Lemma next_command_run r i t p d s :
  trbs r !! i = Some t → trb_phys_ptr ac64 i r = Ok p → is_command_trb t = true →
  next_command_completion_event_trb ac64 r i d s =
    (Ok (next_future s), {| s with
       futures := <[next_future s := mk_future (CommandCompletion p) false (Some d) None false]> (futures s);
       next_future := next_future s + 1 |}).
Proof.
  intros Ht Hp Hc. unfold next_command_completion_event_trb, mbind, comp_bind. rewrite Ht.
  cbn -[is_command_trb]. rewrite Hp. cbn -[is_command_trb]. by rewrite Hc.
Qed.

Lemma first_poll f k isoch d s :
  futures s !! f = Some (mk_future k isoch (Some d) None false) →
  poll f s = (Ok None, {| s with
    irq_channel := irq_channel s ++ [mk_state f k isoch];
    futures := <[f := mk_future k isoch None None false]> (futures s);
    doorbells := doorbells s ++ [d] |}).
Proof. intros Hf. unfold poll, mbind, comp_bind, get. cbn. by rewrite Hf. Qed.

Lemma execute_command_run b s :
  cmd_ok s → fresh s → block_ok b = true → is_command b = true →
  ∃ f p s1, execute_command ac64 (fill b) s = (Ok f, s1) ∧ doorbells s1 = doorbells s ++ [(0%nat, 0)] ∧
    states s1 = states s ∧ (Forall (λ st, ¬ claims p st) (states s ++ irq_channel s) → pending f p b s1).
Proof.
  intros [Hl Hlen Hi Hb Hfit] Hfr Hok Hcmd. set (N := pred (length (trbs (cmd s)))).
  destruct (enqueue_run N (cmd s) b) as (i & t & r' & He & Ht & Hd & Hlt & Hp' & Hlen' & _);
    try done; try (unfold N; lia).
  assert (trb_phys_ptr ac64 i r' = Ok (Z.land (physical r') (address_mask ac64) + 16 * Z.of_nat i)) as Hptr.
  { unfold trb_phys_ptr, trb_size. rewrite Hlen', Hp', bool_decide_eq_false_2, bool_decide_eq_true_2; [done|lia|].
    unfold N in Hlt. lia. }
  set (p := Z.land (physical r') (address_mask ac64) + 16 * Z.of_nat i) in *.
  destruct (decode_class t b _ Hd) as [Hct _]. rewrite Hcmd in Hct.
  exists (next_future s), p. eexists. split; [|split; [|split]].
  - unfold execute_command. unfold mbind at 1, comp_bind at 1, zoom. rewrite He. rewrite bind_get. cbn [cmd].
    unfold mbind at 1, comp_bind at 1. rewrite (next_command_run r' i t p) by done.
    unfold mbind at 1, comp_bind at 1. rewrite (first_poll _ (CommandCompletion p) false (0%nat, 0))
      by (cbn; by rewrite lookup_insert_eq).
    cbn. rewrite insert_insert_eq. reflexivity.
  - reflexivity.
  - reflexivity.
  - intros Hcl. split; cbn [states irq_channel futures cmd].
    + exists (states s ++ irq_channel s), []. rewrite app_assoc. split; [done|].
      apply Forall_and. by split.
    + eexists. rewrite lookup_insert_eq. by split.
    + exists i, t, (r_cycle r'). split; [|done]. by apply phys_entry_roundtrip.
Qed.

End Command.


(** ** What goes wrong *)

(** An event that says that the event ring is full is never taken from the ring. *)
Lemma event_ring_full_stays ac64 s t :
  event_at s = Some t → is_code CInvalid t = false → check_event_ring_full t = true →
  event_turn ac64 s = (Ok false, s).
Proof.
  unfold event_at, event_turn. rewrite bind_get. intros -> Hc Hf. cbn -[is_code check_event_ring_full].
  unfold mbind, comp_bind, mret, comp_ret. by rewrite Hc, Hf.
Qed.

(** An overrun or underrun is passed to the isochronous transfers; when the last future that
    waits is one of them, the loop runs past the end and panics. *)
Lemma failed_loop_panics t turns i s :
  (length (states s) - i < turns)%nat → (i ≤ length (states s))%nat →
  (∀ st, (i < length (states s))%nat → list.last (states s) = Some st → is_isoch_or_vf st = true) →
  (failed_loop turns i t s).1 = Panic.
Proof.
  revert i s. induction turns as [|turns IH]; intros i s Ht Hi Hl; [lia|].
  cbn [failed_loop]. rewrite bind_get. destruct (states s !! i) as [st|] eqn:Hst; [|done].
  unfold expect. rewrite bind_ret. apply lookup_lt_Some in Hst as Hlt.
  destruct (is_isoch_or_vf st) eqn:Hiso; cbn [negb].
  - unfold remove_state, finish. rewrite !bind_modify. apply IH; cbn [states].
    + rewrite length_delete by eauto. lia.
    + rewrite length_delete by eauto. lia.
    + intros st' Hi' Hl'. rewrite length_delete in Hi' by eauto. apply (Hl st'); [done|].
      rewrite last_lookup in Hl' |- *. rewrite length_delete in Hl' by eauto.
      rewrite list_lookup_delete_ge in Hl' by lia. by replace (S (pred (length (states s) - 1))) with
        (pred (length (states s))) in Hl' by lia.
  - case_bool_decide as Hend; [|by apply IH; [lia|lia|auto]].
    exfalso. rewrite (Hl st) in Hiso; [done|lia|]. rewrite last_lookup.
    by replace (pred (length (states s))) with i by lia.
Qed.

Lemma failed_transfer_panics t s st :
  list.last (states s) = Some st → is_isoch_or_vf st = true →
  (acknowledge_failed_transfer_trbs t s).1 = Panic.
Proof.
  intros Hl Hi. unfold acknowledge_failed_transfer_trbs. rewrite bind_get.
  apply failed_loop_panics; [lia..|]. intros st' _ Hl'. congruence.
Qed.

(** A transfer whose blocks wrap around the end of its ring claims the events of every ring
    that lies behind it, and its future is given an event without a source. *)
Lemma wrapped_transfer_steals ac64 st rest first last id r ptr t s :
  states s = st :: rest → st_kind st = Transfer first last id → last < first → first ≤ ptr →
  is_type TTransfer t = true → transfer_event_trb_pointer t = Some ptr →
  with_ring id s = Some r → phys_addr_to_entry ac64 ptr r = Ok None →
  acknowledge ac64 t s = (Ok tt, took 0 st (Some (mk_next_event t None)) s).
Proof.
  intros Hs Hk Hlf Hfp Ht Hp Hr He. unfold acknowledge. rewrite bind_get, Hs.
  cbn [length acknowledge_loop]. rewrite bind_get, Hs. cbn [lookup list_lookup].
  unfold mbind at 1, comp_bind at 1. unfold ack_state, ack_transfer. rewrite Hk, Ht, Hp.
  unfold transfer_matches. rewrite bool_decide_eq_false_2, (bool_decide_eq_true_2 (first ≤ ptr)) by lia.
  cbn [orb]. unfold mbind at 1, comp_bind at 1, get_transfer_trb. rewrite bind_get, Hr.
  unfold mbind at 1, comp_bind at 1, lift. by rewrite He.
Qed.

(** ** Examples *)

Definition demo_hci : Hci :=
  mk_hci (ring_new 4096 4 true) ∅ 1
    (mk_event_ring [] 0 (mk_ring false (replicate 4 zero_trb) 8192 1 false)) 0 [] [] ∅ 0 [] [] [] [] [].
Definition demo_completion : Trb := mk_trb 4096 0 (Z.shiftl 1 24) (Z.shiftl 33 10).
Definition demo_waiting : Hci :=
  let s := (execute_command true (fill (BEnableSlot 0)) demo_hci).2 in
  {| s with primary_event_ring :=
       mk_event_ring [] 0 (mk_ring false (<[0%nat := demo_completion]> (replicate 4 zero_trb)) 8192 1 false) |}.


