(* ===== verification/XhciEndpoint.v ===== *)
(** * Transfers and the files of an endpoint in [xhcid]

    [drivers/usb/xhcid/src/xhci/scheme.rs]: control transfers, transfers on an endpoint, and
    the two files of an endpoint, [ctl] and [data], through which a driver starts transfers
    and learns how they ended.  A guard of the table of ports is held until the end of its
    scope; taking a second one of the same port never returns, and is [Panic] here.  Waiting
    for a future lets the rest of the system run, [world], until the future is ready.  The
    requests and answers of the [ctl] file are JSON, read and written by [parse_req] and
    [show_res]. *)

From S2P Require Import Prelude XhciPort XhciTrb XhciRing XhciReactor.

(** A buffer that the controller can reach *)
Record Dma := mk_dma { dma_physical : Z; dma_bytes : bytes }.

Record Xhci := mk_xhci {
  hci : Hci;
  guards : gset PortId;
  contexts : list (list Z); (* for each slot the first words of its endpoint contexts *)
}.

Definition on_hci {A} (m : comp Hci A) : comp Xhci A := zoom hci (λ h s, {| s with hci := h |}) m.
Definition hci_gets {A} (f : Hci → A) : comp Xhci A := gets (λ s, f (hci s)).

(** [CHashMap::get] and [CHashMap::get_mut], for a guard that is dropped at once *)
Definition port_now (p : PortId) (e : errno) : comp Xhci PortState :=
  s ← get;
  if bool_decide (p ∈ guards s) then panic else ok_or e (port_states (hci s) !! p).

Definition release {A} (p : PortId) (m : comp Xhci A) : comp Xhci A := λ s,
  let '(r, s') := m s in (r, {| s' with guards := guards s' ∖ {[ p ]} |}).

(** The same for a guard that is held while [m] runs *)
Definition with_port {A} (p : PortId) (e : errno) (m : PortState → comp Xhci A) : comp Xhci A :=
  port ← port_now p e;
  modify (λ s, {| s with guards := {[ p ]} ∪ guards s |});;
  release p (m port).

(** Writing through a guard *)
Definition set_port (p : PortId) (f : PortState → PortState) : comp Xhci unit :=
  on_hci (modify (λ h, {| h with port_states := alter f p (port_states h) |})).
Definition set_endpoint (p : PortId) (n : Z) (f : EndpointState → EndpointState) : comp Xhci unit :=
  set_port p (λ st, {| st with ps_endpoints := alter f n (ps_endpoints st) |}).

Definition set_ring (id : RingId) (r : Ring) : comp Xhci unit :=
  set_endpoint (ri_port id) (ri_endpoint id) (λ e, {| e with es_transfer :=
    match es_transfer e with
    | ORing _ => ORing r
    | OStreams rings => OStreams (<[ri_stream id := r]> rings)
    end |}).

(** [PortState::get_endp_desc]: the endpoints of all interfaces are counted through *)
Definition get_endp_desc (endp_idx : Z) (st : PortState) : option EndpDesc :=
  cfg_idx ← ps_cfg_idx st;
  dev_desc ← ps_dev_desc st;
  config_desc ← head (filter (λ c, configuration_value c = cfg_idx) (config_descs dev_desc));
  concat (if_endpoints <$> interface_descs config_desc) !! Z.to_nat endp_idx.

Definition def_control_endp_doorbell : Z := 1.

Definition endp_num_to_dci {S} (endp_num : Z) (d : EndpDesc) : comp S Z :=
  if bool_decide (endp_num = 0) then panic else
  let dci := if is_control d || bool_decide (endp_direction d = DirIn) then endp_num * 2 + 1 else endp_num * 2 in
  if bool_decide (dci < 256) then mret dci else panic.

Definition endp_doorbell {S} (endp_num : Z) (d : EndpDesc) (stream_id : Z) : comp S Z :=
  db_target ← endp_num_to_dci endp_num d;
  mret (Z.lor (Z.shiftl stream_id 16) db_target).

(** [handle_event_trb] and [handle_transfer_event_trb] *)
Definition handle_event_trb {S} (event : Trb) : comp S unit :=
  if is_code CSuccess event then mret tt else fail EIO.
Definition handle_transfer_event_trb {S} (event : Trb) : comp S unit :=
  if is_code CSuccess event || is_code CShortPacket event then mret tt else fail EIO.

Section Driver.
Context (ac64 : bool) (world : Z → Hci → Hci).
Context (parse_req : bytes → option XhciEndpCtlReq) (show_res : XhciEndpCtlRes → bytes).

(** [.await] *)
Definition await (f : Z) : comp Xhci NextEventTrb :=
  on_hci (modify (world f));;
  o ← on_hci (poll f);
  expect o.

(** The first poll of a future registers it and rings its doorbell. *)
Definition start (f : Z) : comp Xhci unit :=
  on_hci (poll f);; mret tt.

Fixpoint enqueue_all (fs : list (bool → comp Trb unit)) : comp Ring (list nat) :=
  match fs with
  | [] => mret []
  | f :: fs =>
     i ← enqueue f;
     l ← enqueue_all fs;
     mret (i :: l)
  end.

(** ** Control transfers *)

(** The blocks that the closure [d] writes are the list [data_stage]. *)
Definition execute_control_transfer (port : PortId) (s : Setup) (tk : TransferKind)
    (data_stage : list (bool → comp Trb unit)) : comp Xhci Trb :=
  f ← with_port port EBADF (λ st,
    ep ← ok_or EIO (ps_endpoints st !! 0);
    ring ← match es_transfer ep with ORing r => mret r | OStreams _ => fail EIO end;
    let stage := if bool_decide (tk = KNoData) then [] else data_stage in
    let blocks := [setup s tk] ++ stage ++
      [status_stage 0 (negb (bool_decide (tk = KIn))) true false false] in
    let '(r, ring') := enqueue_all blocks ring in
    set_ring (default_control_pipe port) ring';;
    l ← lift r;
    first ← expect (head l);
    last ← expect (list.last l);
    on_hci (next_transfer_event_trb ac64 (default_control_pipe port) ring' first last
      (Z.to_nat (ps_slot st), def_control_endp_doorbell)));
  start f;;
  m ← await f;
  ok_or EIO (src_trb m);;
  handle_transfer_event_trb (event_trb m);;
  mret (event_trb m).

Definition device_req_no_data (port : PortId) (req : Setup) : comp Xhci unit :=
  execute_control_transfer port req KNoData [];; mret tt.
Definition set_configuration (port : PortId) (config : Z) : comp Xhci unit :=
  device_req_no_data port (setup_set_configuration config).
Definition set_interface (port : PortId) (interface_num alternate_setting : Z) : comp Xhci unit :=
  device_req_no_data port (setup_set_interface interface_num alternate_setting).

(** ** Transfers on an endpoint *)

Definition endpoint_ring (ep : EndpointState) (e : errno) : comp Xhci (bool * Ring) :=
  match es_transfer ep with
  | ORing r => mret (false, r)
  | OStreams rings => r ← ok_or e (rings !! 1); mret (true, r)
  end.

Definition execute_transfer (port : PortId) (endp_num stream_id : Z)
    (blocks : list (bool → comp Trb unit)) : comp Xhci Trb :=
  if bool_decide (endp_num = 0) then fail EIO else
  f ← with_port port EBADF (λ st,
    endp_desc ← ok_or EBADFD (get_endp_desc (endp_num - 1) st);
    doorbell_data_stream ← endp_doorbell endp_num endp_desc stream_id;
    doorbell_data_no_stream ← endp_doorbell endp_num endp_desc 0;
    ep ← ok_or EBADF (ps_endpoints st !! endp_num);
    '(has_streams, ring) ← endpoint_ring ep EBADF;
    let '(r, ring') := enqueue_all blocks ring in
    set_ring (mk_ring_id port endp_num 1) ring';;
    l ← lift r;
    last_index ← expect (list.last l);
    on_hci (next_transfer_event_trb ac64 (mk_ring_id port endp_num stream_id) ring' last_index last_index
      (Z.to_nat (ps_slot st), if has_streams : bool then doorbell_data_stream else doorbell_data_no_stream)));
  start f;;
  m ← await f;
  ok_or EIO (src_trb m);;
  handle_transfer_event_trb (event_trb m);;
  if negb (is_code CShortPacket (event_trb m)) && negb (bool_decide (transfer_length (event_trb m) = 0))
  then fail EIO
  else mret (event_trb m).

Definition max_transfer_size : Z := 65536.

(** [div_round_up] *)
Definition div_round_up (a b : Z) : Z := if bool_decide (a `mod` b ≠ 0) then a `div` b + 1 else a `div` b.

Definition estimated_td_size (len : Z) : Z :=
  let n := div_round_up len max_transfer_size * 16 in
  Z.min (if bool_decide (n < 256) then n else 0x1F) 0x1F.

(** The blocks of one transfer: as long as more bytes are left than one block can carry, each
    turn takes as many as it can. *)
Fixpoint transfer_blocks (turns : nat) (buffer : Z) (idt : bool) (td_size bytes_left : Z) : list Block :=
  match turns with
  | O => []
  | S turns =>
     let len := Z.min bytes_left max_transfer_size in
     let ioc := bool_decide (bytes_left ≤ max_transfer_size) in
     BNormal buffer len td_size 0 false true (negb ioc) ioc idt false ::
     (if bool_decide (bytes_left - len ≠ 0) then transfer_blocks turns buffer idt td_size (bytes_left - len) else [])
  end.

(** What the controller gets: small data for the device goes into the block itself *)
Definition immediate (dma_buf : option Dma) (d : EndpDesc) : Z * bool :=
  match dma_buf with
  | None => (0, false)
  | Some buf =>
     if bool_decide (length (dma_bytes buf) ≤ 8)%nat && bool_decide (8 ≤ ed_max_packet_size d)
        && negb (bool_decide (endp_direction d = DirIn))
     then (le_val (dma_bytes buf), true)
     else (dma_physical buf, false)
  end.

Definition dma_len (b : option Dma) : Z :=
  match b with Some b => Z.of_nat (length (dma_bytes b)) | None => 0 end.

(** The parameter [direction] is shadowed by the direction of the endpoint. *)
Definition transfer (port : PortId) (endp_idx : Z) (dma_buf : option Dma) : comp Xhci (Z * Z) :=
  let endp_num := endp_idx + 1 in
  blocks ← with_port port EBADFD (λ st,
    endp_desc ← ok_or EBADFD (get_endp_desc endp_idx st);
    if is_isoch endp_desc then fail ENOSYS else
    let '(buffer, idt) := immediate dma_buf endp_desc in
    let n := dma_len dma_buf in
    mret (transfer_blocks (S (Z.to_nat (n `div` max_transfer_size))) buffer idt (estimated_td_size n) n));
  event ← execute_transfer port endp_num 1 (fill <$> blocks);
  let residue := transfer_length event in
  match dma_buf with
  | Some _ =>
     if bool_decide (wrap_u32 (dma_len dma_buf) < residue) then panic
     else mret (completion_code event, wrap_u32 (dma_len dma_buf) - residue)
  | None => mret (completion_code event, 0)
  end.

(** The memory of a transfer comes from [alloc_dma], which may fail; what a device has written
    into it by the end is [device_bytes]. *)
Context (alloc_dma : nat → outcome Z) (device_bytes : Z → nat → Hci → bytes).

Definition transfer_read (port : PortId) (endp_idx : Z) (buf : bytes) : comp Xhci (Z * Z * bytes) :=
  match buf with [] => fail EINVAL | _ =>
    phys ← lift (alloc_dma (length buf));
    '(completion_code, bytes_transferred) ← transfer port endp_idx (Some (mk_dma phys (replicate (length buf) 0)));
    s ← get;
    mret (completion_code, bytes_transferred, take (length buf) (device_bytes phys (length buf) (hci s)))
  end.

Definition transfer_write (port : PortId) (endp_idx : Z) (sbuf : bytes) : comp Xhci (Z * Z) :=
  match sbuf with [] => fail EINVAL | _ =>
    phys ← lift (alloc_dma (length sbuf));
    transfer port endp_idx (Some (mk_dma phys sbuf))
  end.

(** ** Resetting an endpoint *)

Definition run_command (f : bool → comp Trb unit) : comp Xhci (Trb * Trb) :=
  fut ← on_hci (execute_command ac64 f);
  on_hci (modify (world fut));;
  o ← on_hci (command_result fut);
  expect o.

(** The descriptor as [get_endp_status] and [restart_endpoint] look for it: in the first
    interface of the first configuration *)
Definition first_endp_desc (st : PortState) (endp_num : Z) : comp Xhci EndpDesc :=
  dev_desc ← expect (ps_dev_desc st);
  config ← ok_or EIO (head (config_descs dev_desc));
  interface ← ok_or EIO (head (interface_descs config));
  if bool_decide (endp_num = 0) then panic
  else ok_or EBADFD (if_endpoints interface !! Z.to_nat (endp_num - 1)).

Definition get_endp_status (port : PortId) (endp_num : Z) : comp Xhci EndpointStatus :=
  st ← port_now port EBADFD;
  endp_desc ← first_endp_desc st endp_num;
  endp_num_xhc ← endp_num_to_dci endp_num endp_desc;
  s ← get;
  context ← ok_or EBADFD (contexts s !! Z.to_nat (ps_slot st));
  a ← expect (context !! Z.to_nat (endp_num_xhc - 1));
  match Z.land a 7 with
  | 0 => mret StDisabled
  | 1 => mret StEnabled
  | 2 => mret StHalted
  | 3 => mret StStopped
  | 4 => mret StError
  | _ => fail EIO
  end.

Definition reset_endpoint_cmd (port : PortId) (endp_num : Z) (tsp : bool) : comp Xhci unit :=
  if bool_decide (endp_num = 0) then fail EIO else
  st ← port_now port EBADFD;
  endp_desc ← ok_or EBADFD (get_endp_desc (endp_num - 1) st);
  endp_num_xhc ← endp_num_to_dci endp_num endp_desc;
  '(event, _) ← run_command (reset_endpoint (ps_slot st) endp_num_xhc tsp);
  handle_event_trb event.

Definition set_tr_deque_ptr_cmd (port : PortId) (endp_num deque_ptr_and_cycle : Z) : comp Xhci unit :=
  if bool_decide (endp_num = 0) then fail EIO else
  st ← port_now port EBADFD;
  endp_desc ← ok_or EBADFD (get_endp_desc (endp_num - 1) st);
  endp_num_xhc ← endp_num_to_dci endp_num endp_desc;
  '(event, _) ← run_command (λ c, set_tr_deque_ptr deque_ptr_and_cycle c PrimaryRing 1 endp_num_xhc (ps_slot st));
  handle_event_trb event.

Definition restart_endpoint (port : PortId) (endp_num : Z) : comp Xhci unit :=
  with_port port EBADFD (λ st,
    ep ← ok_or EBADFD (ps_endpoints st !! endp_num);
    '(has_streams, ring) ← endpoint_ring ep EBADFD;
    let '(r, ring') := enqueue (transfer_no_op 0 false false false) ring in
    set_ring (mk_ring_id port endp_num 1) ring';;
    lift r;;
    endp_desc ← first_endp_desc st endp_num;
    doorbell ← endp_doorbell endp_num endp_desc (if has_streams : bool then 1 else 0);
    on_hci (modify (λ h, {| h with doorbells := doorbells h ++ [(Z.to_nat (ps_slot st), doorbell)] |}));;
    set_tr_deque_ptr_cmd port endp_num (register ring')).

Definition on_req_reset_device (port : PortId) (endp_num : Z) (clear_feature : bool) : comp Xhci unit :=
  st ← get_endp_status port endp_num;
  if negb (bool_decide (st = StHalted)) then fail EPROTO else
  reset_endpoint_cmd port endp_num false;;
  restart_endpoint port endp_num;;
  if clear_feature then device_req_no_data port (mk_setup 2 1 0 0 0) else mret tt.

(** ** The files of an endpoint *)

Definition if_state (port : PortId) (endp_num : Z) (e : errno) : comp Xhci EndpIfState :=
  s ← get;
  st ← ok_or e (port_states (hci s) !! port);
  ep ← ok_or e (ps_endpoints st !! endp_num);
  mret (es_if ep).
Definition set_if (port : PortId) (endp_num : Z) (st : EndpIfState) : comp Xhci unit :=
  set_endpoint port endp_num (λ ep, {| ep with es_if := st |}).

Definition transfer_result (code bytes_transferred : Z) : PortTransferStatus :=
  mk_transfer_status
    (if code =? code_u8 CSuccess then KSuccess
     else if code =? code_u8 CShortPacket then KShortPacket
     else if code =? code_u8 CStall then KStalled else KUnknown) bytes_transferred.

Definition on_write_endp_ctl (port : PortId) (endp_num : Z) (buf : bytes) : comp Xhci Z :=
  with_port port EBADF (λ st,
    ep ← ok_or EBADF (ps_endpoints st !! endp_num);
    req ← ok_or EBADMSG (parse_req buf);
    match req, es_if ep with
    | ReqStatus, IfInit => set_if port endp_num WaitingForStatus
    | ReqReset no_clear_feature, IfInit => on_req_reset_device port endp_num (negb no_clear_feature)
    | ReqTransfer CtlNoData _, IfInit =>
       if bool_decide (endp_num = 0) then panic else
       '(code, bytes_transferred) ← transfer port (endp_num - 1) None;
       if bool_decide (0 < bytes_transferred) then fail EIO else
       port_now port EBADF;;
       set_if port endp_num (WaitingForTransferResult (transfer_result code 0))
    | ReqTransfer direction count, IfInit => set_if port endp_num (WaitingForDataPipe direction 0 count)
    | _, _ => fail EBADF
    end;;
    mret (Z.of_nat (length buf))).

(** The end of a transfer of [n] bytes that ended with [code], for the direction it was
    started with *)
Definition account (port : PortId) (endp_num : Z) (e : errno) (dir : XhciEndpCtlDirection) (code n : Z) : comp Xhci unit :=
  port_now port e;;
  st ← if_state port endp_num e;
  match st with
  | WaitingForDataPipe dir' bytes_transferred bytes_to_transfer =>
     if negb (bool_decide (dir' = dir)) then panic
     else if bool_decide (u32_max < bytes_transferred + n) then panic
     else if bool_decide (bytes_transferred + n = bytes_to_transfer) || negb (code =? code_u8 CSuccess)
     then set_if port endp_num (WaitingForTransferResult (transfer_result code n))
     else set_if port endp_num (WaitingForDataPipe dir' (bytes_transferred + n) bytes_to_transfer)
  | _ => panic
  end.

(** Whether the data file may be used for [n] bytes now *)
Definition data_allowed (port : PortId) (endp_num : Z) (e : errno) (dir : XhciEndpCtlDirection) (n : nat) :
    comp Xhci unit :=
  port_now port e;;
  st ← if_state port endp_num e;
  match st with
  | WaitingForDataPipe dir' bytes_transferred total =>
     if negb (bool_decide (dir' = dir)) then fail EBADF
     else if bool_decide (total < bytes_transferred) then panic
     else if bool_decide (total - bytes_transferred < Z.of_nat n) then fail EINVAL
     else mret tt
  | _ => fail EBADF
  end.

Definition on_write_endp_data (port : PortId) (endp_num : Z) (buf : bytes) : comp Xhci Z :=
  data_allowed port endp_num EBADFD CtlOut (length buf);;
  if bool_decide (endp_num = 0) then panic else
  '(code, n) ← transfer_write port (endp_num - 1) buf;
  account port endp_num EBADFD CtlOut code n;;
  mret n.

Definition on_read_endp_data (port : PortId) (endp_num : Z) (buf : bytes) : comp Xhci (Z * bytes) :=
  data_allowed port endp_num EBADF CtlIn (length buf);;
  if bool_decide (endp_num = 0) then panic else
  '(code, n, buf) ← transfer_read port (endp_num - 1) buf;
  account port endp_num EBADF CtlIn code n;;
  mret (n, buf).

Definition on_read_endp_ctl (port : PortId) (endp_num : Z) (buf : bytes) : comp Xhci (Z * bytes) :=
  with_port port EBADF (λ st,
    ep ← ok_or EBADF (ps_endpoints st !! endp_num);
    res ← match es_if ep with
          | IfInit => mret ResIdle
          | WaitingForStatus =>
             set_if port endp_num IfInit;;
             status ← get_endp_status port endp_num;
             mret (ResStatus status)
          | WaitingForDataPipe _ _ _ => mret ResPending
          | WaitingForTransferResult status =>
             set_if port endp_num IfInit;;
             mret (ResTransferResult status)
          end;
    let text := show_res res in
    if bool_decide (length buf < length text)%nat then fail EIO
    else mret (Z.of_nat (length text), copy_at buf 0 text)).

End Driver.
