(* ===== verification/XhciEndpointSpec.v ===== *)
(** * What the files of an endpoint promise

    A transfer that a driver asks for over the [ctl] and [data] files of an endpoint, with
    what happens when it fails; the blocks of one transfer; and the requests that never
    return. *)

From S2P Require Import Prelude XhciPort XhciTrb XhciRing XhciReactor XhciEndpoint.

(** ** The blocks of a transfer *)

Definition block_len (b : Block) : Z := match b with BNormal _ len _ _ _ _ _ _ _ _ => len | _ => 0 end.
Definition block_buffer (b : Block) : option Z :=
  match b with BNormal buffer _ _ _ _ _ _ _ _ _ => Some buffer | _ => None end.

(** Blocks that are chained but for the last, which interrupts *)
Fixpoint chained (l : list Block) : bool :=
  match l with
  | [] => false
  | [BNormal _ _ _ _ _ _ chain ioc _ _] => negb chain && ioc
  | BNormal _ _ _ _ _ _ chain ioc _ _ :: l => chain && negb ioc && chained l
  | _ => false
  end.

Lemma transfer_blocks_spec turns buffer idt td n :
  0 ≤ n → n `div` max_transfer_size < Z.of_nat turns → below 64 buffer = true → below 5 td = true →
  let l := transfer_blocks turns buffer idt td n in
  chained l = true ∧ foldr (λ b s, block_len b + s) 0 l = n ∧ forallb block_ok l = true ∧
  forallb (λ b, block_len b <=? max_transfer_size) l = true ∧
  Forall (λ b, block_buffer b = Some buffer) l.
Proof.
  unfold max_transfer_size. intros H0 Ht Hb Htd. revert n H0 Ht. induction turns as [|turns IH]; intros n H0 Ht.
  { assert (0 ≤ n `div` 65536) by (apply Z.div_pos; lia). lia. }
  cbn [transfer_blocks]. unfold max_transfer_size in *.
  destruct (decide (n ≤ 65536)) as [Hn|Hn].
  - rewrite (Z.min_l n 65536), (bool_decide_eq_true_2 (n ≤ 65536)), Z.sub_diag, bool_decide_eq_false_2 by lia.
    cbn [chained negb andb foldr block_len forallb]. split_and!; [done|lia| | |by repeat constructor].
    + assert (below 17 n = true) as Hn17 by (apply below_spec; change (2 ^ 17) with 131072; lia).
      cbn [block_ok]. by rewrite Hb, Htd, Hn17.
    + rewrite andb_true_r. apply Z.leb_le. lia.
  - rewrite (Z.min_r n 65536), (bool_decide_eq_false_2 (n ≤ 65536)), bool_decide_eq_true_2 by lia.
    destruct (IH (n - 65536)) as (H1 & H2 & H3 & H4 & H5); [lia| |].
    { replace n with (n - 65536 + 1 * 65536) in Ht by lia. rewrite Z.div_add in Ht by lia. lia. }
    assert (∃ b l, transfer_blocks turns buffer idt td (n - 65536) = b :: l) as (b & l & Hl).
    { destruct turns; cbn; [|eauto]. done. }
    rewrite Hl in *. split_and!.
    + cbn [negb chained andb] in *. done.
    + change (65536 + foldr (λ b s, block_len b + s) 0 (b :: l) = n). lia.
    + cbn [forallb block_ok] in *. rewrite Hb, Htd. done.
    + cbn [forallb block_len] in *. done.
    + by constructor.
Qed.

Lemma td_size_fits n : 0 ≤ n → below 5 (estimated_td_size n) = true.
Proof.
  intros Hn. apply below_spec. change (2 ^ 5) with 32. unfold estimated_td_size, div_round_up, max_transfer_size.
  assert (0 ≤ n `div` 65536) by (apply Z.div_pos; lia). repeat case_bool_decide; lia.
Qed.

(** C29. A transfer of any length is laid out on the ring in blocks of at most 64 KiB: the
    lengths add up to the number of bytes, all fields fit their places, every block but the
    last is chained to the next and only the last one interrupts, and one turn per started
    64 KiB is enough.  But all blocks have the same buffer: the address does not advance, so
    the second and later blocks of a longer transfer move the first 64 KiB again. *)
Theorem transfer_in_blocks buffer idt n :
  0 ≤ n → below 64 buffer = true →
  let l := transfer_blocks (S (Z.to_nat (n `div` max_transfer_size))) buffer idt (estimated_td_size n) n in
  chained l = true ∧ foldr (λ b s, block_len b + s) 0 l = n ∧ forallb block_ok l = true ∧
  forallb (λ b, block_len b <=? max_transfer_size) l = true ∧
  Forall (λ b, block_buffer b = Some buffer) l.
Proof.
  intros Hn Hb. apply transfer_blocks_spec; try done; [|by apply td_size_fits].
  assert (0 ≤ n `div` max_transfer_size) by (apply Z.div_pos; unfold max_transfer_size; lia). lia.
Qed.

Lemma transfer_in_blocks_witness :
  foldr (λ b s, block_len b + s) 0 (transfer_blocks 3 4096 false (estimated_td_size 140000) 140000) = 140000.
Proof. exact (proj1 (proj2 (transfer_in_blocks 4096 false 140000 ltac:(lia) eq_refl))). Defined.

(** ** The protocol of the two files *)

Definition ep_at (h : Hci) (p : PortId) (n : Z) (st : EndpIfState) : Prop :=
  ∃ port ep, port_states h !! p = Some port ∧ ps_endpoints port !! n = Some ep ∧ es_if ep = st.

Section Protocol.
Context (ac64 : bool) (world : Z → Hci → Hci).
Context (p : PortId) (n : Z).
(** The rest of the system leaves the state of the files alone. *)
Context (Hworld : ∀ f h st, ep_at h p n st → ep_at (world f h) p n st).

Definition idle (g : gset PortId) (st : EndpIfState) (s : Xhci) : Prop :=
  guards s = g ∧ ep_at (hci s) p n st.

Definition keeps {A} (g : gset PortId) (st : EndpIfState) (m : comp Xhci A) : Prop :=
  ∀ s, idle g st s → wp m (λ _ s', idle g st s') s.

Lemma keeps_bind {A B} g st (m : comp Xhci A) (f : A → comp Xhci B) :
  keeps g st m → (∀ a, keeps g st (f a)) → keeps g st (m ≫= f).
Proof. intros Hm Hf s Hs. wp_step. eapply wp_mono; [by apply Hm|]. intros [] s' Hs'; [by apply Hf|done|done]. Qed.

Lemma keeps_pure {A} g st (m : comp Xhci A) : (∀ s, (m s).2 = s) → keeps g st m.
Proof. intros Hm s Hs. unfold wp. specialize (Hm s). destruct (m s). cbn in Hm. by subst. Qed.

Lemma keeps_ok_or {A} g st e (o : option A) : keeps g st (ok_or e o).
Proof. apply keeps_pure. by destruct o. Qed.
Lemma keeps_expect {A} g st (o : option A) : keeps g st (expect o).
Proof. apply keeps_pure. by destruct o. Qed.

Lemma keeps_hci {A} g st (m : comp Hci A) :
  (∀ h, wp m (λ _ h', ep_at h p n st → ep_at h' p n st) h) → keeps g st (on_hci m).
Proof.
  intros Hm s [Hg He]. unfold on_hci. apply wp_zoom. eapply wp_mono; [apply Hm|].
  intros r h Hh. split; [done|]. by apply Hh.
Qed.

Lemma ep_at_alter h q i (f : EndpointState → EndpointState) st st' :
  (∀ e, es_if e = st → es_if (f e) = if decide (q = p ∧ i = n) then st' else st) → ep_at h p n st →
  ep_at {| h with port_states := alter (λ st, {| st with ps_endpoints := alter f i (ps_endpoints st) |}) q (port_states h) |}
    p n (if decide (q = p ∧ i = n) then st' else st).
Proof.
  intros Hf (port & ep & Hp & He & Hi). specialize (Hf ep Hi). revert Hf.
  destruct (decide (q = p ∧ i = n)) as [[-> ->]|Hq]; intros Hf.
  - exists {| port with ps_endpoints := alter f n (ps_endpoints port) |}, (f ep). cbn.
    rewrite lookup_alter_eq, Hp. cbn. rewrite lookup_alter_eq, He. by cbn.
  - destruct (decide (q = p)) as [->|].
    + exists {| port with ps_endpoints := alter f i (ps_endpoints port) |}, ep. cbn.
      rewrite lookup_alter_eq, Hp. cbn. rewrite lookup_alter_ne, He; [done|naive_solver].
    + exists port, ep. cbn. by rewrite lookup_alter_ne.
Qed.

Lemma keeps_set_ring id r g st : keeps g st (set_ring id r).
Proof.
  apply keeps_hci. intros h. apply wp_modify. intros He.
  pose proof (ep_at_alter h (ri_port id) (ri_endpoint id) (λ e, {| e with es_transfer :=
    match es_transfer e with
    | ORing _ => ORing r
    | OStreams rings => OStreams (<[ri_stream id := r]> rings)
    end |}) st st) as H.
  destruct (decide _) in H; apply H; done.
Qed.

Lemma keeps_with_port {A} q e (m : PortState → comp Xhci A) st :
  (∀ port, keeps {[ q ]} st (m port)) → keeps ∅ st (with_port q e m).
Proof.
  intros Hm s [Hg He]. unfold with_port, port_now. wp_step. wp_step. wp_step.
  rewrite bool_decide_eq_false_2 by (rewrite Hg; set_solver).
  apply wp_ok_or. destruct (port_states (hci s) !! q) as [port|]; [|by split].
  apply wp_bind, wp_modify. cbv beta iota. unfold release, wp.
  destruct (m port _) as [r s'] eqn:Hr. cbn.
  specialize (Hm port {| s with guards := {[q]} ∪ guards s |}). unfold wp in Hm. rewrite Hr in Hm. cbn in Hm.
  destruct Hm as [Hg' He']; [by split; [cbn; rewrite Hg; set_solver|]|].
  split; [cbn; rewrite Hg'; set_solver|done].
Qed.

Lemma keeps_poll f g st : keeps g st (on_hci (poll f)).
Proof. apply keeps_hci. intros h. unfold poll. by wp_go. Qed.

Lemma keeps_await f g st : keeps g st (await world f).
Proof using Hworld.
  apply keeps_bind; [|intros _; apply keeps_bind; [apply keeps_poll|]].
  - apply keeps_hci. intros h. apply wp_modify. apply Hworld.
  - intros o. apply keeps_expect.
Qed.

Lemma keeps_future id r i j d g st : keeps g st (on_hci (next_transfer_event_trb ac64 id r i j d)).
Proof.
  apply keeps_hci. intros h. unfold next_transfer_event_trb, new_future.
  destruct (trb_phys_ptr ac64 i r), (trb_phys_ptr ac64 j r); by wp_go.
Qed.

Ltac keeps_go := repeat first
  [ apply keeps_set_ring | apply keeps_poll | apply keeps_await | apply keeps_future
  | apply keeps_with_port; intro | apply keeps_bind; [|intro]
  | apply keeps_pure; done
  | apply keeps_ok_or | apply keeps_expect
  | case_match ].

Lemma keeps_execute num stream blocks st : keeps ∅ st (execute_transfer ac64 world p num stream blocks).
Proof using Hworld.
  unfold execute_transfer, start, endp_doorbell, endp_num_to_dci, endpoint_ring, handle_transfer_event_trb.
  keeps_go.
Qed.

Lemma keeps_transfer idx buf st : keeps ∅ st (transfer ac64 world p idx buf).
Proof using Hworld. unfold transfer. keeps_go; try apply keeps_execute; keeps_go. Qed.

(** ** What a transfer ends with *)

Lemma wp_any {S A} (m : comp S A) Q s : (∀ r s', Q r s') → wp m Q s.
Proof. intros H. unfold wp. destruct (m s). apply H. Qed.

Definition good_event (event : Trb) : Prop :=
  is_code CSuccess event = true ∧ transfer_length event = 0 ∨ is_code CShortPacket event = true.

Lemma execute_event num stream blocks s :
  wp (execute_transfer ac64 world p num stream blocks)
    (λ r _, match r with Ok event => good_event event | _ => True end) s.
Proof using.
  unfold execute_transfer, handle_transfer_event_trb, good_event.
  wp_step; [done|]. apply wp_bind. apply wp_any. intros [f| |] s1; try done.
  apply wp_bind. apply wp_any. intros [] s2; try done.
  apply wp_bind. apply wp_any. intros [m| |] s3; try done.
  wp_go; try done.
  destruct (is_code CShortPacket _); [by right|]. rewrite orb_false_r in *. left. split; [done|].
  by case_bool_decide.
Qed.

(** What a transfer of [len] bytes can end with *)
Definition transfer_ok (len : Z) (r : outcome (Z * Z)) : Prop :=
  match r with
  | Ok (code, k) =>
     code = code_u8 CSuccess ∧ k = wrap_u32 len ∨ code = code_u8 CShortPacket ∧ 0 ≤ k ≤ wrap_u32 len
  | _ => True
  end.

Lemma transfer_ends idx b s :
  wp (transfer ac64 world p idx (Some b)) (λ r _, transfer_ok (Z.of_nat (length (dma_bytes b))) r) s.
Proof using.
  unfold transfer. apply wp_bind. apply wp_any. intros [l| |] s1; try done.
  apply wp_bind. eapply wp_mono; [apply execute_event|].
  intros [event| |] s2 Hev; try done. cbv beta zeta iota. wp_go; try done.
  unfold dma_len, transfer_ok in *. 
  match goal with H : bool_decide _ = false |- _ => apply bool_decide_eq_false_1 in H end.
  assert (Hp : 0 ≤ transfer_length event) by (unfold transfer_length; apply Z.land_nonneg; right; lia).
  unfold is_code in Hev. destruct Hev as [[Hc Hl]|Hc]; apply Z.eqb_eq in Hc; [left|right]; split; try done; lia.
Qed.

(** ** The protocol *)

Context (parse_req : bytes → option XhciEndpCtlReq) (show_res : XhciEndpCtlRes → bytes).
Context (alloc_dma : nat → outcome Z) (device_bytes : Z → nat → Hci → bytes).

Inductive EpOp := CtlWrite (buf : bytes) | CtlRead (buf : bytes) | DataWrite (buf : bytes) | DataRead (buf : bytes).

(** The state after a data transfer of [k] bytes that ended with [code] *)
Definition accounted (code k : Z) (dir : XhciEndpCtlDirection) (t total : Z) : EndpIfState :=
  if bool_decide (t + k = total) || negb (code =? code_u8 CSuccess)
  then WaitingForTransferResult (transfer_result code k) else WaitingForDataPipe dir (t + k) total.

Definition protocol_data (dir : XhciEndpCtlDirection) (st : EndpIfState) (len : nat)
    (o : outcome (Z * Z * bytes)) : outcome (Z * bytes) * EndpIfState :=
  match st with
  | WaitingForDataPipe dir' t total =>
     if negb (bool_decide (dir' = dir)) then (Err EBADF, st)
     else if bool_decide (total - t < Z.of_nat len) then (Err EINVAL, st)
     else match o with
          | Ok (code, k, data) => (Ok (k, data), accounted code k dir t total)
          | Err e => (Err e, st)
          | Panic => (Panic, st)
          end
  | _ => (Err EBADF, st)
  end.

(** One request to the files of an endpoint: [o] is how the transfer ends, if there is one.
    [Panic] stands for a request that never returns. *)
Definition protocol (st : EndpIfState) (op : EpOp) (o : outcome (Z * Z * bytes)) :
    outcome (Z * bytes) * EndpIfState :=
  match op with
  | CtlWrite buf =>
     let ok := Ok (Z.of_nat (length buf), []) in
     match parse_req buf with
     | None => (Err EBADMSG, st)
     | Some req =>
        match st, req with
        | IfInit, ReqStatus => (ok, WaitingForStatus)
        | IfInit, ReqReset _ => (Panic, st)
        | IfInit, ReqTransfer CtlNoData _ => (Panic, st)
        | IfInit, ReqTransfer dir count => (ok, WaitingForDataPipe dir 0 count)
        | _, _ => (Err EBADF, st)
        end
     end
  | CtlRead buf =>
     let answer res := let text := show_res res in
       if bool_decide (length buf < length text)%nat then Err EIO
       else Ok (Z.of_nat (length text), copy_at buf 0 text) in
     match st with
     | IfInit => (answer ResIdle, IfInit)
     | WaitingForStatus => (Panic, IfInit)
     | WaitingForDataPipe _ _ _ => (answer ResPending, st)
     | WaitingForTransferResult status => (answer (ResTransferResult status), IfInit)
     end
  | DataWrite buf => protocol_data CtlOut st (length buf) o
  | DataRead buf => protocol_data CtlIn st (length buf) o
  end.

Definition ep_op (op : EpOp) : comp Xhci (Z * bytes) :=
  match op with
  | CtlWrite buf => k ← on_write_endp_ctl ac64 world parse_req p n buf; mret (k, [])
  | CtlRead buf => on_read_endp_ctl show_res p n buf
  | DataWrite buf => k ← on_write_endp_data ac64 world alloc_dma p n buf; mret (k, [])
  | DataRead buf => on_read_endp_data ac64 world alloc_dma device_bytes p n buf
  end.

Definition st_ok (st : EndpIfState) : Prop :=
  match st with WaitingForDataPipe _ t total => 0 ≤ t ≤ total ∧ total ≤ u32_max | _ => True end.

Definition op_len (op : EpOp) : Z :=
  match op with DataWrite b | DataRead b => Z.of_nat (length b) | _ => 0 end.
Definition oracle_ok (op : EpOp) (o : outcome (Z * Z * bytes)) : Prop :=
  match o with Ok (code, k, _) => transfer_ok (op_len op) (Ok (code, k)) | _ => True end.

(** [m] answers [r] and takes the endpoint from [st] to [st'], with the guards [g] held. *)
Definition runs {A} (g : gset PortId) (m : comp Xhci A) (st : EndpIfState) (r : outcome A) (st' : EndpIfState) : Prop :=
  ∀ s, idle g st s → wp m (λ r' s', r' = r ∧ (r ≠ Panic → idle g st' s')) s.

Lemma after_bind {A B} g (m : comp Xhci A) (f : A → comp Xhci B) st a st1 r st2 :
  runs g m st (Ok a) st1 → runs g (f a) st1 r st2 → runs g (m ≫= f) st r st2.
Proof using. intros Hm Hf s Hs. wp_step. eapply wp_mono; [by apply Hm|]. intros r' s' [-> Hs']. by apply Hf, Hs'. Qed.
Lemma runs_err {A B} g (m : comp Xhci A) (f : A → comp Xhci B) st e st' :
  runs g m st (Err e) st' → runs g (m ≫= f) st (Err e) st'.
Proof using. intros Hm s Hs. wp_step. eapply wp_mono; [by apply Hm|]. intros r' s' [-> Hs']. split; [done|]. intros _. by apply Hs'. Qed.
Lemma runs_panic {A B} g (m : comp Xhci A) (f : A → comp Xhci B) st st2 :
  runs g m st Panic st2 → runs g (m ≫= f) st Panic st2.
Proof using. intros Hm s Hs. wp_step. eapply wp_mono; [by apply Hm|]. by intros r' s' [-> _]. Qed.
Lemma runs_lift {A} g (r : outcome A) st : runs g (lift r) st r st.
Proof using. intros s Hs. by apply wp_lift. Qed.
Lemma runs_some {A} g e (a : A) o st : o = Some a → runs g (ok_or e o) st (Ok a) st.
Proof using. intros -> s Hs. by apply wp_ok_or. Qed.

(** A call that holds the guard of the port *)
Lemma runs_port {A} e (m : PortState → comp Xhci A) st r st' :
  (∀ port ep, ps_endpoints port !! n = Some ep → es_if ep = st → runs {[ p ]} (m port) st r st') →
  runs ∅ (with_port p e m) st r st'.
Proof using.
  intros Hm s [Hg (port & ep & Hp & He & Hi)]. unfold with_port, port_now. wp_step. wp_step. wp_step.
  rewrite bool_decide_eq_false_2 by (rewrite Hg; apply not_elem_of_empty).
  apply wp_ok_or. rewrite Hp. apply wp_bind, wp_modify. cbv beta iota.
  specialize (Hm port ep He Hi {| s with guards := {[p]} ∪ guards s |}).
  unfold release, wp. unfold wp in Hm. destruct (m port _) as [r' s'] eqn:Hr. cbn in Hm |- *.
  destruct Hm as [-> Hm]; [split; [cbn; rewrite Hg; apply union_empty_r_L|by exists port, ep]|].
  split; [done|]. intros Hnp. destruct (Hm Hnp) as [Hg' He']. split; [|done]. cbn. rewrite Hg'. apply difference_diag_L.
Qed.

Lemma runs_set_if g st st' : runs g (set_if p n st') st (Ok tt) st'.
Proof using.
  intros s [Hg He]. unfold set_if, set_endpoint, set_port, on_hci. apply wp_zoom, wp_modify. split; [done|].
  intros _. split; [done|]. cbn [hci].
  pose proof (ep_at_alter (hci s) p n (λ ep, {| ep with es_if := st' |}) st st') as H.
  rewrite decide_True in H by done. by apply H.
Qed.

(** A port whose guard is held cannot be looked up. *)
Lemma runs_guarded e st st' : runs {[ p ]} (port_now p e) st Panic st'.
Proof using.
  intros s [Hg _]. unfold port_now. wp_step. wp_step. by rewrite bool_decide_eq_true_2 by (rewrite Hg; by apply elem_of_singleton_2).
Qed.
Lemma runs_free {B} e (m : comp Xhci B) st r st' : runs ∅ m st r st' → runs ∅ (port_now p e;; m) st r st'.
Proof using.
  intros Hm s Hs. pose proof Hs as [Hg (port & ep & Hp & _)]. unfold port_now. wp_step. wp_step. wp_step.
  rewrite bool_decide_eq_false_2 by (rewrite Hg; apply not_elem_of_empty). rewrite Hp. apply wp_ok_or. by apply Hm.
Qed.
Lemma runs_if_state g e st : runs g (if_state p n e) st (Ok st) st.
Proof using.
  intros s [Hg (port & ep & Hp & He & <-)]. unfold if_state. wp_step. wp_step. wp_step. rewrite Hp. apply wp_ok_or.
  wp_step. rewrite He. apply wp_ok_or, wp_ret. split; [done|]. intros _. split; [done|]. by exists port, ep.
Qed.

Context (Hn : 1 ≤ n).

Lemma protocol_write st buf req :
  parse_req buf = Some req → ∀ o,
  protocol st (CtlWrite buf) o =
  match st, req with
  | IfInit, ReqStatus => (Ok (Z.of_nat (length buf), []), WaitingForStatus)
  | IfInit, ReqReset _ => (Panic, st)
  | IfInit, ReqTransfer CtlNoData _ => (Panic, st)
  | IfInit, ReqTransfer dir count => (Ok (Z.of_nat (length buf), []), WaitingForDataPipe dir 0 count)
  | _, _ => (Err EBADF, st)
  end.
Proof using. intros Hq o. cbn [protocol]. by rewrite Hq. Qed.

Lemma ctl_write_runs st buf o :
  runs ∅ (ep_op (CtlWrite buf)) st (protocol st (CtlWrite buf) o).1 (protocol st (CtlWrite buf) o).2.
Proof using Hn.
  destruct (parse_req buf) as [req|] eqn:Hq.
  2: { cbn [protocol ep_op]. rewrite Hq. apply runs_err, runs_port. intros port ep He Hi.
       eapply after_bind; [by apply runs_some|]. rewrite Hq. apply runs_err, (runs_lift _ (Err EBADMSG)). }
  rewrite (protocol_write st buf req Hq). cbn [ep_op]. unfold on_write_endp_ctl.
  assert (Hreq : ∀ r st' m, (∀ port ep, es_if ep = st → runs {[ p ]} (m port ep req) st r st') →
    runs ∅ (with_port p EBADF (λ port, ep ← ok_or EBADF (ps_endpoints port !! n);
      req ← ok_or EBADMSG (parse_req buf); m port ep req;; mret (Z.of_nat (length buf)))) st
      (match r with Ok () => Ok (Z.of_nat (length buf)) | Err e => Err e | Panic => Panic end) st').
  { intros r st' m Hm. apply runs_port. intros port ep He Hi.
    eapply after_bind; [by apply runs_some|]. eapply after_bind; [by apply runs_some|]. specialize (Hm port ep Hi).
    destruct r as [[]| |]; [eapply after_bind; [exact Hm|apply runs_lift]|by apply runs_err|by apply runs_panic]. }
  destruct st, req as [[] cnt|nc|]; cbn [fst snd].
  all: first
    [ eapply after_bind; [apply (Hreq (Ok tt)); intros port ep ->; apply runs_set_if|apply runs_lift]
    | apply runs_err, (Hreq (Err EBADF)); intros port ep ->; apply (runs_lift _ (Err EBADF))
    | apply runs_panic, (Hreq Panic); intros port ep -> ].
  - rewrite bool_decide_eq_false_2 by lia. do 2 apply runs_panic. apply runs_panic, runs_guarded.
  - do 2 apply runs_panic. apply runs_guarded.
Qed.


Lemma ctl_read_runs st buf o :
  runs ∅ (ep_op (CtlRead buf)) st (protocol st (CtlRead buf) o).1 (protocol st (CtlRead buf) o).2.
Proof using.
  cbn [ep_op]. unfold on_read_endp_ctl. apply runs_port. intros port ep He Hi.
  eapply after_bind; [by apply runs_some|]. rewrite Hi.
  assert (Hans : ∀ res st1, runs {[ p ]} (let text := show_res res in
      if bool_decide (length buf < length text)%nat then fail EIO
      else mret (Z.of_nat (length text), copy_at buf 0 text)) st1
    (let text := show_res res in if bool_decide (length buf < length text)%nat then Err EIO
     else Ok (Z.of_nat (length text), copy_at buf 0 text)) st1).
  { intros res st1. cbn zeta. case_bool_decide; [apply (runs_lift _ (Err EIO))|apply (runs_lift _ (Ok _))]. }
  destruct st; cbn [protocol fst snd].
  - eapply after_bind; [apply (runs_lift _ (Ok ResIdle))|]. apply Hans.
  - eapply after_bind; [apply (runs_lift _ (Ok ResPending))|]. apply Hans.
  - apply runs_panic. eapply after_bind; [apply runs_set_if|]. apply runs_panic, runs_panic, runs_guarded.
  - eapply after_bind; [eapply after_bind; [apply runs_set_if|apply (runs_lift _ (Ok (ResTransferResult _)))]|]. apply Hans.
Qed.

Lemma data_allowed_runs e dir len st :
  st_ok st →
  runs ∅ (data_allowed p n e dir len) st
    match st with
    | WaitingForDataPipe dir' t total =>
       if negb (bool_decide (dir' = dir)) then Err EBADF
       else if bool_decide (total - t < Z.of_nat len) then Err EINVAL else Ok tt
    | _ => Err EBADF
    end st.
Proof using.
  intros Hst. apply runs_free. eapply after_bind; [apply runs_if_state|].
  destruct st as [|dir' t total| |]; try apply (runs_lift _ (Err EBADF)). cbn in Hst.
  destruct (negb _); [apply (runs_lift _ (Err EBADF))|]. rewrite bool_decide_eq_false_2 by lia.
  case_bool_decide; [apply (runs_lift _ (Err EINVAL))|apply (runs_lift _ (Ok tt))].
Qed.

Lemma account_runs e dir t total code k len :
  st_ok (WaitingForDataPipe dir t total) → transfer_ok len (Ok (code, k)) → 0 ≤ len ≤ total - t →
  runs ∅ (account p n e dir code k) (WaitingForDataPipe dir t total) (Ok tt) (accounted code k dir t total).
Proof using.
  intros Hst Hk Hlen. cbn in Hst. assert (wrap_u32 len = len) as Hw by (unfold wrap_u32; apply Z.mod_small; unfold u32_max in *; lia).
  apply runs_free. eapply after_bind; [apply runs_if_state|].
  cbv beta iota. rewrite bool_decide_eq_true_2 by done. cbn in Hk |- *.
  rewrite bool_decide_eq_false_2 by (destruct Hk as [[_ ?]|[_ ?]]; lia).
  unfold accounted. destruct (_ || _); apply runs_set_if.
Qed.

(** The answer and the next state are those of the protocol, for some end of the transfer. *)
Definition follows (st : EndpIfState) (op : EpOp) (r : outcome (Z * bytes)) (s : Xhci) : Prop :=
  ∃ o, oracle_ok op o ∧ r = (protocol st op o).1 ∧ (r ≠ Panic → idle ∅ (protocol st op o).2 s).

Lemma runs_follows op st s :
  idle ∅ st s → runs ∅ (ep_op op) st (protocol st op (Err EIO)).1 (protocol st op (Err EIO)).2 →
  wp (ep_op op) (follows st op) s.
Proof using. intros Hs Hr. eapply wp_mono; [by apply Hr|]. intros r s' [-> Hs']. by exists (Err EIO). Qed.

(** Both data files: look whether the transfer is allowed, make it and account for it. *)
Definition data_op (e : errno) (dir : XhciEndpCtlDirection) (len : nat) (m : comp Xhci (Z * Z * bytes)) :
    comp Xhci (Z * bytes) :=
  data_allowed p n e dir len;;
  if bool_decide (n = 0) then panic else
  x ← m;
  account p n e dir x.1.1 x.1.2;;
  mret (x.1.2, x.2).

Lemma data_op_follows e dir len m st op s :
  st_ok st → idle ∅ st s → op_len op = Z.of_nat len → (∀ o, protocol st op o = protocol_data dir st len o) →
  (∀ s, idle ∅ st s → wp m (λ r s', idle ∅ st s' ∧ oracle_ok op r) s) →
  wp (data_op e dir len m) (follows st op) s.
Proof using Hn.
  intros Hst Hs Hlen Hp Hm. unfold data_op. wp_step.
  eapply wp_mono; [by apply data_allowed_runs|]. intros r s1 [-> Hs1].
  assert (Hrefuse : ∀ e, (∀ o, protocol_data dir st len o = (Err e, st)) → idle ∅ st s1 → follows st op (Err e) s1).
  { intros e' He Hid. exists (Err EIO). by rewrite Hp, He. }
  destruct st as [|dir' t total| |]; try (by apply Hrefuse, Hs1). cbn [protocol_data] in *.
  destruct (bool_decide (dir' = dir)) eqn:Hd; cbn [negb] in *; [|by apply Hrefuse, Hs1].
  case_bool_decide; [by apply Hrefuse, Hs1|]. apply bool_decide_eq_true_1 in Hd as ->.
  rewrite bool_decide_eq_false_2 by lia. wp_step. eapply wp_mono; [by apply Hm, Hs1|].
  intros [[[code k] data]|err|] s2 [Hs2 Ho]; [|by exists (Err err); rewrite Hp|by exists Panic; rewrite Hp].
  wp_step. eapply wp_mono; [eapply (account_runs _ _ _ _ _ _ (op_len op)); [done|exact Ho|lia|done]|].
  intros r s3 [-> Hs3]. apply wp_ret. exists (Ok (code, k, data)). rewrite Hp. split_and!; try done. intros _. by apply Hs3.
Qed.

Lemma transfer_both idx b st s :
  idle ∅ st s →
  wp (transfer ac64 world p idx (Some b))
    (λ r s', idle ∅ st s' ∧ transfer_ok (Z.of_nat (length (dma_bytes b))) r) s.
Proof using Hworld.
  intros Hs. pose proof (keeps_transfer idx (Some b) st s Hs) as H1. pose proof (transfer_ends idx b s) as H2.
  unfold wp in *. by destruct (transfer _ _ _ _ _ s).
Qed.

Lemma write_ends buf st s :
  idle ∅ st s →
  wp (x ← transfer_write ac64 world alloc_dma p (n - 1) buf; mret (x.1, x.2, []))
    (λ r s', idle ∅ st s' ∧ oracle_ok (DataWrite buf) r) s.
Proof using Hworld.
  intros Hs. wp_step. destruct buf as [|b buf]; [done|]. unfold transfer_write. wp_step. apply wp_lift.
  destruct (alloc_dma _) as [phys| |]; try done.
  eapply wp_mono; [by apply transfer_both|]. intros [[code k]| |] s' [Hs' Hr]; [by apply wp_ret|done|done].
Qed.

Lemma read_ends buf st s :
  idle ∅ st s →
  wp (transfer_read ac64 world alloc_dma device_bytes p (n - 1) buf)
    (λ r s', idle ∅ st s' ∧ oracle_ok (DataRead buf) r) s.
Proof using Hworld.
  intros Hs. destruct buf as [|b buf]; [done|]. unfold transfer_read. wp_step. apply wp_lift.
  destruct (alloc_dma _) as [phys| |]; try done. wp_step.
  eapply wp_mono; [by apply transfer_both|]. cbn [dma_bytes]. rewrite length_replicate.
  intros [[code k]| |] s' [Hs' Hr]; [|done|done]. wp_step. wp_step. by apply wp_ret.
Qed.

(** One request to the files behaves as the protocol says. *)
Lemma ep_op_follows op st s : st_ok st → idle ∅ st s → wp (ep_op op) (follows st op) s.
Proof using Hn Hworld.
  intros Hst Hs. destruct op as [buf|buf|buf|buf].
  - apply runs_follows, ctl_write_runs. done.
  - apply runs_follows, ctl_read_runs. done.
  - pose proof (data_op_follows EBADFD CtlOut (length buf) _ st (DataWrite buf) s Hst Hs eq_refl (λ _, eq_refl)
      (write_ends buf st)) as H.
    unfold wp, data_op, ep_op, on_write_endp_data, mbind, comp_bind, mret, comp_ret, panic in *.
    repeat (case_match; simplify_eq/=); done.
  - pose proof (data_op_follows EBADF CtlIn (length buf) _ st (DataRead buf) s Hst Hs eq_refl (λ _, eq_refl)
      (read_ends buf st)) as H.
    unfold wp, data_op, ep_op, on_read_endp_data, mbind, comp_bind, mret, comp_ret, panic in *.
    repeat (case_match; simplify_eq/=); done.
Qed.

Definition parse_ok : Prop := ∀ buf dir count, parse_req buf = Some (ReqTransfer dir count) → 0 ≤ count ≤ u32_max.

Lemma protocol_data_ok dir st len o :
  st_ok st → match o with Ok (code, k, _) => transfer_ok (Z.of_nat len) (Ok (code, k)) | _ => True end →
  st_ok (protocol_data dir st len o).2.
Proof using.
  intros Hst Ho. destruct st as [|dir' t total| |]; try done. cbn [protocol_data].
  destruct (negb _); [done|]. case_bool_decide; [done|]. destruct o as [[[code k] data]| |]; try done.
  cbn [snd]. unfold accounted. destruct (_ || _); [done|]. cbn in Hst, Ho |- *.
  assert (wrap_u32 (Z.of_nat len) = Z.of_nat len) as Hw
    by (unfold wrap_u32; apply Z.mod_small; unfold u32_max in *; lia).
  destruct Ho as [[_ ?]|[_ ?]]; lia.
Qed.

Lemma protocol_keeps_ok st op o :
  parse_ok → st_ok st → oracle_ok op o → st_ok (protocol st op o).2.
Proof using.
  intros Hparse Hst Ho. destruct op as [buf|buf|buf|buf]; cbn [protocol].
  - destruct (parse_req buf) as [[dir c|b|]|] eqn:Hq; [apply Hparse in Hq| | |]; destruct st; try done.
    destruct dir; cbn; lia.
  - by destruct st.
  - by apply protocol_data_ok.
  - by apply protocol_data_ok.
Qed.

(** A program that uses the files until a request does not return *)
Fixpoint ep_run (ops : list EpOp) (s : Xhci) : list (outcome (Z * bytes)) :=
  match ops with
  | [] => []
  | op :: ops => match ep_op op s with
                 | (Panic, _) => [Panic]
                 | (r, s) => r :: ep_run ops s
                 end
  end.

Fixpoint protocol_run (ops : list EpOp) (os : list (outcome (Z * Z * bytes))) (st : EndpIfState) :
    list (outcome (Z * bytes)) :=
  match ops, os with
  | op :: ops, o :: os => match protocol st op o with
                          | (Panic, _) => [Panic]
                          | (r, st) => r :: protocol_run ops os st
                          end
  | _, _ => []
  end.

(** C26. The [ctl] and [data] files of an endpoint follow one protocol, whatever requests come in
    what order: a transfer is announced with its length on [ctl], its data moves through
    [data] in as many parts as the client likes, never more than announced, and the result is
    read from [ctl]; requests out of turn get [EBADF], too much data [EINVAL].  A transfer ends
    with success and all its bytes, or short, or with an error after which the endpoint waits
    for the same data again.  Asking for the status, a reset or a transfer without data never
    returns. *)
Theorem endpoint_files_refine_protocol ops st s :
  parse_ok → st_ok st → idle ∅ st s →
  ∃ os, Forall2 oracle_ok ops os ∧ ep_run ops s = protocol_run ops os st.
Proof using Hn Hworld.
  intros Hparse. revert st s. induction ops as [|op ops IH]; intros st s Hst Hs; [by exists []|].
  pose proof (ep_op_follows op st s Hst Hs) as Hf. unfold wp in Hf. cbn [ep_run].
  destruct (ep_op op s) as [r s'] eqn:Hop. cbn in Hf. destruct Hf as (o & Ho & Hr & Hs').
  assert (Hok : st_ok (protocol st op o).2) by (by apply protocol_keeps_ok).
  destruct (protocol st op o) as [r' st'] eqn:Hp. cbn in Hr, Hs', Hok. subst r'.
  destruct (decide (r = Panic)) as [->|Hr].
  - exists (o :: replicate (length ops) Panic). split; [|cbn; by rewrite Hp].
    constructor; [done|]. clear. induction ops; cbn; by constructor.
  - destruct (IH st' s' Hok (Hs' Hr)) as (os & Hos & Hrun). exists (o :: os).
    split; [by constructor|]. cbn. rewrite Hp. destruct r; [by rewrite Hrun..|done].
Qed.
End Protocol.

(** ** A transfer that the controller completes *)

(** A ring with room and a link at its end *)
Record ring_ok (ac64 : bool) (N : nat) (r : Ring) : Prop := {
  ok_room : (1 ≤ N)%nat;
  ok_length : length (trbs r) = S N;
  ok_link : r_link r = true;
  ok_index : (r_i r ≤ N)%nat;
  ok_physical : below 64 (physical r) = true;
  ok_end : physical r + trb_size * Z.of_nat N ≤ u64_max;
}.

Lemma enqueue_all_run ac64 N blocks r :
  ring_ok ac64 N r → blocks ≠ [] → forallb block_ok blocks = true → forallb is_transfer blocks = true →
  ∃ l i r' t, enqueue_all (fill <$> blocks) r = (Ok l, r') ∧ last l = Some i ∧ (i < N)%nat ∧
    ring_ok ac64 N r' ∧ trbs r' !! i = Some t ∧ is_transfer_trb t = true.
Proof.
  revert r. induction blocks as [|b blocks IH]; intros r Hr Hne Hok Hn; [done|].
  cbn in Hok, Hn. apply andb_true_iff in Hok as [Hb Hok]. apply andb_true_iff in Hn as [Hnb Hn].
  destruct (enqueue_run N r b (ok_room _ _ _ Hr) (ok_length _ _ _ Hr) (ok_link _ _ _ Hr) (ok_index _ _ _ Hr)
    (ok_physical _ _ _ Hr) Hb) as (i & t & r1 & He & Ht & Hd & Hi & Hp & Hl & Hk & Hx).
  assert (Hr1 : ring_ok ac64 N r1).
  { destruct Hr. split; rewrite ?Hp, ?Hl, ?Hx; try done; lia. }
  cbn [fmap list_fmap enqueue_all]. rewrite (bind_ok _ _ _ _ _ He).
  destruct blocks as [|b2 blocks].
  - exists [i], i, r1, t. split_and!; try done. apply decode_class in Hd as [_ ->]. done.
  - destruct (IH r1 Hr1 ltac:(done) Hok Hn) as (l & j & r2 & t2 & He2 & Hj & ?). exists (i :: l), j, r2, t2.
    rewrite (bind_ok _ _ _ _ _ He2). split; [done|]. split; [|done]. by destruct l.
Qed.

Lemma transfer_blocks_are turns buffer idt td len : forallb is_transfer (transfer_blocks turns buffer idt td len) = true.
Proof. revert len. induction turns; intros len; [done|]. cbn. by case_bool_decide. Qed.

Lemma trb_ptr_ok ac64 N r i : ring_ok ac64 N r → (i ≤ N)%nat → ∃ ptr, trb_phys_ptr ac64 i r = Ok ptr.
Proof.
  intros Hr Hi. unfold trb_phys_ptr. pose proof (ok_length _ _ _ Hr). pose proof (ok_end _ _ _ Hr).
  pose proof (ok_physical _ _ _ Hr) as Hp. apply below_spec in Hp.
  rewrite bool_decide_eq_false_2 by lia. rewrite bool_decide_eq_true_2; [by eexists|].
  assert (Z.land (physical r) (address_mask ac64) ≤ physical r).
  { destruct ac64; unfold address_mask; [change 0xFFFFFFFFFFFFFFFF with (Z.ones 64)|change 0xFFFFFFFF with (Z.ones 32)];
      rewrite Z.land_ones by lia; apply Z.mod_le; lia. }
  unfold trb_size in *. lia.
Qed.

Section Completes.
Context (ac64 : bool) (world : Z → Hci → Hci).
(** The controller completes a transfer that is waited for. *)
Context (Hworld : ∀ f h fut, futures h !! f = Some fut → f_finished fut = false →
  ∃ fut' event src, futures (world f h) !! f = Some fut' ∧ f_finished fut' = false ∧
    f_message fut' = Some (mk_next_event event (Some src)) ∧
    is_code CSuccess event = true ∧ transfer_length event = 0).

Lemma await_completes f fut s :
  futures (hci s) !! f = Some fut → f_finished fut = false →
  wp (await world f) (λ r _, match r with
    | Ok m => is_code CSuccess (event_trb m) = true ∧ transfer_length (event_trb m) = 0 ∧ is_Some (src_trb m)
    | _ => False end) s.
Proof using Hworld.
  intros Hf Hfin. destruct (Hworld f (hci s) fut Hf Hfin) as (fut' & event & src & Hf' & Hfin' & Hm & Hc & Hl).
  unfold await, on_hci, poll. wp_step. wp_step. wp_step. wp_step. wp_step. wp_step. wp_step. cbn [hci].
  rewrite Hf'. wp_step. wp_step. rewrite Hfin', Hm. cbv beta iota. wp_go. done.
Qed.

(** An endpoint that is configured and whose port nobody holds *)
Record ready (p : PortId) (n : Z) (N : nat) (s : Xhci) : Prop := {
  rd_guards : guards s = ∅;
  rd_number : 1 ≤ n ≤ 127;
  rd_endpoint : ∃ port ep d r, port_states (hci s) !! p = Some port ∧ ps_endpoints port !! n = Some ep ∧
    es_transfer ep = ORing r ∧ ring_ok ac64 N r ∧ get_endp_desc (n - 1) port = Some d ∧ is_isoch d = false;
}.

Lemma with_port_run {A} p e port (m : PortState → comp Xhci A) Q s :
  guards s = ∅ → port_states (hci s) !! p = Some port →
  wp (m port) (λ r s', Q r {| s' with guards := guards s' ∖ {[ p ]} |}) {| s with guards := {[ p ]} ∪ guards s |} →
  wp (with_port p e m) Q s.
Proof using.
  intros Hg Hp Hm. unfold with_port, port_now. wp_step. wp_step. wp_step.
  rewrite bool_decide_eq_false_2 by (rewrite Hg; apply not_elem_of_empty). rewrite Hp. apply wp_ok_or.
  apply wp_bind, wp_modify. cbv beta iota. unfold release, wp in *. by destruct (m port _).
Qed.

Lemma doorbell_ok {S} n d k Q (s : S) : 1 ≤ n ≤ 127 → (∀ a, Q (Ok a) s) → wp (endp_doorbell n d k) Q s.
Proof using.
  intros Hn HQ. unfold endp_doorbell, endp_num_to_dci. wp_step. rewrite bool_decide_eq_false_2 by lia.
  rewrite bool_decide_eq_true_2 by (destruct (_ || _); lia). wp_go. apply HQ.
Qed.

Lemma future_made id r i t N s Q :
  ring_ok ac64 N r → (i < N)%nat → trbs r !! i = Some t → is_transfer_trb t = true →
  (∀ f fut s', futures (hci s') !! f = Some fut → f_message fut = None → f_finished fut = false →
     guards s' = guards s → Q (Ok f) s') →
  ∀ d, wp (on_hci (next_transfer_event_trb ac64 id r i i d)) Q s.
Proof using.
  intros Hr Hi Ht Htr HQ d. unfold on_hci, next_transfer_event_trb, new_future. wp_step. wp_step.
  rewrite Ht. wp_step. rewrite Htr. cbn [negb]. destruct (trb_ptr_ok ac64 N r i Hr ltac:(lia)) as [ptr ->].
  wp_go. eapply HQ; [cbn; apply lookup_insert_eq|done..].
Qed.

Lemma execute_completes p n N blocks s :
  ready p n N s → blocks ≠ [] → forallb block_ok blocks = true → forallb is_transfer blocks = true →
  wp (execute_transfer ac64 world p n 1 (fill <$> blocks)) (λ r _, match r with
    | Ok event => is_code CSuccess event = true ∧ transfer_length event = 0 | _ => False end) s.
Proof using Hworld.
  intros [Hg Hn (port & ep & d & r & Hp & He & Hr & Hok & Hd & Hi)] Hne Hb Ht.
  destruct (enqueue_all_run ac64 N blocks r Hok Hne Hb Ht) as (l & i & r' & t & Hq & Hl & Hlt & Hok' & Hlk & Htr).
  unfold execute_transfer. rewrite bool_decide_eq_false_2 by lia. wp_step.
  apply (with_port_run _ _ port); [done..|]. wp_step. rewrite Hd. wp_step. wp_step. apply doorbell_ok; [lia|intros db1].
  wp_step. apply doorbell_ok; [lia|intros db2]. wp_step. rewrite He. wp_step. unfold endpoint_ring. rewrite Hr.
  wp_step. wp_step. rewrite Hq. cbv beta iota. unfold set_ring, set_endpoint, set_port.
  wp_step. apply wp_zoom, wp_modify. wp_step. wp_step. rewrite Hl. wp_step. wp_step.
  eapply future_made; [done|done|done|done|]. intros f fut s1 Hf Hm Hfin _.
  wp_step. unfold start, on_hci, poll. wp_step. wp_step. wp_step. wp_step. wp_step. cbn [hci]. rewrite Hf. wp_step.
  rewrite Hfin, Hm. wp_go. eapply wp_mono; [eapply await_completes; [cbn; apply lookup_insert_eq|done]|].
  intros [m| |] s3 Hev; [|done|done]. destruct Hev as (Hc & Hlen & [src Hsrc]).
  wp_step. rewrite Hsrc. wp_step. unfold handle_transfer_event_trb. rewrite Hc. cbn [orb]. wp_step. wp_step.
  rewrite (bool_decide_eq_true_2 _ Hlen), andb_false_r. by wp_step.
Qed.

Lemma le_val_bound l : Forall (λ x, 0 ≤ x < 256) l → 0 ≤ le_val l < 256 ^ Z.of_nat (length l).
Proof using.
  induction 1 as [|x l Hx Hl IH]; [done|]. cbn [le_val length]. rewrite Nat2Z.inj_succ, Z.pow_succ_r by lia. lia.
Qed.

Lemma immediate_fits b d :
  below 64 (dma_physical b) = true → Forall (λ x, 0 ≤ x < 256) (dma_bytes b) → below 64 (immediate (Some b) d).1 = true.
Proof using.
  intros Hp Hb. unfold immediate. destruct (bool_decide (_ ≤ 8)%nat) eqn:Hl; [|done]. destruct (_ && _); [|done].
  apply bool_decide_eq_true_1 in Hl. apply below_spec. cbn [fst].
  pose proof (le_val_bound _ Hb) as [H0 H1]. split; [done|]. eapply Z.lt_le_trans; [exact H1|].
  change (2 ^ 64) with (256 ^ 8). apply Z.pow_le_mono_r; lia.
Qed.


End Completes.

(** ** A bulk endpoint *)

Definition demo_desc : EndpDesc := mk_endp_desc 1 2 512 0 None None.
Definition demo_port : PortState :=
  mk_port_state 1 (Some 1) (Some (mk_dev_desc [mk_conf_desc 1 [mk_if_desc 0 0 [demo_desc]]]))
    {[ 1 := mk_endpoint (ORing (ring_new 4096 16 true)) IfInit ]}.
Definition demo_xhci : Xhci :=
  mk_xhci (mk_hci (ring_new 8192 16 true) {[ mk_port_id 1 0 := demo_port ]} 4 (event_ring_new 16384 20480) 0
    [] [] ∅ 0 [] [] [] [] []) ∅ [].
(** A controller that completes everything *)
Definition demo_event : Trb := mk_trb 0 0 0x01000000 0x8001.
Definition demo_world (f : Z) (h : Hci) : Hci :=
  {| h with futures := alter (λ fut, {| fut with f_message := Some (mk_next_event demo_event (Some zero_trb)) |}) f (futures h) |}.
(** Requests and answers of one byte *)
Definition demo_parse (b : bytes) : option XhciEndpCtlReq :=
  match b with [0] => Some ReqStatus | [k] => if bool_decide (1 ≤ k ≤ 255) then Some (ReqTransfer CtlOut k) else None | _ => None end.
Definition demo_show (r : XhciEndpCtlRes) : bytes :=
  match r with ResIdle => [0] | ResPending => [1] | ResStatus _ => [2] | ResTransferResult st => [3; ts_bytes st] end.

Lemma demo_runs :
  ep_run true demo_world (mk_port_id 1 0) 1 demo_parse demo_show (λ _, Ok 65536) (λ _ _ _, [])
    [CtlRead [9]; DataWrite [7]; CtlWrite [3]; DataWrite [7; 8]; CtlRead [9]; DataWrite [7; 8]; DataWrite [6];
     CtlRead [9; 9]; CtlRead [9]; CtlWrite [0]; CtlRead [9]; CtlRead [9]] demo_xhci =
  [Ok (1, [0]); Err EBADF; Ok (1, []); Ok (2, []); Ok (1, [1]); Err EINVAL; Ok (1, []);
   Ok (2, [3; 1]); Ok (1, [0]); Ok (1, []); Panic].
Proof. vm_compute. reflexivity. Qed.

Lemma endpoint_files_refine_protocol_witness :
  ∃ os, ep_run true demo_world (mk_port_id 1 0) 1 demo_parse demo_show (λ _, Ok 65536) (λ _ _ _, [])
    [CtlWrite [2]; DataWrite [7; 8]; CtlRead [9; 9]] demo_xhci =
  protocol_run demo_parse demo_show [CtlWrite [2]; DataWrite [7; 8]; CtlRead [9; 9]] os IfInit.
Proof.
  destruct (endpoint_files_refine_protocol true demo_world (mk_port_id 1 0) 1) with
    (parse_req := demo_parse) (show_res := demo_show) (alloc_dma := λ _ : nat, Ok 65536)
    (device_bytes := λ (_ : Z) (_ : nat) (_ : Hci), @nil Z)
    (ops := [CtlWrite [2]; DataWrite [7; 8]; CtlRead [9; 9]]) (st := IfInit) (s := demo_xhci) as (os & _ & H).
  - intros f h st (port & ep & H). exists port, ep. exact H.
  - lia.
  - intros buf dir count H. destruct buf as [|k [|]]; try done; [|destruct k; done].
    assert (1 ≤ count ≤ 255) by (destruct k as [|k|k]; try done; cbn in H; case_bool_decide; naive_solver).
    unfold u32_max. lia.
  - exact I.
  - split; [reflexivity|]. eexists _, _. split_and!; reflexivity.
  - exists os. exact H.
Defined.

