(* ===== verification/Block.v ===== *)
(** * driver-block and partitionlib

    Models [drivers/storage/driver-block/src/lib.rs], the scheme that every
    storage driver serves its disks through, and the partition tables of
    [drivers/storage/partitionlib].  A driver's [Disk] implementation is an
    instance of the class [Disk]; what a client may rely on is [DiskLaws], a
    disk that behaves as a flat array of bytes.  The [gpt] and [scroll] crates
    are not part of the repository: reading a GPT is a parameter, and the
    little-endian field readers are the class [Scroll].  Awaiting a disk
    operation runs it to its end, because the scheme serves one request at a
    time. *)

From S2P Require Import Prelude Abi SchemeUtils.

(** ** The disk interface *)

Class Disk (D : Type) := {
  block_size : D → Z;
  size : D → Z;
  (** the buffer before; the count and the buffer after *)
  disk_read : Z → bytes → comp D (nat * bytes);
  disk_write : Z → bytes → comp D nat;
}.

(** A disk that satisfies [disk_inv] is the byte array [contents]: transfers of
    whole blocks inside it read and replace a slice, and nothing else changes. *)
Class DiskLaws (D : Type) `{Disk D} := {
  disk_inv : D → Prop;
  contents : D → bytes;
  block_size_range d : disk_inv d → 0 < block_size d ≤ 4096;
  size_contents d : disk_inv d → size d = Z.of_nat (length (contents d));
  size_i64 d : disk_inv d → size d ≤ 9223372036854775807;
  size_whole_blocks d : disk_inv d → size d `mod` block_size d = 0;
  disk_read_law d b buf :
    disk_inv d → 0 ≤ b → Z.of_nat (length buf) `mod` block_size d = 0 →
    b * block_size d + Z.of_nat (length buf) ≤ size d →
    wp (disk_read b buf) (λ r d',
      r = Ok (length buf, slice (contents d) (Z.to_nat (b * block_size d)) (length buf)) ∧
      disk_inv d' ∧ contents d' = contents d ∧ block_size d' = block_size d) d;
  disk_write_law d b buf :
    disk_inv d → 0 ≤ b → Z.of_nat (length buf) `mod` block_size d = 0 →
    b * block_size d + Z.of_nat (length buf) ≤ size d →
    wp (disk_write b buf) (λ r d',
      r = Ok (length buf) ∧ disk_inv d' ∧
      contents d' = copy_at (contents d) (Z.to_nat (b * block_size d)) buf ∧
      block_size d' = block_size d) d;
}.

(** Division and remainder panic on a zero divisor. *)
Definition div_u64 {S} (a b : Z) : comp S Z :=
  if bool_decide (b = 0) then panic else mret (a `div` b).
Definition rem_u64 {S} (a b : Z) : comp S Z :=
  if bool_decide (b = 0) then panic else mret (a `mod` b).

Lemma wp_div_u64 {S} a b Q (s : S) : 0 < b → Q (Ok (a `div` b)) s → wp (div_u64 a b) Q s.
Proof. intros ??. unfold div_u64. by rewrite bool_decide_eq_false_2 by lia. Qed.

Lemma wp_rem_u64 {S} a b Q (s : S) : 0 < b → Q (Ok (a `mod` b)) s → wp (rem_u64 a b) Q s.
Proof. intros ??. unfold rem_u64. by rewrite bool_decide_eq_false_2 by lia. Qed.

(** ** Byte-granular reads *)

Section BlockRead.
Context {S : Type} (read_fn : Z → bytes → comp S bytes).

(** The [while] loop; [pos] is both [total_read] and where [curr_buf] starts in
    [buf].  Every turn copies at least one byte, so [to_copy] turns are enough. *)
Fixpoint block_read_loop (fuel : nat) (blksize : Z) (to_copy : nat) (buf : bytes) (pos : nat)
    (curr_offset : Z) (block_bytes : bytes) : comp S (nat * bytes) :=
  if bool_decide (to_copy ≤ pos)%nat then mret (pos, buf) else
  match fuel with
  | O => panic
  | Datatypes.S fuel =>
     r ← rem_u64 curr_offset blksize;
     let blk_size := Z.to_nat blksize in
     let blk_offset := Z.to_nat r in
     let n := Nat.min (to_copy - pos) (blk_size - blk_offset) in
     if bool_decide (blk_size < blk_offset + n)%nat then panic else
     block_bytes ← read_fn (curr_offset `div` blksize) block_bytes;
     let buf := copy_at buf pos (slice block_bytes blk_offset n) in
     curr_offset ← add_usize curr_offset (Z.of_nat n);
     block_read_loop fuel blksize to_copy buf (pos + n) curr_offset block_bytes
  end.

Definition block_read (offset blksize : Z) (buf : bytes) : comp S (nat * bytes) :=
  if bool_decide (buf = []) then mret (0%nat, buf) else
  let to_copy := Z.to_nat (Z.min (offset + Z.of_nat (length buf)) u64_max - offset) in
  if bool_decide (4096 < blksize) then panic else
  block_read_loop to_copy blksize to_copy buf 0 offset (replicate (Z.to_nat blksize) 0).

(** *** Correctness against a flat array *)

Context (Inv : S → Prop) (data : bytes) (bs : Z).
Hypothesis bs_range : 0 < bs ≤ 4096.
Hypothesis read_fn_block : ∀ b old s,
  Inv s → 0 ≤ b → (b + 1) * bs ≤ Z.of_nat (length data) → length old = Z.to_nat bs →
  wp (read_fn b old) (λ r s', r = Ok (slice data (Z.to_nat (b * bs)) (Z.to_nat bs)) ∧ Inv s') s.
Hypothesis data_blocks : Z.of_nat (length data) `mod` bs = 0.
Hypothesis data_u64 : Z.of_nat (length data) ≤ u64_max.

Lemma block_in_data off :
  0 ≤ off < Z.of_nat (length data) → (off `div` bs + 1) * bs ≤ Z.of_nat (length data).
Proof.
  intros Hoff. apply Z.mod_divide in data_blocks as [q Hq]; [|lia].
  assert (off `div` bs < q) by (apply Z.div_lt_upper_bound; lia). nia.
Qed.

Lemma block_read_loop_spec fuel to_copy buf pos off block s :
  Inv s → (pos ≤ to_copy ≤ length buf)%nat → (to_copy - pos ≤ fuel)%nat →
  0 ≤ off → off + Z.of_nat (to_copy - pos) ≤ Z.of_nat (length data) →
  length block = Z.to_nat bs →
  wp (block_read_loop fuel bs to_copy buf pos off block) (λ r s',
    r = Ok (to_copy, copy_at buf pos (slice data (Z.to_nat off) (to_copy - pos))) ∧ Inv s') s.
Proof.
  revert buf pos off block s. induction fuel as [|fuel IH];
    intros buf pos off block s HI Hpos Hfuel Hoff Hend Hblock; cbn [block_read_loop].
  - rewrite bool_decide_eq_true_2 by lia. wp_go. split; [|done].
    replace (to_copy - pos)%nat with 0%nat by lia. change (slice data (Z.to_nat off) 0) with (@nil Z).
    rewrite copy_at_nil. repeat f_equal. lia.
  - case_bool_decide as Hdone.
    { wp_go. split; [|done]. replace (to_copy - pos)%nat with 0%nat by lia.
      change (slice data (Z.to_nat off) 0) with (@nil Z).
      rewrite copy_at_nil. repeat f_equal. lia. }
    pose proof (Z.mod_pos_bound off bs). pose proof (Z.div_mod off bs).
    pose proof (Z.div_pos off bs).
    unfold rem_u64. rewrite (bool_decide_eq_false_2 (bs = 0)) by lia. do 2 wp_step.
    remember (Nat.min _ _) as n eqn:Hn. rewrite bool_decide_eq_false_2 by lia. wp_step.
    eapply wp_mono; [apply read_fn_block; [done|lia|apply block_in_data; lia|done]|].
    intros r s' [-> HI']. wp_step. apply wp_add_usize; [ints|].
    rewrite slice_slice by lia.
    replace (Z.to_nat (off `div` bs * bs) + Z.to_nat (off `mod` bs))%nat
      with (Z.to_nat off) by nia.
    eapply wp_mono; [apply IH; [done|..]|].
    1-5: rewrite ?length_copy_at, ?length_slice by (rewrite ?length_slice; lia); try done; try lia.
    { pose proof (block_in_data off). apply length_slice. nia. }
    intros r s'' [-> ?]. split; [|done]. do 2 f_equal.
    replace (to_copy - pos)%nat with (n + (to_copy - (pos + n)))%nat by lia.
    rewrite slice_add, Z2Nat.inj_add, Nat2Z.id by lia.
    pose proof (length_slice data (Z.to_nat off) n ltac:(lia)) as Hlen.
    rewrite <- copy_at_app by (rewrite Hlen, length_slice; lia). by rewrite Hlen.
Qed.

Lemma block_read_spec buf off s :
  Inv s → 0 ≤ off → off + Z.of_nat (length buf) ≤ Z.of_nat (length data) →
  wp (block_read off bs buf) (λ r s',
    r = Ok (length buf, slice data (Z.to_nat off) (length buf)) ∧ Inv s') s.
Proof.
  intros HI Hoff Hend. unfold block_read. case_bool_decide as Hnil; [subst; by wp_go|].
  rewrite bool_decide_eq_false_2 by lia. rewrite Z.min_l by lia.
  replace (Z.to_nat (off + Z.of_nat (length buf) - off)) with (length buf) by lia.
  eapply wp_mono; [apply block_read_loop_spec; rewrite ?length_replicate; try done; lia|].
  intros r s' [-> ?]. split; [|done]. rewrite Nat.sub_0_r, copy_at_0.
  rewrite length_slice, drop_all, app_nil_r by lia. done.
Qed.
End BlockRead.

(** ** The seekable device that partition tables are read from *)

Inductive SeekFrom := SeekStart (pos : Z) | SeekEnd (pos : Z) | SeekCurrent (pos : Z).

Record Device (D : Type) := mk_device { dev_disk : D; dev_offset : Z }.
Arguments mk_device {D} _ _.
Arguments dev_disk {D} _.
Arguments dev_offset {D} _.

Definition i64_max : Z := 9223372036854775807.

(** [x as i64] *)
Definition as_i64 (x : Z) : Z := if bool_decide (x ≤ i64_max) then x else x - 18446744073709551616.

(** [+] on [i64] *)
Definition add_i64 {S} (a b : Z) : comp S Z :=
  if bool_decide (- i64_max - 1 ≤ a + b ≤ i64_max) then mret (a + b) else panic.

Section Device.
Context {D : Type} `{Disk D}.

Definition device_seek (from : SeekFrom) : comp (Device D) Z :=
  d ← get;
  let sz := size (dev_disk d) in
  if bool_decide (i64_max < sz) then fail EOTHER else
  off ← match from with
        | SeekStart new_pos => mret (Z.min sz new_pos)
        | SeekCurrent new_pos =>
           p ← add_i64 (as_i64 (dev_offset d)) new_pos;
           mret (Z.max 0 (Z.min sz p))
        | SeekEnd new_pos =>
           p ← add_i64 sz new_pos;
           mret (Z.max 0 (Z.min p sz))
        end;
  put (mk_device (dev_disk d) off);;
  mret off.

(** The closure [read_block] of [Device::read] *)
Definition read_block (size_in_blocks block : Z) (block_bytes : bytes) : comp D bytes :=
  if bool_decide (size_in_blocks ≤ block) then fail EOVERFLOW else
  '(n, block_bytes') ← disk_read block block_bytes;
  if bool_decide (n = length block_bytes) then mret block_bytes' else panic.

Definition device_read (buf : bytes) : comp (Device D) (nat * bytes) :=
  d ← get;
  let blksize := block_size (dev_disk d) in
  size_in_blocks ← div_u64 (size (dev_disk d)) blksize;
  '(n, buf) ← zoom dev_disk (λ disk d, mk_device disk (dev_offset d))
    (block_read (read_block size_in_blocks) (dev_offset d) blksize buf);
  d ← get;
  off ← add_usize (dev_offset d) (Z.of_nat n);
  put (mk_device (dev_disk d) off);;
  mret (n, buf).

(** [std::io::Read::read_exact]: reads until the buffer is full, retries after
    an interruption, fails at the end of the input.  [pos] bytes are read.  A
    disk may be interrupted without bound, hence the fuel. *)
Fixpoint read_exact (fuel : nat) (buf : bytes) (pos : nat) : comp (Device D) bytes :=
  if bool_decide (length buf ≤ pos)%nat then mret buf else
  match fuel with
  | O => panic
  | S fuel => λ d,
     match device_read (drop pos buf) d with
     | (Ok (O, _), d') => (Err EOTHER, d')
     | (Ok (n, part), d') => read_exact fuel (take pos buf ++ part) (pos + n) d'
     | (Err EINTR, d') => read_exact fuel buf pos d'
     | (Err e, d') => (Err e, d')
     | (Panic, d') => (Panic, d')
     end
  end.
End Device.

(** ** Partition tables *)

Record Partition := mk_partition {
  start_lba : Z;
  part_size : Z;
  part_flags : option Z;
  part_name : option string;
  part_uuid : option Z;
}.

Inductive PartitionTableKind := Mbr | Gpt.

Record PartitionTable := mk_partition_table {
  partitions : list Partition;
  kind : PartitionTableKind;
}.

(** A partition entry as the [gpt] crate returns it *)
Record GptPartition := mk_gpt_partition {
  gpt_flags : Z; gpt_first_lba : Z; gpt_last_lba : Z; gpt_name : string; gpt_guid : Z;
}.

(** [scroll]'s readers of one field at a byte offset, in [scroll::LE] order *)
Class Scroll := {
  pread_u8 : bytes → nat → Z;
  pread_u16 : bytes → nat → Z;
  pread_u32 : bytes → nat → Z;
}.

(** [mbr::Entry] *)
Record Entry := mk_entry {
  drive_attrs : Z; start_head : Z; start_cs : Z; sys_id : Z;
  end_head : Z; end_cs : Z; rel_sector : Z; len : Z;
}.

(** [mbr::Header] *)
Record Header := mk_header {
  bootstrap : bytes;
  first_entry : Entry; second_entry : Entry; third_entry : Entry; fourth_entry : Entry;
  last_signature : Z;
}.

(** [Entry::is_valid] *)
Definition entry_is_valid (e : Entry) : bool :=
  (bool_decide (drive_attrs e = 0) || bool_decide (drive_attrs e = 0x80)) &&
  bool_decide (len e ≠ 0).

(** [Header::partitions] *)
Definition header_partitions (h : Header) : list Entry :=
  List.filter entry_is_valid [first_entry h; second_entry h; third_entry h; fourth_entry h].

Section Partitions.
Context {D : Type} `{Disk D} `{Scroll}.

(** [#[derive(Pread)]]: the fields in order, without padding *)
Definition pread_entry (b : bytes) (at_ : nat) : Entry :=
  mk_entry (pread_u8 b at_) (pread_u8 b (at_ + 1)) (pread_u16 b (at_ + 2))
    (pread_u8 b (at_ + 4)) (pread_u8 b (at_ + 5)) (pread_u16 b (at_ + 6))
    (pread_u32 b (at_ + 8)) (pread_u32 b (at_ + 12)).

Definition pread_header (b : bytes) : Header :=
  mk_header (take 446 b) (pread_entry b 446) (pread_entry b 462) (pread_entry b 478)
    (pread_entry b 494) (pread_u16 b 510).

Definition read_header (fuel : nat) : comp (Device D) (option Header) :=
  device_seek (SeekStart 0);;
  b ← read_exact fuel (replicate 512 0) 0;
  let header := pread_header b in
  mret (if bool_decide (last_signature header = 0xAA55) then Some header else None).

Definition get_mbr_partitions (fuel : nat) : comp (Device D) (option PartitionTable) :=
  header ← read_header fuel;
  mret (match header with
        | None => None
        | Some header =>
           Some (mk_partition_table
             ((λ p, mk_partition (rel_sector p) (len p) None None None)
                <$> header_partitions header) Mbr)
        end).

(** [size: part.last_lba - part.first_lba + 1] *)
Definition gpt_partition (part : GptPartition) : comp (Device D) Partition :=
  n ← sub_usize (gpt_last_lba part) (gpt_first_lba part);
  n ← add_usize n 1;
  mret (mk_partition (gpt_first_lba part) n (Some (gpt_flags part)) (Some (gpt_name part))
    (Some (gpt_guid part))).

Fixpoint map_comp {S A B} (f : A → comp S B) (l : list A) : comp S (list B) :=
  match l with
  | [] => mret []
  | a :: l => b ← f a; l ← map_comp f l; mret (b :: l)
  end.

(** Reading the header and the entries of a GPT, for a block size *)
Context (gpt_read : Z → comp (Device D) (list GptPartition)).

Definition get_gpt_partitions (sector_size : Z) : comp (Device D) PartitionTable :=
  parts ← gpt_read sector_size;
  parts ← map_comp gpt_partition parts;
  mret (mk_partition_table parts Gpt).

Definition get_partitions (fuel : nat) (sector_size : Z)
    : comp (Device D) (option PartitionTable) := λ d,
  match get_gpt_partitions sector_size d with
  | (Ok t, d') => (Ok (Some t), d')
  | (Err _, d') => get_mbr_partitions fuel d'
  | (Panic, d') => (Panic, d')
  end.

(** [Partition::to_offset] *)
Definition to_offset {S} (p : Partition) (sector_size : Z) : comp S Z :=
  mul_usize (start_lba p) sector_size.

(** [DiskWrapper::pt] *)
Definition wrapper_pt (fuel : nat) : comp D (option PartitionTable) := λ disk,
  let bs := block_size disk in
  if bool_decide (bs = 512) || bool_decide (bs = 4096) then
    match get_partitions fuel bs (mk_device disk 0) with
    | (Ok t, d) => (Ok t, dev_disk d)
    | (Err _, d) => (Ok None, dev_disk d)
    | (Panic, d) => (Panic, dev_disk d)
    end
  else (Ok None, disk).
End Partitions.

(** ** One disk and its partitions *)

Record DiskWrapper (D : Type) := mk_wrapper { disk : D; pt : option PartitionTable }.
Arguments mk_wrapper {D} _ _.
Arguments disk {D} _.
Arguments pt {D} _.

Section Wrapper.
Context {D : Type} `{Disk D}.

Definition on_disk {A} (m : comp D A) : comp (DiskWrapper D) A :=
  zoom disk (λ d w, mk_wrapper d (pt w)) m.

Definition part_of (w : DiskWrapper D) (part_num : nat) : option Partition :=
  t ← pt w; partitions t !! part_num.

(** The block on the disk that a block of the handle stands for *)
Definition abs_block (part_num : option nat) (block : Z) : comp (DiskWrapper D) Z :=
  match part_num with
  | None => mret block
  | Some part_num =>
     w ← get;
     part ← ok_or EBADF (part_of w part_num);
     if bool_decide (part_size part ≤ block) then fail EOVERFLOW
     else add_usize (start_lba part) block
  end.

Definition wrapper_read (part_num : option nat) (block : Z) (buf : bytes)
    : comp (DiskWrapper D) (nat * bytes) :=
  bs ← gets (λ w, block_size (disk w));
  r ← rem_u64 (Z.of_nat (length buf)) bs;
  if bool_decide (r ≠ 0) then fail EINVAL else
  block ← abs_block part_num block;
  on_disk (disk_read block buf).

Definition wrapper_write (part_num : option nat) (block : Z) (buf : bytes)
    : comp (DiskWrapper D) nat :=
  bs ← gets (λ w, block_size (disk w));
  r ← rem_u64 (Z.of_nat (length buf)) bs;
  if bool_decide (r ≠ 0) then fail EINVAL else
  block ← abs_block part_num block;
  on_disk (disk_write block buf).
End Wrapper.

(** ** The scheme *)

Inductive Handle :=
  | HList (entries : bytes)
  | HDisk (disk_num : Z)
  | HPartition (disk_num part_num : Z)
  | HSchemeRoot.

Record DiskScheme (D : Type) := mk_disk_scheme {
  scheme_name : string;
  disks : gmap Z (DiskWrapper D);
  handles : HandleMap Handle;
}.
Arguments mk_disk_scheme {D} _ _ _.
Arguments scheme_name {D} _.
Arguments disks {D} _.
Arguments handles {D} _.

Record Stat := mk_stat { st_mode : Z; st_size : Z; st_blocks : Z; st_blksize : Z }.

(** The bytes of a UTF-8 string that continue a character *)
Definition is_cont (a : ascii) : bool := utf8_cont (Z.of_N (Ascii.N_of_ascii a)).

(** [s.chars().position(|c| c == 'p')]: how many characters start before the
    first [p] *)
Fixpoint char_position (n : nat) (l : list ascii) : option nat :=
  match l with
  | [] => None
  | a :: l =>
     if Ascii.eqb a "p"%char then Some n
     else char_position (if is_cont a then n else S n) l
  end.

(** [s.is_char_boundary(i)] *)
Definition is_char_boundary (l : list ascii) (i : nat) : bool :=
  bool_decide (i = 0)%nat ||
  match l !! i with
  | None => bool_decide (i = length l)
  | Some a => negb (is_cont a)
  end.

(** [{}] of an integer *)
Definition dec (n : Z) : bytes := str_bytes (pretty n).

Section Scheme.
Context {D : Type} `{Disk D} `{SyscallAbi}.
Implicit Types s : DiskScheme D.

Definition on_handles {A} (m : comp (HandleMap Handle) A) : comp (DiskScheme D) A :=
  zoom handles (λ h s, mk_disk_scheme (scheme_name s) (disks s) h) m.

Definition get_handle (id : Z) : comp (DiskScheme D) Handle := λ s, (hm_get (handles s) id, s).

(** Does an open handle conflict with opening this disk or partition? *)
Definition conflicts (disk_i : Z) (part_i_opt : option Z) (h : Handle) : bool :=
  match h with
  | HDisk i => bool_decide (disk_i = i)
  | HPartition i p =>
     bool_decide (disk_i = i) &&
     match part_i_opt with Some part_i => bool_decide (part_i = p) | None => true end
  | _ => false
  end.

Definition check_locks (disk_i : Z) (part_i_opt : option Z) : comp (DiskScheme D) unit :=
  hs ← gets handles;
  if existsb (λ kh, conflicts disk_i part_i_opt kh.2) (btree_iter (hm_handles hs))
  then fail ENOLCK else mret tt.

Definition scheme_root : comp (DiskScheme D) Z := on_handles (hm_insert HSchemeRoot).

(** The listing: every disk, followed by its partitions *)
Definition disk_list (s : DiskScheme D) : bytes :=
  concat ((λ kd : Z * DiskWrapper D,
    dec kd.1 ++ [10] ++
    match pt kd.2 with
    | None => []
    | Some t => concat ((λ part_num : nat,
        dec kd.1 ++ str_bytes "p" ++ dec (Z.of_nat part_num) ++ [10])
          <$> seq 0 (length (partitions t)))
    end) <$> btree_iter (disks s)).

(** The handle for a path [<disk>p<partition>]; [p_pos] is the position of the
    [p] in characters, used as a byte index *)
Definition open_partition (path_str : list ascii) (p_pos : nat) : comp (DiskScheme D) Handle :=
  if negb (is_char_boundary path_str p_pos) then panic else
  let nsid_str := take p_pos path_str in
  if bool_decide (length path_str ≤ p_pos + 1)%nat then fail ENOENT else
  if negb (is_char_boundary path_str (p_pos + 1)) then panic else
  let part_num_str := drop (p_pos + 1) path_str in
  nsid ← ok_or ENOENT (parse_uint u32_max nsid_str);
  part_num ← ok_or ENOENT (parse_uint u32_max part_num_str);
  ds ← gets disks;
  w ← ok_or ENOENT (ds !! nsid);
  t ← ok_or ENOENT (pt w);
  if bool_decide (is_Some (partitions t !! Z.to_nat part_num)) then
    check_locks nsid (Some part_num);;
    mret (HPartition nsid part_num)
  else fail ENOENT.

Definition open_disk (path_str : list ascii) : comp (DiskScheme D) Handle :=
  nsid ← ok_or ENOENT (parse_uint u32_max path_str);
  ds ← gets disks;
  if bool_decide (is_Some (ds !! nsid)) then
    check_locks nsid None;;
    mret (HDisk nsid)
  else fail ENOENT.

Definition openat (dirfd : Z) (path : string) (flags uid : Z) : comp (DiskScheme D) Z :=
  root ← get_handle dirfd;
  match root with
  | HSchemeRoot =>
     if bool_decide (uid ≠ 0) then fail EACCES else
     let path_str := trim_slashes path in
     handle ←
       (if bool_decide (path_str = []) then
          if has_flag flags O_DIRECTORY || has_flag flags O_STAT then
            list ← gets disk_list;
            mret (HList list)
          else fail EISDIR
        else match char_position 0 path_str with
             | Some p_pos => open_partition path_str p_pos
             | None => open_disk path_str
             end);
     on_handles (hm_insert handle)
  | _ => fail EACCES
  end.

Definition getdents (id : Z) : comp (DiskScheme D) unit := fail EOPNOTSUPP.

(** A call on one of the disks: [self.disks.get_mut(&n).ok_or(EBADF)?] *)
Definition on_wrapper {A} (n : Z) (m : comp (DiskWrapper D) A) : comp (DiskScheme D) A :=
  ds ← gets disks;
  w ← ok_or EBADF (ds !! n);
  zoom (λ _, w) (λ w s, mk_disk_scheme (scheme_name s) (<[n := w]> (disks s)) (handles s)) m.

(** The length of a partition in bytes *)
Definition part_bytes (part_num : Z) : comp (DiskWrapper D) Z :=
  w ← get;
  part ← ok_or EBADF (part_of w (Z.to_nat part_num));
  mul_usize (part_size part) (block_size (disk w)).

Definition fstat (id : Z) : comp (DiskScheme D) Stat :=
  h ← get_handle id;
  match h with
  | HList data => mret (mk_stat MODE_DIR (Z.of_nat (length data)) 0 0)
  | HDisk number =>
     on_wrapper number (
       w ← get;
       blocks ← div_u64 (size (disk w)) (block_size (disk w));
       mret (mk_stat MODE_FILE (size (disk w)) blocks (block_size (disk w))))
  | HPartition disk_num part_num =>
     on_wrapper disk_num (
       w ← get;
       part ← ok_or EBADF (part_of w (Z.to_nat part_num));
       n ← part_bytes part_num;
       mret (mk_stat MODE_FILE n (part_size part) (block_size (disk w))))
  | HSchemeRoot => fail EBADF
  end.

Definition fpath (id : Z) (buf : bytes) : comp (DiskScheme D) (outcome nat * bytes) :=
  s ← get;
  mret (fpath_with_legacy buf (scheme_name s)
    (match hm_get (handles s) id with
     | Ok (HList _) => mret tt
     | Ok (HDisk number) => push_str (dec number)
     | Ok (HPartition disk_num part_num) =>
        push_str (dec disk_num);; push_str (str_bytes "p");; push_str (dec part_num)
     | Ok HSchemeRoot => fail EBADF
     | Err e => fail e
     | Panic => panic
     end)).

Definition read (id : Z) (buf : bytes) (offset : Z) : comp (DiskScheme D) (nat * bytes) :=
  h ← get_handle id;
  match h with
  | HList data =>
     let src := drop (Z.to_nat offset) data in
     let count := Nat.min (length src) (length buf) in
     mret (count, copy_at buf 0 (take count src))
  | HDisk number =>
     on_wrapper number (
       bs ← gets (λ w, block_size (disk w));
       block ← div_u64 offset bs;
       wrapper_read None block buf)
  | HPartition disk_num part_num =>
     on_wrapper disk_num (
       bs ← gets (λ w, block_size (disk w));
       block ← div_u64 offset bs;
       wrapper_read (Some (Z.to_nat part_num)) block buf)
  | HSchemeRoot => fail EBADF
  end.

Definition write (id : Z) (buf : bytes) (offset : Z) : comp (DiskScheme D) nat :=
  h ← get_handle id;
  match h with
  | HList _ => fail EBADF
  | HDisk number =>
     on_wrapper number (
       bs ← gets (λ w, block_size (disk w));
       block ← div_u64 offset bs;
       wrapper_write None block buf)
  | HPartition disk_num part_num =>
     on_wrapper disk_num (
       bs ← gets (λ w, block_size (disk w));
       block ← div_u64 offset bs;
       wrapper_write (Some (Z.to_nat part_num)) block buf)
  | HSchemeRoot => fail EBADF
  end.

Definition fsize (id : Z) : comp (DiskScheme D) Z :=
  h ← get_handle id;
  match h with
  | HList data => mret (Z.of_nat (length data))
  | HDisk number => on_wrapper number (gets (λ w, size (disk w)))
  | HPartition disk_num part_num => on_wrapper disk_num (part_bytes part_num)
  | HSchemeRoot => fail EBADF
  end.

Definition on_close (id : Z) : comp (DiskScheme D) unit := on_handles (hm_remove id);; mret tt.
End Scheme.

(** ** Reading a flat disk *)

Section DeviceSpec.
Context {D : Type} `{DiskLaws D}.

(** The disk is still the one with this contents and block size *)
Definition same_disk (d0 d1 : D) : Prop :=
  disk_inv d1 ∧ contents d1 = contents d0 ∧ block_size d1 = block_size d0.

Lemma size_same (d0 d1 : D) : disk_inv d0 → same_disk d0 d1 → size d1 = size d0.
Proof. intros ? (? & Hc & _). rewrite !size_contents by done. by rewrite Hc. Qed.

Lemma read_block_spec (d0 d1 : D) b old :
  disk_inv d0 → same_disk d0 d1 → 0 ≤ b →
  (b + 1) * block_size d0 ≤ Z.of_nat (length (contents d0)) →
  length old = Z.to_nat (block_size d0) →
  wp (read_block (size d0 `div` block_size d0) b old) (λ r d2,
    r = Ok (slice (contents d0) (Z.to_nat (b * block_size d0)) (Z.to_nat (block_size d0))) ∧
    same_disk d0 d2) d1.
Proof.
  intros Hd0 Hsame Hb Hend Hold. pose proof (block_size_range d0 Hd0).
  pose proof (size_same d0 d1 Hd0 Hsame) as Hsz. destruct Hsame as (Hd1 & Hc & Hbs).
  rewrite <- (size_contents d0 Hd0) in Hend.
  unfold read_block. rewrite bool_decide_eq_false_2.
  2: { assert (b + 1 ≤ size d0 `div` block_size d0) by (apply Z.div_le_lower_bound; lia). lia. }
  wp_step. eapply wp_mono; [apply disk_read_law; try done|].
  - rewrite Hold, Z2Nat.id, Hbs by lia. apply Z.mod_same. lia.
  - rewrite Hold, Z2Nat.id, Hsz, Hbs by lia. lia.
  - intros r d2 (-> & Hd2 & Hc2 & Hbs2). rewrite bool_decide_eq_true_2 by done. wp_go.
    split; [congruence|]. split_and!; congruence.
Qed.

Lemma device_read_spec (d : Device D) buf :
  disk_inv (dev_disk d) → 0 ≤ dev_offset d →
  dev_offset d + Z.of_nat (length buf) ≤ size (dev_disk d) →
  wp (device_read buf) (λ r d',
    r = Ok (length buf, slice (contents (dev_disk d)) (Z.to_nat (dev_offset d)) (length buf)) ∧
    same_disk (dev_disk d) (dev_disk d') ∧
    dev_offset d' = dev_offset d + Z.of_nat (length buf)) d.
Proof.
  intros Hd Hoff Hend. pose proof (block_size_range _ Hd). pose proof (size_i64 _ Hd).
  pose proof (size_contents _ Hd) as Hsz. pose proof (size_whole_blocks _ Hd) as Hwhole.
  unfold device_read, div_u64. do 2 wp_step. rewrite bool_decide_eq_false_2 by lia.
  do 4 wp_step.
  eapply wp_mono; [apply (block_read_spec _ (same_disk (dev_disk d)) (contents (dev_disk d)));
    [done|..]|].
  - intros. by apply read_block_spec.
  - by rewrite <- Hsz.
  - ints.
  - done.
  - done.
  - lia.
  - intros r d1 (-> & Hsame). cbn. wp_go. apply wp_add_usize; [cbn; ints|]. by wp_go.
Qed.
End DeviceSpec.

(** [Device::read], which splits a read at any byte offset into whole-block
    reads through [block_read], agrees with the flat array of the disk's bytes:
    on a disk that satisfies the block interface, a read inside the disk fills
    the whole buffer with the bytes at the offset, moves the offset past them
    and leaves the disk as it was. *)
Theorem device_read_flat {D} `{DiskLaws D} (d : Device D) (buf : bytes) :
  disk_inv (dev_disk d) → 0 ≤ dev_offset d →
  dev_offset d + Z.of_nat (length buf) ≤ size (dev_disk d) →
  ∃ disk', device_read buf d =
    (Ok (length buf, slice (contents (dev_disk d)) (Z.to_nat (dev_offset d)) (length buf)),
     mk_device disk' (dev_offset d + Z.of_nat (length buf))) ∧
    disk_inv disk' ∧ contents disk' = contents (dev_disk d).
Proof.
  intros Hd Hoff Hend. pose proof (device_read_spec d buf Hd Hoff Hend) as Hwp.
  unfold wp in Hwp. destruct (device_read buf d) as [r [disk' off']]. cbn in Hwp.
  destruct Hwp as (-> & (? & ? & _) & ->). by exists disk'.
Qed.

(** ** Partition tables from a flat disk *)

Definition byte_at (l : bytes) (i : nat) : Z := default 0 (l !! i).
Definition le16 (l : bytes) (i : nat) : Z := byte_at l i + 0x100 * byte_at l (i + 1).
Definition le32 (l : bytes) (i : nat) : Z := le16 l i + 0x10000 * le16 l (i + 2).

(** What the code relies on of [scroll] *)
Class ScrollLaws `{Scroll} : Prop := {
  pread_u8_le b i : (i < length b)%nat → pread_u8 b i = byte_at b i;
  pread_u16_le b i : (i + 1 < length b)%nat → pread_u16 b i = le16 b i;
  pread_u32_le b i : (i + 3 < length b)%nat → pread_u32 b i = le32 b i;
}.

(** The primary partitions of a boot sector: of the four 16-byte records from
    byte 446 on, those with a plain or bootable attribute and a length *)
Definition mbr_reference (l : bytes) : list Partition :=
  omap (λ at_ : nat,
    if (bool_decide (byte_at l at_ = 0) || bool_decide (byte_at l at_ = 0x80)) &&
       bool_decide (le32 l (at_ + 12) ≠ 0)
    then Some (mk_partition (le32 l (at_ + 8)) (le32 l (at_ + 12)) None None None)
    else None) [446; 462; 478; 494]%nat.

Section MbrSpec.
Context {D : Type} `{DiskLaws D} `{ScrollLaws}.

Lemma byte_at_slice l n i : (i < n)%nat → byte_at (slice l 0 n) i = byte_at l i.
Proof. intros. unfold byte_at. by rewrite lookup_slice, bool_decide_eq_true_2 by done. Qed.

Lemma le16_slice l n i : (i + 1 < n)%nat → le16 (slice l 0 n) i = le16 l i.
Proof. intros. unfold le16. by rewrite !byte_at_slice by lia. Qed.

Lemma le32_slice l n i : (i + 3 < n)%nat → le32 (slice l 0 n) i = le32 l i.
Proof. intros. unfold le32. by rewrite !le16_slice by lia. Qed.

Lemma header_partitions_reference l :
  (512 ≤ length l)%nat →
  (λ p, mk_partition (rel_sector p) (len p) None None None)
     <$> header_partitions (pread_header (slice l 0 512)) = mbr_reference l.
Proof.
  intros Hl. pose proof (length_slice l 0 512 Hl) as Hlen.
  assert (∀ at_, (at_ + 16 ≤ 512)%nat → ∀ rest,
    (λ p, mk_partition (rel_sector p) (len p) None None None)
      <$> List.filter entry_is_valid (pread_entry (slice l 0 512) at_ :: rest) =
    (if (bool_decide (byte_at l at_ = 0) || bool_decide (byte_at l at_ = 0x80)) &&
        bool_decide (le32 l (at_ + 12) ≠ 0)
     then [mk_partition (le32 l (at_ + 8)) (le32 l (at_ + 12)) None None None] else []) ++
    ((λ p, mk_partition (rel_sector p) (len p) None None None)
      <$> List.filter entry_is_valid rest)) as Hstep.
  { intros at_ Hat rest. cbn [List.filter].
    change (entry_is_valid (pread_entry (slice l 0 512) at_)) with
      ((bool_decide (pread_u8 (slice l 0 512) at_ = 0) ||
        bool_decide (pread_u8 (slice l 0 512) at_ = 0x80)) &&
       bool_decide (pread_u32 (slice l 0 512) (at_ + 12) ≠ 0)).
    rewrite !pread_u8_le, !pread_u32_le, byte_at_slice, le32_slice by lia.
    destruct (_ && _); [|done]. cbn [fmap list_fmap app]. f_equal.
    unfold pread_entry; cbn [rel_sector len].
    by rewrite !pread_u32_le, !le32_slice by lia. }
  unfold header_partitions, pread_header.
  cbn [first_entry second_entry third_entry fourth_entry].
  rewrite !Hstep by lia. cbn [List.filter fmap list_fmap]. unfold mbr_reference.
  cbn [omap list_omap]. by repeat case_match.
Qed.

Lemma read_exact_spec (d : Device D) fuel buf :
  (0 < fuel)%nat → (0 < length buf)%nat → disk_inv (dev_disk d) → 0 ≤ dev_offset d →
  dev_offset d + Z.of_nat (length buf) ≤ size (dev_disk d) →
  wp (read_exact fuel buf 0) (λ r d',
    r = Ok (slice (contents (dev_disk d)) (Z.to_nat (dev_offset d)) (length buf)) ∧
    same_disk (dev_disk d) (dev_disk d')) d.
Proof.
  intros Hfuel Hbuf Hd Hoff Hend. destruct fuel as [|fuel]; [lia|].
  pose proof (device_read_spec d buf Hd Hoff Hend) as Hwp. unfold wp in *.
  cbn [read_exact]. rewrite bool_decide_eq_false_2, drop_0 by lia.
  destruct (device_read buf d) as [r d']. cbn in Hwp. destruct Hwp as (-> & Hsame & _).
  pose proof (size_contents _ Hd).
  destruct (length buf) as [|n] eqn:Hn; [lia|].
  pose proof (length_slice (contents (dev_disk d)) (Z.to_nat (dev_offset d)) (S n) ltac:(lia))
    as Hlen.
  rewrite take_0. cbn [app Nat.add]. destruct fuel; cbn [read_exact];
    by rewrite bool_decide_eq_true_2 by lia.
Qed.

Lemma get_mbr_partitions_spec (d : Device D) fuel :
  (0 < fuel)%nat → disk_inv (dev_disk d) → 512 ≤ size (dev_disk d) →
  wp (get_mbr_partitions fuel) (λ r d',
    r = Ok (if bool_decide (le16 (contents (dev_disk d)) 510 = 0xAA55)
            then Some (mk_partition_table (mbr_reference (contents (dev_disk d))) Mbr)
            else None) ∧
    same_disk (dev_disk d) (dev_disk d')) d.
Proof.
  intros Hfuel Hd Hsize. pose proof (size_i64 _ Hd). pose proof (size_contents _ Hd).
  unfold get_mbr_partitions, read_header, device_seek. do 4 wp_step.
  rewrite bool_decide_eq_false_2 by (unfold i64_max; lia). do 6 wp_step.
  rewrite Z.min_r by lia.
  eapply wp_mono; [apply read_exact_spec; rewrite ?length_replicate; cbn; try done; lia|].
  intros r d' [-> Hsame]. cbn [dev_disk dev_offset]. rewrite length_replicate.
  change (Z.to_nat 0) with 0%nat. wp_go. split; [|done]. f_equal.
  change (last_signature (pread_header ?b)) with (pread_u16 b 510).
  rewrite pread_u16_le, le16_slice by (rewrite ?length_slice; lia).
  case_bool_decide; [|done]. do 2 f_equal. apply header_partitions_reference. lia.
Qed.
End MbrSpec.

(** On a disk without a GPT, [DiskWrapper::pt] finds the MBR partition table
    of the disk's first sector: a table exactly when the sector ends in the boot
    signature, holding, in order, the records of the sector that [is_valid]
    accepts with their start and length; the disk is left as it was. *)
Theorem mbr_partition_table {D} `{DiskLaws D} `{ScrollLaws}
    (gpt_read : Z → comp (Device D) (list GptPartition)) (d : D) (fuel : nat) :
  (∀ bs dev, wp (gpt_read bs) (λ r dev', (∃ e, r = Err e) ∧
     (disk_inv (dev_disk dev) → same_disk (dev_disk dev) (dev_disk dev'))) dev) →
  (0 < fuel)%nat → disk_inv d → 512 ≤ size d → block_size d = 512 ∨ block_size d = 4096 →
  ∃ d', wrapper_pt gpt_read fuel d =
    (Ok (if bool_decide (le16 (contents d) 510 = 0xAA55)
         then Some (mk_partition_table (mbr_reference (contents d)) Mbr) else None), d') ∧
    same_disk d d'.
Proof.
  intros Hgpt Hfuel Hd Hsize Hbs. unfold wrapper_pt, get_partitions, get_gpt_partitions.
  replace (bool_decide (block_size d = 512) || bool_decide (block_size d = 4096)) with true
    by (symmetry; apply orb_true_iff; rewrite !bool_decide_eq_true; done).
  specialize (Hgpt (block_size d) (mk_device d 0)). unfold wp in Hgpt.
  unfold mbind, comp_bind. destruct (gpt_read _ _) as [r dev]. cbn in Hgpt.
  destruct Hgpt as [[e ->] Hsame]. specialize (Hsame Hd).
  pose proof (size_same d _ Hd Hsame) as Hsz.
  pose proof (get_mbr_partitions_spec dev fuel Hfuel (proj1 Hsame) ltac:(lia)) as Hmbr.
  unfold wp in Hmbr. destruct (get_mbr_partitions fuel dev) as [r' dev']. cbn in Hmbr.
  destruct Hsame as (_ & Hc & Hb). destruct Hmbr as [-> (? & ? & ?)]. rewrite Hc.
  eexists. split; [done|]. split_and!; congruence.
Qed.

(** ** Locking *)

Inductive disk_op :=
  | OpRoot
  | OpOpenat (dirfd : Z) (path : string) (flags uid : Z)
  | OpFstat (id : Z)
  | OpRead (id : Z) (buf : bytes) (offset : Z)
  | OpWrite (id : Z) (buf : bytes) (offset : Z)
  | OpFsize (id : Z)
  | OpClose (id : Z).

(** Two handles whose blocks may be the same *)
Definition overlap (h1 h2 : Handle) : Prop :=
  match h1, h2 with
  | HDisk i, HDisk j => i = j
  | HDisk i, HPartition j _ | HPartition i _, HDisk j => i = j
  | HPartition i p, HPartition j q => i = j ∧ p = q
  | _, _ => False
  end.

Section Locks.
Context {D : Type} `{Disk D} `{SyscallAbi}.
Implicit Types s : DiskScheme D.

Definition disk_step (op : disk_op) : comp (DiskScheme D) unit :=
  match op with
  | OpRoot => scheme_root;; mret tt
  | OpOpenat dirfd path flags uid => openat dirfd path flags uid;; mret tt
  | OpFstat id => fstat id;; mret tt
  | OpRead id buf offset => read id buf offset;; mret tt
  | OpWrite id buf offset => write id buf offset;; mret tt
  | OpFsize id => fsize id;; mret tt
  | OpClose id => on_close id
  end.

Fixpoint disk_run (ops : list disk_op) : comp (DiskScheme D) unit :=
  match ops with
  | [] => mret tt
  | op :: ops => attempt (disk_step op);; disk_run ops
  end.

Definition exclusive s : Prop :=
  ∀ i j h1 h2, i ≠ j → hm_handles (handles s) !! i = Some h1 →
    hm_handles (handles s) !! j = Some h2 → ¬ overlap h1 h2.

(** The lock invariant, with room for [n] more handles *)
Record locks (n : nat) s : Prop := {
  locks_wf : hm_wf (handles s);
  locks_room : Z.of_nat (base.size (hm_handles (handles s)) + n) ≤ usize_max;
  locks_exclusive : exclusive s;
}.

Definition compatible s (h : Handle) : Prop :=
  ∀ i h', hm_handles (handles s) !! i = Some h' → ¬ overlap h h'.

Lemma overlap_sym h1 h2 : overlap h1 h2 → overlap h2 h1.
Proof. destruct h1, h2; cbn; intuition congruence. Qed.

Lemma locks_weaken n m s : (m ≤ n)%nat → locks n s → locks m s.
Proof. intros ? []. split; [done|lia|done]. Qed.

Lemma insert_locks n s h :
  compatible s h → locks (S n) s → wp (on_handles (hm_insert h)) (λ _ s', locks n s') s.
Proof.
  intros Hnew [Hwf Hroom Hex]. unfold on_handles. wp_step.
  apply hm_insert_wp; [done|unfold hm_room; lia|]. intros next m' Hwf'.
  split; cbn [handles]; [done| |].
  - unfold m'; cbn. rewrite map_size_insert_None by apply Hwf. lia.
  - intros i j h1 h2 Hij. unfold m'; cbn.
    rewrite !lookup_insert_Some. intros [[<- <-]|[? Hi]] [[<- <-]|[? Hj]]; try done.
    + by eapply Hnew.
    + intros Ho%overlap_sym. by eapply Hnew.
    + by apply (Hex i j).
Qed.

Lemma check_locks_spec disk_i part s :
  wp (check_locks disk_i part) (λ r s', s' = s ∧ (r = Ok tt →
    compatible s (match part with Some p => HPartition disk_i p | None => HDisk disk_i end))) s.
Proof.
  unfold check_locks. wp_go; (split; [done|]); [done|]. intros _ i h Hi.
  assert (conflicts disk_i part h = false) as Hc.
  { apply not_true_iff_false. intros Hc. apply not_true_iff_false in Heqb. apply Heqb.
    apply existsb_exists. exists (i, h). split; [|done].
    by apply list_elem_of_In, elem_of_btree_iter. }
  destruct part, h; cbn in *; try done; rewrite ?andb_false_iff, ?bool_decide_eq_false in Hc;
    naive_solver.
Qed.

Lemma open_partition_compatible l p s :
  wp (open_partition l p) (λ r s', s' = s ∧ ∀ h, r = Ok h → compatible s h) s.
Proof.
  unfold open_partition. wp_go; try done.
  eapply wp_mono; [apply check_locks_spec|]. intros [] ? [-> Hc]; [wp_go|done|done].
  split; [done|]. intros ? [= <-]. destruct a. by apply Hc.
Qed.

Lemma open_disk_compatible l s :
  wp (open_disk l) (λ r s', s' = s ∧ ∀ h, r = Ok h → compatible s h) s.
Proof.
  unfold open_disk. wp_go; try done.
  eapply wp_mono; [apply check_locks_spec|]. intros [] ? [-> Hc]; [wp_go|done|done].
  split; [done|]. intros ? [= <-]. destruct a. by apply Hc.
Qed.

Lemma openat_locks n s dirfd path flags uid :
  locks (S n) s → wp (openat dirfd path flags uid) (λ _ s', locks n s') s.
Proof.
  intros Hs. pose proof (locks_weaken (S n) n s ltac:(lia) Hs) as Hs'.
  unfold openat. wp_step.
  change (wp (get_handle dirfd) ?Q s) with (Q (hm_get (handles s) dirfd) s).
  destruct (hm_get (handles s) dirfd) as [[]| |]; try done. wp_step; [done|].
  wp_step. eapply (wp_mono _ (λ r s', s' = s ∧ ∀ h, r = Ok h → compatible s h)).
  - wp_step; [|wp_step; [apply open_partition_compatible|apply open_disk_compatible]].
    wp_go; [|done]. split; [done|]. intros ? [= <-]. by intros ??? [].
  - intros [h| |] ? [-> Hc]; [|done|done]. apply insert_locks; auto.
Qed.

Lemma on_wrapper_handles {A} n (m : comp (DiskWrapper D) A) s :
  wp (on_wrapper n m) (λ _ s', handles s' = handles s) s.
Proof. unfold on_wrapper. wp_go; [|done]. unfold wp. by destruct (m _). Qed.

(** The operations on a handle leave the handle table as it is. *)
Lemma handle_op_handles {A} id (k : Handle → comp (DiskScheme D) A) s :
  (∀ h, wp (k h) (λ _ s', handles s' = handles s) s) →
  wp (get_handle id ≫= k) (λ _ s', handles s' = handles s) s.
Proof.
  intros Hk. wp_step. unfold wp at 1, get_handle. cbn. by destruct (hm_get _ _).
Qed.

Lemma locks_handles n s s' : handles s' = handles s → locks n s → locks n s'.
Proof. intros Heq []. split; unfold exclusive in *; rewrite ?Heq; auto. Qed.

Lemma handle_op_locks {A} n id (k : Handle → comp (DiskScheme D) A) s :
  locks n s → (∀ h, wp (k h) (λ _ s', handles s' = handles s) s) →
  wp ((get_handle id ≫= k);; mret tt) (λ _ s', locks n s') s.
Proof.
  intros Hs Hk. wp_step. eapply wp_mono; [by apply handle_op_handles|].
  intros [] ? Heq; by eapply locks_handles.
Qed.

Lemma disk_step_locks n s op :
  locks (S n) s → wp (disk_step op) (λ _ s', locks n s') s.
Proof.
  intros Hs. pose proof (locks_weaken (S n) n s ltac:(lia) Hs) as Hs'.
  destruct op; cbn [disk_step].
  - wp_step. eapply wp_mono; [apply insert_locks; [|done]; by intros ??? []|].
    by intros [] ??.
  - wp_step. eapply wp_mono; [by apply openat_locks|]. by intros [] ??.
  - by apply handle_op_locks; [|intros []; first [apply on_wrapper_handles | by wp_go]].
  - by apply handle_op_locks; [|intros []; first [apply on_wrapper_handles | by wp_go]].
  - by apply handle_op_locks; [|intros []; first [apply on_wrapper_handles | by wp_go]].
  - by apply handle_op_locks; [|intros []; first [apply on_wrapper_handles | by wp_go]].
  - unfold on_close, on_handles, hm_remove. wp_go. destruct Hs' as [Hwf Hroom Hex].
    split; cbn [handles hm_handles]; [by apply hm_remove_wf| |].
    + rewrite map_size_delete. case_match; unfold Datatypes.id; lia.
    + intros i j h1 h2 Hij. cbn. rewrite !lookup_delete_Some. intros [_ ?] [_ ?]. by apply (Hex i j).
Qed.
End Locks.

(** C36. The disk scheme's locking: from a scheme without handles, after any
    sequence of requests (opens of any path, reads, writes, closes, also ones
    that fail), no two open handles overlap.  A disk is open at most once, and
    then none of its partitions is open; a partition is open at most once. *)
Theorem disk_locks_exclusive {D} `{Disk D} `{SyscallAbi} (name : string)
    (ds : gmap Z (DiskWrapper D)) (ops : list disk_op) :
  Z.of_nat (length ops) ≤ usize_max →
  exclusive (disk_run ops (mk_disk_scheme name ds hm_new)).2.
Proof.
  intros Hlen.
  assert (∀ s, locks (length ops) s → exclusive (disk_run ops s).2) as Hrun.
  { clear Hlen. induction ops as [|op ops IH]; intros s Hs; cbn in *; [apply Hs|].
    pose proof (disk_step_locks _ s op Hs) as Hstep. unfold wp in Hstep.
    unfold mbind, comp_bind, attempt.
    destruct (disk_step op s) as [[]  s'] eqn:E; cbn in *; [auto..|apply Hstep]. }
  apply Hrun. split; cbn; [apply hm_new_wf|rewrite map_size_empty; lia|by intros ????? ?].
Qed.

(** ** Transfers through a partition handle *)

Section PartitionIo.
Context {D : Type} `{DiskLaws D} `{SyscallAbi}.
Implicit Types s : DiskScheme D.

(** [id] is open on a partition of a disk that satisfies the interface. *)
Record on_partition (id : Z) (n p : Z) (w : DiskWrapper D) (part : Partition) s : Prop := {
  op_handle : hm_handles (handles s) !! id = Some (HPartition n p);
  op_disk : disks s !! n = Some w;
  op_part : part_of w (Z.to_nat p) = Some part;
  op_inv : disk_inv (disk w);
  op_start : 0 ≤ start_lba part;
}.

(** The request is inside the disk. *)
Record in_disk (w : DiskWrapper D) (part : Partition) (len : nat) (offset : Z) : Prop := {
  id_offset : 0 ≤ offset;
  id_len : Z.of_nat len `mod` block_size (disk w) = 0;
  id_first : offset `div` block_size (disk w) < part_size part;
  id_end : (start_lba part + offset `div` block_size (disk w)) * block_size (disk w) +
    Z.of_nat len ≤ size (disk w);
}.

(** Where on the disk the transfer starts *)
Definition disk_pos (w : DiskWrapper D) (part : Partition) (offset : Z) : nat :=
  Z.to_nat ((start_lba part + offset `div` block_size (disk w)) * block_size (disk w)).

Lemma get_handle_wp {A} id h (k : Handle → comp (DiskScheme D) A) Q s :
  hm_handles (handles s) !! id = Some h → wp (k h) Q s → wp (get_handle id ≫= k) Q s.
Proof.
  intros Hh Hk. wp_step. unfold wp at 1, get_handle, hm_get. cbn. by rewrite Hh.
Qed.

Lemma abs_block_wp (w : DiskWrapper D) part p block Q :
  part_of w p = Some part → 0 ≤ start_lba part → block < part_size part →
  start_lba part + block ≤ usize_max → Q (Ok (start_lba part + block)) w →
  wp (abs_block (Some p) block) Q w.
Proof.
  intros Hp Hs Hb Hfit HQ. unfold abs_block. do 3 wp_step. rewrite Hp. wp_step.
  rewrite bool_decide_eq_false_2 by lia. by apply wp_add_usize.
Qed.

Section Request.
Context (id n p : Z) (w : DiskWrapper D) (part : Partition) (s : DiskScheme D).
Context (buf : bytes) (offset : Z).
Hypothesis Hon : on_partition id n p w part s.
Hypothesis Hin : in_disk w part (length buf) offset.

Lemma request_bounds :
  0 < block_size (disk w) ∧ 0 ≤ offset `div` block_size (disk w) ∧
  start_lba part + offset `div` block_size (disk w) ≤ usize_max.
Proof using Hon Hin.
  destruct Hon as [_ _ _ Hi Hs], Hin as [Ho _ _ He].
  pose proof (block_size_range _ Hi). pose proof (size_i64 _ Hi).
  pose proof (Z.div_pos offset (block_size (disk w))). split_and!; [lia|lia|].
  remember (start_lba part + offset `div` block_size (disk w)) as x.
  assert (x ≤ x * block_size (disk w)) by nia. ints.
Qed.

(** The state after the disk of the handle became [d] *)
Definition with_disk (d : D) : DiskScheme D :=
  mk_disk_scheme (scheme_name s) (<[n := mk_wrapper d (pt w)]> (disks s)) (handles s).

Lemma write_partition_spec :
  wp (write id buf offset) (λ r s', r = Ok (length buf) ∧ ∃ d,
    s' = with_disk d ∧ disk_inv d ∧ block_size d = block_size (disk w) ∧
    contents d = copy_at (contents (disk w)) (disk_pos w part offset) buf) s.
Proof using Hon Hin.
  destruct request_bounds as (Hbs & Hb & Hfit).
  destruct Hon as [Hh Hd Hp Hi Hs], Hin as [Ho Hl Hf He].
  unfold write. eapply get_handle_wp; [done|]. unfold on_wrapper, wrapper_write.
  do 3 wp_step. rewrite Hd. do 5 wp_step. apply wp_div_u64; [done|].
  do 3 wp_step. apply wp_rem_u64; [done|].
  rewrite bool_decide_eq_false_2 by (rewrite Hl; tauto). wp_step.
  eapply abs_block_wp; [done|done|done|done|]. unfold on_disk. wp_step.
  eapply wp_mono; [apply disk_write_law; [done|lia|done|done]|].
  intros r d (-> & ? & Hc & ?). split; [done|]. by exists d.
Qed.

Lemma read_partition_spec :
  wp (read id buf offset) (λ r _,
    r = Ok (length buf, slice (contents (disk w)) (disk_pos w part offset) (length buf))) s.
Proof using Hon Hin.
  destruct request_bounds as (Hbs & Hb & Hfit).
  destruct Hon as [Hh Hd Hp Hi Hs], Hin as [Ho Hl Hf He].
  unfold read. eapply get_handle_wp; [done|]. unfold on_wrapper, wrapper_read.
  do 3 wp_step. rewrite Hd. do 5 wp_step. apply wp_div_u64; [done|].
  do 3 wp_step. apply wp_rem_u64; [done|].
  rewrite bool_decide_eq_false_2 by (rewrite Hl; tauto). wp_step.
  eapply abs_block_wp; [done|done|done|done|]. unfold on_disk. wp_step.
  eapply wp_mono; [apply disk_read_law; [done|lia|done|done]|].
  by intros r d (-> & _).
Qed.
End Request.
End PartitionIo.

(** C39. Transfers through a partition handle that are block aligned and end inside
    the partition are confined to it: the write succeeds, every byte of the disk
    outside the partition keeps its value, and a read of the same range through
    the same handle returns what was written. *)
Theorem partition_write_confined {D} `{DiskLaws D} `{SyscallAbi} (s : DiskScheme D)
    (id n p : Z) (w : DiskWrapper D) (part : Partition) (buf old : bytes) (offset : Z) :
  on_partition id n p w part s → in_disk w part (length buf) offset →
  offset `mod` block_size (disk w) = 0 →
  offset + Z.of_nat (length buf) ≤ part_size part * block_size (disk w) →
  length old = length buf →
  ∃ d, write id buf offset s = (Ok (length buf), with_disk n w s d) ∧
    (∀ i : nat, Z.of_nat i < start_lba part * block_size (disk w) ∨
       (start_lba part + part_size part) * block_size (disk w) ≤ Z.of_nat i →
       contents d !! i = contents (disk w) !! i) ∧
    (read id old offset (with_disk n w s d)).1 = Ok (length buf, buf).
Proof.
  intros Hon Hin Halign Hend Hold.
  destruct (request_bounds id n p w part s buf offset Hon Hin) as (Hbs & Hb & _).
  pose proof (write_partition_spec id n p w part s buf offset Hon Hin) as Hw.
  unfold wp in Hw. destruct (write id buf offset s) as [r s']. cbn in Hw.
  destruct Hw as (-> & d & -> & Hd & Hdbs & Hc). exists d. split; [done|].
  pose proof (Z.div_mod offset (block_size (disk w))) as Hdiv.
  destruct Hon as [Hh Hn Hp Hi Hs], Hin as [Ho Hl Hf He].
  rewrite (size_contents _ Hi) in He.
  assert (disk_pos w part offset + length buf ≤ length (contents (disk w)))%nat as Hfits.
  { unfold disk_pos. nia. }
  split.
  - intros i Hout. rewrite Hc, lookup_copy_at, bool_decide_eq_false_2; [done| |done].
    unfold disk_pos. nia.
  - assert (size d = size (disk w)) as Hsz.
    { rewrite !size_contents, Hc, length_copy_at by done. done. }
    pose proof (read_partition_spec id n p (mk_wrapper d (pt w)) part (with_disk n w s d) old
      offset) as Hr.
    unfold wp in Hr. rewrite Hr, Hold.
    + replace (disk_pos (mk_wrapper d (pt w)) part offset) with (disk_pos w part offset)
        by (unfold disk_pos; cbn [disk]; by rewrite Hdbs).
      cbn [disk]. rewrite Hc. do 2 f_equal.
      apply list_eq. intros k. rewrite lookup_slice. case_bool_decide.
      * rewrite lookup_copy_at, bool_decide_eq_true_2 by lia. f_equal. lia.
      * symmetry. apply lookup_ge_None_2. lia.
    + split; cbn; [done|apply lookup_insert_eq|done|done|done].
    + rewrite Hold. split; cbn; rewrite ?Hdbs, ?Hsz, ?(size_contents _ Hi); done.
Qed.

(** The end of a partition is not checked: a write of two blocks at the last
    block of a partition succeeds and overwrites the block after the partition,
    because [DiskWrapper::write] compares only the first block with the
    partition's size. *)
Theorem partition_write_escapes {D} `{DiskLaws D} `{SyscallAbi} (s : DiskScheme D)
    (id n p : Z) (w : DiskWrapper D) (part : Partition) (buf1 buf2 : bytes) :
  let bs := block_size (disk w) in
  on_partition id n p w part s → 0 < part_size part →
  Z.of_nat (length buf1) = bs → Z.of_nat (length buf2) = bs →
  (start_lba part + part_size part + 1) * bs ≤ size (disk w) →
  ∃ d, write id (buf1 ++ buf2) ((part_size part - 1) * bs) s =
         (Ok (length buf1 + length buf2)%nat, with_disk n w s d) ∧
    slice (contents d) (Z.to_nat ((start_lba part + part_size part) * bs)) (Z.to_nat bs) = buf2.
Proof.
  intros bs Hon Hpos Hl1 Hl2 Hend. pose proof (block_size_range _ (op_inv _ _ _ _ _ _ Hon)) as Hbs.
  fold bs in Hbs.
  assert (((part_size part - 1) * bs) `div` bs = part_size part - 1) as Hdiv
    by (apply Z.div_mul; lia).
  assert (in_disk w part (length (buf1 ++ buf2)) ((part_size part - 1) * bs)) as Hin.
  { rewrite length_app. split; fold bs; rewrite ?Hdiv; [lia| |lia|lia].
    replace (Z.of_nat (length buf1 + length buf2)) with (2 * bs) by lia.
    apply Z.mod_mul. lia. }
  pose proof (write_partition_spec id n p w part s _ _ Hon Hin) as Hw.
  unfold wp in Hw. destruct (write _ _ _ s) as [r s']. cbn in Hw.
  destruct Hw as (-> & d & -> & _ & _ & Hc). exists d. split; [by rewrite length_app|].
  destruct Hon as [_ _ _ Hi Hs]. rewrite (size_contents _ Hi) in Hend.
  rewrite Hc. unfold disk_pos. fold bs. rewrite Hdiv.
  apply list_eq. intros k. rewrite lookup_slice. case_bool_decide.
  - rewrite lookup_copy_at, bool_decide_eq_true_2 by (rewrite length_app; lia).
    rewrite lookup_app_r by lia. f_equal. lia.
  - symmetry. apply lookup_ge_None_2. lia.
Qed.

(** The position of the [p] in a path is counted in characters and used as a
    byte index: a path of one two-byte character followed by [p] makes the driver
    panic, for every scheme that has an open root. *)
Theorem open_non_ascii_panics {D} `{Disk D} `{SyscallAbi} (s : DiskScheme D) (root flags : Z)
    (path : string) :
  hm_handles (handles s) !! root = Some HSchemeRoot →
  str_bytes path = [0xC3; 0xA9; 0x70] →
  openat root path flags 0 s = (Panic, s).
Proof.
  intros Hroot Hpath.
  assert (path = string_of_bytes [0xC3; 0xA9; 0x70]) as ->.
  { by rewrite <- Hpath, string_of_str_bytes. }
  unfold openat, mbind, comp_bind, get_handle, hm_get. by rewrite Hroot.
Qed.
