(* ===== verification/LiveDisk.v ===== *)
(** * lived: the live disk

    Models [drivers/storage/lived/src/main.rs]: a read-only image in memory with
    an overlay of the blocks that were written.  [live_disk_laws] discharges the
    interface of [Block] for it, so that what is proved of the disk scheme
    against the interface holds of the live disk.  Mapping the physical image
    ([LiveDisk::new]) and the event loop are not modelled: a live disk starts
    with the mapped bytes and an empty overlay. *)

From S2P Require Import Prelude Abi SchemeUtils Block.

Record LiveDisk := mk_live { original : bytes; overlay : gmap Z bytes }.

Section LiveDisk.
Context `{SyscallAbi}.

Definition page : nat := Z.to_nat PAGE_SIZE.

(** [&s[i..i + n]] *)
Definition get_slice {S} (l : bytes) (i n : nat) : comp S bytes :=
  if bool_decide (i + n ≤ length l)%nat then mret (slice l i n) else panic.

(** The loop over [buffer.chunks_mut(PAGE_SIZE)]: what the rest of the buffer is
    filled with.  A turn consumes at least one byte. *)
Fixpoint live_read_loop (fuel : nat) (block offset : Z) (rest : bytes) : comp LiveDisk bytes :=
  if bool_decide (rest = []) then mret [] else
  match fuel with
  | O => panic
  | S fuel =>
     let chunk := take page rest in
     d ← get;
     data ← match overlay d !! block with
            | Some ov => get_slice ov 0 (length chunk)
            | None => get_slice (original d) (Z.to_nat offset) (length chunk)
            end;
     block ← add_usize block 1;
     offset ← add_usize offset PAGE_SIZE;
     out ← live_read_loop fuel block offset (drop page rest);
     mret (data ++ out)
  end.

Definition live_read (block : Z) (buffer : bytes) : comp LiveDisk (nat * bytes) :=
  offset ← mul_usize block PAGE_SIZE;
  last ← add_usize offset (Z.of_nat (length buffer));
  d ← get;
  if bool_decide (Z.of_nat (length (original d)) < last) then fail EINVAL else
  buffer' ← live_read_loop (length buffer) block offset buffer;
  mret (length buffer, buffer').

(** [self.overlay.entry(block).or_insert_with(..)] *)
Definition overlay_entry (block : Z) : comp LiveDisk bytes :=
  d ← get;
  match overlay d !! block with
  | Some ov => mret ov
  | None =>
     offset ← mul_usize block PAGE_SIZE;
     get_slice (original d) (Z.to_nat offset) page
  end.

Fixpoint live_write_loop (fuel : nat) (block offset : Z) (rest : bytes) : comp LiveDisk unit :=
  if bool_decide (rest = []) then mret tt else
  match fuel with
  | O => panic
  | S fuel =>
     let chunk := take page rest in
     ov ← overlay_entry block;
     if bool_decide (length ov < length chunk)%nat then panic else
     modify (λ d, mk_live (original d) (<[block := copy_at ov 0 chunk]> (overlay d)));;
     block ← add_usize block 1;
     offset ← add_usize offset PAGE_SIZE;
     live_write_loop fuel block offset (drop page rest)
  end.

Definition live_write (block : Z) (buffer : bytes) : comp LiveDisk nat :=
  offset ← mul_usize block PAGE_SIZE;
  last ← add_usize offset (Z.of_nat (length buffer));
  d ← get;
  if bool_decide (Z.of_nat (length (original d)) < last) then fail EINVAL else
  live_write_loop (length buffer) block offset buffer;;
  mret (length buffer).

#[global] Instance live_disk : Disk LiveDisk := {|
  block_size _ := wrap_u32 PAGE_SIZE;
  size d := Z.of_nat (length (original d));
  disk_read := live_read;
  disk_write := live_write;
|}.
End LiveDisk.

(** ** The image with its overlay as a flat array *)

Section Flat.
Context `{SyscallAbiLaws}.
Implicit Types d : LiveDisk.

Lemma page_eq : Z.of_nat page = PAGE_SIZE.
Proof. pose proof page_size_pos. unfold page. lia. Qed.

Lemma page_pos : (0 < page)%nat.
Proof. pose proof page_size_pos. unfold page. lia. Qed.

Lemma live_block_size d : block_size d = PAGE_SIZE.
Proof.
  pose proof page_size_pos. pose proof page_size_le. cbn. unfold wrap_u32.
  apply Z.mod_small. lia.
Qed.

(** The byte that a read of position [k] sees *)
Definition live_byte d (k : nat) : Z :=
  match overlay d !! Z.of_nat (k `div` page)%nat with
  | Some ov => byte_at ov (k `mod` page)%nat
  | None => byte_at (original d) k
  end.

Definition live_contents d : bytes := live_byte d <$> seq 0 (length (original d)).

Record live_inv d : Prop := {
  li_size : Z.of_nat (length (original d)) ≤ 9223372036854775807;
  li_whole : Z.of_nat (length (original d)) `mod` PAGE_SIZE = 0;
  li_overlay : map_Forall (λ _ ov, length ov = page) (overlay d);
}.

Lemma length_live_contents d : length (live_contents d) = length (original d).
Proof. unfold live_contents. by rewrite length_fmap, length_seq. Qed.

Lemma lookup_live_contents d k :
  (k < length (original d))%nat → live_contents d !! k = Some (live_byte d k).
Proof.
  intros. unfold live_contents. rewrite list_lookup_fmap, lookup_seq_lt by done. done.
Qed.

Lemma lookup_byte_at (l : bytes) k : (k < length l)%nat → l !! k = Some (byte_at l k).
Proof. intros [x Hx]%lookup_lt_is_Some_2. unfold byte_at. by rewrite Hx. Qed.

Lemma page_div b j : (j < page)%nat → ((b * page + j) `div` page = b)%nat.
Proof.
  intros. pose proof page_pos. rewrite Nat.div_add_l by lia. rewrite Nat.div_small by done. lia.
Qed.

Lemma page_mod b j : (j < page)%nat → ((b * page + j) `mod` page = j)%nat.
Proof.
  intros. pose proof page_pos. rewrite Nat.add_comm, Nat.Div0.mod_add. by apply Nat.mod_small.
Qed.

(** The bytes of block [b], as [read] takes them from the overlay or the image *)
Definition block_bytes d (b : nat) : bytes :=
  match overlay d !! Z.of_nat b with
  | Some ov => ov
  | None => slice (original d) (b * page) page
  end.

Lemma block_bytes_contents d b :
  live_inv d → (b * page + page ≤ length (original d))%nat →
  block_bytes d b = slice (live_contents d) (b * page) page.
Proof.
  intros [_ _ Hov] Hb. apply list_eq. intros j. rewrite lookup_slice.
  case_bool_decide as Hj.
  - rewrite lookup_live_contents by lia. unfold block_bytes, live_byte.
    rewrite page_div, page_mod by done. destruct (overlay d !! Z.of_nat b) eqn:Ho.
    + apply lookup_byte_at. by rewrite (map_Forall_lookup_1 _ _ _ _ Hov Ho).
    + rewrite lookup_slice, bool_decide_eq_true_2 by done. apply lookup_byte_at. lia.
  - apply lookup_ge_None_2. unfold block_bytes. destruct (overlay d !! Z.of_nat b) eqn:Ho.
    + rewrite (map_Forall_lookup_1 _ _ _ _ Hov Ho). lia.
    + rewrite length_slice; lia.
Qed.

Lemma get_slice_wp {S} (l : bytes) i n Q (s : S) :
  (i + n ≤ length l)%nat → Q (Ok (slice l i n)) s → wp (get_slice l i n) Q s.
Proof. intros ??. unfold get_slice. by rewrite bool_decide_eq_true_2. Qed.

(** A chunk of the buffer ends inside the image. *)
Lemma whole_pages d b n :
  live_inv d → (b * page + n ≤ length (original d))%nat → (0 < n)%nat →
  (b * page + page ≤ length (original d))%nat.
Proof.
  intros [_ Hw _] Hn Hpos. pose proof page_pos. pose proof page_eq as Hp.
  rewrite <- Hp in Hw. apply Z.mod_divide in Hw as [q Hq]; [|lia].
  assert (Z.of_nat b < q) by nia. nia.
Qed.

Lemma live_read_loop_spec fuel (b : nat) rest d :
  live_inv d → (length rest ≤ fuel)%nat → (b * page + length rest ≤ length (original d))%nat →
  wp (live_read_loop fuel (Z.of_nat b) (Z.of_nat (b * page)) rest) (λ r d',
    r = Ok (slice (live_contents d) (b * page) (length rest)) ∧ d' = d) d.
Proof.
  revert b rest. pose proof page_pos as Hp. pose proof page_eq as Hpe.
  pose proof page_size_le as Hle. induction fuel as [|fuel IH]; intros b rest Hd Hf Hend;
    cbn [live_read_loop]; (case_bool_decide as Hnil; [subst; by wp_go|]);
    (destruct rest as [|x rest']; [done|]); cbn [length] in Hf; [lia|].
  remember (x :: rest') as rest eqn:Hrest. assert (0 < length rest)%nat as Hpos by (subst; cbn; lia).
  pose proof (whole_pages d b _ Hd Hend Hpos) as Hpage. pose proof (li_size d Hd).
  set (chunk := take page rest).
  assert (length chunk = Nat.min page (length rest)) as Hchunk by apply length_take.
  do 3 wp_step. apply (wp_mono _ (λ r d', r = Ok (slice (block_bytes d b) 0 (length chunk)) ∧ d' = d)).
  { unfold block_bytes. wp_step; apply get_slice_wp; try done.
    - rewrite (map_Forall_lookup_1 _ _ _ _ (li_overlay d Hd) Heqo). lia.
    - rewrite Nat2Z.id. lia.
    - rewrite Nat2Z.id, slice_slice by lia. by rewrite Nat.add_0_r. }
  intros r d' [-> ->]. wp_step. apply wp_add_usize; [ints|]. wp_step.
  apply wp_add_usize; [ints|]. wp_step.
  replace (Z.of_nat b + 1) with (Z.of_nat (S b)) by lia.
  replace (Z.of_nat (b * page) + PAGE_SIZE) with (Z.of_nat (S b * page)) by lia.
  eapply wp_mono; [apply IH; [done|subst rest; cbn in *; rewrite length_drop; cbn; lia|]|].
  { rewrite length_drop. destruct (decide (length rest ≤ page)%nat); [|lia].
    replace (length rest - page)%nat with 0%nat by lia. lia. }
  intros r d' [-> ->]. wp_go. split; [|done]. f_equal.
  rewrite block_bytes_contents, slice_slice, Nat.add_0_r by (done || lia).
  rewrite length_drop, Hchunk. destruct (decide (length rest ≤ page)%nat).
  - rewrite Nat.min_r by lia. replace (length rest - page)%nat with 0%nat by lia.
    unfold slice at 2. by rewrite take_0, app_nil_r.
  - rewrite Nat.min_l by lia. replace (S b * page)%nat with (b * page + page)%nat by lia.
    rewrite <- slice_add. f_equal. lia.
Qed.

(** The disk after block [b]'s overlay became [block_bytes] with [chunk] written
    over its start *)
Definition put_chunk d (b : nat) (chunk : bytes) : LiveDisk :=
  mk_live (original d) (<[Z.of_nat b := copy_at (block_bytes d b) 0 chunk]> (overlay d)).

Lemma length_block_bytes d b :
  live_inv d → (b * page + page ≤ length (original d))%nat → length (block_bytes d b) = page.
Proof.
  intros Hd Hb. rewrite block_bytes_contents by done.
  apply length_slice. by rewrite length_live_contents.
Qed.

Lemma put_chunk_inv d b chunk :
  live_inv d → (b * page + page ≤ length (original d))%nat → (length chunk ≤ page)%nat →
  live_inv (put_chunk d b chunk).
Proof.
  intros Hd Hb Hc. destruct (Hd) as [? ? Hov]. split; cbn; [done|done|].
  apply map_Forall_insert_2; [|done].
  rewrite length_copy_at; rewrite (length_block_bytes d b Hd Hb); lia.
Qed.

Lemma put_chunk_contents d b chunk :
  live_inv d → (b * page + page ≤ length (original d))%nat → (length chunk ≤ page)%nat →
  live_contents (put_chunk d b chunk) = copy_at (live_contents d) (b * page) chunk.
Proof.
  intros Hd Hb Hc. pose proof page_pos.
  pose proof (block_bytes_contents d b Hd Hb) as Hbb.
  pose proof (length_block_bytes d b Hd Hb) as Hlb.
  pose proof (length_live_contents d) as Hlc. apply list_eq. intros k.
  destruct (decide (k < length (original d))%nat) as [Hk|Hk].
  2: { rewrite !lookup_ge_None_2; [done| |]; rewrite ?length_copy_at, ?length_live_contents;
       cbn; lia. }
  rewrite lookup_copy_at by lia. rewrite (lookup_live_contents (put_chunk d b chunk)) by done.
  pose proof (Nat.div_mod_eq k page) as Hdm. pose proof (Nat.mod_upper_bound k page).
  unfold live_byte at 1; cbn. destruct (decide (k `div` page = b)%nat) as [Heq|Hne].
  - rewrite Heq, lookup_insert_eq. unfold byte_at. rewrite lookup_copy_at by lia.
    rewrite Hbb, lookup_slice, (bool_decide_eq_true_2 (k `mod` page < page)%nat) by lia.
    replace (b * page + k `mod` page)%nat with k by lia.
    repeat case_bool_decide; try lia.
    + rewrite Nat.sub_0_r. replace (k `mod` page)%nat with (k - b * page)%nat by lia.
      destruct (lookup_lt_is_Some_2 chunk (k - b * page)) as [x Hx]; [lia|]. by rewrite Hx.
    + by rewrite lookup_live_contents.
  - rewrite lookup_insert_ne by lia. rewrite bool_decide_eq_false_2 by nia.
    by rewrite lookup_live_contents.
Qed.

Lemma overlay_entry_spec d b :
  live_inv d → (b * page + page ≤ length (original d))%nat →
  wp (overlay_entry (Z.of_nat b)) (λ r d', r = Ok (block_bytes d b) ∧ d' = d) d.
Proof.
  intros Hd Hb. pose proof page_eq as Hpe. pose proof (li_size d Hd).
  unfold overlay_entry, block_bytes. do 2 wp_step. wp_step; [by wp_go|]. wp_step.
  unfold mul_usize. rewrite bool_decide_eq_true_2 by ints. wp_step.
  replace (Z.to_nat (Z.of_nat b * PAGE_SIZE)) with (b * page)%nat by lia.
  by apply get_slice_wp.
Qed.

Lemma live_write_loop_spec fuel (b : nat) rest d :
  live_inv d → (length rest ≤ fuel)%nat → (b * page + length rest ≤ length (original d))%nat →
  wp (live_write_loop fuel (Z.of_nat b) (Z.of_nat (b * page)) rest) (λ r d',
    r = Ok tt ∧ live_inv d' ∧ length (original d') = length (original d) ∧
    live_contents d' = copy_at (live_contents d) (b * page) rest) d.
Proof.
  revert b rest d. pose proof page_pos as Hp. pose proof page_eq as Hpe.
  pose proof page_size_le as Hle. induction fuel as [|fuel IH]; intros b rest d Hd Hf Hend;
    cbn [live_write_loop];
    (case_bool_decide as Hnil; [subst; wp_go; by rewrite copy_at_nil|]);
    (destruct rest as [|x rest']; [done|]); cbn [length] in Hf; [lia|].
  remember (x :: rest') as rest eqn:Hrest. assert (0 < length rest)%nat as Hpos by (subst; cbn; lia).
  assert (length rest ≤ S fuel)%nat as Hf' by (subst; cbn; lia).
  pose proof (whole_pages d b _ Hd Hend Hpos) as Hpage. pose proof (li_size d Hd).
  set (chunk := take page rest).
  assert (length chunk = Nat.min page (length rest)) as Hchunk by apply length_take.
  wp_step. eapply wp_mono; [by apply overlay_entry_spec|]. intros r d' [-> ->].
  rewrite bool_decide_eq_false_2 by (rewrite length_block_bytes; [lia|done|done]).
  do 3 wp_step. fold (put_chunk d b chunk).
  assert (live_inv (put_chunk d b chunk)) as Hd' by (apply put_chunk_inv; [done|done|lia]).
  apply wp_add_usize; [ints|]. wp_step. apply wp_add_usize; [ints|].
  replace (Z.of_nat b + 1) with (Z.of_nat (S b)) by lia.
  replace (Z.of_nat (b * page) + PAGE_SIZE) with (Z.of_nat (S b * page)) by lia.
  destruct (decide (length rest ≤ page)%nat) as [Hlast|Hmore].
  - rewrite (drop_ge rest) by done. unfold chunk in *. rewrite take_ge in * by done.
    destruct fuel; cbn [live_write_loop]; rewrite bool_decide_eq_true_2 by done; wp_step;
      split_and!; try done; apply put_chunk_contents; (done || lia).
  - eapply wp_mono; [apply IH; [done|rewrite length_drop; lia|cbn [original put_chunk]]|].
    { rewrite length_drop. lia. }
    intros r d' (-> & ? & Hl & Hc). split_and!; [done|done|done|].
    rewrite Hc, put_chunk_contents by (done || lia).
    replace (S b * page)%nat with (b * page + length chunk)%nat by lia.
    rewrite copy_at_app by (rewrite length_live_contents, length_drop; lia).
    f_equal. apply take_drop.
Qed.

(** The request of the interface in the terms of [live_read] and [live_write] *)
Lemma live_request d b n :
  live_inv d → 0 ≤ b → b * block_size d + Z.of_nat n ≤ size d →
  b = Z.of_nat (Z.to_nat b) ∧ Z.to_nat (b * block_size d) = (Z.to_nat b * page)%nat ∧
  b * PAGE_SIZE = Z.of_nat (Z.to_nat b * page) ∧
  (Z.to_nat b * page + n ≤ length (original d))%nat.
Proof.
  intros Hd Hb Hend. rewrite live_block_size in *. cbn [size live_disk] in Hend.
  pose proof page_eq as Hpe. split_and!; lia.
Qed.

Lemma live_read_spec d b buf :
  live_inv d → 0 ≤ b → b * block_size d + Z.of_nat (length buf) ≤ size d →
  wp (live_read b buf) (λ r d',
    r = Ok (length buf, slice (live_contents d) (Z.to_nat (b * block_size d)) (length buf)) ∧
    d' = d) d.
Proof.
  intros Hd Hb Hend. destruct (live_request d b _ Hd Hb Hend) as (Hbn & -> & Hm & Hfit).
  pose proof (li_size d Hd). unfold live_read, mul_usize. wp_step.
  rewrite bool_decide_eq_true_2 by ints. wp_go.
  rewrite Hm. apply wp_add_usize; [ints|]. do 2 wp_step.
  rewrite bool_decide_eq_false_2 by lia. wp_step. rewrite Hbn at 1.
  eapply wp_mono; [by apply live_read_loop_spec|]. intros r d' [-> ->]. by wp_go.
Qed.

Lemma live_write_spec d b buf :
  live_inv d → 0 ≤ b → b * block_size d + Z.of_nat (length buf) ≤ size d →
  wp (live_write b buf) (λ r d',
    r = Ok (length buf) ∧ live_inv d' ∧
    live_contents d' = copy_at (live_contents d) (Z.to_nat (b * block_size d)) buf) d.
Proof.
  intros Hd Hb Hend. destruct (live_request d b _ Hd Hb Hend) as (Hbn & -> & Hm & Hfit).
  pose proof (li_size d Hd). unfold live_write, mul_usize. wp_step.
  rewrite bool_decide_eq_true_2 by ints. wp_go.
  rewrite Hm. apply wp_add_usize; [ints|]. do 2 wp_step.
  rewrite bool_decide_eq_false_2 by lia. wp_step. rewrite Hbn at 1.
  eapply wp_mono; [by apply live_write_loop_spec|]. intros r d' (-> & ? & _ & ?). by wp_go.
Qed.

(** The live disk satisfies the interface of the disk scheme. *)
#[global, refine] Instance live_disk_laws : DiskLaws LiveDisk := {|
  disk_inv := live_inv;
  contents := live_contents;
|}.
Proof.
  - intros d _. rewrite live_block_size. pose proof page_size_pos. pose proof page_size_le. lia.
  - intros d _. by rewrite length_live_contents.
  - intros d Hd. apply Hd.
  - intros d Hd. rewrite live_block_size. apply Hd.
  - intros d b buf Hd Hb _ Hend. eapply wp_mono; [by apply live_read_spec|].
    by intros r d' [-> ->].
  - intros d b buf Hd Hb _ Hend. eapply wp_mono; [by apply live_write_spec|].
    by intros r d' (-> & ? & ?).
Defined.
End Flat.

(** ** Sequences of requests *)

Inductive live_op := LRead (block : Z) (buf : bytes) | LWrite (block : Z) (buf : bytes).

Definition op_range (op : live_op) : Z * nat :=
  match op with LRead b buf | LWrite b buf => (b, length buf) end.

Section Requests.
Context `{SyscallAbiLaws}.

(** One request on the live disk: the count and, for a read, the bytes *)
Definition live_step (op : live_op) : comp LiveDisk (nat * bytes) :=
  match op with
  | LRead b buf => live_read b buf
  | LWrite b buf => n ← live_write b buf; mret (n, [])
  end.

(** The same request on a plain array of bytes *)
Definition flat_step (op : live_op) (c : bytes) : outcome (nat * bytes) * bytes :=
  let '(b, n) := op_range op in
  let off := Z.to_nat (b * PAGE_SIZE) in
  if bool_decide (length c < off + n)%nat then (Err EINVAL, c) else
  match op with
  | LRead _ _ => (Ok (n, slice c off n), c)
  | LWrite _ buf => (Ok (n, []), copy_at c off buf)
  end.

Fixpoint replies {S} (step : live_op → comp S (nat * bytes)) (ops : list live_op) (s : S)
    : list (outcome (nat * bytes)) :=
  match ops with
  | [] => []
  | op :: ops => let '(r, s') := step op s in r :: replies step ops s'
  end.

Definition no_overflow (op : live_op) : Prop :=
  let '(b, n) := op_range op in 0 ≤ b ∧ b * PAGE_SIZE + Z.of_nat n ≤ usize_max.

(** A request past the end is refused. *)
Lemma live_range_check {A} b n (k : Z → comp LiveDisk A) d :
  0 ≤ b → b * PAGE_SIZE + Z.of_nat n ≤ usize_max →
  Z.of_nat (length (original d)) < b * PAGE_SIZE + Z.of_nat n →
  (offset ← mul_usize b PAGE_SIZE;
   last ← add_usize offset (Z.of_nat n);
   d ← get;
   if bool_decide (Z.of_nat (length (original d)) < last) then fail EINVAL else k offset) d =
  (Err EINVAL, d).
Proof.
  intros Hb Hfit Hend. unfold mul_usize, add_usize, checked_add_usize.
  rewrite (bool_decide_eq_true_2 (b * PAGE_SIZE ≤ usize_max)) by lia.
  unfold mbind, comp_bind, mret, comp_ret. rewrite bool_decide_eq_true_2 by done.
  cbn. by rewrite bool_decide_eq_true_2 by done.
Qed.

Lemma live_step_refines op d :
  live_inv d → no_overflow op →
  let '(r, d') := live_step op d in
  flat_step op (live_contents d) = (r, live_contents d') ∧ live_inv d'.
Proof.
  intros Hd Hop. pose proof page_size_pos. unfold no_overflow in Hop. unfold flat_step.
  destruct (op_range op) as [b n] eqn:Hr. destruct Hop as [Hb Hfit].
  rewrite length_live_contents. case_bool_decide as Hend.
  - destruct op as [b' buf|b' buf]; cbn in Hr |- *; simplify_eq.
    + assert (live_read b buf d = (Err EINVAL, d)) as -> by (apply live_range_check; lia). done.
    + unfold mbind, comp_bind.
      assert (live_write b buf d = (Err EINVAL, d)) as -> by (apply live_range_check; lia). done.
  - pose proof (live_block_size d) as Hbs.
    destruct op as [b' buf|b' buf]; cbn [op_range] in Hr; cbn [live_step]; simplify_eq.
    + pose proof (live_read_spec d b buf Hd Hb) as Hwp. rewrite Hbs in Hwp.
      unfold wp in Hwp. destruct (live_read b buf d) as [r d']. cbn in Hwp.
      destruct Hwp as [-> ->]; [lia|done].
    + pose proof (live_write_spec d b buf Hd Hb) as Hwp. rewrite Hbs in Hwp.
      unfold wp in Hwp. unfold mbind, comp_bind. destruct (live_write b buf d) as [r d'].
      cbn in Hwp. destruct Hwp as (-> & ? & Hc); [lia|]. by rewrite <- Hc.
Qed.

Lemma live_contents_new img : live_contents (mk_live img ∅) = img.
Proof.
  apply list_eq. intros k. destruct (decide (k < length img)%nat).
  - rewrite lookup_live_contents by done. by rewrite lookup_byte_at.
  - rewrite !lookup_ge_None_2; [done|lia|rewrite length_live_contents; cbn; lia].
Qed.


(** A read at the far end of the 64-bit offset range stops the live disk's
    driver instead of failing: [offset + buffer.len()] in [LiveDisk::read]
    overflows before it is compared with the size of the image. *)
Theorem live_far_read_panics (s : DiskScheme LiveDisk) (id n : Z) (w : DiskWrapper LiveDisk)
    (buf : bytes) (block : Z) :
  hm_handles (handles s) !! id = Some (HDisk n) → disks s !! n = Some w →
  0 ≤ block → block * PAGE_SIZE ≤ u64_max →
  Z.of_nat (length buf) `mod` PAGE_SIZE = 0 →
  u64_max < block * PAGE_SIZE + Z.of_nat (length buf) →
  (read id buf (block * PAGE_SIZE) s).1 = Panic.
Proof.
  intros Hh Hd Hb Hoff Hlen Hfar. pose proof page_size_pos as Hp.
  pose proof (live_block_size (disk w)) as Hbs.
  assert ((block * PAGE_SIZE) `div` PAGE_SIZE = block) as Hdiv by (apply Z.div_mul; lia).
  apply (wp_eq (read id buf (block * PAGE_SIZE)) (λ r _, r = Panic) s _ _ (surjective_pairing _)).
  unfold read. eapply get_handle_wp; [done|]. unfold on_wrapper, wrapper_read.
  do 3 wp_step. rewrite Hd. do 5 wp_step. rewrite Hbs. apply wp_div_u64; [done|]. rewrite Hdiv.
  do 3 wp_step. rewrite Hbs. apply wp_rem_u64; [done|].
  rewrite bool_decide_eq_false_2 by (rewrite Hlen; tauto). wp_step. unfold abs_block.
  wp_step.
  unfold on_disk. wp_step. cbn [disk_read live_disk]. unfold live_read, mul_usize. wp_step.
  rewrite bool_decide_eq_true_2 by done. wp_go. unfold add_usize, checked_add_usize.
  rewrite bool_decide_eq_false_2 by ints. by wp_go.
Qed.
End Requests.

(** ** Examples *)

Section Example.
#[local] Existing Instance redox_abi.
#[local] Existing Instance redox_abi_laws.

(** Readers that satisfy [ScrollLaws] *)
Definition le_scroll : Scroll := {| pread_u8 := byte_at; pread_u16 := le16; pread_u32 := le32 |}.
#[local] Existing Instance le_scroll.
#[local] Instance le_scroll_laws : ScrollLaws.
Proof. by split. Defined.

(** A live disk of two pages whose first sector has a boot signature *)
Definition demo_image : bytes :=
  replicate 510 0 ++ [0x55; 0xAA] ++ replicate (Z.to_nat 7680) 7.
Definition demo_live : LiveDisk := mk_live demo_image ∅.

Lemma demo_size : Z.of_nat (length demo_image) = 8192.
Proof. by vm_compute. Qed.

Lemma demo_live_inv : live_inv demo_live.
Proof. split; cbn [original demo_live]; rewrite ?demo_size; [lia|done|apply map_Forall_empty]. Qed.

Lemma device_read_flat_witness :
  ∃ disk', device_read (replicate 10 0) (mk_device demo_live 4090) =
    (Ok (10%nat, slice (contents demo_live) 4090 10), mk_device disk' 4100) ∧
    disk_inv disk' ∧ contents disk' = contents demo_live.
Proof.
  apply (device_read_flat (mk_device demo_live 4090) (replicate 10 0)); cbn [dev_disk dev_offset].
  - exact demo_live_inv.
  - lia.
  - cbn [size live_disk]. change (original demo_live) with demo_image. rewrite demo_size. done.
Defined.

Lemma mbr_partition_table_witness :
  ∃ d', wrapper_pt (λ _, fail EOTHER) 1 demo_live =
    (Ok (if bool_decide (le16 (contents demo_live) 510 = 0xAA55)
         then Some (mk_partition_table (mbr_reference (contents demo_live)) Mbr) else None), d') ∧
    same_disk demo_live d'.
Proof.
  apply (mbr_partition_table (λ _, fail EOTHER) demo_live 1).
  - intros bs dev. apply wp_fail. split; [by exists EOTHER|]. by intros ?.
  - lia.
  - exact demo_live_inv.
  - cbn [size live_disk]. change (original demo_live) with demo_image. rewrite demo_size. done.
  - right. by vm_compute.
Defined.

(** The first page as a partition *)
Definition demo_part : Partition := mk_partition 0 1 None None None.
Definition demo_wrapper : DiskWrapper LiveDisk :=
  mk_wrapper demo_live (Some (mk_partition_table [demo_part] Mbr)).
Definition demo_scheme : DiskScheme LiveDisk :=
  mk_disk_scheme "disk.live" {[0 := demo_wrapper]}
    (mk_handle_map {[1 := HSchemeRoot; 2 := HPartition 0 0; 3 := HDisk 1]} 4).
Definition demo_page (x : Z) : bytes := replicate (Z.to_nat 4096) x.

Lemma length_demo_page x : Z.of_nat (length (demo_page x)) = 4096.
Proof. unfold demo_page. rewrite length_replicate. lia. Qed.

Lemma demo_block_size : block_size demo_live = 4096.
Proof. by vm_compute. Qed.

Lemma demo_disk_size : size demo_live = 8192.
Proof. exact demo_size. Qed.

Lemma demo_on_partition : on_partition 2 0 0 demo_wrapper demo_part demo_scheme.
Proof. split; [done|done|done|exact demo_live_inv|done]. Qed.

Lemma demo_in_disk : in_disk demo_wrapper demo_part (length (demo_page 5)) 0.
Proof.
  split; cbn [disk demo_wrapper]; rewrite ?length_demo_page, ?demo_block_size, ?demo_disk_size;
    by vm_compute.
Qed.

Lemma disk_locks_exclusive_witness :
  exclusive (disk_run [OpRoot; OpOpenat 1 "0p0" 0 0; OpOpenat 1 "0" 0 0; OpOpenat 1 "0p0" 0 0]
    (mk_disk_scheme "disk.live" {[0 := demo_wrapper]} hm_new)).2.
Proof. apply disk_locks_exclusive. cbn. ints. Defined.

Lemma partition_write_confined_witness :
  ∃ d, write 2 (demo_page 5) 0 demo_scheme =
      (Ok (length (demo_page 5)), with_disk 0 demo_wrapper demo_scheme d) ∧
    (∀ i : nat, Z.of_nat i < start_lba demo_part * block_size demo_live ∨
       (start_lba demo_part + part_size demo_part) * block_size demo_live ≤ Z.of_nat i →
       contents d !! i = contents demo_live !! i) ∧
    (read 2 (demo_page 0) 0 (with_disk 0 demo_wrapper demo_scheme d)).1 =
      Ok (length (demo_page 5), demo_page 5).
Proof.
  apply (partition_write_confined demo_scheme 2 0 0 demo_wrapper demo_part).
  - exact demo_on_partition.
  - exact demo_in_disk.
  - by vm_compute.
  - cbn [disk demo_wrapper]. rewrite length_demo_page, demo_block_size. by vm_compute.
  - unfold demo_page. by rewrite !length_replicate.
Defined.

Lemma partition_write_escapes_witness :
  ∃ d, write 2 (demo_page 5 ++ demo_page 6) ((part_size demo_part - 1) * block_size demo_live)
         demo_scheme =
         (Ok (length (demo_page 5) + length (demo_page 6))%nat,
          with_disk 0 demo_wrapper demo_scheme d) ∧
    slice (contents d)
      (Z.to_nat ((start_lba demo_part + part_size demo_part) * block_size demo_live))
      (Z.to_nat (block_size demo_live)) = demo_page 6.
Proof.
  apply (partition_write_escapes demo_scheme 2 0 0 demo_wrapper demo_part).
  - exact demo_on_partition.
  - done.
  - cbn [disk demo_wrapper]. by rewrite length_demo_page, demo_block_size.
  - cbn [disk demo_wrapper]. by rewrite length_demo_page, demo_block_size.
  - cbn [disk demo_wrapper]. rewrite demo_block_size, demo_disk_size. by vm_compute.
Defined.

Lemma open_non_ascii_panics_witness :
  openat 1 (string_of_bytes [0xC3; 0xA9; 0x70]) 0 0 demo_scheme = (Panic, demo_scheme).
Proof. by apply open_non_ascii_panics. Defined.


Lemma live_far_read_panics_witness :
  (read 3 (demo_page 0) (4503599627370495 * PAGE_SIZE)
    (mk_disk_scheme "disk.live" {[1 := demo_wrapper]} (handles demo_scheme))).1 = Panic.
Proof.
  eapply (live_far_read_panics _ 3 1 demo_wrapper (demo_page 0) 4503599627370495).
  - done.
  - done.
  - done.
  - by vm_compute.
  - by rewrite length_demo_page.
  - rewrite length_demo_page. by vm_compute.
Defined.
End Example.
