(* ===== verification/Initfs.v ===== *)
(** * initfs: image builder and reader

    Models [initfs/tools/src/lib.rs], which lays a directory tree out in the boot
    image, and [initfs/src/lib.rs], which reads the image in the bootstrap
    process; [types.rs] gives the packed little-endian structures both share.

    The image file is the list of its bytes; writing past its end fills the gap
    with zeros, as [pwrite] does, and writes do not fail.  How many bytes a read of
    a source file returns is the parameter [read_count].  [plain::slice_from_bytes]
    of the [plain] crate is the parameter [slice_from_bytes].  Collecting the tree
    from the host's file system is not modelled. *)

From S2P Require Import Prelude.

(** ** Structures of [types.rs] *)

Definition MAGIC : bytes := str_bytes "RedoxFtw".
Definition INITFS_PAGE_SIZE : Z := 4096.

Inductive InodeType := RegularFile | ExecutableFile | TyDir | TyLink.

#[global] Instance inode_type_eq_dec : EqDecision InodeType.
Proof. solve_decision. Defined.

(** [ty as u32] *)
Definition type_code (ty : InodeType) : Z :=
  match ty with RegularFile => 0 | ExecutableFile => 1 | TyDir => 2 | TyLink => 3 end.

(** [TryFrom<u32>] *)
Definition type_of_code (value : Z) : option InodeType :=
  if value =? type_code RegularFile then Some RegularFile
  else if value =? type_code ExecutableFile then Some ExecutableFile
  else if value =? type_code TyDir then Some TyDir
  else if value =? type_code TyLink then Some TyLink
  else None.

Record InodeHeader := mk_inode_header { type_ : Z; length_ : Z; offset_ : Z }.

Definition inode_header_bytes (h : InodeHeader) : bytes :=
  le_bytes 4 (type_ h) ++ le_bytes 4 (length_ h) ++ le_bytes 4 (offset_ h).

Definition inode_header_of (b : bytes) : InodeHeader :=
  mk_inode_header (le_val (slice b 0 4)) (le_val (slice b 4 4)) (le_val (slice b 8 4)).

Record DirEntry := mk_dir_entry { de_inode : Z; name_len : Z; name_offset : Z }.

Definition dir_entry_bytes (e : DirEntry) : bytes :=
  le_bytes 2 (de_inode e) ++ le_bytes 2 (name_len e) ++ le_bytes 4 (name_offset e).

Definition dir_entry_of (b : bytes) : DirEntry :=
  mk_dir_entry (le_val (slice b 0 2)) (le_val (slice b 2 2)) (le_val (slice b 4 4)).

Record Header := mk_header {
  magic : bytes;
  inode_table_offset : Z;
  initfs_size : Z;
  page_size : Z;
  root_inode : Z;
  inode_count : Z;
  bootstrap_entry : Z;
}.

Definition header_len : nat := 34.
Definition inode_struct_len : nat := 12.
Definition dir_entry_len : nat := 8.

Definition header_bytes (h : Header) : bytes :=
  magic h ++ le_bytes 4 (inode_table_offset h) ++ le_bytes 8 (initfs_size h) ++
  le_bytes 2 (page_size h) ++ le_bytes 2 (root_inode h) ++ le_bytes 2 (inode_count h) ++
  le_bytes 8 (bootstrap_entry h).

Definition header_of (b : bytes) : Header :=
  mk_header (slice b 0 8) (le_val (slice b 8 4)) (le_val (slice b 12 8)) (le_val (slice b 20 2))
    (le_val (slice b 22 2)) (le_val (slice b 24 2)) (le_val (slice b 26 8)).

(** ** The tree to archive *)

Inductive EntryKind :=
  | KFile (file : bytes) (executable : bool)
  | KDir (dir : list Entry)
  | KLink (path : bytes)
with Entry := mk_entry (name : bytes) (kind : EntryKind).

Definition entry_name (e : Entry) : bytes := match e with mk_entry name _ => name end.
Definition entry_kind (e : Entry) : EntryKind := match e with mk_entry _ kind => kind end.

(** ** The builder *)

Record State := mk_state {
  img : bytes;
  offset : Z;
  max_size : Z;
  buffer : bytes;
  inodes : list InodeHeader;
}.

Record WriteResult := mk_write_result { wr_size : Z; wr_offset : Z }.

Definition set_img f (s : State) := mk_state (f (img s)) (offset s) (max_size s) (buffer s) (inodes s).
Definition set_offset v (s : State) := mk_state (img s) v (max_size s) (buffer s) (inodes s).
Definition set_buffer v (s : State) := mk_state (img s) (offset s) (max_size s) v (inodes s).
Definition set_inodes v (s : State) := mk_state (img s) (offset s) (max_size s) (buffer s) v.

(** The file after [write_all_at(buf, off)] *)
Definition write_at (off : nat) (buf file : bytes) : bytes :=
  if bool_decide (buf = []) then file else
  take off (file ++ replicate (off - length file) 0) ++ buf ++ drop (off + length buf) file.

Definition write_all_at (buf : bytes) (off : Z) : comp State unit :=
  modify (set_img (write_at (Z.to_nat off) buf)).

(** [try_into().context(..)?] *)
Definition try_u32 {S} (x : Z) : comp S Z :=
  if bool_decide (x ≤ u32_max) then mret x else fail EOTHER.
Definition try_u16 {S} (x : Z) : comp S Z :=
  if bool_decide (x ≤ u16_max) then mret x else fail EOTHER.

(** [+] and [*] on [u32] *)
Definition add_u32 {S} (a b : Z) : comp S Z :=
  if bool_decide (a + b ≤ u32_max) then mret (a + b) else panic.
Definition mul_u32 {S} (a b : Z) : comp S Z :=
  if bool_decide (a * b ≤ u32_max) then mret (a * b) else panic.

Definition bump_alloc (size : Z) : comp State Z :=
  s ← get;
  e ← add_usize (offset s) size;
  e ← next_multiple_of e INITFS_PAGE_SIZE;
  if bool_decide (e ≤ max_size s) then
    put (set_offset e s);;
    mret (offset s)
  else fail EOTHER.

Definition inode_allocate (ty : InodeType) (wr : WriteResult) : comp State Z :=
  s ← get;
  let inode := Z.of_nat (length (inodes s)) in
  put (set_inodes (inodes s ++ [mk_inode_header (type_code ty) (wr_size wr) (wr_offset wr)]) s);;
  if bool_decide (inode ≤ u16_max) then mret inode else panic.

(** [InodeTable::count] *)
Definition inode_table_count : comp State Z :=
  s ← get;
  let n := Z.of_nat (length (inodes s)) in
  if bool_decide (n ≤ u16_max) then mret n else panic.

Fixpoint be_val (acc : Z) (l : bytes) : Z :=
  match l with [] => acc | b :: l => be_val (acc * 256 + b) l end.

Definition elf_entry {S} (data : bytes) : comp S Z :=
  let field n : comp S bytes :=
    if bool_decide (24 + n ≤ length data)%nat then mret (slice data 24 n) else panic in
  if bool_decide (slice data 0 4 = [0x7F; 0x45; 0x4C; 0x46]) then
    class ← expect (data !! 4%nat);
    order ← expect (data !! 5%nat);
    if (class =? 1) && (order =? 1) then l ← field 4%nat; mret (le_val l)
    else if (class =? 1) && (order =? 2) then l ← field 4%nat; mret (be_val 0 l)
    else if (class =? 2) && (order =? 1) then l ← field 8%nat; mret (le_val l)
    else if (class =? 2) && (order =? 2) then l ← field 8%nat; mret (be_val 0 l)
    else panic
  else panic.

Section Builder.
Context (read_count : bytes → nat → nat → nat).

(** [file.read(&mut state.buffer[..n])] at position [pos] of the file: the count *)
Definition file_read (file : bytes) (pos n : nat) : comp State nat :=
  let c := read_count file pos n in
  modify (λ s, set_buffer (copy_at (buffer s) 0 (slice file pos c)) s);;
  mret c.

(** The copy loop; a turn advances [relative_offset] by the buffer size, so the
    number of bytes bounds the number of turns. *)
Fixpoint copy_chunks (fuel : nat) (file : bytes) (size off buffer_size : Z) (rel : Z) (pos : nat)
    : comp State unit :=
  if bool_decide (size ≤ rel) then mret tt else
  match fuel with
  | O => panic
  | S fuel =>
     let allowed := Z.to_nat (Z.min buffer_size (size - rel)) in
     c ← file_read file pos allowed;
     s ← get;
     target ← add_u32 off rel;
     write_all_at (take allowed (buffer s)) target;;
     rel ← add_u32 rel buffer_size;
     copy_chunks fuel file size off buffer_size rel (pos + c)
  end.

Definition allocate_and_write_file (file : bytes) : comp State WriteResult :=
  size ← try_u32 (Z.of_nat (length file));
  off ← bump_alloc size;
  off ← try_u32 off;
  s ← get;
  buffer_size ← try_u32 (Z.of_nat (length (buffer s)));
  copy_chunks (length file) file size off buffer_size 0 0;;
  mret (mk_write_result size off).

Definition allocate_and_write_link (link : bytes) : comp State WriteResult :=
  size ← unwrap (try_u32 (Z.of_nat (length link)));
  off ← bump_alloc size;
  off ← try_u32 off;
  write_all_at link off;;
  mret (mk_write_result size off).

(** The part of a directory's loop after the entry's contents are written *)
Definition link_entry (table : Z) (index : nat) (name : bytes) (wr : WriteResult) (ty : InodeType)
    : comp State unit :=
  inode ← inode_allocate ty wr;
  nl ← try_u16 (Z.of_nat (length name));
  name_off ← bump_alloc nl;
  name_off ← try_u32 name_off;
  write_all_at name name_off;;
  rel ← mul_u32 (Z.of_nat index) (Z.of_nat dir_entry_len);
  target ← add_u32 table rel;
  write_all_at (dir_entry_bytes (mk_dir_entry inode nl name_off)) target.

Section Entries.
Context (write_kind : EntryKind → comp State (WriteResult * InodeType)).

Fixpoint write_entries (table : Z) (index : nat) (dir : list Entry) : comp State unit :=
  match dir with
  | [] => mret tt
  | mk_entry name kind :: dir =>
     '(wr, ty) ← write_kind kind;
     link_entry table index name wr ty;;
     write_entries table (S index) dir
  end.

Definition write_dir (dir : list Entry) : comp State WriteResult :=
  entry_count ← try_u16 (Z.of_nat (length dir));
  let table_length := entry_count * Z.of_nat dir_entry_len in
  table ← bump_alloc table_length;
  table ← try_u32 table;
  write_entries table 0 dir;;
  mret (mk_write_result table_length table).
End Entries.

Fixpoint write_kind (kind : EntryKind) : comp State (WriteResult * InodeType) :=
  match kind with
  | KDir dir => wr ← write_dir write_kind dir; mret (wr, TyDir)
  | KFile file executable =>
     wr ← allocate_and_write_file file;
     mret (wr, if executable then ExecutableFile else RegularFile)
  | KLink path => wr ← allocate_and_write_link path; mret (wr, TyLink)
  end.

Definition allocate_and_write_dir : list Entry → comp State WriteResult := write_dir write_kind.

Definition allocate_contents (dir : list Entry) : comp State Z :=
  wr ← allocate_and_write_dir dir;
  inode_allocate TyDir wr.

Fixpoint write_inodes (table : Z) (i : nat) (hs : list InodeHeader) : comp State unit :=
  match hs with
  | [] => mret tt
  | h :: hs =>
     rel ← mul_u32 (Z.of_nat i) (Z.of_nat inode_struct_len);
     target ← add_u32 table rel;
     write_all_at (inode_header_bytes h) target;;
     write_inodes table (S i) hs
  end.

Definition write_inode_table : comp State Z :=
  count ← inode_table_count;
  table ← bump_alloc (Z.of_nat inode_struct_len * count);
  table ← try_u32 table;
  s ← get;
  write_inodes table 0 (inodes s);;
  mret table.

Definition build (bootstrap_code : bytes) (root : list Entry) : comp State unit :=
  header_offset ← bump_alloc 4096;
  if bool_decide (header_offset ≠ 0) then panic else
  allocate_and_write_file bootstrap_code;;
  entry ← elf_entry bootstrap_code;
  root_ino ← allocate_contents root;
  table ← write_inode_table;
  count ← inode_table_count;
  s ← get;
  write_all_at (header_bytes (mk_header MAGIC table (Z.of_nat (length (img s))) INITFS_PAGE_SIZE
    root_ino count entry)) header_offset.

(** [build_initfs], as the contents of the image file *)
Definition build_initfs (max : Z) (bootstrap_code : bytes) (root : list Entry) : outcome bytes :=
  match build bootstrap_code root (mk_state [] 0 max (replicate (Z.to_nat 8192) 0) []) with
  | (Ok _, s) => Ok (img s)
  | (Err e, _) => Err e
  | (Panic, _) => Panic
  end.
End Builder.

(** ** The reader

    [InitFs] is a slice of bytes; the methods are computations that read it. *)

Section Reader.
(** [plain::slice_from_bytes]: the elements of the given size, as their bytes *)
Context (slice_from_bytes : nat → bytes → list bytes).

(** [get_header_assume_valid] *)
Definition get_header : comp bytes Header :=
  base ← get;
  if bool_decide (header_len ≤ length base)%nat then mret (header_of (take header_len base))
  else panic.

Definition inode_table_size : comp bytes Z :=
  h ← get_header;
  mret (wrap_u32 (inode_count h * Z.of_nat inode_struct_len)).

(** [InitFs::new] *)
Definition initfs_new (required_page_size : option Z) : comp bytes unit :=
  base ← get;
  if bool_decide (length base < header_len)%nat then fail EOTHER else
  if bool_decide (u32_max < Z.of_nat (length base)) then fail EOTHER else
  h ← get_header;
  if bool_decide (magic h ≠ MAGIC) then fail EOTHER else
  if bool_decide (inode_table_offset h < Z.of_nat header_len) then fail EOTHER else
  size ← inode_table_size;
  table_end ←
    (if bool_decide (inode_table_offset h + size ≤ u32_max)
     then mret (inode_table_offset h + size) else fail EOTHER);
  if bool_decide (wrap_u32 (Z.of_nat (length base)) < table_end) then fail EOTHER else
  match required_page_size with
  | Some required => if bool_decide (page_size h ≠ required) then fail EOTHER else mret tt
  | None => mret tt
  end.

(** [&base[a..b]] *)
Definition index_range (a b : Z) : comp bytes bytes :=
  base ← get;
  if bool_decide (a ≤ b ≤ Z.of_nat (length base))
  then mret (slice base (Z.to_nat a) (Z.to_nat (b - a))) else panic.

(** [base.get(a..b).ok_or(Error)] *)
Definition get_range (a b : Z) : comp bytes bytes :=
  base ← get;
  if bool_decide (a ≤ b ≤ Z.of_nat (length base))
  then mret (slice base (Z.to_nat a) (Z.to_nat (b - a))) else fail EOTHER.

Definition inode_table : comp bytes (list InodeHeader) :=
  h ← get_header;
  size ← inode_table_size;
  b ← index_range (inode_table_offset h) (wrap_usize (inode_table_offset h + size));
  mret (inode_header_of <$> slice_from_bytes inode_struct_len b).

Definition get_inode (id : Z) : comp bytes (option InodeHeader) :=
  t ← inode_table;
  mret (t !! Z.to_nat id).

(** [InodeStruct::data] *)
Definition inode_data (inode : InodeHeader) : comp bytes bytes :=
  e ← ok_or EOTHER (checked_add_usize (offset_ inode) (length_ inode));
  get_range (offset_ inode) e.

(** [InodeStruct::mode] *)
Definition inode_mode (inode : InodeHeader) : Z :=
  match type_of_code (type_ inode) with
  | Some RegularFile => 292
  | Some ExecutableFile => 365
  | Some TyDir => 365
  | Some TyLink => 511
  | None => 0
  end.

Inductive InodeKind := IsFile | IsDir | IsLink | Unknown.

(** [InodeStruct::kind] *)
Definition inode_kind (inode : InodeHeader) : InodeKind :=
  match type_of_code (type_ inode) with
  | Some TyDir => IsDir
  | Some RegularFile | Some ExecutableFile => IsFile
  | Some TyLink => IsLink
  | None => Unknown
  end.

(** [InodeDir::entries] *)
Definition dir_entries (inode : InodeHeader) : comp bytes (list DirEntry) :=
  b ← inode_data inode;
  mret (dir_entry_of <$> slice_from_bytes dir_entry_len b).

(** [InodeDir::entry_count] *)
Definition entry_count (inode : InodeHeader) : comp bytes Z :=
  l ← dir_entries inode;
  mret (wrap_u32 (Z.of_nat (length l))).

(** [InodeDir::get_entry] *)
Definition get_entry (inode : InodeHeader) (idx : Z) : comp bytes (option DirEntry) :=
  l ← dir_entries inode;
  mret (l !! Z.to_nat idx).

(** [Entry::name] *)
Definition dir_entry_name (e : DirEntry) : comp bytes bytes :=
  name_end ← ok_or EOTHER (checked_add_usize (name_offset e) (name_len e));
  get_range (name_offset e) name_end.

(** *** Reading a whole tree through the interface

    [fuel] bounds the depth of the tree. *)
Fixpoint collect {A} (read_entry : Z → comp bytes A) (todo : nat) (idx : Z) : comp bytes (list A) :=
  match todo with
  | O => mret []
  | S todo =>
     e ← read_entry idx;
     es ← collect read_entry todo (idx + 1);
     mret (e :: es)
  end.

Fixpoint read_kind (fuel : nat) (id : Z) : comp bytes EntryKind :=
  match fuel with
  | O => fail EOTHER
  | S fuel =>
     o ← get_inode id;
     inode ← ok_or EOTHER o;
     match inode_kind inode with
     | IsFile => b ← inode_data inode; mret (KFile b (bool_decide (inode_mode inode = 365)))
     | IsLink => b ← inode_data inode; mret (KLink b)
     | IsDir =>
        n ← entry_count inode;
        es ← collect (λ idx,
          o ← get_entry inode idx;
          e ← ok_or EOTHER o;
          name ← dir_entry_name e;
          kind ← read_kind fuel (de_inode e);
          mret (mk_entry name kind)) (Z.to_nat n) 0;
        mret (KDir es)
     | Unknown => fail EOTHER
     end
  end.
End Reader.

(** ** Sizes *)

Definition pages (n : nat) : Z := round_up (Z.of_nat n) INITFS_PAGE_SIZE.

(** The bytes of the image that a tree takes *)
Fixpoint demand (kind : EntryKind) : Z :=
  match kind with
  | KFile file _ => pages (length file)
  | KLink path => pages (length path)
  | KDir dir =>
     pages (8 * length dir) +
     foldr (λ e acc, demand (entry_kind e) + pages (length (entry_name e)) + acc) 0 dir
  end.

(** The number of entries below a directory *)
Fixpoint entries (kind : EntryKind) : nat :=
  match kind with
  | KDir dir => foldr (λ e acc, entries (entry_kind e) + 1 + acc)%nat 0%nat dir
  | _ => 0
  end.

Fixpoint depth (kind : EntryKind) : nat :=
  match kind with
  | KDir dir => S (foldr (λ e acc, Nat.max (depth (entry_kind e)) acc) 0%nat dir)
  | _ => 1
  end.

(** Directories and names that the format can hold *)
Fixpoint fits (kind : EntryKind) : bool :=
  match kind with
  | KDir dir =>
     bool_decide (Z.of_nat (length dir) ≤ u16_max) &&
     forallb (λ e, bool_decide (Z.of_nat (length (entry_name e)) ≤ u16_max) &&
                   fits (entry_kind e)) dir
  | _ => true
  end.

(** ** Lemmas on images *)

(** The images have the same bytes from [lo] to [hi], as far as the first goes. *)
Definition agree (lo hi : Z) (a b : bytes) : Prop :=
  ∀ i : nat, lo ≤ Z.of_nat i < hi → (i < length a)%nat → b !! i = a !! i.

(** [data] is in the image at [off]. *)
Definition holds (im : bytes) (off : Z) (data : bytes) : Prop :=
  0 ≤ off ∧ slice im (Z.to_nat off) (length data) = data.

Lemma agree_sub lo hi lo' hi' a b : agree lo hi a b → lo ≤ lo' → hi' ≤ hi → agree lo' hi' a b.
Proof. intros Ha ?? i ??. apply Ha; lia. Qed.

Lemma agree_refl lo hi a : agree lo hi a a.
Proof. by intros i. Qed.

Lemma agree_trans lo hi a b c :
  agree lo hi a b → agree lo hi b c → agree lo hi a c.
Proof.
  intros Hab Hbc i Hi Ha. rewrite <- (Hab i Hi Ha). apply Hbc; [done|].
  apply lookup_lt_is_Some. rewrite (Hab i Hi Ha). by apply lookup_lt_is_Some.
Qed.

Lemma holds_lookup im off data :
  holds im off data ↔ 0 ≤ off ∧ ∀ k, (k < length data)%nat → im !! (Z.to_nat off + k)%nat = data !! k.
Proof.
  split; intros [Ho Hd]; (split; [done|]).
  - intros k Hk. trans (slice im (Z.to_nat off) (length data) !! k); [|by rewrite Hd].
    by rewrite lookup_slice, bool_decide_eq_true_2.
  - apply list_eq. intros k. rewrite lookup_slice. case_bool_decide as Hk; [by apply Hd|].
    symmetry. apply lookup_ge_None_2. lia.
Qed.

Lemma holds_agree im im' off data lo hi :
  holds im off data → agree lo hi im im' → lo ≤ off → off + Z.of_nat (length data) ≤ hi →
  holds im' off data.
Proof.
  rewrite !holds_lookup. intros [Ho Hd] Ha Hlo Hhi. split; [done|]. intros k Hk.
  rewrite <- (Hd k Hk). apply Ha; [lia|]. apply lookup_lt_is_Some. rewrite (Hd k Hk).
  by apply lookup_lt_is_Some.
Qed.

Lemma holds_length im off data :
  holds im off data → data ≠ [] → (Z.to_nat off + length data ≤ length im)%nat.
Proof.
  rewrite holds_lookup. intros [_ Hd] Hne. destruct data as [|x data]; [done|].
  specialize (Hd (length data)). cbn [length] in *.
  assert (is_Some (im !! (Z.to_nat off + length data)%nat)) as Hs%lookup_lt_is_Some; [|lia].
  rewrite Hd by lia. apply lookup_lt_is_Some. cbn. lia.
Qed.

Lemma holds_app im off d1 d2 :
  holds im off d1 → holds im (off + Z.of_nat (length d1)) d2 → holds im off (d1 ++ d2).
Proof.
  rewrite !holds_lookup. intros [Ho H1] [_ H2]. split; [done|]. intros k Hk.
  rewrite length_app in Hk. destruct (decide (k < length d1)%nat).
  - rewrite lookup_app_l by done. auto.
  - rewrite lookup_app_r by lia. rewrite <- H2 by lia. f_equal. lia.
Qed.

(** A part of what is held *)
Lemma holds_slice im off data i n :
  holds im off data → (i + n ≤ length data)%nat →
  slice (slice im (Z.to_nat off) (length data)) i n = slice data i n.
Proof. intros [_ ->] _. done. Qed.

Lemma length_write_at off buf file :
  length (write_at off buf file) =
    if bool_decide (buf = []) then length file else Nat.max (length file) (off + length buf).
Proof.
  unfold write_at. case_bool_decide; [done|]. len_lia.
Qed.

Lemma lookup_write_at off buf file i :
  buf ≠ [] →
  write_at off buf file !! i =
    if bool_decide (off ≤ i < off + length buf)%nat then buf !! (i - off)%nat
    else if bool_decide (i < length file)%nat then file !! i
    else if bool_decide (i < off)%nat then Some 0 else None.
Proof.
  intros Hne. unfold write_at. rewrite bool_decide_eq_false_2 by done.
  set (pad := file ++ replicate (off - length file) 0).
  assert (length (take off pad) = off) as Hlen by (unfold pad; len_lia).
  destruct (decide (i < off)%nat) as [Hi|Hi].
  - rewrite (bool_decide_eq_false_2 (off ≤ i < _)%nat) by lia.
    rewrite lookup_app_l, lookup_take_lt by lia. unfold pad. case_bool_decide.
    + by rewrite lookup_app_l.
    + rewrite bool_decide_eq_true_2 by done. rewrite lookup_app_r by lia.
      apply lookup_replicate_2. lia.
  - rewrite lookup_app_r, Hlen by lia. case_bool_decide as Hin.
    + by rewrite lookup_app_l by lia.
    + rewrite lookup_app_r, lookup_drop by lia.
      replace (off + length buf + (i - off - length buf))%nat with i by lia.
      rewrite (bool_decide_eq_false_2 (i < off)%nat) by done. case_bool_decide; [done|].
      apply lookup_ge_None_2. lia.
Qed.

Lemma write_at_holds off buf file :
  0 ≤ off → holds (write_at (Z.to_nat off) buf file) off buf.
Proof.
  intros Ho. apply holds_lookup. split; [done|]. intros k Hk.
  rewrite lookup_write_at by (intros ->; cbn in Hk; lia).
  rewrite bool_decide_eq_true_2 by lia. f_equal. lia.
Qed.

Lemma write_at_agree off buf file lo hi :
  0 ≤ off → hi ≤ off ∨ off + Z.of_nat (length buf) ≤ lo →
  agree lo hi file (write_at (Z.to_nat off) buf file).
Proof.
  intros Ho Hout i Hi Hlen. destruct (decide (buf = [])) as [->|Hne]; [done|].
  rewrite lookup_write_at by done. rewrite bool_decide_eq_false_2 by lia.
  by rewrite bool_decide_eq_true_2.
Qed.

(** ** What a well-built image holds *)

Lemma kind_ind (P : EntryKind → Prop) :
  (∀ file x, P (KFile file x)) → (∀ path, P (KLink path)) →
  (∀ dir, Forall (λ e, P (entry_kind e)) dir → P (KDir dir)) → ∀ k, P k.
Proof.
  intros Hf Hl Hd. fix IH 1. intros [file x|dir|path]; [apply Hf| |apply Hl].
  apply Hd. induction dir as [|[name kind] dir IHdir]; constructor; [apply IH|apply IHdir].
Qed.

(** The inode describes a range of the image between [lo] and [hi]. *)
Record in_image (lo hi : Z) (ty : InodeType) (n : nat) (h : InodeHeader) : Prop := {
  ii_type : type_ h = type_code ty;
  ii_length : length_ h = Z.of_nat n;
  ii_lo : lo ≤ offset_ h;
  ii_hi : offset_ h + Z.of_nat n ≤ hi;
}.

Section Rep.
Context (im : bytes) (T : list InodeHeader).

(** Entry [i] of the table at [table] names the entry's kind, its name and its
    contents between [lo] and [hi]. *)
Record entry_rep (P : EntryKind → InodeHeader → Prop) (lo hi table : Z) (i : nat) (e : Entry)
    (de : DirEntry) (h : InodeHeader) : Prop := {
  er_entry : holds im (table + 8 * Z.of_nat i) (dir_entry_bytes de);
  er_inode : 0 ≤ de_inode de ≤ u16_max;
  er_header : T !! Z.to_nat (de_inode de) = Some h;
  er_name_len : name_len de = Z.of_nat (length (entry_name e));
  er_name_u16 : name_len de ≤ u16_max;
  er_name_lo : lo ≤ name_offset de;
  er_name_hi : name_offset de + name_len de ≤ hi;
  er_name : holds im (name_offset de) (entry_name e);
  er_kind : P (entry_kind e) h;
}.

Fixpoint entries_rep (P : EntryKind → InodeHeader → Prop) (lo hi table : Z) (i : nat)
    (dir : list Entry) : Prop :=
  match dir with
  | [] => True
  | mk_entry name kind :: dir =>
     (∃ de h, entry_rep (λ _, P kind) lo hi table i (mk_entry name kind) de h) ∧
     entries_rep P lo hi table (S i) dir
  end.

Fixpoint rep (lo hi : Z) (k : EntryKind) (h : InodeHeader) : Prop :=
  match k with
  | KFile file x =>
     in_image lo hi (if x then ExecutableFile else RegularFile) (length file) h ∧
     holds im (offset_ h) file
  | KLink path => in_image lo hi TyLink (length path) h ∧ holds im (offset_ h) path
  | KDir dir =>
     in_image lo hi TyDir (8 * length dir) h ∧ 0 ≤ offset_ h ∧
     entries_rep (rep lo hi) lo hi (offset_ h) 0 dir
  end.
End Rep.

Lemma entries_rep_impl im im' T T' (P P' : EntryKind → InodeHeader → Prop) lo hi lo' hi' table i dir :
  (∀ off data, lo ≤ off → off + Z.of_nat (length data) ≤ hi → holds im off data → holds im' off data) →
  (∀ data j, (i ≤ j < i + length dir)%nat → (length data = 8)%nat →
     holds im (table + 8 * Z.of_nat j) data → holds im' (table + 8 * Z.of_nat j) data) →
  T `prefix_of` T' → lo' ≤ lo → hi ≤ hi' →
  Forall (λ e, ∀ h, P (entry_kind e) h → P' (entry_kind e) h) dir →
  entries_rep im T P lo hi table i dir → entries_rep im' T' P' lo' hi' table i dir.
Proof.
  intros Him Htab [T2 ->] Hlo Hhi HP. revert i Htab.
  induction HP as [|[name kind] dir Hk _ IH]; intros i Htab; cbn; [done|].
  intros [(de & h & [? ? ? ? ? ? ? ? ?]) Hrest]. split.
  - exists de, h. split; cbn in *; try done; try lia.
    + apply Htab; [lia|done|done].
    + by apply lookup_app_l_Some.
    + apply Him; lia || done.
    + by apply Hk.
  - apply IH; [|done]. intros data j Hj. apply Htab. cbn. lia.
Qed.

Lemma rep_stable im im' T T' lo hi lo' hi' k h :
  rep im T lo hi k h → agree lo hi im im' → T `prefix_of` T' → lo' ≤ lo → hi ≤ hi' →
  rep im' T' lo' hi' k h.
Proof.
  intros Hr Ha HT Hlo Hhi. revert h Hr. induction k as [file x|path|dir IH] using kind_ind;
    intros h; cbn.
  - intros [[] Hh]. split; [split; lia|]. eapply holds_agree; eauto.
  - intros [[] Hh]. split; [split; lia|]. eapply holds_agree; eauto.
  - intros ([] & Ho & He). split; [split; lia|]. split; [done|].
    eapply entries_rep_impl; [..|done|exact He]; try done.
    + intros off data ?? Hh. eapply holds_agree; eauto.
    + intros data j Hj Hl Hh. eapply holds_agree; [done|done|lia|lia].
Qed.

(** ** The builder *)

(** [DEFAULT_MAX_SIZE] of a debug build, the larger one *)
Definition DEFAULT_MAX_SIZE : Z := 268435456.

Definition header_ok (h : InodeHeader) : Prop :=
  0 ≤ type_ h ≤ u32_max ∧ 0 ≤ length_ h ≤ u32_max ∧ 0 ≤ offset_ h ≤ u32_max.

Record state_ok (s : State) : Prop := {
  so_offset : 0 ≤ offset s ≤ max_size s;
  so_aligned : offset s `mod` INITFS_PAGE_SIZE = 0;
  so_max : max_size s ≤ DEFAULT_MAX_SIZE;
  so_buffer : length (buffer s) = Z.to_nat 8192;
  so_img : Z.of_nat (length (img s)) ≤ offset s;
  so_inodes : Forall header_ok (inodes s);
}.

Ltac sizes := unfold DEFAULT_MAX_SIZE, INITFS_PAGE_SIZE, usize_max, u32_max, u16_max in *; lia.

Lemma pages_spec n : Z.of_nat n ≤ pages n < Z.of_nat n + 4096 ∧ pages n `mod` 4096 = 0.
Proof. unfold pages, INITFS_PAGE_SIZE. apply round_up_spec; lia. Qed.

Lemma pages_add o n :
  0 ≤ o → o `mod` 4096 = 0 → round_up (o + Z.of_nat n) 4096 = o + pages n.
Proof.
  intros Ho Hm. destruct (pages_spec n) as [Hb Hp].
  destruct (round_up_spec (o + Z.of_nat n) 4096) as [Hb' Hp']; [lia|lia|].
  assert ((o + pages n) `mod` 4096 = 0) as Hs.
  { rewrite Zplus_mod, Hm, Hp. done. }
  apply Z.mod_divide in Hs as [q Hq]; [|lia]. apply Z.mod_divide in Hp' as [q' Hq']; [|lia]. lia.
Qed.

Lemma bump_alloc_wp n s (Q : outcome Z → State → Prop) :
  state_ok s → offset s + pages n ≤ max_size s →
  (state_ok (set_offset (offset s + pages n) s) →
   Q (Ok (offset s)) (set_offset (offset s + pages n) s)) →
  wp (bump_alloc (Z.of_nat n)) Q s.
Proof.
  intros [] Hfit HQ. destruct (pages_spec n) as [Hb Hp]. unfold bump_alloc. do 3 wp_step.
  apply wp_add_usize; [sizes|]. wp_step.
  assert (round_up (offset s + Z.of_nat n) INITFS_PAGE_SIZE = offset s + pages n) as Hr
    by (apply pages_add; [lia|done]).
  apply wp_next_multiple_of; rewrite ?Hr; [done|sizes|].
  rewrite bool_decide_eq_true_2 by done. wp_go. apply HQ.
  split; cbn; try done; [lia| |lia].
  unfold INITFS_PAGE_SIZE in *. rewrite Zplus_mod, Hp, so_aligned0. done.
Qed.

(** What a step of the builder leaves alone: the bytes below [hi], the inodes *)
Record frame (hi : Z) (s s' : State) : Prop := {
  fr_max : max_size s' = max_size s;
  fr_inodes : inodes s `prefix_of` inodes s';
  fr_img : agree 0 hi (img s) (img s');
}.

Lemma frame_trans hi s1 s2 s3 : frame hi s1 s2 → frame hi s2 s3 → frame hi s1 s3.
Proof.
  intros [] []. split; [congruence|by etrans|by eapply agree_trans].
Qed.

Lemma frame_sub hi hi' s s' : hi' ≤ hi → frame hi s s' → frame hi' s s'.
Proof. intros ? []. split; [done|done|by eapply agree_sub]. Qed.

Lemma try_u32_wp {S} x Q (s : S) : x ≤ u32_max → Q (Ok x) s → wp (try_u32 x) Q s.
Proof. intros. unfold try_u32. by rewrite bool_decide_eq_true_2. Qed.
Lemma try_u16_wp {S} x Q (s : S) : x ≤ u16_max → Q (Ok x) s → wp (try_u16 x) Q s.
Proof. intros. unfold try_u16. by rewrite bool_decide_eq_true_2. Qed.
Lemma add_u32_wp {S} a b Q (s : S) : a + b ≤ u32_max → Q (Ok (a + b)) s → wp (add_u32 a b) Q s.
Proof. intros. unfold add_u32. by rewrite bool_decide_eq_true_2. Qed.
Lemma mul_u32_wp {S} a b Q (s : S) : a * b ≤ u32_max → Q (Ok (a * b)) s → wp (mul_u32 a b) Q s.
Proof. intros. unfold mul_u32. by rewrite bool_decide_eq_true_2. Qed.

(** Writing inside the allocated part keeps the state well formed. *)
Lemma write_all_at_wp buf off s (Q : outcome unit → State → Prop) :
  state_ok s → 0 ≤ off → off + Z.of_nat (length buf) ≤ offset s →
  (let s' := set_img (write_at (Z.to_nat off) buf) s in
   state_ok s' → holds (img s') off buf →
   (∀ lo hi, hi ≤ off ∨ off + Z.of_nat (length buf) ≤ lo → agree lo hi (img s) (img s')) →
   Q (Ok tt) s') →
  wp (write_all_at buf off) Q s.
Proof.
  intros [] Ho Hend HQ. unfold write_all_at. wp_go. apply HQ.
  - split; cbn; try done. rewrite length_write_at. case_bool_decide; [done|]. lia.
  - by apply write_at_holds.
  - intros. by apply write_at_agree.
Qed.

Section BuilderSpec.
Context (read_count : bytes → nat → nat → nat).
(** Reads of a regular file return what was asked for, up to its end. *)
Hypothesis full_reads : ∀ file pos n, read_count file pos n = Nat.min n (length file - pos).

Lemma copy_chunks_spec fuel file off (rel : nat) s :
  state_ok s → 0 ≤ off → off + Z.of_nat (length file) ≤ offset s →
  (rel ≤ length file)%nat → (length file - rel ≤ fuel)%nat →
  wp (copy_chunks read_count fuel file (Z.of_nat (length file)) off 8192 (Z.of_nat rel) rel)
    (λ r s', r = Ok tt ∧ state_ok s' ∧ offset s' = offset s ∧ inodes s' = inodes s ∧
      max_size s' = max_size s ∧
      agree 0 (off + Z.of_nat rel) (img s) (img s') ∧
      holds (img s') (off + Z.of_nat rel) (drop rel file)) s.
Proof.
  revert rel s. induction fuel as [|fuel IH]; intros rel s Hs Ho Hend Hrel Hfuel;
    cbn [copy_chunks]; case_bool_decide as Hdone; try lia.
  1-2: wp_go; split_and!; try done; rewrite drop_ge by lia; apply holds_lookup;
    (split; [lia|]); cbn; lia.
  unfold file_read. do 2 wp_step. wp_step. wp_step. do 2 wp_step.
  rewrite full_reads.
  set (a := Z.to_nat (Z.min 8192 (Z.of_nat (length file) - Z.of_nat rel))).
  assert (Z.of_nat a = Z.min 8192 (Z.of_nat (length file) - Z.of_nat rel)) as Ha by lia.
  replace (Nat.min a (length file - rel)) with a by lia.
  set (buf := copy_at (buffer s) 0 (slice file rel a)).
  pose proof (length_slice file rel a ltac:(lia)) as Hsl.
  assert (take a buf = slice file rel a) as Hbuf.
  { pose proof (take_copy_at (buffer s) 0 (slice file rel a)) as Ht. rewrite Hsl, take_0 in Ht.
    apply Ht. rewrite (so_buffer s Hs). lia. }
  assert (state_ok (set_buffer buf s)) as Hs1.
  { destruct Hs. split; cbn; try done. unfold buf. rewrite length_copy_at; [done|].
    rewrite so_buffer0, Hsl. lia. }
  pose proof (so_offset s Hs). pose proof (so_max s Hs).
  wp_step. apply add_u32_wp; [sizes|]. wp_step. cbn [buffer set_buffer]. rewrite Hbuf.
  apply write_all_at_wp; [done|lia|cbn; lia|]. intros s1 Hs1' Hholds Hagree.
  wp_step. apply add_u32_wp; [sizes|].
  destruct (decide (Z.of_nat (length file) - Z.of_nat rel ≤ 8192)) as [Hlast|Hmore].
  - destruct fuel as [|fuel]; cbn [copy_chunks]; rewrite bool_decide_eq_true_2 by lia; wp_go.
    all: split_and!; try done; [apply Hagree; lia|].
    all: replace (drop rel file) with (slice file rel a); [done|].
    all: unfold slice; apply take_ge; rewrite length_drop; lia.
  - assert (a = Z.to_nat 8192) as Ha8 by lia.
    replace (Z.of_nat rel + 8192) with (Z.of_nat (rel + a)) by lia.
    eapply wp_mono; [apply IH; [done|done|done|lia|lia]|].
    intros r s2 (-> & Hs2 & Ho2 & Hi2 & Hm2 & Hag & Hh). split_and!; try done.
    + eapply agree_trans; [apply (Hagree 0); lia|]. eapply agree_sub; [exact Hag|lia|lia].
    + replace (drop rel file) with (slice file rel a ++ drop (rel + a) file).
      * apply holds_app.
        -- eapply holds_agree; [exact Hholds|exact Hag|lia|lia].
        -- rewrite Hsl. by replace (off + Z.of_nat rel + Z.of_nat a) with
             (off + Z.of_nat (rel + a)) by lia.
      * unfold slice. rewrite <- drop_drop. apply take_drop.
Qed.

(** What writing a tree promises *)
Record kind_post (k : EntryKind) (s : State) (h : InodeHeader) (s' : State) : Prop := {
  kp_ok : state_ok s';
  kp_frame : frame (offset s) s s';
  kp_offset : offset s' = offset s + demand k;
  kp_count : length (inodes s') = (length (inodes s) + entries k)%nat;
  kp_rep : rep (img s') (inodes s') (offset s) (offset s') k h;
}.

Definition header_for (wr : WriteResult) (ty : InodeType) : InodeHeader :=
  mk_inode_header (type_code ty) (wr_size wr) (wr_offset wr).

(** There is room for the tree. *)
Record room (k : EntryKind) (s : State) : Prop := {
  ro_ok : state_ok s;
  ro_fits : fits k = true;
  ro_demand : offset s + demand k ≤ max_size s;
  ro_count : Z.of_nat (length (inodes s) + entries k) ≤ u16_max;
}.

Lemma write_file_spec file x s :
  room (KFile file x) s →
  wp (allocate_and_write_file read_count file) (λ r s', ∃ wr, r = Ok wr ∧ wr_offset wr = offset s ∧
    kind_post (KFile file x) s (header_for wr (if x then ExecutableFile else RegularFile)) s') s.
Proof.
  intros [Hs _ Hd _]. cbn in Hd. destruct (pages_spec (length file)) as [Hb _].
  pose proof (so_offset s Hs). pose proof (so_max s Hs).
  unfold allocate_and_write_file. wp_step. apply try_u32_wp; [sizes|]. wp_step.
  apply bump_alloc_wp; [done|done|]. intros Hs1. wp_step. apply try_u32_wp; [sizes|].
  do 3 wp_step. cbn [buffer set_offset]. rewrite (so_buffer s Hs), Z2Nat.id by lia.
  apply try_u32_wp; [sizes|]. wp_step.
  eapply wp_mono; [apply (copy_chunks_spec (length file) file (offset s) 0);
    [done|lia|cbn; lia|lia|lia]|].
  intros r s2 (-> & Hs2 & Ho2 & Hi2 & Hm2 & Ha & Hh). wp_go. eexists. split; [done|]. split; [done|].
  cbn in Ho2, Hi2, Hm2, Ha. rewrite Z.add_0_r in Ha, Hh.
  split; cbn; [done|split; [done|by rewrite Hi2|done]|lia|by rewrite Hi2, Nat.add_0_r|].
  split; [split; cbn; [by destruct x|done|lia|lia]|done].
Qed.

Lemma write_link_spec path s :
  room (KLink path) s →
  wp (allocate_and_write_link path) (λ r s', ∃ wr, r = Ok wr ∧
    kind_post (KLink path) s (header_for wr TyLink) s') s.
Proof.
  intros [Hs _ Hd _]. cbn in Hd. destruct (pages_spec (length path)) as [Hb _].
  pose proof (so_offset s Hs). pose proof (so_max s Hs).
  unfold allocate_and_write_link. do 2 wp_step. apply try_u32_wp; [sizes|]. wp_step.
  apply bump_alloc_wp; [done|done|]. intros Hs1. wp_step. apply try_u32_wp; [sizes|].
  wp_step. apply write_all_at_wp; [done|lia|cbn; lia|]. intros s2 Hs2 Hh Ha.
  wp_go. eexists. split; [done|].
  split; cbn; [done|split; cbn; [done|done|apply Ha; lia]|lia|lia|].
  split; [split; cbn; [done|done|lia|lia]|done].
Qed.

(** The state after an entry was linked into its directory *)
Record linked (table : Z) (i : nat) (name : bytes) (h : InodeHeader) (s s' : State) : Prop := {
  ln_ok : state_ok s';
  ln_offset : offset s' = offset s + pages (length name);
  ln_max : max_size s' = max_size s;
  ln_inodes : inodes s' = inodes s ++ [h];
  ln_below : agree 0 (table + 8 * Z.of_nat i) (img s) (img s');
  ln_above : agree (table + 8 * Z.of_nat i + 8) (offset s) (img s) (img s');
  ln_entry : holds (img s') (table + 8 * Z.of_nat i)
    (dir_entry_bytes (mk_dir_entry (Z.of_nat (length (inodes s))) (Z.of_nat (length name)) (offset s)));
  ln_name : holds (img s') (offset s) name;
}.

Lemma link_entry_spec table i name wr ty s :
  state_ok s → header_ok (header_for wr ty) →
  0 ≤ table → table + 8 * Z.of_nat i + 8 ≤ offset s →
  offset s + pages (length name) ≤ max_size s →
  Z.of_nat (length name) ≤ u16_max → Z.of_nat (length (inodes s)) ≤ u16_max →
  wp (link_entry table i name wr ty) (λ r s', r = Ok tt ∧
    linked table i name (header_for wr ty) s s') s.
Proof.
  intros Hs Hh Ht Htab Hfit Hname Hcount. destruct (pages_spec (length name)) as [Hb _].
  pose proof (so_offset s Hs). pose proof (so_max s Hs).
  unfold link_entry, inode_allocate. do 5 wp_step. rewrite bool_decide_eq_true_2 by done.
  do 2 wp_step. set (s1 := set_inodes _ s).
  assert (state_ok s1) as Hs1.
  { destruct Hs. split; cbn; try done. apply Forall_app. split; [done|]. by constructor. }
  apply try_u16_wp; [done|]. wp_step. apply bump_alloc_wp; [done|done|]. intros Hs2.
  wp_step. apply try_u32_wp; [cbn; sizes|]. wp_step.
  apply write_all_at_wp; [done|cbn; lia|cbn; lia|]. intros s3 Hs3 Hh3 Ha3.
  wp_step. apply mul_u32_wp; [unfold dir_entry_len; sizes|]. wp_step.
  unfold dir_entry_len. apply add_u32_wp; [sizes|].
  replace (table + Z.of_nat i * Z.of_nat 8) with (table + 8 * Z.of_nat i) by lia.
  apply write_all_at_wp; [done|lia|cbn; lia|]. intros s4 Hs4 Hh4 Ha4. split; [done|].
  cbn [offset set_inodes s1] in *. cbn [dir_entry_bytes length app le_bytes] in Ha4.
  split; cbn; try done.
  - eapply agree_trans; [apply Ha3; cbn; lia|apply Ha4; lia].
  - eapply agree_trans; [apply Ha3; cbn; lia|apply Ha4; lia].
  - eapply holds_agree; [exact Hh3|apply (Ha4 (offset s) (offset s + Z.of_nat (length name)))|..];
      cbn in *; lia.
Qed.

Lemma rep_header_ok im T lo hi k h :
  rep im T lo hi k h → 0 ≤ lo → hi ≤ DEFAULT_MAX_SIZE → header_ok h.
Proof.
  intros Hr Hlo Hhi.
  assert (∃ ty n, in_image lo hi ty n h) as (ty & n & [Ht Hl Ho He]).
  { destruct k; destruct Hr as [? _]; eauto. }
  unfold header_ok. rewrite Ht, Hl. destruct ty; unfold type_code; sizes.
Qed.

Lemma demand_nonneg k : 0 ≤ demand k.
Proof.
  induction k as [file x|path|dir IH] using kind_ind; cbn.
  - destruct (pages_spec (length file)). lia.
  - destruct (pages_spec (length path)). lia.
  - destruct (pages_spec (8 * length dir)) as [? _].
    enough (0 ≤ foldr (λ e acc, demand (entry_kind e) + pages (length (entry_name e)) + acc) 0 dir)
      by (cbn in *; lia).
    clear H. induction IH as [|e dir He _ IHd]; cbn; [done|].
    destruct (pages_spec (length (entry_name e))). lia.
Qed.

Definition dir_demand (dir : list Entry) : Z :=
  foldr (λ e acc, demand (entry_kind e) + pages (length (entry_name e)) + acc) 0 dir.
Definition dir_entries_below (dir : list Entry) : nat :=
  foldr (λ e acc, entries (entry_kind e) + 1 + acc)%nat 0%nat dir.
Definition dir_fits (dir : list Entry) : bool :=
  forallb (λ e, bool_decide (Z.of_nat (length (entry_name e)) ≤ u16_max) && fits (entry_kind e)) dir.

Lemma dir_demand_nonneg dir : 0 ≤ dir_demand dir.
Proof.
  induction dir as [|e dir IH]; cbn; [done|]. fold (dir_demand dir).
  pose proof (demand_nonneg (entry_kind e)). destruct (pages_spec (length (entry_name e))). lia.
Qed.

(** The state after the entries [dir], from index [i] on, were written *)
Record entries_post (table : Z) (i : nat) (dir : list Entry) (s s' : State) : Prop := {
  ep_ok : state_ok s';
  ep_offset : offset s' = offset s + dir_demand dir;
  ep_max : max_size s' = max_size s;
  ep_inodes : inodes s `prefix_of` inodes s';
  ep_count : length (inodes s') = (length (inodes s) + dir_entries_below dir)%nat;
  ep_below : agree 0 (table + 8 * Z.of_nat i) (img s) (img s');
  ep_above : agree (table + 8 * Z.of_nat (i + length dir)) (offset s) (img s) (img s');
  ep_rep : entries_rep (img s') (inodes s') (rep (img s') (inodes s') (offset s) (offset s'))
    (offset s) (offset s') table i dir;
}.

Definition writes_kind (k : EntryKind) : Prop :=
  ∀ s, room k s → wp (write_kind read_count k) (λ r s', ∃ wr ty, r = Ok (wr, ty) ∧
    kind_post k s (header_for wr ty) s') s.

(** One entry written and linked, then the rest *)
Lemma entries_post_cons table i name kind dir h s s1 s2 s3 :
  state_ok s → 0 ≤ table → table + 8 * Z.of_nat (S i + length dir) ≤ offset s →
  Z.of_nat (length (inodes s1)) ≤ u16_max → Z.of_nat (length name) ≤ u16_max →
  kind_post kind s h s1 → linked table i name h s1 s2 → entries_post table (S i) dir s2 s3 →
  entries_post table i (mk_entry name kind :: dir) s s3.
Proof.
  intros Hs Ht Htab Hcount Hname [Hs1 [Hm1 Hi1 Hf1] Ho1 Hc1 Hr1] [] [].
  destruct (pages_spec (length name)) as [Hb _]. pose proof (demand_nonneg kind).
  pose proof (dir_demand_nonneg dir). pose proof (so_offset s Hs).
  assert (inodes s1 ++ [h] `prefix_of` inodes s3) as Hpre by (by rewrite <- ln_inodes0).
  assert (agree 0 (table + 8 * Z.of_nat i) (img s1) (img s3)) as Hbelow.
  { eapply agree_trans; [exact ln_below0|]. eapply agree_sub; [exact ep_below0|lia|lia]. }
  assert (agree (table + 8 * Z.of_nat (S i + length dir)) (offset s1) (img s1) (img s3)) as Habove.
  { eapply agree_trans; eapply agree_sub; [exact ln_above0|lia|lia|exact ep_above0|lia|lia]. }
  split; cbn [length].
  - done.
  - cbn. fold (dir_demand dir). lia.
  - congruence.
  - etrans; [exact Hi1|]. etrans; [|exact Hpre]. by eexists.
  - rewrite ep_count0, ln_inodes0, length_app, Hc1. cbn. fold (dir_entries_below dir). lia.
  - eapply agree_trans; [|done]. eapply agree_sub; [exact Hf1|lia|lia].
  - replace (i + S (length dir))%nat with (S i + length dir)%nat by lia.
    eapply agree_trans; eapply agree_sub; [exact Hf1|lia|lia|exact Habove|lia|lia].
  - split.
    + exists (mk_dir_entry (Z.of_nat (length (inodes s1))) (Z.of_nat (length name)) (offset s1)), h.
      split; cbn [de_inode name_len name_offset entry_name entry_kind].
      * eapply holds_agree; [exact ln_entry0|exact ep_below0|lia|cbn; lia].
      * sizes.
      * rewrite Nat2Z.id. destruct Hpre as [l ->]. rewrite <- app_assoc. by apply list_lookup_middle.
      * done.
      * done.
      * lia.
      * lia.
      * eapply holds_agree; [exact ln_name0|exact ep_above0|lia|lia].
      * eapply rep_stable; [exact Hr1| | |lia|lia].
        -- eapply agree_sub; [exact Habove|lia|lia].
        -- etrans; [|exact Hpre]. by eexists.
    + eapply entries_rep_impl; [..|exact ep_rep0]; try done; try lia.
      apply Forall_forall. intros e _ h' Hr. eapply rep_stable; [exact Hr|apply agree_refl|done|lia|lia].
Qed.

Lemma write_entries_spec table i dir s :
  Forall (λ e, writes_kind (entry_kind e)) dir → dir_fits dir = true →
  state_ok s → 0 ≤ table → table + 8 * Z.of_nat (i + length dir) ≤ offset s →
  offset s + dir_demand dir ≤ max_size s →
  Z.of_nat (length (inodes s) + dir_entries_below dir) ≤ u16_max →
  wp (write_entries (write_kind read_count) table i dir) (λ r s', r = Ok tt ∧
    entries_post table i dir s s') s.
Proof.
  intros Hk. revert i s. induction Hk as [|[name kind] dir Hkind _ IH];
    intros i s Hfits Hs Ht Htab Hd Hc; cbn [write_entries].
  - wp_go. split; [done|]. split; cbn; auto using agree_refl; lia.
  - cbn in Hfits, Hd, Hc, Htab. fold (dir_demand dir) in Hd. fold (dir_entries_below dir) in Hc.
    fold (dir_fits dir) in Hfits. apply andb_true_iff in Hfits as [[Hname%bool_decide_eq_true_1 Hfk]%andb_true_iff Hfits].
    destruct (pages_spec (length name)) as [Hb _]. pose proof (demand_nonneg kind).
    pose proof (dir_demand_nonneg dir). pose proof (so_max s Hs).
    wp_step. eapply wp_mono; [apply Hkind; split; [done|done|cbn; lia|cbn; lia]|].
    intros r s1 (wr & ty & -> & Hkp). cbv iota beta. cbn [entry_kind] in Hkp.
    destruct (Hkp) as [Hs1 [Hm1 Hi1 Hf1] Ho1 Hc1 Hr1].
    assert (header_ok (header_for wr ty)) as Hok.
    { pose proof (so_offset s1 Hs1). pose proof (so_offset s Hs). eapply rep_header_ok; [exact Hr1|lia|sizes]. }
    wp_step. eapply wp_mono; [apply link_entry_spec; try done; lia|].
    intros r s2 [-> Hl]. cbv iota beta. destruct (Hl) as [Hs2 Ho2 Hm2 Hi2 _ _ _ _].
    assert (length (inodes s2) = S (length (inodes s1))) as Hc2 by (rewrite Hi2, length_app; cbn; lia).
    eapply wp_mono; [apply IH; [done|done|done|lia|lia|lia]|].
    intros r s3 [-> He]. split; [done|]. eapply entries_post_cons; eauto; lia.
Qed.

Lemma write_kind_spec k : writes_kind k.
Proof.
  induction k as [file x|path|dir IH] using kind_ind; intros s Hroom; cbn [write_kind].
  - wp_step. eapply wp_mono; [by apply write_file_spec|]. intros r s' (wr & -> & _ & ?). wp_go. eauto.
  - wp_step. eapply wp_mono; [by apply write_link_spec|]. intros r s' (wr & -> & ?). wp_go. eauto.
  - destruct Hroom as [Hs Hf Hd Hc]. cbn [demand entries fits] in *.
    fold (dir_demand dir) in Hd. fold (dir_entries_below dir) in Hc. fold (dir_fits dir) in Hf.
    apply andb_true_iff in Hf as [Hn%bool_decide_eq_true_1 Hf].
    destruct (pages_spec (8 * length dir)) as [Hb _]. pose proof (dir_demand_nonneg dir).
    pose proof (so_offset s Hs). pose proof (so_max s Hs).
    unfold write_dir, dir_entry_len. do 2 wp_step. apply try_u16_wp; [done|]. wp_step.
    replace (Z.of_nat (length dir) * Z.of_nat 8) with (Z.of_nat (8 * length dir)) by lia.
    apply bump_alloc_wp; [done|lia|]. intros Hs1. wp_step. apply try_u32_wp; [sizes|].
    wp_step. eapply wp_mono; [apply write_entries_spec; try done; cbn [offset max_size inodes set_offset]; lia|].
    intros r s' [-> []]. wp_go. eexists _, _. split; [done|]. cbn [offset max_size inodes img set_offset] in *.
    split; cbn [demand entries]; try done.
    + split; [done|done|]. eapply agree_sub; [exact ep_below0|lia|lia].
    + fold (dir_demand dir). lia.
    + split; [split; cbn [type_ length_ offset_ header_for wr_size wr_offset]; lia || done|].
      split; [apply H0|].
      eapply entries_rep_impl; [..|exact ep_rep0]; try done; try lia.
      apply Forall_forall. intros e _ h' Hr. eapply rep_stable; [exact Hr|apply agree_refl|done|lia|lia].
Qed.

Lemma write_inodes_spec table i hs s :
  state_ok s → 0 ≤ table → table + 12 * Z.of_nat (i + length hs) ≤ offset s →
  wp (write_inodes table i hs) (λ r s', r = Ok tt ∧ state_ok s' ∧ offset s' = offset s ∧
    inodes s' = inodes s ∧ max_size s' = max_size s ∧
    agree 0 (table + 12 * Z.of_nat i) (img s) (img s') ∧
    ∀ j h, hs !! j = Some h →
      holds (img s') (table + 12 * Z.of_nat (i + j)) (inode_header_bytes h)) s.
Proof.
  revert i s. induction hs as [|h hs IH]; intros i s Hs Ht Hend; cbn [write_inodes].
  - wp_go. by split_and!.
  - cbn [length] in Hend. pose proof (so_offset s Hs). pose proof (so_max s Hs).
    unfold inode_struct_len. wp_step. apply mul_u32_wp; [sizes|]. wp_step.
    apply add_u32_wp; [sizes|]. wp_step.
    replace (table + Z.of_nat i * Z.of_nat 12) with (table + 12 * Z.of_nat i) by lia.
    apply write_all_at_wp; [done|lia|cbn; lia|]. intros s1 Hs1 Hh Ha.
    change (Z.of_nat (length (inode_header_bytes h))) with 12 in Ha.
    eapply wp_mono; [apply IH; [done|done|cbn; lia]|].
    intros r s2 (-> & Hs2 & Ho & Hi & Hm & Ha2 & Hhs). split_and!; try done.
    + eapply agree_trans; [apply (Ha 0); lia|]. eapply agree_sub; [exact Ha2|lia|lia].
    + intros [|j] h' Hj; cbn in Hj.
      * simplify_eq. rewrite Nat.add_0_r. eapply holds_agree; [exact Hh|exact Ha2|lia|].
        change (Z.of_nat (length (inode_header_bytes h'))) with 12. lia.
      * replace (i + S j)%nat with (S i + j)%nat by lia. by apply Hhs.
Qed.

Lemma elf_entry_state {A B} data (a : A) (b : B) :
  elf_entry data a = ((elf_entry data b).1, a).
Proof.
  unfold elf_entry, expect. case_bool_decide; [|done].
  destruct (data !! 4%nat) as [c|]; [|done]. destruct (data !! 5%nat) as [o|]; [|done].
  cbv [mbind comp_bind mret comp_ret panic].
  do 4 (match goal with |- context [if ?b then _ else _] => destruct b end;
        [by destruct (bool_decide _)|]). done.
Qed.

(** The finished image *)
Record image_ok (im boot : bytes) (root : list Entry) (T : list InodeHeader) (h : Header) : Prop := {
  im_header : holds im 0 (header_bytes h);
  im_magic : magic h = MAGIC;
  im_page : page_size h = INITFS_PAGE_SIZE;
  im_count : inode_count h = Z.of_nat (length T);
  im_count_u16 : 0 < Z.of_nat (length T) ≤ u16_max;
  im_root : 0 ≤ root_inode h ≤ u16_max;
  im_table : Z.of_nat header_len ≤ inode_table_offset h;
  im_inodes : ∀ j i, T !! j = Some i →
    header_ok i ∧ holds im (inode_table_offset h + 12 * Z.of_nat j) (inode_header_bytes i);
  im_size : Z.of_nat (length im) ≤ DEFAULT_MAX_SIZE;
  im_boot : holds im 4096 boot;
  im_tree : ∃ i, T !! Z.to_nat (root_inode h) = Some i ∧
    rep im T 4096 (inode_table_offset h) (KDir root) i;
}.

(** Everything fits: the format's counts, and the image under the limit. *)
Definition image_demand (boot : bytes) (root : list Entry) : Z :=
  4096 + pages (length boot) + demand (KDir root) + pages (12 * (entries (KDir root) + 1)).

Lemma write_root_spec dir s :
  room (KDir dir) s →
  wp (allocate_and_write_dir read_count dir) (λ r s', ∃ wr, r = Ok wr ∧
    kind_post (KDir dir) s (header_for wr TyDir) s') s.
Proof.
  intros Hroom. pose proof (write_kind_spec (KDir dir) s Hroom) as Hwp.
  unfold allocate_and_write_dir. cbn [write_kind] in Hwp. unfold wp, mbind, comp_bind in *.
  destruct (write_dir (write_kind read_count) dir s) as [[wr| |] s']; cbn in *;
    destruct Hwp as (wr' & ty & ? & ?); simplify_eq. eauto.
Qed.

Lemma inode_table_count_wp s (Q : outcome Z → State → Prop) :
  Z.of_nat (length (inodes s)) ≤ u16_max → Q (Ok (Z.of_nat (length (inodes s)))) s →
  wp inode_table_count Q s.
Proof.
  intros. unfold inode_table_count. do 2 wp_step. by rewrite bool_decide_eq_true_2.
Qed.

(** Placing the inode table and the header after the tree *)
Lemma finish_spec boot root s h wr entry :
  state_ok s → offset s + pages (12 * (length (inodes s) + 1)) ≤ max_size s →
  4096 ≤ offset s → Z.of_nat (length (inodes s) + 1) ≤ u16_max →
  holds (img s) 4096 boot → 4096 + Z.of_nat (length boot) ≤ offset s →
  h = header_for wr TyDir → rep (img s) (inodes s) 4096 (offset s) (KDir root) h →
  wp (root_ino ← inode_allocate TyDir wr;
      table ← write_inode_table;
      count ← inode_table_count;
      s ← get;
      write_all_at (header_bytes (mk_header MAGIC table (Z.of_nat (length (img s))) INITFS_PAGE_SIZE
        root_ino count entry)) 0) (λ r s', r = Ok tt ∧ ∃ hd,
    image_ok (img s') boot root (inodes s') hd) s.
Proof.
  intros Hs Hfit Hlo Hcount Hboot Hbend Hh Hrep.
  pose proof (so_offset s Hs). pose proof (so_max s Hs).
  destruct (pages_spec (12 * (length (inodes s) + 1))) as [Hb _].
  assert (header_ok h) as Hok by (eapply rep_header_ok; [exact Hrep|lia|sizes]).
  unfold inode_allocate. do 5 wp_step. rewrite bool_decide_eq_true_2 by sizes.
  do 2 wp_step. change (mk_inode_header (type_code TyDir) (wr_size wr) (wr_offset wr)) with
    (header_for wr TyDir). rewrite <- Hh. set (T := inodes s ++ [h]).
  assert (length T = (length (inodes s) + 1)%nat) as HT by (unfold T; by rewrite length_app).
  set (s1 := set_inodes T s).
  assert (state_ok s1) as Hs1.
  { destruct Hs. split; cbn; try done. apply Forall_app. split; [done|]. by constructor. }
  unfold write_inode_table. wp_step.
  apply inode_table_count_wp; cbn [inodes set_inodes s1]; [by rewrite HT|]. wp_step.
  unfold inode_struct_len. rewrite <- Nat2Z.inj_mul, HT.
  apply bump_alloc_wp; [done|done|]. intros Hs2. wp_step. cbn [offset set_inodes s1].
  apply try_u32_wp; [sizes|]. do 3 wp_step.
  eapply wp_mono; [apply write_inodes_spec; [done|lia|cbn [offset inodes set_offset set_inodes s1]; rewrite HT; lia]|].
  intros r s3 (-> & Hs3 & Ho3 & Hi3 & Hm3 & Ha3 & Hhs). 
  cbn [offset inodes max_size img set_offset set_inodes s1] in Ho3, Hi3, Hm3, Ha3, Hhs.
  fold T in Hi3, Hhs. do 2 wp_step. apply inode_table_count_wp; rewrite Hi3; [by rewrite HT|].
  do 2 wp_step. set (hd := mk_header _ _ _ _ _ _ _).
  assert (length (header_bytes hd) = header_len) as Hhl by done.
  apply write_all_at_wp; [done|lia|rewrite Hhl; unfold header_len; lia|].
  intros s4 Hs4 Hh4 Ha4. rewrite Hhl in Ha4. split; [done|]. exists hd.
  assert (agree (Z.of_nat header_len) (offset s) (img s) (img s4)) as Hagree.
  { eapply agree_trans; [eapply agree_sub; [exact Ha3|cbn; lia|lia]|]. apply Ha4. lia. }
  change (inodes s4) with (inodes s3). rewrite Hi3.
  split; cbn [magic page_size inode_count root_inode inode_table_offset hd]; try done.
  - rewrite HT. lia.
  - sizes.
  - unfold header_len. lia.
  - intros j i Hj. split.
    + pose proof (so_inodes s1 Hs1) as Hall. cbn in Hall. by eapply Forall_lookup_1 in Hall.
    + eapply holds_agree; [by apply Hhs|apply (Ha4 (Z.of_nat header_len)); by right| |done].
      unfold header_len. lia.
  - pose proof (so_img s4 Hs4). pose proof (so_offset s4 Hs4). pose proof (so_max s4 Hs4). lia.
  - eapply holds_agree; [exact Hboot|exact Hagree|unfold header_len; lia|lia].
  - exists h. rewrite Nat2Z.id. split; [by apply list_lookup_middle|].
    eapply rep_stable; [exact Hrep|eapply agree_sub; [exact Hagree|unfold header_len; lia|lia]|by eexists|lia|lia].
Qed.

Lemma build_spec boot root s e :
  state_ok s → offset s = 0 → inodes s = [] →
  fits (KDir root) = true → Z.of_nat (entries (KDir root) + 1) ≤ u16_max →
  image_demand boot root ≤ max_size s → (elf_entry boot tt).1 = Ok e →
  wp (build read_count boot root) (λ r s', r = Ok tt ∧ ∃ h,
    image_ok (img s') boot root (inodes s') h) s.
Proof.
  intros Hs Ho Hi Hf Hc Hd Helf. unfold image_demand in Hd.
  pose proof (so_max s Hs). destruct (pages_spec (length boot)) as [Hb _].
  destruct (pages_spec (12 * (entries (KDir root) + 1))) as [Hb2 _].
  pose proof (demand_nonneg (KDir root)).
  unfold build. wp_step. change 4096 with (Z.of_nat (Z.to_nat 4096)) at 1.
  assert (pages (Z.to_nat 4096) = 4096) as Hp by done.
  apply bump_alloc_wp; [done|rewrite Hp; lia|]. rewrite Hp, Ho, Z.add_0_l. intros Hs1.
  rewrite bool_decide_eq_false_2 by tauto. wp_step.
  eapply wp_mono; [apply (write_file_spec boot true); split;
    [done|done|cbn; lia|cbn; rewrite Hi; cbn; sizes]|].
  intros r s2 (wr & -> & Hwr & [Hs2 [Hm2 Hi2 Hf2] Ho2 Hc2 Hr2]).
  cbn [offset set_offset max_size inodes] in *. rewrite Hi in Hc2. cbn in Hc2.
  change (demand (KFile boot true)) with (pages (length boot)) in Ho2.
  wp_step. unfold wp at 1. rewrite (elf_entry_state boot s2 tt), Helf. cbn [fst snd].
  destruct Hr2 as [[_ _ Hlo Hhi] Hboot]. cbn in Hlo, Hhi, Hboot.
  unfold allocate_contents. wp_step. wp_step.
  eapply wp_mono; [apply write_root_spec; split; [done|done|rewrite Hm2; lia|lia]|].
  intros r s3 (wr3 & -> & [Hs3 [Hm3 Hi3 Hf3] Ho3 Hc3 Hr3]).
  cbn in Hwr. rewrite Hwr in Hboot.
  pose proof (finish_spec boot root s3 (header_for wr3 TyDir) wr3 e Hs3) as Hfin. rewrite wp_bind in Hfin.
  eapply Hfin; [rewrite Hc3, Hc2, Nat.add_0_l; lia|lia|lia| |lia|done|].
  - eapply holds_agree; [exact Hboot|exact Hf3|lia|lia].
  - eapply rep_stable; [exact Hr3|apply agree_refl|done|lia|lia].
Qed.
End BuilderSpec.

(** ** Reading the image back *)

Lemma inode_header_roundtrip h : header_ok h → inode_header_of (inode_header_bytes h) = h.
Proof.
  intros (Ht & Hl & Ho). destruct h as [t l o]. unfold inode_header_of, inode_header_bytes.
  cbn [type_ length_ offset_] in *. f_equal.
  - apply (le_val_bytes 4). cbn. sizes.
  - apply (le_val_bytes 4). cbn. sizes.
  - apply (le_val_bytes 4). cbn. sizes.
Qed.

Lemma dir_entry_roundtrip e :
  0 ≤ de_inode e ≤ u16_max → 0 ≤ name_len e ≤ u16_max → 0 ≤ name_offset e ≤ u32_max →
  dir_entry_of (dir_entry_bytes e) = e.
Proof.
  intros Hi Hl Ho. destruct e as [i l o]. unfold dir_entry_of, dir_entry_bytes.
  cbn [de_inode name_len name_offset] in *. f_equal.
  - apply (le_val_bytes 2). cbn. sizes.
  - apply (le_val_bytes 2). cbn. sizes.
  - apply (le_val_bytes 4). cbn. sizes.
Qed.

(** The fields of the header that the reader uses *)
Lemma header_fields h :
  magic h = MAGIC → 0 ≤ inode_table_offset h ≤ u32_max → 0 ≤ page_size h ≤ u16_max →
  0 ≤ root_inode h ≤ u16_max → 0 ≤ inode_count h ≤ u16_max →
  let h' := header_of (header_bytes h) in
  magic h' = MAGIC ∧ inode_table_offset h' = inode_table_offset h ∧ page_size h' = page_size h ∧
  root_inode h' = root_inode h ∧ inode_count h' = inode_count h.
Proof.
  intros Hm Ht Hp Hr Hc. unfold header_bytes. rewrite Hm. cbn zeta. split_and!.
  - reflexivity.
  - apply (le_val_bytes 4). cbn. sizes.
  - apply (le_val_bytes 2). cbn. sizes.
  - apply (le_val_bytes 2). cbn. sizes.
  - apply (le_val_bytes 2). cbn. sizes.
Qed.

Section ReaderSpec.
Context (slice_from_bytes : nat → bytes → list bytes).
(** The elements of the slice, in order, as many as fit *)
Hypothesis plain_slices : ∀ n b i, (0 < n)%nat →
  slice_from_bytes n b !! i =
    if bool_decide ((i + 1) * n ≤ length b)%nat then Some (slice b (i * n) n) else None.

(** A table of [n]-byte records in the image *)
Lemma slices_of_table {A} (dec : bytes → A) (enc : A → bytes) (n : nat) im off (l : list A) :
  (0 < n)%nat → (Z.to_nat off + length l * n ≤ length im)%nat → 0 ≤ off →
  (∀ j x, l !! j = Some x → dec (enc x) = x ∧ length (enc x) = n ∧
     holds im (off + Z.of_nat n * Z.of_nat j) (enc x)) →
  dec <$> slice_from_bytes n (slice im (Z.to_nat off) (length l * n)) = l.
Proof.
  intros Hn Hlen Hoff Hl. apply list_eq. intros j.
  rewrite list_lookup_fmap, plain_slices, length_slice by done. case_bool_decide as Hj.
  - destruct (lookup_lt_is_Some_2 l j ltac:(nia)) as [x Hx]. rewrite Hx.
    destruct (Hl j x Hx) as (Hdec & He & Hh). cbn. rewrite slice_slice by nia.
    rewrite <- Hdec. do 2 f_equal. destruct Hh as [_ Hh]. rewrite He in Hh.
    rewrite <- Hh at 1. f_equal. nia.
  - symmetry. apply lookup_ge_None_2. nia.
Qed.

Section Image.
Context (im boot : bytes) (root : list Entry) (T : list InodeHeader) (h : Header).
Hypothesis Himage : image_ok im boot root T h.

Lemma image_bounds :
  (header_len ≤ length im)%nat ∧
  inode_table_offset h + 12 * Z.of_nat (length T) ≤ Z.of_nat (length im).
Proof using Himage.
  destruct Himage. split.
  - assert (length (header_bytes h) = header_len) as Hl
      by (unfold header_bytes; rewrite im_magic0; done).
    apply holds_length in im_header0; [lia|]. intros Hn. by rewrite Hn in Hl.
  - destruct (lookup_lt_is_Some_2 T (length T - 1)) as [i Hi]; [lia|].
    destruct (im_inodes0 _ _ Hi) as [_ Hh]. apply holds_length in Hh; [|done].
    change (length (inode_header_bytes i)) with 12%nat in Hh. unfold header_len in *. lia.
Qed.

Lemma get_header_run :
  ∃ h', get_header im = (Ok h', im) ∧ magic h' = MAGIC ∧
    inode_table_offset h' = inode_table_offset h ∧ page_size h' = INITFS_PAGE_SIZE ∧
    root_inode h' = root_inode h ∧ inode_count h' = Z.of_nat (length T).
Proof using Himage.
  destruct image_bounds as [Hlen Htab]. destruct Himage.
  exists (header_of (header_bytes h)). split.
  - unfold get_header, mbind, comp_bind, get. rewrite bool_decide_eq_true_2 by done.
    destruct im_header0 as [_ Hh].
    assert (length (header_bytes h) = header_len) as Hl
      by (unfold header_bytes; rewrite im_magic0; done).
    rewrite Hl in Hh. unfold mret, comp_ret. by rewrite <- Hh.
  - destruct (header_fields h) as (H1 & H2 & H3 & H4 & H5); [done|unfold header_len in *; sizes|
      rewrite im_page0; done|done|rewrite im_count0; lia|].
    rewrite H1, H2, H3, H4, H5. by rewrite im_page0, im_count0.
Qed.

Lemma inode_table_size_run : inode_table_size im = (Ok (12 * Z.of_nat (length T)), im).
Proof using Himage.
  destruct get_header_run as (h' & Hrun & _ & _ & _ & _ & Hc).
  unfold inode_table_size, mbind, comp_bind. rewrite Hrun. unfold mret, comp_ret.
  rewrite Hc. unfold wrap_u32, inode_struct_len. destruct Himage. do 2 f_equal.
  rewrite Z.mod_small by sizes. lia.
Qed.

Lemma initfs_new_run : initfs_new (Some INITFS_PAGE_SIZE) im = (Ok tt, im).
Proof using Himage.
  destruct get_header_run as (h' & Hrun & Hm & Ht & Hp & _ & Hc).
  destruct image_bounds as [Hlen Htab]. pose proof (im_size _ _ _ _ _ Himage) as Hsz.
  pose proof (im_table _ _ _ _ _ Himage) as Hlo.
  unfold initfs_new, mbind, comp_bind, get.
  rewrite bool_decide_eq_false_2 by lia. rewrite bool_decide_eq_false_2 by sizes.
  rewrite Hrun, bool_decide_eq_false_2 by tauto. rewrite bool_decide_eq_false_2 by lia.
  rewrite inode_table_size_run, Ht, bool_decide_eq_true_2 by sizes. unfold mret, comp_ret.
  unfold wrap_u32. rewrite Z.mod_small by sizes.
  rewrite bool_decide_eq_false_2 by lia. by rewrite bool_decide_eq_false_2 by tauto.
Qed.

Lemma inode_table_run : inode_table slice_from_bytes im = (Ok T, im).
Proof using Himage plain_slices.
  destruct get_header_run as (h' & Hrun & Hm & Ht & Hp & _ & Hc).
  destruct image_bounds as [Hlen Htab]. pose proof (im_size _ _ _ _ _ Himage) as Hsz.
  pose proof (im_table _ _ _ _ _ Himage) as Hlo. unfold header_len in *.
  unfold inode_table, index_range, mbind, comp_bind. rewrite Hrun, inode_table_size_run, Ht.
  unfold get, wrap_usize. rewrite Z.mod_small by sizes.
  rewrite bool_decide_eq_true_2 by lia. unfold mret, comp_ret. do 2 f_equal.
  replace (Z.to_nat (_ + _ - _)) with (length T * inode_struct_len)%nat
    by (unfold inode_struct_len; lia).
  apply (slices_of_table _ inode_header_bytes); unfold inode_struct_len; [lia|lia|lia|].
  intros j x Hx. destruct (im_inodes _ _ _ _ _ Himage j x Hx). split_and!; [|done|done].
  by apply inode_header_roundtrip.
Qed.

Lemma get_range_run off data :
  holds im off data → off + Z.of_nat (length data) ≤ Z.of_nat (length im) →
  get_range off (off + Z.of_nat (length data)) im = (Ok data, im).
Proof.
  intros [Ho Hd] Hend. unfold get_range, mbind, comp_bind, get.
  rewrite bool_decide_eq_true_2 by lia. unfold mret, comp_ret.
  replace (Z.to_nat (off + Z.of_nat (length data) - off)) with (length data) by lia.
  by rewrite Hd.
Qed.

Lemma inode_data_run lo hi ty data i :
  in_image lo hi ty (length data) i → hi ≤ Z.of_nat (length im) → holds im (offset_ i) data →
  inode_data i im = (Ok data, im).
Proof using Himage.
  intros [_ Hl _ Hhi] Hend Hh. pose proof (im_size _ _ _ _ _ Himage).
  unfold inode_data, checked_add_usize, mbind, comp_bind. rewrite Hl.
  rewrite bool_decide_eq_true_2 by sizes. by apply get_range_run; [|lia].
Qed.

Lemma collect_run {A} (f : Z → comp bytes A) (l : list A) idx :
  (∀ j x, l !! j = Some x → f (idx + Z.of_nat j) im = (Ok x, im)) →
  collect f (length l) idx im = (Ok l, im).
Proof.
  revert idx. induction l as [|x l IH]; intros idx Hf; [done|]. cbn [collect length].
  unfold mbind, comp_bind. pose proof (Hf 0%nat x eq_refl) as H0. rewrite Z.add_0_r in H0.
  rewrite H0, IH; [done|]. intros j y Hj. rewrite <- (Hf (S j) y Hj). f_equal. lia.
Qed.

Lemma entries_rep_list P lo hi table i dir :
  entries_rep im T P lo hi table i dir →
  ∃ des, length des = length dir ∧ ∀ j e de, dir !! j = Some e → des !! j = Some de →
    ∃ hd, entry_rep im T (λ _, P (entry_kind e)) lo hi table (i + j) e de hd.
Proof.
  revert i. induction dir as [|[name kind] dir IH]; intros i; cbn.
  - intros _. by exists [].
  - intros [(de & hd & He) (des & Hlen & Hdes)%IH]. exists (de :: des). split; [cbn; by rewrite Hlen|].
    intros [|j] e de' ? ?; simplify_eq/=.
    + rewrite Nat.add_0_r. eauto.
    + replace (i + S j)%nat with (S i + j)%nat by lia. eauto.
Qed.

(** The entries of a directory's table *)
Lemma dir_entries_run P lo hi dir i des :
  in_image lo hi TyDir (8 * length dir) i → 0 ≤ lo → hi ≤ Z.of_nat (length im) → 0 ≤ offset_ i →
  length des = length dir →
  (∀ j e de, dir !! j = Some e → des !! j = Some de →
     ∃ hd, entry_rep im T (λ _, P (entry_kind e)) lo hi (offset_ i) j e de hd) →
  dir_entries slice_from_bytes i im = (Ok des, im).
Proof using Himage plain_slices.
  intros Hi Hlo Hend Ho Hlen Hdes. pose proof (im_size _ _ _ _ _ Himage).
  destruct (Hi) as [_ Hl _ Hhi].
  assert (holds im (offset_ i) (slice im (Z.to_nat (offset_ i)) (length des * 8))) as Hh.
  { split; [done|]. rewrite length_slice by lia. done. }
  unfold dir_entries, mbind, comp_bind.
  rewrite (inode_data_run lo hi TyDir (slice im (Z.to_nat (offset_ i)) (length des * 8))); try done.
  2: { rewrite length_slice by lia. by replace (length des * 8)%nat with (8 * length dir)%nat by lia. }
  unfold mret, comp_ret. do 2 f_equal.
  apply (slices_of_table _ dir_entry_bytes 8); [lia|lia|done|].
  intros j de Hde. destruct (lookup_lt_is_Some_2 dir j) as [e He].
  { apply lookup_lt_Some in Hde. lia. }
  destruct (Hdes j e de He Hde) as [hd []]. split_and!; [|done|done].
  apply dir_entry_roundtrip; [done|lia|sizes].
Qed.

Lemma get_inode_run id : get_inode slice_from_bytes id im = (Ok (T !! Z.to_nat id), im).
Proof using Himage plain_slices.
  unfold get_inode. by rewrite (bind_ok _ _ _ _ _ inode_table_run).
Qed.

Lemma entry_count_run i des :
  dir_entries slice_from_bytes i im = (Ok des, im) → Z.of_nat (length des) ≤ u32_max →
  entry_count slice_from_bytes i im = (Ok (Z.of_nat (length des)), im).
Proof.
  intros Hrun Hlen. unfold entry_count. rewrite (bind_ok _ _ _ _ _ Hrun).
  unfold wrap_u32. by rewrite Z.mod_small by sizes.
Qed.

Lemma dir_entry_name_run de name :
  holds im (name_offset de) name → name_len de = Z.of_nat (length name) →
  name_offset de + name_len de ≤ Z.of_nat (length im) →
  dir_entry_name de im = (Ok name, im).
Proof using Himage.
  intros Hh Hl Hend. pose proof (im_size _ _ _ _ _ Himage).
  unfold dir_entry_name, checked_add_usize. rewrite bool_decide_eq_true_2 by sizes.
  rewrite Hl. by apply get_range_run; [|lia].
Qed.

Lemma depth_child dir j e :
  dir !! j = Some e →
  (depth (entry_kind e) ≤ foldr (λ e acc, Nat.max (depth (entry_kind e)) acc) 0%nat dir)%nat.
Proof.
  revert j. induction dir as [|e' dir IH]; intros [|j] Hj; simplify_eq/=; [lia|].
  specialize (IH j Hj). lia.
Qed.

Lemma read_kind_run k :
  ∀ fuel id lo hi i, (depth k ≤ fuel)%nat → 0 ≤ lo → hi ≤ Z.of_nat (length im) →
    rep im T lo hi k i → T !! Z.to_nat id = Some i →
    read_kind slice_from_bytes fuel id im = (Ok k, im).
Proof using Himage plain_slices.
  pose proof (im_size _ _ _ _ _ Himage).
  induction k as [file x|path|dir IH] using kind_ind; intros [|fuel] id lo hi i Hf Hlo Hend Hr Hi;
    try (cbn in Hf; lia); cbn [read_kind]; rewrite (bind_ok _ _ _ _ _ (get_inode_run id)), Hi;
    erewrite bind_ok by done.
  - destruct Hr as [Him Hh]. unfold inode_kind, inode_mode. rewrite (ii_type _ _ _ _ _ Him).
    destruct x; cbn [type_of_code type_code Z.eqb Pos.eqb];
      by rewrite (bind_ok _ _ _ _ _ (inode_data_run lo hi _ file i Him Hend Hh)).
  - destruct Hr as [Him Hh]. unfold inode_kind. rewrite (ii_type _ _ _ _ _ Him).
    cbn [type_of_code type_code Z.eqb Pos.eqb].
    by rewrite (bind_ok _ _ _ _ _ (inode_data_run lo hi _ path i Him Hend Hh)).
  - destruct Hr as (Him & Ho & (des & Hlen & Hdes)%entries_rep_list). cbn [Nat.add] in Hdes.
    pose proof (dir_entries_run _ lo hi dir i des Him Hlo Hend Ho Hlen Hdes) as Hrun.
    destruct (Him) as [Hty _ _ Hhi]. unfold inode_kind. rewrite Hty.
    cbn [type_of_code type_code Z.eqb Pos.eqb].
    rewrite (bind_ok _ _ _ _ _ (entry_count_run i des Hrun ltac:(sizes))), Nat2Z.id, Hlen.
    erewrite bind_ok; [done|]. apply collect_run. intros j [name kind] Hj. rewrite Z.add_0_l.
    destruct (lookup_lt_is_Some_2 des j) as [de Hde]; [apply lookup_lt_Some in Hj; lia|].
    destruct (Hdes j _ de Hj Hde) as [hd [? ? Hhd Hnl ? ? ? Hname Hk]]. cbn in Hnl, Hname, Hk.
    erewrite bind_ok by (unfold get_entry; rewrite (bind_ok _ _ _ _ _ Hrun), Nat2Z.id; reflexivity).
    rewrite Hde. erewrite bind_ok by done.
    rewrite (bind_ok _ _ _ _ _ (dir_entry_name_run de name Hname Hnl ltac:(lia))).
    rewrite Forall_lookup in IH. erewrite bind_ok; [done|].
    apply (IH j _ Hj fuel (de_inode de) lo hi hd); try done.
    pose proof (depth_child dir j _ Hj). cbn in *. lia.
Qed.
End Image.
End ReaderSpec.

(** The hypotheses of the builder's theorems: reads return all that is asked for, the
    bootstrap is an ELF file, and the tree and the image are within the limits. *)
Lemma build_initfs_ok (read_count : bytes → nat → nat → nat) (max : Z) (boot : bytes)
    (root : list Entry) (entry : Z) :
  (∀ file pos n, read_count file pos n = Nat.min n (length file - pos)) →
  (elf_entry boot tt).1 = Ok entry →
  fits (KDir root) = true → Z.of_nat (entries (KDir root) + 1) ≤ u16_max →
  image_demand boot root ≤ max ≤ DEFAULT_MAX_SIZE →
  ∃ im T h, build_initfs read_count max boot root = Ok im ∧ image_ok im boot root T h.
Proof.
  intros Hfull Helf Hfits Hcount [Hdemand Hmax].
  set (s0 := mk_state [] 0 max (replicate (Z.to_nat 8192) 0) []).
  assert (0 ≤ max) as Hpos.
  { unfold image_demand in Hdemand. pose proof (demand_nonneg (KDir root)).
    destruct (pages_spec (length boot)). destruct (pages_spec (12 * (entries (KDir root) + 1))). lia. }
  assert (state_ok s0) as Hs0.
  { split; cbn; [lia|done|done|apply length_replicate|lia|constructor]. }
  pose proof (build_spec read_count Hfull boot root s0 entry Hs0 eq_refl eq_refl Hfits Hcount
    Hdemand Helf) as Hbuild.
  unfold wp in Hbuild. unfold build_initfs. fold s0.
  destruct (build read_count boot root s0) as [r s']. cbn in Hbuild.
  destruct Hbuild as (-> & h & Himage). by exists (img s'), (inodes s'), h.
Qed.


Section Example.
(** Readings of the parameters *)
Definition demo_read_count (file : bytes) (pos n : nat) : nat := Nat.min n (length file - pos).
Definition demo_slices (n : nat) (b : bytes) : list bytes :=
  (λ i : nat, slice b (i * n) n) <$> seq 0 (length b / n).

Lemma demo_slices_spec n b i :
  (0 < n)%nat → demo_slices n b !! i =
    if bool_decide ((i + 1) * n ≤ length b)%nat then Some (slice b (i * n) n) else None.
Proof.
  intros Hn. unfold demo_slices. rewrite list_lookup_fmap.
  pose proof (Nat.div_mod_eq (length b) n). pose proof (Nat.mod_upper_bound (length b) n).
  case_bool_decide.
  - rewrite lookup_seq_lt; [done|]. nia.
  - rewrite lookup_seq_ge; [done|]. nia.
Qed.

Definition demo_boot : bytes := [0x7F; 0x45; 0x4C; 0x46; 2; 1] ++ replicate 26 0.
Definition demo_root : list Entry :=
  [mk_entry (str_bytes "init") (KFile [1; 2; 3] true);
   mk_entry (str_bytes "etc") (KDir [mk_entry (str_bytes "rc") (KFile [] false);
                                     mk_entry (str_bytes "link") (KLink (str_bytes "rc"))])].

End Example.
