(* ===== verification/InitfsScheme.v ===== *)
(** * bootstrap: the initfs scheme

    Models [bootstrap/src/initfs.rs]: the read-only scheme the bootstrap process serves
    from the boot image, on top of the reader of [Initfs].  A handle is the scheme root
    or a node, which is an inode number and the path it was opened with.

    The image is the list of its bytes, mapped at [base].  The iterator over a directory
    counts its position in a [u32]; it runs past the last entry once, so one turn per
    entry and one more are enough.  Where the entries of a directory cannot be read the
    iterator yields an error on every turn: the loops that stop at an error stop at once,
    and the one that does not ends when the count overflows, with the same panic that
    ends the loop of the model. *)

From S2P Require Import Prelude Abi Initfs.

(** [redox_initfs]'s [map_err(|_| Error::new(EIO))] *)
Definition map_eio {S A} (m : comp S A) : comp S A := λ s,
  match m s with
  | (Err _, s') => (Err EIO, s')
  | r => r
  end.

Record Node := mk_node { inode : Z; filename : string }.

Inductive Handle := HNode (node : Node) | SchemeRoot.

Record InitFsScheme := mk_scheme {
  handles : gmap Z Handle;
  next_id : Z;
  base : Z;
  fs : bytes;
}.

Definition set_handles f (s : InitFsScheme) := mk_scheme (f (handles s)) (next_id s) (base s) (fs s).
Definition set_next_id n (s : InitFsScheme) := mk_scheme (handles s) n (base s) (fs s).

(** The methods of [InitFs] read the image and leave it as it is. *)
Definition on_fs {A} (m : comp bytes A) : comp InitFsScheme A := λ s, ((m (fs s)).1, s).

Record Stat := mk_stat {
  st_ino : Z; st_mode : Z; st_uid : Z; st_gid : Z; st_size : Z;
  st_ctime : Z; st_ctime_nsec : Z; st_mtime : Z; st_mtime_nsec : Z;
}.

(** [Handle::as_node], [as_node_mut] *)
Definition as_node {S} (h : Handle) : comp S Node :=
  match h with HNode n => mret n | SchemeRoot => fail EBADF end.

(** The components of a path: [trim_matches('/').split('/').filter(|c| !c.is_empty())] *)
Definition path_components (path : string) : list bytes :=
  (λ l, str_bytes (String.string_of_list_ascii l)) <$>
    filter (λ l, l ≠ []) (split_slash (trim_slashes path)).

Section Scheme.
Context {abi : SyscallAbi}.
Context (slice_from_bytes : nat → bytes → list bytes).

(** [InitFsScheme::new] *)
Definition initfs_scheme_new (addr : Z) (image : bytes) : outcome InitFsScheme :=
  if bool_decide (PAGE_SIZE ≤ u16_max) then
    match (initfs_new (Some PAGE_SIZE) image).1 with
    | Ok _ => Ok (mk_scheme ∅ 0 addr image)
    | _ => Panic
    end
  else Panic.

(** [InitFsScheme::get_inode] *)
Definition fs_inode (ino : Z) : comp bytes InodeHeader :=
  o ← get_inode slice_from_bytes ino;
  ok_or EIO o.

(** [InitFsScheme::next_id] *)
Definition take_next_id : comp InitFsScheme Z :=
  s ← get;
  if bool_decide (next_id s = usize_max) then panic else
  put (set_next_id (next_id s + 1) s);;
  mret (next_id s + 1).

(** [Iter::next]: the item, and the iterator's position after it *)
Definition iter_next (dir : InodeHeader) (idx : Z) : comp bytes (option (errno + DirEntry) * Z) :=
  entry ← result (map_eio (get_entry slice_from_bytes dir idx));
  idx ← add_u32 idx 1;
  mret (match entry with
        | inl e => Some (inl e)
        | inr None => None
        | inr (Some e) => Some (inr e)
        end, idx).

(** The turns a loop over a directory is given *)
Definition iter_turns (dir : InodeHeader) : comp bytes nat := λ s,
  match (dir_entries slice_from_bytes dir s).1 with
  | Ok l => (Ok (S (length l)), s)
  | _ => (Ok 1%nat, s)
  end.

(** The [fold] of [inode_len] *)
Fixpoint names_len (turns : nat) (dir : InodeHeader) (idx len : Z) : comp bytes Z :=
  match turns with
  | O => panic
  | S turns =>
     '(item, idx) ← iter_next dir idx;
     match item with
     | None => mret len
     | Some (inl _) => names_len turns dir idx len
     | Some (inr entry) =>
        name ← result (dir_entry_name entry);
        len ← add_usize len (match name with inl _ => 0 | inr name => Z.of_nat (length name) + 1 end);
        names_len turns dir idx len
     end
  end.

Definition inode_len (i : InodeHeader) : comp bytes Z :=
  match inode_kind i with
  | IsFile | IsLink => data ← map_eio (inode_data i); mret (Z.of_nat (length data))
  | IsDir => turns ← iter_turns i; names_len turns i 0 0
  | Unknown => fail EIO
  end.

(** The inner loop of [openat]: the inode of the entry with that name *)
Fixpoint find_entry (turns : nat) (dir : InodeHeader) (idx : Z) (component : bytes) : comp bytes Z :=
  match turns with
  | O => panic
  | S turns =>
     '(item, idx) ← iter_next dir idx;
     match item with
     | None => fail ENOENT
     | Some (inl e) => fail e
     | Some (inr entry) =>
        name ← map_eio (dir_entry_name entry);
        if bool_decide (name = component) then mret (de_inode entry)
        else find_entry turns dir idx component
     end
  end.

(** The outer loop of [openat]; every turn takes at least one of the components. *)
Fixpoint walk (turns : nat) (components : list bytes) (current_inode : Z) : comp bytes Z :=
  match components with
  | [] => mret current_inode
  | component :: components =>
     match turns with
     | O => panic
     | S turns =>
        if bool_decide (component = str_bytes ".") then walk turns components current_inode
        else if bool_decide (component = str_bytes "..") then
          walk turns (take (length components - 1) components) current_inode
        else
          i ← fs_inode current_inode;
          match inode_kind i with
          | IsDir =>
             n ← iter_turns i;
             ino ← find_entry n i 0 component;
             walk turns components ino
          | IsLink => fail EOPNOTSUPP
          | IsFile | Unknown => fail ENOENT
          end
     end
  end.

Definition openat (dirfd : Z) (path : string) (flags : Z) : comp InitFsScheme Z :=
  s ← get;
  h ← ok_or EBADF (handles s !! dirfd);
  match h with
  | HNode _ => fail EACCES
  | SchemeRoot =>
     h ← on_fs get_header;
     let components := path_components path in
     current_inode ← on_fs (walk (length components) components (root_inode h));
     i ← on_fs (fs_inode current_inode);
     let is_link := match inode_kind i with IsLink => true | _ => false end in
     let o_stat_nofollow :=
       negb (bool_decide (Z.land flags O_STAT = 0)) && negb (bool_decide (Z.land flags O_NOFOLLOW = 0)) in
     let o_symlink := negb (bool_decide (Z.land flags O_SYMLINK = 0)) in
     if is_link && negb o_stat_nofollow && negb o_symlink then fail EXDEV else
     id ← take_next_id;
     s ← get;
     put (set_handles <[id := HNode (mk_node current_inode path)]> s);;
     if bool_decide (is_Some (handles s !! id)) then panic else
     mret id
  end.

Definition node_of (id : Z) : comp InitFsScheme Node :=
  s ← get;
  h ← ok_or EBADF (handles s !! id);
  as_node h.

(** [&data[min(offset, data.len())..]] copied to the front of the buffer *)
Definition copy_from (data buffer : bytes) (offset : Z) : Z * bytes :=
  let src_buf := drop (Z.to_nat (Z.min offset (Z.of_nat (length data)))) data in
  let to_copy := Nat.min (length src_buf) (length buffer) in
  (Z.of_nat to_copy, copy_at buffer 0 (take to_copy src_buf)).

(** [read]: the count and the buffer; a [u64] offset fits [usize] *)
Definition read (id : Z) (buffer : bytes) (offset : Z) : comp InitFsScheme (Z * bytes) :=
  handle ← node_of id;
  i ← on_fs (fs_inode (inode handle));
  match inode_kind i with
  | IsFile | IsLink =>
     data ← on_fs (map_eio (inode_data i));
     mret (copy_from data buffer offset)
  | IsDir => fail EISDIR
  | Unknown => fail EIO
  end.

(** The loop of [getdents]; [entry] is [DirentBuf::entry], given inode, name and next
    opaque id. *)
Fixpoint list_dir {B} (entry : B → Z → string → Z → errno + B) (turns : nat) (dir : InodeHeader)
    (idx index : Z) (buf : B) : comp bytes B :=
  match turns with
  | O => panic
  | S turns =>
     '(item, idx) ← iter_next dir idx;
     match item with
     | None => mret buf
     | Some (inl e) => fail e
     | Some (inr e) =>
        name ← result (dir_entry_name e);
        name ← ok_or EIO (match name with inl _ => None | inr name => from_utf8 name end);
        match entry buf 0 name (index + 1) with
        | inl e => fail e
        | inr buf => list_dir entry turns dir idx (index + 1) buf
        end
     end
  end.

Definition getdents {B} (entry : B → Z → string → Z → errno + B) (id : Z) (buf : B)
    (opaque_offset : Z) : comp InitFsScheme B :=
  if bool_decide (u32_max < opaque_offset) then mret buf else
  handle ← node_of id;
  i ← on_fs (fs_inode (inode handle));
  match inode_kind i with
  | IsDir => on_fs (turns ← iter_turns i; list_dir entry turns i opaque_offset 0 buf)
  | _ => fail ENOTDIR
  end.

Definition fsize (id : Z) : comp InitFsScheme Z :=
  handle ← node_of id;
  i ← on_fs (fs_inode (inode handle));
  on_fs (inode_len i).

Definition fcntl (id : Z) : comp InitFsScheme Z :=
  node_of id;;
  mret 0.

Definition fpath (id : Z) (buf : bytes) : comp InitFsScheme (Z * bytes) :=
  handle ← node_of id;
  let scheme_path := str_bytes "/scheme/initfs" in
  let scheme_bytes := Nat.min (length scheme_path) (length buf) in
  let buf := copy_at buf 0 (take scheme_bytes scheme_path) in
  let source := str_bytes (filename handle) in
  let path_bytes := Nat.min (length buf - scheme_bytes) (length source) in
  let buf := copy_at buf scheme_bytes (take path_bytes source) in
  mret (Z.of_nat (scheme_bytes + path_bytes), buf).

Definition fstat (id : Z) : comp InitFsScheme Stat :=
  handle ← node_of id;
  i ← on_fs (fs_inode (inode handle));
  let mode := Z.lor (inode_mode i)
    (match inode_kind i with
     | IsDir => MODE_DIR | IsFile => MODE_FILE | IsLink => MODE_SYMLINK | Unknown => 0
     end) in
  size ← on_fs (inode_len i);
  mret (mk_stat (inode handle) mode 0 0 size 0 0 0 0).

Definition fsync (id : Z) : comp InitFsScheme unit :=
  s ← get;
  if bool_decide (is_Some (handles s !! id)) then mret tt else fail EBADF.

(** [mmap_prep]: the address of the mapping *)
Definition mmap_prep (id offset size flags : Z) : comp InitFsScheme Z :=
  node ← node_of id;
  i ← on_fs (fs_inode (inode node));
  data ← match inode_kind i with
         | IsFile => on_fs (map_eio (inode_data i))
         | IsDir => fail EISDIR
         | IsLink => fail ELOOP
         | Unknown => fail EIO
         end;
  if has_flag flags PROT_WRITE then fail EPERM else
  last_addr ← ok_or EINVAL (checked_add_usize offset size);
  limit ← next_multiple_of (Z.of_nat (length data)) PAGE_SIZE;
  if bool_decide (limit < last_addr) then fail EINVAL else
  s ← get;
  mret (base s + offset_ i).

(** [RequestKind::OnClose] in [run] *)
Definition on_close (id : Z) : comp InitFsScheme unit :=
  modify (set_handles (delete id)).

(** The requests [run] serves: calls, with the buffers they come with, and closes *)
Section Run.
Context {B : Type} (entry : B → Z → string → Z → errno + B).

Inductive Request :=
  | Openat (dirfd : Z) (path : string) (flags : Z)
  | Read (id : Z) (buffer : bytes) (offset : Z)
  | Getdents (id : Z) (buf : B) (opaque_offset : Z)
  | Fsize (id : Z)
  | Fcntl (id : Z)
  | Fpath (id : Z) (buf : bytes)
  | Fstat (id : Z)
  | Fsync (id : Z)
  | MmapPrep (id offset size flags : Z)
  | OnClose (id : Z).

Inductive Answer :=
  | AnsOpen (id : Z)
  | AnsRead (n : Z) (buffer : bytes)
  | AnsDents (buf : B)
  | AnsSize (n : Z)
  | AnsFcntl (n : Z)
  | AnsPath (n : Z) (buf : bytes)
  | AnsStat (st : Stat)
  | AnsSync
  | AnsMap (addr : Z)
  | AnsClosed.

Definition handle_request (r : Request) : comp InitFsScheme Answer :=
  match r with
  | Openat dirfd path flags => id ← openat dirfd path flags; mret (AnsOpen id)
  | Read id buffer offset => '(n, buffer) ← read id buffer offset; mret (AnsRead n buffer)
  | Getdents id buf off => buf ← getdents entry id buf off; mret (AnsDents buf)
  | Fsize id => n ← fsize id; mret (AnsSize n)
  | Fcntl id => n ← fcntl id; mret (AnsFcntl n)
  | Fpath id buf => '(n, buf) ← fpath id buf; mret (AnsPath n buf)
  | Fstat id => st ← fstat id; mret (AnsStat st)
  | Fsync id => fsync id;; mret AnsSync
  | MmapPrep id offset size flags => addr ← mmap_prep id offset size flags; mret (AnsMap addr)
  | OnClose id => on_close id;; mret AnsClosed
  end.

(** The loop of [run]: the answers to the requests, in order *)
Fixpoint serve (rs : list Request) : comp InitFsScheme (list (errno + Answer)) :=
  match rs with
  | [] => mret []
  | r :: rs =>
     a ← result (handle_request r);
     l ← serve rs;
     mret (a :: l)
  end.

(** [run] up to its loop: the scheme root is the first handle. *)
Definition start : comp InitFsScheme Z :=
  new_id ← take_next_id;
  modify (set_handles <[new_id := SchemeRoot]>);;
  mret new_id.

Definition run (addr : Z) (image : bytes) (rs : list Request) : outcome (Z * list (errno + Answer)) :=
  match initfs_scheme_new addr image with
  | Ok s => ((root ← start; l ← serve rs; mret (root, l)) s).1
  | Err e => Err e
  | Panic => Panic
  end.
End Run.
End Scheme.
Arguments Request _ : clear implicits.
Arguments Answer _ : clear implicits.
Arguments Openat {B} _ _ _.
Arguments Read {B} _ _ _.
Arguments Getdents {B} _ _ _.
Arguments Fsize {B} _.
Arguments Fcntl {B} _.
Arguments Fpath {B} _ _.
Arguments Fstat {B} _.
Arguments Fsync {B} _.
Arguments MmapPrep {B} _ _ _ _.
Arguments OnClose {B} _.
Arguments AnsOpen {B} _.
Arguments AnsRead {B} _ _.
Arguments AnsDents {B} _.
Arguments AnsSize {B} _.
Arguments AnsFcntl {B} _.
Arguments AnsPath {B} _ _.
Arguments AnsStat {B} _.
Arguments AnsSync {B}.
Arguments AnsMap {B} _.
Arguments AnsClosed {B}.

(** ** A file system that serves a tree

    What the scheme promises, said of the tree that was archived and not of the image:
    a handle is a part of the tree. *)

Module Tree.

Inductive Obj := ORoot | ONode (kind : EntryKind) (filename : string).

Record State := mk_tree_state { objs : gmap Z Obj; last_id : Z }.

Fixpoint find_child (name : bytes) (dir : list Entry) : option EntryKind :=
  match dir with
  | [] => None
  | e :: dir => if bool_decide (entry_name e = name) then Some (entry_kind e) else find_child name dir
  end.

Fixpoint lookup_path (k : EntryKind) (components : list bytes) : errno + EntryKind :=
  match components with
  | [] => inr k
  | c :: cs =>
     if bool_decide (c = str_bytes ".") then lookup_path k cs else
     match k with
     | KDir dir =>
        match find_child c dir with
        | Some k => lookup_path k cs
        | None => inl ENOENT
        end
     | KLink _ => inl EOPNOTSUPP
     | KFile _ _ => inl ENOENT
     end
  end.

Definition size_of (k : EntryKind) : Z :=
  match k with
  | KFile data _ | KLink data => Z.of_nat (length data)
  | KDir dir => foldr (λ e n, Z.of_nat (length (entry_name e)) + 1 + n) 0 dir
  end.

Fixpoint list_names {B} (entry : B → Z → string → Z → errno + B) (dir : list Entry) (index : Z)
    (buf : B) : errno + B :=
  match dir with
  | [] => inr buf
  | e :: dir =>
     match from_utf8 (entry_name e) with
     | None => inl EIO
     | Some name =>
        match entry buf 0 name (index + 1) with
        | inl e => inl e
        | inr buf => list_names entry dir (index + 1) buf
        end
     end
  end.

Section Calls.
Context {abi : SyscallAbi} {B : Type} (entry : B → Z → string → Z → errno + B).
Context (root : list Entry).

(** Whether a link may be opened: as a link, or to ask for its status *)
Definition link_flags (flags : Z) : bool :=
  (negb (bool_decide (Z.land flags O_STAT = 0)) && negb (bool_decide (Z.land flags O_NOFOLLOW = 0))) ||
  negb (bool_decide (Z.land flags O_SYMLINK = 0)).

Definition mode_of (k : EntryKind) : Z :=
  match k with
  | KFile _ x => Z.lor (if x then 365 else 292) MODE_FILE
  | KDir _ => Z.lor 365 MODE_DIR
  | KLink _ => Z.lor 511 MODE_SYMLINK
  end.

Definition open (path : string) (flags : Z) (s : State) : (errno + Answer B) * State :=
  match lookup_path (KDir root) (path_components path) with
  | inl e => (inl e, s)
  | inr k =>
     if (match k with KLink _ => true | _ => false end) && negb (link_flags flags) then (inl EXDEV, s)
     else
       let id := last_id s + 1 in
       (inr (AnsOpen id), mk_tree_state (<[id := ONode k path]> (objs s)) id)
  end.

(** The answer to a call on a node.  The inode number in a status and the address of a
    mapping are left out. *)
Definition on_node (r : Request B) (k : EntryKind) (path : string) : errno + Answer B :=
  match r with
  | Read _ buffer off =>
     match k with
     | KFile data _ | KLink data => let '(n, b) := copy_from data buffer off in inr (AnsRead n b)
     | KDir _ => inl EISDIR
     end
  | Getdents _ buf off =>
     match k with
     | KDir dir => match list_names entry (drop (Z.to_nat off) dir) 0 buf with
                   | inl e => inl e
                   | inr buf => inr (AnsDents buf)
                   end
     | _ => inl ENOTDIR
     end
  | Fsize _ => inr (AnsSize (size_of k))
  | Fcntl _ => inr (AnsFcntl 0)
  | Fpath _ buf =>
     let full := str_bytes "/scheme/initfs" ++ str_bytes path in
     let n := Nat.min (length full) (length buf) in
     inr (AnsPath (Z.of_nat n) (copy_at buf 0 (take n full)))
  | Fstat _ => inr (AnsStat (mk_stat 0 (mode_of k) 0 0 (size_of k) 0 0 0 0))
  | MmapPrep _ off size flags =>
     match k with
     | KFile data _ =>
        if has_flag flags PROT_WRITE then inl EPERM
        else if bool_decide (off + size ≤ round_up (Z.of_nat (length data)) PAGE_SIZE)
        then inr (AnsMap 0) else inl EINVAL
     | KDir _ => inl EISDIR
     | KLink _ => inl ELOOP
     end
  | _ => inr AnsSync
  end.

Definition request_id (r : Request B) : Z :=
  match r with
  | Openat id _ _ | Read id _ _ | Getdents id _ _ | Fsize id | Fcntl id | Fpath id _ | Fstat id
  | Fsync id | MmapPrep id _ _ _ | OnClose id => id
  end.

Definition handle_request (r : Request B) (s : State) : (errno + Answer B) * State :=
  match r, objs s !! request_id r with
  | OnClose id, _ => (inr AnsClosed, mk_tree_state (delete id (objs s)) (last_id s))
  | Getdents _ buf off, o =>
     if bool_decide (u32_max < off) then (inr (AnsDents buf), s) else
     match o with
     | Some (ONode k path) => (on_node r k path, s)
     | _ => (inl EBADF, s)
     end
  | _, None => (inl EBADF, s)
  | Openat _ path flags, Some ORoot => open path flags s
  | Openat _ _ _, Some (ONode _ _) => (inl EACCES, s)
  | Fsync _, Some _ => (inr AnsSync, s)
  | _, Some (ONode k path) => (on_node r k path, s)
  | _, Some ORoot => (inl EBADF, s)
  end.

Fixpoint serve (rs : list (Request B)) (s : State) : list (errno + Answer B) :=
  match rs with
  | [] => []
  | r :: rs => let '(a, s) := handle_request r s in a :: serve rs s
  end.

Definition start : State := mk_tree_state {[ 1 := ORoot ]} 1.
End Calls.
End Tree.

(** The answer without inode numbers and addresses *)
Definition forget {B} (a : Answer B) : Answer B :=
  match a with
  | AnsStat st => AnsStat (mk_stat 0 (st_mode st) (st_uid st) (st_gid st) (st_size st)
                    (st_ctime st) (st_ctime_nsec st) (st_mtime st) (st_mtime_nsec st))
  | AnsMap _ => AnsMap 0
  | a => a
  end.

(** Requests with machine integers, paths without a parent component, and listings that
    do not start at the last position a [u32] has *)
Definition request_ok {B} (r : Request B) : bool :=
  match r with
  | Openat _ path _ => forallb (λ c, negb (bool_decide (c = str_bytes ".."))) (path_components path)
  | Read _ _ off => bool_decide (0 ≤ off)
  | Getdents _ _ off => bool_decide (0 ≤ off ∧ off ≠ u32_max)
  | MmapPrep _ off size _ => bool_decide (0 ≤ off ≤ u64_max ∧ 0 ≤ size ≤ usize_max)
  | _ => true
  end.
