(* ===== verification/InitfsSchemeSpec.v ===== *)
(** * bootstrap: the initfs scheme serves the archived tree

    The scheme of [InitfsScheme] over an image the builder wrote answers as the file
    system [Tree] does over the tree that was archived.  The relation between the two
    sends a node's inode number to the part of the tree that the image holds for it.

    Also here: what the scheme does with a parent component, with a listing that is
    continued, with the last position a listing can have, and with a mapping that does
    not start at the beginning of a file. *)

From S2P Require Import Prelude Abi Initfs InitfsScheme.

Lemma bind_err {S A B} (m : comp S A) (f : A → comp S B) s e s' :
  m s = (Err e, s') → (m ≫= f) s = (Err e, s').
Proof. unfold mbind, comp_bind. by intros ->. Qed.

Lemma on_fs_run {A} (m : comp bytes A) s r b : m (fs s) = (r, b) → on_fs m s = (r, s).
Proof. unfold on_fs. by intros ->. Qed.

Lemma map_eio_ok {S A} (m : comp S A) s a s' : m s = (Ok a, s') → map_eio m s = (Ok a, s').
Proof. unfold map_eio. by intros ->. Qed.

Lemma result_ok {S A} (m : comp S A) s a s' : m s = (Ok a, s') → result m s = (Ok (inr a), s').
Proof. unfold result. by intros ->. Qed.

Lemma next_multiple_of_run {S} x p (s : S) :
  0 < p → round_up x p ≤ usize_max → next_multiple_of x p s = (Ok (round_up x p), s).
Proof.
  intros Hp Hr. pose proof (wp_next_multiple_of x p (λ r s', r = Ok (round_up x p) ∧ s' = s) s Hp Hr) as Hw.
  unfold wp in Hw. destruct (next_multiple_of x p s). by destruct Hw as [[= ->] [= ->]].
Qed.

(** Two copies one after the other, each as much as fits *)
Lemma copy_two (buf a1 a2 : bytes) :
  let n := Nat.min (length a1) (length buf) in
  copy_at (copy_at buf 0 (take n a1)) n (take (Nat.min (length buf - n) (length a2)) a2) =
  copy_at buf 0 (take (Nat.min (length (a1 ++ a2)) (length buf)) (a1 ++ a2)).
Proof.
  intros n. rewrite take_app, length_app.
  pose proof (copy_at_app buf 0 (take n a1) (take (Nat.min (length buf - n) (length a2)) a2)) as Hc.
  rewrite length_take, Nat.add_0_l in Hc. replace (Nat.min n (length a1)) with n in Hc by lia.
  rewrite Hc by len_lia. f_equal. f_equal.
  - destruct (Nat.le_ge_cases (length a1) (length buf)); [by rewrite !take_ge by lia|f_equal; lia].
  - f_equal. lia.
Qed.

Lemma names_len_bound dir n :
  Forall (λ e, Z.of_nat (length (entry_name e)) ≤ u16_max) dir → Z.of_nat (length dir) ≤ n →
  0 ≤ Tree.size_of (KDir dir) ≤ n * 65536.
Proof.
  intros Hf. revert n. induction Hf as [|e dir He _ IH]; intros n Hn; cbn in *; [lia|].
  specialize (IH (n - 1)). unfold u16_max in *. lia.
Qed.

Definition kind_tag (k : EntryKind) : InodeKind :=
  match k with KFile _ _ => IsFile | KDir _ => IsDir | KLink _ => IsLink end.

Section Image.
Context {abi : SyscallAbi} {laws : SyscallAbiLaws abi}.
Context (slice_from_bytes : nat → bytes → list bytes).
Hypothesis plain_slices : ∀ n b i, (0 < n)%nat →
  slice_from_bytes n b !! i =
    if bool_decide ((i + 1) * n ≤ length b)%nat then Some (slice b (i * n) n) else None.
Context (im boot : bytes) (root : list Entry) (T : list InodeHeader) (h : Header).
Hypothesis Himage : image_ok im boot root T h.

(** The part of the tree that an inode stands for *)
Definition inode_is (i : InodeHeader) (k : EntryKind) : Prop :=
  rep im T 4096 (inode_table_offset h) k i.
Definition ino_is (ino : Z) (k : EntryKind) : Prop :=
  ∃ i, T !! Z.to_nat ino = Some i ∧ inode_is i k.

Lemma table_in_image : inode_table_offset h ≤ Z.of_nat (length im).
Proof using Himage. destruct (image_bounds _ _ _ _ _ Himage). lia. Qed.

Lemma fs_inode_run ino k :
  ino_is ino k → ∃ i, fs_inode slice_from_bytes ino im = (Ok i, im) ∧ inode_is i k.
Proof using Himage plain_slices.
  intros (i & Hi & Hk). exists i. split; [|done]. unfold fs_inode.
  rewrite (bind_ok _ _ _ _ _ (get_inode_run _ plain_slices _ _ _ _ _ Himage ino)). by rewrite Hi.
Qed.

Lemma inode_kind_run i k : inode_is i k → inode_kind i = kind_tag k.
Proof.
  unfold inode_is, inode_kind. destruct k as [f x|dir|p]; cbn; intros Hr;
    rewrite (ii_type _ _ _ _ _ (proj1 Hr)); [by destruct x|done|done].
Qed.

Lemma file_data_run i f x : inode_is i (KFile f x) → inode_data i im = (Ok f, im).
Proof using Himage.
  intros [Hi Hh]. eapply inode_data_run; [exact Himage|exact Hi|apply table_in_image|done].
Qed.

Lemma link_data_run i p : inode_is i (KLink p) → inode_data i im = (Ok p, im).
Proof using Himage.
  intros [Hi Hh]. eapply inode_data_run; [exact Himage|exact Hi|apply table_in_image|done].
Qed.

(** What the reader gets from a directory: an entry of the table for each of the tree's *)
Record dir_is (i : InodeHeader) (dir : list Entry) (des : list DirEntry) : Prop := {
  di_run : dir_entries slice_from_bytes i im = (Ok des, im);
  di_length : length des = length dir;
  di_bound : Z.of_nat (length dir) < u32_max;
  di_entry : ∀ j e, dir !! j = Some e → ∃ de, des !! j = Some de ∧
    dir_entry_name de im = (Ok (entry_name e), im) ∧ ino_is (de_inode de) (entry_kind e) ∧
    Z.of_nat (length (entry_name e)) ≤ u16_max;
}.

Lemma dir_run i dir : inode_is i (KDir dir) → ∃ des, dir_is i dir des.
Proof using Himage plain_slices.
  intros (Hi & Ho & (des & Hlen & Hdes)%entries_rep_list). cbn [Nat.add] in Hdes.
  pose proof table_in_image as Htab. pose proof (im_size _ _ _ _ _ Himage) as Hsz.
  exists des. split; [|done| |].
  - by eapply (dir_entries_run _ plain_slices _ _ _ _ _ Himage).
  - destruct Hi as [_ _ _ Hhi]. unfold DEFAULT_MAX_SIZE, u32_max in *. lia.
  - intros j e He. destruct (lookup_lt_is_Some_2 des j) as [de Hde]; [apply lookup_lt_Some in He; lia|].
    destruct (Hdes j e de He Hde) as [hd [? ? ? ? ? ? ? ? ?]]. exists de. split_and!; [done| | |lia].
    + eapply dir_entry_name_run; [exact Himage|done|done|lia].
    + by exists hd.
Qed.

Section Dir.
Context (i : InodeHeader) (dir : list Entry) (des : list DirEntry).
Hypothesis Hdir : dir_is i dir des.

Lemma iter_turns_run : iter_turns slice_from_bytes i im = (Ok (S (length dir)), im).
Proof using Hdir. unfold iter_turns. destruct Hdir as [-> <- _ _]. done. Qed.

Lemma iter_next_entry (j : nat) e :
  dir !! j = Some e → ∃ de, iter_next slice_from_bytes i (Z.of_nat j) im =
      (Ok (Some (inr de), Z.of_nat (S j)), im) ∧
    dir_entry_name de im = (Ok (entry_name e), im) ∧ ino_is (de_inode de) (entry_kind e).
Proof using Hdir.
  intros He. destruct Hdir as [Hrun Hlen Hb Hent]. destruct (Hent j e He) as (de & Hde & Hn & Hi & _).
  exists de. split; [|done]. unfold iter_next.
  erewrite bind_ok; [|apply result_ok, map_eio_ok; unfold get_entry;
    rewrite (bind_ok _ _ _ _ _ Hrun), Nat2Z.id; reflexivity].
  apply lookup_lt_Some in He. unfold add_u32. rewrite bool_decide_eq_true_2 by lia.
  rewrite bind_ret, Hde. cbn [mret]. unfold comp_ret. by replace (Z.of_nat j + 1) with (Z.of_nat (S j)) by lia.
Qed.

Lemma iter_next_end (j : Z) :
  Z.of_nat (length dir) ≤ j < u32_max →
  iter_next slice_from_bytes i j im = (Ok (None, j + 1), im).
Proof using Hdir.
  intros Hj. destruct Hdir as [Hrun Hlen Hb Hent]. unfold iter_next.
  erewrite bind_ok; [|apply result_ok, map_eio_ok; unfold get_entry;
    rewrite (bind_ok _ _ _ _ _ Hrun); reflexivity].
  unfold add_u32. rewrite bool_decide_eq_true_2 by lia. rewrite bind_ret.
  by rewrite lookup_ge_None_2 by lia.
Qed.

(** A loop over the entries from the [j]-th on: the next entry, or the end *)
Lemma dir_cases (j : nat) :
  (∃ e, dir !! j = Some e ∧ drop j dir = e :: drop (S j) dir) ∨
  ((length dir ≤ j)%nat ∧ drop j dir = []).
Proof.
  destruct (dir !! j) as [e|] eqn:He.
  - left. exists e. split; [done|]. by apply drop_S.
  - right. apply lookup_ge_None_1 in He. split; [done|]. by apply drop_ge.
Qed.

Lemma find_entry_run c turns j :
  (length dir - j < turns)%nat → Z.of_nat j < u32_max →
  match Tree.find_child c (drop j dir) with
  | None => find_entry slice_from_bytes turns i (Z.of_nat j) c im = (Err ENOENT, im)
  | Some k => ∃ ino, find_entry slice_from_bytes turns i (Z.of_nat j) c im = (Ok ino, im) ∧ ino_is ino k
  end.
Proof using Hdir.
  revert j. induction turns as [|turns IH]; intros j Hj Hu; destruct (dir_cases j) as [(e & He & ->)|[Hend ->]];
    cbn [find_entry Tree.find_child].
  - lia.
  - lia.
  - destruct (iter_next_entry j e He) as (de & Hn & Hname & Hino).
    rewrite (bind_ok _ _ _ _ _ Hn).
    rewrite (bind_ok _ _ _ _ _ (map_eio_ok _ _ _ _ Hname)).
    case_bool_decide; [by exists (de_inode de)|].
    apply lookup_lt_Some in He. pose proof (di_bound _ _ _ Hdir). apply IH; lia.
  - by rewrite (bind_ok _ _ _ _ _ (iter_next_end (Z.of_nat j) ltac:(lia))).
Qed.

Lemma names_len_run turns j len :
  (length dir - j < turns)%nat → Z.of_nat j < u32_max →
  0 ≤ len → len + Tree.size_of (KDir (drop j dir)) ≤ usize_max →
  names_len slice_from_bytes turns i (Z.of_nat j) len im =
    (Ok (len + Tree.size_of (KDir (drop j dir))), im).
Proof using Hdir.
  revert j len. induction turns as [|turns IH]; intros j len Hj Hu Hlen;
    destruct (dir_cases j) as [(e & He & Hd)|[Hend Hd]]; rewrite Hd; cbn [names_len]; intros Hmax.
  - lia.
  - lia.
  - destruct (iter_next_entry j e He) as (de & Hn & Hname & Hino).
    rewrite (bind_ok _ _ _ _ _ Hn), (bind_ok _ _ _ _ _ (result_ok _ _ _ _ Hname)).
    assert (0 ≤ Tree.size_of (KDir (drop (S j) dir))).
    { cbn. generalize (drop (S j) dir). intros l. induction l; cbn; lia. }
    cbn [Tree.size_of foldr] in Hmax. unfold add_usize, checked_add_usize.
    rewrite bool_decide_eq_true_2 by (cbn [Tree.size_of] in *; lia).
    erewrite (bind_ok (expect _)) by done.
    apply lookup_lt_Some in He. pose proof (di_bound _ _ _ Hdir).
    rewrite IH; cbn [Tree.size_of foldr] in *; [do 2 f_equal; lia|lia..].
  - rewrite (bind_ok _ _ _ _ _ (iter_next_end (Z.of_nat j) ltac:(lia))). cbn. by rewrite Z.add_0_r.
Qed.

Lemma list_dir_run {B} (entry : B → Z → string → Z → errno + B) turns j index buf :
  (length dir - j < turns)%nat → Z.of_nat j < u32_max →
  list_dir slice_from_bytes entry turns i (Z.of_nat j) index buf im =
    (match Tree.list_names entry (drop j dir) index buf with
     | inl e => Err e | inr buf => Ok buf end, im).
Proof using Hdir.
  revert j index buf. induction turns as [|turns IH]; intros j index buf Hj Hu;
    destruct (dir_cases j) as [(e & He & ->)|[Hend ->]]; cbn [list_dir Tree.list_names].
  - lia.
  - lia.
  - destruct (iter_next_entry j e He) as (de & Hn & Hname & Hino).
    rewrite (bind_ok _ _ _ _ _ Hn), (bind_ok _ _ _ _ _ (result_ok _ _ _ _ Hname)).
    destruct (from_utf8 (entry_name e)) as [name|]; [|done]. rewrite (bind_ok _ _ _ name im) by done.
    destruct (entry buf 0 name (index + 1)); [done|].
    apply lookup_lt_Some in He. pose proof (di_bound _ _ _ Hdir). apply IH; lia.
  - by rewrite (bind_ok _ _ _ _ _ (iter_next_end (Z.of_nat j) ltac:(lia))).
Qed.

Lemma dir_size_bound : 0 ≤ Tree.size_of (KDir dir) ≤ usize_max.
Proof using Hdir.
  assert (Forall (λ e, Z.of_nat (length (entry_name e)) ≤ u16_max) dir) as Hf.
  { apply Forall_lookup_2. intros j e He. by destruct (di_entry _ _ _ Hdir j e He) as (? & _ & _ & _ & ?). }
  pose proof (di_bound _ _ _ Hdir).
  destruct (names_len_bound dir u32_max Hf ltac:(lia)). unfold usize_max, u32_max in *. lia.
Qed.
End Dir.

Lemma inode_len_run i k :
  inode_is i k → inode_len slice_from_bytes i im = (Ok (Tree.size_of k), im).
Proof using Himage plain_slices.
  intros Hk. unfold inode_len. rewrite (inode_kind_run i k Hk). destruct k as [f x|dir|p]; cbn [kind_tag].
  - by rewrite (bind_ok _ _ _ _ _ (map_eio_ok _ _ _ _ (file_data_run i f x Hk))).
  - destruct (dir_run i dir Hk) as [des Hd].
    rewrite (bind_ok _ _ _ _ _ (iter_turns_run i dir des Hd)).
    pose proof (dir_size_bound i dir des Hd). change 0 with (Z.of_nat 0) at 1.
    rewrite (names_len_run i dir des Hd); [by rewrite drop_0|lia|done|done|].
    rewrite drop_0. lia.
  - by rewrite (bind_ok _ _ _ _ _ (map_eio_ok _ _ _ _ (link_data_run i p Hk))).
Qed.

Lemma walk_run cs turns ino k :
  (length cs ≤ turns)%nat → Forall (λ c, c ≠ str_bytes "..") cs → ino_is ino k →
  match Tree.lookup_path k cs with
  | inl e => walk slice_from_bytes turns cs ino im = (Err e, im)
  | inr k' => ∃ ino', walk slice_from_bytes turns cs ino im = (Ok ino', im) ∧ ino_is ino' k'
  end.
Proof using Himage plain_slices.
  intros Ht Hcs. revert turns ino k Ht.
  induction Hcs as [|c cs Hc _ IH]; intros turns ino k Ht Hk; [by destruct turns; exists ino|].
  destruct turns as [|turns]; [cbn in Ht; lia|]. cbn [walk Tree.lookup_path length] in *.
  case_bool_decide; [by apply IH; [lia|]|]. rewrite (bool_decide_eq_false_2 (c = str_bytes "..")) by done.
  destruct (fs_inode_run ino k Hk) as (i & Hi & Hik).
  rewrite (bind_ok _ _ _ _ _ Hi), (inode_kind_run i k Hik).
  destruct k as [f x|dir|p]; cbn [kind_tag]; [done| |done].
  destruct (dir_run i dir Hik) as [des Hd].
  rewrite (bind_ok _ _ _ _ _ (iter_turns_run i dir des Hd)).
  pose proof (find_entry_run i dir des Hd c (S (length dir)) 0 ltac:(lia) ltac:(done)) as Hf.
  rewrite drop_0 in Hf. destruct (Tree.find_child c dir) as [k'|].
  - destruct Hf as (ino' & Hf & Hk'). rewrite (bind_ok _ _ _ _ _ Hf). apply IH; [lia|done].
  - by rewrite (bind_err _ _ _ _ _ Hf).
Qed.
(** *** The relation between the scheme and the tree's file system *)

Definition obj_is (x : Handle) (o : Tree.Obj) : Prop :=
  match x, o with
  | SchemeRoot, Tree.ORoot => True
  | HNode n, Tree.ONode k path => filename n = path ∧ ino_is (inode n) k
  | _, _ => False
  end.

Record sim (s : InitFsScheme) (a : Tree.State) : Prop := {
  sim_fs : fs s = im;
  sim_next : next_id s = Tree.last_id a;
  sim_objs : ∀ id, option_Forall2 obj_is (handles s !! id) (Tree.objs a !! id);
  sim_le : ∀ id, is_Some (handles s !! id) → id ≤ next_id s;
}.

(** The outcome of a call against the answer of the tree's file system *)
Definition answers {B} (c : outcome (Answer B)) (o : errno + Answer B) : Prop :=
  match o with
  | inl e => c = Err e
  | inr x => ∃ y, c = Ok y ∧ forget y = x
  end.

Section Calls.
Context (s : InitFsScheme) (a : Tree.State).
Hypothesis Hsim : sim s a.

Lemma fs_run {A} (m : comp bytes A) r : m im = (r, im) → on_fs m s = (r, s).
Proof using Hsim. intros Hm. eapply on_fs_run. rewrite (sim_fs _ _ Hsim). exact Hm. Qed.

Lemma node_of_node id k path :
  Tree.objs a !! id = Some (Tree.ONode k path) →
  ∃ n i, node_of id s = (Ok n, s) ∧ filename n = path ∧
    on_fs (fs_inode slice_from_bytes (inode n)) s = (Ok i, s) ∧ inode_is i k.
Proof using Hsim Himage plain_slices.
  intros Ho. pose proof (sim_objs _ _ Hsim id) as Hid. rewrite Ho in Hid.
  inversion Hid as [x y Hxy Hx Hy|]; subst. destruct x as [n|]; [|done]. destruct Hxy as [Hf Hino].
  destruct (fs_inode_run _ k Hino) as (i & Hi & Hik). exists n, i. split_and!; [|done|by apply fs_run|done].
  unfold node_of. rewrite bind_get, <- Hx. done.
Qed.

Lemma node_of_other id :
  (∀ k path, Tree.objs a !! id ≠ Some (Tree.ONode k path)) → node_of id s = (Err EBADF, s).
Proof using Hsim.
  intros Ho. pose proof (sim_objs _ _ Hsim id) as Hid. unfold node_of. rewrite bind_get.
  inversion Hid as [x y Hxy Hx Hy|Hx Hy]; [|done]. rewrite <- Hy in Ho.
  destruct x as [n|], y as [|k path]; try done. by destruct (Ho k path).
Qed.

Lemma copy_run id buffer off k path :
  Tree.objs a !! id = Some (Tree.ONode k path) →
  read slice_from_bytes id buffer off s =
    (match k with
     | KFile data _ | KLink data => Ok (copy_from data buffer off)
     | KDir _ => Err EISDIR
     end, s).
Proof using Hsim Himage plain_slices.
  intros Ho. destruct (node_of_node id k path Ho) as (n & i & Hn & _ & Hi & Hk). unfold read.
  rewrite (bind_ok _ _ _ _ _ Hn), (bind_ok _ _ _ _ _ Hi), (inode_kind_run i k Hk).
  destruct k as [f x|dir|p]; cbn [kind_tag]; [|done|].
  - by rewrite (bind_ok _ _ _ _ _ (fs_run _ _ (map_eio_ok _ _ _ _ (file_data_run i f x Hk)))).
  - by rewrite (bind_ok _ _ _ _ _ (fs_run _ _ (map_eio_ok _ _ _ _ (link_data_run i p Hk)))).
Qed.

Lemma getdents_run {B} (entry : B → Z → string → Z → errno + B) id buf off k path :
  Tree.objs a !! id = Some (Tree.ONode k path) → 0 ≤ off < u32_max →
  getdents slice_from_bytes entry id buf off s =
    (match k with
     | KDir dir => match Tree.list_names entry (drop (Z.to_nat off) dir) 0 buf with
                   | inl e => Err e | inr buf => Ok buf end
     | _ => Err ENOTDIR
     end, s).
Proof using Hsim Himage plain_slices.
  intros Ho Hoff. destruct (node_of_node id k path Ho) as (n & i & Hn & _ & Hi & Hk). unfold getdents.
  rewrite bool_decide_eq_false_2 by lia.
  rewrite (bind_ok _ _ _ _ _ Hn), (bind_ok _ _ _ _ _ Hi), (inode_kind_run i k Hk).
  destruct k as [f x|dir|p]; cbn [kind_tag]; [done| |done].
  destruct (dir_run i dir Hk) as [des Hd]. apply fs_run.
  rewrite (bind_ok _ _ _ _ _ (iter_turns_run i dir des Hd)).
  replace off with (Z.of_nat (Z.to_nat off)) at 1 by lia.
  apply (list_dir_run i dir des Hd); lia.
Qed.

Lemma fsize_run id k path :
  Tree.objs a !! id = Some (Tree.ONode k path) →
  fsize slice_from_bytes id s = (Ok (Tree.size_of k), s).
Proof using Hsim Himage plain_slices.
  intros Ho. destruct (node_of_node id k path Ho) as (n & i & Hn & _ & Hi & Hk). unfold fsize.
  rewrite (bind_ok _ _ _ _ _ Hn), (bind_ok _ _ _ _ _ Hi). by apply fs_run, inode_len_run.
Qed.

Lemma inode_mode_run i k :
  inode_is i k → inode_mode i = match k with
    | KFile _ x => if x then 365 else 292 | KDir _ => 365 | KLink _ => 511 end.
Proof.
  unfold inode_is, inode_mode. destruct k as [f x|dir|p]; cbn; intros Hr;
    rewrite (ii_type _ _ _ _ _ (proj1 Hr)); [by destruct x|done|done].
Qed.

Lemma fstat_run id k path :
  Tree.objs a !! id = Some (Tree.ONode k path) →
  ∃ ino, fstat slice_from_bytes id s =
    (Ok (mk_stat ino (Tree.mode_of k) 0 0 (Tree.size_of k) 0 0 0 0), s).
Proof using Hsim Himage plain_slices.
  intros Ho. destruct (node_of_node id k path Ho) as (n & i & Hn & _ & Hi & Hk). unfold fstat.
  exists (inode n). rewrite (bind_ok _ _ _ _ _ Hn), (bind_ok _ _ _ _ _ Hi).
  rewrite (bind_ok _ _ _ _ _ (fs_run _ _ (inode_len_run i k Hk))).
  rewrite (inode_mode_run i k Hk), (inode_kind_run i k Hk). by destruct k.
Qed.

Lemma mmap_run id off size flags k path :
  Tree.objs a !! id = Some (Tree.ONode k path) → 0 ≤ off ≤ u64_max → 0 ≤ size ≤ usize_max →
  ∃ addr, mmap_prep slice_from_bytes id off size flags s =
    (match k with
     | KFile data _ =>
        if has_flag flags PROT_WRITE then Err EPERM
        else if bool_decide (off + size ≤ round_up (Z.of_nat (length data)) PAGE_SIZE)
        then Ok addr else Err EINVAL
     | KDir _ => Err EISDIR
     | KLink _ => Err ELOOP
     end, s) ∧
    (∀ data x, k = KFile data x → 0 ≤ addr - base s ∧
       slice im (Z.to_nat (addr - base s)) (length data) = data).
Proof using Hsim Himage plain_slices laws.
  intros Ho Hoff Hsize. destruct (node_of_node id k path Ho) as (n & i & Hn & _ & Hi & Hk).
  exists (base s + offset_ i). split.
  2: { intros data x ->. destruct Hk as [_ [Hpos Hh]].
       by replace (base s + offset_ i - base s) with (offset_ i) by lia. }
  unfold mmap_prep. rewrite (bind_ok _ _ _ _ _ Hn), (bind_ok _ _ _ _ _ Hi), (inode_kind_run i k Hk).
  destruct k as [f x|dir|p]; cbn [kind_tag]; [|done|done].
  rewrite (bind_ok _ _ _ _ _ (fs_run _ _ (map_eio_ok _ _ _ _ (file_data_run i f x Hk)))).
  destruct (has_flag flags PROT_WRITE); [done|].
  assert (Z.of_nat (length f) + PAGE_SIZE ≤ usize_max) as Hf.
  { pose proof page_size_le. destruct Hk as [[_ _ Hlo Hhi] _]. pose proof table_in_image.
    pose proof (im_size _ _ _ _ _ Himage). unfold DEFAULT_MAX_SIZE, usize_max in *. lia. }
  pose proof page_size_pos. destruct (round_up_spec (Z.of_nat (length f)) PAGE_SIZE) as [Hr _]; [lia|lia|].
  assert (round_up (Z.of_nat (length f)) PAGE_SIZE ≤ usize_max) as Hmax by lia.
  unfold checked_add_usize. case_bool_decide.
  - rewrite (bind_ok _ _ _ (off + size) s) by done.
    rewrite (bind_ok _ _ _ _ _ (next_multiple_of_run (Z.of_nat (length f)) PAGE_SIZE s page_size_pos Hmax)).
    repeat case_bool_decide; lia || done.
  - rewrite bool_decide_eq_false_2 by (unfold usize_max in *; lia). done.
Qed.

Lemma fpath_run id buf k path :
  Tree.objs a !! id = Some (Tree.ONode k path) →
  let full := str_bytes "/scheme/initfs" ++ str_bytes path in
  let n := Nat.min (length full) (length buf) in
  fpath id buf s = (Ok (Z.of_nat n, copy_at buf 0 (take n full)), s).
Proof using Hsim Himage plain_slices.
  intros Ho full n. destruct (node_of_node id k path Ho) as (nd & i & Hn & <- & _ & _). unfold fpath.
  rewrite (bind_ok _ _ _ _ _ Hn). unfold mret, comp_ret.
  rewrite length_copy_at by len_lia. rewrite copy_two. by replace (_ + _)%nat with n by (unfold n, full; len_lia).
Qed.

(** *** Requests *)

Context {B : Type} (entry : B → Z → string → Z → errno + B).

Lemma answer_err {A} (m : comp InitFsScheme A) (f : A → comp InitFsScheme (Answer B)) e :
  m s = (Err e, s) → ∃ c, (m ≫= f) s = (c, s) ∧ answers c (inl e).
Proof. intros Hm. exists (Err e). split; [by apply bind_err|done]. Qed.

Lemma answer_ok {A} (m : comp InitFsScheme A) (f : A → comp InitFsScheme (Answer B)) x y y' :
  m s = (Ok x, s) → f x = mret y → forget y = y' → ∃ c, (m ≫= f) s = (c, s) ∧ answers c (inr y').
Proof.
  intros Hm Hf Hy. exists (Ok y). split; [by rewrite (bind_ok _ _ _ _ _ Hm), Hf|by exists y].
Qed.

Definition on_handle (r : Request B) : Prop :=
  match r with Openat _ _ _ | OnClose _ | Fsync _ => False | _ => True end.

#[local] Instance on_handle_dec r : Decision (on_handle r).
Proof. unfold on_handle. destruct r; apply _. Defined.

Lemma bad_request_run r :
  on_handle r → (∀ k path, Tree.objs a !! Tree.request_id r ≠ Some (Tree.ONode k path)) →
  ∃ c, InitfsScheme.handle_request slice_from_bytes entry r s = (c, s) ∧
    ∃ o, Tree.handle_request entry root r a = (o, a) ∧ answers c o.
Proof using Hsim.
  intros Hr Hid. pose proof (node_of_other _ Hid) as Hbad.
  destruct (Tree.objs a !! Tree.request_id r) as [[|k path]|] eqn:Ho; [|by destruct (Hid k path)|].
  all: destruct r; try done; cbn [InitfsScheme.handle_request Tree.handle_request Tree.request_id] in *;
    rewrite Ho; try (exists (Err EBADF); split; [do 2 eapply bind_err; exact Hbad|by eexists]).
  all: unfold getdents; case_bool_decide; [by eexists; split; [done|]; eexists; split; [done|]; eexists|].
  all: exists (Err EBADF); split; [do 2 eapply bind_err; exact Hbad|by eexists].
Qed.

(** A call on a node answers as the tree does and changes nothing. *)
Lemma node_answers r k path :
  on_handle r → request_ok r = true → Tree.objs a !! Tree.request_id r = Some (Tree.ONode k path) →
  match r with Getdents _ _ off => off ≤ u32_max | _ => True end →
  ∃ c, InitfsScheme.handle_request slice_from_bytes entry r s = (c, s) ∧
    answers c (Tree.on_node entry r k path).
Proof using Hsim Himage plain_slices laws.
  intros Hr Hok Ho Hoff. destruct r as [|id buf off|id buf off|id|id|id buf|id| |id off size flags|];
    try done; cbn in Hok, Ho; cbn [InitfsScheme.handle_request Tree.on_node].
  - pose proof (copy_run id buf off k path Ho) as Hrun.
    destruct k; [eapply answer_ok|eapply answer_err|eapply answer_ok]; done.
  - apply bool_decide_eq_true in Hok. pose proof (getdents_run entry id buf off k path Ho ltac:(lia)) as Hrun.
    destruct k as [f x|dir|p]; [by eapply answer_err| |by eapply answer_err].
    destruct (Tree.list_names entry (drop (Z.to_nat off) dir) 0 buf) as [e|b];
      [by eapply answer_err|by eapply answer_ok].
  - by eapply answer_ok; [apply (fsize_run id k path Ho)|..].
  - destruct (node_of_node id k path Ho) as (n & i & Hn & _).
    by eapply answer_ok; [unfold fcntl; by rewrite (bind_ok _ _ _ _ _ Hn)|..].
  - by eapply answer_ok; [apply (fpath_run id buf k path Ho)|..].
  - destruct (fstat_run id k path Ho) as [ino Hst]. by eapply answer_ok.
  - apply bool_decide_eq_true in Hok.
    destruct (mmap_run id off size flags k path Ho) as (addr & Hm & _); [lia|lia|].
    destruct k as [f x|dir|p]; [|by eapply answer_err|by eapply answer_err].
    destruct (has_flag flags PROT_WRITE); [by eapply answer_err|].
    case_bool_decide; [by eapply answer_ok|by eapply answer_err].
Qed.

Lemma node_request_run r k path :
  on_handle r → request_ok r = true → Tree.objs a !! Tree.request_id r = Some (Tree.ONode k path) →
  ∃ c, InitfsScheme.handle_request slice_from_bytes entry r s = (c, s) ∧
    ∃ o, Tree.handle_request entry root r a = (o, a) ∧ answers c o.
Proof using Hsim Himage plain_slices laws.
  intros Hr Hok Ho. pose proof (node_answers r k path Hr Hok Ho) as Hans.
  destruct r as [|id buf off|id buf off|id|id|id buf|id| |id off size flags|]; try done.
  2: { cbn [Tree.handle_request]. case_bool_decide as Hoff.
       - cbn [InitfsScheme.handle_request]. unfold getdents. rewrite bool_decide_eq_true_2 by done.
         by eexists; split; [done|]; eexists; split; [done|]; eexists.
       - cbn in Ho. destruct Hans as (c & Hc & Hans); [lia|]. exists c. split; [done|].
         cbn [Tree.request_id]. rewrite Ho. by eexists. }
  all: destruct (Hans I) as (c & Hc & Ha); exists c; split; [done|]; cbn in Ho.
  all: by cbn [Tree.handle_request Tree.request_id]; rewrite Ho; eexists.
Qed.

(** *** Opening *)

Lemma lookup_run path :
  Forall (λ c, c ≠ str_bytes "..") (path_components path) →
  ∃ hd, on_fs get_header s = (Ok hd, s) ∧
  match Tree.lookup_path (KDir root) (path_components path) with
  | inl e => on_fs (walk slice_from_bytes (length (path_components path)) (path_components path)
               (root_inode hd)) s = (Err e, s)
  | inr k => ∃ ino, on_fs (walk slice_from_bytes (length (path_components path)) (path_components path)
               (root_inode hd)) s = (Ok ino, s) ∧ ino_is ino k
  end.
Proof using Hsim Himage plain_slices.
  intros Hcs. destruct (get_header_run _ _ _ _ _ Himage) as (hd & Hrun & _ & _ & _ & Hroot & _).
  exists hd. split; [by apply fs_run|].
  assert (ino_is (root_inode hd) (KDir root)) as Hr.
  { rewrite Hroot. apply (im_tree _ _ _ _ _ Himage). }
  pose proof (walk_run (path_components path) _ (root_inode hd) (KDir root) (le_n _) Hcs Hr) as Hw.
  destruct (Tree.lookup_path _ _) as [e|k]; [by apply fs_run|].
  destruct Hw as (ino & Hw & Hk). exists ino. split; [by apply fs_run|done].
Qed.

Lemma sim_open ino k path :
  ino_is ino k →
  sim (mk_scheme (<[next_id s + 1 := HNode (mk_node ino path)]> (handles s)) (next_id s + 1) (base s) (fs s))
    (Tree.mk_tree_state (<[Tree.last_id a + 1 := Tree.ONode k path]> (Tree.objs a)) (Tree.last_id a + 1)).
Proof using Hsim.
  intros Hk. destruct Hsim as [Hfs Hnext Hobjs Hle]. split; cbn; [done|lia| |].
  - intros id. rewrite Hnext. destruct (decide (id = Tree.last_id a + 1)) as [->|Hne].
    + rewrite !lookup_insert_eq. by constructor.
    + rewrite !lookup_insert_ne by done. done.
  - intros id. destruct (decide (id = next_id s + 1)) as [->|Hne]; [done|].
    rewrite lookup_insert_ne by done. intros Hid%Hle. lia.
Qed.

(** The part of [openat] after the inode is found *)
Lemma openat_node dirfd path flags :
  Tree.objs a !! dirfd = Some Tree.ORoot → next_id s < usize_max →
  Forall (λ c, c ≠ str_bytes "..") (path_components path) →
  ∃ c s', openat slice_from_bytes dirfd path flags s = (c, s') ∧
    ∃ o a', Tree.open (B:=B) root path flags a = (o, a') ∧
      answers (match c with Ok id => Ok (AnsOpen id) | Err e => Err e | Panic => Panic end) o ∧
      sim s' a' ∧ next_id s' ≤ next_id s + 1.
Proof using Hsim Himage plain_slices.
  intros Ho Hmax Hcs. pose proof (sim_objs _ _ Hsim dirfd) as Hid. rewrite Ho in Hid.
  inversion Hid as [x y Hxy Hx Hy|]; subst. destruct x as [|]; [done|].
  unfold openat, Tree.open. rewrite bind_get, <- Hx, (bind_ok _ _ _ SchemeRoot s) by done.
  destruct (lookup_run path Hcs) as (hd & Hhd & Hw). rewrite (bind_ok _ _ _ _ _ Hhd). cbv zeta.
  destruct (Tree.lookup_path (KDir root) (path_components path)) as [e|k].
  { exists (Err e), s. split; [by apply bind_err|]. do 2 eexists. split_and!; [done|cbn; reflexivity|done|lia]. }
  destruct Hw as (ino & Hw & Hk). rewrite (bind_ok _ _ _ _ _ Hw).
  destruct (fs_inode_run ino k Hk) as (i & Hi & Hik). rewrite (bind_ok _ _ _ _ _ (fs_run _ _ Hi)).
  rewrite (inode_kind_run i k Hik), <- andb_assoc, <- negb_orb. fold (Tree.link_flags flags).
  replace (match kind_tag k with IsLink => true | _ => false end)
    with (match k with KLink _ => true | _ => false end) by by destruct k.
  destruct ((match k with KLink _ => true | _ => false end) && negb (Tree.link_flags flags)).
  { exists (Err EXDEV), s. split; [done|]. do 2 eexists. split_and!; [done|cbn; reflexivity|done|lia]. }
  exists (Ok (next_id s + 1)). eexists. split.
  - erewrite bind_ok; [|unfold take_next_id; rewrite bind_get, bool_decide_eq_false_2 by lia; done].
    rewrite bind_get. cbn [handles set_next_id].
    destruct (handles s !! (next_id s + 1)) as [x|] eqn:Hnew;
      [pose proof (sim_le _ _ Hsim _ (mk_is_Some _ _ Hnew)); lia|].
    erewrite bind_ok by done. rewrite bool_decide_eq_false_2 by by intros [].
    done.
  - do 2 eexists. split; [done|]. split_and!; [|by apply sim_open|cbn; lia].
    rewrite (sim_next _ _ Hsim). by eexists.
Qed.

Lemma sim_close id :
  sim (set_handles (delete id) s) (Tree.mk_tree_state (delete id (Tree.objs a)) (Tree.last_id a)).
Proof using Hsim.
  destruct Hsim as [Hfs Hnext Hobjs Hle]. split; cbn; [done|done| |].
  - intros j. destruct (decide (j = id)) as [->|]; [rewrite !lookup_delete_eq; constructor|].
    by rewrite !lookup_delete_ne.
  - intros j [x Hx]. apply lookup_delete_Some in Hx as [_ Hx]. by apply Hle.
Qed.

Lemma openat_run dirfd path flags :
  next_id s < usize_max → request_ok (Openat (B:=B) dirfd path flags) = true →
  ∃ c s', InitfsScheme.handle_request slice_from_bytes entry (Openat dirfd path flags) s = (c, s') ∧
    ∃ o a', Tree.handle_request entry root (Openat dirfd path flags) a = (o, a') ∧ answers c o ∧
      sim s' a' ∧ next_id s' ≤ next_id s + 1.
Proof using Hsim Himage plain_slices.
  intros Hmax Hok. cbn [request_ok] in Hok. apply Is_true_true_2, forallb_True in Hok.
  cbn [InitfsScheme.handle_request Tree.handle_request Tree.request_id].
  pose proof (sim_objs _ _ Hsim dirfd) as Hid.
  destruct (Tree.objs a !! dirfd) as [[|k p]|] eqn:Ho.
  - destruct (openat_node dirfd path flags Ho Hmax) as (c & s' & Hc & o & a' & Hrest).
    { eapply Forall_impl; [exact Hok|]. intros x Hx ->. by rewrite bool_decide_eq_true_2 in Hx. }
    destruct c as [id|e|]; do 2 eexists; (split; [unfold mbind, comp_bind; by rewrite Hc|]);
      exists o, a'; exact Hrest.
  - inversion Hid as [x y Hxy Hx Hy|]; subst. destruct x as [n|]; [|done].
    do 2 eexists. split; [apply bind_err; unfold openat; rewrite bind_get, <- Hx; done|].
    do 2 eexists. split_and!; [done|cbn; reflexivity|done|lia].
  - inversion Hid as [|Hx Hy].
    do 2 eexists. split; [apply bind_err; unfold openat; rewrite bind_get, <- Hx; done|].
    do 2 eexists. split_and!; [done|cbn; reflexivity|done|lia].
Qed.

(** A request, from related states to related states; the count of handles grows by at
    most one. *)
Lemma request_run r :
  request_ok r = true → next_id s < usize_max →
  ∃ c s', InitfsScheme.handle_request slice_from_bytes entry r s = (c, s') ∧
    ∃ o a', Tree.handle_request entry root r a = (o, a') ∧ answers c o ∧ sim s' a' ∧
      next_id s' ≤ next_id s + 1.
Proof using Hsim Himage plain_slices laws.
  intros Hok Hmax. destruct (decide (on_handle r)) as [Hr|Hr].
  - assert (∃ c, InitfsScheme.handle_request slice_from_bytes entry r s = (c, s) ∧
      ∃ o, Tree.handle_request entry root r a = (o, a) ∧ answers c o) as (c & Hc & o & Ho & Ha).
    { destruct (Tree.objs a !! Tree.request_id r) as [[|k path]|] eqn:Ho;
        [apply bad_request_run; [done|]; by rewrite Ho|by eapply node_request_run|
         apply bad_request_run; [done|]; by rewrite Ho]. }
    exists c, s. split; [done|]. exists o, a. split_and!; [done..|lia].
  - destruct r as [dirfd path flags|id buf off|id buf off|id|id|id buf|id|id|id off size flags|id];
      try (by destruct Hr).
    + by apply openat_run.
    + cbn. unfold fsync. pose proof (sim_objs _ _ Hsim id) as Hid.
      destruct (Tree.objs a !! id) eqn:Ho; inversion Hid as [x y Hxy Hx Hy|Hx Hy].
      * exists (Ok AnsSync), s. split; [unfold mbind, comp_bind, get; by rewrite <- Hx|].
        do 2 eexists. split_and!; [done|by eexists|done|lia].
      * exists (Err EBADF), s. split; [unfold mbind, comp_bind, get; by rewrite <- Hx|].
        do 2 eexists. split_and!; [done|cbn; reflexivity|done|lia].
    + do 2 eexists. split; [done|]. do 2 eexists. split_and!; [done|by eexists|apply sim_close|cbn; lia].
Qed.
End Calls.

(** The answer that [serve] collects, without inode numbers and addresses *)
Definition forget_all {B} (o : errno + Answer B) : errno + Answer B :=
  match o with inl e => inl e | inr x => inr (forget x) end.

Lemma serve_run {B} (entry : B → Z → string → Z → errno + B) rs s a :
  sim s a → forallb request_ok rs = true → next_id s + Z.of_nat (length rs) ≤ usize_max →
  ∃ l s', serve slice_from_bytes entry rs s = (Ok l, s') ∧
    forget_all <$> l = Tree.serve entry root rs a.
Proof using Himage plain_slices laws.
  revert s a. induction rs as [|r rs IH]; intros s a Hsim; cbn [forallb length]; [by eexists [], s|].
  intros [Hr Hrs]%andb_prop Hmax.
  destruct (request_run s a Hsim entry r Hr ltac:(lia)) as (c & s1 & Hc & o & a1 & Ho & Ha & Hsim1 & Hn).
  destruct (IH s1 a1 Hsim1 Hrs ltac:(lia)) as (l & s2 & Hl & Hserve).
  assert (∃ x, result (InitfsScheme.handle_request slice_from_bytes entry r) s = (Ok x, s1) ∧
    forget_all x = o) as (x & Hx & Hxo).
  { unfold result. rewrite Hc. destruct o as [e|y]; cbn in Ha; [subst c; by exists (inl e)|].
    destruct Ha as (y' & -> & <-). by exists (inr y'). }
  exists (x :: l), s2. cbn [serve Tree.serve]. rewrite Ho. split.
  - by rewrite (bind_ok _ _ _ _ _ Hx), (bind_ok _ _ _ _ _ Hl).
  - rewrite fmap_cons. by rewrite Hxo, Hserve.
Qed.

Lemma run_spec {B} (entry : B → Z → string → Z → errno + B) addr rs :
  PAGE_SIZE = INITFS_PAGE_SIZE → forallb request_ok rs = true → Z.of_nat (length rs) < usize_max →
  ∃ l, run slice_from_bytes entry addr im rs = Ok (1, l) ∧
    forget_all <$> l = Tree.serve entry root rs Tree.start.
Proof using Himage plain_slices laws.
  intros Hpage Hrs Hmax. unfold run, initfs_scheme_new.
  rewrite Hpage, bool_decide_eq_true_2 by done. rewrite (initfs_new_run _ _ _ _ _ Himage). cbn [fst].
  destruct (serve_run entry rs (mk_scheme {[ 1 := SchemeRoot ]} 1 addr im) Tree.start) as (l & s' & Hl & Hs).
  - split; cbn; [done|done| |].
    + intros id. destruct (decide (id = 1)) as [->|]; [by rewrite !lookup_singleton_eq; constructor|].
      rewrite !lookup_singleton_ne by done. constructor.
    + intros id [x Hx]. apply lookup_singleton_Some in Hx. lia.
  - done.
  - cbn. lia.
  - exists l. split; [|done]. erewrite bind_ok by done. by rewrite (bind_ok _ _ _ _ _ Hl).
Qed.

(** *** Where the scheme differs from what its callers expect *)

(** A listing that starts at the last position of a [u32] overflows the iterator. *)
Lemma getdents_last_panics {B} (entry : B → Z → string → Z → errno + B) s a id dir path buf :
  sim s a → Tree.objs a !! id = Some (Tree.ONode (KDir dir) path) →
  getdents slice_from_bytes entry id buf u32_max s = (Panic, s).
Proof using Himage plain_slices.
  intros Hsim Ho. destruct (node_of_node s a Hsim id _ path Ho) as (n & i & Hn & _ & Hi & Hk).
  unfold getdents. rewrite bool_decide_eq_false_2 by lia.
  rewrite (bind_ok _ _ _ _ _ Hn), (bind_ok _ _ _ _ _ Hi), (inode_kind_run i _ Hk). cbn [kind_tag].
  destruct (dir_run i dir Hk) as [des Hd]. apply (fs_run s a Hsim).
  rewrite (bind_ok _ _ _ _ _ (iter_turns_run i dir des Hd)). cbn [list_dir].
  assert (iter_next slice_from_bytes i u32_max im = (Panic, im)) as Hlast.
  { unfold iter_next. erewrite bind_ok; [|apply result_ok, map_eio_ok; unfold get_entry;
      rewrite (bind_ok _ _ _ _ _ (di_run _ _ _ Hd)); reflexivity]. done. }
  unfold mbind, comp_bind. by rewrite Hlast.
Qed.
End Image.

(** A parent component takes away the last component of the path, not the one before it:
    a path through a directory and back opens the directory. *)
Lemma walk_parent slices turns c d ino im :
  c ≠ str_bytes "." → c ≠ str_bytes ".." →
  walk slices (S (S turns)) [c; str_bytes ".."; d] ino im = walk slices (S (S turns)) [c] ino im.
Proof.
  intros Hc1 Hc2. cbn [walk]. rewrite !(bool_decide_eq_false_2 (c = _)) by done.
  unfold mbind, comp_bind. by destruct turns.
Qed.


Section Example.
#[local] Existing Instance redox_abi.

(** A directory buffer that takes every entry *)
Definition demo_dirent (buf : list (string * Z)) (ino : Z) (name : string) (next : Z)
    : errno + list (string * Z) := inr (buf ++ [(name, next)]).

Definition demo_requests : list (Request (list (string * Z))) :=
  [Openat 1 "/etc//rc" 0; Openat 1 "etc" 0; Getdents 3 [] 0; Openat 1 "init" 0;
   Read 4 [0; 0; 0; 0] 1; Fsize 4; Openat 1 "etc/link" 0; Openat 1 "init/x" 0; OnClose 4; Fsync 4].

End Example.
