(* ===== verification/Nsmgr.v ===== *)
(** * The namespace manager of the bootstrap process

    [bootstrap/src/initnsmgr.rs].  A namespace maps scheme names to the descriptors of
    their daemons; a process holds a descriptor of the manager that gives it access to a
    namespace with some permissions, and every path that it opens is resolved there.  A
    handle can be duplicated into a new namespace with fewer schemes, into a handle with
    fewer permissions, or into the right to register one name.

    [Namespace]s are behind [Rc<RefCell<_>>] and shared by handles, so that they live in a
    store, [spaces], and a handle names its place there.  The path syntax of [redox_path],
    the requests and permission bits of [libredox], and what the kernel answers to a system
    call are parameters; the answer may depend on all earlier calls. *)

From S2P Require Import Prelude Abi.

(** ** External code *)

(** [libredox::protocol::NsDup] *)
Inductive NsDup : Set := ForkNs | ShrinkPermissions | IssueRegister.

Class NsAbi := {
  (** [libredox::protocol::NsPermissions] *)
  NS_LIST : Z; NS_INSERT : Z; NS_DELETE : Z; SCHEME_CREATE : Z; NS_ALL : Z;
  (** [NsDup::try_from_raw] and [size_of::<NsDup>()] *)
  ns_dup_of_raw : Z → option NsDup;
  ns_dup_size : nat;
  (** [redox_path::RedoxPath] and [RedoxScheme] *)
  RedoxPath : Type;
  from_absolute : string → option RedoxPath;
  as_parts : RedoxPath → option (string * string);
  redox_scheme_new : string → option string;
}.

Class NsAbiLaws (abi : NsAbi) : Prop := {
  create_nonzero : SCHEME_CREATE ≠ 0;
  ns_dup_size_le : (ns_dup_size ≤ 8)%nat;
}.

(** The system calls that the manager makes *)
Inductive sys_call : Type :=
  | SysDup (fd : Z)
  | SysOpenat (fd : Z) (reference : string) (flags fcntl_flags uid gid : Z)
  | SysUnlinkat (fd : Z) (reference : string) (flags uid gid : Z)
  | SysObtainFd.

(** ** State *)

(** [Namespace], with a raw descriptor for each [Arc<FdGuard>] *)
Definition Namespace : Type := gmap string Z.

Record NamespaceAccess := mk_access { namespace : nat; permission : Z }.

Inductive Handle : Type :=
  | Access (a : NamespaceAccess)
  | Register (target_namespace : nat) (scheme_name : string)
  | List (a : NamespaceAccess).

Record NamespaceScheme := mk_ns {
  handles : gmap Z Handle;
  root_namespace : Namespace;
  spaces : list Namespace;
  next_id : Z;
  scheme_creation_cap : Z;
  calls : list sys_call
}.

Definition set_handles f s := mk_ns (f (handles s)) (root_namespace s) (spaces s) (next_id s) (scheme_creation_cap s) (calls s).
Definition set_spaces f s := mk_ns (handles s) (root_namespace s) (f (spaces s)) (next_id s) (scheme_creation_cap s) (calls s).
Definition set_next_id n s := mk_ns (handles s) (root_namespace s) (spaces s) n (scheme_creation_cap s) (calls s).
Definition log_call c s := mk_ns (handles s) (root_namespace s) (spaces s) (next_id s) (scheme_creation_cap s) (calls s ++ [c]).

Inductive OpenResult : Type := ThisScheme (number : Z) | OtherScheme (fd : Z).

(** ** Operations *)

(** [read_num::<usize>] *)
Definition read_num (buffer : bytes) : outcome Z :=
  if bool_decide (8 ≤ length buffer)%nat then Ok (le_val (take 8 buffer)) else Err EINVAL.

(** [name.ends_with('*')] and the name without its last character *)
Fixpoint strip_star (name : string) : option string :=
  match name with
  | EmptyString => None
  | String c EmptyString => if Ascii.eqb c "*"%char then Some EmptyString else None
  | String c name => String c <$> strip_star name
  end.

(** What one name of the list adds to the new namespace; the order of the iteration over
    the [HashMap] does not matter, since every name is inserted with its descriptor *)
Definition fork_name (self : Namespace) (name : string) (schemes : Namespace) : Namespace :=
  match strip_star name with
  | Some prefix => filter (λ p, String.prefix prefix p.1 = true) self ∪ schemes
  | None =>
     match self !! name with
     | Some fd => <[name := fd]> schemes
     | None => schemes
     end
  end.

(** The loop of [Namespace::fork] on the rest of the buffer; a turn takes at least the
    eight bytes of a length, so that one turn per byte is enough *)
Fixpoint fork_loop (fuel : nat) (self : Namespace) (buf : bytes) (schemes : Namespace) :
    outcome Namespace :=
  match buf with
  | [] => Ok schemes
  | _ =>
     match fuel with
     | O => Panic
     | S fuel =>
        match read_num buf with
        | Ok len =>
           let buf := drop 8 buf in
           if bool_decide (len ≤ Z.of_nat (length buf)) then
             match from_utf8 (take (Z.to_nat len) buf) with
             | Some name => fork_loop fuel self (drop (Z.to_nat len) buf) (fork_name self name schemes)
             | None => Err EINVAL
             end
           else Panic
        | Err e => Err e
        | Panic => Panic
        end
     end
  end.

Definition fork (self : Namespace) (buf : bytes) : outcome Namespace :=
  fork_loop (length buf) self buf ∅.

Definition has_permission (a : NamespaceAccess) (p : Z) : bool := has_flag (permission a) p.

Section Manager.
Context {SA : SyscallAbi} {NA : NsAbi}.
Variable kernel : list sys_call → sys_call → errno + Z.

(** A system call, with its error passed on *)
Definition sys (c : sys_call) : comp NamespaceScheme Z := λ s,
  match kernel (calls s) c with
  | inr r => (Ok r, log_call c s)
  | inl e => (Err e, log_call c s)
  end.

Definition HIGH_PERMISSIONS : Z := SCHEME_CREATE.

(** [NamespaceScheme::new] *)
Definition ns_new (schemes : Namespace) (cap : Z) : NamespaceScheme := mk_ns ∅ schemes [] 0 cap [].

(** [add_namespace] *)
Definition add_namespace (id : Z) (schemes : Namespace) (permission : Z) : comp NamespaceScheme unit :=
  s ← get;
  modify (set_spaces (λ l, l ++ [schemes]));;
  modify (set_handles <[id := Access (mk_access (length (spaces s)) permission)]>).

(** [get_ns_access] *)
Definition get_ns_access (id : Z) (s : NamespaceScheme) : option NamespaceAccess :=
  match handles s !! id with
  | Some (Access a) => Some a
  | _ => None
  end.

Definition bump_id : comp NamespaceScheme unit :=
  s ← get;
  n ← add_usize (next_id s) 1;
  modify (set_next_id n).

(** The namespace behind an [Rc] *)
Definition space (l : nat) : comp NamespaceScheme Namespace :=
  s ← get;
  expect (spaces s !! l).

(** [open_namespace_resource] *)
Definition open_namespace_resource (ns_access : NamespaceAccess) (reference : string) :
    comp NamespaceScheme Z :=
  if bool_decide (reference = "scheme-creation-cap"%string) then
    if has_permission ns_access SCHEME_CREATE then
      s ← get;
      sys (SysDup (scheme_creation_cap s))
    else fail EACCES
  else fail EINVAL.

(** [open_scheme_resource] *)
Definition open_scheme_resource (ns : Namespace) (scheme reference : string)
    (flags fcntl_flags uid gid : Z) : comp NamespaceScheme Z :=
  cap_fd ← ok_or ENODEV (ns !! scheme);
  sys (SysOpenat cap_fd reference flags fcntl_flags uid gid).

(** [fork_namespace] *)
Definition fork_namespace (l : nat) (names : bytes) : comp NamespaceScheme Z :=
  s ← get;
  let new_id := next_id s in
  ns ← space l;
  new_namespace ← lift (fork ns names);
  add_namespace new_id new_namespace (Z.ldiff NS_ALL HIGH_PERMISSIONS);;
  bump_id;;
  mret new_id.

(** A new handle under the next id *)
Definition insert_next (h : Handle) : comp NamespaceScheme Z :=
  s ← get;
  modify (set_handles <[next_id s := h]>);;
  bump_id;;
  mret (next_id s).

(** [shrink_permissions] *)
Definition shrink_permissions (ns : NamespaceAccess) (p : Z) : comp NamespaceScheme Z :=
  insert_next (Access (mk_access (namespace ns) (Z.land (permission ns) p))).

(** [openat] *)
Definition openat (fd : Z) (path : string) (flags fcntl_flags uid gid : Z) :
    comp NamespaceScheme OpenResult :=
  s ← get;
  ns_access ← ok_or ENOENT (get_ns_access fd s);
  redox_path ← ok_or EINVAL (from_absolute path);
  parts ← ok_or EINVAL (as_parts redox_path);
  let '(scheme, reference) := parts in
  if bool_decide (scheme = "namespace"%string) then
    res_fd ← open_namespace_resource ns_access reference;
    mret (OtherScheme res_fd)
  else if bool_decide (scheme = EmptyString) then
    if has_permission ns_access NS_LIST then
      bump_id;;
      modify (set_handles <[next_id s := List ns_access]>);;
      mret (ThisScheme (next_id s))
    else fail EACCES
  else
    ns ← space (namespace ns_access);
    res_fd ← open_scheme_resource ns scheme reference flags fcntl_flags uid gid;
    mret (OtherScheme res_fd).

(** [dup] *)
Definition dup (id : Z) (buf : bytes) : comp NamespaceScheme OpenResult :=
  s ← get;
  ns_access ← ok_or ENOENT (get_ns_access id s);
  raw_kind ← lift (read_num buf);
  kind ← ok_or EINVAL (ns_dup_of_raw raw_kind);
  payload ← (if bool_decide (ns_dup_size ≤ length buf)%nat then mret (drop ns_dup_size buf) else panic);
  new_id ←
    match kind with
    | ForkNs => fork_namespace (namespace ns_access) payload
    | ShrinkPermissions =>
       p ← lift (read_num payload);
       shrink_permissions ns_access (Z.land p NS_ALL)
    | IssueRegister =>
       name ← ok_or EINVAL (from_utf8 payload);
       scheme_name ← ok_or EINVAL (redox_scheme_new name);
       if has_permission ns_access NS_INSERT then
         insert_next (Register (namespace ns_access) scheme_name)
       else fail EACCES
    end;
  mret (ThisScheme new_id).

(** [unlinkat] *)
Definition unlinkat (fd : Z) (path : string) (flags uid gid : Z) : comp NamespaceScheme unit :=
  s ← get;
  ns_access ← ok_or ENOENT (get_ns_access fd s);
  let l := namespace ns_access in
  ns ← space l;
  redox_path ← ok_or EINVAL (from_absolute path);
  parts ← ok_or EINVAL (as_parts redox_path);
  let '(scheme, reference) := parts in
  if bool_decide (reference = EmptyString) then
    if has_permission ns_access NS_DELETE then
      match ns !! scheme with
      | Some _ => modify (set_spaces <[l := delete scheme ns]>)
      | None => fail ENODEV
      end
    else fail EACCES
  else
    cap_fd ← ok_or ENODEV (ns !! scheme);
    sys (SysUnlinkat cap_fd reference flags uid gid);;
    mret tt.

(** [on_close] *)
Definition on_close (id : Z) : comp NamespaceScheme unit := modify (set_handles (delete id)).

(** [SchemeRegister::register] *)
Definition register (l : nat) (scheme_name : string) (fd : Z) : comp NamespaceScheme unit :=
  ns ← space l;
  match ns !! scheme_name with
  | Some _ => fail EEXIST
  | None => modify (set_spaces <[l := <[scheme_name := fd]> ns]>)
  end.

(** [on_sendfd] *)
Definition on_sendfd (namespace_id num_fds : Z) : comp NamespaceScheme Z :=
  s ← get;
  handle ← ok_or ENOENT (handles s !! namespace_id);
  match handle with
  | Register l scheme_name =>
     if bool_decide (num_fds = 0) then mret 0
     else if bool_decide (1 < num_fds) then fail EINVAL
     else
       new_fd ← sys SysObtainFd;
       register l scheme_name new_fd;;
       mret num_fds
  | _ => fail EACCES
  end.

(** The loop of [getdents] from the [i]-th entry on; [entry] is [DirentBuf::entry], given
    the name and the next opaque id *)
Fixpoint list_entries {B} (entry : B → string → Z → errno + B) (offset i : Z)
    (ents : list string) (buf : B) : errno + B :=
  match ents with
  | [] => inr buf
  | name :: ents =>
     if bool_decide (name = EmptyString) then list_entries entry offset (i + 1) ents buf
     else
       match entry buf name (i + 1) with
       | inr buf => list_entries entry offset (i + 1) ents buf
       | inl e => if bool_decide (e = EINVAL) && bool_decide (offset < i) then inr buf else inl e
       end
  end.

(** [getdents]; [order] is the order in which the [HashMap] of the namespace is iterated *)
Definition getdents {B} (entry : B → string → Z → errno + B) (order : Namespace → list string)
    (id : Z) (buf : B) (opaque_offset : Z) : comp NamespaceScheme B :=
  s ← get;
  handle ← ok_or EBADF (handles s !! id);
  match handle with
  | List ns_access =>
     if has_permission ns_access NS_LIST then
       ns ← space (namespace ns_access);
       match list_entries entry opaque_offset opaque_offset
               (drop (Z.to_nat opaque_offset) (order ns)) buf with
       | inr buf => mret buf
       | inl e => fail e
       end
     else fail EACCES
  | _ => fail ENOTDIR
  end.

(** [fstat]: the mode; owner, group and size are zero *)
Definition fstat (id : Z) : comp NamespaceScheme Z :=
  s ← get;
  handle ← ok_or EBADF (handles s !! id);
  mret match handle with
       | List _ => Z.lor 0x124 MODE_DIR
       | Access _ | Register _ _ => Z.lor 0x1B6 MODE_FILE
       end.

(** The prologue of [run]: the handle of the root namespace *)
Definition run_start (schemes : Namespace) (cap : Z) : outcome unit * NamespaceScheme :=
  (s ← get;
   add_namespace (next_id s) (root_namespace s) NS_ALL;;
   bump_id) (ns_new schemes cap).

(** The requests of the loop of [run] that change the state *)
Inductive request : Type :=
  | QOpenat (fd : Z) (path : string) (flags fcntl_flags uid gid : Z)
  | QDup (id : Z) (buf : bytes)
  | QUnlinkat (fd : Z) (path : string) (flags uid gid : Z)
  | QSendFd (id num_fds : Z)
  | QClose (id : Z).

(** One request; an error is the answer to the caller *)
Definition serve (q : request) : comp NamespaceScheme unit :=
  match q with
  | QOpenat fd path flags fcntl_flags uid gid => attempt (openat fd path flags fcntl_flags uid gid);; mret tt
  | QDup id buf => attempt (dup id buf);; mret tt
  | QUnlinkat fd path flags uid gid => attempt (unlinkat fd path flags uid gid);; mret tt
  | QSendFd id num_fds => attempt (on_sendfd id num_fds);; mret tt
  | QClose id => on_close id
  end.

Fixpoint run (qs : list request) : comp NamespaceScheme unit :=
  match qs with
  | [] => mret tt
  | q :: qs => serve q;; run qs
  end.
End Manager.

(** ** Capabilities

    What the manager promises: handles and namespaces change only by the steps below, each
    justified by a handle that the caller holds. *)

Record caps := mk_caps { c_handles : gmap Z Handle; c_spaces : list Namespace }.

Definition view (s : NamespaceScheme) : caps := mk_caps (handles s) (spaces s).

Inductive cap_step {NA : NsAbi} (hs : gmap Z Handle) (sp : list Namespace) : caps → Prop :=
  | cap_skip : cap_step hs sp (mk_caps hs sp)
  | cap_close id : cap_step hs sp (mk_caps (delete id hs) sp)
  | cap_list id a new :
     hs !! id = Some (Access a) → has_permission a NS_LIST = true → hs !! new = None →
     cap_step hs sp (mk_caps (<[new := List a]> hs) sp)
  | cap_shrink id a p new :
     hs !! id = Some (Access a) → hs !! new = None →
     cap_step hs sp (mk_caps (<[new := Access (mk_access (namespace a) (Z.land (permission a) p))]> hs) sp)
  | cap_fork id a ns ns' new :
     hs !! id = Some (Access a) → sp !! namespace a = Some ns → ns' ⊆ ns → hs !! new = None →
     cap_step hs sp (mk_caps
       (<[new := Access (mk_access (length sp) (Z.ldiff NS_ALL SCHEME_CREATE))]> hs) (sp ++ [ns']))
  | cap_issue id a name new :
     hs !! id = Some (Access a) → has_permission a NS_INSERT = true → hs !! new = None →
     cap_step hs sp (mk_caps (<[new := Register (namespace a) name]> hs) sp)
  | cap_register id l name ns fd :
     hs !! id = Some (Register l name) → sp !! l = Some ns → ns !! name = None →
     cap_step hs sp (mk_caps hs (<[l := <[name := fd]> ns]> sp))
  | cap_delete id a ns name :
     hs !! id = Some (Access a) → has_permission a NS_DELETE = true →
     sp !! namespace a = Some ns → is_Some (ns !! name) →
     cap_step hs sp (mk_caps hs (<[namespace a := delete name ns]> sp)).

Definition cap_steps {NA : NsAbi} : caps → caps → Prop :=
  rtc (λ c c', cap_step (c_handles c) (c_spaces c) c').

(** The namespace that a handle refers to *)
Definition place (h : Handle) : nat :=
  match h with Access a | List a => namespace a | Register l _ => l end.

(** Ids that were given out are below the next one, and no handle dangles *)
Record ns_wf (s : NamespaceScheme) : Prop := {
  wf_ids : ∀ id h, handles s !! id = Some h → id < next_id s;
  wf_places : ∀ id h, handles s !! id = Some h → (place h < length (spaces s))%nat;
}.

Lemma has_flag_land p q m : has_flag (Z.land p q) m = true → has_flag p m = true.
Proof.
  unfold has_flag. rewrite !bool_decide_eq_true. intros E. apply Z.bits_inj'. intros n Hn.
  assert (E' := f_equal (λ x, Z.testbit x n) E). cbn in E'. rewrite !Z.land_spec in E'.
  rewrite Z.land_spec. by destruct (Z.testbit p n), (Z.testbit q n), (Z.testbit m n).
Qed.

(** A namespace that no handle may insert into or delete from *)
Definition may_change {NA : NsAbi} (l : nat) (h : Handle) : Prop :=
  match h with
  | Access a => namespace a = l ∧ (has_permission a NS_INSERT = true ∨ has_permission a NS_DELETE = true)
  | Register l' _ => l' = l
  | List _ => False
  end.

(** ** Lemmas *)

Lemma fork_name_sub self name schemes : schemes ⊆ self → fork_name self name schemes ⊆ self.
Proof.
  intros Hs. unfold fork_name. destruct (strip_star name) as [prefix|].
  - apply map_union_least; [|done]. apply map_filter_subseteq.
  - destruct (self !! name) as [fd|] eqn:E; [|done]. by apply insert_subseteq_l.
Qed.

Lemma fork_loop_sub fuel self : ∀ buf schemes ns,
  schemes ⊆ self → fork_loop fuel self buf schemes = Ok ns → ns ⊆ self.
Proof.
  induction fuel as [|fuel IH]; intros [|b buf] schemes ns Hs; cbn [fork_loop]; intros H;
    simplify_eq; [done|done|].
  repeat case_match; simplify_eq. eapply IH; [|done]. by apply fork_name_sub.
Qed.

Lemma fork_sub self buf ns : fork self buf = Ok ns → ns ⊆ self.
Proof. apply fork_loop_sub, map_empty_subseteq. Qed.

Section Lemmas.
Context {SA : SyscallAbi} {NA : NsAbi}.
Variable kernel : list sys_call → sys_call → errno + Z.
Implicit Types s : NamespaceScheme.

(** What every operation guarantees: one step of the capability machine, and unless it
    panicked a well-formed state *)
Definition guarded {A} s (r : outcome A) s' : Prop :=
  cap_step (handles s) (spaces s) (view s') ∧ (r ≠ Panic → ns_wf s').

Lemma guarded_same {A} s s' (r : outcome A) :
  ns_wf s → handles s' = handles s → spaces s' = spaces s → next_id s' = next_id s → guarded s r s'.
Proof.
  intros Hwf Eh Es En. split.
  - unfold view. rewrite Eh, Es. constructor.
  - intros _. split; rewrite Eh, ?Es, ?En; apply Hwf.
Qed.

Lemma fresh_id s : ns_wf s → handles s !! next_id s = None.
Proof.
  intros Hwf. destruct (handles s !! next_id s) eqn:E; [|done].
  apply (wf_ids s Hwf) in E. lia.
Qed.

Lemma wf_add s h n sp :
  ns_wf s → (length (spaces s) ≤ length sp)%nat → (place h < length sp)%nat →
  next_id s < n →
  ns_wf (mk_ns (<[next_id s := h]> (handles s)) (root_namespace s) sp n (scheme_creation_cap s) (calls s)).
Proof.
  intros Hwf Hsp Hp Hn. split; cbn; intros id h' [[<- <-]|[? H]]%lookup_insert_Some; try done.
  - apply (wf_ids s Hwf) in H. lia.
  - apply (wf_places s Hwf) in H. lia.
Qed.

Lemma wf_space s l ns :
  ns_wf s → ns_wf (set_spaces <[l := ns]> s).
Proof.
  intros Hwf. split; cbn; [apply Hwf|]. intros. rewrite length_insert. by eapply wf_places.
Qed.

Lemma access_space s id h : ns_wf s → handles s !! id = Some h → is_Some (spaces s !! place h).
Proof. intros Hwf Hh. by apply lookup_lt_is_Some_2, (wf_places s Hwf id). Qed.

Lemma bump_id_eq s :
  bump_id s = if bool_decide (next_id s + 1 ≤ usize_max) then (Ok tt, set_next_id (next_id s + 1) s)
              else (Panic, s).
Proof. unfold bump_id, add_usize, checked_add_usize. rewrite bind_get. by case_bool_decide. Qed.

Lemma get_ns_access_Some id s a : get_ns_access id s = Some a ↔ handles s !! id = Some (Access a).
Proof. unfold get_ns_access. repeat case_match; naive_solver. Qed.

Lemma insert_next_guarded s h :
  ns_wf s → cap_step (handles s) (spaces s) (mk_caps (<[next_id s := h]> (handles s)) (spaces s)) →
  (place h < length (spaces s))%nat → wp (insert_next h) (guarded s) s.
Proof.
  intros Hwf Hc Hp. unfold insert_next. wp_go. unfold wp. rewrite bump_id_eq. cbn.
  case_bool_decide; cbn; (split; [exact Hc|]); [|done]. intros _.
  refine (wf_add s h _ (spaces s) Hwf _ _ _); cbn; try done; lia.
Qed.

Lemma fork_namespace_guarded s id a names :
  ns_wf s → handles s !! id = Some (Access a) →
  wp (fork_namespace (namespace a) names) (guarded s) s.
Proof.
  intros Hwf Ha. unfold fork_namespace, space, add_namespace.
  destruct (access_space s id _ Hwf Ha) as [ns Hns]. cbn in Hns. repeat wp_step.
  all: try congruence. assert (n = ns) as -> by congruence.
  destruct (fork ns names) as [ns'|e|] eqn:Ef; [|by apply guarded_same..].
  apply fork_sub in Ef. repeat wp_step. unfold wp. rewrite bump_id_eq. cbn.
  pose proof (cap_fork _ _ id a ns ns' _ Ha Heqo Ef (fresh_id s Hwf)) as Hc.
  case_bool_decide; cbn; (split; [exact Hc|]); [|done]. intros _.
  refine (wf_add s (Access _) _ (spaces s ++ [ns']) Hwf _ _ _); cbn; rewrite ?length_app; cbn; lia.
Qed.

Lemma wp_sys c Q s :
  (∀ r, Q (Ok r) (log_call c s)) → (∀ e, Q (Err e) (log_call c s)) → wp (sys kernel c) Q s.
Proof. unfold wp, sys. intros Ho He. destruct (kernel (calls s) c); [apply He|apply Ho]. Qed.

Lemma wp_bump_id Q s : Q (Ok tt) (set_next_id (next_id s + 1) s) → Q Panic s → wp bump_id Q s.
Proof. unfold wp. intros Ho Hp. rewrite bump_id_eq. case_bool_decide; [exact Ho|exact Hp]. Qed.

Ltac refuse := first [by apply guarded_same | done].
Ltac ns_go := repeat (first [wp_step | apply wp_sys; intros; cbv beta iota | apply wp_bump_id; cbv beta iota]; try refuse).

Lemma openat_guarded s fd path fl fc uid gid :
  ns_wf s → wp (openat kernel fd path fl fc uid gid) (guarded s) s.
Proof.
  intros Hwf. unfold openat, open_namespace_resource, open_scheme_resource, space. ns_go.
  apply get_ns_access_Some in Heqo.
  split; [by eapply cap_list; [| |apply (fresh_id s)]|]. intros _.
  refine (wf_add s (List n) _ (spaces s) Hwf _ _ _); cbn; [lia| |lia].
  by apply (wf_places s Hwf _ _ Heqo).
Qed.

Lemma guarded_ret {A B} s (m : comp NamespaceScheme A) (f : A → B) :
  wp m (guarded s) s →
  wp m (λ r s', match r with
                | Ok a => wp (mret (f a)) (guarded s) s'
                | Err e => guarded (A := B) s (Err e) s'
                | Panic => guarded (A := B) s Panic s'
                end) s.
Proof.
  intros H. eapply wp_mono; [exact H|].
  intros [a|e|] s' [Hc Hr]; (split; [exact Hc|]); cbn; try done; intros _; by apply Hr.
Qed.

Lemma dup_guarded s id buf : ns_wf s → wp (dup id buf) (guarded s) s.
Proof.
  intros Hwf. unfold dup, shrink_permissions. ns_go; apply get_ns_access_Some in Heqo.
  destruct (read_num buf) as [raw|e|]; [|refuse..]. ns_go.
  - apply guarded_ret. by eapply fork_namespace_guarded.
  - destruct (read_num (drop _ buf)) as [p|e|]; [|refuse..]. apply guarded_ret.
    apply insert_next_guarded; [done| |].
    + by eapply cap_shrink; [|apply fresh_id].
    + by apply (wf_places s Hwf _ _ Heqo).
  - apply guarded_ret, insert_next_guarded; [done| |].
    + by eapply cap_issue; [| |apply fresh_id].
    + by apply (wf_places s Hwf _ _ Heqo).
Qed.

(** [unlinkat] and [on_sendfd] change one namespace *)
Lemma unlinkat_guarded s fd path fl uid gid :
  ns_wf s → wp (unlinkat kernel fd path fl uid gid) (guarded s) s.
Proof.
  intros Hwf. unfold unlinkat, space. ns_go. apply get_ns_access_Some in Heqo.
  split; [|by intros _; apply wf_space]. by eapply cap_delete.
Qed.

Lemma on_sendfd_guarded s id num : ns_wf s → wp (on_sendfd kernel id num) (guarded s) s.
Proof.
  intros Hwf. unfold on_sendfd, register, space. ns_go.
  split; [by eapply cap_register|]. intros _. apply (wf_space (log_call _ s)). by split; apply Hwf.
Qed.

Lemma on_close_guarded s id : ns_wf s → wp (on_close id) (guarded s) s.
Proof.
  intros Hwf. unfold on_close. wp_go. split; [constructor|]. intros _.
  split; cbn; intros id' h [_ H]%lookup_delete_Some; [by eapply wf_ids|by eapply wf_places].
Qed.

Lemma guarded_attempt {A} s (m : comp NamespaceScheme A) :
  wp m (guarded s) s → wp (attempt m;; mret tt) (guarded s) s.
Proof.
  unfold wp, attempt, mbind, comp_bind. destruct (m s) as [[a|e|] s']; cbn;
    intros [Hc Hr]; (split; [exact Hc|]); try done; intros _; by apply Hr.
Qed.

Lemma serve_guarded s q : ns_wf s → wp (serve kernel q) (guarded s) s.
Proof.
  intros Hwf. destruct q; cbn [serve]; try apply guarded_attempt.
  - by apply openat_guarded.
  - by apply dup_guarded.
  - by apply unlinkat_guarded.
  - by apply on_sendfd_guarded.
  - by apply on_close_guarded.
Qed.

Lemma run_guarded qs : ∀ s r s',
  ns_wf s → run kernel qs s = (r, s') → cap_steps (view s) (view s') ∧ (r ≠ Panic → ns_wf s').
Proof.
  induction qs as [|q qs IH]; intros s r s' Hwf E; cbn [run] in E.
  - cbv in E. injection E as <- <-. split; [constructor|done].
  - pose proof (serve_guarded s q Hwf) as [Hc Hw]. unfold mbind, comp_bind in E.
    destruct (serve kernel q s) as [[[]|e|] s1]; cbn in Hc, Hw.
    + destruct (IH s1 r s') as [Hcs Hw']; [by apply Hw|done|]. split; [|done].
      eapply rtc_l; [exact Hc|exact Hcs].
    + injection E as <- <-. split; [by apply rtc_once|done].
    + injection E as <- <-. split; [by apply rtc_once|done].
Qed.

Lemma run_start_eq schemes cap :
  run_start schemes cap =
    (Ok tt, mk_ns {[0 := Access (mk_access 0 NS_ALL)]} schemes [schemes] 1 cap []).
Proof. done. Qed.

Lemma run_start_wf schemes cap : ns_wf (run_start schemes cap).2.
Proof.
  rewrite run_start_eq. split; cbn; intros id h [<- <-]%lookup_singleton_Some; cbn; lia.
Qed.


(** *** Sealed namespaces *)

Definition sealed (l : nat) (c : caps) : Prop :=
  (l < length (c_spaces c))%nat ∧ ∀ id h, c_handles c !! id = Some h → ¬ may_change l h.

Lemma sealed_insert l hs sp sp' new h :
  sealed l (mk_caps hs sp) → (length sp ≤ length sp')%nat → ¬ may_change l h →
  sealed l (mk_caps (<[new := h]> hs) sp').
Proof.
  intros [Hl Hs] Hsp Hh. split; cbn in *; [lia|].
  intros id h' [[<- <-]|[_ H]]%lookup_insert_Some; [done|]. by eapply Hs.
Qed.

Lemma sealed_step l c c' :
  sealed l c → cap_step (c_handles c) (c_spaces c) c' →
  sealed l c' ∧ c_spaces c' !! l = c_spaces c !! l.
Proof.
  destruct c as [hs sp]. intros Hs Hc. destruct (Hs) as [Hl Hno]. cbn in *.
  destruct Hc as [|id|id a new Ha|id a p new Ha|id a ns ns' new Ha|id a name new Ha Hp|
    id l' name ns fd Hr|id a ns name Ha Hp]; cbn.
  - done.
  - split; [|done]. split; cbn; [done|]. intros id' h [_ H]%lookup_delete_Some. by eapply Hno.
  - split; [|done]. apply sealed_insert with sp; [done..|]. by intros [].
  - split; [|done]. apply sealed_insert with sp; [done..|]. intros [Hn Hp]. cbn in Hn, Hp.
    apply (Hno _ _ Ha). split; [done|]. unfold has_permission in *. cbn in Hp.
    destruct Hp as [Hp%has_flag_land|Hp%has_flag_land]; auto.
  - split; [|by apply lookup_app_l]. apply sealed_insert with sp; [done|len_lia|]. cbn. lia.
  - split; [|done]. apply sealed_insert with sp; [done..|]. cbn. intros <-.
    apply (Hno _ _ Ha). cbn. auto.
  - split.
    + split; cbn; [by rewrite length_insert|done].
    + apply list_lookup_insert_ne. by apply (Hno _ _ Hr).
  - split.
    + split; cbn; [by rewrite length_insert|done].
    + apply list_lookup_insert_ne. intros E. apply (Hno _ _ Ha). cbn. auto.
Qed.

(** A sealed namespace is immutable: once no handle may insert into it or delete from
    it and no right to register a name in it is left, no sequence of requests by any
    process changes which schemes it contains. *)
Theorem ns_sealed l s qs r s' :
  ns_wf s → (l < length (spaces s))%nat →
  (∀ id h, handles s !! id = Some h → ¬ may_change l h) →
  run kernel qs s = (r, s') → spaces s' !! l = spaces s !! l.
Proof.
  intros Hwf Hl Hno E. apply run_guarded in E as [Hc _]; [|done].
  assert (Hs : sealed l (view s)) by done. revert Hs. cut (
    sealed l (view s) → c_spaces (view s') !! l = c_spaces (view s) !! l); [done|].
  induction Hc as [|c1 c2 c3 H1 _ IH]; [done|]. intros Hs.
  destruct (sealed_step l c1 c2 Hs H1) as [Hs2 <-]. by apply IH.
Qed.

(** *** The right to create schemes *)

Definition create_confined (hs : gmap Z Handle) : Prop :=
  ∀ id a, hs !! id = Some (Access a) → has_permission a SCHEME_CREATE = true → namespace a = 0%nat.

Lemma create_insert hs new h :
  create_confined hs →
  (∀ a, h = Access a → has_permission a SCHEME_CREATE = true → namespace a = 0%nat) →
  create_confined (<[new := h]> hs).
Proof. intros Hc Hh id a [[_ H]|[_ H]]%lookup_insert_Some; [by apply Hh|by eapply Hc]. Qed.

Lemma create_step {NL : NsAbiLaws NA} hs sp c :
  create_confined hs → cap_step hs sp c → create_confined (c_handles c).
Proof.
  intros Hc Hs. destruct Hs as [|id|id a new Ha|id a p new Ha|id a ns ns' new Ha|id a name new Ha Hp|
    id l' name ns fd Hr|id a ns name Ha Hp]; cbn; try done.
  - intros id' a [_ H]%lookup_delete_Some. by eapply Hc.
  - by apply create_insert.
  - apply create_insert; [done|]. intros a' [= <-] Hp. cbn in *. eapply Hc; [exact Ha|].
    unfold has_permission in *. cbn in Hp. by apply has_flag_land in Hp.
  - apply create_insert; [done|]. intros a' [= <-] Hp. exfalso. revert Hp.
    unfold has_permission, has_flag. cbn. rewrite bool_decide_eq_true, Z.land_ldiff.
    intros E. by apply create_nonzero.
  - by apply create_insert.
Qed.

(** Only the root namespace can create schemes: however handles were forked, shrunk
    and passed around, a handle on any other namespace is refused the capability to create
    schemes, without a system call. *)
Theorem ns_creation_cap_root_only {NL : NsAbiLaws NA} schemes cap qs r s id a path rp fl fc uid gid :
  run kernel qs (run_start schemes cap).2 = (r, s) →
  handles s !! id = Some (Access a) → namespace a ≠ 0%nat →
  from_absolute path = Some rp → as_parts rp = Some ("namespace", "scheme-creation-cap")%string →
  openat kernel id path fl fc uid gid s = (Err EACCES, s).
Proof.
  intros E Ha Hn Hp Hparts.
  apply (run_guarded qs _ r s (run_start_wf schemes cap)) in E as [Hc _].
  assert (Hcc : create_confined (c_handles (view s))).
  { assert (create_confined (c_handles (view (run_start schemes cap).2))) as H0.
    { rewrite run_start_eq. unfold create_confined. cbn. by intros ? ? [_ [= <-]]%lookup_singleton_Some. }
    revert H0. induction Hc as [|c1 c2 c3 H1 _ IH]; [done|]. intros H0. apply IH. by eapply create_step. }
  unfold openat. rewrite bind_get. unfold get_ns_access. rewrite Ha. cbn [ok_or]. rewrite bind_ret.
  rewrite Hp. cbn [ok_or]. rewrite bind_ret, Hparts. cbn [ok_or]. rewrite bind_ret. cbn.
  destruct (has_permission a SCHEME_CREATE) eqn:Hper; [exfalso; by apply Hn, (Hcc id)|].
  unfold open_namespace_resource. rewrite bool_decide_eq_true_2 by done. by rewrite Hper.
Qed.

(** *** Forking *)

(** The list of names in a [ForkNs] request *)
Definition encode_names (names : list string) : bytes :=
  concat ((λ n, le_bytes 8 (Z.of_nat (length (str_bytes n))) ++ str_bytes n) <$> names).

Definition matches (pattern n : string) : bool :=
  match strip_star pattern with
  | Some prefix => String.prefix prefix n
  | None => bool_decide (pattern = n)
  end.

Definition name_ok (n : string) : Prop :=
  utf8_valid (str_bytes n) = true ∧ Z.of_nat (length (str_bytes n)) ≤ usize_max.
End Lemmas.

Lemma fork_name_lookup self pattern schemes n :
  schemes ⊆ self →
  fork_name self pattern schemes !! n = if matches pattern n then self !! n else schemes !! n.
Proof.
  intros Hs. unfold fork_name, matches. destruct (strip_star pattern) as [prefix|].
  - destruct (String.prefix prefix n) eqn:Hp.
    + destruct (self !! n) as [fd|] eqn:En.
      * apply lookup_union_Some_l, map_lookup_filter_Some. done.
      * apply lookup_union_None. split; [apply map_lookup_filter_None; by left|].
        by apply (lookup_weaken_None _ self).
    + apply lookup_union_r, map_lookup_filter_None. right. cbn. intros ? _. by rewrite Hp.
  - case_bool_decide as Hn; [subst n|].
    + destruct (self !! pattern) as [fd|] eqn:En; [apply lookup_insert_eq|].
      by apply (lookup_weaken_None _ self).
    + destruct (self !! pattern); [by apply lookup_insert_ne|done].
Qed.

Lemma read_num_app n x rest :
  length x = 8%nat → le_val x = n → read_num (x ++ rest) = Ok n.
Proof.
  intros Hx Hn. unfold read_num. rewrite bool_decide_eq_true_2 by len_lia.
  by rewrite take_app_length' , Hn.
Qed.

Lemma fork_loop_name fuel self n rest schemes :
  name_ok n →
  fork_loop (S fuel) self (le_bytes 8 (Z.of_nat (length (str_bytes n))) ++ str_bytes n ++ rest) schemes =
    fork_loop fuel self rest (fork_name self n schemes).
Proof.
  intros [Hu Hl]. set (head := le_bytes 8 _).
  assert (Hh : length head = 8%nat) by apply length_le_bytes.
  assert (Hr : read_num (head ++ str_bytes n ++ rest) = Ok (Z.of_nat (length (str_bytes n)))).
  { apply read_num_app; [done|]. apply le_val_bytes. cbn. unfold usize_max in Hl. lia. }
  destruct (head ++ str_bytes n ++ rest) as [|b l] eqn:Eb; [by destruct head|].
  cbn [fork_loop]. rewrite Hr, <- Eb. cbv zeta. rewrite drop_app_length' by done.
  rewrite bool_decide_eq_true_2 by len_lia. rewrite Nat2Z.id, take_app_length, drop_app_length.
  by rewrite from_utf8_str_bytes.
Qed.

Lemma fork_loop_names self names : ∀ fuel schemes,
  Forall name_ok names → (length (encode_names names) ≤ fuel)%nat →
  fork_loop fuel self (encode_names names) schemes =
    Ok (foldl (λ acc n, fork_name self n acc) schemes names).
Proof.
  induction names as [|n names IH]; intros fuel schemes Hok Hf; [by destruct fuel|].
  apply Forall_cons in Hok as [Hn Hok]. unfold encode_names in *. cbn [fmap list_fmap concat] in *.
  rewrite <- app_assoc in *. cbn [foldl].
  destruct fuel as [|fuel]; [rewrite length_app, length_le_bytes in Hf; lia|].
  rewrite fork_loop_name by done. apply IH; [done|].
  rewrite !length_app, length_le_bytes in Hf. fold (encode_names names) in *. lia.
Qed.

Lemma fork_lookup self names n : ∀ schemes,
  schemes ⊆ self →
  foldl (λ acc p, fork_name self p acc) schemes names !! n =
    if existsb (λ p, matches p n) names then self !! n else schemes !! n.
Proof.
  induction names as [|p names IH]; intros schemes Hs; cbn; [done|].
  rewrite IH by by apply fork_name_sub. rewrite fork_name_lookup by done.
  by destruct (matches p n), (existsb _ names).
Qed.

Section Theorems.
Context {SA : SyscallAbi} {NA : NsAbi} {NL : NsAbiLaws NA}.
Variable kernel : list sys_call → sys_call → errno + Z.
Implicit Types s : NamespaceScheme.

Lemma fork_namespace_eq s l ns ns' names :
  spaces s !! l = Some ns → fork ns names = Ok ns' → next_id s < usize_max →
  fork_namespace l names s =
    (Ok (next_id s),
     set_next_id (next_id s + 1)
       (set_handles <[next_id s := Access (mk_access (length (spaces s)) (Z.ldiff NS_ALL SCHEME_CREATE))]>
         (set_spaces (λ sp, sp ++ [ns']) s))).
Proof.
  intros Hns Hf Hid. unfold fork_namespace, space, add_namespace.
  rewrite bind_get. rewrite (bind_ok _ _ _ ns s) by by rewrite bind_get, Hns.
  rewrite (bind_ok _ _ _ ns' s) by by rewrite Hf.
  erewrite bind_ok by reflexivity. erewrite bind_ok; [done|].
  rewrite bump_id_eq. cbn. by rewrite bool_decide_eq_true_2 by lia.
Qed.

Lemma ns_read_num_le x rest : is_usize x → read_num (le_bytes 8 x ++ rest) = Ok x.
Proof.
  intros Hx. apply read_num_app; [apply length_le_bytes|]. apply le_val_bytes. cbn. ints.
Qed.

Lemma dup_fork_eq s id a raw payload :
  handles s !! id = Some (Access a) → ns_dup_size = 8%nat → is_usize raw →
  ns_dup_of_raw raw = Some ForkNs →
  dup id (le_bytes 8 raw ++ payload) s =
    (new_id ← fork_namespace (namespace a) payload; mret (ThisScheme new_id)) s.
Proof.
  intros Ha Hsz Hraw Hk. unfold dup. rewrite bind_get. unfold get_ns_access.
  rewrite Ha. cbn [ok_or]. rewrite bind_ret, ns_read_num_le by done.
  rewrite (bind_ok _ _ _ raw s) by done. rewrite Hk. cbn [ok_or]. rewrite bind_ret.
  rewrite bool_decide_eq_true_2 by (rewrite length_app, length_le_bytes; lia). rewrite bind_ret.
  by rewrite Hsz, drop_app_length' by by rewrite length_le_bytes.
Qed.

(** Forking: a request that lists names gets a new handle on a new namespace, which
    contains exactly the schemes of the old one that some listed name or prefix pattern
    matches, with the same descriptors, and which gives every permission but the creation
    of schemes; no other handle or namespace changes. *)
Theorem ns_fork_selects s id a ns raw names :
  ns_wf s → handles s !! id = Some (Access a) → spaces s !! namespace a = Some ns →
  ns_dup_size = 8%nat → is_usize raw → ns_dup_of_raw raw = Some ForkNs →
  Forall name_ok names → next_id s < usize_max →
  ∃ ns' s', dup id (le_bytes 8 raw ++ encode_names names) s = (Ok (ThisScheme (next_id s)), s') ∧
    handles s' = <[next_id s := Access (mk_access (length (spaces s)) (Z.ldiff NS_ALL SCHEME_CREATE))]> (handles s) ∧
    spaces s' = spaces s ++ [ns'] ∧
    ∀ n, ns' !! n = if existsb (λ p, matches p n) names then ns !! n else None.
Proof.
  intros Hwf Ha Hns Hsz Hraw Hk Hok Hid. rewrite (dup_fork_eq s id a) by done.
  assert (Hf : fork ns (encode_names names) = Ok (foldl (λ acc n, fork_name ns n acc) ∅ names)).
  { by apply fork_loop_names. }
  eexists _, _. split.
  { rewrite (bind_ok _ _ _ _ _ (fork_namespace_eq s _ ns _ _ Hns Hf Hid)). reflexivity. }
  split; [done|]. split; [done|]. intros n. rewrite fork_lookup by apply map_empty_subseteq. done.
Qed.

(** A name in a fork request whose length runs past the end of the request makes the
    manager panic, whoever holds the handle: the code slices the request without checking
    the length. *)
Theorem ns_fork_overlong_panics s id a ns raw len rest :
  handles s !! id = Some (Access a) → spaces s !! namespace a = Some ns →
  ns_dup_size = 8%nat → is_usize raw → ns_dup_of_raw raw = Some ForkNs →
  is_usize len → Z.of_nat (length rest) < len →
  (dup id (le_bytes 8 raw ++ le_bytes 8 len ++ rest) s).1 = Panic.
Proof.
  intros Ha Hns Hsz Hraw Hk Hlen Hlong. rewrite (dup_fork_eq s id a) by done.
  assert (Hf : fork ns (le_bytes 8 len ++ rest) = Panic).
  { unfold fork. rewrite length_app, length_le_bytes. cbn [Nat.add fork_loop].
    destruct (le_bytes 8 len ++ rest) as [|b l] eqn:Eb; [done|]. rewrite <- Eb.
    rewrite ns_read_num_le by done. rewrite drop_app_length' by by rewrite length_le_bytes. by rewrite bool_decide_eq_false_2 by lia. }
  unfold fork_namespace, space, mbind, comp_bind, get, lift. rewrite Hns.
  cbn [expect]. unfold mret, comp_ret. by rewrite Hf.
Qed.

(** *** Registration *)

Lemma on_sendfd_eq s id l name ns fd :
  handles s !! id = Some (Register l name) → spaces s !! l = Some ns →
  kernel (calls s) SysObtainFd = inr fd →
  on_sendfd kernel id 1 s =
    match ns !! name with
    | Some _ => (Err EEXIST, log_call SysObtainFd s)
    | None => (Ok 1, set_spaces <[l := <[name := fd]> ns]> (log_call SysObtainFd s))
    end.
Proof.
  intros Hh Hns Hfd. unfold on_sendfd. rewrite bind_get, Hh. cbn [ok_or]. rewrite bind_ret.
  rewrite !bool_decide_eq_false_2 by lia.
  rewrite (bind_ok _ _ _ fd (log_call SysObtainFd s)) by (unfold sys; by rewrite Hfd).
  unfold register, space, mbind, comp_bind, get. cbn [spaces log_call]. rewrite Hns. cbn.
  by destruct (ns !! name).
Qed.

Lemma openat_scheme s id a ns path rp scheme reference fd fl fc uid gid :
  handles s !! id = Some (Access a) → spaces s !! namespace a = Some ns → ns !! scheme = Some fd →
  from_absolute path = Some rp → as_parts rp = Some (scheme, reference) →
  scheme ≠ "namespace"%string → scheme ≠ EmptyString →
  openat kernel id path fl fc uid gid s =
    (res ← sys kernel (SysOpenat fd reference fl fc uid gid); mret (OtherScheme res)) s.
Proof.
  intros Ha Hns Hfd Hp Hparts H1 H2. unfold openat. rewrite bind_get. unfold get_ns_access.
  rewrite Ha. cbn [ok_or]. rewrite bind_ret, Hp. cbn [ok_or]. rewrite bind_ret, Hparts.
  cbn [ok_or]. rewrite bind_ret. rewrite !bool_decide_eq_false_2 by done.
  unfold space, open_scheme_resource, mbind, comp_bind, get. rewrite Hns. cbn. by rewrite Hfd.
Qed.

(** Registration: a register handle puts the received descriptor into its namespace
    exactly when the name is free there and is refused with EEXIST otherwise; afterwards
    every handle on that namespace, also the ones handed out earlier, opens paths of the
    scheme on that descriptor with the caller's identity, and no other namespace changes. *)
Theorem ns_register_resolves s id l name ns fd :
  handles s !! id = Some (Register l name) → spaces s !! l = Some ns →
  kernel (calls s) SysObtainFd = inr fd →
  name ≠ "namespace"%string → name ≠ EmptyString →
  match ns !! name with
  | Some _ => on_sendfd kernel id 1 s = (Err EEXIST, log_call SysObtainFd s)
  | None =>
     ∃ s', on_sendfd kernel id 1 s = (Ok 1, s') ∧ handles s' = handles s ∧
       (∀ l', l' ≠ l → spaces s' !! l' = spaces s !! l') ∧
       ∀ id2 a path rp reference fl fc uid gid,
         handles s !! id2 = Some (Access a) → namespace a = l →
         from_absolute path = Some rp → as_parts rp = Some (name, reference) →
         openat kernel id2 path fl fc uid gid s' =
           (res ← sys kernel (SysOpenat fd reference fl fc uid gid); mret (OtherScheme res)) s'
  end.
Proof.
  intros Hh Hns Hfd Hn1 Hn2. pose proof (on_sendfd_eq s id l name ns fd Hh Hns Hfd) as E.
  destruct (ns !! name) as [old|] eqn:En; [done|]. eexists. split; [exact E|]. split; [done|]. split.
  - intros l' Hl'. cbn. by apply list_lookup_insert_ne.
  - intros id2 a path rp reference fl fc uid gid Ha Hl Hp Hparts.
    eapply openat_scheme; [exact Ha| | |done..].
    + cbn. rewrite Hl. apply list_lookup_insert_eq. by eapply lookup_lt_Some.
    + apply lookup_insert_eq.
Qed.

(** *** Panics *)

(** Whether a fork request panics does not depend on the namespace *)
Lemma fork_loop_panics fuel self1 self2 : ∀ buf acc1 acc2,
  fork_loop fuel self1 buf acc1 ≠ Panic → fork_loop fuel self2 buf acc2 ≠ Panic.
Proof.
  induction fuel as [|fuel IH]; intros [|b buf] acc1 acc2; cbn [fork_loop]; try done.
  destruct (read_num (b :: buf)); try done. case_bool_decide; [|done].
  destruct (from_utf8 _); [apply IH|done].
Qed.

(** Every fork request of the sequence keeps its names inside the request *)
Definition request_ok (q : request) : Prop :=
  match q with
  | QDup _ buf =>
     ∀ raw, read_num buf = Ok raw → ns_dup_of_raw raw = Some ForkNs → fork ∅ (drop ns_dup_size buf) ≠ Panic
  | _ => True
  end.

Definition quiet {A} s (r : outcome A) s' : Prop := r ≠ Panic ∧ next_id s' ≤ next_id s + 1.

Lemma quiet_same {A} s s' (r : outcome A) : r ≠ Panic → next_id s' = next_id s → quiet s r s'.
Proof. intros Hr Hn. split; [done|lia]. Qed.

Lemma wp_space s id h Q :
  ns_wf s → handles s !! id = Some h → (∀ ns, Q (Ok ns) s) → wp (space (place h)) Q s.
Proof.
  intros Hwf Hh HQ. destruct (access_space s id h Hwf Hh) as [ns Hns].
  unfold space. wp_go; [apply HQ|congruence].
Qed.

Lemma wp_bump_ok Q s :
  next_id s < usize_max → Q (Ok tt) (set_next_id (next_id s + 1) s) → wp bump_id Q s.
Proof. intros Hs HQ. unfold wp. rewrite bump_id_eq. by rewrite bool_decide_eq_true_2 by lia. Qed.

Ltac hush := first [by apply quiet_same | by split; [done|cbn; lia]].
Ltac quiet_go := repeat (first [wp_step | apply wp_sys; intros; cbv beta iota
  | apply wp_bump_ok; [done|]; cbv beta iota]; try hush).

Lemma openat_quiet s fd path fl fc uid gid :
  ns_wf s → next_id s < usize_max → wp (openat kernel fd path fl fc uid gid) (quiet s) s.
Proof.
  intros Hwf Hid. unfold openat, open_namespace_resource, open_scheme_resource. quiet_go.
  apply get_ns_access_Some in Heqo. apply (wp_space s fd (Access n) _ Hwf Heqo). intros ns.
  cbv beta iota. quiet_go.
Qed.

Lemma insert_next_quiet s h : next_id s < usize_max → wp (insert_next h) (quiet s) s.
Proof. intros Hid. unfold insert_next. quiet_go. Qed.

Lemma quiet_ret {A B} s (m : comp NamespaceScheme A) (f : A → B) :
  wp m (quiet s) s →
  wp m (λ r s', match r with
                | Ok a => wp (mret (f a)) (quiet s) s'
                | Err e => quiet (A := B) s (Err e) s'
                | Panic => quiet (A := B) s Panic s'
                end) s.
Proof.
  intros H. eapply wp_mono; [exact H|]. intros [a|e|] s' [Hr Hn]; [by split..|done].
Qed.

Lemma read_num_quiet buf : read_num buf ≠ Panic.
Proof. unfold read_num. by case_bool_decide. Qed.

Lemma fork_namespace_quiet s id a names :
  ns_wf s → next_id s < usize_max → handles s !! id = Some (Access a) → fork ∅ names ≠ Panic →
  wp (fork_namespace (namespace a) names) (quiet s) s.
Proof.
  intros Hwf Hid Ha Hf. unfold fork_namespace, add_namespace. quiet_go.
  apply (wp_space s id (Access a) _ Hwf Ha). intros ns. cbv beta iota. do 2 wp_step.
  pose proof (fork_loop_panics (length names) ∅ ns names ∅ ∅ Hf) as Hf'. fold (fork ns names) in Hf'.
  destruct (fork ns names); [|hush|done]. quiet_go.
Qed.

Lemma dup_quiet s id buf :
  ns_wf s → next_id s < usize_max → request_ok (QDup id buf) → wp (dup id buf) (quiet s) s.
Proof.
  intros Hwf Hid Hq. unfold dup, shrink_permissions. quiet_go. apply get_ns_access_Some in Heqo.
  pose proof (read_num_quiet buf) as Hr. destruct (read_num buf) as [raw|e|] eqn:Eb; [|hush|done].
  quiet_go.
  - apply quiet_ret. apply (fork_namespace_quiet s id); [done..|]. by apply (Hq raw).
  - pose proof (read_num_quiet (drop ns_dup_size buf)). destruct (read_num (drop _ buf)); [|hush|done].
    by apply quiet_ret, insert_next_quiet.
  - by apply quiet_ret, insert_next_quiet.
  - exfalso. apply bool_decide_eq_false in Heqb. apply Heqb. unfold read_num in Eb.
    case_bool_decide; [|done]. pose proof ns_dup_size_le. lia.
Qed.

Lemma unlinkat_quiet s fd path fl uid gid :
  ns_wf s → next_id s < usize_max → wp (unlinkat kernel fd path fl uid gid) (quiet s) s.
Proof.
  intros Hwf Hid. unfold unlinkat. quiet_go. apply get_ns_access_Some in Heqo.
  apply (wp_space s fd (Access n) _ Hwf Heqo). intros ns. cbv beta iota. quiet_go.
Qed.

Lemma on_sendfd_quiet s id num :
  ns_wf s → next_id s < usize_max → wp (on_sendfd kernel id num) (quiet s) s.
Proof.
  intros Hwf Hid. unfold on_sendfd, register. quiet_go.
  apply (wp_space (log_call _ s) id (Register target_namespace scheme_name));
    [by split; apply Hwf|done|]. intros ns. cbv beta iota. quiet_go.
Qed.

Lemma quiet_attempt {A} s (m : comp NamespaceScheme A) :
  wp m (quiet s) s → wp (attempt m;; mret tt) (λ r s', r = Ok tt ∧ next_id s' ≤ next_id s + 1) s.
Proof.
  unfold wp, attempt, mbind, comp_bind. by destruct (m s) as [[a|e|] s']; intros [Hr Hn]; cbn in *.
Qed.

Lemma serve_quiet s q :
  ns_wf s → next_id s < usize_max → request_ok q →
  wp (serve kernel q) (λ r s', r = Ok tt ∧ next_id s' ≤ next_id s + 1) s.
Proof.
  intros Hwf Hid Hq. destruct q; cbn [serve]; try apply quiet_attempt.
  - by apply openat_quiet.
  - by apply dup_quiet.
  - by apply unlinkat_quiet.
  - by apply on_sendfd_quiet.
  - split; [done|]. cbn. lia.
Qed.

Lemma run_quiet qs : ∀ s,
  ns_wf s → Forall request_ok qs → next_id s + Z.of_nat (length qs) ≤ usize_max →
  (run kernel qs s).1 = Ok tt.
Proof.
  induction qs as [|q qs IH]; intros s Hwf Hqs Hn; [done|]. apply Forall_cons in Hqs as [Hq Hqs].
  cbn [run]. rewrite length_cons in Hn.
  destruct (serve_quiet s q Hwf) as [E Hn']; [lia|done|].
  pose proof (serve_guarded kernel s q Hwf) as [_ Hw].
  destruct (serve kernel q s) as [r s1] eqn:Es. cbn in E, Hn', Hw. subst r.
  rewrite (bind_ok _ _ _ _ _ Es). apply IH; [by apply Hw|done|lia].
Qed.

(** As long as the names of fork requests stay inside their requests, no sequence of
    requests makes the namespace manager panic, whatever the kernel answers. *)
Theorem ns_never_panics schemes cap qs :
  Forall request_ok qs → Z.of_nat (length qs) < usize_max →
  (run kernel qs (run_start schemes cap).2).1 = Ok tt.
Proof.
  intros Hqs Hn. apply run_quiet; [apply run_start_wf|done|]. rewrite run_start_eq. cbn [snd next_id]. lia.
Qed.
End Theorems.

(** ** Examples *)

Definition demo_ns : NsAbi := {|
  NS_LIST := 1; NS_INSERT := 2; NS_DELETE := 4; SCHEME_CREATE := 8; NS_ALL := 15;
  ns_dup_of_raw r :=
    if r =? 0 then Some ForkNs else if r =? 1 then Some ShrinkPermissions
    else if r =? 2 then Some IssueRegister else None;
  ns_dup_size := 8;
  RedoxPath := string;
  from_absolute := Some;
  as_parts p :=
    match split_slash (String.list_ascii_of_string p) with
    | scheme :: rest => Some (String.string_of_list_ascii scheme, String.string_of_list_ascii (concat rest))
    | [] => None
    end;
  redox_scheme_new := Some;
|}.

Lemma demo_ns_laws : NsAbiLaws demo_ns.
Proof. split; cbn; lia. Qed.

(** Every call succeeds: descriptors are numbered by the calls made so far *)
Definition demo_kernel (history : list sys_call) (c : sys_call) : errno + Z :=
  inr (100 + Z.of_nat (length history)).

Section Examples.
#[local] Existing Instance redox_abi.
#[local] Existing Instance demo_ns.
#[local] Existing Instance demo_ns_laws.

Definition demo_schemes : Namespace := {["rand" := 5; "log" := 6; "logx" := 7]}.

Definition demo_requests : list request :=
  [QDup 0 (le_bytes 8 0 ++ encode_names ["log*"]); QDup 1 (le_bytes 8 1 ++ le_bytes 8 1); QClose 1;
   QDup 0 (le_bytes 8 2 ++ str_bytes "zero")].

Definition demo_state : NamespaceScheme :=
  (run demo_kernel demo_requests (run_start demo_schemes 3).2).2.


Lemma demo_handles :
  map_to_list (handles demo_state) =
    [(3, Register 0 "zero"); (2, Access (mk_access 1 1)); (0, Access (mk_access 0 15))].
Proof. vm_compute. reflexivity. Qed.

Lemma demo_state_wf : ns_wf demo_state.
Proof.
  destruct (run_guarded demo_kernel demo_requests _ _ demo_state (run_start_wf demo_schemes 3)
    (surjective_pairing _)) as [_ H].
  apply H. vm_compute. done.
Qed.

(** The fork of ["log*"] is sealed: the only handle left on it may list *)
Lemma ns_sealed_witness :
  spaces (run demo_kernel [QUnlinkat 2 "log" 0 0 0; QDup 2 (le_bytes 8 2 ++ str_bytes "log2")]
    demo_state).2 !! 1%nat = spaces demo_state !! 1%nat.
Proof.
  eapply (ns_sealed demo_kernel 1 demo_state [QUnlinkat 2 "log" 0 0 0;
    QDup 2 (le_bytes 8 2 ++ str_bytes "log2")] _ _ demo_state_wf).
  - vm_compute. lia.
  - intros id h Hh. apply elem_of_map_to_list in Hh. rewrite demo_handles in Hh. revert Hh.
    rewrite !elem_of_cons, elem_of_nil. intros [[= -> ->]|[[= -> ->]|[[= -> ->]|[]]]]; cbn; [lia| |lia].
    by intros [_ [[=]|[=]]].
  - apply surjective_pairing.
Defined.

Lemma ns_creation_cap_root_only_witness :
  openat demo_kernel 2 "namespace/scheme-creation-cap" 0 0 0 0 demo_state = (Err EACCES, demo_state).
Proof.
  eapply (ns_creation_cap_root_only demo_kernel demo_schemes 3 demo_requests _ demo_state 2 (mk_access 1 1)).
  - apply surjective_pairing.
  - vm_compute. reflexivity.
  - done.
  - reflexivity.
  - reflexivity.
Defined.

Lemma ns_fork_selects_witness :
  ∃ ns' s', dup 0 (le_bytes 8 0 ++ encode_names ["rand"; "lo*"]) demo_state =
      (Ok (ThisScheme (next_id demo_state)), s') ∧
    handles s' = <[next_id demo_state := Access (mk_access (length (spaces demo_state))
      (Z.ldiff NS_ALL SCHEME_CREATE))]> (handles demo_state) ∧
    spaces s' = spaces demo_state ++ [ns'] ∧
    ∀ n, ns' !! n = if existsb (λ p, matches p n) ["rand"; "lo*"] then demo_schemes !! n else None.
Proof.
  apply (ns_fork_selects demo_state 0 (mk_access 0 15) demo_schemes 0 ["rand"; "lo*"]).
  - exact demo_state_wf.
  - vm_compute. reflexivity.
  - vm_compute. reflexivity.
  - reflexivity.
  - split; vm_compute; discriminate.
  - reflexivity.
  - repeat constructor; vm_compute; discriminate.
  - vm_compute. reflexivity.
Defined.

Lemma ns_fork_overlong_panics_witness :
  (dup 2 (le_bytes 8 0 ++ le_bytes 8 4 ++ str_bytes "log") demo_state).1 = Panic.
Proof.
  apply (ns_fork_overlong_panics demo_state 2 (mk_access 1 1) {["log" := 6; "logx" := 7]} 0 4);
    first [vm_compute; reflexivity | split; vm_compute; discriminate].
Defined.

Lemma ns_register_resolves_witness :
  ∃ s', on_sendfd demo_kernel 3 1 demo_state = (Ok 1, s') ∧ handles s' = handles demo_state ∧
    (∀ l', l' ≠ 0%nat → spaces s' !! l' = spaces demo_state !! l') ∧
    ∀ id2 a path rp reference fl fc uid gid,
      handles demo_state !! id2 = Some (Access a) → namespace a = 0%nat →
      from_absolute path = Some rp → as_parts rp = Some ("zero", reference)%string →
      openat demo_kernel id2 path fl fc uid gid s' =
        (res ← sys demo_kernel (SysOpenat 100 reference fl fc uid gid); mret (OtherScheme res)) s'.
Proof.
  apply (ns_register_resolves demo_kernel demo_state 3 0 "zero" demo_schemes 100);
    first [vm_compute; reflexivity | done].
Defined.

Lemma ns_never_panics_witness :
  (run demo_kernel demo_requests (run_start demo_schemes 3).2).1 = Ok tt.
Proof.
  apply ns_never_panics.
  - repeat (apply Forall_cons_2; [first [exact I | intros raw Hr Hk; vm_compute in Hr;
      injection Hr as <-; first [discriminate Hk | vm_compute; discriminate]]|]).
    apply Forall_nil_2.
  - by vm_compute.
Defined.
End Examples.
