(* ===== verification/Procmgr.v ===== *)
(** * The process manager of the bootstrap process

    [bootstrap/src/procmgr.rs]: processes with their groups, sessions and credentials,
    threads, signals, and the waiting requests of [exit] and [waitpid].  The kernel only knows
    contexts; everything that makes them processes is here.

    A process is named by its id, which is never given out twice, so that an [Rc] or [Weak]
    of a process is its id and a [Weak] can be upgraded while the id is in [processes].
    Threads live in a store, [thread_store]; the strong references are the lists [threads] of
    the processes.  No function borrows the same cell twice.  The requests that wait are
    [states], and the ones to look at again are [awoken].

    [waitpid] is a [BTreeMap] whose keys, [WaitpidKey], carry a process and its group.  Keys
    that are inserted have both, so that the order among them is that of the process ids
    ([waitpid_key_by_pid]), and the map is a [gmap] from process ids.  A search by group uses
    an order that does not fit the order of the tree ([waitpid_key_not_transitive]), for which
    the library promises nothing; what it finds is a parameter, [group_search].

    Parameters: the answers of the kernel ([kernel], which may depend on all calls before),
    the pages that it maps, the order in which a [HashMap] is iterated, the key that a [Slab]
    picks, and the protocol of [libredox] and [redox_syscall] ([ProcAbi]). *)

From S2P Require Import Prelude Abi SchemeUtils.

(** ** External code *)

Inductive ProcCall : Set :=
  | Exit | Waitpid | Waitpgid | Setpgid | Getsid | Getppid | Setsid | SetResugid | Kill | Sigq
  | SyncSigPctl | Sigdeq | Rename | DisableSetpgid | GetProcCredentials | Setrens
  | SetProcPriority | GetProcPriority.

Inductive ThreadCall : Set := SyncSigTctl | SignalThread.

Inductive ProcKillTarget : Set :=
  | KillSingleProc (pid : Z) | KillAll | KillProcGroup (grp : Z) | KillThisGroup.

(** [libredox::protocol::ProcMeta] *)
Record ProcMeta := mk_meta {
  m_pid : Z; m_pgid : Z; m_ppid : Z; m_ruid : Z; m_euid : Z; m_suid : Z;
  m_rgid : Z; m_egid : Z; m_sgid : Z; m_ens : Z; m_rns : Z
}.

Class ProcAbi := {
  proc_call_of_raw : Z → option ProcCall;
  thread_call_of_raw : Z → option ThreadCall;
  kill_target_of_raw : Z → ProcKillTarget;
  (** [WaitFlags::from_bits] *)
  wait_flags_of_bits : Z → option Z;
  WNOHANG : Z; WUNTRACED : Z; WCONTINUED : Z;
  SIGHUP : Z; SIGKILL : Z; SIGCHLD : Z; SIGCONT : Z; SIGSTOP : Z; SIGTSTP : Z; SIGTTIN : Z; SIGTTOU : Z;
  (** [syscall::sig_bit] *)
  sig_bit : Z → Z;
  (** [ContextStatus] and [ContextVerb] *)
  StDead : Z; StForceKilled : Z; StUnhandledExcp : Z;
  VerbStop : Z; VerbUnstop : Z; VerbInterrupt : Z; VerbForceKill : Z;
  (** The handlers that a process has set, in its [SigProcControl] *)
  SigActions : Type;
  signal_will_ign : SigActions → Z → bool → bool;
  signal_will_stop : SigActions → Z → bool;
  (** [SenderInfo::raw] *)
  sender_raw : Z → Z → Z;
  (** [plain::as_bytes] of a [ProcMeta] *)
  meta_bytes : ProcMeta → bytes;
  meta_size : nat;
  (** [size_of::<RtSigInfo>()] *)
  rt_sig_info_size : nat;
}.

Class ProcAbiLaws (abi : ProcAbi) : Prop := {
  chld_ne_cont : SIGCHLD ≠ SIGCONT;
  chld_ne_stop : SIGCHLD ≠ SIGSTOP;
  chld_ne_tstp : SIGCHLD ≠ SIGTSTP;
  chld_ne_ttin : SIGCHLD ≠ SIGTTIN;
  chld_ne_ttou : SIGCHLD ≠ SIGTTOU;
  chld_range : 1 ≤ SIGCHLD ≤ 32;
  cont_range : 1 ≤ SIGCONT ≤ 32;
  hup_range : 1 ≤ SIGHUP ≤ 32;
  kill_range : 1 ≤ SIGKILL ≤ 32;
}.

Inductive sys_call : Type :=
  | SysNewContext
  | SysDupStatus (fd : Z)
  | SysDupAttrs (fd : Z)
  | SysWriteAttrs (fd pid euid egid prio : Z) (debug_name : bytes)
  | SysSubscribe (fd : Z)
  | SysUnsubscribe (fd : Z)
  | SysContextVerb (status_fd verb : Z)
  | SysReadStatus (status_fd : Z)
  | SysDupSighandler (fd : Z)
  | SysReadSighandler (fd : Z)
  | SysMap (fd page : Z)
  | SysForwardDup (fd : Z) (buf : bytes)
  | SysObtainFd.

(** ** State *)

Inductive VirtualId : Set := KernelId (id : Z) | InternalId (id : Z).

#[global] Instance virtual_id_eq_dec : EqDecision VirtualId.
Proof. solve_decision. Defined.

#[global] Instance virtual_id_countable : Countable VirtualId.
Proof.
  refine (inj_countable' (λ v, match v with KernelId x => (inl x : Z + Z) | InternalId x => inr x end)
    (λ v, match v with inl x => KernelId x | inr x => InternalId x end) _).
  by intros [].
Defined.

Inductive WaitpidTarget : Set :=
  | SingleProc (pid : Z) | ProcGroup (pgid : Z) | AnyChild | AnyGroupMember.

(** A call with the number of its request, its payload and its metadata *)
Record OpCall := mk_op {
  op_tag : Z; op_fd : Z; op_payload : bytes; op_metadata : list Z;
  (** whether the payload starts at an address that [plain] accepts *)
  op_aligned : bool
}.

Inductive PendingState : Type :=
  | AwaitingStatusChange (waiter : Z) (target : WaitpidTarget) (flags : Z) (op : OpCall)
  | AwaitingThreadsTermination (pid : Z) (tag : option Z)
  | Placeholder.

(** [Option<NonZeroU8>] for the signal *)
Inductive ProcessStatus : Set :=
  | PossiblyRunnable
  | Stopped (sig : Z)
  | Exiting (signal : option Z) (status : Z)
  | Exited (signal : option Z) (status : Z).

Inductive WaitpidStatus : Set :=
  | WContinued
  | WStopped (signal : Z)
  | WTerminated (signal : option Z) (status : Z).

(** The keys of the map of reports, and their order *)
Record WaitpidKey : Set := mk_key { k_pid : option Z; k_pgid : option Z }.

Definition waitpid_key_cmp (self other : WaitpidKey) : comparison :=
  match k_pid self, k_pid other with
  | Some s_pid, Some o_pid => Z.compare s_pid o_pid
  | s_pid, o_pid =>
     match k_pgid self, k_pgid other with
     | Some s_pgid, Some o_pgid => Z.compare s_pgid o_pgid
     | s_pgid, o_pgid =>
        if s_pid is Some _ then Gt
        else if o_pid is Some _ then Lt
        else if s_pgid is Some _ then Gt
        else if o_pgid is Some _ then Lt
        else Eq
     end
  end.

(** Keys of processes are ordered by the process alone, so that the map is one from processes *)
Lemma waitpid_key_by_pid p g q h : waitpid_key_cmp (mk_key (Some p) g) (mk_key (Some q) h) = Z.compare p q.
Proof. done. Qed.

(** With keys that name only a group it is not an order: the key of a group is below one of
    two reports and above the other, which are the other way round *)
Lemma waitpid_key_not_transitive :
  ∃ a b c, waitpid_key_cmp a b = Gt ∧ waitpid_key_cmp b c = Gt ∧ waitpid_key_cmp a c = Lt.
Proof. by exists (mk_key (Some 1) (Some 5)), (mk_key None (Some 3)), (mk_key (Some 2) (Some 2)). Qed.

Inductive Handle : Set :=
  | HInit
  | HProc (pid : Z)
  | HThread (place : Z)
  | HPs (data : bytes)
  | HProcCredsCapability
  | HSchemeRoot.

Inductive OpenResult : Type := ThisScheme (number : Z) | OtherScheme (fd : Z).

(** What a response carries besides its number *)
Inductive Extra : Type :=
  | NoExtra
  | Filled (buf : bytes)
  | Stat (st_size st_mode : Z)
  | Opened (o : OpenResult).

(** A response to the request with the number [r_tag] *)
Record Response := mk_response { r_tag : Z; r_result : errno + Z; r_extra : Extra }.

(** [Poll<Response>] is an option: [None] is [Pending] *)
Definition ready_ok (n tag : Z) : option Response := Some (mk_response tag (inr n) NoExtra).
Definition ready_err (e : errno) (tag : Z) : option Response := Some (mk_response tag (inl e) NoExtra).

(** [Ready(Response::new(m.map(..), op))] *)
Definition respond {S A} (m : comp S A) (num : A → Z) (extra : A → Extra) (tag : Z) :
    comp S (option Response) :=
  r ← result m;
  mret (Some match r with
             | inr a => mk_response tag (inr (num a)) (extra a)
             | inl e => mk_response tag (inl e) NoExtra
             end).

(** [Ready(Response::new(m.map(|()| 0), op))] *)
Definition respond_unit {S} (m : comp S unit) (tag : Z) : comp S (option Response) :=
  respond m (λ _, 0) (λ _, NoExtra) tag.

Section State.
Context {PA : ProcAbi}.

(** The page that a process shares with the manager *)
Record SigProcControl := mk_pctl { pending : Z; p_sender_infos : gmap Z Z; actions : SigActions }.

Definition set_pending x c := {| c with pending := x |}.
Definition set_p_sender i x c := {| c with p_sender_infos := <[i := x]> (p_sender_infos c) |}.

(** The page that a thread shares with the manager, with [word[0]] and [word[1]] *)
Record Sigcontrol := mk_tctl { word0 : Z; word1 : Z; t_sender_infos : gmap Z Z }.

Definition word (c : Sigcontrol) (group : Z) : Z := if bool_decide (group = 0) then word0 c else word1 c.
Definition set_word (group x : Z) (c : Sigcontrol) : Sigcontrol :=
  if bool_decide (group = 0) then {| c with word0 := x |} else {| c with word1 := x |}.
Definition set_t_sender i x c := {| c with t_sender_infos := <[i := x]> (t_sender_infos c) |}.

Record Process := mk_process {
  threads : list Z;
  pid : Z;
  ppid : Z;
  pgid : Z;
  sid : Z;
  name : string;
  prio : Z;
  ruid : Z;
  euid : Z;
  suid : Z;
  rgid : Z;
  egid : Z;
  sgid : Z;
  status : ProcessStatus;
  disabled_setpgid : bool;
  awaiting_threads_term : list VirtualId;
  waitpid : gmap Z (Z * WaitpidStatus);
  waitpid_waiting : list VirtualId;
  sig_pctl : option SigProcControl;
  rtqs : list (list bytes)
}.

Definition set_threads x p := {| p with threads := x |}.
Definition set_ppid x p := {| p with ppid := x |}.
Definition put_pgid x p := {| p with pgid := x |}.
Definition set_sid x p := {| p with sid := x |}.
Definition set_name x p := {| p with name := x |}.
Definition set_prio x p := {| p with prio := x |}.
Definition set_status x p := {| p with status := x |}.
Definition set_disabled x p := {| p with disabled_setpgid := x |}.
Definition set_awaiting x p := {| p with awaiting_threads_term := x |}.
Definition set_waitpid x p := {| p with waitpid := x |}.
Definition set_waiting x p := {| p with waitpid_waiting := x |}.
Definition set_pctl x p := {| p with sig_pctl := x |}.
Definition set_rtqs x p := {| p with rtqs := x |}.

Record Thread := mk_thread { t_fd : Z; status_hndl : Z; t_pid : Z; sig_ctrl : option Sigcontrol }.

Definition set_tctl x t := {| t with sig_ctrl := x |}.

Record ProcScheme := mk_scheme {
  processes : gmap Z Process;
  groups : gmap Z (list Z);
  sessions : gset Z;
  handles : gmap Z Handle;
  thread_store : gmap Z Thread;
  next_place : Z;
  thread_lookup : gmap Z Z;
  next_internal_id : Z;
  init_claimed : bool;
  next_id : Z;
  states : gmap VirtualId PendingState;
  awoken : list VirtualId;
  calls : list sys_call
}.

Definition set_processes f s := {| s with processes := f (processes s) |}.
Definition set_groups f s := {| s with groups := f (groups s) |}.
Definition set_sessions f s := {| s with sessions := f (sessions s) |}.
Definition set_handles f s := {| s with handles := f (handles s) |}.
Definition set_store f s := {| s with thread_store := f (thread_store s) |}.
Definition set_next_place x s := {| s with next_place := x |}.
Definition set_lookup f s := {| s with thread_lookup := f (thread_lookup s) |}.
Definition set_internal x s := {| s with next_internal_id := x |}.
Definition set_claimed x s := {| s with init_claimed := x |}.
Definition set_next_id x s := {| s with next_id := x |}.
Definition set_states f s := {| s with states := f (states s) |}.
Definition set_awoken f s := {| s with awoken := f (awoken s) |}.
Definition log_sys c s := {| s with calls := calls s ++ [c] |}.

Definition NAME_CAPAC : nat := 32.
Definition INIT_PID : Z := 1.

(** [ProcScheme::new], with the handle that [run] creates before its loop *)
Definition scheme_new (root : Z) : ProcScheme :=
  mk_scheme ∅ ∅ ∅ {[root := HSchemeRoot]} ∅ 0 ∅ 1 false 2 ∅ [] [].
End State.

Section Ops.
Context {SA : SyscallAbi} {PA : ProcAbi}.
Variable kernel : list sys_call → sys_call → errno + Z.
Variable mapped_pctl : list sys_call → SigProcControl.
Variable mapped_tctl : list sys_call → Sigcontrol.
Variable hash_order : list Z → list Z.
Variable slab_key : gmap Z Handle → Z.
Variable group_search : gmap Z (Z * WaitpidStatus) → Z → option Z.
(** Whether the build has overflow checks *)
Variable overflow_checks : bool.
(** Whether a local array of the size of an [RtSigInfo] is aligned like one *)
Variable local_aligned : bool.

(** ** Small steps *)

Definition sys (c : sys_call) : comp ProcScheme Z :=
  s ← get;
  put (log_sys c s);;
  match kernel (calls s) c with
  | inr v => mret v
  | inl e => fail e
  end.

(** [self.processes.get(&id).ok_or(Error::new(e))?] *)
Definition proc (id : Z) (e : errno) : comp ProcScheme Process :=
  s ← get;
  ok_or e (processes s !! id).

Definition put_proc (id : Z) (p : Process) : comp ProcScheme unit := modify (set_processes <[id := p]>).

(** [self.handles[id]], which panics for a vacant entry *)
Definition handle_at (id : Z) : comp ProcScheme Handle :=
  s ← get;
  expect (handles s !! id).

Definition insert_handle (h : Handle) : comp ProcScheme Z :=
  s ← get;
  modify (set_handles <[slab_key (handles s) := h]>);;
  mret (slab_key (handles s)).

(** [Weak::upgrade] for a thread *)
Definition upgrade (place : Z) (s : ProcScheme) : option Thread :=
  match thread_store s !! place with
  | Some t =>
     match processes s !! t_pid t with
     | Some p => if bool_decide (place ∈ threads p) then Some t else None
     | None => None
     end
  | None => None
  end.

(** The thread of a strong reference *)
Definition thread_at (place : Z) : comp ProcScheme Thread :=
  s ← get;
  expect (thread_store s !! place).

Definition put_thread (place : Z) (t : Thread) : comp ProcScheme unit := modify (set_store <[place := t]>).

Definition wake (ids : list VirtualId) : comp ProcScheme unit := modify (set_awoken (λ l, l ++ ids)).

(** [awoken.extend(p.waitpid_waiting.drain(..))] for the process [id] *)
Definition wake_waiters (id : Z) (p : Process) : comp ProcScheme unit :=
  put_proc id (set_waiting [] p);;
  wake (waitpid_waiting p).

(** [Rc::new] of a thread *)
Definition new_place (t : Thread) : comp ProcScheme Z :=
  s ← get;
  modify (set_next_place (next_place s + 1));;
  put_thread (next_place s) t;;
  mret (next_place s).

Definition bump_internal : comp ProcScheme Z :=
  s ← get;
  modify (set_internal (next_internal_id s + 1));;
  mret (next_internal_id s).

(** [arraystring_to_bytes] *)
Definition name_array (n : string) : bytes := vec_resize 0 NAME_CAPAC (take NAME_CAPAC (str_bytes n)).

(** [Thread::sync_kernel_attrs] *)
Definition sync_thread_attrs (p : Process) (t : Thread) : comp ProcScheme unit :=
  attr_fd ← sys (SysDupAttrs (t_fd t));
  sys (SysWriteAttrs attr_fd (wrap_u32 (pid p)) (euid p) (egid p) (prio p) (name_array (name p)));;
  mret tt.

(** [Process::sync_kernel_attrs] *)
Definition sync_kernel_attrs (p : Process) : comp ProcScheme unit :=
  for_each (λ place, t ← thread_at place; sync_thread_attrs p t) (threads p).

(** [new_id] *)
Definition new_id : comp ProcScheme Z :=
  s ← get;
  n ← (if overflow_checks then add_usize (next_id s) 1 else mret (wrap_usize (next_id s + 1)));
  modify (set_next_id n);;
  mret (next_id s).

(** ** Making processes and threads *)

(** The process that [on_sendfd] and [fork] fill in *)
Definition fresh_process (threads : list Z) (pid ppid pgid sid : Z) (name : string)
    (prio ruid euid suid rgid egid sgid : Z) : Process :=
  mk_process threads pid ppid pgid sid name prio ruid euid suid rgid egid sgid
    PossiblyRunnable false [] ∅ [] None [].

(** [on_sendfd] *)
Definition on_sendfd (id tag : Z) : comp ProcScheme (option Response) :=
  h ← handle_at id;
  match h with
  | HInit =>
     obtained ← result (sys SysObtainFd);
     match obtained with
     | inl e => mret (ready_err e tag)
     | inr fd_out =>
        unwrap (sys (SysSubscribe fd_out));;
        status_hndl ← unwrap (sys (SysDupStatus fd_out));
        place ← new_place (mk_thread fd_out status_hndl INIT_PID None);
        modify (set_groups <[INIT_PID := [INIT_PID]]>);;
        put_proc INIT_PID
          (fresh_process [place] INIT_PID INIT_PID INIT_PID INIT_PID "[init]" 20 0 0 0 0 0 0);;
        modify (set_sessions (λ x, x ∪ {[INIT_PID]}));;
        modify (set_lookup <[fd_out := place]>);;
        modify (set_handles <[id := HProc INIT_PID]>);;
        mret (ready_ok 0 tag)
     end
  | _ => mret (ready_err EBADF tag)
  end.

(** [fork] *)
Definition fork (parent_pid : Z) : comp ProcScheme Z :=
  child_pid ← new_id;
  parent ← proc parent_pid EBADFD;
  new_ctxt_fd ← sys SysNewContext;
  status_fd ← sys (SysDupStatus new_ctxt_fd);
  unwrap (sys (SysSubscribe new_ctxt_fd));;
  place ← new_place (mk_thread new_ctxt_fd status_fd child_pid None);
  let new_process := fresh_process [place] child_pid parent_pid (pgid parent) (sid parent)
    (name parent) (prio parent) (ruid parent) (euid parent) (suid parent)
    (rgid parent) (egid parent) (sgid parent) in
  attempt (sync_kernel_attrs new_process);;
  modify (set_groups (alter (λ l, l ++ [child_pid]) (pgid parent)));;
  put_proc child_pid new_process;;
  modify (set_lookup <[new_ctxt_fd := place]>);;
  mret child_pid.

(** [new_thread]: the place of the new thread *)
Definition new_thread (id : Z) : comp ProcScheme Z :=
  p ← proc id EBADFD;
  ctxt_fd ← sys SysNewContext;
  attr_fd ← sys (SysDupAttrs ctxt_fd);
  sys (SysWriteAttrs attr_fd (wrap_u32 id) (euid p) (egid p) (prio p) (name_array (name p)));;
  status_hndl ← sys (SysDupStatus ctxt_fd);
  unwrap (sys (SysSubscribe ctxt_fd));;
  place ← new_place (mk_thread ctxt_fd status_hndl id None);
  put_proc id (set_threads (threads p ++ [place]) p);;
  modify (set_lookup <[ctxt_fd := place]>);;
  mret place.

(** ** Opening, reading and duplicating *)

(** A text in a column of [n] characters, [{:<n}] *)
Definition column (n : nat) (text : bytes) : bytes :=
  text ++ replicate (n - length (filter (λ b, utf8_cont b = false) text)) 32.

Definition ps_line (cols : list (nat * bytes)) : bytes := concat ((λ c, column c.1 c.2) <$> cols) ++ [10].

Definition decimal (x : Z) : bytes := str_bytes (pretty x).

Definition ps_status (st : ProcessStatus) : string :=
  match st with PossiblyRunnable => "R" | Stopped _ => "S" | Exiting _ _ => "E" | Exited _ _ => "X" end.

Definition ps_row (id : Z) (p : Process) : bytes :=
  ps_line [(6%nat, decimal id); (6%nat, decimal (pgid p)); (6%nat, decimal (ppid p));
           (6%nat, decimal (sid p)); (6%nat, decimal (ruid p)); (6%nat, decimal (rgid p));
           (6%nat, decimal (euid p)); (6%nat, decimal (egid p));
           (6%nat, decimal (Z.of_nat (length (threads p)))); (8%nat, str_bytes (ps_status (status p)));
           (16%nat, str_bytes (name p))].

(** [ps_data] *)
Definition ps_data (s : ProcScheme) : bytes :=
  ps_line ((λ c, (c.1, str_bytes c.2)) <$>
    [(6%nat, "PID"%string); (6%nat, "PGID"%string); (6%nat, "PPID"%string); (6%nat, "SID"%string);
     (6%nat, "RUID"%string); (6%nat, "RGID"%string); (6%nat, "EUID"%string); (6%nat, "EGID"%string);
     (6%nat, "NTHRD"%string); (8%nat, "STATUS"%string); (16%nat, "NAME"%string)]) ++
  concat ((λ id, match processes s !! id with Some p => ps_row id p | None => [] end) <$>
    hash_order (elements (dom (processes s)))).

(** [on_openat] *)
Definition on_openat (fd : Z) (path : string) (flags uid : Z) : comp ProcScheme OpenResult :=
  h ← handle_at fd;
  match h with
  | HSchemeRoot =>
     let path := String.string_of_list_ascii (drop_slashes (String.list_ascii_of_string path)) in
     s ← get;
     if bool_decide (path = "init"%string) then
       modify (set_claimed true);;
       if init_claimed s then fail EEXIST
       else n ← insert_handle HInit; mret (ThisScheme n)
     else if bool_decide (path = "ps"%string) then
       n ← insert_handle (HPs (ps_data s)); mret (ThisScheme n)
     else if bool_decide (path = "proc-creds-capability"%string) then
       if negb (bool_decide (uid = 0)) then fail EACCES
       else if negb (bool_decide (Z.land flags O_ACCMODE = O_RDONLY)) then fail EINVAL
       else n ← insert_handle HProcCredsCapability; mret (ThisScheme n)
     else fail ENOENT
  | _ => fail EACCES
  end.

(** [read_process_metadata]: the size, and what is at the start of the buffer *)
Definition read_process_metadata (id : Z) (buf : bytes) (aligned : bool) : comp ProcScheme (Z * bytes) :=
  p ← proc id ESRCH;
  if bool_decide (length buf < meta_size)%nat || negb aligned then fail EBADF
  else
    mret (Z.of_nat meta_size,
          copy_at buf 0 (meta_bytes (mk_meta (wrap_u32 id) (wrap_u32 (pgid p)) (wrap_u32 (ppid p))
            (ruid p) (euid p) (suid p) (rgid p) (egid p) (sgid p) 1 1))).

(** [on_read] *)
Definition on_read (id offset : Z) (buf : bytes) (aligned : bool) : comp ProcScheme (Z * bytes) :=
  h ← handle_at id;
  match h with
  | HProc id => read_process_metadata id buf aligned
  | HPs src_buf =>
     let src := drop (Z.to_nat offset) src_buf in
     let len := Nat.min (length src) (length buf) in
     mret (Z.of_nat len, copy_at buf 0 (take len src))
  | _ => fail EBADF
  end.

(** [on_dup] *)
Definition on_dup (old_id : Z) (buf : bytes) : comp ProcScheme OpenResult :=
  h ← handle_at old_id;
  match h with
  | HProc id =>
     if bool_decide (buf = str_bytes "fork") then
       child_pid ← fork id;
       n ← insert_handle (HProc child_pid);
       mret (ThisScheme n)
     else if bool_decide (buf = str_bytes "new-thread") then
       place ← new_thread id;
       n ← insert_handle (HThread place);
       mret (ThisScheme n)
     else if bool_decide (take 7 buf = str_bytes "thread-") then
       idx ← ok_or EINVAL
         (text ← from_utf8 (drop 7 buf); parse_uint usize_max (String.list_ascii_of_string text));
       p ← proc id EBADFD;
       place ← ok_or ENOENT (threads p !! Z.to_nat idx);
       n ← insert_handle (HThread place);
       mret (ThisScheme n)
     else fail EINVAL
  | HThread place =>
     s ← get;
     t ← ok_or EOWNERDEAD (upgrade place s);
     fd ← sys (SysForwardDup (t_fd t) buf);
     mret (OtherScheme fd)
  | _ => fail EBADF
  end.

(** ** Groups and sessions *)

(** [on_getpgid] *)
Definition on_getpgid (caller_pid target_pid : Z) : comp ProcScheme Z :=
  caller ← proc caller_pid ESRCH;
  target ← proc target_pid ESRCH;
  if negb (bool_decide (sid caller = sid target)) && negb (bool_decide (euid caller = 0)) then fail EPERM
  else mret (pgid target).

(** A group [g] with the members [l] loses one of them, and is removed when it was the last *)
Definition leave_group (id g : Z) (l : list Z) (m : gmap Z (list Z)) : gmap Z (list Z) :=
  let rest := filter (λ x, x ≠ id) l in
  if bool_decide (rest = []) then delete g m else <[g := rest]> m.

(** [set_pgid] of the process [id], whose parent is woken when it is given *)
Definition set_pgid (id : Z) (parent : option Z) (new_pgid : Z) : comp ProcScheme unit :=
  p ← proc id ESRCH;
  let old_pgid := pgid p in
  (if bool_decide (old_pgid = new_pgid) then panic else mret tt);;
  match parent with
  | Some parent_id => q ← proc parent_id ESRCH; wake_waiters parent_id q
  | None => mret tt
  end;;
  s ← get;
  old_group ← ok_or ESRCH (groups s !! old_pgid);
  modify (set_groups (leave_group id old_pgid old_group));;
  s ← get;
  modify (set_groups <[new_pgid := default [] (groups s !! new_pgid) ++ [id]]>);;
  p ← proc id ESRCH;
  put_proc id (put_pgid new_pgid p).

(** [on_setsid] *)
Definition on_setsid (caller_pid : Z) : comp ProcScheme unit :=
  s ← get;
  if existsb (λ kp, negb (bool_decide (kp.1 = caller_pid)) && bool_decide (pgid kp.2 = caller_pid))
       (map_to_list (processes s)) then fail EPERM
  else
    caller ← proc caller_pid ESRCH;
    if bool_decide (ppid caller = caller_pid) then fail ESRCH
    else if bool_decide (pgid caller = caller_pid) then fail EPERM
    else
      let parent := if bool_decide (is_Some (processes s !! ppid caller)) then Some (ppid caller) else None in
      set_pgid caller_pid parent caller_pid;;
      caller ← proc caller_pid ESRCH;
      put_proc caller_pid (set_sid caller_pid caller).

(** [on_getppid] *)
Definition on_getppid (caller_pid : Z) : comp ProcScheme Z :=
  caller ← proc caller_pid ESRCH;
  mret (ppid caller).

(** [on_getsid] *)
Definition on_getsid (caller_pid req_pid : Z) : comp ProcScheme Z :=
  caller ← proc caller_pid ESRCH;
  requested ← proc req_pid ESRCH;
  if negb (bool_decide (sid caller = sid requested)) && negb (bool_decide (euid caller = 0)) then fail EPERM
  else mret (sid requested).

(** [on_setpgid] *)
Definition on_setpgid (caller_pid target_pid new_pgid : Z) : comp ProcScheme unit :=
  caller ← proc caller_pid ESRCH;
  target ← proc target_pid ESRCH;
  if negb (bool_decide (ppid target = caller_pid)) && negb (bool_decide (target_pid = caller_pid)) then fail ESRCH
  else
    parent ←
      (if bool_decide (ppid target = target_pid) then mret None
       else proc (ppid target) ESRCH;; mret (Some (ppid target)));
    s ← get;
    if bool_decide (sid target = target_pid) then fail EPERM
    else if negb (bool_decide (sid caller = sid target)) then fail EPERM
    else if negb (bool_decide (new_pgid = target_pid)) && bool_decide (groups s !! new_pgid = None) then fail EPERM
    else if bool_decide (ppid target = caller_pid) && disabled_setpgid target then fail EACCES
    else if bool_decide (pgid target = new_pgid) then mret tt
    else set_pgid target_pid parent new_pgid.

(** [pgrp_is_orphaned] *)
Definition pgrp_is_orphaned (grp : Z) (s : ProcScheme) : option bool :=
  members ← groups s !! grp;
  Some (forallb (λ id,
    match processes s !! id with
    | Some p =>
       match processes s !! ppid p with
       | Some parent => bool_decide (pgid parent = pgid p) || negb (bool_decide (sid parent = sid p))
       | None => true
       end
    | None => true
    end) members).

(** ** Credentials, names and priorities *)

(** The ids of [on_setresugid]: [u32::MAX] leaves an id as it is *)
Definition opt_id (x : Z) : option Z := if bool_decide (x = u32_max) then None else Some x.

Definition allowed (new : option Z) (old : list Z) : bool :=
  match new with Some x => bool_decide (x ∈ old) | None => true end.

(** [on_setresugid]; [raw_ids] is what [plain] reads from the payload *)
Definition on_setresugid (id : Z) (raw_ids : option (list Z)) : comp ProcScheme unit :=
  raw ← expect raw_ids;
  match raw with
  | [r; e; s; rg; eg; sg] =>
     p ← proc id ESRCH;
     if negb (bool_decide (euid p = 0)) &&
        negb (forallb (λ x, allowed (opt_id x) [ruid p; euid p; suid p]) [r; e; s]) then fail EPERM
     else if negb (bool_decide (euid p = 0)) &&
        negb (forallb (λ x, allowed (opt_id x) [rgid p; egid p; sgid p]) [rg; eg; sg]) then fail EPERM
     else
       let p' := {| p with ruid := default (ruid p) (opt_id r); euid := default (euid p) (opt_id e);
                    suid := default (suid p) (opt_id s); rgid := default (rgid p) (opt_id rg);
                    egid := default (egid p) (opt_id eg); sgid := default (sgid p) (opt_id sg) |} in
       put_proc id p';;
       attempt (sync_kernel_attrs p');;
       mret tt
  | _ => fail EINVAL
  end.

(** [&s[..n]] on a string: a panic unless the cut is between two characters *)
Definition str_take (n : nat) (text : bytes) : outcome bytes :=
  match text !! n with
  | Some b => if utf8_cont b then Panic else Ok (take n text)
  | None => Ok (take n text)
  end.

(** The bytes before the first zero *)
Definition until_nul (raw : bytes) : bytes :=
  match list_find (λ c, c = 0) raw with
  | Some (n, _) => take n raw
  | None => raw
  end.

(** [on_proc_rename] *)
Definition on_proc_rename (id : Z) (new_name_raw : bytes) : comp ProcScheme unit :=
  let text := until_nul new_name_raw in
  ok_or EINVAL (from_utf8 text);;
  p ← proc id ESRCH;
  cut ← lift (str_take (Nat.min (length text) NAME_CAPAC) text);
  let p' := set_name (string_of_bytes cut) p in
  put_proc id p';;
  attempt (sync_kernel_attrs p');;
  mret tt.

(** [on_setprocprio] *)
Definition on_setprocprio (caller_pid target_pid new_prio : Z) : comp ProcScheme unit :=
  if bool_decide (40 ≤ new_prio) then fail EINVAL
  else
    caller ← proc caller_pid ESRCH;
    target ← proc target_pid ESRCH;
    if negb (bool_decide (euid caller = 0)) && negb (bool_decide (euid caller = euid target)) then fail EPERM
    else
      let target' := set_prio new_prio target in
      put_proc target_pid target';;
      attempt (sync_kernel_attrs target');;
      mret tt.

(** [on_getprocprio] *)
Definition on_getprocprio (target_pid : Z) : comp ProcScheme Z :=
  target ← proc target_pid ESRCH;
  mret (prio target).

(** ** Signal pages *)

(** Mapping page [page] of the signal handler of the thread with descriptor [fd] *)
Definition map_sighandler (fd page : Z) : comp ProcScheme unit :=
  sigcontrol_fd ← sys (SysDupSighandler fd);
  sys (SysReadSighandler sigcontrol_fd);;
  sys (SysMap sigcontrol_fd page);;
  mret tt.

(** [on_sync_sigtctl] *)
Definition on_sync_sigtctl (place : Z) : comp ProcScheme unit :=
  t ← thread_at place;
  map_sighandler (t_fd t) 0;;
  s ← get;
  put_thread place (set_tctl (Some (mapped_tctl (calls s))) t).

(** [on_sync_sigpctl] *)
Definition on_sync_sigpctl (id : Z) : comp ProcScheme unit :=
  p ← proc id ESRCH;
  match threads p with
  | [] => fail EINVAL
  | place :: _ =>
     t ← thread_at place;
     map_sighandler (t_fd t) 1;;
     s ← get;
     put_proc id (set_pctl (Some (mapped_pctl (calls s))) p)
  end.

(** [on_sigdeq]: the info that is copied to the payload *)
Definition on_sigdeq (id : Z) (payload : bytes) : comp ProcScheme bytes :=
  if bool_decide (length payload < 4)%nat then fail EINVAL
  else
    let sig_idx := le_val (take 4 payload) in
    if bool_decide (length payload < rt_sig_info_size)%nat then fail EINVAL
    else if bool_decide (32 ≤ sig_idx) then fail EINVAL
    else
      p ← proc id ESRCH;
      pctl ← ok_or EBADF (sig_pctl p);
      q ← ok_or EAGAIN (rtqs p !! Z.to_nat sig_idx);
      match q with
      | [] => fail EAGAIN
      | front :: rest =>
         let pctl' := if bool_decide (rest = []) then
                        set_pending (Z.ldiff (pending pctl) (Z.shiftl 1 (32 + sig_idx))) pctl
                      else pctl in
         put_proc id (set_pctl (Some pctl') (set_rtqs (<[Z.to_nat sig_idx := rest]> (rtqs p)) p));;
         mret front
      end.

(** ** Sending signals *)

Inductive KillMode : Type := Idempotent | Queued (arg : bytes).
Inductive KillTarget : Set := TargetProc (id : Z) | TargetThread (place : Z).

Inductive SendResult : Set :=
  | LacksPermission
  | Succeeded
  | SucceededSigchld (orig_signal ppid pgid : Z)
  | SucceededSigcont (ppid pgid : Z)
  | FullQ
  | Invalid.

(** A verb for the context of a thread *)
Definition context_verb (t : Thread) (verb : Z) : comp ProcScheme unit :=
  sys (SysContextVerb (status_hndl t) verb);;
  mret tt.

(** A thread of a process that continues *)
Definition unstop_thread (place : Z) : comp ProcScheme unit :=
  t ← thread_at place;
  put_thread place (set_tctl ((λ c, set_word 0 (Z.ldiff (word c 0)
    (Z.lor (Z.lor (Z.lor (sig_bit SIGSTOP) (sig_bit SIGTTIN)) (sig_bit SIGTTOU)) (sig_bit SIGTSTP))) c)
    <$> sig_ctrl t) t);;
  unwrap (context_verb t VerbUnstop).

(** A thread of a process that stops; a context that is already dead is passed over *)
Definition stop_thread (place : Z) : comp ProcScheme unit :=
  t ← thread_at place;
  r ← result (context_verb t VerbStop);
  match r with
  | inl _ => mret tt
  | inr _ =>
     put_thread place (set_tctl ((λ c, set_word 0 (Z.ldiff (word c 0) (sig_bit SIGCONT)) c) <$> sig_ctrl t) t)
  end.

(** A thread of a process that is killed *)
Definition force_kill_thread (place : Z) : comp ProcScheme unit :=
  t ← thread_at place;
  unwrap (context_verb t VerbForceKill).

(** The first thread that allows the signal is interrupted; whether there is one *)
Fixpoint interrupt_one (places : list Z) (sig_group sig_idx : Z) : comp ProcScheme bool :=
  match places with
  | [] => mret false
  | place :: places =>
     t ← thread_at place;
     match sig_ctrl t with
     | Some tctl =>
        if negb (bool_decide (Z.land (Z.shiftr (word tctl sig_group) 32) (Z.shiftl 1 sig_idx) = 0)) then
          unwrap (context_verb t VerbInterrupt);;
          mret true
        else interrupt_one places sig_group sig_idx
     | None => interrupt_one places sig_group sig_idx
     end
  end.

(** [sig - 1], which overflows for the signal 0 *)
Definition sig_minus_one (sig : Z) : comp ProcScheme Z :=
  if bool_decide (sig = 0) then if overflow_checks then panic else mret usize_max else mret (sig - 1).

(** A process that is sent SIGCONT while it is stopped *)
Definition deliver_continue (target_pid : Z) (p : Process) (pctl : SigProcControl) : comp ProcScheme SendResult :=
  let pctl := if signal_will_ign (actions pctl) SIGCONT false then pctl
              else set_pending (Z.lor (pending pctl) (sig_bit SIGCONT)) pctl in
  put_proc target_pid (set_pctl (Some pctl) (set_status PossiblyRunnable p));;
  for_each unstop_thread (threads p);;
  mret (SucceededSigcont (ppid p) (pgid p)).

(** A process that is stopped by [sig] *)
Definition deliver_stop (target_pid sig : Z) (p : Process) (pctl : SigProcControl) : comp ProcScheme SendResult :=
  put_proc target_pid (set_status (Stopped sig) p);;
  for_each stop_thread (threads p);;
  put_proc target_pid
    (set_pctl (Some (set_pending (Z.ldiff (pending pctl) (sig_bit SIGCONT)) pctl)) (set_status (Stopped sig) p));;
  mret (SucceededSigchld sig (ppid p) (pgid p)).

(** A signal for one thread; the flag is that the caller interrupted itself *)
Definition deliver_thread (place sig_group sig_idx sender : Z) (is_self : bool) :
    comp ProcScheme (SendResult * bool) :=
  t ← thread_at place;
  match sig_ctrl t with
  | None => mret (Invalid, false)
  | Some tctl =>
     let bit := Z.shiftl 1 sig_idx in
     let tctl := set_word sig_group (Z.lor (word tctl sig_group) bit) (set_t_sender sig_idx sender tctl) in
     put_thread place (set_tctl (Some tctl) t);;
     if negb (bool_decide (Z.land (Z.shiftr (word tctl sig_group) 32) bit = 0)) then
       unwrap (context_verb t VerbInterrupt);;
       mret (Succeeded, is_self)
     else mret (Succeeded, false)
  end.

(** The pending bit of a signal for a process, and the thread that handles it *)
Definition deliver_pending (target_pid sig sig_group sig_idx : Z) (p : Process) (pctl : SigProcControl)
    (is_self : bool) : comp ProcScheme (SendResult * bool) :=
  put_proc target_pid (set_pctl (Some (set_pending (Z.lor (pending pctl) (sig_bit sig)) pctl)) p);;
  interrupted ← interrupt_one (threads p) sig_group sig_idx;
  mret (Succeeded, interrupted && is_self).

(** A signal for a process *)
Definition deliver_proc (target_pid sig sig_group sig_idx sender : Z) (mode : KillMode)
    (p : Process) (pctl : SigProcControl) (is_self : bool) : comp ProcScheme (SendResult * bool) :=
  match mode with
  | Queued arg =>
     if negb (bool_decide (sig_group = 1)) then mret (Invalid, false)
     else
       let rtidx := Z.to_nat sig_idx in
       let qs := if bool_decide (length (rtqs p) ≤ rtidx)%nat then vec_resize [] (S rtidx) (rtqs p) else rtqs p in
       rtq ← expect (qs !! rtidx);
       if bool_decide (32 ≤ length rtq)%nat then
         put_proc target_pid (set_rtqs qs p);;
         mret (FullQ, false)
       else
         deliver_pending target_pid sig sig_group sig_idx (set_rtqs (<[rtidx := rtq ++ [arg]]> qs) p) pctl is_self
  | Idempotent =>
     if negb (bool_decide (Z.land (pending pctl) (sig_bit sig) = 0)) then mret (Succeeded, false)
     else if negb (bool_decide (sig_group = 0)) then mret (Invalid, false)
     else deliver_pending target_pid sig sig_group sig_idx p (set_p_sender sig_idx sender pctl) is_self
  end.

(** A signal for a process that has set up its signals and is not ending *)
Definition deliver_alive (target_pid : Z) (target : KillTarget) (sig sig_group sig_idx sender : Z)
    (mode : KillMode) (stop_or_continue is_self : bool) (p : Process) (pctl : SigProcControl) :
    comp ProcScheme (SendResult * bool) :=
  let is_stopped := match status p with Stopped _ => true | _ => false end in
  let is_conditional_stop :=
    bool_decide (sig = SIGTTIN) || bool_decide (sig = SIGTTOU) || bool_decide (sig = SIGTSTP) in
  if bool_decide (sig = SIGCONT) && is_stopped then
    r ← deliver_continue target_pid p pctl; mret (r, false)
  else if bool_decide (sig = SIGSTOP) || (is_conditional_stop && signal_will_stop (actions pctl) sig) then
    s ← get;
    if is_conditional_stop && default true (pgrp_is_orphaned (pgid p) s) then mret (Succeeded, false)
    else r ← deliver_stop target_pid sig p pctl; mret (r, false)
  else if bool_decide (sig = SIGKILL) then
    for_each force_kill_thread (threads p);;
    mret (Succeeded, is_self)
  else if signal_will_ign (actions pctl) sig stop_or_continue then mret (Succeeded, false)
  else
    match target with
    | TargetThread place => deliver_thread place sig_group sig_idx sender is_self
    | TargetProc _ => deliver_proc target_pid sig sig_group sig_idx sender mode p pctl is_self
    end.

(** The process has called exit *)
Definition is_ending (p : Process) : bool :=
  match status p with Exited _ _ | Exiting _ _ => true | _ => false end.

(** The caller may not signal a process *)
Definition lacks_permission (caller_euid caller_ruid : Z) (p : Process) : bool :=
  negb (bool_decide (caller_euid = 0)) && negb (bool_decide (caller_euid = ruid p)) &&
  negb (bool_decide (caller_ruid = ruid p)).

(** The closure of [on_send_sig]: its result, and whether the caller interrupted itself *)
Definition deliver (caller_pid target_pid : Z) (target : KillTarget) (sig sig_group sig_idx : Z)
    (sender caller_euid caller_ruid : Z) (mode : KillMode) (stop_or_continue : bool) :
    comp ProcScheme (SendResult * bool) :=
  p ← proc target_pid ESRCH;
  if lacks_permission caller_euid caller_ruid p then mret (LacksPermission, false)
  else if bool_decide (sig = 0) then mret (Succeeded, false)
  else if is_ending p then mret (Succeeded, false)
  else
    match sig_pctl p with
    | None => mret (Invalid, false)
    | Some pctl =>
       deliver_alive target_pid target sig sig_group sig_idx sender mode stop_or_continue
         (bool_decide (target_pid = caller_pid)) p pctl
    end.

(** The entry of a child in the [waitpid] map of its parent; a key that is already there
    keeps its group *)
Definition waitpid_insert (child pgrp : Z) (st : WaitpidStatus) (m : gmap Z (Z * WaitpidStatus)) :
    gmap Z (Z * WaitpidStatus) :=
  <[child := (match m !! child with Some (g, _) => g | None => pgrp end, st)]> m.

(** The parent learns what its child does *)
Definition notify_parent (parent_id child pgrp : Z) (st : WaitpidStatus) : comp ProcScheme unit :=
  parent ← proc parent_id ESRCH;
  wake_waiters parent_id (set_waitpid (waitpid_insert child pgrp st (waitpid parent)) parent).

(** What follows from the result of [deliver]; [sigchld] signals the parent *)
Definition settle (sigchld : Z → bool → comp ProcScheme bool) (target_pid : Z) (r : SendResult * bool) :
    comp ProcScheme bool :=
  match r.1 with
  | LacksPermission => fail EPERM
  | Succeeded => mret r.2
  | FullQ => fail EAGAIN
  | Invalid => fail ESRCH
  | SucceededSigchld orig_signal parent_id pgrp =>
     notify_parent parent_id target_pid pgrp (WStopped orig_signal);;
     sigchld parent_id r.2
  | SucceededSigcont parent_id pgrp =>
     notify_parent parent_id target_pid pgrp WContinued;;
     sigchld parent_id r.2
  end.

(** [on_send_sig]: whether the caller interrupted itself.  It calls itself at most once, to
    send SIGCHLD, which never does so again *)
Fixpoint on_send_sig (depth : nat) (caller_pid : Z) (target : KillTarget) (signal : Z) (mode : KillMode)
    (stop_or_continue : bool) : comp ProcScheme bool :=
  match depth with
  | O => panic
  | S depth =>
     if bool_decide (64 < signal) then fail EINVAL
     else
       x ← sig_minus_one signal;
       let sig_group := x `div` 32 in
       let sig_idx := x `mod` 32 in
       target_pid ←
         match target with
         | TargetProc id => mret id
         | TargetThread place => t ← thread_at place; mret (t_pid t)
         end;
       proc target_pid ESRCH;;
       caller ← proc caller_pid ESRCH;
       let sender := sender_raw (wrap_u32 caller_pid) (ruid caller) in
       r ← deliver caller_pid target_pid target signal sig_group sig_idx sender (euid caller)
             (ruid caller) mode stop_or_continue;
       settle (λ parent_id killed_self,
         if bool_decide (parent_id = INIT_PID) then mret killed_self
         else
           k ← attempt (on_send_sig depth INIT_PID (TargetProc parent_id) SIGCHLD Idempotent true);
           mret (killed_self || default false k)) target_pid r
  end.

(** The depth of the calls of [on_send_sig] *)
Definition send_sig := on_send_sig 2.

(** [on_kill_thread] *)
Definition on_kill_thread (place signal : Z) : comp ProcScheme unit :=
  t ← thread_at place;
  killed_self ← send_sig (t_pid t) (TargetThread place) signal Idempotent false;
  if (killed_self : bool) then fail ERESTART else mret tt.

(** The loop of [on_kill]: how many were signalled, the last error, whether the caller
    interrupted itself *)
Fixpoint kill_loop (caller_pid : Z) (match_grp : option Z) (signal : Z) (mode : KillMode)
    (ids : list Z) (num_succeeded : Z) (err_opt : option errno) (killed_self : bool) :
    comp ProcScheme (Z * option errno * bool) :=
  match ids with
  | [] => mret (num_succeeded, err_opt, killed_self)
  | id :: ids =>
     s ← get;
     if match match_grp, processes s !! id with
        | Some g, Some p => bool_decide (pgid p = g)
        | None, Some _ => true
        | _, None => false
        end
     then
       res ← result (send_sig caller_pid (TargetProc id) signal mode false);
       match res with
       | inr k => kill_loop caller_pid match_grp signal mode ids (num_succeeded + 1) err_opt (killed_self || k)
       | inl e => kill_loop caller_pid match_grp signal mode ids num_succeeded (Some e) killed_self
       end
     else kill_loop caller_pid match_grp signal mode ids num_succeeded err_opt killed_self
  end.

(** [on_kill] for all processes, or those of a group *)
Definition kill_many (caller_pid : Z) (match_grp : option Z) (signal : Z) (mode : KillMode) : comp ProcScheme unit :=
  s ← get;
  r ← kill_loop caller_pid match_grp signal mode (hash_order (elements (dom (processes s)))) 0 None false;
  let '(num_succeeded, err_opt, killed_self) := r in
  if bool_decide (num_succeeded = 0) then fail (default ESRCH err_opt)
  else if (killed_self : bool) then fail ERESTART
  else mret tt.

(** [on_kill] *)
Definition on_kill (caller_pid : Z) (target : ProcKillTarget) (signal : Z) (mode : KillMode) :
    comp ProcScheme unit :=
  match target with
  | KillSingleProc id =>
     killed_self ← send_sig caller_pid (TargetProc id) signal mode false;
     if (killed_self : bool) then fail ERESTART else mret tt
  | KillAll => kill_many caller_pid None signal mode
  | KillProcGroup grp => kill_many caller_pid (Some grp) signal mode
  | KillThisGroup => caller ← proc caller_pid ESRCH; kill_many caller_pid (Some (pgid caller)) signal mode
  end.

(** ** Waiting for children *)

(** [reap] *)
Definition reap (id : Z) : comp ProcScheme unit :=
  s ← get;
  match processes s !! id with
  | None => mret tt
  | Some p =>
     if negb (bool_decide (threads p = [])) then mret tt
     else
       modify (set_processes (delete id));;
       match groups s !! pgid p with
       | None => mret tt
       | Some members => modify (set_groups (leave_group id (pgid p) members))
       end
  end.

(** What [waitpid] returns for a status, [None] when the flags do not ask for it *)
Definition wait_code (flags : Z) (st : WaitpidStatus) : option Z :=
  match st with
  | WContinued => if has_flag flags WCONTINUED then Some 0xffff else None
  | WStopped signal => if has_flag flags WUNTRACED then Some (Z.lor 0x7f (Z.shiftl signal 8)) else None
  | WTerminated signal status => Some (Z.lor (default 0 signal) (Z.shiftl status 8))
  end.

(** The closure [grim_reaper] *)
Definition grim_reaper (flags w_pid : Z) (st : WaitpidStatus) : comp ProcScheme (option (Z * Z)) :=
  match st with WTerminated _ _ => reap w_pid | _ => mret tt end;;
  mret ((λ code, (w_pid, code)) <$> wait_code flags st).

(** Nothing has happened yet *)
Definition wait_more (this_pid flags : Z) (req_id : VirtualId) (p : Process) :
    comp ProcScheme (option (Z * Z)) :=
  if has_flag flags WNOHANG then mret (Some (0, 0))
  else
    put_proc this_pid (set_waiting (waitpid_waiting p ++ [req_id]) p);;
    mret None.

(** The entry of [w_pid] is taken out of the map and reported; without one the caller waits *)
Definition take_status (this_pid flags : Z) (req_id : VirtualId) (p : Process) (found : option Z) :
    comp ProcScheme (option (Z * Z)) :=
  match found ≫= λ w_pid, (w_pid,.) <$> waitpid p !! w_pid with
  | Some (w_pid, (_, st)) =>
     put_proc this_pid (set_waitpid (delete w_pid (waitpid p)) p);;
     grim_reaper flags w_pid st
  | None => wait_more this_pid flags req_id p
  end.

(** [on_waitpid]: [None] is [Pending] *)
Definition on_waitpid (this_pid : Z) (target : WaitpidTarget) (flags : Z) (req_id : VirtualId) :
    comp ProcScheme (option (Z * Z)) :=
  s ← get;
  let any_child := existsb (λ kp, bool_decide (ppid kp.2 = this_pid)) (map_to_list (processes s)) in
  if match target with AnyChild | AnyGroupMember => negb any_child | _ => false end then fail ECHILD
  else
    p ← proc this_pid EBADFD;
    match target with
    | AnyChild => take_status this_pid flags req_id p (fst <$> head (btree_iter (waitpid p)))
    | AnyGroupMember => take_status this_pid flags req_id p (group_search (waitpid p) (pgid p))
    | SingleProc id =>
       if bool_decide (this_pid = id) then fail EINVAL
       else
         target_proc ← proc id ECHILD;
         if negb (bool_decide (ppid target_proc = this_pid)) then fail ECHILD
         else
           match status target_proc with
           | Exited signal st =>
              put_proc this_pid (set_waitpid (delete id (waitpid p)) p);;
              grim_reaper flags id (WTerminated signal st)
           | _ => take_status this_pid flags req_id p (Some id)
           end
    | ProcGroup grp =>
       members ← ok_or ECHILD (groups s !! grp);
       if existsb (λ id, negb (bool_decide (id = this_pid)) &&
                         match processes s !! id with
                         | Some q => bool_decide (ppid q = this_pid)
                         | None => false
                         end) members
       then take_status this_pid flags req_id p (group_search (waitpid p) grp)
       else fail ECHILD
    end.

(** ** Ending a process *)

Definition set_state (v : VirtualId) (st : PendingState) : comp ProcScheme unit := modify (set_states <[v := st]>).
Definition drop_state (v : VirtualId) : comp ProcScheme unit := modify (set_states (delete v)).

(** The children of a process; the closure [children_iter] *)
Definition children (current_pid : Z) (s : ProcScheme) : list Z :=
  filter (λ id, id ≠ INIT_PID ∧ ppid <$> processes s !! id = Some current_pid)
    (hash_order (elements (dom (processes s)))).

(** A child of a process that ends becomes one of the first process *)
Definition reparent (child : Z) : comp ProcScheme unit :=
  s ← get;
  match processes s !! child, processes s !! INIT_PID with
  | Some c, Some init =>
     put_proc INIT_PID (set_waitpid (waitpid c ∪ waitpid init) init);;
     put_proc child (set_waitpid ∅ (set_ppid INIT_PID c))
  | _, _ => mret tt
  end.

(** A stopped member of a group that has become orphaned *)
Definition hup_member (id : Z) : comp ProcScheme unit :=
  s ← get;
  match processes s !! id with
  | Some p =>
     match status p with
     | Stopped _ =>
        attempt (send_sig INIT_PID (TargetProc (pid p)) SIGCONT Idempotent false);;
        attempt (send_sig INIT_PID (TargetProc (pid p)) SIGHUP Idempotent false);;
        mret tt
     | _ => mret tt
     end
  | None => mret tt
  end.

(** A group that a process that ends may have left orphaned *)
Definition hup_group (gw : Z * option bool) : comp ProcScheme unit :=
  s ← get;
  if negb (default false gw.2) && default false (pgrp_is_orphaned gw.1 s)
  then for_each hup_member (default [] (groups s !! gw.1))
  else mret tt.

(** What the first process takes over *)
Definition leave_to_init (current_pid pgrp : Z) : comp ProcScheme unit :=
  s ← get;
  match processes s !! INIT_PID with
  | None => mret tt
  | Some init =>
     wake_waiters INIT_PID init;;
     s ← get;
     let kids := children current_pid s in
     let grps := elements (list_to_set (pgrp :: omap (λ id, pgid <$> processes s !! id) kids) : gset Z) in
     let affected_pgids := (λ g, (g, pgrp_is_orphaned g s)) <$> hash_order grps in
     for_each reparent kids;;
     for_each hup_group affected_pgids
  end.

(** The end of a process that has no threads any more *)
Definition finish_exit (current_pid : Z) (p : Process) (signal : option Z) (st : Z) : comp ProcScheme unit :=
  put_proc current_pid (set_status (Exited signal st) p);;
  s ← get;
  match processes s !! ppid p with
  | None => mret tt
  | Some _ =>
     attempt (send_sig current_pid (TargetProc (ppid p)) SIGCHLD Idempotent false);;
     leave_to_init current_pid (pgid p);;
     attempt (notify_parent (ppid p) current_pid (pgid p) (WTerminated signal st));;
     mret tt
  end.

(** An answer when there is someone to answer to *)
Definition answer (tag : option Z) (r : Z → option Response) : option Response :=
  match tag with Some tag => r tag | None => None end.

(** The same in [work_on], which removes the state of an exit that nobody waits for *)
Definition answer_or_drop (v : VirtualId) (tag : option Z) (r : Z → option Response) :
    comp ProcScheme (option Response) :=
  match tag with
  | Some tag => mret (r tag)
  | None => drop_state v;; mret None
  end.

(** [work_on] for a process that ends *)
Definition work_exit (v : VirtualId) (current_pid : Z) (tag : option Z) : comp ProcScheme (option Response) :=
  s ← get;
  match processes s !! current_pid with
  | None => answer_or_drop v tag (ready_err ESRCH)
  | Some p =>
     if bool_decide (threads p = []) then
       match status p with
       | Exiting signal st =>
          drop_state v;;
          finish_exit current_pid p signal st;;
          mret (answer tag (ready_ok 0))
       | Exited _ _ => answer_or_drop v tag (ready_ok 0)
       | _ => answer_or_drop v tag (ready_err ESRCH)
       end
     else
       put_proc current_pid (set_awaiting (awaiting_threads_term p ++ [v]) p);;
       set_state v (AwaitingThreadsTermination current_pid tag);;
       mret None
  end.

(** [work_on] for a [waitpid] *)
Definition work_wait (v : VirtualId) (waiter : Z) (target : WaitpidTarget) (flags : Z) (op : OpCall) :
    comp ProcScheme (option Response) :=
  res ← result (on_waitpid waiter target flags v);
  match res with
  | inr (Some (w_pid, st)) =>
     let extra := if bool_decide (4 ≤ length (op_payload op))%nat && op_aligned op
                  then Filled (copy_at (op_payload op) 0 (le_bytes 4 st)) else NoExtra in
     mret (Some (mk_response (op_tag op) (inr w_pid) extra))
  | inl e => mret (ready_err e (op_tag op))
  | inr None => set_state v (AwaitingStatusChange waiter target flags op);; mret None
  end.

(** [work_on]: a waiting request is looked at again *)
Definition work_on (v : VirtualId) (this_state : PendingState) : comp ProcScheme (option Response) :=
  set_state v Placeholder;;
  match this_state with
  | Placeholder => mret None
  | AwaitingThreadsTermination current_pid tag => work_exit v current_pid tag
  | AwaitingStatusChange waiter target flags op => work_wait v waiter target flags op
  end.

(** The number that ends a context, whatever it does *)
Definition kill_context (place : Z) : comp ProcScheme unit :=
  t ← thread_at place;
  context_verb t usize_max.

(** The threads of a process that ends; only an error of a call is reported *)
Fixpoint kill_threads (tag : option Z) (places : list Z) : comp ProcScheme unit :=
  match places with
  | [] => mret tt
  | place :: places =>
     r ← result (kill_context place);
     match r, tag with
     | inl e, Some _ => fail e
     | _, _ => kill_threads tag places
     end
  end.

(** The status of an exit call *)
Definition exit_status (status : Z) : option (Z * option Z) :=
  if bool_decide (Z.land status 0xff = status) then Some (status, None)
  else
    let sig := Z.shiftr status 8 in
    if bool_decide (1 ≤ sig ≤ 64) then Some (0, Some sig) else None.

(** The threads of a process that calls exit are told to end *)
Definition begin_exit (id : Z) (p : Process) (st : Z) (signal : option Z) (v : VirtualId) (tag : option Z) :
    comp ProcScheme (option Response) :=
  let p := set_status (Exiting signal st) p in
  put_proc id p;;
  killed ← result (kill_threads tag (threads p));
  match killed with
  | inl e => mret (answer tag (ready_err e))
  | inr _ =>
     (if bool_decide (threads p = []) then mret tt
      else put_proc id (set_awaiting (awaiting_threads_term p ++ [v]) p));;
     set_state v (AwaitingThreadsTermination id tag);;
     work_on v (AwaitingThreadsTermination id tag)
  end.

(** [on_exit_start] *)
Definition on_exit_start (id raw : Z) (v : VirtualId) (tag : option Z) : comp ProcScheme (option Response) :=
  s ← get;
  match processes s !! id with
  | None => mret (answer tag (ready_err EBADFD))
  | Some p =>
     match status p with
     | Exiting _ _ => mret (answer tag (ready_err EAGAIN))
     | Exited _ _ => mret (answer tag (ready_err ESRCH))
     | _ =>
        match exit_status raw with
        | None => mret (answer tag (ready_err EINVAL))
        | Some (st, signal) => begin_exit id p st signal v tag
        end
     end
  end.

(** ** Requests *)

(** [metadata[i]], which panics out of range *)
Definition meta (op : OpCall) (i : nat) : comp ProcScheme Z := expect (op_metadata op !! i).

(** [NonZeroUsize::new(x).map_or(id, ..)] *)
Definition or_pid (x id : Z) : Z := if bool_decide (x = 0) then id else x.

(** [plain::slice_from_bytes::<u32>] *)
Definition slice_u32 (op : OpCall) : option (list Z) :=
  if op_aligned op then
    Some ((λ i, le_val (slice (op_payload op) (4 * i) 4)) <$> seq 0 (length (op_payload op) / 4))
  else None.

(** [Waitpid] and [Waitpgid] *)
Definition call_wait (v : VirtualId) (op : OpCall) (fd_pid : Z) (by_group : bool) : comp ProcScheme (option Response) :=
  m1 ← meta op 1;
  let target :=
    match by_group, bool_decide (m1 = 0) with
    | false, true => AnyChild
    | false, false => SingleProc m1
    | true, true => AnyGroupMember
    | true, false => ProcGroup m1
    end in
  m2 ← meta op 2;
  match wait_flags_of_bits m2 with
  | None => mret (ready_err EINVAL (op_tag op))
  | Some flags =>
     set_state v (AwaitingStatusChange fd_pid target flags op);;
     work_on v (AwaitingStatusChange fd_pid target flags op)
  end.

(** [Setpgid], which is also [getpgid] *)
Definition call_setpgid (op : OpCall) (fd_pid : Z) : comp ProcScheme (option Response) :=
  m1 ← meta op 1;
  let target_pid := or_pid m1 fd_pid in
  m2 ← meta op 2;
  let new_pgid := or_pid m2 target_pid in
  if bool_decide (new_pgid = usize_max)
  then respond (on_getpgid fd_pid target_pid) id (λ _, NoExtra) (op_tag op)
  else respond_unit (on_setpgid fd_pid target_pid new_pgid) (op_tag op).

(** [Kill] and [Sigq] *)
Definition call_kill (op : OpCall) (fd_pid : Z) (queued : bool) : comp ProcScheme (option Response) :=
  m1 ← meta op 1;
  m2 ← meta op 2;
  if negb (bool_decide (m2 ≤ 64)) then mret (ready_err EINVAL (op_tag op))
  else if queued && negb (bool_decide (length (op_payload op) = rt_sig_info_size))
  then mret (ready_err EINVAL (op_tag op))
  else
    (if queued && negb local_aligned then panic else mret tt);;
    respond_unit
      (on_kill fd_pid (kill_target_of_raw m1) m2 (if queued then Queued (op_payload op) else Idempotent)) (op_tag op).

(** A call on a process *)
Definition proc_call (v : VirtualId) (op : OpCall) (fd_pid : Z) (verb : ProcCall) :
    comp ProcScheme (option Response) :=
  let tag := op_tag op in
  match verb with
  | Exit => m1 ← meta op 1; on_exit_start fd_pid (wrap_u16 m1) v (Some tag)
  | Waitpid => call_wait v op fd_pid false
  | Waitpgid => call_wait v op fd_pid true
  | Setpgid => call_setpgid op fd_pid
  | Getsid => m1 ← meta op 1; respond (on_getsid fd_pid (or_pid m1 fd_pid)) id (λ _, NoExtra) tag
  | Getppid => respond (on_getppid fd_pid) id (λ _, NoExtra) tag
  | Setsid => respond_unit (on_setsid fd_pid) tag
  | SetResugid => respond_unit (on_setresugid fd_pid (slice_u32 op)) tag
  | Kill => call_kill op fd_pid false
  | Sigq => call_kill op fd_pid true
  | SyncSigPctl => respond_unit (on_sync_sigpctl fd_pid) tag
  | Sigdeq =>
     respond (on_sigdeq fd_pid (op_payload op)) (λ _, 0) (λ front, Filled (copy_at (op_payload op) 0 front)) tag
  | Rename => respond_unit (on_proc_rename fd_pid (op_payload op)) tag
  | DisableSetpgid => respond_unit (p ← proc fd_pid ESRCH; put_proc fd_pid (set_disabled true p)) tag
  | GetProcCredentials => mret (ready_err EACCES tag)
  | Setrens => mret (ready_err EINVAL tag)
  | SetProcPriority =>
     m1 ← meta op 1;
     m2 ← meta op 2;
     respond_unit (on_setprocprio fd_pid (or_pid m1 fd_pid) (wrap_u32 m2)) tag
  | GetProcPriority => m1 ← meta op 1; respond (on_getprocprio (or_pid m1 fd_pid)) id (λ _, NoExtra) tag
  end.

(** A call on a thread *)
Definition thread_call (op : OpCall) (place : Z) (verb : ThreadCall) : comp ProcScheme (option Response) :=
  match verb with
  | SyncSigTctl => respond_unit (on_sync_sigtctl place) (op_tag op)
  | SignalThread => m1 ← meta op 1; respond_unit (on_kill_thread place (m1 `mod` 256)) (op_tag op)
  end.

(** [on_call] *)
Definition on_call (v : VirtualId) (op : OpCall) : comp ProcScheme (option Response) :=
  let tag := op_tag op in
  h ← handle_at (op_fd op);
  match h with
  | HInit | HSchemeRoot => mret (ready_err EBADF tag)
  | HPs _ => mret (ready_err EOPNOTSUPP tag)
  | HThread place =>
     s ← get;
     match upgrade place s with
     | None => mret (ready_err EOWNERDEAD tag)
     | Some _ =>
        m0 ← meta op 0;
        match thread_call_of_raw m0 with
        | None => mret (ready_err EINVAL tag)
        | Some verb => thread_call op place verb
        end
     end
  | HProc fd_pid =>
     m0 ← meta op 0;
     match proc_call_of_raw m0 with
     | None => mret (ready_err EINVAL tag)
     | Some verb => proc_call v op fd_pid verb
     end
  | HProcCredsCapability =>
     m0 ← meta op 0;
     match proc_call_of_raw m0 with
     | Some GetProcCredentials =>
        m1 ← meta op 1;
        respond (read_process_metadata m1 (op_payload op) (op_aligned op)) fst (Filled ∘ snd) tag
     | _ => mret (ready_err EINVAL tag)
     end
  end.

(** [on_close] *)
Definition on_close (id : Z) : comp ProcScheme unit := modify (set_handles (delete id)).

(** The requests that the kernel sends *)
Inductive Request : Type :=
  | ReqOpenAt (tag fd : Z) (path : string) (flags uid : Z)
  | ReqDup (tag fd : Z) (buf : bytes)
  | ReqRead (tag fd offset : Z) (buf : bytes) (aligned : bool)
  | ReqCall (request_id : Z) (op : OpCall)
  | ReqFpath (tag : Z) (buf : bytes)
  | ReqFsize (tag fd : Z)
  | ReqFstat (tag fd : Z)
  | ReqUnsupported (tag : Z)
  | ReqCancellation (id : Z)
  | ReqOnClose (id : Z)
  | ReqSendFd (tag id : Z)
  | ReqIgnored.

(** [Response::open_dup_like] *)
Definition open_dup_like (m : comp ProcScheme OpenResult) (tag : Z) : comp ProcScheme (option Response) :=
  respond m (λ o, match o with ThisScheme n => n | OtherScheme fd => fd end) Opened tag.

(** A request that the kernel cancels; an exit goes on without the one who waits for it *)
Definition on_cancel (request : Z) : comp ProcScheme (option Response) :=
  s ← get;
  match states s !! KernelId request with
  | None => mret None
  | Some st =>
     drop_state (KernelId request);;
     match st with
     | AwaitingStatusChange _ _ _ op => mret (ready_err ECANCELED (op_tag op))
     | AwaitingThreadsTermination id tag =>
        n ← bump_internal;
        set_state (InternalId n) (AwaitingThreadsTermination id None);;
        wake [InternalId n];;
        mret (answer tag (ready_err ECANCELED))
     | Placeholder => mret None
     end
  end.

(** [Fsize] and [Fstat] *)
Definition ps_size (fd tag : Z) (found : Z → Response) : comp ProcScheme (option Response) :=
  h ← handle_at fd;
  match h with
  | HPs b => mret (Some (found (Z.of_nat (length b))))
  | _ => mret (ready_err EOPNOTSUPP tag)
  end.

(** [handle_scheme] *)
Definition handle_scheme (req : Request) : comp ProcScheme (option Response) :=
  match req with
  | ReqOpenAt tag fd path flags uid => open_dup_like (on_openat fd path flags uid) tag
  | ReqDup tag fd buf => open_dup_like (on_dup fd buf) tag
  | ReqRead tag fd offset buf aligned => respond (on_read fd offset buf aligned) fst (Filled ∘ snd) tag
  | ReqCall request_id op =>
     drop_state (KernelId request_id);;
     on_call (KernelId request_id) op
  | ReqFpath tag buf =>
     let scheme_path := str_bytes "/scheme/proc/" in
     let scheme_bytes := Nat.min (length scheme_path) (length buf) in
     mret (Some (mk_response tag (inr (Z.of_nat scheme_bytes)) (Filled (copy_at buf 0 (take scheme_bytes scheme_path)))))
  | ReqFsize tag fd => ps_size fd tag (λ n, mk_response tag (inr n) NoExtra)
  | ReqFstat tag fd => ps_size fd tag (λ n, mk_response tag (inr 0) (Stat n (Z.lor MODE_FILE 0x124)))
  | ReqUnsupported tag => mret (ready_err ENOSYS tag)
  | ReqCancellation id => on_cancel id
  | ReqOnClose id => on_close id;; mret None
  | ReqSendFd tag id => on_sendfd id tag
  | ReqIgnored => mret None
  end.

(** ** The main loop *)

(** What the status of a context means for the exit of its process *)
Definition death_status (sts : Z) : option Z :=
  if bool_decide (sts = StDead) then Some 0
  else if bool_decide (sts = StForceKilled) then Some (wrap_u16 (Z.shiftl SIGKILL 8))
  else if bool_decide (sts = StUnhandledExcp) then Some 1
  else None.

(** The last thread of a process is gone and nobody has called exit *)
Definition exit_unasked (id status : Z) : comp ProcScheme unit :=
  n ← bump_internal;
  s ← get;
  match states s !! InternalId n with
  | Some _ => mret tt
  | None =>
     r ← on_exit_start id status (InternalId n) None;
     match r with Some _ => panic | None => mret tt end
  end.

(** A thread of the process [id] has ended with the exit status [st] *)
Definition thread_died (fd place id : Z) (p : Process) (st : Z) : comp ProcScheme unit :=
  attempt (sys (SysUnsubscribe fd));;
  modify (set_lookup (delete fd));;
  let p := set_threads (filter (λ x, x ≠ place) (threads p)) p in
  match status p with
  | Exiting _ _ =>
     put_proc id (set_awaiting [] p);;
     wake (awaiting_threads_term p)
  | _ =>
     put_proc id p;;
     if bool_decide (threads p = []) then exit_unasked id st else mret tt
  end.

(** An event of the thread with the descriptor [fd] *)
Definition thread_event (fd : Z) : comp ProcScheme unit :=
  s ← get;
  match thread_lookup s !! fd with
  | None => mret tt
  | Some place =>
     match upgrade place s with
     | None => mret tt
     | Some t =>
        match processes s !! t_pid t with
        | None => mret tt
        | Some p =>
           sts ← unwrap (sys (SysReadStatus (status_hndl t)));
           match death_status sts with
           | None => mret tt
           | Some st => thread_died fd place (t_pid t) p st
           end
        end
     end
  end.

(** The next request that was woken *)
Definition work_awoken : comp ProcScheme (option Response) :=
  s ← get;
  match awoken s with
  | [] => mret None
  | v :: rest =>
     modify (set_awoken (λ _, rest));;
     match states s !! v with
     | None => mret None
     | Some st => work_on v st
     end
  end.

(** The [while] loop over [awoken] and [new_awoken], which together are one queue; [None]
    when the fuel was not enough *)
Fixpoint drain (fuel : nat) (s : ProcScheme) : option (outcome (list Response) * ProcScheme) :=
  match awoken s with
  | [] => Some (Ok [], s)
  | _ =>
     match fuel with
     | O => None
     | S fuel =>
        match work_awoken s with
        | (Ok r, s') =>
           match drain fuel s' with
           | Some (Ok rs, s'') => Some (Ok (option_list r ++ rs), s'')
           | other => other
           end
        | (Err e, s') => Some (Err e, s')
        | (Panic, s') => Some (Panic, s')
        end
     end
  end.

(** What can happen: a request, an event of a thread, the next request that was woken, and
    a process that writes to a page that it shares with the manager *)
Inductive label : Type :=
  | LRequest (req : Request)
  | LThread (fd : Z)
  | LWork
  | LProcPage (id : Z) (page : SigProcControl)
  | LThreadPage (place : Z) (page : Sigcontrol).

Definition step (l : label) : comp ProcScheme (option Response) :=
  match l with
  | LRequest req => handle_scheme req
  | LThread fd => thread_event fd;; mret None
  | LWork => work_awoken
  | LProcPage id page =>
     modify (set_processes (alter (λ p, set_pctl ((λ _, page) <$> sig_pctl p) p) id));;
     mret None
  | LThreadPage place page =>
     modify (set_store (alter (λ t, set_tctl ((λ _, page) <$> sig_ctrl t) t) place));;
     mret None
  end.
End Ops.
