(* ===== verification/ProcmgrInv.v ===== *)
(** * The tables of the process manager are consistent

    An invariant of [Procmgr]: the group table lists exactly the processes of each group, ids
    are in range, and every thread that a process lists is its own.  Every step keeps it, no
    step panics under the conditions of [step_ok], and privileges that a process does not have
    are never gained by it or its descendants. *)

From S2P Require Import Prelude Abi SchemeUtils Procmgr.

Section View.
Context {PA : ProcAbi}.

(** What most operations leave as it is *)
Definition core (p : Process) : Z * Z * list Z * (Z * Z * Z) * (Z * Z * Z) :=
  (pid p, pgid p, threads p, (ruid p, euid p, suid p), (rgid p, egid p, sgid p)).

(** How the end of a process has gone so far, and its parent *)
Definition face (p : Process) : option (option Z * Z) * option (option Z * Z) * Z :=
  (match status p with Exiting sig st => Some (sig, st) | _ => None end,
   match status p with Exited sig st => Some (sig, st) | _ => None end, ppid p).

Record same (s s' : ProcScheme) : Prop := mk_same {
  same_procs : core <$> processes s' = core <$> processes s;
  same_groups : groups s' = groups s;
  same_handles : handles s' = handles s;
  same_store : t_pid <$> thread_store s' = t_pid <$> thread_store s;
  same_place : next_place s' = next_place s;
  same_claimed : init_claimed s' = init_claimed s;
  same_next_id : next_id s' = next_id s;
  same_lookup : thread_lookup s' = thread_lookup s;
}.

#[global] Instance same_preorder : PreOrder same.
Proof.
  split.
  - intros s. by split.
  - intros s1 s2 s3 [] []. split; by etrans.
Qed.

(** A request that waits for the children of [id], or is woken already *)
Definition listens (id : Z) (v : VirtualId) (s : ProcScheme) : Prop :=
  v ∈ awoken s ∨ ∃ p, processes s !! id = Some p ∧ v ∈ waitpid_waiting p.

(** [same], no process ends or gets another parent, and no waiting request is forgotten *)
Record quiet (s s' : ProcScheme) : Prop := mk_quiet {
  quiet_same : same s s';
  quiet_face : face <$> processes s' = face <$> processes s;
  quiet_states : states s' = states s;
  quiet_listens : ∀ id v, listens id v s → listens id v s';
}.

#[global] Instance quiet_preorder : PreOrder quiet.
Proof.
  split.
  - intros s. by split.
  - intros s1 s2 s3 [] []. split; [by etrans..|eauto].
Qed.

(** [quiet], and the processes are as they were *)
Definition still (s s' : ProcScheme) : Prop := quiet s s' ∧ processes s' = processes s.

#[global] Instance still_preorder : PreOrder still.
Proof.
  split.
  - intros s. by split.
  - intros s1 s2 s3 [] []. split; by etrans.
Qed.

Lemma fmap_put {A B} (f : A → B) (m : gmap Z A) i x y :
  m !! i = Some x → f y = f x → f <$> <[i := y]> m = f <$> m.
Proof. intros Hx Hy. rewrite fmap_insert, Hy. apply insert_id. by rewrite lookup_fmap, Hx. Qed.

Lemma same_proc s s' id p' :
  same s s' → processes s' !! id = Some p' → ∃ p, processes s !! id = Some p ∧ core p = core p'.
Proof.
  intros H Hp. pose proof (same_procs _ _ H) as E. apply (f_equal (lookup id)) in E.
  rewrite !lookup_fmap, Hp in E. destruct (processes s !! id) as [p|]; [|done]. apply (inj Some) in E. eauto.
Qed.

Lemma same_proc_fwd s s' id p :
  same s s' → processes s !! id = Some p → ∃ p', processes s' !! id = Some p' ∧ core p = core p'.
Proof.
  intros H Hp. pose proof (same_procs _ _ H) as E. apply (f_equal (lookup id)) in E.
  rewrite !lookup_fmap, Hp in E. destruct (processes s' !! id) as [p'|]; [|done]. apply (inj Some) in E. eauto.
Qed.

Lemma core_eq p p' : core p = core p' →
  pid p = pid p' ∧ pgid p = pgid p' ∧ threads p = threads p' ∧ ruid p = ruid p' ∧ euid p = euid p' ∧ suid p = suid p'.
Proof. unfold core. intros E. by simplify_eq. Qed.

Lemma same_thread s s' place : same s s' → t_pid <$> thread_store s' !! place = t_pid <$> thread_store s !! place.
Proof. intros H. by rewrite <-!lookup_fmap, (same_store _ _ H). Qed.

(** ** The invariant *)

Record proc_wf (s : ProcScheme) : Prop := mk_proc_wf {
  wf_pid : ∀ id p, processes s !! id = Some p → pid p = id ∧ 1 ≤ id < next_id s;
  wf_group : ∀ id p, processes s !! id = Some p → ∃ l, groups s !! pgid p = Some l ∧ id ∈ l;
  wf_members : ∀ g l, groups s !! g = Some l →
    l ≠ [] ∧ NoDup l ∧ ∀ id, id ∈ l → ∃ p, processes s !! id = Some p ∧ pgid p = g;
  wf_threads : ∀ id p, processes s !! id = Some p →
    NoDup (threads p) ∧ ∀ place, place ∈ threads p → t_pid <$> thread_store s !! place = Some id;
  wf_places : ∀ place, is_Some (thread_store s !! place) → place < next_place s;
  wf_unclaimed : init_claimed s = false → ∀ i, handles s !! i ≠ Some HInit;
  wf_one_init : ∀ i j, handles s !! i = Some HInit → handles s !! j = Some HInit → i = j;
  wf_first : init_claimed s = false ∨ (∃ i, handles s !! i = Some HInit) → processes s = ∅;
  wf_next : 2 ≤ next_id s;
}.

Lemma same_wf s s' : same s s' → proc_wf s → proc_wf s'.
Proof.
  intros H W. pose proof H as [Hp Hg Hh Hs Hpl Hc Hn Hl].
  split; rewrite ?Hg, ?Hh, ?Hpl, ?Hc, ?Hn; try apply W.
  - intros id p' Hp'. destruct (same_proc _ _ _ _ H Hp') as (p & E & C). apply core_eq in C as (Ei & Eg & Et & Er & Ee & Es).
    rewrite <-Ei. by apply (wf_pid _ W).
  - intros id p' Hp'. destruct (same_proc _ _ _ _ H Hp') as (p & E & C). apply core_eq in C as (Ei & Eg & Et & Er & Ee & Es).
    rewrite <-Eg. by apply (wf_group _ W).
  - intros g l Hl'. destruct (wf_members _ W g l Hl') as (? & ? & Hm). split_and!; [done|done|].
    intros id Hid. destruct (Hm id Hid) as (p & E & <-).
    destruct (same_proc_fwd _ _ _ _ H E) as (p' & E' & C). exists p'. by apply core_eq in C as (Ei & <- & Et & Er & Ee & Es).
  - intros id p' Hp'. destruct (same_proc _ _ _ _ H Hp') as (p & E & C). apply core_eq in C as (Ei & Eg & Et & Er & Ee & Es).
    rewrite <-Et. destruct (wf_threads _ W id p E) as [? Ht]. split; [done|]. intros place Hin.
    by rewrite (same_thread _ _ _ H), Ht.
  - intros place Hs'. apply (wf_places _ W). rewrite <-(fmap_is_Some t_pid), <-(same_thread _ _ place H).
    by apply fmap_is_Some.
  - intros Hi. apply (wf_first _ W) in Hi. rewrite Hi, fmap_empty in Hp. by apply fmap_empty_inv in Hp.
Qed.

(** ** Privileges *)

(** The first process was made, and there will be no other *)
Definition booted (s : ProcScheme) : Prop := init_claimed s = true ∧ ∀ i, handles s !! i ≠ Some HInit.

(** A process that can have the effective user 0 by calling [setresugid] *)
Definition root_capable (p : Process) : Prop := ruid p = 0 ∨ euid p = 0 ∨ suid p = 0.

(** A process of [s'] was there before with no fewer privileges, or is a child of one with no
    fewer privileges, or is the first *)
Record evolves (s s' : ProcScheme) : Prop := mk_evolves {
  evo_next : next_id s ≤ next_id s';
  evo_booted : booted s → booted s';
  evo_procs : ∀ id p', processes s' !! id = Some p' →
    (∃ p, processes s !! id = Some p ∧ (root_capable p' → root_capable p)) ∨
    (next_id s ≤ id ∧ ∃ p, processes s !! ppid p' = Some p ∧ (root_capable p' → root_capable p)) ∨
    ¬ booted s;
}.

Lemma wf_booted s id p : proc_wf s → processes s !! id = Some p → booted s.
Proof.
  intros W Hp. split.
  - destruct (init_claimed s) eqn:E; [done|]. rewrite (wf_first _ W) in Hp; [done|by left].
  - intros i Hi. rewrite (wf_first _ W) in Hp; [done|right; by exists i].
Qed.

(** [evolves] without new processes *)
Record kept (s s' : ProcScheme) : Prop := mk_kept {
  kept_next : next_id s' = next_id s;
  kept_booted : booted s → booted s';
  kept_procs : ∀ id p', processes s' !! id = Some p' →
    ∃ p, processes s !! id = Some p ∧ (root_capable p' → root_capable p);
}.

#[global] Instance kept_preorder : PreOrder kept.
Proof.
  split.
  - intros s. split; [done|done|eauto].
  - intros s1 s2 s3 [N1 B1 P1] [N2 B2 P2]. split; [congruence|auto|].
    intros id p3 H3. destruct (P2 _ _ H3) as (p2 & H2 & R2). destruct (P1 _ _ H2) as (p1 & H1 & R1). eauto.
Qed.

Lemma same_kept s s' : same s s' → kept s s'.
Proof.
  intros H. split.
  - apply (same_next_id _ _ H).
  - unfold booted. by rewrite (same_claimed _ _ H), (same_handles _ _ H).
  - intros id p' Hp'. destruct (same_proc _ _ _ _ H Hp') as (p & E & C). exists p. split; [done|].
    apply core_eq in C as (Ei & Eg & Et & Er & Ee & Es). unfold root_capable. by rewrite Er, Ee, Es.
Qed.

Lemma kept_evolves s s' : kept s s' → evolves s s'.
Proof. intros [N B P]. split; [lia|done|]. intros id p' Hp'. left. by apply P. Qed.

(** The invariant is kept, and nothing is made *)
Definition safe (s s' : ProcScheme) : Prop := proc_wf s → proc_wf s' ∧ kept s s'.

#[global] Instance safe_preorder : PreOrder safe.
Proof.
  split.
  - intros s W. by split.
  - intros s1 s2 s3 H1 H2 W. destruct (H1 W) as [W2 K1]. destruct (H2 W2) as [W3 K2]. split; [done|by etrans].
Qed.

Lemma same_safe s s' : same s s' → safe s s'.
Proof. intros H W. split; [by eapply same_wf|by apply same_kept]. Qed.

Lemma quiet_safe s s' : quiet s s' → safe s s'.
Proof. intros H. apply same_safe, H. Qed.

(** ** Postconditions: a step that changes nothing of [core], one that keeps the invariant.
    [ok] is the condition under which it does not panic *)

Definition rests (R : ProcScheme → ProcScheme → Prop) (ok : Prop) {A} (s : ProcScheme) (r : outcome A) (s' : ProcScheme) : Prop :=
  match r with Panic => ¬ ok | _ => R s s' end.

Definition good (s s' : ProcScheme) : Prop := proc_wf s' ∧ evolves s s'.

Lemma rests_weaken (R R' : ProcScheme → ProcScheme → Prop) ok {A} (m : comp ProcScheme A) s0 s :
  wp m (rests R ok s) s → (∀ s', R s s' → R' s0 s') → wp m (rests R' ok s0) s.
Proof. intros H HR. eapply wp_mono; [exact H|]. intros [] s'; cbn; auto. Qed.

Lemma safe_good s s' : proc_wf s → safe s s' → good s s'.
Proof. intros W H. destruct (H W). split; [done|by apply kept_evolves]. Qed.

(** ** The group table *)

Lemma leave_group_other id g l m g' : g' ≠ g → leave_group id g l m !! g' = m !! g'.
Proof. intros. unfold leave_group. case_bool_decide; [by apply lookup_delete_ne|by apply lookup_insert_ne]. Qed.

Lemma leave_group_same id g l m l' :
  leave_group id g l m !! g = Some l' → l' ≠ [] ∧ l' = filter (λ x, x ≠ id) l.
Proof.
  unfold leave_group. case_bool_decide as E.
  - by rewrite lookup_delete_eq.
  - rewrite lookup_insert_eq. intros [= <-]. done.
Qed.

Lemma leave_group_member id g l m x : x ∈ l → x ≠ id → ∃ l', leave_group id g l m !! g = Some l' ∧ x ∈ l'.
Proof.
  intros Hx Hn. assert (x ∈ filter (λ x, x ≠ id) l) as Hin by (by apply list_elem_of_filter).
  unfold leave_group. rewrite bool_decide_eq_false_2 by (intros E; rewrite E in Hin; by apply elem_of_nil in Hin).
  rewrite lookup_insert_eq. eauto.
Qed.

(** A process without threads is taken out of the tables *)
Lemma remove_safe s id p l :
  processes s !! id = Some p → groups s !! pgid p = Some l →
  safe s (set_groups (leave_group id (pgid p) l) (set_processes (delete id) s)).
Proof.
  intros Hp Hg W. split; [|split; [done|done|]].
  2:{ intros id' p' H'. cbn in H'. apply lookup_delete_Some in H' as [_ H']. eauto. }
  split; cbn; try apply W.
  - intros id' p' H'. apply lookup_delete_Some in H' as [_ H']. by apply (wf_pid _ W).
  - intros id' p' [Hn H']%lookup_delete_Some. destruct (wf_group _ W _ _ H') as (l' & Hl' & Hin).
    destruct (decide (pgid p' = pgid p)) as [E|E].
    + rewrite E in Hl' |- *. simplify_eq. by apply leave_group_member.
    + rewrite leave_group_other by done. eauto.
  - intros g l' Hl'. destruct (decide (g = pgid p)) as [->|Hne].
    + apply leave_group_same in Hl' as [Hnil ->]. destruct (wf_members _ W _ _ Hg) as (_ & Hnd & Hm).
      split_and!; [done|by apply NoDup_filter|]. intros x [Hx Hin]%list_elem_of_filter.
      destruct (Hm x Hin) as (q & Hq & Hqg). exists q. by rewrite lookup_delete_ne by done.
    + rewrite leave_group_other in Hl' by done. destruct (wf_members _ W _ _ Hl') as (? & ? & Hm).
      split_and!; [done|done|]. intros x Hin. destruct (Hm x Hin) as (q & Hq & Hqg). exists q.
      rewrite lookup_delete_ne; [done|]. intros <-. congruence.
  - intros id' p' H'. apply lookup_delete_Some in H' as [_ H']. by apply (wf_threads _ W).
  - intros Hi. apply (wf_first _ W) in Hi. by rewrite Hi in Hp.
Qed.

(** A process moves to another group *)
Lemma regroup_safe s id p l new :
  processes s !! id = Some p → groups s !! pgid p = Some l → pgid p ≠ new →
  safe s (set_processes <[id := put_pgid new p]>
    (set_groups <[new := default [] (leave_group id (pgid p) l (groups s) !! new) ++ [id]]>
      (set_groups (leave_group id (pgid p) l) s))).
Proof.
  intros Hp Hg Hnew W. rewrite leave_group_other by done. split; [|split; [done|done|]].
  2:{ intros id' p' H'. cbn in H'. apply lookup_insert_Some in H' as [[<- <-]|[_ H']]; eauto. }
  assert (Hnotin : ∀ l', groups s !! new = Some l' → id ∉ l').
  { intros l' Hl' Hin. destruct (wf_members _ W _ _ Hl') as (_ & _ & Hm). destruct (Hm id Hin) as (q & Hq & Hqg). congruence. }
  split; cbn; try apply W.
  - intros id' p' [[<- <-]|[_ H']]%lookup_insert_Some; [exact (wf_pid _ W _ _ Hp)|by apply (wf_pid _ W)].
  - intros id' p' [[<- <-]|[Hn H']]%lookup_insert_Some.
    + cbn. rewrite lookup_insert_eq. eexists. split; [done|]. set_solver.
    + destruct (wf_group _ W _ _ H') as (l' & Hl' & Hin). destruct (decide (pgid p' = new)) as [E|E].
      * rewrite E in Hl' |- *. rewrite lookup_insert_eq, Hl'. eexists. split; [done|]. set_solver.
      * rewrite lookup_insert_ne by done. destruct (decide (pgid p' = pgid p)) as [E'|E'].
        -- rewrite E' in Hl' |- *. simplify_eq. by apply leave_group_member.
        -- rewrite leave_group_other by done. eauto.
  - intros g l' [[<- <-]|[Hne Hl']]%lookup_insert_Some.
    + destruct (groups s !! new) as [l0|] eqn:E0; cbn.
      * destruct (wf_members _ W _ _ E0) as (? & Hnd & Hm). split_and!.
        -- by intros [? ?]%app_nil.
        -- apply NoDup_snoc; [done|by apply Hnotin].
        -- intros x [Hin| ->]%elem_of_snoc; [|exists (put_pgid new p); by rewrite lookup_insert_eq].
           destruct (Hm x Hin) as (q & Hq & Hqg). exists q. rewrite lookup_insert_ne; [done|]. intros <-. congruence.
      * split_and!; [done|apply NoDup_singleton|]. intros x Hx. apply list_elem_of_singleton in Hx as ->.
        exists (put_pgid new p). by rewrite lookup_insert_eq.
    + destruct (decide (g = pgid p)) as [->|Hne'].
      * apply leave_group_same in Hl' as [Hnil ->]. destruct (wf_members _ W _ _ Hg) as (_ & Hnd & Hm).
        split_and!; [done|by apply NoDup_filter|]. intros x [Hx Hin]%list_elem_of_filter.
        destruct (Hm x Hin) as (q & Hq & Hqg). exists q. by rewrite lookup_insert_ne by done.
      * rewrite leave_group_other in Hl' by done. destruct (wf_members _ W _ _ Hl') as (? & ? & Hm).
        split_and!; [done|done|]. intros x Hin. destruct (Hm x Hin) as (q & Hq & Hqg). exists q.
        rewrite lookup_insert_ne; [done|]. intros <-. congruence.
  - intros id' p' [[<- <-]|[_ H']]%lookup_insert_Some; [exact (wf_threads _ W _ _ Hp)|by apply (wf_threads _ W)].
  - intros Hi. apply (wf_first _ W) in Hi. by rewrite Hi in Hp.
Qed.

(** A process keeps its place in the tables, and gets no new threads or privileges *)
Lemma replace_safe s id p p' :
  processes s !! id = Some p → pid p' = pid p → pgid p' = pgid p → sublist (threads p') (threads p) →
  (root_capable p' → root_capable p) → safe s (set_processes <[id := p']> s).
Proof.
  intros Hp Hi Hg Ht Hr W. split; [|split; [done|done|]].
  2:{ intros id' q H'. cbn in H'. apply lookup_insert_Some in H' as [[<- <-]|[_ H']]; eauto. }
  split; cbn; try apply W.
  - intros id' q [[<- <-]|[_ H']]%lookup_insert_Some; [rewrite Hi|]; by apply (wf_pid _ W).
  - intros id' q [[<- <-]|[_ H']]%lookup_insert_Some; [rewrite Hg|]; by apply (wf_group _ W).
  - intros g l Hl. destruct (wf_members _ W _ _ Hl) as (? & ? & Hm). split_and!; [done|done|].
    intros x Hin. destruct (Hm x Hin) as (q & Hq & Hqg). destruct (decide (x = id)) as [->|Hne].
    + rewrite lookup_insert_eq. eexists. split; [done|]. congruence.
    + rewrite lookup_insert_ne by done. eauto.
  - intros id' q [[<- <-]|[_ H']]%lookup_insert_Some; [|by apply (wf_threads _ W)].
    destruct (wf_threads _ W _ _ Hp) as [Hnd Hpl]. split; [by eapply sublist_NoDup|].
    intros x Hin. apply Hpl. by eapply elem_of_sublist.
  - intros Hf. apply (wf_first _ W) in Hf. by rewrite Hf in Hp.
Qed.

(** ** New threads and processes *)

(** The store has a new thread, which is not yet listed *)
Definition with_thread (t : Thread) (s : ProcScheme) : ProcScheme :=
  set_store <[next_place s := t]> (set_next_place (next_place s + 1) s).

Lemma fresh_place s : proc_wf s → thread_store s !! next_place s = None.
Proof.
  intros W. destruct (thread_store s !! next_place s) eqn:E; [|done].
  pose proof (wf_places _ W (next_place s)) as H. rewrite E in H. specialize (H ltac:(eauto)). lia.
Qed.

Lemma with_thread_safe t s : safe s (with_thread t s).
Proof.
  intros W. split; [|split; [done|done|eauto]]. pose proof (fresh_place s W) as Hf. split; cbn; try apply W.
  - intros id p Hp. destruct (wf_threads _ W _ _ Hp) as [Hnd Ht]. split; [done|]. intros place Hin.
    rewrite lookup_insert_ne; [by apply Ht|]. intros <-. specialize (Ht _ Hin). by rewrite Hf in Ht.
  - intros place [t' [[<- _]|[_ H]]%lookup_insert_Some]; [lia|].
    pose proof (wf_places _ W place ltac:(eauto)). lia.
Qed.

(** A process lists one more thread *)
Lemma add_thread_safe s id p0 p place :
  processes s !! id = Some p0 → core p = core p0 → place ∉ threads p → t_pid <$> thread_store s !! place = Some id →
  safe s (set_processes <[id := set_threads (threads p ++ [place]) p]> s).
Proof.
  intros Hp Hc Hnot Hpl W. apply core_eq in Hc as (Ei & Eg & Et & Er & Ee & Es). split; [|split; [done|done|]].
  2:{ intros id' q H'. cbn in H'. apply lookup_insert_Some in H' as [[<- <-]|[_ H']]; [|eauto].
      exists p0. split; [done|]. unfold root_capable. cbn. by rewrite Er, Ee, Es. }
  split; cbn; try apply W.
  - intros id' q [[<- <-]|[_ H']]%lookup_insert_Some; cbn; [rewrite Ei|]; by apply (wf_pid _ W).
  - intros id' q [[<- <-]|[_ H']]%lookup_insert_Some; cbn; [rewrite Eg|]; by apply (wf_group _ W).
  - intros g l Hl. destruct (wf_members _ W _ _ Hl) as (? & ? & Hm). split_and!; [done|done|].
    intros x Hin. destruct (Hm x Hin) as (q & Hq & Hqg). destruct (decide (x = id)) as [->|Hne].
    + rewrite lookup_insert_eq. eexists. split; [done|]. cbn. congruence.
    + rewrite lookup_insert_ne by done. eauto.
  - intros id' q [[<- <-]|[_ H']]%lookup_insert_Some; [|by apply (wf_threads _ W)]. cbn.
    destruct (wf_threads _ W _ _ Hp) as [Hnd Ht]. rewrite Et in Hnot |- *. split; [by apply NoDup_snoc|].
    intros x [Hin| ->]%elem_of_snoc; [by apply Ht|done].
  - intros Hf. apply (wf_first _ W) in Hf. by rewrite Hf in Hp.
Qed.

Lemma set_lookup_safe f s : safe s (set_lookup f s).
Proof. intros W. split; [|split; [done|done|eauto]]. split; apply W. Qed.

(** A new process in the group of its parent *)
Lemma add_proc_wf s parent p child place np :
  proc_wf s → processes s !! parent = Some p → processes s !! child = None → 1 ≤ child < next_id s →
  t_pid <$> thread_store s !! place = Some child →
  pid np = child → pgid np = pgid p → threads np = [place] →
  proc_wf (set_processes <[child := np]> (set_groups (alter (λ l, l ++ [child]) (pgid p)) s)).
Proof.
  intros W Hp Hc Hr Hpl Ei Eg Et. split; cbn; try apply W.
  - intros id q [[<- <-]|[_ H']]%lookup_insert_Some; [done|by apply (wf_pid _ W)].
  - intros id q [[<- <-]|[_ H']]%lookup_insert_Some.
    + destruct (wf_group _ W _ _ Hp) as (l & Hl & _). rewrite Eg, lookup_alter_eq, Hl. eexists. split; [done|]. set_solver.
    + destruct (wf_group _ W _ _ H') as (l & Hl & Hin). destruct (decide (pgid q = pgid p)) as [E|E].
      * rewrite E in Hl |- *. rewrite lookup_alter_eq, Hl. eexists. split; [done|]. set_solver.
      * rewrite lookup_alter_ne by done. eauto.
  - intros g l Hl. assert (∀ l0, groups s !! g = Some l0 → l0 ≠ [] ∧ NoDup l0 ∧ child ∉ l0 ∧
      ∀ x, x ∈ l0 → ∃ q, <[child := np]> (processes s) !! x = Some q ∧ pgid q = g) as Hold.
    { intros l0 Hl0. destruct (wf_members _ W _ _ Hl0) as (? & ? & Hm). split_and!; [done|done| |].
      - intros Hin. destruct (Hm _ Hin) as (q & Hq & _). congruence.
      - intros x Hin. destruct (Hm x Hin) as (q & Hq & Hqg). exists q. rewrite lookup_insert_ne; [done|]. intros <-. congruence. }
    destruct (decide (g = pgid p)) as [->|Hne].
    + rewrite lookup_alter_eq in Hl. destruct (groups s !! pgid p) as [l0|]; [|done]. injection Hl as <-.
      destruct (Hold l0 eq_refl) as (? & ? & ? & Hm). split_and!; [by intros [? ?]%app_nil|by apply NoDup_snoc|].
      intros x [Hin| ->]%elem_of_snoc; [by apply Hm|]. exists np. by rewrite lookup_insert_eq.
    + rewrite lookup_alter_ne in Hl by done. destruct (Hold l Hl) as (? & ? & _ & ?). done.
  - intros id q [[<- <-]|[_ H']]%lookup_insert_Some; [|by apply (wf_threads _ W)]. rewrite Et.
    split; [apply NoDup_singleton|]. intros x Hx. apply list_elem_of_singleton in Hx as ->. done.
  - intros Hf. apply (wf_first _ W) in Hf. by rewrite Hf in Hp.
Qed.

Lemma bump_wf s n : next_id s ≤ n → proc_wf s → proc_wf (set_next_id n s).
Proof.
  intros Hn W. split; cbn; try apply W.
  - intros id p Hp. destruct (wf_pid _ W _ _ Hp). split; [done|lia].
  - pose proof (wf_next _ W). lia.
Qed.

Lemma bump_evolves s n s' : next_id s ≤ n → kept (set_next_id n s) s' → evolves s s'.
Proof.
  intros Hn [N B P]. split; [cbn in N; lia|done|]. intros id p' Hp'. left. by apply P.
Qed.
End View.

(** The outermost branch of a computation *)
Ltac wp_if := match goal with |- wp (match ?b with _ => _ end) _ _ => destruct b eqn:? end.

Section Inv.
Context {SA : SyscallAbi} {PA : ProcAbi} {PL : ProcAbiLaws PA}.
Variable kernel : list sys_call → sys_call → errno + Z.
Variable mapped_pctl : list sys_call → SigProcControl.
Variable mapped_tctl : list sys_call → Sigcontrol.
Variable hash_order : list Z → list Z.
Variable slab_key : gmap Z Handle → Z.
Variable group_search : gmap Z (Z * WaitpidStatus) → Z → option Z.
Variable overflow_checks local_aligned : bool.

(** The calls whose errors the manager does not expect *)
Definition must_succeed (c : sys_call) : bool :=
  match c with
  | SysSubscribe _ | SysReadStatus _ | SysDupStatus _ => true
  | SysContextVerb _ verb =>
     bool_decide (verb = VerbUnstop) || bool_decide (verb = VerbInterrupt) || bool_decide (verb = VerbForceKill)
  | _ => false
  end.

Definition kernel_ok : Prop := ∀ log c, must_succeed c = true → ∃ v, kernel log c = inr v.

(** ** Rules *)

Lemma rests_bind (R : ProcScheme → ProcScheme → Prop) `{!Transitive R} ok {A B}
    (m : comp ProcScheme A) (f : A → comp ProcScheme B) s :
  wp m (rests R ok s) s → (∀ a s', R s s' → wp (f a) (rests R ok s') s') → wp (m ≫= f) (rests R ok s) s.
Proof.
  intros Hm Hf. apply wp_bind. eapply wp_mono; [exact Hm|]. intros [a|e|] s' HR; [|done|done].
  eapply rests_weaken; [by apply Hf|]. intros s'' HR'. by etrans.
Qed.

Lemma rests_for_each (R : ProcScheme → ProcScheme → Prop) `{!PreOrder R} ok {A}
    (f : A → comp ProcScheme unit) l s :
  (∀ a s', a ∈ l → R s s' → wp (f a) (rests R ok s') s') → wp (for_each f l) (rests R ok s) s.
Proof.
  revert s. induction l as [|a l IH]; intros s H; cbn [for_each].
  - apply wp_ret. cbn. reflexivity.
  - apply (rests_bind _); [apply H; [set_solver|reflexivity]|]. intros _ s' HR. apply IH.
    intros b s'' Hb HR'. apply H; [set_solver|]. by etrans.
Qed.

Lemma rests_result (R : ProcScheme → ProcScheme → Prop) ok {A} (m : comp ProcScheme A) s :
  wp m (rests R ok s) s → wp (result m) (rests R ok s) s.
Proof. unfold wp, result. by destruct (m s) as [[] ?]. Qed.

Lemma rests_attempt (R : ProcScheme → ProcScheme → Prop) ok {A} (m : comp ProcScheme A) s :
  wp m (rests R ok s) s → wp (attempt m) (rests R ok s) s.
Proof. unfold wp, attempt. by destruct (m s) as [[] ?]. Qed.

Lemma rests_respond (R : ProcScheme → ProcScheme → Prop) ok {A} (m : comp ProcScheme A) num extra tag s :
  wp m (rests R ok s) s → wp (respond m num extra tag) (rests R ok s) s.
Proof. unfold respond, wp, mbind, comp_bind, result. by destruct (m s) as [[] ?]. Qed.

Lemma sys_run c s :
  sys kernel c s = (match kernel (calls s) c with inr v => Ok v | inl e => Err e end, log_sys c s).
Proof. unfold sys, mbind, comp_bind, get, put. by destruct (kernel (calls s) c). Qed.

Lemma rests_log (R : ProcScheme → ProcScheme → Prop) ok c s :
  R s (log_sys c s) → wp (sys kernel c) (rests R ok s) s.
Proof. intros HR. unfold wp. rewrite sys_run. by destruct (kernel (calls s) c). Qed.

Lemma rests_unwrap_log (R : ProcScheme → ProcScheme → Prop) ok c s :
  (ok → kernel_ok) → must_succeed c = true → R s (log_sys c s) → wp (unwrap (sys kernel c)) (rests R ok s) s.
Proof.
  intros Hk Hc HR. unfold wp, unwrap. rewrite sys_run. destruct (kernel (calls s) c) eqn:E; [|done].
  cbn. intros Hok. destruct (Hk Hok (calls s) c Hc). congruence.
Qed.

Lemma quiet_log c s : quiet s (log_sys c s).
Proof. done. Qed.

Lemma still_log c s : still s (log_sys c s).
Proof. done. Qed.

Lemma quiet_put id p p' s :
  processes s !! id = Some p → core p' = core p → face p' = face p → waitpid_waiting p' = waitpid_waiting p →
  quiet s (set_processes <[id := p']> s).
Proof.
  intros Hp Hc Hf Hw. split; [split; try done|..]; cbn; try done; try by eapply fmap_put.
  intros i v [Hv|(q & Hq & Hv)]; [by left|]. right. cbn. destruct (decide (i = id)) as [->|Hne].
  - rewrite lookup_insert_eq. exists p'. split; [done|]. rewrite Hw. congruence.
  - rewrite lookup_insert_ne by done. eauto.
Qed.

Lemma still_put_thread place t t' s :
  thread_store s !! place = Some t → t_pid t' = t_pid t → still s (set_store <[place := t']> s).
Proof. intros Hp Hc. split; [|done]. split; [split; try done|done..]; cbn; by eapply fmap_put. Qed.

Lemma quiet_wf s s' : quiet s s' → proc_wf s → proc_wf s'.
Proof. intros H. apply same_wf, H. Qed.

Lemma quiet_place s s' place : quiet s s' → is_Some (thread_store s !! place) → is_Some (thread_store s' !! place).
Proof. intros H. rewrite <-!(fmap_is_Some t_pid). by rewrite (same_thread _ _ _ (quiet_same _ _ H)). Qed.

Lemma wf_place s id p place :
  proc_wf s → processes s !! id = Some p → place ∈ threads p → is_Some (thread_store s !! place).
Proof. intros W Hp Hin. apply (fmap_is_Some t_pid). destruct (wf_threads _ W id p Hp) as [_ H]. rewrite H; eauto. Qed.

(** ** Signals *)

Section Signals.
Variable ok : Prop.
Hypothesis Hk : ok → kernel_ok.

Abbreviation Quiet s := (rests quiet ok s).

Lemma rests_ret (R : ProcScheme → ProcScheme → Prop) `{!Reflexive R} {A} (a : A) s : wp (mret a) (rests R ok s) s.
Proof. apply wp_ret. cbn. reflexivity. Qed.

Lemma rests_fail (R : ProcScheme → ProcScheme → Prop) `{!Reflexive R} {A} e s : wp (fail (A := A) e) (rests R ok s) s.
Proof. apply wp_fail. cbn. reflexivity. Qed.

Lemma rests_lift (R : ProcScheme → ProcScheme → Prop) `{!Transitive R} {A} (m : comp ProcScheme A) s s' :
  R s s' → wp m (rests R ok s') s' → wp m (rests R ok s) s'.
Proof. intros HR Hm. eapply rests_weaken; [exact Hm|]. intros s'' H. by etrans. Qed.

(** A step of [R], then one that is looked at in detail *)
Lemma rests_then (R : ProcScheme → ProcScheme → Prop) {A B} (m : comp ProcScheme A) (f : A → comp ProcScheme B) Q s :
  wp m (rests R ok s) s → (∀ e s', R s s' → Q (Err e) s') → (¬ ok → ∀ s', Q Panic s') →
  (∀ a s', R s s' → wp (f a) Q s') → wp (m ≫= f) Q s.
Proof. intros Hm He Hp Hf. apply wp_bind. eapply wp_mono; [exact Hm|]. intros [a|e|] s' H; cbn in H; auto. Qed.

Lemma rests_proc (R : ProcScheme → ProcScheme → Prop) `{!PreOrder R} {B} id e (f : Process → comp ProcScheme B) s :
  (∀ p, processes s !! id = Some p → wp (f p) (rests R ok s) s) → wp (proc id e ≫= f) (rests R ok s) s.
Proof.
  intros H. unfold proc. repeat (apply wp_bind). apply wp_get. apply wp_ok_or.
  destruct (processes s !! id) as [p|] eqn:E; [by apply H|]. cbn. reflexivity.
Qed.

Lemma rests_thread_at (R : ProcScheme → ProcScheme → Prop) {B} place (f : Thread → comp ProcScheme B) s :
  is_Some (thread_store s !! place) →
  (∀ t, thread_store s !! place = Some t → wp (f t) (rests R ok s) s) → wp (thread_at place ≫= f) (rests R ok s) s.
Proof.
  intros [t Ht] H. unfold thread_at. repeat (apply wp_bind). apply wp_get. apply wp_expect. rewrite Ht. by apply H.
Qed.

Lemma put_proc_quiet id p p' s :
  processes s !! id = Some p → core p' = core p → face p' = face p → waitpid_waiting p' = waitpid_waiting p →
  wp (put_proc id p') (Quiet s) s.
Proof. intros. apply wp_modify. by eapply quiet_put. Qed.

Lemma put_thread_quiet place t t' s :
  thread_store s !! place = Some t → t_pid t' = t_pid t → wp (put_thread place t') (Quiet s) s.
Proof. intros. apply wp_modify. by eapply still_put_thread. Qed.

Lemma still_to_quiet {A} (m : comp ProcScheme A) s : wp m (rests still ok s) s → wp m (Quiet s) s.
Proof. intros H. eapply rests_weaken; [exact H|]. by intros s' []. Qed.

Lemma context_verb_quiet t verb s : wp (context_verb kernel t verb) (Quiet s) s.
Proof.
  unfold context_verb. apply (rests_bind _); [apply rests_log, quiet_log|]. intros _ s' _. by apply rests_ret.
Qed.

Lemma unwrap_verb_quiet t verb s :
  must_succeed (SysContextVerb 0 verb) = true → wp (unwrap (context_verb kernel t verb)) (Quiet s) s.
Proof.
  intros Hv. pose proof (rests_unwrap_log quiet ok (SysContextVerb (status_hndl t) verb) s Hk Hv (quiet_log _ _)) as H.
  revert H. unfold context_verb, wp, unwrap, mbind, comp_bind. by destruct (sys kernel _ s) as [[] ?].
Qed.

Lemma verb_unstop : must_succeed (SysContextVerb 0 VerbUnstop) = true.
Proof. cbn. by rewrite bool_decide_eq_true_2. Qed.

Lemma verb_interrupt : must_succeed (SysContextVerb 0 VerbInterrupt) = true.
Proof. cbn. rewrite (bool_decide_eq_true_2 (VerbInterrupt = VerbInterrupt)) by done. by rewrite orb_true_r. Qed.

Lemma verb_kill : must_succeed (SysContextVerb 0 VerbForceKill) = true.
Proof. cbn. rewrite (bool_decide_eq_true_2 (VerbForceKill = VerbForceKill)) by done. by rewrite orb_true_r. Qed.

Lemma unstop_thread_quiet place s :
  is_Some (thread_store s !! place) → wp (unstop_thread kernel place) (Quiet s) s.
Proof.
  intros Hp. unfold unstop_thread. apply rests_thread_at; [done|]. intros t Ht.
  apply (rests_bind _); [by eapply put_thread_quiet|]. intros _ s' _. apply unwrap_verb_quiet, verb_unstop.
Qed.

Lemma stop_thread_still place s :
  is_Some (thread_store s !! place) → wp (stop_thread kernel place) (rests still ok s) s.
Proof.
  intros Hp. unfold stop_thread. apply rests_thread_at; [done|]. intros t Ht. apply wp_bind.
  unfold result, wp, context_verb, mbind, comp_bind. rewrite sys_run.
  destruct (kernel (calls s) _); cbn; [done|].
  etrans; [apply (still_log (SysContextVerb (status_hndl t) VerbStop))|by eapply still_put_thread].
Qed.

Lemma force_kill_thread_quiet place s :
  is_Some (thread_store s !! place) → wp (force_kill_thread kernel place) (Quiet s) s.
Proof.
  intros Hp. unfold force_kill_thread. apply rests_thread_at; [done|]. intros t Ht.
  apply unwrap_verb_quiet, verb_kill.
Qed.

Lemma interrupt_one_quiet places g i s :
  (∀ place, place ∈ places → is_Some (thread_store s !! place)) → wp (interrupt_one kernel places g i) (Quiet s) s.
Proof.
  induction places as [|place places IH]; intros Hp; cbn [interrupt_one]; [by apply rests_ret|].
  apply rests_thread_at; [apply Hp, elem_of_cons; by left|]. intros t Ht.
  assert (wp (interrupt_one kernel places g i) (Quiet s) s) by (apply IH; intros; apply Hp, elem_of_cons; by right).
  destruct (sig_ctrl t); [|done]. wp_if; [|done].
  apply (rests_bind _); [apply unwrap_verb_quiet, verb_interrupt|]. intros _ s' _. by apply rests_ret.
Qed.

(** Everything the places of a process stay good for *)
Lemma places_stay s s' id p :
  proc_wf s → quiet s s' → processes s !! id = Some p → ∀ place, place ∈ threads p → is_Some (thread_store s' !! place).
Proof. intros W Q Hp place Hin. eapply quiet_place; [done|]. by eapply wf_place. Qed.

Lemma alive_face p st : is_ending p = false → (∃ sig, st = Stopped sig) ∨ st = PossiblyRunnable → face (set_status st p) = face p.
Proof. unfold is_ending, face. cbn. by destruct (status p); intros ? [[? ->]| ->]. Qed.

Lemma deliver_continue_quiet id p pctl s :
  proc_wf s → processes s !! id = Some p → is_ending p = false → wp (deliver_continue kernel id p pctl) (Quiet s) s.
Proof.
  intros W Hp He. unfold deliver_continue. apply (rests_bind _).
  { eapply put_proc_quiet; [done|done| |done]. apply (alive_face p PossiblyRunnable); [done|by right]. }
  intros _ s1 Q1. apply (rests_bind _); [|intros; by apply rests_ret].
  apply rests_for_each; [apply _|]. intros place s2 Hin Q2. apply unstop_thread_quiet.
  eapply places_stay; [done|by etrans|done|done].
Qed.

Lemma deliver_stop_quiet id sig p pctl s :
  proc_wf s → processes s !! id = Some p → is_ending p = false → wp (deliver_stop kernel id sig p pctl) (Quiet s) s.
Proof.
  intros W Hp He. pose proof (alive_face p (Stopped sig) He ltac:(eauto)) as Hf.
  unfold deliver_stop. apply wp_bind, wp_modify.
  assert (Q0 : quiet s (set_processes <[id := set_status (Stopped sig) p]> s)) by (by eapply quiet_put).
  eapply rests_weaken; [|intros s' H; etrans; [exact Q0|exact H]]. set (s1 := set_processes _ s) in *.
  apply (rests_then still).
  { apply rests_for_each; [apply _|]. intros place s2 Hin [Q2 _]. apply stop_thread_still.
    eapply (places_stay s); [done|by etrans|done|done]. }
  { by intros ? ? []. } { done. }
  intros _ s2 [Q2 E2]. eapply rests_weaken; [|intros s' H; etrans; [exact Q2|exact H]].
  apply (rests_bind _); [|intros; by apply rests_ret].
  eapply put_proc_quiet; [rewrite E2; cbn; by rewrite lookup_insert_eq|done|done|done].
Qed.

Lemma deliver_thread_quiet place g i sender self s :
  is_Some (thread_store s !! place) → wp (deliver_thread kernel place g i sender self) (Quiet s) s.
Proof.
  intros Hp. unfold deliver_thread. apply rests_thread_at; [done|]. intros t Ht.
  destruct (sig_ctrl t); [|by apply rests_ret].
  apply (rests_bind _); [by eapply put_thread_quiet|]. intros _ s1 _. wp_if; [|by apply rests_ret].
  apply (rests_bind _); [apply unwrap_verb_quiet, verb_interrupt|intros; by apply rests_ret].
Qed.

Lemma deliver_pending_quiet id sig g i p0 p pctl self s :
  proc_wf s → processes s !! id = Some p0 → core p = core p0 → face p = face p0 →
  waitpid_waiting p = waitpid_waiting p0 → wp (deliver_pending kernel id sig g i p pctl self) (Quiet s) s.
Proof.
  intros W Hp Hc Hph Hw. unfold deliver_pending. apply (rests_bind _); [by eapply put_proc_quiet|]. intros _ s1 Q1.
  apply (rests_bind _); [|intros; by apply rests_ret]. apply interrupt_one_quiet. intros place Hin.
  eapply places_stay; [done|done|done|]. by apply core_eq in Hc as (_ & _ & <- & _).
Qed.

Lemma vec_resize_lookup {A} (x : A) n l i : (i < n)%nat → is_Some (vec_resize x n l !! i).
Proof. intros. apply lookup_lt_is_Some. by rewrite length_vec_resize. Qed.

Lemma deliver_proc_quiet id sig g i sender mode p pctl self s :
  proc_wf s → processes s !! id = Some p → wp (deliver_proc kernel id sig g i sender mode p pctl self) (Quiet s) s.
Proof.
  intros W Hp. unfold deliver_proc. destruct mode as [|arg].
  - repeat (wp_if; [by apply rests_ret|]). by eapply deliver_pending_quiet.
  - wp_if; [by apply rests_ret|]. apply wp_bind, wp_expect.
    destruct (_ !! Z.to_nat i) as [rtq|] eqn:E.
    + destruct (bool_decide (32 ≤ length rtq)%nat).
      * apply (rests_bind _); [by eapply put_proc_quiet|intros; by apply rests_ret].
      * by eapply deliver_pending_quiet.
    + exfalso. case_bool_decide as Hl.
      * destruct (vec_resize_lookup (A := list bytes) [] (S (Z.to_nat i)) (rtqs p) (Z.to_nat i)); [lia|congruence].
      * apply lookup_ge_None in E. lia.
Qed.

(** A thread that is signalled exists *)
Definition target_ok (target : KillTarget) (s : ProcScheme) : Prop :=
  match target with TargetProc _ => True | TargetThread place => is_Some (thread_store s !! place) end.

Lemma deliver_alive_quiet id target sig g i sender mode soc self p pctl s :
  proc_wf s → target_ok target s → processes s !! id = Some p → is_ending p = false →
  wp (deliver_alive kernel id target sig g i sender mode soc self p pctl) (Quiet s) s.
Proof.
  intros W Ht Hp He. unfold deliver_alive. wp_if.
  { apply (rests_bind _); [by apply deliver_continue_quiet|intros; by apply rests_ret]. }
  wp_if.
  { apply wp_bind, wp_get. wp_if; [by apply rests_ret|].
    apply (rests_bind _); [by apply deliver_stop_quiet|intros; by apply rests_ret]. }
  wp_if.
  { apply (rests_bind _); [|intros; by apply rests_ret]. apply rests_for_each; [apply _|].
    intros place s' Hin Q. apply force_kill_thread_quiet. by eapply places_stay. }
  wp_if; [by apply rests_ret|].
  destruct target; [by apply deliver_proc_quiet|by apply deliver_thread_quiet].
Qed.

Lemma deliver_quiet caller id target sig g i sender ceuid cruid mode soc s :
  proc_wf s → target_ok target s → wp (deliver kernel caller id target sig g i sender ceuid cruid mode soc) (Quiet s) s.
Proof.
  intros W Ht. unfold deliver. apply rests_proc; [apply _|]. intros p Hp.
  do 2 (wp_if; [by apply rests_ret|]). destruct (is_ending p) eqn:E; [by apply rests_ret|].
  destruct (sig_pctl p); [by apply deliver_alive_quiet|by apply rests_ret].
Qed.

(** Signals that do not stop or continue a process *)
Definition plain_signal (sig : Z) : Prop :=
  sig ≠ SIGCONT ∧ sig ≠ SIGSTOP ∧ sig ≠ SIGTTIN ∧ sig ≠ SIGTTOU ∧ sig ≠ SIGTSTP.

Definition plain_result (r : outcome (SendResult * bool)) : Prop :=
  match r with Ok (SucceededSigchld _ _ _, _) | Ok (SucceededSigcont _ _, _) => False | _ => True end.

Lemma plain_then {A} (m : comp ProcScheme A) (f : A → comp ProcScheme (SendResult * bool)) s :
  (∀ a s', wp (f a) (λ r _, plain_result r) s') → wp (m ≫= f) (λ r _, plain_result r) s.
Proof. intros H. apply wp_bind. unfold wp. destruct (m s) as [[a|e|] s']; [apply H|done|done]. Qed.

Lemma deliver_thread_plain place g i sender self s :
  wp (deliver_thread kernel place g i sender self) (λ r _, plain_result r) s.
Proof.
  unfold deliver_thread. apply plain_then. intros t s1. wp_if; [|done].
  apply plain_then. intros _ s2. wp_if; [|done]. by apply plain_then.
Qed.

Lemma deliver_pending_plain id sig g i p pctl self s :
  wp (deliver_pending kernel id sig g i p pctl self) (λ r _, plain_result r) s.
Proof. unfold deliver_pending. apply plain_then. intros _ s1. by apply plain_then. Qed.

Lemma deliver_proc_plain id sig g i sender mode p pctl self s :
  wp (deliver_proc kernel id sig g i sender mode p pctl self) (λ r _, plain_result r) s.
Proof.
  unfold deliver_proc. destruct mode.
  - repeat (wp_if; [done|]). apply deliver_pending_plain.
  - wp_if; [done|]. apply plain_then. intros rtq s1. wp_if; [by apply plain_then|apply deliver_pending_plain].
Qed.

Lemma deliver_plain caller id target sig g i sender ceuid cruid mode soc s :
  plain_signal sig →
  wp (deliver kernel caller id target sig g i sender ceuid cruid mode soc) (λ r _, plain_result r) s.
Proof.
  intros (H1 & H2 & H3 & H4 & H5). unfold deliver. apply plain_then. intros p s1.
  do 3 (wp_if; [done|]). destruct (sig_pctl p); [|done].
  unfold deliver_alive. rewrite !bool_decide_eq_false_2 by done. cbn [andb orb].
  wp_if; [by apply plain_then|]. wp_if; [done|].
  destruct target; [apply deliver_proc_plain|apply deliver_thread_plain].
Qed.

Lemma sigchld_plain : plain_signal SIGCHLD.
Proof. split_and!; [apply chld_ne_cont|apply chld_ne_stop|apply chld_ne_ttin|apply chld_ne_ttou|apply chld_ne_tstp]. Qed.

Lemma wake_waiters_quiet id p0 p s :
  processes s !! id = Some p0 → core p = core p0 → face p = face p0 → waitpid_waiting p = waitpid_waiting p0 →
  wp (wake_waiters id p) (Quiet s) s.
Proof.
  intros Hp Hc Hf Hw. unfold wake_waiters. apply wp_bind, wp_modify, wp_modify.
  split; [split; try done|..]; cbn; try done; try by eapply fmap_put.
  intros i v [Hv|(q & Hq & Hv)]; [left; cbn; apply elem_of_app; by left|]. destruct (decide (i = id)) as [->|Hne].
  - left. cbn. rewrite Hw. simplify_eq. apply elem_of_app. by right.
  - right. cbn. rewrite lookup_insert_ne by done. eauto.
Qed.

Lemma notify_parent_quiet parent child grp st s : wp (notify_parent parent child grp st) (Quiet s) s.
Proof. unfold notify_parent. apply rests_proc; [apply _|]. intros p Hp. by eapply wake_waiters_quiet. Qed.

Lemma target_ok_quiet target s s' : quiet s s' → target_ok target s → target_ok target s'.
Proof. destruct target; [done|]. apply quiet_place. Qed.

(** The signal 0 is not sent when overflow is checked *)
Definition signal_ok (sig : Z) : Prop := overflow_checks = true → sig ≠ 0.

Lemma rests_bind_with (R : ProcScheme → ProcScheme → Prop) `{!Transitive R} {A B} (P : outcome A → Prop)
    (m : comp ProcScheme A) (f : A → comp ProcScheme B) s :
  wp m (rests R ok s) s → wp m (λ r _, P r) s →
  (∀ a s', R s s' → P (Ok a) → wp (f a) (rests R ok s') s') → wp (m ≫= f) (rests R ok s) s.
Proof.
  intros Hm HP Hf. apply wp_bind. unfold wp in Hm, HP |- *. destruct (m s) as [[a|e|] s']; [|done|done].
  eapply rests_lift; [apply _|exact Hm|]. by apply Hf.
Qed.

Lemma sig_minus_one_quiet sig s : (ok → signal_ok sig) → wp (sig_minus_one overflow_checks sig) (Quiet s) s.
Proof.
  intros Hsig. unfold sig_minus_one. case_bool_decide; [|by apply rests_ret].
  destruct overflow_checks eqn:Eo; [|by apply rests_ret]. apply wp_panic. intros Hok. by apply (Hsig Hok).
Qed.

(** What follows the delivery of a signal that stops or continues a process *)
Lemma sigchld_quiet depth parent k s :
  proc_wf s → (1 ≤ depth)%nat →
  (∀ caller target sig mode soc s, proc_wf s → target_ok target s → (ok → signal_ok sig) →
    (plain_signal sig ∧ (1 ≤ depth)%nat) ∨ (2 ≤ depth)%nat →
    wp (on_send_sig kernel overflow_checks depth caller target sig mode soc) (Quiet s) s) →
  wp (if bool_decide (parent = INIT_PID) then mret k
      else
        j ← attempt (on_send_sig kernel overflow_checks depth INIT_PID (TargetProc parent) SIGCHLD Idempotent true);
        mret (k || default false j)) (Quiet s) s.
Proof.
  intros W Hd IH. wp_if; [by apply rests_ret|].
  apply (rests_bind _); [|intros; by apply rests_ret]. apply rests_attempt, IH; [done|done| |left; split; [apply sigchld_plain|done]].
  intros _ _. pose proof chld_range. lia.
Qed.

Lemma on_send_sig_quiet depth caller target sig mode soc s :
  proc_wf s → target_ok target s → (ok → signal_ok sig) →
  (plain_signal sig ∧ (1 ≤ depth)%nat) ∨ (2 ≤ depth)%nat →
  wp (on_send_sig kernel overflow_checks depth caller target sig mode soc) (Quiet s) s.
Proof.
  revert caller target sig mode soc s.
  induction depth as [|depth IH]; intros caller target sig mode soc s W Ht Hsig Hd; [lia|]. cbn [on_send_sig].
  wp_if; [by apply rests_fail|]. apply (rests_bind _); [by apply sig_minus_one_quiet|]. intros x s1 Q1.
  apply (quiet_wf _ _ Q1) in W. apply (target_ok_quiet _ _ _ Q1) in Ht.
  apply (rests_bind _).
  { destruct target; [by apply rests_ret|]. apply rests_thread_at; [done|]. intros; by apply rests_ret. }
  intros id s2 Q2. apply (quiet_wf _ _ Q2) in W. apply (target_ok_quiet _ _ _ Q2) in Ht.
  apply rests_proc; [apply _|]. intros p Hp. apply rests_proc; [apply _|]. intros c Hc.
  apply (rests_bind_with _ (λ r, plain_signal sig → plain_result r)); [by apply deliver_quiet| |].
  { unfold wp. intros Hpl. by apply deliver_plain. }
  intros [res k] s3 Q3 Hplain. apply (quiet_wf _ _ Q3) in W. unfold settle. cbn in Hplain |- *.
  destruct res as [| |orig parent grp|parent grp| |]; try (by apply rests_ret); try (by apply rests_fail).
  all: apply (rests_bind _); [apply notify_parent_quiet|]; intros _ s4 Q4; apply (quiet_wf _ _ Q4) in W;
    destruct Hd as [[Hpl _]|Hd]; [destruct (Hplain Hpl)|]; apply sigchld_quiet; [done|lia|apply IH].
Qed.

Lemma send_sig_quiet caller target sig mode soc s :
  proc_wf s → target_ok target s → (ok → signal_ok sig) →
  wp (send_sig kernel overflow_checks caller target sig mode soc) (Quiet s) s.
Proof. intros. apply on_send_sig_quiet; auto. Qed.

Lemma on_kill_thread_quiet place sig s :
  proc_wf s → is_Some (thread_store s !! place) → (ok → signal_ok sig) →
  wp (on_kill_thread kernel overflow_checks place sig) (Quiet s) s.
Proof.
  intros W Ht Hsig. unfold on_kill_thread. apply rests_thread_at; [done|]. intros t _.
  apply (rests_bind _); [by apply send_sig_quiet|]. intros [] s' _; [by apply rests_fail|by apply rests_ret].
Qed.

Lemma kill_loop_quiet caller grp sig mode ids n e k s :
  proc_wf s → (ok → signal_ok sig) →
  wp (kill_loop kernel overflow_checks caller grp sig mode ids n e k) (Quiet s) s.
Proof.
  intros W Hsig. revert n e k s W. induction ids as [|id ids IH]; intros n e k s W; cbn [kill_loop]; [by apply rests_ret|].
  apply wp_bind, wp_get. wp_if; [|by apply IH].
  apply (rests_bind _); [by apply rests_result, send_sig_quiet|]. intros [] s' Q; apply IH; by eapply quiet_wf.
Qed.

Lemma kill_many_quiet caller grp sig mode s :
  proc_wf s → (ok → signal_ok sig) →
  wp (kill_many kernel hash_order overflow_checks caller grp sig mode) (Quiet s) s.
Proof.
  intros W Hsig. unfold kill_many. apply wp_bind, wp_get. apply (rests_bind _); [by apply kill_loop_quiet|].
  intros [[n e] k] s' _. wp_if; [by apply rests_fail|]. wp_if; [by apply rests_fail|by apply rests_ret].
Qed.

Lemma on_kill_quiet caller target sig mode s :
  proc_wf s → (ok → signal_ok sig) →
  wp (on_kill kernel hash_order overflow_checks caller target sig mode) (Quiet s) s.
Proof.
  intros W Hsig. destruct target; cbn [on_kill]; [|by apply kill_many_quiet..|].
  - apply (rests_bind _); [by apply send_sig_quiet|]. intros [] s' _; [by apply rests_fail|by apply rests_ret].
  - apply rests_proc; [apply _|]. intros. by apply kill_many_quiet.
Qed.

(** ** Waiting and ending *)

Abbreviation Same s := (rests same ok s).
Abbreviation Safe s := (rests safe ok s).

Lemma quiet_to_same {A} (m : comp ProcScheme A) s : wp m (Quiet s) s → wp m (Same s) s.
Proof. intros H. eapply rests_weaken; [exact H|]. intros s'. apply quiet_same. Qed.

Lemma same_to_safe {A} (m : comp ProcScheme A) s : wp m (Same s) s → wp m (Safe s) s.
Proof. intros H. eapply rests_weaken; [exact H|]. intros s'. apply same_safe. Qed.

Lemma put_proc_same id p p' s : processes s !! id = Some p → core p' = core p → wp (put_proc id p') (Same s) s.
Proof. intros Hp Hc. apply wp_modify. split; try done; cbn; by eapply fmap_put. Qed.

Lemma reparent_same child s : wp (reparent child) (Same s) s.
Proof.
  unfold reparent. apply wp_bind, wp_get. destruct (processes s !! child) as [c|] eqn:Hc; [|by apply rests_ret].
  destruct (processes s !! INIT_PID) as [init|] eqn:Hi; [|by apply rests_ret].
  apply (rests_bind _); [by eapply put_proc_same|]. intros _ s1 S1.
  destruct (same_proc_fwd _ _ _ _ S1 Hc) as (c' & Hc' & E). by eapply put_proc_same.
Qed.

Lemma hup_member_quiet id s : proc_wf s → wp (hup_member kernel overflow_checks id) (Quiet s) s.
Proof.
  intros W. unfold hup_member. apply wp_bind, wp_get. wp_if; [|by apply rests_ret]. wp_if; try by apply rests_ret.
  pose proof cont_range. pose proof hup_range.
  apply (rests_bind _); [apply rests_attempt, send_sig_quiet; [done|done|intros _ _; lia]|]. intros _ s1 Q1.
  apply (rests_bind _); [|intros; by apply rests_ret].
  apply rests_attempt, send_sig_quiet; [by eapply quiet_wf|done|intros _ _; lia].
Qed.

Lemma hup_group_quiet gw s : proc_wf s → wp (hup_group kernel overflow_checks gw) (Quiet s) s.
Proof.
  intros W. unfold hup_group. apply wp_bind, wp_get. wp_if; [|by apply rests_ret].
  apply rests_for_each; [apply _|]. intros id s' _ Q. apply hup_member_quiet. by eapply quiet_wf.
Qed.

Lemma leave_to_init_same id grp s : proc_wf s → wp (leave_to_init kernel hash_order overflow_checks id grp) (Same s) s.
Proof.
  intros W. unfold leave_to_init. apply wp_bind, wp_get. destruct (processes s !! INIT_PID) as [init|] eqn:Hi; [|by apply rests_ret].
  apply (rests_bind _); [by eapply quiet_to_same, wake_waiters_quiet|]. intros _ s1 S1. apply wp_bind, wp_get.
  apply (rests_bind _); [apply rests_for_each; [apply _|]; intros; apply reparent_same|]. intros _ s2 S2.
  apply rests_for_each; [apply _|]. intros gw s3 _ S3. apply quiet_to_same, hup_group_quiet.
  eapply same_wf; [|exact W]. by do 2 (etrans; [eassumption|]).
Qed.

Lemma finish_exit_same id p0 p sig st s :
  proc_wf s → processes s !! id = Some p0 → core p = core p0 → wp (finish_exit kernel hash_order overflow_checks id p sig st) (Same s) s.
Proof.
  intros W Hp Hc. unfold finish_exit. apply (rests_bind _); [by eapply put_proc_same|]. intros _ s1 S1.
  apply (same_wf _ _ S1) in W. apply wp_bind, wp_get. wp_if; [|by apply rests_ret]. pose proof chld_range.
  apply (rests_bind _); [apply rests_attempt, quiet_to_same, send_sig_quiet; [done|done|intros _ _; lia]|].
  intros _ s2 S2. apply (same_wf _ _ S2) in W. apply (rests_bind _); [by apply leave_to_init_same|]. intros _ s3 S3.
  apply (rests_bind _); [apply rests_attempt, quiet_to_same, notify_parent_quiet|]. intros; by apply rests_ret.
Qed.

Lemma reap_safe id s : wp (reap id) (Safe s) s.
Proof.
  unfold reap. apply wp_bind, wp_get. destruct (processes s !! id) as [p|] eqn:Hp; [|by apply rests_ret].
  wp_if; [by apply rests_ret|]. apply wp_bind, wp_modify.
  destruct (groups s !! pgid p) as [l|] eqn:Hg; [by apply wp_modify, remove_safe|].
  apply wp_ret. intros W. destruct (wf_group _ W _ _ Hp) as (l & Hl & _). congruence.
Qed.

Lemma grim_reaper_safe flags id st s : wp (grim_reaper flags id st) (Safe s) s.
Proof.
  unfold grim_reaper. apply (rests_bind _); [|intros; by apply rests_ret].
  destruct st; [by apply rests_ret..|apply reap_safe].
Qed.

Lemma wait_more_same this flags v p s : processes s !! this = Some p → wp (wait_more this flags v p) (Same s) s.
Proof.
  intros Hp. unfold wait_more. wp_if; [by apply rests_ret|].
  apply (rests_bind _); [by eapply put_proc_same|intros; by apply rests_ret].
Qed.

Lemma take_status_safe this flags v p found s :
  processes s !! this = Some p → wp (take_status this flags v p found) (Safe s) s.
Proof.
  intros Hp. unfold take_status. destruct (found ≫= _) as [[w [g st]]|]; [|by apply same_to_safe, wait_more_same].
  apply (rests_bind _); [by eapply same_to_safe, put_proc_same|]. intros. apply grim_reaper_safe.
Qed.

Lemma on_waitpid_safe this target flags v s : wp (on_waitpid group_search this target flags v) (Safe s) s.
Proof.
  unfold on_waitpid. apply wp_bind, wp_get. wp_if; [by apply rests_fail|]. apply rests_proc; [apply _|]. intros p Hp.
  destruct target as [id|grp| |]; [| |by apply take_status_safe..].
  - wp_if; [by apply rests_fail|]. apply rests_proc; [apply _|]. intros q Hq. wp_if; [by apply rests_fail|].
    destruct (status q); try by apply take_status_safe.
    apply (rests_bind _); [by eapply same_to_safe, put_proc_same|]. intros. apply grim_reaper_safe.
  - apply wp_bind, wp_ok_or. destruct (groups s !! grp); [|by apply rests_fail].
    wp_if; [by apply take_status_safe|by apply rests_fail].
Qed.

Lemma set_state_same v st s : wp (set_state v st) (Same s) s.
Proof. by apply wp_modify. Qed.

Lemma drop_state_same v s : wp (drop_state v) (Same s) s.
Proof. by apply wp_modify. Qed.

Lemma answer_or_drop_same v tag r s : wp (answer_or_drop v tag r) (Same s) s.
Proof. unfold answer_or_drop. by destruct tag. Qed.

Lemma work_on_safe v st s : proc_wf s → wp (work_on kernel hash_order group_search overflow_checks v st) (Safe s) s.
Proof.
  intros W. unfold work_on, work_exit, work_wait. apply (rests_bind _); [apply same_to_safe, set_state_same|].
  intros _ s1 S1. destruct (S1 W) as [W1 _]. destruct st as [waiter target flags op|id tag|].
  - apply (rests_bind _); [apply rests_result, on_waitpid_safe|]. intros [e|[[w code]|]] s2 _; try by apply rests_ret.
    apply (rests_bind _); [apply same_to_safe, set_state_same|intros; by apply rests_ret].
  - apply same_to_safe. apply wp_bind, wp_get. destruct (processes s1 !! id) as [p|] eqn:Hp; [|apply answer_or_drop_same].
    wp_if.
    + destruct (status p) as [| |sig st|]; try apply answer_or_drop_same.
      apply (rests_bind _); [apply drop_state_same|]. intros _ s2 S2.
      destruct (same_proc_fwd _ _ _ _ S2 Hp) as (p2 & Hp2 & E).
      apply (rests_bind _); [|intros; by apply rests_ret]. eapply finish_exit_same; [by eapply same_wf|done|done].
    + apply (rests_bind _); [by eapply put_proc_same|]. intros.
      apply (rests_bind _); [apply set_state_same|intros; by apply rests_ret].
  - by apply rests_ret.
Qed.

Lemma kill_context_quiet place s : is_Some (thread_store s !! place) → wp (kill_context kernel place) (Quiet s) s.
Proof. intros H. unfold kill_context. apply rests_thread_at; [done|]. intros. apply context_verb_quiet. Qed.

Lemma kill_threads_quiet tag places s :
  (∀ place, place ∈ places → is_Some (thread_store s !! place)) → wp (kill_threads kernel tag places) (Quiet s) s.
Proof.
  revert s. induction places as [|place places IH]; intros s Hp; cbn [kill_threads]; [by apply rests_ret|].
  apply (rests_bind _); [apply rests_result, kill_context_quiet, Hp, elem_of_cons; by left|]. intros r s' Q.
  assert (wp (kill_threads kernel tag places) (Quiet s') s').
  { apply IH. intros. eapply quiet_place; [done|]. apply Hp, elem_of_cons. by right. }
  destruct r, tag; [by apply rests_fail|done..].
Qed.

Lemma same_then_safe {A B} (m : comp ProcScheme A) (f : A → comp ProcScheme B) s :
  wp m (Same s) s → (∀ a s', same s s' → wp (f a) (Safe s') s') → wp (m ≫= f) (Safe s) s.
Proof.
  intros Hm Hf. apply wp_bind. eapply wp_mono; [exact Hm|].
  intros [a|e|] s' HR; [|by apply same_safe|done]. eapply rests_lift; [apply _|by apply same_safe|by apply Hf].
Qed.

Lemma begin_exit_safe id p st signal v tag s :
  proc_wf s → processes s !! id = Some p →
  wp (begin_exit kernel hash_order group_search overflow_checks id p st signal v tag) (Safe s) s.
Proof.
  intros W Hp. unfold begin_exit. apply same_then_safe; [by eapply put_proc_same|]. intros _ s1 S1.
  apply (same_wf _ _ S1) in W. destruct (same_proc_fwd _ _ _ _ S1 Hp) as (p1 & Hp1 & E1).
  apply core_eq in E1 as HE. destruct HE as (_ & _ & Et & _).
  apply same_then_safe.
  { apply rests_result, quiet_to_same, kill_threads_quiet. cbn. rewrite Et. intros place. by eapply wf_place. }
  intros killed s2 S2. apply (same_wf _ _ S2) in W. destruct killed; [by apply rests_ret|].
  destruct (same_proc_fwd _ _ _ _ S2 Hp1) as (p2 & Hp2 & E2).
  apply same_then_safe.
  { wp_if; [by apply rests_ret|]. eapply put_proc_same; [done|]. rewrite <-E2, <-E1. done. }
  intros _ s3 S3. apply (same_wf _ _ S3) in W. apply same_then_safe; [apply set_state_same|].
  intros _ s4 S4. apply work_on_safe. by eapply same_wf.
Qed.

Lemma on_exit_start_safe id raw v tag s :
  proc_wf s → wp (on_exit_start kernel hash_order group_search overflow_checks id raw v tag) (Safe s) s.
Proof.
  intros W. unfold on_exit_start. apply wp_bind, wp_get. destruct (processes s !! id) as [p|] eqn:Hp; [|by apply rests_ret].
  destruct (status p); try by apply rests_ret.
  all: destruct (exit_status raw) as [[st signal]|]; [by apply begin_exit_safe|by apply rests_ret].
Qed.

(** ** Requests that change a process *)

Lemma quiet_to_safe {A} (m : comp ProcScheme A) s : wp m (Quiet s) s → wp m (Safe s) s.
Proof. intros H. by apply same_to_safe, quiet_to_same. Qed.

Lemma sync_thread_attrs_quiet p t s : wp (sync_thread_attrs kernel p t) (Quiet s) s.
Proof.
  unfold sync_thread_attrs. apply (rests_bind _); [apply rests_log, quiet_log|]. intros fd s1 _.
  apply (rests_bind _); [apply rests_log, quiet_log|intros; by apply rests_ret].
Qed.

Lemma sync_kernel_attrs_quiet p s :
  (∀ place, place ∈ threads p → is_Some (thread_store s !! place)) → wp (sync_kernel_attrs kernel p) (Quiet s) s.
Proof.
  intros H. apply rests_for_each; [apply _|]. intros place s' Hin Q.
  apply rests_thread_at; [by eapply quiet_place, H|]. intros. apply sync_thread_attrs_quiet.
Qed.

(** A process is changed and its threads are told *)
Lemma put_and_sync_safe id p p' s :
  proc_wf s → processes s !! id = Some p → safe s (set_processes <[id := p']> s) → threads p' = threads p →
  wp (put_proc id p';; attempt (sync_kernel_attrs kernel p');; mret tt) (Safe s) s.
Proof.
  intros W Hp HS Ht. apply wp_bind, wp_modify. eapply rests_lift; [apply _|exact HS|].
  apply (rests_bind _); [|intros; by apply rests_ret]. apply quiet_to_safe, rests_attempt, sync_kernel_attrs_quiet.
  rewrite Ht. intros place Hin. by eapply (wf_place s).
Qed.

Lemma put_core_safe id p p' s : processes s !! id = Some p → core p' = core p → safe s (set_processes <[id := p']> s).
Proof. intros Hp Hc. apply same_safe. split; try done; cbn; by eapply fmap_put. Qed.

Lemma allowed_root x l d : allowed (opt_id x) l = true → default d (opt_id x) = 0 → d = 0 ∨ 0 ∈ l.
Proof.
  unfold allowed. destruct (opt_id x) as [y|]; cbn; [|by left]. intros H%bool_decide_eq_true ->. by right.
Qed.

(** Nobody without privileges gains the user 0 *)
Lemma set_ids_root p r e u rg eg sg :
  negb (bool_decide (euid p = 0)) && negb (forallb (λ x, allowed (opt_id x) [ruid p; euid p; suid p]) [r; e; u]) = false →
  root_capable {| p with ruid := default (ruid p) (opt_id r); euid := default (euid p) (opt_id e);
    suid := default (suid p) (opt_id u); rgid := default (rgid p) (opt_id rg);
    egid := default (egid p) (opt_id eg); sgid := default (sgid p) (opt_id sg) |} → root_capable p.
Proof.
  intros H Hr. destruct (decide (euid p = 0)) as [E|E]; [right; by left|].
  rewrite bool_decide_eq_false_2 in H by done. cbn -[allowed] in H. apply negb_false_iff in H.
  apply andb_true_iff in H as [H1 H]. apply andb_true_iff in H as [H2 H]. apply andb_true_iff in H as [H3 _].
  assert (0 ∈ [ruid p; euid p; suid p] → root_capable p) as Hin.
  { unfold root_capable. rewrite !elem_of_cons, elem_of_nil. intros [<-|[<-|[<-|[]]]]; auto. }
  destruct Hr as [Hr|[Hr|Hr]]; cbn in Hr.
  - destruct (allowed_root _ _ _ H1 Hr); [by left|auto].
  - destruct (allowed_root _ _ _ H2 Hr); [right; by left|auto].
  - destruct (allowed_root _ _ _ H3 Hr); [right; by right|auto].
Qed.

Lemma on_setresugid_safe id raw s :
  proc_wf s → (ok → raw ≠ None) → wp (on_setresugid kernel id raw) (Safe s) s.
Proof.
  intros W Hraw. unfold on_setresugid. apply wp_bind, wp_expect. destruct raw as [raw|]; [|intros Hok; by apply Hraw].
  destruct raw as [|r [|e [|u [|rg [|eg [|sg [|]]]]]]]; try by apply rests_fail.
  apply rests_proc; [apply _|]. intros p Hp. wp_if; [by apply rests_fail|]. wp_if; [by apply rests_fail|].
  eapply put_and_sync_safe; [done|exact Hp| |done]. eapply replace_safe; [exact Hp|done|done|done|].
  by apply set_ids_root.
Qed.

(** The name is not cut inside a character *)
Definition name_ok (raw : bytes) : Prop :=
  match until_nul raw !! NAME_CAPAC with Some b => utf8_cont b = false | None => True end.

Lemma str_take_ok text :
  match text !! NAME_CAPAC with Some b => utf8_cont b = false | None => True end →
  str_take (Nat.min (length text) NAME_CAPAC) text ≠ Panic ∧ ∀ e, str_take (Nat.min (length text) NAME_CAPAC) text ≠ Err e.
Proof.
  intros H. unfold str_take. destruct (decide (NAME_CAPAC < length text)%nat) as [Hl|Hl].
  - rewrite Nat.min_r by lia. destruct (text !! NAME_CAPAC); [by rewrite H|done].
  - rewrite Nat.min_l by lia. rewrite lookup_ge_None_2; done.
Qed.

Lemma on_proc_rename_safe id raw s :
  proc_wf s → (ok → name_ok raw) → wp (on_proc_rename kernel id raw) (Safe s) s.
Proof.
  intros W Hn. unfold on_proc_rename, name_ok in *. cbv zeta. set (text := until_nul raw) in *.
  apply wp_bind, wp_ok_or. destruct (from_utf8 text); [|by apply rests_fail].
  apply rests_proc; [apply _|]. intros p Hp. apply wp_bind, wp_lift.
  destruct (str_take _ text) eqn:E.
  - eapply put_and_sync_safe; [done|exact Hp| |done]. by eapply put_core_safe.
  - cbn. reflexivity.
  - intros Hok. by destruct (str_take_ok text (Hn Hok)).
Qed.

Lemma on_setprocprio_safe caller id x s : proc_wf s → wp (on_setprocprio kernel caller id x) (Safe s) s.
Proof.
  intros W. unfold on_setprocprio. wp_if; [by apply rests_fail|]. apply rests_proc; [apply _|]. intros c _.
  apply rests_proc; [apply _|]. intros p Hp. wp_if; [by apply rests_fail|].
  eapply put_and_sync_safe; [done|exact Hp| |done]. by eapply put_core_safe.
Qed.

Lemma map_sighandler_still fd page s : wp (map_sighandler kernel fd page) (rests still ok s) s.
Proof.
  unfold map_sighandler. do 3 (apply (rests_bind _); [apply rests_log, still_log|]; intros). by apply rests_ret.
Qed.

Lemma quiet_thread s s' place t :
  quiet s s' → thread_store s !! place = Some t → ∃ t', thread_store s' !! place = Some t' ∧ t_pid t' = t_pid t.
Proof.
  intros [H _ _ _] Ht. pose proof (same_thread _ _ place H) as E. rewrite Ht in E.
  destruct (thread_store s' !! place) as [t'|]; [|done]. exists t'. by injection E as ->.
Qed.

Lemma on_sync_sigtctl_quiet place s :
  is_Some (thread_store s !! place) → wp (on_sync_sigtctl kernel mapped_tctl place) (Quiet s) s.
Proof.
  intros Hp. unfold on_sync_sigtctl. apply rests_thread_at; [done|]. intros t Ht.
  apply (rests_bind _); [apply still_to_quiet, map_sighandler_still|]. intros _ s1 Q1. apply wp_bind, wp_get.
  destruct (quiet_thread _ _ _ _ Q1 Ht) as (t' & Ht' & E). by eapply put_thread_quiet.
Qed.

Lemma quiet_core s s' id p :
  quiet s s' → processes s !! id = Some p → ∃ p', processes s' !! id = Some p' ∧ core p = core p' ∧ face p = face p'.
Proof.
  intros [H1 H2 _ _] Hp. destruct (same_proc_fwd _ _ _ _ H1 Hp) as (p' & Hp' & E). exists p'. split_and!; [done|done|].
  apply (f_equal (lookup id)) in H2. rewrite !lookup_fmap, Hp, Hp' in H2. by apply (inj Some) in H2.
Qed.

Lemma on_sync_sigpctl_quiet id s : proc_wf s → wp (on_sync_sigpctl kernel mapped_pctl id) (Quiet s) s.
Proof.
  intros W. unfold on_sync_sigpctl. apply rests_proc; [apply _|]. intros p Hp.
  destruct (threads p) as [|place rest] eqn:Et; [by apply rests_fail|].
  apply rests_thread_at; [eapply wf_place; [done|done|rewrite Et, elem_of_cons; by left]|]. intros t Ht.
  apply (rests_then still); [apply map_sighandler_still|by intros ? ? []|done|]. intros _ s1 [Q1 E1].
  eapply rests_lift; [apply _|exact Q1|]. apply wp_bind, wp_get.
  eapply put_proc_quiet; [by rewrite E1|done..].
Qed.

Lemma on_sigdeq_quiet id payload s : wp (on_sigdeq id payload) (Quiet s) s.
Proof.
  unfold on_sigdeq. do 3 (wp_if; [by apply rests_fail|]). apply rests_proc; [apply _|]. intros p Hp.
  apply wp_bind, wp_ok_or. destruct (sig_pctl p); [|by apply rests_fail].
  apply wp_bind, wp_ok_or. destruct (rtqs p !! _) as [q|]; [|by apply rests_fail].
  destruct q; [by apply rests_fail|]. apply (rests_bind _); [by eapply put_proc_quiet|intros; by apply rests_ret].
Qed.

(** ** Groups, handles and new processes *)

Lemma set_pgid_safe id parent new p s :
  proc_wf s → processes s !! id = Some p → pgid p ≠ new → wp (set_pgid id parent new) (Safe s) s.
Proof.
  intros W Hp Hne. unfold set_pgid. apply rests_proc; [apply _|]. intros p' Hp'. simplify_eq.
  rewrite bool_decide_eq_false_2 by done. apply wp_bind, wp_ret. apply same_then_safe.
  { destruct parent; [|by apply rests_ret]. apply rests_proc; [apply _|]. intros q Hq.
    by eapply quiet_to_same, wake_waiters_quiet. }
  intros _ s1 S1. destruct (same_proc_fwd _ _ _ _ S1 Hp) as (p1 & Hp1 & E). apply core_eq in E as (_ & E & _).
  rewrite E in Hne |- *. apply wp_bind, wp_get. apply wp_bind, wp_ok_or.
  destruct (groups s1 !! pgid p1) as [l|] eqn:Hl; [|by apply rests_fail].
  apply wp_bind, wp_modify. apply wp_bind, wp_get. apply wp_bind, wp_modify.
  unfold proc. apply wp_bind, wp_bind, wp_get, wp_ok_or. cbn [processes set_groups]. rewrite Hp1.
  apply wp_modify. by apply regroup_safe.
Qed.

Lemma on_setsid_safe caller s : proc_wf s → wp (on_setsid caller) (Safe s) s.
Proof.
  intros W. unfold on_setsid. apply wp_bind, wp_get. wp_if; [by apply rests_fail|].
  apply rests_proc; [apply _|]. intros p Hp. wp_if; [by apply rests_fail|]. wp_if; [by apply rests_fail|].
  apply (rests_bind _); [eapply set_pgid_safe; [done|done|by eapply bool_decide_eq_false]|]. intros _ s1 _.
  apply rests_proc; [apply _|]. intros p1 Hp1. by eapply same_to_safe, put_proc_same.
Qed.

Lemma on_setpgid_safe caller target new s : proc_wf s → wp (on_setpgid caller target new) (Safe s) s.
Proof.
  intros W. unfold on_setpgid. apply rests_proc; [apply _|]. intros c Hc. apply rests_proc; [apply _|]. intros p Hp.
  wp_if; [by apply rests_fail|]. apply wp_bind.
  assert (∀ parent, wp (s ← get;
    if bool_decide (sid p = target) then fail EPERM
    else if negb (bool_decide (sid c = sid p)) then fail EPERM
    else if negb (bool_decide (new = target)) && bool_decide (groups s !! new = None) then fail EPERM
    else if bool_decide (ppid p = caller) && disabled_setpgid p then fail EACCES
    else if bool_decide (pgid p = new) then mret tt
    else set_pgid target parent new) (Safe s) s) as H.
  { intros parent. apply wp_bind, wp_get. do 4 (wp_if; [by apply rests_fail|]). wp_if; [by apply rests_ret|].
    eapply set_pgid_safe; [done|done|by eapply bool_decide_eq_false]. }
  wp_if; [apply wp_ret, H|]. unfold proc. apply wp_bind, wp_bind, wp_get, wp_ok_or.
  destruct (processes s !! ppid p); [apply wp_ret, H|cbn; reflexivity].
Qed.

Lemma set_handles_safe f s :
  (∀ i, f (handles s) !! i = Some HInit → handles s !! i = Some HInit) → safe s (set_handles f s).
Proof.
  intros Hf W. split; [|split; [done| |eauto]].
  - split; cbn; try apply W.
    + intros Hc i Hi. by apply (wf_unclaimed _ W Hc i), Hf.
    + intros i j Hi Hj. apply (wf_one_init _ W); by apply Hf.
    + intros [Hc|[i Hi]]; apply (wf_first _ W); [by left|right; exists i; by apply Hf].
  - intros [Hc Hb]. split; [done|]. intros i Hi. by apply (Hb i), Hf.
Qed.

Lemma insert_handle_safe h s : h ≠ HInit → wp (insert_handle slab_key h) (Safe s) s.
Proof.
  intros Hh. unfold insert_handle. apply wp_bind, wp_get. apply wp_bind, wp_modify, wp_ret.
  apply set_handles_safe. intros i [[_ ?]|[_ ?]]%lookup_insert_Some; done.
Qed.

Lemma pm_on_close_safe id s : wp (on_close id) (Safe s) s.
Proof. apply wp_modify. apply set_handles_safe. intros i [_ ?]%lookup_delete_Some. done. Qed.

(** The handle that makes the first process is given out once *)
Lemma claim_safe i s :
  init_claimed s = false → safe s (set_handles <[i := HInit]> (set_claimed true s)).
Proof.
  intros Hc W. split; [|split; [done| |eauto]].
  - split; cbn; try apply W; [done| |].
    + intros j k [[<- _]|[_ H]]%lookup_insert_Some [[<- _]|[_ H']]%lookup_insert_Some; [done|..];
        by destruct (wf_unclaimed _ W Hc _ ltac:(eassumption)).
    + intros _. apply (wf_first _ W). by left.
  - intros [Hb _]. congruence.
Qed.

Lemma set_claimed_same s : init_claimed s = true → same s (set_claimed true s).
Proof. intros H. by split. Qed.

(** A request for a handle that exists *)
Definition has_handle (id : Z) (s : ProcScheme) : Prop := is_Some (handles s !! id).

Lemma rests_handle_at (R : ProcScheme → ProcScheme → Prop) {B} id (f : Handle → comp ProcScheme B) s :
  (ok → has_handle id s) → (∀ h, handles s !! id = Some h → wp (f h) (rests R ok s) s) →
  wp (handle_at id ≫= f) (rests R ok s) s.
Proof.
  intros Hid H. unfold handle_at. apply wp_bind, wp_bind, wp_get, wp_expect.
  destruct (handles s !! id) as [h|] eqn:E; [by apply H|]. intros Hok. destruct (Hid Hok). congruence.
Qed.

Lemma on_openat_safe fd path flags uid s :
  (ok → has_handle fd s) → wp (on_openat hash_order slab_key fd path flags uid) (Safe s) s.
Proof.
  intros Hfd. unfold on_openat. apply rests_handle_at; [done|]. intros h _.
  destruct h; try by apply rests_fail. cbv zeta. apply wp_bind, wp_get. wp_if.
  { apply wp_bind, wp_modify. destruct (init_claimed s) eqn:Ec.
    - apply wp_fail. cbn. by apply same_safe, set_claimed_same.
    - apply wp_bind. unfold insert_handle. apply wp_bind, wp_get. apply wp_bind, wp_modify, wp_ret, wp_ret.
      by apply claim_safe. }
  wp_if.
  { apply (rests_bind _); [by apply insert_handle_safe|intros; by apply rests_ret]. }
  wp_if; [|by apply rests_fail]. do 2 (wp_if; [by apply rests_fail|]).
  apply (rests_bind _); [by apply insert_handle_safe|intros; by apply rests_ret].
Qed.

Lemma new_thread_safe id s : proc_wf s → wp (new_thread kernel id) (Safe s) s.
Proof.
  intros W. unfold new_thread. apply rests_proc; [apply _|]. intros p Hp.
  apply same_then_safe; [apply quiet_to_same, rests_log, quiet_log|]. intros fd s1 S1.
  apply same_then_safe; [apply quiet_to_same, rests_log, quiet_log|]. intros afd s2 S2.
  apply same_then_safe; [apply quiet_to_same, rests_log, quiet_log|]. intros _ s3 S3.
  apply same_then_safe; [apply quiet_to_same, rests_log, quiet_log|]. intros sfd s4 S4.
  apply same_then_safe; [apply quiet_to_same, rests_unwrap_log; [done|done|apply quiet_log]|]. intros _ s5 S5.
  assert (S : same s s5) by (do 4 (etrans; [eassumption|]); done).
  destruct (same_proc_fwd _ _ _ _ S Hp) as (p5 & Hp5 & E). pose proof (same_wf _ _ S W) as W5.
  unfold new_place. apply wp_bind, wp_bind, wp_get. apply wp_bind, wp_modify. apply wp_bind, wp_modify, wp_ret.
  apply wp_bind, wp_modify. apply wp_bind, wp_modify, wp_ret. cbn [rests].
  set (t := mk_thread fd sfd id None). etrans; [apply (with_thread_safe t)|]. etrans; [|apply set_lookup_safe].
  eapply (add_thread_safe (with_thread t s5) id p5 p); [done|done| |cbn; by rewrite lookup_insert_eq].
  apply core_eq in E as (_ & _ & -> & _). intros Hin.
  destruct (wf_place _ _ _ _ W5 Hp5 Hin) as [t' Ht']. by rewrite fresh_place in Ht'.
Qed.

Lemma new_id_run s :
  proc_wf s → next_id s < usize_max → new_id overflow_checks s = (Ok (next_id s), set_next_id (next_id s + 1) s).
Proof.
  intros W Hn. pose proof (wf_next _ W). unfold new_id, mbind, comp_bind, get, modify, mret, comp_ret.
  destruct overflow_checks.
  - unfold add_usize, checked_add_usize. rewrite bool_decide_eq_true_2 by lia. done.
  - unfold wrap_usize. rewrite Z.mod_small by (ints; lia). done.
Qed.

Lemma wp_run {A B} (m : comp ProcScheme A) (f : A → comp ProcScheme B) Q s a s' :
  m s = (Ok a, s') → wp (f a) Q s' → wp (m ≫= f) Q s.
Proof. intros H. unfold wp. by rewrite (bind_ok _ _ _ _ _ H). Qed.

(** The end of [fork], after the system calls: [s0] is the state that [fork] was called in *)
Lemma fork_add_good s0 s parent p n fd t :
  proc_wf s0 → n = next_id s0 → quiet (set_next_id (n + 1) s0) s → processes s0 !! parent = Some p → t_pid t = n →
  wp (place ← new_place t;
      let np := fresh_process [place] n parent (pgid p) (sid p) (name p) (prio p) (ruid p) (euid p) (suid p)
                  (rgid p) (egid p) (sgid p) in
      attempt (sync_kernel_attrs kernel np);;
      modify (set_groups (alter (λ l, l ++ [n]) (pgid p)));;
      put_proc n np;;
      modify (set_lookup <[fd := place]>);;
      mret n) (rests good ok s0) s.
Proof.
  intros W0 Hn Q Hp Ht. assert (W : proc_wf s) by (eapply quiet_wf; [done|]; apply bump_wf; [lia|done]).
  unfold new_place. apply wp_bind, wp_bind, wp_get. apply wp_bind, wp_modify. apply wp_bind, wp_modify, wp_ret.
  fold (with_thread t s). cbv zeta. set (np := fresh_process _ _ _ _ _ _ _ _ _ _ _ _ _). set (s1 := with_thread t s).
  destruct (with_thread_safe t s W) as [W1 K1]. fold s1 in W1, K1.
  assert (Hplace : t_pid <$> thread_store s1 !! next_place s = Some n) by (cbn; by rewrite lookup_insert_eq, <-Ht).
  assert (K : ∀ s2, quiet s1 s2 → kept (set_next_id (n + 1) s0) s2).
  { intros s2 Q2. etrans; [apply same_kept, Q|]. etrans; [exact K1|apply same_kept, Q2]. }
  apply (rests_then quiet).
  { apply rests_attempt, sync_kernel_attrs_quiet. intros place Hin. apply list_elem_of_singleton in Hin as ->.
    cbn. rewrite lookup_insert_eq. eauto. }
  { intros e s2 Q2. split; [by eapply quiet_wf|]. eapply (bump_evolves _ (n + 1)); [lia|by apply K]. }
  { done. }
  intros _ s2 Q2. apply wp_bind, wp_modify. apply wp_bind, wp_modify. apply wp_bind, wp_modify, wp_ret.
  specialize (K s2 Q2). destruct (quiet_core _ _ parent p Q Hp) as (p1 & Hp1 & E1 & _).
  destruct (quiet_core s1 s2 parent p1 Q2 Hp1) as (p2 & Hp2 & E2 & _).
  rewrite <-E1 in E2. apply core_eq in E2 as (_ & Eg & _). split.
  - apply set_lookup_safe. rewrite Eg. eapply (add_proc_wf s2 parent p2 n (next_place s)); try done.
    + by eapply quiet_wf.
    + destruct (processes s2 !! n) as [q|] eqn:E; [|done]. destruct (kept_procs _ _ K _ _ E) as (q0 & Hq0 & _).
      destruct (wf_pid _ W0 _ _ Hq0). lia.
    + rewrite (kept_next _ _ K). cbn. pose proof (wf_next _ W0). lia.
    + by rewrite (same_thread _ _ _ (quiet_same _ _ Q2)).
  - destruct K as [KN KB KP]. split; cbn; [rewrite KN; cbn; lia|done|].
    intros id q [[<- <-]|[_ H]]%lookup_insert_Some; [|left; by apply KP].
    right; left. split; [lia|]. exists p. by split.
Qed.

Lemma fork_good parent s :
  proc_wf s → next_id s < usize_max → wp (fork kernel overflow_checks parent) (rests good ok s) s.
Proof.
  intros W Hn. unfold fork. eapply wp_run; [by apply new_id_run|].
  set (n := next_id s). set (s1 := set_next_id (n + 1) s).
  assert (W1 : proc_wf s1) by (apply bump_wf; [unfold n; lia|done]).
  assert (Hfail : ∀ s', quiet s1 s' → good s s').
  { intros s' Q. split; [by eapply quiet_wf|]. eapply (bump_evolves s (n + 1)); [unfold n; lia|apply same_kept, Q]. }
  unfold proc. apply wp_bind, wp_bind, wp_get, wp_ok_or.
  destruct (processes s1 !! parent) as [p|] eqn:Hp; [|by apply Hfail].
  apply (rests_then quiet); [apply rests_log, quiet_log|intros; by apply Hfail|done|]. intros fd s2 Q2.
  apply (rests_then quiet); [apply rests_log, quiet_log|intros; apply Hfail; by etrans|done|]. intros sfd s3 Q3.
  apply (rests_then quiet); [apply rests_unwrap_log; [done|done|apply quiet_log]| |done|].
  { intros; apply Hfail; do 2 (etrans; [eassumption|]); done. }
  intros _ s4 Q4. apply (fork_add_good s s4 parent p n fd); [done|done| |done|done].
  do 2 (etrans; [eassumption|]); done.
Qed.

Abbreviation Good s := (rests good ok s).

Lemma safe_to_good {A} (m : comp ProcScheme A) s : proc_wf s → wp m (Safe s) s → wp m (Good s) s.
Proof. intros W H. eapply rests_weaken; [exact H|]. intros s' H'. by apply safe_good. Qed.

Lemma good_handle s s' i h : good s s' → h ≠ HInit → good s (set_handles <[i := h]> s').
Proof.
  intros [W [N B P]] Hh. destruct (set_handles_safe <[i := h]> s') as [W' K'].
  { by intros j [[_ ?]|[_ ?]]%lookup_insert_Some. } { done. }
  split; [done|]. split; [done| |done]. intros Hb. by apply (kept_booted _ _ K'), B.
Qed.

Lemma on_dup_good id buf s :
  proc_wf s → next_id s < usize_max → (ok → has_handle id s) →
  wp (on_dup kernel slab_key overflow_checks id buf) (Good s) s.
Proof.
  intros W Hn Hid. unfold on_dup. apply rests_handle_at; [done|]. intros h _. destruct h as [|pid'|place| | |];
    try (apply wp_fail; by apply safe_good).
  - wp_if.
    { apply (rests_then good); [by apply fork_good|done|done|]. intros child s1 G1.
      unfold insert_handle. apply wp_bind, wp_bind, wp_get. apply wp_bind, wp_modify, wp_ret, wp_ret.
      by apply good_handle. }
    apply safe_to_good; [done|]. wp_if.
    { apply (rests_bind _); [by apply new_thread_safe|]. intros place s1 _.
      apply (rests_bind _); [by apply insert_handle_safe|intros; by apply rests_ret]. }
    wp_if; [|by apply rests_fail]. apply wp_bind, wp_ok_or. destruct (from_utf8 (drop 7 buf) ≫= _); [|by apply rests_fail].
    apply rests_proc; [apply _|]. intros p Hp. apply wp_bind, wp_ok_or. destruct (threads p !! _); [|by apply rests_fail].
    apply (rests_bind _); [by apply insert_handle_safe|intros; by apply rests_ret].
  - apply safe_to_good; [done|]. apply wp_bind, wp_get. apply wp_bind, wp_ok_or.
    destruct (upgrade place s); [|by apply rests_fail].
    apply (rests_bind _); [apply quiet_to_safe, rests_log, quiet_log|intros; by apply rests_ret].
Qed.

(** The state after the first process has been made *)
Lemma first_good s id t place :
  proc_wf s → handles s !! id = Some HInit → t_pid t = INIT_PID → place = next_place s →
  good s (set_handles <[id := HProc INIT_PID]> (set_lookup <[t_fd t := place]> (set_sessions (λ x, x ∪ {[INIT_PID]})
    (set_processes <[INIT_PID := fresh_process [place] INIT_PID INIT_PID INIT_PID INIT_PID "[init]" 20 0 0 0 0 0 0]>
      (set_groups <[INIT_PID := [INIT_PID]]> (with_thread t s)))))).
Proof.
  intros W Hid Ht ->. destruct (with_thread_safe t s W) as [W1 _].
  assert (processes s = ∅) as Hp by (apply (wf_first _ W); right; by exists id).
  assert (groups s = ∅) as Hg.
  { apply map_eq. intros g. rewrite lookup_empty. destruct (groups s !! g) as [l|] eqn:E; [|done].
    destruct (wf_members _ W _ _ E) as (Hl & _ & Hm). destruct l as [|x l]; [done|].
    destruct (Hm x) as (q & Hq & _); [apply elem_of_cons; by left|]. by rewrite Hp in Hq. }
  assert (¬ booted s) as Hb by (intros [_ Hb]; by apply (Hb id)).
  assert (∀ i, <[id := HProc INIT_PID]> (handles s) !! i ≠ Some HInit) as Hno.
  { intros i [[_ ?]|[Hne Hi]]%lookup_insert_Some; [done|]. by apply Hne, (wf_one_init _ W). }
  split; [|split; [done|done|intros; right; by right]].
  split; cbn; rewrite ?Hp, ?Hg; try apply W1.
  - intros i q [[<- <-]|[_ H]]%lookup_insert_Some; [|done]. cbn. pose proof (wf_next _ W). unfold INIT_PID. lia.
  - intros i q [[<- <-]|[_ H]]%lookup_insert_Some; [|done]. cbn. rewrite lookup_insert_eq. eexists. split; [done|]. by apply list_elem_of_singleton.
  - intros g l [[<- <-]|[_ H]]%lookup_insert_Some; [|done]. split_and!; [done|apply NoDup_singleton|].
    intros x Hx. apply list_elem_of_singleton in Hx as ->. rewrite lookup_insert_eq. by eexists.
  - intros i q [[<- <-]|[_ H]]%lookup_insert_Some; [|done]. cbn. split; [apply NoDup_singleton|].
    intros x Hx. apply list_elem_of_singleton in Hx as ->. rewrite lookup_insert_eq. cbn. by rewrite Ht.
  - intros _ i. apply Hno.
  - intros i j Hi. by destruct (Hno i).
  - intros [Hc|[i Hi]]; [by destruct (wf_unclaimed _ W Hc id)|by destruct (Hno i)].
Qed.

Lemma on_sendfd_good id tag s : proc_wf s → (ok → has_handle id s) → wp (on_sendfd kernel id tag) (Good s) s.
Proof.
  intros W Hid. unfold on_sendfd. apply rests_handle_at; [done|]. intros h Hh.
  destruct h; try (apply wp_ret; by apply safe_good).
  assert (∀ s', quiet s s' → good s s') as Hq by (intros; by apply safe_good, quiet_safe).
  apply (rests_then quiet); [apply rests_result, rests_log, quiet_log|auto|done|]. intros [e|fd] s1 Q1; [by apply Hq|].
  apply (rests_then quiet); [apply rests_unwrap_log; [done|done|apply quiet_log]| |done|].
  { intros. apply Hq. by etrans. }
  intros _ s2 Q2. apply (rests_then quiet); [apply rests_unwrap_log; [done|done|apply quiet_log]| |done|].
  { intros. apply Hq. do 2 (etrans; [eassumption|]). done. }
  intros sfd s3 Q3. assert (Q : quiet s s3) by (do 2 (etrans; [eassumption|]); done).
  unfold new_place. apply wp_bind, wp_bind, wp_get. apply wp_bind, wp_modify. apply wp_bind, wp_modify, wp_ret.
  do 4 apply wp_bind, wp_modify. apply wp_bind, wp_modify, wp_ret. cbn [rests].
  assert (good s3 (set_handles <[id := HProc INIT_PID]> (set_lookup <[fd := next_place s3]> (set_sessions (λ x, x ∪ {[INIT_PID]})
    (set_processes <[INIT_PID := fresh_process [next_place s3] INIT_PID INIT_PID INIT_PID INIT_PID "[init]" 20 0 0 0 0 0 0]>
      (set_groups <[INIT_PID := [INIT_PID]]> (with_thread (mk_thread fd sfd INIT_PID None) s3))))))) as [W4 [N B P]].
  { apply (first_good s3 id (mk_thread fd sfd INIT_PID None)); [by eapply quiet_wf| |done|done].
    by rewrite (same_handles _ _ (quiet_same _ _ Q)). }
  split; [exact W4|]. assert (Hb : ¬ booted s) by (intros [_ Hb]; by apply (Hb id)).
  split; [by rewrite <-(same_next_id _ _ (quiet_same _ _ Q))|done|]. intros; right; by right.
Qed.

(** ** Any step *)

Lemma getpgid_quiet caller target s : wp (on_getpgid caller target) (Quiet s) s.
Proof.
  unfold on_getpgid. do 2 (apply rests_proc; [apply _|]; intros). wp_if; [by apply rests_fail|by apply rests_ret].
Qed.

Lemma getsid_quiet caller target s : wp (on_getsid caller target) (Quiet s) s.
Proof.
  unfold on_getsid. do 2 (apply rests_proc; [apply _|]; intros). wp_if; [by apply rests_fail|by apply rests_ret].
Qed.

Lemma read_metadata_quiet id buf al s : wp (read_process_metadata id buf al) (Quiet s) s.
Proof.
  unfold read_process_metadata. apply rests_proc; [apply _|]. intros. wp_if; [by apply rests_fail|by apply rests_ret].
Qed.

Lemma on_read_quiet id off buf al s : (ok → has_handle id s) → wp (on_read id off buf al) (Quiet s) s.
Proof.
  intros Hid. unfold on_read. apply rests_handle_at; [done|]. intros h _.
  destruct h; [by apply rests_fail|apply read_metadata_quiet|by apply rests_fail|by apply rests_ret|by apply rests_fail..].
Qed.

Lemma ps_size_quiet fd tag found s : (ok → has_handle fd s) → wp (ps_size fd tag found) (Quiet s) s.
Proof. intros Hid. unfold ps_size. apply rests_handle_at; [done|]. intros h _. destruct h; by apply rests_ret. Qed.

Lemma on_cancel_same id s : wp (on_cancel id) (Same s) s.
Proof.
  unfold on_cancel. apply wp_bind, wp_get. wp_if; [|by apply rests_ret].
  apply (rests_bind _); [apply drop_state_same|]. intros _ s1 _. wp_if; try by apply rests_ret.
  apply (rests_bind _); [by apply wp_bind, wp_get, wp_bind, wp_modify, wp_ret|]. intros n s2 _.
  apply (rests_bind _); [apply set_state_same|]. intros _ s3 _.
  apply (rests_bind _); [by apply wp_modify|intros; by apply rests_ret].
Qed.

(** The arguments of a call are there and are not among those that panic *)
Definition call_ok (op : OpCall) : Prop :=
  ∃ m0 m1 m2 rest, op_metadata op = m0 :: m1 :: m2 :: rest ∧
    (thread_call_of_raw m0 = Some SignalThread → signal_ok (m1 `mod` 256)) ∧
    (proc_call_of_raw m0 = Some Kill → signal_ok m2) ∧
    (proc_call_of_raw m0 = Some Sigq → signal_ok m2 ∧ local_aligned = true) ∧
    (proc_call_of_raw m0 = Some SetResugid → op_aligned op = true) ∧
    (proc_call_of_raw m0 = Some Rename → name_ok (op_payload op)).

Lemma rests_meta (R : ProcScheme → ProcScheme → Prop) {B} op i (f : Z → comp ProcScheme B) s :
  (ok → call_ok op) → (i < 3)%nat → (∀ m, op_metadata op !! i = Some m → wp (f m) (rests R ok s) s) →
  wp (meta op i ≫= f) (rests R ok s) s.
Proof.
  intros Hc Hi H. apply wp_bind, wp_expect. destruct (op_metadata op !! i) eqn:E; [by apply H|].
  intros Hok. destruct (Hc Hok) as (m0 & m1 & m2 & rest & Em & _). rewrite Em in E.
  do 3 (destruct i; [done|]). lia.
Qed.

Lemma call_wait_safe v op id by_group s :
  proc_wf s → (ok → call_ok op) →
  wp (call_wait kernel hash_order group_search overflow_checks v op id by_group) (Safe s) s.
Proof.
  intros W Hop. unfold call_wait. apply rests_meta; [done|lia|]. intros m1 _. apply rests_meta; [done|lia|]. intros m2 _.
  destruct (wait_flags_of_bits m2); [|by apply rests_ret].
  apply same_then_safe; [apply set_state_same|]. intros _ s1 S1. apply work_on_safe. by eapply same_wf.
Qed.

Lemma call_setpgid_safe op id s : proc_wf s → (ok → call_ok op) → wp (call_setpgid op id) (Safe s) s.
Proof.
  intros W Hop. unfold call_setpgid. apply rests_meta; [done|lia|]. intros m1 _. apply rests_meta; [done|lia|]. intros m2 _.
  wp_if; apply rests_respond; [apply quiet_to_safe, getpgid_quiet|by apply on_setpgid_safe].
Qed.

Lemma call_kill_quiet op id (queued : bool) s :
  proc_wf s → (ok → call_ok op) →
  (∀ m0, op_metadata op !! 0%nat = Some m0 → proc_call_of_raw m0 = Some (if queued then Sigq else Kill)) →
  wp (call_kill kernel hash_order overflow_checks local_aligned op id queued) (Quiet s) s.
Proof.
  intros W Hop Hverb. unfold call_kill. apply rests_meta; [done|lia|]. intros m1 _. apply rests_meta; [done|lia|]. intros m2 Hm2.
  assert (ok → signal_ok m2 ∧ (queued = true → local_aligned = true)) as Hs.
  { intros Hok. destruct (Hop Hok) as (n0 & n1 & n2 & rest & Em & _ & Hk1 & Hk2 & _). rewrite Em in Hm2, Hverb.
    injection Hm2 as ->. specialize (Hverb n0 eq_refl). destruct queued; [by destruct (Hk2 Hverb)|split; [by apply Hk1|done]]. }
  do 2 (wp_if; [by apply rests_ret|]). apply (rests_bind _).
  { wp_if; [|by apply rests_ret]. intros Hok. destruct (Hs Hok) as [_ Hal]. destruct queued; [|done].
    by rewrite Hal in * by done. }
  intros _ s1 Q1. apply rests_respond, on_kill_quiet; [by eapply quiet_wf|]. intros Hok. by apply Hs.
Qed.

Lemma proc_call_safe v op id verb s :
  proc_wf s → (ok → call_ok op) → (∀ m0, op_metadata op !! 0%nat = Some m0 → proc_call_of_raw m0 = Some verb) →
  wp (proc_call kernel mapped_pctl hash_order group_search overflow_checks local_aligned v op id verb) (Safe s) s.
Proof.
  intros W Hop Hverb.
  destruct verb; cbn [proc_call].
  - apply rests_meta; [done|lia|]. intros m1 _. by apply on_exit_start_safe.
  - by apply call_wait_safe.
  - by apply call_wait_safe.
  - by apply call_setpgid_safe.
  - apply rests_meta; [done|lia|]. intros m1 _. apply rests_respond, quiet_to_safe, getsid_quiet.
  - apply rests_respond. apply rests_proc; [apply _|]. intros; by apply rests_ret.
  - by apply rests_respond, on_setsid_safe.
  - apply rests_respond, on_setresugid_safe; [done|]. intros Hok.
    destruct (Hop Hok) as (m0 & m1 & m2 & rest & Em & _ & _ & _ & Hal & _). unfold slice_u32.
    rewrite Hal; [done|]. apply Hverb. by rewrite Em.
  - by apply quiet_to_safe, call_kill_quiet.
  - by apply quiet_to_safe, call_kill_quiet.
  - by apply rests_respond, quiet_to_safe, on_sync_sigpctl_quiet.
  - apply rests_respond, quiet_to_safe, on_sigdeq_quiet.
  - apply rests_respond, on_proc_rename_safe; [done|]. intros Hok.
    destruct (Hop Hok) as (m0 & m1 & m2 & rest & Em & _ & _ & _ & _ & Hn). apply Hn, Hverb. by rewrite Em.
  - apply rests_respond. apply rests_proc; [apply _|]. intros p Hp. by eapply same_to_safe, put_proc_same.
  - by apply rests_ret.
  - by apply rests_ret.
  - apply rests_meta; [done|lia|]. intros m1 _. apply rests_meta; [done|lia|]. intros m2 _.
    by apply rests_respond, on_setprocprio_safe.
  - apply rests_meta; [done|lia|]. intros m1 _. apply rests_respond. apply rests_proc; [apply _|]. intros; by apply rests_ret.
Qed.

Lemma upgrade_place place s t : upgrade place s = Some t → thread_store s !! place = Some t.
Proof. unfold upgrade. destruct (thread_store s !! place); [|done]. by repeat case_match; intros; simplify_eq. Qed.

Lemma thread_call_quiet op place verb s :
  proc_wf s → is_Some (thread_store s !! place) → (ok → call_ok op) →
  (∀ m0, op_metadata op !! 0%nat = Some m0 → thread_call_of_raw m0 = Some verb) →
  wp (thread_call kernel mapped_tctl overflow_checks op place verb) (Quiet s) s.
Proof.
  intros W Hp Hop Hverb. destruct verb; cbn [thread_call].
  - by apply rests_respond, on_sync_sigtctl_quiet.
  - apply rests_meta; [done|lia|]. intros m1 Hm1. apply rests_respond, on_kill_thread_quiet; [done|done|].
    intros Hok. destruct (Hop Hok) as (n0 & n1 & n2 & rest & Em & Hs & _). rewrite Em in Hm1, Hverb.
    injection Hm1 as ->. by apply Hs, Hverb.
Qed.

Lemma on_call_safe v op s :
  proc_wf s → (ok → has_handle (op_fd op) s) → (ok → call_ok op) →
  wp (on_call kernel mapped_pctl mapped_tctl hash_order group_search overflow_checks local_aligned v op) (Safe s) s.
Proof.
  intros W Hid Hop. unfold on_call. apply rests_handle_at; [done|]. intros h _.
  destruct h as [|id|place| | |]; try by apply rests_ret.
  - apply rests_meta; [done|lia|]. intros m0 Hm0. destruct (proc_call_of_raw m0) eqn:Ev; [|by apply rests_ret].
    apply proc_call_safe; [done|done|]. intros m0' Hm0'. congruence.
  - apply wp_bind, wp_get. destruct (upgrade place s) as [t|] eqn:Eu; [|by apply rests_ret].
    apply rests_meta; [done|lia|]. intros m0 Hm0. destruct (thread_call_of_raw m0) eqn:Ev; [|by apply rests_ret].
    apply quiet_to_safe, thread_call_quiet; [done|apply upgrade_place in Eu; eauto|done|]. intros m0' Hm0'. congruence.
  - apply rests_meta; [done|lia|]. intros m0 Hm0. destruct (proc_call_of_raw m0) as [[]|]; try by apply rests_ret.
    apply rests_meta; [done|lia|]. intros m1 _. apply rests_respond, quiet_to_safe, read_metadata_quiet.
Qed.

(** The request is about a handle that exists, with arguments that do not panic *)
Definition request_ok (req : Request) (s : ProcScheme) : Prop :=
  match req with
  | ReqOpenAt _ fd _ _ _ | ReqDup _ fd _ | ReqRead _ fd _ _ _ | ReqFsize _ fd | ReqFstat _ fd | ReqSendFd _ fd =>
     has_handle fd s
  | ReqCall _ op => has_handle (op_fd op) s ∧ call_ok op
  | _ => True
  end.

Lemma handle_scheme_good req s :
  proc_wf s → next_id s < usize_max → (ok → request_ok req s) →
  wp (handle_scheme kernel mapped_pctl mapped_tctl hash_order slab_key group_search overflow_checks local_aligned req)
    (Good s) s.
Proof.
  intros W Hn Hreq. destruct req; cbn [handle_scheme request_ok] in *.
  2: { by apply rests_respond, on_dup_good. }
  10: { by apply on_sendfd_good. }
  all: apply safe_to_good; [done|].
  - by apply rests_respond, on_openat_safe.
  - by apply rests_respond, quiet_to_safe, on_read_quiet.
  - apply same_then_safe; [apply drop_state_same|]. intros _ s1 S1.
    apply on_call_safe; [by eapply same_wf| |intros Hok; by apply Hreq].
    intros Hok. unfold has_handle. rewrite (same_handles _ _ S1). by apply Hreq.
  - by apply rests_ret.
  - by apply quiet_to_safe, ps_size_quiet.
  - by apply quiet_to_safe, ps_size_quiet.
  - by apply rests_ret.
  - apply same_to_safe, on_cancel_same.
  - apply (rests_bind _); [apply pm_on_close_safe|intros; by apply rests_ret].
  - by apply rests_ret.
Qed.

(** An exit that nobody asked for answers nobody *)
Definition silent (r : outcome (option Response)) : Prop := match r with Ok (Some _) => False | _ => True end.

Lemma silent_then {A} (m : comp ProcScheme A) (f : A → comp ProcScheme (option Response)) s :
  (∀ a s', wp (f a) (λ r _, silent r) s') → wp (m ≫= f) (λ r _, silent r) s.
Proof. intros H. apply wp_bind. unfold wp. destruct (m s) as [[a|e|] s']; [apply H|done|done]. Qed.

Lemma work_on_silent v id s :
  wp (work_on kernel hash_order group_search overflow_checks v (AwaitingThreadsTermination id None))
    (λ r _, silent r) s.
Proof.
  unfold work_on, work_exit, work_wait. apply silent_then. intros _ s1. apply silent_then. intros s2 s3.
  destruct (processes s2 !! id) as [p|]; [|by apply silent_then]. wp_if.
  - destruct (status p); repeat (apply silent_then; intros); done.
  - repeat (apply silent_then; intros). done.
Qed.

Lemma on_exit_start_silent id raw v s :
  wp (on_exit_start kernel hash_order group_search overflow_checks id raw v None) (λ r _, silent r) s.
Proof.
  unfold on_exit_start. apply silent_then. intros s1 s2. destruct (processes s1 !! id) as [p|]; [|done].
  destruct (status p); try done.
  all: destruct (exit_status raw) as [[st signal]|]; [|done]; unfold begin_exit; do 2 (apply silent_then; intros);
    wp_if; [done|]; do 2 (apply silent_then; intros); apply work_on_silent.
Qed.

Lemma exit_unasked_safe id st s :
  proc_wf s → wp (exit_unasked kernel hash_order group_search overflow_checks id st) (Safe s) s.
Proof.
  intros W. unfold exit_unasked, bump_internal. apply wp_bind, wp_bind, wp_get. apply wp_bind, wp_modify, wp_ret.
  assert (Q : same s (set_internal (next_internal_id s + 1) s)) by done.
  eapply rests_lift; [apply _|by apply same_safe|]. set (s1 := set_internal _ s) in *. apply same_wf in Q; [|done].
  apply wp_bind, wp_get. wp_if; [by apply rests_ret|].
  apply (rests_bind_with _ silent); [by apply on_exit_start_safe|apply on_exit_start_silent|].
  intros [] s2 _ Hs; [done|by apply rests_ret].
Qed.

Lemma thread_died_safe fd place id p st s :
  proc_wf s → processes s !! id = Some p →
  wp (thread_died kernel hash_order group_search overflow_checks fd place id p st) (Safe s) s.
Proof.
  intros W Hp. unfold thread_died.
  apply (rests_then same).
  { apply rests_attempt, quiet_to_same, rests_log, quiet_log. }
  { intros. by apply same_safe. } { done. }
  intros _ s1 S1. eapply rests_lift; [apply _|by apply same_safe|]. apply wp_bind, wp_modify.
  pose proof (same_wf _ _ S1 W) as W1. destruct (same_proc_fwd _ _ _ _ S1 Hp) as (p1 & Hp1 & E).
  apply core_eq in E as (Ei & Eg & Et & Er & Ee & Es). eapply rests_lift; [apply _|apply set_lookup_safe|].
  set (s2 := set_lookup _ s1). destruct (set_lookup_safe (delete fd) s1 W1) as [W2 _]. fold s2 in W2.
  set (p' := set_threads _ p).
  assert (Hput : ∀ q, pid q = pid p → pgid q = pgid p → threads q = threads p' → ruid q = ruid p → euid q = euid p →
      suid q = suid p → safe s2 (set_processes <[id := q]> s2)).
  { intros q Hi Hg Ht Hr He Hu. eapply (replace_safe s2 id p1); [done|congruence|congruence| |].
    - rewrite Ht. cbn. rewrite Et. apply sublist_filter.
    - unfold root_capable. by rewrite Hr, He, Hu, Er, Ee, Es. }
  wp_if.
  3: { apply wp_bind, wp_modify, wp_modify. cbn [rests]. etrans; [by apply (Hput (set_awaiting [] p'))|by apply same_safe]. }
  all: apply wp_bind, wp_modify; eapply rests_lift; [apply _|by apply (Hput p')|];
    wp_if; [|by apply rests_ret]; apply exit_unasked_safe; by apply (Hput p').
Qed.

Lemma thread_event_safe fd s :
  proc_wf s → wp (thread_event kernel hash_order group_search overflow_checks fd) (Safe s) s.
Proof.
  intros W. unfold thread_event. apply wp_bind, wp_get. wp_if; [|by apply rests_ret].
  destruct (upgrade _ s) as [t|] eqn:Eu; [|by apply rests_ret].
  destruct (processes s !! t_pid t) as [p|] eqn:Hp; [|by apply rests_ret].
  destruct (kernel (calls s) (SysReadStatus (status_hndl t))) as [e|sts] eqn:E.
  - apply wp_bind. unfold wp, unwrap. rewrite sys_run, E. intros Hok.
    destruct (Hk Hok (calls s) (SysReadStatus (status_hndl t)) eq_refl). congruence.
  - eapply wp_run; [unfold unwrap; by rewrite sys_run, E|]. eapply rests_lift; [apply _|by apply quiet_safe, quiet_log|].
    wp_if; [|by apply rests_ret]. apply thread_died_safe; [|done]. by apply (quiet_wf s).
Qed.

Lemma work_awoken_safe s : proc_wf s → wp (work_awoken kernel hash_order group_search overflow_checks) (Safe s) s.
Proof.
  intros W. unfold work_awoken. apply wp_bind, wp_get. destruct (awoken s) as [|v rest]; [by apply rests_ret|].
  apply wp_bind, wp_modify. assert (Q : same s (set_awoken (λ _, rest) s)) by done.
  eapply rests_lift; [apply _|by apply same_safe|]. wp_if; [apply work_on_safe; by eapply same_wf|by apply rests_ret].
Qed.

(** What the one who causes a step has to see to *)
Definition label_ok (l : label) (s : ProcScheme) : Prop :=
  match l with LRequest req => request_ok req s | _ => True end.

Lemma step_good l s :
  proc_wf s → next_id s < usize_max → (ok → label_ok l s) →
  wp (step kernel mapped_pctl mapped_tctl hash_order slab_key group_search overflow_checks local_aligned l) (Good s) s.
Proof.
  intros W Hn Hl. destruct l; cbn [step]; [by apply handle_scheme_good|..]; apply safe_to_good; try done.
  - apply (rests_bind _); [by apply thread_event_safe|intros; by apply rests_ret].
  - by apply work_awoken_safe.
  - apply wp_bind, wp_modify, wp_ret. apply same_safe. split; try done. cbn. apply map_eq. intros i.
    rewrite !lookup_fmap. destruct (decide (i = id)) as [->|Hne]; [|by rewrite lookup_alter_ne].
    rewrite lookup_alter_eq. by destruct (processes s !! id).
  - apply wp_bind, wp_modify, wp_ret. apply same_safe. split; try done. cbn. apply map_eq. intros i.
    rewrite !lookup_fmap. destruct (decide (i = place)) as [->|Hne]; [|by rewrite lookup_alter_ne].
    rewrite lookup_alter_eq. by destruct (thread_store s !! place).
Qed.
End Signals.

(** ** Every step answers: no error is left to nobody *)

Definition replies {A} (r : outcome A) (s : ProcScheme) : Prop := match r with Err _ => False | _ => True end.

Lemma replies_bind {A B} (m : comp ProcScheme A) (f : A → comp ProcScheme B) s :
  wp m replies s → (∀ a s', wp (f a) replies s') → wp (m ≫= f) replies s.
Proof. intros Hm Hf. apply wp_bind. unfold wp in Hm |- *. destruct (m s) as [[a|e|] s']; [apply Hf|done|done]. Qed.

Lemma replies_result {A} (m : comp ProcScheme A) s : wp (result m) replies s.
Proof. unfold wp, result. by destruct (m s) as [[] ?]. Qed.

Lemma replies_attempt {A} (m : comp ProcScheme A) s : wp (attempt m) replies s.
Proof. unfold wp, attempt. by destruct (m s) as [[] ?]. Qed.

Lemma replies_unwrap {A} (m : comp ProcScheme A) s : wp (unwrap m) replies s.
Proof. unfold wp, unwrap. by destruct (m s) as [[] ?]. Qed.

Lemma replies_expect {A} (o : option A) s : wp (expect o) replies s.
Proof. by destruct o. Qed.

Lemma replies_for_each {A} (f : A → comp ProcScheme unit) l s :
  (∀ a s', wp (f a) replies s') → wp (for_each f l) replies s.
Proof. intros H. revert s. induction l as [|a l IH]; intros s; cbn [for_each]; [done|]. by apply replies_bind. Qed.

Ltac replies_step :=
  lazymatch goal with
  | |- wp (mbind _ _) _ _ => apply replies_bind; [|intros]
  | |- wp (result _) _ _ => apply replies_result
  | |- wp (attempt _) _ _ => apply replies_attempt
  | |- wp (unwrap _) _ _ => apply replies_unwrap
  | |- wp (expect _) _ _ => apply replies_expect
  | |- wp (for_each _ _) _ _ => apply replies_for_each; intros
  | |- wp (respond _ _ _ _) _ _ => unfold respond
  | |- wp (respond_unit _ _) _ _ => unfold respond_unit
  | |- wp (handle_at _) _ _ => unfold handle_at
  | |- wp (match ?x with _ => _ end) _ _ => destruct x
  | |- _ => done
  end.

Lemma replies_exit id p sig st s : wp (finish_exit kernel hash_order overflow_checks id p sig st) replies s.
Proof.
  unfold finish_exit, leave_to_init. repeat replies_step.
  - unfold reparent. repeat replies_step.
  - unfold hup_group. repeat replies_step. unfold hup_member. repeat replies_step.
Qed.

Lemma replies_work_on v st s : wp (work_on kernel hash_order group_search overflow_checks v st) replies s.
Proof.
  unfold work_on, work_exit, work_wait, answer_or_drop. repeat lazymatch goal with
  | |- wp (finish_exit _ _ _ _ _ _ _) _ _ => apply replies_exit
  | _ => replies_step end.
Qed.

Lemma replies_exit_start id raw v tag s :
  wp (on_exit_start kernel hash_order group_search overflow_checks id raw v tag) replies s.
Proof.
  unfold on_exit_start, begin_exit. repeat lazymatch goal with
  | |- wp (work_on _ _ _ _ _ _) _ _ => apply replies_work_on
  | _ => replies_step end.
Qed.

Lemma replies_thread_event fd s : wp (thread_event kernel hash_order group_search overflow_checks fd) replies s.
Proof.
  unfold thread_event, thread_died, exit_unasked. repeat lazymatch goal with
  | |- wp (on_exit_start _ _ _ _ _ _ _ _) _ _ => apply replies_exit_start
  | _ => replies_step end.
Qed.

Lemma replies_call v op s :
  wp (on_call kernel mapped_pctl mapped_tctl hash_order group_search overflow_checks local_aligned v op) replies s.
Proof.
  unfold on_call, handle_at, proc_call, thread_call, call_wait, call_setpgid, call_kill, meta.
  repeat lazymatch goal with
  | |- wp (on_exit_start _ _ _ _ _ _ _ _) _ _ => apply replies_exit_start
  | |- wp (work_on _ _ _ _ _ _) _ _ => apply replies_work_on
  | _ => replies_step end.
Qed.

Lemma replies_step_label l s :
  wp (step kernel mapped_pctl mapped_tctl hash_order slab_key group_search overflow_checks local_aligned l) replies s.
Proof.
  destruct l as [req|fd| | |]; cbn [step]; [|apply replies_bind; [apply replies_thread_event|done]| |done|done].
  - destruct req; cbn [handle_scheme];
      unfold open_dup_like, ps_size, on_sendfd, on_cancel;
      repeat lazymatch goal with
      | |- wp (on_call _ _ _ _ _ _ _ _ _) _ _ => apply replies_call
      | _ => replies_step end.
  - unfold work_awoken. repeat lazymatch goal with
    | |- wp (work_on _ _ _ _ _ _) _ _ => apply replies_work_on
    | _ => replies_step end.
Qed.
End Inv.

(** ** Histories *)

(** What is outside of the manager, which may differ from step to step *)
Record Env {PA : ProcAbi} := mk_env {
  e_kernel : list sys_call → sys_call → errno + Z;
  e_mapped_pctl : list sys_call → SigProcControl;
  e_mapped_tctl : list sys_call → Sigcontrol;
  e_hash_order : list Z → list Z;
  e_slab_key : gmap Z Handle → Z;
  e_group_search : gmap Z (Z * WaitpidStatus) → Z → option Z;
  e_local_aligned : bool
}.

Section Histories.
Context {SA : SyscallAbi} {PA : ProcAbi} {PL : ProcAbiLaws PA}.
Variable overflow_checks : bool.

Definition env_step (e : Env) (l : label) : comp ProcScheme (option Response) :=
  step (e_kernel e) (e_mapped_pctl e) (e_mapped_tctl e) (e_hash_order e) (e_slab_key e) (e_group_search e)
    overflow_checks (e_local_aligned e) l.

(** The kernel fails no call that the manager takes for granted, and the step does not ask
    for one of the things that panic *)
Definition step_ok (e : Env) (l : label) (s : ProcScheme) : Prop :=
  kernel_ok (e_kernel e) ∧ label_ok overflow_checks (e_local_aligned e) l s.

Lemma env_step_good e l s :
  proc_wf s → next_id s < usize_max →
  match env_step e l s with
  | (Ok _, s') => proc_wf s' ∧ evolves s s'
  | (Err _, _) => False
  | (Panic, _) => ¬ step_ok e l s
  end.
Proof.
  intros W Hn. unfold env_step.
  pose proof (step_good (e_kernel e) (e_mapped_pctl e) (e_mapped_tctl e) (e_hash_order e) (e_slab_key e)
    (e_group_search e) overflow_checks (e_local_aligned e) (step_ok e l s) (λ H, proj1 H) l s W Hn (λ H, proj2 H)) as G.
  pose proof (replies_step_label (e_kernel e) (e_mapped_pctl e) (e_mapped_tctl e) (e_hash_order e) (e_slab_key e)
    (e_group_search e) overflow_checks (e_local_aligned e) l s) as R.
  unfold wp in G, R. destruct (step _ _ _ _ _ _ _ _ l s) as [[r|err|] s']; done.
Qed.

(** The states that the manager can be in; fewer than 2^64 processes are ever made *)
Inductive reachable (root : Z) : ProcScheme → Prop :=
  | reach_new : reachable root (scheme_new root)
  | reach_step e l s r s' :
      reachable root s → next_id s < usize_max → env_step e l s = (Ok r, s') → reachable root s'.

Lemma scheme_new_wf root : proc_wf (scheme_new root).
Proof.
  split; cbn; try done.
  - intros place [t Ht]. done.
  - intros _ i Hi. apply lookup_singleton_Some in Hi as [_ ?]. done.
  - intros i j Hi. apply lookup_singleton_Some in Hi as [_ ?]. done.
Qed.

Lemma reachable_wf root s : reachable root s → proc_wf s.
Proof.
  induction 1 as [|e l s r s' _ IH Hn Hs]; [apply scheme_new_wf|].
  pose proof (env_step_good e l s IH Hn) as G. rewrite Hs in G. by destruct G.
Qed.

(** C12. In every state that the manager can reach the group table lists
    exactly the processes of each group, each once, and has no empty group; process ids are
    those of the table and were given out before. *)
Theorem procmgr_groups_exact root s :
  reachable root s →
  (∀ id g, (∃ p, processes s !! id = Some p ∧ pgid p = g) ↔ ∃ l, groups s !! g = Some l ∧ id ∈ l) ∧
  (∀ g l, groups s !! g = Some l → l ≠ [] ∧ NoDup l) ∧
  (∀ id p, processes s !! id = Some p → pid p = id ∧ 1 ≤ id < next_id s).
Proof.
  intros W%reachable_wf. split_and!.
  - intros id g. split.
    + intros (p & Hp & <-). by apply (wf_group _ W).
    + intros (l & Hl & Hin). destruct (wf_members _ W _ _ Hl) as (_ & _ & Hm). by apply Hm.
  - intros g l Hl. destruct (wf_members _ W _ _ Hl) as (? & ? & _). done.
  - apply (wf_pid _ W).
Qed.


(** [family] after a step: the processes that were in it, and their new children *)
Definition heirs (X : gset Z) (s s' : ProcScheme) : gset Z :=
  X ∪ filter (λ id, (λ p, bool_decide (ppid p ∈ X)) <$> processes s' !! id = Some true)
        (dom (processes s') ∖ dom (processes s)).

(** A history with the descendants of some processes of its first state *)
Inductive family (s0 : ProcScheme) (X0 : gset Z) : ProcScheme → gset Z → Prop :=
  | family_start : family s0 X0 s0 X0
  | family_step e l s r s' X :
      family s0 X0 s X → next_id s < usize_max → env_step e l s = (Ok r, s') → family s0 X0 s' (heirs X s s').

(** What is known of a family without privileges *)
Definition harmless (X : gset Z) (s : ProcScheme) : Prop :=
  ∀ id, id ∈ X → booted s ∧ id < next_id s ∧ ∀ p, processes s !! id = Some p → ¬ root_capable p.

Lemma harmless_heirs X s s' : proc_wf s' → evolves s s' → harmless X s → harmless (heirs X s s') s'.
Proof.
  intros W' [N B P] H id Hid. unfold heirs in Hid. apply elem_of_union in Hid as [Hid|Hid].
  - destruct (H id Hid) as (Hb & Hn & Hr). split_and!; [by apply B|lia|]. intros p' Hp' Hroot.
    destruct (P _ _ Hp') as [(p & Hp & Hi)|[(Hnew & _)|Hno]]; [|lia|done]. by apply (Hr p Hp), Hi.
  - apply elem_of_filter in Hid as [Hpp [Hin Hnot]%elem_of_difference].
    apply elem_of_dom in Hin as [p' Hp']. rewrite Hp' in Hpp. injection Hpp as Hpp%bool_decide_eq_true.
    destruct (H _ Hpp) as (Hb & _ & Hr). destruct (wf_pid _ W' _ _ Hp') as [_ Hrange].
    split_and!; [by apply B|lia|]. intros q Hq Hroot. simplify_eq.
    destruct (P _ _ Hp') as [(p & Hp & _)|[(_ & p & Hp & Hi)|Hno]]; [|by apply (Hr p Hp), Hi|done].
    apply Hnot, elem_of_dom. eauto.
Qed.

(** C13. A process none of whose user ids is 0, and all its descendants, never
    again have one that is: not by [setresugid], not by [fork], and not by taking over the id
    of a process that is gone. *)
Theorem procmgr_no_privilege_gain root s X s' X' :
  reachable root s → X ⊆ dom (processes s) →
  (∀ id p, id ∈ X → processes s !! id = Some p → ¬ root_capable p) →
  family s X s' X' →
  ∀ id p, id ∈ X' → processes s' !! id = Some p → ¬ root_capable p.
Proof.
  intros HR HX Hr HF.
  assert (proc_wf s' ∧ harmless X' s') as [_ H]; [|intros id p Hid; by apply H].
  induction HF as [|e l s1 r s2 X1 HF [W1 H1] Hn Hs].
  - pose proof (reachable_wf _ _ HR) as W. split; [done|]. intros id Hid. assert (Hd := HX id Hid).
    apply elem_of_dom in Hd as [p Hp]. destruct (wf_pid _ W _ _ Hp) as [_ ?].
    split_and!; [by eapply wf_booted|lia|]. intros q Hq. by eapply Hr.
  - pose proof (env_step_good e l s1 W1 Hn) as G. rewrite Hs in G. destruct G as [W2 E].
    split; [done|]. by apply harmless_heirs.
Qed.
End Histories.
