(* ===== verification/ProcmgrExit.v ===== *)
(** * Exit and wait

    The end of a process in [Procmgr]: the loop over woken requests ends, a process that exits
    is reported to the parent that waits for it and is then forgotten, and the two places where
    a report is lost. *)

From S2P Require Import Prelude Abi SchemeUtils Procmgr ProcmgrInv.

Section Calm.
Context {PA : ProcAbi}.

(** [quiet], but the children of the process [current] may get the first process as parent *)
Record calm (current : Z) (s s' : ProcScheme) : Prop := mk_calm {
  calm_same : same s s';
  calm_ending : fst ∘ face <$> processes s' = fst ∘ face <$> processes s;
  calm_states : states s' = states s;
  calm_listens : ∀ id v, listens id v s → listens id v s';
  calm_ppid : ∀ id p p', processes s !! id = Some p → processes s' !! id = Some p' →
    ppid p' = ppid p ∨ (ppid p = current ∧ ppid p' = INIT_PID);
}.

#[global] Instance calm_preorder current : PreOrder (calm current).
Proof.
  split.
  - intros s. split; try done. intros id p p' H1 H2. simplify_eq. by left.
  - intros s1 s2 s3 [S1 E1 T1 L1 P1] [S2 E2 T2 L2 P2]. split; [by etrans..|eauto|].
    intros id p1 p3 H1 H3. destruct (same_proc_fwd _ _ _ _ S1 H1) as (p2 & H2 & _).
    destruct (P1 _ _ _ H1 H2) as [E|[? E]], (P2 _ _ _ H2 H3) as [E'|[? E']]; rewrite ?E' in *; rewrite ?E in *; auto.
Qed.

Lemma quiet_calm current s s' : quiet s s' → calm current s s'.
Proof.
  intros [S F T L]. split; try done.
  - rewrite !map_fmap_compose, F. done.
  - intros id p p' Hp Hp'. left. apply (f_equal (lookup id)) in F. rewrite !lookup_fmap, Hp, Hp' in F.
    apply (inj Some) in F. unfold face in F. congruence.
Qed.

(** How many processes have called exit but are not reported yet *)
Definition exiting (s : ProcScheme) : nat :=
  size (filter (λ kx, is_Some kx.2.1) (fst ∘ face <$> processes s)).

Lemma exiting_eq s s' : fst ∘ face <$> processes s' = fst ∘ face <$> processes s → exiting s' = exiting s.
Proof. unfold exiting. by intros ->. Qed.

Lemma exiting_exited s s' id p sig st :
  processes s !! id = Some p → status p = Exiting sig st →
  fst ∘ face <$> processes s' = fst ∘ face <$> <[id := set_status (Exited sig st) p]> (processes s) →
  (exiting s' < exiting s)%nat.
Proof.
  intros Hp Hst E. unfold exiting. rewrite E, fmap_insert, map_filter_insert_False, map_filter_delete; [|by intros [? ?]].
  assert (Hin : filter (λ kx, is_Some kx.2.1) (fst ∘ face <$> processes s) !! id = Some ((fst ∘ face) p)).
  { apply map_lookup_filter_Some. rewrite lookup_fmap, Hp. split; [done|]. cbn. unfold face. rewrite Hst. cbn. eauto. }
  rewrite map_size_delete_Some by eauto. pose proof (map_size_ne_0_lookup_2 _ id ltac:(eauto)). lia.
Qed.

(** Nothing is woken and no process starts to exit *)
Definition idle (s s' : ProcScheme) : Prop := awoken s' = awoken s ∧ (exiting s' ≤ exiting s)%nat.

#[global] Instance idle_preorder : PreOrder idle.
Proof.
  split.
  - intros s. by split.
  - intros s1 s2 s3 [A1 E1] [A2 E2]. split; [congruence|lia].
Qed.

Lemma idle_put s id p p' :
  processes s !! id = Some p → (face p').1 = (face p).1 → idle s (set_processes <[id := p']> s).
Proof. intros Hp Hf. split; [done|]. rewrite (exiting_eq s); [done|]. cbn. by eapply fmap_put. Qed.

Lemma idle_delete s id f : idle s (set_groups f (set_processes (delete id) s)).
Proof.
  split; [done|]. unfold exiting. cbn. rewrite fmap_delete, map_filter_delete. apply map_subseteq_size, delete_subseteq.
Qed.
End Calm.

Section Exit.
Context {SA : SyscallAbi} {PA : ProcAbi} {PL : ProcAbiLaws PA}.
Variable kernel : list sys_call → sys_call → errno + Z.
Variable hash_order : list Z → list Z.
Variable group_search : gmap Z (Z * WaitpidStatus) → Z → option Z.
Variable overflow_checks : bool.
Variable ok : Prop.
Hypothesis Hk : ok → kernel_ok kernel.

Abbreviation Calm id s := (rests (calm id) ok s).

Lemma quiet_to_calm {A} id (m : comp ProcScheme A) s : wp m (rests quiet ok s) s → wp m (Calm id s) s.
Proof. intros H. eapply rests_weaken; [exact H|]. intros s'. apply quiet_calm. Qed.

Lemma calm_ret {A} id (a : A) s : wp (mret a) (Calm id s) s.
Proof. apply wp_ret. cbn. reflexivity. Qed.

Lemma fmap_put_compose {A B C} (f : B → C) (g : A → B) (m : gmap Z A) i x y :
  m !! i = Some x → f (g y) = f (g x) → f ∘ g <$> <[i := y]> m = f ∘ g <$> m.
Proof. intros. by eapply fmap_put. Qed.

Lemma reparent_calm current child s :
  (∀ c, processes s !! child = Some c → ppid c = current ∨ ppid c = INIT_PID) → child ≠ INIT_PID →
  wp (reparent child) (Calm current s) s.
Proof.
  intros Hc Hne. unfold reparent. apply wp_bind, wp_get.
  destruct (processes s !! child) as [c|] eqn:Ec; [|apply calm_ret].
  destruct (processes s !! INIT_PID) as [init|] eqn:Ei; [|apply calm_ret].
  apply wp_bind, wp_modify. set (s1 := set_processes _ s).
  assert (C1 : calm current s s1) by (by eapply quiet_calm, quiet_put).
  eapply rests_weaken; [|intros s' H; etrans; [exact C1|exact H]]. apply wp_modify.
  assert (Hc1 : processes s1 !! child = Some c) by (cbn; by rewrite lookup_insert_ne).
  split; [split; try done; cbn; by eapply fmap_put|cbn; by eapply fmap_put|done|..].
  - intros i v [Hv|(q & Hq & Hv)]; [by left|]. right. cbn. destruct (decide (i = child)) as [->|Hn].
    + rewrite lookup_insert_eq. eexists. split; [done|]. by simplify_eq.
    + rewrite lookup_insert_ne by done. eauto.
  - intros i p p' Hp Hp'. cbn in Hp'. destruct (decide (i = child)) as [->|Hn].
    + rewrite lookup_insert_eq in Hp'. simplify_eq. cbn. destruct (Hc _ eq_refl); [by right|left; congruence].
    + rewrite lookup_insert_ne in Hp' by done. left. cbn in Hp. congruence.
Qed.

Lemma elem_children current s id :
  id ∈ children hash_order current s → id ≠ INIT_PID ∧ ∃ p, processes s !! id = Some p ∧ ppid p = current.
Proof.
  intros [[Hn Hp] _]%list_elem_of_filter. split; [done|]. destruct (processes s !! id) as [p|]; [|done].
  exists p. split; [done|]. by injection Hp.
Qed.

Lemma leave_to_init_calm id grp s :
  proc_wf s → wp (leave_to_init kernel hash_order overflow_checks id grp) (Calm id s) s.
Proof.
  intros W. unfold leave_to_init. apply wp_bind, wp_get.
  destruct (processes s !! INIT_PID) as [init|] eqn:Hi; [|apply calm_ret].
  apply (rests_bind _); [by eapply quiet_to_calm, wake_waiters_quiet|]. intros _ s1 S1. apply wp_bind, wp_get.
  apply (rests_bind _).
  { apply (rests_for_each _). intros child s2 (Hn & c & Hc & Hpp)%elem_children C2. apply reparent_calm; [|done].
    intros c2 Hc2. destruct (calm_ppid _ _ _ C2 _ _ _ Hc Hc2) as [->|[_ ->]]; auto. }
  intros _ s2 S2. apply (rests_for_each _). intros gw s3 _ S3.
  apply quiet_to_calm, hup_group_quiet; [done|]. eapply same_wf; [|exact W].
  do 2 (etrans; [eapply calm_same; eassumption|]). by eapply calm_same.
Qed.

(** The end of a process: it is [Exited], and whoever waited for a child of its parent is woken *)
Lemma finish_exit_calm id p sig st s :
  proc_wf s → processes s !! id = Some p →
  wp (finish_exit kernel hash_order overflow_checks id p sig st)
    (λ r s', match r with
             | Panic => ¬ ok
             | Err _ => True
             | Ok _ =>
                calm id (set_processes <[id := set_status (Exited sig st) p]> s) s' ∧
                ∀ v q, ppid p ≠ id → processes s !! ppid p = Some q → v ∈ waitpid_waiting q → v ∈ awoken s'
             end) s.
Proof.
  intros W Hp. unfold finish_exit. apply wp_bind, wp_modify. set (s1 := set_processes _ s).
  assert (S1 : same s s1) by (split; try done; cbn; by eapply fmap_put).
  apply (same_wf _ _ S1) in W as W1. apply wp_bind, wp_get.
  destruct (processes s1 !! ppid p) as [q1|] eqn:Hq1.
  2:{ split; [reflexivity|]. intros v q Hne Hq. cbn in Hq1. rewrite lookup_insert_ne in Hq1 by done. congruence. }
  pose proof chld_range.
  apply (rests_then ok (calm id)); [|done|done|].
  { apply rests_attempt, quiet_to_calm, send_sig_quiet; [done|done|done|intros _ _; lia]. }
  intros _ s2 C2. apply (same_wf _ _ (calm_same _ _ _ C2)) in W1 as W2.
  apply (rests_then ok (calm id)); [by apply leave_to_init_calm|done|done|]. intros _ s3 C3.
  assert (C : calm id s1 s3) by by etrans.
  destruct (same_proc_fwd _ _ _ _ (calm_same _ _ _ C) Hq1) as (q3 & Hq3 & _).
  apply wp_bind. unfold attempt, notify_parent, proc, wp, mbind, comp_bind, get, ok_or. rewrite Hq3. cbn.
  split.
  - etrans; [exact C|]. apply quiet_calm.
    pose proof (wake_waiters_quiet ok (ppid p) q3
      (set_waitpid (waitpid_insert id (pgid p) (WTerminated sig st) (waitpid q3)) q3) s3 Hq3 eq_refl eq_refl eq_refl) as Q.
    exact Q.
  - intros v q Hne Hq Hv. destruct (calm_listens _ _ _ C (ppid p) v) as [Ha|(q' & Hq' & Hw)].
    + right. exists q. cbn. rewrite lookup_insert_ne by done. done.
    + cbn. set_solver.
    + cbn. simplify_eq. set_solver.
Qed.

(** ** The loop over woken requests ends *)

Lemma idle_ret {A} (a : A) s : wp (mret a) (rests idle ok s) s.
Proof. apply wp_ret. cbn. reflexivity. Qed.

Lemma idle_fail {A} e s : wp (fail (A := A) e) (rests idle ok s) s.
Proof. apply wp_fail. cbn. reflexivity. Qed.

Lemma put_proc_idle s id p p' :
  processes s !! id = Some p → (face p').1 = (face p).1 → wp (put_proc id p') (rests idle ok s) s.
Proof. intros. apply wp_modify. by eapply idle_put. Qed.

Lemma grim_reaper_idle flags id st s : wp (grim_reaper flags id st) (rests idle ok s) s.
Proof.
  unfold grim_reaper. apply (rests_bind _); [|intros; apply idle_ret]. destruct st; [apply idle_ret..|].
  unfold reap. apply wp_bind, wp_get. destruct (processes s !! id) as [p|]; [|apply idle_ret].
  wp_if; [apply idle_ret|]. apply wp_bind, wp_modify. wp_if; [apply wp_modify, idle_delete|].
  apply wp_ret. apply (idle_delete s id (λ g, g)).
Qed.

Lemma take_status_idle this flags v p found s :
  processes s !! this = Some p → wp (take_status this flags v p found) (rests idle ok s) s.
Proof.
  intros Hp. unfold take_status. destruct (found ≫= _) as [[w [g st]]|].
  - apply (rests_bind _); [by eapply put_proc_idle|]. intros. apply grim_reaper_idle.
  - unfold wait_more. wp_if; [apply idle_ret|]. apply (rests_bind _); [by eapply put_proc_idle|intros; apply idle_ret].
Qed.

Lemma on_waitpid_idle this target flags v s : wp (on_waitpid group_search this target flags v) (rests idle ok s) s.
Proof.
  unfold on_waitpid. apply wp_bind, wp_get. wp_if; [apply idle_fail|]. apply (rests_proc _ _). intros p Hp.
  destruct target as [id|grp| |]; [| |by apply take_status_idle..].
  - wp_if; [apply idle_fail|]. apply (rests_proc _ _). intros q Hq. wp_if; [apply idle_fail|].
    destruct (status q); try by apply take_status_idle.
    apply (rests_bind _); [by eapply put_proc_idle|]. intros. apply grim_reaper_idle.
  - apply wp_bind, wp_ok_or. destruct (groups s !! grp); [|apply idle_fail].
    wp_if; [by apply take_status_idle|apply idle_fail].
Qed.

(** Working on a request wakes nobody, or a process has ended *)
Lemma work_on_measure v st s :
  proc_wf s →
  wp (work_on kernel hash_order group_search overflow_checks v st)
    (λ r s', match r with Panic => ¬ ok | Err _ => True | Ok _ => idle s s' ∨ (exiting s' < exiting s)%nat end) s.
Proof.
  intros W. unfold work_on, work_exit, work_wait. apply wp_bind, wp_modify. set (s1 := set_states _ s). assert (I1 : idle s s1) by done.
  assert (W1 : proc_wf s1) by (by apply (same_wf s)).
  assert (∀ A (m : comp ProcScheme A), wp m (rests idle ok s1) s1 →
    wp m (λ r s', match r with Panic => ¬ ok | Err _ => True | Ok _ => idle s s' ∨ (exiting s' < exiting s)%nat end) s1) as Hidle.
  { intros A m Hm. eapply wp_mono; [exact Hm|]. intros [] s' Hs; cbn in Hs; [|done|done]. left. by etrans. }
  assert (Hdrop : ∀ tag r, wp (answer_or_drop v tag r) (rests idle ok s1) s1) by (by intros []).
  destruct st as [waiter target flags op|id tag|]; [| |apply Hidle, idle_ret].
  - apply Hidle. apply (rests_bind _); [apply rests_result, on_waitpid_idle|].
    intros [e|[[w code]|]] s2 _; [apply idle_ret..|]. by apply (rests_bind _).
  - apply wp_bind, wp_get. destruct (processes s1 !! id) as [p|] eqn:Hp; [|apply Hidle, Hdrop]. wp_if.
    + destruct (status p) as [| |sig st|] eqn:Est; try apply Hidle, Hdrop.
      apply wp_bind, wp_modify. apply wp_bind. set (s2 := set_states _ s1).
      assert (W2 : proc_wf s2) by (by apply (same_wf s1)).
      eapply wp_mono; [by apply (finish_exit_calm id p sig st s2)|]. intros [] s3 H; cbn in H; [|done|done].
      right. destruct H as [C _]. eapply (exiting_exited s s3); [exact Hp|exact Est|apply (calm_ending _ _ _ C)].
    + apply Hidle. apply (rests_bind _); [by eapply put_proc_idle|]. intros. by apply (rests_bind _).
Qed.

Lemma work_awoken_measure v rest s :
  proc_wf s → awoken s = v :: rest →
  wp (work_awoken kernel hash_order group_search overflow_checks)
    (λ r s', match r with
             | Panic => ¬ ok
             | Err _ => False
             | Ok _ => proc_wf s' ∧ ((exiting s' ≤ exiting s)%nat ∧ awoken s' = rest ∨ (exiting s' < exiting s)%nat)
             end) s.
Proof.
  intros W Ha.
  pose proof (work_awoken_safe kernel hash_order group_search overflow_checks ok Hk s W) as HS.
  assert (HR : wp (work_awoken kernel hash_order group_search overflow_checks) replies s).
  { unfold work_awoken. apply replies_bind; [done|]. intros s0 s1. wp_if; [done|]. apply replies_bind; [done|].
    intros. wp_if; [apply replies_work_on|done]. }
  assert (HM : wp (work_awoken kernel hash_order group_search overflow_checks)
    (λ r s', match r with Panic => ¬ ok | Err _ => True
             | Ok _ => (exiting s' ≤ exiting s)%nat ∧ awoken s' = rest ∨ (exiting s' < exiting s)%nat end) s).
  { unfold work_awoken. apply wp_bind, wp_get. rewrite Ha. apply wp_bind, wp_modify. wp_if; [|apply wp_ret; by left].
    eapply wp_mono; [apply work_on_measure; by apply (same_wf s)|]. intros [] s' H; [|done|done].
    destruct H as [[H1 H2]|H]; [left|right]; done. }
  unfold wp in HS, HR, HM |- *. destruct (work_awoken _ _ _ _ s) as [[] s']; cbn in *; [|done|done].
  destruct (HS W) as [W' _]. done.
Qed.

Lemma drain_ends s :
  ok → proc_wf s →
  ∃ n rs s', awoken s' = [] ∧
    ∀ m, (n ≤ m)%nat → drain kernel hash_order group_search overflow_checks m s = Some (Ok rs, s').
Proof.
  intros Hok. remember (exiting s) as e eqn:He. revert s He. induction (lt_wf e) as [e _ IHe]. intros s He.
  remember (length (awoken s)) as k eqn:Hlen. revert s He Hlen. induction k as [|k IHk]; intros s He Hlen W.
  - destruct (awoken s) eqn:Ea; [|done]. exists 0%nat, [], s. split; [done|]. intros [|m] _; cbn [drain]; by rewrite Ea.
  - destruct (awoken s) as [|v rest] eqn:Ea; [done|]. pose proof (work_awoken_measure v rest s W Ea) as H.
    unfold wp in H. destruct (work_awoken _ _ _ _ s) as [[r|err|] s1] eqn:Ew; cbn in H; [|done|done].
    destruct H as [W1 H].
    assert (∃ n rs s', awoken s' = [] ∧
      ∀ m, (n ≤ m)%nat → drain kernel hash_order group_search overflow_checks m s1 = Some (Ok rs, s')) as (n & rs & s' & Hs' & Hm).
    { destruct H as [[H1 H2]|H].
      - destruct (decide (exiting s1 = exiting s)) as [E|E].
        + apply IHk; [congruence|cbn in Hlen; rewrite H2; congruence|done].
        + eapply (IHe (exiting s1)); [lia|done|done].
      - eapply (IHe (exiting s1)); [lia|done|done]. }
    exists (S n), (option_list r ++ rs), s'. split; [done|]. intros [|m] Hle; [lia|]. cbn [drain]. rewrite Ea, Ew, Hm; [done|lia].
Qed.

(** ** A child that has ended is collected *)

(** The response to a [waitpid] that has found something *)
Definition wait_response (op : OpCall) (w_pid code : Z) : Response :=
  mk_response (op_tag op) (inr w_pid)
    (if bool_decide (4 ≤ length (op_payload op))%nat && op_aligned op
     then Filled (copy_at (op_payload op) 0 (le_bytes 4 code)) else NoExtra).

Lemma reap_run id p l s :
  processes s !! id = Some p → threads p = [] → groups s !! pgid p = Some l →
  reap id s = (Ok tt, set_groups (leave_group id (pgid p) l) (set_processes (delete id) s)).
Proof.
  intros Hp Ht Hl. unfold reap, mbind, comp_bind, get, modify, mret, comp_ret. rewrite Hp, Ht, Hl. done.
Qed.

Lemma waitpid_collects waiter child flags op v p q sig st s :
  proc_wf s → waiter ≠ child → processes s !! child = Some p → processes s !! waiter = Some q → ppid p = waiter →
  threads p = [] → status p = Exited sig st →
  ∃ s', work_on kernel hash_order group_search overflow_checks v
          (AwaitingStatusChange waiter (SingleProc child) flags op) s =
          (Ok (Some (wait_response op child (Z.lor (default 0 sig) (Z.shiftl st 8)))), s') ∧
    processes s' !! child = None ∧ ∀ g l, groups s' !! g = Some l → child ∉ l.
Proof.
  intros W Hne Hp Hq Hpp Ht Hst. destruct (wf_group _ W _ _ Hp) as (l & Hl & _).
  set (s1 := set_states <[v := Placeholder]> s).
  set (s2 := set_processes <[waiter := set_waitpid (delete child (waitpid q)) q]> s1).
  set (s3 := set_groups (leave_group child (pgid p) l) (set_processes (delete child) s2)).
  assert (Hp2 : processes s2 !! child = Some p) by (cbn; by rewrite lookup_insert_ne).
  assert (E : on_waitpid group_search waiter (SingleProc child) flags v s1 =
    (Ok (Some (child, Z.lor (default 0 sig) (Z.shiftl st 8))), s3)).
  { unfold on_waitpid. rewrite bind_get. unfold proc. unfold mbind at 1, comp_bind at 1. rewrite bind_get.
    change (processes s1) with (processes s). rewrite Hq. cbn [ok_or mret comp_ret].
    rewrite bool_decide_eq_false_2 by done. unfold mbind at 1, comp_bind at 1. rewrite bind_get.
    change (processes s1) with (processes s). rewrite Hp. cbn [ok_or mret comp_ret].
    rewrite (bool_decide_eq_true_2 (ppid p = waiter)) by done. cbn [negb]. rewrite Hst.
    unfold put_proc. rewrite bind_modify. fold s2. unfold grim_reaper.
    rewrite (bind_ok _ _ _ _ _ (reap_run child p l s2 Hp2 Ht Hl)). done. }
  exists s3. split_and!.
  - unfold work_on, work_exit, work_wait, set_state. rewrite bind_modify. fold s1. unfold result, mbind, comp_bind. rewrite E. done.
  - cbn. by rewrite lookup_delete_eq.
  - intros g l' Hl'. cbn in Hl'. destruct (decide (g = pgid p)) as [->|Hg].
    + apply leave_group_same in Hl' as [_ ->]. by intros [? _]%list_elem_of_filter.
    + rewrite leave_group_other in Hl' by done. intros Hin. destruct (wf_members _ W _ _ Hl') as (_ & _ & Hm).
      destruct (Hm _ Hin) as (p' & Hp' & ?). congruence.
Qed.

(** The end of a process whose parent waits for it *)
Lemma exit_wakes_parent u child tag p sig st par q v wst s :
  ok → proc_wf s → processes s !! child = Some p → threads p = [] → status p = Exiting sig st →
  ppid p = par → par ≠ child → processes s !! par = Some q → v ∈ waitpid_waiting q → v ≠ u → states s !! v = Some wst →
  ∃ s1, work_on kernel hash_order group_search overflow_checks u (AwaitingThreadsTermination child tag) s =
      (Ok (answer tag (ready_ok 0)), s1) ∧
    v ∈ awoken s1 ∧ states s1 !! v = Some wst ∧ proc_wf s1 ∧ is_Some (processes s1 !! par) ∧
    ∃ p1, processes s1 !! child = Some p1 ∧ threads p1 = [] ∧ status p1 = Exited sig st ∧ ppid p1 = par.
Proof.
  intros Hok W Hp Ht Hst Hpp Hne Hq Hv Hvu Hs.
  set (s0 := set_states (delete u) (set_states <[u := Placeholder]> s)).
  assert (W0 : proc_wf s0) by (by apply (same_wf s)).
  pose proof (finish_exit_calm child p sig st s0 W0 Hp) as H.
  pose proof (replies_exit kernel hash_order overflow_checks child p sig st s0) as R. unfold wp in H, R.
  destruct (finish_exit _ _ _ child p sig st s0) as [[[]|e|] s1] eqn:E; cbn in H, R; [|done|done]. destruct H as [C Hw].
  assert (Hsame : same s0 s1).
  { etrans; [|apply (calm_same _ _ _ C)]. split; try done; cbn; by eapply fmap_put. }
  exists s1. split.
  { unfold work_on, work_exit, work_wait, set_state, drop_state. rewrite bind_modify, bind_get. cbn [processes set_states]. rewrite Hp.
    rewrite bool_decide_eq_true_2 by done. rewrite Hst, bind_modify. fold s0. by rewrite (bind_ok _ _ _ _ _ E). }
  split_and!.
  - apply (Hw v q); [congruence|by rewrite Hpp|done].
  - rewrite (calm_states _ _ _ C). cbn. by rewrite lookup_delete_ne, lookup_insert_ne.
  - by eapply same_wf.
  - destruct (same_proc_fwd _ _ _ _ Hsame Hq) as (? & ? & _). eauto.
  - destruct (same_proc_fwd s0 s1 child p Hsame Hp) as (p1 & Hp1 & Ec). exists p1. split; [done|].
    apply core_eq in Ec as (_ & _ & <- & _). split; [done|]. pose proof (calm_ending _ _ _ C) as F.
    apply (f_equal (lookup child)) in F. cbn in F. rewrite !lookup_fmap, lookup_insert_eq, Hp1 in F.
    apply (inj Some) in F. cbn in F. split; [by destruct (status p1); simplify_eq|].
    destruct (calm_ppid _ _ _ C child (set_status (Exited sig st) p) p1) as [->|[Hc _]]; [cbn; by rewrite lookup_insert_eq|done|done|].
    cbn in Hc. congruence.
Qed.

(** ** Sessions and permissions *)

(** [set_pgid] moves one process *)
Lemma set_pgid_frame id parent new s :
  wp (set_pgid id parent new)
    (λ r s', r = Ok tt → (∃ p', processes s' !! id = Some p' ∧ pgid p' = new) ∧
      ∀ id' p', id' ≠ id → processes s' !! id' = Some p' → ∃ p, processes s !! id' = Some p ∧ pgid p = pgid p') s.
Proof.
  unfold set_pgid, proc. apply wp_bind, wp_bind, wp_get, wp_ok_or. destruct (processes s !! id) as [p|] eqn:Hp; [|done].
  apply wp_bind. wp_if; [done|]. apply wp_ret. apply (rests_then True same).
  { destruct parent; [|by apply wp_ret]. apply wp_bind, wp_bind, wp_get, wp_ok_or. destruct (processes s !! z) eqn:Hq; [|by cbn].
    eapply rests_weaken; [by eapply wake_waiters_quiet|]. intros s'. apply quiet_same. }
  { done. } { done. }
  intros _ s1 S1. apply wp_bind, wp_get. apply wp_bind, wp_ok_or. destruct (groups s1 !! _); [|done].
  apply wp_bind, wp_modify. apply wp_bind, wp_get. apply wp_bind, wp_modify.
  apply wp_bind, wp_bind, wp_get, wp_ok_or. cbn [processes set_groups].
  destruct (processes s1 !! id) as [p1|] eqn:Hp1; [|done]. apply wp_modify. intros _. cbn. split.
  - rewrite lookup_insert_eq. eexists. split; [done|]. done.
  - intros id' p' Hne H'. rewrite lookup_insert_ne in H' by done.
    destruct (same_proc _ _ _ _ S1 H') as (p0 & Hp0 & E). exists p0. split; [done|]. by apply core_eq in E as (_ & E & _).
Qed.

Lemma setsid_leads caller s s' :
  proc_wf s → on_setsid caller s = (Ok tt, s') →
  (∃ p, processes s' !! caller = Some p ∧ sid p = caller ∧ pgid p = caller) ∧ groups s' !! caller = Some [caller].
Proof.
  intros W E. assert (W' : proc_wf s').
  { pose proof (on_setsid_safe True caller s W) as H. unfold wp in H. rewrite E in H. by apply H. }
  assert (H : wp (on_setsid caller) (λ r s', r = Ok tt →
    (∃ p, processes s' !! caller = Some p ∧ sid p = caller ∧ pgid p = caller) ∧
    ∀ id p, id ≠ caller → processes s' !! id = Some p → pgid p ≠ caller) s).
  { unfold on_setsid. apply wp_bind, wp_get. wp_if; [done|]. unfold proc.
    apply wp_bind, wp_bind, wp_get, wp_ok_or. destruct (processes s !! caller) as [c|] eqn:Hc; [|done].
    wp_if; [done|]. wp_if; [done|]. apply wp_bind. eapply wp_mono; [apply set_pgid_frame|].
    intros [[]|e|] s1 H1; [|done|done]. destruct (H1 eq_refl) as [(p1 & Hp1 & Hg) Hothers].
    apply wp_bind, wp_bind, wp_get, wp_ok_or. rewrite Hp1. apply wp_modify. intros _. cbn. split.
    - rewrite lookup_insert_eq. eexists. split; [done|]. done.
    - intros id p Hne Hp. rewrite lookup_insert_ne in Hp by done. destruct (Hothers _ _ Hne Hp) as (p0 & Hp0 & <-).
      intros Hbad. apply not_true_iff_false in Heqb. apply Heqb, existsb_exists. exists (id, p0). split.
      + apply list_elem_of_In. by apply elem_of_map_to_list.
      + cbn. by rewrite bool_decide_eq_false_2, bool_decide_eq_true_2. }
  unfold wp in H. rewrite E in H. destruct (H eq_refl) as [(p & Hp & Hsid & Hpg) Hno]. split; [by exists p|].
  destruct (wf_group _ W' _ _ Hp) as (l & Hl & Hin). rewrite Hpg in Hl. rewrite Hl. f_equal.
  destruct (wf_members _ W' _ _ Hl) as (_ & Hnd & Hm).
  assert (∀ x, x ∈ l → x = caller) as Hall.
  { intros x Hx. destruct (decide (x = caller)) as [|Hne]; [done|]. destruct (Hm x Hx) as (px & Hpx & Hgx).
    by destruct (Hno x px Hne Hpx). }
  destruct l as [|x [|y l]]; [by apply elem_of_nil in Hin|f_equal; apply Hall; apply elem_of_cons; by left|].
  exfalso. apply NoDup_cons in Hnd as [Hxy _]. apply Hxy. rewrite (Hall x) by (apply elem_of_cons; by left).
  rewrite <-(Hall y) by (do 2 (apply elem_of_cons; (by left) || right)). apply elem_of_cons. by left.
Qed.

Lemma proc_run id e p s : processes s !! id = Some p → proc id e s = (Ok p, s).
Proof. intros Hp. unfold proc. rewrite bind_get. by rewrite Hp. Qed.

Lemma send_sig_denied caller id sig mode soc c p s :
  processes s !! caller = Some c → processes s !! id = Some p → 1 ≤ sig ≤ 64 →
  lacks_permission (euid c) (ruid c) p = true →
  send_sig kernel overflow_checks caller (TargetProc id) sig mode soc s = (Err EPERM, s).
Proof.
  intros Hc Hp Hsig Hl. unfold send_sig. cbn [on_send_sig]. rewrite (bool_decide_eq_false_2 (64 < sig)) by lia.
  unfold sig_minus_one. rewrite (bool_decide_eq_false_2 (sig = 0)) by lia. rewrite !bind_ret.
  rewrite (bind_ok _ _ _ _ _ (proc_run id ESRCH p s Hp)), (bind_ok _ _ _ _ _ (proc_run caller ESRCH c s Hc)).
  unfold mbind at 1, comp_bind at 1. unfold deliver. rewrite (bind_ok _ _ _ _ _ (proc_run id ESRCH p s Hp)). by rewrite Hl.
Qed.
End Exit.

Section Properties.
Context {SA : SyscallAbi} {PA : ProcAbi} {PL : ProcAbiLaws PA}.
Variable overflow_checks : bool.



(** A successful [setsid] makes the caller the leader of a session and
    of a group in which it is alone. *)
Theorem procmgr_setsid root s caller s' :
  reachable overflow_checks root s → on_setsid caller s = (Ok tt, s') →
  (∃ p, processes s' !! caller = Some p ∧ sid p = caller ∧ pgid p = caller) ∧ groups s' !! caller = Some [caller].
Proof. intros HR. apply setsid_leads. by eapply reachable_wf. Qed.

(** A signal to a process whose real user is neither the effective nor
    the real user of the caller, who is not privileged, is refused and changes nothing. *)
Theorem procmgr_kill_denied e s caller id sig mode c p :
  processes s !! caller = Some c → processes s !! id = Some p → 1 ≤ sig ≤ 64 →
  euid c ≠ 0 → euid c ≠ ruid p → ruid c ≠ ruid p →
  on_kill (e_kernel e) (e_hash_order e) overflow_checks caller (KillSingleProc id) sig mode s = (Err EPERM, s).
Proof.
  intros Hc Hp Hsig H1 H2 H3. cbn [on_kill]. unfold mbind, comp_bind.
  rewrite (send_sig_denied _ _ caller id sig mode false c p s Hc Hp Hsig); [done|].
  unfold lacks_permission. by rewrite !bool_decide_eq_false_2.
Qed.

(** When a child has been stopped or continued and the parent that
    waits for it did not ask for that, the report is taken out and the request goes on waiting,
    but it is in no list of waiting requests any more: nothing that the child does wakes it. *)
Theorem procmgr_status_lost e s waiter child flags op v p q g st :
  waiter ≠ child → processes s !! child = Some p → processes s !! waiter = Some q → ppid p = waiter →
  (∀ sig st, status p ≠ Exited sig st) →
  waitpid q !! child = Some (g, st) → wait_code flags st = None → v ∉ waitpid_waiting q →
  ∃ s' q', work_on (e_kernel e) (e_hash_order e) (e_group_search e) overflow_checks v
      (AwaitingStatusChange waiter (SingleProc child) flags op) s = (Ok None, s') ∧
    states s' !! v = Some (AwaitingStatusChange waiter (SingleProc child) flags op) ∧
    awoken s' = awoken s ∧ processes s' !! waiter = Some q' ∧ v ∉ waitpid_waiting q' ∧ waitpid q' !! child = None.
Proof.
  intros Hne Hp Hq Hpp Hst Hw Hcode Hv.
  set (s1 := set_states <[v := Placeholder]> s). set (q' := set_waitpid (delete child (waitpid q)) q).
  set (s2 := set_processes <[waiter := q']> s1).
  assert (E : on_waitpid (e_group_search e) waiter (SingleProc child) flags v s1 = (Ok None, s2)).
  { unfold on_waitpid. rewrite bind_get. rewrite (bind_ok _ _ _ _ _ (proc_run waiter EBADFD q s1 Hq)).
    rewrite bool_decide_eq_false_2 by done. rewrite (bind_ok _ _ _ _ _ (proc_run child ECHILD p s1 Hp)).
    rewrite (bool_decide_eq_true_2 (ppid p = waiter)) by done. cbn [negb].
    assert (take_status waiter flags v q (Some child) s1 = (Ok None, s2)) as Ht.
    { unfold take_status. cbn. rewrite Hw. cbn. unfold put_proc. rewrite bind_modify. fold q' s2. unfold grim_reaper.
      destruct st; [| |done]; rewrite bind_ret; by rewrite Hcode. }
    destruct (status p) eqn:Es; [done..|]. by destruct (Hst signal status). }
  exists (set_states <[v := AwaitingStatusChange waiter (SingleProc child) flags op]> s2), q'. split_and!.
  - unfold work_on, work_exit, work_wait, set_state. rewrite bind_modify. fold s1. unfold result, mbind, comp_bind. by rewrite E.
  - cbn. by rewrite lookup_insert_eq.
  - done.
  - cbn. by rewrite lookup_insert_eq.
  - done.
  - cbn. by rewrite lookup_delete_eq.
Qed.

(** Whatever 16-bit status an exit is called with, the word that the
    parent gets has 16 bits and is that of an exit: the status in the high byte, or a signal
    from 1 to 64 in the low one, so that it is never taken for a stop or a continuation. *)
Theorem procmgr_status_word raw st sig flags :
  0 ≤ raw < 65536 → exit_status raw = Some (st, sig) →
  ∃ w, wait_code flags (WTerminated sig st) = Some w ∧ 0 ≤ w < 0xffff ∧ w `mod` 256 ≠ 0x7f ∧
    (raw < 256 → w = 256 * raw) ∧ (256 ≤ raw → w = raw `div` 256 ∧ 1 ≤ w ≤ 64).
Proof.
  intros Hraw. unfold exit_status. change 0xff with (Z.ones 8). rewrite Z.land_ones by lia. rewrite Z.shiftr_div_pow2 by lia.
  change (2 ^ 8) with 256. case_bool_decide as Hl; [|case_bool_decide as Hsig]; [..|done]; intros [= <- <-]; eexists;
    (split; [done|]); cbn [default].
  - rewrite Z.lor_0_l, Z.shiftl_mul_pow2 by lia. change (2 ^ 8) with 256.
    assert (raw < 256) by (pose proof (Z.mod_pos_bound raw 256); lia).
    split_and!; [lia|lia|rewrite Z.mod_mul; lia|lia|lia].
  - rewrite Z.shiftl_0_l, Z.lor_0_r. assert (256 ≤ raw).
    { destruct (Z.lt_ge_cases raw 256); [|done]. rewrite Z.div_small in Hsig; lia. }
    unfold id. rewrite (Z.mod_small (raw `div` 256)) by lia. split_and!; lia.
Qed.
End Properties.
