(* ===== verification/ProcmgrExamples.v ===== *)
(** * Runs of the process manager

    A concrete environment for [Procmgr], histories in it that satisfy the hypotheses of the
    theorems, and two histories in which a parent never learns of the end of a child. *)

From S2P Require Import Prelude Abi SchemeUtils Procmgr ProcmgrInv ProcmgrExit.

(** ** The environment *)

#[local] Existing Instance redox_abi.

#[local] Instance ex_abi : ProcAbi := {|
  proc_call_of_raw x :=
    match x with
    | 1 => Some Waitpid | 2 => Some Setpgid | 3 => Some Setsid | 4 => Some SetResugid | 5 => Some Kill
    | 6 => Some SyncSigPctl | 7 => Some Exit | 8 => Some Rename | _ => None
    end;
  thread_call_of_raw x := match x with 1 => Some SyncSigTctl | 2 => Some SignalThread | _ => None end;
  kill_target_of_raw x := if bool_decide (x = 0) then KillThisGroup else KillSingleProc x;
  wait_flags_of_bits x := Some x;
  WNOHANG := 1; WUNTRACED := 2; WCONTINUED := 4;
  SIGHUP := 1; SIGKILL := 9; SIGCHLD := 17; SIGCONT := 18; SIGSTOP := 19; SIGTSTP := 20; SIGTTIN := 21; SIGTTOU := 22;
  sig_bit s := Z.shiftl 1 (s - 1);
  StDead := 4; StForceKilled := 5; StUnhandledExcp := 6;
  VerbStop := 1; VerbUnstop := 2; VerbInterrupt := 3; VerbForceKill := 4;
  SigActions := unit;
  signal_will_ign _ _ _ := false;
  signal_will_stop _ _ := true;
  sender_raw p u := p + Z.shiftl u 32;
  meta_bytes m := le_bytes 4 (m_pid m);
  meta_size := 4;
  rt_sig_info_size := 16
|}.

#[local] Instance ex_laws : ProcAbiLaws ex_abi.
Proof. split; cbn; lia. Qed.

(** A kernel that grants everything; a descriptor is the number of the call, and every context
    that is looked at is dead *)
Definition ex_env : Env := mk_env ex_abi
  (λ log c, match c with SysReadStatus _ => inr 4 | _ => inr (100 + Z.of_nat (length log)) end)
  (λ _, mk_pctl 0 ∅ ()) (λ _, mk_tctl 0 0 ∅) (λ l, l) (λ h, Z.of_nat (size h)) (λ _ _, None) true.

(** A history: every step succeeds and ids are left *)
Fixpoint ex_run (ls : list label) (s : ProcScheme) : option ProcScheme :=
  match ls with
  | [] => Some s
  | l :: ls =>
     if bool_decide (next_id s < usize_max) then
       match env_step false ex_env l s with
       | (Ok _, s') => ex_run ls s'
       | _ => None
       end
     else None
  end.

Lemma ex_run_reachable root ls s s' : reachable false root s → ex_run ls s = Some s' → reachable false root s'.
Proof.
  revert s. induction ls as [|l ls IH]; intros s HR; cbn; [by intros [= <-]|]. case_bool_decide as Hn; [|done].
  destruct (env_step false ex_env l s) as [[r| |] s1] eqn:E; [|done..]. apply IH. by eapply reach_step.
Qed.

(** The answers of a history *)
Fixpoint ex_answers (ls : list label) (s : ProcScheme) : list (Z * (errno + Z)) :=
  match ls with
  | [] => []
  | l :: ls =>
     match env_step false ex_env l s with
     | (Ok (Some r), s') => (r_tag r, r_result r) :: ex_answers ls s'
     | (_, s') => ex_answers ls s'
     end
  end.

Definition ex_call (tag fd : Z) (m : list Z) : label := LRequest (ReqCall tag (mk_op tag fd (replicate 4 0) m true)).

(** The first process, with the handle 1, and its child 2, with the handle 2 *)
Definition ex_boot : list label :=
  [LRequest (ReqOpenAt 1 0 "init" 0 0); LRequest (ReqSendFd 2 1); LRequest (ReqDup 3 1 (str_bytes "fork"))].

(** The state after a history from the start *)
Definition ex_after (ls : list label) : ProcScheme := default (scheme_new 0) (ex_run ls (scheme_new 0)).

(** All steps of the history succeed *)
Definition ex_fine (ls : list label) : bool := match ex_run ls (scheme_new 0) with Some _ => true | None => false end.

Lemma ex_after_reachable ls : ex_fine ls = true → reachable false 0 (ex_after ls).
Proof.
  unfold ex_fine, ex_after. destruct (ex_run ls (scheme_new 0)) as [s|] eqn:E; [|done]. intros _.
  eapply ex_run_reachable; [apply reach_new|exact E].
Qed.

(** A process of a state *)
Definition ex_proc (id : Z) (s : ProcScheme) : Process :=
  default (fresh_process [] 0 0 0 0 EmptyString 0 0 0 0 0 0 0) (processes s !! id).

Lemma ex_proc_ok id s :
  match processes s !! id with Some _ => true | None => false end = true → processes s !! id = Some (ex_proc id s).
Proof. unfold ex_proc. by destruct (processes s !! id). Qed.

Lemma ex_handle_ok id s : match handles s !! id with Some _ => true | None => false end = true → has_handle id s.
Proof. unfold has_handle. destruct (handles s !! id); [by eexists|done]. Qed.

(** ** Histories that satisfy the hypotheses *)

Lemma ex_kernel_ok : kernel_ok (e_kernel ex_env).
Proof. intros log []; cbn; eauto. Qed.

(** The child 2 gives up its privileges *)
Definition ex_drop : list label :=
  ex_boot ++ [LRequest (ReqCall 4 (mk_op 4 2 (concat (replicate 6 [232; 3; 0; 0])) [4; 0; 0] true))].

(** The first process waits for its child *)
Definition ex_wait : list label := ex_boot ++ [ex_call 7 1 [1; 2; 0]; ex_call 8 2 [6; 0; 0]].

(** The child exits, and its thread is gone *)
Definition ex_exit : list label := ex_wait ++ [ex_call 10 2 [7; 3; 0]; LThread 103].

(** The child is stopped *)
Definition ex_stop : list label := ex_wait ++ [ex_call 9 1 [5; 2; 19]].

Lemma procmgr_groups_exact_witness :
  ∃ l, groups (ex_after ex_boot) !! 1 = Some l ∧ 2 ∈ l.
Proof.
  destruct (procmgr_groups_exact false 0 (ex_after ex_boot)) as (H & _ & _).
  - apply ex_after_reachable. vm_compute. reflexivity.
  - apply H. exists (ex_proc 2 (ex_after ex_boot)). split; [apply ex_proc_ok|]; vm_compute; reflexivity.
Defined.


Lemma procmgr_no_privilege_gain_witness :
  let l := LRequest (ReqDup 5 2 (str_bytes "fork")) in
  let s := ex_after ex_drop in
  let s' := (env_step false ex_env l s).2 in
  (3 ∈ heirs {[2]} s s') ∧ ∀ id p, id ∈ heirs {[2]} s s' → processes s' !! id = Some p → ¬ root_capable p.
Proof.
  intros l s s'. split; [vm_compute; reflexivity|].
  apply (procmgr_no_privilege_gain false 0 s {[2]} s').
  - apply ex_after_reachable. vm_compute. reflexivity.
  - intros id Hid. apply elem_of_singleton in Hid as ->. apply elem_of_dom. eexists. apply ex_proc_ok. vm_compute. reflexivity.
  - intros id p Hid. apply elem_of_singleton in Hid as ->. intros Hp.
    assert (E : (λ p, (ruid p, euid p, suid p)) <$> processes s !! 2 = Some (1000, 1000, 1000)) by (vm_compute; reflexivity).
    rewrite Hp in E. injection E as E1 E2 E3. unfold root_capable. rewrite E1, E2, E3. lia.
  - eapply family_step; [apply family_start|vm_compute; reflexivity|apply fst_pair; vm_compute; reflexivity].
Defined.



(** The bytes that the waiting parent gets *)
Example ex_wait_bytes :
  wait_response (mk_op 7 1 [0; 0; 0; 0] [1; 2; 0] true) 2 (Z.lor (default 0 None) (Z.shiftl 3 8)) =
  mk_response 7 (inr 2) (Filled [0; 3; 0; 0]).
Proof. vm_compute. reflexivity. Qed.

Lemma procmgr_setsid_witness : groups (on_setsid 2 (ex_after ex_boot)).2 !! 2 = Some [2].
Proof.
  assert (E : (on_setsid 2 (ex_after ex_boot)).1 = Ok tt) by (vm_compute; reflexivity).
  destruct (procmgr_setsid false 0 (ex_after ex_boot) 2 (on_setsid 2 (ex_after ex_boot)).2) as [_ H].
  - apply ex_after_reachable. vm_compute. reflexivity.
  - exact (fst_pair _ _ E).
  - exact H.
Defined.

Lemma procmgr_kill_denied_witness :
  on_kill (e_kernel ex_env) (e_hash_order ex_env) false 2 (KillSingleProc 1) 9 Idempotent (ex_after ex_drop) =
  (Err EPERM, ex_after ex_drop).
Proof.
  apply (procmgr_kill_denied false ex_env (ex_after ex_drop) 2 1 9 Idempotent
    (ex_proc 2 (ex_after ex_drop))
    (ex_proc 1 (ex_after ex_drop))).
  - apply ex_proc_ok. vm_compute. reflexivity.
  - apply ex_proc_ok. vm_compute. reflexivity.
  - lia.
  - vm_compute. discriminate.
  - vm_compute. discriminate.
  - vm_compute. discriminate.
Defined.

Lemma procmgr_status_lost_witness :
  ∃ s' q', work_on (e_kernel ex_env) (e_hash_order ex_env) (e_group_search ex_env) false (KernelId 7)
      (AwaitingStatusChange 1 (SingleProc 2) 0 (mk_op 7 1 [0; 0; 0; 0] [1; 2; 0] true)) (ex_after ex_stop) = (Ok None, s') ∧
    processes s' !! 1 = Some q' ∧ KernelId 7 ∉ waitpid_waiting q'.
Proof.
  destruct (procmgr_status_lost false ex_env (ex_after ex_stop) 1 2 0 (mk_op 7 1 [0; 0; 0; 0] [1; 2; 0] true) (KernelId 7)
    (ex_proc 2 (ex_after ex_stop))
    (ex_proc 1 (ex_after ex_stop)) 1 (WStopped 19))
    as (s' & q' & E & _ & _ & Hq & Hv & _).
  - discriminate.
  - apply ex_proc_ok. vm_compute. reflexivity.
  - apply ex_proc_ok. vm_compute. reflexivity.
  - vm_compute. reflexivity.
  - intros sig st. vm_compute. discriminate.
  - vm_compute. reflexivity.
  - vm_compute. reflexivity.
  - vm_compute. apply not_elem_of_nil.
  - exists s', q'. split; [exact E|]. split; [exact Hq|exact Hv].
Defined.

Lemma procmgr_status_word_witness :
  ∃ w, wait_code 0 (WTerminated (Some 9) 0) = Some w ∧ 0 ≤ w < 0xffff ∧ w `mod` 256 ≠ 0x7f ∧
    (2304 < 256 → w = 256 * 2304) ∧ (256 ≤ 2304 → w = 2304 `div` 256 ∧ 1 ≤ w ≤ 64).
Proof. apply (procmgr_status_word 2304 0 (Some 9) 0); [lia|vm_compute; reflexivity]. Defined.

(** ** Reports that are lost *)

(** The child is stopped while its parent waits for it, and then exits *)
Definition ex_lost : list label := ex_stop ++ [LWork; ex_call 10 2 [7; 0; 0]; LThread 103; LWork; LWork].

(** In this history everything is answered but the [waitpid]: the child
    has ended, nothing is left to work on, and the request is in no list. *)
Theorem procmgr_waiter_lost :
  ex_answers ex_lost (scheme_new 0) = [(1, inr 1); (2, inr 0); (3, inr 2); (8, inr 0); (9, inr 0); (10, inr 0)] ∧
  awoken (ex_after ex_lost) = [] ∧
  (λ p, (status p, waitpid_waiting p)) <$> processes (ex_after ex_lost) !! 2 = Some (Exited None 0, []) ∧
  waitpid_waiting <$> processes (ex_after ex_lost) !! 1 = Some [] ∧
  match states (ex_after ex_lost) !! KernelId 7 with Some (AwaitingStatusChange 1 (SingleProc 2) 0 _) => true | _ => false end = true.
Proof. repeat split; vm_compute; reflexivity. Qed.

(** The child 3 of the process 2 exits, then the process 2, and the first process collects
    its children until there are none *)
Definition ex_zombie : list label :=
  ex_boot ++ [LRequest (ReqDup 4 2 (str_bytes "fork")); ex_call 5 3 [7; 0; 0]; LThread 108; LWork; LWork;
              ex_call 6 2 [7; 0; 0]; LThread 103; LWork; LWork; ex_call 7 1 [1; 0; 1]; ex_call 8 1 [1; 0; 1]].

(** A process that has ended before its parent ends becomes a child of
    the first process, but its report stays behind in the parent's map: the first process
    collects the parent, then finds nothing, and the child stays in the table for ever. *)
Theorem procmgr_zombie_lost :
  ex_answers ex_zombie (scheme_new 0) =
    [(1, inr 1); (2, inr 0); (3, inr 2); (4, inr 3); (5, inr 0); (6, inr 0); (7, inr 2); (8, inr 0)] ∧
  processes (ex_after ex_zombie) !! 2 = None ∧
  (λ p, (status p, ppid p)) <$> processes (ex_after ex_zombie) !! 3 = Some (Exited None 0, 1) ∧
  (λ p, map_to_list (waitpid p)) <$> processes (ex_after ex_zombie) !! 1 = Some [].
Proof. repeat split; vm_compute; reflexivity. Qed.
