(* ===== verification/Init.v ===== *)
(** * init

    The unit store, the job scheduler and the boot sequence of [init/src], with the
    configuration search of [config/src/lib.rs].  A unit names the units it wants to
    run after ([requires_weak]); [load_units] loads a unit and everything it names, and
    [step] runs the jobs of the queue, putting a job back while one of its
    dependencies is still queued.

    Both loops are given fuel and report whether they have returned, so that "it
    returns" and "it never returns" can both be stated.  What a unit does to the rest of
    the system is behind the class [InitOs]: the files it sees and the processes it
    starts.  The [ran] field records the calls of [run], in order.  Messages to
    standard error are not modelled, except for the list of load errors. *)

From S2P Require Import Prelude Text.

(** An [io::Result]: an error is the text it is displayed as. *)
Abbreviation io_result A := (string + A)%type.

(** The order of [String] and [OsString] *)
Definition string_le (a b : string) : Prop := String.leb a b = true.

#[global] Instance string_le_dec a b : Decision (string_le a b).
Proof. unfold string_le. apply _. Defined.

(** [into_values()] of a [BTreeMap] with string keys: the values in the order of the keys *)
Definition btree_entries {A} (m : gmap string A) : list (string * A) :=
  merge_sort (λ p q, string_le p.1 q.1) (map_to_list m).

Definition into_values {A} (m : gmap string A) : list A := (btree_entries m).*2.

(** ** Data *)

Definition UnitId : Type := string.

(** [toml::Value]; floats and dates are opaque to the code *)
#[warnings="-register-all"]
Inductive toml_value (Float Datetime : Type) : Type :=
  | TInteger (n : Z)
  | TFloat (f : Float)
  | TBoolean (b : bool)
  | TDatetime (d : Datetime)
  | TString (s : string)
  | TArray (values : list (toml_value Float Datetime))
  | TTable (map : list (string * toml_value Float Datetime)).
Arguments TInteger {_ _} _.
Arguments TFloat {_ _} _.
Arguments TBoolean {_ _} _.
Arguments TDatetime {_ _} _.
Arguments TString {_ _} _.
Arguments TArray {_ _} _.
Arguments TTable {_ _} _.

Inductive CommandKind : Set := Oneshot | OneshotAsync.

Record Process := mk_process {
  p_cmd : string;
  p_args : list string;
  p_envs : gmap string string;
}.

Record Command := mk_command {
  c_process : Process;
  c_kind : CommandKind;
}.

Inductive ServiceType : Set :=
  | StNotify
  | StScheme (scheme : string)
  | StOneshot
  | StOneshotAsync.

Record Service := mk_service {
  sv_cmd : string;
  sv_args : list string;
  sv_envs : gmap string string;
  sv_inherit_envs : gset string;
  sv_type : ServiceType;
}.

Record UnitInfo := mk_unit_info {
  description : option string;
  default_dependencies : bool;
  requires_weak : list UnitId;
  condition_architecture : option (list string);
  condition_board : option (list string);
}.

Inductive UnitKind : Type :=
  | LegacyScript (script : list Command)
  | KService (service : Service)
  | Target.

Record Unit := mk_unit {
  u_id : UnitId;
  info : UnitInfo;
  u_kind : UnitKind;
}.

Record UnitStore := mk_unit_store {
  config_dirs : list string;
  units : gmap UnitId Unit;
  runtime_target : option UnitId;
}.

Inductive JobKind : Set := Start.

Record Job := mk_job {
  j_unit : UnitId;
  j_kind : JobKind;
}.

Record InitConfig := mk_init_config {
  log_debug : bool;
  skip_cmd : list string;
  envs : gmap string string;
}.

(** What [std::process::Command] is set up with *)
Record launch := mk_launch {
  l_cmd : string;
  l_args : list string;
  l_envs : gmap string string;
}.

(** ** The system around init

    [W] is the state of everything else: the files, and the processes. *)
Class InitOs (W : Type) := {
  Float : Type;
  Datetime : Type;
  (** [env::var] and [env::var_os] of init's own environment *)
  env_var : string → option string;
  path_exists : W → string → bool;
  read_to_string : W → string → io_result string;
  (** The file names of a directory *)
  read_dir : W → string → io_result (list (io_result string));
  (** [toml::from_str], and [Value::try_into] for the two serialized forms *)
  toml_from_str : string → io_result (toml_value Float Datetime);
  try_into_service : toml_value Float Datetime → io_result (UnitInfo * Service);
  try_into_target : toml_value Float Datetime → io_result UnitInfo;
  spawn : launch → comp W unit;
  (** [child.wait()]: did the child succeed *)
  wait : comp W bool;
  (** [io::pipe()]: the number of the write end *)
  pipe : comp W Z;
  (** One byte from the notification pipe *)
  read_notify : comp W unit;
  (** A descriptor from the notification pipe: how many came, and the last *)
  call_ro_fd : comp W (Z * Z);
  getns : comp W Z;
  register_scheme_to_ns : Z → string → Z → comp W unit;
  fd_open : string → bool → comp W Z;
  dup2 : Z → Z → comp W unit;
  setrens : comp W unit;
  (** [std::env::consts::ARCH] and [option_env!("BOARD")] *)
  ARCH : string;
  BOARD : option string;
}.
#[global] Arguments Float W {_}.
#[global] Arguments Datetime W {_}.
#[global] Arguments env_var W {_} _.
#[global] Arguments ARCH W {_}.
#[global] Arguments BOARD W {_}.

Record Init (W : Type) := mk_init {
  store : UnitStore;
  pending : list Job;
  config : InitConfig;
  errors : list string;
  world : W;
  ran : list UnitId;
}.
Arguments mk_init {W} _ _ _ _ _ _.
Arguments store {W} _.
Arguments pending {W} _.
Arguments config {W} _.
Arguments errors {W} _.
Arguments world {W} _.
Arguments ran {W} _.

Section Updates.
Context {W : Type}.
Implicit Types s : Init W.

Definition set_store (f : UnitStore → UnitStore) s :=
  mk_init (f (store s)) (pending s) (config s) (errors s) (world s) (ran s).
Definition set_pending (f : list Job → list Job) s :=
  mk_init (store s) (f (pending s)) (config s) (errors s) (world s) (ran s).
Definition set_config (f : InitConfig → InitConfig) s :=
  mk_init (store s) (pending s) (f (config s)) (errors s) (world s) (ran s).
Definition set_errors (f : list string → list string) s :=
  mk_init (store s) (pending s) (config s) (f (errors s)) (world s) (ran s).
Definition set_world (w : W) s :=
  mk_init (store s) (pending s) (config s) (errors s) w (ran s).
Definition set_ran (f : list UnitId → list UnitId) s :=
  mk_init (store s) (pending s) (config s) (errors s) (world s) (f (ran s)).

Definition set_units (f : gmap UnitId Unit → gmap UnitId Unit) (st : UnitStore) :=
  mk_unit_store (config_dirs st) (f (units st)) (runtime_target st).
Definition set_config_dirs (d : list string) (st : UnitStore) :=
  mk_unit_store d (units st) (runtime_target st).
Definition set_target (t : option UnitId) (st : UnitStore) :=
  mk_unit_store (config_dirs st) (units st) t.

Definition push_error (e : string) : comp (Init W) unit := modify (set_errors (λ l, l ++ [e])).

(** A call that only touches the rest of the system *)
Definition on_world {A} (m : comp W A) : comp (Init W) A := zoom world set_world m.
End Updates.

(** ** Operations *)

Section Init.
Context {W : Type} `{os : InitOs W}.

(** [script::subst_env] *)
Definition subst_env (arg : string) : string :=
  match arg with
  | String a name => if Ascii.eqb a "$"%char then default EmptyString (env_var W name) else arg
  | EmptyString => arg
  end.

(** One argument of [Process::parse] *)
Definition process_arg (acc : option string * list string * gmap string string) (arg : string) :
    option string * list string * gmap string string :=
  match acc with
  | (Some cmd, args, envs) => (Some cmd, args ++ [arg], envs)
  | (None, args, envs) =>
     match split_once "="%char arg with
     | Some (env, value) =>
        let value :=
          if bool_decide (value = "$") then default EmptyString (env_var W env)
          else subst_env value in
        (None, args, if bool_decide (value = EmptyString) then envs else <[env := value]> envs)
     | None => (Some arg, args, envs)
     end
  end.

(** [Process::parse] *)
Definition process_parse (parts : list string) : string + Process :=
  match foldl process_arg (None, [], ∅) parts with
  | (Some cmd, args, envs) => inr (mk_process cmd args envs)
  | (None, _, _) => inl "no command given"
  end.

(** [Command::parse]: the units a [requires_weak] line adds come second *)
Definition command_parse (args : list string) : (string + option Command) * list UnitId :=
  match args with
  | [] => (inr None, [])
  | cmd :: args =>
     if bool_decide (cmd = "requires_weak") then (inr None, args)
     else if bool_decide (cmd = "nowait") then
       (match process_parse args with
        | inl e => inl e
        | inr process => inr (Some (mk_command process OneshotAsync))
        end, [])
     else
       (match process_parse (cmd :: args) with
        | inl e => inl e
        | inr process => inr (Some (mk_command process Oneshot))
        end, [])
  end.

(** The loop of [Script::from_str]: commands, required units, errors *)
Fixpoint script_lines (ls : list string) : list Command * list UnitId * list string :=
  match ls with
  | [] => ([], [], [])
  | line_raw :: ls =>
     let line := trim line_raw in
     let '(cmds, reqs, errs) := script_lines ls in
     if bool_decide (line = EmptyString) || starts_with "#"%char line then (cmds, reqs, errs)
     else
       match command_parse (subst_env <$> split " "%char line) with
       | (inr None, req) => (cmds, req ++ reqs, errs)
       | (inr (Some cmd), req) => (cmd :: cmds, req ++ reqs, errs)
       | (inl err, req) => (cmds, req ++ reqs, err :: errs)
       end
  end.

(** [Script::from_str] *)
Definition script_from_str (text : string) : list Command * list UnitId * list string :=
  script_lines (lines text).

(** [unit::instance_toml] *)
Fixpoint instance_toml (value : toml_value (Float W) (Datetime W)) (instance : string) :
    toml_value (Float W) (Datetime W) :=
  match value with
  | TInteger _ | TFloat _ | TBoolean _ | TDatetime _ => value
  | TString s => TString (replace "$INSTANCE" instance s)
  | TArray values => TArray ((λ v, instance_toml v instance) <$> values)
  | TTable map => TTable ((λ '(key, v), (key, instance_toml v instance)) <$> map)
  end.

(** [Unit::from_file] *)
Definition from_file (id : UnitId) (config_path : string) (instance : option string) :
    comp (Init W) (io_result Unit) :=
  w ← gets world;
  match read_to_string w config_path with
  | inl err => mret (inl err)
  | inr text =>
     match extension config_path with
     | None =>
        let '(cmds, reqs, errs) := script_from_str text in
        modify (set_errors (λ l, l ++ errs));;
        mret (inr (mk_unit id (mk_unit_info None true reqs None None) (LegacyScript cmds)))
     | Some ext =>
        match toml_from_str text with
        | inl err => mret (inl err)
        | inr toml_value =>
           let toml_value := match instance with
                             | Some instance => instance_toml toml_value instance
                             | None => toml_value
                             end in
           if bool_decide (ext = "service") then
             match try_into_service toml_value with
             | inl err => mret (inl err)
             | inr (info, service) => mret (inr (mk_unit id info (KService service)))
             end
           else if bool_decide (ext = "target") then
             match try_into_target toml_value with
             | inl err => mret (inl err)
             | inr info => mret (inr (mk_unit id info Target))
             end
           else mret (inl "invalid file extension")
        end
     end
  end.

(** [Unit::conditions_met] *)
Definition conditions_met (u : Unit) : bool :=
  match condition_architecture (info u) with
  | Some archs => existsb (λ arch, bool_decide (arch = ARCH W)) archs
  | None => true
  end &&
  match condition_board (info u) with
  | Some boards => existsb (λ board, bool_decide (Some board = BOARD W)) boards
  | None => true
  end.

(** [UnitStore::set_runtime_target] *)
Definition set_runtime_target (unit_id : UnitId) : comp (Init W) unit :=
  st ← gets store;
  match runtime_target st with
  | Some _ => panic
  | None =>
     match units st !! unit_id with
     | None => panic
     | Some _ => modify (set_store (set_target (Some unit_id)))
     end
  end.

(** The file that a unit id stands for, and its instance; [None] for an id with an [@]
    and no extension *)
Definition unit_filename (unit_id : UnitId) : option (string * option string) :=
  match split_once "@"%char unit_id with
  | Some (base_service, rest) =>
     match rsplit_once "."%char rest with
     | None => None
     | Some (instance, ext) => Some (base_service +:+ "@." +:+ ext, Some instance)
     end
  | None => Some (unit_id, None)
  end.

(** The latest directory that has the file *)
Definition find_path (w : W) (dirs : list string) (filename : string) : option string :=
  head (filter (λ path, path_exists w path = true) ((λ dir, join dir filename) <$> reverse dirs)).

Definition add_requirement (id : UnitId) (u : Unit) : Unit :=
  let i := info u in
  mk_unit (u_id u)
    (mk_unit_info (description i) (default_dependencies i) (requires_weak i ++ [id])
       (condition_architecture i) (condition_board i))
    (u_kind u).

(** [UnitStore::load_single_unit] *)
Definition load_single_unit (unit_id : UnitId) : comp (Init W) (option UnitId) :=
  match unit_filename unit_id with
  | None => push_error ("script " +:+ unit_id +:+ " can't be instanced");; mret None
  | Some (filename, instance) =>
     s ← get;
     match find_path (world s) (config_dirs (store s)) filename with
     | None => push_error ("unit " +:+ unit_id +:+ " not found");; mret None
     | Some path =>
        r ← from_file unit_id path instance;
        match r with
        | inl err => push_error (path +:+ ": " +:+ err);; mret None
        | inr u =>
           u ← (if default_dependencies (info u) then
                  match runtime_target (store s) with
                  | Some runtime_target => mret (add_requirement runtime_target u)
                  | None =>
                     push_error (path +:+ ": dependency of the runtime target must have default dependencies disabled");;
                     mret u
                  end
                else mret u);
           modify (set_store (set_units (<[unit_id := u]>)));;
           mret (Some unit_id)
        end
     end
  end.

(** [UnitStore::unit] and [unit_mut] *)
Definition unit_of (unit_id : UnitId) : comp (Init W) Unit :=
  st ← gets store;
  expect (units st !! unit_id).

(** The loop of [UnitStore::load_units].  The vector [pending_units] is used as a stack;
    its last element comes first here.  [None] when the fuel is spent. *)
Fixpoint load_loop (fuel : nat) (pending_units loaded_units : list UnitId) :
    comp (Init W) (option (list UnitId)) :=
  match pending_units with
  | [] => mret (Some loaded_units)
  | unit_id :: pending_units =>
     match fuel with
     | O => mret None
     | S fuel =>
        st ← gets store;
        match units st !! unit_id with
        | Some _ => load_loop fuel pending_units loaded_units
        | None =>
           r ← load_single_unit unit_id;
           match r with
           | None => load_loop fuel pending_units loaded_units
           | Some id =>
              u ← unit_of id;
              load_loop fuel (reverse (requires_weak (info u)) ++ pending_units) (loaded_units ++ [id])
           end
        end
     end
  end.

(** [UnitStore::load_units] *)
Definition load_units (fuel : nat) (root_unit : UnitId) : comp (Init W) (option (list UnitId)) :=
  load_loop fuel [root_unit] [].

Fixpoint push_jobs (loaded_units : list UnitId) : comp (Init W) unit :=
  match loaded_units with
  | [] => mret tt
  | unit_id :: loaded_units =>
     u ← unit_of unit_id;
     (if conditions_met u then modify (set_pending (λ q, q ++ [mk_job unit_id Start]))
      else mret tt);;
     push_jobs loaded_units
  end.

(** [Scheduler::schedule_start]; [false] when the fuel is spent *)
Definition schedule_start (fuel : nat) (unit_id : UnitId) : comp (Init W) bool :=
  r ← load_units fuel unit_id;
  match r with
  | None => mret false
  | Some loaded_units => push_jobs loaded_units;; mret true
  end.

(** [Scheduler::schedule_start_and_report_errors] *)
Definition schedule_start_and_report_errors (fuel : nat) (unit_id : UnitId) : comp (Init W) bool :=
  modify (set_errors (λ _, []));;
  schedule_start fuel unit_id.

(** [Command::run] *)
Definition command_run (cfg : InitConfig) (c : Command) : comp W unit :=
  let p := c_process c in
  if bool_decide (p_cmd p ∈ skip_cmd cfg) then mret tt
  else
    r ← attempt (spawn (mk_launch (p_cmd p) (subst_env <$> p_args p) (p_envs p ∪ envs cfg)));
    match r with
    | None => mret tt
    | Some _ =>
       match c_kind c with
       | Oneshot => attempt wait;; mret tt
       | OneshotAsync => mret tt
       end
    end.

(** The environment a service is started with *)
Definition service_envs (sv : Service) (base_envs : gmap string string) (notify : Z) :
    gmap string string :=
  <["INIT_NOTIFY" := pretty notify]>
    (sv_envs sv ∪ (base_envs ∪
      list_to_map (omap (λ env, (λ value, (env, value)) <$> env_var W env)
                     (elements (sv_inherit_envs sv))))).

(** The wait for the descriptor of a scheme; an interrupted call is repeated.  [None]
    when no single descriptor came. *)
Fixpoint await_fd (fuel : nat) : comp W (option Z) := λ w,
  match call_ro_fd w with
  | (Err EINTR, w') => match fuel with O => (Panic, w') | S fuel => await_fd fuel w' end
  | (Err _, w') => (Ok None, w')
  | (Ok (n, fd), w') => (Ok (if bool_decide (n = 1) then Some fd else None), w')
  | (Panic, w') => (Panic, w')
  end.

(** [Service::spawn] *)
Definition service_spawn (fuel : nat) (sv : Service) (base_envs : gmap string string) : comp W unit :=
  notify ← unwrap pipe;
  r ← attempt (spawn (mk_launch (sv_cmd sv) (subst_env <$> sv_args sv)
                        (service_envs sv base_envs notify)));
  match r with
  | None => mret tt
  | Some _ =>
     match sv_type sv with
     | StNotify => attempt read_notify;; mret tt
     | StScheme scheme =>
        new_fd ← await_fd fuel;
        match new_fd with
        | None => mret tt
        | Some new_fd =>
           ns ← unwrap getns;
           unwrap (register_scheme_to_ns ns scheme new_fd)
        end
     | StOneshot => attempt wait;; mret tt
     | StOneshotAsync => mret tt
     end
  end.

Fixpoint run_script (cfg : InitConfig) (script : list Command) : comp W unit :=
  match script with
  | [] => mret tt
  | cmd :: script => command_run cfg cmd;; run_script cfg script
  end.

(** [scheduler::run] *)
Definition run (fuel : nat) (u : Unit) (cfg : InitConfig) : comp W unit :=
  match u_kind u with
  | LegacyScript script => run_script cfg script
  | KService service =>
     if bool_decide (sv_cmd service ∈ skip_cmd cfg) then mret tt
     else service_spawn fuel service (envs cfg)
  | Target => mret tt
  end.

(** One turn of the loop of [Scheduler::step]; [true] when it returns *)
Definition step_turn (fuel : nat) : comp (Init W) bool :=
  q ← gets pending;
  match q with
  | [] => mret true
  | job :: rest =>
     modify (set_pending (λ _, rest));;
     match j_kind job with
     | Start =>
        u ← unit_of (j_unit job);
        if existsb (λ dep, existsb (λ pending_job, bool_decide (j_unit pending_job = dep)) rest)
             (requires_weak (info u))
        then modify (set_pending (λ q, q ++ [job]));; mret false
        else
          cfg ← gets config;
          on_world (run fuel u cfg);;
          modify (set_ran (λ l, l ++ [j_unit job]));;
          mret false
     end
  end.

(** [Scheduler::step]; [false] when it is still running after [turns] turns *)
Fixpoint step (fuel turns : nat) : comp (Init W) bool :=
  match turns with
  | O => mret false
  | S turns =>
     returned ← step_turn fuel;
     if (returned : bool) then mret true else step fuel turns
  end.

(** [config::config_for_dirs]: the paths by file name, a later directory overriding an
    earlier one *)
Fixpoint read_entries (dir : string) (names : list (io_result string)) (entries : gmap string string) :
    io_result (gmap string string) :=
  match names with
  | [] => inr entries
  | inl err :: _ => inl err
  | inr name :: names => read_entries dir names (<[name := join dir name]> entries)
  end.

Fixpoint read_dirs (w : W) (dirs : list string) (entries : gmap string string) :
    io_result (gmap string string) :=
  match dirs with
  | [] => inr entries
  | dir :: dirs =>
     if path_exists w dir then
       match read_dir w dir with
       | inl err => inl err
       | inr names =>
          match read_entries dir names entries with
          | inl err => inl err
          | inr entries => read_dirs w dirs entries
          end
       end
     else read_dirs w dirs entries
  end.

Definition config_for_dirs (w : W) (dirs : list string) : io_result (list string) :=
  match read_dirs w dirs ∅ with
  | inl err => inl err
  | inr entries => inr (into_values entries)
  end.

(** [config::config] and [config::config_for_initfs] *)
Definition config_of (w : W) (name : string) : io_result (list string) :=
  config_for_dirs w [join "/usr/lib" (name +:+ ".d"); join "/etc" (name +:+ ".d")].

Definition config_for_initfs (w : W) (name : string) : io_result (list string) :=
  config_for_dirs w [join "/scheme/initfs/lib" (name +:+ ".d"); join "/scheme/initfs/etc" (name +:+ ".d")].

(** [switch_stdio] *)
Definition switch_stdio (stdio : string) : comp W unit :=
  stdin ← fd_open stdio false;
  stdout ← fd_open stdio true;
  stderr ← fd_open stdio true;
  dup2 stdin 0;;
  dup2 stdout 1;;
  dup2 stderr 2.

(** [InitConfig::new] *)
Definition init_config_new : InitConfig :=
  let log_level := default "INFO" (env_var W "INIT_LOG_LEVEL") in
  mk_init_config
    (bool_decide (log_level = "DEBUG") || bool_decide (log_level = "TRACE"))
    (match env_var W "INIT_SKIP" with
     | Some v => if bool_decide (v = EmptyString) then [] else split ","%char v
     | None => []
     end)
    {["RUST_BACKTRACE" := "1"]}.

(** One line of an environment file *)
Definition env_line (m : gmap string string) (env : string) : gmap string string :=
  if bool_decide (env = EmptyString) || starts_with "#"%char env then m
  else match split_once "="%char env with
       | Some (key, value) => <[key := value]> m
       | None => m
       end.

Definition env_file (w : W) (m : gmap string string) (file : string) : gmap string string :=
  match read_to_string w file with
  | inr text => foldl env_line m (lines text)
  | inl _ => m
  end.

Definition set_envs (f : gmap string string → gmap string string) (c : InitConfig) : InitConfig :=
  mk_init_config (log_debug c) (skip_cmd c) (f (envs c)).

(** [switch_root] *)
Definition switch_root (prefix etcdir : string) : comp (Init W) unit :=
  modify (set_config (set_envs (λ m,
    <["LD_LIBRARY_PATH" := join prefix "lib"]> (<["PATH" := join prefix "bin"]> m))));;
  modify (set_store (set_config_dirs
    [join (join prefix "lib") "init.d"; join etcdir "init.d"]));;
  w ← gets world;
  match config_for_dirs w [join (join prefix "lib") "environment.d"; join etcdir "environment.d"] with
  | inr files => modify (set_config (set_envs (λ m, foldl (env_file w) m files)))
  | inl _ => mret tt
  end.

Fixpoint schedule_entries (fuel : nat) (entries : list string) : comp (Init W) bool :=
  match entries with
  | [] => mret true
  | entry :: entries =>
     name ← expect (file_name entry);
     r ← schedule_start_and_report_errors fuel name;
     if (r : bool) then schedule_entries fuel entries else mret false
  end.

(** The state that [main] starts from *)
Definition init_new (w : W) : Init W :=
  mk_init (mk_unit_store [] ∅ None) [] init_config_new [] w [].

(** A call that may run out of fuel, followed by the rest of [main] *)
Definition returns (m : comp (Init W) bool) (k : comp (Init W) bool) : comp (Init W) bool :=
  r ← m; if (r : bool) then k else mret false.

(** [main], up to the loop that reaps children; [false] when [turns] are not enough for
    one of its loops *)
Definition init_main (fuel turns : nat) : comp (Init W) bool :=
  switch_root "/scheme/initfs" "/scheme/initfs/etc";;
  returns (schedule_start_and_report_errors turns "00_logd.service") (
  returns (step fuel turns) (
  attempt (on_world (switch_stdio "/scheme/log"));;
  returns (schedule_start_and_report_errors turns "00_runtime.target") (
  set_runtime_target "00_runtime.target";;
  returns (schedule_start_and_report_errors turns "90_initfs.target") (
  returns (step fuel turns) (
  switch_root "/usr" "/etc";;
  s ← get;
  match config_for_dirs (world s) (config_dirs (store s)) with
  | inl _ => mret true
  | inr entries =>
     returns (schedule_entries turns entries) (
     returns (step fuel turns) (
     on_world (unwrap setrens);;
     mret true))
  end))))).
End Init.

(** ** Loading units *)

Section Loading.
Context {W : Type} `{os : InitOs W}.
Implicit Types (s : Init W) (w : W).

(** The unit that an id loads to: it depends on the files, the search directories and
    the runtime target, not on what is loaded already. *)
Definition unit_for w (dirs : list string) (target : option UnitId) (id : UnitId) : option Unit :=
  match load_single_unit id
          (mk_init (mk_unit_store dirs ∅ target) [] (mk_init_config false [] ∅) [] w []) with
  | (Ok (Some _), s) => units (store s) !! id
  | _ => None
  end.

Definition unit_in s (id : UnitId) : option Unit :=
  unit_for (world s) (config_dirs (store s)) (runtime_target (store s)) id.

Lemma from_file_eq id path inst w :
  ∃ r errs, ∀ s, world s = w → from_file id path inst s = (Ok r, set_errors (λ l, l ++ errs) s).
Proof.
  unfold from_file.
  assert (∀ s, set_errors (λ l, l ++ []) s = s) as Hnil.
  { intros []. unfold set_errors. cbn. by rewrite app_nil_r. }
  destruct (read_to_string w path) as [e|text] eqn:Hr.
  { exists (inl e), []. intros s <-. rewrite bind_gets. by rewrite Hr, Hnil. }
  destruct (extension path) as [ext|].
  - unshelve eexists; [destruct (toml_from_str text) as [e|v]; [exact (inl e)|]|].
    { set (v' := match inst with Some i => instance_toml v i | None => v end).
      exact (if bool_decide (ext = "service") then
               match try_into_service v' with inl e => inl e | inr (i, sv) => inr (mk_unit id i (KService sv)) end
             else if bool_decide (ext = "target") then
               match try_into_target v' with inl e => inl e | inr i => inr (mk_unit id i Target) end
             else inl "invalid file extension"). }
    exists []. intros s <-. rewrite Hnil. rewrite bind_gets. rewrite Hr.
    destruct (toml_from_str text); [done|]. cbv zeta.
    repeat case_bool_decide; try done; repeat case_match; done.
  - destruct (script_from_str text) as [[cmds reqs] errs] eqn:Hs.
    eexists _, errs. intros s <-. rewrite bind_gets. rewrite Hr, Hs. done.
Qed.

Lemma load_single_unit_eq id s :
  ∃ errs, load_single_unit id s =
    match unit_in s id with
    | Some u => (Ok (Some id), set_store (set_units (<[id := u]>)) (set_errors (λ l, l ++ errs) s))
    | None => (Ok None, set_errors (λ l, l ++ errs) s)
    end.
Proof.
  destruct s as [[dirs us tgt] q cfg errs0 w rn].
  unfold unit_in, unit_for, load_single_unit, push_error. cbn [world store config_dirs runtime_target].
  destruct (unit_filename id) as [[filename inst]|];
    [|by eexists [_]; rewrite !bind_modify].
  rewrite !bind_get. cbn [world store config_dirs runtime_target].
  destruct (find_path w dirs filename) as [path|];
    [|by eexists [_]; rewrite !bind_modify].
  destruct (from_file_eq id path inst w) as (r & errs & Hf).
  erewrite !bind_ok by (by apply Hf).
  destruct r as [err|u].
  { exists (errs ++ [path +:+ ": " +:+ err]). rewrite !bind_modify.
    unfold set_errors. cbn. by rewrite app_assoc. }
  destruct (default_dependencies (info u)), tgt as [t|];
    [exists errs|eexists (errs ++ [_])|exists errs..];
    unfold mbind, comp_bind, modify, set_store, set_units, set_errors; cbn;
    rewrite lookup_insert_eq, ?app_assoc; reflexivity.
Qed.

(** What the load loop leaves alone *)
Definition same_scheduler s s' : Prop :=
  pending s' = pending s ∧ ran s' = ran s ∧ config s' = config s ∧ world s' = world s ∧
  config_dirs (store s') = config_dirs (store s) ∧
  runtime_target (store s') = runtime_target (store s).

Lemma same_scheduler_unit_in s s' id : same_scheduler s s' → unit_in s' id = unit_in s id.
Proof. intros (_ & _ & _ & Hw & Hd & Ht). unfold unit_in. by rewrite Hw, Hd, Ht. Qed.

#[global] Instance same_scheduler_refl : Reflexive same_scheduler.
Proof. done. Qed.

#[global] Instance same_scheduler_trans : Transitive same_scheduler.
Proof. unfold same_scheduler. intros ???. naive_solver congruence. Qed.

(** One turn of the load loop *)
Lemma load_loop_S fuel id P L s :
  ∃ s', same_scheduler s s' ∧
    load_loop (S fuel) (id :: P) L s =
    match units (store s) !! id, unit_in s id with
    | None, Some u => load_loop fuel (reverse (requires_weak (info u)) ++ P) (L ++ [id]) s'
    | _, _ => load_loop fuel P L s'
    end ∧
    units (store s') =
    match units (store s) !! id, unit_in s id with
    | None, Some u => <[id := u]> (units (store s))
    | _, _ => units (store s)
    end.
Proof.
  destruct (load_single_unit_eq id s) as [errs Hload].
  cbn [load_loop]. rewrite bind_gets.
  destruct (units (store s) !! id) as [x|] eqn:Hx; [by exists s|].
  destruct (unit_in s id) as [u|]; rewrite (bind_ok _ _ _ _ _ Hload).
  - exists (set_store (set_units (<[id := u]>)) (set_errors (λ l, l ++ errs) s)).
    split_and!; [done| |done].
    rewrite (bind_ok _ _ _ u (set_store (set_units (<[id := u]>)) (set_errors (λ l, l ++ errs) s))); [done|].
    unfold unit_of. rewrite bind_gets. cbn. by rewrite lookup_insert_eq.
  - by exists (set_errors (λ l, l ++ errs) s).
Qed.

(** The ids that loading [root] comes across *)
Inductive wanted s (root : UnitId) : UnitId → Prop :=
  | wanted_root : wanted s root root
  | wanted_dep id u dep :
     wanted s root id → units (store s) !! id = None → unit_in s id = Some u →
     dep ∈ requires_weak (info u) → wanted s root dep.

(** The state in the middle of [load_units root], started in [s0]: [P] is left to visit
    and [L] is loaded. *)
Record loading (s0 : Init W) (root : UnitId) (P L : list UnitId) (s : Init W) : Prop := {
  ld_same : same_scheduler s0 s;
  ld_nodup : NoDup L;
  ld_fresh id : id ∈ L → units (store s0) !! id = None;
  ld_units id : units (store s) !! id =
    if bool_decide (id ∈ L) then unit_in s0 id else units (store s0) !! id;
  ld_loads id : id ∈ L → is_Some (unit_in s0 id);
  ld_wanted id : id ∈ P ∨ id ∈ L → wanted s0 root id;
  ld_closed id u dep : id ∈ L → unit_in s0 id = Some u → dep ∈ requires_weak (info u) →
    dep ∈ P ∨ dep ∈ L ∨ is_Some (units (store s0) !! dep) ∨ unit_in s0 dep = None;
  ld_root : root ∈ P ∨ root ∈ L ∨ is_Some (units (store s0) !! root) ∨ unit_in s0 root = None;
}.

Lemma loading_init s root : loading s root [root] [] s.
Proof.
  split; try set_solver; try done.
  - apply NoDup_nil_2.
  - intros id [->%list_elem_of_singleton|?%elem_of_nil]; [constructor|done].
Qed.

Lemma loading_skip s0 root id P L s s' :
  loading s0 root (id :: P) L s → same_scheduler s s' → units (store s') = units (store s) →
  is_Some (units (store s) !! id) ∨ unit_in s0 id = None →
  loading s0 root P L s'.
Proof.
  intros [Hsm Hnd Hfr Hun Hld Hw Hcl Hrt] Hs Hu Hid. split; try done.
  - by etrans.
  - intros id'. by rewrite Hu.
  - set_solver.
  - intros i u d Hi Hiu Hd. destruct (Hcl i u d Hi Hiu Hd) as [[->|?]%elem_of_cons|?]; [|naive_solver..].
    destruct Hid as [Hid|?]; [|naive_solver]. rewrite Hun in Hid. case_bool_decide; naive_solver.
  - destruct Hrt as [[->|?]%elem_of_cons|?]; [|naive_solver..].
    destruct Hid as [Hid|?]; [|naive_solver]. rewrite Hun in Hid. case_bool_decide; naive_solver.
Qed.

Lemma loading_load s0 root id u P L s s' :
  loading s0 root (id :: P) L s → same_scheduler s s' →
  units (store s) !! id = None → unit_in s0 id = Some u →
  units (store s') = <[id := u]> (units (store s)) →
  loading s0 root (reverse (requires_weak (info u)) ++ P) (L ++ [id]) s'.
Proof.
  intros [Hsm Hnd Hfr Hun Hld Hw Hcl Hrt] Hs Hid Hu Hun'.
  assert (id ∉ L) as HidL.
  { intros HL. rewrite Hun, bool_decide_eq_true_2 in Hid by done.
    destruct (Hld id HL). congruence. }
  assert (units (store s0) !! id = None) as Hid0.
  { by rewrite Hun, bool_decide_eq_false_2 in Hid. }
  split.
  - by etrans.
  - by apply NoDup_snoc.
  - intros i [?| ->]%elem_of_snoc; [auto|done].
  - intros i. rewrite Hun'. destruct (decide (i = id)) as [->|Hne].
    + rewrite lookup_insert_eq, bool_decide_eq_true_2 by set_solver. done.
    + rewrite lookup_insert_ne, Hun by done.
      do 2 case_bool_decide; set_solver.
  - intros i [?| ->]%elem_of_snoc; [auto|]. by exists u.
  - intros i. rewrite elem_of_snoc, elem_of_app, elem_of_reverse.
    intros [[Hi|Hi]|[Hi| ->]]; [|apply Hw; set_solver..].
    apply (wanted_dep s0 root id u i); auto. apply Hw. set_solver.
  - intros i v d Hi Hiv Hd. rewrite elem_of_app, elem_of_reverse, elem_of_snoc.
    apply elem_of_snoc in Hi as [Hi| ->].
    + destruct (Hcl i v d Hi Hiv Hd) as [[->|?]%elem_of_cons|?]; naive_solver.
    + naive_solver.
  - rewrite elem_of_app, elem_of_snoc. destruct Hrt as [[->|?]%elem_of_cons|?]; naive_solver.
Qed.

Lemma loading_turn s0 root fuel id P L s :
  loading s0 root (id :: P) L s →
  ∃ P' L' s', loading s0 root P' L' s' ∧
    load_loop (S fuel) (id :: P) L s = load_loop fuel P' L' s' ∧
    (P' = P ∧ L' = L ∨
     ∃ u, id ∉ L ∧ unit_in s0 id = Some u ∧ L' = L ++ [id] ∧
       P' = reverse (requires_weak (info u)) ++ P).
Proof.
  intros Hl. destruct (load_loop_S fuel id P L s) as (s' & Hs & Heq & Hu).
  assert (unit_in s id = unit_in s0 id) as Hin
    by (apply same_scheduler_unit_in; apply Hl).
  rewrite Hin in *. destruct (units (store s) !! id) as [x|] eqn:Hx.
  { exists P, L, s'. split_and!; [|done|by left].
    eapply loading_skip; eauto. }
  destruct (unit_in s0 id) as [u|] eqn:Hu0.
  - eexists _, _, s'. split_and!; [by eapply loading_load|done|].
    right. exists u. split_and!; try done. intros HL.
    pose proof (ld_units _ _ _ _ _ Hl id) as Hun.
    rewrite Hx, bool_decide_eq_true_2 in Hun by done. congruence.
  - exists P, L, s'. split_and!; [|done|by left].
    eapply loading_skip; eauto.
Qed.

Lemma load_loop_spec s0 root fuel : ∀ P L s,
  loading s0 root P L s →
  ∃ r s', load_loop fuel P L s = (Ok r, s') ∧ ∀ L', r = Some L' → loading s0 root [] L' s'.
Proof.
  induction fuel as [|fuel IH]; intros [|id P] L s Hl.
  - exists (Some L), s. split; [done|]. by intros ? [= <-].
  - by exists None, s.
  - exists (Some L), s. split; [done|]. by intros ? [= <-].
  - destruct (loading_turn s0 root fuel id P L s Hl) as (P' & L' & s' & Hl' & -> & _). eauto.
Qed.

(** Turns still to come: one for each id to visit, and one for each requirement of a
    unit of [U] that is not loaded yet *)
Definition requirements s0 (id : UnitId) : nat :=
  match unit_in s0 id with Some u => length (requires_weak (info u)) | None => 0 end.

Definition load_cost s0 (U L : list UnitId) : nat :=
  sum_list_with (λ id, if bool_decide (id ∈ L) then 0%nat else requirements s0 id) U.

Lemma load_cost_snoc s0 U L id :
  id ∈ U → id ∉ L → (load_cost s0 U (L ++ [id]) + requirements s0 id ≤ load_cost s0 U L)%nat.
Proof.
  intros HU HL. unfold load_cost.
  assert (∀ V, sum_list_with (λ i, if bool_decide (i ∈ L ++ [id]) then 0 else requirements s0 i) V
             ≤ sum_list_with (λ i, if bool_decide (i ∈ L) then 0 else requirements s0 i) V)%nat as Hle.
  { induction V as [|i V IHV]; cbn; [lia|]. do 2 case_bool_decide; set_solver by lia. }
  apply list_elem_of_split in HU as (U1 & U2 & ->).
  rewrite !sum_list_with_app. cbn.
  rewrite bool_decide_eq_true_2, bool_decide_eq_false_2 by set_solver.
  pose proof (Hle U1). pose proof (Hle U2). lia.
Qed.

Lemma load_loop_total s0 root U : (∀ id, wanted s0 root id → id ∈ U) → ∀ fuel P L s,
  loading s0 root P L s → (length P + load_cost s0 U L ≤ fuel)%nat →
  ∃ L' s', load_loop fuel P L s = (Ok (Some L'), s') ∧ loading s0 root [] L' s'.
Proof.
  intros HU. induction fuel as [|fuel IH]; intros [|id P] L s Hl Hf; try by eauto.
  { cbn in Hf. lia. }
  destruct (loading_turn s0 root fuel id P L s Hl) as (P' & L' & s' & Hl' & -> & Hc).
  apply IH; [done|]. cbn [length] in Hf.
  destruct Hc as [[-> ->]|(u & HnL & Hu & -> & ->)]; [lia|].
  assert (id ∈ U) as HiU by (apply HU, (ld_wanted _ _ _ _ _ Hl); set_solver).
  pose proof (load_cost_snoc s0 U L id HiU HnL) as Hcost. unfold requirements in Hcost.
  rewrite Hu in Hcost. rewrite length_app, length_reverse. lia.
Qed.

Lemma loading_done s0 root L s :
  loading s0 root [] L s →
  ∀ id, id ∈ L ↔ wanted s0 root id ∧ units (store s0) !! id = None ∧ is_Some (unit_in s0 id).
Proof.
  intros Hl id. split.
  - intros HL. split_and!; [apply (ld_wanted _ _ _ _ _ Hl)|apply (ld_fresh _ _ _ _ _ Hl)|
      apply (ld_loads _ _ _ _ _ Hl)]; auto.
  - intros (Hw & Hn & Hs).
    assert (∀ i, wanted s0 root i →
      i ∈ L ∨ is_Some (units (store s0) !! i) ∨ unit_in s0 i = None) as Hall.
    { induction 1 as [|i u d Hi IH Hni Hu Hd].
      - destruct (ld_root _ _ _ _ _ Hl) as [?%elem_of_nil|?]; naive_solver.
      - destruct IH as [IH|[[? ?]|?]]; [|congruence..].
        destruct (ld_closed _ _ _ _ _ Hl i u d) as [?%elem_of_nil|?]; naive_solver. }
    destruct (Hall id Hw) as [?|[[? ?]|?]]; [done|congruence|].
    destruct Hs; congruence.
Qed.

(** [U] has all requirements of its members. *)
Definition closed_under s0 (U : list UnitId) : bool :=
  forallb (λ id, match unit_in s0 id with
                 | Some u => forallb (λ d, bool_decide (d ∈ U)) (requires_weak (info u))
                 | None => true
                 end) U.

Lemma wanted_closed s0 root U :
  root ∈ U → closed_under s0 U = true → ∀ id, wanted s0 root id → id ∈ U.
Proof.
  intros Hr Hc. induction 1 as [|id u d _ IH _ Hu Hd]; [done|].
  unfold closed_under in Hc. rewrite forallb_forall in Hc.
  specialize (Hc id). rewrite <- list_elem_of_In, Hu, forallb_forall in Hc.
  specialize (Hc IH d). rewrite <- list_elem_of_In, bool_decide_eq_true in Hc. auto.
Qed.

(** Loading a unit returns when the units it leads to are finitely many, and it then
    has loaded exactly the units that the root reaches through [requires_weak], that were
    not loaded before and that have a well-formed file; each once, and nothing else of
    the store changes. *)
Theorem init_load_units_closure s root (U : list UnitId) fuel :
  (∀ id, wanted s root id → id ∈ U) →
  (1 + sum_list_with (requirements s) U ≤ fuel)%nat →
  ∃ L s', load_units fuel root s = (Ok (Some L), s') ∧ NoDup L ∧
    (∀ id, id ∈ L ↔
       wanted s root id ∧ units (store s) !! id = None ∧ is_Some (unit_in s id)) ∧
    (∀ id, units (store s') !! id =
       if bool_decide (id ∈ L) then unit_in s id else units (store s) !! id) ∧
    same_scheduler s s'.
Proof.
  intros HU Hf.
  destruct (load_loop_total s root U HU fuel [root] [] s (loading_init s root))
    as (L & s' & Heq & Hl).
  { cbn [length]. unfold load_cost. etrans; [|exact Hf]. apply le_n_S.
    clear. induction U as [|i U IH]; cbn; [lia|]. case_bool_decide; lia. }
  exists L, s'. split_and!; [done|apply Hl| |apply Hl|apply Hl].
  by apply loading_done with (s := s').
Qed.

(** Loading a unit that leads to infinitely many ids never returns: there is no
    limit on how often a template may require a further instance of itself. *)
Theorem init_load_units_diverges s root fuel :
  (∀ U : list UnitId, ∃ id, wanted s root id ∧ id ∉ U) →
  (load_units fuel root s).1 = Ok None.
Proof.
  intros Hinf. unfold load_units.
  destruct (load_loop_spec s root fuel [root] [] s (loading_init s root)) as (r & s' & -> & Hl).
  destruct r as [L|]; [|done]. exfalso. specialize (Hl L eq_refl).
  destruct (Hinf (root :: concat ((λ id, match unit_in s id with
    Some u => requires_weak (info u) | None => [] end) <$> L))) as (id & Hw & Hn).
  apply Hn. destruct Hw as [|i u d Hw Hni Hu Hd]; [set_solver|].
  apply elem_of_cons. right. apply list_elem_of_In, in_concat.
  exists (requires_weak (info u)). rewrite <- !list_elem_of_In. split; [|done].
  apply list_elem_of_fmap. exists i. rewrite Hu. split; [done|].
  rewrite loading_done by exact Hl. eauto.
Qed.
End Loading.

(** ** Running jobs *)

Section Order.
Implicit Types (st : UnitStore) (q : list UnitId).

(** The requirements of a loaded unit *)
Definition deps (st : UnitStore) (id : UnitId) : list UnitId :=
  match units st !! id with Some u => requires_weak (info u) | None => [] end.

(** [id] has to wait for another member of [q]. *)
Definition blocked (st : UnitStore) (q : list UnitId) (id : UnitId) : bool :=
  existsb (λ d, bool_decide (d ∈ q ∧ d ≠ id)) (deps st id).

(** Every member of [C] waits for another one. *)
Definition deadlock (st : UnitStore) (C : list UnitId) : Prop :=
  C ≠ [] ∧ Forall (λ id, blocked st C id = true) C.

Lemma blocked_spec st q id :
  blocked st q id = true ↔ ∃ d, d ∈ deps st id ∧ d ∈ q ∧ d ≠ id.
Proof.
  unfold blocked. rewrite existsb_exists. setoid_rewrite bool_decide_eq_true.
  split; intros (d & Hd & ?); exists d; [apply list_elem_of_In in Hd|apply list_elem_of_In in Hd]; done.
Qed.

Lemma blocked_mono st q q' id :
  q ⊆ q' → blocked st q id = true → blocked st q' id = true.
Proof. rewrite !blocked_spec. set_solver. Qed.

Lemma no_deadlock_exists st q :
  (∀ C, C ⊆ q → ¬ deadlock st C) → q ≠ [] → Exists (λ id, blocked st q id = false) q.
Proof.
  intros Hno Hq. destruct (decide (Exists (λ id, blocked st q id = false) q)) as [|Hn]; [done|].
  exfalso. apply (Hno q); [done|]. split; [done|].
  apply Forall_forall. intros id Hid. apply not_false_iff_true. intros Hb.
  apply Hn, Exists_exists. by exists id.
Qed.

(** [order] puts every unit after the other members of [order] that it requires. *)
Fixpoint ordered (st : UnitStore) (order : list UnitId) : Prop :=
  match order with
  | [] => True
  | id :: order => Forall (λ d, d ∉ order) (deps st id) ∧ ordered st order
  end.

Lemma ordered_app st l1 id l2 d :
  ordered st (l1 ++ id :: l2) → d ∈ deps st id → d ∉ l2.
Proof.
  induction l1 as [|x l1 IH]; cbn; intros [Hf Ho]; [|by apply IH].
  rewrite Forall_forall in Hf. apply Hf.
Qed.

(** Units that can be ordered do not wait for each other. *)
Lemma ordered_no_deadlock st order : ordered st order → ∀ C, C ⊆ order → ¬ deadlock st C.
Proof.
  induction order as [|x order IH]; intros Ho C HC [Hne HF].
  { destruct C; [done|]. set_solver. }
  destruct Ho as [Hx Ho]. rewrite Forall_forall in HF, Hx.
  destruct (decide (x ∈ C)) as [HxC|HxC].
  - apply HF, blocked_spec in HxC as (d & Hd & HdC & Hdx).
    apply (Hx d Hd). specialize (HC d HdC). set_solver.
  - apply (IH Ho C); [|split; [done|by apply Forall_forall]].
    intros y Hy. specialize (HC y Hy). set_solver.
Qed.
End Order.

(** What init relies on: setting up a service does not fail in the ways that make it
    panic.  A program that cannot be started, or that fails, is allowed. *)
Class InitOsLaws (W : Type) `{os : InitOs W} : Prop := {
  spawn_safe l w : (spawn l w).1 ≠ Panic;
  wait_safe w : (wait w).1 ≠ Panic;
  notify_safe w : (read_notify w).1 ≠ Panic;
  pipe_works w : ∃ fd w', pipe w = (Ok fd, w');
  getns_works w : ∃ ns w', getns w = (Ok ns, w');
  register_works ns name fd w : ∃ w', register_scheme_to_ns ns name fd w = (Ok tt, w');
}.

Section Running.
Context {W : Type} `{os : InitOs W} `{!InitOsLaws W}.
Context (fuel : nat).
(** The wait for a descriptor is not interrupted more than [fuel] times in a row. *)
Context (Hawait : ∀ w : W, (await_fd fuel w).1 ≠ Panic).
Implicit Types (s : Init W) (w : W) (q : list UnitId).

Definition total {A} (m : comp W A) : Prop := ∀ w, ∃ a w', m w = (Ok a, w').

Lemma total_ret {A} (a : A) : total (mret a).
Proof. intros w. by exists a, w. Qed.

Lemma total_bind {A B} (m : comp W A) (f : A → comp W B) :
  total m → (∀ a, total (f a)) → total (m ≫= f).
Proof.
  intros Hm Hf w. destruct (Hm w) as (a & w' & E). rewrite (bind_ok _ _ _ _ _ E). apply Hf.
Qed.

Lemma total_attempt {A} (m : comp W A) : (∀ w, (m w).1 ≠ Panic) → total (attempt m).
Proof.
  intros Hm w. specialize (Hm w). unfold attempt.
  destruct (m w) as [[a|e|] w']; cbn in *; [by exists (Some a), w'|by exists None, w'|done].
Qed.

Lemma total_unwrap {A} (m : comp W A) : total m → total (unwrap m).
Proof. intros Hm w. destruct (Hm w) as (a & w' & E). exists a, w'. unfold unwrap. by rewrite E. Qed.

Lemma total_await : total (await_fd fuel).
Proof.
  intros w. specialize (Hawait w).
  assert (∀ n w, (await_fd n w).1 = Panic ∨ ∃ o, (await_fd n w).1 = Ok o) as H.
  { clear. induction n as [|n IH]; intros w; cbn;
      destruct (call_ro_fd w) as [[[k fd]|[]|] w'] eqn:E; eauto. }
  destruct (H fuel w) as [?|[o Ho]]; [done|].
  destruct (await_fd fuel w) as [r w']. cbn in Ho. subst r. by exists o, w'.
Qed.

Lemma total_command cfg c : total (command_run cfg c).
Proof.
  unfold command_run. case_bool_decide; [apply total_ret|].
  apply total_bind; [apply total_attempt; intros; apply spawn_safe|].
  intros [[]|]; [|apply total_ret]. destruct (c_kind c); [|apply total_ret].
  apply total_bind; [apply total_attempt, wait_safe|intros; apply total_ret].
Qed.

Lemma total_run u cfg : total (run fuel u cfg).
Proof.
  unfold run. destruct (u_kind u) as [script|sv|]; [| |apply total_ret].
  { induction script as [|c l IH]; cbn; [apply total_ret|].
    apply total_bind; [apply total_command|done]. }
  case_bool_decide; [apply total_ret|]. unfold service_spawn.
  apply total_bind; [apply total_unwrap; intros w; apply pipe_works|intros fd].
  apply total_bind; [apply total_attempt; intros; apply spawn_safe|].
  intros [[]|]; [|apply total_ret]. destruct (sv_type sv) as [|name| |]; [| | |apply total_ret].
  - apply total_bind; [apply total_attempt, notify_safe|intros; apply total_ret].
  - apply total_bind; [apply total_await|]. intros [nfd|]; [|apply total_ret].
    apply total_bind; [apply total_unwrap; intros w; apply getns_works|]. intros ns.
    apply total_unwrap. intros w. exists tt. apply register_works.
  - apply total_bind; [apply total_attempt, wait_safe|intros; apply total_ret].
Qed.

(** The ids in the queue *)
Definition queue s : list UnitId := j_unit <$> pending s.

Definition loaded_met s (id : UnitId) : Prop :=
  ∃ u, units (store s) !! id = Some u ∧ conditions_met u = true.

(** Every unit that is loaded and wanted on this machine has run or is queued, once. *)
Record scheduler_inv s : Prop := {
  si_nodup : NoDup (ran s ++ queue s);
  si_jobs id : id ∈ ran s ++ queue s ↔ loaded_met s id;
}.

Lemma step_turn_cases s job rest :
  scheduler_inv s → pending s = job :: rest →
  (blocked (store s) (queue s) (j_unit job) = true ∧
   step_turn fuel s = (Ok false, set_pending (λ _, rest ++ [job]) s)) ∨
  (blocked (store s) (queue s) (j_unit job) = false ∧ ∃ w,
   step_turn fuel s = (Ok false,
     set_ran (λ l, l ++ [j_unit job]) (set_world w (set_pending (λ _, rest) s)))).
Proof.
  intros [Hnd Hj] Hp.
  assert (loaded_met s (j_unit job)) as (u & Hu & _).
  { apply Hj. unfold queue. rewrite Hp. set_solver. }
  assert (j_unit job ∉ j_unit <$> rest) as Hni.
  { apply NoDup_app in Hnd as (_ & _ & Hq). unfold queue in Hq. rewrite Hp in Hq.
    by apply NoDup_cons in Hq as [? _]. }
  assert (existsb (λ dep, existsb (λ pj, bool_decide (j_unit pj = dep)) rest)
            (requires_weak (info u)) = blocked (store s) (queue s) (j_unit job)) as Hb.
  { apply eq_true_iff_eq. rewrite blocked_spec, existsb_exists. unfold deps, queue. rewrite Hu, Hp.
    setoid_rewrite existsb_exists. setoid_rewrite bool_decide_eq_true.
    setoid_rewrite <- list_elem_of_In. cbn. split.
    - intros (d & Hd & j & Hjr & <-). exists (j_unit j). set_solver.
    - intros (d & Hd & Hq & Hne). exists d. split; [done|].
      apply elem_of_cons in Hq as [?|Hq]; [done|]. apply list_elem_of_fmap in Hq as (j & -> & ?). eauto. }
  unfold step_turn. rewrite bind_gets, Hp, bind_modify. destruct (j_kind job).
  rewrite (bind_ok _ _ _ u (set_pending (λ _, rest) s))
    by (unfold unit_of; rewrite bind_gets; cbn; by rewrite Hu).
  rewrite Hb. destruct (blocked _ _ _); [left|right]; (split; [done|]).
  - by rewrite bind_modify.
  - rewrite bind_gets. destruct (total_run u (config s) (world s)) as ([] & w & Hr).
    exists w. rewrite (bind_ok _ _ _ tt (set_world w (set_pending (λ _, rest) s))); [done|].
    unfold on_world, zoom. cbn. by rewrite Hr.
Qed.

Lemma inv_rotate s job rest :
  scheduler_inv s → pending s = job :: rest →
  scheduler_inv (set_pending (λ _, rest ++ [job]) s).
Proof.
  intros [Hnd Hj] Hp. unfold queue in *. rewrite Hp in *.
  assert (ran s ++ (j_unit <$> rest ++ [job]) ≡ₚ ran s ++ (j_unit <$> job :: rest)) as HP
    by (apply Permutation_app_head; rewrite fmap_app; cbn; by rewrite (comm (++))).
  split; unfold queue; cbn [ran pending set_pending].
  - by rewrite HP.
  - intros id. rewrite HP. apply Hj.
Qed.

Lemma inv_run s job rest w :
  scheduler_inv s → pending s = job :: rest →
  scheduler_inv (set_ran (λ l, l ++ [j_unit job]) (set_world w (set_pending (λ _, rest) s))).
Proof.
  intros [Hnd Hj] Hp. unfold queue in *. rewrite Hp in *.
  split; unfold queue; cbn [ran pending set_pending set_ran set_world];
    [rewrite <- app_assoc; done|]. intros id. rewrite <- app_assoc. apply Hj.
Qed.

(** One job that is not blocked runs before the queue has been gone through. *)
Lemma step_progress : ∀ todo done s,
  pending s = todo ++ done → scheduler_inv s →
  Forall (λ id, blocked (store s) (queue s) id = true) (j_unit <$> done) →
  Exists (λ id, blocked (store s) (queue s) id = false) (queue s) →
  ∃ k id s', (k ≤ length todo)%nat ∧ (∀ n, step fuel (k + n) s = step fuel n s') ∧
    id :: queue s' ≡ₚ queue s ∧ blocked (store s) (queue s) id = false ∧
    ran s' = ran s ++ [id] ∧ store s' = store s ∧ scheduler_inv s'.
Proof.
  induction todo as [|job todo IH]; intros done s Hp Hinv Hdone Hex.
  { cbn in Hp. unfold queue in Hex at 2. rewrite Hp in Hex.
    apply Exists_exists in Hex as (x & Hx & Hf).
    rewrite Forall_forall in Hdone. rewrite Hdone in Hf; done. }
  destruct (step_turn_cases s job (todo ++ done) Hinv Hp) as [[Hb Hs]|[Hb [w Hs]]].
  - assert (queue (set_pending (λ _, (todo ++ done) ++ [job]) s) ≡ₚ queue s) as Hq.
    { unfold queue. cbn. rewrite Hp. cbn. rewrite fmap_app. cbn. by rewrite (comm (++)). }
    assert (∀ id, blocked (store s) (queue (set_pending (λ _, (todo ++ done) ++ [job]) s)) id =
                  blocked (store s) (queue s) id) as Hbq.
    { intros id. apply eq_true_iff_eq. rewrite !blocked_spec. by setoid_rewrite Hq. }
    destruct (IH (done ++ [job]) (set_pending (λ _, (todo ++ done) ++ [job]) s))
      as (k & id & s' & Hk & Hsteps & Hperm & Hnb & Hran & Hst & Hinv').
    + cbn. by rewrite app_assoc.
    + by apply inv_rotate.
    + rewrite fmap_app. apply Forall_app. cbn [store set_pending]. setoid_rewrite Hbq.
      split; [done|]. by apply Forall_singleton.
    + cbn [store set_pending]. setoid_rewrite Hbq. by rewrite Hq.
    + exists (S k), id, s'. split_and!; try done.
      * cbn. lia.
      * intros n. cbn [step Nat.add]. rewrite (bind_ok _ _ _ _ _ Hs). apply Hsteps.
      * by rewrite Hperm.
      * by rewrite <- Hbq.
  - exists 1%nat, (j_unit job), (set_ran (λ l, l ++ [j_unit job]) (set_world w (set_pending (λ _, todo ++ done) s))).
    split_and!; try done.
    + cbn. lia.
    + intros n. cbn [step Nat.add]. by rewrite (bind_ok _ _ _ _ _ Hs).
    + unfold queue. cbn. by rewrite Hp.
    + by apply inv_run.
Qed.

Lemma step_completes : ∀ n s turns,
  length (queue s) = n → scheduler_inv s →
  (∀ C, C ⊆ queue s → ¬ deadlock (store s) C) → (n * n < turns)%nat →
  ∃ order s', step fuel turns s = (Ok true, s') ∧ pending s' = [] ∧
    order ≡ₚ queue s ∧ ran s' = ran s ++ order ∧ store s' = store s ∧
    ordered (store s) order ∧ scheduler_inv s'.
Proof.
  induction n as [|n IH]; intros s turns Hlen Hinv Hno Hturns.
  { exists [], s. apply nil_length_inv in Hlen as Hq.
    assert (pending s = []) as Hp by (unfold queue in Hq; by apply fmap_nil_inv in Hq).
    destruct turns as [|turns]; [lia|]. cbn [step].
    unfold step_turn. split_and!; try done.
    - unfold gets, mbind, comp_bind. rewrite Hp. done.
    - by rewrite Hq.
    - by rewrite app_nil_r. }
  destruct (step_progress (pending s) [] s) as (k & id & s1 & Hk & Hs1 & Hperm & Hnb & Hran & Hst & Hinv1).
  { by rewrite app_nil_r. } { done. } { by constructor. }
  { apply no_deadlock_exists; [done|]. by intros Hq; rewrite Hq in Hlen. }
  assert (length (pending s) = S n) as Hpl by (unfold queue in Hlen; by rewrite length_fmap in Hlen).
  apply Permutation_length in Hperm as Hl1. cbn in Hl1. rewrite Hlen in Hl1.
  destruct (IH s1 (turns - k)%nat) as (order & s' & Hstep & Hp' & Ho & Hran' & Hst' & Hord & Hinv');
    [lia|done| |nia|].
  { rewrite Hst. intros C HC. apply Hno. intros x Hx. rewrite <- Hperm. set_solver. }
  exists (id :: order), s'. split_and!; try done.
  - replace turns with (k + (turns - k))%nat by nia. by rewrite Hs1.
  - by rewrite Ho.
  - rewrite Hran', Hran. by rewrite <- app_assoc.
  - by rewrite Hst', Hst.
  - split; [|by rewrite Hst in Hord]. apply Forall_forall. intros d Hd Hd2.
    apply not_true_iff_false in Hnb. apply Hnb, blocked_spec. exists d.
    assert (d ∈ queue s1) as Hq1 by (by rewrite <- Ho). split_and!; [done| |].
    + rewrite <- Hperm. set_solver.
    + intros ->. pose proof (si_nodup s Hinv) as (_ & _ & Hndq)%NoDup_app.
      rewrite <- Hperm in Hndq. apply NoDup_cons in Hndq as [Hni _]. done.
Qed.

Lemma step_deadlock C : ∀ turns s,
  scheduler_inv s → deadlock (store s) C → C ⊆ queue s →
  ∃ s', step fuel turns s = (Ok false, s') ∧ C ⊆ queue s'.
Proof.
  induction turns as [|turns IH]; intros s Hinv [Hne HC] Hsub; [by exists s|].
  destruct (pending s) as [|job rest] eqn:Hp.
  { unfold queue in Hsub. rewrite Hp in Hsub. destruct C as [|c C]; [done|]. set_solver. }
  cbn [step]. destruct (step_turn_cases s job rest Hinv Hp) as [[Hb Hs]|[Hb [w Hs]]];
    rewrite (bind_ok _ _ _ _ _ Hs); apply IH; try done.
  - by apply inv_rotate.
  - intros x Hx%Hsub. unfold queue in *. cbn. rewrite Hp in Hx. rewrite fmap_app. set_solver.
  - by apply inv_run.
  - intros x Hx. pose proof (Hsub x Hx) as Hxq. unfold queue in Hxq. cbn. rewrite Hp in Hxq.
    apply elem_of_cons in Hxq as [->|?]; [|done]. exfalso.
    rewrite Forall_forall in HC. apply not_true_iff_false in Hb. apply Hb.
    eapply blocked_mono; [exact Hsub|by apply HC].
Qed.

(** *** Every state that [init] can be in *)

Inductive reachable : Init W → Prop :=
  | reach_new w : reachable (init_new w)
  | reach_world s w : reachable s → reachable (set_world w s)
  | reach_root s prefix etcdir s' :
     reachable s → switch_root prefix etcdir s = (Ok tt, s') → reachable s'
  | reach_target s id s' : reachable s → set_runtime_target id s = (Ok tt, s') → reachable s'
  | reach_schedule s n id s' :
     reachable s → schedule_start_and_report_errors n id s = (Ok true, s') → reachable s'
  | reach_step s turns s' : reachable s → step fuel turns s = (Ok true, s') → reachable s'.

Definition met_in s (id : UnitId) : bool :=
  match units (store s) !! id with Some u => conditions_met u | None => false end.

Lemma push_jobs_eq L : ∀ s,
  (∀ id, id ∈ L → is_Some (units (store s) !! id)) →
  push_jobs L s =
    (Ok tt, set_pending (λ l, l ++ ((λ id, mk_job id Start) <$> filter (λ id, met_in s id = true) L)) s).
Proof.
  induction L as [|id L IH]; intros s HL; cbn [push_jobs].
  { unfold mret, comp_ret, set_pending. cbn. rewrite app_nil_r. by destruct s. }
  destruct (HL id) as [u Hu]; [set_solver|].
  rewrite (bind_ok _ _ _ u s) by (unfold unit_of; rewrite bind_gets, Hu; done).
  assert (met_in s id = conditions_met u) as Hmi by (unfold met_in; by rewrite Hu).
  rewrite filter_cons. destruct (conditions_met u) eqn:Hm.
  - rewrite decide_True, bind_modify by done. rewrite IH by (intros; apply HL; set_solver).
    unfold set_pending. cbn. by rewrite <- app_assoc.
  - rewrite decide_False, bind_ret by congruence. apply IH. intros. apply HL. set_solver.
Qed.

Lemma inv_schedule s n id s' :
  scheduler_inv s → schedule_start_and_report_errors n id s = (Ok true, s') → scheduler_inv s'.
Proof.
  intros [Hnd Hj]. unfold schedule_start_and_report_errors, schedule_start. rewrite bind_modify.
  set (s0 := set_errors (λ _, []) s). unfold load_units.
  destruct (load_loop_spec s0 id n [id] [] s0 (loading_init s0 id)) as (r & s1 & Hl & Hld).
  rewrite (bind_ok _ _ _ _ _ Hl). destruct r as [L|]; [|done].
  specialize (Hld L eq_refl). destruct Hld as [(Hp & Hr & _) HndL Hfr Hun Hlds _ _ _].
  assert (∀ i, i ∈ L → is_Some (units (store s1) !! i)) as Hin.
  { intros i Hi. rewrite Hun, bool_decide_eq_true_2 by done. by apply Hlds. }
  rewrite (bind_ok _ _ _ _ _ (push_jobs_eq L s1 Hin)). intros [= <-].
  assert (queue s1 = queue s) as Hq by (unfold queue; by rewrite Hp).
  assert (∀ i, i ∈ L → i ∉ ran s ++ queue s) as Hnew.
  { intros i Hi (u & Hu & _)%Hj. specialize (Hfr i Hi). cbn in Hfr. congruence. }
  assert (∀ l : list UnitId, (j_unit <$> ((λ i, mk_job i Start) <$> l)) = l) as Hfm.
  { intros l. rewrite <- list_fmap_compose. apply list_fmap_id. }
  set (s2 := set_pending _ s1).
  assert (ran s2 ++ queue s2 = (ran s ++ queue s) ++ filter (λ i, met_in s1 i = true) L) as E.
  { unfold s2, queue. cbn. by rewrite fmap_app, Hfm, Hr, Hp, app_assoc. }
  split; rewrite ?E.
  - apply NoDup_app. split_and!; [done| |by apply NoDup_filter].
    intros i Hi [_ HiL]%list_elem_of_filter. by apply (Hnew i).
  - intros i. rewrite elem_of_app, Hj, list_elem_of_filter. unfold loaded_met, met_in, s2.
    cbn [store set_pending]. rewrite (Hun i). cbn [store set_errors].
    case_bool_decide as HiL.
    + specialize (Hnew i HiL). rewrite Hj in Hnew. unfold loaded_met in Hnew.
      destruct (unit_in s0 i); naive_solver.
    + naive_solver.
Qed.

Lemma inv_same_units s s' :
  scheduler_inv s → ran s' = ran s → pending s' = pending s →
  units (store s') = units (store s) → scheduler_inv s'.
Proof.
  intros [Hnd Hj] Hr Hp Hu. split; unfold queue, loaded_met in *; rewrite Hr, Hp; [done|].
  intros id. rewrite Hu. apply Hj.
Qed.

Lemma inv_step turns : ∀ s r s',
  scheduler_inv s → step fuel turns s = (r, s') → scheduler_inv s'.
Proof.
  induction turns as [|turns IH]; intros s r s' Hinv; cbn [step]; [by intros [= _ <-]|].
  destruct (pending s) as [|job rest] eqn:Hp.
  { unfold step_turn, gets, mbind, comp_bind. rewrite Hp. by intros [= _ <-]. }
  destruct (step_turn_cases s job rest Hinv Hp) as [[_ Hs]|[_ [w Hs]]];
    rewrite (bind_ok _ _ _ _ _ Hs); apply IH; [by apply inv_rotate|by apply inv_run].
Qed.

Lemma init_reachable_inv s : reachable s → scheduler_inv s.
Proof.
  induction 1 as [w|s w _ IH|s pre etc s' _ IH E|s id s' _ IH E|s n id s' _ IH E|s turns s' _ IH E].
  - split; [apply NoDup_nil_2|]. intros id. unfold loaded_met. cbn. rewrite lookup_empty, elem_of_nil.
    naive_solver.
  - by apply (inv_same_units s).
  - unfold switch_root in E. rewrite !bind_modify, bind_gets in E.
    case_match; unfold modify, mret, comp_ret in E; simplify_eq; by apply (inv_same_units s).
  - unfold set_runtime_target in E. rewrite bind_gets in E.
    repeat (case_match; try done). unfold modify in E. simplify_eq. by apply (inv_same_units s).
  - by eapply inv_schedule.
  - by eapply inv_step.
Qed.

(** C5. Start order.  In every state [init] can reach in which no group of queued units
    waits for each other, a run of the scheduler returns; it has then run every queued
    unit exactly once and no other, every unit that is loaded and meant for this machine
    has run by then, none twice, and each of them only after all the loaded units it
    requires. *)
Theorem init_runs_in_dependency_order s turns :
  reachable s → (∀ C, C ⊆ queue s → ¬ deadlock (store s) C) →
  (length (queue s) * length (queue s) < turns)%nat →
  ∃ order s', step fuel turns s = (Ok true, s') ∧ pending s' = [] ∧
    ran s' = ran s ++ order ∧ order ≡ₚ queue s ∧ NoDup (ran s') ∧
    (∀ id, id ∈ ran s' ↔ loaded_met s' id) ∧
    (∀ l1 id l2, ran s' = l1 ++ id :: l2 → id ∈ order → ∀ d,
       d ∈ deps (store s') id → loaded_met s' d → d ≠ id → d ∈ l1).
Proof.
  intros Hr Hno Ht.
  destruct (step_completes (length (queue s)) s turns eq_refl (init_reachable_inv s Hr) Hno Ht)
    as (order & s' & Hs & Hp & Ho & Hran & Hst & Hord & [Hnd Hj]).
  unfold queue in Hnd, Hj. rewrite Hp in Hnd, Hj. cbn in Hnd, Hj. rewrite app_nil_r in Hnd.
  setoid_rewrite app_nil_r in Hj.
  exists order, s'. split_and!; try done.
  intros l1 id l2 E Hid d Hd Hdm Hne. apply Hj in Hdm. rewrite E in Hdm.
  apply elem_of_app in Hdm as [?|[->|Hd2]%elem_of_cons]; [done|done|]. exfalso.
  rewrite Hran in E. rewrite Hran in Hnd.
  assert (∃ o1, order = o1 ++ id :: l2) as [o1 ->].
  { apply app_eq_inv in E as [(k & Hk' & Hk)|(k & Hk' & Hk)]; [|by exists k].
    destruct k as [|x k]; [by exists []|]. cbn in Hk. simplify_eq. exfalso.
    apply NoDup_app in Hnd as (_ & Hdis & _). eapply Hdis; [|exact Hid]. rewrite Hk'. set_solver. }
  rewrite Hst in Hd. by eapply ordered_app.
Qed.

(** A cycle of requirements stops the boot: in a reachable state in which some of the
    queued units each require another one of them, the scheduler rotates its queue
    for ever, and no number of turns makes it return. *)
Theorem init_cycle_never_returns s C turns :
  reachable s → deadlock (store s) C → C ⊆ queue s →
  (step fuel turns s).1 = Ok false.
Proof.
  intros Hr HC Hsub.
  destruct (step_deadlock C turns s (init_reachable_inv s Hr) HC Hsub) as (s' & -> & _). done.
Qed.

Lemma step_true_empty turns : ∀ s s',
  scheduler_inv s → step fuel turns s = (Ok true, s') → pending s' = [].
Proof.
  induction turns as [|turns IH]; intros s s' Hinv; cbn [step]; [done|].
  destruct (pending s) as [|job rest] eqn:Hp.
  { unfold step_turn, gets, mbind, comp_bind. rewrite Hp. by intros [= <-]. }
  destruct (step_turn_cases s job rest Hinv Hp) as [[_ Hs]|[_ [w Hs]]];
    rewrite (bind_ok _ _ _ _ _ Hs); apply IH; [by apply inv_rotate|by apply inv_run].
Qed.

Lemma bind_inv {A B} (m : comp (Init W) A) (f : A → comp (Init W) B) s b s' :
  (m ≫= f) s = (Ok b, s') → ∃ a s1, m s = (Ok a, s1) ∧ f a s1 = (Ok b, s').
Proof. unfold mbind, comp_bind. destruct (m s) as [[a|e|] s1]; naive_solver. Qed.

Lemma returns_inv (m k : comp (Init W) bool) s s' :
  returns m k s = (Ok true, s') → ∃ s1, m s = (Ok true, s1) ∧ k s1 = (Ok true, s').
Proof.
  unfold returns. intros ([] & s1 & Hm & Hk)%bind_inv; [by exists s1|done].
Qed.

Lemma reach_on_world {A} (m : comp W A) s r s' :
  reachable s → on_world m s = (r, s') → reachable s' ∧ pending s' = pending s.
Proof.
  unfold on_world, zoom. destruct (m (world s)) as [r' w]. intros Hr [= _ <-].
  split; [by apply reach_world|done].
Qed.

Lemma reach_entries n entries : ∀ s s',
  reachable s → schedule_entries n entries s = (Ok true, s') → reachable s'.
Proof.
  induction entries as [|e entries IH]; intros s s' Hr; cbn [schedule_entries]; [by intros [= <-]|].
  intros (name & s1 & He & Hk)%bind_inv.
  assert (s1 = s) as -> by (destruct (file_name e); cbn in He; unfold mret, comp_ret, panic in He; congruence).
  apply bind_inv in Hk as ([] & s2 & Hs & Hk); [|done].
  eapply IH; [|exact Hk]. by eapply reach_schedule.
Qed.

Lemma reach_main w n s' :
  init_main fuel n (init_new w) = (Ok true, s') → reachable s' ∧ pending s' = [].
Proof.
  unfold init_main. pose proof (reach_new w) as H0. revert H0. generalize (init_new w). intros s H0.
  intros ([] & s1 & E1 & K)%bind_inv. apply (reach_root _ _ _ _ H0) in E1 as H1.
  apply returns_inv in K as (s2 & E2 & K). apply (reach_schedule _ _ _ _ H1) in E2 as H2.
  apply returns_inv in K as (s3 & E3 & K). apply (reach_step _ _ _ H2) in E3 as H3.
  apply bind_inv in K as (x & s4 & E4 & K).
  assert (reachable s4) as H4.
  { unfold attempt in E4. destruct (on_world _ s3) as [r s4'] eqn:E.
    apply (reach_on_world _ _ _ _ H3) in E as [E _]. destruct r; naive_solver. }
  apply returns_inv in K as (s5 & E5 & K). apply (reach_schedule _ _ _ _ H4) in E5 as H5.
  apply bind_inv in K as ([] & s6 & E6 & K). apply (reach_target _ _ _ H5) in E6 as H6.
  apply returns_inv in K as (s7 & E7 & K). apply (reach_schedule _ _ _ _ H6) in E7 as H7.
  apply returns_inv in K as (s8 & E8 & K). apply (reach_step _ _ _ H7) in E8 as H8.
  apply bind_inv in K as ([] & s9 & E9 & K). apply (reach_root _ _ _ _ H8) in E9 as H9.
  rewrite bind_get in K. destruct (config_for_dirs _ _) as [err|entries].
  { injection K as <-. split; [done|].
    apply step_true_empty in E8; [|by apply init_reachable_inv].
    unfold switch_root in E9. rewrite !bind_modify, bind_gets in E9.
    case_match; unfold modify, mret, comp_ret in E9; by simplify_eq. }
  apply returns_inv in K as (s10 & E10 & K). apply (reach_entries _ _ _ _ H9) in E10 as H10.
  apply returns_inv in K as (s11 & E11 & K). apply (reach_step _ _ _ H10) in E11 as H11.
  apply bind_inv in K as (y & s12 & E12 & [= <-]).
  apply (reach_on_world _ _ _ _ H11) in E12 as [? ->]. split; [done|].
  eapply step_true_empty; [|exact E11]. by apply init_reachable_inv.
Qed.

End Running.

(** ** Configuration directories *)

Lemma string_le_cons a x b y :
  string_le (String a x) (String b y) ↔
  (N_of_ascii a < N_of_ascii b)%N ∨ a = b ∧ string_le x y.
Proof.
  unfold string_le, String.leb. cbn. unfold Ascii.compare.
  destruct (N.compare_spec (N_of_ascii a) (N_of_ascii b)) as [E|E|E].
  - assert (a = b) as <- by (rewrite <- (ascii_N_embedding a), E; apply ascii_N_embedding).
    split; [auto|]. intros [?|[_ ?]]; [lia|done].
  - naive_solver.
  - split; [done|]. intros [?|[-> _]]; lia.
Qed.

#[global] Instance string_le_trans : Transitive string_le.
Proof.
  intros x. induction x as [|a x IH]; intros [|b y] [|c z]; try done.
  rewrite !string_le_cons. intros [?|[-> ?]] [?|[-> ?]]; [left; lia|by left|by left|].
  right. split; [done|]. by eapply IH.
Qed.

#[global] Instance string_le_total : Total string_le.
Proof. intros x y. apply String.leb_total. Qed.

Definition entry_le {A} (p q : string * A) : Prop := string_le p.1 q.1.

#[global] Instance entry_le_trans {A} : Transitive (@entry_le A).
Proof. intros ???. unfold entry_le. apply string_le_trans. Qed.

#[global] Instance entry_le_total {A} : Total (@entry_le A).
Proof. intros ??. unfold entry_le. apply string_le_total. Qed.

Lemma btree_entries_sorted {A} (m : gmap string A) :
  StronglySorted string_le (btree_entries m).*1 ∧ NoDup (btree_entries m).*1.
Proof.
  split.
  - assert (StronglySorted entry_le (btree_entries m)) as H.
    { apply (StronglySorted_merge_sort entry_le). }
    induction H as [|p l _ IH Hp]; cbn; constructor; [done|].
    rewrite Forall_fmap. exact Hp.
  - unfold btree_entries. rewrite merge_sort_Permutation. apply NoDup_fst_map_to_list.
Qed.

Lemma elem_of_btree_entries {A} (m : gmap string A) k x :
  (k, x) ∈ btree_entries m ↔ m !! k = Some x.
Proof. unfold btree_entries. by rewrite merge_sort_Permutation, elem_of_map_to_list. Qed.

Section Config.
Context {W : Type} `{os : InitOs W}.
Implicit Types (w : W).

(** The directory [dir] exists and lists [name]. *)
Definition lists w (dir name : string) : Prop :=
  path_exists w dir = true ∧ ∃ names, read_dir w dir = inr names ∧ inr name ∈ names.

Lemma read_entries_spec dir names : ∀ entries entries',
  read_entries dir names entries = inr entries' →
  ∀ name, entries' !! name =
    if bool_decide (inr name ∈ names) then Some (join dir name) else entries !! name.
Proof.
  induction names as [|[err|n] names IH]; intros entries entries' E name; cbn in E; [|done|].
  { simplify_eq. rewrite bool_decide_eq_false_2; [done|]. apply not_elem_of_nil. }
  rewrite (IH _ _ E name). repeat case_bool_decide; try set_solver.
  - assert (name = n) as -> by set_solver. apply lookup_insert_eq.
  - apply lookup_insert_ne. set_solver.
Qed.

Lemma read_dirs_spec w dirs : ∀ entries entries',
  read_dirs w dirs entries = inr entries' →
  ∀ name path, entries' !! name = Some path ↔
    (∃ d1 dir d2, dirs = d1 ++ dir :: d2 ∧ lists w dir name ∧ path = join dir name ∧
       Forall (λ d, ¬ lists w d name) d2) ∨
    (Forall (λ d, ¬ lists w d name) dirs ∧ entries !! name = Some path).
Proof.
  induction dirs as [|dir dirs IH]; intros entries entries' E name path; cbn in E.
  { simplify_eq. split; [by right|]. intros [([] & ? & ? & ? & _)|[_ ?]]; done. }
  assert (∃ mid, read_dirs w dirs mid = inr entries' ∧
    (lists w dir name ∧ mid !! name = Some (join dir name) ∨
     ¬ lists w dir name ∧ mid !! name = entries !! name)) as (mid & Hmid & Hcase).
  { unfold lists. destruct (path_exists w dir); [|exists entries; naive_solver].
    destruct (read_dir w dir) as [|names]; [done|].
    destruct (read_entries dir names entries) as [|mid] eqn:Hr; [done|].
    exists mid. split; [done|]. rewrite (read_entries_spec _ _ _ _ Hr name).
    case_bool_decide; naive_solver. }
  rewrite (IH _ _ Hmid). clear IH. split.
  - intros [(d1 & d & d2 & -> & ?)|[Hf Hp]]; [left; by exists (dir :: d1), d, d2|].
    destruct Hcase as [[Hl E']|[Hl E']].
    + left. exists [], dir, dirs. split_and!; [done|done|congruence|done].
    + right. split; [by constructor|congruence].
  - intros [([|x d1] & d & d2 & E' & Hl & -> & Hf)|[Hf Hp]]; simplify_eq/=.
    + right. split; [done|]. naive_solver.
    + left. by exists d1, d, d2.
    + apply Forall_cons in Hf as [Hn Hf]. right. split; [done|]. naive_solver congruence.
Qed.

(** Configuration search: the files found are listed in the order of their names, one
    path for each name that some directory has, and that path is in the last of the
    directories that have it. *)
Theorem config_later_directory_wins w dirs paths :
  config_for_dirs w dirs = inr paths →
  ∃ entries : list (string * string), paths = entries.*2 ∧
    StronglySorted string_le entries.*1 ∧ NoDup entries.*1 ∧
    ∀ name path, (name, path) ∈ entries ↔
      ∃ d1 dir d2, dirs = d1 ++ dir :: d2 ∧ lists w dir name ∧ path = join dir name ∧
        Forall (λ d, ¬ lists w d name) d2.
Proof.
  unfold config_for_dirs. destruct (read_dirs w dirs ∅) as [|entries] eqn:E; [done|].
  intros [= <-]. exists (btree_entries entries).
  destruct (btree_entries_sorted entries) as [Hs Hn]. split_and!; [done..|].
  intros name path. rewrite elem_of_btree_entries, (read_dirs_spec w dirs ∅ entries E), lookup_empty.
  naive_solver.
Qed.

(** *** Main *)

(** A unit loaded after the runtime target is set, and that does not opt out,
    requires the runtime target. *)
Theorem init_default_dependency w dirs t id u :
  unit_for w dirs (Some t) id = Some u → default_dependencies (info u) = true →
  t ∈ requires_weak (info u).
Proof.
  unfold unit_for, load_single_unit, push_error.
  destruct (unit_filename id) as [[filename inst]|]; [|done].
  rewrite !bind_get. cbn [world store config_dirs runtime_target].
  destruct (find_path w dirs filename) as [path|]; [|done].
  destruct (from_file_eq id path inst w) as (r & errs & Hf).
  erewrite !bind_ok by (by apply Hf). destruct r as [err|v]; [done|].
  destruct (default_dependencies (info v)) eqn:Hd; rewrite bind_ret, bind_modify; cbn;
    rewrite lookup_insert_eq; intros [= <-]; cbn; [|congruence].
  intros _. apply elem_of_app. right. set_solver.
Qed.
End Config.
