(* ===== verification/InitExamples.v ===== *)
(** * Examples for init

    The theorems of [Init] run on a machine given by its files.  A unit file is the
    comma-separated list of the units it requires; programs start and succeed. *)

From S2P Require Import Prelude Text Init.

Definition demo_info (v : toml_value unit unit) : UnitInfo :=
  mk_unit_info None false
    (match v with TString s => filter (λ x, x ≠ EmptyString) (split ","%char s) | _ => [] end)
    None None.

Definition demo_files : Type := list (string * string).

Definition demo_dir (files : demo_files) (dir : string) : list string :=
  omap (λ '(path, _), match rsplit_once "/"%char path with
                      | Some (d, f) => if bool_decide (d = dir) then Some f else None
                      | None => None
                      end) files.

Definition demo_os : InitOs demo_files := {|
  Float := unit; Datetime := unit;
  env_var := λ _, None;
  path_exists := λ w p, bool_decide (p ∈ w.*1) || negb (bool_decide (demo_dir w p = []));
  read_to_string := λ w p,
    match filter (λ f, f.1 = p) w with (_, t) :: _ => inr t | [] => inl "not found" end;
  read_dir := λ w d, inr (inr <$> demo_dir w d);
  toml_from_str := λ t, inr (TString t);
  try_into_service := λ v, inr (demo_info v, mk_service "prog" [] ∅ ∅ (StScheme "disk"));
  try_into_target := λ v, inr (demo_info v);
  spawn := λ _ w, (Ok tt, w);
  wait := λ w, (Ok true, w);
  pipe := λ w, (Ok 3, w);
  read_notify := λ w, (Ok tt, w);
  call_ro_fd := λ w, (Ok (1, 4), w);
  getns := λ w, (Ok 5, w);
  register_scheme_to_ns := λ _ _ _ w, (Ok tt, w);
  fd_open := λ _ _ w, (Ok 6, w);
  dup2 := λ _ _ w, (Ok tt, w);
  setrens := λ w, (Ok tt, w);
  ARCH := "x86_64"; BOARD := None;
|}.

#[global] Instance ordered_dec st order : Decision (ordered st order).
Proof. induction order; cbn; apply _. Defined.

Section Examples.
#[local] Existing Instance demo_os.

Lemma demo_os_laws : InitOsLaws demo_files.
Proof. split; try done; intros; by repeat eexists. Qed.

Lemma demo_await (w : demo_files) : (await_fd 0 w).1 ≠ Panic.
Proof. done. Qed.

#[local] Existing Instance demo_os_laws.

Definition demo_boot : demo_files :=
  [("/scheme/initfs/lib/init.d/00_logd.service", EmptyString);
   ("/scheme/initfs/lib/init.d/00_runtime.target", EmptyString);
   ("/scheme/initfs/lib/init.d/90_initfs.target", "20_b.service,10_a.service");
   ("/scheme/initfs/lib/init.d/10_a.service", "20_b.service");
   ("/scheme/initfs/lib/init.d/20_b.service", EmptyString);
   ("/usr/lib/init.d/30_pci@.service", EmptyString);
   ("/usr/lib/init.d/40_c.service", "30_pci@0.service");
   ("/etc/init.d/40_c.service", "50_d.service");
   ("/etc/init.d/50_d.service", EmptyString)].

(** The units in the order in which they run *)
Example demo_boot_order :
  (init_main 0 20 (init_new demo_boot)).1 = Ok true ∧
  ran (init_main 0 20 (init_new demo_boot)).2 =
    ["00_logd.service"; "00_runtime.target"; "20_b.service"; "10_a.service"; "90_initfs.target";
     "30_pci@.service"; "50_d.service"; "40_c.service"].
Proof. split; vm_compute; reflexivity. Qed.

(** The state with the units of [target] loaded from the initial file system *)
Definition demo_root (w : demo_files) : Init demo_files :=
  (switch_root "/scheme/initfs" "/scheme/initfs/etc" (init_new w)).2.

Definition demo_queued (w : demo_files) (target : UnitId) : Init demo_files :=
  (schedule_start_and_report_errors 20 target (demo_root w)).2.

Lemma demo_root_eq w :
  switch_root "/scheme/initfs" "/scheme/initfs/etc" (init_new w) = (Ok tt, demo_root w).
Proof.
  unfold demo_root, switch_root. rewrite !bind_modify, !bind_gets. by case_match.
Qed.

Lemma demo_queued_reachable w target :
  (schedule_start_and_report_errors 20 target (demo_root w)).1 = Ok true →
  reachable 0 (demo_queued w target).
Proof.
  intros E. eapply (reach_schedule _ (demo_root w) 20 target).
  - eapply reach_root; [apply reach_new|apply demo_root_eq].
  - by apply fst_pair.
Qed.

Lemma init_load_units_closure_witness :
  ∃ L s', load_units 10 "90_initfs.target" (demo_root demo_boot) = (Ok (Some L), s') ∧ NoDup L ∧
    (∀ id, id ∈ L ↔
       wanted (demo_root demo_boot) "90_initfs.target" id ∧
       units (store (demo_root demo_boot)) !! id = None ∧ is_Some (unit_in (demo_root demo_boot) id)) ∧
    (∀ id, units (store s') !! id =
       if bool_decide (id ∈ L) then unit_in (demo_root demo_boot) id
       else units (store (demo_root demo_boot)) !! id) ∧
    same_scheduler (demo_root demo_boot) s'.
Proof.
  apply (init_load_units_closure _ _ ["90_initfs.target"; "10_a.service"; "20_b.service"]).
  - apply wanted_closed; [set_solver|vm_compute; reflexivity].
  - vm_compute. lia.
Defined.

Definition demo_template : demo_files :=
  [("/scheme/initfs/lib/init.d/t@.service", "t@a$INSTANCE.service")].

Fixpoint a_times (n : nat) (tail : string) : string :=
  match n with O => tail | S n => String "a"%char (a_times n tail) end.

Definition t_instance (n : nat) : UnitId := "t@" +:+ a_times n ".service".

Lemma t_instance_filename n :
  unit_filename (t_instance n) = Some ("t@.service", Some (a_times n EmptyString)).
Proof.
  unfold unit_filename, t_instance.
  assert (rsplit_once "."%char (a_times n ".service") = Some (a_times n EmptyString, "service")) as E.
  { induction n as [|n IH]; [done|]. cbn [a_times rsplit_once]. by rewrite IH. }
  change (split_once "@"%char ("t@" +:+ a_times n ".service")) with (Some ("t", a_times n ".service")).
  cbv beta iota. by rewrite E.
Qed.

Lemma t_instance_info n :
  demo_info (instance_toml (TString "t@a$INSTANCE.service") (a_times n EmptyString)) =
  mk_unit_info None false [t_instance (S n)] None None.
Proof.
  assert (∀ x, a_times n EmptyString +:+ x = a_times n x) as Happ.
  { intros x. induction n as [|n IH]; [done|]. cbn [a_times]. by rewrite <- IH. }
  assert (∀ a x, Ascii.eqb a ","%char = false → split ","%char x = [x] →
    split ","%char (String a x) = [String a x]) as Hstep.
  { intros a x Ha Hx. cbn [split]. by rewrite Ha, Hx. }
  assert (split ","%char (a_times n ".service") = [a_times n ".service"]) as Hsp.
  { clear Happ. induction n as [|n IH]; [reflexivity|]. by apply Hstep. }
  cbn [instance_toml]. unfold demo_info, replace.
  change (replace_from "$INSTANCE" (a_times n EmptyString) 0 "t@a$INSTANCE.service") with
    ("t@a" +:+ (a_times n EmptyString +:+ ".service")).
  rewrite Happ.
  assert (split ","%char ("t@a" +:+ a_times n ".service") = ["t@a" +:+ a_times n ".service"]) as ->.
  { by apply Hstep, Hstep, Hstep. }
  done.
Qed.

Definition t_path : string := "/scheme/initfs/lib/init.d/t@.service".

Lemma t_instance_unit n :
  unit_in (demo_root demo_template) (t_instance n) =
  Some (mk_unit (t_instance n) (mk_unit_info None false [t_instance (S n)] None None)
          (KService (mk_service "prog" [] ∅ ∅ (StScheme "disk")))).
Proof.
  unfold unit_in, unit_for, load_single_unit. rewrite t_instance_filename.
  remember (demo_root demo_template) as s eqn:Hs.
  assert (world s = demo_template) as -> by (subst; vm_compute; reflexivity).
  assert (config_dirs (store s) = ["/scheme/initfs/lib/init.d"; "/scheme/initfs/etc/init.d"]) as ->
    by (subst; vm_compute; reflexivity).
  assert (runtime_target (store s) = None) as -> by (subst; vm_compute; reflexivity).
  clear s Hs. rewrite bind_get. cbn [world store config_dirs runtime_target].
  assert (find_path demo_template ["/scheme/initfs/lib/init.d"; "/scheme/initfs/etc/init.d"] "t@.service"
    = Some t_path) as -> by (vm_compute; reflexivity).
  unfold from_file.
  erewrite bind_ok; cycle 1.
  { rewrite bind_gets. cbn [world].
    assert (read_to_string demo_template t_path = inr "t@a$INSTANCE.service") as -> by (vm_compute; reflexivity).
    assert (extension t_path = Some "service") as -> by (vm_compute; reflexivity).
    cbv beta iota. rewrite bool_decide_eq_true_2 by done.
    cbn [toml_from_str demo_os try_into_service]. by rewrite t_instance_info. }
  unfold mbind, comp_bind, mret, comp_ret, modify. cbn. by rewrite lookup_insert_eq.
Qed.

Lemma t_instance_wanted n : wanted (demo_root demo_template) (t_instance 0) (t_instance n).
Proof.
  induction n as [|n IH]; [constructor|].
  eapply wanted_dep; [exact IH|vm_compute; reflexivity|apply t_instance_unit|set_solver].
Qed.

Lemma t_instance_length n : (n < String.length (t_instance n))%nat.
Proof.
  assert (∀ m, (m ≤ String.length (a_times m ".service"))%nat) as H.
  { induction m; cbn [a_times String.length]; lia. }
  specialize (H n).
  change (String.length (t_instance n)) with (S (S (String.length (a_times n ".service")))). lia.
Qed.

(** Each instance of the template requires a longer one. *)
Lemma init_load_units_diverges_witness :
  (load_units 1000 "t@.service" (demo_root demo_template)).1 = Ok None.
Proof.
  apply (init_load_units_diverges (demo_root demo_template) (t_instance 0)).
  intros U. exists (t_instance (S (sum_list_with String.length U))).
  split; [apply t_instance_wanted|].
  intros Hin%(sum_list_with_in _ String.length).
  pose proof (t_instance_length (S (sum_list_with String.length U))). lia.
Defined.

Definition demo_ready : Init demo_files := demo_queued demo_boot "90_initfs.target".

Lemma init_runs_in_dependency_order_witness :
  ∃ order s', step 0 10 demo_ready = (Ok true, s') ∧ pending s' = [] ∧
    ran s' = ran demo_ready ++ order ∧ order ≡ₚ queue demo_ready ∧ NoDup (ran s') ∧
    (∀ id, id ∈ ran s' ↔ loaded_met s' id) ∧
    (∀ l1 id l2, ran s' = l1 ++ id :: l2 → id ∈ order → ∀ d,
       d ∈ deps (store s') id → loaded_met s' d → d ≠ id → d ∈ l1).
Proof.
  apply (init_runs_in_dependency_order 0 demo_await demo_ready 10).
  - apply demo_queued_reachable. vm_compute. reflexivity.
  - intros C HC. apply (ordered_no_deadlock _ ["20_b.service"; "10_a.service"; "90_initfs.target"]).
    + apply (bool_decide_unpack (ordered _ _)). vm_compute. exact I.
    + etrans; [exact HC|].
      assert (queue demo_ready = ["90_initfs.target"; "10_a.service"; "20_b.service"]) as ->
        by (vm_compute; reflexivity). clear. set_solver.
  - vm_compute. lia.
Defined.

(** Two services that require each other *)
Definition demo_cycle : demo_files :=
  [("/scheme/initfs/lib/init.d/x.service", "y.service");
   ("/scheme/initfs/lib/init.d/y.service", "x.service")].

Lemma init_cycle_never_returns_witness :
  (step 0 1000 (demo_queued demo_cycle "x.service")).1 = Ok false.
Proof.
  apply (init_cycle_never_returns 0 demo_await _ ["x.service"; "y.service"]).
  - apply demo_queued_reachable. vm_compute. reflexivity.
  - split; [done|]. repeat constructor; vm_compute; reflexivity.
  - assert (queue (demo_queued demo_cycle "x.service") = ["x.service"; "y.service"]) as ->
      by (vm_compute; reflexivity). done.
Defined.


Lemma config_later_directory_wins_witness :
  ∃ entries : list (string * string),
    ["/usr/lib/init.d/30_pci@.service"; "/etc/init.d/40_c.service"; "/etc/init.d/50_d.service"] = entries.*2 ∧
    StronglySorted string_le entries.*1 ∧ NoDup entries.*1 ∧
    ∀ name path, (name, path) ∈ entries ↔
      ∃ d1 dir d2, ["/usr/lib/init.d"; "/etc/init.d"] = d1 ++ dir :: d2 ∧
        lists demo_boot dir name ∧ path = join dir name ∧
        Forall (λ d, ¬ lists demo_boot d name) d2.
Proof. apply config_later_directory_wins. vm_compute. reflexivity. Defined.

(** A script has default dependencies. *)
Definition demo_script : demo_files := [("/usr/lib/init.d/00_base", "requires_weak 10_net")].

Lemma init_default_dependency_witness :
  ∃ u, unit_for demo_script ["/usr/lib/init.d"] (Some "00_runtime.target") "00_base" = Some u ∧
    "00_runtime.target" ∈ requires_weak (info u).
Proof.
  eexists. split; [vm_compute; reflexivity|].
  apply (init_default_dependency demo_script ["/usr/lib/init.d"] "00_runtime.target" "00_base").
  - vm_compute. reflexivity.
  - reflexivity.
Defined.
End Examples.
