(* ===== verification/Logd.v ===== *)
(** * logd

    The log scheme of [logd/src/scheme.rs].  A handle is opened with a context name;
    what each process writes to it is cut into lines, each line is prefixed with the
    context and sent to an output thread, which writes it to every sink and keeps the
    latest lines for sinks that are added later.  A second thread feeds the kernel log
    into the same output.

    The channel between the threads is the list [output] of the commands sent so far;
    the receiving end never goes away before the senders, so a send does not fail. *)

From S2P Require Import Prelude SchemeUtils.

Inductive LogHandle : Type :=
  | Log (context : string) (bufs : gmap Z bytes)
  | AddSink
  | SchemeRoot.

Inductive OutputCmd : Type :=
  | CmdLog (line : bytes)
  | CmdAddSink (log_fd : Z).

Record LogScheme := mk_log_scheme {
  handles : HandleMap LogHandle;
  output : list OutputCmd;
  kernel_debug : list bytes;
}.

Definition newline : Z := 10.

(** One byte of [LogScheme::write_logs]: the buffer of the handle and the lines sent *)
Definition log_byte (context : bytes) (st : bytes * list bytes) (b : Z) : bytes * list bytes :=
  let '(handle_buf, lines) := st in
  let handle_buf :=
    if bool_decide (handle_buf = []) && negb (bool_decide (context = []))
    then context ++ str_bytes ": " else handle_buf in
  let handle_buf := handle_buf ++ [b] in
  if bool_decide (b = newline) then ([], lines ++ [handle_buf]) else (handle_buf, lines).

(** [LogScheme::write_logs] *)
Definition write_logs (context : bytes) (handle_buf buf : bytes) : bytes * list bytes :=
  foldl (log_byte context) (handle_buf, []) buf.

Definition set_handles h (s : LogScheme) := mk_log_scheme h (output s) (kernel_debug s).

Definition send (cmds : list OutputCmd) (s : LogScheme) :=
  mk_log_scheme (handles s) (output s ++ cmds) (kernel_debug s).

Definition debug_write (lines : list bytes) (s : LogScheme) :=
  mk_log_scheme (handles s) (output s) (kernel_debug s ++ lines).

Definition log_new : LogScheme := mk_log_scheme hm_new [] [].

Definition on_handles {A} (m : comp (HandleMap LogHandle) A) : comp LogScheme A :=
  zoom handles set_handles m.

Definition scheme_root : comp LogScheme Z := on_handles (hm_insert SchemeRoot).

Definition openat (dirfd : Z) (path : string) : comp LogScheme Z :=
  hs ← gets handles;
  h ← lift (hm_get hs dirfd);
  match h with
  | SchemeRoot =>
     if bool_decide (path = "add_sink") then on_handles (hm_insert AddSink)
     else on_handles (hm_insert (Log path ∅))
  | _ => fail EACCES
  end.

Definition read (id : Z) : comp LogScheme Z :=
  hs ← gets handles;
  lift (hm_get hs id);;
  mret 0.

Definition write (id : Z) (buf : bytes) (pid : Z) : comp LogScheme Z :=
  hs ← gets handles;
  h ← lift (hm_get hs id);
  match h with
  | Log context bufs =>
     let '(handle_buf, lines) := write_logs (str_bytes context) (default [] (bufs !! pid)) buf in
     modify (set_handles (hm_set id (Log context (<[pid := handle_buf]> bufs)) hs));;
     modify (debug_write lines);;
     modify (send (CmdLog <$> lines));;
     mret (Z.of_nat (length buf))
  | SchemeRoot | AddSink => fail EBADF
  end.

(** [obtain_fd] is the answer of the kernel to the request for the descriptor. *)
Definition on_sendfd (id : Z) (obtain_fd : outcome Z) : comp LogScheme Z :=
  hs ← gets handles;
  h ← lift (hm_get hs id);
  match h with
  | AddSink =>
     new_fd ← lift obtain_fd;
     modify (send [CmdAddSink new_fd]);;
     mret 1
  | _ => fail EBADF
  end.

Definition fcntl (id : Z) : comp LogScheme Z :=
  hs ← gets handles;
  lift (hm_get hs id);;
  mret 0.

Definition fpath (id : Z) (buf : bytes) (s : LogScheme) : outcome nat * bytes :=
  fpath_with buf "log"
    (h ← lift (hm_get (handles s) id);
     match h with
     | Log context _ => push_str (str_bytes context)
     | AddSink => push_str (str_bytes "add_sink")
     | SchemeRoot => fail EBADF
     end).

Definition fsync (id : Z) : comp LogScheme unit :=
  hs ← gets handles;
  lift (hm_get hs id);;
  mret tt.

Definition on_close (id : Z) : comp LogScheme unit :=
  on_handles (hm_remove id);; mret tt.

(** ** The output thread of [LogScheme::new] *)

(** Its files, each with what has been written to it, and the lines kept for later ones *)
Record Output := mk_output {
  files : list (Z * list bytes);
  logs : list bytes;
}.

(** [while logs.len() > 1000 { logs.pop_front(); }] *)
Fixpoint trim_logs (logs : list bytes) : list bytes :=
  match logs with
  | [] => []
  | _ :: logs' => if bool_decide (1000 < length logs)%nat then trim_logs logs' else logs
  end.

Definition output_cmd (o : Output) (cmd : OutputCmd) : Output :=
  match cmd with
  | CmdLog line =>
     mk_output ((λ '(fd, written), (fd, written ++ [line])) <$> files o) (trim_logs (logs o ++ [line]))
  | CmdAddSink log_fd => mk_output (files o ++ [(log_fd, logs o)]) (logs o)
  end.

Definition output_thread (cmds : list OutputCmd) : Output := foldl output_cmd (mk_output [] []) cmds.

(** ** The kernel log thread of [LogScheme::new] *)

Definition kernel_buf_new : bytes := str_bytes "kernel: " ++ replicate 4088 0.

(** One turn of its loop: [data] is what [read] stored behind the prefix.  The whole
    buffer is passed on, not the part that was read. *)
Definition kernel_turn (st : bytes * bytes) (data : bytes) : (bytes * bytes) * list bytes :=
  let '(buf, handle_buf) := st in
  let buf := copy_at buf 8 data in
  let '(handle_buf, lines) := write_logs (str_bytes "kernel") handle_buf buf in
  ((buf, handle_buf), lines).

(** ** Lines

    What the scheme promises about a byte stream: its complete lines, each with the
    prefix in front, and the beginning of the next line. *)

Fixpoint cut (stream : bytes) : list bytes * bytes :=
  match stream with
  | [] => ([], [])
  | b :: stream =>
     let '(lines, rest) := cut stream in
     if bool_decide (b = newline) then ([b] :: lines, rest)
     else match lines with
          | line :: lines => ((b :: line) :: lines, rest)
          | [] => ([], b :: rest)
          end
  end.

Definition prefix_of (context : bytes) : bytes :=
  match context with [] => [] | _ => context ++ str_bytes ": " end.

Definition prefixed (context line : bytes) : bytes :=
  match line with [] => [] | _ => prefix_of context ++ line end.

Lemma cut_snoc stream b :
  cut (stream ++ [b]) =
  if bool_decide (b = newline) then ((cut stream).1 ++ [(cut stream).2 ++ [b]], [])
  else ((cut stream).1, (cut stream).2 ++ [b]).
Proof.
  induction stream as [|a stream IH]; cbn; [by case_bool_decide|].
  rewrite IH. destruct (cut stream) as [lines rest]; cbn.
  repeat case_bool_decide; subst; destruct lines; done.
Qed.

Lemma log_byte_prefixed context r lines b :
  log_byte context (prefixed context r, lines) b =
  if bool_decide (b = newline) then ([], lines ++ [prefixed context (r ++ [b])])
  else (prefixed context (r ++ [b]), lines).
Proof.
  unfold log_byte. assert (∀ c x, prefixed c (x ++ [b]) = prefix_of c ++ x ++ [b]) as Hp
    by (intros c []; done). rewrite Hp.
  destruct r as [|x r]; [destruct context; done|].
  rewrite (bool_decide_eq_false_2 (prefixed _ _ = [])); cbn.
  - by rewrite <- app_assoc.
  - intros H. by apply app_eq_nil in H as [_ ?].
Qed.

(** Writing a stream in pieces is the same as cutting the whole stream. *)
Lemma write_logs_cut context s1 s2 :
  write_logs context (prefixed context (cut s1).2) s2 =
    (prefixed context (cut (s1 ++ s2)).2,
     prefixed context <$> drop (length (cut s1).1) (cut (s1 ++ s2)).1).
Proof.
  unfold write_logs. induction s2 as [|b s2 IH] using rev_ind.
  { rewrite app_nil_r, drop_all. done. }
  rewrite foldl_snoc, IH, log_byte_prefixed, app_assoc, cut_snoc.
  case_bool_decide; cbn [fst snd]; [|done].
  rewrite drop_app_le, fmap_app; [done|].
  clear IH. induction s2 as [|c s2 IH] using rev_ind; [by rewrite app_nil_r|].
  rewrite app_assoc, cut_snoc. case_bool_decide; cbn [fst]; [|done]. len_lia.
Qed.

Lemma cut_app_lines s1 s2 :
  ∃ more, (cut (s1 ++ s2)).1 = (cut s1).1 ++ more.
Proof.
  induction s2 as [|b s2 [more IH]] using rev_ind.
  { exists []. by rewrite !app_nil_r. }
  rewrite app_assoc, cut_snoc. case_bool_decide; cbn [fst]; rewrite IH; [|by exists more].
  eexists. by rewrite <- app_assoc.
Qed.

(** ** Many writers *)

(** A write: the handle, the process, the bytes *)
Definition log_write : Type := Z * Z * bytes.

(** The commands sent by a sequence of writes, each tagged with its writer *)
Fixpoint run_writes (ws : list log_write) (s : LogScheme) : list ((Z * Z) * OutputCmd) * LogScheme :=
  match ws with
  | [] => ([], s)
  | (id, pid, buf) :: ws =>
     let s1 := (write id buf pid s).2 in
     let '(tr, s2) := run_writes ws s1 in
     (((λ c, ((id, pid), c)) <$> drop (length (output s)) (output s1)) ++ tr, s2)
  end.

(** All that one writer wrote *)
Definition stream_of (k : Z * Z) (ws : list log_write) : bytes :=
  concat ((λ '(id, pid, buf), if bool_decide ((id, pid) = k) then buf else []) <$> ws).

Definition sent_by (k : Z * Z) (tr : list ((Z * Z) * OutputCmd)) : list OutputCmd :=
  (filter (λ p, p.1 = k) tr).*2.

(** Writer [k] has the context [context], and has written [stream] so far. *)
Definition writer_at (k : Z * Z) (context : string) (stream : bytes) (s : LogScheme) : Prop :=
  ∃ bufs, hm_handles (handles s) !! k.1 = Some (Log context bufs) ∧
    default [] (bufs !! k.2) = prefixed (str_bytes context) (cut stream).2.

Lemma write_eq id buf pid s :
  write id buf pid s =
  match hm_handles (handles s) !! id with
  | Some (Log context bufs) =>
     let r := write_logs (str_bytes context) (default [] (bufs !! pid)) buf in
     (Ok (Z.of_nat (length buf)),
      mk_log_scheme (hm_set id (Log context (<[pid := r.1]> bufs)) (handles s))
        (output s ++ (CmdLog <$> r.2)) (kernel_debug s ++ r.2))
  | _ => (Err EBADF, s)
  end.
Proof.
  unfold write, hm_get. rewrite bind_gets. unfold lift, mbind, comp_bind.
  destruct (hm_handles (handles s) !! id) as [[context bufs| |]|]; try done.
  destruct (write_logs _ _ _); done.
Qed.

Lemma sent_by_app k t1 t2 : sent_by k (t1 ++ t2) = sent_by k t1 ++ sent_by k t2.
Proof. unfold sent_by. by rewrite filter_app, fmap_app. Qed.

Lemma sent_by_tag k k' cmds :
  sent_by k ((λ c, (k', c)) <$> cmds) = if bool_decide (k' = k) then cmds else [].
Proof.
  unfold sent_by. induction cmds as [|c cmds IH]; [by case_bool_decide|].
  rewrite fmap_cons, filter_cons. cbn [fst]. case_bool_decide as Hk.
  - rewrite decide_True by done. cbn. by rewrite IH.
  - by rewrite decide_False.
Qed.

Lemma write_writer k context stream id pid buf s :
  writer_at k context stream s →
  let s1 := (write id buf pid s).2 in
  let own := if bool_decide ((id, pid) = k) then buf else [] in
  writer_at k context (stream ++ own) s1 ∧
  (bool_decide ((id, pid) = k) = true →
   drop (length (output s)) (output s1) =
     CmdLog <$> (prefixed (str_bytes context) <$>
       drop (length (cut stream).1) (cut (stream ++ buf)).1)).
Proof.
  intros (bufs & Hh & Hb). rewrite write_eq. destruct k as [kid kpid]. cbn [fst snd] in *.
  case_bool_decide as Hk; [injection Hk as -> ->|].
  - rewrite Hh, Hb, write_logs_cut. split; cbn; [|by rewrite drop_app_length].
    eexists. cbn. rewrite lookup_insert_eq. split; [done|]. by rewrite lookup_insert_eq.
  - rewrite app_nil_r. split; [|done].
    destruct (hm_handles (handles s) !! id) as [[c' b'| |]|] eqn:E; try (by exists bufs).
    destruct (decide (id = kid)) as [->|Hne].
    + rewrite Hh in E. injection E as <- <-. eexists. cbn. rewrite lookup_insert_eq. split; [done|].
      rewrite lookup_insert_ne by congruence. done.
    + exists bufs. cbn. by rewrite lookup_insert_ne.
Qed.

Lemma run_writes_writer k context ws : ∀ stream s,
  writer_at k context stream s →
  sent_by k (run_writes ws s).1 =
    CmdLog <$> (prefixed (str_bytes context) <$>
      drop (length (cut stream).1) (cut (stream ++ stream_of k ws)).1) ∧
  writer_at k context (stream ++ stream_of k ws) (run_writes ws s).2.
Proof.
  induction ws as [|[[id pid] buf] ws IH]; intros stream s Hs; cbn.
  { rewrite app_nil_r, drop_all. done. }
  destruct (write_writer k context stream id pid buf s Hs) as [H1 H2].
  destruct (IH _ _ H1) as [H3 H4].
  destruct (run_writes ws (write id buf pid s).2) as [tr s2]. cbn [fst snd] in *.
  rewrite sent_by_app, sent_by_tag, H3. unfold stream_of. cbn. fold (stream_of k ws).
  rewrite (assoc (++)). split; [|exact H4].
  destruct (bool_decide ((id, pid) = k)) eqn:Hk; [|by rewrite !app_nil_r].
  rewrite H2 by done. rewrite <- !fmap_app. do 2 f_equal.
  destruct (cut_app_lines stream buf) as [m1 E1].
  destruct (cut_app_lines (stream ++ buf) (stream_of k ws)) as [m2 E2].
  rewrite E2, E1. rewrite <- !(assoc (++)). by rewrite !drop_app_length, app_assoc, drop_app_length.
Qed.

Lemma run_writes_output ws : ∀ s,
  output (run_writes ws s).2 = output s ++ (run_writes ws s).1.*2.
Proof.
  induction ws as [|[[id pid] buf] ws IH]; intros s; cbn; [by rewrite app_nil_r|].
  specialize (IH (write id buf pid s).2).
  destruct (run_writes ws (write id buf pid s).2) as [tr s2]. cbn [fst snd] in *.
  assert (∀ l : list OutputCmd, ((λ c, ((id, pid), c)) <$> l).*2 = l) as Hsnd.
  { intros l. rewrite <- list_fmap_compose. apply list_fmap_id. }
  rewrite IH, fmap_app, Hsnd, app_assoc. f_equal. rewrite write_eq.
  destruct (hm_handles (handles s) !! _) as [[]|]; cbn; by rewrite ?drop_all, ?app_nil_r, ?drop_app_length.
Qed.

(** Lines of the log: whatever processes write to whatever handles, in pieces of any
    size, the commands sent to the output are those of the single writers interleaved;
    what one process sends through one handle are exactly the complete lines of all the
    bytes it wrote there, in order, each with the context of the handle in front, and the
    unfinished line is what the handle keeps for it. *)
Theorem logd_lines ws s id pid context bufs :
  hm_handles (handles s) !! id = Some (Log context bufs) → bufs !! pid = None →
  let '(tr, s') := run_writes ws s in
  let stream := stream_of (id, pid) ws in
  output s' = output s ++ tr.*2 ∧
  sent_by (id, pid) tr = CmdLog <$> (prefixed (str_bytes context) <$> (cut stream).1) ∧
  ∃ bufs', hm_handles (handles s') !! id = Some (Log context bufs') ∧
    default [] (bufs' !! pid) = prefixed (str_bytes context) (cut stream).2.
Proof.
  intros Hh Hb. pose proof (run_writes_output ws s) as Ho.
  destruct (run_writes_writer (id, pid) context ws [] s) as [H1 H2].
  { exists bufs. cbn. by rewrite Hb. }
  destruct (run_writes ws s) as [tr s']. done.
Qed.

Lemma logd_lines_witness :
  let s := (openat 1 "init" (scheme_root log_new).2).2 in
  let ws := [(2, 7, str_bytes "he"); (2, 8, str_bytes "x"); (2, 7, [108; 10; 65])] in
  let '(tr, s') := run_writes ws s in
  output s' = output s ++ tr.*2 ∧
  sent_by (2, 7) tr = CmdLog <$> (prefixed (str_bytes "init") <$> (cut (stream_of (2, 7) ws)).1) ∧
  ∃ bufs', hm_handles (handles s') !! 2 = Some (Log "init" bufs') ∧
    default [] (bufs' !! 7) = prefixed (str_bytes "init") (cut (stream_of (2, 7) ws)).2.
Proof.
  cbv zeta. apply (logd_lines _ _ 2 7 "init" ∅); vm_compute; reflexivity.
Defined.

(** ** Sinks *)

Definition lines_in (cmds : list OutputCmd) : list bytes :=
  omap (λ c, match c with CmdLog line => Some line | CmdAddSink _ => None end) cmds.

Definition sinks_in (cmds : list OutputCmd) : nat :=
  length (omap (λ c, match c with CmdAddSink fd => Some fd | CmdLog _ => None end) cmds).

Definition lastn {A} (n : nat) (l : list A) : list A := drop (length l - n) l.

Lemma trim_logs_lastn l : trim_logs l = lastn 1000 l.
Proof.
  unfold lastn. induction l as [|x l IH]; [done|]. cbn [trim_logs]. case_bool_decide as H.
  - rewrite IH. replace (length (x :: l) - 1000)%nat with (S (length l - 1000)) by (cbn [length] in *; lia).
    done.
  - replace (length (x :: l) - 1000)%nat with 0%nat by lia. done.
Qed.

Lemma lastn_snoc {A} n (l : list A) x : lastn n (lastn n l ++ [x]) = lastn n (l ++ [x]).
Proof.
  unfold lastn. rewrite !length_app, length_drop. cbn [length].
  destruct (decide (n = 0)%nat) as [->|Hn].
  { rewrite !drop_ge; rewrite ?length_app, ?length_drop; cbn [length]; lia || done. }
  rewrite !drop_app_le by (rewrite ?length_drop; lia). rewrite drop_drop. do 2 f_equal. lia.
Qed.

Lemma output_thread_spec cmds :
  logs (output_thread cmds) = lastn 1000 (lines_in cmds) ∧
  length (files (output_thread cmds)) = sinks_in cmds.
Proof.
  unfold output_thread, sinks_in. induction cmds as [|c cmds [IH1 IH2]] using rev_ind; [done|].
  rewrite foldl_snoc. unfold lines_in in *. rewrite !omap_app, length_app.
  destruct c as [line|fd]; cbn [output_cmd logs files].
  - rewrite IH1, trim_logs_lastn, lastn_snoc, length_fmap, IH2. cbn. split; [done|lia].
  - rewrite IH1, length_app, IH2. cbn. by rewrite app_nil_r.
Qed.

(** Sinks: a sink first receives the lines sent before it was added, the latest
    thousand of them, and then every later line, in order. *)
Theorem logd_sink_backfill before fd after :
  files (output_thread (before ++ CmdAddSink fd :: after)) !! sinks_in before =
    Some (fd, lastn 1000 (lines_in before) ++ lines_in after).
Proof.
  destruct (output_thread_spec before) as [Hl Hf].
  induction after as [|c after IH] using rev_ind.
  - unfold output_thread. rewrite foldl_app. cbn. rewrite <- Hf.
    rewrite list_lookup_middle by done. rewrite <- Hl. by rewrite app_nil_r.
  - unfold output_thread in *. rewrite app_comm_cons, app_assoc, foldl_snoc.
    unfold lines_in in *. rewrite omap_app.
    destruct c as [line|fd']; cbn [output_cmd files].
    + rewrite list_lookup_fmap, IH. cbn. by rewrite app_assoc.
    + cbn. rewrite app_nil_r. rewrite lookup_app_l; [done|].
      apply lookup_lt_Some in IH. done.
Qed.

Lemma cut_no_newline u v :
  newline ∉ u →
  cut (u ++ v) =
  match (cut v).1 with [] => ([], u ++ (cut v).2) | l :: ls => ((u ++ l) :: ls, (cut v).2) end.
Proof.
  induction u as [|x u IH]; intros Hu; [cbn; by destruct (cut v) as [[|??] ?]|].
  cbn. rewrite IH by set_solver. rewrite bool_decide_eq_false_2 by set_solver.
  by destruct (cut v) as [[|??] ?].
Qed.

Lemma kernel_prefix_no_newline : newline ∉ str_bytes "kernel: ".
Proof. apply (bool_decide_unpack _). by vm_compute. Qed.

Lemma kernel_write_padded text k :
  newline ∉ text →
  write_logs (str_bytes "kernel") []
    ((str_bytes "kernel: " ++ text) ++ newline :: replicate (S k) 0) =
  (str_bytes "kernel: " ++ replicate (S k) 0, [str_bytes "kernel: kernel: " ++ text ++ [newline]]).
Proof.
  intros Ht.
  rewrite (write_logs_cut (str_bytes "kernel") []). cbn [app].
  assert (cut (replicate (S k) 0) = ([], replicate (S k) 0)) as Hz.
  { clear. generalize (S k). induction n as [|n IH]; [done|]. cbn. by rewrite IH. }
  rewrite cut_no_newline
    by (apply not_elem_of_app; split; [apply kernel_prefix_no_newline|done]).
  cbn [cut]. rewrite Hz, bool_decide_eq_true_2 by done. done.
Qed.

(** The kernel log is not copied faithfully: the first read of [n] bytes, one complete
    line, is sent with the prefix twice, and the rest of the 4096-byte buffer that [read]
    did not fill, zero bytes here, becomes the beginning of the next line. *)
Theorem logd_kernel_stale_bytes text :
  newline ∉ text → (length text < 4087)%nat →
  kernel_turn (kernel_buf_new, []) (text ++ [newline]) =
    ((copy_at kernel_buf_new 8 (text ++ [newline]),
      str_bytes "kernel: " ++ replicate (4087 - length text) 0),
     [str_bytes "kernel: kernel: " ++ text ++ [newline]]).
Proof.
  intros Ht Hlen. unfold kernel_turn.
  assert (∃ k, 4087 - length text = S k)%nat as [k Hk] by (exists (4086 - length text)%nat; lia).
  assert (copy_at kernel_buf_new 8 (text ++ [newline]) =
    (str_bytes "kernel: " ++ text) ++ newline :: replicate (S k) 0) as Hdata.
  { unfold copy_at, kernel_buf_new. rewrite take_app_length' by done.
    rewrite <- !app_assoc. do 2 f_equal. rewrite length_app, <- Hk. cbn [length].
    rewrite drop_app_ge by (cbn; lia). rewrite drop_replicate. cbn [app]. do 2 f_equal.
    change (length (str_bytes "kernel: ")) with 8%nat. lia. }
  rewrite Hdata, kernel_write_padded, Hk by done. done.
Qed.

Lemma logd_kernel_stale_bytes_witness :
  (kernel_turn (kernel_buf_new, []) (str_bytes "boot" ++ [newline])).2 =
    [str_bytes "kernel: kernel: boot" ++ [newline]] ∧
  (kernel_turn (kernel_buf_new, []) (str_bytes "boot" ++ [newline])).1.2 =
    str_bytes "kernel: " ++ replicate 4083 0.
Proof.
  rewrite (logd_kernel_stale_bytes (str_bytes "boot")).
  - split; [reflexivity|]. cbn [fst snd]. do 2 f_equal.
  - vm_compute. set_solver.
  - cbn. lia.
Defined.
