(* ===== verification/Zerod.v ===== *)
(** * zerod

    The null and zero devices of [zerod/src/scheme.rs].  The scheme has no state: every
    handle is number 0, and the device kind [Ty] is chosen at start-up. *)

From S2P Require Import Prelude Abi SchemeUtils.

Inductive Ty : Set := Null | Zero.

Definition SCHEME_ROOT_ID : Z := 1.

(** The choice made by [main]; any other argument is a panic *)
Definition ty_of_arg (arg : string) : option Ty :=
  if bool_decide (arg = "null") then Some Null
  else if bool_decide (arg = "zero") then Some Zero
  else None.

Definition openat (dirfd : Z) : outcome Z :=
  if bool_decide (dirfd = SCHEME_ROOT_ID) then Ok 0 else Err EACCES.

(** [read]: the count and the caller's buffer afterwards *)
Definition read (ty : Ty) (buf : bytes) : Z * bytes :=
  match ty with
  | Null => (0, buf)
  | Zero => (Z.of_nat (length buf), replicate (length buf) 0)
  end.

Definition write (buf : bytes) : Z := Z.of_nat (length buf).

Definition fpath (buf : bytes) : outcome nat * bytes := fpath_with buf "zero" (mret tt).

Record ZStat := mk_zstat { z_mode : Z; z_size : Z; z_blocks : Z; z_blksize : Z; z_nlink : Z }.

Definition fstat `{SyscallAbi} : ZStat := mk_zstat (Z.lor 438 MODE_CHR) 0 0 4096 1.

(** A reader of the zero device gets a full buffer of zeros, a reader of the null device
    gets end of file and keeps its buffer. *)
Lemma zerod_read ty buf :
  let '(n, out) := read ty buf in
  length out = length buf ∧
  take (Z.to_nat n) out = replicate (Z.to_nat n) 0 ∧
  drop (Z.to_nat n) out = drop (Z.to_nat n) buf ∧
  n = match ty with Null => 0 | Zero => write buf end.
Proof.
  destruct ty; cbn; [done|]. rewrite Nat2Z.id, length_replicate, take_ge, !drop_ge
    by (rewrite ?length_replicate; lia). done.
Qed.
