(* ===== verification/Randd.v ===== *)
(** * randd

    The random number scheme of [randd/src/main.rs]: permissions, handles, reading and
    reseeding.  The generator of [rand_chacha] and the digest of [sha2] are the class
    [Rng]; the hardware seed is a parameter of [rand_new]. *)

From S2P Require Import Prelude Abi SchemeUtils.

Definition rand_MODE_PERM : Z := 0x0FFF.
Definition MODE_WRITE : Z := 2.
Definition MODE_READ : Z := 4.
Definition DEFAULT_PRNG_MODE : Z := 420.
Definition SEED_BYTES : nat := 32.

(** [ChaCha20Rng] and [Sha256] *)
Class Rng := {
  rng : Type;
  from_seed : bytes → rng;
  set_stream : Z → rng → rng;
  fill_bytes : nat → rng → bytes * rng;
  sha256 : bytes → bytes;
}.

Class RngLaws (R : Rng) : Prop := {
  sha256_length m : length (sha256 m) = SEED_BYTES;
  fill_length n r : length (fill_bytes n r).1 = n;
}.

(** The fields of [Stat] that the scheme sets *)
Record RStat := mk_rstat { st_mode : Z; st_uid : Z; st_gid : Z }.

Record OpenFileInfo := mk_info {
  o_flags : Z;
  uid : Z;
  gid : Z;
  file_stat : RStat;
}.

(** [OpenFileInfo::permission] *)
Definition permission (f : OpenFileInfo) (op : Z) : bool :=
  let st := file_stat f in
  let perm := Z.land (st_mode st) 7 in
  let perm := if bool_decide (uid f = st_uid st)
              then Z.lor perm (Z.land (Z.shiftr (st_mode st) 6) 7) else perm in
  let perm := if bool_decide (gid f = st_gid st) || bool_decide (st_gid st = 0)
              then Z.lor perm (Z.land (Z.shiftr (st_mode st) 3) 7) else perm in
  let perm := if bool_decide (uid f = 0) then Z.lor perm 7 else perm in
  bool_decide (Z.land perm op = op).

(** [OpenFileInfo::o_flag_set] *)
Definition o_flag_set (f : OpenFileInfo) (fl : Z) : bool := bool_decide (Z.land fl (o_flags f) = fl).

Inductive Handle : Type :=
  | File (info : OpenFileInfo)
  | SchemeRoot.

Definition as_file (h : Handle) : option OpenFileInfo :=
  match h with File info => Some info | SchemeRoot => None end.

Section Randd.
Context `{abi : SyscallAbi} `{R : Rng}.

Record RandScheme := mk_rand {
  prng : rng;
  prng_stat : RStat;
  handles : HandleMap Handle;
}.

Definition set_prng r (s : RandScheme) := mk_rand r (prng_stat s) (handles s).
Definition set_stat st (s : RandScheme) := mk_rand (prng s) st (handles s).
Definition set_handles h (s : RandScheme) := mk_rand (prng s) (prng_stat s) h.

Definition rand_new (seed : bytes) : RandScheme :=
  mk_rand (from_seed seed) (mk_rstat (Z.lor MODE_CHR DEFAULT_PRNG_MODE) 0 0) hm_new.

Definition get_fd (fd : Z) : comp RandScheme OpenFileInfo :=
  hs ← gets handles;
  h ← lift (hm_get hs fd);
  ok_or EBADF (as_file h).

Definition can_perform_op_on_fd (fd op : Z) : comp RandScheme OpenFileInfo :=
  file_info ← get_fd fd;
  if permission file_info op then mret file_info else fail EPERM.

Definition reseed_prng (entropy : bytes) : comp RandScheme unit :=
  let hash := sha256 entropy in
  if bool_decide (length hash = SEED_BYTES) then modify (set_prng (from_seed hash)) else panic.

Definition open_inner (path : string) (fl u g : Z) : comp RandScheme Z :=
  if negb (bool_decide (path = EmptyString)) && negb (bool_decide (path = "/urandom")) then fail ENOENT
  else if bool_decide (Z.land fl (Z.lor O_CREAT O_EXCL) = Z.lor O_CREAT O_EXCL) then fail EEXIST
  else
    st ← gets prng_stat;
    let open_file_info := mk_info fl u g st in
    if (o_flag_set open_file_info O_RDONLY || o_flag_set open_file_info O_RDWR) &&
       negb (permission open_file_info MODE_READ) then fail EPERM
    else if (o_flag_set open_file_info O_WRONLY || o_flag_set open_file_info O_RDWR) &&
            negb (permission open_file_info MODE_WRITE) then fail EPERM
    else zoom handles set_handles (hm_insert (File open_file_info)).

Definition scheme_root : comp RandScheme Z := zoom handles set_handles (hm_insert SchemeRoot).

Definition openat (dirfd : Z) (path : string) (fl u g : Z) : comp RandScheme Z :=
  hs ← gets handles;
  h ← lift (hm_get hs dirfd);
  match h with
  | SchemeRoot => open_inner path fl u g
  | File _ => fail EACCES
  end.

(** [read]: the count and the caller's buffer afterwards *)
Definition read (id : Z) (buf : bytes) : comp RandScheme (Z * bytes) :=
  can_perform_op_on_fd id MODE_READ;;
  r ← gets prng;
  let '(out, r') := fill_bytes (length buf) (set_stream id r) in
  modify (set_prng r');;
  mret (Z.of_nat (length buf), out).

Definition write (id : Z) (buf : bytes) : comp RandScheme Z :=
  can_perform_op_on_fd id MODE_WRITE;;
  r ← gets prng;
  let '(rng_buf, r') := fill_bytes SEED_BYTES r in
  modify (set_prng r');;
  reseed_prng (rng_buf ++ buf);;
  mret (Z.of_nat (length buf)).

Definition fchmod (id mode u : Z) : comp RandScheme unit :=
  file_info ← get_fd id;
  if negb (bool_decide (u = st_uid (file_stat file_info))) && negb (bool_decide (u = 0)) then fail EPERM
  else
    st ← gets prng_stat;
    modify (set_stat (mk_rstat (Z.lor MODE_CHR (Z.land mode rand_MODE_PERM)) (st_uid st) (st_gid st))).

Definition fchown (id new_uid new_gid u : Z) : comp RandScheme unit :=
  file_info ← get_fd id;
  if negb (bool_decide (u = st_uid (file_stat file_info))) && negb (bool_decide (u = 0)) then fail EPERM
  else
    st ← gets prng_stat;
    modify (set_stat (mk_rstat (st_mode st) new_uid new_gid)).

Definition fevent : Z := EVENT_READ.

Definition fpath (buf : bytes) : outcome nat * bytes := fpath_with buf "rand" (mret tt).

Definition fstat (file : Z) : comp RandScheme RStat :=
  can_perform_op_on_fd file MODE_READ;;
  gets prng_stat.

Definition on_close (file : Z) : comp RandScheme unit :=
  zoom handles set_handles (hm_remove file);; mret tt.
End Randd.

(** ** Permissions *)

(** The permission bits that apply to a caller: those for others always, the owner's for
    the owner, the group's for the group, and all for root.  A file of group 0 grants its
    group bits to everyone. *)
Definition granted (f : OpenFileInfo) (bit : Z) : bool :=
  let m := st_mode (file_stat f) in
  Z.testbit m bit ||
  bool_decide (uid f = st_uid (file_stat f)) && Z.testbit m (6 + bit) ||
  (bool_decide (gid f = st_gid (file_stat f)) || bool_decide (st_gid (file_stat f) = 0)) &&
    Z.testbit m (3 + bit) ||
  bool_decide (uid f = 0).

Lemma land_pow2 x k : 0 ≤ k → bool_decide (Z.land x (2 ^ k) = 2 ^ k) = Z.testbit x k.
Proof.
  intros Hk. apply eq_true_iff_eq. rewrite bool_decide_eq_true. split.
  - intros E. apply (f_equal (λ y, Z.testbit y k)) in E.
    rewrite Z.land_spec, Z.pow2_bits_true, andb_true_r in E by done. done.
  - intros Hb. apply Z.bits_inj'. intros n Hn. rewrite Z.land_spec, Z.pow2_bits_eqb by done.
    destruct (Z.eqb_spec k n) as [->|]; [by rewrite Hb|apply andb_false_r].
Qed.

Lemma permission_granted f k :
  0 ≤ k < 3 → permission f (2 ^ k) = granted f k.
Proof.
  intros Hk. unfold permission, granted. set (m := st_mode (file_stat f)).
  assert (Z.testbit 7 k = true) as H7 by (assert (k = 0 ∨ k = 1 ∨ k = 2) as [->|[->| ->]] by lia; done).
  assert (∀ y, Z.testbit (Z.land y 7) k = Z.testbit y k) as Hl
    by (intros; by rewrite Z.land_spec, H7, andb_true_r).
  rewrite land_pow2 by lia.
  repeat case_bool_decide; cbn [orb andb]; rewrite ?Z.lor_spec, ?Hl, ?Z.shiftr_spec, ?H7 by lia;
    rewrite ?(Z.add_comm k), ?orb_true_r, ?orb_false_r; done.
Qed.

Section Theorems.
Context `{abi : SyscallAbi} `{R : Rng} `{!RngLaws R}.
Implicit Types s : RandScheme.

Lemma can_perform_eq s id op info :
  hm_handles (handles s) !! id = Some (File info) →
  can_perform_op_on_fd id op s = if permission info op then (Ok info, s) else (Err EPERM, s).
Proof.
  intros Hid. unfold can_perform_op_on_fd, get_fd, hm_get. unfold mbind, comp_bind, gets, lift.
  rewrite Hid. cbn. by destruct (permission info op).
Qed.

(** Access to random numbers: on an open file, reading and writing are allowed
    exactly by the permission bits that the file had for this caller when it was opened;
    a read fills the whole buffer from the stream of the descriptor, and a write reseeds
    the generator from a digest of its own output together with the bytes given, never
    from those bytes alone; a refused call changes nothing. *)
Theorem randd_access s id info buf :
  hm_handles (handles s) !! id = Some (File info) →
  let '(out, r_read) := fill_bytes (length buf) (set_stream id (prng s)) in
  let '(own, _) := fill_bytes SEED_BYTES (prng s) in
  read id buf s =
    (if granted info 2 then (Ok (Z.of_nat (length buf), out), set_prng r_read s)
     else (Err EPERM, s)) ∧
  length out = length buf ∧
  write id buf s =
    (if granted info 1 then
       (Ok (Z.of_nat (length buf)), set_prng (from_seed (sha256 (own ++ buf))) s)
     else (Err EPERM, s)) ∧
  length own = SEED_BYTES.
Proof.
  intros Hid.
  destruct (fill_bytes (length buf) (set_stream id (prng s))) as [out r1] eqn:E1.
  destruct (fill_bytes SEED_BYTES (prng s)) as [own r2] eqn:E2.
  pose proof (fill_length (length buf) (set_stream id (prng s))) as L1. rewrite E1 in L1.
  pose proof (fill_length SEED_BYTES (prng s)) as L2. rewrite E2 in L2.
  rewrite <- !permission_granted by lia. unfold read, write.
  split_and!; [|done| |done].
  - unfold mbind, comp_bind. rewrite (can_perform_eq s id MODE_READ info Hid).
    change (2 ^ 2) with MODE_READ. destruct (permission info MODE_READ); [|done].
    unfold gets. rewrite E1. done.
  - unfold mbind, comp_bind. rewrite (can_perform_eq s id MODE_WRITE info Hid).
    change (2 ^ 1) with MODE_WRITE. destruct (permission info MODE_WRITE); [|done].
    unfold gets. rewrite E2. unfold reseed_prng, modify. cbn.
    rewrite bool_decide_eq_true_2 by apply sha256_length. done.
Qed.

(** Group bits of group 0 are for everyone: when the device belongs to group 0, as it
    does from the start, the permissions of its group are granted to every caller, whatever
    the caller's group is. *)
Theorem randd_group_zero_is_everyone s id fl u g k :
  hm_handles (handles s) !! id = Some (File (mk_info fl u g (prng_stat s))) →
  st_gid (prng_stat s) = 0 → 0 ≤ k < 3 → Z.testbit (st_mode (prng_stat s)) (3 + k) = true →
  (can_perform_op_on_fd id (2 ^ k) s).1 = Ok (mk_info fl u g (prng_stat s)).
Proof.
  intros Hid Hg Hk Hm. rewrite (can_perform_eq _ _ _ _ Hid), permission_granted by done.
  unfold granted. cbn [file_stat uid gid].
  rewrite (bool_decide_eq_true_2 (st_gid _ = 0)) by done. rewrite Hm, !orb_true_r. done.
Qed.

(** A former owner keeps control: who owned the device when they opened it can still
    change its mode through that descriptor after root has given the device away. *)
Theorem randd_former_owner_can_chmod s id root_id info root_info owner mode new_uid new_gid :
  hm_handles (handles s) !! id = Some (File info) → st_uid (file_stat info) = owner →
  hm_handles (handles s) !! root_id = Some (File root_info) → owner ≠ new_uid →
  ∃ s1 s2, fchown root_id new_uid new_gid 0 s = (Ok tt, s1) ∧
    st_uid (prng_stat s1) ≠ owner ∧
    fchmod id mode owner s1 = (Ok tt, s2) ∧
    st_mode (prng_stat s2) = Z.lor MODE_CHR (Z.land mode rand_MODE_PERM).
Proof.
  intros Hid Ho Hroot Hne.
  exists (set_stat (mk_rstat (st_mode (prng_stat s)) new_uid new_gid) s).
  eexists. split_and!.
  - unfold fchown, get_fd, hm_get, mbind, comp_bind, gets, lift. rewrite Hroot. cbn.
    by rewrite andb_false_r.
  - cbn. congruence.
  - unfold fchmod, get_fd, hm_get, mbind, comp_bind, gets, lift. cbn [handles set_stat].
    rewrite Hid. cbn. rewrite bool_decide_eq_true_2 by done. reflexivity.
  - done.
Qed.
End Theorems.

(** ** Examples *)

(** A toy generator: a counter *)
Definition demo_rng : Rng := {|
  rng := Z;
  from_seed := λ seed, foldr Z.add 0 seed;
  set_stream := λ id r, r + id;
  fill_bytes := λ n r, (replicate n (r `mod` 256), r + 1);
  sha256 := λ m, replicate 32 (foldr Z.add 0 m `mod` 256);
|}.

Lemma demo_rng_laws : RngLaws demo_rng.
Proof. split; intros; apply length_replicate. Qed.

Section Examples.
#[local] Existing Instance redox_abi.
#[local] Existing Instance demo_rng.
#[local] Existing Instance demo_rng_laws.

(** Root opens the device, makes it writable by its group, and user 1000 opens it. *)
Definition demo_rand : RandScheme :=
  ((scheme_root ≫= λ root,
    openat root EmptyString O_RDWR 0 0 ≫= λ fd,
    fchmod fd 436 0;; openat root EmptyString O_RDWR 1000 1000) (rand_new [1; 2; 3])).2.

Lemma randd_access_witness :
  ∃ info, hm_handles (handles demo_rand) !! 3 = Some (File info) ∧
    let '(out, r_read) := fill_bytes 4 (set_stream 3 (prng demo_rand)) in
    let '(own, _) := fill_bytes SEED_BYTES (prng demo_rand) in
    read 3 [0; 0; 0; 0] demo_rand =
      (if granted info 2 then (Ok (4, out), set_prng r_read demo_rand) else (Err EPERM, demo_rand)) ∧
    length out = 4%nat ∧
    write 3 [0; 0; 0; 0] demo_rand =
      (if granted info 1 then
         (Ok 4, set_prng (from_seed (sha256 (own ++ [0; 0; 0; 0]))) demo_rand)
       else (Err EPERM, demo_rand)) ∧
    length own = SEED_BYTES.
Proof.
  eexists. split; [vm_compute; reflexivity|].
  apply (randd_access demo_rand 3 _ [0; 0; 0; 0]). vm_compute. reflexivity.
Defined.

(** User 1000 of group 1000 may reseed the generator. *)
Lemma randd_group_zero_is_everyone_witness :
  (can_perform_op_on_fd 3 2 demo_rand).1 = Ok (mk_info O_RDWR 1000 1000 (prng_stat demo_rand)).
Proof.
  apply (randd_group_zero_is_everyone demo_rand 3 O_RDWR 1000 1000 1); [vm_compute; reflexivity..|lia|].
  vm_compute. reflexivity.
Defined.

(** User 5 owned the device when they opened it. *)
Definition demo_rand_owned : RandScheme :=
  ((scheme_root ≫= λ root,
    openat root EmptyString O_RDWR 0 0 ≫= λ fd,
    fchown fd 5 5 0;; openat root EmptyString O_RDWR 5 5) (rand_new [])).2.

Lemma randd_former_owner_can_chmod_witness :
  ∃ s1 s2, fchown 2 6 6 0 demo_rand_owned = (Ok tt, s1) ∧ st_uid (prng_stat s1) ≠ 5 ∧
    fchmod 3 511 5 s1 = (Ok tt, s2) ∧
    st_mode (prng_stat s2) = Z.lor MODE_CHR (Z.land 511 rand_MODE_PERM).
Proof.
  eapply (randd_former_owner_can_chmod demo_rand_owned 3 2); [vm_compute; reflexivity..|done].
Defined.
End Examples.
