(* ===== verification/Audiod.v ===== *)
(** * audiod

    The mixer of [audiod/src/scheme.rs]: clients write 16-bit stereo samples to their
    handles, and a thread takes buffers of [HW_BUFFER_SIZE] mixed samples for the
    hardware.

    Scaling a sample by the volume is 32-bit floating point arithmetic,
    [(sample as f32 * factor) as i16] with [factor] the cube of [volume / 100.0]; it is
    the parameter [scale], of the volume and the sample. *)

From S2P Require Import Prelude Abi Text SchemeUtils.

Definition HW_BUFFER_SIZE : nat := 512.
Definition HANDLE_BUFFER_SIZE : nat := 4096.

(** A pair of [i16] *)
Definition sample : Type := Z * Z.

Inductive Handle : Type :=
  | Audio (buffer : list sample)
  | Volume
  | SchemeRoot.

Record AudioSchemeInner := mk_audio {
  handles : HandleMap Handle;
  volume : Z;
}.

Definition audio_new : AudioSchemeInner := mk_audio hm_new 50.

Definition set_handles h (s : AudioSchemeInner) := mk_audio h (volume s).
Definition set_volume v (s : AudioSchemeInner) := mk_audio (handles s) v.

Definition is_i16 (x : Z) : Prop := -32768 ≤ x ≤ 32767.

(** [i16::saturating_add] *)
Definition saturating_add (a b : Z) : Z := Z.max (-32768) (Z.min 32767 (a + b)).

(** The bits of an [i16], read as a signed number *)
Definition to_i16 (x : Z) : Z := if bool_decide (x < 32768) then x else x - 65536.

(** [(lo as i16) | ((hi as i16) << 8)] *)
Definition sample_of (lo hi : Z) : Z := to_i16 (Z.lor lo (Z.shiftl hi 8)).

Section Audiod.
Context (scale : Z → Z → Z).

(** The inner loop of [buffer]: the mix and the samples left *)
Fixpoint mix_one (vol : Z) (mix buffer : list sample) : list sample * list sample :=
  match mix with
  | [] => ([], buffer)
  | (l, r) :: mix' =>
     match buffer with
     | [] => (mix, [])
     | (sl, sr) :: buffer =>
        let '(mix', rest) := mix_one vol mix' buffer in
        ((saturating_add l (scale vol sl), saturating_add r (scale vol sr)) :: mix', rest)
     end
  end.

(** One handle of the outer loop *)
Definition mix_handle (vol : Z) (acc : list sample * gmap Z Handle) (h : Z * Handle) :
    list sample * gmap Z Handle :=
  match h with
  | (id, Audio buffer) =>
     let '(mix, rest) := mix_one vol acc.1 buffer in
     (mix, <[id := Audio rest]> acc.2)
  | _ => acc
  end.

(** [AudioSchemeInner::buffer] *)
Definition buffer_mix : comp AudioSchemeInner (list sample) :=
  s ← get;
  let '(mix, hs) := foldl (mix_handle (volume s)) (replicate HW_BUFFER_SIZE (0, 0), hm_handles (handles s))
                      (btree_iter (hm_handles (handles s))) in
  put (mk_audio (mk_handle_map hs (hm_next_id (handles s))) (volume s));;
  mret mix.
End Audiod.

Definition on_handles {A} (m : comp (HandleMap Handle) A) : comp AudioSchemeInner A :=
  zoom handles set_handles m.

Definition scheme_root : comp AudioSchemeInner Z := on_handles (hm_insert SchemeRoot).

(** The id, and whether the descriptor keeps a position *)
Definition openat (dirfd : Z) (path : string) : comp AudioSchemeInner (Z * bool) :=
  hs ← gets handles;
  h ← lift (hm_get hs dirfd);
  match h with
  | SchemeRoot =>
     let p := trim_slashes path in
     '(handle, positioned) ←
       (if bool_decide (p = []) then mret (Audio [], false)
        else if bool_decide (p = String.list_ascii_of_string "volume") then mret (Volume, true)
        else fail ENOENT);
     id ← on_handles (hm_insert handle);
     mret (id, positioned)
  | _ => fail EACCES
  end.

Definition read (id : Z) (buf : bytes) (off : Z) : comp AudioSchemeInner (Z * bytes) :=
  hs ← gets handles;
  h ← lift (hm_get hs id);
  match h with
  | Audio _ => fail EBADF
  | Volume =>
     vol ← gets volume;
     let src := drop (Z.to_nat off) (str_bytes (pretty vol)) in
     let len := Nat.min (length src) (length buf) in
     mret (Z.of_nat len, copy_at buf 0 (take len src))
  | SchemeRoot => fail EBADF
  end.

(** The samples of the loop of [write], four bytes each; an incomplete one is left *)
Fixpoint samples_of (buf : bytes) : list sample :=
  match buf with
  | b0 :: b1 :: b2 :: b3 :: buf => (sample_of b0 b1, sample_of b2 b3) :: samples_of buf
  | _ => []
  end.

Definition write (id : Z) (buf : bytes) (offset : Z) : comp AudioSchemeInner Z :=
  hs ← gets handles;
  h ← lift (hm_get hs id);
  match h with
  | Audio buffer =>
     if bool_decide (HANDLE_BUFFER_SIZE ≤ length buffer)%nat then fail EWOULDBLOCK
     else
       let new := samples_of buf in
       modify (set_handles (hm_set id (Audio (buffer ++ new)) hs));;
       mret (4 * Z.of_nat (length new))
  | Volume =>
     if bool_decide (offset = 0) then
       text ← ok_or EINVAL (from_utf8 buf);
       value ← ok_or EINVAL (parse_i32 (trim text));
       if bool_decide (0 ≤ value ∧ value ≤ 100) then
         modify (set_volume value);; mret (Z.of_nat (length buf))
       else fail EINVAL
     else mret 0
  | SchemeRoot => fail EBADF
  end.

(** The bytes handed to the hardware by the thread of [main.rs]: the mix in memory order *)
Definition i16_bytes (x : Z) : bytes := [x `mod` 256; (x `div` 256) `mod` 256].

Definition buffer_u8 (mix : list sample) : bytes :=
  concat ((λ '(l, r), i16_bytes l ++ i16_bytes r) <$> mix).

(** ** Mixing *)

Section Mixing.
Context (scale : Z → Z → Z).

(** Adding one buffer to a sample of the mix *)
Definition add_sample (vol : Z) (x : sample) (o : option sample) : sample :=
  match o with
  | Some (l, r) => (saturating_add x.1 (scale vol l), saturating_add x.2 (scale vol r))
  | None => x
  end.

Definition audio_buffers (hs : list (Z * Handle)) : list (list sample) :=
  omap (λ h, match h.2 with Audio b => Some b | _ => None end) hs.

Lemma mix_one_spec vol : ∀ mix buffer,
  length (mix_one scale vol mix buffer).1 = length mix ∧
  (mix_one scale vol mix buffer).2 = drop (length mix) buffer ∧
  ∀ i, (mix_one scale vol mix buffer).1 !! i = (λ x, add_sample vol x (buffer !! i)) <$> mix !! i.
Proof.
  induction mix as [|[l r] mix IH]; intros buffer; [done|].
  destruct buffer as [|[sl sr] buffer]; cbn.
  - split_and!; [done|done|]. intros i. by destruct ((_ :: _) !! i).
  - destruct (IH buffer) as (H1 & H2 & H3). destruct (mix_one scale vol mix buffer) as [m rest].
    cbn in *. split_and!; [congruence|done|]. intros [|i]; [done|]. apply H3.
Qed.

Lemma mix_fold_spec vol : ∀ (l : list (Z * Handle)) mix hs,
  NoDup l.*1 →
  let res := foldl (mix_handle scale vol) (mix, hs) l in
  length res.1 = length mix ∧
  (∀ i, res.1 !! i =
     (λ x, foldl (λ x b, add_sample vol x (b !! i)) x (audio_buffers l)) <$> mix !! i) ∧
  (∀ id, res.2 !! id =
     match (list_to_map l : gmap Z Handle) !! id with
     | Some (Audio b) => Some (Audio (drop (length mix) b))
     | _ => hs !! id
     end).
Proof.
  cbv zeta. induction l as [|[k h] l IH]; intros mix hs Hnd; cbn [foldl].
  { cbn. split_and!; [done| |done]. intros i. by destruct (mix !! i). }
  apply NoDup_cons in Hnd as [Hk Hnd].
  assert ((list_to_map l : gmap Z Handle) !! k = None) as Hlk
    by (by apply not_elem_of_list_to_map_1).
  destruct h as [b| |]; cbn [mix_handle fst snd].
  - destruct (mix_one_spec vol mix b) as (H1 & H2 & H3).
    destruct (mix_one scale vol mix b) as [m rest] eqn:E. cbn [fst snd] in *.
    destruct (IH m (<[k := Audio rest]> hs) Hnd) as (L1 & L2 & L3). rewrite H1 in *.
    split_and!; [done| |].
    + intros i. rewrite L2, H3. by destruct (mix !! i).
    + intros id. rewrite L3. cbn. destruct (decide (id = k)) as [->|Hne].
      * by rewrite Hlk, !lookup_insert_eq, H2.
      * by rewrite !lookup_insert_ne.
  - destruct (IH mix hs Hnd) as (L1 & L2 & L3). split_and!; [done|done|].
    intros id. rewrite L3. cbn. destruct (decide (id = k)) as [->|Hne].
    + by rewrite Hlk, lookup_insert_eq.
    + by rewrite lookup_insert_ne.
  - destruct (IH mix hs Hnd) as (L1 & L2 & L3). split_and!; [done|done|].
    intros id. rewrite L3. cbn. destruct (decide (id = k)) as [->|Hne].
    + by rewrite Hlk, lookup_insert_eq.
    + by rewrite lookup_insert_ne.
Qed.

Lemma btree_iter_map {T} (m : gmap Z T) : list_to_map (btree_iter m) = m.
Proof.
  rewrite <- (list_to_map_to_list m) at 2. apply list_to_map_proper.
  - apply btree_iter_NoDup.
  - unfold btree_iter. by rewrite merge_sort_Permutation.
Qed.

Lemma audiod_mix_spec s :
  let bufs := audio_buffers (btree_iter (hm_handles (handles s))) in
  ∃ mix s', buffer_mix scale s = (Ok mix, s') ∧ length mix = HW_BUFFER_SIZE ∧
    volume s' = volume s ∧
    (∀ i, (i < HW_BUFFER_SIZE)%nat →
       mix !! i = Some (foldl (λ x b, add_sample (volume s) x (b !! i)) (0, 0) bufs)) ∧
    (∀ id, hm_handles (handles s') !! id =
       match hm_handles (handles s) !! id with
       | Some (Audio b) => Some (Audio (drop HW_BUFFER_SIZE b))
       | h => h
       end).
Proof.
  cbv zeta. unfold buffer_mix. rewrite bind_get.
  destruct (mix_fold_spec (volume s) (btree_iter (hm_handles (handles s)))
    (replicate HW_BUFFER_SIZE (0, 0)) (hm_handles (handles s))) as (H1 & H2 & H3);
    [apply btree_iter_NoDup|].
  destruct (foldl _ _ _) as [mix hs]. cbn [fst snd] in *.
  eexists mix, _. split; [done|]. split_and!.
  - by rewrite H1, length_replicate.
  - done.
  - intros i Hi. by rewrite H2, lookup_replicate_2.
  - intros id. cbn. rewrite H3, btree_iter_map, length_replicate.
    destruct (hm_handles (handles s) !! id) as [[]|]; done.
Qed.

(** Mixing: a hardware buffer has 512 samples; each is the saturating sum, in the
    order of the handles, of the volume-scaled samples that the audio handles have at its
    position, silence where they have none; each handle loses exactly the samples that
    were mixed, and nothing else changes. *)
Theorem audiod_mix s :
  let bufs := audio_buffers (btree_iter (hm_handles (handles s))) in
  ∃ mix s', buffer_mix scale s = (Ok mix, s') ∧ length mix = HW_BUFFER_SIZE ∧
    volume s' = volume s ∧
    (∀ i, (i < HW_BUFFER_SIZE)%nat →
       mix !! i = Some (foldl (λ x b, add_sample (volume s) x (b !! i)) (0, 0) bufs)) ∧
    (∀ id, hm_handles (handles s') !! id =
       match hm_handles (handles s) !! id with
       | Some (Audio b) => Some (Audio (drop HW_BUFFER_SIZE b))
       | h => h
       end).
Proof. apply audiod_mix_spec. Qed.
End Mixing.

(** ** Samples *)

Lemma sample_of_bytes lo hi :
  is_u8 lo → is_u8 hi → is_i16 (sample_of lo hi) ∧ i16_bytes (sample_of lo hi) = [lo; hi].
Proof.
  unfold is_u8, is_i16, sample_of, to_i16, i16_bytes. intros Hlo Hhi.
  assert (Z.lor lo (Z.shiftl hi 8) = lo + 256 * hi) as ->.
  { rewrite Z.shiftl_mul_pow2 by lia. pose proof (Z.add_lor_land lo (hi * 2 ^ 8)).
    enough (Z.land lo (hi * 2 ^ 8) = 0) by lia.
    apply Z.bits_inj'. intros n Hn. rewrite Z.land_spec, Z.bits_0.
    destruct (Z.lt_ge_cases n 8).
    - rewrite Z.mul_pow2_bits_low by lia. apply andb_false_r.
    - rewrite <- (Z.mod_small lo (2 ^ 8)) by lia. by rewrite Z.mod_pow2_bits_high by lia. }
  case_bool_decide; (split; [lia|]).
  - rewrite (Z.mul_comm 256), Z.mod_add, Z.mod_small, Z.div_add, Z.div_small by lia.
    by rewrite Z.add_0_l, Z.mod_small by lia.
  - replace (lo + 256 * hi - 65536) with (lo + (hi - 256) * 256) by lia.
    rewrite Z.mod_add, Z.mod_small, Z.div_add, Z.div_small by lia.
    replace (0 + (hi - 256)) with (hi + (-1) * 256) by lia. by rewrite Z.mod_add, Z.mod_small by lia.
Qed.

Lemma samples_of_spec buf :
  Forall is_u8 buf →
  Forall (λ x, is_i16 x.1 ∧ is_i16 x.2) (samples_of buf) ∧
  buffer_u8 (samples_of buf) = take (4 * (length buf / 4)) buf.
Proof.
  remember (length buf) as n eqn:Hn. revert buf Hn.
  induction n as [n IH] using lt_wf_ind. intros buf -> Hb.
  destruct buf as [|b0 [|b1 [|b2 [|b3 buf]]]]; try (by split; [constructor|]).
  rewrite !Forall_cons in Hb. destruct Hb as (H0 & H1 & H2 & H3 & Hb).
  destruct (sample_of_bytes b0 b1) as [I1 E1]; [done..|].
  destruct (sample_of_bytes b2 b3) as [I2 E2]; [done..|].
  destruct (IH (length buf)) with buf as [J1 J2]; [cbn; lia|done|done|].
  split; [by constructor|]. unfold buffer_u8 in *. cbn [samples_of fmap list_fmap concat].
  rewrite E1, E2, J2. cbn [length app].
  replace (S (S (S (S (length buf)))) / 4)%nat with (S (length buf / 4))
    by (apply Nat.div_unique with (length buf mod 4)%nat;
        pose proof (Nat.div_mod_eq (length buf) 4);
        pose proof (Nat.mod_upper_bound (length buf) 4); lia).
  replace (4 * S (length buf / 4))%nat with (S (S (S (S (4 * (length buf / 4)))))) by lia. done.
Qed.

Lemma audio_buffers_single (m : gmap Z Handle) id b :
  m !! id = Some (Audio b) → (∀ k b', m !! k = Some (Audio b') → k = id) →
  audio_buffers (btree_iter m) = [b].
Proof.
  intros Hid Hone. pose proof (btree_iter_NoDup m) as Hnd.
  assert (∀ l, (∀ k b', (k, Audio b') ∉ l) → audio_buffers l = []) as Hnil.
  { induction l as [|[k h] l IH]; intros Hl; [done|]. unfold audio_buffers. cbn.
    destruct h as [b'| |]; [exfalso; apply (Hl k b'); set_solver| |]; apply IH; set_solver. }
  apply elem_of_btree_iter in Hid as Hin. apply list_elem_of_split in Hin as (l1 & l2 & E).
  assert (∀ k b', (k, Audio b') ∈ l1 ++ l2 → False) as Hno.
  { intros k b' Hk. assert (k = id) as ->.
    { apply (Hone k b'), elem_of_btree_iter. rewrite E. set_solver. }
    rewrite E, fmap_app in Hnd. cbn in Hnd. apply NoDup_app in Hnd as (_ & Hd & Hnd).
    apply NoDup_cons in Hnd as [Hn _].
    apply elem_of_app in Hk as [Hk|Hk]; apply (list_elem_of_fmap_2 fst) in Hk; set_solver. }
  rewrite E. unfold audio_buffers. rewrite omap_app. cbn.
  change (audio_buffers l1 ++ b :: audio_buffers l2 = [b]).
  rewrite !Hnil; [done|intros k' b' ?; apply (Hno k' b'); set_solver..].
Qed.

Lemma buffer_u8_app m1 m2 : buffer_u8 (m1 ++ m2) = buffer_u8 m1 ++ buffer_u8 m2.
Proof. unfold buffer_u8. by rewrite fmap_app, concat_app. Qed.

Lemma buffer_u8_silence n : buffer_u8 (replicate n (0, 0)) = replicate (4 * n) 0.
Proof.
  unfold buffer_u8. induction n as [|n IH]; [done|]. cbn [replicate fmap list_fmap concat].
  rewrite IH. replace (4 * S n)%nat with (4 + 4 * n)%nat by lia. by rewrite (replicate_add 4).
Qed.

Lemma length_buffer_u8 m : length (buffer_u8 m) = (4 * length m)%nat.
Proof.
  unfold buffer_u8. induction m as [|[l r] m IH]; [done|]. cbn [fmap list_fmap concat length].
  rewrite length_app, IH. cbn. lia.
Qed.

Lemma take_buffer_u8 n m : buffer_u8 (take n m) = take (4 * n) (buffer_u8 m).
Proof.
  rewrite <- (take_drop n m) at 2. rewrite buffer_u8_app. destruct (decide (n ≤ length m)%nat).
  - rewrite take_app_length'; [done|]. rewrite length_buffer_u8. len_lia.
  - rewrite (drop_ge m) by lia. change (buffer_u8 []) with (@nil Z).
    rewrite app_nil_r. symmetry. apply take_ge. rewrite length_buffer_u8. len_lia.
Qed.

Lemma saturating_add_0 x : is_i16 x → saturating_add 0 x = x.
Proof. unfold saturating_add, is_i16. lia. Qed.

(** Pass-through: what a client writes to the only audio handle, when its buffer has
    run empty, is accepted in whole samples; at a volume that leaves samples unchanged, the
    next buffer handed to the hardware starts with exactly those bytes, up to the size of
    the buffer, and ends in silence. *)
Theorem audiod_passthrough scale s id buf offset :
  Forall is_u8 buf →
  hm_handles (handles s) !! id = Some (Audio []) →
  (∀ k b, hm_handles (handles s) !! k = Some (Audio b) → k = id) →
  (∀ x, is_i16 x → scale (volume s) x = x) →
  ∃ n s1 mix s2, write id buf offset s = (Ok (4 * Z.of_nat n), s1) ∧
    n = (length buf / 4)%nat ∧
    buffer_mix scale s1 = (Ok mix, s2) ∧
    buffer_u8 mix = take (4 * HW_BUFFER_SIZE) (take (4 * n) buf ++ replicate (4 * HW_BUFFER_SIZE) 0).
Proof.
  intros Hb Hid Hone Hscale. destruct (samples_of_spec buf Hb) as [Hi16 Hbytes].
  set (new := samples_of buf) in *.
  set (s1 := set_handles (hm_set id (Audio new) (handles s)) s).
  assert (write id buf offset s = (Ok (4 * Z.of_nat (length new)), s1)) as Hw.
  { unfold write, hm_get. rewrite bind_gets, Hid. done. }
  assert (length new = (length buf / 4)%nat) as Hlen.
  { apply (f_equal length) in Hbytes. rewrite length_buffer_u8, length_take in Hbytes.
    pose proof (Nat.div_mod_eq (length buf) 4). lia. }
  destruct (audiod_mix_spec scale s1) as (mix & s2 & Hm & Hml & _ & Hmix & _).
  exists (length new), s1, mix, s2. split_and!; [done..|].
  assert (mix = take HW_BUFFER_SIZE (new ++ replicate HW_BUFFER_SIZE (0, 0))) as ->.
  { apply list_eq_same_length with HW_BUFFER_SIZE; [|done|].
    { rewrite length_take, length_app, length_replicate. lia. }
    intros i x y Hi Hx Hy. rewrite Hmix in Hx by done.
    rewrite (audio_buffers_single _ id new) in Hx; cycle 1.
    { cbn. by rewrite lookup_insert_eq. }
    { intros k b. cbn. destruct (decide (k = id)); [done|]. rewrite lookup_insert_ne by done. apply Hone. }
    cbn [foldl] in Hx. rewrite lookup_take_lt in Hy by done.
    destruct (new !! i) as [[l r]|] eqn:En.
    - rewrite (lookup_app_l_Some _ _ _ _ En) in Hy. rewrite Forall_lookup in Hi16.
      destruct (Hi16 i _ En) as [Hl Hr]. cbn in Hx, Hl, Hr.
      rewrite !Hscale, !saturating_add_0 in Hx by done. congruence.
    - rewrite lookup_app_r in Hy by (by apply lookup_ge_None_1).
      apply lookup_replicate_1 in Hy as [-> _]. cbn in Hx. congruence. }
  rewrite take_buffer_u8, buffer_u8_app, Hbytes, Hlen, buffer_u8_silence. done.
Qed.

Definition demo_audio : AudioSchemeInner := (openat 1 "/" (scheme_root audio_new).2).2.

Lemma audiod_passthrough_witness :
  ∃ n s1 mix s2, write 2 [1; 2; 255; 255; 5; 6; 7; 8; 9] 0 demo_audio = (Ok (4 * Z.of_nat n), s1) ∧
    n = 2%nat ∧ buffer_mix (λ _ x, x) s1 = (Ok mix, s2) ∧
    buffer_u8 mix = take (4 * HW_BUFFER_SIZE)
      (take (4 * n) [1; 2; 255; 255; 5; 6; 7; 8; 9] ++ replicate (4 * HW_BUFFER_SIZE) 0).
Proof.
  apply (audiod_passthrough (λ _ x, x) demo_audio 2 [1; 2; 255; 255; 5; 6; 7; 8; 9] 0).
  - repeat constructor; unfold is_u8; lia.
  - vm_compute. reflexivity.
  - intros k b. change (hm_handles (handles demo_audio)) with
      (<[2 := Audio []]> {[1 := SchemeRoot]} : gmap Z Handle).
    rewrite lookup_insert_Some, lookup_singleton_Some. naive_solver.
  - done.
Defined.
